(* ===== verification/_CoqProject ===== *)
-Q . S2P
Prelude.v
Util.v
Mem.v
Lzf.v
Rio.v
Ziplist.v
ZiplistOps.v
ZiplistRef.v
Resp.v
Robj.v
RdbString.v
Zset.v
Serdes.v
Intset.v
Dict.v
DictIter.v
DictApi.v
Hash.v
SetType.v
ZsetType.v
Pool.v
RocksApi.v
Keyspace.v
KeyspaceInv.v
HotKeys.v
RockRdb.v
Prog.v
Cmds.v
Room.v
RockJob.v
HotFull.v
Session.v
CmdLogic.v
Strings.v
HashCmds.v
Keys.v
Commands.v
Aof.v
Waiting.v
MainThread.v
System.v
Dump.v
Liveness.v
RockLua.v
Backlog.v
Replication.v
ReplSystem.v
ReplInv.v
ReplSteps.v
ReplSafe.v
