(* ===== verification/Prelude.v ===== *)
(** * RedRock: a verification library

    RedRock is Redis 6 with RocksDB as a second level of storage.  When memory is
    short, the value of a key is moved ("dumped") to RocksDB, and the dictionary keeps
    the key with the mark [shared.valueInRock].  A client whose command needs such
    a value waits, a thread of its own loads the value, and the main thread then runs
    the command.  The clients should not be able to tell.

    ** The program and where it is modelled

    Files named [x.c] are under src/src/.

    - Numbers, strings and objects.  [Util] has the conversions between integers and
      decimal strings of util.c and sds.c ([ll2string], [string2ll], [sdsll2str])
      and the integer encoding of ziplist.c; [Robj] has [robj], the constructors of
      object.c and the LRU and LFU clocks of evict.c; [Zset] the order of the skip
      list of t_zset.c.
    - Streams and RDB strings.  [Rio] is rio.h with the buffer of rio.c and the checksum of
      crc64.c; [RdbString] the lengths, integers and strings of the RDB format, in rdb.c, with
      loaders and savers composed of the ones before.
    - Serialization.  [Serdes] is rock_serdes.c: [serObject] writes a value with its
      type, encoding and LRU word, [desObject] reads it, for every encoding that
      can be dumped.
    - RocksDB.  [RocksApi] is rocksdbapi.cc.  RocksDB itself is the class
      [RocksDB] (get, put, snapshots) with the laws [RocksDBLaws] and, where a theorem
      says that nothing fails, [RocksDBReliable]; [map_rocksdb] is an instance.
    - The keyspace.  [Keyspace] has the state of db.c (a [redisDb] has [dict],
      [expires], [rockKeys], [hotKeys]) and the functions through which all commands
      reach it, with the hooks of rock_hotkey.c and the two functions of rock.c that
      move a value ([dumpValToRock], [_restore_obj_from_rocksdb]).  [KeyspaceInv] has
      what it means ([logical]: the value of a key, wherever it is), the invariants
      [ks_ok] and [hot_ok] and that every operation keeps them.
    - The hot keys and the dumps.  [Pool] is the array of candidates of rock_hotkey.c,
      [HotKeys] the start of the hot keys, flushing and swapping.  [Room] has the function
      [dumpValueToRockIfNeeded] and what calls it before a command: [getMaxmemoryState] and
      [freeMemoryIfNeededAndSafe] of evict.c and the step of [processCommand].  [HotFull] shows that
      no command misses a hot key, and [Dump] has what dumping does to the system.
    - Commands.  [Prog]: a command is a program over the calls of the keyspace
      ([prog], a tree of calls), run on a database with RocksDB ([run]) or on a plain
      dictionary ([arun]).  [Strings] has the commands of t_string.c, [Keys] those of
      db.c and expire.c, [Commands] puts them together; every other command is the
      argument [other].  [CmdLogic] is a logic for programs on a plain dictionary.
    - The keys a command needs.  [Cmds] has the command table of server.c and the
      check functions of rock_cmds.c.
    - Requests on the wire.  [Resp] has the parser of networking.c, which is called again
      and again while the bytes of a request come in, the loop of [processInputBuffer] with
      everything that stops it (a client that waits, is blocked, has a pending command or is
      to be closed), the quoting of sds.c, and how aof.c writes a command.
    - The append only file.  [Aof] has what aof.c writes for a command and how the
      file is loaded, whole or cut off.
    - Waiting.  [RockJob] is rock.c with the parts of server.c, networking.c and multi.c it
      works with: clients, the job slot, [checkCallValueInRock], the pipe handler
      and resuming.  [processCommand] looks the command up, makes room by dumping, refuses for
      lack of memory, queues, waits or calls; a [world] has what it finds outside of the
      databases, the random draws and the memory.  [Session] is the plain server, [Waiting] and
      [MainThread] relate the two step by step.  [System] adds the rock thread: an [event] is one
      atomic step of one thread.
    - Scripts.  [RockLua] is rock_lua.c and the part of scripting.c that calls
      commands: the refusals, the fields of [server] that a script changes ([lua]), and
      the mark CLIENT_MULTI of the Lua client.
    - Tables and sets in memory.  [Dict] is dict.c: two tables, the incremental move from
      one to the other, and the scan with a cursor; [Intset] is intset.c on the bytes of
      its block.  [DictIter] has the iterators of dict.c, and [DictApi] the class [SdsDict] of
      what the data types use of a dictionary, with dict.c and finite maps as instances.
    - Packed lists and compression.  [Mem] is a block of the allocator: bytes, some not yet
      written, where an access outside the block is an [Abort].  [Ziplist] is ziplist.c on such
      a block, [ZiplistOps] what its operations do to the chain of entries, with the
      cascade of changed lengths, and [ZiplistRef] runs of operations with a cursor.
      [Lzf] is lzf_c.c and lzf_d.c.
    - Data types.  [Hash] is a hash object of t_hash.c in its two encodings, a ziplist or a
      dictionary; [HashCmds] the commands of hashes, as programs over the keyspace;
      [SetType] a set object of t_set.c, an intset or a dictionary; [ZsetType] a sorted set of
      t_zset.c, a ziplist or a skip list with a dictionary, where [strtod], [snprintf] and the
      addition of doubles are parameters.
    - Replication.  [Backlog] is the circular buffer of replication.c, as memory;
      [Replication] has the rest of replication.c that concerns the stream, PSYNC, the IDs
      and the roles, with the parts of networking.c, rdb.c, syncio.c, server.c and rock.c it
      works with; [ReplSystem] puts any number of servers and the connections between
      them together.  [ReplInv] has the invariant, [ReplSteps] that every event keeps it,
      [ReplSafe] the theorems.
    - Background saving.  [RockRdb] is rock_rdb.c, [redisFork] of server.c and
      [rdbSaveBackground] of rdb.c: the child process, the service thread and the two
      pipes, one event for each [read] or [write].

    A function of the C code is a function of the same name; assertions, panics and
    [exit] are [Abort] of the type [res]; machine integers are [Z] with the wrap-around
    written out; strings are lists of bytes.  A loop of the C code is a [Fixpoint] of its
    own, as are the parts of long functions.

    ** What is shown

    - Invisibility.  [System.system_refines]: whatever the interleaving of requests,
      connections, dumps and the rock thread, the replies are those of the plain
      server of [Session], which has no RocksDB.  Its run is labelled: each event of the system
      brings it the same connection or requests, in the same order, and the requests the event
      answers; the requests of a client are answered in the order they were sent, and an OOM error
      comes only while memory is tight.  [RockLua.script_refines] says the same of scripts for
      which no MULTI is propagated,
      [Dump.dump_events] that making room is a sequence of events of the system.
      The commands enter through the classes [CommandSpec], [CommandSync] and
      [CommandTotal], for which [Commands] has instances.
    - No crash, no waiting for ever.  [System.system_no_crash]: no event fails an
      assertion, unless there is no room to be made.  [Liveness.waiting_ends]: the rock thread and
      the handler come to rest, and then nobody waits; while somebody waits, one of them has
      something to do.  [Dump.dump_returns]: making room ends.
    - Values survive.  [Serdes.serdes_roundtrip], [Serdes.desObject_terminates];
      [RockRdb.bgsave_snapshot] (the file has the contents at the fork),
      [RockRdb.bgsave_ends], [RockRdb.save_complete].
    - RDB strings.  [RdbString.string_roundtrip] (what is saved is loaded), [Rio.crc64_correct].
    - Bookkeeping.  [Cmds.check_covers] (no command that uses a value is missed by its check),
      [Dump.hot_keys_complete] (no value that can be dumped is overlooked), [Pool.pool_insert_refines] and
      [Pool.pool_pick_refines] (the array is a sorted list of the best candidates).
    - Requests.  [Resp.parser_safe] (no input fails an assertion, whatever the commands do to
      the client meanwhile),
      [Resp.resp_stream] (what the server writes is read back, in whatever pieces it
      comes), [Resp.inline_roundtrip].
    - The AOF.  [Aof.aof_crash] (whatever part of the file is there, the complete
      commands are executed and kept), [Aof.aof_replay] (what is written
      for a command with a time to live has the effect of the command, but for the time
      between the two readings of the clock).
    - Tables and sets.  [Dict.dict_refines] (a dictionary is a finite map, whatever the
      state of the move), [Dict.scan_complete] (a key that stays is returned by a scan,
      also when the table changes its size in between), [Dict.scan_once],
      [DictIter.safe_iteration] (a loop that changes the table it goes through),
      [Intset.intset_refines].
    - Packed lists and compression.  [ZiplistRef.ziplist_refines] (a ziplist under any calls is
      a list of strings and integers, and no access is outside its block),
      [Lzf.lzf_roundtrip] (what is compressed is decompressed, whatever was in the table of
      the compressor), [Lzf.lzf_decompress_safe] (no input makes the decompressor write outside
      its buffer).
    - Data types.  [Hash.hash_refines], [SetType.set_refines] and [ZsetType.zset_refines]: whatever
      the encoding, and whenever it changes, an object is a finite map or a finite set.
      [HashCmds.hash_commands]: so are the commands of hashes, and they leave values that
      can be dumped.
    - Replication.  [ReplSafe.replication_safe]: servers with a backlog, the same ID and the same
      offset have the same contents, whatever failovers, resynchronizations and restarts there were.
      [ReplSafe.psync_exact], [ReplSafe.replica_prefix], [ReplSafe.servers_wf] (the
      fields of a server fit together), [ReplSafe.feed_requests] (the stream is a sequence
      of requests, which [Resp.resp_stream] reads back), [Backlog.backlog_exact].
      These are about runs in which no command of a stream waits for RocksDB; with
      waiting, [ReplSafe.resume_diverges] and [ReplSafe.cached_master_crash] hold.
    - Commands and numbers.  [Strings.set_get], [Strings.incr_exact],
      [Util.string2ll_exact], [Util.ll2string_equiv].
    - Where the code does not do what it means to: [RockLua.marked_job_starves],
      [RockLua.script_write_reads_250], [RockLua.script_in_multi],
      [RockLua.script_loaded_undumpable], [HotKeys.swapdb_loses_values],
      [HotKeys.flush_switches_off], [RockRdb.fork_failure],
      [RockRdb.second_fork_aborts], [Dump.first_db_decides],
      [Dump.nothing_to_dump], [Cmds.zstore_in_multi],
      [Strings.setrange_overflow], [Aof.set_stops_server], [Aof.keepttl_lost],
      [Aof.open_transaction], [Aof.preamble_lost], [ReplSafe.resume_diverges],
      [ReplSafe.cached_master_crash], [HashCmds.hincrbyfloat_leaves_empty].

    The theorems on the system are about requests that do not run into these:
    [Session.covered] and [MainThread.req_safe] leave out UNLINK, the check functions
    of ZUNIONSTORE, ZINTERSTORE and MIGRATE, SELECT inside MULTI, and QUIT;
    EVAL, FLUSHDB and SWAPDB are among the commands that are not programs over
    the keyspace.  The configuration has lazyfree-lazy-expire off: then no key is
    deleted by [dbAsyncDelete], which leaves the key among the hot keys with a string that has
    been freed, and the hot keys can be modelled by their contents.  Memory is made free by dumping
    (maxmemory-only-for-rocksdb): a server that goes on to evict keys is left out by
    [Room.view_ok].

    ** Bounds and fuel

    - The loops of [desObject] get the length of the buffer: every turn consumes a
      byte, and [Serdes.desObject_terminates] shows that the fuel never runs out.
    - [processInput] gets the number of requests in the buffer.
    - [key_positions] gets the number of arguments.
    - The loop of [dumpValueToRockIfNeeded] makes at most 63 tries, as in the code.
      Its inner loop has fuel; [Dump.dump_returns] shows that 2 turns are enough
      when a sample of a table that is not empty is not empty.
    - [requests] and [input_loop] get the number of bytes that have not been parsed, and
      [Resp.parser_safe] shows that it does not run out; [split_words] gets the length of the line, as
      every word takes a character.
    - [load_loop] gets one more than the length of the file, as every
      command takes a byte ([Aof.aof_crash]).
    - [rehash_skip] and [scan_large] get the size of the table, [next_power] 64 doublings,
      [rev] the 6 halvings of 64 bits, [intsetSearch_loop] the length of the set.
    - The loops of [Ziplist] get the size of the block, as an entry has a byte at least; its
      theorems are about ziplists below 2^32 bytes, the width of their fields.
    - [next_loop] gets the number of buckets, as every turn but the first goes to another;
      [convert_loop], [zzl_find_loop], [zzl_insert_loop] and [to_skiplist_loop] the size of the ziplist, [pairs_loop] and [members_loop] the number of
      members.
    - The loops of [Lzf] get the length of the input, as every turn takes a byte; [extend_match]
      the longest match, [rest_literals] the 2 turns the loop can have.
    - [feed_loop] gets the number of bytes, as every turn writes one; [reply_loop] gets 2
      turns, as the end of the buffer is passed at most once ([Backlog.backlog_exact]).
    - [Liveness] and [RockRdb] bound their runs by measures computed from the state.

    ** Not modelled

    - RocksDB, Lua, the system calls and the allocator; what the code relies on is in
      classes and arguments.  The keys a random sample contains and the memory a dump frees
      are the class [Sampling]; the order of a hash table is [DictOrder].
    - The commands of lists, sets, sorted sets and streams: RedRock does not change them, and the
      theorems on the system hold for any program that keeps to the keys its check function
      lists.  Those of hashes are not part of [Commands], whose programs may not fail on any
      value.
    - Of [processCommand], the tests of access control, clusters, disk errors, replicas, pub/sub,
      loading and busy scripts, and the eviction of keys ([freeMemoryIfNeeded]).
    - The encoding of replies, clusters, WATCH, modules, access control and statistics.
    - Of replication, the handshake before PSYNC, SYNC of old replicas, diskless transfers,
      acknowledgements and WAIT, timeouts, and the database a replica has selected.
      Of dictionaries, the random samples; of ziplists, [ziplistRepr],
      which prints one.
    - Of RDB files, the values of the other types and the frame of the file: what is modelled is
      which value is written for a key, and how strings are written.  Of the AOF, its rewriting and its flushing to the disk.
    - The spin lock: a critical section is one event. *)

From Stdlib Require Export ZArith Lia.
From Stdlib.Init Require Export Byte.
From Stdlib.Strings Require Import Byte.
From stdpp Require Export base tactics list gmap strings countable.

#[local] Open Scope Z_scope.

(** ** Results: a C function that can stop the process

    [serverAssert], [serverPanic], [exit(1)], [std::terminate] and a failing
    C++ [assert] all end the server process.  A function that can reach one of
    them returns a [res]; [Abort] carries the name of the check that fired. *)

Inductive res (A : Type) : Type :=
| Ok (a : A)
| Abort (msg : string).
Arguments Ok {A} a.
Arguments Abort {A} msg%_string.

#[global] Instance res_ret : MRet res := fun A a => Ok a.
#[global] Instance res_bind : MBind res := fun A B f m =>
  match m with
  | Ok a => f a
  | Abort msg => Abort msg
  end.
#[global] Instance res_fmap : FMap res := fun A B f m =>
  match m with
  | Ok a => Ok (f a)
  | Abort msg => Abort msg
  end.

Definition serverAssert (b : bool) (msg : string) : res unit :=
  if b then Ok tt else Abort msg.

Arguments serverAssert b msg%_string.

Definition is_ok {A} (r : res A) : bool :=
  match r with Ok _ => true | Abort _ => false end.

(** An [option] whose [None] is a NULL the code asserts or dereferences. *)
Definition res_of_option {A} (o : option A) (msg : string) : res A :=
  match o with Some a => Ok a | None => Abort msg end.

Arguments res_of_option {A} o msg%_string.

Lemma bind_Ok {A B} (f : A → res B) (m : res A) b :
  (m ≫= f) = Ok b ↔ ∃ a, m = Ok a ∧ f a = Ok b.
Proof. destruct m; cbn; naive_solver. Qed.

Lemma serverAssert_Ok b msg u : serverAssert b msg = Ok u ↔ b = true.
Proof. unfold serverAssert. destruct b, u; naive_solver. Qed.

Lemma res_of_option_Ok {A} (o : option A) msg a :
  res_of_option o msg = Ok a ↔ o = Some a.
Proof. destruct o; naive_solver. Qed.

(** [inv_res] takes an equation [m = Ok x] apart along the binds of [m]. *)
Ltac inv_res_step :=
  match goal with
  | H : (_ ≫= _) = Ok _ |- _ =>
      let a := fresh "a" in let H1 := fresh H in
      apply bind_Ok in H as (a & H1 & H)
  | H : serverAssert _ _ = Ok _ |- _ => apply serverAssert_Ok in H
  | H : res_of_option _ _ = Ok _ |- _ => apply res_of_option_Ok in H
  | H : Ok _ = Ok _ |- _ => injection H as H
  | H : mret ?x = Ok ?y |- _ => change (Ok x = Ok y) in H
  | H : Abort _ = Ok _ |- _ => discriminate H
  end.
Ltac inv_res := repeat (inv_res_step; simplify_eq/=).

(** ** Bytes and little-endian words

    Strings, keys and serialized values are sequences of bytes. *)

#[global] Instance byte_eq_dec : EqDecision byte := Byte.byte_eq_dec.
#[global] Program Instance byte_countable : Countable byte :=
  inj_countable Byte.to_N Byte.of_N _.
Next Obligation. apply Byte.of_to_N. Qed.

Abbreviation bytes := (list byte).

Definition byte_of_Z (z : Z) : byte :=
  match Byte.of_N (Z.to_N (z mod 256)) with Some b => b | None => x00 end.
Definition Z_of_byte (b : byte) : Z := Z.of_N (Byte.to_N b).

Lemma Z_of_byte_range b : 0 ≤ Z_of_byte b < 256.
Proof.
  unfold Z_of_byte. pose proof (Byte.to_N_bounded b). lia.
Qed.

Lemma Z_of_byte_of_Z z : Z_of_byte (byte_of_Z z) = z mod 256.
Proof.
  unfold byte_of_Z, Z_of_byte.
  pose proof (Z.mod_pos_bound z 256 ltac:(lia)).
  destruct (Byte.of_N (Z.to_N (z mod 256))) as [b|] eqn:E.
  - apply Byte.to_of_N in E. rewrite E. lia.
  - apply Byte.of_N_None_iff in E. lia.
Qed.

Lemma byte_of_Z_of_byte b : byte_of_Z (Z_of_byte b) = b.
Proof.
  unfold byte_of_Z. rewrite Z.mod_small by apply Z_of_byte_range.
  unfold Z_of_byte. rewrite N2Z.id, Byte.of_to_N. done.
Qed.

#[global] Instance Z_of_byte_inj : Inj (=) (=) Z_of_byte.
Proof. intros a b E. rewrite <- (byte_of_Z_of_byte a), E. apply byte_of_Z_of_byte. Qed.

(** [memcpy] of an [n]-byte unsigned integer out of and into memory, on the
    little-endian targets the server is built for. *)
Fixpoint le_split (n : nat) (z : Z) : bytes :=
  match n with
  | O => []
  | S n' => byte_of_Z z :: le_split n' (z / 256)
  end.
Fixpoint le_combine (bs : bytes) : Z :=
  match bs with
  | [] => 0
  | b :: bs' => Z_of_byte b + 256 * le_combine bs'
  end.

Lemma length_le_split n z : length (le_split n z) = n.
Proof. revert z. induction n; intros; cbn; auto. Qed.

Lemma pow2_8S (n : nat) : 2 ^ (8 * Z.of_nat (S n)) = 256 * 2 ^ (8 * Z.of_nat n).
Proof.
  replace (8 * Z.of_nat (S n)) with (8 + 8 * Z.of_nat n) by lia.
  rewrite Z.pow_add_r by lia. done.
Qed.

Lemma le_combine_split n z : le_combine (le_split n z) = z mod 2 ^ (8 * Z.of_nat n).
Proof.
  revert z. induction n as [|n IH]; intros z; cbn [le_split le_combine].
  - rewrite Z.mod_1_r. done.
  - rewrite IH, Z_of_byte_of_Z, pow2_8S.
    rewrite (Z.rem_mul_r z 256); [lia| |apply Z.pow_pos_nonneg]; lia.
Qed.

Lemma le_combine_range bs : 0 ≤ le_combine bs < 2 ^ (8 * Z.of_nat (length bs)).
Proof.
  induction bs as [|b bs IH]; [cbn; lia|].
  cbn [le_combine length]. rewrite pow2_8S.
  pose proof (Z_of_byte_range b). lia.
Qed.

Lemma le_split_combine bs n : length bs = n → le_split n (le_combine bs) = bs.
Proof.
  intros <-. induction bs as [|b bs IH]; [done|].
  cbn [length le_combine le_split]. pose proof (Z_of_byte_range b).
  f_equal.
  - apply (inj Z_of_byte). rewrite Z_of_byte_of_Z, Z.mul_comm, Z.mod_add by lia.
    by rewrite Z.mod_small.
  - rewrite Z.mul_comm, Z.div_add, Z.div_small by lia. done.
Qed.

Lemma le_combine_split_small n z :
  0 ≤ z < 2 ^ (8 * Z.of_nat n) → le_combine (le_split n z) = z.
Proof. intros. by rewrite le_combine_split, Z.mod_small. Qed.

(** A [w]-bit two's complement reading of an integer. *)
Definition to_signed (w z : Z) : Z :=
  let m := z mod 2 ^ w in
  if m <? 2 ^ (w - 1) then m else m - 2 ^ w.

Definition u64 (z : Z) : Z := z mod 2 ^ 64.
Definition u32 (z : Z) : Z := z mod 2 ^ 32.

Lemma to_signed_mod w z : 0 < w → to_signed w (z mod 2 ^ w) = to_signed w z.
Proof. intros. unfold to_signed. rewrite Z.mod_mod; [done|]. lia. Qed.

Lemma to_signed_shift w a b : 0 < w → to_signed w (to_signed w a + b) = to_signed w (a + b).
Proof.
  intros Hw. assert (∀ z, to_signed w z mod 2 ^ w = z mod 2 ^ w) as H.
  { intros z. unfold to_signed. case_match; [by rewrite Z.mod_mod by lia|].
    replace (z mod 2 ^ w - 2 ^ w) with (z mod 2 ^ w + (-1) * 2 ^ w) by lia. rewrite Z.mod_add, Z.mod_mod by lia. done. }
  rewrite <- (to_signed_mod w (to_signed w a + b)), <- (to_signed_mod w (a + b)) by done.
  by rewrite Z.add_mod, H, <- Z.add_mod by lia.
Qed.

Lemma to_signed_small w z :
  0 < w → - 2 ^ (w - 1) ≤ z < 2 ^ (w - 1) → to_signed w z = z.
Proof.
  intros Hw Hz. unfold to_signed.
  assert (Hp : 2 ^ w = 2 * 2 ^ (w - 1)) by (rewrite <- Z.pow_succ_r; f_equal; lia).
  destruct (decide (0 ≤ z)).
  - rewrite Z.mod_small by lia. rewrite (proj2 (Z.ltb_lt _ _)); lia.
  - assert (E : z mod 2 ^ w = z + 2 ^ w).
    { rewrite <- (Z.mod_small (z + 2 ^ w) (2 ^ w)) by lia.
      rewrite <- (Z.mul_1_l (2 ^ w)) at 2. by rewrite Z.mod_add by lia. }
    rewrite E, (proj2 (Z.ltb_ge _ _)); lia.
Qed.

(** [(a << k) | b] when [b] fits below. *)
Lemma lor_shiftl a b k : 0 ≤ k → 0 ≤ b < 2 ^ k → Z.lor (Z.shiftl a k) b = a * 2 ^ k + b.
Proof.
  intros Hk Hb. rewrite <- Z.add_nocarry_lor; [by rewrite Z.shiftl_mul_pow2|].
  apply Z.bits_inj'. intros n Hn. rewrite Z.land_spec, Z.shiftl_spec, Z.bits_0 by lia.
  destruct (decide (n < k)).
  - by rewrite Z.testbit_neg_r by lia.
  - rewrite <- (Z.mod_small b (2 ^ k)) by done. by rewrite Z.mod_pow2_bits_high, andb_false_r by lia.
Qed.
(** A byte of a shifted integer. *)
Lemma Z_of_byte_shiftr z k : 0 ≤ k → Z_of_byte (byte_of_Z (Z.land (Z.shiftr z k) 255)) = z / 2 ^ k mod 256.
Proof.
  intros Hk. rewrite Z_of_byte_of_Z. change 255 with (Z.ones 8). rewrite Z.land_ones, Z.shiftr_div_pow2 by lia.
  by rewrite Z.mod_mod.
Qed.

(** Reading [n] bytes at the cursor of a buffer; [None] past its end. *)
Definition read_bytes (n : nat) (s : bytes) : option (bytes * bytes) :=
  if decide (n ≤ length s)%nat then Some (take n s, drop n s) else None.

Lemma read_bytes_app n a b : length a = n → read_bytes n (a ++ b) = Some (a, b).
Proof.
  intros <-. unfold read_bytes. rewrite decide_True by (rewrite length_app; lia).
  by rewrite take_app_length, drop_app_length.
Qed.
Lemma read_bytes_Some n s a b :
  read_bytes n s = Some (a, b) → s = a ++ b ∧ length a = n.
Proof.
  unfold read_bytes. case_decide; [|done]. intros [= <- <-].
  rewrite take_drop. split; [done|]. rewrite length_take. lia.
Qed.

(** ** Hint database of the development *)
Create HintDb redrock discriminated.
#[export] Hint Rewrite @length_le_split @le_combine_split @length_app : redrock.
#[export] Hint Resolve Z_of_byte_range le_combine_range : redrock.

(** Closes closed arithmetic side conditions by evaluation. *)
Ltac vm_lia := repeat split; vm_compute; congruence.
