(* ===== verification/Util.v ===== *)
(** * Integer and string conversions (src/src/util.c, src/src/sds.c)

    The decimal printers [ll2string] and [sdsll2str], the strict parser
    [string2ll], and [zipTryEncoding] of src/src/ziplist.c, which decides with
    [string2ll] whether a list element is stored as an integer.  The printer
    that fills its buffer two digits at a time from a table is proved to agree
    with the naive one, and the parser to accept exactly the printer's image. *)

From S2P Require Import Prelude.
From stdpp Require Import list gmap.
#[local] Open Scope Z_scope.

Definition LLONG_MIN : Z := - 2 ^ 63.
Definition LLONG_MAX : Z := 2 ^ 63 - 1.
Definition ULLONG_MAX : Z := 2 ^ 64 - 1.
Definition is_ll (v : Z) : Prop := LLONG_MIN ≤ v ≤ LLONG_MAX.

(** ['0' + d] *)
Definition chr (d : Z) : byte := byte_of_Z (48 + d).
Definition minus_sign : byte := x2d.

(** [digits10]: the C function recurses once for 64-bit values, after the
    division by 10^12; the fuel is the number of those divisions plus one. *)
Fixpoint digits10_fuel (fuel : nat) (v : Z) : Z :=
  if v <? 10 then 1 else
  if v <? 100 then 2 else
  if v <? 1000 then 3 else
  if v <? 1000000000000 then
    if v <? 100000000 then
      if v <? 1000000 then
        if v <? 10000 then 4 else 5 + (if 100000 <=? v then 1 else 0)
      else 7 + (if 10000000 <=? v then 1 else 0)
    else if v <? 10000000000 then 9 + (if 1000000000 <=? v then 1 else 0)
    else 11 + (if 100000000000 <=? v then 1 else 0)
  else match fuel with
       | O => 0
       | S f => 12 + digits10_fuel f (v / 1000000000000)
       end.
Definition digits10 (v : Z) : Z := digits10_fuel 1 v.

Definition sdigits10 (v : Z) : Z :=
  if v <? 0 then
    let uv := if v =? LLONG_MIN then LLONG_MAX + 1 else - v in
    digits10 uv + 1
  else digits10 v.

(** The two hundred characters of the static [digits] table. *)
Definition digits : bytes :=
  flat_map (fun n => [chr (Z.of_nat n / 10); chr (Z.of_nat n mod 10)]) (seq 0 100).

(** The [while (value >= 100)] loop of [ll2string]: two characters per turn,
    written at [next] and [next - 1].  A 64-bit value takes at most 9 turns. *)
Fixpoint ll2string_loop (fuel : nat) (value : Z) (next : nat) (dst : bytes)
  : Z * nat * bytes :=
  match fuel with
  | O => (value, next, dst)
  | S f =>
      if 100 <=? value then
        let i := Z.to_nat ((value mod 100) * 2) in
        let dst1 := <[next := default x00 (digits !! (i + 1)%nat)]> dst in
        let dst2 := <[(next - 1)%nat := default x00 (digits !! i)]> dst1 in
        ll2string_loop f (value / 100) (next - 2)%nat dst2
      else (value, next, dst)
  end.

(** [ll2string dstlen svalue]: the characters written, without the final NUL;
    [None] when the function returns 0 because the buffer is too short. *)
Definition ll2string (dstlen svalue : Z) : option bytes :=
  let negative := svalue <? 0 in
  let value :=
    if svalue <? 0 then
      if svalue =? LLONG_MIN then LLONG_MAX + 1 else - svalue
    else svalue in
  let len := digits10 value + (if negative then 1 else 0) in
  if dstlen <=? len then None else
  let dst := replicate (Z.to_nat len) x00 in
  let next := (Z.to_nat len - 1)%nat in
  let '(value, next, dst) := ll2string_loop 10 value next dst in
  let dst :=
    if value <? 10 then <[next := chr value]> dst
    else
      let i := Z.to_nat (value * 2) in
      <[(next - 1)%nat := default x00 (digits !! i)]>
        (<[next := default x00 (digits !! (i + 1)%nat)]> dst) in
  Some (if negative then <[0%nat := minus_sign]> dst else dst).

(** [sdsll2str]: the digits come out least significant first, then the string
    is reversed.  [v] is the unsigned 64-bit negation, so [LLONG_MIN] is fine. *)
Fixpoint sdsll2str_loop (fuel : nat) (v : Z) : bytes :=
  match fuel with
  | O => []
  | S f => chr (v mod 10) :: (if v / 10 =? 0 then [] else sdsll2str_loop f (v / 10))
  end.
Definition sdsll2str (value : Z) : bytes :=
  let v := u64 (if value <? 0 then - value else value) in
  let s := sdsll2str_loop 20 v in
  reverse (if value <? 0 then s ++ [minus_sign] else s).

Definition sdsfromlonglong (value : Z) : bytes := sdsll2str value.

(** [string2ll] *)
Definition digit_val (c : byte) : option Z :=
  let d := Z_of_byte c - 48 in
  if (0 <=? d) && (d <=? 9) then Some d else None.

Fixpoint string2ll_loop (v : Z) (p : bytes) : option Z :=
  match p with
  | [] => Some v
  | c :: p' =>
      match digit_val c with
      | None => None
      | Some d =>
          if ULLONG_MAX / 10 <? v then None else
          if ULLONG_MAX - d <? v * 10 then None else
          string2ll_loop (v * 10 + d) p'
      end
  end.

Definition string2ll (s : bytes) : option Z :=
  match s with
  | [] => None
  | c0 :: s' =>
      if decide (s = [chr 0]) then Some 0 else
      let negative := bool_decide (c0 = minus_sign) in
      match (if negative then s' else s) with
      | [] => None
      | c :: p =>
          match digit_val c with
          | None => None
          | Some d =>
              if d =? 0 then None else
              match string2ll_loop d p with
              | None => None
              | Some v =>
                  if negative then
                    if 2 ^ 63 <? v then None else Some (- v)
                  else if LLONG_MAX <? v then None else Some v
              end
          end
      end
  end.

(** [string2l]: [long] and [long long] are both 64 bits wide. *)
Definition string2l (s : bytes) : option Z :=
  match string2ll s with
  | None => None
  | Some v => if (v <? LLONG_MIN) || (LLONG_MAX <? v) then None else Some v
  end.

(** [zipTryEncoding]: the integer a ziplist entry stores instead of its
    characters, with the byte that encodes its width, or [None] when the entry
    stays a string. *)
Definition ZIP_INT_16B : Z := 192.
Definition ZIP_INT_32B : Z := 208.
Definition ZIP_INT_64B : Z := 224.
Definition ZIP_INT_24B : Z := 240.
Definition ZIP_INT_8B : Z := 254.
Definition ZIP_INT_IMM_MIN : Z := 241.

Definition zipTryEncoding (entry : bytes) : option (Z * Z) :=
  let entrylen := Z.of_nat (length entry) in
  if (32 <=? entrylen) || (entrylen =? 0) then None else
  match string2ll entry with
  | None => None
  | Some value =>
      let encoding :=
        if (0 <=? value) && (value <=? 12) then ZIP_INT_IMM_MIN + value
        else if (- 2 ^ 7 <=? value) && (value <=? 2 ^ 7 - 1) then ZIP_INT_8B
        else if (- 2 ^ 15 <=? value) && (value <=? 2 ^ 15 - 1) then ZIP_INT_16B
        else if (- 2 ^ 23 <=? value) && (value <=? 2 ^ 23 - 1) then ZIP_INT_24B
        else if (- 2 ^ 31 <=? value) && (value <=? 2 ^ 31 - 1) then ZIP_INT_32B
        else ZIP_INT_64B in
      Some (value, encoding)
  end.

(** ** Decimal digits *)

(** The decimal digits of a 64-bit natural, most significant first. *)
Definition dec (v : Z) : bytes := reverse (sdsll2str_loop 20 v).

Lemma sdsll2str_loop_fuel n m v :
  0 ≤ v < 10 ^ Z.of_nat n → (1 ≤ n ≤ m)%nat →
  sdsll2str_loop m v = sdsll2str_loop n v.
Proof.
  revert m v. induction n as [|n IH]; [lia|].
  intros [|m] v Hv Hn; [lia|]. cbn [sdsll2str_loop].
  destruct (Z.eqb_spec (v / 10) 0); [done|]. f_equal.
  rewrite Nat2Z.inj_succ, Z.pow_succ_r in Hv by lia.
  destruct n as [|n]; [cbn in Hv; rewrite Z.div_small in *; lia|].
  apply IH; [|lia]. split; [apply Z.div_pos; lia|].
  apply Z.div_lt_upper_bound; lia.
Qed.

Lemma dec_small v : 0 ≤ v < 10 → dec v = [chr v].
Proof.
  intros. unfold dec. cbn [sdsll2str_loop].
  by rewrite Z.mod_small, Z.div_small by lia.
Qed.

Lemma dec_step v :
  10 ≤ v < 10 ^ 20 → dec v = dec (v / 10) ++ [chr (v mod 10)].
Proof.
  intros Hv. unfold dec. rewrite <- reverse_cons. apply (f_equal (@reverse byte)).
  change 20%nat with (S 19) at 1. cbn [sdsll2str_loop].
  assert (1 ≤ v / 10) by (apply Z.div_le_lower_bound; lia).
  rewrite (proj2 (Z.eqb_neq (v / 10) 0)) by lia. apply (f_equal (cons _)). symmetry.
  apply (sdsll2str_loop_fuel 19 20); [|lia].
  split; [lia|]. apply Z.div_lt_upper_bound; lia.
Qed.

Lemma dec_snoc v d :
  1 ≤ v → 0 ≤ d < 10 → v * 10 + d < 10 ^ 20 → dec (v * 10 + d) = dec v ++ [chr d].
Proof.
  intros. rewrite dec_step by lia.
  rewrite Z.div_add_l, Z.div_small, Z.add_0_r by lia.
  by rewrite Z.add_comm, Z.mod_add, Z.mod_small by lia.
Qed.

(** Induction on the decimal representation. *)
Lemma dec_ind (P : Z → Prop) :
  (∀ v, 0 ≤ v < 10 → P v) →
  (∀ v d, 1 ≤ v → 0 ≤ d < 10 → v * 10 + d < 10 ^ 20 → P v → P (v * 10 + d)) →
  ∀ v, 0 ≤ v < 10 ^ 20 → P v.
Proof.
  intros Hb Hs v [H0 Hv]. revert v H0 Hv.
  enough (H : ∀ v, 0 ≤ v → 0 ≤ v → v < 10 ^ 20 → P v) by auto.
  apply (Z_lt_induction (fun v => 0 ≤ v → v < 10 ^ 20 → P v)).
  intros v IH H0 Hv. destruct (decide (v < 10)); [apply Hb; lia|].
  pose proof (Z.div_mod v 10 ltac:(lia)). pose proof (Z.mod_pos_bound v 10 ltac:(lia)).
  replace v with (v / 10 * 10 + v mod 10) by lia.
  apply Hs; [lia..|]. apply IH; lia.
Qed.

Lemma digit_val_chr d : 0 ≤ d < 10 → digit_val (chr d) = Some d.
Proof.
  intros. unfold digit_val, chr. rewrite Z_of_byte_of_Z, Z.mod_small by lia.
  replace (48 + d - 48) with d by lia.
  by rewrite (proj2 (Z.leb_le 0 d)), (proj2 (Z.leb_le d 9)) by lia.
Qed.

Lemma digit_val_Some c d : digit_val c = Some d ↔ 0 ≤ d < 10 ∧ c = chr d.
Proof.
  split.
  - unfold digit_val. destruct (_ && _) eqn:E; [|done]. intros [= <-].
    apply andb_true_iff in E as [?%Z.leb_le ?%Z.leb_le]. split; [lia|].
    unfold chr. replace (48 + _) with (Z_of_byte c) by lia.
    by rewrite byte_of_Z_of_byte.
  - intros [? ->]. by apply digit_val_chr.
Qed.

Lemma chr_inj d e : 0 ≤ d < 10 → 0 ≤ e < 10 → chr d = chr e → d = e.
Proof.
  intros Hd He E. pose proof (digit_val_chr d Hd) as H.
  rewrite E, digit_val_chr in H by done. by injection H.
Qed.

Lemma minus_not_digit d : 0 ≤ d < 10 → chr d ≠ minus_sign.
Proof. intros H E. pose proof (digit_val_chr d H) as H1. rewrite E in H1. done. Qed.

(** The value of a digit string read after the value [acc]. *)
Fixpoint val_from (acc : Z) (p : bytes) : Z :=
  match p with
  | [] => acc
  | c :: p' => val_from (acc * 10 + (Z_of_byte c - 48)) p'
  end.

Lemma val_from_app acc p q : val_from acc (p ++ q) = val_from (val_from acc p) q.
Proof. revert acc. induction p; intros; cbn; auto. Qed.

Lemma Z_of_chr d : 0 ≤ d < 10 → Z_of_byte (chr d) - 48 = d.
Proof. intros. unfold chr. rewrite Z_of_byte_of_Z, Z.mod_small; lia. Qed.

Lemma val_dec v : 0 ≤ v < 10 ^ 20 → val_from 0 (dec v) = v.
Proof.
  revert v. apply dec_ind.
  - intros v Hv. rewrite dec_small by done. cbn. rewrite Z_of_chr; lia.
  - intros v d ??? IH. rewrite dec_snoc, val_from_app, IH by done. cbn.
    rewrite Z_of_chr; lia.
Qed.

Lemma dec_inj v w : 0 ≤ v < 10 ^ 20 → 0 ≤ w < 10 ^ 20 → dec v = dec w → v = w.
Proof. intros Hv Hw E. rewrite <- (val_dec v), E by done. by apply val_dec. Qed.

Lemma dec_digits v :
  0 ≤ v < 10 ^ 20 → Forall (fun c => ∃ d, 0 ≤ d < 10 ∧ c = chr d) (dec v).
Proof.
  revert v. apply dec_ind.
  - intros v Hv. rewrite dec_small by done. constructor; eauto.
  - intros v d ??? IH. rewrite dec_snoc by done. apply Forall_app. split; [done|].
    constructor; eauto.
Qed.

Lemma dec_length n v :
  (1 ≤ n ≤ 20)%nat → 10 ^ (Z.of_nat n - 1) ≤ v < 10 ^ Z.of_nat n ∨ n = 1%nat ∧ 0 ≤ v < 10 →
  length (dec v) = n.
Proof.
  revert v. induction n as [|n IH]; [lia|]. intros v Hn Hv.
  destruct n as [|n].
  { rewrite dec_small by (cbn in Hv; lia). done. }
  destruct Hv as [Hv|]; [|lia].
  replace (Z.of_nat (S (S n)) - 1) with (Z.succ (Z.of_nat n)) in Hv by lia.
  rewrite !Nat2Z.inj_succ, !Z.pow_succ_r in Hv by lia.
  assert (0 < 10 ^ Z.of_nat n) by (apply Z.pow_pos_nonneg; lia).
  assert (10 * (10 * 10 ^ Z.of_nat n) ≤ 10 ^ 20).
  { rewrite <- !Z.pow_succ_r by lia. apply Z.pow_le_mono_r; lia. }
  rewrite dec_step, length_app by lia. rewrite (IH (v / 10)); [cbn; lia|lia|left].
  replace (Z.of_nat (S n) - 1) with (Z.of_nat n) by lia.
  rewrite Nat2Z.inj_succ, Z.pow_succ_r by lia.
  split; [apply Z.div_le_lower_bound|apply Z.div_lt_upper_bound]; lia.
Qed.

Lemma dec_length_pos v : 0 ≤ v < 10 ^ 20 → (1 ≤ length (dec v))%nat.
Proof.
  intros. destruct (decide (v < 10)).
  - rewrite dec_small by lia. cbn. lia.
  - rewrite dec_step, length_app by lia. cbn. lia.
Qed.

Lemma dec_length_le n v :
  (1 ≤ n ≤ 20)%nat → 0 ≤ v < 10 ^ Z.of_nat n → (length (dec v) ≤ n)%nat.
Proof.
  revert v. induction n as [|n IH]; [lia|]. intros v Hn Hv.
  destruct (decide (v < 10)); [rewrite dec_small by lia; cbn; lia|].
  destruct n as [|n]; [cbn in Hv; lia|].
  assert (10 ^ Z.of_nat (S (S n)) ≤ 10 ^ 20) by (apply Z.pow_le_mono_r; lia).
  rewrite dec_step, length_app by lia. cbn [length].
  enough (length (dec (v / 10)) ≤ S n)%nat by lia. apply IH; [lia|].
  rewrite (Nat2Z.inj_succ (S n)), Z.pow_succ_r in Hv by lia.
  split; [apply Z.div_pos|apply Z.div_lt_upper_bound]; lia.
Qed.

(** Case analysis on the comparisons of a chain of [if]s. *)
Ltac case_cmp :=
  match goal with
  | |- context [if ?a <? ?b then _ else _] => destruct (Z.ltb_spec a b)
  | |- context [if ?a <=? ?b then _ else _] => destruct (Z.leb_spec a b)
  end.

Ltac solve_dec_length :=
  lazymatch goal with
  | |- Z.of_nat (length (dec ?v)) = ?n =>
      let k := eval compute in (Z.to_nat n) in
      rewrite (dec_length k v);
        [reflexivity|lia|first [right; lia|left; cbn; lia]]
  end.

Lemma dec_digits10 v : 0 ≤ v < 2 ^ 64 → Z.of_nat (length (dec v)) = digits10 v.
Proof.
  intros [H0 Hv]. unfold digits10.
  destruct (Z.ltb_spec v 1000000000000) as [Hs|Hb].
  - clear Hv. unfold digits10_fuel. rewrite (proj2 (Z.ltb_lt _ _) Hs).
    repeat case_cmp; solve_dec_length.
  - assert (Hq : 1 ≤ v / 1000000000000 < 18446745).
    { split; [apply Z.div_le_lower_bound|apply Z.div_lt_upper_bound]; lia. }
    pose proof (Z.div_mod v 1000000000000 ltac:(lia)) as Hm.
    pose proof (Z.mod_pos_bound v 1000000000000 ltac:(lia)) as Hr.
    cbn [digits10_fuel].
    do 4 (case_cmp; [lia|]). clear H H1 H2 H3 Hv.
    revert Hq Hm Hr. generalize (v / 1000000000000) (v mod 1000000000000).
    intros q r Hq Hm Hr. repeat (case_cmp; try lia); solve_dec_length.
Qed.

(** ** The table-driven printer agrees with the naive one *)

Lemma digits_lookup r :
  0 ≤ r < 100 →
  digits !! Z.to_nat (r * 2) = Some (chr (r / 10)) ∧
  digits !! (Z.to_nat (r * 2) + 1)%nat = Some (chr (r mod 10)).
Proof.
  intros Hr.
  assert (H : forallb (fun n =>
    bool_decide (digits !! (n * 2)%nat = Some (chr (Z.of_nat n / 10))) &&
    bool_decide (digits !! (n * 2 + 1)%nat = Some (chr (Z.of_nat n mod 10))))
    (seq 0 100) = true) by (vm_compute; done).
  rewrite forallb_forall in H. specialize (H (Z.to_nat r)).
  rewrite in_seq in H. specialize (H ltac:(lia)).
  apply andb_true_iff in H as [H1%bool_decide_eq_true H2%bool_decide_eq_true].
  rewrite Z2Nat.id in H1, H2 by lia.
  replace (Z.to_nat (r * 2)) with (Z.to_nat r * 2)%nat by lia. done.
Qed.

(** Two in-place writes at the end of the unwritten part of the buffer. *)
Lemma insert_two_last (pre suf : bytes) a b x y :
  <[length pre := x]> (<[S (length pre) := y]> ((pre ++ [a; b]) ++ suf)) =
  pre ++ x :: y :: suf.
Proof.
  rewrite <- app_assoc.
  rewrite (insert_app_r_alt pre) by lia. rewrite Nat.sub_succ_l, Nat.sub_diag by lia.
  rewrite (insert_app_r_alt pre) by lia. rewrite Nat.sub_diag. done.
Qed.

Lemma dec_two v :
  100 ≤ v < 10 ^ 20 →
  dec v = dec (v / 100) ++ [chr (v mod 100 / 10); chr (v mod 100 mod 10)].
Proof.
  intros Hv.
  assert (10 ≤ v / 10 < 10 ^ 20).
  { split; [apply Z.div_le_lower_bound|apply Z.div_lt_upper_bound]; lia. }
  rewrite dec_step, (dec_step (v / 10)) by lia. rewrite <- app_assoc. cbn [app].
  rewrite Z.div_div by lia. change (10 * 10) with 100.
  assert (E1 : v / 10 mod 10 = v mod 100 / 10).
  { pose proof (Z.div_mod v 10 ltac:(lia)). pose proof (Z.mod_pos_bound v 10 ltac:(lia)).
    pose proof (Z.div_mod v 100 ltac:(lia)). pose proof (Z.mod_pos_bound v 100 ltac:(lia)).
    pose proof (Z.div_mod (v / 10) 10 ltac:(lia)).
    pose proof (Z.mod_pos_bound (v / 10) 10 ltac:(lia)).
    pose proof (Z.div_mod (v mod 100) 10 ltac:(lia)).
    pose proof (Z.mod_pos_bound (v mod 100) 10 ltac:(lia)). lia. }
  assert (E2 : v mod 10 = v mod 100 mod 10).
  { rewrite <- Znumtheory.Zmod_div_mod; [done|lia..|]. by exists 10. }
  by rewrite E1, E2.
Qed.

Lemma split_last_two (pre : bytes) n :
  length pre = (n + 2)%nat → ∃ p a b, pre = p ++ [a; b] ∧ length p = n.
Proof.
  intros Hl. destruct pre as [|b pre _] using rev_ind; [cbn in Hl; lia|].
  destruct pre as [|a pre _] using rev_ind; rewrite !length_app in Hl; cbn in Hl; [lia|].
  exists pre, a, b. rewrite <- app_assoc. split; [done|lia].
Qed.

Lemma ll2string_loop_spec f v n next (pre suf : bytes) :
  0 ≤ v < 10 ^ 20 → v < 100 ^ (Z.of_nat f + 1) →
  length pre = (n + length (dec v))%nat → next = (length pre - 1)%nat →
  ∃ v' pre' suf', ll2string_loop f v next (pre ++ suf) =
    (v', (length pre' - 1)%nat, pre' ++ suf') ∧
    0 ≤ v' < 100 ∧ length pre' = (n + length (dec v'))%nat ∧
    dec v ++ suf = dec v' ++ suf'.
Proof.
  revert v next pre suf. induction f as [|f IH]; intros v next pre suf Hv Hf Hl ->.
  - exists v, pre, suf. cbn. split; [done|]. cbn in Hf. split; [lia|done].
  - cbn [ll2string_loop]. destruct (Z.leb_spec 100 v) as [H100|]; [|].
    2: { exists v, pre, suf. split; [done|]. split; [lia|done]. }
    pose proof (Z.mod_pos_bound v 100 ltac:(lia)).
    destruct (digits_lookup (v mod 100)) as [-> ->]; [done|]. cbn [default].
    rewrite (dec_two v) in Hl |- * by lia. rewrite length_app in Hl. cbn [length] in Hl.
    destruct (split_last_two pre (n + length (dec (v / 100)))) as (p & a & b & -> & Hp).
    { lia. }
    rewrite length_app. cbn [length].
    replace (length p + 2 - 1)%nat with (S (length p)) by lia.
    replace (S (length p) - 1)%nat with (length p) by lia.
    replace (S (length p) - 2)%nat with (length p - 1)%nat by lia.
    rewrite insert_two_last, <- app_assoc. cbn [app].
    apply IH; [|..|done].
    + split; [apply Z.div_pos|apply Z.div_lt_upper_bound]; lia.
    + apply Z.div_lt_upper_bound; [lia|]. rewrite <- Z.pow_succ_r by lia.
      replace (Z.succ (Z.of_nat f + 1)) with (Z.of_nat (S f) + 1) by lia. done.
    + done.
Qed.

(** The last one or two characters. *)
Lemma ll2string_last n v pre suf :
  0 ≤ v < 100 → length pre = (n + length (dec v))%nat →
  ∃ p, length p = n ∧
    (if v <? 10 then <[(length pre - 1)%nat:=chr v]> (pre ++ suf)
     else <[(length pre - 1 - 1)%nat:=default x00 (digits !! Z.to_nat (v * 2))]>
       (<[(length pre - 1)%nat:=default x00 (digits !! (Z.to_nat (v * 2) + 1)%nat)]>
          (pre ++ suf))) = p ++ dec v ++ suf.
Proof.
  intros Hv Hl. destruct (Z.ltb_spec v 10).
  - rewrite dec_small in Hl |- * by lia. cbn in Hl.
    destruct pre as [|z p _] using rev_ind; [cbn in Hl; lia|].
    rewrite length_app in Hl |- *. cbn in Hl |- *. exists p. split; [lia|].
    replace (length p + 1 - 1)%nat with (length p) by lia.
    rewrite <- app_assoc, (insert_app_r_alt p) by lia. by rewrite Nat.sub_diag.
  - destruct (digits_lookup v) as [-> ->]; [lia|]. cbn [default].
    rewrite dec_step, (dec_small (v / 10)) in Hl |- *
      by first [lia|split; [apply Z.div_pos|apply Z.div_lt_upper_bound]; lia].
    destruct (split_last_two pre n) as (p & c & d & -> & Hp); [done|].
    exists p. split; [done|]. rewrite length_app. cbn [length].
    replace (length p + 2 - 1)%nat with (S (length p)) by lia.
    replace (S (length p) - 1)%nat with (length p) by lia.
    by rewrite insert_two_last.
Qed.

Definition abs_ll (v : Z) : Z := if v <? 0 then - v else v.

Lemma sdsll2str_eq v :
  is_ll v → sdsll2str v = (if v <? 0 then [minus_sign] else []) ++ dec (abs_ll v).
Proof.
  unfold is_ll, LLONG_MIN, LLONG_MAX, sdsll2str, u64, abs_ll, dec. intros H.
  destruct (Z.ltb_spec v 0); rewrite Z.mod_small by lia; [|done].
  by rewrite reverse_app, reverse_singleton.
Qed.

Lemma llong_neg v : (if v =? LLONG_MIN then LLONG_MAX + 1 else - v) = - v.
Proof. destruct (Z.eqb_spec v LLONG_MIN) as [->|]; done. Qed.

(** Enough room, [value] the absolute value: the characters [ll2string] writes. *)
Lemma ll2string_fits dstlen v :
  is_ll v → sdigits10 v < dstlen → ll2string dstlen v = Some (sdsll2str v).
Proof.
  intros Hr Hd. rewrite sdsll2str_eq by done.
  unfold is_ll, LLONG_MIN, LLONG_MAX in Hr. unfold ll2string, sdigits10 in *.
  rewrite llong_neg in *. change (if v <? 0 then - v else v) with (abs_ll v).
  set (neg := (if v <? 0 then 1%nat else 0%nat)).
  assert (Hab : 0 ≤ abs_ll v ≤ 2 ^ 63) by (unfold abs_ll; destruct (Z.ltb_spec v 0); lia).
  assert (Hlen : digits10 (abs_ll v) + (if v <? 0 then 1 else 0) =
                 Z.of_nat (neg + length (dec (abs_ll v)))).
  { rewrite <- dec_digits10 by lia. unfold neg. destruct (v <? 0); lia. }
  assert (Hfit : (dstlen <=? digits10 (abs_ll v) + (if v <? 0 then 1 else 0)) = false).
  { apply Z.leb_gt. unfold abs_ll. destruct (v <? 0); lia. }
  rewrite Hfit, Hlen, Nat2Z.id.
  destruct (ll2string_loop_spec 10 (abs_ll v) neg
    (neg + length (dec (abs_ll v)) - 1) (replicate (neg + length (dec (abs_ll v))) x00) [])
    as (v' & pre & suf & E & Hv' & Hl & Hdec).
  { lia. } { cbn; lia. } { by rewrite length_replicate. } { by rewrite length_replicate. }
  rewrite app_nil_r in E. rewrite E. rewrite app_nil_r in Hdec. rewrite Hdec. clear E Hdec Hfit Hlen.
  destruct (ll2string_last neg v' pre suf Hv' Hl) as (p & Hp & ->). f_equal. unfold neg in Hp.
  destruct (v <? 0); destruct p as [|z [|]]; cbn in Hp; try lia; done.
Qed.

Lemma ll2string_short dstlen v :
  dstlen ≤ sdigits10 v → ll2string dstlen v = None.
Proof.
  unfold ll2string, sdigits10. rewrite !llong_neg. intros H.
  destruct (v <? 0); rewrite (proj2 (Z.leb_le _ _)); lia || done.
Qed.

(** The buffers of the callers are long enough. *)
Lemma sdigits10_max v : is_ll v → sdigits10 v ≤ 20.
Proof.
  intros Hv. unfold is_ll, LLONG_MIN, LLONG_MAX in Hv. unfold sdigits10.
  assert (∀ w, 0 ≤ w ≤ 2 ^ 63 → digits10 w ≤ 19) as H.
  { intros w Hw. rewrite <- dec_digits10 by lia.
    pose proof (dec_length_le 19 w ltac:(lia) ltac:(cbn; lia)). lia. }
  rewrite llong_neg. destruct (Z.ltb_spec v 0).
  - specialize (H (- v)). lia.
  - specialize (H v). lia.
Qed.
Lemma sdsll2str_length v : is_ll v → Z.of_nat (length (sdsll2str v)) = sdigits10 v.
Proof.
  intros Hv. rewrite sdsll2str_eq by done. unfold is_ll, LLONG_MIN, LLONG_MAX in Hv.
  unfold sdigits10, abs_ll. rewrite llong_neg.
  destruct (Z.ltb_spec v 0); cbn [app length]; rewrite ?Nat2Z.inj_succ, dec_digits10; lia.
Qed.
Lemma ll2string_32 v : is_ll v → ll2string 32 v = Some (sdsll2str v).
Proof. intros Hv. apply ll2string_fits; [done|]. pose proof (sdigits10_max v Hv). lia. Qed.

(** C35: [ll2string], which fills its buffer backwards two table characters at a
    time, writes exactly the characters of the digit-by-digit [sdsll2str] when
    the buffer has room for them and a terminator, and otherwise returns 0. *)
Theorem ll2string_equiv dstlen v :
  is_ll v →
  ll2string dstlen v = if sdigits10 v <? dstlen then Some (sdsll2str v) else None.
Proof.
  intros. destruct (Z.ltb_spec (sdigits10 v) dstlen).
  - by apply ll2string_fits.
  - by apply ll2string_short.
Qed.

Lemma ll2string_equiv_witness :
  ll2string 21 LLONG_MIN = Some (sdsll2str LLONG_MIN) ∧ ll2string 20 LLONG_MIN = None.
Proof.
  split; rewrite ll2string_equiv; (vm_compute; done) || done.
Defined.

(** ** The strict parser *)

Lemma string2ll_loop_sound p v w :
  1 ≤ v → v < 2 ^ 64 → string2ll_loop v p = Some w →
  v ≤ w < 2 ^ 64 ∧ dec w = dec v ++ p.
Proof.
  revert v. induction p as [|c p IH]; intros v Hv Hb; cbn [string2ll_loop].
  - intros [= <-]. by rewrite app_nil_r.
  - destruct (digit_val c) as [d|] eqn:Hd; [|done].
    apply digit_val_Some in Hd as [Hd ->].
    destruct (Z.ltb_spec (ULLONG_MAX / 10) v); [done|].
    destruct (Z.ltb_spec (ULLONG_MAX - d) (v * 10)); [done|].
    unfold ULLONG_MAX in *. intros [Hw E]%IH; [|lia..]. split; [lia|].
    rewrite E, dec_snoc, <- app_assoc by lia. done.
Qed.

Lemma val_from_mono p acc :
  Forall (fun c => ∃ d, 0 ≤ d < 10 ∧ c = chr d) p → 0 ≤ acc → acc ≤ val_from acc p.
Proof.
  intros H. revert acc. induction H as [|c p (d & Hd & ->) _ IH]; intros acc Ha; cbn; [lia|].
  rewrite Z_of_chr by done. specialize (IH (acc * 10 + d)). lia.
Qed.

Lemma string2ll_loop_complete p v w :
  1 ≤ v → w < 2 ^ 64 → 0 ≤ w → dec w = dec v ++ p → v < 10 ^ 20 →
  string2ll_loop v p = Some w.
Proof.
  revert v. induction p as [|c p IH]; intros v Hv Hw H0 E Hv2; cbn [string2ll_loop].
  - rewrite app_nil_r in E. apply dec_inj in E; [by subst|lia..].
  - pose proof (dec_digits w ltac:(lia)) as Hds. rewrite E in Hds.
    apply Forall_app in Hds as [_ Hds]. apply Forall_cons in Hds as [(d & Hd & ->) Hds].
    rewrite digit_val_chr by done.
    assert (Hle : v * 10 + d ≤ w).
    { rewrite <- (val_dec w), E, val_from_app, val_dec by lia. cbn.
      rewrite Z_of_chr by done. apply val_from_mono; [done|lia]. }
    unfold ULLONG_MAX.
    destruct (Z.ltb_spec ((2 ^ 64 - 1) / 10) v) as [Hx|].
    { pose proof (Z.div_mod (2 ^ 64 - 1) 10 ltac:(lia)).
      pose proof (Z.mod_pos_bound (2 ^ 64 - 1) 10 ltac:(lia)). lia. }
    destruct (Z.ltb_spec (2 ^ 64 - 1 - d) (v * 10)); [lia|].
    apply IH; [lia..| |lia]. rewrite E, dec_snoc, <- app_assoc by lia. done.
Qed.

(** The head of a positive decimal. *)
Lemma dec_head v :
  1 ≤ v < 10 ^ 20 → ∃ d p, dec v = chr d :: p ∧ 1 ≤ d < 10.
Proof.
  assert (H : ∀ v, 0 ≤ v < 10 ^ 20 → 1 ≤ v → ∃ d p, dec v = chr d :: p ∧ 1 ≤ d < 10).
  { apply (dec_ind (fun v => 1 ≤ v → ∃ d p, dec v = chr d :: p ∧ 1 ≤ d < 10)).
    - intros w ??. exists w, []. rewrite dec_small by lia. split; [done|lia].
    - intros w d ??? IH _. destruct IH as (e & p & E & ?); [done|].
      exists e, (p ++ [chr d]). rewrite dec_snoc, E by done. done. }
  intros ?. apply H; lia.
Qed.

Lemma string2ll_sound s v : string2ll s = Some v → is_ll v ∧ s = sdsll2str v.
Proof.
  unfold string2ll. destruct s as [|c0 s']; [done|].
  case_decide as Hz; [intros [= <-]; rewrite Hz; done|].
  set (neg := bool_decide (c0 = minus_sign)).
  destruct (if neg then s' else c0 :: s') as [|c p] eqn:Ep; [done|].
  destruct (digit_val c) as [d|] eqn:Hd; [|done].
  apply digit_val_Some in Hd as [Hd ->].
  destruct (Z.eqb_spec d 0); [done|].
  destruct (string2ll_loop d p) as [w|] eqn:Hl; [|done].
  apply string2ll_loop_sound in Hl as [Hw Edec]; [|lia..].
  rewrite (dec_small d) in Edec by lia. cbn in Edec.
  unfold is_ll, LLONG_MIN, LLONG_MAX. unfold neg in *. case_bool_decide; subst.
  - destruct (Z.ltb_spec (2 ^ 63) w); [done|]. intros [= <-]. split; [lia|].
    rewrite sdsll2str_eq by (unfold is_ll, LLONG_MIN, LLONG_MAX; lia).
    unfold abs_ll. rewrite (proj2 (Z.ltb_lt (- w) 0)) by lia. cbn.
    by rewrite Z.opp_involutive, Edec.
  - destruct (Z.ltb_spec (2 ^ 63 - 1) w); [done|]. intros [= <-]. split; [lia|].
    rewrite sdsll2str_eq by (unfold is_ll, LLONG_MIN, LLONG_MAX; lia).
    unfold abs_ll. rewrite (proj2 (Z.ltb_ge w 0)) by lia. cbn. congruence.
Qed.

Lemma string2ll_complete v : is_ll v → string2ll (sdsll2str v) = Some v.
Proof.
  intros Hr. destruct (decide (v = 0)) as [->|Hv]; [done|].
  rewrite sdsll2str_eq by done. unfold is_ll, LLONG_MIN, LLONG_MAX in Hr.
  assert (Hab : 1 ≤ abs_ll v ≤ 2 ^ 63) by (unfold abs_ll; destruct (Z.ltb_spec v 0); lia).
  destruct (dec_head (abs_ll v)) as (d & p & E & Hd); [lia|].
  assert (Hloop : string2ll_loop d p = Some (abs_ll v)).
  { apply string2ll_loop_complete; [lia..| |lia]. by rewrite (dec_small d) by lia. }
  assert (Hd0 : (d =? 0) = false) by (apply Z.eqb_neq; lia).
  rewrite E. unfold string2ll, abs_ll in *. destruct (Z.ltb_spec v 0); cbn [app].
  - rewrite decide_False by done. rewrite bool_decide_true by done.
    rewrite digit_val_chr, Hd0, Hloop by lia.
    rewrite (proj2 (Z.ltb_ge _ _)), Z.opp_involutive by lia. done.
  - rewrite decide_False.
    2: { intros [= E0 _]. apply chr_inj in E0; lia. }
    rewrite bool_decide_false by (apply minus_not_digit; lia).
    rewrite digit_val_chr, Hd0, Hloop by lia. unfold LLONG_MAX.
    by rewrite (proj2 (Z.ltb_ge _ _)) by lia.
Qed.

(** C34: [string2ll] accepts exactly the strings [sdsll2str] prints for the
    64-bit signed integers, and returns the integer printed: no leading zero,
    sign, blank or overflowing string is accepted, so a string stored as an
    integer can always be given back character for character. *)
Theorem string2ll_exact s v :
  string2ll s = Some v ↔ is_ll v ∧ s = sdsll2str v.
Proof.
  split; [apply string2ll_sound|]. intros [Hv ->]. by apply string2ll_complete.
Qed.
