(* ===== verification/Mem.v ===== *)
(** * Blocks of memory

    A block from the allocator: a list of bytes some of which have not been written yet.
    Accesses are checked: reading outside of the block or reading a byte that was not written
    is [Abort], and so is writing outside of the block.

    [seg m p bs] says that the bytes [bs] are in [m] from position [p] on.  The functions
    that change a block are used through the lemmas [wr_ok], [memmove_ok] and [zrealloc_ok],
    which say what is there afterwards and what is kept. *)

From S2P Require Import Prelude.
From stdpp Require Import list.
#[local] Open Scope Z_scope.

Abbreviation mem := (list (option byte)).

Definition rd (m : mem) (p : Z) : res Z :=
  if 0 <=? p then
    match m !! Z.to_nat p with
    | Some (Some b) => Ok (Z_of_byte b)
    | Some None => Abort "read of a byte that was not written"
    | None => Abort "read outside of the block"
    end
  else Abort "read outside of the block".

Fixpoint rd_n (m : mem) (p : Z) (n : nat) : res bytes :=
  match n with
  | O => mret []
  | S n' => b ← rd m p; bs ← rd_n m (p + 1) n'; mret (byte_of_Z b :: bs)
  end.

Definition wr (m : mem) (p : Z) (bs : bytes) : res mem :=
  if (0 <=? p) && (p + Z.of_nat (length bs) <=? Z.of_nat (length m))
  then Ok (take (Z.to_nat p) m ++ (Some <$> bs) ++ drop (Z.to_nat p + length bs) m)
  else Abort "write outside of the block".

(** The areas may overlap. *)
Definition memmove (m : mem) (dst src n : Z) : res mem :=
  if (0 <=? n) && (0 <=? src) && (0 <=? dst) &&
     (src + n <=? Z.of_nat (length m)) && (dst + n <=? Z.of_nat (length m))
  then Ok (take (Z.to_nat dst) m ++ take (Z.to_nat n) (drop (Z.to_nat src) m) ++ drop (Z.to_nat (dst + n)) m)
  else Abort "move outside of the block".

Definition zrealloc (m : mem) (n : Z) : mem :=
  take (Z.to_nat n) m ++ replicate (Z.to_nat n - length m) None.

(** A block all of whose bytes were written. *)
Lemma mapM_id_Some (b : bytes) : mapM id (Some <$> b) = Some b.
Proof. induction b as [|x b IH]; cbn in *; [done|]. by rewrite IH. Qed.

(** ** What is in a block *)

Definition seg (m : mem) (p : Z) (bs : bytes) : Prop :=
  0 ≤ p ∧ ∀ i b, bs !! i = Some b → m !! (Z.to_nat p + i)%nat = Some (Some b).

Lemma seg_nil m p : 0 ≤ p → seg m p [].
Proof. split; [done|]. intros i b [=]. Qed.

Lemma seg_app m p a b : seg m p (a ++ b) ↔ seg m p a ∧ seg m (p + Z.of_nat (length a)) b.
Proof.
  split.
  - intros [Hp H]. split; split; [done| |lia|].
    + intros i c Hi. apply H. by apply lookup_app_l_Some.
    + intros i c Hi. replace (_ + i)%nat with (Z.to_nat p + (length a + i))%nat by lia. apply H.
      rewrite lookup_app_r by lia. by replace (length a + i - length a)%nat with i by lia.
  - intros [[Hp Ha] [_ Hb]]. split; [done|]. intros i c [Hi|[Hl Hi]]%lookup_app_Some; [by apply Ha|].
    apply Hb in Hi. by replace (_ + i)%nat with (Z.to_nat (p + Z.of_nat (length a)) + (i - length a))%nat by lia.
Qed.

Lemma seg_cons m p b bs : seg m p (b :: bs) ↔ seg m p [b] ∧ seg m (p + 1) bs.
Proof. apply (seg_app m p [b] bs). Qed.

Lemma seg_len m p bs : seg m p bs → bs ≠ [] → p + Z.of_nat (length bs) ≤ Z.of_nat (length m).
Proof.
  intros [Hp H] Hne. destruct (lookup_lt_is_Some_2 bs (length bs - 1)) as [b Hb]; [destruct bs; [done|cbn; lia]|].
  apply H, lookup_lt_Some in Hb. destruct bs; [done|cbn in *; lia].
Qed.

Lemma seg_all (m : mem) bs : Z.of_nat (length m) = Z.of_nat (length bs) → seg m 0 bs → m = Some <$> bs.
Proof.
  intros Hl [_ H]. apply list_eq. intros i. rewrite list_lookup_fmap. destruct (bs !! i) as [b|] eqn:E.
  - by apply H in E.
  - apply lookup_ge_None in E. cbn. apply lookup_ge_None. lia.
Qed.
Lemma seg_whole bs : seg (Some <$> bs) 0 bs.
Proof. split; [done|]. intros i b Hi. change (Z.to_nat 0 + i)%nat with i. by rewrite list_lookup_fmap, Hi. Qed.

Lemma rd_seg m p b bs : seg m p (b :: bs) → rd m p = Ok (Z_of_byte b).
Proof.
  intros [Hp H]. unfold rd. rewrite (proj2 (Z.leb_le _ _) Hp). specialize (H 0%nat b eq_refl).
  rewrite Nat.add_0_r in H. by rewrite H.
Qed.
Lemma rd_n_seg m p bs rest n : seg m p (bs ++ rest) → n = length bs → rd_n m p n = Ok bs.
Proof.
  intros H ->. revert p H. induction bs as [|b bs IH]; intros p H; [done|]. cbn [app length rd_n] in *.
  rewrite (rd_seg _ _ _ _ H). cbn [mbind res_bind]. apply seg_cons in H as [_ H]. rewrite (IH _ H). cbn [mbind res_bind].
  by rewrite byte_of_Z_of_byte.
Qed.

(** ** What changes *)

Definition apart (p : Z) (n : nat) (q : Z) (k : nat) : Prop :=
  q + Z.of_nat k ≤ p ∨ p + Z.of_nat n ≤ q.

Lemma wr_ok m p bs :
  0 ≤ p → p + Z.of_nat (length bs) ≤ Z.of_nat (length m) →
  ∃ m', wr m p bs = Ok m' ∧ length m' = length m ∧ seg m' p bs ∧
    ∀ q cs, seg m q cs → apart p (length bs) q (length cs) → seg m' q cs.
Proof.
  intros Hp Hl. unfold wr. rewrite (proj2 (Z.leb_le _ _) Hp), (proj2 (Z.leb_le _ _) Hl). cbn [andb].
  eexists. split; [done|]. split; [rewrite !length_app, length_take, length_fmap, length_drop; lia|]. split.
  - split; [done|]. intros i b Hi. rewrite lookup_app_r by (rewrite length_take; lia).
    rewrite length_take. replace (_ + i - _)%nat with i by lia.
    rewrite lookup_app_l by (rewrite length_fmap; apply lookup_lt_Some in Hi; lia).
    by rewrite list_lookup_fmap, Hi.
  - intros q cs [Hq H] Hap. split; [done|]. intros i b Hi. pose proof (lookup_lt_Some _ _ _ Hi) as Hlt. apply H in Hi.
    destruct Hap as [Hap|Hap].
    + rewrite lookup_app_l by (rewrite length_take; lia). by rewrite lookup_take_lt by lia.
    + rewrite lookup_app_r by (rewrite length_take; lia). rewrite length_take.
      rewrite lookup_app_r by (rewrite length_fmap; lia). rewrite length_fmap, lookup_drop.
      rewrite <- Hi. f_equal. lia.
Qed.

Lemma memmove_ok m dst src n :
  0 ≤ n → 0 ≤ src → 0 ≤ dst → src + n ≤ Z.of_nat (length m) → dst + n ≤ Z.of_nat (length m) →
  ∃ m', memmove m dst src n = Ok m' ∧ length m' = length m ∧
    (∀ q cs, seg m q cs → src ≤ q → q + Z.of_nat (length cs) ≤ src + n → seg m' (q - src + dst) cs) ∧
    (∀ q cs, seg m q cs → apart dst (Z.to_nat n) q (length cs) → seg m' q cs).
Proof.
  intros Hn Hs Hd Hsn Hdn. unfold memmove.
  rewrite (proj2 (Z.leb_le _ _) Hn), (proj2 (Z.leb_le _ _) Hs), (proj2 (Z.leb_le _ _) Hd), (proj2 (Z.leb_le _ _) Hsn), (proj2 (Z.leb_le _ _) Hdn).
  cbn [andb]. eexists. split; [done|]. split; [rewrite !length_app, !length_take, !length_drop; lia|]. split.
  - intros q cs [Hq H] H1 H2. split; [lia|]. intros i b Hi. pose proof (lookup_lt_Some _ _ _ Hi). apply H in Hi.
    rewrite lookup_app_r by (rewrite length_take; lia). rewrite length_take.
    rewrite lookup_app_l by (rewrite length_take, length_drop; lia). rewrite lookup_take_lt by lia.
    rewrite lookup_drop, <- Hi. f_equal. lia.
  - intros q cs [Hq H] Hap. split; [done|]. intros i b Hi. pose proof (lookup_lt_Some _ _ _ Hi). apply H in Hi.
    destruct Hap as [Hap|Hap].
    + rewrite lookup_app_l by (rewrite length_take; lia). by rewrite lookup_take_lt by lia.
    + rewrite lookup_app_r by (rewrite length_take; lia). rewrite length_take.
      rewrite lookup_app_r by (rewrite length_take, length_drop; lia). rewrite length_take, length_drop, lookup_drop.
      rewrite <- Hi. f_equal. lia.
Qed.

Lemma zrealloc_ok m n :
  0 ≤ n → Z.of_nat (length (zrealloc m n)) = n ∧
  ∀ q cs, seg m q cs → q + Z.of_nat (length cs) ≤ n → seg (zrealloc m n) q cs.
Proof.
  intros Hn. unfold zrealloc. split; [rewrite length_app, length_take, length_replicate; lia|].
  intros q cs [Hq H] Hl. split; [done|]. intros i b Hi. pose proof (lookup_lt_Some _ _ _ Hi). apply H in Hi.
  pose proof (lookup_lt_Some _ _ _ Hi). rewrite lookup_app_l by (rewrite length_take; lia). by rewrite lookup_take_lt by lia.
Qed.
