(* ===== verification/Lzf.v ===== *)
(** * Compression of strings (src/src/lzf_c.c, src/src/lzf_d.c)

    LZF replaces a part of the input that occurred before by a reference to it.  The
    compressor finds candidates with a table that is indexed by a hash of three bytes and
    is not initialized (INIT_HTAB is 0): its first contents are an argument, and the
    theorems hold whatever they are.  The options of lzfP.h are those of a 64-bit build:
    VERY_FAST, CHECK_INPUT, offsets in the table.

    Pointers are indices.  An access outside of a buffer is [Abort].

    Shown: what is compressed is decompressed to the same bytes, whatever the table held;
    neither function leaves its buffers, and the decompressor does not on any input
    that is not empty. *)

From S2P Require Import Prelude Mem.
From stdpp Require Import list.
#[local] Open Scope Z_scope.

Definition HLOG : Z := 16.
Definition HSIZE : Z := Z.shiftl 1 HLOG.
Definition MAX_LIT : Z := Z.shiftl 1 5.
Definition MAX_OFF : Z := Z.shiftl 1 13.
Definition MAX_REF : Z := Z.shiftl 1 8 + Z.shiftl 1 3.

Definition peek (s : bytes) (i : Z) : res Z :=
  if 0 <=? i then Z_of_byte <$> res_of_option (s !! Z.to_nat i) "read outside of the buffer"
  else Abort "read outside of the buffer".
Definition poke (i v : Z) (m : mem) : res mem :=
  if (0 <=? i) && (i <? Z.of_nat (length m)) then Ok (<[Z.to_nat i := Some (byte_of_Z v)]> m)
  else Abort "write outside of the buffer".

(** ** The compressor *)

(** The macros of the hash, on 32-bit integers. *)
Definition FRST (inp : bytes) (p : Z) : res Z :=
  b0 ← peek inp p; b1 ← peek inp (p + 1); mret (Z.lor (Z.shiftl b0 8) b1).
Definition NEXT (inp : bytes) (v p : Z) : res Z :=
  b2 ← peek inp (p + 2); mret (Z.lor (u32 (Z.shiftl v 8)) b2).
Definition IDX (h : Z) : Z := Z.land (u32 (Z.shiftr h (3 * 8 - HLOG) - h * 5)) (HSIZE - 1).

Abbreviation hash_table := (Z → Z).
Definition hset (i v : Z) (htab : hash_table) : hash_table := fun j => if j =? i then v else htab j.

(** [lit - 1] is written before the run of literals. *)
Definition stop_run (op lit : Z) (m : mem) : res mem := poke (op - lit - 1) (lit - 1) m.

(** The comparisons that are written out: [k] times [len++; if (ref[len] != ip[len]) break;].
    The result says whether the loop was left. *)
Fixpoint unrolled (k : nat) (inp : bytes) (ref ip len : Z) : res (Z * bool) :=
  match k with
  | O => mret (len, false)
  | S k' =>
      let len := len + 1 in
      a ← peek inp (ref + len); b ← peek inp (ip + len);
      if a =? b then unrolled k' inp ref ip len else mret (len, true)
  end.
(** [do len++; while (len < maxlen && ref[len] == ip[len]);], at most MAX_REF turns. *)
Fixpoint extend_match (fuel : nat) (inp : bytes) (ref ip maxlen len : Z) : res Z :=
  match fuel with
  | O => Abort "fuel"
  | S fuel' =>
      let len := len + 1 in
      if len <? maxlen then
        a ← peek inp (ref + len); b ← peek inp (ip + len);
        if a =? b then extend_match fuel' inp ref ip maxlen len else mret len
      else mret len
  end.
Definition match_length (inp : bytes) (ref ip maxlen : Z) : res Z :=
  '(len, broke) ← (if 16 <? maxlen then unrolled 16 inp ref ip 2 else mret (2, false));
  if broke : bool then mret len else extend_match (Z.to_nat MAX_REF) inp ref ip maxlen len.

(** The condition for a match; the tests are made in this order. *)
Definition is_match (inp : bytes) (ref ip : Z) : res bool :=
  if (u64 (ip - ref - 1) <? MAX_OFF) && (0 <? ref) then
    r2 ← peek inp (ref + 2); i2 ← peek inp (ip + 2);
    if r2 =? i2 then
      r0 ← peek inp ref; i0 ← peek inp ip; r1 ← peek inp (ref + 1); i1 ← peek inp (ip + 1);
      mret ((r0 =? i0) && (r1 =? i1))
    else mret false
  else mret false.

(** The bytes of a reference. *)
Definition put_match (off len op : Z) (m : mem) : res (Z * mem) :=
  '(op, m) ←
    (if len <? 7 then m ← poke op (Z.shiftr off 8 + Z.shiftl len 5) m; mret (op + 1, m)
     else m ← poke op (Z.shiftr off 8 + Z.shiftl 7 5) m; m ← poke (op + 1) (len - 7) m; mret (op + 2, m));
  m ← poke op off m; mret (op + 1, m).

(** One more literal byte. *)
Definition put_literal (inp : bytes) (ip op lit : Z) (m : mem) : res (Z * Z * mem) :=
  b ← peek inp ip;
  m ← poke op b m;
  let lit := lit + 1 in let op := op + 1 in
  if lit =? MAX_LIT then m ← stop_run op lit m; mret (op + 1, 0, m) else mret (op, lit, m).

Record cstate := CState { c_ip : Z; c_op : Z; c_lit : Z; c_hval : Z; c_htab : hash_table; c_mem : mem }.

(** What happens after a match: the run is stopped, the reference is written, and the two
    positions before the new one are put in the table.  The result is [inl] when the loop
    is left, with the result 0 ([None]) or with the state. *)
Definition after_match (inp : bytes) (out_len ref : Z) (s : cstate) : res (option cstate + cstate) :=
  let in_end := Z.of_nat (length inp) in
  let ip := c_ip s in let op := c_op s in
  let undo := if c_lit s =? 0 then 1 else 0 in
  let off := u64 (ip - ref - 1) in
  let maxlen := u32 (in_end - ip - 2) in
  let maxlen := if MAX_REF <? maxlen then MAX_REF else maxlen in
  if (out_len <=? op + 3 + 1) && (out_len <=? op - undo + 3 + 1) then mret (inl None)
  else
    m ← stop_run op (c_lit s) (c_mem s);
    len ← match_length inp ref ip maxlen;
    let len := len - 2 in
    '(op, m) ← put_match off len (op - undo) m;
    let ip := ip + 1 + len + 1 in
    if in_end - 2 <=? ip then mret (inl (Some (CState ip (op + 1) 0 (c_hval s) (c_htab s) m)))
    else
      let ip := ip - 2 in
      h ← FRST inp ip;
      h ← NEXT inp h ip;
      let htab := hset (IDX h) ip (c_htab s) in
      let ip := ip + 1 in
      h ← NEXT inp h ip;
      let htab := hset (IDX h) ip htab in
      mret (inr (CState (ip + 1) (op + 1) 0 h htab m)).

(** One turn of [while (ip < in_end - 2)]. *)
Definition turn (inp : bytes) (out_len : Z) (s : cstate) : res (option cstate + cstate) :=
  hval ← NEXT inp (c_hval s) (c_ip s);
  let ref := c_htab s (IDX hval) in
  let htab := hset (IDX hval) (c_ip s) (c_htab s) in
  let s := CState (c_ip s) (c_op s) (c_lit s) hval htab (c_mem s) in
  found ← is_match inp ref (c_ip s);
  if found : bool then after_match inp out_len ref s
  else if out_len <=? c_op s then mret (inl None)
  else
    '(op, lit, m) ← put_literal inp (c_ip s) (c_op s) (c_lit s) (c_mem s);
    mret (inr (CState (c_ip s + 1) op lit hval htab m)).

(** Every turn moves [ip]. *)
Fixpoint turns (fuel : nat) (inp : bytes) (out_len : Z) (s : cstate) : res (option cstate) :=
  if c_ip s <? Z.of_nat (length inp) - 2 then
    match fuel with
    | O => Abort "fuel"
    | S fuel' =>
        r ← turn inp out_len s;
        match r with inl r => mret r | inr s => turns fuel' inp out_len s end
    end
  else mret (Some s).

(** [while (ip < in_end)] after the loop. *)
Fixpoint rest_literals (fuel : nat) (inp : bytes) (ip op lit : Z) (m : mem) : res (Z * Z * mem) :=
  if ip <? Z.of_nat (length inp) then
    match fuel with
    | O => Abort "fuel"
    | S fuel' => '(op, lit, m) ← put_literal inp ip op lit m; rest_literals fuel' inp (ip + 1) op lit m
    end
  else mret (op, lit, m).

(** The number of bytes that were written and the output buffer; [None] is the result 0. *)
Definition lzf_compress (htab : hash_table) (inp : bytes) (out : mem) : res (option (Z * mem)) :=
  let out_len := Z.of_nat (length out) in
  if (Z.of_nat (length inp) =? 0) || (out_len =? 0) then mret None
  else
    hval ← FRST inp 0;
    r ← turns (length inp) inp out_len (CState 0 1 0 hval htab out);
    match r with
    | None => mret None
    | Some s =>
        if out_len <? c_op s + 3 then mret None
        else
          '(op, lit, m) ← rest_literals 2 inp (c_ip s) (c_op s) (c_lit s) (c_mem s);
          m ← stop_run op lit m;
          mret (Some (op - (if lit =? 0 then 1 else 0), m))
    end.

(** ** The decompressor *)

(** [n] bytes from [ref] on, one after the other: what was copied can be copied again.  The
    bytes that were written to the output so far are [out], and [op] is their number. *)
Fixpoint copy_loop (n : nat) (ref : Z) (out : bytes) : res bytes :=
  match n with
  | O => mret out
  | S n' => b ← peek out ref; copy_loop n' (ref + 1) (out ++ [byte_of_Z b])
  end.
(** [memcpy], for areas that do not overlap. *)
Definition copy_block (n ref : Z) (out : bytes) : res bytes :=
  if (0 <=? ref) && (ref + n <=? Z.of_nat (length out)) then mret (out ++ take (Z.to_nat n) (drop (Z.to_nat ref) out))
  else Abort "read outside of the buffer".

(** One turn of the loop; [inl] is the result 0. *)
Definition decode_token (inp : bytes) (out_len ip : Z) (out : bytes) : res (unit + Z * bytes) :=
  let in_end := Z.of_nat (length inp) in
  let op := Z.of_nat (length out) in
  ctrl ← peek inp ip;
  let ip := ip + 1 in
  if ctrl <? Z.shiftl 1 5 then
    let ctrl := ctrl + 1 in
    if out_len <? op + ctrl then mret (inl tt)
    else if in_end <? ip + ctrl then mret (inl tt)
    else mret (inr (ip + ctrl, out ++ take (Z.to_nat ctrl) (drop (Z.to_nat ip) inp)))
  else
    let len := Z.shiftr ctrl 5 in
    let ref := op - Z.shiftl (Z.land ctrl 31) 8 - 1 in
    if in_end <=? ip then mret (inl tt)
    else
      r ← (if len =? 7 then
             b ← peek inp ip;
             if in_end <=? ip + 1 then mret None else mret (Some (len + b, ip + 1))
           else mret (Some (len, ip)));
      match r with
      | None => mret (inl tt)
      | Some (len, ip) =>
          b ← peek inp ip;
          let ip := ip + 1 in
          let ref := ref - b in
          if out_len <? op + len + 2 then mret (inl tt)
          else if ref <? 0 then mret (inl tt)
          else
            out ← (if (10 <=? len) && (ref + (len + 2) <=? op) then copy_block (len + 2) ref out
                   else copy_loop (Z.to_nat (len + 2)) ref out);
            mret (inr (ip, out))
      end.

(** [None] is the result 0.  Every turn takes a byte of the input. *)
Fixpoint decode_loop (fuel : nat) (inp : bytes) (out_len ip : Z) (out : bytes) : res (option bytes) :=
  match fuel with
  | O => Abort "fuel"
  | S fuel' =>
      r ← decode_token inp out_len ip out;
      match r with
      | inl _ => mret None
      | inr (ip, out) => if ip <? Z.of_nat (length inp) then decode_loop fuel' inp out_len ip out else mret (Some out)
      end
  end.
Definition lzf_decompress (inp : bytes) (out_len : Z) : res (option bytes) :=
  decode_loop (S (length inp)) inp out_len 0 [].

(** ** The format *)

Definition ref_bytes (off len : Z) : bytes :=
  if len <? 7 then [byte_of_Z (Z.shiftr off 8 + Z.shiftl len 5); byte_of_Z off]
  else [byte_of_Z (Z.shiftr off 8 + Z.shiftl 7 5); byte_of_Z (len - 7); byte_of_Z off].

(** [l] after [d] repeats what is [off + 1] bytes before it. *)
Definition copies (off : Z) (d l : bytes) : Prop :=
  off + 1 ≤ Z.of_nat (length d) ∧
  ∀ j, (j < length l)%nat → (d ++ l) !! (length d + j)%nat = (d ++ l) !! Z.to_nat (Z.of_nat (length d + j) - off - 1).

(** [tokens o d]: the compressed bytes [o] mean [d]. *)
Inductive tokens : bytes → bytes → Prop :=
| tokens_nil : tokens [] []
| tokens_lit o d l : tokens o d → 1 ≤ Z.of_nat (length l) ≤ 32 →
    tokens (o ++ byte_of_Z (Z.of_nat (length l) - 1) :: l) (d ++ l)
| tokens_ref o d off len l : tokens o d → 0 ≤ off < 8192 → 1 ≤ len ≤ 262 → Z.of_nat (length l) = len + 2 →
    copies off d l → tokens (o ++ ref_bytes off len) (d ++ l).

(** ** Proofs *)

Lemma peek_Some s i b : 0 ≤ i → s !! Z.to_nat i = Some b → peek s i = Ok (Z_of_byte b).
Proof. intros Hi E. unfold peek. rewrite (proj2 (Z.leb_le _ _)) by done. by rewrite E. Qed.
Lemma peek_in s i : 0 ≤ i < Z.of_nat (length s) → ∃ b, s !! Z.to_nat i = Some b ∧ peek s i = Ok (Z_of_byte b).
Proof.
  intros Hi. destruct (lookup_lt_is_Some_2 s (Z.to_nat i)) as [b E]; [lia|]. exists b. split; [done|]. apply peek_Some; [lia|done].
Qed.
Lemma peek_app s1 b s2 i : i = Z.of_nat (length s1) → peek (s1 ++ b :: s2) i = Ok (Z_of_byte b).
Proof. intros ->. apply peek_Some; [lia|]. rewrite Nat2Z.id. by rewrite list_lookup_middle. Qed.

Lemma poke_in i v m : 0 ≤ i < Z.of_nat (length m) → poke i v m = Ok (<[Z.to_nat i := Some (byte_of_Z v)]> m).
Proof. intros Hi. unfold poke. by rewrite (proj2 (Z.leb_le _ _)), (proj2 (Z.ltb_lt _ _)) by lia. Qed.

(** *** The decompressor *)

Lemma copy_loop_spec off d : ∀ l2 l1 ref,
  copies off d (l1 ++ l2) → 0 ≤ off → ref = Z.of_nat (length d + length l1) - off - 1 →
  copy_loop (length l2) ref (d ++ l1) = Ok (d ++ l1 ++ l2).
Proof.
  induction l2 as [|b l2 IH]; intros l1 ref Hc Ho ->; cbn [copy_loop length].
  - by rewrite app_nil_r.
  - destruct Hc as [Hd Hc]. pose proof (Hc (length l1)) as Hb. rewrite length_app in Hb. specialize (Hb ltac:(cbn; lia)).
    rewrite (peek_Some _ _ b); [|lia|].
    + cbn [mbind res_bind]. rewrite byte_of_Z_of_byte, <- app_assoc. rewrite (IH (l1 ++ [b])).
      * by rewrite <- (app_assoc l1 [b] l2).
      * rewrite <- app_assoc. by split.
      * done.
      * rewrite length_app. cbn. lia.
    + rewrite lookup_app_r in Hb by lia. replace (length d + length l1 - length d)%nat with (length l1) in Hb by lia.
      rewrite list_lookup_middle in Hb by done. rewrite app_assoc in Hb. rewrite lookup_app_l in Hb by (rewrite length_app; lia).
      by rewrite <- Hb.
Qed.

Lemma copy_block_spec off d l ref :
  copies off d l → 0 ≤ off → ref = Z.of_nat (length d) - off - 1 → ref + Z.of_nat (length l) ≤ Z.of_nat (length d) →
  copy_block (Z.of_nat (length l)) ref d = Ok (d ++ l).
Proof.
  intros [Hd Hc] Ho Er Hr. unfold copy_block. rewrite (proj2 (Z.leb_le _ _)), (proj2 (Z.leb_le _ _)) by lia. cbn [andb mret res_ret].
  f_equal. f_equal. apply list_eq. intros j. destruct (decide (j < length l)%nat) as [Hj|Hj].
  - rewrite lookup_take_lt by lia. rewrite lookup_drop. specialize (Hc j Hj). rewrite lookup_app_r in Hc by lia.
    replace (length d + j - length d)%nat with j in Hc by lia. rewrite lookup_app_l in Hc by lia. rewrite Hc. f_equal. lia.
  - rewrite !lookup_ge_None_2; [done|lia|rewrite length_take, length_drop; lia].
Qed.

Lemma decode_literal o d l rest out_len :
  1 ≤ Z.of_nat (length l) ≤ 32 → Z.of_nat (length d + length l) ≤ out_len →
  decode_token ((o ++ byte_of_Z (Z.of_nat (length l) - 1) :: l) ++ rest) out_len (Z.of_nat (length o)) d =
    Ok (inr (Z.of_nat (length (o ++ byte_of_Z (Z.of_nat (length l) - 1) :: l)), d ++ l)).
Proof.
  intros Hl Ho. unfold decode_token. rewrite <- app_assoc. cbn [app]. rewrite (peek_app _ _ _ _ eq_refl). cbn [mbind res_bind].
  rewrite Z_of_byte_of_Z, Z.mod_small by lia. change (Z.shiftl 1 5) with 32. rewrite (proj2 (Z.ltb_lt _ _)) by lia.
  rewrite (proj2 (Z.ltb_ge _ _)) by lia. rewrite (proj2 (Z.ltb_ge _ _)) by (rewrite length_app; cbn; rewrite length_app; lia).
  cbn [mret res_ret]. repeat f_equal.
  - rewrite length_app. cbn. lia.
  - replace (Z.to_nat (Z.of_nat (length o) + 1)) with (S (length o)) by lia.
    replace (Z.to_nat (Z.of_nat (length l) - 1 + 1)) with (length l) by lia.
    rewrite drop_app_ge by lia. replace (S (length o) - length o)%nat with 1%nat by lia. cbn [drop]. by rewrite ?drop_0, take_app_length.
Qed.

Lemma ctrl_spec off len : 0 ≤ off < 8192 → 1 ≤ len ≤ 7 →
  let c := Z_of_byte (byte_of_Z (Z.shiftr off 8 + Z.shiftl len 5)) in
  32 ≤ c ∧ Z.shiftr c 5 = len ∧ Z.shiftl (Z.land c 31) 8 = off - off mod 256.
Proof.
  intros Ho Hl c.
  assert (0 ≤ off / 256 < 32) as Hd by (split; [apply Z.div_pos|apply Z.div_lt_upper_bound]; lia).
  assert (c = off / 256 + len * 32) as Hc.
  { unfold c. rewrite Z_of_byte_of_Z, Z.shiftr_div_pow2, Z.shiftl_mul_pow2 by lia. change (2 ^ 8) with 256. change (2 ^ 5) with 32.
    apply Z.mod_small. lia. }
  rewrite Hc. split; [lia|]. split.
  - rewrite Z.shiftr_div_pow2 by lia. change (2 ^ 5) with 32. rewrite Z.div_add, Z.div_small by lia. lia.
  - change 31 with (Z.ones 5). rewrite Z.land_ones, Z.shiftl_mul_pow2 by lia. change (2 ^ 5) with 32. change (2 ^ 8) with 256.
    rewrite Z.mod_add, Z.mod_small by lia. pose proof (Z.div_mod off 256). lia.
Qed.

(** After the bytes of a reference were read. *)
Lemma copy_spec off len d l :
  0 ≤ off → 1 ≤ len → Z.of_nat (length l) = len + 2 → copies off d l →
  (if (10 <=? len) && (Z.of_nat (length d) - off - 1 + (len + 2) <=? Z.of_nat (length d))
   then copy_block (len + 2) (Z.of_nat (length d) - off - 1) d
   else copy_loop (Z.to_nat (len + 2)) (Z.of_nat (length d) - off - 1) d) = Ok (d ++ l).
Proof.
  intros Ho Hn Hl Hc. rewrite <- Hl, Nat2Z.id. destruct (_ && _) eqn:E.
  - apply andb_true_iff in E as [_ E%Z.leb_le]. by eapply copy_block_spec.
  - pose proof (copy_loop_spec off d l [] (Z.of_nat (length d) - off - 1) Hc Ho) as H. cbn [app length] in H.
    rewrite app_nil_r, Nat.add_0_r in H. by apply H.
Qed.

Lemma decode_ref o d off len l rest out_len :
  0 ≤ off < 8192 → 1 ≤ len ≤ 262 → Z.of_nat (length l) = len + 2 → copies off d l →
  Z.of_nat (length d + length l) ≤ out_len →
  decode_token ((o ++ ref_bytes off len) ++ rest) out_len (Z.of_nat (length o)) d =
    Ok (inr (Z.of_nat (length (o ++ ref_bytes off len)), d ++ l)).
Proof.
  intros Ho Hn Hl Hc Hout. pose proof Hc as [Hd _]. pose proof (Z.mod_pos_bound off 256 ltac:(lia)) as Hm.
  assert (∀ r, r = Z.of_nat (length d) - off - 1 →
    (out ← (if (10 <=? len) && (r + (len + 2) <=? Z.of_nat (length d)) then copy_block (len + 2) r d else copy_loop (Z.to_nat (len + 2)) r d);
     mret (inr (Z.of_nat (length (o ++ ref_bytes off len)), out))) = Ok (@inr unit (Z * bytes) (Z.of_nat (length (o ++ ref_bytes off len)), d ++ l))) as Hcopy.
  { intros r ->. by rewrite (copy_spec off len d l) by (done || lia). }
  unfold decode_token, ref_bytes in *. rewrite <- app_assoc. destruct (Z.ltb_spec len 7) as [H7|H7]; cbn [app].
  - destruct (ctrl_spec off len) as (C1 & C2 & C3); [lia|lia|]. rewrite (peek_app _ _ _ _ eq_refl). cbn [mbind res_bind].
    change (Z.shiftl 1 5) with 32. rewrite (proj2 (Z.ltb_ge _ _)) by done. rewrite C2, C3.
    rewrite (proj2 (Z.leb_gt _ _)) by (rewrite length_app; cbn; lia). rewrite (proj2 (Z.eqb_neq _ _)) by lia. cbn [mbind res_bind mret res_ret].
    rewrite (cons_middle _ o), app_assoc, (peek_app (o ++ _)) by (rewrite length_app; cbn; lia). cbn [mbind res_bind].
    rewrite Z_of_byte_of_Z. rewrite (proj2 (Z.ltb_ge _ _)) by lia. rewrite (proj2 (Z.ltb_ge _ _)) by lia.
    replace (Z.of_nat (length o) + 1 + 1) with (Z.of_nat (length (o ++ [byte_of_Z (Z.shiftr off 8 + Z.shiftl len 5); byte_of_Z off])))
      by (rewrite length_app; cbn; lia). apply Hcopy. lia.
  - destruct (ctrl_spec off 7) as (C1 & C2 & C3); [lia|lia|]. rewrite (peek_app _ _ _ _ eq_refl). cbn [mbind res_bind].
    change (Z.shiftl 1 5) with 32. rewrite (proj2 (Z.ltb_ge _ _)) by done. rewrite C2, C3.
    rewrite (proj2 (Z.leb_gt _ _)) by (rewrite length_app; cbn; lia). rewrite Z.eqb_refl.
    rewrite (cons_middle _ o), app_assoc, (peek_app (o ++ _)) by (rewrite length_app; cbn; lia). cbn [mbind res_bind].
    rewrite (proj2 (Z.leb_gt _ _)) by (rewrite !length_app; cbn; lia). cbn [mbind res_bind mret res_ret].
    rewrite (cons_middle _ (o ++ _)), app_assoc, (peek_app ((o ++ _) ++ _)) by (rewrite !length_app; cbn; lia). cbn [mbind res_bind].
    rewrite !Z_of_byte_of_Z, (Z.mod_small (len - 7)) by lia. rewrite (proj2 (Z.ltb_ge _ _)) by lia. rewrite (proj2 (Z.ltb_ge _ _)) by lia.
    replace (7 + (len - 7)) with len by lia.
    replace (Z.of_nat (length o) + 1 + 1 + 1) with
      (Z.of_nat (length (o ++ [byte_of_Z (Z.shiftr off 8 + Z.shiftl 7 5); byte_of_Z (len - 7); byte_of_Z off])))
      by (rewrite length_app; cbn; lia). apply Hcopy. lia.
Qed.

(** After [n] turns the decompressor has read [o] and written [d]. *)
Lemma tokens_decoded o d : tokens o d → ∀ rest out_len, Z.of_nat (length d) ≤ out_len →
  ∃ n, (n ≤ length o)%nat ∧ ∀ fuel, rest ≠ [] → decode_loop (n + fuel) (o ++ rest) out_len 0 [] = decode_loop fuel (o ++ rest) out_len (Z.of_nat (length o)) d.
Proof.
  assert (∀ o d t l rest out_len fuel, rest ≠ [] → decode_token ((o ++ t) ++ rest) out_len (Z.of_nat (length o)) d = Ok (inr (Z.of_nat (length (o ++ t)), d ++ l)) →
    decode_loop (S fuel) ((o ++ t) ++ rest) out_len (Z.of_nat (length o)) d = decode_loop fuel ((o ++ t) ++ rest) out_len (Z.of_nat (length (o ++ t))) (d ++ l)) as Hstep.
  { intros o' d' t l rest out_len fuel Hr E. cbn [decode_loop]. rewrite E. cbn [mbind res_bind].
    rewrite (proj2 (Z.ltb_lt _ _)); [done|]. destruct rest; [done|]. rewrite !length_app. cbn. lia. }
  induction 1 as [|o d l Ht IH Hl|o d off len l Ht IH Ho Hn Hl Hc]; intros rest out_len Hout.
  - exists 0%nat. split; [done|]. done.
  - rewrite length_app in Hout. set (t := byte_of_Z (Z.of_nat (length l) - 1) :: l).
    destruct (IH (t ++ rest) out_len) as (n & Hn & E); [lia|]. exists (n + 1)%nat. split; [rewrite length_app; cbn; lia|].
    intros fuel Hr. rewrite <- app_assoc, <- Nat.add_assoc, E by done. rewrite app_assoc. apply (Hstep o d t l); [done|].
    apply decode_literal; lia.
  - rewrite length_app in Hout. destruct (IH (ref_bytes off len ++ rest) out_len) as (n & Hln & E); [lia|]. exists (n + 1)%nat.
    assert (1 ≤ length (ref_bytes off len))%nat as Hrb by (unfold ref_bytes; destruct (len <? 7); cbn; lia).
    split; [rewrite length_app; lia|]. intros fuel Hr. rewrite <- app_assoc, <- Nat.add_assoc, E.
    + rewrite app_assoc. apply (Hstep o d); [done|]. apply decode_ref; (done || lia).
    + intros [E1 _]%app_eq_nil. rewrite E1 in Hrb. cbn in Hrb. lia.
Qed.

(** What comes last is decoded too. *)
Lemma tokens_decompress o d : tokens o d → o ≠ [] → lzf_decompress o (Z.of_nat (length d)) = Ok (Some d).
Proof.
  intros Ht Hne. unfold lzf_decompress.
  assert (∀ o1 d1 t l n, tokens o1 d1 → (n ≤ length o1)%nat → (1 ≤ length t)%nat → o = o1 ++ t → d = d1 ++ l →
    (∀ fuel, t ≠ [] → decode_loop (n + fuel) (o1 ++ t) (Z.of_nat (length d)) 0 [] = decode_loop fuel (o1 ++ t) (Z.of_nat (length d)) (Z.of_nat (length o1)) d1) →
    decode_token ((o1 ++ t) ++ []) (Z.of_nat (length d)) (Z.of_nat (length o1)) d1 = Ok (inr (Z.of_nat (length (o1 ++ t)), d1 ++ l)) →
    decode_loop (S (length o)) o (Z.of_nat (length d)) 0 [] = Ok (Some d)) as Hlast.
  { intros o1 d1 t l n Ht1 Hn Hlt -> -> E Ed. rewrite app_nil_r in Ed. rewrite length_app.
    replace (S (length o1 + length t)) with (n + S (length o1 + length t - n))%nat by lia. rewrite E by (by destruct t; cbn in Hlt; [lia|]).
    cbn [decode_loop]. rewrite Ed. cbn [mbind res_bind]. by rewrite Z.ltb_irrefl. }
  destruct Ht as [|o1 d1 l Ht Hl|o1 d1 off len l Ht Ho Hn Hl Hc]; [done| |].
  - destruct (tokens_decoded o1 d1 Ht (byte_of_Z (Z.of_nat (length l) - 1) :: l) (Z.of_nat (length (d1 ++ l)))) as (n & Hn & E); [rewrite length_app; lia|].
    apply (Hlast o1 d1 (byte_of_Z (Z.of_nat (length l) - 1) :: l) l n); [exact Ht|exact Hn|cbn; lia|done|done|exact E|]. apply decode_literal; [done|]. rewrite length_app. lia.
  - destruct (tokens_decoded o1 d1 Ht (ref_bytes off len) (Z.of_nat (length (d1 ++ l)))) as (n & Hln & E); [rewrite length_app; lia|].
    apply (Hlast o1 d1 (ref_bytes off len) l n); [exact Ht|exact Hln|unfold ref_bytes; destruct (len <? 7); cbn; lia|done|done|exact E|].
    apply decode_ref; try done. rewrite length_app. lia.
Qed.

Lemma copy_loop_in : ∀ n ref out, 0 ≤ ref < Z.of_nat (length out) → ∃ out', copy_loop n ref out = Ok out' ∧ length out' = (length out + n)%nat.
Proof.
  induction n as [|n IH]; intros ref out Hr; cbn [copy_loop]; [exists out; split; [done|lia]|].
  destruct (peek_in out ref Hr) as (b & _ & ->). cbn [mbind res_bind].
  destruct (IH (ref + 1) (out ++ [byte_of_Z (Z_of_byte b)])) as (out' & -> & Hl); [rewrite length_app; cbn; lia|].
  exists out'. split; [done|]. rewrite Hl, length_app. cbn. lia.
Qed.

(** A turn reads and writes within the buffers, and takes a byte. *)
Lemma decode_in inp out_len ip out :
  0 ≤ ip < Z.of_nat (length inp) → Z.of_nat (length out) ≤ out_len →
  ∃ r, decode_token inp out_len ip out = Ok r ∧
    match r with inl _ => True | inr (ip', out') => ip < ip' ≤ Z.of_nat (length inp) ∧ Z.of_nat (length out') ≤ out_len end.
Proof.
  intros Hip Hout. unfold decode_token. destruct (peek_in inp ip Hip) as (c & _ & ->). cbn [mbind res_bind]. pose proof (Z_of_byte_range c) as Hc.
  change (Z.shiftl 1 5) with 32. destruct (Z.ltb_spec (Z_of_byte c) 32) as [Hl|Hl].
  { destruct (Z.ltb_spec out_len (Z.of_nat (length out) + (Z_of_byte c + 1))); [by eexists|].
    destruct (Z.ltb_spec (Z.of_nat (length inp)) (ip + 1 + (Z_of_byte c + 1))); [by eexists|].
    eexists. split; [done|]. cbn. rewrite length_app, length_take, length_drop. lia. }
  destruct (Z.leb_spec (Z.of_nat (length inp)) (ip + 1)); [by eexists|].
  assert (0 ≤ Z.shiftr (Z_of_byte c) 5) as Hlen by (apply Z.shiftr_nonneg; lia).
  assert (0 ≤ Z.shiftl (Z.land (Z_of_byte c) 31) 8) as Hoff by (apply Z.shiftl_nonneg, Z.land_nonneg; lia).
  assert (∃ r, (if Z.shiftr (Z_of_byte c) 5 =? 7 then
       b ← peek inp (ip + 1); if Z.of_nat (length inp) <=? ip + 1 + 1 then mret None else mret (Some (Z.shiftr (Z_of_byte c) 5 + b, ip + 1 + 1))
     else mret (Some (Z.shiftr (Z_of_byte c) 5, ip + 1))) = Ok r ∧
    match r with None => True | Some (len, ip') => 0 ≤ len ∧ ip < ip' < Z.of_nat (length inp) end) as (r & -> & Hr).
  { destruct (Z.eqb_spec (Z.shiftr (Z_of_byte c) 5) 7); [|eexists; split; [done|cbn; lia]].
    destruct (peek_in inp (ip + 1)) as (b & _ & ->); [lia|]. cbn [mbind res_bind]. pose proof (Z_of_byte_range b).
    destruct (Z.leb_spec (Z.of_nat (length inp)) (ip + 1 + 1)); [by eexists|]. eexists. split; [done|]. cbn. lia. }
  cbn [mbind res_bind]. destruct r as [[len ip']|]; [|by eexists]. destruct Hr as [Hln Hi].
  destruct (peek_in inp ip') as (b & _ & ->); [lia|]. cbn [mbind res_bind]. pose proof (Z_of_byte_range b).
  destruct (Z.ltb_spec out_len (Z.of_nat (length out) + len + 2)); [by eexists|].
  set (ref := Z.of_nat (length out) - _ - 1 - _). destruct (Z.ltb_spec ref 0); [by eexists|].
  assert (∃ out', (if (10 <=? len) && (ref + (len + 2) <=? Z.of_nat (length out)) then copy_block (len + 2) ref out
     else copy_loop (Z.to_nat (len + 2)) ref out) = Ok out' ∧ Z.of_nat (length out') = Z.of_nat (length out) + len + 2) as (out' & -> & Ho).
  { destruct (_ && _) eqn:E.
    - apply andb_true_iff in E as [_ E%Z.leb_le]. unfold copy_block. rewrite (proj2 (Z.leb_le _ _)), (proj2 (Z.leb_le _ _)) by lia.
      eexists. split; [done|]. rewrite length_app, length_take, length_drop. lia.
    - destruct (copy_loop_in (Z.to_nat (len + 2)) ref out) as (out' & E1 & E2); [subst ref; lia|]. exists out'. split; [done|]. lia. }
  eexists. split; [done|]. cbn. lia.
Qed.

Lemma decode_loop_in inp out_len : ∀ fuel ip out,
  0 ≤ ip < Z.of_nat (length inp) → Z.of_nat (length out) ≤ out_len → Z.of_nat (length inp) - ip ≤ Z.of_nat fuel →
  ∃ r, decode_loop fuel inp out_len ip out = Ok r ∧ ∀ out', r = Some out' → Z.of_nat (length out') ≤ out_len.
Proof.
  induction fuel as [|fuel IH]; intros ip out Hi Ho Hf; [lia|]. cbn [decode_loop].
  destruct (decode_in inp out_len ip out Hi Ho) as (r & -> & Hr). cbn [mbind res_bind].
  destruct r as [[]|[ip' out']]; [by eexists|]. destruct Hr as [Hi' Ho']. destruct (Z.ltb_spec ip' (Z.of_nat (length inp))).
  - apply IH; lia.
  - eexists. split; [done|]. by intros ? [= <-].
Qed.

(** *** The compressor *)

Definition agrees (inp : bytes) (ref ip len : Z) : Prop :=
  ∀ j, 0 ≤ j < len → inp !! Z.to_nat (ref + j) = inp !! Z.to_nat (ip + j).

(** Comparing two bytes of the input. *)
Lemma compare_spec {A} inp ref ip len (f g : res A) :
  0 ≤ ref < ip → 0 ≤ len → ip + len < Z.of_nat (length inp) → agrees inp ref ip len →
  ∃ e, (a ← peek inp (ref + len); b ← peek inp (ip + len); if a =? b then f else g) = (if e : bool then f else g) ∧
    (e = true → agrees inp ref ip (len + 1)).
Proof.
  intros Hr Hl Hi Ha. destruct (peek_in inp (ref + len)) as (a & Ea & ->); [lia|].
  destruct (peek_in inp (ip + len)) as (b & Eb & ->); [lia|]. cbn [mbind res_bind]. exists (Z_of_byte a =? Z_of_byte b).
  split; [done|]. intros E%Z.eqb_eq%(inj Z_of_byte). subst b. intros j Hj. destruct (decide (j = len)) as [->|]; [congruence|]. apply Ha. lia.
Qed.

Lemma agrees_le inp ref ip l l' : agrees inp ref ip l → l' ≤ l → agrees inp ref ip l'.
Proof. intros Ha Hl j Hj. apply Ha. lia. Qed.

Lemma unrolled_spec inp ref ip : ∀ k len,
  0 ≤ ref < ip → 0 ≤ len → ip + len + Z.of_nat k < Z.of_nat (length inp) → agrees inp ref ip (len + 1) →
  ∃ len' b, unrolled k inp ref ip len = Ok (len', b) ∧ agrees inp ref ip len' ∧
    if b : bool then len < len' ≤ len + Z.of_nat k else len' = len + Z.of_nat k ∧ agrees inp ref ip (len' + 1).
Proof.
  induction k as [|k IH]; intros len Hr Hl Hi Ha; cbn [unrolled].
  - exists len, false. split; [done|]. split; [eapply agrees_le; [exact Ha|lia]|]. split; [lia|done].
  - destruct (compare_spec inp ref ip (len + 1) (unrolled k inp ref ip (len + 1)) (mret (len + 1, true))) as (e & -> & He); [done|lia|lia|done|].
    destruct e.
    + destruct (IH (len + 1)) as (len' & b & -> & H1 & H2); [done|lia|lia|by apply He|]. exists len', b. split; [done|]. split; [done|].
      destruct b; [lia|]. destruct H2. split; [lia|done].
    + exists (len + 1), true. split; [done|]. split; [done|]. lia.
Qed.

Lemma extend_match_spec inp ref ip maxlen : ∀ fuel len,
  0 ≤ ref < ip → 0 ≤ len → ip + maxlen ≤ Z.of_nat (length inp) → agrees inp ref ip (len + 1) →
  (1 ≤ fuel)%nat → maxlen - len ≤ Z.of_nat fuel →
  ∃ len', extend_match fuel inp ref ip maxlen len = Ok len' ∧ len < len' ∧ agrees inp ref ip len' ∧ (len' ≤ len + 1 ∨ len' ≤ maxlen).
Proof.
  induction fuel as [|fuel IH]; intros len Hr Hl Hm Ha Hf Hfuel; [lia|]. cbn [extend_match].
  destruct (Z.ltb_spec (len + 1) maxlen); [|exists (len + 1); split_and!; [done|lia|done|lia]].
  destruct (compare_spec inp ref ip (len + 1) (extend_match fuel inp ref ip maxlen (len + 1)) (mret (len + 1))) as (e & -> & He); [done|lia|lia|done|].
  destruct e; [|exists (len + 1); split_and!; [done|lia|done|lia]].
  destruct (IH (len + 1)) as (len' & -> & H1 & H2 & H3); [done|lia|done|by apply He|lia|lia|]. exists len'. split_and!; [done|lia|done|lia].
Qed.

Lemma match_length_spec inp ref ip maxlen :
  0 ≤ ref < ip → ip + 2 + maxlen ≤ Z.of_nat (length inp) → 1 ≤ maxlen ≤ 264 → agrees inp ref ip 3 →
  ∃ len, match_length inp ref ip maxlen = Ok len ∧ 3 ≤ len ≤ 264 ∧ ip + len ≤ Z.of_nat (length inp) ∧ agrees inp ref ip len.
Proof.
  intros Hr Hm Hl Ha. unfold match_length. change (Z.to_nat MAX_REF) with 264%nat.
  destruct (Z.ltb_spec 16 maxlen).
  - destruct (unrolled_spec inp ref ip 16 2) as (len & b & -> & H1 & H2); [done|lia|lia|done|]. cbn [mbind res_bind]. destruct b.
    + exists len. split_and!; [done|lia|lia|lia|done].
    + destruct H2 as [-> H2]. change (2 + Z.of_nat 16) with 18 in *. destruct (extend_match_spec inp ref ip maxlen 264 18) as (len & -> & H3 & H4 & H5); [done|lia|lia|done|lia|lia|].
      exists len. split_and!; [done|lia|lia|lia|done].
  - cbn [mbind res_bind mret res_ret].
    destruct (extend_match_spec inp ref ip maxlen 264 2) as (len & -> & H3 & H4 & H5); [done|lia|lia|done|lia|lia|].
    exists len. split_and!; [done|lia|lia|lia|done].
Qed.

(** The output buffer starts with [o]. *)
Definition mem_is (m : mem) (o : bytes) : Prop := ∀ i b, o !! i = Some b → m !! i = Some (Some b).

Lemma mem_is_length m o : mem_is m o → (length o ≤ length m)%nat.
Proof.
  intros H. destruct (decide (length o = 0%nat)) as [->|Hn]; [lia|].
  destruct (lookup_lt_is_Some_2 o (length o - 1)) as [b E]; [lia|]. apply H, lookup_lt_Some in E. lia.
Qed.
Lemma mem_is_take m o : mem_is m o → take (length o) m = Some <$> o.
Proof.
  intros H. pose proof (mem_is_length m o H) as Hl. apply list_eq. intros i. rewrite list_lookup_fmap.
  destruct (o !! i) as [b|] eqn:E.
  - rewrite lookup_take_lt by (by eapply lookup_lt_Some). by apply H.
  - apply lookup_ge_None in E. by rewrite lookup_ge_None_2 by (rewrite length_take; lia).
Qed.
Lemma mem_is_prefix m o o' : mem_is m (o ++ o') → mem_is m o.
Proof. intros H i b E. apply H. by apply lookup_app_l_Some. Qed.

Lemma poke_app m o op v :
  mem_is m o → Z.of_nat (length o) = op → op < Z.of_nat (length m) →
  ∃ m', poke op v m = Ok m' ∧ mem_is m' (o ++ [byte_of_Z v]) ∧ length m' = length m ∧
    ∀ i, (length o < i)%nat → m' !! i = m !! i.
Proof.
  intros Hm <- Hl. rewrite poke_in by lia. rewrite Nat2Z.id. eexists. split; [done|]. rewrite length_insert. split; [|split; [done|]].
  - intros i b [E|[Hi E]]%lookup_app_Some.
    + rewrite list_lookup_insert_ne by (apply lookup_lt_Some in E; lia). by apply Hm.
    + apply list_lookup_singleton_Some in E as [Hi0 <-]. replace i with (length o) by lia. rewrite list_lookup_insert_eq by lia. done.
  - intros i Hi. by rewrite list_lookup_insert_ne by lia.
Qed.

(** The output is [o], a free byte and a run of [lit] literals. *)
Record runs (inp : bytes) (n ip op lit : Z) (m : mem) : Prop := {
  r_lit : 0 ≤ lit ≤ 32;
  r_ip : lit ≤ ip ≤ Z.of_nat (length inp);
  r_mem : Z.of_nat (length m) = n;
  r_out : ∃ o, tokens o (take (Z.to_nat (ip - lit)) inp) ∧ Z.of_nat (length o) = op - lit - 1 ∧ mem_is m o;
  r_run : ∀ j, 0 ≤ j < lit → m !! Z.to_nat (op - lit + j) = Some (inp !! Z.to_nat (ip - lit + j));
}.

Definition undo (lit : Z) : Z := if lit =? 0 then 1 else 0.

Lemma runs_start inp n ip op m o : tokens o (take (Z.to_nat ip) inp) → Z.of_nat (length o) = op - 1 → mem_is m o →
  0 ≤ ip ≤ Z.of_nat (length inp) → Z.of_nat (length m) = n → runs inp n ip op 0 m.
Proof. intros Ht Ho Hm Hi Hn. split; try lia. exists o. rewrite !Z.sub_0_r. done. Qed.

Lemma stop_ok inp n ip op lit m :
  runs inp n ip op lit m → op - lit - 1 < n →
  ∃ m' o, stop_run op lit m = Ok m' ∧ Z.of_nat (length m') = n ∧ tokens o (take (Z.to_nat ip) inp) ∧
    Z.of_nat (length o) = op - undo lit ∧ mem_is m' o.
Proof.
  intros [Hl Hi Hn (o & Ht & Ho & Hm) Hrun] Hlt. unfold stop_run, undo.
  destruct (poke_app m o (op - lit - 1) (lit - 1)) as (m' & -> & Hm' & Hn' & Hkeep); [done|lia|lia|].
  destruct (Z.eqb_spec lit 0) as [->|Hne].
  - exists m', o. rewrite Z.sub_0_r in *. split_and!; [done|lia|done|lia|by eapply mem_is_prefix].
  - set (l := take (Z.to_nat lit) (drop (Z.to_nat (ip - lit)) inp)).
    assert (Z.of_nat (length l) = lit) as Hll by (unfold l; rewrite length_take, length_drop; lia).
    exists m', (o ++ byte_of_Z (Z.of_nat (length l) - 1) :: l). rewrite Hll.
    split; [done|]. split; [lia|]. split; [|split].
    + replace (take (Z.to_nat ip) inp) with (take (Z.to_nat (ip - lit)) inp ++ l).
      * replace (lit - 1) with (Z.of_nat (length l) - 1) by lia. apply tokens_lit; [done|]. lia.
      * unfold l. replace (Z.to_nat ip) with (Z.to_nat (ip - lit) + Z.to_nat lit)%nat by lia. by rewrite take_take_drop.
    + rewrite length_app. cbn. lia.
    + rewrite cons_middle, app_assoc. intros i b [E|[Hge E]]%lookup_app_Some; [by apply Hm'|].
      rewrite length_app in *. cbn in Hge, E. rewrite Hkeep by lia. unfold l in E.
      pose proof (lookup_lt_Some _ _ _ E) as Hlt'. fold l in Hlt'. rewrite lookup_take_lt, lookup_drop in E by lia.
      specialize (Hrun (Z.of_nat (i - (length o + 1))) ltac:(lia)).
      replace (Z.to_nat (op - lit + Z.of_nat (i - (length o + 1)))) with i in Hrun by lia.
      replace (Z.to_nat (ip - lit + Z.of_nat (i - (length o + 1)))) with (Z.to_nat (ip - lit) + (i - (length o + 1)))%nat in Hrun by lia.
      by rewrite Hrun, E.
Qed.

Lemma put_literal_ok inp n ip op lit m :
  runs inp n ip op lit m → lit < 32 → ip < Z.of_nat (length inp) → op < n →
  ∃ op' lit' m', put_literal inp ip op lit m = Ok (op', lit', m') ∧ runs inp n (ip + 1) op' lit' m' ∧ lit' < 32 ∧
    (op' = op + 1 ∧ lit' = lit + 1 ∨ op' = op + 2 ∧ lit' = 0 ∧ lit = 31).
Proof.
  intros Hr Hl Hi Ho. pose proof Hr as [H1 H2 H3 (o & Ht & Hol & Hm) Hrun]. unfold put_literal.
  destruct (peek_in inp ip) as (b & Eb & ->); [lia|]. cbn [mbind res_bind]. rewrite poke_in by lia. cbn [mbind res_bind].
  rewrite byte_of_Z_of_byte. set (m1 := <[Z.to_nat op := Some b]> m).
  assert (runs inp n (ip + 1) (op + 1) (lit + 1) m1) as Hr1.
  { split; [lia|lia|unfold m1; rewrite length_insert; lia| |].
    - exists o. replace (ip + 1 - (lit + 1)) with (ip - lit) by lia. split; [done|]. split; [lia|].
      intros i c E. unfold m1. rewrite list_lookup_insert_ne by (apply lookup_lt_Some in E; lia). by apply Hm.
    - intros j Hj. replace (op + 1 - (lit + 1) + j) with (op - lit + j) by lia. replace (ip + 1 - (lit + 1) + j) with (ip - lit + j) by lia.
      unfold m1. destruct (decide (j = lit)) as [->|Hne].
      + replace (op - lit + lit) with op by lia. replace (ip - lit + lit) with ip by lia. by rewrite list_lookup_insert_eq, Eb by lia.
      + rewrite list_lookup_insert_ne by lia. apply Hrun. lia. }
  change MAX_LIT with 32. destruct (Z.eqb_spec (lit + 1) 32) as [E|E].
  - destruct (stop_ok inp n (ip + 1) (op + 1) (lit + 1) m1 Hr1) as (m' & o' & -> & Hn' & Ht' & Ho' & Hm'); [lia|]. cbn [mbind res_bind].
    exists (op + 1 + 1), 0, m'. split; [done|]. split; [|lia]. eapply runs_start; try done; [|lia].
    unfold undo in Ho'. rewrite (proj2 (Z.eqb_neq _ _)) in Ho' by lia. lia.
  - exists (op + 1), (lit + 1), m1. split; [done|]. split; [done|]. lia.
Qed.

Lemma put_match_ok m o op off len :
  mem_is m o → Z.of_nat (length o) = op → op + 3 ≤ Z.of_nat (length m) →
  ∃ m', put_match off len op m = Ok (op + Z.of_nat (length (ref_bytes off len)), m') ∧ mem_is m' (o ++ ref_bytes off len) ∧ length m' = length m.
Proof.
  intros Hm Ho Hl. unfold put_match, ref_bytes. destruct (len <? 7).
  - destruct (poke_app m o op (Z.shiftr off 8 + Z.shiftl len 5)) as (m1 & -> & Hm1 & Hl1 & _); [done|done|lia|]. cbn [mbind res_bind mret res_ret].
    destruct (poke_app m1 (o ++ [byte_of_Z (Z.shiftr off 8 + Z.shiftl len 5)]) (op + 1) off) as (m2 & -> & Hm2 & Hl2 & _);
      [done|rewrite length_app; cbn; lia|lia|]. cbn [mbind res_bind mret res_ret].
    exists m2. split; [f_equal; f_equal; cbn; lia|]. rewrite <- app_assoc in Hm2. split; [done|lia].
  - destruct (poke_app m o op (Z.shiftr off 8 + Z.shiftl 7 5)) as (m1 & -> & Hm1 & Hl1 & _); [done|done|lia|]. cbn [mbind res_bind mret res_ret].
    destruct (poke_app m1 (o ++ [byte_of_Z (Z.shiftr off 8 + Z.shiftl 7 5)]) (op + 1) (len - 7)) as (m2 & -> & Hm2 & Hl2 & _);
      [done|rewrite length_app; cbn; lia|lia|]. cbn [mbind res_bind mret res_ret].
    destruct (poke_app m2 ((o ++ [byte_of_Z (Z.shiftr off 8 + Z.shiftl 7 5)]) ++ [byte_of_Z (len - 7)]) (op + 2) off) as (m3 & -> & Hm3 & Hl3 & _);
      [done|rewrite !length_app; cbn; lia|lia|]. cbn [mbind res_bind mret res_ret].
    exists m3. split; [f_equal; f_equal; cbn; lia|]. rewrite <- !app_assoc in Hm3. split; [done|lia].
Qed.

Lemma match_copies inp ref ip len :
  0 ≤ ref < ip → ip + len ≤ Z.of_nat (length inp) → 0 ≤ len → agrees inp ref ip len →
  copies (ip - ref - 1) (take (Z.to_nat ip) inp) (take (Z.to_nat len) (drop (Z.to_nat ip) inp)).
Proof.
  intros Hr Hl Hn Ha. unfold copies. rewrite take_take_drop, length_take. split; [lia|].
  intros j Hj. rewrite length_take, length_drop in Hj. rewrite !lookup_take_lt by lia.
  specialize (Ha (Z.of_nat j) ltac:(lia)). replace (Z.to_nat ip `min` length inp + j)%nat with (Z.to_nat (ip + Z.of_nat j)) by lia.
  rewrite <- Ha. f_equal. lia.
Qed.

Lemma off_range ip ref : 0 ≤ ip < 2 ^ 32 → 0 ≤ ref < 2 ^ 32 → u64 (ip - ref - 1) < MAX_OFF →
  u64 (ip - ref - 1) = ip - ref - 1 ∧ 0 ≤ ip - ref - 1 < 8192.
Proof.
  intros Hi Hr. unfold u64. change MAX_OFF with 8192. intros H.
  destruct (decide (0 ≤ ip - ref - 1)) as [Hp|Hp]; [rewrite Z.mod_small in H |- *; lia|].
  rewrite <- (Z.mod_add (ip - ref - 1) 1), Z.mod_small in H by lia. lia.
Qed.

Record state_ok (inp : bytes) (n : Z) (s : cstate) : Prop := {
  s_runs : runs inp n (c_ip s) (c_op s) (c_lit s) (c_mem s);
  s_lit : c_lit s < 32;
  s_htab : ∀ j, 0 ≤ c_htab s j < 2 ^ 32;
}.

Lemma NEXT_in inp v p : 0 ≤ p → p + 2 < Z.of_nat (length inp) → ∃ h, NEXT inp v p = Ok h.
Proof. intros H1 H2. unfold NEXT. destruct (peek_in inp (p + 2)) as (b & _ & ->); [lia|]. by eexists. Qed.
Lemma FRST_in inp p : 0 ≤ p → p + 1 < Z.of_nat (length inp) → ∃ h, FRST inp p = Ok h.
Proof.
  intros H1 H2. unfold FRST. destruct (peek_in inp p) as (b & _ & ->); [lia|].
  destruct (peek_in inp (p + 1)) as (b' & _ & ->); [lia|]. by eexists.
Qed.
Lemma htab_set_ok i v htab : 0 ≤ v < 2 ^ 32 → (∀ j, 0 ≤ htab j < 2 ^ 32) → ∀ j, 0 ≤ hset i v htab j < 2 ^ 32.
Proof. intros Hv Hh j. unfold hset. by destruct (j =? i). Qed.

(** What a turn leaves behind. *)
Definition turn_ok (inp : bytes) (n ip : Z) (r : option cstate + cstate) : Prop :=
  match r with
  | inl None => True
  | inl (Some s) => state_ok inp n s ∧ Z.of_nat (length inp) - 2 ≤ c_ip s
  | inr s => state_ok inp n s ∧ ip < c_ip s
  end.

Lemma after_match_ok inp n ref s :
  state_ok inp n s → Z.of_nat (length inp) < 2 ^ 32 → c_ip s + 2 < Z.of_nat (length inp) → 0 < ref →
  u64 (c_ip s - ref - 1) = c_ip s - ref - 1 → 0 ≤ c_ip s - ref - 1 < 8192 → agrees inp ref (c_ip s) 3 →
  ∃ r, after_match inp n ref s = Ok r ∧ turn_ok inp n (c_ip s) r.
Proof.
  intros [Hr Hl Hh] Hlen Hip Href Eu Hoff Ha. unfold after_match. fold (undo (c_lit s)). pose proof (r_ip _ _ _ _ _ _ Hr) as Hi.
  pose proof (r_mem _ _ _ _ _ _ Hr) as Hmem. pose proof (r_lit _ _ _ _ _ _ Hr) as Hl0.
  assert (0 ≤ undo (c_lit s) ≤ 1) as Hu by (unfold undo; destruct (_ =? _); lia).
  destruct ((n <=? _) && _) eqn:Eout; [by eexists|].
  assert (c_op s - undo (c_lit s) + 4 < n) as Hroom by (apply andb_false_iff in Eout as [E%Z.leb_gt|E%Z.leb_gt]; lia).
  destruct (stop_ok _ _ _ _ _ _ Hr) as (m1 & o & -> & Hn1 & Ht & Ho & Hm1); [lia|]. cbn [mbind res_bind].
  rewrite Eu. unfold u32. rewrite (Z.mod_small (Z.of_nat (length inp) - c_ip s - 2)) by lia.
  set (maxlen := if MAX_REF <? _ then MAX_REF else _).
  assert (1 ≤ maxlen ≤ 264 ∧ maxlen ≤ Z.of_nat (length inp) - c_ip s - 2) as [Hml1 Hml2].
  { unfold maxlen. change MAX_REF with 264. destruct (Z.ltb_spec 264 (Z.of_nat (length inp) - c_ip s - 2)); lia. }
  destruct (match_length_spec inp ref (c_ip s) maxlen) as (len & -> & Hlen1 & Hlen2 & Hag); [lia|lia|done|done|]. cbn [mbind res_bind].
  destruct (put_match_ok m1 o (c_op s - undo (c_lit s)) (c_ip s - ref - 1) (len - 2) Hm1 Ho) as (m2 & -> & Hm2 & Hn2); [lia|]. cbn [mbind res_bind].
  set (rb := ref_bytes (c_ip s - ref - 1) (len - 2)) in *.
  assert (runs inp n (c_ip s + len) (c_op s - undo (c_lit s) + Z.of_nat (length rb) + 1) 0 m2) as Hrun.
  { eapply (runs_start _ _ _ _ _ (o ++ rb)); [|rewrite length_app; lia|done|lia|lia].
    replace (take (Z.to_nat (c_ip s + len)) inp) with (take (Z.to_nat (c_ip s)) inp ++ take (Z.to_nat len) (drop (Z.to_nat (c_ip s)) inp))
      by (rewrite take_take_drop; f_equal; lia).
    apply tokens_ref; [done|lia|lia|rewrite length_take, length_drop; lia|]. apply match_copies; lia || done. }
  replace (c_ip s + 1 + (len - 2) + 1) with (c_ip s + len) by lia.
  destruct (Z.leb_spec (Z.of_nat (length inp) - 2) (c_ip s + len)) as [Hend|Hend].
  { eexists. split; [done|]. split; [by split|done]. }
  destruct (FRST_in inp (c_ip s + len - 2)) as [h1 ->]; [lia|lia|]. cbn [mbind res_bind].
  destruct (NEXT_in inp h1 (c_ip s + len - 2)) as [h2 ->]; [lia|lia|]. cbn [mbind res_bind].
  destruct (NEXT_in inp h2 (c_ip s + len - 2 + 1)) as [h3 ->]; [lia|lia|]. cbn [mbind res_bind].
  eexists. split; [done|]. replace (c_ip s + len - 2 + 1 + 1) with (c_ip s + len) by lia. split; [|cbn; lia]. split; cbn; [done|lia|].
  apply htab_set_ok; [lia|]. apply htab_set_ok; [lia|done].
Qed.

Lemma is_match_spec inp ref ip :
  0 ≤ ip → ip + 2 < Z.of_nat (length inp) < 2 ^ 32 → 0 ≤ ref < 2 ^ 32 →
  ∃ b, is_match inp ref ip = Ok b ∧
    (b = true → 0 < ref ∧ u64 (ip - ref - 1) = ip - ref - 1 ∧ 0 ≤ ip - ref - 1 < 8192 ∧ agrees inp ref ip 3).
Proof.
  intros Hi Hl Hr. unfold is_match. destruct (_ && _) eqn:E; [|by eexists].
  apply andb_true_iff in E as [E1%Z.ltb_lt E2%Z.ltb_lt]. destruct (off_range ip ref) as [Eu Ho]; [lia|done|done|].
  assert (∀ j, 0 ≤ j ≤ 2 → ∃ a b, inp !! Z.to_nat (ref + j) = Some a ∧ peek inp (ref + j) = Ok (Z_of_byte a) ∧
    inp !! Z.to_nat (ip + j) = Some b ∧ peek inp (ip + j) = Ok (Z_of_byte b)) as Hp.
  { intros j Hj. destruct (peek_in inp (ref + j)) as (a & ? & ?); [lia|]. destruct (peek_in inp (ip + j)) as (b & ? & ?); [lia|]. by exists a, b. }
  destruct (Hp 2) as (a2 & b2 & A2 & -> & B2 & ->); [lia|]. cbn [mbind res_bind].
  destruct (Z.eqb_spec (Z_of_byte a2) (Z_of_byte b2)) as [E3%(inj Z_of_byte)|]; [|by eexists].
  destruct (Hp 0) as (a0 & b0 & A0 & Pa & B0 & Pb); [lia|]. rewrite !Z.add_0_r in *. rewrite Pa, Pb. cbn [mbind res_bind].
  destruct (Hp 1) as (a1 & b1 & A1 & -> & B1 & ->); [lia|]. cbn [mbind res_bind]. eexists. split; [done|].
  intros [E4%Z.eqb_eq%(inj Z_of_byte) E5%Z.eqb_eq%(inj Z_of_byte)]%andb_true_iff. split_and!; try lia.
  intros j Hj. assert (j = 0 ∨ j = 1 ∨ j = 2) as [->|[->| ->]] by lia; rewrite ?Z.add_0_r; congruence.
Qed.

Lemma turn_spec inp n s :
  state_ok inp n s → Z.of_nat (length inp) < 2 ^ 32 → c_ip s + 2 < Z.of_nat (length inp) →
  ∃ r, turn inp n s = Ok r ∧ turn_ok inp n (c_ip s) r.
Proof.
  intros Hs Hlen Hip. pose proof Hs as [Hr Hl Hh]. pose proof (r_ip _ _ _ _ _ _ Hr) as Hi. pose proof (r_lit _ _ _ _ _ _ Hr) as Hl0. unfold turn.
  destruct (NEXT_in inp (c_hval s) (c_ip s)) as [hval ->]; [lia|lia|]. cbn [mbind res_bind].
  set (s1 := CState _ _ _ _ _ _).
  assert (state_ok inp n s1) as Hs1 by (split; cbn; [done|done|apply htab_set_ok; [lia|done]]).
  destruct (is_match_spec inp (c_htab s (IDX hval)) (c_ip s)) as (b & Eb & Hb); [lia|lia|by apply Hh|].
  change (c_ip s1) with (c_ip s). rewrite Eb. cbn [mbind res_bind]. destruct b.
  - destruct (Hb eq_refl) as (H1 & H2 & H3 & H4). by apply (after_match_ok inp n _ s1).
  - change (c_op s1) with (c_op s). destruct (Z.leb_spec n (c_op s)); [by eexists|].
    destruct (put_literal_ok inp n (c_ip s) (c_op s) (c_lit s) (c_mem s) Hr Hl) as (op & lit & m & E & Hr' & Hl' & _); [lia|lia|].
    change (c_lit s1) with (c_lit s). change (c_mem s1) with (c_mem s). rewrite E. cbn [mbind res_bind].
    eexists. split; [done|]. split; [|cbn; lia]. split; cbn; [done|done|]. apply htab_set_ok; [lia|done].
Qed.

Lemma turns_spec inp n : Z.of_nat (length inp) < 2 ^ 32 → ∀ fuel s,
  state_ok inp n s → Z.of_nat (length inp) - c_ip s ≤ Z.of_nat fuel →
  ∃ r, turns fuel inp n s = Ok r ∧ ∀ s', r = Some s' → state_ok inp n s' ∧ Z.of_nat (length inp) - 2 ≤ c_ip s'.
Proof.
  intros Hlen. induction fuel as [|fuel IH]; intros s Hs Hf; cbn [turns];
    (destruct (Z.ltb_spec (c_ip s) (Z.of_nat (length inp) - 2)); [|eexists; split; [done|]; intros ? [= <-]; by split]).
  - lia.
  - destruct (turn_spec inp n s Hs Hlen) as (r & -> & Hr); [lia|]. cbn [mbind res_bind]. destruct r as [[s'|]|s'].
    + eexists. split; [done|]. intros ? [= <-]. exact Hr.
    + by eexists.
    + destruct Hr. apply IH; [done|lia].
Qed.

(** At most two literals are left; the room for them and for the free byte was checked. *)
Lemma rest_spec inp n s :
  state_ok inp n s → Z.of_nat (length inp) - 2 ≤ c_ip s → c_op s + 3 ≤ n →
  ∃ op lit m, rest_literals 2 inp (c_ip s) (c_op s) (c_lit s) (c_mem s) = Ok (op, lit, m) ∧
    runs inp n (Z.of_nat (length inp)) op lit m ∧ op - lit - 1 < n ∧ 1 ≤ op.
Proof.
  intros [Hr Hl Hh] Hip Hop. pose proof (r_ip _ _ _ _ _ _ Hr) as Hi. pose proof (r_lit _ _ _ _ _ _ Hr) as Hl0.
  assert (c_lit s + 1 ≤ c_op s) as Hop1 by (destruct (r_out _ _ _ _ _ _ Hr) as (o & _ & ? & _); lia).
  cbn [rest_literals]. destruct (Z.ltb_spec (c_ip s) (Z.of_nat (length inp))) as [H1|H1].
  2:{ exists (c_op s), (c_lit s), (c_mem s). split; [done|]. replace (Z.of_nat (length inp)) with (c_ip s) by lia. split; [done|]. lia. }
  destruct (put_literal_ok _ _ _ _ _ _ Hr Hl H1) as (op1 & lit1 & m1 & -> & Hr1 & Hl1 & Ho1); [lia|]. cbn [mbind res_bind].
  pose proof (r_lit _ _ _ _ _ _ Hr1) as Hl1'. destruct (Z.ltb_spec (c_ip s + 1) (Z.of_nat (length inp))) as [H2|H2].
  2:{ exists op1, lit1, m1. split; [done|]. replace (Z.of_nat (length inp)) with (c_ip s + 1) by lia. split; [done|]. lia. }
  destruct (put_literal_ok _ _ _ _ _ _ Hr1 Hl1 H2) as (op2 & lit2 & m2 & -> & Hr2 & Hl2 & Ho2); [lia|]. cbn [mbind res_bind].
  destruct (Z.ltb_spec (c_ip s + 1 + 1) (Z.of_nat (length inp))) as [H3|H3]; [lia|]. pose proof (r_lit _ _ _ _ _ _ Hr2).
  exists op2, lit2, m2. split; [done|]. replace (Z.of_nat (length inp)) with (c_ip s + 1 + 1) by lia. split; [done|]. lia.
Qed.

Lemma lzf_compress_ok htab inp out :
  (∀ j, 0 ≤ htab j < 2 ^ 32) → 2 ≤ Z.of_nat (length inp) < 2 ^ 32 →
  ∃ r, lzf_compress htab inp out = Ok r ∧
    ∀ n m, r = Some (n, m) → ∃ o, take (Z.to_nat n) m = Some <$> o ∧ Z.of_nat (length o) = n ∧ 0 < n ≤ Z.of_nat (length out) ∧
      lzf_decompress o (Z.of_nat (length inp)) = Ok (Some inp).
Proof.
  intros Hh Hlen. unfold lzf_compress. destruct (_ || _) eqn:E; [by eexists|]. apply orb_false_iff in E as [_ E%Z.eqb_neq].
  destruct (FRST_in inp 0) as [h ->]; [lia|lia|]. cbn [mbind res_bind].
  destruct (turns_spec inp (Z.of_nat (length out)) (proj2 Hlen) (length inp) (CState 0 1 0 h htab out)) as (r & -> & Hr); [|cbn; lia|].
  { split; cbn; [|lia|done]. apply (runs_start _ _ _ _ _ []); [constructor|done|by intros ? ?|lia|done]. }
  cbn [mbind res_bind]. destruct r as [s|]; [|by eexists]. destruct (Hr s eq_refl) as [Hs Hip].
  destruct (Z.ltb_spec (Z.of_nat (length out)) (c_op s + 3)); [by eexists|].
  destruct (rest_spec _ _ _ Hs Hip) as (op & lit & m & -> & Hrun & Hop & Hop1); [lia|]. cbn [mbind res_bind].
  destruct (stop_ok _ _ _ _ _ _ Hrun Hop) as (m' & o & -> & Hn & Ht & Ho & Hm). cbn [mbind res_bind]. eexists. split; [done|].
  intros n m'' [= <- <-]. exists o. fold (undo lit). rewrite <- Ho, Nat2Z.id. pose proof (mem_is_length _ _ Hm) as Hle.
  rewrite Nat2Z.id, take_ge in Ht by done. assert (o ≠ []) as Hne.
  { intros ->. inversion Ht as [E1|? ? ? ? ? E1|? ? ? ? ? ? ? ? ? ? E1]; subst; cbn in Hlen; [lia|by destruct o|].
    unfold ref_bytes in E1. destruct (len <? 7); by destruct o. }
  split; [by apply mem_is_take|]. split; [done|]. split; [destruct o; [done|cbn in *; lia]|]. by apply tokens_decompress.
Qed.

(** ** Theorems *)

(** C18: whatever the uninitialized table holds, [lzf_compress] stays within its buffers, and if
    it does not give up, [lzf_decompress] makes of its output the input again. *)
Theorem lzf_roundtrip htab inp out :
  (∀ j, 0 ≤ htab j < 2 ^ 32) → 2 ≤ Z.of_nat (length inp) < 2 ^ 32 →
  ∃ r, lzf_compress htab inp out = Ok r ∧
    ∀ n m, r = Some (n, m) → ∃ o, take (Z.to_nat n) m = Some <$> o ∧ Z.of_nat (length o) = n ∧ 0 < n ≤ Z.of_nat (length out) ∧
      lzf_decompress o (Z.of_nat (length inp)) = Ok (Some inp).
Proof. apply lzf_compress_ok. Qed.

(** On no input that is not empty does [lzf_decompress] read or write outside of its
    buffers. *)
Theorem lzf_decompress_safe inp out_len :
  inp ≠ [] → 0 ≤ out_len →
  ∃ r, lzf_decompress inp out_len = Ok r ∧ ∀ out, r = Some out → Z.of_nat (length out) ≤ out_len.
Proof.
  intros Hne Ho. apply decode_loop_in; [|done|lia]. destruct inp; [done|cbn; lia].
Qed.

Definition w_input : bytes := String.list_byte_of_string "abcabcabcabcabcabcabcabcabcabcxyzabcabcabc".
Lemma lzf_roundtrip_witness :
  ∃ o, length o = 17%nat ∧ lzf_decompress o 42 = Ok (Some w_input).
Proof.
  destruct (lzf_roundtrip (fun _ => 7) w_input (replicate 38 None)) as (r & E & Hr); [lia|vm_compute; split; congruence|].
  assert (∃ m, lzf_compress (fun _ => 7) w_input (replicate 38 None) = Ok (Some (17, m))) as [m Em] by (eexists; vm_compute; reflexivity).
  rewrite Em in E. injection E as <-. destruct (Hr 17 m eq_refl) as (o & _ & Hl & _ & Hd). exists o. split; [lia|exact Hd].
Defined.

Lemma lzf_decompress_safe_witness : ∃ r, lzf_decompress [xff; xff; xff] 1000 = Ok r.
Proof. destruct (lzf_decompress_safe [xff; xff; xff] 1000) as (r & E & _); [discriminate|lia|]. exists r. exact E. Defined.
