(* ===== verification/Rio.v ===== *)
(** * Streams and their checksum (src/src/rio.h, src/src/rio.c, src/src/crc64.c)

    A [rio] is a stream the RDB code reads from or writes to.  It keeps a checksum of what went
    through it, CRC-64 by a table.

    Of the backend there is what is left to read, what was written, and how much more the target
    takes: a buffer takes everything, a file or a socket may fail at any byte.

    Shown: the table computes the CRC of the polynomial that crc64.c names, bit by bit; two
    inputs that differ in one byte have different checksums; and reading or writing in chunks
    makes no difference. *)

From S2P Require Import Prelude.
From stdpp Require Import list.
#[local] Open Scope Z_scope.

(** ** CRC-64 *)

Definition crc64_tab : list Z := [
   0x0000000000000000; 0x7ad870c830358979; 0xf5b0e190606b12f2; 0x8f689158505e9b8b;
   0xc038e5739841b68f; 0xbae095bba8743ff6; 0x358804e3f82aa47d; 0x4f50742bc81f2d04;
   0xab28ecb46814fe75; 0xd1f09c7c5821770c; 0x5e980d24087fec87; 0x24407dec384a65fe;
   0x6b1009c7f05548fa; 0x11c8790fc060c183; 0x9ea0e857903e5a08; 0xe478989fa00bd371;
   0x7d08ff3b88be6f81; 0x07d08ff3b88be6f8; 0x88b81eabe8d57d73; 0xf2606e63d8e0f40a;
   0xbd301a4810ffd90e; 0xc7e86a8020ca5077; 0x4880fbd87094cbfc; 0x32588b1040a14285;
   0xd620138fe0aa91f4; 0xacf86347d09f188d; 0x2390f21f80c18306; 0x594882d7b0f40a7f;
   0x1618f6fc78eb277b; 0x6cc0863448deae02; 0xe3a8176c18803589; 0x997067a428b5bcf0;
   0xfa11fe77117cdf02; 0x80c98ebf2149567b; 0x0fa11fe77117cdf0; 0x75796f2f41224489;
   0x3a291b04893d698d; 0x40f16bccb908e0f4; 0xcf99fa94e9567b7f; 0xb5418a5cd963f206;
   0x513912c379682177; 0x2be1620b495da80e; 0xa489f35319033385; 0xde51839b2936bafc;
   0x9101f7b0e12997f8; 0xebd98778d11c1e81; 0x64b116208142850a; 0x1e6966e8b1770c73;
   0x8719014c99c2b083; 0xfdc17184a9f739fa; 0x72a9e0dcf9a9a271; 0x08719014c99c2b08;
   0x4721e43f0183060c; 0x3df994f731b68f75; 0xb29105af61e814fe; 0xc849756751dd9d87;
   0x2c31edf8f1d64ef6; 0x56e99d30c1e3c78f; 0xd9810c6891bd5c04; 0xa3597ca0a188d57d;
   0xec09088b6997f879; 0x96d1784359a27100; 0x19b9e91b09fcea8b; 0x636199d339c963f2;
   0xdf7adabd7a6e2d6f; 0xa5a2aa754a5ba416; 0x2aca3b2d1a053f9d; 0x50124be52a30b6e4;
   0x1f423fcee22f9be0; 0x659a4f06d21a1299; 0xeaf2de5e82448912; 0x902aae96b271006b;
   0x74523609127ad31a; 0x0e8a46c1224f5a63; 0x81e2d7997211c1e8; 0xfb3aa75142244891;
   0xb46ad37a8a3b6595; 0xceb2a3b2ba0eecec; 0x41da32eaea507767; 0x3b024222da65fe1e;
   0xa2722586f2d042ee; 0xd8aa554ec2e5cb97; 0x57c2c41692bb501c; 0x2d1ab4dea28ed965;
   0x624ac0f56a91f461; 0x1892b03d5aa47d18; 0x97fa21650afae693; 0xed2251ad3acf6fea;
   0x095ac9329ac4bc9b; 0x7382b9faaaf135e2; 0xfcea28a2faafae69; 0x8632586aca9a2710;
   0xc9622c4102850a14; 0xb3ba5c8932b0836d; 0x3cd2cdd162ee18e6; 0x460abd1952db919f;
   0x256b24ca6b12f26d; 0x5fb354025b277b14; 0xd0dbc55a0b79e09f; 0xaa03b5923b4c69e6;
   0xe553c1b9f35344e2; 0x9f8bb171c366cd9b; 0x10e3202993385610; 0x6a3b50e1a30ddf69;
   0x8e43c87e03060c18; 0xf49bb8b633338561; 0x7bf329ee636d1eea; 0x012b592653589793;
   0x4e7b2d0d9b47ba97; 0x34a35dc5ab7233ee; 0xbbcbcc9dfb2ca865; 0xc113bc55cb19211c;
   0x5863dbf1e3ac9dec; 0x22bbab39d3991495; 0xadd33a6183c78f1e; 0xd70b4aa9b3f20667;
   0x985b3e827bed2b63; 0xe2834e4a4bd8a21a; 0x6debdf121b863991; 0x1733afda2bb3b0e8;
   0xf34b37458bb86399; 0x8993478dbb8deae0; 0x06fbd6d5ebd3716b; 0x7c23a61ddbe6f812;
   0x3373d23613f9d516; 0x49aba2fe23cc5c6f; 0xc6c333a67392c7e4; 0xbc1b436e43a74e9d;
   0x95ac9329ac4bc9b5; 0xef74e3e19c7e40cc; 0x601c72b9cc20db47; 0x1ac40271fc15523e;
   0x5594765a340a7f3a; 0x2f4c0692043ff643; 0xa02497ca54616dc8; 0xdafce7026454e4b1;
   0x3e847f9dc45f37c0; 0x445c0f55f46abeb9; 0xcb349e0da4342532; 0xb1eceec59401ac4b;
   0xfebc9aee5c1e814f; 0x8464ea266c2b0836; 0x0b0c7b7e3c7593bd; 0x71d40bb60c401ac4;
   0xe8a46c1224f5a634; 0x927c1cda14c02f4d; 0x1d148d82449eb4c6; 0x67ccfd4a74ab3dbf;
   0x289c8961bcb410bb; 0x5244f9a98c8199c2; 0xdd2c68f1dcdf0249; 0xa7f41839ecea8b30;
   0x438c80a64ce15841; 0x3954f06e7cd4d138; 0xb63c61362c8a4ab3; 0xcce411fe1cbfc3ca;
   0x83b465d5d4a0eece; 0xf96c151de49567b7; 0x76048445b4cbfc3c; 0x0cdcf48d84fe7545;
   0x6fbd6d5ebd3716b7; 0x15651d968d029fce; 0x9a0d8ccedd5c0445; 0xe0d5fc06ed698d3c;
   0xaf85882d2576a038; 0xd55df8e515432941; 0x5a3569bd451db2ca; 0x20ed197575283bb3;
   0xc49581ead523e8c2; 0xbe4df122e51661bb; 0x3125607ab548fa30; 0x4bfd10b2857d7349;
   0x04ad64994d625e4d; 0x7e7514517d57d734; 0xf11d85092d094cbf; 0x8bc5f5c11d3cc5c6;
   0x12b5926535897936; 0x686de2ad05bcf04f; 0xe70573f555e26bc4; 0x9ddd033d65d7e2bd;
   0xd28d7716adc8cfb9; 0xa85507de9dfd46c0; 0x273d9686cda3dd4b; 0x5de5e64efd965432;
   0xb99d7ed15d9d8743; 0xc3450e196da80e3a; 0x4c2d9f413df695b1; 0x36f5ef890dc31cc8;
   0x79a59ba2c5dc31cc; 0x037deb6af5e9b8b5; 0x8c157a32a5b7233e; 0xf6cd0afa9582aa47;
   0x4ad64994d625e4da; 0x300e395ce6106da3; 0xbf66a804b64ef628; 0xc5bed8cc867b7f51;
   0x8aeeace74e645255; 0xf036dc2f7e51db2c; 0x7f5e4d772e0f40a7; 0x05863dbf1e3ac9de;
   0xe1fea520be311aaf; 0x9b26d5e88e0493d6; 0x144e44b0de5a085d; 0x6e963478ee6f8124;
   0x21c640532670ac20; 0x5b1e309b16452559; 0xd476a1c3461bbed2; 0xaeaed10b762e37ab;
   0x37deb6af5e9b8b5b; 0x4d06c6676eae0222; 0xc26e573f3ef099a9; 0xb8b627f70ec510d0;
   0xf7e653dcc6da3dd4; 0x8d3e2314f6efb4ad; 0x0256b24ca6b12f26; 0x788ec2849684a65f;
   0x9cf65a1b368f752e; 0xe62e2ad306bafc57; 0x6946bb8b56e467dc; 0x139ecb4366d1eea5;
   0x5ccebf68aecec3a1; 0x2616cfa09efb4ad8; 0xa97e5ef8cea5d153; 0xd3a62e30fe90582a;
   0xb0c7b7e3c7593bd8; 0xca1fc72bf76cb2a1; 0x45775673a732292a; 0x3faf26bb9707a053;
   0x70ff52905f188d57; 0x0a2722586f2d042e; 0x854fb3003f739fa5; 0xff97c3c80f4616dc;
   0x1bef5b57af4dc5ad; 0x61372b9f9f784cd4; 0xee5fbac7cf26d75f; 0x9487ca0fff135e26;
   0xdbd7be24370c7322; 0xa10fceec0739fa5b; 0x2e675fb4576761d0; 0x54bf2f7c6752e8a9;
   0xcdcf48d84fe75459; 0xb71738107fd2dd20; 0x387fa9482f8c46ab; 0x42a7d9801fb9cfd2;
   0x0df7adabd7a6e2d6; 0x772fdd63e7936baf; 0xf8474c3bb7cdf024; 0x829f3cf387f8795d;
   0x66e7a46c27f3aa2c; 0x1c3fd4a417c62355; 0x935745fc4798b8de; 0xe98f353477ad31a7;
   0xa6df411fbfb21ca3; 0xdc0731d78f8795da; 0x536fa08fdfd90e51; 0x29b7d047efec8728
  ].

Definition crc64_byte (crc : Z) (b : byte) : Z :=
  Z.lxor (nth (Z.to_nat (Z.lxor (crc mod 256) (Z_of_byte b))) crc64_tab 0) (Z.shiftr crc 8).
Definition crc64 (crc : Z) (s : bytes) : Z := foldl crc64_byte crc s.

(** ** Streams *)

Record rio := Rio {
  io_in : bytes;                (* what is left to read *)
  io_out : bytes;               (* what was written *)
  io_room : option nat;         (* how many more bytes the target takes, if there is a limit *)
  update_cksum : bool;          (* [rioGenericUpdateChecksum], or NULL *)
  cksum : Z;
  read_error : bool;            (* [RIO_FLAG_READ_ERROR] *)
  write_error : bool;           (* [RIO_FLAG_WRITE_ERROR] *)
  processed_bytes : Z;
  max_processing_chunk : Z
}.

Definition rioInitWithBuffer (s : bytes) : rio := Rio s [] None false 0 false false 0 0.

Definition rioGenericUpdateChecksum (buf : bytes) (r : rio) : rio :=
  Rio (io_in r) (io_out r) (io_room r) (update_cksum r) (crc64 (cksum r) buf) (read_error r) (write_error r)
      (processed_bytes r) (max_processing_chunk r).
Definition call_update_cksum (buf : bytes) (r : rio) : rio :=
  if update_cksum r then rioGenericUpdateChecksum buf r else r.

(** [r->write]: what does not fit is lost. *)
Definition backend_write (buf : bytes) (r : rio) : bool * rio :=
  let n := match io_room r with None => length buf | Some k => k `min` length buf end%nat in
  (bool_decide (n = length buf),
   Rio (io_in r) (io_out r ++ take n buf) (option_map (fun k => k - n)%nat (io_room r)) (update_cksum r) (cksum r)
       (read_error r) (write_error r) (processed_bytes r) (max_processing_chunk r)).
(** [r->read] *)
Definition backend_read (len : nat) (r : rio) : option bytes * rio :=
  if (length (io_in r) <? len)%nat then (None, r)
  else (Some (take len (io_in r)),
        Rio (drop len (io_in r)) (io_out r) (io_room r) (update_cksum r) (cksum r) (read_error r) (write_error r)
            (processed_bytes r) (max_processing_chunk r)).

Definition set_write_error (r : rio) : rio :=
  Rio (io_in r) (io_out r) (io_room r) (update_cksum r) (cksum r) (read_error r) true (processed_bytes r) (max_processing_chunk r).
Definition set_read_error (r : rio) : rio :=
  Rio (io_in r) (io_out r) (io_room r) (update_cksum r) (cksum r) true (write_error r) (processed_bytes r) (max_processing_chunk r).
Definition add_processed (n : Z) (r : rio) : rio :=
  Rio (io_in r) (io_out r) (io_room r) (update_cksum r) (cksum r) (read_error r) (write_error r) (processed_bytes r + n) (max_processing_chunk r).

Definition chunk_of (r : rio) (len : nat) : nat :=
  if negb (max_processing_chunk r =? 0) && (max_processing_chunk r <? Z.of_nat len) then Z.to_nat (max_processing_chunk r) else len.

(** A turn of [rioWrite]. *)
Definition write_chunk (buf : bytes) (r : rio) : bool * rio :=
  let '(ok, r) := backend_write buf (call_update_cksum buf r) in
  if ok then (true, add_processed (Z.of_nat (length buf)) r) else (false, set_write_error r).
Fixpoint write_loop (fuel : nat) (buf : bytes) (r : rio) : bool * rio :=
  match fuel with
  | O => (true, r)
  | S fuel' =>
      if (length buf =? 0)%nat then (true, r)
      else
        let '(ok, r') := write_chunk (take (chunk_of r (length buf)) buf) r in
        if ok then write_loop fuel' (drop (chunk_of r (length buf)) buf) r' else (false, r')
  end.
Definition rioWrite (buf : bytes) (r : rio) : bool * rio :=
  if write_error r then (false, r) else write_loop (length buf) buf r.

(** A turn of [rioRead]; [None] is the result 0. *)
Definition read_chunk (n : nat) (r : rio) : option bytes * rio :=
  let '(x, r) := backend_read n r in
  match x with
  | None => (None, set_read_error r)
  | Some buf => (Some buf, add_processed (Z.of_nat n) (call_update_cksum buf r))
  end.
Fixpoint read_loop (fuel len : nat) (r : rio) : option bytes * rio :=
  match fuel with
  | O => (Some [], r)
  | S fuel' =>
      if (len =? 0)%nat then (Some [], r)
      else
        let '(x, r') := read_chunk (chunk_of r len) r in
        match x with
        | None => (None, r')
        | Some buf => let '(y, r'') := read_loop fuel' (len - chunk_of r len) r' in (option_map (app buf) y, r'')
        end
  end.
Definition rioRead (len : nat) (r : rio) : option bytes * rio :=
  if read_error r then (None, r) else read_loop len len r.

Definition rioGetReadError (r : rio) : bool := read_error r.

(** ** Chunks make no difference *)

(** The stream after [buf] was written to it, or read from it with [rest] behind it. *)
Definition checked (buf : bytes) (r : rio) : Z := if update_cksum r then crc64 (cksum r) buf else cksum r.
Definition wrote (buf : bytes) (r : rio) : rio :=
  Rio (io_in r) (io_out r ++ buf) (option_map (fun k => k - length buf)%nat (io_room r)) (update_cksum r) (checked buf r)
      (read_error r) (write_error r) (processed_bytes r + Z.of_nat (length buf)) (max_processing_chunk r).
Definition consumed (buf rest : bytes) (r : rio) : rio :=
  Rio rest (io_out r) (io_room r) (update_cksum r) (checked buf r) (read_error r) (write_error r)
      (processed_bytes r + Z.of_nat (length buf)) (max_processing_chunk r).
(** There is room for [n] bytes. *)
Definition room (n : nat) (r : rio) : Prop := match io_room r with None => True | Some k => (n ≤ k)%nat end.
#[local] Instance room_dec n r : Decision (room n r).
Proof. unfold room. destruct (io_room r); apply _. Defined.
Definition rio_ok (r : rio) : Prop := 0 ≤ max_processing_chunk r.

Lemma crc64_app crc a b : crc64 crc (a ++ b) = crc64 (crc64 crc a) b.
Proof. apply foldl_app. Qed.

Lemma wrote_app a b r : wrote b (wrote a r) = wrote (a ++ b) r.
Proof.
  unfold wrote, checked. cbn. rewrite <- app_assoc, length_app, crc64_app. f_equal; [|by case_match|lia].
  destruct (io_room r); cbn; [f_equal; lia|done].
Qed.
Lemma wrote_nil r : wrote [] r = r.
Proof.
  destruct r as [? ? [k|] u ? ? ? ? ?]; unfold wrote, checked; cbn; rewrite app_nil_r, Z.add_0_r, ?Nat.sub_0_r; by destruct u.
Qed.
Lemma consumed_app a b rest r : consumed b rest (consumed a (b ++ rest) r) = consumed (a ++ b) rest r.
Proof.
  unfold consumed, checked. cbn. rewrite length_app, crc64_app. f_equal; [by case_match|lia].
Qed.
Lemma consumed_nil r : consumed [] (io_in r) r = r.
Proof. destruct r as [? ? ? u ? ? ? ? ?]; unfold consumed, checked; cbn. rewrite Z.add_0_r. by destruct u. Qed.

Lemma chunk_range r len : rio_ok r → (0 < len)%nat → (0 < chunk_of r len ≤ len)%nat.
Proof.
  unfold chunk_of, rio_ok. intros. destruct (Z.eqb_spec (max_processing_chunk r) 0); cbn; [lia|].
  destruct (Z.ltb_spec (max_processing_chunk r) (Z.of_nat len)); lia.
Qed.

Lemma write_chunk_ok buf r : room (length buf) r → write_chunk buf r = (true, wrote buf r).
Proof.
  destruct r as [i o k u c re we p m]. unfold write_chunk, backend_write, call_update_cksum, room, wrote, checked. cbn.
  intros Hk. destruct u, k as [k|]; cbn in *; (rewrite bool_decide_true by lia); cbn; rewrite take_ge by lia; rewrite ?Nat.min_r by lia; done.
Qed.
Lemma write_loop_ok : ∀ fuel buf r, (length buf ≤ fuel)%nat → rio_ok r → room (length buf) r → write_loop fuel buf r = (true, wrote buf r).
Proof.
  induction fuel as [|fuel IH]; intros buf r Hf Hr Hk; cbn [write_loop].
  { destruct buf; [|cbn in Hf; lia]. by rewrite wrote_nil. }
  destruct (Nat.eqb_spec (length buf) 0) as [E|E]; [by rewrite (nil_length_inv _ E), wrote_nil|].
  pose proof (chunk_range r (length buf) Hr ltac:(lia)) as Hn. set (n := chunk_of r (length buf)) in *.
  assert (length (take n buf) = n) as Ln by (rewrite length_take; lia).
  rewrite write_chunk_ok by (unfold room in *; case_match; lia). rewrite IH; [by rewrite wrote_app, take_drop|rewrite length_drop; lia|done|].
  unfold room in *. cbn. rewrite Ln, length_drop. destruct (io_room r); cbn; [lia|done].
Qed.
Lemma rioWrite_ok buf r : write_error r = false → rio_ok r → room (length buf) r → rioWrite buf r = (true, wrote buf r).
Proof. intros E ? ?. unfold rioWrite. rewrite E. by apply write_loop_ok. Qed.

(** A write that does not fit fails, and so do all that come after it. *)
Lemma write_chunk_full buf r : ¬ room (length buf) r → ∃ r', write_chunk buf r = (false, r') ∧ write_error r' = true.
Proof.
  destruct r as [i o k u c re we p m]. unfold write_chunk, backend_write, call_update_cksum, room. cbn.
  intros Hk. destruct u, k as [k|]; cbn in *; try tauto; (rewrite bool_decide_false by lia); by eexists.
Qed.
Lemma write_loop_full : ∀ fuel buf r, (length buf ≤ fuel)%nat → rio_ok r → ¬ room (length buf) r →
  ∃ r', write_loop fuel buf r = (false, r') ∧ write_error r' = true.
Proof.
  induction fuel as [|fuel IH]; intros buf r Hf Hr Hk; cbn [write_loop].
  { destruct Hk. unfold room. destruct (io_room r); [lia|done]. }
  destruct (Nat.eqb_spec (length buf) 0) as [E|E]. { destruct Hk. unfold room. rewrite E. destruct (io_room r); [lia|done]. }
  pose proof (chunk_range r (length buf) Hr ltac:(lia)) as Hn. set (n := chunk_of r (length buf)) in *.
  assert (length (take n buf) = n) as Ln by (rewrite length_take; lia).
  destruct (decide (room n r)) as [Hk'|Hk'].
  - rewrite write_chunk_ok by (by rewrite Ln). apply IH; [rewrite length_drop; lia|done|]. unfold room in *. cbn. rewrite Ln, length_drop.
    destruct (io_room r); cbn in *; [lia|tauto].
  - destruct (write_chunk_full (take n buf) r) as (r' & -> & Hw); [by rewrite Ln|]. by exists r'.
Qed.
Lemma rioWrite_full buf r : rio_ok r → write_error r = true ∨ ¬ room (length buf) r →
  ∃ r', rioWrite buf r = (false, r') ∧ write_error r' = true.
Proof.
  unfold rioWrite. intros Hr H. destruct (write_error r) eqn:E; [by exists r|]. destruct H; [done|]. by apply write_loop_full.
Qed.

Lemma read_chunk_ok buf rest r : io_in r = buf ++ rest → read_chunk (length buf) r = (Some buf, consumed buf rest r).
Proof.
  destruct r as [i o k u c re we p m]. cbn [io_in]. intros ->. unfold read_chunk, backend_read. cbn [io_in]. rewrite length_app.
  destruct (Nat.ltb_spec (length buf + length rest) (length buf)); [lia|]. rewrite take_app_length, drop_app_length.
  unfold call_update_cksum, consumed, checked. by destruct u.
Qed.
Lemma read_loop_ok : ∀ fuel buf rest r, (length buf ≤ fuel)%nat → rio_ok r → io_in r = buf ++ rest →
  read_loop fuel (length buf) r = (Some buf, consumed buf rest r).
Proof.
  induction fuel as [|fuel IH]; intros buf rest r Hf Hr Hi; cbn [read_loop].
  { destruct buf; [|cbn in Hf; lia]. cbn in Hi. by rewrite <- Hi, consumed_nil. }
  destruct (Nat.eqb_spec (length buf) 0) as [E|E]. { rewrite (nil_length_inv _ E) in *. cbn in Hi. by rewrite <- Hi, consumed_nil. }
  pose proof (chunk_range r (length buf) Hr ltac:(lia)) as Hn. set (n := chunk_of r (length buf)) in *.
  assert (length (take n buf) = n) as Ln by (rewrite length_take; lia).
  pose proof (read_chunk_ok (take n buf) (drop n buf ++ rest) r) as E1. rewrite Ln in E1.
  rewrite E1 by (by rewrite app_assoc, take_drop). replace (length buf - n)%nat with (length (drop n buf)) by (rewrite length_drop; lia).
  rewrite (IH (drop n buf) rest); [|rewrite length_drop; lia|done|done]. cbn [option_map]. by rewrite consumed_app, take_drop.
Qed.
Lemma rioRead_ok buf rest r : read_error r = false → rio_ok r → io_in r = buf ++ rest →
  rioRead (length buf) r = (Some buf, consumed buf rest r).
Proof. intros E ? ?. unfold rioRead. rewrite E. by apply read_loop_ok. Qed.

(** A read past the end fails, and so do all that come after it. *)
Lemma read_loop_short : ∀ fuel len r, (len ≤ fuel)%nat → rio_ok r → (length (io_in r) < len)%nat →
  ∃ r', read_loop fuel len r = (None, r') ∧ read_error r' = true.
Proof.
  induction fuel as [|fuel IH]; intros len r Hf Hr Hi; cbn [read_loop]; [lia|].
  destruct (Nat.eqb_spec len 0) as [E|E]; [lia|]. pose proof (chunk_range r len Hr ltac:(lia)) as Hn. set (n := chunk_of r len) in *.
  destruct (le_lt_dec n (length (io_in r))) as [Hl|Hl].
  - pose proof (read_chunk_ok (take n (io_in r)) (drop n (io_in r)) r) as E1. rewrite length_take, Nat.min_l in E1 by lia.
    rewrite E1 by (by rewrite take_drop). destruct (IH (len - n)%nat (consumed (take n (io_in r)) (drop n (io_in r)) r)) as (r' & E2 & Hw); [lia|done|cbn; rewrite length_drop; lia|].
    rewrite E2. by exists r'.
  - unfold read_chunk, backend_read. destruct (Nat.ltb_spec (length (io_in r)) n); [|lia]. by eexists.
Qed.
Lemma rioRead_short len r : rio_ok r → (length (io_in r) < len)%nat → ∃ r', rioRead len r = (None, r') ∧ read_error r' = true.
Proof. unfold rioRead. intros. destruct (read_error r) eqn:E; [by exists r|]. by apply read_loop_short. Qed.

(** ** The table and the polynomial *)

(** Poly: 0xad93d23594c935a9, reflected. *)
Definition crc_poly : Z := 0x95ac9329ac4bc9b5.
Definition crc_bit (crc : Z) : Z := if Z.testbit crc 0 then Z.lxor (Z.shiftr crc 1) crc_poly else Z.shiftr crc 1.
Fixpoint crc_bits (k : nat) (crc : Z) : Z := match k with O => crc | S k' => crc_bit (crc_bits k' crc) end.
(** The checksum, bit by bit. *)
Definition crc64_spec (crc : Z) (s : bytes) : Z := foldl (fun c b => crc_bits 8 (Z.lxor c (Z_of_byte b))) crc s.

Lemma crc_bit_lxor a b : crc_bit (Z.lxor a b) = Z.lxor (crc_bit a) (crc_bit b).
Proof.
  unfold crc_bit. rewrite Z.lxor_spec, Z.shiftr_lxor.
  destruct (Z.testbit a 0), (Z.testbit b 0); cbn [xorb]; apply Z.bits_inj'; intros n _; rewrite !Z.lxor_spec; by repeat destruct (Z.testbit _ _).
Qed.
Lemma crc_bits_lxor k a b : crc_bits k (Z.lxor a b) = Z.lxor (crc_bits k a) (crc_bits k b).
Proof. induction k as [|k IH]; [done|]. cbn [crc_bits]. by rewrite IH, crc_bit_lxor. Qed.
Lemma crc_bits_shifted k a : 0 ≤ a → crc_bits k (Z.shiftl a (Z.of_nat k)) = a.
Proof.
  intros Ha. enough (∀ j, (j ≤ k)%nat → crc_bits j (Z.shiftl a (Z.of_nat k)) = Z.shiftl a (Z.of_nat (k - j))) as ->; [|lia|]. { by rewrite Nat.sub_diag, Z.shiftl_0_r. }
  induction j as [|j IH]; intros Hj; [by rewrite Nat.sub_0_r|]. cbn [crc_bits]. rewrite IH by lia. unfold crc_bit.
  rewrite Z.shiftl_spec_low by lia. rewrite Z.shiftr_shiftl_l by lia. f_equal. lia.
Qed.

Lemma tab_spec i : 0 ≤ i < 256 → nth (Z.to_nat i) crc64_tab 0 = crc_bits 8 i.
Proof.
  intros Hi. assert (forallb (fun i => nth i crc64_tab 0 =? crc_bits 8 (Z.of_nat i)) (seq 0 256) = true) as H by (vm_compute; reflexivity).
  rewrite forallb_forall in H. specialize (H (Z.to_nat i) ltac:(apply in_seq; lia)). apply Z.eqb_eq in H. by rewrite Z2Nat.id in H by lia.
Qed.

Lemma lxor_small (n a b : Z) : 0 ≤ n → 0 ≤ a < 2 ^ n → 0 ≤ b < 2 ^ n → 0 ≤ Z.lxor a b < 2 ^ n.
Proof.
  intros Hn Ha Hb. assert (0 ≤ Z.lxor a b) by (apply Z.lxor_nonneg; lia). split; [done|].
  destruct (Z.eq_dec (Z.lxor a b) 0) as [->|]; [lia|]. apply Z.log2_lt_pow2; [lia|].
  destruct (Z.eq_dec a 0) as [->|Na]; [rewrite Z.lxor_0_l in *; apply Z.log2_lt_pow2; lia|].
  destruct (Z.eq_dec b 0) as [->|Nb]; [rewrite Z.lxor_0_r in *; apply Z.log2_lt_pow2; lia|].
  eapply Z.le_lt_trans; [apply Z.log2_lxor; lia|]. apply Z.max_lub_lt; apply Z.log2_lt_pow2; lia.
Qed.
Lemma split_byte c : 0 ≤ c → c = Z.lxor (Z.shiftl (Z.shiftr c 8) 8) (c mod 256).
Proof.
  intros Hc. apply Z.bits_inj'. intros n Hn. rewrite Z.lxor_spec. change 256 with (2 ^ 8).
  destruct (Z.lt_ge_cases n 8).
  - by rewrite Z.shiftl_spec_low, Z.mod_pow2_bits_low, xorb_false_l by lia.
  - rewrite Z.shiftl_spec, Z.shiftr_spec, Z.mod_pow2_bits_high, xorb_false_r by lia. f_equal. lia.
Qed.
Lemma index_range c b : 0 ≤ Z.lxor (c mod 256) (Z_of_byte b) < 256.
Proof. apply (lxor_small 8); [lia|apply Z.mod_pos_bound; lia|apply Z_of_byte_range]. Qed.

Lemma crc64_byte_spec c b : 0 ≤ c → crc64_byte c b = crc_bits 8 (Z.lxor c (Z_of_byte b)).
Proof.
  intros Hc. unfold crc64_byte. rewrite tab_spec by apply index_range.
  rewrite (split_byte c Hc) at 3. rewrite Z.lxor_assoc, (crc_bits_lxor 8 (Z.shiftl _ _)).
  change 8 with (Z.of_nat 8) at 3. rewrite crc_bits_shifted by (by apply Z.shiftr_nonneg). by rewrite Z.lxor_comm.
Qed.
Lemma crc64_byte_range c b : 0 ≤ c < 2 ^ 64 → 0 ≤ crc64_byte c b < 2 ^ 64.
Proof.
  intros Hc. unfold crc64_byte. apply lxor_small; [lia| |].
  - pose proof (index_range c b) as Hi. set (i := Z.lxor _ _) in *.
    assert (forallb (fun i => (0 <=? nth i crc64_tab 0) && (nth i crc64_tab 0 <? 2 ^ 64)) (seq 0 256) = true) as H by (vm_compute; reflexivity).
    rewrite forallb_forall in H. specialize (H (Z.to_nat i) ltac:(apply in_seq; lia)). lia.
  - rewrite Z.shiftr_div_pow2 by lia. split; [apply Z.div_pos; lia|]. apply Z.div_lt_upper_bound; lia.
Qed.
Lemma crc64_range s : ∀ c, 0 ≤ c < 2 ^ 64 → 0 ≤ crc64 c s < 2 ^ 64.
Proof. induction s as [|b s IH]; intros c Hc; [done|]. apply IH. by apply crc64_byte_range. Qed.

(** The high byte of an entry of the table determines the entry, and so a step can be undone. *)
Lemma tab_high i j : 0 ≤ i < 256 → 0 ≤ j < 256 →
  Z.shiftr (nth (Z.to_nat i) crc64_tab 0) 56 = Z.shiftr (nth (Z.to_nat j) crc64_tab 0) 56 → i = j.
Proof.
  intros Hi Hj E.
  assert (forallb (fun i => forallb (fun j => negb (Z.shiftr (nth i crc64_tab 0) 56 =? Z.shiftr (nth j crc64_tab 0) 56) || (i =? j)%nat) (seq 0 256)) (seq 0 256) = true) as H
    by (vm_compute; reflexivity).
  rewrite forallb_forall in H. specialize (H (Z.to_nat i) ltac:(apply in_seq; lia)). rewrite forallb_forall in H.
  specialize (H (Z.to_nat j) ltac:(apply in_seq; lia)). rewrite E, Z.eqb_refl in H. cbn in H. apply Nat.eqb_eq in H. lia.
Qed.
Lemma lxor_cancel a b c : Z.lxor a b = Z.lxor a c → b = c.
Proof. intros E. apply (f_equal (Z.lxor a)) in E. by rewrite <- !Z.lxor_assoc, Z.lxor_nilpotent, !Z.lxor_0_l in E. Qed.
Lemma crc64_byte_inv c c' b b' : 0 ≤ c < 2 ^ 64 → 0 ≤ c' < 2 ^ 64 → crc64_byte c b = crc64_byte c' b' →
  Z.lxor (c mod 256) (Z_of_byte b) = Z.lxor (c' mod 256) (Z_of_byte b') ∧ Z.shiftr c 8 = Z.shiftr c' 8.
Proof.
  intros Hc Hc' E. unfold crc64_byte in E. pose proof (index_range c b) as Hi. pose proof (index_range c' b') as Hj.
  assert (∀ x, 0 ≤ x < 2 ^ 64 → Z.shiftr (Z.shiftr x 8) 56 = 0) as Hs.
  { intros x Hx. rewrite Z.shiftr_shiftr, Z.shiftr_div_pow2 by lia. apply Z.div_small. lia. }
  assert (Z.lxor (c mod 256) (Z_of_byte b) = Z.lxor (c' mod 256) (Z_of_byte b')) as Ei.
  { apply tab_high; [done|done|]. apply (f_equal (fun x => Z.shiftr x 56)) in E. by rewrite !Z.shiftr_lxor, !Hs, !Z.lxor_0_r in E. }
  split; [done|]. rewrite Ei in E. by apply lxor_cancel in E.
Qed.
Lemma crc64_inj s : ∀ c c', 0 ≤ c < 2 ^ 64 → 0 ≤ c' < 2 ^ 64 → crc64 c s = crc64 c' s → c = c'.
Proof.
  induction s as [|b s IH]; intros c c' Hc Hc' E; [done|]. cbn in E. apply IH in E; [|by apply crc64_byte_range..].
  apply crc64_byte_inv in E as [Ei Es]; [|done..]. rewrite !(Z.lxor_comm _ (Z_of_byte b)) in Ei. apply lxor_cancel in Ei.
  rewrite (split_byte c), (split_byte c') by lia. by rewrite Es, Ei.
Qed.

(** ** Theorems *)

(** [crc64] is the CRC of the polynomial that crc64.c names, bit by bit; inputs that differ in
    one byte have different checksums; and the check value of crc64.c is right. *)
Theorem crc64_correct :
  (∀ c s, 0 ≤ c < 2 ^ 64 → crc64 c s = crc64_spec c s ∧ 0 ≤ crc64 c s < 2 ^ 64) ∧
  (∀ p a b s, a ≠ b → crc64 0 (p ++ a :: s) ≠ crc64 0 (p ++ b :: s)) ∧
  crc64 0 (String.list_byte_of_string "123456789") = 0xe9c6d914c4b8d9ca.
Proof.
  split_and!; [..|vm_compute; reflexivity].
  - intros c s Hc. split; [|by apply crc64_range]. revert c Hc. induction s as [|b s IH]; intros c Hc; [done|].
    cbn [crc64 crc64_spec foldl]. unfold crc64, crc64_spec in *. cbn [foldl]. rewrite crc64_byte_spec by lia. apply IH. rewrite <- crc64_byte_spec by lia. by apply crc64_byte_range.
  - intros p a b s Hne E. rewrite !crc64_app in E. pose proof (crc64_range p 0 ltac:(lia)) as Hp. set (c := crc64 0 p) in *.
    change (crc64 (crc64_byte c a) s = crc64 (crc64_byte c b) s) in E. apply crc64_inj in E; [|by apply crc64_byte_range..].
    apply crc64_byte_inv in E as [Ei _]; [|done..]. apply lxor_cancel in Ei. by apply (inj Z_of_byte) in Ei.
Qed.
