(* ===== verification/Ziplist.v ===== *)
(** * Ziplists (src/src/ziplist.c)

    A ziplist is one block of memory: a header with the number of bytes, the offset of the
    last entry and the number of entries, the entries, and the byte 255.  An entry begins
    with the length of the entry before it, in one byte when that is less than 254 and in five
    bytes otherwise (or when five were there already), then an encoding, then a string or an
    integer.  When an entry changes its size, the entry after it may have to grow too,
    and so on (__ziplistCascadeUpdate).

    Pointers into the block are offsets.  Lengths are those of the code: unsigned int for
    what is in the block, size_t and int where the code has these.

    This file has the functions and what they do on a single entry; ZiplistOps has the
    theorems on whole lists. *)

From S2P Require Import Prelude Util Mem.
From stdpp Require Import list.
#[local] Open Scope Z_scope.

Definition ZIP_END : Z := 255.
Definition ZIP_BIG_PREVLEN : Z := 254.
Definition ZIP_STR_MASK : Z := 192.
Definition ZIP_STR_06B : Z := Z.shiftl 0 6.
Definition ZIP_STR_14B : Z := Z.shiftl 1 6.
Definition ZIP_STR_32B : Z := Z.shiftl 2 6.
Definition ZIP_INT_IMM_MASK : Z := 15.
Definition ZIP_INT_IMM_MAX : Z := 253.
Definition ZIPLIST_HEADER_SIZE : Z := 10.
Definition ZIPLIST_END_SIZE : Z := 1.
Definition UINT16_MAX : Z := 65535.

Definition ZIP_IS_STR (enc : Z) : bool := Z.land enc ZIP_STR_MASK <? ZIP_STR_MASK.

(** ** The header *)

Definition ZIPLIST_BYTES (m : mem) : res Z := le_combine <$> rd_n m 0 4.
Definition ZIPLIST_TAIL_OFFSET (m : mem) : res Z := le_combine <$> rd_n m 4 4.
Definition ZIPLIST_LENGTH (m : mem) : res Z := le_combine <$> rd_n m 8 2.
Definition set_bytes (v : Z) (m : mem) : res mem := wr m 0 (le_split 4 v).
Definition set_tail (v : Z) (m : mem) : res mem := wr m 4 (le_split 4 v).
Definition set_length (v : Z) (m : mem) : res mem := wr m 8 (le_split 2 v).
Definition ZIPLIST_ENTRY_HEAD : Z := ZIPLIST_HEADER_SIZE.
Definition ZIPLIST_ENTRY_TAIL (m : mem) : res Z := ZIPLIST_TAIL_OFFSET m.
Definition ZIPLIST_ENTRY_END (m : mem) : res Z := b ← ZIPLIST_BYTES m; mret (b - 1).
Definition ZIPLIST_INCR_LENGTH (incr : Z) (m : mem) : res mem :=
  n ← ZIPLIST_LENGTH m;
  if n <? UINT16_MAX then set_length (n + incr) m else mret m.
Definition at_end (m : mem) (p : Z) : res bool := c ← rd m p; mret (c =? ZIP_END).

(** ** Entries *)

Record zlentry := Zlentry {
  prevrawlensize : Z; prevrawlen : Z; lensize : Z; len : Z; headersize : Z; encoding : Z; e_p : Z }.

Definition ZIP_ENTRY_ENCODING (m : mem) (p : Z) : res Z :=
  c ← rd m p; mret (if c <? ZIP_STR_MASK then Z.land c ZIP_STR_MASK else c).

Definition zipIntSize (enc : Z) : res Z :=
  if enc =? ZIP_INT_8B then mret 1
  else if enc =? ZIP_INT_16B then mret 2
  else if enc =? ZIP_INT_24B then mret 3
  else if enc =? ZIP_INT_32B then mret 4
  else if enc =? ZIP_INT_64B then mret 8
  else if (ZIP_INT_IMM_MIN <=? enc) && (enc <=? ZIP_INT_IMM_MAX) then mret 0
  else Abort "Invalid integer encoding".

(** The bytes that [zipStoreEntryEncoding] stores; with [p] NULL it returns their number. *)
Definition zipStoreEntryEncoding (enc rawlen : Z) : bytes :=
  if ZIP_IS_STR enc then
    if rawlen <=? 63 then [byte_of_Z (Z.lor ZIP_STR_06B rawlen)]
    else if rawlen <=? 16383 then
      [byte_of_Z (Z.lor ZIP_STR_14B (Z.land (Z.shiftr rawlen 8) 63)); byte_of_Z (Z.land rawlen 255)]
    else
      [byte_of_Z ZIP_STR_32B; byte_of_Z (Z.land (Z.shiftr rawlen 24) 255); byte_of_Z (Z.land (Z.shiftr rawlen 16) 255);
       byte_of_Z (Z.land (Z.shiftr rawlen 8) 255); byte_of_Z (Z.land rawlen 255)]
  else [byte_of_Z enc].

(** The encoding, [lensize] and [len]. *)
Definition ZIP_DECODE_LENGTH (m : mem) (p : Z) : res (Z * Z * Z) :=
  enc ← ZIP_ENTRY_ENCODING m p;
  if enc <? ZIP_STR_MASK then
    if enc =? ZIP_STR_06B then c0 ← rd m p; mret (enc, 1, Z.land c0 63)
    else if enc =? ZIP_STR_14B then
      c0 ← rd m p; c1 ← rd m (p + 1); mret (enc, 2, Z.lor (Z.shiftl (Z.land c0 63) 8) c1)
    else if enc =? ZIP_STR_32B then
      c1 ← rd m (p + 1); c2 ← rd m (p + 2); c3 ← rd m (p + 3); c4 ← rd m (p + 4);
      mret (enc, 5, Z.lor (Z.lor (Z.lor (Z.shiftl c1 24) (Z.shiftl c2 16)) (Z.shiftl c3 8)) c4)
    else Abort "Invalid string encoding"
  else n ← zipIntSize enc; mret (enc, 1, n).

(** The bytes that are stored; with [p] NULL [zipStorePrevEntryLength] returns their number. *)
Definition zipStorePrevEntryLengthLarge (l : Z) : bytes := byte_of_Z ZIP_BIG_PREVLEN :: le_split 4 l.
Definition zipStorePrevEntryLength (l : Z) : bytes :=
  if u32 l <? ZIP_BIG_PREVLEN then [byte_of_Z l] else zipStorePrevEntryLengthLarge l.
Definition prev_size (l : Z) : Z := Z.of_nat (length (zipStorePrevEntryLength l)).

Definition ZIP_DECODE_PREVLENSIZE (m : mem) (p : Z) : res Z :=
  c ← rd m p; mret (if c <? ZIP_BIG_PREVLEN then 1 else 5).
(** [prevlensize] and [prevlen]. *)
Definition ZIP_DECODE_PREVLEN (m : mem) (p : Z) : res (Z * Z) :=
  sz ← ZIP_DECODE_PREVLENSIZE m p;
  if sz =? 1 then c ← rd m p; mret (sz, c) else bs ← rd_n m (p + 1) 4; mret (sz, le_combine bs).

Definition zipPrevLenByteDiff (m : mem) (p l : Z) : res Z :=
  sz ← ZIP_DECODE_PREVLENSIZE m p; mret (prev_size l - sz).

Definition zipRawEntryLength (m : mem) (p : Z) : res Z :=
  psz ← ZIP_DECODE_PREVLENSIZE m p;
  '(_, lsz, l) ← ZIP_DECODE_LENGTH m (p + psz);
  mret (u32 (psz + lsz + l)).

(** The bytes that [zipSaveInteger] stores. *)
Definition zipSaveInteger (value enc : Z) : res bytes :=
  if enc =? ZIP_INT_8B then mret (le_split 1 value)
  else if enc =? ZIP_INT_16B then mret (le_split 2 value)
  else if enc =? ZIP_INT_24B then mret (drop 1 (le_split 4 (Z.shiftl value 8)))
  else if enc =? ZIP_INT_32B then mret (le_split 4 value)
  else if enc =? ZIP_INT_64B then mret (le_split 8 value)
  else if (ZIP_INT_IMM_MIN <=? enc) && (enc <=? ZIP_INT_IMM_MAX) then mret []
  else Abort "assert(NULL)".

Definition zipLoadInteger (m : mem) (p enc : Z) : res Z :=
  if enc =? ZIP_INT_8B then bs ← rd_n m p 1; mret (to_signed 8 (le_combine bs))
  else if enc =? ZIP_INT_16B then bs ← rd_n m p 2; mret (to_signed 16 (le_combine bs))
  else if enc =? ZIP_INT_32B then bs ← rd_n m p 4; mret (to_signed 32 (le_combine bs))
  else if enc =? ZIP_INT_24B then bs ← rd_n m p 3; mret (Z.shiftr (to_signed 32 (le_combine (x00 :: bs))) 8)
  else if enc =? ZIP_INT_64B then bs ← rd_n m p 8; mret (to_signed 64 (le_combine bs))
  else if (ZIP_INT_IMM_MIN <=? enc) && (enc <=? ZIP_INT_IMM_MAX) then mret (Z.land enc ZIP_INT_IMM_MASK - 1)
  else Abort "assert(NULL)".

Definition zipEntry (m : mem) (p : Z) : res zlentry :=
  '(psz, prev) ← ZIP_DECODE_PREVLEN m p;
  '(enc, lsz, l) ← ZIP_DECODE_LENGTH m (p + psz);
  mret (Zlentry psz prev lsz l (psz + lsz) enc p).

(** ** Changing a ziplist *)

Definition ziplistNew : res mem :=
  let bytes := ZIPLIST_HEADER_SIZE + ZIPLIST_END_SIZE in
  m ← set_bytes bytes (zrealloc [] bytes);
  m ← set_tail ZIPLIST_HEADER_SIZE m;
  m ← set_length 0 m;
  wr m (bytes - 1) [byte_of_Z ZIP_END].

Definition ziplistResize (m : mem) (l : Z) : res mem :=
  let l := u32 l in
  m ← set_bytes l (zrealloc m l);
  wr m (l - 1) [byte_of_Z ZIP_END].

(** The next entry, at [np], gets a larger prevlen field. *)
Definition grow_next (m : mem) (curlen np rawlen rawlensize psz : Z) : res mem :=
  let extra := rawlensize - psz in
  m ← ziplistResize m (curlen + extra);
  t ← ZIPLIST_TAIL_OFFSET m;
  m ← (if t =? np then mret m else set_tail (t + extra) m);
  m ← memmove m (np + rawlensize) (np + psz) (curlen - np - psz - 1);
  wr m np (zipStorePrevEntryLength rawlen).
(** The loop of [__ziplistCascadeUpdate]; every turn moves [p] on. *)
Fixpoint cascade (fuel : nat) (m : mem) (curlen p : Z) : res mem :=
  match fuel with
  | O => Abort "fuel"
  | S fuel' =>
      done ← at_end m p;
      if done : bool then mret m else
      cur ← zipEntry m p;
      let rawlen := u32 (headersize cur + len cur) in
      let rawlensize := prev_size rawlen in
      done ← at_end m (p + rawlen);
      if done : bool then mret m else
      next ← zipEntry m (p + rawlen);
      if prevrawlen next =? rawlen then mret m else
      if prevrawlensize next <? rawlensize then
        m ← grow_next m curlen (p + rawlen) rawlen rawlensize (prevrawlensize next);
        cascade fuel' m (curlen + (rawlensize - prevrawlensize next)) (p + rawlen)
      else if rawlensize <? prevrawlensize next then wr m (p + rawlen) (zipStorePrevEntryLengthLarge rawlen)
      else wr m (p + rawlen) (zipStorePrevEntryLength rawlen)
  end.
Definition __ziplistCascadeUpdate (m : mem) (p : Z) : res mem :=
  curlen ← ZIPLIST_BYTES m; cascade (length m) m curlen p.

(** [for (i = 0; p[0] != ZIP_END && i < num; i++)]: the new [p] and [deleted]. *)
Fixpoint delete_walk (fuel : nat) (m : mem) (p i num : Z) : res (Z * Z) :=
  match fuel with
  | O => Abort "fuel"
  | S fuel' =>
      done ← at_end m p;
      if done : bool then mret (p, i)
      else if i <? num then l ← zipRawEntryLength m p; delete_walk fuel' m (p + l) (i + 1) num
      else mret (p, i)
  end.

(** The entries from [p] on move to [q], and the first of them gets the prevlen [prev]. *)
Definition delete_move (m : mem) (q prev p totlen : Z) : res (mem * Z) :=
  nextdiff ← zipPrevLenByteDiff m p prev;
  let p := p - nextdiff in
  m ← wr m p (zipStorePrevEntryLength prev);
  t ← ZIPLIST_TAIL_OFFSET m;
  m ← set_tail (t - totlen) m;
  m ← (tail ← zipEntry m p;
       last ← at_end m (p + headersize tail + len tail);
       if last : bool then mret m else t ← ZIPLIST_TAIL_OFFSET m; set_tail (t + nextdiff) m);
  b ← ZIPLIST_BYTES m;
  m ← memmove m q p (b - p - 1);
  mret (m, nextdiff).
Definition __ziplistDelete (m : mem) (p num : Z) : res mem :=
  first ← zipEntry m p;
  '(p, deleted) ← delete_walk (length m) m p 0 num;
  let totlen := u32 (p - e_p first) in
  if 0 <? totlen then
    done ← at_end m p;
    '(m, nextdiff) ←
      (if negb done then delete_move m (e_p first) (prevrawlen first) p totlen
       else m ← set_tail (e_p first - prevrawlen first) m; mret (m, 0));
    b ← ZIPLIST_BYTES m;
    m ← ziplistResize m (b - totlen + nextdiff);
    m ← ZIPLIST_INCR_LENGTH (- deleted) m;
    if nextdiff =? 0 then mret m else __ziplistCascadeUpdate m (e_p first)
  else mret m.

(** The prevlen of an entry that is inserted at [p]. *)
Definition insert_prevlen (m : mem) (p : Z) : res Z :=
  done ← at_end m p;
  if negb done then '(_, prevlen) ← ZIP_DECODE_PREVLEN m p; mret prevlen
  else
    ptail ← ZIPLIST_ENTRY_TAIL m;
    empty ← at_end m ptail;
    if empty : bool then mret 0 else zipRawEntryLength m ptail.

(** The entries from [p] on move back, and the first of them gets the new prevlen. *)
Definition insert_move (m : mem) (curlen p reqlen nextdiff : Z) (forcelarge : bool) : res mem :=
  m ← memmove m (p + reqlen) (p - nextdiff) (curlen - p - 1 + nextdiff);
  m ← wr m (p + reqlen) (if forcelarge then zipStorePrevEntryLengthLarge reqlen else zipStorePrevEntryLength reqlen);
  t ← ZIPLIST_TAIL_OFFSET m;
  m ← set_tail (t + reqlen) m;
  tail ← zipEntry m (p + reqlen);
  last ← at_end m (p + reqlen + headersize tail + len tail);
  if last : bool then mret m else t ← ZIPLIST_TAIL_OFFSET m; set_tail (t + nextdiff) m.
(** Room for [reqlen] bytes at [p]. *)
Definition insert_room (m : mem) (curlen p reqlen nextdiff : Z) (forcelarge : bool) : res mem :=
  m ← ziplistResize m (curlen + reqlen + nextdiff);
  done ← at_end m p;
  m ← (if negb done then insert_move m curlen p reqlen nextdiff forcelarge else set_tail p m);
  if nextdiff =? 0 then mret m else __ziplistCascadeUpdate m (p + reqlen).

(** [/* Write the entry */] *)
Definition write_entry (m : mem) (p prevlen enc value : Z) (s : bytes) : res mem :=
  let prev := zipStorePrevEntryLength prevlen in
  m ← wr m p prev;
  let p := p + Z.of_nat (length prev) in
  let hd := zipStoreEntryEncoding enc (Z.of_nat (length s)) in
  m ← wr m p hd;
  let p := p + Z.of_nat (length hd) in
  if ZIP_IS_STR enc then wr m p s else bs ← zipSaveInteger value enc; wr m p bs.

Definition __ziplistInsert (m : mem) (p : Z) (s : bytes) : res mem :=
  let slen := Z.of_nat (length s) in
  curlen ← ZIPLIST_BYTES m;
  prevlen ← insert_prevlen m p;
  '(value, enc, reqlen) ←
    match zipTryEncoding s with
    | Some (value, enc) => n ← zipIntSize enc; mret (value, enc, n)
    | None => mret (123456789, 0, slen)
    end;
  let reqlen := reqlen + prev_size prevlen in
  let reqlen := reqlen + Z.of_nat (length (zipStoreEntryEncoding enc slen)) in
  done ← at_end m p;
  nextdiff ← (if negb done then zipPrevLenByteDiff m p reqlen else mret 0);
  let forcelarge := (nextdiff =? -4) && (reqlen <? 4) in
  let nextdiff := if forcelarge then 0 else nextdiff in
  m ← insert_room m curlen p reqlen nextdiff forcelarge;
  m ← write_entry m p prevlen enc value s;
  ZIPLIST_INCR_LENGTH 1 m.

(** The copy of one list behind the other, in whichever block. *)
Definition merge_copy (first second : mem) (first_bytes second_bytes first_len second_len : Z) : res mem :=
  let zlbytes := first_bytes + second_bytes - ZIPLIST_HEADER_SIZE - ZIPLIST_END_SIZE in
  if second_len <=? first_len then
    bs ← rd_n second ZIPLIST_HEADER_SIZE (Z.to_nat (second_bytes - ZIPLIST_HEADER_SIZE));
    wr (zrealloc first zlbytes) (first_bytes - ZIPLIST_END_SIZE) bs
  else
    m ← memmove (zrealloc second zlbytes) (first_bytes - ZIPLIST_END_SIZE) ZIPLIST_HEADER_SIZE (second_bytes - ZIPLIST_HEADER_SIZE);
    bs ← rd_n first 0 (Z.to_nat (first_bytes - ZIPLIST_END_SIZE));
    wr m 0 bs.

(** The blocks are not NULL and not the same. *)
Definition ziplistMerge (first second : mem) : res mem :=
  first_bytes ← ZIPLIST_BYTES first;
  first_len ← ZIPLIST_LENGTH first;
  second_bytes ← ZIPLIST_BYTES second;
  second_len ← ZIPLIST_LENGTH second;
  let zlbytes := first_bytes + second_bytes - ZIPLIST_HEADER_SIZE - ZIPLIST_END_SIZE in
  let zllength := first_len + second_len in
  let zllength := if zllength <? UINT16_MAX then zllength else UINT16_MAX in
  first_offset ← ZIPLIST_TAIL_OFFSET first;
  second_offset ← ZIPLIST_TAIL_OFFSET second;
  target ← merge_copy first second first_bytes second_bytes first_len second_len;
  target ← set_bytes zlbytes target;
  target ← set_length zllength target;
  target ← set_tail (first_bytes - ZIPLIST_END_SIZE + (second_offset - ZIPLIST_HEADER_SIZE)) target;
  __ziplistCascadeUpdate target first_offset.

Inductive where_ := ZIPLIST_HEAD | ZIPLIST_TAIL.
Definition ziplistPush (m : mem) (s : bytes) (w : where_) : res mem :=
  p ← match w with ZIPLIST_HEAD => mret ZIPLIST_ENTRY_HEAD | ZIPLIST_TAIL => ZIPLIST_ENTRY_END m end;
  __ziplistInsert m p s.

(** ** Walking over a ziplist *)

(** [while (prevlen > 0 && index--)]: the new [p] and [index]. *)
Fixpoint walk_back (fuel : nat) (m : mem) (p prevlen index : Z) : res (Z * Z) :=
  match fuel with
  | O => Abort "fuel"
  | S fuel' =>
      if 0 <? prevlen then
        if index =? 0 then mret (p, index - 1)
        else
          let p := p - prevlen in
          '(_, prevlen) ← ZIP_DECODE_PREVLEN m p;
          walk_back fuel' m p prevlen (index - 1)
      else mret (p, index)
  end.
(** [while (p[0] != ZIP_END && index--)] *)
Fixpoint walk_on (fuel : nat) (m : mem) (p index : Z) : res (Z * Z) :=
  match fuel with
  | O => Abort "fuel"
  | S fuel' =>
      done ← at_end m p;
      if done : bool then mret (p, index)
      else if index =? 0 then mret (p, index - 1)
      else l ← zipRawEntryLength m p; walk_on fuel' m (p + l) (index - 1)
  end.
Definition ziplistIndex (m : mem) (index : Z) : res (option Z) :=
  '(p, index) ←
    (if index <? 0 then
       let index := - index - 1 in
       p ← ZIPLIST_ENTRY_TAIL m;
       done ← at_end m p;
       if negb done then '(_, prevlen) ← ZIP_DECODE_PREVLEN m p; walk_back (length m) m p prevlen index
       else mret (p, index)
     else walk_on (length m) m ZIPLIST_ENTRY_HEAD index);
  done ← at_end m p;
  mret (if done || (0 <? index) then None else Some p).

Definition ziplistNext (m : mem) (p : Z) : res (option Z) :=
  done ← at_end m p;
  if done : bool then mret None else
  l ← zipRawEntryLength m p;
  done ← at_end m (p + l);
  mret (if done : bool then None else Some (p + l)).

Definition ziplistPrev (m : mem) (p : Z) : res (option Z) :=
  done ← at_end m p;
  if done : bool then
    p ← ZIPLIST_ENTRY_TAIL m; done ← at_end m p; mret (if done : bool then None else Some p)
  else if p =? ZIPLIST_ENTRY_HEAD then mret None
  else
    '(_, prevlen) ← ZIP_DECODE_PREVLEN m p;
    serverAssert (0 <? prevlen) "prevlen > 0";;
    mret (Some (p - prevlen)).

(** [inl] is a string ([sstr], [slen]), [inr] an integer ([sval]); [None] is the result 0. *)
Definition ziplistGet (m : mem) (p : Z) : res (option (bytes + Z)) :=
  done ← at_end m p;
  if done : bool then mret None else
  e ← zipEntry m p;
  if ZIP_IS_STR (encoding e) then s ← rd_n m (p + headersize e) (Z.to_nat (len e)); mret (Some (inl s))
  else v ← zipLoadInteger m (p + headersize e) (encoding e); mret (Some (inr v)).

Definition ziplistInsert (m : mem) (p : Z) (s : bytes) : res mem := __ziplistInsert m p s.
(** The pointer stays where it was. *)
Definition ziplistDelete (m : mem) (p : Z) : res (mem * Z) := m ← __ziplistDelete m p 1; mret (m, p).
Definition ziplistDeleteRange (m : mem) (index num : Z) : res mem :=
  p ← ziplistIndex m index;
  match p with None => mret m | Some p => __ziplistDelete m p num end.

Definition ziplistCompare (m : mem) (p : Z) (sstr : bytes) : res bool :=
  done ← at_end m p;
  if done : bool then mret false else
  e ← zipEntry m p;
  if ZIP_IS_STR (encoding e) then
    if len e =? Z.of_nat (length sstr) then
      s ← rd_n m (p + headersize e) (length sstr); mret (bool_decide (s = sstr))
    else mret false
  else
    match zipTryEncoding sstr with
    | Some (sval, _) => zval ← zipLoadInteger m (p + headersize e) (encoding e); mret (zval =? sval)
    | None => mret false
    end.

(** [vll] is what [zipTryEncoding] makes of the string, once an integer was met: [None] when
    it was not tried, [Some None] for UCHAR_MAX. *)
Fixpoint find_loop (fuel : nat) (m : mem) (p : Z) (vstr : bytes) (skip skipcnt : Z) (vll : option (option Z)) : res (option Z) :=
  match fuel with
  | O => Abort "fuel"
  | S fuel' =>
      done ← at_end m p;
      if done : bool then mret None else
      psz ← ZIP_DECODE_PREVLENSIZE m p;
      '(enc, lsz, l) ← ZIP_DECODE_LENGTH m (p + psz);
      let q := p + psz + lsz in
      if skipcnt =? 0 then
        if ZIP_IS_STR enc then
          found ← (if l =? Z.of_nat (length vstr)
                   then s ← rd_n m q (length vstr); mret (bool_decide (s = vstr)) else mret false);
          if found : bool then mret (Some p) else find_loop fuel' m (q + l) vstr skip skip vll
        else
          let v := match vll with Some v => v | None => fst <$> zipTryEncoding vstr end in
          found ← match v with Some v => ll ← zipLoadInteger m q enc; mret (ll =? v) | None => mret false end;
          if found : bool then mret (Some p) else find_loop fuel' m (q + l) vstr skip skip (Some v)
      else find_loop fuel' m (q + l) vstr skip (skipcnt - 1) vll
  end.
Definition ziplistFind (m : mem) (p : Z) (vstr : bytes) (skip : Z) : res (option Z) :=
  find_loop (length m) m p vstr skip 0 None.

Fixpoint len_loop (fuel : nat) (m : mem) (p n : Z) : res Z :=
  match fuel with
  | O => Abort "fuel"
  | S fuel' =>
      done ← at_end m p;
      if done : bool then mret n else l ← zipRawEntryLength m p; len_loop fuel' m (p + l) (n + 1)
  end.
(** The number is stored again when it fits. *)
Definition ziplistLen (m : mem) : res (Z * mem) :=
  n ← ZIPLIST_LENGTH m;
  if n <? UINT16_MAX then mret (n, m)
  else
    n ← len_loop (length m) m ZIPLIST_HEADER_SIZE 0;
    if n <? UINT16_MAX then m ← set_length n m; mret (n, m) else mret (n, m).
Definition ziplistBlobLen (m : mem) : res Z := ZIPLIST_BYTES m.

(** ** Integers *)

Definition int_bytes (v enc : Z) : bytes := match zipSaveInteger v enc with Ok bs => bs | Abort _ => [] end.

(** An integer encoding: how many bytes there are, and what they are read as. *)
Definition int_ok (v enc : Z) : Prop :=
  zipSaveInteger v enc = Ok (int_bytes v enc) ∧ zipIntSize enc = Ok (Z.of_nat (length (int_bytes v enc))) ∧
  ZIP_STR_MASK ≤ enc < ZIP_END ∧
  ∀ m p, seg m p (int_bytes v enc) → zipLoadInteger m p enc = Ok v.

Lemma load_bytes m p n v rest : seg m p (le_split n v ++ rest) → rd_n m p n = Ok (le_split n v).
Proof. intros H. eapply rd_n_seg; [exact H|]. by rewrite length_le_split. Qed.

Lemma signed_bytes (n : nat) v :
  (0 < n)%nat → - 2 ^ (8 * Z.of_nat n - 1) ≤ v < 2 ^ (8 * Z.of_nat n - 1) →
  to_signed (8 * Z.of_nat n) (le_combine (le_split n v)) = v.
Proof.
  intros Hn Hv. rewrite le_combine_split, to_signed_mod by lia. apply to_signed_small; lia.
Qed.

Lemma int_ok_imm v : 0 ≤ v ≤ 12 → int_ok v (ZIP_INT_IMM_MIN + v).
Proof.
  intros Hv. assert (∃ n : nat, v = Z.of_nat n ∧ (n ≤ 12)%nat) as (n & -> & Hn) by (exists (Z.to_nat v); lia).
  do 13 (destruct n as [|n]; [by split_and!|]). lia.
Qed.
Ltac int_load n v :=
  split_and!; [done|done|done|done|]; intros m p H; unfold zipLoadInteger; cbn [Z.eqb Pos.eqb ZIP_INT_8B ZIP_INT_16B ZIP_INT_24B ZIP_INT_32B ZIP_INT_64B];
  rewrite (load_bytes m p n v []) by (by rewrite app_nil_r); cbn [mbind res_bind]; unfold mret, res_ret; f_equal;
  apply (signed_bytes n); [lia|done].
Lemma int_ok_8 v : - 2 ^ 7 ≤ v < 2 ^ 7 → int_ok v ZIP_INT_8B.
Proof. intros Hv. int_load 1%nat v. Qed.
Lemma int_ok_16 v : - 2 ^ 15 ≤ v < 2 ^ 15 → int_ok v ZIP_INT_16B.
Proof. intros Hv. int_load 2%nat v. Qed.
Lemma int_ok_32 v : - 2 ^ 31 ≤ v < 2 ^ 31 → int_ok v ZIP_INT_32B.
Proof. intros Hv. int_load 4%nat v. Qed.
Lemma int_ok_64 v : - 2 ^ 63 ≤ v < 2 ^ 63 → int_ok v ZIP_INT_64B.
Proof. intros Hv. int_load 8%nat v. Qed.
Lemma int_ok_24 v : - 2 ^ 23 ≤ v < 2 ^ 23 → int_ok v ZIP_INT_24B.
Proof.
  intros Hv. split_and!; [done|done|done|done|]. intros m p H. unfold zipLoadInteger. cbn [Z.eqb Pos.eqb ZIP_INT_8B ZIP_INT_16B ZIP_INT_24B ZIP_INT_32B ZIP_INT_64B].
  change (int_bytes v ZIP_INT_24B) with (drop 1 (le_split 4 (Z.shiftl v 8))) in H.
  rewrite (rd_n_seg m p (drop 1 (le_split 4 (Z.shiftl v 8))) []) by (by rewrite ?app_nil_r). cbn [mbind res_bind].
  unfold mret, res_ret. f_equal. rewrite Z.shiftl_mul_pow2 by lia.
  assert (x00 :: drop 1 (le_split 4 (v * 2 ^ 8)) = le_split 4 (v * 2 ^ 8)) as ->.
  { cbn [le_split drop]. f_equal. apply (inj Z_of_byte). rewrite Z_of_byte_of_Z. by rewrite Z.mod_mul. }
  pose proof (signed_bytes 4 (v * 2 ^ 8) ltac:(lia) ltac:(lia)) as E. change (8 * Z.of_nat 4) with 32 in E. rewrite E. rewrite Z.shiftr_div_pow2 by lia. by rewrite Z.div_mul.
Qed.

Lemma zipTryEncoding_Some s v enc :
  zipTryEncoding s = Some (v, enc) → is_ll v ∧ s = sdsll2str v ∧ int_ok v enc.
Proof.
  unfold zipTryEncoding. destruct (_ || _); [done|]. destruct (string2ll s) as [w|] eqn:E; [|done]. intros [= -> <-].
  apply string2ll_sound in E as [Hv ->]. split; [done|]. split; [done|].
  repeat match goal with |- context [if ?b then _ else _] => destruct b eqn:?E end; rewrite ?andb_true_iff, ?Z.leb_le in *.
  - apply int_ok_imm. lia.
  - apply int_ok_8. lia.
  - apply int_ok_16. lia.
  - apply int_ok_24. lia.
  - apply int_ok_32. lia.
  - apply int_ok_64. unfold is_ll, LLONG_MIN, LLONG_MAX in Hv. lia.
Qed.

(** Two strings that are the same integer are the same. *)
Lemma zipTryEncoding_inj s s' v enc enc' :
  zipTryEncoding s = Some (v, enc) → zipTryEncoding s' = Some (v, enc') → s = s'.
Proof. intros (_ & -> & _)%zipTryEncoding_Some (_ & -> & _)%zipTryEncoding_Some. done. Qed.

(** ** The layout of an entry *)

(** The encoding and the contents. *)
Definition body (s : bytes) : bytes :=
  match zipTryEncoding s with
  | Some (v, enc) => byte_of_Z enc :: int_bytes v enc
  | None => zipStoreEntryEncoding 0 (Z.of_nat (length s)) ++ s
  end.
(** The prevlen field, in five bytes or in one. *)
Definition psize (g : bool) : Z := if g then 5 else 1.
Definition prev_bytes (g : bool) (q : Z) : bytes := if g then zipStorePrevEntryLengthLarge q else [byte_of_Z q].
Definition prev_ok (g : bool) (q : Z) : Prop := 0 ≤ q < (if g then 2 ^ 32 else ZIP_BIG_PREVLEN).

Definition elen (e : bool * bytes) : Z := psize e.1 + Z.of_nat (length (body e.2)).
Definition ent (e : bool * bytes) (q : Z) : bytes := prev_bytes e.1 q ++ body e.2.

(** What [ziplistGet] shows of a string. *)
Definition shown (s : bytes) : bytes + Z :=
  match zipTryEncoding s with Some (v, _) => inr v | None => inl s end.

Lemma length_prev_bytes g q : Z.of_nat (length (prev_bytes g q)) = psize g.
Proof. by destruct g. Qed.
Lemma length_ent e q : Z.of_nat (length (ent e q)) = elen e.
Proof. unfold ent, elen. rewrite length_app, Nat2Z.inj_add, length_prev_bytes. done. Qed.
Lemma psize_pos g : 1 ≤ psize g ≤ 5.
Proof. destruct g; cbn; lia. Qed.

Lemma string_head (l : Z) : 0 ≤ l →
  zipStoreEntryEncoding 0 l =
    if l <=? 63 then [byte_of_Z l]
    else if l <=? 16383 then [byte_of_Z (Z.lor 64 (Z.land (Z.shiftr l 8) 63)); byte_of_Z (Z.land l 255)]
    else [byte_of_Z 128; byte_of_Z (Z.land (Z.shiftr l 24) 255); byte_of_Z (Z.land (Z.shiftr l 16) 255);
          byte_of_Z (Z.land (Z.shiftr l 8) 255); byte_of_Z (Z.land l 255)].
Proof. intros Hl. reflexivity. Qed.

Lemma be_parts l : 0 ≤ l < 2 ^ 32 →
  Z.lor (Z.lor (Z.lor (Z.shiftl (l / 2 ^ 24 mod 256) 24) (Z.shiftl (l / 2 ^ 16 mod 256) 16)) (Z.shiftl (l / 2 ^ 8 mod 256) 8)) (l mod 256) = l.
Proof.
  intros Hl. rewrite <- !Z.lor_assoc. pose proof (Z.mod_pos_bound l 256 ltac:(lia)).
  pose proof (Z.mod_pos_bound (l / 2 ^ 8) 256 ltac:(lia)). pose proof (Z.mod_pos_bound (l / 2 ^ 16) 256 ltac:(lia)).
  rewrite (lor_shiftl (l / 2 ^ 8 mod 256)) by lia.
  rewrite (lor_shiftl (l / 2 ^ 16 mod 256)) by lia. rewrite lor_shiftl by lia. Z.to_euclidean_division_equations. lia.
Qed.

(** The first byte of the head of a string. *)
Lemma head_bits x : 0 ≤ x < 64 →
  Z.land x 192 = 0 ∧ Z.land x 63 = x ∧
  Z.lor 64 x = 64 + x ∧ Z.land (64 + x) 192 = 64 ∧ Z.land (64 + x) 63 = x.
Proof.
  intros Hx. assert (∃ n : nat, x = Z.of_nat n ∧ (n < 64)%nat) as (n & -> & Hn) by (exists (Z.to_nat x); lia).
  do 64 (destruct n as [|n]; [by split_and!|]). lia.
Qed.

(** [ZIP_DECODE_LENGTH] on the body of an entry. *)
Definition body_decoded (m : mem) (p : Z) (s : bytes) (enc lsz l : Z) : Prop :=
  lsz + l = Z.of_nat (length (body s)) ∧ 1 ≤ lsz ≤ 5 ∧ 0 ≤ l ∧
  match zipTryEncoding s with
  | Some (v, e) => enc = e ∧ ZIP_IS_STR enc = false ∧ zipLoadInteger m (p + lsz) enc = Ok v
  | None => ZIP_IS_STR enc = true ∧ l = Z.of_nat (length s) ∧ seg m (p + lsz) s
  end.

Lemma int_not_str enc : ZIP_STR_MASK ≤ enc < ZIP_END → ZIP_IS_STR enc = false.
Proof.
  unfold ZIP_STR_MASK, ZIP_END. intros H.
  assert (∃ n : nat, enc = 192 + Z.of_nat n ∧ (n < 63)%nat) as (n & -> & Hn) by (exists (Z.to_nat (enc - 192)); lia).
  do 63 (destruct n as [|n]; [done|]). lia.
Qed.

Lemma decode_string m p (s : bytes) :
  seg m p (zipStoreEntryEncoding 0 (Z.of_nat (length s)) ++ s) → Z.of_nat (length s) < 2 ^ 32 →
  ∃ enc lsz, ZIP_DECODE_LENGTH m p = Ok (enc, lsz, Z.of_nat (length s)) ∧ ZIP_IS_STR enc = true ∧
    lsz = Z.of_nat (length (zipStoreEntryEncoding 0 (Z.of_nat (length s)))) ∧ 1 ≤ lsz ≤ 5.
Proof.
  intros H Hl. rewrite string_head in * by lia. set (l := Z.of_nat (length s)) in *.
  assert (0 ≤ l) as Hl0 by lia. unfold ZIP_DECODE_LENGTH, ZIP_ENTRY_ENCODING, ZIP_STR_MASK, ZIP_STR_06B, ZIP_STR_14B, ZIP_STR_32B.
  destruct (Z.leb_spec l 63) as [H1|H1]; [|destruct (Z.leb_spec l 16383) as [H2|H2]]; cbn [app] in H.
  - destruct (head_bits l) as (E1 & E2 & _); [lia|]. rewrite !(rd_seg _ _ _ _ H), Z_of_byte_of_Z, Z.mod_small by lia.
    cbn [mbind res_bind]. rewrite (proj2 (Z.ltb_lt l 192)) by lia. rewrite E1. cbn. rewrite E2. by eexists _, _.
  - destruct (head_bits (l / 2 ^ 8)) as (_ & _ & E1 & E2 & E3); [Z.to_euclidean_division_equations; lia|].
    assert (Z.land (Z.shiftr l 8) 63 = l / 2 ^ 8) as Es.
    { change 63 with (Z.ones 6). rewrite Z.land_ones, Z.shiftr_div_pow2 by lia. apply Z.mod_small. Z.to_euclidean_division_equations; lia. }
    rewrite Es, E1 in H. apply seg_cons in H as [H H'].
    assert (0 ≤ l / 2 ^ 8 < 64) by (Z.to_euclidean_division_equations; lia).
    rewrite !(rd_seg _ _ _ _ H), Z_of_byte_of_Z, Z.mod_small by lia. cbn [mbind res_bind].
    rewrite (proj2 (Z.ltb_lt (64 + l / 2 ^ 8) 192)) by lia. rewrite E2, (rd_seg _ _ _ _ H'). cbn [mbind res_bind].
    pose proof (Z_of_byte_shiftr l 0 ltac:(lia)) as Eb. rewrite Z.shiftr_0_r, Z.pow_0_r, Z.div_1_r in Eb. rewrite E3, Eb.
    rewrite (lor_shiftl (l / 2 ^ 8) (l mod 256) 8) by (Z.to_euclidean_division_equations; lia).
    replace (l / 2 ^ 8 * 2 ^ 8 + l mod 256) with l by (Z.to_euclidean_division_equations; lia). by exists 64, 2.
  - assert (H' := H). apply seg_cons in H' as [_ H3]. assert (H4 := H3). apply seg_cons in H4 as [_ H4].
    assert (H5 := H4). apply seg_cons in H5 as [_ H5]. assert (H6 := H5). apply seg_cons in H6 as [_ H6].
    replace (p + 1 + 1) with (p + 2) in * by lia. replace (p + 2 + 1) with (p + 3) in * by lia. replace (p + 3 + 1) with (p + 4) in * by lia.
    rewrite (rd_seg _ _ _ _ H), (rd_seg _ _ _ _ H3), (rd_seg _ _ _ _ H4), (rd_seg _ _ _ _ H5), (rd_seg _ _ _ _ H6).
    cbn [mbind res_bind]. exists 128, 5. split; [|done]. cbn. repeat f_equal.
    pose proof (Z_of_byte_shiftr l 0 ltac:(lia)) as Eb. rewrite Z.shiftr_0_r, Z.pow_0_r, Z.div_1_r in Eb.
    rewrite Eb, !Z_of_byte_shiftr by lia. by apply be_parts.
Qed.

Lemma body_len s : Z.of_nat (length (body s)) < 2 ^ 32 → Z.of_nat (length s) < 2 ^ 32.
Proof.
  unfold body. destruct (zipTryEncoding s) as [[v enc]|] eqn:E; [|rewrite length_app; lia].
  apply zipTryEncoding_Some in E as (Hv & -> & _). intros _. rewrite sdsll2str_length by done. pose proof (sdigits10_max v Hv). lia.
Qed.
Lemma body_pos s : 1 ≤ Z.of_nat (length (body s)).
Proof.
  unfold body. destruct (zipTryEncoding s) as [[v enc]|]; [cbn; lia|]. rewrite length_app, string_head by lia.
  destruct (_ <=? 63); [cbn; lia|]. destruct (_ <=? 16383); cbn; lia.
Qed.
Lemma elen_pos e : 2 ≤ elen e.
Proof. unfold elen. pose proof (body_pos e.2). pose proof (psize_pos e.1). lia. Qed.

Lemma decode_body m p s :
  seg m p (body s) → Z.of_nat (length (body s)) < 2 ^ 32 →
  ∃ enc lsz l, ZIP_DECODE_LENGTH m p = Ok (enc, lsz, l) ∧ body_decoded m p s enc lsz l.
Proof.
  intros H Hl. apply body_len in Hl. unfold body_decoded, body in *. destruct (zipTryEncoding s) as [[v enc]|] eqn:E.
  - apply zipTryEncoding_Some in E as (Hv & _ & _ & Hs & He & Hld). pose proof (int_not_str _ He).
    unfold ZIP_STR_MASK, ZIP_END in He. exists enc, 1, (Z.of_nat (length (int_bytes v enc))). split; [|split_and!; try done; [cbn; lia..|]].
    + unfold ZIP_DECODE_LENGTH, ZIP_ENTRY_ENCODING, ZIP_STR_MASK. rewrite (rd_seg _ _ _ _ H), Z_of_byte_of_Z, Z.mod_small by lia.
      cbn [mbind res_bind]. rewrite (proj2 (Z.ltb_ge enc 192)) by lia. unfold mret, res_ret. cbn [mbind res_bind].
      rewrite (proj2 (Z.ltb_ge enc 192)) by lia. by rewrite Hs.
    + apply Hld. by apply seg_cons in H as [_ H].
  - destruct (decode_string m p s H Hl) as (enc & lsz & -> & Hst & Elsz & Hlsz). exists enc, lsz, (Z.of_nat (length s)).
    split; [done|]. rewrite Elsz in *. apply seg_app in H as [_ H]. rewrite length_app. split_and!; [lia..|done|done|done].
Qed.

Lemma prev_read m p g q :
  seg m p (prev_bytes g q) → prev_ok g q →
  ZIP_DECODE_PREVLENSIZE m p = Ok (psize g) ∧ ZIP_DECODE_PREVLEN m p = Ok (psize g, q) ∧ at_end m p = Ok false.
Proof.
  unfold prev_ok, ZIP_BIG_PREVLEN. intros H Hq. unfold ZIP_DECODE_PREVLEN, ZIP_DECODE_PREVLENSIZE, at_end, ZIP_BIG_PREVLEN, ZIP_END.
  destruct g; cbn [prev_bytes psize] in *.
  - unfold zipStorePrevEntryLengthLarge in H. rewrite (rd_seg _ _ _ _ H). split_and!; [done| |done]. cbn [mbind res_bind].
    apply seg_cons in H as [_ H]. change (Z_of_byte _ <? 254) with false. unfold mret, res_ret. cbn [mbind res_bind].
    change (5 =? 1) with false. cbn [mbind res_bind]. rewrite (load_bytes m (p + 1) 4 q []) by (by rewrite app_nil_r). cbn [mbind res_bind].
    by rewrite le_combine_split_small.
  - rewrite (rd_seg _ _ _ _ H), Z_of_byte_of_Z, Z.mod_small by lia. cbn [mbind res_bind].
    rewrite (proj2 (Z.ltb_lt q 254)) by lia. unfold mret, res_ret. cbn [mbind res_bind]. split_and!; [done| |].
    + rewrite Z.eqb_refl. by cbn [mbind res_bind].
    + by rewrite (proj2 (Z.eqb_neq q 255)) by lia.
Qed.

Lemma zipEntry_ok m p e q :
  seg m p (ent e q) → prev_ok e.1 q → elen e < 2 ^ 32 →
  ∃ z, zipEntry m p = Ok z ∧ prevrawlensize z = psize e.1 ∧ prevrawlen z = q ∧ headersize z = psize e.1 + lensize z ∧
    headersize z + len z = elen e ∧ e_p z = p ∧ body_decoded m (p + psize e.1) e.2 (encoding z) (lensize z) (len z).
Proof.
  intros H Hq He. apply seg_app in H as [H1 H2]. rewrite length_prev_bytes in H2. unfold elen in *. pose proof (psize_pos e.1).
  destruct (decode_body _ _ _ H2) as (enc & lsz & l & E & Hd); [lia|]. destruct (prev_read _ _ _ _ H1 Hq) as (_ & Ep & _).
  unfold zipEntry. rewrite Ep. cbn [mbind res_bind]. rewrite E. cbn [mbind res_bind]. eexists. split; [done|].
  cbn. pose proof (proj1 Hd). split_and!; (done || lia).
Qed.

Lemma raw_ok m p e q :
  seg m p (ent e q) → prev_ok e.1 q → elen e < 2 ^ 32 → zipRawEntryLength m p = Ok (elen e).
Proof.
  intros H Hq He. apply seg_app in H as [H1 H2]. rewrite length_prev_bytes in H2. unfold elen in *. pose proof (psize_pos e.1).
  destruct (decode_body _ _ _ H2) as (enc & lsz & l & E & Hd); [lia|]. destruct (prev_read _ _ _ _ H1 Hq) as (Ep & _).
  unfold zipRawEntryLength. rewrite Ep. cbn [mbind res_bind]. rewrite E. cbn [mbind res_bind]. pose proof (proj1 Hd).
  unfold mret, res_ret, u32. rewrite Z.mod_small by lia. f_equal. lia.
Qed.

Lemma not_at_end m p e q : seg m p (ent e q) → prev_ok e.1 q → at_end m p = Ok false.
Proof. intros [H _]%seg_app Hq. by apply (prev_read m p e.1 q). Qed.
Lemma at_end_ok m p : seg m p [byte_of_Z ZIP_END] → at_end m p = Ok true.
Proof. intros H. unfold at_end. by rewrite (rd_seg _ _ _ _ H). Qed.
