(* ===== verification/ZiplistOps.v ===== *)
(** * Ziplists as lists (src/src/ziplist.c)

    A ziplist is the list of strings it holds.  [rep m l] says that the block [m] is a ziplist of
    the strings [l]: the header fits, the entries follow one another, every prevlen field has
    the length of the entry before it, and the byte 255 is at the end.  The functions of Ziplist
    are shown to do on the block what they are to do on the list; the cascade of growing
    prevlen fields is one of the steps.

    The only condition is that the ziplist stays below 2^32 bytes, which the code does not
    test.

    The theorem is about programs of a client: a cursor into a ziplist is moved, read and
    compared, and strings are inserted and deleted at the cursor, at the ends and in
    ranges, and other ziplists are appended. *)

From S2P Require Import Prelude Util Mem Ziplist.
From stdpp Require Import list.
#[local] Open Scope Z_scope.

Implicit Types (m : mem) (e : bool * bytes) (es : list (bool * bytes)) (s : bytes) (l : list bytes).

(** ** Chains of entries *)

Definition END : bytes := [byte_of_Z ZIP_END].

(** The entries, the first of them with the prevlen [q]. *)
Fixpoint ents (q : Z) es : bytes :=
  match es with [] => [] | e :: es' => ent e q ++ ents (elen e) es' end.
Fixpoint chain_ok (q : Z) es : Prop :=
  match es with [] => True | e :: es' => prev_ok e.1 q ∧ chain_ok (elen e) es' end.
Fixpoint esize es : Z := match es with [] => 0 | e :: es' => elen e + esize es' end.
(** The prevlen of what comes after the entries. *)
Fixpoint prev_of (q : Z) es : Z := match es with [] => q | e :: es' => prev_of (elen e) es' end.
(** The offset of the last entry. *)
Definition last_off es : Z := esize (removelast es).

Definition bytes_is m (b : Z) : Prop := seg m 0 (le_split 4 b).
Definition tail_is m (t : Z) : Prop := seg m 4 (le_split 4 t).
Definition count_is m (n : Z) : Prop := seg m 8 (le_split 2 n).

(** What is at [r] is kept, when it is outside of the fields for the bytes and the tail, and
    before [p]. *)
Definition keeps m m' (p : Z) : Prop :=
  ∀ r cs, seg m r cs → 8 ≤ r → r + Z.of_nat (length cs) ≤ p → seg m' r cs.

Lemma esize_nonneg es : 0 ≤ esize es.
Proof. induction es as [|e es IH]; cbn; [lia|]. pose proof (elen_pos e). lia. Qed.
Lemma esize_len es : 2 * Z.of_nat (length es) ≤ esize es.
Proof. induction es as [|e es IH]; cbn; [lia|]. pose proof (elen_pos e). lia. Qed.
Lemma esize_app es1 es2 : esize (es1 ++ es2) = esize es1 + esize es2.
Proof. induction es1 as [|e es IH]; cbn; lia. Qed.
Lemma length_ents q es : Z.of_nat (length (ents q es)) = esize es.
Proof. revert q. induction es as [|e es IH]; intros q; cbn; [done|]. rewrite length_app, Nat2Z.inj_add, length_ent, IH. done. Qed.
Lemma ents_app q es1 es2 : ents q (es1 ++ es2) = ents q es1 ++ ents (prev_of q es1) es2.
Proof. revert q. induction es1 as [|e es IH]; intros q; cbn; [done|]. by rewrite IH, app_assoc. Qed.
Lemma chain_app q es1 es2 : chain_ok q (es1 ++ es2) ↔ chain_ok q es1 ∧ chain_ok (prev_of q es1) es2.
Proof. revert q. induction es1 as [|e es IH]; intros q; cbn; [tauto|]. rewrite IH. tauto. Qed.
Lemma prev_of_app q es1 es2 : prev_of q (es1 ++ es2) = prev_of (prev_of q es1) es2.
Proof. revert q. induction es1 as [|e es IH]; intros q; cbn; [done|]. apply IH. Qed.
Lemma last_off_cons e es : last_off (e :: es) = match es with [] => 0 | _ => elen e + last_off es end.
Proof. by destruct es. Qed.
Lemma last_off_snoc es e : last_off (es ++ [e]) = esize es.
Proof. unfold last_off. by rewrite removelast_last. Qed.
Lemma last_off_app es1 es2 : es2 ≠ [] → last_off (es1 ++ es2) = esize es1 + last_off es2.
Proof. intros H. unfold last_off. by rewrite removelast_app, esize_app. Qed.

Lemma last_off_bound es : 0 ≤ last_off es ≤ esize es.
Proof.
  unfold last_off. split; [apply esize_nonneg|]. induction es as [|e es IH]; [done|]. pose proof (elen_pos e).
  destruct es as [|e' es]; [cbn; lia|]. change (removelast (e :: e' :: es)) with (e :: removelast (e' :: es)). cbn [esize] in *. lia.
Qed.

Lemma prev_size_eq z : 0 ≤ z < 2 ^ 32 → prev_size z = psize (254 <=? z).
Proof.
  intros H. unfold prev_size, zipStorePrevEntryLength, u32, ZIP_BIG_PREVLEN. rewrite Z.mod_small by done.
  destruct (Z.ltb_spec z 254), (Z.leb_spec 254 z); try lia; done.
Qed.
Lemma prev_store_eq z : 0 ≤ z < 2 ^ 32 → zipStorePrevEntryLength z = prev_bytes (254 <=? z) z.
Proof.
  intros H. unfold zipStorePrevEntryLength, u32, ZIP_BIG_PREVLEN. rewrite Z.mod_small by done.
  destruct (Z.ltb_spec z 254), (Z.leb_spec 254 z); try lia; done.
Qed.
Lemma prev_ok_need z : 0 ≤ z < 2 ^ 32 → prev_ok (254 <=? z) z.
Proof. intros H. unfold prev_ok, ZIP_BIG_PREVLEN. destruct (Z.leb_spec 254 z); lia. Qed.
Lemma prev_ok_large g z : prev_ok g z → prev_ok true z.
Proof. unfold prev_ok, ZIP_BIG_PREVLEN. destruct g; lia. Qed.

(** ** The header *)

Lemma field_read m p (n : nat) v : seg m p (le_split n v) → 0 ≤ v < 2 ^ (8 * Z.of_nat n) → (le_combine <$> rd_n m p n) = Ok v.
Proof.
  intros H Hv. rewrite (load_bytes m p n v []) by (by rewrite app_nil_r). unfold fmap, res_fmap. by rewrite le_combine_split_small.
Qed.
Lemma bytes_read m b : bytes_is m b → 0 ≤ b < 2 ^ 32 → ZIPLIST_BYTES m = Ok b.
Proof. apply (field_read m 0 4 b). Qed.
Lemma tail_read m t : tail_is m t → 0 ≤ t < 2 ^ 32 → ZIPLIST_TAIL_OFFSET m = Ok t.
Proof. apply (field_read m 4 4 t). Qed.
Lemma count_read m n : count_is m n → 0 ≤ n < 2 ^ 16 → ZIPLIST_LENGTH m = Ok n.
Proof. apply (field_read m 8 2 n). Qed.

Lemma set_tail_ok m v :
  8 ≤ Z.of_nat (length m) →
  ∃ m', set_tail v m = Ok m' ∧ length m' = length m ∧ tail_is m' v ∧
    ∀ r cs, seg m r cs → r + Z.of_nat (length cs) ≤ 4 ∨ 8 ≤ r → seg m' r cs.
Proof.
  intros Hl. destruct (wr_ok m 4 (le_split 4 v)) as (m' & E & El & Hs & Hf); [done|rewrite length_le_split; lia|].
  exists m'. do 3 (split; [done|]). intros r cs H Hr. apply Hf; [done|]. unfold apart. rewrite length_le_split. lia.
Qed.

Lemma zl_resize_ok m z :
  11 ≤ z < 2 ^ 32 →
  ∃ m', ziplistResize m z = Ok m' ∧ Z.of_nat (length m') = z ∧ bytes_is m' z ∧ seg m' (z - 1) END ∧
    ∀ r cs, seg m r cs → 4 ≤ r → r + Z.of_nat (length cs) ≤ z - 1 → seg m' r cs.
Proof.
  intros Hz. unfold ziplistResize, u32. rewrite Z.mod_small by lia. destruct (zrealloc_ok m z) as [El Hk]; [lia|].
  unfold set_bytes. destruct (wr_ok (zrealloc m z) 0 (le_split 4 z)) as (m1 & -> & El1 & Hs1 & Hf1); [done|rewrite length_le_split; lia|].
  cbn [mbind res_bind]. destruct (wr_ok m1 (z - 1) [byte_of_Z ZIP_END]) as (m2 & -> & El2 & Hs2 & Hf2); [lia|cbn; lia|].
  exists m2. split; [done|]. split; [lia|]. split; [|split; [done|]].
  - apply Hf2; [done|]. left. rewrite length_le_split. lia.
  - intros r cs H Hr Hc. apply Hf2; [|left; cbn; lia]. apply Hf1; [|right; rewrite length_le_split; lia]. apply Hk; [done|lia].
Qed.

(** ** The cascade *)

Lemma zkeeps_refl m p : keeps m m p.
Proof. by intros r cs. Qed.
#[local] Hint Resolve zkeeps_refl : core.
Lemma keeps_le m m' p p' : keeps m m' p → p' ≤ p → keeps m m' p'.
Proof. intros H Hp r cs Hs Hr Hl. apply H; [done|done|lia]. Qed.
Lemma zkeeps_trans m1 m2 m3 p : keeps m1 m2 p → keeps m2 m3 p → keeps m1 m3 p.
Proof. intros H1 H2 r cs Hs Hr Hl. apply H2; [|done|done]. by apply H1. Qed.

(** The tail moves when it is not the entry that grows. *)
Lemma tail_grow m np s es :
  8 ≤ Z.of_nat (length m) → tail_is m (np + last_off ((false, s) :: es)) →
  ∃ m', (if np + last_off ((false, s) :: es) =? np then mret m else set_tail (np + last_off ((false, s) :: es) + 4) m) = Ok m' ∧
    length m' = length m ∧ tail_is m' (np + last_off ((true, s) :: es)) ∧
    ∀ r cs, seg m r cs → r + Z.of_nat (length cs) ≤ 4 ∨ 8 ≤ r → seg m' r cs.
Proof.
  intros Hl Ht. rewrite !last_off_cons in *. destruct es as [|e es].
  - rewrite Z.add_0_r, Z.eqb_refl in *. exists m. by split_and!.
  - pose proof (elen_pos (false, s)). pose proof (last_off_bound (e :: es)). rewrite (proj2 (Z.eqb_neq _ _)) by lia.
    destruct (set_tail_ok m (np + (elen (false, s) + last_off (e :: es)) + 4)) as (m2 & -> & El2 & Ht2 & Hk2); [lia|].
    exists m2. do 2 (split; [done|]). split; [|done].
    by replace (np + (elen (true, s) + _)) with (np + (elen (false, s) + last_off (e :: es)) + 4) by (unfold elen; cbn [fst snd psize]; lia).
Qed.

Lemma grow_ok m np s q z es :
  10 ≤ np → 254 ≤ z < 2 ^ 32 →
  seg m np (ent (false, s) q ++ ents (elen (false, s)) es ++ END) →
  Z.of_nat (length m) = np + elen (false, s) + esize es + 1 → Z.of_nat (length m) + 4 < 2 ^ 32 →
  tail_is m (np + last_off ((false, s) :: es)) →
  ∃ m', grow_next m (Z.of_nat (length m)) np z 5 1 = Ok m' ∧ Z.of_nat (length m') = Z.of_nat (length m) + 4 ∧
    bytes_is m' (Z.of_nat (length m')) ∧ tail_is m' (np + last_off ((true, s) :: es)) ∧
    seg m' np (ent (true, s) z ++ ents (elen (false, s)) es ++ END) ∧ keeps m m' np.
Proof.
  intros Hnp Hz Hs Hl Hmax Ht. unfold grow_next. change (5 - 1) with 4. pose proof (esize_nonneg es). pose proof (elen_pos (false, s)).
  destruct (zl_resize_ok m (Z.of_nat (length m) + 4)) as (m1 & -> & El1 & Hb1 & Hend1 & Hk1); [lia|]. cbn [mbind res_bind].
  unfold ent in Hs at 1. rewrite <- app_assoc in Hs. apply seg_app in Hs as [_ Hs]. rewrite length_prev_bytes in Hs. cbn [fst snd psize] in Hs.
  rewrite (app_assoc (body s)) in Hs. apply seg_app in Hs as [Hs _].
  assert (Z.of_nat (length (body s ++ ents (elen (false, s)) es)) = Z.of_nat (length m) - np - 2) as Hbl.
  { rewrite length_app, Nat2Z.inj_add, length_ents. unfold elen in Hl. cbn [fst snd psize] in Hl. lia. }
  apply Hk1 in Hs; [|lia..]. apply Hk1 in Ht; [|done|rewrite length_le_split; lia].
  pose proof (last_off_bound ((false, s) :: es)) as Hlo. cbn [esize] in Hlo. rewrite (tail_read m1 _ Ht) by lia. cbn [mbind res_bind].
  destruct (tail_grow m1 np s es) as (m2 & -> & El2 & Ht2 & Hk2); [lia|done|].
  cbn [mbind res_bind].
  destruct (memmove_ok m2 (np + 5) (np + 1) (Z.of_nat (length m) - np - 1 - 1)) as (m3 & -> & El3 & Hmv3 & Hk3); [lia..|]. cbn [mbind res_bind].
  rewrite (prev_store_eq z) by lia. rewrite (proj2 (Z.leb_le 254 z)) by lia.
  destruct (wr_ok m3 np (prev_bytes true z)) as (m4 & E4 & El4 & Hs4 & Hf4); [lia|cbn; lia|].
  exists m4. split; [done|]. split; [lia|]. replace (Z.of_nat (length m4)) with (Z.of_nat (length m) + 4) by lia.
  assert (∀ r cs, seg m2 r cs → r + Z.of_nat (length cs) ≤ np ∨ Z.of_nat (length m) + 3 ≤ r → seg m4 r cs) as Hk4.
  { intros r cs H1 H2. apply Hf4; [|unfold apart; rewrite length_prev_bytes; cbn; lia]. apply Hk3; [done|]. unfold apart. lia. }
  split; [|split; [|split]].
  - apply Hk4; [|rewrite length_le_split; lia]. apply Hk2; [done|rewrite length_le_split; lia].
  - apply Hk4; [done|rewrite length_le_split; lia].
  - unfold ent at 1. cbn [fst snd]. rewrite <- app_assoc. apply seg_app. split; [done|]. rewrite length_prev_bytes. cbn [psize].
    rewrite (app_assoc (body s)). apply seg_app. split.
    + apply Hf4; [|unfold apart; rewrite length_prev_bytes; cbn; lia]. replace (np + 5) with (np + 1 - (np + 1) + (np + 5)) by lia.
      apply Hmv3; [|lia|lia]. apply Hk2; [done|lia].
    + rewrite Hbl. apply Hk4; [|lia]. apply Hk2; [|lia]. by replace (np + 5 + (Z.of_nat (length m) - np - 2)) with (Z.of_nat (length m) + 4 - 1) by lia.
  - intros r cs H1 H2 H3. apply Hk4; [|lia]. apply Hk2; [|lia]. apply Hk1; [done|lia|lia].
Qed.

(** Five bytes are kept, or the length fits in what is there: the field is overwritten. *)
Lemma store_in_place m np e es q z :
  10 ≤ np → 0 ≤ z < 2 ^ 32 → (254 ≤ z → e.1 = true) →
  seg m np (ent e q ++ ents (elen e) es ++ END) →
  ∃ m', (if psize (254 <=? z) <? psize e.1 then wr m np (zipStorePrevEntryLengthLarge z) else wr m np (zipStorePrevEntryLength z)) = Ok m' ∧
    length m' = length m ∧ seg m' np (ent e z ++ ents (elen e) es ++ END) ∧
    ∀ r cs, seg m r cs → r + Z.of_nat (length cs) ≤ np → seg m' r cs.
Proof.
  intros Hnp Hz He Hs. assert (∀ z', prev_bytes e.1 z' ≠ []) as Hne by (by destruct e.1).
  unfold ent in Hs at 1. rewrite <- app_assoc in Hs. apply seg_app in Hs as [Hs1 Hs2]. pose proof (seg_len _ _ _ Hs1 (Hne _)) as Hl.
  rewrite length_prev_bytes in *. rewrite prev_store_eq by done.
  assert ((if psize (254 <=? z) <? psize e.1 then wr m np (zipStorePrevEntryLengthLarge z) else wr m np (prev_bytes (254 <=? z) z)) = wr m np (prev_bytes e.1 z)) as ->.
  { destruct e.1, (Z.leb_spec 254 z); try done. exfalso. by discriminate He. }
  destruct (wr_ok m np (prev_bytes e.1 z)) as (m' & -> & El & Hw & Hf); [lia|rewrite length_prev_bytes; lia|].
  exists m'. split; [done|]. split; [done|]. split.
  - unfold ent at 1. rewrite <- app_assoc. apply seg_app. split; [done|]. rewrite length_prev_bytes. apply Hf; [done|].
    right. rewrite length_prev_bytes. lia.
  - intros r cs H Hr. apply Hf; [done|]. left. lia.
Qed.

(** What the cascade leaves behind the entry at [p], whose length is [z]. *)
Definition fixed m m' (p z : Z) es es' : Prop :=
  es'.*2 = es.*2 ∧ chain_ok z es' ∧ esize es' ≤ esize es + 4 * Z.of_nat (length es) ∧
  Z.of_nat (length m') = p + z + esize es' + 1 ∧ seg m' (p + z) (ents z es' ++ END) ∧
  bytes_is m' (Z.of_nat (length m')) ∧ tail_is m' (p + match es' with [] => 0 | _ => z + last_off es' end) ∧
  keeps m m' (p + z).

Lemma cascade_ok fuel m p cur q0 q es :
  (length es < fuel)%nat → 10 ≤ p →
  seg m p (ent cur q0) → prev_ok cur.1 q0 →
  seg m (p + elen cur) (ents q es ++ END) → chain_ok q es →
  Z.of_nat (length m) = p + elen cur + esize es + 1 → Z.of_nat (length m) + 4 * Z.of_nat (length es) < 2 ^ 32 →
  bytes_is m (Z.of_nat (length m)) → tail_is m (p + last_off (cur :: es)) →
  ∃ m' es', cascade fuel m (Z.of_nat (length m)) p = Ok m' ∧ fixed m m' p (elen cur) es es'.
Proof.
  revert m p cur q0 q es. induction fuel as [|fuel IH]; intros m p cur q0 q es Hfuel Hp Hc Hq0 Hs Hch Hl Hmax Hb Ht; [lia|].
  pose proof (elen_pos cur). pose proof (esize_nonneg es). cbn [cascade].
  rewrite (not_at_end _ _ _ _ Hc Hq0). cbn [mbind res_bind].
  destruct (zipEntry_ok _ _ _ _ Hc Hq0) as (z & -> & _ & _ & _ & Hz & _); [lia|]. cbn [mbind res_bind].
  rewrite Hz. unfold u32. rewrite Z.mod_small by lia. rewrite last_off_cons in Ht.
  destruct es as [|[g s] es]; cbn [ents app chain_ok] in Hs, Hch.
  { rewrite (at_end_ok _ _ Hs). cbn [mbind res_bind]. exists m, []. split; [done|]. unfold fixed. by split_and!. }
  destruct Hch as [Hq Hch]. rewrite <- app_assoc in Hs. pose proof (elen_pos (g, s)) as Hg. cbn [esize] in Hl.
  assert (Hn := Hs). apply seg_app in Hn as [Hn Hrest]. pose proof (esize_nonneg es).
  rewrite (not_at_end _ _ _ _ Hn Hq). cbn [mbind res_bind].
  destruct (zipEntry_ok _ _ _ _ Hn Hq) as (zn & -> & Hpsz & Hprev & _); [lia|]. cbn [mbind res_bind]. rewrite Hpsz, Hprev. cbn [fst].
  destruct (Z.eqb_spec q (elen cur)) as [->|Hne].
  { exists m, ((g, s) :: es). split; [done|]. unfold fixed. cbn [ents chain_ok esize]. rewrite <- app_assoc. split_and!; done || (cbn [length]; lia). }
  rewrite prev_size_eq by lia. destruct (decide (g = false ∧ 254 ≤ elen cur)) as [[-> H254]|Hin].
  - rewrite (proj2 (Z.leb_le 254 (elen cur))) by done. cbn [psize Z.ltb Z.compare Pos.compare Pos.compare_cont].
    cbn [length] in Hmax, Hfuel. rewrite Z.add_assoc in Ht.
    destruct (grow_ok m (p + elen cur) s q (elen cur) es) as (m1 & -> & El1 & Hb1 & Ht1 & Hs1 & Hk1); try done; [lia..|].
    cbn [mbind res_bind]. apply seg_app in Hs1 as [Hn1 Hs1]. rewrite length_ent in Hs1. change (5 - 1) with 4. rewrite <- El1.
    assert (elen (true, s) = elen (false, s) + 4) as Hel by (unfold elen; cbn; lia).
    destruct (IH m1 (p + elen cur) (true, s) (elen cur) (elen (false, s)) es) as (m2 & es2 & -> & F1 & F2 & F3 & F4 & F5 & F6 & F7 & F8);
      try done; [lia|lia|unfold prev_ok; cbn; lia|lia|lia|].
    exists m2, ((true, s) :: es2). split; [done|]. unfold fixed. cbn [fmap list_fmap ents chain_ok esize length] in *.
    assert (keeps m m2 (p + elen cur)) as Hk by (apply (zkeeps_trans _ m1); [done|by apply (keeps_le _ _ _ _ F8); lia]).
    rewrite last_off_cons. split_and!; try done; [by rewrite F1|unfold prev_ok; cbn; lia|lia|lia| |].
    + rewrite <- app_assoc. apply seg_app. rewrite length_ent. split; [|done]. apply F8; [done|lia|rewrite length_ent; lia].
    + by rewrite Z.add_assoc.
  - rewrite (proj2 (Z.ltb_ge (psize g) _)) by (destruct g, (Z.leb_spec 254 (elen cur)); cbn; lia || (exfalso; by apply Hin)).
    destruct (store_in_place m (p + elen cur) (g, s) es q (elen cur)) as (m1 & E1 & El1 & Hs1 & Hk1); try done; [lia|lia|destruct g; [done|intros ?; by exfalso; apply Hin]|]. cbn [fst] in E1. rewrite E1.
    exists m1, ((g, s) :: es). split; [done|]. unfold fixed. cbn [ents chain_ok esize length]. rewrite <- app_assoc, El1.
    assert (prev_ok g (elen cur)) by (unfold prev_ok, ZIP_BIG_PREVLEN; destruct g; [lia|]; split; [lia|]; apply Z.nle_gt; intros ?; by apply Hin).
    split_and!; try (done || lia || (apply Hk1; [done|rewrite length_le_split; lia])). intros r cs ???. by apply Hk1.
Qed.

(** The cascade from the entry at [p] on, as the callers call it. *)
Lemma cascade_update m p cur q0 q es :
  10 ≤ p → seg m p (ent cur q0 ++ ents q es ++ END) → prev_ok cur.1 q0 → chain_ok q es →
  Z.of_nat (length m) = p + elen cur + esize es + 1 → Z.of_nat (length m) + 4 * Z.of_nat (length es) < 2 ^ 32 →
  bytes_is m (Z.of_nat (length m)) → tail_is m (p + last_off (cur :: es)) →
  ∃ m' es', __ziplistCascadeUpdate m p = Ok m' ∧ fixed m m' p (elen cur) es es'.
Proof.
  intros Hp Hs Hq Hch Hl Hmax Hb Ht. unfold __ziplistCascadeUpdate. rewrite (bytes_read _ _ Hb) by lia. cbn [mbind res_bind].
  apply seg_app in Hs as [H1 H2]. rewrite length_ent in H2. pose proof (esize_len es). pose proof (elen_pos cur).
  apply (cascade_ok (length m) m p cur q0 q es); try done. lia.
Qed.

(** What [fixed] leaves behind [p], as a chain. *)
Lemma fixed_chain m m' p cur z es es' :
  fixed m m' p (elen cur) es es' → seg m p (ent cur z) → prev_ok cur.1 z → 8 ≤ p →
  chain_ok z (cur :: es') ∧ (cur :: es').*2 = (cur :: es).*2 ∧ Z.of_nat (length m') = p + esize (cur :: es') + 1 ∧
  seg m' p (ents z (cur :: es') ++ END) ∧ bytes_is m' (Z.of_nat (length m')) ∧ tail_is m' (p + last_off (cur :: es')) ∧ keeps m m' p.
Proof.
  intros (F1 & F2 & F3 & F4 & F5 & F6 & F7 & F8) Hs Hq Hp. pose proof (elen_pos cur). cbn [chain_ok fmap list_fmap esize ents].
  rewrite last_off_cons. do 2 (split; [by try rewrite F1|]). split; [lia|]. split; [|split; [done|split; [done|by apply (keeps_le _ _ _ _ F8); lia]]].
  rewrite <- app_assoc. apply seg_app. rewrite length_ent. split; [|done]. apply F8; [done|done|rewrite length_ent; lia].
Qed.

(** *** Moving the entries behind [p] *)

(** The prevlen field of the entry that is moved, and by how much it grows. *)
Definition force_large (g : bool) (z : Z) : bool := (psize (254 <=? z) - psize g =? -4) && (z <? 4).
Definition next_diff (g : bool) (z : Z) : Z := if force_large g z then 0 else psize (254 <=? z) - psize g.
Definition next_size (g : bool) (z : Z) : bool := if force_large g z then true else 254 <=? z.

Lemma next_size_diff g z : psize (next_size g z) = psize g + next_diff g z.
Proof.
  unfold next_size, next_diff. destruct (force_large g z) eqn:E; [|lia]. unfold force_large in E. apply andb_true_iff in E as [E _].
  apply Z.eqb_eq in E. destruct g, (254 <=? z); cbn in *; lia.
Qed.
Lemma next_size_ok g z : 0 ≤ z < 2 ^ 32 → prev_ok (next_size g z) z.
Proof. intros Hz. unfold next_size. destruct (force_large g z); [|by apply prev_ok_need]. unfold prev_ok. lia. Qed.
Lemma next_diff_room g z : 2 ≤ z → -4 ≤ next_diff g z ≤ 4 ∧ 0 ≤ z + next_diff g z.
Proof.
  intros Hz. unfold next_diff, force_large. destruct (Z.eqb_spec (psize (254 <=? z) - psize g) (-4)) as [E|E], (Z.ltb_spec z 4); cbn [andb];
    destruct g, (254 <=? z); cbn in *; lia.
Qed.
Lemma next_store g z : 0 ≤ z < 2 ^ 32 →
  (if force_large g z then zipStorePrevEntryLengthLarge z else zipStorePrevEntryLength z) = prev_bytes (next_size g z) z.
Proof. intros Hz. unfold next_size. destruct (force_large g z); [done|]. by apply prev_store_eq. Qed.

Lemma next_tail m p t0 g g' d s z es :
  8 ≤ Z.of_nat (length m) → 10 ≤ p → 0 ≤ t0 → psize g' = psize g + d → elen (g', s) < 2 ^ 32 → prev_ok g' z →
  seg m p (ent (g', s) z ++ ents (elen (g, s)) es ++ END) → chain_ok (elen (g, s)) es →
  tail_is m (t0 + last_off ((g, s) :: es)) → t0 + esize ((g, s) :: es) < 2 ^ 32 →
  ∃ m', (tail ← zipEntry m p; last ← at_end m (p + headersize tail + len tail);
         if last : bool then mret m else t ← ZIPLIST_TAIL_OFFSET m; set_tail (t + d) m) = Ok m' ∧
    length m' = length m ∧ tail_is m' (t0 + last_off ((g', s) :: es)) ∧
    ∀ r cs, seg m r cs → r + Z.of_nat (length cs) ≤ 4 ∨ 8 ≤ r → seg m' r cs.
Proof.
  intros Hl Hp Ht0 Hd He Hq Hs Hch Ht Hmax. apply seg_app in Hs as [H1 H2]. rewrite length_ent in H2.
  destruct (zipEntry_ok _ _ _ _ H1 Hq He) as (e & -> & _ & _ & _ & Ee & _). cbn [mbind res_bind]. rewrite <- Z.add_assoc, Ee.
  rewrite !last_off_cons in *. destruct es as [|e' es]; cbn [ents app] in H2.
  - rewrite (at_end_ok _ _ H2). cbn [mbind res_bind]. by exists m.
  - destruct Hch as [Hq' _]. rewrite <- app_assoc in H2. apply seg_app in H2 as [H2 _]. rewrite (not_at_end _ _ _ _ H2 Hq'). cbn [mbind res_bind].
    pose proof (last_off_bound (e' :: es)). pose proof (elen_pos (g, s)). cbn [esize] in *.
    rewrite (tail_read _ _ Ht) by lia. cbn [mbind res_bind].
    destruct (set_tail_ok m (t0 + (elen (g, s) + last_off (e' :: es)) + d)) as (m' & -> & El & Ht' & Hk); [lia|].
    exists m'. do 2 (split; [done|]). split; [|done].
    replace (t0 + (elen (g', s) + _)) with (t0 + (elen (g, s) + last_off (e' :: es)) + d); [done|].
    unfold elen; cbn [fst snd]. lia.
Qed.

(** The entries behind [p] begin with [(g, s)]; [m] has been resized. *)
Lemma insert_move_ok m p g s es q z :
  10 ≤ p → 2 ≤ z → let b := p + esize ((g, s) :: es) + 1 in
  Z.of_nat (length m) = b + z + next_diff g z → Z.of_nat (length m) < 2 ^ 32 → b + z < 2 ^ 32 →
  seg m p (ents q ((g, s) :: es)) → chain_ok q ((g, s) :: es) → seg m (Z.of_nat (length m) - 1) END →
  tail_is m (p + last_off ((g, s) :: es)) →
  ∃ m', insert_move m b p z (next_diff g z) (force_large g z) = Ok m' ∧ length m' = length m ∧
    tail_is m' (p + z + last_off ((next_size g z, s) :: es)) ∧
    seg m' (p + z) (ent (next_size g z, s) z ++ ents (elen (g, s)) es ++ END) ∧
    (∀ r cs, seg m r cs → r + Z.of_nat (length cs) ≤ 4 ∨ 8 ≤ r → r + Z.of_nat (length cs) ≤ p → seg m' r cs).
Proof.
  intros Hp Hz b Hl Hmax Hb Hs [Hq Hch] Hend Ht. unfold insert_move. pose proof (esize_nonneg es). pose proof (elen_pos (g, s)).
  pose proof (next_diff_room g z Hz). pose proof (next_size_diff g z) as Hd. pose proof (psize_pos g). pose proof (psize_pos (next_size g z)).
  cbn [esize] in *. subst b. cbn [ents] in Hs. unfold ent in Hs at 1. cbn [fst snd] in Hs. rewrite <- app_assoc in Hs.
  apply seg_app in Hs as [_ Hs]. rewrite length_prev_bytes in Hs.
  assert (Z.of_nat (length (body s ++ ents (elen (g, s)) es)) = elen (g, s) + esize es - psize g) as Hbl
    by (rewrite length_app, Nat2Z.inj_add, length_ents; unfold elen; cbn [fst snd]; lia).
  destruct (memmove_ok m (p + z) (p - next_diff g z) (p + (elen (g, s) + esize es) + 1 - p - 1 + next_diff g z)) as (m1 & -> & El1 & Hmv & Hk1);
    [unfold elen in *; cbn [fst snd] in *; lia|lia..|]. cbn [mbind res_bind].
  rewrite next_store by lia. destruct (wr_ok m1 (p + z) (prev_bytes (next_size g z) z)) as (m2 & -> & El2 & Hs2 & Hk2);
    [lia|rewrite length_prev_bytes; unfold elen in *; cbn [fst snd] in *; pose proof (body_pos s); lia|]. cbn [mbind res_bind].
  assert (∀ r cs, seg m r cs → r + Z.of_nat (length cs) ≤ p + z ∨ Z.of_nat (length m) - 1 ≤ r → seg m2 r cs) as Hk.
  { intros r cs Hc Hr. apply Hk2; [apply Hk1; [done|unfold apart; lia]|]. unfold apart. rewrite length_prev_bytes. unfold elen in *; cbn [fst snd] in *; pose proof (body_pos s). lia. }
  assert (seg m2 (p + z) (ent (next_size g z, s) z ++ ents (elen (g, s)) es ++ END)) as Hs3.
  { unfold ent at 1. cbn [fst snd]. rewrite <- app_assoc. apply seg_app. split; [done|]. rewrite length_prev_bytes, (app_assoc (body s)). apply seg_app. split.
    - apply Hk2; [|right; rewrite length_prev_bytes; lia]. rewrite Hd.
      replace (p + z + (psize g + next_diff g z)) with (p + psize g - (p - next_diff g z) + (p + z)) by lia. apply Hmv; [done|lia|lia].
    - rewrite Hbl. apply Hk; [|lia]. by replace (p + z + psize (next_size g z) + _) with (Z.of_nat (length m) - 1) by lia. }
  pose proof (last_off_bound ((g, s) :: es)). cbn [esize] in *.
  apply (Hk 4) in Ht; [|rewrite length_le_split; lia]. rewrite (tail_read _ _ Ht) by lia. cbn [mbind res_bind].
  destruct (set_tail_ok m2 (p + last_off ((g, s) :: es) + z)) as (m3 & -> & El3 & Ht3 & Hk3); [lia|]. cbn [mbind res_bind].
  destruct (next_tail m3 (p + z) (p + z) g (next_size g z) (next_diff g z) s z es) as (m4 & -> & El4 & Ht4 & Hk4);
    [lia|lia|lia|done|unfold elen in *; cbn [fst snd] in *; lia|apply next_size_ok; lia|apply Hk3; [done|lia]|done| |cbn [esize]; lia|].
  { by replace (p + z + last_off ((g, s) :: es)) with (p + last_off ((g, s) :: es) + z) by lia. }
  exists m4. split; [done|]. split; [lia|]. split; [done|]. split; [apply Hk4; [apply Hk3; [done|lia]|lia]|].
  intros r cs Hc Hr1 Hr2. apply Hk4; [|done]. apply Hk3; [|done]. apply Hk; [done|lia].
Qed.

(** ** Ziplists *)

Record zl_ok m es : Prop := {
  z_len : Z.of_nat (length m) = 10 + esize es + 1;
  z_seg : seg m 10 (ents 0 es ++ END);
  z_chain : chain_ok 0 es;
  z_bytes : bytes_is m (Z.of_nat (length m));
  z_tail : tail_is m (10 + last_off es);
  z_count : ∃ n, count_is m n ∧ 0 ≤ n ≤ UINT16_MAX ∧ (n = Z.of_nat (length es) ∨ n = UINT16_MAX) }.

(** More than the bytes that the strings can take. *)
Definition weight l : Z := 11 + foldr (fun s n => 18 + Z.of_nat (length s) + n) 0 l.

Lemma body_max s : Z.of_nat (length (body s)) ≤ 9 + Z.of_nat (length s).
Proof.
  unfold body. destruct (zipTryEncoding s) as [[v enc]|] eqn:E.
  - apply zipTryEncoding_Some in E as (_ & _ & Hs & Hn & _). cbn [length].
    revert Hn. unfold zipIntSize. repeat (destruct (_ =? _); [intros [= ?]; lia|]). destruct (_ && _); [intros [= ?]; lia|done].
  - rewrite length_app, string_head by lia. destruct (_ <=? 63); [cbn; lia|]. destruct (_ <=? 16383); cbn; lia.
Qed.
Lemma weight_app l1 l2 : weight (l1 ++ l2) = weight l1 + weight l2 - 11.
Proof. unfold weight. induction l1; cbn in *; lia. Qed.
Lemma weight_cons s l : weight (s :: l) = 18 + Z.of_nat (length s) + weight l.
Proof. unfold weight. cbn. lia. Qed.
Lemma esize_weight es : 11 + esize es + 4 * Z.of_nat (length es) ≤ weight es.*2.
Proof.
  induction es as [|e es IH]; [done|]. cbn [fmap list_fmap esize length]. rewrite weight_cons. unfold elen. pose proof (psize_pos e.1). pose proof (body_max e.2). lia.
Qed.

(** Room of [z] bytes at [p], before the strings [l]. *)
Definition has_room m m' (p z : Z) l es : Prop :=
  es.*2 = l ∧ chain_ok z es ∧ Z.of_nat (length m') = p + z + esize es + 1 ∧ seg m' (p + z) (ents z es ++ END) ∧
  bytes_is m' (Z.of_nat (length m')) ∧ tail_is m' (match es with [] => p | _ => p + z + last_off es end) ∧ keeps m m' p.

Lemma room_end m es z :
  zl_ok m es → 2 ≤ z → Z.of_nat (length m) + z < 2 ^ 32 →
  ∃ m', insert_room m (Z.of_nat (length m)) (10 + esize es) z 0 false = Ok m' ∧ has_room m m' (10 + esize es) z [] [].
Proof.
  intros [Hl Hs Hch Hb Ht Hn] Hz Hmax. pose proof (esize_nonneg es). unfold insert_room. rewrite Z.add_0_r.
  destruct (zl_resize_ok m (Z.of_nat (length m) + z)) as (m1 & -> & El1 & Hb1 & Hend1 & Hk1); [lia|]. cbn [mbind res_bind].
  apply seg_app in Hs as [_ Hs]. rewrite length_ents in Hs. apply Hk1 in Hs; [|lia|cbn; lia]. rewrite (at_end_ok _ _ Hs). cbn [mbind res_bind negb].
  destruct (set_tail_ok m1 (10 + esize es)) as (m2 & -> & El2 & Ht2 & Hk2); [lia|]. cbn [mbind res_bind]. rewrite Z.eqb_refl.
  exists m2. split; [done|]. unfold has_room. rewrite El2, El1. cbn [esize ents app chain_ok]. split_and!; try done; [lia| | |].
  - apply Hk2; [|lia]. by replace (10 + esize es + z) with (Z.of_nat (length m) + z - 1) by lia.
  - apply Hk2; [done|]. rewrite length_le_split. lia.
  - intros r cs Hc Hr Hr2. apply Hk2; [|lia]. apply Hk1; [done|lia|lia].
Qed.

Lemma room_inside m es1 g s es z :
  zl_ok m (es1 ++ (g, s) :: es) → 2 ≤ z → Z.of_nat (length m) + z + 4 + 4 * Z.of_nat (length es) < 2 ^ 32 →
  ∃ m' es', insert_room m (Z.of_nat (length m)) (10 + esize es1) z (next_diff g z) (force_large g z) = Ok m' ∧
    has_room m m' (10 + esize es1) z (s :: es.*2) es'.
Proof.
  intros [Hl Hs Hch Hb Ht Hn] Hz Hmax. pose proof (esize_nonneg es1). pose proof (esize_nonneg es). pose proof (elen_pos (g, s)).
  pose proof (next_diff_room g z Hz). pose proof (next_size_diff g z) as Hd. rewrite esize_app in Hl. apply chain_app in Hch as [_ Hch]. unfold insert_room. cbn [esize] in Hl.
  destruct (zl_resize_ok m (Z.of_nat (length m) + z + next_diff g z)) as (m1 & -> & El1 & Hb1 & Hend1 & Hk1); [lia|]. cbn [mbind res_bind].
  rewrite ents_app, <- app_assoc in Hs. apply seg_app in Hs as [_ Hs]. rewrite length_ents in Hs. apply seg_app in Hs as [Hs _].
  rewrite last_off_app, Z.add_assoc in Ht by done. set (p := 10 + esize es1) in *.
  apply Hk1 in Hs; [|lia|rewrite length_ents; cbn [esize]; lia]. apply Hk1 in Ht; [|lia|rewrite length_le_split; lia].
  assert (Hs' := Hs). apply seg_app in Hs' as [Hs' _]. rewrite (not_at_end _ _ _ _ Hs' (proj1 Hch)). cbn [mbind res_bind negb].
  replace (Z.of_nat (length m)) with (p + esize ((g, s) :: es) + 1) by (cbn [esize]; lia).
  destruct (insert_move_ok m1 p g s es (prev_of 0 es1) z) as (m2 & -> & El2 & Ht2 & Hs2 & Hk2); cbn [esize]; try done; [lia..|by rewrite El1|]. cbn [mbind res_bind].
  assert (prev_ok (next_size g z) z) as Hq by (apply next_size_ok; lia).
  assert (elen (next_size g z, s) = elen (g, s) + next_diff g z) as Hel by (unfold elen; cbn [fst snd]; lia).
  assert (bytes_is m2 (Z.of_nat (length m2))) as Hb2 by (rewrite El2, El1; apply Hk2; [done|rewrite length_le_split; lia..]).
  assert (keeps m m2 p) as Hkp by (intros r cs Hc Hr Hr2; apply Hk2; [apply Hk1; [done|lia|lia]|lia|lia]).
  destruct (Z.eqb_spec (next_diff g z) 0) as [E0|E0].
  - exists m2, ((next_size g z, s) :: es). split; [done|]. unfold has_room. cbn [fmap list_fmap chain_ok ents esize]. rewrite <- app_assoc.
    rewrite Hel, E0, Z.add_0_r. split_and!; try done; [by destruct Hch|lia].
  - destruct (cascade_update m2 (p + z) (next_size g z, s) z (elen (g, s)) es) as (m3 & es3 & -> & F); try done; [lia|by destruct Hch|lia|lia|].
    apply seg_app in Hs2 as [Hs2 _]. destruct (fixed_chain _ _ _ _ _ _ _ F Hs2 Hq) as (G1 & G2 & G3 & G4 & G5 & G6 & G7); [lia|].
    exists m3, ((next_size g z, s) :: es3). split; [done|]. unfold has_room. split_and!; try done.
    apply (zkeeps_trans _ m2); [done|by apply (keeps_le _ _ _ _ G7); lia].
Qed.

(** *** Inserting *)

Lemma insert_prevlen_ok m es1 es2 :
  zl_ok m (es1 ++ es2) → Z.of_nat (length m) < 2 ^ 32 →
  insert_prevlen m (10 + esize es1) = Ok (prev_of 0 es1) ∧
  at_end m (10 + esize es1) = Ok (match es2 with [] => true | _ => false end).
Proof.
  intros [Hl Hs Hch Hb Ht Hn] Hmax. unfold insert_prevlen. apply chain_app in Hch as [Hch1 Hch].
  rewrite ents_app, <- app_assoc in Hs. assert (Hs' := Hs). apply seg_app in Hs' as [_ Hs2]. rewrite length_ents in Hs2.
  rewrite esize_app in Hl. pose proof (esize_nonneg es1). pose proof (esize_nonneg es2). destruct es2 as [|e es2]; cbn [ents app] in Hs2.
  - rewrite (at_end_ok _ _ Hs2). cbn [mbind res_bind negb]. split; [|done]. rewrite app_nil_r in Ht. unfold ZIPLIST_ENTRY_TAIL.
    destruct es1 as [|e es1 _] using rev_ind.
    + change (10 + last_off []) with 10 in Ht. rewrite (tail_read _ _ Ht) by lia. cbn [mbind res_bind].
      by rewrite (at_end_ok m 10 Hs2).
    + rewrite last_off_snoc in Ht. rewrite esize_app in *. cbn [esize] in *. pose proof (elen_pos e). pose proof (esize_nonneg es1).
      rewrite (tail_read _ _ Ht) by lia. cbn [mbind res_bind].
      rewrite ents_app, <- app_assoc in Hs. apply seg_app in Hs as [_ Hs]. rewrite length_ents in Hs. apply seg_app in Hs as [Hs _].
      cbn [ents] in Hs. rewrite app_nil_r in Hs. apply chain_app in Hch1 as [_ [Hq _]].
      rewrite (not_at_end _ _ _ _ Hs Hq). cbn [mbind res_bind]. rewrite (raw_ok _ _ _ _ Hs Hq) by lia. by rewrite prev_of_app.
  - rewrite <- app_assoc in Hs2. apply seg_app in Hs2 as [Hs2 _]. destruct Hch as [Hq _]. rewrite (not_at_end _ _ _ _ Hs2 Hq). cbn [mbind res_bind negb].
    split; [|done]. apply seg_app in Hs2 as [Hs2 _]. destruct (prev_read _ _ _ _ Hs2 Hq) as (_ & -> & _). done.
Qed.

(** What [__ziplistInsert] makes of the string. *)
Definition encoded s (v enc : Z) : Prop :=
  match zipTryEncoding s with Some (v', e) => v = v' ∧ enc = e | None => enc = 0 end.

Lemma encoded_body s v enc : encoded s v enc →
  ∃ pl, body s = zipStoreEntryEncoding enc (Z.of_nat (length s)) ++ pl ∧
    ∀ m p, (if ZIP_IS_STR enc then wr m p s else bs ← zipSaveInteger v enc; wr m p bs) = wr m p pl.
Proof.
  unfold encoded, body. destruct (zipTryEncoding s) as [[v' e]|] eqn:E.
  - intros [-> ->]. apply zipTryEncoding_Some in E as (_ & _ & Hs & _ & He & _). pose proof (int_not_str _ He) as Hi.
    exists (int_bytes v' e). unfold zipStoreEntryEncoding. rewrite Hi. split; [done|]. intros m p. by rewrite Hs.
  - intros ->. exists s. done.
Qed.

Lemma write_entry_ok m p q s v enc :
  0 ≤ p → encoded s v enc → 0 ≤ q < 2 ^ 32 → p + elen (254 <=? q, s) ≤ Z.of_nat (length m) →
  ∃ m', write_entry m p q enc v s = Ok m' ∧ length m' = length m ∧ seg m' p (ent (254 <=? q, s) q) ∧
    ∀ r cs, seg m r cs → r + Z.of_nat (length cs) ≤ p ∨ p + elen (254 <=? q, s) ≤ r → seg m' r cs.
Proof.
  intros Hp He Hq Hl. destruct (encoded_body _ _ _ He) as (pl & Eb & Epl). unfold write_entry. rewrite prev_store_eq by done.
  unfold elen in *. cbn [fst snd] in *. rewrite Eb, length_app in *. pose proof (psize_pos (254 <=? q)).
  destruct (wr_ok m p (prev_bytes (254 <=? q) q)) as (m1 & -> & El1 & Hs1 & Hk1); [done|rewrite length_prev_bytes; lia|].
  cbn [mbind res_bind]. rewrite length_prev_bytes in *.
  destruct (wr_ok m1 (p + psize (254 <=? q)) (zipStoreEntryEncoding enc (Z.of_nat (length s)))) as (m2 & -> & El2 & Hs2 & Hk2); [lia|lia|].
  cbn [mbind res_bind]. rewrite Epl.
  destruct (wr_ok m2 (p + psize (254 <=? q) + Z.of_nat (length (zipStoreEntryEncoding enc (Z.of_nat (length s))))) pl) as (m3 & -> & El3 & Hs3 & Hk3); [lia|lia|].
  exists m3. split; [done|]. split; [lia|]. split.
  - unfold ent. cbn [fst snd]. rewrite Eb. apply seg_app. rewrite length_prev_bytes. split; [|apply seg_app; split; [|done]].
    + apply Hk3; [|left; rewrite length_prev_bytes; lia]. apply Hk2; [done|]. left. rewrite length_prev_bytes. lia.
    + apply Hk3; [done|]. left. lia.
  - intros r cs Hc Hr. unfold apart in *. pose proof (length_prev_bytes (254 <=? q) q). apply Hk3; [apply Hk2; [apply Hk1; [done|]|]|]; unfold apart; lia.
Qed.

Lemma reqlen_ok s q : 0 ≤ q < 2 ^ 32 →
  ∃ v enc n, match zipTryEncoding s with
             | Some (value, enc) => n ← zipIntSize enc; mret (value, enc, n)
             | None => mret (123456789, 0, Z.of_nat (length s))
             end = Ok (v, enc, n) ∧ encoded s v enc ∧
    n + prev_size q + Z.of_nat (length (zipStoreEntryEncoding enc (Z.of_nat (length s)))) = elen (254 <=? q, s).
Proof.
  intros Hq. unfold encoded, elen, body. rewrite prev_size_eq by done. cbn [fst snd]. destruct (zipTryEncoding s) as [[v e]|] eqn:E.
  - apply zipTryEncoding_Some in E as (_ & _ & Hs & Hn & He & _). rewrite Hn. cbn [mbind res_bind].
    eexists _, _, _. split; [done|]. split; [done|]. unfold zipStoreEntryEncoding. rewrite (int_not_str _ He). cbn [length]. lia.
  - eexists _, _, _. split; [done|]. split; [done|]. rewrite length_app. lia.
Qed.

Lemma incr_ok m n (k n' : Z) :
  count_is m n → 10 ≤ Z.of_nat (length m) → 0 ≤ n ≤ UINT16_MAX → n = n' ∨ n = UINT16_MAX → k ≤ 1 → 0 ≤ n' + k →
  ∃ m', ZIPLIST_INCR_LENGTH k m = Ok m' ∧ length m' = length m ∧
    (∃ n2, count_is m' n2 ∧ 0 ≤ n2 ≤ UINT16_MAX ∧ (n2 = n' + k ∨ n2 = UINT16_MAX)) ∧
    ∀ r cs, seg m r cs → r + Z.of_nat (length cs) ≤ 8 ∨ 10 ≤ r → seg m' r cs.
Proof.
  unfold UINT16_MAX. intros Hn Hl Hr Hd Hk H0. unfold ZIPLIST_INCR_LENGTH, UINT16_MAX. rewrite (count_read _ _ Hn) by lia. cbn [mbind res_bind].
  destruct (Z.ltb_spec n 65535).
  - destruct (wr_ok m 8 (le_split 2 (n + k))) as (m' & E & El & Hs & Hf); [done|rewrite length_le_split; lia|].
    exists m'. split; [done|]. split; [done|]. split; [exists (n + k); split; [done|lia]|].
    intros r cs Hc Hr'. apply Hf; [done|]. unfold apart. rewrite length_le_split. lia.
  - exists m. split; [done|]. split; [done|]. split; [exists n; split; [done|lia]|]. done.
Qed.

(** The room is filled. *)
Lemma fill_room m m1 es1 l2 es2 s v enc n :
  seg m 10 (ents 0 es1) → chain_ok 0 es1 → 0 ≤ prev_of 0 es1 < 2 ^ 32 → encoded s v enc →
  count_is m n → 0 ≤ n ≤ UINT16_MAX → n = Z.of_nat (length es1 + length es2) ∨ n = UINT16_MAX →
  has_room m m1 (10 + esize es1) (elen (254 <=? prev_of 0 es1, s)) l2 es2 →
  ∃ m', (m ← write_entry m1 (10 + esize es1) (prev_of 0 es1) enc v s; ZIPLIST_INCR_LENGTH 1 m) = Ok m' ∧
    zl_ok m' (es1 ++ (254 <=? prev_of 0 es1, s) :: es2).
Proof.
  intros Hs1 Hch Hq He Hn Hnr Hnd (R1 & R2 & R3 & R4 & R5 & R6 & R7). set (e := (254 <=? prev_of 0 es1, s)) in *.
  pose proof (esize_nonneg es1). pose proof (esize_nonneg es2). pose proof (elen_pos e).
  destruct (write_entry_ok m1 (10 + esize es1) (prev_of 0 es1) s v enc) as (m2 & -> & El2 & Hs2 & Hk2); [lia|done|done|fold e; lia|]. fold e in Hs2, Hk2. cbn [mbind res_bind].
  assert (seg m1 10 (ents 0 es1)) as Hs1' by (apply R7; [done|lia|rewrite length_ents; lia]).
  assert (count_is m1 n) as Hn1 by (apply R7; [done|lia|rewrite length_le_split; lia]).
  assert (count_is m2 n) as Hn2 by (apply Hk2; [done|rewrite length_le_split; lia]).
  destruct (incr_ok m2 n 1 (Z.of_nat (length es1 + length es2)) Hn2) as (m3 & -> & El3 & Hn3 & Hk3); [lia|done|done|lia|lia|].
  exists m3. split; [done|]. assert (∀ r cs, seg m1 r cs → r + Z.of_nat (length cs) ≤ 10 + esize es1 ∨ 10 + esize es1 + elen e ≤ r →
    r + Z.of_nat (length cs) ≤ 8 ∨ 10 ≤ r → seg m3 r cs) as Hk by (intros; apply Hk3; [by apply Hk2|lia]).
  split.
  - rewrite esize_app. cbn [esize]. lia.
  - rewrite ents_app, <- app_assoc. apply seg_app. rewrite length_ents. split; [apply Hk; [done|rewrite length_ents; lia|lia]|].
    cbn [ents]. rewrite <- app_assoc. apply seg_app. rewrite length_ent. split; [apply Hk3; [done|lia]|]. apply Hk; [done|lia|lia].
  - apply chain_app. split; [done|]. split; [by apply prev_ok_need|done].
  - rewrite El3, El2. apply Hk; [done|rewrite length_le_split; lia..].
  - rewrite last_off_app, last_off_cons by done. apply Hk; [|rewrite length_le_split; lia..].
    destruct es2; [by rewrite Z.add_0_r|]. by rewrite !Z.add_assoc.
  - destruct Hn3 as (n2 & ? & ? & ?). exists n2. split; [done|]. split; [done|]. rewrite length_app. cbn [length]. lia.
Qed.

Lemma prev_of_bound q es : 0 ≤ q → 0 ≤ prev_of q es ≤ q + esize es.
Proof.
  revert q. induction es as [|e es IH]; intros q Hq; cbn; [lia|]. pose proof (elen_pos e). specialize (IH (elen e)). lia.
Qed.

Theorem insert_ok m es1 es2 s :
  zl_ok m (es1 ++ es2) → weight (es1.*2 ++ s :: es2.*2) < 2 ^ 32 →
  ∃ m' es2', __ziplistInsert m (10 + esize es1) s = Ok m' ∧ es2'.*2 = es2.*2 ∧
    zl_ok m' (es1 ++ (254 <=? prev_of 0 es1, s) :: es2').
Proof.
  intros Hz Ht. rewrite weight_app, weight_cons in Ht. pose proof (esize_weight es1). pose proof (esize_weight es2). pose proof (esize_nonneg es1). pose proof (esize_nonneg es2).
  pose proof (z_len _ _ Hz) as Hl. rewrite esize_app in Hl. pose proof (prev_of_bound 0 es1 ltac:(lia)).
  assert (elen (254 <=? prev_of 0 es1, s) ≤ 14 + Z.of_nat (length s)) as Hel.
  { unfold elen. cbn [fst snd]. pose proof (body_max s). pose proof (psize_pos (254 <=? prev_of 0 es1)). lia. }
  pose proof (elen_pos (254 <=? prev_of 0 es1, s)) as Hpos. unfold __ziplistInsert. rewrite (bytes_read _ _ (z_bytes _ _ Hz)) by lia. cbn [mbind res_bind].
  destruct (insert_prevlen_ok _ _ _ Hz) as [-> Hend]; [lia|]. cbn [mbind res_bind].
  destruct (reqlen_ok s (prev_of 0 es1)) as (v & enc & n & -> & He & Ereq); [lia|]. cbn [mbind res_bind]. rewrite Ereq, Hend. cbn [mbind res_bind].
  set (z := elen (254 <=? prev_of 0 es1, s)) in *.
  assert (∃ d f m1 es2', (if negb match es2 with [] => true | _ => false end then zipPrevLenByteDiff m (10 + esize es1) z else mret 0) = Ok d ∧
    insert_room m (Z.of_nat (length m)) (10 + esize es1) z (if (d =? -4) && (z <? 4) then 0 else d) f = Ok m1 ∧ f = ((d =? -4) && (z <? 4)) ∧
    has_room m m1 (10 + esize es1) z es2.*2 es2') as (d & f & m1 & es2' & -> & Er & -> & Hroom).
  { destruct es2 as [|[g s2] es2]; cbn [negb].
    - rewrite app_nil_r in Hz. destruct (room_end m es1 z Hz) as (m1 & E & Hr); [lia|lia|]. by exists 0, false, m1, [].
    - destruct (room_inside m es1 g s2 es2 z Hz) as (m1 & es2' & E & Hr); [lia|cbn [length] in *; lia|].
      exists (psize (254 <=? z) - psize g), (force_large g z), m1, es2'. split; [|split; [exact E|split; [done|exact Hr]]].
      destruct Hz as [_ Hs Hch _ _ _]. apply chain_app in Hch as [_ [Hq _]]. rewrite ents_app, <- app_assoc in Hs. apply seg_app in Hs as [_ Hs].
      rewrite length_ents in Hs. cbn [ents] in Hs. rewrite <- app_assoc in Hs. apply seg_app in Hs as [Hs _]. apply seg_app in Hs as [Hs _].
      unfold zipPrevLenByteDiff. destruct (prev_read _ _ _ _ Hs Hq) as (-> & _). cbn [mbind res_bind]. by rewrite prev_size_eq by lia. }
  cbn [mbind res_bind]. rewrite Er. cbn [mbind res_bind]. destruct (z_count _ _ Hz) as (n0 & Hn & Hnr & Hnd).
  destruct (fill_room m m1 es1 es2.*2 es2' s v enc n0) as (m' & -> & Hok); try done.
  - pose proof (z_seg _ _ Hz) as Hs. rewrite ents_app, <- app_assoc in Hs. by apply seg_app in Hs as [Hs _].
  - pose proof (z_chain _ _ Hz) as Hc. by apply chain_app in Hc as [Hc _].
  - lia.
  - destruct Hroom as [Hf _]. apply (f_equal length) in Hf. rewrite !length_fmap in Hf. by rewrite length_app, <- Hf in Hnd.
  - exists m', es2'. split; [done|]. split; [by destruct Hroom|done].
Qed.

(** *** Deleting *)

Lemma delete_walk_ok fuel m p q es i num :
  (length es < fuel)%nat → seg m p (ents q es ++ END) → chain_ok q es → esize es < 2 ^ 32 → i ≤ num →
  delete_walk fuel m p i num = Ok (p + esize (take (Z.to_nat (num - i)) es), i + Z.of_nat (length (take (Z.to_nat (num - i)) es))).
Proof.
  revert p q es i. induction fuel as [|fuel IH]; intros p q es i Hf Hs Hch Hmax Hi; [lia|]. cbn [delete_walk].
  destruct es as [|e es]; cbn [ents chain_ok app length esize] in *.
  - rewrite (at_end_ok _ _ Hs), take_nil. cbn [mbind res_bind]. unfold mret, res_ret. do 2 f_equal; cbn; lia.
  - rewrite <- app_assoc in Hs. apply seg_app in Hs as [Hs Hs2]. rewrite length_ent in Hs2. destruct Hch as [Hq Hch].
    rewrite (not_at_end _ _ _ _ Hs Hq). cbn [mbind res_bind]. pose proof (elen_pos e). pose proof (esize_nonneg es).
    destruct (Z.ltb_spec i num).
    + rewrite (raw_ok _ _ _ _ Hs Hq) by lia. cbn [mbind res_bind]. rewrite (IH _ (elen e) es) by (done || lia).
      replace (Z.to_nat (num - i)) with (S (Z.to_nat (num - (i + 1)))) by lia. cbn [take esize length]. do 2 f_equal; lia.
    + replace (Z.to_nat (num - i)) with 0%nat by lia. cbn. unfold mret, res_ret. do 2 f_equal; lia.
Qed.

Lemma last_off_prev es : last_off es = esize es - prev_of 0 es.
Proof.
  destruct es as [|e es _] using rev_ind; [done|]. rewrite last_off_snoc, esize_app, prev_of_app. cbn. lia.
Qed.

Lemma delete_move_ok m p q d g s es :
  10 ≤ p → d ≠ [] → let b := p + esize d + esize ((g, s) :: es) + 1 in
  Z.of_nat (length m) = b → b < 2 ^ 32 → 0 ≤ q → chain_ok q (d ++ (g, s) :: es) →
  seg m p (ents q (d ++ (g, s) :: es) ++ END) → bytes_is m b → tail_is m (p + last_off (d ++ (g, s) :: es)) →
  let g' := 254 <=? q in let nd := psize g' - psize g in
  ∃ m', delete_move m p q (p + esize d) (esize d) = Ok (m', nd) ∧ length m' = length m ∧ bytes_is m' b ∧
    tail_is m' (p + last_off ((g', s) :: es)) ∧ seg m' p (ent (g', s) q ++ ents (elen (g, s)) es) ∧ keeps m m' p ∧
    0 ≤ esize d - nd.
Proof.
  intros Hp Hd b Hl Hmax Hq0 Hch Hs Hb Ht g' nd. unfold delete_move. cbn [esize] in b. subst b.
  pose proof (esize_nonneg es). pose proof (esize_nonneg d). pose proof (psize_pos g). pose proof (body_pos s).
  assert (elen (g, s) = psize g + Z.of_nat (length (body s))) as Eel by done.
  assert (0 ≤ q < 2 ^ 32) as Hq by (destruct d as [|e d]; [done|]; destruct Hch as [Hc _]; split; [done|]; destruct (prev_ok_large _ _ Hc); done).
  assert (psize g' + 1 ≤ esize d) as Hroom.
  { destruct d as [|e d]; [done|]. destruct Hch as [Hc _]. cbn [esize]. pose proof (esize_nonneg d). unfold elen. pose proof (body_pos e.2).
    unfold prev_ok, ZIP_BIG_PREVLEN in Hc. subst g'. destruct e.1, (Z.leb_spec 254 q); cbn [psize]; lia. }
  assert (prev_ok g' q) as Hq' by (by apply prev_ok_need). pose proof (psize_pos g').
  apply chain_app in Hch as [_ [Hgq Hch]]. cbn [fst] in Hgq. rewrite last_off_app in Ht by done.
  rewrite ents_app, <- app_assoc in Hs. apply seg_app in Hs as [_ Hs]. rewrite length_ents in Hs. cbn [ents] in Hs. rewrite <- app_assoc in Hs.
  unfold ent in Hs at 1. rewrite <- app_assoc in Hs. apply seg_app in Hs as [Hs1 Hs2]. rewrite length_prev_bytes in Hs2. cbn [fst snd] in Hs1, Hs2.
  unfold zipPrevLenByteDiff. destruct (prev_read _ _ _ _ Hs1 Hgq) as (-> & _). cbn [mbind res_bind]. rewrite prev_size_eq, prev_store_eq by done. fold g'. unfold mret, res_ret. cbn [mbind res_bind]. fold nd.
  destruct (wr_ok m (p + esize d - nd) (prev_bytes g' q)) as (m1 & -> & El1 & Hw1 & Hk1); [lia|rewrite length_prev_bytes; lia|]. cbn [mbind res_bind].
  assert (∀ r cs, seg m r cs → r + Z.of_nat (length cs) ≤ p ∨ p + esize d + psize g ≤ r → seg m1 r cs) as Hk.
  { intros r cs Hc Hr. apply Hk1; [done|]. unfold apart. rewrite length_prev_bytes. subst nd. lia. }
  pose proof (last_off_bound ((g, s) :: es)). cbn [esize] in *.
  rewrite (tail_read m1 (p + (esize d + last_off ((g, s) :: es)))) by (lia || (apply Hk; [done|rewrite length_le_split; lia])). cbn [mbind res_bind].
  destruct (set_tail_ok m1 (p + (esize d + last_off ((g, s) :: es)) - esize d)) as (m2 & -> & El2 & Ht2 & Hk2); [lia|]. cbn [mbind res_bind].
  assert (seg m2 (p + esize d - nd) (ent (g', s) q ++ ents (elen (g, s)) es ++ END)) as Hs3.
  { apply Hk2; [|lia]. unfold ent at 1. cbn [fst snd]. rewrite <- app_assoc. apply seg_app. split; [done|]. rewrite length_prev_bytes.
    replace (p + esize d - nd + psize g') with (p + esize d + psize g) by lia. apply Hk; [done|lia]. }
  destruct (next_tail m2 (p + esize d - nd) p g g' nd s q es) as (m3 & E3 & El3 & Ht3 & Hk3);
    [lia|lia|lia|lia|unfold elen in *; cbn [fst snd] in *; lia|done|done|done| |cbn [esize]; lia|].
  { by replace (p + last_off ((g, s) :: es)) with (p + (esize d + last_off ((g, s) :: es)) - esize d) by lia. }
  unfold mret, res_ret in E3. rewrite E3. cbn [mbind res_bind].
  assert (bytes_is m3 (p + esize d + (elen (g, s) + esize es) + 1)) as Hb3.
  { apply Hk3; [apply Hk2; [apply Hk; [done|]|]|]; rewrite length_le_split; lia. }
  rewrite (bytes_read _ _ Hb3) by lia. cbn [mbind res_bind].
  destruct (memmove_ok m3 p (p + esize d - nd) (p + esize d + (elen (g, s) + esize es) + 1 - (p + esize d - nd) - 1)) as (m4 & -> & El4 & Hmv & Hk4);
    [unfold elen in *; cbn [fst snd] in *; lia|lia..|]. cbn [mbind res_bind].
  exists m4. split; [done|]. split; [lia|]. split; [|split; [|split; [|split; [|lia]]]].
  - apply Hk4; [done|]. left. rewrite length_le_split. lia.
  - apply Hk4; [done|]. left. rewrite length_le_split. lia.
  - rewrite (app_assoc (ent _ _)) in Hs3. apply seg_app in Hs3 as [Hs3 _].
    replace p with (p + esize d - nd - (p + esize d - nd) + p) by lia. apply Hmv; [apply Hk3; [done|lia]|lia|].
    rewrite length_app, Nat2Z.inj_add, length_ent, length_ents. unfold elen. cbn [fst snd]. lia.
  - intros r cs Hc Hr Hr2. apply Hk4; [|left; lia]. apply Hk3; [|lia]. apply Hk2; [|lia]. apply Hk; [done|lia].
Qed.

(** [resize], and the count: the fields are kept or set. *)
Lemma shrink_ok m z n k n' :
  11 ≤ z < 2 ^ 32 → count_is m n → 0 ≤ n ≤ UINT16_MAX → n = n' ∨ n = UINT16_MAX → k ≤ 1 → 0 ≤ n' + k →
  ∃ m', (m ← ziplistResize m z; ZIPLIST_INCR_LENGTH k m) = Ok m' ∧ Z.of_nat (length m') = z ∧ bytes_is m' z ∧ seg m' (z - 1) END ∧
    (∃ n2, count_is m' n2 ∧ 0 ≤ n2 ≤ UINT16_MAX ∧ (n2 = n' + k ∨ n2 = UINT16_MAX)) ∧
    ∀ r cs, seg m r cs → 4 ≤ r → r + Z.of_nat (length cs) ≤ 8 ∨ 10 ≤ r → r + Z.of_nat (length cs) ≤ z - 1 → seg m' r cs.
Proof.
  intros Hz Hn Hr Hd Hk H0. destruct (zl_resize_ok m z Hz) as (m1 & -> & El1 & Hb1 & He1 & Hk1). cbn [mbind res_bind].
  destruct (incr_ok m1 n k n') as (m2 & -> & El2 & Hn2 & Hk2); try done; [apply Hk1; [done|lia|rewrite length_le_split; lia]|lia|].
  exists m2. split; [done|]. split; [lia|]. split; [apply Hk2; [done|rewrite length_le_split; lia]|].
  split; [apply Hk2; [done|lia]|]. split; [done|]. intros r cs Hc H1 H2 H3. apply Hk2; [|lia]. by apply Hk1.
Qed.

Lemma delete_tail_ok m es1 d :
  zl_ok m (es1 ++ d) → Z.of_nat (length m) < 2 ^ 32 →
  ∃ m', (m ← set_tail (10 + esize es1 - prev_of 0 es1) m; b ← ZIPLIST_BYTES m; m ← ziplistResize m (b - esize d);
         ZIPLIST_INCR_LENGTH (- Z.of_nat (length d)) m) = Ok m' ∧ zl_ok m' es1.
Proof.
  intros [Hl Hs Hch Hb Ht (n & Hn & Hnr & Hnd)] Hmax. rewrite esize_app in Hl. pose proof (esize_nonneg es1). pose proof (esize_nonneg d).
  destruct (set_tail_ok m (10 + esize es1 - prev_of 0 es1)) as (m1 & -> & El1 & Ht1 & Hk1); [lia|]. cbn [mbind res_bind].
  rewrite (bytes_read m1 (Z.of_nat (length m))) by (lia || (apply Hk1; [done|rewrite length_le_split; lia])). cbn [mbind res_bind].
  assert (count_is m1 n) as Hn1 by (apply Hk1; [done|lia]). rewrite length_app, Nat2Z.inj_add in Hnd.
  destruct (shrink_ok m1 (Z.of_nat (length m) - esize d) n (- Z.of_nat (length d)) (Z.of_nat (length es1) + Z.of_nat (length d))) as (m2 & -> & El2 & Hb2 & He2 & Hn2 & Hk2);
    [lia|done|done|done|lia|lia|]. exists m2. split; [done|]. rewrite ents_app, <- app_assoc in Hs. apply seg_app in Hs as [Hs _].
  apply chain_app in Hch as [Hch _]. split; [lia| |done|by rewrite El2| |].
  - apply seg_app. rewrite length_ents. split; [apply Hk2; [apply Hk1; [done|lia]|lia|lia|rewrite length_ents; lia]|].
    by replace (10 + esize es1) with (Z.of_nat (length m) - esize d - 1) by lia.
  - rewrite last_off_prev. apply Hk2; [|rewrite ?length_le_split; lia..]. by replace (10 + (esize es1 - prev_of 0 es1)) with (10 + esize es1 - prev_of 0 es1) by lia.
  - destruct Hn2 as (n2 & ? & ? & ?). exists n2. split; [done|]. split; [done|]. lia.
Qed.

Lemma assemble m es1 es2 :
  chain_ok 0 es1 → chain_ok (prev_of 0 es1) es2 → es2 ≠ [] → Z.of_nat (length m) = 10 + esize es1 + esize es2 + 1 →
  seg m 10 (ents 0 es1) → seg m (10 + esize es1) (ents (prev_of 0 es1) es2 ++ END) →
  bytes_is m (Z.of_nat (length m)) → tail_is m (10 + esize es1 + last_off es2) →
  (∃ n, count_is m n ∧ 0 ≤ n ≤ UINT16_MAX ∧ (n = Z.of_nat (length es1 + length es2) ∨ n = UINT16_MAX)) → zl_ok m (es1 ++ es2).
Proof.
  intros H1 H2 Hne Hl Hs1 Hs2 Hb Ht Hn. split; [rewrite esize_app; lia| | |done| |by rewrite length_app].
  - rewrite ents_app, <- app_assoc. apply seg_app. by rewrite length_ents.
  - by apply chain_app.
  - rewrite last_off_app by done. by rewrite Z.add_assoc.
Qed.

Lemma delete_mid_ok m es1 d g s es :
  zl_ok m (es1 ++ d ++ (g, s) :: es) → d ≠ [] → Z.of_nat (length m) + 4 * Z.of_nat (length es) + 4 < 2 ^ 32 →
  ∃ m' es', ('(m, nextdiff) ← delete_move m (10 + esize es1) (prev_of 0 es1) (10 + esize es1 + esize d) (esize d);
             b ← ZIPLIST_BYTES m; m ← ziplistResize m (b - esize d + nextdiff); m ← ZIPLIST_INCR_LENGTH (- Z.of_nat (length d)) m;
             if nextdiff =? 0 then mret m else __ziplistCascadeUpdate m (10 + esize es1)) = Ok m' ∧
    es'.*2 = s :: es.*2 ∧ zl_ok m' (es1 ++ es').
Proof.
  intros [Hl Hs Hch Hb Ht (n & Hn & Hnr & Hnd)] Hd Hmax. rewrite !esize_app in Hl. pose proof (esize_nonneg es1). pose proof (esize_nonneg d).
  pose proof (esize_nonneg es). pose proof (body_pos s). apply chain_app in Hch as [Hch1 Hch]. rewrite ents_app, <- app_assoc in Hs. apply seg_app in Hs as [Hs1 Hs]. rewrite length_ents in Hs.
  rewrite last_off_app, Z.add_assoc in Ht by (by destruct d). pose proof (prev_of_bound 0 es1 ltac:(lia)). set (p := 10 + esize es1) in *. set (q := prev_of 0 es1) in *.
  rewrite Hl in Hb. assert (10 + (esize es1 + (esize d + esize ((g, s) :: es))) + 1 = p + esize d + esize ((g, s) :: es) + 1) as El by lia. rewrite El in *.
  destruct (delete_move_ok m p q d g s es) as (m1 & -> & El1 & Hb1 & Ht1 & Hsm & Hk1 & Hnn); try done; [lia..|]. cbn [mbind res_bind].
  set (g' := 254 <=? q) in *. set (nd := psize g' - psize g) in *. pose proof (psize_pos g'). pose proof (psize_pos g).
  rewrite (bytes_read _ _ Hb1) by lia. cbn [mbind res_bind].
  assert (count_is m1 n) as Hn1 by (apply Hk1; [done|lia|rewrite length_le_split; lia]).
  cbn [esize] in *. assert (elen (g', s) = elen (g, s) + nd) as Eel by (unfold elen; cbn [fst snd]; lia).
  assert (elen (g, s) = psize g + Z.of_nat (length (body s))) as Eg by done.
  destruct (shrink_ok m1 (p + esize d + (elen (g, s) + esize es) + 1 - esize d + nd) n (- Z.of_nat (length d)) (Z.of_nat (length (es1 ++ d ++ (g, s) :: es))))
    as (m2 & E2 & El2 & Hb2 & He2 & Hn2 & Hk2); [lia|done|done|done|lia|rewrite !length_app; lia|].
  destruct (ziplistResize m1 _) as [mr|] eqn:Er; [|done]. cbn [mbind res_bind] in E2 |- *. rewrite E2. cbn [mbind res_bind]. clear E2.
  rewrite <- El2 in Hb2. assert (seg m2 10 (ents 0 es1)) as Hs3 by (apply Hk2; [apply Hk1; [done|lia|rewrite length_ents; lia]|lia|lia|rewrite length_ents; lia]).
  assert (seg m2 p (ent (g', s) q ++ ents (elen (g, s)) es ++ END)) as Hs4.
  { rewrite app_assoc. apply seg_app. rewrite length_app, Nat2Z.inj_add, length_ent, length_ents. split.
    - apply Hk2; [done|lia|lia|]. rewrite length_app, Nat2Z.inj_add, length_ent, length_ents. lia.
    - by replace (p + (elen (g', s) + esize es)) with (p + esize d + (elen (g, s) + esize es) + 1 - esize d + nd - 1) by lia. }
  assert (tail_is m2 (p + last_off ((g', s) :: es))) as Ht4 by (apply Hk2; [done|rewrite ?length_le_split; lia..]).
  assert (prev_ok g' q) as Hq by (apply prev_ok_need; lia). apply chain_app in Hch as [_ [_ Hch]]. rewrite !length_app in Hn2. cbn [length] in Hn2.
  destruct (Z.eqb_spec nd 0) as [E0|E0].
  - exists m2, ((g', s) :: es). do 2 (split; [done|]). apply assemble; try done; cbn [chain_ok esize ents].
    + split; [done|]. by rewrite Eel, E0, Z.add_0_r.
    + lia.
    + fold p. rewrite <- app_assoc. by rewrite Eel, E0, Z.add_0_r.
    + destruct Hn2 as (n2 & ? & ? & ?). exists n2. split; [done|]. split; [done|]. cbn [length]. lia.
  - destruct (cascade_update m2 p (g', s) q (elen (g, s)) es) as (m3 & es3 & -> & F); try done; [lia..|].
    apply seg_app in Hs4 as [Hs4 _]. destruct (fixed_chain _ _ _ _ _ _ _ F Hs4 Hq) as (G1 & G2 & G3 & G4 & G5 & G6 & G7); [lia|].
    exists m3, ((g', s) :: es3). do 2 (split; [done|]). apply assemble; try done.
    + apply G7; [done|lia|rewrite length_ents; lia].
    + apply (f_equal length) in G2. rewrite !length_fmap in G2. destruct Hn2 as (n2 & Hc & ? & ?). exists n2.
      split; [apply G7; [done|lia|rewrite length_le_split; lia]|]. split; [done|]. rewrite G2. cbn [length]. lia.
Qed.

Theorem delete_ok m es1 es2 num :
  zl_ok m (es1 ++ es2) → es2 ≠ [] → 0 ≤ num → weight (es1 ++ es2).*2 < 2 ^ 32 →
  ∃ m' es3, __ziplistDelete m (10 + esize es1) num = Ok m' ∧ es3.*2 = drop (Z.to_nat num) es2.*2 ∧ zl_ok m' (es1 ++ es3).
Proof.
  intros Hz Hne Hnum Ht. assert (Hz' := Hz). destruct Hz' as [Hl Hs Hch _ _ _]. pose proof (esize_weight (es1 ++ es2)) as Hst. rewrite esize_app in *. rewrite length_app in Hst.
  pose proof (esize_nonneg es1). pose proof (esize_nonneg es2). pose proof (esize_len es2).
  rewrite ents_app, <- app_assoc in Hs. apply seg_app in Hs as [_ Hs]. rewrite length_ents in Hs. apply chain_app in Hch as [_ Hch].
  unfold __ziplistDelete. assert (∃ z, zipEntry m (10 + esize es1) = Ok z ∧ prevrawlen z = prev_of 0 es1 ∧ e_p z = 10 + esize es1) as (z & -> & Hzp & Hze).
  { destruct es2 as [|e es2]; [done|]. cbn [ents esize] in *. rewrite <- app_assoc in Hs. apply seg_app in Hs as [Hs _]. destruct Hch as [Hq _]. pose proof (esize_nonneg es2).
    destruct (zipEntry_ok _ _ _ _ Hs Hq) as (z & E & _ & Ep & _ & _ & Ez & _); [lia|]. by exists z. }
  cbn [mbind res_bind]. rewrite (delete_walk_ok (length m) m (10 + esize es1) (prev_of 0 es1) es2 0 num) by (done || lia). cbn [mbind res_bind]. rewrite Hze, Hzp, Z.sub_0_r, Z.add_0_l.
  rewrite <- (take_drop (Z.to_nat num) es2) in Hz, Hs, Hch. set (d := take (Z.to_nat num) es2) in *. set (es3 := drop (Z.to_nat num) es2) in *.
  assert (esize es2 = esize d + esize es3) as E2 by (subst d es3; rewrite <- esize_app, take_drop; done). pose proof (esize_nonneg d). pose proof (esize_nonneg es3).
  replace (10 + esize es1 + esize d - (10 + esize es1)) with (esize d) by lia. unfold u32. rewrite Z.mod_small by lia.
  assert (es3.*2 = drop (Z.to_nat num) es2.*2) as E3 by (subst es3; by rewrite fmap_drop).
  destruct (Z.ltb_spec 0 (esize d)) as [Hd|Hd].
  - rewrite ents_app, <- app_assoc in Hs. apply seg_app in Hs as [_ Hs]. rewrite length_ents in Hs. apply chain_app in Hch as [_ Hch].
    destruct es3 as [|[g s] es3]; cbn [ents app] in Hs.
    + rewrite (at_end_ok _ _ Hs). cbn [mbind res_bind negb]. rewrite app_nil_r in Hz.
      destruct (delete_tail_ok m es1 d Hz) as (m' & E & Hok); [lia|]. exists m', []. rewrite app_nil_r. split; [|done].
      revert E. destruct (set_tail _ m) as [m1|]; [|done]. cbn [mbind res_bind mret res_ret]. destruct (ZIPLIST_BYTES m1) as [b|]; [|done].
      cbn [mbind res_bind mret res_ret]. rewrite Z.add_0_r. destruct (ziplistResize m1 _) as [m2|]; [|done]. cbn [mbind res_bind]. intros E. by rewrite E.
    + rewrite <- app_assoc in Hs. apply seg_app in Hs as [Hs _]. destruct Hch as [Hq _]. rewrite (not_at_end _ _ _ _ Hs Hq). cbn [mbind res_bind negb].
      destruct (delete_mid_ok m es1 d g s es3 Hz) as (m' & es' & E & E' & Hok); [by intros ->|cbn [length esize] in *|].
      { apply (f_equal length) in E3. rewrite length_fmap, length_drop, length_fmap in E3. cbn [length] in E3. lia. }
      exists m', es'. split; [exact E|]. split; [by rewrite E', <- E3|done].
  - exists m, es3. split; [done|]. split; [done|]. destruct d; [done|]. cbn [esize] in *. pose proof (elen_pos p). pose proof (esize_nonneg d). lia.
Qed.

(** *** Merging *)

Lemma merge_copy_ok first second es1 es2 n1 n2 :
  zl_ok first es1 → zl_ok second es2 →
  ∃ m', merge_copy first second (Z.of_nat (length first)) (Z.of_nat (length second)) n1 n2 = Ok m' ∧
    Z.of_nat (length m') = 10 + esize es1 + esize es2 + 1 ∧
    seg m' 10 (ents 0 es1) ∧ seg m' (10 + esize es1) (ents 0 es2 ++ END).
Proof.
  intros [Hl1 Hs1 _ Hb1 Ht1 (c1 & Hn1 & _)] [Hl2 Hs2 _ _ _ _]. unfold merge_copy, ZIPLIST_HEADER_SIZE, ZIPLIST_END_SIZE.
  pose proof (esize_nonneg es1). pose proof (esize_nonneg es2). assert (Hs1' := Hs1). apply seg_app in Hs1' as [Hs1' _].
  assert (Z.of_nat (length (ents 0 es2 ++ END)) = esize es2 + 1) as Hle by (rewrite length_app, Nat2Z.inj_add, length_ents; done).
  set (zb := Z.of_nat (length first) + Z.of_nat (length second) - 10 - 1).
  destruct (n2 <=? n1).
  - rewrite (rd_n_seg second 10 (ents 0 es2 ++ END) []) by (rewrite ?app_nil_r; done || lia). cbn [mbind res_bind].
    destruct (zrealloc_ok first zb) as [El Hk]; [lia|].
    destruct (wr_ok (zrealloc first zb) (Z.of_nat (length first) - 1) (ents 0 es2 ++ END)) as (m' & -> & El' & Hs' & Hf); [lia|lia|].
    exists m'. split; [done|]. split; [lia|]. split; [|by replace (10 + esize es1) with (Z.of_nat (length first) - 1) by lia].
    apply Hf; [apply Hk; [done|rewrite length_ents; lia]|]. left. rewrite length_ents. lia.
  - destruct (zrealloc_ok second zb) as [El Hk]; [lia|].
    destruct (memmove_ok (zrealloc second zb) (Z.of_nat (length first) - 1) 10 (Z.of_nat (length second) - 10)) as (m1 & -> & El1 & Hmv & Hf1); [lia..|]. cbn [mbind res_bind].
    set (hd := le_split 4 (Z.of_nat (length first)) ++ le_split 4 (10 + last_off es1) ++ le_split 2 c1).
    assert (length hd = 10%nat) as Hhd by (subst hd; by rewrite !length_app, !length_le_split).
    assert (seg first 0 (hd ++ ents 0 es1)) as Hh by (apply seg_app; rewrite Hhd; split; [|done]; apply seg_app; split; [done|]; apply seg_app; by rewrite !length_le_split).
    pose proof (length_ents 0 es1) as Hle1.
    rewrite (rd_n_seg first 0 (hd ++ ents 0 es1) []); [|by rewrite app_nil_r|rewrite length_app; lia]. cbn [mbind res_bind].
    destruct (wr_ok m1 0 (hd ++ ents 0 es1)) as (m' & -> & El' & Hs' & Hf); [done|rewrite length_app; lia|].
    exists m'. split; [done|]. split; [lia|]. split; [apply seg_app in Hs' as [_ Hs']; by rewrite Hhd in Hs'|].
    apply Hf; [|right; rewrite length_app; lia].
    replace (10 + esize es1) with (10 - 10 + (Z.of_nat (length first) - 1)) by lia. apply Hmv; [apply Hk; [done|lia]|lia|lia].
Qed.

(** The fields of the header are set; what is behind it is kept. *)
Lemma merge_header m b n t :
  10 ≤ Z.of_nat (length m) →
  ∃ m', (m ← set_bytes b m; m ← set_length n m; set_tail t m) = Ok m' ∧ length m' = length m ∧
    bytes_is m' b ∧ count_is m' n ∧ tail_is m' t ∧ ∀ r cs, seg m r cs → 10 ≤ r → seg m' r cs.
Proof.
  intros Hl. unfold set_bytes, set_length.
  destruct (wr_ok m 0 (le_split 4 b)) as (m1 & -> & El1 & Hs1 & Hk1); [done|rewrite length_le_split; lia|]. cbn [mbind res_bind].
  destruct (wr_ok m1 8 (le_split 2 n)) as (m2 & -> & El2 & Hs2 & Hk2); [done|rewrite length_le_split; lia|]. cbn [mbind res_bind].
  destruct (set_tail_ok m2 t) as (m3 & -> & El3 & Ht3 & Hk3); [lia|]. exists m3. split; [done|]. split; [lia|].
  split; [apply Hk3; [apply Hk2; [done|]|]; unfold apart; rewrite !length_le_split; lia|]. split; [apply Hk3; [done|lia]|]. split; [done|].
  intros r cs Hc Hr. apply Hk3; [|lia]. apply Hk2; [|unfold apart; rewrite length_le_split; lia]. apply Hk1; [done|]. unfold apart. rewrite length_le_split. lia.
Qed.

(** Where the lists meet: the cascade starts at the last entry of the first list. *)
Lemma seam m es1 es2 :
  chain_ok 0 es1 → chain_ok 0 es2 → es2 ≠ [] → seg m 10 (ents 0 es1) → seg m (10 + esize es1) (ents 0 es2 ++ END) →
  ∃ es0 cur q es, es1 ++ es2 = es0 ++ cur :: es ∧ 10 + last_off es1 = 10 + esize es0 ∧ chain_ok 0 es0 ∧ prev_ok cur.1 (prev_of 0 es0) ∧ chain_ok q es ∧
    seg m 10 (ents 0 es0) ∧ seg m (10 + esize es0) (ent cur (prev_of 0 es0) ++ ents q es ++ END).
Proof.
  intros Hch1 Hch2 Hne Hm1 Hm2. destruct es1 as [|e es1 _] using rev_ind.
  - destruct es2 as [|e es2]; [done|]. exists [], e, (elen e), es2. destruct Hch2. cbn [esize] in Hm2. rewrite Z.add_0_r in Hm2.
    cbn [ents] in Hm2. rewrite <- app_assoc in Hm2. by split_and!.
  - exists es1, e, 0, es2. rewrite <- app_assoc, last_off_snoc. apply chain_app in Hch1 as [? [? _]]. rewrite ents_app in Hm1. apply seg_app in Hm1 as [Hm1 Hm3].
    rewrite length_ents in Hm3. cbn [ents] in Hm3. rewrite app_nil_r in Hm3. rewrite esize_app in Hm2. cbn [esize] in Hm2.
    do 6 (split; [done|]). apply seg_app. rewrite length_ent. split; [done|]. by replace (10 + esize es1 + elen e) with (10 + (esize es1 + (elen e + 0))) by lia.
Qed.

Theorem merge_ok first second es1 es2 :
  zl_ok first es1 → zl_ok second es2 → es2 ≠ [] → weight (es1.*2 ++ es2.*2) < 2 ^ 32 →
  ∃ m' es', ziplistMerge first second = Ok m' ∧ es'.*2 = es1.*2 ++ es2.*2 ∧ zl_ok m' es'.
Proof.
  intros Hz1 Hz2 Hne Ht. rewrite weight_app in Ht. pose proof (esize_weight es1). pose proof (esize_weight es2). pose proof (esize_nonneg es1). pose proof (esize_nonneg es2).
  assert (A1 := Hz1). assert (A2 := Hz2). destruct A1 as [Hl1 Hs1 Hch1 Hb1 Ht1 (n1 & Hn1 & Hr1 & Hd1)]. destruct A2 as [Hl2 Hs2 Hch2 Hb2 Ht2 (n2 & Hn2 & Hr2 & Hd2)].
  pose proof (last_off_bound es1). pose proof (last_off_bound es2). pose proof (esize_len es1). pose proof (esize_len es2). unfold UINT16_MAX in *.
  unfold ziplistMerge. rewrite (bytes_read _ _ Hb1) by lia. cbn [mbind res_bind]. rewrite (count_read _ _ Hn1) by lia. cbn [mbind res_bind].
  rewrite (bytes_read _ _ Hb2) by lia. cbn [mbind res_bind]. rewrite (count_read _ _ Hn2) by lia. cbn [mbind res_bind].
  rewrite (tail_read _ _ Ht1) by lia. cbn [mbind res_bind]. rewrite (tail_read _ _ Ht2) by lia. cbn [mbind res_bind].
  destruct (merge_copy_ok first second es1 es2 n1 n2 Hz1 Hz2) as (m1 & -> & El1 & Hm1 & Hm2). cbn [mbind res_bind].
  unfold ZIPLIST_HEADER_SIZE, ZIPLIST_END_SIZE, UINT16_MAX. set (n := if n1 + n2 <? 65535 then n1 + n2 else 65535).
  destruct (merge_header m1 (Z.of_nat (length first) + Z.of_nat (length second) - 10 - 1) n (Z.of_nat (length first) - 1 + (10 + last_off es2 - 10))) as (m2 & E2 & El2 & B2 & C2 & T2 & K2); [lia|].
  revert E2. destruct (set_bytes _ m1) as [ma|]; [|done]. cbn [mbind res_bind]. destruct (set_length n ma) as [mb|]; [|done]. cbn [mbind res_bind].
  intros ->. cbn [mbind res_bind]. replace (Z.of_nat (length first) + Z.of_nat (length second) - 10 - 1) with (Z.of_nat (length m2)) in B2 by lia.
  replace (Z.of_nat (length first) - 1 + (10 + last_off es2 - 10)) with (10 + esize es1 + last_off es2) in T2 by lia.
  apply K2 in Hm1; [|lia]. apply K2 in Hm2; [|lia].
  assert (0 ≤ n ≤ 65535 ∧ (n = Z.of_nat (length es1 + length es2) ∨ n = 65535)) as [Hn Hnd] by (subst n; destruct (Z.ltb_spec (n1 + n2) 65535); lia).
  destruct (seam m2 es1 es2) as (es0 & cur & q & es & E & Eo & C0 & Cq & C1 & S0 & S1); try done. rewrite Eo.
  assert (esize es1 + esize es2 = esize es0 + (elen cur + esize es)) as Es by (rewrite <- esize_app, E, esize_app; done).
  assert (10 + esize es1 + last_off es2 = 10 + esize es0 + last_off (cur :: es)) as Et by (rewrite <- !Z.add_assoc, <- !last_off_app by done; by rewrite E).
  assert (length es1 + length es2 = length es0 + S (length es))%nat as En by (rewrite <- length_app, E, length_app; done).
  rewrite Et in T2. pose proof (esize_nonneg es0). destruct (cascade_update m2 (10 + esize es0) cur (prev_of 0 es0) q es) as (m3 & es3 & -> & F); try done; [lia..|].
  apply seg_app in S1 as [S1 _]. destruct (fixed_chain _ _ _ _ _ _ _ F S1 Cq) as (G1 & G2 & G3 & G4 & G5 & G6 & G7); [lia|].
  exists m3, (es0 ++ cur :: es3). split; [done|]. split; [by rewrite <- fmap_app, E, !fmap_app, G2|]. apply assemble; try done.
  - apply G7; [done|lia|rewrite length_ents; lia].
  - apply (f_equal length) in G2. rewrite !length_fmap in G2. exists n. split; [apply G7; [done|lia|rewrite length_le_split; lia]|]. split; [done|]. rewrite G2, En in *. done.
Qed.

(** ** Walking *)

Lemma tail_seg m es1 es2 : zl_ok m (es1 ++ es2) →
  seg m (10 + esize es1) (ents (prev_of 0 es1) es2 ++ END) ∧ chain_ok (prev_of 0 es1) es2 ∧
  Z.of_nat (length m) = 10 + esize es1 + esize es2 + 1.
Proof.
  intros [Hl Hs Hch _ _ _]. rewrite ents_app, <- app_assoc in Hs. apply seg_app in Hs as [_ Hs]. rewrite length_ents in Hs.
  apply chain_app in Hch as [_ Hch]. rewrite esize_app in Hl. split_and!; try done. lia.
Qed.

(** What is known of the entry behind [es1]. *)
Lemma entry_at m es1 e es2 : zl_ok m (es1 ++ e :: es2) → Z.of_nat (length m) < 2 ^ 32 →
  seg m (10 + esize es1) (ent e (prev_of 0 es1)) ∧ prev_ok e.1 (prev_of 0 es1) ∧ elen e < 2 ^ 32 ∧
  at_end m (10 + esize es1) = Ok false ∧ zipRawEntryLength m (10 + esize es1) = Ok (elen e).
Proof.
  intros Hz Hmax. destruct (tail_seg _ _ _ Hz) as (Hs & [Hq _] & Hl). cbn [ents esize] in *. rewrite <- app_assoc in Hs. apply seg_app in Hs as [Hs _].
  pose proof (esize_nonneg es1). pose proof (esize_nonneg es2). pose proof (elen_pos e). assert (elen e < 2 ^ 32) by lia.
  split_and!; try done; [by eapply not_at_end|by eapply raw_ok].
Qed.
Lemma end_at m es : zl_ok m es → at_end m (10 + esize es) = Ok true.
Proof. intros Hz. rewrite <- (app_nil_r es) in Hz. destruct (tail_seg _ _ _ Hz) as (Hs & _). by apply at_end_ok. Qed.

Lemma walk_on_ok fuel m es1 es2 i :
  zl_ok m (es1 ++ es2) → Z.of_nat (length m) < 2 ^ 32 → (length es2 < fuel)%nat → 0 ≤ i →
  walk_on fuel m (10 + esize es1) i =
    Ok (if i <? Z.of_nat (length es2) then (10 + esize (es1 ++ take (Z.to_nat i) es2), -1)
        else (10 + esize (es1 ++ es2), i - Z.of_nat (length es2))).
Proof.
  revert es1 es2 i. induction fuel as [|fuel IH]; intros es1 es2 i Hz Hmax Hf Hi; [lia|]. cbn [walk_on]. destruct es2 as [|e es2].
  - rewrite app_nil_r in *. rewrite (end_at _ _ Hz). cbn [mbind res_bind length]. rewrite (proj2 (Z.ltb_ge i _)) by lia. by rewrite Z.sub_0_r.
  - destruct (entry_at _ _ _ _ Hz Hmax) as (_ & _ & _ & -> & ->). cbn [mbind res_bind]. destruct (Z.eqb_spec i 0) as [->|Hne].
    + cbn. by rewrite app_nil_r.
    + replace (10 + esize es1 + elen e) with (10 + esize (es1 ++ [e])) by (rewrite esize_app; cbn; lia).
      rewrite (cons_middle e es1 es2), app_assoc in Hz. cbn [length] in *. rewrite (IH (es1 ++ [e]) es2 (i - 1) Hz Hmax) by lia.
      replace (Z.to_nat i) with (S (Z.to_nat (i - 1))) by lia. cbn [take]. rewrite <- !app_assoc. cbn [app].
      destruct (Z.ltb_spec (i - 1) (Z.of_nat (length es2))), (Z.ltb_spec i (Z.of_nat (S (length es2)))); try lia; [done|]. do 2 f_equal. lia.
Qed.

Lemma prev_of_snoc q es e : prev_of q (es ++ [e]) = elen e.
Proof. by rewrite prev_of_app. Qed.

Lemma walk_back_ok fuel m es1 e es2 i :
  zl_ok m (es1 ++ e :: es2) → Z.of_nat (length m) < 2 ^ 32 → (length es1 < fuel)%nat → 0 ≤ i →
  walk_back fuel m (10 + esize es1) (prev_of 0 es1) i =
    Ok (if i <? Z.of_nat (length es1) then (10 + esize (take (length es1 - Z.to_nat i) es1), -1)
        else (10, i - Z.of_nat (length es1))).
Proof.
  revert es1 e es2 i. induction fuel as [|fuel IH]; intros es1 e es2 i Hz Hmax Hf Hi; [lia|]. cbn [walk_back].
  destruct es1 as [|e' es1 _] using rev_ind.
  - cbn [prev_of length esize Z.ltb Z.compare]. rewrite (proj2 (Z.ltb_ge i (Z.of_nat 0))) by lia. by rewrite Z.sub_0_r.
  - rewrite prev_of_snoc. pose proof (elen_pos e'). rewrite (proj2 (Z.ltb_lt 0 (elen e'))) by lia. rewrite length_app in *. cbn [length] in *.
    destruct (Z.eqb_spec i 0) as [->|Hne].
    + rewrite (proj2 (Z.ltb_lt 0 _)) by lia. rewrite Z2Nat.inj_0, Nat.sub_0_r, take_ge by (rewrite length_app; cbn; lia). done.
    + rewrite esize_app. cbn [esize]. replace (10 + (esize es1 + (elen e' + 0)) - elen e') with (10 + esize es1) by lia.
      rewrite <- app_assoc in Hz. cbn [app] in Hz. destruct (entry_at _ _ _ _ Hz Hmax) as (Hs & Hq & _). apply seg_app in Hs as [Hs _].
      destruct (prev_read _ _ _ _ Hs Hq) as (_ & -> & _). cbn [mbind res_bind]. rewrite (IH es1 e' (e :: es2) (i - 1) Hz Hmax) by lia.
      destruct (Z.ltb_spec (i - 1) (Z.of_nat (length es1))), (Z.ltb_spec i (Z.of_nat (length es1 + 1))); try lia; [|do 2 f_equal; lia].
      rewrite take_app_le by lia. do 3 f_equal. f_equal. f_equal. lia.
Qed.
