(* ===== verification/ZiplistRef.v ===== *)
(** * Programs that use ziplists (src/src/ziplist.c)

    A client moves a cursor over a ziplist, reads and compares what is there, and inserts and
    deletes.  [zstep] is one call of the client, on the block; [sstep] is what the call is to
    do on the list of strings, with the cursor as an index (the length of the list is the
    end).  Insertions and deletions by index move the block, and the cursor is lost; after
    [ziplistDelete] it is at the element behind the one that was deleted.

    [legal] says which calls the client may make: a cursor is there when it is used, an
    element is under it when it is deleted, a list that is appended is not empty, and the
    strings fit in 2^32 bytes.  It leaves out what no caller in the program does: calls with
    a NULL cursor, and [ziplistMerge] with an empty second list (quicklist.c merges only
    nodes that have elements).

    Shown: whatever calls are made, the answers are those of the list, and no access is
    outside of the block or reads a byte that was not written. *)

From S2P Require Import Prelude Util Mem Ziplist ZiplistOps.
From stdpp Require Import list.
#[local] Open Scope Z_scope.

Implicit Types (m : mem) (e : bool * bytes) (es : list (bool * bytes)) (s : bytes) (l : list bytes).

(** ** Calls *)

Inductive zcall :=
| CIndex (z : Z) | CNext | CPrev | CGet | CCompare (s : bytes) | CFind (s : bytes) (skip : Z) | CLen
| CPush (s : bytes) (w : where_) | CInsert (s : bytes) | CDelete | CDeleteRange (z num : Z) | CMerge (l : list bytes).
Inductive zreply := ROk | RFound (b : bool) | RValue (v : option (bytes + Z)) | RNum (n : Z).

(** A ziplist with the strings of a list. *)
Fixpoint push_all (m : mem) (l : list bytes) : res mem :=
  match l with [] => mret m | s :: l' => m ← ziplistPush m s ZIPLIST_TAIL; push_all m l' end.

Definition need (c : option Z) : res Z := res_of_option c "NULL".
Definition found (p : option Z) : zreply := RFound (bool_decide (is_Some p)).

Definition zstep (x : zcall) (st : mem * option Z) : res (mem * option Z * zreply) :=
  let '(m, c) := st in
  match x with
  | CIndex z => p ← ziplistIndex m z; mret (m, p, found p)
  | CNext => p ← need c; p ← ziplistNext m p; mret (m, p, found p)
  | CPrev => p ← need c; p ← ziplistPrev m p; mret (m, p, found p)
  | CGet => p ← need c; v ← ziplistGet m p; mret (m, c, RValue v)
  | CCompare s => p ← need c; b ← ziplistCompare m p s; mret (m, c, RFound b)
  | CFind s skip => p ← need c; p ← ziplistFind m p s skip; mret (m, p, found p)
  | CLen => '(n, m) ← ziplistLen m; mret (m, c, RNum n)
  | CPush s w => m ← ziplistPush m s w; mret (m, None, ROk)
  | CInsert s => p ← need c; m ← ziplistInsert m p s; mret (m, None, ROk)
  | CDelete => p ← need c; '(m, p) ← ziplistDelete m p; mret (m, Some p, ROk)
  | CDeleteRange z num => m ← ziplistDeleteRange m z num; mret (m, None, ROk)
  | CMerge l => m2 ← ziplistNew; m2 ← push_all m2 l; m ← ziplistMerge m m2; mret (m, None, ROk)
  end.
Fixpoint zrun (xs : list zcall) (st : mem * option Z) : res (mem * option Z * list zreply) :=
  match xs with
  | [] => mret (st, [])
  | x :: xs' => '(m, c, r) ← zstep x st; '(st, rs) ← zrun xs' (m, c); mret (st, r :: rs)
  end.

(** ** What the calls are to do *)

Definition index_of l (z : Z) : option nat :=
  let n := Z.of_nat (length l) in
  if z <? 0 then if - z <=? n then Some (Z.to_nat (n + z)) else None
  else if z <? n then Some (Z.to_nat z) else None.
(** Every [skip + 1]-th string is compared. *)
Fixpoint find_from (i : nat) l s (skip cnt : Z) : option nat :=
  match l with
  | [] => None
  | x :: l' =>
      if cnt =? 0 then if decide (x = s) then Some i else find_from (S i) l' s skip skip
      else find_from (S i) l' s skip (cnt - 1)
  end.
Definition sfound (c : option nat) : zreply := RFound (bool_decide (is_Some c)).
Definition insert_at (i : nat) s l : list bytes := take i l ++ s :: drop i l.
Definition delete_at (i n : nat) l : list bytes := take i l ++ drop (i + n) l.

Definition next_of l (i : nat) : option nat := if decide (S i < length l)%nat then Some (S i) else None.
Definition prev_index (i : nat) : option nat := match i with O => None | S i' => Some i' end.

Definition sstep (x : zcall) (st : list bytes * option nat) : list bytes * option nat * zreply :=
  let '(l, c) := st in
  let i := default 0%nat c in
  match x with
  | CIndex z => (l, index_of l z, sfound (index_of l z))
  | CNext => (l, next_of l i, sfound (next_of l i))
  | CPrev => (l, prev_index i, sfound (prev_index i))
  | CGet => (l, c, RValue (shown <$> l !! i))
  | CCompare s => (l, c, RFound (bool_decide (l !! i = Some s)))
  | CFind s skip => let c := find_from i (drop i l) s skip 0 in (l, c, sfound c)
  | CLen => (l, c, RNum (Z.of_nat (length l)))
  | CPush s ZIPLIST_HEAD => (s :: l, None, ROk)
  | CPush s ZIPLIST_TAIL => (l ++ [s], None, ROk)
  | CInsert s => (insert_at i s l, None, ROk)
  | CDelete => (delete_at i 1 l, c, ROk)
  | CDeleteRange z num => (match index_of l z with Some i => delete_at i (Z.to_nat num) l | None => l end, None, ROk)
  | CMerge l2 => (l ++ l2, None, ROk)
  end.
Fixpoint srun (xs : list zcall) (st : list bytes * option nat) : list bytes * option nat * list zreply :=
  match xs with
  | [] => (st, [])
  | x :: xs' => let '(l, c, r) := sstep x st in let '(st, rs) := srun xs' (l, c) in (st, r :: rs)
  end.

(** ** Which calls may be made *)

Definition legal (x : zcall) (st : list bytes * option nat) : bool :=
  let '(l, c) := st in
  (weight (sstep x st).1.1 <? 2 ^ 32) &&
  match x with
  | CNext | CPrev | CGet | CCompare _ | CInsert _ => bool_decide (is_Some c)
  | CFind _ skip => bool_decide (is_Some c) && (0 <=? skip)
  | CDelete => match c with Some i => (i <? length l)%nat | None => false end
  | CDeleteRange _ num => 0 <=? num
  | CMerge l2 => bool_decide (l2 ≠ [])
  | _ => true
  end.
Fixpoint legal_run (xs : list zcall) (st : list bytes * option nat) : bool :=
  match xs with [] => true | x :: xs' => legal x st && legal_run xs' (sstep x st).1 end.

(** ** The relation between block and list *)

Definition related (st : mem * option Z) (sp : list bytes * option nat) : Prop :=
  ∃ es, zl_ok st.1 es ∧ es.*2 = sp.1 ∧ weight sp.1 < 2 ^ 32 ∧
    match st.2, sp.2 with
    | Some p, Some i => (i ≤ length es)%nat ∧ p = 10 + esize (take i es)
    | None, None => True
    | _, _ => False
    end.

(** ** Walking *)

Definition at_index es (i : nat) : Z := 10 + esize (take i es).

Lemma not_end m es i : zl_ok m es → Z.of_nat (length m) < 2 ^ 32 → (i < length es)%nat → at_end m (at_index es i) = Ok false.
Proof.
  intros Hz Hm Hi. rewrite <- (take_drop i es) in Hz. destruct (drop i es) as [|e es2] eqn:E; [|by apply (entry_at _ _ _ _ Hz Hm)].
  apply (f_equal length) in E. rewrite length_drop in E. cbn in E. lia.
Qed.
Lemma is_end m es i : zl_ok m es → (length es ≤ i)%nat → at_end m (at_index es i) = Ok true.
Proof. intros Hz Hi. unfold at_index. rewrite take_ge by done. by apply end_at. Qed.

Lemma index_ok m es z :
  zl_ok m es → Z.of_nat (length m) < 2 ^ 32 → ziplistIndex m z = Ok (at_index es <$> index_of es.*2 z).
Proof.
  intros Hz Hm. pose proof (z_len _ _ Hz) as Hl. pose proof (esize_len es). unfold ziplistIndex, index_of, ZIPLIST_ENTRY_TAIL. rewrite length_fmap.
  destruct (Z.ltb_spec z 0) as [Hneg|Hpos].
  - pose proof (z_tail _ _ Hz) as Ht. pose proof (last_off_bound es). rewrite (tail_read _ _ Ht) by lia. cbn [mbind res_bind].
    destruct es as [|e es1 _] using rev_ind.
    + change (10 + last_off []) with (10 + esize []). rewrite (end_at _ _ Hz). cbn [mbind res_bind mret res_ret negb]. rewrite (end_at _ _ Hz). cbn [mbind res_bind mret res_ret orb].
      rewrite (proj2 (Z.leb_gt (- z) _)) by (cbn; lia). done.
    + rewrite last_off_snoc. destruct (entry_at _ _ _ _ Hz Hm) as (Hs & Hq & _ & He & _). rewrite He. cbn [mbind res_bind mret res_ret negb].
      apply seg_app in Hs as [Hs _]. destruct (prev_read _ _ _ _ Hs Hq) as (_ & -> & _). cbn [mbind res_bind].
      rewrite length_app in *. cbn [length] in *. rewrite (walk_back_ok _ _ _ _ _ _ Hz Hm) by lia. cbn [mbind res_bind].
      destruct (Z.ltb_spec (- z - 1) (Z.of_nat (length es1))), (Z.leb_spec (- z) (Z.of_nat (length es1 + 1))); try lia.
      * pose proof (not_end m (es1 ++ [e]) (length es1 - Z.to_nat (- z - 1)) Hz Hm) as Hne. unfold at_index in Hne. rewrite take_app_le in Hne by lia.
        rewrite Hne by (rewrite length_app; cbn; lia). cbn [mbind res_bind orb Z.ltb Z.compare fmap option_fmap option_map]. unfold mret, res_ret, at_index.
        rewrite (take_app_le es1 [e] (Z.to_nat _)) by lia. do 5 f_equal. lia.
      * change (at_end m 10) with (at_end m (at_index (es1 ++ [e]) 0)). rewrite (not_end m (es1 ++ [e]) 0 Hz Hm) by (rewrite length_app; cbn; lia). cbn [mbind res_bind mret res_ret orb]. rewrite (proj2 (Z.ltb_ge 0 _)) by lia. cbn [fmap option_fmap option_map].
        unfold mret, res_ret, at_index. replace (Z.to_nat (Z.of_nat (length es1 + 1) + z)) with 0%nat by lia. done.
      * change (at_end m 10) with (at_end m (at_index (es1 ++ [e]) 0)). rewrite (not_end m (es1 ++ [e]) 0 Hz Hm) by (rewrite length_app; cbn; lia). cbn [mbind res_bind mret res_ret orb]. by rewrite (proj2 (Z.ltb_lt 0 _)) by lia.
  - change ZIPLIST_ENTRY_HEAD with (10 + esize []). rewrite (walk_on_ok (length m) m [] es z Hz Hm) by lia. cbn [mbind res_bind app].
    destruct (Z.ltb_spec z (Z.of_nat (length es))).
    + fold (at_index es (Z.to_nat z)). rewrite (not_end _ _ _ Hz Hm) by lia. done.
    + by rewrite (end_at _ _ Hz).
Qed.

Lemma next_ok m es i :
  zl_ok m es → Z.of_nat (length m) < 2 ^ 32 → (i ≤ length es)%nat → ziplistNext m (at_index es i) = Ok (at_index es <$> next_of es.*2 i).
Proof.
  intros Hz Hm Hi. unfold ziplistNext, next_of. rewrite length_fmap. destruct (decide (i = length es)) as [->|Hne].
  - rewrite (is_end _ _ _ Hz) by done. cbn [mbind res_bind]. by rewrite decide_False by lia.
  - rewrite (not_end _ _ _ Hz Hm) by lia. cbn [mbind res_bind]. destruct (lookup_lt_is_Some_2 es i) as [e He]; [lia|].
    assert (Hz' := Hz). rewrite <- (take_drop_middle _ _ _ He) in Hz'. destruct (entry_at _ _ _ _ Hz' Hm) as (_ & _ & _ & _ & Hr).
    fold (at_index es i) in Hr. rewrite Hr. cbn [mbind res_bind].
    assert (at_index es i + elen e = at_index es (S i)) as -> by (unfold at_index; rewrite (take_S_r _ _ _ He), esize_app; cbn; lia).
    destruct (decide (S i < length es)%nat).
    + by rewrite (not_end _ _ _ Hz Hm) by lia.
    + by rewrite (is_end _ _ _ Hz) by lia.
Qed.

Lemma prev_ok_index m es i :
  zl_ok m es → Z.of_nat (length m) < 2 ^ 32 → (i ≤ length es)%nat → ziplistPrev m (at_index es i) = Ok (at_index es <$> prev_index i).
Proof.
  intros Hz Hm Hi. pose proof (z_len _ _ Hz) as Hl. unfold ziplistPrev, ZIPLIST_ENTRY_TAIL, ZIPLIST_ENTRY_HEAD, ZIPLIST_HEADER_SIZE. destruct (decide (i = length es)) as [->|Hne].
  - rewrite (is_end _ _ _ Hz) by done. cbn [mbind res_bind]. pose proof (z_tail _ _ Hz) as Ht. pose proof (last_off_bound es). rewrite (tail_read _ _ Ht) by lia. cbn [mbind res_bind].
    destruct es as [|e es1 _] using rev_ind; [change (10 + last_off []) with (at_index [] 0); by rewrite (is_end m [] 0 Hz)|]. rewrite last_off_snoc, length_app. cbn [length]. rewrite Nat.add_1_r. cbn [prev_index fmap option_fmap option_map].
    assert (10 + esize es1 = at_index (es1 ++ [e]) (length es1)) as -> by (unfold at_index; by rewrite take_app_length).
    by rewrite (not_end _ _ _ Hz Hm) by (rewrite length_app; cbn; lia).
  - rewrite (not_end _ _ _ Hz Hm) by lia. cbn [mbind res_bind]. destruct i as [|i]; [done|]. destruct (lookup_lt_is_Some_2 es i) as [e He]; [lia|].
    assert (at_index es (S i) = at_index es i + elen e) as Ep by (unfold at_index; rewrite (take_S_r _ _ _ He), esize_app; cbn; lia).
    pose proof (elen_pos e). pose proof (esize_nonneg (take i es)). rewrite (proj2 (Z.eqb_neq _ _)) by (rewrite Ep; unfold at_index; lia).
    destruct (lookup_lt_is_Some_2 es (S i)) as [e2 He2]; [lia|]. assert (Hz' := Hz). rewrite <- (take_drop_middle _ _ _ He2) in Hz'.
    destruct (entry_at _ _ _ _ Hz' Hm) as (Hs & Hq & _). apply seg_app in Hs as [Hs _]. rewrite (take_S_r _ _ _ He) in Hs, Hq. rewrite prev_of_snoc in Hs, Hq.
    rewrite <- (take_S_r _ _ _ He) in Hs. destruct (prev_read _ _ _ _ Hs Hq) as (_ & Er & _). fold (at_index es (S i)) in Er. rewrite Er. cbn [mbind res_bind].
    rewrite (proj2 (Z.ltb_lt 0 (elen e))) by lia. cbn [serverAssert mbind res_bind prev_index fmap option_fmap option_map]. unfold mret, res_ret. do 2 f_equal. lia.
Qed.

(** ** Reading *)

Lemma shown_Some s v : shown s = inr v → ∃ enc, zipTryEncoding s = Some (v, enc).
Proof. unfold shown. destruct (zipTryEncoding s) as [[w enc]|]; [|done]. intros [= ->]. by exists enc. Qed.

Lemma get_ok m es i :
  zl_ok m es → Z.of_nat (length m) < 2 ^ 32 → (i ≤ length es)%nat → ziplistGet m (at_index es i) = Ok (shown <$> es.*2 !! i).
Proof.
  intros Hz Hm Hi. unfold ziplistGet. rewrite list_lookup_fmap. destruct (es !! i) as [e|] eqn:He.
  - pose proof (lookup_lt_Some _ _ _ He). rewrite (not_end _ _ _ Hz Hm) by done. cbn [mbind res_bind]. assert (Hz' := Hz). rewrite <- (take_drop_middle _ _ _ He) in Hz'.
    destruct (entry_at _ _ _ _ Hz' Hm) as (Hs & Hq & Hel & _). fold (at_index es i) in Hs.
    destruct (zipEntry_ok _ _ _ _ Hs Hq Hel) as (z & -> & _ & _ & Hh & _ & _ & Hd). cbn [mbind res_bind]. rewrite Hh, Z.add_assoc. destruct Hd as (_ & _ & _ & Hd).
    cbn [fmap option_fmap option_map]. unfold shown. destruct (zipTryEncoding e.2) as [[v enc]|].
    + destruct Hd as (_ & -> & ->). done.
    + destruct Hd as (-> & -> & Hs2). rewrite (rd_n_seg _ _ e.2 []) by (rewrite ?app_nil_r; done || lia). done.
  - apply lookup_ge_None in He. by rewrite (is_end _ _ _ Hz).
Qed.

(** Equal strings, by what is stored. *)
Definition matches (m : mem) (p enc l : Z) s : res bool :=
  if ZIP_IS_STR enc then
    if l =? Z.of_nat (length s) then t ← rd_n m p (length s); mret (bool_decide (t = s)) else mret false
  else match zipTryEncoding s with Some (v, _) => w ← zipLoadInteger m p enc; mret (w =? v) | None => mret false end.

Lemma matches_ok m p t s enc lsz n : body_decoded m p t enc lsz n → matches m (p + lsz) enc n s = Ok (bool_decide (t = s)).
Proof.
  intros (_ & _ & _ & Hd). unfold matches. destruct (zipTryEncoding t) as [[v e]|] eqn:Et.
  - destruct Hd as (-> & -> & ->). destruct (zipTryEncoding s) as [[w e']|] eqn:Es; cbn [mbind res_bind]; unfold mret, res_ret; f_equal.
    + destruct (Z.eqb_spec v w) as [->|Hne].
      * symmetry. apply bool_decide_eq_true. by eapply zipTryEncoding_inj.
      * symmetry. apply bool_decide_eq_false. intros ->. rewrite Et in Es. by injection Es.
    + symmetry. apply bool_decide_eq_false. intros ->. by rewrite Et in Es.
  - destruct Hd as (-> & -> & Hs). destruct (Z.eqb_spec (Z.of_nat (length t)) (Z.of_nat (length s))) as [El|Hne].
    + rewrite (rd_n_seg _ _ t []) by (rewrite ?app_nil_r; done || lia). done.
    + unfold mret, res_ret. f_equal. symmetry. apply bool_decide_eq_false. by intros ->.
Qed.

Lemma compare_ok m es i s :
  zl_ok m es → Z.of_nat (length m) < 2 ^ 32 → (i ≤ length es)%nat → ziplistCompare m (at_index es i) s = Ok (bool_decide (es.*2 !! i = Some s)).
Proof.
  intros Hz Hm Hi. unfold ziplistCompare. rewrite list_lookup_fmap. destruct (es !! i) as [e|] eqn:He.
  - pose proof (lookup_lt_Some _ _ _ He). rewrite (not_end _ _ _ Hz Hm) by done. cbn [mbind res_bind]. assert (Hz' := Hz). rewrite <- (take_drop_middle _ _ _ He) in Hz'.
    destruct (entry_at _ _ _ _ Hz' Hm) as (Hs & Hq & Hel & _). fold (at_index es i) in Hs.
    destruct (zipEntry_ok _ _ _ _ Hs Hq Hel) as (z & -> & _ & _ & Hh & _ & _ & Hd). cbn [mbind res_bind]. rewrite Hh, Z.add_assoc.
    pose proof (matches_ok _ _ _ s _ _ _ Hd) as E. unfold matches in E. rewrite E. cbn [fmap option_fmap option_map]. f_equal.
    apply bool_decide_ext. split; [by intros ->|by intros [= ->]].
  - apply lookup_ge_None in He. rewrite (is_end _ _ _ Hz) by done. done.
Qed.

(** [vll] is what [zipTryEncoding] makes of the string, or nothing yet. *)
Lemma find_loop_ok fuel m es1 es2 s skip cnt vll :
  zl_ok m (es1 ++ es2) → Z.of_nat (length m) < 2 ^ 32 → (length es2 < fuel)%nat → 0 ≤ skip → 0 ≤ cnt →
  vll = None ∨ vll = Some (fst <$> zipTryEncoding s) →
  find_loop fuel m (10 + esize es1) s skip cnt vll = Ok (at_index (es1 ++ es2) <$> find_from (length es1) es2.*2 s skip cnt).
Proof.
  revert es1 es2 cnt vll. induction fuel as [|fuel IH]; intros es1 es2 cnt vll Hz Hm Hf Hsk Hc Hv; [lia|]. cbn [find_loop]. destruct es2 as [|e es2].
  - rewrite app_nil_r in *. by rewrite (end_at _ _ Hz).
  - destruct (entry_at _ _ _ _ Hz Hm) as (Hs & Hq & Hel & -> & _). cbn [mbind res_bind]. assert (Hs' := Hs). apply seg_app in Hs' as [Hs1 Hs2]. rewrite length_prev_bytes in Hs2.
    destruct (prev_read _ _ _ _ Hs1 Hq) as (-> & _). cbn [mbind res_bind]. unfold elen in Hel. pose proof (psize_pos e.1).
    destruct (decode_body _ _ _ Hs2) as (enc & lsz & l & -> & Hd); [lia|]. cbn [mbind res_bind].
    assert (10 + esize es1 + psize e.1 + lsz + l = 10 + esize (es1 ++ [e])) as Ep by (rewrite esize_app; cbn [esize]; unfold elen; destruct Hd as (E & _); lia).
    cbn [fmap list_fmap find_from length] in *. rewrite (cons_middle e es1 es2), app_assoc in Hz |- *.
    assert (∀ cnt vll, 0 ≤ cnt → vll = None ∨ vll = Some (fst <$> zipTryEncoding s) → find_loop fuel m (10 + esize es1 + psize e.1 + lsz + l) s skip cnt vll =
      Ok (at_index ((es1 ++ [e]) ++ es2) <$> find_from (S (length es1)) es2.*2 s skip cnt)) as IH'.
    { intros cnt' vll' Hc' Hv'. rewrite Ep. rewrite (IH (es1 ++ [e]) es2 cnt' vll' Hz Hm) by (done || lia). do 3 f_equal. rewrite length_app. cbn. lia. }
    assert (Some (10 + esize es1) = at_index ((es1 ++ [e]) ++ es2) <$> Some (length es1)) as Ehere.
    { cbn. unfold at_index. by rewrite <- app_assoc, take_app_length. }
    destruct (Z.eqb_spec cnt 0) as [->|Hne]; [|apply IH'; [lia|done]].
    pose proof (matches_ok _ _ _ s _ _ _ Hd) as E. unfold matches in E. destruct (ZIP_IS_STR enc).
    + rewrite E. cbn [mbind res_bind]. case_decide as Ed; [rewrite bool_decide_eq_true_2 by done; unfold mret, res_ret; by rewrite Ehere|].
      rewrite bool_decide_eq_false_2 by done. by apply IH'.
    + assert (match vll with Some v => v | None => fst <$> zipTryEncoding s end = fst <$> zipTryEncoding s) as -> by (by destruct Hv as [->| ->]).
      assert (match fst <$> zipTryEncoding s with Some v => ll ← zipLoadInteger m (10 + esize es1 + psize e.1 + lsz) enc; mret (ll =? v) | None => mret false end = Ok (bool_decide (e.2 = s))) as ->
        by (rewrite <- E; by destruct (zipTryEncoding s) as [[v e']|]).
      cbn [mbind res_bind]. case_decide as Ed; [rewrite bool_decide_eq_true_2 by done; unfold mret, res_ret; by rewrite Ehere|].
      rewrite bool_decide_eq_false_2 by done. apply IH'; [done|by right].
Qed.

Lemma len_loop_ok fuel m es1 es2 n :
  zl_ok m (es1 ++ es2) → Z.of_nat (length m) < 2 ^ 32 → (length es2 < fuel)%nat →
  len_loop fuel m (10 + esize es1) n = Ok (n + Z.of_nat (length es2)).
Proof.
  revert es1 es2 n. induction fuel as [|fuel IH]; intros es1 es2 n Hz Hm Hf; [lia|]. cbn [len_loop]. destruct es2 as [|e es2].
  - rewrite app_nil_r in Hz. rewrite (end_at _ _ Hz). cbn [mbind res_bind length]. unfold mret, res_ret. f_equal. lia.
  - destruct (entry_at _ _ _ _ Hz Hm) as (_ & _ & _ & -> & ->). cbn [mbind res_bind].
    replace (10 + esize es1 + elen e) with (10 + esize (es1 ++ [e])) by (rewrite esize_app; cbn; lia).
    rewrite (cons_middle e es1 es2), app_assoc in Hz. cbn [length] in *. rewrite (IH _ _ _ Hz Hm) by lia. f_equal. lia.
Qed.

Lemma len_ok m es :
  zl_ok m es → Z.of_nat (length m) < 2 ^ 32 → ∃ m', ziplistLen m = Ok (Z.of_nat (length es), m') ∧ zl_ok m' es.
Proof.
  intros Hz Hm. assert (Hz' := Hz). destruct Hz' as [Hl Hs Hch Hb Ht (n & Hn & Hr & Hd)]. pose proof (esize_len es). unfold UINT16_MAX in *.
  unfold ziplistLen, UINT16_MAX. rewrite (count_read _ _ Hn) by lia. cbn [mbind res_bind]. destruct (Z.ltb_spec n 65535).
  - exists m. split; [|done]. unfold mret, res_ret. do 2 f_equal. lia.
  - change ZIPLIST_HEADER_SIZE with (10 + esize []). rewrite (len_loop_ok _ _ [] es 0 Hz Hm) by lia. cbn [mbind res_bind]. rewrite Z.add_0_l.
    destruct (Z.ltb_spec (Z.of_nat (length es)) 65535); [|by exists m]. unfold set_length.
    destruct (wr_ok m 8 (le_split 2 (Z.of_nat (length es)))) as (m' & -> & El & Hs' & Hf); [done|rewrite length_le_split; lia|]. cbn [mbind res_bind].
    exists m'. split; [done|]. assert (∀ r cs, seg m r cs → r + Z.of_nat (length cs) ≤ 8 ∨ 10 ≤ r → seg m' r cs) as Hk.
    { intros r cs Hc Hr'. apply Hf; [done|]. unfold apart. rewrite length_le_split. lia. }
    split; [lia|apply Hk; [done|lia]|done|rewrite El; apply Hk; [done|rewrite length_le_split; lia]|apply Hk; [done|rewrite length_le_split; lia]|].
    eexists. split; [done|]. unfold UINT16_MAX. lia.
Qed.

(** ** Changing *)

Lemma ziplist_new_ok : ∃ m, ziplistNew = Ok m ∧ zl_ok m [].
Proof.
  exists (Some <$> (le_split 4 11 ++ le_split 4 10 ++ le_split 2 0 ++ END)). split; [reflexivity|].
  pose proof (seg_whole (le_split 4 11 ++ le_split 4 10 ++ le_split 2 0 ++ END)) as Hs.
  apply seg_app in Hs as [H1 Hs]. apply seg_app in Hs as [H2 Hs]. apply seg_app in Hs as [H3 Hs]. split; try done.
  exists 0. split; [done|]. unfold UINT16_MAX. split; [lia|by left].
Qed.

Lemma length_max m es : zl_ok m es → weight es.*2 < 2 ^ 32 → Z.of_nat (length m) < 2 ^ 32.
Proof. intros Hz Hw. rewrite (z_len _ _ Hz). pose proof (esize_weight es). lia. Qed.

Lemma insert_index m es i s :
  zl_ok m es → (i ≤ length es)%nat → weight (insert_at i s es.*2) < 2 ^ 32 →
  ∃ m' es', __ziplistInsert m (at_index es i) s = Ok m' ∧ es'.*2 = insert_at i s es.*2 ∧ zl_ok m' es'.
Proof.
  intros Hz Hi Hw. unfold insert_at in *. rewrite <- fmap_take, <- fmap_drop in *. rewrite <- (take_drop i es) in Hz.
  destruct (insert_ok m (take i es) (drop i es) s Hz Hw) as (m' & es2 & E & E2 & Hz'). exists m', (take i es ++ (254 <=? prev_of 0 (take i es), s) :: es2).
  split; [done|]. split; [|done]. rewrite fmap_app. cbn. by rewrite E2.
Qed.

Lemma push_ok m es s w :
  zl_ok m es → weight (s :: es.*2) < 2 ^ 32 →
  ∃ m' es', ziplistPush m s w = Ok m' ∧ es'.*2 = match w with ZIPLIST_HEAD => s :: es.*2 | ZIPLIST_TAIL => es.*2 ++ [s] end ∧ zl_ok m' es'.
Proof.
  intros Hz Hw. unfold ziplistPush. rewrite weight_cons in Hw. destruct w.
  - cbn [mbind res_bind mret res_ret]. destruct (insert_index m es 0 s Hz) as (m' & es' & E & E' & Hz'); [lia|unfold insert_at; rewrite take_0, drop_0; cbn [app]; rewrite weight_cons; lia|].
    exists m', es'. split; [done|]. unfold insert_at in E'. by rewrite drop_0 in E'.
  - assert (Z.of_nat (length m) < 2 ^ 32) by (apply (length_max m es Hz); lia). pose proof (z_len _ _ Hz). pose proof (esize_nonneg es). unfold ZIPLIST_ENTRY_END.
    rewrite (bytes_read _ _ (z_bytes _ _ Hz)) by lia. cbn [mbind res_bind mret res_ret].
    replace (Z.of_nat (length m) - 1) with (at_index es (length es)) by (unfold at_index; rewrite take_ge by done; lia).
    destruct (insert_index m es (length es) s Hz) as (m' & es' & E & E' & Hz'); [done|unfold insert_at|exists m', es'].
    + rewrite take_ge, drop_ge, weight_app, weight_cons by (by rewrite length_fmap). change (weight []) with 11. lia.
    + split; [done|]. split; [|done]. unfold insert_at in E'. by rewrite take_ge, drop_ge in E' by (by rewrite length_fmap).
Qed.

Lemma push_all_ok l m es :
  zl_ok m es → weight (es.*2 ++ l) < 2 ^ 32 → ∃ m' es', push_all m l = Ok m' ∧ es'.*2 = es.*2 ++ l ∧ zl_ok m' es'.
Proof.
  revert m es. induction l as [|s l IH]; intros m es Hz Hw; cbn [push_all].
  - exists m, es. by rewrite app_nil_r.
  - pose proof Hw as Hw'. rewrite weight_app, weight_cons in Hw'. assert (11 ≤ weight l) by (clear; unfold weight; induction l; cbn in *; lia).
    destruct (push_ok m es s ZIPLIST_TAIL Hz) as (m1 & es1 & -> & E1 & Hz1); [rewrite weight_cons; lia|]. cbn [mbind res_bind].
    destruct (IH m1 es1 Hz1) as (m2 & es2 & -> & E2 & Hz2); [by rewrite E1, <- app_assoc|]. exists m2, es2. by rewrite E2, E1, <- app_assoc.
Qed.

Lemma delete_index m es i num :
  zl_ok m es → (i < length es)%nat → 0 ≤ num → weight es.*2 < 2 ^ 32 →
  ∃ m' es2, __ziplistDelete m (at_index es i) num = Ok m' ∧ (take i es ++ es2).*2 = delete_at i (Z.to_nat num) es.*2 ∧ zl_ok m' (take i es ++ es2).
Proof.
  intros Hz Hi Hn Hw. rewrite <- (take_drop i es) in Hz, Hw. destruct (delete_ok m (take i es) (drop i es) num Hz) as (m' & es2 & E & E2 & Hz'); try done.
  { intros E. apply (f_equal length) in E. rewrite length_drop in E. cbn in E. lia. }
  exists m', es2. split; [done|]. split; [|done]. unfold delete_at. by rewrite fmap_app, E2, fmap_drop, drop_drop, fmap_take.
Qed.

(** ** The theorem *)

Lemma related_cursor m es l (c : option nat) :
  zl_ok m es → es.*2 = l → weight l < 2 ^ 32 → (∀ i, c = Some i → i ≤ length es)%nat → related (m, at_index es <$> c) (l, c).
Proof. intros Hz El Hw Hc. exists es. split; [done|]. split; [done|]. split; [done|]. destruct c as [i|]; cbn; [|done]. split; [by apply Hc|done]. Qed.
Lemma found_fmap es (c : option nat) : found (at_index es <$> c) = sfound c.
Proof. by destruct c. Qed.
Lemma index_of_lt l z i : index_of l z = Some i → (i < length l)%nat.
Proof.
  unfold index_of. destruct (Z.ltb_spec z 0).
  - destruct (Z.leb_spec (- z) (Z.of_nat (length l))); [|done]. intros [= <-]. lia.
  - destruct (Z.ltb_spec z (Z.of_nat (length l))); [|done]. intros [= <-]. lia.
Qed.
Lemma find_from_le i l s skip cnt j : find_from i l s skip cnt = Some j → (j < i + length l)%nat.
Proof.
  revert i cnt. induction l as [|x l IH]; intros i cnt; cbn; [done|]. destruct (cnt =? 0); [case_decide; [intros [= <-]; lia|]|]; intros Hj%IH; lia.
Qed.

(** A call that reads: the block is kept, and the cursor is where it is to be. *)
Lemma read_step m es l (c c' : option nat) (r : res (option Z)) :
  zl_ok m es → es.*2 = l → weight l < 2 ^ 32 → r = Ok (at_index es <$> c') → (∀ i, c' = Some i → i ≤ length es)%nat →
  ∃ st, (p ← r; mret (m, p, found p)) = Ok (st, sfound c') ∧ related st (l, c').
Proof.
  intros Hz El Hw -> Hc. cbn [mbind res_bind mret res_ret]. rewrite found_fmap. eexists. split; [done|]. by apply related_cursor.
Qed.

(** A call that changes the block and loses the cursor. *)
Lemma write_step l (r : res mem) :
  weight l < 2 ^ 32 → (∃ m' es', r = Ok m' ∧ es'.*2 = l ∧ zl_ok m' es') →
  ∃ st, (m ← r; mret (m, None, ROk)) = Ok (st, ROk) ∧ related st (l, None).
Proof. intros Hw (m' & es' & -> & E & Hz). eexists. split; [done|]. by exists es'. Qed.

(** The cursor is there, at the index [i]. *)
Ltac with_cursor Hleg Hcur i Hi :=
  apply bool_decide_eq_true in Hleg as [i ->]; destruct (Hcur i eq_refl) as [-> Hi]; cbn [need res_of_option mbind res_bind from_option id] in *.

Lemma step_ok x st sp :
  related st sp → legal x sp = true → ∃ st', zstep x st = Ok (st', (sstep x sp).2) ∧ related st' (sstep x sp).1.
Proof.
  destruct st as [m c], sp as [l c0]. intros (es & Hz & El & Hw & Hc) Hleg. cbn [fst snd] in *. unfold legal in Hleg. apply andb_true_iff in Hleg as [Hw'%Z.ltb_lt Hleg].
  assert (Z.of_nat (length m) < 2 ^ 32) as Hm by (apply (length_max m es Hz); by rewrite El).
  assert (∀ j, c0 = Some j → c = Some (at_index es j) ∧ (j ≤ length es)%nat) as Hcur by (intros j ->; destruct c; [|done]; destruct Hc as [? ->]; done).
  assert (c = at_index es <$> c0) as Ec by (destruct c, c0; try done; by destruct Hc as [_ ->]). subst l.
  destruct x as [z| | | |s|s skip| |s w|s| |z num|l2]; cbn [sstep fst snd] in Hw' |- *; cbn [zstep].
  - apply (read_step m es _ None); [done..|by apply index_ok|]. intros i Hi%index_of_lt. rewrite length_fmap in Hi. lia.
  - with_cursor Hleg Hcur i Hi.
    apply (read_step m es _ None); [done..|by apply next_ok|]. intros j. unfold next_of. rewrite length_fmap. case_decide; [|done]. intros [= <-]. lia.
  - with_cursor Hleg Hcur i Hi.
    apply (read_step m es _ None); [done..|by apply prev_ok_index|]. intros j. destruct i; [done|]. intros [= <-]. lia.
  - with_cursor Hleg Hcur i Hi. rewrite (get_ok _ _ _ Hz Hm Hi).
    eexists. split; [done|]. by exists es.
  - with_cursor Hleg Hcur i Hi. rewrite (compare_ok _ _ _ _ Hz Hm Hi).
    eexists. split; [done|]. by exists es.
  - apply andb_true_iff in Hleg as [[i ->]%bool_decide_eq_true Hsk%Z.leb_le]. destruct (Hcur i eq_refl) as [-> Hi]. cbn [need res_of_option mbind res_bind from_option id].
    pose proof (z_len _ _ Hz). pose proof (esize_len es). assert (Hz' := Hz). rewrite <- (take_drop i es) in Hz'.
    apply (read_step m es _ None); [done..| |].
    + unfold ziplistFind, at_index. rewrite (find_loop_ok _ _ (take i es) (drop i es) s skip 0 None Hz' Hm) by (rewrite ?length_drop; lia || by left).
      rewrite take_drop, length_take, Nat.min_l, fmap_drop by done. done.
    + intros j Hj%find_from_le. rewrite length_drop, length_fmap in Hj. lia.
  - destruct (len_ok m es Hz Hm) as (m' & -> & Hz'). cbn [mbind res_bind]. rewrite length_fmap. eexists. split; [done|]. by exists es.
  - assert (weight (s :: es.*2) < 2 ^ 32) as Hws by (destruct w; cbn [fst] in Hw'; [done|]; rewrite weight_app, weight_cons in Hw'; change (weight []) with 11 in Hw'; rewrite weight_cons; lia).
    destruct (push_ok m es s w Hz Hws) as (m' & es' & -> & E & Hz'). eexists. split; [by destruct w|]. exists es'. by destruct w.
  - with_cursor Hleg Hcur i Hi.
    apply write_step; [done|]. by apply insert_index.
  - destruct c0 as [i|]; [|done]. apply Nat.ltb_lt in Hleg. rewrite length_fmap in Hleg. destruct (Hcur i eq_refl) as [-> Hi]. cbn [need res_of_option mbind res_bind from_option id] in *. unfold ziplistDelete.
    destruct (delete_index m es i 1 Hz) as (m' & es2 & -> & E & Hz'); [done|lia|done|]. cbn [mbind res_bind]. eexists. split; [done|]. exists (take i es ++ es2).
    split; [done|]. split; [done|]. split; [done|]. cbn [fst snd]. rewrite take_app_le, take_take, Nat.min_id by (rewrite length_take; lia).
    split; [rewrite length_app, length_take; lia|done].
  - apply Z.leb_le in Hleg. unfold ziplistDeleteRange. rewrite (index_ok m es z Hz Hm). cbn [mbind res_bind]. apply write_step; [done|].
    destruct (index_of es.*2 z) as [i|] eqn:Ei; cbn [fmap option_fmap option_map]; [|by exists m, es].
    apply index_of_lt in Ei. rewrite length_fmap in Ei. destruct (delete_index m es i num Hz Ei) as (m' & es2 & E & E2 & Hz'); [lia|done|]. by exists m', (take i es ++ es2).
  - apply bool_decide_eq_true in Hleg. destruct ziplist_new_ok as (m0 & -> & Hz0). cbn [mbind res_bind]. rewrite weight_app in Hw'.
    assert (11 ≤ weight es.*2) by (clear; pose proof (esize_weight es); pose proof (esize_nonneg es); lia).
    destruct (push_all_ok l2 m0 [] Hz0) as (m2 & es2 & -> & E2 & Hz2); [cbn; lia|]. cbn [mbind res_bind]. cbn in E2. apply write_step; [by rewrite weight_app|].
    rewrite <- E2. apply merge_ok; [done|done|by intros ->|rewrite weight_app, E2; lia].
Qed.

Lemma zrun_ok xs st sp :
  related st sp → legal_run xs sp = true → ∃ st', zrun xs st = Ok (st', (srun xs sp).2) ∧ related st' (srun xs sp).1.
Proof.
  revert st sp. induction xs as [|x xs IH]; intros st sp Hr Hl; cbn [zrun srun]; [by exists st|].
  cbn [legal_run] in Hl. apply andb_true_iff in Hl as [Hl1 Hl2]. destruct (step_ok x st sp Hr Hl1) as ([m c] & -> & Hr'). cbn [mbind res_bind].
  destruct (sstep x sp) as [[l c'] r]. cbn [fst snd] in *. destruct (IH (m, c) (l, c') Hr' Hl2) as (st' & -> & Hr''). cbn [mbind res_bind].
  destruct (srun xs (l, c')) as [sp' rs]. by exists st'.
Qed.

(** C17: whatever calls a client makes, a ziplist answers as the list of strings it holds, and no
    access is outside of its block or reads a byte that was not written; at the end it holds the
    strings of the list. *)
Theorem ziplist_refines xs :
  legal_run xs ([], None) = true →
  ∃ m m' c, ziplistNew = Ok m ∧ zrun xs (m, None) = Ok (m', c, (srun xs ([], None)).2) ∧ related (m', c) (srun xs ([], None)).1.
Proof.
  intros Hl. destruct ziplist_new_ok as (m & E & Hz). destruct (zrun_ok xs (m, None) ([], None)) as ([m' c] & E' & Hr); [by exists []|done|].
  by exists m, m', c.
Qed.

(** The third push makes the entries behind it grow one after the other. *)
Definition w_program : list zcall :=
  let a n := replicate n x61 in
  [CPush (a 250%nat) ZIPLIST_TAIL; CPush (a 251%nat) ZIPLIST_TAIL; CPush (a 300%nat) ZIPLIST_HEAD; CPush [x2d; x37] ZIPLIST_TAIL;
   CIndex (-2); CGet; CPrev; CInsert [x31; x32; x33]; CIndex 0; CFind [x2d; x37] 1; CNext; CIndex (-1); CCompare [x2d; x37]; CDelete; CLen;
   CDeleteRange 0 1; CMerge [[x30]; a 260%nat]; CIndex 3; CGet].
Lemma ziplist_refines_witness :
  ∃ m m' c, ziplistNew = Ok m ∧ zrun w_program (m, None) = Ok (m', c, (srun w_program ([], None)).2) ∧
    (srun w_program ([], None)).2 !! 18%nat = Some (RValue (Some (inr 0))) ∧ (srun w_program ([], None)).2 !! 14%nat = Some (RNum 4).
Proof.
  destruct (ziplist_refines w_program) as (m & m' & c & E1 & E2 & _); [vm_compute; reflexivity|].
  exists m, m', c. split; [exact E1|]. split; [exact E2|]. split; vm_compute; reflexivity.
Defined.
