(* ===== verification/Resp.v ===== *)
(** * Requests on the wire (src/src/networking.c, src/src/sds.c, src/src/aof.c)

    The parser of the query buffer of a client.  It is incremental: what has been
    recognized of a request is kept in the client ([multibulklen], [bulklen],
    [argv]), and the parser is called again when more bytes have come in.  A
    request is either in the format of the protocol (RESP), which the server itself
    writes into the AOF and to its replicas, or a line of words with quotes.

    The loop of [processInputBuffer] takes requests out of the buffer until something stops it: the
    client waits for RocksDB, is blocked, paused or to be closed, or an I/O thread leaves the
    command to the main thread.  [client_run] is what happens to a client: bytes come in, and the
    loop is entered again when the reason to stop is over.

    Shown: no input makes an assertion of the parser fail, whatever stops the loop, and the request of
    a client that waits is kept; a stream of encoded requests is
    parsed into these requests, however it is cut into pieces;
    quoting a string and splitting a line are inverse. *)

From S2P Require Import Prelude Util.
From stdpp Require Import list.
#[local] Open Scope Z_scope.

(** ** Characters *)

Definition CR : byte := x0d.
Definition LF : byte := x0a.
Definition NUL : byte := x00.

Definition isspace (c : byte) : bool := let z := Z_of_byte c in (z =? 32) || ((9 <=? z) && (z <=? 13)).
Definition isprint (c : byte) : bool := let z := Z_of_byte c in (32 <=? z) && (z <=? 126).

(** Strings end at the first NUL; the end of the list has one. *)
Fixpoint strchr (c : byte) (s : bytes) : option nat :=
  match s with
  | [] => None
  | b :: s' =>
      if decide (b = c) then Some O
      else if decide (b = NUL) then None
      else S <$> strchr c s'
  end.

(** ** Lines of words (sds.c) *)

Definition hex_digit (z : Z) : byte := byte_of_Z (if z <? 10 then 48 + z else 87 + z).

(** One character of [sdscatrepr]. *)
Definition repr_char (c : byte) : bytes :=
  match c with
  | x5c | x22 => [x5c; c]
  | x0a => [x5c; x6e]
  | x0d => [x5c; x72]
  | x09 => [x5c; x74]
  | x07 => [x5c; x61]
  | x08 => [x5c; x62]
  | _ =>
      if isprint c then [c]
      else [x5c; x78; hex_digit (Z_of_byte c / 16); hex_digit (Z_of_byte c mod 16)]
  end.
Definition sdscatrepr (s p : bytes) : bytes := s ++ [x22] ++ (p ≫= repr_char) ++ [x22].

Definition is_hex_digit (c : byte) : bool :=
  let z := Z_of_byte c in
  ((48 <=? z) && (z <=? 57)) || ((97 <=? z) && (z <=? 102)) || ((65 <=? z) && (z <=? 70)).
Definition hex_digit_to_int (c : byte) : Z :=
  let z := Z_of_byte c in
  if (48 <=? z) && (z <=? 57) then z - 48
  else if (97 <=? z) && (z <=? 102) then z - 87
  else if (65 <=? z) && (z <=? 70) then z - 55
  else 0.

(** What the character after a backslash stands for. *)
Definition unescape (c : byte) : byte :=
  match c with x6e => x0a | x72 => x0d | x74 => x09 | x62 => x08 | x61 => x07 | _ => c end.

Inductive quoting := Plain | InQuotes | InSingleQuotes.

(** A closing quote must be followed by a space or nothing at all. *)
Definition close_ok (p : bytes) : bool :=
  match p with [] => true | c :: _ => bool_decide (c = NUL) || isspace c end.

(** [while(!done)]: one word, and what follows it. *)
Fixpoint token (q : quoting) (p current : bytes) : option (bytes * bytes) :=
  match q with
  | InQuotes =>
      match p with
      | [] | x00 :: _ => None
      | x5c :: p1 =>
          match p1 with
          | x78 :: p2 =>
              match p2 with
              | h1 :: h2 :: p4 =>
                  if is_hex_digit h1 && is_hex_digit h2
                  then token q p4 (current ++ [byte_of_Z (hex_digit_to_int h1 * 16 + hex_digit_to_int h2)])
                  else token q p2 (current ++ [x78])
              | _ => token q p2 (current ++ [x78])
              end
          | [] | x00 :: _ => token q p1 (current ++ [x5c])
          | c :: p2 => token q p2 (current ++ [unescape c])
          end
      | x22 :: p1 => if close_ok p1 then Some (current, p1) else None
      | c :: p1 => token q p1 (current ++ [c])
      end
  | InSingleQuotes =>
      match p with
      | [] | x00 :: _ => None
      | x5c :: x27 :: p2 => token q p2 (current ++ [x27])
      | x27 :: p1 => if close_ok p1 then Some (current, p1) else None
      | c :: p1 => token q p1 (current ++ [c])
      end
  | Plain =>
      match p with
      | [] | x00 :: _ => Some (current, p)
      | x20 :: p1 | x0a :: p1 | x0d :: p1 | x09 :: p1 => Some (current, p1)
      | x22 :: p1 => token InQuotes p1 current
      | x27 :: p1 => token InSingleQuotes p1 current
      | c :: p1 => token Plain p1 (current ++ [c])
      end
  end.

Fixpoint skip_blanks (p : bytes) : bytes :=
  match p with c :: p' => if isspace c then skip_blanks p' else p | [] => [] end.

(** Each word takes a character at least, so the length of the line is enough fuel. *)
Fixpoint split_words (fuel : nat) (p : bytes) (vector : list bytes) : option (list bytes) :=
  match skip_blanks p, fuel with
  | [], _ | x00 :: _, _ => Some vector
  | _, O => None
  | p', S fuel' =>
      match token Plain p' [] with
      | None => None
      | Some (current, p'') => split_words fuel' p'' (vector ++ [current])
      end
  end.
Definition sdssplitargs (line : bytes) : option (list bytes) := split_words (length line) line [].

(** ** The query buffer (networking.c) *)

Inductive req_type := REQ_UNKNOWN | PROTO_REQ_INLINE | PROTO_REQ_MULTIBULK.

(** What the parser uses of a client; [argc] is the length of [c_argv]. *)
Record qclient := QClient {
  querybuf : bytes;
  qb_pos : nat;
  reqtype : req_type;
  multibulklen : Z;
  bulklen : Z;
  c_argv : list bytes;
  close_after_reply : bool;
  c_errors : list string                       (* protocol errors in the reply *)
}.
Implicit Types c : qclient.

Record proto_cfg := ProtoCfg {
  proto_max_bulk_len : Z;
  client_max_querybuf_len : Z;
  gopher_enabled : bool
}.
Implicit Types g : proto_cfg.

Definition PROTO_INLINE_MAX_SIZE : Z := 1024 * 64.
Definition PROTO_MBULK_BIG_ARG : Z := 1024 * 32.

(** What has not been parsed yet. *)
Definition unread c : bytes := drop (qb_pos c) (querybuf c).

Definition set_pos (n : nat) c : qclient :=
  QClient (querybuf c) n (reqtype c) (multibulklen c) (bulklen c) (c_argv c) (close_after_reply c) (c_errors c).
Definition set_buf (b : bytes) (n : nat) c : qclient :=
  QClient b n (reqtype c) (multibulklen c) (bulklen c) (c_argv c) (close_after_reply c) (c_errors c).
Definition set_reqtype (t : req_type) c : qclient :=
  QClient (querybuf c) (qb_pos c) t (multibulklen c) (bulklen c) (c_argv c) (close_after_reply c) (c_errors c).
Definition set_multibulklen (n : Z) c : qclient :=
  QClient (querybuf c) (qb_pos c) (reqtype c) n (bulklen c) (c_argv c) (close_after_reply c) (c_errors c).
Definition set_bulklen (n : Z) c : qclient :=
  QClient (querybuf c) (qb_pos c) (reqtype c) (multibulklen c) n (c_argv c) (close_after_reply c) (c_errors c).
Definition set_argv (l : list bytes) c : qclient :=
  QClient (querybuf c) (qb_pos c) (reqtype c) (multibulklen c) (bulklen c) l (close_after_reply c) (c_errors c).
Definition set_close c : qclient :=
  QClient (querybuf c) (qb_pos c) (reqtype c) (multibulklen c) (bulklen c) (c_argv c) true (c_errors c).

Definition resetClient c : qclient :=
  QClient (querybuf c) (qb_pos c) REQ_UNKNOWN 0 (-1) [] (close_after_reply c) (c_errors c).

(** [addReplyError] and [setProtocolError]. *)
Definition setProtocolError (err : string) c : qclient :=
  QClient (querybuf c) (qb_pos c) (reqtype c) (multibulklen c) (bulklen c) (c_argv c) true (c_errors c ++ [err]).

(** *** Inline requests *)

(** [true] is C_OK: there is a request. *)
Definition processInlineBuffer c : bool * qclient :=
  let u := unread c in
  match strchr LF u with
  | None =>
      (false, if PROTO_INLINE_MAX_SIZE <? Z.of_nat (length u)
              then setProtocolError "too big inline request" c else c)
  | Some newline =>
      let '(querylen, linefeed_chars) :=
        match newline with
        | S n => if decide (u !! n = Some CR) then (n, 2%nat) else (newline, 1%nat)
        | O => (newline, 1%nat)
        end in
      match sdssplitargs (take querylen u) with
      | None => (false, setProtocolError "unbalanced quotes in request" c)
      | Some argv => (true, set_argv argv (set_pos (qb_pos c + querylen + linefeed_chars) c))
      end
  end.

(** *** Multi-bulk requests *)

(** The search for the end of a line that has a length. *)
Inductive line := NoLine | LineTooBig | Line (newline : nat).
Definition find_line (u : bytes) : line :=
  match strchr CR u with
  | None => if PROTO_INLINE_MAX_SIZE <? Z.of_nat (length u) then LineTooBig else NoLine
  | Some newline =>
      if to_signed 64 (Z.of_nat (length u) - 2) <? Z.of_nat newline then NoLine else Line newline
  end.

(** A part of a C function: it returns, or goes on. *)
Inductive flow := Return (ok : bool) c | Next c.

(** [if (c->multibulklen == 0)] *)
Definition read_multibulklen c : res flow :=
  serverAssert (bool_decide (c_argv c = [])) "c->argc == 0" ;;
  let u := unread c in
  match find_line u with
  | LineTooBig => mret (Return false (setProtocolError "too big mbulk count string" c))
  | NoLine => mret (Return false c)
  | Line newline =>
      serverAssert (bool_decide (head u = Some x2a)) "c->querybuf[c->qb_pos] == '*'" ;;
      match string2ll (take (newline - 1) (drop 1 u)) with
      | None => mret (Return false (setProtocolError "invalid multibulk length" c))
      | Some ll =>
          if 1024 * 1024 <? ll then mret (Return false (setProtocolError "invalid multibulk length" c))
          else
            let c := set_pos (qb_pos c + newline + 2) c in
            if ll <=? 0 then mret (Return true c)
            else mret (Next (set_multibulklen ll c))
      end
  end.

(** [if (c->bulklen == -1)]; the buffer is moved to its beginning for a large
    argument. *)
Definition read_bulklen g c : flow :=
  let u := unread c in
  match find_line u with
  | LineTooBig => Return false (setProtocolError "too big bulk count string" c)
  | NoLine => Return false c
  | Line newline =>
      if decide (head u = Some x24) then
        match string2ll (take (newline - 1) (drop 1 u)) with
        | None => Return false (setProtocolError "invalid bulk length" c)
        | Some ll =>
            if (ll <? 0) || (proto_max_bulk_len g <? ll)
            then Return false (setProtocolError "invalid bulk length" c)
            else
              let c := set_pos (qb_pos c + newline + 2) c in
              let c := if (PROTO_MBULK_BIG_ARG <=? ll) && (Z.of_nat (length (unread c)) <=? u64 (ll + 2))
                       then set_buf (unread c) 0 c else c in
              Next (set_bulklen ll c)
        end
      else Return false (setProtocolError "expected '$'" c)
  end.

(** The argument itself; [None] when it has not come in completely. *)
Definition read_bulk c : option qclient :=
  if Z.of_nat (length (unread c)) <? u64 (bulklen c + 2) then None
  else
    let len := Z.to_nat (bulklen c) in
    let c' :=
      if (qb_pos c =? 0)%nat && (PROTO_MBULK_BIG_ARG <=? bulklen c) &&
         (Z.of_nat (length (querybuf c)) =? u64 (bulklen c + 2))
      then set_buf [] (qb_pos c) (set_argv (c_argv c ++ [take len (querybuf c)]) c)
      else set_pos (qb_pos c + len + 2) (set_argv (c_argv c ++ [take len (unread c)]) c) in
    Some (set_multibulklen (multibulklen c - 1) (set_bulklen (-1) c')).

(** [while(c->multibulklen)]: the argument is the number of bulks to come. *)
Fixpoint bulk_loop (n : nat) g c : bool * qclient :=
  match n with
  | O => (true, c)
  | S n' =>
      match (if bulklen c =? -1 then read_bulklen g c else Next c) with
      | Return ok c => (ok, c)
      | Next c =>
          match read_bulk c with
          | None => (false, c)
          | Some c => bulk_loop n' g c
          end
      end
  end.

Definition processMultibulkBuffer g c : res (bool * qclient) :=
  f ← (if multibulklen c =? 0 then read_multibulklen c else mret (Next c));
  match f with
  | Return ok c => mret (ok, c)
  | Next c =>
      serverAssert (0 <? multibulklen c) "c->multibulklen > 0" ;;
      mret (bulk_loop (Z.to_nat (multibulklen c)) g c)
  end.

(** *** The loop over the buffer *)

(** One turn of the loop of [processInputBuffer], up to the execution of the
    command; [None] leaves the loop. *)
Definition parse_request g c : res (option (list bytes) * qclient) :=
  let c := match reqtype c with
           | REQ_UNKNOWN =>
               set_reqtype (if decide (head (unread c) = Some x2a) then PROTO_REQ_MULTIBULK else PROTO_REQ_INLINE) c
           | _ => c
           end in
  '(ok, c) ← match reqtype c with
             | PROTO_REQ_INLINE => mret (processInlineBuffer c)
             | PROTO_REQ_MULTIBULK => processMultibulkBuffer g c
             | REQ_UNKNOWN => Abort "Unknown request type"
             end;
  if negb ok then mret (None, c)
  else if match reqtype c, c_argv c with
          | PROTO_REQ_INLINE, [] => gopher_enabled g
          | PROTO_REQ_INLINE, [a] => gopher_enabled g && bool_decide (head a = Some x2f)
          | _, _ => false
          end
  then mret (None, set_close (resetClient c))       (* processGopherRequest *)
  else mret (Some (c_argv c), c).
Definition next_request g c : res (option (list bytes) * qclient) :=
  '(r, c) ← parse_request g c;
  mret (r, match r with Some _ => resetClient c | None => c end).

(** The requests a buffer holds completely: what the loop of [processInputBuffer] finds in it when no command makes it stop
    ([input_loop_requests]).  Each of them has a byte at least. *)
Fixpoint requests (fuel : nat) g c : res (list (list bytes) * qclient) :=
  if (length (querybuf c) <=? qb_pos c)%nat || close_after_reply c then mret ([], c)
  else
    match fuel with
    | O => Abort "fuel"
    | S fuel' =>
        '(r, c) ← next_request g c;
        match r with
        | None => mret ([], c)
        | Some argv => '(l, c) ← requests fuel' g c; mret (argv :: l, c)
        end
    end.

(** Bytes come in for such a client; what has been parsed is cut off the buffer.  [None] closes a
    client whose buffer has grown too large. *)
Definition readQueryFromClient g (chunk : bytes) c : res (option (list (list bytes) * qclient)) :=
  let c := set_buf (querybuf c ++ chunk) (qb_pos c) c in
  if client_max_querybuf_len g <? Z.of_nat (length (querybuf c)) then mret None
  else
    '(l, c) ← requests (length (unread c)) g c;
    mret (Some (l, set_buf (unread c) 0 c)).

Fixpoint read_chunks g (chunks : list bytes) c : res (option (list (list bytes) * qclient)) :=
  match chunks with
  | [] => mret (Some ([], c))
  | chunk :: chunks' =>
      o ← readQueryFromClient g chunk c;
      match o with
      | None => mret None
      | Some (l, c) =>
          o ← read_chunks g chunks' c;
          mret (match o with None => None | Some (l', c) => Some (l ++ l', c) end)
      end
  end.

Definition createClient : qclient := QClient [] 0 REQ_UNKNOWN 0 (-1) [] false [].

(** *** The loop over the buffer, with the commands *)

(** A client with the flags that stop the loop: it waits for RocksDB ([rockKeyNumber > 0]), is blocked (in a command of
    a module or another one), has a command that an I/O thread has left to the main thread, or is to be closed. *)
Record pclient := PClient {
  pq : qclient;
  p_rock : bool;
  p_blocked : option bool;
  p_pending_command : bool;
  p_close_asap : bool
}.
Section input.
Implicit Types p : pclient.
Definition set_pq c p : pclient := PClient c (p_rock p) (p_blocked p) (p_pending_command p) (p_close_asap p).

(** How a command ends: done; it has to wait for RocksDB; the client is blocked, in a command of a module or not; it is to be closed
    (QUIT, for which [processCommand] returns C_ERR, or CLOSE_ASAP); it has been freed. *)
Inductive outcome := ODone | OWait | OBlock (module : bool) | OQuit | OCloseAsap | OGone.
(** What a turn of the loop finds: clients are paused, a script is busy and this is the master, this is an I/O thread, and the
    outcome of the command. *)
Record turn := Turn { t_paused : bool; t_busy_master : bool; t_threaded : bool; t_outcome : outcome }.

(** [processCommandAndResetClient]; [None]: the client is no longer valid. *)
Definition processCommandAndResetClient (o : outcome) p : option pclient :=
  match o with
  | ODone => Some (set_pq (resetClient (pq p)) p)
  | OWait => Some (PClient (pq p) true (p_blocked p) (p_pending_command p) (p_close_asap p))
  | OBlock module =>
      Some (PClient (if module then pq p else resetClient (pq p)) (p_rock p) (Some module) (p_pending_command p) (p_close_asap p))
  | OQuit => Some (set_pq (set_close (pq p)) p)
  | OCloseAsap => Some (PClient (resetClient (pq p)) (p_rock p) (p_blocked p) (p_pending_command p) true)
  | OGone => None
  end.

Definition stopped (t : turn) p : bool :=
  p_rock p || t_paused t || bool_decide (is_Some (p_blocked p)) || p_pending_command p || t_busy_master t ||
  close_after_reply (pq p) || p_close_asap p.

(** The requests that are executed, and the client.  Each turn finds another state of the server. *)
Fixpoint input_loop (fuel : nat) g (ts : nat → turn) p : res (list (list bytes) * option pclient) :=
  if (length (querybuf (pq p)) <=? qb_pos (pq p))%nat || stopped (ts 0%nat) p then mret ([], Some p)
  else
    match fuel with
    | O => Abort "fuel"
    | S fuel' =>
        let next := input_loop fuel' g (fun n => ts (S n)) in
        '(r, c) ← parse_request g (pq p);
        match r with
        | None => mret ([], Some (set_pq c p))
        | Some [] => next (set_pq (resetClient c) p)
        | Some argv =>
            if t_threaded (ts 0%nat) then mret ([], Some (PClient c (p_rock p) (p_blocked p) true (p_close_asap p)))
            else
              match processCommandAndResetClient (t_outcome (ts 0%nat)) (set_pq c p) with
              | None => mret ([argv], None)
              | Some p => '(l, o) ← next p; mret (argv :: l, o)
              end
        end
    end.
Definition trim c : qclient := set_buf (unread c) 0 c.
Definition processInputBuffer g (ts : nat → turn) p : res (list (list bytes) * option pclient) :=
  '(l, o) ← input_loop (length (unread (pq p))) g ts p;
  mret (l, match o with Some p => Some (set_pq (trim (pq p)) p) | None => None end).

(** What happens to a client: bytes come in; the command it waits with is run (and may block it); it is unblocked; the main thread runs
    what an I/O thread has left; the loop is called again. *)
Inductive client_event :=
| EBytes (chunk : bytes) (ts : nat → turn)
| EResume (blocks : bool) (ts : nat → turn)
| EUnblock (ts : nat → turn)
| EPending (o : outcome) (ts : nat → turn)
| EAgain (ts : nat → turn).

(** Events that cannot happen change nothing.  A client that has been freed must not be used again. *)
Definition client_step g (e : client_event) p : res (list (list bytes) * option pclient) :=
  match e with
  | EBytes chunk ts =>
      let c := set_buf (querybuf (pq p) ++ chunk) (qb_pos (pq p)) (pq p) in
      if client_max_querybuf_len g <? Z.of_nat (length (querybuf c)) then mret ([], None)
      else processInputBuffer g ts (set_pq c p)
  | EResume blocks ts =>
      if p_rock p then
        let argv := c_argv (pq p) in
        '(l, o) ← processInputBuffer g ts (PClient (resetClient (pq p)) false (if blocks then Some false else p_blocked p) (p_pending_command p) (p_close_asap p));
        mret (argv :: l, o)
      else mret ([], Some p)
  | EUnblock ts =>
      match p_blocked p with
      | None => mret ([], Some p)
      | Some module =>
          processInputBuffer g ts (PClient (if module : bool then resetClient (pq p) else pq p) (p_rock p) None (p_pending_command p) (p_close_asap p))
      end
  | EPending o ts =>
      if p_pending_command p then
        match processCommandAndResetClient o (PClient (pq p) (p_rock p) (p_blocked p) false (p_close_asap p)) with
        | None => Abort "use of a client that has been freed"
        | Some p1 => '(l, o) ← processInputBuffer g ts p1; mret (c_argv (pq p) :: l, o)
        end
      else mret ([], Some p)
  | EAgain ts => processInputBuffer g ts p
  end.
Fixpoint client_run g (es : list client_event) p : res (list (list bytes) * option pclient) :=
  match es with
  | [] => mret ([], Some p)
  | e :: es' =>
      '(l, o) ← client_step g e p;
      match o with
      | None => mret (l, None)
      | Some p => '(l', o) ← client_run g es' p; mret (l ++ l', o)
      end
  end.
Definition new_pclient : pclient := PClient createClient false None false false.
End input.

(** ** What the server writes (aof.c) *)

Definition CRLF : bytes := [CR; LF].
Definition length_line (c : byte) (n : Z) : option bytes :=
  s ← ll2string 31 n; Some (c :: s ++ CRLF).
Fixpoint cat_args (dst : bytes) (argv : list bytes) : option bytes :=
  match argv with
  | [] => Some dst
  | a :: argv' =>
      l ← length_line x24 (Z.of_nat (length a));
      cat_args (dst ++ l ++ a ++ CRLF) argv'
  end.
Definition catAppendOnlyGenericCommand (dst : bytes) (argv : list bytes) : option bytes :=
  l ← length_line x2a (Z.of_nat (length argv));
  cat_args (dst ++ l) argv.
Fixpoint cat_commands (dst : bytes) (cmds : list (list bytes)) : option bytes :=
  match cmds with
  | [] => Some dst
  | argv :: cmds' => dst ← catAppendOnlyGenericCommand dst argv; cat_commands dst cmds'
  end.

(** ** Quoting and splitting *)

Lemma token_repr_char b p cur : token InQuotes (repr_char b ++ p) cur = token InQuotes p (cur ++ [b]).
Proof. destruct b; reflexivity. Qed.

Lemma token_repr s : ∀ p cur,
  close_ok p = true → token InQuotes ((s ≫= repr_char) ++ x22 :: p) cur = Some (cur ++ s, p).
Proof.
  induction s as [|b s IH]; intros p cur Hp; cbn [mbind list_bind].
  - rewrite app_nil_r. simpl. by rewrite Hp.
  - rewrite <- app_assoc, token_repr_char, IH by done. by rewrite <- app_assoc.
Qed.

(** The words of a line, each of them quoted. *)
Definition quoted (s : bytes) : bytes := sdscatrepr [] s.
Fixpoint quoted_line (args : list bytes) : bytes :=
  match args with
  | [] => []
  | [a] => quoted a
  | a :: args' => quoted a ++ x20 :: quoted_line args'
  end.

Lemma split_quoted a p fuel vec :
  close_ok p = true → split_words (S fuel) (quoted a ++ p) vec = split_words fuel p (vec ++ [a]).
Proof.
  intros Hp. unfold quoted, sdscatrepr. rewrite <- !app_assoc. cbn [app split_words skip_blanks isspace].
  change (isspace x22) with false. cbv iota. cbn [token]. by rewrite token_repr.
Qed.

Lemma split_words_blank fuel p vec : split_words fuel (x20 :: p) vec = split_words fuel p vec.
Proof. by destruct fuel. Qed.

Lemma quoted_length a : (2 ≤ length (quoted a))%nat.
Proof. unfold quoted, sdscatrepr. rewrite !length_app. simpl. lia. Qed.

Lemma split_quoted_line args : ∀ fuel vec,
  (length args ≤ fuel)%nat → split_words fuel (quoted_line args) vec = Some (vec ++ args).
Proof.
  induction args as [|a args IH]; intros fuel vec Hf; simpl in Hf.
  - rewrite app_nil_r. by destruct fuel.
  - destruct fuel as [|fuel]; [lia|]. destruct args as [|b args].
    + rewrite <- (app_nil_r (quoted_line [a])). cbn [quoted_line]. rewrite split_quoted by done. by destruct fuel.
    + change (quoted_line (a :: b :: args)) with (quoted a ++ x20 :: quoted_line (b :: args)).
      rewrite split_quoted, split_words_blank, IH by (done || simpl in *; lia). by rewrite <- app_assoc.
Qed.

Lemma length_quoted_line args : (length args ≤ length (quoted_line args))%nat.
Proof.
  induction args as [|a [|b args] IH]; [done| |].
  - pose proof (quoted_length a). simpl in *. lia.
  - change (quoted_line (a :: b :: args)) with (quoted a ++ x20 :: quoted_line (b :: args)).
    rewrite length_app. simpl in *. lia.
Qed.

(** What was quoted by [sdscatrepr] comes back from [sdssplitargs]. *)
Lemma sdssplitargs_quoted args : sdssplitargs (quoted_line args) = Some args.
Proof. unfold sdssplitargs. by rewrite split_quoted_line by apply length_quoted_line. Qed.

(** ** The lines that hold a length *)

Lemma strchr_None (c : byte) s : c ∉ s → strchr c s = None.
Proof.
  induction s as [|b s IH]; intros H; simpl; [done|]. apply not_elem_of_cons in H as [Hb Hs].
  rewrite decide_False by done. destruct (decide (b = NUL)); [done|]. by rewrite IH.
Qed.
Lemma strchr_app (c : byte) s p : c ∉ s → NUL ∉ s → strchr c (s ++ c :: p) = Some (length s).
Proof.
  induction s as [|b s IH]; intros H H0; simpl; [by rewrite decide_True|].
  apply not_elem_of_cons in H as [Hb Hs]. apply not_elem_of_cons in H0 as [Hb0 Hs0].
  rewrite !decide_False by done. by rewrite IH.
Qed.
Lemma strchr_Some (c : byte) s n : strchr c s = Some n → (n < length s)%nat ∧ s !! n = Some c.
Proof.
  revert n. induction s as [|b s IH]; intros n; simpl; [done|].
  destruct (decide (b = c)) as [->|]; [intros [= <-]; simpl; split; [lia|done]|].
  destruct (decide (b = NUL)); [done|]. destruct (strchr c s) as [m|] eqn:Hm; [|done].
  intros [= <-]. destruct (IH m eq_refl). simpl. split; [lia|done].
Qed.

(** A list that begins with [l], or stops inside it. *)
Lemma prefix_cases {A} (u w l r : list A) :
  u ++ w = l ++ r → (∃ u', u = l ++ u' ∧ u' ++ w = r) ∨ (∃ l', l = u ++ l' ∧ l' ≠ [] ∧ w = l' ++ r).
Proof.
  intros H. destruct (decide (length l ≤ length u)%nat) as [Hl|Hl].
  - left. exists (drop (length l) u).
    assert (take (length l) u = l) as Ht.
    { apply (f_equal (take (length l))) in H. by rewrite take_app_length, take_app_le in H. }
    rewrite <- Ht at 1. rewrite take_drop. split; [done|]. apply (f_equal (drop (length l))) in H.
    by rewrite drop_app_length, drop_app_le in H.
  - right. exists (drop (length u) l).
    assert (take (length u) l = u) as Ht.
    { apply (f_equal (take (length u))) in H. by rewrite take_app_length, take_app_le in H by lia. }
    rewrite <- Ht at 1. rewrite take_drop. split_and!; [done| |].
    + intros Hd. apply (f_equal length) in Hd. rewrite length_drop in Hd. simpl in Hd. lia.
    + apply (f_equal (drop (length u))) in H. rewrite drop_app_length in H. by rewrite H, drop_app_le by lia.
Qed.

Definition digit_char (c : byte) : Prop := ∃ d, 0 ≤ d < 10 ∧ c = chr d.

Lemma chr_Z d : 0 ≤ d < 10 → Z_of_byte (chr d) = 48 + d.
Proof. intros Hd. unfold chr. rewrite Z_of_byte_of_Z, Z.mod_small; lia. Qed.

Lemma digit_char_ne (c : byte) b : digit_char c → Z_of_byte b < 48 → c ≠ b.
Proof. intros (d & Hd & ->) Hb <-. rewrite chr_Z in Hb by done. lia. Qed.

Lemma length_digits n : 0 ≤ n ≤ LLONG_MAX → Forall digit_char (sdsll2str n) ∧ (length (sdsll2str n) ≤ 20)%nat.
Proof.
  intros Hn. assert (is_ll n) as Hl by (unfold is_ll, LLONG_MIN, LLONG_MAX in *; lia).
  pose proof (sdsll2str_length n Hl). pose proof (sdigits10_max n Hl). split; [|lia].
  rewrite sdsll2str_eq by done. rewrite (proj2 (Z.ltb_ge _ _)) by lia. apply dec_digits.
  unfold abs_ll, LLONG_MAX in *. rewrite (proj2 (Z.ltb_ge _ _)) by lia. lia.
Qed.

(** A character that is no part of a number, as the first of a line. *)
Definition line_of (c : byte) (n : Z) : bytes := c :: sdsll2str n ++ CRLF.

Lemma not_in_line (c : byte) n b :
  0 ≤ n ≤ LLONG_MAX → c ≠ b → Z_of_byte b < 48 → b ∉ c :: sdsll2str n.
Proof.
  intros Hn Hc Hb. apply not_elem_of_cons. split; [done|]. intros Hin.
  destruct (length_digits n Hn) as [Hd _]. rewrite Forall_forall in Hd.
  by apply (digit_char_ne b b (Hd b Hin) Hb).
Qed.

Definition length_char (c : byte) : Prop := c = x2a ∨ c = x24.

Lemma line_clean (c : byte) n : length_char c → 0 ≤ n ≤ LLONG_MAX → CR ∉ c :: sdsll2str n ∧ NUL ∉ c :: sdsll2str n.
Proof. intros Hc Hn. split; apply not_in_line; try done; by destruct Hc as [-> | ->]. Qed.

Lemma find_line_here (c : byte) n u :
  length_char c → 0 ≤ n ≤ LLONG_MAX → Z.of_nat (length (line_of c n ++ u)) < 2 ^ 63 →
  find_line (line_of c n ++ u) = Line (S (length (sdsll2str n))).
Proof.
  intros Hc Hn Hl. destruct (line_clean c n Hc Hn) as [H1 H2]. unfold find_line.
  assert (line_of c n ++ u = (c :: sdsll2str n) ++ CR :: LF :: u) as He
    by (unfold line_of, CRLF; simpl; by rewrite <- app_assoc).
  rewrite He in Hl |- *. rewrite strchr_app by done. rewrite length_app in Hl |- *. cbn [length] in Hl |- *.
  rewrite to_signed_small by lia. by rewrite (proj2 (Z.ltb_ge _ _)) by lia.
Qed.

Lemma find_line_part (c : byte) n u l :
  length_char c → 0 ≤ n ≤ LLONG_MAX → line_of c n = u ++ l → l ≠ [] → find_line u = NoLine.
Proof.
  intros Hc Hn He Hl. destruct (line_clean c n Hc Hn) as [H1 H2].
  destruct (length_digits n Hn) as [_ Hd].
  assert ((c :: sdsll2str n) ++ [CR; LF] = u ++ l) as He' by (rewrite <- He; done).
  unfold find_line.
  assert (length u ≤ 22)%nat as Hu.
  { apply (f_equal length) in He'. rewrite !length_app in He'. simpl in He'. destruct l; [done|]. simpl in He'. lia. }
  assert (∀ v, u = v → CR ∉ v → strchr CR u = None) as Hnone by (intros v -> Hv; by apply strchr_None).
  symmetry in He'. apply prefix_cases in He' as [(u' & -> & Hu')|(l' & Hl' & _ & _)].
  - destruct u' as [|b u'].
    + rewrite app_nil_r in *. rewrite strchr_None by done.
      by rewrite (proj2 (Z.ltb_ge _ _)) by (unfold PROTO_INLINE_MAX_SIZE; lia).
    + simpl in Hu'. injection Hu' as -> Hu'. rewrite strchr_app by done.
      assert (u' = []) as ->.
      { destruct u' as [|b u']; [done|]. injection Hu' as -> Hu'. by apply app_eq_nil in Hu' as [_ ->]. }
      rewrite length_app. cbn [length]. rewrite to_signed_small by lia.
      by rewrite (proj2 (Z.ltb_lt _ _)) by lia.
  - rewrite Hl' in H1. rewrite strchr_None by (intros Hin; apply H1; apply elem_of_app; by left).
    by rewrite (proj2 (Z.ltb_ge _ _)) by (unfold PROTO_INLINE_MAX_SIZE; lia).
Qed.

(** ** Streams of requests *)

Definition bulk (a : bytes) : bytes := line_of x24 (Z.of_nat (length a)) ++ a ++ CRLF.
Definition request_bytes (argv : list bytes) : bytes := line_of x2a (Z.of_nat (length argv)) ++ (argv ≫= bulk).
Definition stream (cmds : list (list bytes)) : bytes := cmds ≫= request_bytes.

(** Requests within the limits of the parser. *)
Definition sendable g (argv : list bytes) : Prop :=
  argv ≠ [] ∧ Z.of_nat (length argv) ≤ 1024 * 1024 ∧
  Forall (fun a => Z.of_nat (length a) ≤ proto_max_bulk_len g) argv.

Definition small c : Prop := Z.of_nat (length (unread c)) < 2 ^ 63.

Lemma unread_set_pos n c : unread (set_pos (qb_pos c + n) c) = drop n (unread c).
Proof. unfold unread. simpl. by rewrite drop_drop. Qed.

Lemma line_number (c : byte) n u :
  0 ≤ n ≤ LLONG_MAX →
  string2ll (take (S (length (sdsll2str n)) - 1) (drop 1 (line_of c n ++ u))) = Some n.
Proof.
  intros Hn. replace (S (length (sdsll2str n)) - 1)%nat with (length (sdsll2str n)) by lia. unfold line_of. cbn [app drop].
  rewrite drop_0, <- app_assoc, take_app_length. apply string2ll_complete. unfold is_ll, LLONG_MIN, LLONG_MAX in *. lia.
Qed.

Lemma drop_line (c : byte) n u : drop (S (length (sdsll2str n)) + 2) (line_of c n ++ u) = u.
Proof.
  assert (S (length (sdsll2str n)) + 2 = length (line_of c n))%nat as ->; [|apply drop_app_length].
  unfold line_of, CRLF. simpl. rewrite length_app. simpl. lia.
Qed.

Lemma length_line_of (c : byte) n : (0 < length (line_of c n))%nat.
Proof. unfold line_of. simpl. lia. Qed.

(** The length of a bulk. *)
Lemma read_bulklen_stream g c w a r :
  unread c ++ w = bulk a ++ r → small c → Z.of_nat (length a) ≤ proto_max_bulk_len g ≤ LLONG_MAX →
  (read_bulklen g c = Return false c ∧ w ≠ []) ∨
  (∃ b p, read_bulklen g c = Next (set_bulklen (Z.of_nat (length a)) (set_buf b p c)) ∧
     drop p b ++ w = a ++ CRLF ++ r ∧ (length (drop p b) < length (unread c))%nat).
Proof.
  intros Hu Hs Ha. unfold bulk in Hu. rewrite <- !app_assoc in Hu.
  assert (length_char x24) as Hc by (by right). unfold read_bulklen, small in *.
  apply prefix_cases in Hu as [(u' & He & Hu')|(l' & He & Hl' & ->)].
  - right. rewrite He in Hs |- *. rewrite find_line_here by (done || lia).
    rewrite decide_True by done. rewrite line_number by lia.
    rewrite (proj2 (Z.ltb_ge _ 0)), (proj2 (Z.ltb_ge _ _)) by lia. cbn [orb].
    pose proof (unread_set_pos (S (length (sdsll2str (Z.of_nat (length a)))) + 2) c) as Hun.
    rewrite He, drop_line in Hun. rewrite Nat.add_assoc in Hun. rewrite Hun.
    pose proof (length_line_of x24 (Z.of_nat (length a))). rewrite length_app.
    destruct (_ && _).
    + eexists _, _. split; [reflexivity|]. split; [done|]. rewrite drop_0. lia.
    + eexists _, _. split; [reflexivity|]. unfold unread in Hun. simpl in Hun. rewrite Hun. split; [done|lia].
  - left. rewrite (find_line_part x24 (Z.of_nat (length a)) (unread c) l') by (done || lia).
    split; [done|]. by destruct l'.
Qed.

(** The bulk itself. *)
Lemma read_bulk_stream c w a r :
  unread c ++ w = a ++ CRLF ++ r → bulklen c = Z.of_nat (length a) → Z.of_nat (length a) ≤ LLONG_MAX →
  (read_bulk c = None ∧ w ≠ []) ∨
  (∃ b p, read_bulk c = Some (QClient b p (reqtype c) (multibulklen c - 1) (-1) (c_argv c ++ [a])
                                (close_after_reply c) (c_errors c)) ∧
     drop p b ++ w = r ∧ (length (drop p b) < length (unread c))%nat).
Proof.
  intros Hu Hb Ha. unfold read_bulk. rewrite Hb. unfold u64, LLONG_MAX in *. rewrite Z.mod_small by lia.
  rewrite Nat2Z.id. rewrite app_assoc in Hu. apply prefix_cases in Hu as [(u' & He & Hu')|(l' & He & Hl' & ->)].
  - right. rewrite He. rewrite !length_app. cbn [length CRLF]. rewrite (proj2 (Z.ltb_ge _ _)) by lia.
    destruct (_ && _ && _) eqn:Hopt.
    + apply andb_prop in Hopt as [[Hp _]%andb_prop Hlen].
      assert (unread c = querybuf c) as Hq.
      { unfold unread. by rewrite (proj1 (Nat.eqb_eq _ _) Hp). }
      rewrite <- Hq, He, <- app_assoc, take_app_length.
      eexists _, _. split; [reflexivity|].
      rewrite <- Hq, He, !length_app in Hlen. cbn [length CRLF] in Hlen. apply Z.eqb_eq in Hlen.
      assert (u' = []) as -> by (apply nil_length_inv; lia).
      simpl. rewrite drop_nil. simpl in *. split; [done|lia].
    + eexists _, _. split; [rewrite <- app_assoc, take_app_length; reflexivity|]. simpl.
      assert (drop (qb_pos c + length a + 2) (querybuf c) = u') as ->.
      { rewrite <- Nat.add_assoc, <- drop_drop. change (drop (qb_pos c) (querybuf c)) with (unread c). rewrite He.
        rewrite drop_app_ge by (rewrite length_app; simpl; lia). rewrite length_app. cbn [length CRLF].
        by replace (length a + 2 - (length a + 2))%nat with 0%nat by lia. }
      split; [done|lia].
  - left. apply (f_equal length) in He. rewrite !length_app in He. cbn [length CRLF] in He.
    assert (0 < length l')%nat by (destruct l'; [done|simpl; lia]).
    rewrite (proj2 (Z.ltb_lt _ _)) by lia. split; [done|]. by destruct l'.
Qed.

(** A request of which [todo] has still to be read; [w] has not come in yet, and
    [r] follows the request. *)
Definition expects c (todo : list bytes) (w r : bytes) : Prop :=
  multibulklen c = Z.of_nat (length todo) ∧
  ((bulklen c = -1 ∧ unread c ++ w = (todo ≫= bulk) ++ r) ∨
   (∃ a todo', todo = a :: todo' ∧ bulklen c = Z.of_nat (length a) ∧
      unread c ++ w = a ++ CRLF ++ (todo' ≫= bulk) ++ r)).

(** What the loops do not touch. *)
Record keeps c c' : Prop := {
  kp_type : reqtype c' = reqtype c;
  kp_close : close_after_reply c' = close_after_reply c;
  kp_errors : c_errors c' = c_errors c;
  kp_unread : (length (unread c') ≤ length (unread c))%nat
}.
Lemma keeps_refl c : keeps c c.
Proof. by split. Qed.
Lemma keeps_trans c1 c2 c3 : keeps c1 c2 → keeps c2 c3 → keeps c1 c3.
Proof. intros [] []. split; [congruence..|lia]. Qed.
Lemma keeps_small c c' : keeps c c' → small c → small c'.
Proof. unfold small. intros []. lia. Qed.

(** One turn of the loop. *)
Lemma bulk_turn g c a todo w r :
  expects c (a :: todo) w r → small c → Z.of_nat (length a) ≤ proto_max_bulk_len g ≤ LLONG_MAX →
  ∃ c1, (if bulklen c =? -1 then read_bulklen g c else Next c) = Return false c1 ∧ c1 = c ∧ w ≠ [] ∨
    (if bulklen c =? -1 then read_bulklen g c else Next c) = Next c1 ∧ keeps c c1 ∧ c_argv c1 = c_argv c ∧
    ((read_bulk c1 = None ∧ w ≠ [] ∧ expects c1 (a :: todo) w r) ∨
     (∃ c2, read_bulk c1 = Some c2 ∧ keeps c1 c2 ∧ (length (unread c2) < length (unread c1))%nat ∧
        c_argv c2 = c_argv c ++ [a] ∧ expects c2 todo w r ∧ bulklen c2 = -1)).
Proof.
  intros [Hn Hor] Hs Ha.
  assert (∀ c1, keeps c c1 → c_argv c1 = c_argv c → multibulklen c1 = multibulklen c →
    bulklen c1 = Z.of_nat (length a) → unread c1 ++ w = a ++ CRLF ++ (todo ≫= bulk) ++ r →
    (read_bulk c1 = None ∧ w ≠ [] ∧ expects c1 (a :: todo) w r) ∨
    (∃ c2, read_bulk c1 = Some c2 ∧ keeps c1 c2 ∧ (length (unread c2) < length (unread c1))%nat ∧
        c_argv c2 = c_argv c ++ [a] ∧ expects c2 todo w r ∧ bulklen c2 = -1)) as Hread.
  { intros c1 Hk Hargv Hm Hb Hu.
    destruct (read_bulk_stream c1 w a _ Hu Hb ltac:(lia)) as [[Hr Hw]|(b & p & Hr & Hu2 & Hl)].
    - left. split_and!; [done..|]. split; [congruence|]. right. eauto 10.
    - right. eexists. split; [exact Hr|]. split_and!; try done; [by split; simpl; [..|unfold unread in *; simpl in *; lia]|by rewrite <- Hargv|].
      split; [simpl in *; lia|]. left. done. }
  destruct Hor as [[Hb Hu]|(a' & todo' & [= <- <-] & Hb & Hu)]; rewrite Hb.
  - cbn [mbind list_bind] in Hu. rewrite <- app_assoc in Hu. change (-1 =? -1) with true. cbv iota.
    destruct (read_bulklen_stream g c w a _ Hu Hs Ha) as [[Hr Hw]|(b & p & Hr & Hu2 & Hl)].
    + exists c. by left.
    + eexists. right. split; [exact Hr|].
      assert (keeps c (set_bulklen (Z.of_nat (length a)) (set_buf b p c))) as Hk
        by (split; simpl; [done..|unfold unread in *; simpl in *; lia]).
      split; [done|]. split; [done|]. by apply Hread.
  - rewrite (proj2 (Z.eqb_neq _ _)) by lia. exists c. right. split; [done|]. split; [apply keeps_refl|].
    split; [done|]. apply Hread; try done.
Qed.

Lemma bulk_loop_stream g todo : ∀ c w r,
  expects c todo w r → small c → proto_max_bulk_len g ≤ LLONG_MAX →
  Forall (fun a => Z.of_nat (length a) ≤ proto_max_bulk_len g) todo →
  ∃ c', keeps c c' ∧
    ((bulk_loop (length todo) g c = (true, c') ∧ c_argv c' = c_argv c ++ todo ∧ unread c' ++ w = r ∧
      (todo ≠ [] → (length (unread c') < length (unread c))%nat)) ∨
     (bulk_loop (length todo) g c = (false, c') ∧ w ≠ [] ∧ ∃ l todo', todo = l ++ todo' ∧ todo' ≠ [] ∧
        c_argv c' = c_argv c ++ l ∧ expects c' todo' w r)).
Proof.
  induction todo as [|a todo IH]; intros c w r He Hs Hg Hf.
  - exists c. split; [apply keeps_refl|]. left. rewrite app_nil_r. split_and!; try done.
    by destruct He as [_ [[_ H]|(? & ? & [=] & _)]].
  - apply Forall_cons in Hf as [Ha Hf]. cbn [length bulk_loop].
    destruct (bulk_turn g c a todo w r He Hs (conj Ha Hg)) as (c1 & [(-> & -> & Hw)|(-> & Hk1 & Hargv & Hor)]).
    + exists c. split; [apply keeps_refl|]. right. split; [done|]. split; [done|]. exists [], (a :: todo).
      rewrite app_nil_r. done.
    + destruct Hor as [(-> & Hw & He1)|(c2 & -> & Hk2 & Hl & Hargv2 & He2 & _)].
      * exists c1. split; [done|]. right. split; [done|]. split; [done|]. exists [], (a :: todo).
        rewrite app_nil_r. done.
      * assert (keeps c c2) as Hk by (by eapply keeps_trans).
        destruct (IH c2 w r He2 (keeps_small _ _ Hk Hs) Hg Hf) as (c' & Hk' & Hor).
        exists c'. split; [by eapply keeps_trans|]. destruct Hk1, Hk'.
        destruct Hor as [(-> & Hargv' & Hu & _)|(-> & Hw & l & todo' & -> & Hne & Hargv' & He')]; [left|right].
        -- split_and!; try done; [by rewrite Hargv', Hargv2, <- app_assoc|lia].
        -- split; [done|]. split; [done|]. exists (a :: l), todo'. split_and!; try done.
           by rewrite Hargv', Hargv2, <- app_assoc.
Qed.

(** The client waits for the rest of the requests [cmds], of which [w] has not come in
    yet. *)
Definition between c : Prop :=
  multibulklen c = 0 ∧ bulklen c = -1 ∧ c_argv c = [] ∧
  (reqtype c = REQ_UNKNOWN ∨ reqtype c = PROTO_REQ_MULTIBULK ∧ unread c ≠ []).
Definition awaits c (w : bytes) (cmds : list (list bytes)) : Prop :=
  close_after_reply c = false ∧ c_errors c = [] ∧ small c ∧
  ((between c ∧ unread c ++ w = stream cmds) ∨
   (∃ l todo cmds', cmds = (l ++ todo) :: cmds' ∧ todo ≠ [] ∧ c_argv c = l ∧
      reqtype c = PROTO_REQ_MULTIBULK ∧ expects c todo w (stream cmds'))).

Section stream.
Variable g : proto_cfg.
Hypothesis Hg : proto_max_bulk_len g ≤ LLONG_MAX.

(** The bulks of a request whose header has been read. *)
Lemma finish_request c l todo w cmds :
  close_after_reply c = false → c_errors c = [] → small c → reqtype c = PROTO_REQ_MULTIBULK →
  c_argv c = l → todo ≠ [] → expects c todo w (stream cmds) →
  Forall (fun a => Z.of_nat (length a) ≤ proto_max_bulk_len g) todo →
  ∃ ok c', bulk_loop (Z.to_nat (multibulklen c)) g c = (ok, c') ∧ keeps c c' ∧
    if ok then c_argv c' = l ++ todo ∧ unread c' ++ w = stream cmds ∧ (length (unread c') < length (unread c))%nat
    else w ≠ [] ∧ awaits c' w ((l ++ todo) :: cmds).
Proof.
  intros Hc He Hs Ht Ha Hne Hx Hf. pose proof Hx as [-> _]. rewrite Nat2Z.id.
  destruct (bulk_loop_stream g todo c w _ Hx Hs Hg Hf) as (c' & Hk & Hor).
  destruct Hor as [(-> & Hargv & Hu & Hl)|(-> & Hw & l' & todo' & -> & Hne' & Hargv & Hx')].
  - exists true, c'. split; [done|]. split; [done|]. rewrite Hargv, Ha. split_and!; try done. by apply Hl.
  - exists false, c'. split; [done|]. split; [done|]. split; [done|]. pose proof (keeps_small _ _ Hk Hs).
    destruct Hk as [Hk1 Hk2 Hk3 _]. split_and!; [congruence|congruence|done|]. right.
    exists (l ++ l'), todo', cmds. rewrite app_assoc, Hargv, Ha, Hk1. done.
Qed.

Lemma reset_awaits c w cmds :
  close_after_reply c = false → c_errors c = [] → small c → unread c ++ w = stream cmds → awaits (resetClient c) w cmds.
Proof. intros Hc He Hs Hu. split_and!; try done. left. split; [|done]. split_and!; try done. by left. Qed.

Lemma stream_nil cmds : stream cmds = [] → cmds = [].
Proof. destruct cmds as [|argv cmds]; [done|]. unfold stream, request_bytes, line_of. simpl. done. Qed.

(** A request that is complete is returned. *)
Lemma next_after_loop c w cmds argv f ok c' :
  (if multibulklen c =? 0 then read_multibulklen c else mret (Next c)) = Ok (Next f) → 0 < multibulklen f →
  reqtype c = PROTO_REQ_MULTIBULK → reqtype f = PROTO_REQ_MULTIBULK →
  close_after_reply f = false → c_errors f = [] → small f → keeps f c' →
  bulk_loop (Z.to_nat (multibulklen f)) g f = (ok, c') →
  (if ok then c_argv c' = argv ∧ unread c' ++ w = stream cmds ∧ (length (unread c') < length (unread f))%nat
   else w ≠ [] ∧ awaits c' w (argv :: cmds)) →
  (∃ c2, next_request g c = Ok (None, c2) ∧ awaits c2 w (argv :: cmds) ∧ w ≠ [] ∧
     (length (unread c2) ≤ length (unread f))%nat) ∨
  (∃ c2, next_request g c = Ok (Some argv, c2) ∧ awaits c2 w cmds ∧ (length (unread c2) < length (unread f))%nat).
Proof.
  intros Hf Hpos Ht Htf Hc He Hs Hk Hl Hok. unfold next_request, parse_request. rewrite Ht, Ht.
  unfold processMultibulkBuffer. rewrite Hf. cbn [mbind res_bind].
  rewrite (proj2 (Z.ltb_lt _ _)) by done. cbn [serverAssert mbind res_bind]. rewrite Hl. cbn [mret res_ret].
  pose proof (keeps_small _ _ Hk Hs) as Hs'. destruct Hk as [Hk1 Hk2 Hk3 Hk4].
  destruct ok; cbn [mbind res_bind mret res_ret negb].
  - right. destruct Hok as (Ha & Hu & Hlt). rewrite Hk1, Htf, Ha. eexists. split; [done|]. split; [|done].
    apply reset_awaits; congruence || done.
  - left. destruct Hok as [Hw Haw]. eexists. split; [done|]. done.
Qed.

(** The header of a request. *)
Lemma header_stream c w argv cmds :
  between c → unread c ++ w = stream (argv :: cmds) → small c → sendable g argv →
  (read_multibulklen c = Ok (Return false c) ∧ w ≠ []) ∨
  (∃ f, read_multibulklen c = Ok (Next f) ∧ keeps c f ∧ c_argv f = [] ∧ 0 < multibulklen f ∧
     expects f argv w (stream cmds)).
Proof.
  intros (Hm & Hb & Ha & _) Hu Hs (Hne & Hlen & _).
  change (stream (argv :: cmds)) with (request_bytes argv ++ stream cmds) in Hu.
  unfold request_bytes in Hu. rewrite <- app_assoc in Hu. unfold small, read_multibulklen in *. rewrite Ha. cbn [mbind res_bind].
  assert (length_char x2a) as Hc by (by left). assert (0 < length argv)%nat by (destruct argv; [done|simpl; lia]).
  assert (Z.of_nat (length argv) ≤ LLONG_MAX) as Hmax by (unfold LLONG_MAX; lia).
  apply prefix_cases in Hu as [(u' & He & Hu')|(l' & He & Hl' & ->)].
  - right. rewrite He in Hs |- *. rewrite find_line_here by (done || lia).
    rewrite bool_decide_eq_true_2 by done. cbn [serverAssert mbind res_bind].
    rewrite line_number by lia. rewrite (proj2 (Z.ltb_ge _ _)), (proj2 (Z.leb_gt _ _)) by lia.
    pose proof (unread_set_pos (S (length (sdsll2str (Z.of_nat (length argv)))) + 2) c) as Hun.
    rewrite He, drop_line, Nat.add_assoc in Hun.
    eexists. split; [reflexivity|]. split_and!; try done.
    + split; try done. change (length (unread (set_pos (qb_pos c + S (length (sdsll2str (Z.of_nat (length argv)))) + 2) c)) ≤ length (unread c))%nat.
      rewrite Hun, He, length_app. lia.
    + simpl. lia.
    + split; [done|]. left. split; [done|]. rewrite <- Hu', <- Hun. done.
  - left. rewrite (find_line_part x2a (Z.of_nat (length argv)) (unread c) l') by (done || lia).
    split; [done|]. by destruct l'.
Qed.

Lemma next_request_type c :
  head (unread c) = Some x2a → reqtype c = REQ_UNKNOWN ∨ reqtype c = PROTO_REQ_MULTIBULK →
  next_request g c = next_request g (set_reqtype PROTO_REQ_MULTIBULK c).
Proof.
  intros Hh [Ht|Ht].
  - unfold next_request, parse_request. rewrite Ht. by rewrite Hh.
  - f_equal. destruct c. simpl in *. by subst.
Qed.

Lemma next_request_stream c w cmds :
  awaits c w cmds → Forall (sendable g) cmds → unread c ≠ [] →
  (∃ c', next_request g c = Ok (None, c') ∧ awaits c' w cmds ∧ w ≠ [] ∧
     (length (unread c') ≤ length (unread c))%nat) ∨
  (∃ argv cmds' c', cmds = argv :: cmds' ∧ next_request g c = Ok (Some argv, c') ∧ awaits c' w cmds' ∧
     (length (unread c') < length (unread c))%nat).
Proof.
  intros (Hc & He & Hs & [[Hbt Hu]|(l & todo & cmds' & -> & Hne & Ha & Ht & Hx)]) Hf Hun.
  - destruct cmds as [|argv cmds]; [apply app_eq_nil in Hu; by destruct Hu|].
    apply Forall_cons in Hf as [Hsend Hf].
    set (c0 := set_reqtype PROTO_REQ_MULTIBULK c).
    assert (next_request g c = next_request g c0) as ->.
    { apply next_request_type; [|destruct Hbt as (_ & _ & _ & [?|[? _]]); auto].
      destruct (unread c) as [|b u]; [done|]. by injection Hu as ->. }
    assert (between c0) as Hbt0 by (destruct Hbt as (? & ? & ? & _); split_and!; try done; by right).
    destruct (header_stream c0 w argv cmds Hbt0 Hu Hs Hsend) as [[Hh Hw]|(f & Hh & Hk & Haf & Hpos & Hx)].
    + left. exists c0. split; [|split; [split_and!; try done; by left|by split]].
      unfold next_request, parse_request. change (reqtype c0) with PROTO_REQ_MULTIBULK. cbv iota. change (reqtype c0) with PROTO_REQ_MULTIBULK.
      cbv iota. unfold processMultibulkBuffer. rewrite (proj1 Hbt0 : multibulklen c0 = 0). simpl. by rewrite Hh.
    + pose proof (keeps_small _ _ Hk Hs) as Hsf. pose proof Hk as [Hk1 Hk2 Hk3 Hk4].
      destruct Hsend as (Hne & _ & Hall). change (reqtype c0) with PROTO_REQ_MULTIBULK in Hk1.
      change (close_after_reply c0) with (close_after_reply c) in Hk2. change (c_errors c0) with (c_errors c) in Hk3.
      rewrite Hc in Hk2. rewrite He in Hk3.
      destruct (finish_request f [] argv w cmds) as (ok & c' & Hl & Hkf & Hok); try done.
      edestruct (next_after_loop c0 w cmds argv f ok c') as [(c2 & ? & ? & ? & ?)|(c2 & ? & ? & ?)]; try done; try congruence.
      * rewrite (proj1 Hbt0 : multibulklen c0 = 0). done.
      * left. exists c2. split_and!; try done. unfold c0, unread in *. simpl in *. lia.
      * right. exists argv, cmds, c2. split_and!; try done. unfold c0, unread in *. simpl in *. lia.
  - apply Forall_cons in Hf as [(_ & _ & Hall) _]. apply Forall_app in Hall as [_ Hall].
    destruct (finish_request c l todo w cmds') as (ok & c' & Hl & Hk & Hok); try done.
    assert (0 < multibulklen c) as Hpos by (destruct Hx as [-> _]; destruct todo; [done|simpl; lia]).
    edestruct (next_after_loop c w cmds' (l ++ todo) c ok c') as [(c2 & ? & ? & ? & ?)|(c2 & ? & ? & ?)]; try done; try congruence.
    * by rewrite (proj2 (Z.eqb_neq _ _)) by lia.
    * left. exists c2. done.
    * right. exists (l ++ todo), cmds', c2. done.
Qed.

Lemma unread_nil c : (length (querybuf c) <=? qb_pos c)%nat = true ↔ unread c = [].
Proof.
  rewrite Nat.leb_le. unfold unread. split; [apply drop_ge|].
  intros H. apply (f_equal length) in H. rewrite length_drop in H. simpl in H. lia.
Qed.

(** When everything has come in, nothing is awaited. *)
Lemma awaits_done c cmds :
  awaits c [] cmds → unread c = [] → cmds = [] ∧ c_argv c = [] ∧ multibulklen c = 0 ∧ bulklen c = -1 ∧ reqtype c = REQ_UNKNOWN.
Proof.
  intros (_ & _ & _ & [[(Hm & Hb & Ha & Ht) Hu]|(l & todo & cmds' & -> & Hne & _ & _ & Hx)]) He.
  - rewrite He in Hu. split_and!; try done; [by apply stream_nil|]. by destruct Ht as [?|[_ ?]].
  - exfalso. destruct Hx as [_ [[_ Hu]|(a & todo' & -> & _ & Hu)]]; rewrite He in Hu.
    + destruct todo; [done|]. unfold bulk, line_of in Hu. simpl in Hu. done.
    + by destruct a.
Qed.

Lemma requests_stream fuel : ∀ c w cmds,
  awaits c w cmds → Forall (sendable g) cmds → (length (unread c) ≤ fuel)%nat →
  ∃ l cmds' c', requests fuel g c = Ok (l, c') ∧ cmds = l ++ cmds' ∧ awaits c' w cmds' ∧
    (length (unread c') ≤ length (unread c))%nat ∧ (w = [] → unread c' = []).
Proof.
  induction fuel as [|fuel IH]; intros c w cmds Haw Hf Hl; cbn [requests].
  all: destruct (_ <=? _)%nat eqn:Hle; cbn [orb].
  1,3: apply unread_nil in Hle; exists [], cmds, c; split_and!; (done || lia).
  all: assert (unread c ≠ []) as Hun by (intros H; apply unread_nil in H; congruence).
  { destruct (unread c); [done|simpl in Hl; lia]. }
  rewrite (proj1 Haw).
  destruct (next_request_stream c w cmds Haw Hf Hun) as [(c' & -> & Haw' & Hw & Hl')|(argv & cmds' & c' & -> & -> & Haw' & Hlt)].
  - exists [], cmds, c'. cbn [mbind res_bind]. by split_and!.
  - apply Forall_cons in Hf as [_ Hf].
    destruct (IH c' w cmds' Haw' Hf ltac:(lia)) as (l & cmds2 & c2 & Hr & -> & Haw2 & Hl2 & Hw2).
    exists (argv :: l), cmds2, c2. cbn [mbind res_bind]. rewrite Hr. split_and!; try done. lia.
Qed.

Lemma awaits_chunk c chunk w cmds :
  awaits c (chunk ++ w) cmds → qb_pos c = 0%nat → Z.of_nat (length (unread c ++ chunk)) < 2 ^ 63 →
  awaits (set_buf (querybuf c ++ chunk) (qb_pos c) c) w cmds.
Proof.
  intros (Hc & He & _ & Hor) Hp Hs.
  assert (unread (set_buf (querybuf c ++ chunk) (qb_pos c) c) = unread c ++ chunk) as Hu
    by (unfold unread; simpl; by rewrite Hp, !drop_0).
  split_and!; try done; [by unfold small; rewrite Hu|].
  destruct Hor as [[(Hm & Hb & Ha & Ht) Hs']|(l & todo & cmds' & Heq & Hne & Ha & Ht & Hx)]; [left|right].
  - rewrite Hu, <- app_assoc. split; [|done]. split_and!; try done. destruct Ht as [?|[? Hn]]; [by left|].
    right. split; [done|]. rewrite Hu. by intros [? _]%app_eq_nil.
  - exists l, todo, cmds'. split_and!; try done. destruct Hx as [Hm Hx]. split; [done|].
    rewrite Hu, <- app_assoc. exact Hx.
Qed.

Lemma read_chunks_stream chunks : ∀ c cmds,
  awaits c (concat chunks) cmds → Forall (sendable g) cmds → qb_pos c = 0%nat →
  Z.of_nat (length (unread c ++ concat chunks)) ≤ client_max_querybuf_len g ≤ LLONG_MAX →
  (chunks = [] → unread c = []) →
  read_chunks g chunks c = Ok (Some (cmds, createClient)).
Proof.
  induction chunks as [|chunk chunks IH]; intros c cmds Haw Hf Hp Hmax Hnil; cbn [read_chunks].
  - specialize (Hnil eq_refl). destruct (awaits_done c cmds Haw Hnil) as (-> & Ha & Hm & Hb & Ht).
    destruct Haw as (Hc & He & _). unfold unread in Hnil. rewrite Hp, drop_0 in Hnil.
    destruct c. simpl in *. by subst.
  - cbn [concat] in *. rewrite app_assoc, length_app in Hmax.
    assert (Z.of_nat (length (unread c ++ chunk)) < 2 ^ 63) as Hs by (unfold LLONG_MAX in *; lia).
    pose proof (awaits_chunk c chunk _ cmds Haw Hp Hs) as Haw'.
    set (c1 := set_buf (querybuf c ++ chunk) (qb_pos c) c) in *.
    assert (unread c1 = unread c ++ chunk) as Hu by (unfold c1, unread; simpl; by rewrite Hp, !drop_0).
    assert (querybuf c1 = unread c1) as Hq by (rewrite Hu; unfold c1, unread; simpl; by rewrite Hp, drop_0).
    destruct (requests_stream (length (unread c1)) c1 (concat chunks) cmds Haw' Hf ltac:(lia))
      as (l & cmds2 & c2 & Hr & -> & Haw2 & Hl & Hw).
    unfold readQueryFromClient. fold c1. rewrite Hq, (proj2 (Z.ltb_ge _ _)) by (rewrite Hu; lia).
    rewrite Hr. cbn [mbind res_bind mret res_ret]. apply Forall_app in Hf as [_ Hf].
    assert (unread (set_buf (unread c2) 0 c2) = unread c2) as Hu2 by (unfold unread; simpl; by rewrite drop_0).
    rewrite (IH (set_buf (unread c2) 0 c2) cmds2); try done.
    + rewrite Hu2, length_app. rewrite Hu in Hl. lia.
    + intros ->. rewrite Hu2. by apply Hw.
Qed.
End stream.

(** ** No input stops the server *)

Record q_ok c : Prop := {
  q_len : 0 ≤ multibulklen c ≤ 1024 * 1024;
  q_bulk : -1 ≤ bulklen c ≤ LLONG_MAX;
  q_idle : multibulklen c = 0 → c_argv c = [];
  q_busy : 0 < multibulklen c → reqtype c = PROTO_REQ_MULTIBULK;
  q_star : reqtype c = PROTO_REQ_MULTIBULK → multibulklen c = 0 → head (unread c) = Some x2a
}.

(** In the middle of a request. *)
Definition busy c : Prop := 0 < multibulklen c ≤ 1024 * 1024 ∧ -1 ≤ bulklen c ≤ LLONG_MAX ∧ reqtype c = PROTO_REQ_MULTIBULK.

Lemma busy_ok c : busy c → q_ok c.
Proof. intros (H1 & H2 & H3). split; try done; intros; lia. Qed.

Lemma length_unread_drop n c : (length (unread (set_pos (qb_pos c + n) c)) = length (unread c) - n)%nat.
Proof. by rewrite unread_set_pos, length_drop. Qed.

Section safe.
Variable g : proto_cfg.
Hypothesis Hg : proto_max_bulk_len g ≤ LLONG_MAX.

Lemma read_bulklen_safe c :
  busy c →
  match read_bulklen g c with
  | Return ok c' => ok = false ∧ busy c' ∧ unread c' = unread c
  | Next c' => busy c' ∧ 0 ≤ bulklen c' ∧ multibulklen c' = multibulklen c ∧ (length (unread c') ≤ length (unread c))%nat
  end.
Proof.
  intros (H1 & H2 & H3). unfold read_bulklen. destruct (find_line (unread c)) as [| |n]; try done.
  destruct (decide _); [|done]. destruct (string2ll _) as [ll|]; [|done].
  destruct (_ || _) eqn:Hb; [done|]. apply orb_false_iff in Hb as [Hb1%Z.ltb_ge Hb2%Z.ltb_ge].
  pose proof (length_unread_drop (n + 2) c) as Hl. rewrite Nat.add_assoc in Hl.
  destruct (_ && _); (split; [split_and!; try done; simpl; lia|]); (split; [done|]); (split; [done|]).
  all: change (length (unread (set_pos (qb_pos c + n + 2) c)) ≤ length (unread c))%nat; lia.
Qed.

Lemma read_bulk_safe c c' :
  busy c → 0 ≤ bulklen c → read_bulk c = Some c' →
  multibulklen c' = multibulklen c - 1 ∧ bulklen c' = -1 ∧ reqtype c' = reqtype c ∧ (length (unread c') < length (unread c))%nat.
Proof.
  intros (H1 & H2 & H3) Hb. unfold read_bulk. unfold LLONG_MAX in H2. unfold u64. rewrite Z.mod_small by lia.
  destruct (Z.ltb_spec (Z.of_nat (length (unread c))) (bulklen c + 2)); [done|]. intros [= <-].
  pose proof (length_unread_drop (Z.to_nat (bulklen c) + 2) c) as Hl. rewrite Nat.add_assoc in Hl.
  destruct (_ && _ && _); (split; [done|]); (split; [done|]); (split; [done|]).
  - unfold unread at 1. simpl. rewrite drop_nil. simpl. lia.
  - unfold unread in *. simpl in *. lia.
Qed.

Lemma bulk_loop_safe n : ∀ c,
  busy c → n = Z.to_nat (multibulklen c) →
  let '(ok, c') := bulk_loop n g c in
  reqtype c' = PROTO_REQ_MULTIBULK ∧ (length (unread c') ≤ length (unread c))%nat ∧
  if ok : bool then (length (unread c') < length (unread c))%nat else busy c'.
Proof.
  induction n as [|n IH]; intros c Hc Hn.
  { destruct Hc as [H _]. lia. }
  cbn [bulk_loop].
  assert (match (if bulklen c =? -1 then read_bulklen g c else Next c) with
          | Return ok c' => ok = false ∧ busy c' ∧ unread c' = unread c
          | Next c' => busy c' ∧ 0 ≤ bulklen c' ∧ multibulklen c' = multibulklen c ∧
                       (length (unread c') ≤ length (unread c))%nat
          end) as Hstep.
  { destruct (Z.eqb_spec (bulklen c) (-1)); [by apply read_bulklen_safe|]. split_and!; try done.
    destruct Hc as (_ & H & _). lia. }
  destruct (if bulklen c =? -1 then read_bulklen g c else Next c) as [ok c1|c1].
  { destruct Hstep as (-> & Hb & ->). split_and!; try done. apply Hb. }
  destruct Hstep as (Hb1 & Hpos & Hm & Hl). destruct (read_bulk c1) as [c2|] eqn:Hr.
  - destruct (read_bulk_safe c1 c2 Hb1 Hpos Hr) as (Hm2 & Hbl & Ht & Hlt).
    destruct n as [|n].
    + simpl. split_and!; [rewrite Ht; apply Hb1|lia..].
    + assert (busy c2) as Hb2.
      { destruct Hb1 as (H1 & _ & H3). split_and!; [lia|lia|by rewrite Hbl|by rewrite Hbl|congruence]. }
      specialize (IH c2 Hb2 ltac:(lia)). destruct (bulk_loop (S n) g c2) as [ok c'].
      destruct IH as (? & ? & Hok). split_and!; [done|lia|]. by destruct ok; [lia|].
  - split_and!; [apply Hb1|done|done].
Qed.

(** A turn of the loop. *)
Definition turn_ok c (r : res (option (list bytes) * qclient)) : Prop :=
  ∃ o c', r = Ok (o, c') ∧ q_ok c' ∧ (is_Some o → (length (unread c') < length (unread c))%nat).

Lemma reset_ok c : q_ok (resetClient c).
Proof. split; simpl; try done; unfold LLONG_MAX; lia. Qed.

Lemma processMultibulk_safe c :
  q_ok c → reqtype c = PROTO_REQ_MULTIBULK →
  ∃ ok c', processMultibulkBuffer g c = Ok (ok, c') ∧ reqtype c' = PROTO_REQ_MULTIBULK ∧
    if ok : bool then (length (unread c') < length (unread c))%nat else q_ok c'.
Proof.
  intros Hok Ht. unfold processMultibulkBuffer.
  assert (∀ f, busy f → (length (unread f) ≤ length (unread c))%nat →
    ∃ ok c', (serverAssert (0 <? multibulklen f) "c->multibulklen > 0" ;;
              mret (bulk_loop (Z.to_nat (multibulklen f)) g f)) = Ok (ok, c') ∧
      reqtype c' = PROTO_REQ_MULTIBULK ∧
      if ok : bool then (length (unread c') < length (unread c))%nat else q_ok c') as Hloop.
  { intros f Hf Hl. rewrite (proj2 (Z.ltb_lt _ _)) by apply Hf. cbn [serverAssert mbind res_bind].
    pose proof (bulk_loop_safe _ f Hf eq_refl) as H. destruct (bulk_loop _ g f) as [ok c'].
    exists ok, c'. destruct H as (H1 & H2 & H3). split_and!; [done|done|]. destruct ok; [lia|by apply busy_ok]. }
  destruct (Z.eqb_spec (multibulklen c) 0) as [Hm|Hm].
  - unfold read_multibulklen. rewrite (q_idle _ Hok Hm). cbn [mbind res_bind].
    change (bool_decide ([] = [])) with true. cbn [serverAssert mbind res_bind].
    pose proof (q_star _ Hok Ht Hm) as Hstar.
    assert (∀ e, ∃ ok c', Ok (false, setProtocolError e c) = Ok (ok, c') ∧ reqtype c' = PROTO_REQ_MULTIBULK ∧
      if ok : bool then (length (unread c') < length (unread c))%nat else q_ok c') as Herr.
    { intros e. eexists _, _. split; [done|]. split; [done|]. by destruct Hok; split. }
    destruct (find_line (unread c)) as [| |n]; cbn [mbind res_bind mret res_ret]; [eauto|apply Herr|].
    rewrite bool_decide_eq_true_2 by done. cbn [serverAssert mbind res_bind].
    destruct (string2ll _) as [ll|]; [|apply Herr]. destruct (Z.ltb_spec (1024 * 1024) ll); [apply Herr|].
    assert (0 < length (unread c))%nat by (destruct (unread c); [done|simpl; lia]).
    pose proof (length_unread_drop (n + 2) c) as Hl. rewrite Nat.add_assoc in Hl.
    destruct (Z.leb_spec ll 0); cbn [mbind res_bind mret res_ret].
    + eexists _, _. split; [done|]. split; [done|]. lia.
    + apply Hloop; [|unfold unread in *; simpl in *; lia].
      split_and!; try done; simpl; try lia; apply Hok.
  - cbn [mbind res_bind mret res_ret]. apply Hloop; [|done]. destruct Hok as [H1 H2 _ _ _]. split_and!; try done; lia.
Qed.

Lemma processInline_safe c :
  let '(ok, c') := processInlineBuffer c in
  reqtype c' = reqtype c ∧
  if ok : bool then (length (unread c') < length (unread c))%nat
  else multibulklen c' = multibulklen c ∧ bulklen c' = bulklen c ∧ c_argv c' = c_argv c.
Proof.
  unfold processInlineBuffer. destruct (strchr LF (unread c)) as [n|] eqn:Hn; [|by destruct (_ <? _)].
  apply strchr_Some in Hn as [Hn _].
  assert (∀ k m : nat, (0 < k + m)%nat →
    (length (unread (set_pos (qb_pos c + k + m) c)) < length (unread c))%nat) as Hl.
  { intros k m Hk. rewrite <- Nat.add_assoc, length_unread_drop. lia. }
  destruct n as [|n].
  - destruct (sdssplitargs _); [|done]. split; [done|]. apply (Hl 0 1)%nat. lia.
  - destruct (decide _); (destruct (sdssplitargs _); [|done]); (split; [done|]); apply Hl; lia.
Qed.

Lemma next_request_safe c : q_ok c → turn_ok c (next_request g c).
Proof.
  intros Hok. unfold turn_ok, next_request, parse_request.
  set (c0 := match reqtype c with REQ_UNKNOWN => _ | _ => c end).
  assert (q_ok c0 ∧ reqtype c0 ≠ REQ_UNKNOWN ∧ unread c0 = unread c) as (Hok0 & Ht & Hu).
  { unfold c0. destruct (reqtype c) eqn:Hr; [|by rewrite Hr..]. split_and!; [|by destruct (decide _)|done].
    destruct Hok as [H1 H2 H3 H4 H5]. split; simpl; try done.
    - intros Hb. specialize (H4 Hb). congruence.
    - intros Hd _. by destruct (decide _). }
  destruct (reqtype c0) eqn:Ht0; [done| |].
  - pose proof (processInline_safe c0) as H. destruct (processInlineBuffer c0) as [ok c']. destruct H as [H1 H2].
    rewrite Ht0 in H1. cbn [mbind res_bind mret res_ret]. destruct ok; cbn [negb].
    + destruct (match reqtype c' with PROTO_REQ_INLINE => _ | _ => _ end); eexists _, _;
        (split; [done|]); (split; [by destruct (reset_ok c'); split|]); intros [? [=]]; subst.
      change (unread (resetClient c')) with (unread c'). rewrite <- Hu. done.
    + eexists _, _. split; [done|]. split; [|by intros [? [=]]]. destruct Hok0 as [G1 G2 G3 G4 G5].
      destruct H2 as (E1 & E2 & E3). split; rewrite ?E1, ?E2, ?E3, ?H1; try done.
      intros Hb. apply G4 in Hb. by rewrite Hb in Ht0.
  - destruct (processMultibulk_safe c0 Hok0 Ht0) as (ok & c' & -> & Ht' & H). cbn [mbind res_bind].
    destruct ok; cbn [negb].
    + rewrite Ht'. eexists _, _. split; [done|]. split; [apply reset_ok|]. intros _.
      change (unread (resetClient c')) with (unread c'). by rewrite <- Hu.
    + eexists _, _. split; [done|]. split; [done|]. by intros [? [=]].
Qed.

Implicit Types p : pclient.
Lemma parse_request_safe c : q_ok c →
  ∃ o c', parse_request g c = Ok (o, c') ∧ (o = None → q_ok c') ∧ (is_Some o → length (unread c') < length (unread c))%nat.
Proof.
  intros Hok. destruct (next_request_safe c Hok) as (o & c1 & Hn & Hok1 & Hlt). unfold next_request in Hn.
  apply bind_Ok in Hn as ([r c'] & Hp & Hn). injection Hn as -> <-. exists o, c'. split; [done|]. by destruct o.
Qed.

(** The request of a client that is stopped is kept; otherwise the parser can go on. *)
Definition held p : bool := p_rock p || bool_decide (p_blocked p = Some true) || p_pending_command p || close_after_reply (pq p).
Definition p_ok p : Prop := held p = true ∨ q_ok (pq p).
Lemma held_stopped t p : held p = true → stopped t p = true.
Proof.
  destruct p as [c r b pc ca], t as [tp tb tt to]. unfold held, stopped. cbn [pq p_rock p_blocked p_pending_command p_close_asap t_paused t_busy_master].
  intros Hh. by destruct r, tp, b as [[]|], pc, tb, (close_after_reply c), ca.
Qed.
Lemma p_ok_reset p : p_ok (set_pq (resetClient (pq p)) p).
Proof. right. apply reset_ok. Qed.
Lemma process_ok o p p' : processCommandAndResetClient o p = Some p' → p_ok p' ∧ unread (pq p') = unread (pq p).
Proof.
  intros H. destruct o as [| |module| | |]; cbn in H; try done; injection H as <-; (split; [|try done]).
  - right. apply reset_ok.
  - by left.
  - destruct module; [left|right; apply reset_ok]. unfold held. cbn. by rewrite orb_true_r.
  - by destruct module.
  - left. unfold held. cbn. by rewrite !orb_true_r.
  - right. apply reset_ok.
Qed.

Lemma input_loop_safe fuel : ∀ ts p,
  p_ok p → (length (unread (pq p)) ≤ fuel)%nat →
  ∃ l o, input_loop fuel g ts p = Ok (l, o) ∧ ∀ p', o = Some p' → p_ok p'.
Proof.
  induction fuel as [|fuel IH]; intros ts p Hok Hl; cbn [input_loop]; destruct (_ || _) eqn:Hor.
  1,3: eexists _, _; split; [done|]; by intros ? [= <-].
  all: apply orb_false_iff in Hor as [Hle Hst].
  { exfalso. assert (unread (pq p) = []) as H by (destruct (unread (pq p)); [done|simpl in Hl; lia]).
    apply unread_nil in H. congruence. }
  destruct Hok as [Hh|Hok]; [by rewrite (held_stopped _ _ Hh) in Hst|].
  destruct (parse_request_safe (pq p) Hok) as (r & c' & -> & Hq & Hlt). cbn [mbind res_bind].
  destruct r as [[|a argv]|].
  - apply IH; [apply (p_ok_reset (set_pq c' p))|]. specialize (Hlt ltac:(eauto)). change (unread (pq (set_pq (resetClient c') p))) with (unread c'). lia.
  - destruct (t_threaded _).
    { eexists _, _. split; [done|]. intros ? [= <-]. left. unfold held. cbn. by rewrite orb_true_r. }
    destruct (processCommandAndResetClient _ _) as [p1|] eqn:Hp; [|eexists _, _; by split; [done|]].
    destruct (process_ok _ _ _ Hp) as [Hok1 Hu]. specialize (Hlt ltac:(eauto)). cbn [set_pq pq] in Hu.
    destruct (IH (fun n => ts (S n)) p1 Hok1 ltac:(rewrite Hu; lia)) as (l & o & -> & Ho). cbn [mbind res_bind mret res_ret]. eauto.
  - eexists _, _. split; [done|]. intros ? [= <-]. right. by apply Hq.
Qed.

(** Between two events the buffer begins with what has not been parsed. *)
Definition rests p : Prop := p_ok p ∧ qb_pos (pq p) = 0%nat.
Lemma q_ok_trim c : q_ok c → q_ok (trim c).
Proof. intros [H1 H2 H3 H4 H5]. by split. Qed.
Lemma process_input_safe ts p : p_ok p → ∃ l o, processInputBuffer g ts p = Ok (l, o) ∧ ∀ p', o = Some p' → rests p'.
Proof.
  intros Hok. destruct (input_loop_safe (length (unread (pq p))) ts p Hok (le_n _)) as (l & o & Hl & Ho).
  unfold processInputBuffer. rewrite Hl. cbn [mbind res_bind mret res_ret]. eexists _, _. split; [done|]. destruct o as [p1|]; [|done].
  intros p' [= <-]. split; [|done]. destruct (Ho p1 eq_refl) as [?|?]; [by left|right; by apply q_ok_trim].
Qed.

(** Bytes are appended. *)
Lemma q_ok_append c chunk : q_ok c → qb_pos c = 0%nat → q_ok (set_buf (querybuf c ++ chunk) (qb_pos c) c).
Proof.
  intros [H1 H2 H3 H4 H5] Hp. split; simpl; try done. intros Ht Hm. specialize (H5 Ht Hm).
  unfold unread in *. simpl. rewrite Hp, !drop_0 in *. by destruct (querybuf c).
Qed.

(** The main thread does not look whether the client of a pending command is still there. *)
Definition event_fine (e : client_event) : Prop := match e with EPending OGone _ => False | _ => True end.

Lemma client_step_safe e p : rests p → event_fine e → ∃ l o, client_step g e p = Ok (l, o) ∧ ∀ p', o = Some p' → rests p'.
Proof.
  intros [Hok Hp] He. destruct e as [chunk ts|blocks ts|ts|o ts|ts]; cbn [client_step].
  - destruct (_ <? _); [eexists _, _; by split; [done|]|]. apply process_input_safe.
    destruct Hok as [?|?]; [by left|right; by apply q_ok_append].
  - destruct (p_rock p); [|eexists _, _; split; [done|]; by intros ? [= <-]].
    destruct (process_input_safe ts (PClient (resetClient (pq p)) false (if blocks then Some false else p_blocked p) (p_pending_command p) (p_close_asap p)))
      as (l & o & -> & Ho); [right; apply reset_ok|]. cbn [mbind res_bind mret res_ret]. eauto.
  - destruct (p_blocked p) as [module|] eqn:Hb; [|eexists _, _; split; [done|]; by intros ? [= <-]]. apply process_input_safe.
    destruct module; [right; apply reset_ok|]. destruct Hok as [Hh|?]; [left|by right].
    unfold held in *. rewrite Hb in Hh. exact Hh.
  - destruct (p_pending_command p); [|eexists _, _; split; [done|]; by intros ? [= <-]].
    destruct (processCommandAndResetClient _ _) as [p1|] eqn:Hq; [|by destruct o].
    destruct (process_input_safe ts p1 (proj1 (process_ok _ _ _ Hq))) as (l & o' & -> & Ho). cbn [mbind res_bind mret res_ret]. eauto.
  - by apply process_input_safe.
Qed.


(** With no command that stops it, the loop runs the requests of [requests]. *)
Definition undisturbed : turn := Turn false false false ODone.
Lemma input_loop_requests fuel : ∀ c l c',
  requests fuel g c = Ok (l, c') →
  input_loop fuel g (fun _ => undisturbed) (PClient c false None false false) = Ok (filter (fun argv => argv ≠ []) l, Some (PClient c' false None false false)).
Proof.
  induction fuel as [|fuel IH]; intros c l c' H; cbn [requests input_loop pq stopped p_rock p_blocked p_pending_command p_close_asap t_paused t_busy_master undisturbed] in *;
    unfold stopped; cbn [pq p_rock p_blocked p_pending_command p_close_asap t_paused t_busy_master undisturbed orb]; rewrite ?orb_false_r;
    (replace (bool_decide (is_Some (@None bool))) with false by (symmetry; by apply bool_decide_eq_false; intros [])); cbn [orb].
  - destruct (_ || _); [|done]. by injection H as <- <-.
  - destruct (_ || _); [by injection H as <- <-|]. apply bind_Ok in H as ([r c1] & Hn & H). unfold next_request in Hn.
    apply bind_Ok in Hn as ([r' c2] & Hp & Hn). injection Hn as -> <-. rewrite Hp. cbn [mbind res_bind].
    destruct r as [argv|]; [|by injection H as <- <-]. apply bind_Ok in H as ([l1 c3] & Hr & H). injection H as <- <-.
    apply IH in Hr. destruct argv as [|a argv].
    + rewrite filter_cons_False by (intros Hx; by apply Hx). exact Hr.
    + rewrite filter_cons_True by done. cbn [t_threaded t_outcome undisturbed processCommandAndResetClient].
      change (set_pq (resetClient (pq (set_pq c2 (PClient c false None false false)))) (set_pq c2 (PClient c false None false false)))
        with (PClient (resetClient c2) false None false false). by rewrite Hr.
Qed.
End safe.

(** ** Round trips *)

Lemma length_line_spec (c : byte) n : 0 ≤ n ≤ LLONG_MAX → length_line c n = Some (line_of c n).
Proof.
  intros Hn. assert (is_ll n) as Hl by (unfold is_ll, LLONG_MIN, LLONG_MAX in *; lia).
  unfold length_line. rewrite ll2string_fits; [done|done|]. pose proof (sdigits10_max n Hl). lia.
Qed.

Lemma cat_args_spec argv : ∀ dst,
  Forall (fun a => Z.of_nat (length a) ≤ LLONG_MAX) argv → cat_args dst argv = Some (dst ++ (argv ≫= bulk)).
Proof.
  induction argv as [|a argv IH]; intros dst Hf; cbn [cat_args].
  - cbn. by rewrite app_nil_r.
  - apply Forall_cons in Hf as [Ha Hf]. rewrite length_line_spec by lia. cbn [mbind option_bind].
    rewrite IH by done. cbn [list_bind]. unfold bulk at 2. by rewrite <- !app_assoc.
Qed.

Lemma cat_commands_spec g cmds : ∀ dst,
  proto_max_bulk_len g ≤ LLONG_MAX → Forall (sendable g) cmds → cat_commands dst cmds = Some (dst ++ stream cmds).
Proof.
  induction cmds as [|argv cmds IH]; intros dst Hg Hf; cbn [cat_commands].
  - cbn. by rewrite app_nil_r.
  - apply Forall_cons in Hf as [(_ & Hl & Ha) Hf]. unfold catAppendOnlyGenericCommand.
    rewrite length_line_spec by (unfold LLONG_MAX; lia). cbn [mbind option_bind].
    rewrite cat_args_spec by (eapply Forall_impl; [exact Ha|simpl; lia]). cbn [mbind option_bind].
    rewrite IH by done. unfold stream. cbn [mbind list_bind]. unfold request_bytes at 2. by rewrite <- !app_assoc.
Qed.

(** C26: the requests that [catAppendOnlyGenericCommand] writes are what the parser of
    the server reads, however the stream is cut into pieces on the way: they come
    out complete, in order and unchanged, and the client is ready for the next. *)
Theorem resp_stream g cmds :
  proto_max_bulk_len g ≤ LLONG_MAX → client_max_querybuf_len g ≤ LLONG_MAX → Forall (sendable g) cmds →
  ∃ s, cat_commands [] cmds = Some s ∧
    ∀ chunks, concat chunks = s → Z.of_nat (length s) ≤ client_max_querybuf_len g →
      read_chunks g chunks createClient = Ok (Some (cmds, createClient)).
Proof.
  intros Hg Hmax Hf. exists (stream cmds). rewrite (cat_commands_spec g) by done. split; [done|].
  intros chunks Hc Hl. apply read_chunks_stream; try done; [|rewrite Hc; simpl; lia].
  split_and!; try done. left. split; [|simpl; done]. split_and!; try done. by left.
Qed.

(** A quoted line has neither a line feed nor a NUL. *)
Definition line_safe (c : byte) : bool := bool_decide (c ≠ LF) && bool_decide (c ≠ NUL).
Lemma repr_char_safe b : forallb line_safe (repr_char b) = true.
Proof. by destruct b. Qed.
Lemma quoted_safe a : forallb line_safe (quoted a) = true.
Proof.
  unfold quoted, sdscatrepr. rewrite !forallb_app. cbn [forallb andb app]. change (line_safe x22) with true. cbn [andb].
  rewrite andb_true_r. induction a as [|b a IH]; [done|]. cbn [mbind list_bind]. by rewrite forallb_app, repr_char_safe.
Qed.
Lemma quoted_line_safe args : forallb line_safe (quoted_line args) = true.
Proof.
  induction args as [|a [|b args] IH]; [done|apply quoted_safe|].
  change (quoted_line (a :: b :: args)) with (quoted a ++ x20 :: quoted_line (b :: args)).
  rewrite forallb_app, quoted_safe. cbn [forallb andb]. by rewrite IH.
Qed.
Lemma safe_not_in s : forallb line_safe s = true → LF ∉ s ∧ NUL ∉ s.
Proof.
  intros H. rewrite forallb_forall in H.
  split; intros Hin%list_elem_of_In%H; unfold line_safe in Hin; apply andb_prop in Hin as [H1 H2].
  - by apply bool_decide_eq_true in H1.
  - by apply bool_decide_eq_true in H2.
Qed.

(** Arguments quoted by [sdscatrepr] are read back by the parser of inline requests
    unchanged, whatever bytes they have. *)
Theorem inline_roundtrip g args :
  args ≠ [] → gopher_enabled g = false → Z.of_nat (length (quoted_line args)) + 2 ≤ client_max_querybuf_len g →
  readQueryFromClient g (quoted_line args ++ CRLF) createClient = Ok (Some ([args], createClient)).
Proof.
  intros Hne Hg Hmax. unfold readQueryFromClient. cbn [querybuf createClient app qb_pos set_buf].
  rewrite length_app. cbn [length CRLF]. rewrite (proj2 (Z.ltb_ge _ _)) by lia.
  set (c := set_buf (quoted_line args ++ CRLF) 0 createClient).
  change (length (unread c)) with (length (quoted_line args ++ CRLF)).
  assert (∃ n, length (quoted_line args ++ CRLF) = S (S n)) as [n ->].
  { rewrite length_app. simpl. exists (length (quoted_line args)). lia. }
  assert (next_request g c = Ok (Some args, resetClient (set_pos (length (quoted_line args ++ CRLF)) c))) as Hnext.
  { unfold next_request, parse_request. change (reqtype c) with REQ_UNKNOWN. cbv iota.
    assert (head (unread c) ≠ Some x2a) as Hhead by (unfold c; destruct args as [|a [|b args]]; done).
    rewrite decide_False by done. cbn [reqtype set_reqtype]. unfold processInlineBuffer.
    change (unread (set_reqtype PROTO_REQ_INLINE c)) with (quoted_line args ++ CRLF).
    destruct (safe_not_in _ (quoted_line_safe args)) as [H1 H2].
    assert (strchr LF (quoted_line args ++ CRLF) = Some (S (length (quoted_line args)))) as ->.
    { change CRLF with ([CR] ++ LF :: []). rewrite app_assoc, strchr_app, length_app by set_solver. simpl. f_equal. lia. }
    rewrite lookup_app_r, Nat.sub_diag by done. rewrite decide_True by done. rewrite take_app_length, sdssplitargs_quoted.
    cbn [mbind res_bind mret res_ret negb reqtype c_argv set_argv set_pos set_reqtype].
    assert (match args with [] => gopher_enabled g | [a] => gopher_enabled g && bool_decide (head a = Some x2f)
            | _ => false end = false) as -> by (rewrite Hg; by destruct args as [|? []]).
    rewrite length_app. done. }
  cbn [requests]. change (close_after_reply c) with false.
  assert ((length (querybuf c) <=? qb_pos c)%nat = false) as ->.
  { apply Nat.leb_gt. simpl. rewrite length_app. simpl. lia. }
  cbn [orb]. rewrite Hnext. cbn [mbind res_bind mret res_ret requests querybuf qb_pos resetClient set_pos].
  rewrite (proj2 (Nat.leb_le _ _)) by done. cbn [orb mbind res_bind mret res_ret].
  unfold unread. cbn [querybuf qb_pos resetClient set_pos]. by rewrite drop_all.
Qed.

(** ** Examples *)

Definition resp_cfg : proto_cfg := ProtoCfg (512 * 1024 * 1024) (1024 * 1024 * 1024) false.
Definition resp_cmds : list (list bytes) :=
  [[String.list_byte_of_string "SET"; [x6b]; [x00; x0d; x0a; x2a]]; [String.list_byte_of_string "GET"; [x6b]]].

Lemma resp_sendable : Forall (sendable resp_cfg) resp_cmds.
Proof.
  apply Forall_cons. split; [|apply Forall_singleton]; (split; [done|]); (split; [by vm_compute|]).
  all: repeat (apply Forall_cons; split; [by vm_compute|]); by apply Forall_nil.
Qed.

(** GET waits for RocksDB; a second GET and the beginning of a third come in meanwhile; the first is resumed. *)
Definition get_line : bytes := stream [[String.list_byte_of_string "GET"; [x6b]]].
Definition waits_first (n : nat) : turn := Turn false false false (match n with O => OWait | _ => ODone end).
Definition waiting_events : list client_event :=
  [EBytes get_line waits_first; EBytes (get_line ++ [x2a]) (fun _ => undisturbed); EResume false (fun _ => undisturbed)].

Lemma resp_stream_witness :
  read_chunks resp_cfg [take 17 (stream resp_cmds); drop 17 (stream resp_cmds)] createClient
  = Ok (Some (resp_cmds, createClient)).
Proof.
  destruct (resp_stream resp_cfg resp_cmds) as (s & Hs & H); [by vm_compute|by vm_compute|exact resp_sendable|].
  rewrite (cat_commands_spec resp_cfg) in Hs; [|by vm_compute|exact resp_sendable]. injection Hs as Hs.
  apply H; rewrite <- Hs; [cbn [concat]; by rewrite app_nil_r, take_drop|by vm_compute].
Defined.

Lemma inline_roundtrip_witness :
  readQueryFromClient resp_cfg (quoted_line [[x67; x65; x74]; [x22; x0a; x00]] ++ CRLF) createClient
  = Ok (Some ([[[x67; x65; x74]; [x22; x0a; x00]]], createClient)).
Proof. apply (inline_roundtrip resp_cfg); [done|done|by vm_compute]. Defined.
