(* ===== verification/Robj.v ===== *)
(** * Redis objects and their ageing clock

    [robj] of src/src/server.h with the constructors of src/src/object.c, and
    the LRU/LFU bookkeeping of src/src/evict.c and src/src/db.c that lives in
    the 24-bit [lru] field of an object. *)

From S2P Require Import Prelude Util.
From stdpp Require Import list gmap.
#[local] Open Scope Z_scope.

(** ** The configuration and the clocks an object sees *)

(** The fields of [struct redisServer] the object layer reads. *)
Record srv_env := SrvEnv {
  maxmemory : Z;              (* server.maxmemory, bytes; 0 is "no limit" *)
  maxmemory_policy : Z;       (* server.maxmemory_policy *)
  lfu_decay_time : Z;         (* server.lfu_decay_time, minutes *)
  hz : Z;                     (* server.hz *)
  lruclock : Z;               (* server.lruclock, refreshed by serverCron *)
  mstime : Z;                 (* mstime() *)
  unixtime : Z                (* server.unixtime *)
}.

Definition MAXMEMORY_FLAG_LRU : Z := 1.
Definition MAXMEMORY_FLAG_LFU : Z := 2.
Definition MAXMEMORY_FLAG_ALLKEYS : Z := 4.
Definition MAXMEMORY_FLAG_NO_SHARED_INTEGERS : Z :=
  Z.lor MAXMEMORY_FLAG_LRU MAXMEMORY_FLAG_LFU.
Definition MAXMEMORY_VOLATILE_TTL : Z := Z.shiftl 2 8.
Definition MAXMEMORY_NO_EVICTION : Z := Z.shiftl 7 8.

Definition policy_has (env : srv_env) (flag : Z) : bool :=
  negb (Z.land (maxmemory_policy env) flag =? 0).

(** ** LRU and LFU clocks *)

Definition LRU_BITS : Z := 24.
Definition LRU_CLOCK_MAX : Z := Z.shiftl 1 LRU_BITS - 1.
Definition LRU_CLOCK_RESOLUTION : Z := 1000.
Definition LFU_INIT_VAL : Z := 5.

Definition getLRUClock (env : srv_env) : Z :=
  Z.land (mstime env / LRU_CLOCK_RESOLUTION) LRU_CLOCK_MAX.

Definition LRU_CLOCK (env : srv_env) : Z :=
  if 1000 / hz env <=? LRU_CLOCK_RESOLUTION then lruclock env else getLRUClock env.

Definition estimateObjectIdleTime (env : srv_env) (lru : Z) : Z :=
  let clock := LRU_CLOCK env in
  if lru <=? clock then u64 ((clock - lru) * LRU_CLOCK_RESOLUTION)
  else u64 ((clock + (LRU_CLOCK_MAX - lru)) * LRU_CLOCK_RESOLUTION).

Definition LFUGetTimeInMinutes (env : srv_env) : Z :=
  Z.land (unixtime env / 60) 65535.

Definition LFUTimeElapsed (env : srv_env) (ldt : Z) : Z :=
  let now := LFUGetTimeInMinutes env in
  if ldt <=? now then now - ldt else 65535 - ldt + now.

(** [LFULogIncr]: [draw] is the outcome of the floating-point comparison
    [r < p] of the random draw with the increment probability. *)
Definition LFULogIncr (draw : bool) (counter : Z) : Z :=
  if counter =? 255 then 255 else if draw then (counter + 1) mod 256 else counter.

Definition LFUDecrAndReturn (env : srv_env) (lru : Z) : Z :=
  let ldt := Z.shiftr lru 8 in
  let counter := Z.land lru 255 in
  let num_periods :=
    if lfu_decay_time env =? 0 then 0 else LFUTimeElapsed env ldt / lfu_decay_time env in
  if num_periods =? 0 then counter
  else if counter <? num_periods then 0 else counter - num_periods.

(** The value [updateLFU] stores into the 24-bit [lru] bit-field. *)
Definition updateLFU (env : srv_env) (draw : bool) (lru : Z) : Z :=
  let counter := LFULogIncr draw (LFUDecrAndReturn env lru) in
  Z.lor (Z.shiftl (LFUGetTimeInMinutes env) 8) counter mod 2 ^ LRU_BITS.

(** ** Objects *)

Inductive obj_type :=
| OBJ_STRING | OBJ_LIST | OBJ_SET | OBJ_ZSET | OBJ_HASH | OBJ_MODULE | OBJ_STREAM.
#[global] Instance obj_type_eq_dec : EqDecision obj_type.
Proof. solve_decision. Defined.

Inductive obj_encoding :=
| OBJ_ENCODING_RAW | OBJ_ENCODING_INT | OBJ_ENCODING_HT | OBJ_ENCODING_ZIPMAP
| OBJ_ENCODING_LINKEDLIST | OBJ_ENCODING_ZIPLIST | OBJ_ENCODING_INTSET
| OBJ_ENCODING_SKIPLIST | OBJ_ENCODING_EMBSTR | OBJ_ENCODING_QUICKLIST
| OBJ_ENCODING_STREAM.
#[global] Instance obj_encoding_eq_dec : EqDecision obj_encoding.
Proof. solve_decision. Defined.

(** The numbers the [#define]s give the encodings. *)
Definition encoding_num (e : obj_encoding) : Z :=
  match e with
  | OBJ_ENCODING_RAW => 0 | OBJ_ENCODING_INT => 1 | OBJ_ENCODING_HT => 2
  | OBJ_ENCODING_ZIPMAP => 3 | OBJ_ENCODING_LINKEDLIST => 4
  | OBJ_ENCODING_ZIPLIST => 5 | OBJ_ENCODING_INTSET => 6
  | OBJ_ENCODING_SKIPLIST => 7 | OBJ_ENCODING_EMBSTR => 8
  | OBJ_ENCODING_QUICKLIST => 9 | OBJ_ENCODING_STREAM => 10
  end.

(** An element of a quicklist as [quicklistNext] hands it out: a pointer to
    its characters ([entry.value], [entry.sz]) or an integer ([entry.longval]). *)
Inductive qentry := QStr (value : bytes) | QInt (longval : Z).
#[global] Instance qentry_eq_dec : EqDecision qentry.
Proof. solve_decision. Defined.

(** [struct intset]: [contents] holds [length] integers of [encoding] bytes. *)
Record intset := Intset { is_encoding : Z; is_length : Z; is_contents : bytes }.

(** A sorted set: the chain of skip-list nodes from head to tail, the
    [zsl->length] counter and the element-to-score dictionary.  A score is the
    64-bit pattern of its [double]. *)
Record zset := Zset {
  zsl_nodes : list (bytes * Z);
  zsl_length : Z;
  zset_dict : gmap bytes Z
}.

(** What [o->ptr] points to. *)
Inductive payload :=
| PInt (v : Z)                       (* the integer stored in the pointer *)
| PSds (s : bytes)
| PQuicklist (es : list qentry)
| PIntset (ist : intset)
| PSet (d : gset bytes)              (* dict with NULL values *)
| PHash (d : gmap bytes bytes)
| PZiplist (zl : bytes)              (* the ziplist blob *)
| PZset (zs : zset)
| POpaque (id : nat).                (* stream or module value *)

Record robj := Robj {
  o_type : obj_type;
  o_encoding : obj_encoding;
  o_lru : Z;
  o_refcount : Z;
  o_ptr : payload
}.

Definition OBJ_SHARED_REFCOUNT : Z := 2 ^ 31 - 1.
Definition OBJ_SHARED_INTEGERS : Z := 10000.
Definition OBJ_ENCODING_EMBSTR_SIZE_LIMIT : Z := 44.

Definition set_lru (lru : Z) (o : robj) : robj :=
  Robj (o_type o) (o_encoding o) lru (o_refcount o) (o_ptr o).
Definition set_encoding (e : obj_encoding) (o : robj) : robj :=
  Robj (o_type o) e (o_lru o) (o_refcount o) (o_ptr o).

(** ** Constructors (src/src/object.c) *)

Definition initial_lru (env : srv_env) : Z :=
  if policy_has env MAXMEMORY_FLAG_LFU
  then Z.lor (Z.shiftl (LFUGetTimeInMinutes env) 8) LFU_INIT_VAL
  else LRU_CLOCK env.

Definition createObject (env : srv_env) (type : obj_type) (ptr : payload) : robj :=
  Robj type OBJ_ENCODING_RAW (initial_lru env) 1 ptr.

Definition makeObjectShared (o : robj) : res robj :=
  serverAssert (o_refcount o =? 1) "makeObjectShared" ≫= fun _ =>
  Ok (Robj (o_type o) (o_encoding o) (o_lru o) OBJ_SHARED_REFCOUNT (o_ptr o)).

Definition createRawStringObject (env : srv_env) (s : bytes) : robj :=
  createObject env OBJ_STRING (PSds s).

Definition createEmbeddedStringObject (env : srv_env) (s : bytes) : robj :=
  Robj OBJ_STRING OBJ_ENCODING_EMBSTR (initial_lru env) 1 (PSds s).

Definition createStringObject (env : srv_env) (s : bytes) : robj :=
  if Z.of_nat (length s) <=? OBJ_ENCODING_EMBSTR_SIZE_LIMIT
  then createEmbeddedStringObject env s
  else createRawStringObject env s.

(** [shared.integers[v]]: created once at start-up and never freed. *)
Definition shared_integer (v : Z) : robj :=
  Robj OBJ_STRING OBJ_ENCODING_INT 0 OBJ_SHARED_REFCOUNT (PInt v).

Definition createStringObjectFromLongLongWithOptions
    (env : srv_env) (value : Z) (valueobj : bool) : robj :=
  let valueobj :=
    if (maxmemory env =? 0) || negb (policy_has env MAXMEMORY_FLAG_NO_SHARED_INTEGERS)
    then false else valueobj in
  if (0 <=? value) && (value <? OBJ_SHARED_INTEGERS) && negb valueobj
  then shared_integer value
  else if (LLONG_MIN <=? value) && (value <=? LLONG_MAX)
  then set_encoding OBJ_ENCODING_INT (createObject env OBJ_STRING (PInt value))
  else createObject env OBJ_STRING (PSds (sdsfromlonglong value)).

Definition createStringObjectFromLongLongForValue (env : srv_env) (value : Z) : robj :=
  createStringObjectFromLongLongWithOptions env value true.

Definition createQuicklistObject (env : srv_env) : robj :=
  set_encoding OBJ_ENCODING_QUICKLIST (createObject env OBJ_LIST (PQuicklist [])).
Definition createSetObject (env : srv_env) : robj :=
  set_encoding OBJ_ENCODING_HT (createObject env OBJ_SET (PSet ∅)).
Definition createIntsetObject (env : srv_env) : robj :=
  set_encoding OBJ_ENCODING_INTSET (createObject env OBJ_SET (PIntset (Intset 2 0 []))).
Definition createZsetObject (env : srv_env) : robj :=
  set_encoding OBJ_ENCODING_SKIPLIST (createObject env OBJ_ZSET (PZset (Zset [] 0 ∅))).

(** ** The 24-bit field *)

Definition wf_env (env : srv_env) : Prop :=
  0 ≤ lruclock env ≤ LRU_CLOCK_MAX ∧ 0 ≤ mstime env ∧ 0 ≤ unixtime env ∧
  0 ≤ lfu_decay_time env ∧ 0 < hz env.

Definition lru_ok (lru : Z) : Prop := 0 ≤ lru < 2 ^ 24.

Lemma land_255 a : Z.land a 255 = a mod 256.
Proof. change 255 with (Z.ones 8). by rewrite Z.land_ones. Qed.

Lemma land_65535 a : Z.land a 65535 = a mod 65536.
Proof. change 65535 with (Z.ones 16). by rewrite Z.land_ones. Qed.

Lemma LRU_CLOCK_range env : wf_env env → 0 ≤ LRU_CLOCK env ≤ LRU_CLOCK_MAX.
Proof.
  intros (? & ? & _). unfold LRU_CLOCK, getLRUClock. case_match; [done|].
  change LRU_CLOCK_MAX with (Z.ones 24). rewrite Z.land_ones by lia.
  pose proof (Z.mod_pos_bound (mstime env / LRU_CLOCK_RESOLUTION) (2 ^ 24) ltac:(lia)).
  change (Z.ones 24) with (2 ^ 24 - 1). lia.
Qed.

Lemma minutes_range env : 0 ≤ LFUGetTimeInMinutes env < 65536.
Proof. unfold LFUGetTimeInMinutes. rewrite land_65535. apply Z.mod_pos_bound. lia. Qed.

Lemma LFUDecr_range env lru :
  wf_env env → lru_ok lru → 0 ≤ LFUDecrAndReturn env lru ≤ Z.land lru 255 ≤ 255.
Proof.
  intros (_ & _ & _ & Hd & _) Hl. unfold LFUDecrAndReturn. rewrite land_255.
  pose proof (Z.mod_pos_bound lru 256 ltac:(lia)).
  set (np := if lfu_decay_time env =? 0 then _ else _).
  assert (0 ≤ np).
  { unfold np. destruct (Z.eqb_spec (lfu_decay_time env) 0); [lia|].
    apply Z.div_pos; [|lia]. pose proof (minutes_range env).
    unfold LFUTimeElapsed. rewrite Z.shiftr_div_pow2 by lia. unfold lru_ok in Hl.
    assert (lru / 2 ^ 8 < 65536) by (apply Z.div_lt_upper_bound; lia).
    case_match; lia. }
  destruct (Z.eqb_spec np 0); [lia|]. destruct (Z.ltb_spec (lru mod 256) np); lia.
Qed.

Lemma LFULogIncr_range draw c :
  0 ≤ c ≤ 255 → c ≤ LFULogIncr draw c ≤ 255.
Proof.
  intros. unfold LFULogIncr. destruct (Z.eqb_spec c 255); [lia|].
  destruct draw; [|lia]. rewrite Z.mod_small; lia.
Qed.

Lemma updateLFU_eq env draw lru :
  wf_env env → lru_ok lru →
  updateLFU env draw lru =
  LFUGetTimeInMinutes env * 256 + LFULogIncr draw (LFUDecrAndReturn env lru).
Proof.
  intros Hw Hl. unfold updateLFU.
  pose proof (LFUDecr_range env lru Hw Hl).
  pose proof (LFULogIncr_range draw (LFUDecrAndReturn env lru) ltac:(lia)).
  pose proof (minutes_range env).
  set (c := LFULogIncr _ _) in *. set (m := LFUGetTimeInMinutes env) in *.
  assert (E : Z.lor (Z.shiftl m 8) c = m * 256 + c).
  { assert (Hno : Z.land (Z.shiftl m 8) c = 0).
    { apply Z.bits_inj'. intros n Hn. rewrite Z.land_spec, Z.bits_0.
      destruct (Z.lt_ge_cases n 8).
      - by rewrite Z.shiftl_spec_low by lia.
      - rewrite <- (Z.mod_small c (2 ^ 8)), Z.mod_pow2_bits_high by lia.
        apply andb_false_r. }
    rewrite <- Z.lxor_lor, <- Z.add_nocarry_lxor by done.
    by rewrite Z.shiftl_mul_pow2 by lia. }
  rewrite E. change (2 ^ LRU_BITS) with (65536 * 256). rewrite Z.mod_small; lia.
Qed.

(** The LFU word round-trips.  Right after an access stored the new word,
    reading it back gives the counter the access computed, that counter is at
    most 255 and at least what ageing left of the old one, and the word fits
    the 24-bit field. *)
Theorem updateLFU_roundtrip env draw lru :
  wf_env env → lru_ok lru →
  lru_ok (updateLFU env draw lru) ∧
  LFUDecrAndReturn env (updateLFU env draw lru) =
    LFULogIncr draw (LFUDecrAndReturn env lru) ∧
  LFUDecrAndReturn env lru ≤ LFUDecrAndReturn env (updateLFU env draw lru) ≤ 255.
Proof.
  intros Hw Hl. pose proof (LFUDecr_range env lru Hw Hl).
  pose proof (LFULogIncr_range draw (LFUDecrAndReturn env lru) ltac:(lia)) as Hc.
  pose proof (minutes_range env). rewrite updateLFU_eq by done.
  set (c := LFULogIncr _ _) in *. set (m := LFUGetTimeInMinutes env) in *.
  assert (E : LFUDecrAndReturn env (m * 256 + c) = c).
  { unfold LFUDecrAndReturn, LFUTimeElapsed. rewrite land_255, Z.shiftr_div_pow2 by lia.
    change (2 ^ 8) with 256. rewrite Z.div_add_l, (Z.div_small c 256), Z.add_0_r by lia.
    rewrite (Z.add_comm (m * 256)), Z.mod_add, Z.mod_small by lia. fold m.
    rewrite Z.leb_refl, Z.sub_diag. rewrite Zdiv_0_l. by destruct (lfu_decay_time env =? 0). }
  rewrite E. unfold lru_ok. split; [lia|]. split; [done|lia].
Qed.

(** The idle time of an object is computed without 64-bit wrap-around, is a
    whole number of seconds, and is bounded by the range of the 24-bit clock; it
    is zero exactly when the object was touched in the current clock tick. *)
Theorem estimateObjectIdleTime_bounds env lru :
  wf_env env → lru_ok lru →
  0 ≤ estimateObjectIdleTime env lru ≤ LRU_CLOCK_MAX * LRU_CLOCK_RESOLUTION ∧
  (estimateObjectIdleTime env lru = 0 ↔
     lru = LRU_CLOCK env ∨ (lru = LRU_CLOCK_MAX ∧ LRU_CLOCK env = 0)).
Proof.
  intros Hw Hl. pose proof (LRU_CLOCK_range env Hw).
  change LRU_CLOCK_MAX with (2 ^ 24 - 1) in *.
  unfold lru_ok, estimateObjectIdleTime, u64, LRU_CLOCK_RESOLUTION in *.
  change LRU_CLOCK_MAX with (2 ^ 24 - 1).
  destruct (Z.leb_spec lru (LRU_CLOCK env)); rewrite Z.mod_small by lia; lia.
Qed.
