(* ===== verification/RdbString.v ===== *)
(** * Lengths and strings of the RDB format (src/src/rdb.c)

    What a snapshot, a full synchronization, DUMP and RESTORE are made of: encoded lengths, and
    strings that are stored as an integer, compressed, or as they are.

    A function that saves is a [saver]: it writes to a stream and returns the number of bytes, or
    -1.  The stream may be missing; then only the number is computed.  A function that loads is
    a [loader]: it reads from a stream, and [None] is what it returns on a short read.  Where
    the code calls [exit] on a corrupt file, and where it would use bytes that were never
    written, the result is [Abort].

    What the table of [lzf_compress] holds at the start of a call, which is not initialized, is
    an argument.

    Shown: for every string below 2^31 bytes, what is written is what the loading functions make
    the string of, in every of their modes, the number that is returned is the number of bytes,
    and an error of the stream is returned as an error. *)

From S2P Require Import Prelude Util Mem Lzf Rio Resp Robj.
From stdpp Require Import list.
#[local] Open Scope Z_scope.

Declare Scope rdb_scope.
Delimit Scope rdb_scope with rdb.

(** ** Saving and loading *)

Definition saver : Type := option rio → res (Z * option rio).
Definition loader (A : Type) : Type := rio → res (option A * rio).

(** [if ((n = m) == -1) return -1;] *)
Definition wbind (m : saver) (f : Z → saver) : saver := fun rdb =>
  '(n, rdb) ← m rdb; if n =? -1 then mret (-1, rdb) else f n rdb.
Definition wret (n : Z) : saver := fun rdb => mret (n, rdb).
Definition wpanic (msg : string) : saver := fun _ => Abort msg.
Definition wres {A} (x : res A) (f : A → saver) : saver := fun rdb => a ← x; f a rdb.
(** [nwritten += n;] *)
Definition wseq (m1 m2 : saver) : saver := wbind m1 (fun n1 => wbind m2 (fun n2 => wret (n1 + n2))).
(** [if ((x = m) == NULL) return NULL;] *)
Definition lbind {A B} (m : loader A) (f : A → loader B) : loader B := fun rdb =>
  '(x, rdb) ← m rdb; match x with None => mret (None, rdb) | Some a => f a rdb end.
Definition lret {A} (a : A) : loader A := fun rdb => mret (Some a, rdb).
Definition lfail {A} : loader A := fun rdb => mret (None, rdb).
Definition lexit {A} (msg : string) : loader A := fun _ => Abort msg.
Definition lres {A B} (x : res A) (f : A → loader B) : loader B := fun rdb => a ← x; f a rdb.
Notation "n ⇢ m ; k" := (wbind m (fun n => k)) (at level 100, m at next level, k at level 200, right associativity) : rdb_scope.
Notation "m1 +++ m2" := (wseq m1 m2) (at level 60, right associativity) : rdb_scope.
Notation "x ⇠ m ; k" := (lbind m (fun x => k)) (at level 100, m at next level, k at level 200, right associativity) : rdb_scope.
#[local] Open Scope rdb_scope.

Definition rdbWriteRaw (p : bytes) : saver := fun rdb =>
  match rdb with
  | None => mret (to_signed 32 (Z.of_nat (length p)), None)
  | Some r =>
      let '(ok, r) := rioWrite p r in
      mret (if ok then to_signed 32 (Z.of_nat (length p)) else -1, Some r)
  end.
(** [rioRead] into a buffer of [len] bytes. *)
Definition read (len : Z) : loader bytes := fun r => mret (rioRead (Z.to_nat len) r).

Definition rdbSaveType (type : Z) : saver := rdbWriteRaw [byte_of_Z type].
Definition rdbLoadType : loader Z := buf ⇠ read 1; lret (le_combine buf).

Definition rdbSaveMillisecondTime (t : Z) : saver := rdbWriteRaw (le_split 8 t).
(** LLONG_MAX on an error, which the caller sees by [rioGetReadError]. *)
Definition rdbLoadMillisecondTime : rio → res (Z * rio) := fun r =>
  let '(x, r) := rioRead 8 r in
  mret (match x with None => LLONG_MAX | Some buf => to_signed 64 (le_combine buf) end, r).

(** ** Lengths *)

Definition RDB_6BITLEN : Z := 0.
Definition RDB_14BITLEN : Z := 1.
Definition RDB_32BITLEN : Z := 128.
Definition RDB_64BITLEN : Z := 129.
Definition RDB_ENCVAL : Z := 3.
Definition RDB_LENERR : Z := 2 ^ 64 - 1.
Definition RDB_ENC_INT8 : Z := 0.
Definition RDB_ENC_INT16 : Z := 1.
Definition RDB_ENC_INT32 : Z := 2.
Definition RDB_ENC_LZF : Z := 3.

(** [htonl] and [htonu64], [ntohl] and [ntohu64]. *)
Definition be_split (n : nat) (z : Z) : bytes := reverse (le_split n z).
Definition be_combine (bs : bytes) : Z := le_combine (reverse bs).

Definition rdbSaveLen (len : Z) : saver :=
  if len <? Z.shiftl 1 6 then
    _ ⇢ rdbWriteRaw [byte_of_Z (Z.lor (Z.land len 255) (Z.shiftl RDB_6BITLEN 6))]; wret 1
  else if len <? Z.shiftl 1 14 then
    _ ⇢ rdbWriteRaw [byte_of_Z (Z.lor (Z.land (Z.shiftr len 8) 255) (Z.shiftl RDB_14BITLEN 6)); byte_of_Z (Z.land len 255)]; wret 2
  else if len <=? 2 ^ 32 - 1 then
    _ ⇢ rdbWriteRaw [byte_of_Z RDB_32BITLEN]; _ ⇢ rdbWriteRaw (be_split 4 len); wret (1 + 4)
  else
    _ ⇢ rdbWriteRaw [byte_of_Z RDB_64BITLEN]; _ ⇢ rdbWriteRaw (be_split 8 len); wret (1 + 8).

(** [*isencoded] and [*lenptr] *)
Definition rdbLoadLenByRef : loader (bool * Z) :=
  b ⇠ read 1;
  let buf0 := le_combine b in
  let type := Z.shiftr (Z.land buf0 192) 6 in
  if type =? RDB_ENCVAL then lret (true, Z.land buf0 63)
  else if type =? RDB_6BITLEN then lret (false, Z.land buf0 63)
  else if type =? RDB_14BITLEN then
    b1 ⇠ read 1; lret (false, Z.lor (Z.shiftl (Z.land buf0 63) 8) (le_combine b1))
  else if buf0 =? RDB_32BITLEN then b4 ⇠ read 4; lret (false, be_combine b4)
  else if buf0 =? RDB_64BITLEN then b8 ⇠ read 8; lret (false, be_combine b8)
  else lexit "Unknown length encoding in rdbLoadLen()".
Definition rdbLoadLen : rio → res (bool * Z * rio) := fun r =>
  '(x, r) ← rdbLoadLenByRef r;
  mret (match x with None => (false, RDB_LENERR) | Some x => x end, r).
(** [if ((len = rdbLoadLen(rdb,NULL)) == RDB_LENERR) return NULL;] *)
Definition load_len : loader Z := fun r =>
  '((_, len), r) ← rdbLoadLen r; mret (if len =? RDB_LENERR then None else Some len, r).

(** ** Integers *)

(** [enc]; [None] is the result 0. *)
Definition rdbEncodeInteger (value : Z) : option bytes :=
  let byte_at k := byte_of_Z (Z.land (Z.shiftr value k) 255) in
  let first enc := byte_of_Z (Z.lor (Z.shiftl RDB_ENCVAL 6) enc) in
  if (- Z.shiftl 1 7 <=? value) && (value <=? Z.shiftl 1 7 - 1) then Some [first RDB_ENC_INT8; byte_at 0]
  else if (- Z.shiftl 1 15 <=? value) && (value <=? Z.shiftl 1 15 - 1) then Some [first RDB_ENC_INT16; byte_at 0; byte_at 8]
  else if (- Z.shiftl 1 31 <=? value) && (value <=? Z.shiftl 1 31 - 1) then
    Some [first RDB_ENC_INT32; byte_at 0; byte_at 8; byte_at 16; byte_at 24]
  else None.

(** RDB_LOAD_ENC, RDB_LOAD_PLAIN and RDB_LOAD_SDS *)
Record load_flags := LoadFlags { load_enc : bool; load_plain : bool; load_sds : bool }.
Definition RDB_LOAD_NONE := LoadFlags false false false.
Definition RDB_LOAD_ENC := LoadFlags true false false.
Definition RDB_LOAD_PLAIN := LoadFlags false true false.
Definition RDB_LOAD_SDS := LoadFlags false false true.
(** The result of a function that returns [void *]: a block or an sds, or an object. *)
Inductive loaded := LBuf (b : bytes) | LObj (o : robj).

Section strings.
Variable env : srv_env.
Variable rdb_compression : bool.                        (* server.rdb_compression *)
Variable htab : option rio → bytes → hash_table.        (* the table of [lzf_compress] *)
Implicit Types (flags : load_flags) (s : bytes).

Definition LONG_STR_SIZE : Z := 21.

(** [enc[i] << 8 * i], put together *)
Definition rdbLoadIntegerObject (enctype : Z) flags : loader loaded :=
  let at_ (enc : bytes) i := Z.shiftl (Z_of_byte (nth i enc x00)) (8 * Z.of_nat i) in
  val ⇠ (if enctype =? RDB_ENC_INT8 then enc ⇠ read 1; lret (to_signed 8 (at_ enc 0%nat))
         else if enctype =? RDB_ENC_INT16 then
           enc ⇠ read 2; lret (to_signed 16 (Z.lor (at_ enc 0%nat) (at_ enc 1%nat)))
         else if enctype =? RDB_ENC_INT32 then
           enc ⇠ read 4;
           lret (to_signed 32 (Z.lor (Z.lor (Z.lor (at_ enc 0%nat) (at_ enc 1%nat)) (at_ enc 2%nat)) (at_ enc 3%nat)))
         else lexit "Unknown RDB integer encoding type");
  if load_plain flags || load_sds flags then lret (LBuf (default [] (ll2string LONG_STR_SIZE val)))
  else if load_enc flags then lret (LObj (createStringObjectFromLongLongForValue env val))
  else lret (LObj (createObject env OBJ_STRING (PSds (sdsfromlonglong val)))).

(** [strtoll] with base 10, of what is in a block: the value, and the rest of the block from [endptr]
    on. *)
Definition outside {A} : res A := Abort "read outside of the block".
Fixpoint skip_isspace s : res bytes :=
  match s with [] => outside | c :: s' => if isspace c then skip_isspace s' else mret s end.
Fixpoint strtoll_digits s (acc : Z) : res (Z * bytes) :=
  match s with
  | [] => outside
  | c :: s' => match digit_val c with Some d => strtoll_digits s' (acc * 10 + d) | None => mret (acc, s) end
  end.
Definition strtoll s : res (Z * bytes) :=
  s1 ← skip_isspace s;
  let '(sign, s2) := if bool_decide (head s1 = Some x2d) then (-1, tail s1) else if bool_decide (head s1 = Some x2b) then (1, tail s1) else (1, s1) in
  '(v, endptr) ← strtoll_digits s2 0;
  if (length endptr =? length s2)%nat then mret (0, s)
  else mret (Z.max LLONG_MIN (Z.min LLONG_MAX (sign * v)), endptr).

(** [s] is the block, of which the string is the first [len] bytes; [None] is the result 0. *)
Definition rdbTryIntegerEncoding s (len : Z) : res (option bytes) :=
  '(value, endptr) ← strtoll s;
  if negb (bool_decide (head endptr = Some x00)) then mret None
  else
    let buf := default [] (ll2string 32 value) in
    if negb (Z.of_nat (length buf) =? len) || negb (bool_decide (take (Z.to_nat len) s = buf)) then mret None
    else mret (rdbEncodeInteger value).

(** ** Compressed strings *)

Definition rdbSaveLzfBlob (data : bytes) (compress_len original_len : Z) : saver :=
  rdbWriteRaw [byte_of_Z (Z.lor (Z.shiftl RDB_ENCVAL 6) RDB_ENC_LZF)] +++
  rdbSaveLen compress_len +++ rdbSaveLen original_len +++ rdbWriteRaw (take (Z.to_nat compress_len) data).

(** [lzf_compress] takes the lengths as [unsigned int]. *)
Definition rdbSaveLzfStringObject s (len : Z) : saver := fun rdb =>
  if len <=? 4 then wret 0 rdb
  else
    let inp := take (Z.to_nat (u32 len)) s in
    x ← lzf_compress (htab rdb inp) inp (replicate (Z.to_nat (u32 (len - 4))) None);
    match x with
    | None => wret 0 rdb
    | Some (comprlen, out) =>
        data ← res_of_option (mapM id (take (Z.to_nat comprlen) out)) "uninitialized byte";
        rdbSaveLzfBlob data comprlen len rdb
    end.

Definition rdbLoadLzfStringObject flags : loader loaded :=
  clen ⇠ load_len; len ⇠ load_len; c ⇠ read clen;
  lres (lzf_decompress (take (Z.to_nat (u32 clen)) c) (u32 len)) (fun x =>
  match x with
  | None | Some [] => lexit "Invalid LZF compressed string"
  | Some val =>
      if negb (Z.of_nat (length val) =? len) then lexit "uninitialized byte"
      else if load_plain flags || load_sds flags then lret (LBuf val)
      else lret (LObj (createObject env OBJ_STRING (PSds val)))
  end).

(** ** Strings *)

(** [s] is the block, of which the string is the first [len] bytes. *)
Definition rdbSaveRawString s (len : Z) : saver := fun rdb =>
  enc ← (if len <=? 11 then rdbTryIntegerEncoding s len else mret None);
  match enc with
  | Some buf => (_ ⇢ rdbWriteRaw buf; wret (Z.of_nat (length buf))) rdb
  | None =>
      (n ⇢ (if rdb_compression && (20 <? len) then rdbSaveLzfStringObject s len else wret 0);
       if 0 <? n then wret n
       else
         n ⇢ rdbSaveLen len;
         if 0 <? len then _ ⇢ rdbWriteRaw (take (Z.to_nat len) s); wret (n + len) else wret n) rdb
  end.

(** An sds has a zero behind its bytes. *)
Definition save_sds s : saver := rdbSaveRawString (s ++ [x00]) (Z.of_nat (length s)).

Definition rdbSaveLongLongAsStringObject (value : Z) : saver :=
  match rdbEncodeInteger value with
  | Some buf => rdbWriteRaw buf
  | None =>
      let buf := default [] (ll2string 32 value) in
      wres (serverAssert (Z.of_nat (length buf) <? 32) "enclen < 32") (fun _ =>
      rdbSaveLen (Z.of_nat (length buf)) +++ rdbWriteRaw buf)
  end.

Definition rdbSaveStringObject (obj : robj) : saver :=
  match o_encoding obj, o_ptr obj with
  | OBJ_ENCODING_INT, PInt value => rdbSaveLongLongAsStringObject value
  | (OBJ_ENCODING_RAW | OBJ_ENCODING_EMBSTR), PSds s => save_sds s
  | _, _ => wpanic "sdsEncodedObject(obj)"
  end.

Definition rdbGenericLoadStringObject flags : loader loaded := fun r =>
  '((isencoded, len), r) ← rdbLoadLen r;
  if isencoded : bool then
    if (len =? RDB_ENC_INT8) || (len =? RDB_ENC_INT16) || (len =? RDB_ENC_INT32) then rdbLoadIntegerObject len flags r
    else if len =? RDB_ENC_LZF then rdbLoadLzfStringObject flags r
    else lexit "Unknown RDB string encoding type" r
  else if len =? RDB_LENERR then lfail r
  else if load_plain flags || load_sds flags then (buf ⇠ read len; lret (LBuf buf)) r
  else if load_enc flags then (buf ⇠ read len; lret (LObj (createStringObject env buf))) r
  else (buf ⇠ read len; lret (LObj (createRawStringObject env buf))) r.

Definition as_obj (x : loaded) : loader robj :=
  match x with LObj o => lret o | LBuf _ => lexit "not an object" end.
Definition as_buf (x : loaded) : loader bytes :=
  match x with LBuf b => lret b | LObj _ => lexit "not a block" end.
Definition rdbLoadStringObject : loader robj := x ⇠ rdbGenericLoadStringObject RDB_LOAD_NONE; as_obj x.
Definition rdbLoadEncodedStringObject : loader robj := x ⇠ rdbGenericLoadStringObject RDB_LOAD_ENC; as_obj x.
Definition load_sds_string : loader bytes := x ⇠ rdbGenericLoadStringObject RDB_LOAD_SDS; as_buf x.
Definition load_plain_string : loader bytes := x ⇠ rdbGenericLoadStringObject RDB_LOAD_PLAIN; as_buf x.
End strings.

(** ** What is written and what is read *)

Definition stream_ok (rdb : option rio) : Prop :=
  match rdb with None => True | Some r => rio_ok r ∧ write_error r = false end.
Definition has_room (n : nat) (rdb : option rio) : Prop :=
  match rdb with None => True | Some r => room n r end.
Definition failed (rdb : option rio) : Prop :=
  match rdb with None => False | Some r => write_error r = true end.
#[local] Instance has_room_dec n rdb : Decision (has_room n rdb).
Proof. destruct rdb; cbn; [unfold room; destruct (io_room r)|]; apply _. Defined.

(** The saver writes bytes with the property [P] and returns their number, or fails if the stream
    does. *)
Definition saves (m : saver) (P : bytes → Prop) : Prop := ∀ rdb, stream_ok rdb → ∃ enc, P enc ∧
  (has_room (length enc) rdb → m rdb = Ok (Z.of_nat (length enc), option_map (wrote enc) rdb)) ∧
  (¬ has_room (length enc) rdb → ∃ rdb', m rdb = Ok (-1, rdb') ∧ failed rdb').
(** The loader makes [a] of [enc], whatever comes after it. *)
Definition reads {A} (m : loader A) (enc : bytes) (a : A) : Prop := ∀ r rest,
  rio_ok r → read_error r = false → io_in r = enc ++ rest → m r = Ok (Some a, consumed enc rest r).

Lemma saves_weaken m P Q : (∀ enc, P enc → Q enc) → saves m P → saves m Q.
Proof. intros H Hm rdb Hr. destruct (Hm rdb Hr) as (enc & He & H1). exists enc. split; [by apply H|done]. Qed.

Lemma stream_wrote enc rdb : stream_ok rdb → stream_ok (option_map (wrote enc) rdb).
Proof. by destruct rdb. Qed.
Lemma room_wrote e1 n rdb : has_room (length e1) rdb → has_room n (option_map (wrote e1) rdb) ↔ has_room (length e1 + n) rdb.
Proof. destruct rdb as [r|]; cbn; [|done]. unfold room. cbn. destruct (io_room r); cbn; [lia|done]. Qed.
Lemma room_le n n' rdb : (n ≤ n')%nat → has_room n' rdb → has_room n rdb.
Proof. destruct rdb as [r|]; cbn; [|done]. unfold room. destruct (io_room r); [lia|done]. Qed.
Lemma option_wrote_app e1 e2 rdb : option_map (wrote e2) (option_map (wrote e1) rdb) = option_map (wrote (e1 ++ e2)) rdb.
Proof. destruct rdb; cbn; [by rewrite wrote_app|done]. Qed.

(** A saver after another one: [f] gets the number of bytes of the first, and returns the sum. *)
Lemma saves_bind m (f : Z → saver) P Q :
  saves m P →
  (∀ e1, P e1 → ∀ rdb, stream_ok rdb → ∃ e2, Q (e1 ++ e2) ∧
    (has_room (length e2) rdb → f (Z.of_nat (length e1)) rdb = Ok (Z.of_nat (length (e1 ++ e2)), option_map (wrote e2) rdb)) ∧
    (¬ has_room (length e2) rdb → ∃ rdb', f (Z.of_nat (length e1)) rdb = Ok (-1, rdb') ∧ failed rdb')) →
  saves (wbind m f) Q.
Proof.
  intros Hm Hf rdb Hr. destruct (Hm rdb Hr) as (e1 & H1 & Hok & Hno).
  destruct (Hf e1 H1 (option_map (wrote e1) rdb)) as (e2 & H2 & Hok2 & Hno2); [by apply stream_wrote|]. exists (e1 ++ e2). split; [done|].
  rewrite length_app in *. unfold wbind. destruct (decide (has_room (length e1) rdb)) as [Hk|Hk].
  - rewrite Hok by done. cbn [mbind res_bind]. destruct (Z.eqb_spec (Z.of_nat (length e1)) (-1)); [lia|]. rewrite room_wrote in Hok2, Hno2 by done.
    split; [|done]. intros Hk2. rewrite Hok2 by done. by rewrite option_wrote_app.
  - destruct (Hno Hk) as (rdb' & -> & Hf'). cbn [mbind res_bind]. split; [|by exists rdb']. intros Hk2. destruct Hk. eapply room_le; [|done]. lia.
Qed.
Lemma saves_seq m1 m2 P1 P2 Q :
  saves m1 P1 → saves m2 P2 → (∀ e1 e2, P1 e1 → P2 e2 → Q (e1 ++ e2)) → saves (m1 +++ m2) Q.
Proof.
  intros H1 H2 HQ. eapply saves_bind; [done|]. intros e1 He1 rdb Hr. destruct (H2 rdb Hr) as (e2 & He2 & Hok & Hno). exists e2. split; [by apply HQ|].
  unfold wbind. split; intros Hk.
  - rewrite Hok by done. cbn [mbind res_bind]. destruct (Z.eqb_spec (Z.of_nat (length e2)) (-1)); [lia|]. unfold wret. rewrite length_app. f_equal. f_equal. lia.
  - destruct (Hno Hk) as (rdb' & -> & Hf). cbn. by exists rdb'.
Qed.
Lemma saves_nothing (n : Z) rdb :
  (has_room (length (A := byte) []) rdb → wret n rdb = Ok (n, option_map (wrote []) rdb)) ∧
  (¬ has_room (length (A := byte) []) rdb → ∃ rdb', wret n rdb = Ok (-1, rdb') ∧ failed rdb').
Proof.
  split; intros Hk.
  - unfold wret. destruct rdb; cbn; by rewrite ?wrote_nil.
  - destruct Hk. destruct rdb as [r|]; cbn; [|done]. unfold room. destruct (io_room r); [lia|done].
Qed.
(** A saver whose result is given as a constant. *)
Lemma saves_then m (n : Z) P : saves m P → (∀ e, P e → Z.of_nat (length e) = n) → saves (_ ⇢ m; wret n) P.
Proof.
  intros Hm Hn. eapply saves_bind; [done|]. intros e1 He1 rdb Hr. exists []. rewrite app_nil_r. split; [done|]. rewrite <- (Hn e1 He1). by apply saves_nothing.
Qed.
Lemma saves_before m m2 P1 P2 Q n : saves m P1 → saves (m2) P2 → (∀ e1 e2, P1 e1 → P2 e2 → Q (e1 ++ e2) ∧ Z.of_nat (length e1 + length e2) = n) →
  saves (_ ⇢ m; _ ⇢ m2; wret n) Q.
Proof.
  intros H1 H2 HQ. eapply saves_bind; [done|]. intros e1 He1 rdb Hr. destruct (H2 rdb Hr) as (e2 & He2 & Hok & Hno).
  destruct (HQ e1 e2 He1 He2) as [HQ' Hn]. exists e2. split; [done|]. unfold wbind. split; intros Hk.
  - rewrite Hok by done. cbn [mbind res_bind]. destruct (Z.eqb_spec (Z.of_nat (length e2)) (-1)); [lia|]. unfold wret. by rewrite length_app, Hn.
  - destruct (Hno Hk) as (rdb' & -> & Hf). cbn. by exists rdb'.
Qed.
Lemma saves_raw p : Z.of_nat (length p) < 2 ^ 31 → saves (rdbWriteRaw p) (fun enc => enc = p).
Proof.
  intros Hl rdb Hr. exists p. split; [done|]. unfold rdbWriteRaw. rewrite to_signed_small by lia. destruct rdb as [r|]; cbn in *; [|done].
  destruct Hr as [Hr Hw]. split; intros Hk.
  - by rewrite rioWrite_ok.
  - destruct (rioWrite_full p r) as (r' & -> & Hf); [done|by right|]. by exists (Some r').
Qed.

Lemma reads_bind {A B} (m : loader A) (f : A → loader B) e1 e2 a b :
  reads m e1 a → reads (f a) e2 b → reads (x ⇠ m; f x) (e1 ++ e2) b.
Proof.
  intros H1 H2 r rest Hr He Hi. unfold lbind. rewrite <- app_assoc in Hi. rewrite (H1 r (e2 ++ rest)) by done. cbn [mbind res_bind].
  rewrite (H2 _ rest) by done. by rewrite consumed_app.
Qed.
Lemma reads_ret {A} (a : A) : reads (lret a) [] a.
Proof. intros r rest _ _ Hi. unfold lret. cbn in Hi. by rewrite <- Hi, consumed_nil. Qed.
Lemma reads_read buf n : Z.of_nat (length buf) = n → reads (read n) buf buf.
Proof. intros <- r rest Hr He Hi. unfold read. rewrite Nat2Z.id. by rewrite (rioRead_ok buf rest). Qed.
(** A loader whose last step does not read. *)
Lemma reads_last {A B} (m : loader A) (f : A → loader B) e a b : reads m e a → reads (f a) [] b → reads (x ⇠ m; f x) e b.
Proof. intros H1 H2. rewrite <- (app_nil_r e). by eapply reads_bind. Qed.

Lemma le_combine_1 b : le_combine [b] = Z_of_byte b.
Proof. cbn. lia. Qed.
Lemma be_combine_split n z : 0 ≤ z < 2 ^ (8 * Z.of_nat n) → be_combine (be_split n z) = z.
Proof. intros. unfold be_combine, be_split. rewrite reverse_involutive. by apply le_combine_split_small. Qed.
Lemma length_be_split n z : length (be_split n z) = n.
Proof. unfold be_split. by rewrite length_reverse, length_le_split. Qed.

(** The two high bits and the rest of the first byte of a length. *)
Lemma first_byte type l : 0 ≤ type < 4 → 0 ≤ l < 64 →
  let b := Z_of_byte (byte_of_Z (Z.lor l (Z.shiftl type 6))) in Z.shiftr (Z.land b 192) 6 = type ∧ Z.land b 63 = l.
Proof.
  intros Ht Hl b. assert (b = type * 64 + l) as ->.
  { unfold b. rewrite Z_of_byte_of_Z, Z.lor_comm, lor_shiftl by lia. change (2 ^ 6) with 64. apply Z.mod_small. lia. }
  split.
  - assert (∀ t l, 0 ≤ t < 4 → 0 ≤ l < 64 → Z.shiftr (Z.land (t * 64 + l) 192) 6 = t) as H; [|by apply H]. clear.
    intros t l Ht Hl. assert (forallb (fun t => forallb (fun l => Z.shiftr (Z.land (t * 64 + l) 192) 6 =? t) (Z.of_nat <$> seq 0 64)) (Z.of_nat <$> seq 0 4) = true) as H by done.
    rewrite forallb_forall in H. specialize (H t). rewrite forallb_forall in H.
    apply Z.eqb_eq, H; apply list_elem_of_In, list_elem_of_fmap; [exists (Z.to_nat t)|exists (Z.to_nat l)]; (split; [lia|apply elem_of_seq; lia]).
  - change 63 with (Z.ones 6). rewrite Z.land_ones by lia. change (2 ^ 6) with 64. rewrite Z.add_comm, Z.mod_add by lia. apply Z.mod_small. lia.
Qed.

Definition len_code (len : Z) (enc : bytes) : Prop := reads rdbLoadLenByRef enc (false, len) ∧ (1 ≤ length enc)%nat.

Lemma reads_first (b : byte) enc x :
  (∀ y, y = Z_of_byte b → reads (let type := Z.shiftr (Z.land y 192) 6 in
    if type =? RDB_ENCVAL then lret (true, Z.land y 63)
    else if type =? RDB_6BITLEN then lret (false, Z.land y 63)
    else if type =? RDB_14BITLEN then b1 ⇠ read 1; lret (false, Z.lor (Z.shiftl (Z.land y 63) 8) (le_combine b1))
    else if y =? RDB_32BITLEN then b4 ⇠ read 4; lret (false, be_combine b4)
    else if y =? RDB_64BITLEN then b8 ⇠ read 8; lret (false, be_combine b8)
    else lexit "Unknown length encoding in rdbLoadLen()") enc x) →
  reads rdbLoadLenByRef (b :: enc) x.
Proof.
  intros H. change (b :: enc) with ([b] ++ enc). unfold rdbLoadLenByRef. eapply reads_bind; [by apply reads_read|].
  cbv beta zeta. rewrite le_combine_1. by apply H.
Qed.

Lemma rdbSaveLen_ok len : 0 ≤ len < 2 ^ 64 → saves (rdbSaveLen len) (len_code len).
Proof.
  intros Hl. unfold rdbSaveLen. change (Z.shiftl 1 6) with 64. change (Z.shiftl 1 14) with 16384. rewrite !land_255.
  destruct (Z.ltb_spec len 64) as [H6|H6]; [|destruct (Z.ltb_spec len 16384) as [H14|H14]; [|destruct (Z.leb_spec len (2 ^ 32 - 1)) as [H32|H32]]].
  - eapply saves_weaken; [|eapply saves_then; [by apply saves_raw|by intros ? ->]]. intros ? ->. split; [|done]. apply reads_first. intros y ->.
    rewrite (Z.mod_small len) by lia. destruct (first_byte RDB_6BITLEN len) as [E1 E2]; [done|lia|]. rewrite E1, E2. apply reads_ret.
  - eapply saves_weaken; [|eapply saves_then; [by apply saves_raw|by intros ? ->]]. intros ? ->. split; [|cbn; lia]. apply reads_first. intros y ->.
    rewrite (Z.shiftr_div_pow2 len) by lia. change (2 ^ 8) with 256. assert (0 ≤ len / 256 < 64) by (split; [apply Z.div_pos; lia|apply Z.div_lt_upper_bound; lia]).
    rewrite (Z.mod_small (len / 256)) by lia. destruct (first_byte RDB_14BITLEN (len / 256)) as [E1 E2]; [done|lia|]. cbv zeta. rewrite E1, E2.
    eapply reads_last; [by apply reads_read|]. cbn beta. rewrite le_combine_1, Z_of_byte_of_Z, Z.mod_mod by lia.
    rewrite lor_shiftl by (pose proof (Z.mod_pos_bound len 256); lia). change (2 ^ 8) with 256. replace (len / 256 * 256 + len mod 256) with len by (rewrite (Z.div_mod len 256) at 1; lia).
    apply reads_ret.
  - eapply saves_weaken; [|eapply (saves_before _ _ _ _ (fun e => e = byte_of_Z RDB_32BITLEN :: be_split 4 len)); [by apply saves_raw|apply saves_raw; by rewrite length_be_split|]].
    + intros ? ->. split; [|cbn; lia]. apply reads_first. intros y ->. rewrite Z_of_byte_of_Z. cbn -[read be_split]. eapply reads_last; [apply reads_read; by rewrite length_be_split|].
      cbn beta. rewrite be_combine_split by lia. apply reads_ret.
    + intros ? ? -> ->. split; [done|]. rewrite length_be_split. done.
  - eapply saves_weaken; [|eapply (saves_before _ _ _ _ (fun e => e = byte_of_Z RDB_64BITLEN :: be_split 8 len)); [by apply saves_raw|apply saves_raw; by rewrite length_be_split|]].
    + intros ? ->. split; [|cbn; lia]. apply reads_first. intros y ->. rewrite Z_of_byte_of_Z. cbn -[read be_split]. eapply reads_last; [apply reads_read; by rewrite length_be_split|].
      cbn beta. rewrite be_combine_split by lia. apply reads_ret.
    + intros ? ? -> ->. split; [done|]. rewrite length_be_split. done.
Qed.
Lemma reads_load_len len enc : len_code len enc → len ≠ RDB_LENERR → reads load_len enc len.
Proof.
  intros [H _] Hne r rest Hr He Hi. unfold load_len, rdbLoadLen. rewrite (H r rest) by done. cbn [mbind res_bind mret res_ret].
  by destruct (Z.eqb_spec len RDB_LENERR).
Qed.

Section codes.
Variable env : srv_env.
Variable rdb_compression : bool.
Variable htab : option rio → bytes → hash_table.
Hypothesis htab_range : ∀ rdb inp j, 0 ≤ htab rdb inp j < 2 ^ 32.
Abbreviation generic := (rdbGenericLoadStringObject env).

(** What RDB_LOAD_ENC makes of a string. *)
Definition enc_object (s : bytes) (o : robj) : Prop :=
  o = createObject env OBJ_STRING (PSds s) ∨ o = createStringObject env s ∨
  ∃ v, - 2 ^ 31 ≤ v < 2 ^ 31 ∧ s = sdsll2str v ∧ o = createStringObjectFromLongLongForValue env v.
(** [enc] is the string [s], in every mode. *)
Record string_code (s enc : bytes) : Prop := {
  code_buf flags : load_plain flags || load_sds flags = true → reads (generic flags) enc (LBuf s);
  code_raw : reads (generic RDB_LOAD_NONE) enc (LObj (createObject env OBJ_STRING (PSds s)));
  code_enc : ∃ o, enc_object s o ∧ reads (generic RDB_LOAD_ENC) enc (LObj o);
  code_ne : (1 ≤ length enc)%nat
}.

Lemma reads_encoded flags e1 e2 t x :
  reads rdbLoadLenByRef e1 (true, t) →
  reads (if (t =? RDB_ENC_INT8) || (t =? RDB_ENC_INT16) || (t =? RDB_ENC_INT32) then rdbLoadIntegerObject env t flags
         else if t =? RDB_ENC_LZF then rdbLoadLzfStringObject env flags else lexit "Unknown RDB string encoding type") e2 x →
  reads (generic flags) (e1 ++ e2) x.
Proof.
  intros H1 H2 r rest Hr He Hi. unfold rdbGenericLoadStringObject, rdbLoadLen. rewrite <- app_assoc in Hi. rewrite (H1 r (e2 ++ rest)) by done.
  cbn [mbind res_bind mret res_ret]. rewrite <- (consumed_app e1 e2). rewrite <- (H2 (consumed e1 (e2 ++ rest) r) rest) by done. by repeat case_match.
Qed.
Lemma reads_verbatim flags e1 s :
  len_code (Z.of_nat (length s)) e1 → Z.of_nat (length s) < 2 ^ 64 - 1 →
  reads (generic flags) (e1 ++ s)
    (if load_plain flags || load_sds flags then LBuf s else LObj (if load_enc flags then createStringObject env s else createRawStringObject env s)).
Proof.
  intros [H1 _] Hl r rest Hr He Hi. unfold rdbGenericLoadStringObject, rdbLoadLen. rewrite <- app_assoc in Hi. rewrite (H1 r (s ++ rest)) by done.
  cbn [mbind res_bind mret res_ret]. destruct (Z.eqb_spec (Z.of_nat (length s)) RDB_LENERR) as [E|_]; [unfold RDB_LENERR in E; lia|].
  rewrite <- (consumed_app e1 s). pose proof (reads_read s _ eq_refl (consumed e1 (s ++ rest) r) rest Hr He eq_refl) as E.
  destruct (load_plain flags || load_sds flags), (load_enc flags); unfold lbind; rewrite E; done.
Qed.
Lemma verbatim_code s e1 : len_code (Z.of_nat (length s)) e1 → Z.of_nat (length s) < 2 ^ 64 - 1 → string_code s (e1 ++ s).
Proof.
  intros H Hl. split.
  - intros flags Hf. pose proof (reads_verbatim flags e1 s H Hl) as E. by rewrite Hf in E.
  - apply (reads_verbatim RDB_LOAD_NONE e1 s H Hl).
  - eexists. split; [|apply (reads_verbatim RDB_LOAD_ENC e1 s H Hl)]. right. by left.
  - rewrite length_app. destruct H. lia.
Qed.

(** *** Integers *)

Lemma load_integer_code flags e (v n : Z) enctype :
  Z.of_nat (length e) = n → (enctype = RDB_ENC_INT8 ∧ n = 1 ∨ enctype = RDB_ENC_INT16 ∧ n = 2 ∨ enctype = RDB_ENC_INT32 ∧ n = 4) → to_signed (8 * n) (le_combine e) = v → is_ll v →
  reads (rdbLoadIntegerObject env enctype flags) e
    (if load_plain flags || load_sds flags then LBuf (sdsll2str v)
     else LObj (if load_enc flags then createStringObjectFromLongLongForValue env v else createObject env OBJ_STRING (PSds (sdsll2str v)))).
Proof.
  intros Hn He Hv Hl. unfold rdbLoadIntegerObject. eapply (reads_last _ _ _ v).
  - destruct He as [[-> ->]|[[-> ->]|[-> ->]]]; cbn [Z.eqb RDB_ENC_INT8 RDB_ENC_INT16 RDB_ENC_INT32 Pos.eqb].
    + eapply reads_last; [by apply reads_read|]. destruct e as [|a [|]]; try (cbn in Hn; lia). rewrite le_combine_1 in Hv. change (8 * 1) with 8 in Hv. cbn [nth]. rewrite Z.shiftl_0_r, <- Hv. apply reads_ret.
    + eapply reads_last; [by apply reads_read|]. destruct e as [|a [|b [|]]]; try (cbn in Hn; lia). cbn [nth Z.of_nat Z.mul Pos.of_succ_nat Pos.mul]. rewrite Z.shiftl_0_r.
      rewrite Z.lor_comm, lor_shiftl by (pose proof (Z_of_byte_range a); lia). rewrite <- Hv. cbn [le_combine].
      replace (Z_of_byte a + 256 * (Z_of_byte b + 256 * 0)) with (Z_of_byte b * 2 ^ 8 + Z_of_byte a) by lia. apply reads_ret.
    + eapply reads_last; [by apply reads_read|]. destruct e as [|a [|b [|c [|d [|]]]]]; try (cbn in Hn; lia). cbn [nth Z.of_nat Z.mul Pos.of_succ_nat Pos.mul Pos.succ]. rewrite Z.shiftl_0_r.
      pose proof (Z_of_byte_range a). pose proof (Z_of_byte_range b). pose proof (Z_of_byte_range c).
      rewrite (Z.lor_comm (Z_of_byte a)), lor_shiftl by lia. rewrite (Z.lor_comm (_ + _)), lor_shiftl by lia. rewrite (Z.lor_comm (_ + _)), lor_shiftl by lia.
      rewrite <- Hv. cbn [le_combine].
      replace (Z_of_byte a + 256 * (Z_of_byte b + 256 * (Z_of_byte c + 256 * (Z_of_byte d + 256 * 0)))) with
        (Z_of_byte d * 2 ^ 24 + (Z_of_byte c * 2 ^ 16 + (Z_of_byte b * 2 ^ 8 + Z_of_byte a))) by lia. apply reads_ret.
  - assert (default [] (ll2string LONG_STR_SIZE v) = sdsll2str v) as ->.
    { rewrite ll2string_fits; [done|done|]. pose proof (sdigits10_max v Hl). unfold LONG_STR_SIZE. lia. }
    destruct (load_plain flags || load_sds flags); [apply reads_ret|]. destruct (load_enc flags); apply reads_ret.
Qed.

Lemma reads_enc_byte t : 0 ≤ t < 64 → reads rdbLoadLenByRef [byte_of_Z (Z.lor (Z.shiftl RDB_ENCVAL 6) t)] (true, t).
Proof.
  intros Ht. apply reads_first. intros y ->. rewrite Z.lor_comm. destruct (first_byte RDB_ENCVAL t) as [E1 E2]; [done|done|]. cbv zeta. rewrite E1, E2.
  apply reads_ret.
Qed.
Lemma integer_code t e (v n : Z) :
  Z.of_nat (length e) = n → (t = RDB_ENC_INT8 ∧ n = 1 ∨ t = RDB_ENC_INT16 ∧ n = 2 ∨ t = RDB_ENC_INT32 ∧ n = 4) →
  to_signed (8 * n) (le_combine e) = v → - 2 ^ 31 ≤ v < 2 ^ 31 →
  string_code (sdsll2str v) (byte_of_Z (Z.lor (Z.shiftl RDB_ENCVAL 6) t) :: e).
Proof.
  intros Hn Ht Hv Hl. assert (is_ll v) as Hll by (unfold is_ll, LLONG_MIN, LLONG_MAX; lia).
  assert (∀ flags, reads (generic flags) (byte_of_Z (Z.lor (Z.shiftl RDB_ENCVAL 6) t) :: e)
    (if load_plain flags || load_sds flags then LBuf (sdsll2str v)
     else LObj (if load_enc flags then createStringObjectFromLongLongForValue env v else createObject env OBJ_STRING (PSds (sdsll2str v))))) as H.
  { intros flags. apply (reads_encoded flags [_] e t); [apply reads_enc_byte; unfold RDB_ENC_INT8, RDB_ENC_INT16, RDB_ENC_INT32 in *; lia|].
    pose proof (load_integer_code flags e v n t Hn Ht Hv Hll) as H. by destruct Ht as [[-> _]|[[-> _]|[-> _]]]. }
  split.
  - intros flags Hf. specialize (H flags). by rewrite Hf in H.
  - apply (H RDB_LOAD_NONE).
  - eexists. split; [|apply (H RDB_LOAD_ENC)]. right. right. by exists v.
  - cbn. lia.
Qed.
Lemma byte_at_split (v : Z) (k : Z) : 0 ≤ k → byte_of_Z (Z.land (Z.shiftr v k) 255) = byte_of_Z (v / 2 ^ k).
Proof. intros Hk. apply (inj Z_of_byte). rewrite land_255, !Z_of_byte_of_Z, Z.mod_mod, Z.shiftr_div_pow2 by lia. done. Qed.
Lemma signed_le (n : nat) v : (0 < n)%nat → - 2 ^ (8 * Z.of_nat n - 1) ≤ v < 2 ^ (8 * Z.of_nat n - 1) → to_signed (8 * Z.of_nat n) (le_combine (le_split n v)) = v.
Proof. intros Hn Hv. rewrite le_combine_split, to_signed_mod by lia. apply to_signed_small; [lia|done]. Qed.

Lemma rdbEncodeInteger_code v buf : rdbEncodeInteger v = Some buf → string_code (sdsll2str v) buf ∧ Z.of_nat (length buf) ≤ 5.
Proof.
  unfold rdbEncodeInteger. rewrite !byte_at_split by lia. change (Z.shiftl 1 7) with (2 ^ 7). change (Z.shiftl 1 15) with (2 ^ 15). change (Z.shiftl 1 31) with (2 ^ 31).
  destruct ((- 2 ^ 7 <=? v) && (v <=? 2 ^ 7 - 1)) eqn:E1; [|destruct ((- 2 ^ 15 <=? v) && (v <=? 2 ^ 15 - 1)) eqn:E2;
    [|destruct ((- 2 ^ 31 <=? v) && (v <=? 2 ^ 31 - 1)) eqn:E3; [|discriminate 1]]];
    intros E; apply (inj Some) in E as <-; (split; [|by cbn [length]]).
  - rewrite Z.div_1_r. change [byte_of_Z v] with (le_split 1 v).
    apply (integer_code RDB_ENC_INT8 (le_split 1 v) v 1); [done|auto|apply (signed_le 1); cbn; lia|lia].
  - rewrite Z.div_1_r. change [byte_of_Z v; byte_of_Z (v / 2 ^ 8)] with (le_split 2 v).
    apply (integer_code RDB_ENC_INT16 (le_split 2 v) v 2); [done|auto|apply (signed_le 2); cbn; lia|lia].
  - rewrite Z.div_1_r. change 24 with (8 + 16). change 16 with (8 + 8). rewrite !(Z.pow_add_r 2), <- !Z.div_div by lia.
    change [byte_of_Z v; byte_of_Z (v / 2 ^ 8); byte_of_Z (v / 2 ^ 8 / 2 ^ 8); byte_of_Z (v / 2 ^ 8 / 2 ^ 8 / 2 ^ 8)] with (le_split 4 v).
    apply (integer_code RDB_ENC_INT32 (le_split 4 v) v 4); [done|auto|apply (signed_le 4); cbn; lia|lia].
Qed.

(** [strtoll] gets to a byte that is neither blank nor sign nor digit. *)
Definition strtoll_safe (s : bytes) : Prop := ∃ v e, strtoll s = Ok (v, e) ∧ is_ll v.
Lemma skip_isspace_end s b t : isspace b = false → ∃ p, skip_isspace (s ++ b :: t) = Ok (p ++ b :: t).
Proof.
  intros Hb. induction s as [|c s [p IH]]; cbn [app skip_isspace]; [rewrite Hb; by exists []|].
  destruct (isspace c); [by exists p|by exists (c :: s)].
Qed.
Lemma strtoll_digits_end s b t : digit_val b = None → ∀ acc, ∃ v e, strtoll_digits (s ++ b :: t) acc = Ok (v, e).
Proof.
  intros Hb. induction s as [|c s IH]; intros acc; cbn [app strtoll_digits]; [rewrite Hb; by do 2 eexists|]. destruct (digit_val c); [apply IH|by do 2 eexists].
Qed.
Lemma strtoll_stops s b t : b ≠ x2b → b ≠ x2d → isspace b = false → digit_val b = None → strtoll_safe (s ++ b :: t).
Proof.
  intros H1 H2 Hb Hd. unfold strtoll_safe, strtoll. destruct (skip_isspace_end s b t Hb) as [p ->]. cbn [mbind res_bind].
  assert (∃ sg p', (if bool_decide (head (p ++ b :: t) = Some x2d) then (-1, tail (p ++ b :: t)) else if bool_decide (head (p ++ b :: t) = Some x2b)
    then (1, tail (p ++ b :: t)) else (1, p ++ b :: t)) = (sg, p' ++ b :: t)) as (sg & p' & ->).
  { destruct p as [|c p]; cbn [app head tail].
    - rewrite !bool_decide_false by congruence. by exists 1, [].
    - repeat case_bool_decide; [by exists (-1), p|by exists 1, p|by exists 1, (c :: p)]. }
  destruct (strtoll_digits_end p' b t Hd 0) as (v & e & ->). cbn [mbind res_bind].
  assert (∀ z, is_ll (Z.max LLONG_MIN (Z.min LLONG_MAX z))) as Hr by (intros; unfold is_ll, LLONG_MIN, LLONG_MAX; lia).
  case_match; do 2 eexists; (split; [done|]); [done|apply Hr].
Qed.

(** What is encoded as an integer is the decimal notation of the integer. *)
Lemma rdbTryIntegerEncoding_code s len : strtoll_safe s → ∃ x, rdbTryIntegerEncoding s len = Ok x ∧
  ∀ buf, x = Some buf → string_code (take (Z.to_nat len) s) buf ∧ Z.of_nat (length buf) ≤ 5.
Proof.
  intros (v & e & E & Hv). unfold rdbTryIntegerEncoding. rewrite E. cbn [mbind res_bind]. destruct (negb _); [by eexists|].
  rewrite ll2string_32 by done. cbn [default]. destruct (_ || _) eqn:E2; [by eexists|]. apply orb_false_iff in E2 as [_ E2]. apply negb_false_iff, bool_decide_eq_true in E2.
  eexists. split; [done|]. intros buf Hb. rewrite E2. by apply rdbEncodeInteger_code.
Qed.

(** *** Compressed strings *)

Lemma lzf_code s data e1 e2 :
  len_code (Z.of_nat (length data)) e1 → len_code (Z.of_nat (length s)) e2 → 0 < Z.of_nat (length data) < 2 ^ 32 → 0 < Z.of_nat (length s) < 2 ^ 32 →
  lzf_decompress data (Z.of_nat (length s)) = Ok (Some s) →
  string_code s (byte_of_Z (Z.lor (Z.shiftl RDB_ENCVAL 6) RDB_ENC_LZF) :: e1 ++ e2 ++ data).
Proof.
  intros H1 H2 Hd Hs E.
  assert (∀ flags, reads (generic flags) (byte_of_Z (Z.lor (Z.shiftl RDB_ENCVAL 6) RDB_ENC_LZF) :: e1 ++ e2 ++ data)
    (if load_plain flags || load_sds flags then LBuf s else LObj (createObject env OBJ_STRING (PSds s)))) as H.
  { intros flags. apply (reads_encoded flags [_] (e1 ++ e2 ++ data) RDB_ENC_LZF); [by apply reads_enc_byte|].
    change (reads (rdbLoadLzfStringObject env flags) (e1 ++ e2 ++ data)
      (if load_plain flags || load_sds flags then LBuf s else LObj (createObject env OBJ_STRING (PSds s)))).
    unfold rdbLoadLzfStringObject. eapply reads_bind; [apply reads_load_len; [done|unfold RDB_LENERR; lia]|].
    eapply reads_bind; [apply reads_load_len; [done|unfold RDB_LENERR; lia]|]. eapply reads_last; [by apply reads_read|].
    unfold lres, u32. rewrite !Z.mod_small by lia. rewrite Nat2Z.id, take_ge by done. intros r rest _ _ Hi. rewrite E. cbn [mbind res_bind].
    destruct s as [|c s]; [cbn in Hs; lia|]. rewrite Z.eqb_refl. cbn [negb]. cbn in Hi. rewrite <- Hi, consumed_nil. by destruct (load_plain flags || load_sds flags). }
  split.
  - intros flags Hf. specialize (H flags). by rewrite Hf in H.
  - apply (H RDB_LOAD_NONE).
  - eexists. split; [|apply (H RDB_LOAD_ENC)]. by left.
  - cbn. lia.
Qed.
Lemma rdbSaveLzfBlob_ok data (len : Z) : Z.of_nat (length data) < 2 ^ 31 → 0 ≤ len < 2 ^ 64 →
  saves (rdbSaveLzfBlob data (Z.of_nat (length data)) len) (fun enc => ∃ e1 e2, len_code (Z.of_nat (length data)) e1 ∧ len_code len e2 ∧
    enc = byte_of_Z (Z.lor (Z.shiftl RDB_ENCVAL 6) RDB_ENC_LZF) :: e1 ++ e2 ++ data).
Proof.
  intros Hd Hl. unfold rdbSaveLzfBlob. rewrite Nat2Z.id, take_ge by done.
  eapply saves_seq; [by apply saves_raw| |].
  - eapply (saves_seq _ _ _ (fun enc => ∃ e2, len_code len e2 ∧ enc = e2 ++ data) (fun enc => ∃ e1 e2, len_code (Z.of_nat (length data)) e1 ∧ len_code len e2 ∧ enc = e1 ++ e2 ++ data)).
    + apply rdbSaveLen_ok. lia.
    + eapply saves_seq; [by apply rdbSaveLen_ok|by apply saves_raw|]. intros e2 ? He2 ->. by exists e2.
    + intros e1 ? He1 (e2 & He2 & ->). by exists e1, e2.
  - intros ? ? -> (e1 & e2 & H1 & H2 & ->). by exists e1, e2.
Qed.

Lemma rdbSaveLzfStringObject_ok s len rdb : 4 < len < 2 ^ 31 → len ≤ Z.of_nat (length s) → stream_ok rdb →
  rdbSaveLzfStringObject htab s len rdb = Ok (0, rdb) ∨
  ∃ m, rdbSaveLzfStringObject htab s len rdb = m rdb ∧ saves m (string_code (take (Z.to_nat len) s)).
Proof.
  intros Hl Hs Hr. unfold rdbSaveLzfStringObject. destruct (Z.leb_spec len 4); [lia|]. unfold u32. rewrite !Z.mod_small by lia.
  set (inp := take (Z.to_nat len) s). assert (Z.of_nat (length inp) = len) as Li by (unfold inp; rewrite length_take; lia).
  destruct (lzf_compress_ok (htab rdb inp) inp (replicate (Z.to_nat (len - 4)) None)) as (x & -> & Hx); [done|lia|]. cbn [mbind res_bind].
  destruct x as [[n out]|]; [|by left]. right. destruct (Hx n out eq_refl) as (o & Ho & <- & Hn & Hdec). rewrite Ho, mapM_id_Some. cbn [res_of_option mbind res_bind].
  rewrite length_replicate in Hn. eexists. split; [done|]. eapply saves_weaken; [|apply rdbSaveLzfBlob_ok; lia].
  intros enc (e1 & e2 & H1 & H2 & ->). apply lzf_code; rewrite ?Li; [done|done|lia|lia|]. by rewrite Li in Hdec.
Qed.

(** *** Strings *)

Lemma rdbSaveRawString_ok s len : (len ≤ 11 → strtoll_safe s) → 0 ≤ len < 2 ^ 31 → len ≤ Z.of_nat (length s) →
  saves (rdbSaveRawString rdb_compression htab s len) (string_code (take (Z.to_nat len) s)).
Proof.
  intros Hs Hl Hle rdb Hr. unfold rdbSaveRawString.
  assert (∃ x, (if len <=? 11 then rdbTryIntegerEncoding s len else mret None) = Ok x ∧ ∀ buf, x = Some buf → string_code (take (Z.to_nat len) s) buf ∧ Z.of_nat (length buf) ≤ 5)
    as (x & -> & Hx) by (destruct (Z.leb_spec len 11); [by apply rdbTryIntegerEncoding_code, Hs|by eexists]).
  cbn [mbind res_bind]. destruct x as [buf|].
  { destruct (Hx buf eq_refl) as [Hc Hb].
    apply (saves_weaken _ (fun e => e = buf) (string_code (take (Z.to_nat len) s)) ltac:(by intros ? ->)); [|done].
    apply saves_then; [apply saves_raw; lia|by intros ? ->]. }
  assert (saves (n ⇢ rdbSaveLen len; if 0 <? len then _ ⇢ rdbWriteRaw (take (Z.to_nat len) s); wret (n + len) else wret n) (string_code (take (Z.to_nat len) s))) as Hv.
  { assert (Z.of_nat (length (take (Z.to_nat len) s)) = len) as Lt by (rewrite length_take; lia). set (t := take _ s) in *.
    eapply saves_bind; [apply rdbSaveLen_ok; lia|]. intros e1 He1 rdb' Hr'. exists t. split; [apply verbatim_code; [by rewrite Lt|lia]|].
    destruct (Z.ltb_spec 0 len) as [H0|H0].
    - assert (Z.of_nat (length t) < 2 ^ 31) as Lt2 by lia. destruct (saves_raw t Lt2 rdb' Hr') as (? & -> & Hok & Hno). unfold wbind. split; intros Hk.
      + rewrite Hok by done. cbn [mbind res_bind]. destruct (Z.eqb_spec (Z.of_nat (length t)) (-1)); [lia|]. unfold wret. rewrite length_app. f_equal. f_equal. lia.
      + destruct (Hno Hk) as (r' & -> & Hf). by exists r'.
    - assert (t = []) as -> by (apply nil_length_inv; lia). rewrite app_nil_r. by apply saves_nothing. }
  destruct (rdb_compression && (20 <? len)) eqn:Ec; [|by apply Hv]. apply andb_true_iff in Ec as [_ Ec%Z.ltb_lt].
  set (k := fun n => if 0 <? n then wret n else _). assert (∃ m, wbind (rdbSaveLzfStringObject htab s len) k rdb = m rdb ∧ saves m (string_code (take (Z.to_nat len) s))) as (m & -> & Hm);
    [|by apply Hm].
  destruct (rdbSaveLzfStringObject_ok s len rdb) as [E|(m & Em & Hm)]; [lia|done|done| |].
  - eexists. split; [|exact Hv]. unfold wbind at 1. by rewrite E.
  - exists (wbind m k). split; [unfold wbind; by rewrite Em|]. eapply saves_bind; [done|]. intros e1 He1 rdb' Hr'. exists []. rewrite app_nil_r. split; [done|].
    unfold k. pose proof (code_ne _ _ He1). destruct (Z.ltb_spec 0 (Z.of_nat (length e1))); [|lia]. by apply saves_nothing.
Qed.
Lemma save_sds_ok s : Z.of_nat (length s) < 2 ^ 31 → saves (save_sds rdb_compression htab s) (string_code s).
Proof.
  intros Hl. unfold save_sds. eapply saves_weaken; [|apply rdbSaveRawString_ok; [intros _; by apply strtoll_stops|lia|rewrite length_app; cbn; lia]].
  intros enc. by rewrite Nat2Z.id, take_app_length.
Qed.

(** ** Theorem *)

(** What is saved of a string is loaded as the string, whatever follows it in the file, in every
    mode of loading; if the target does not take all the bytes, the saver returns -1 and the stream keeps the
    error. *)
Theorem string_roundtrip s w : Z.of_nat (length s) < 2 ^ 31 → rio_ok w → write_error w = false →
  ∃ enc,
    (room (length enc) w → save_sds rdb_compression htab s (Some w) = Ok (Z.of_nat (length enc), Some (wrote enc w))) ∧
    (¬ room (length enc) w → ∃ w', save_sds rdb_compression htab s (Some w) = Ok (-1, Some w') ∧ write_error w' = true) ∧
    ∀ r rest, rio_ok r → read_error r = false → io_in r = enc ++ rest →
      load_sds_string env r = Ok (Some s, consumed enc rest r) ∧
      load_plain_string env r = Ok (Some s, consumed enc rest r) ∧
      rdbLoadStringObject env r = Ok (Some (createObject env OBJ_STRING (PSds s)), consumed enc rest r) ∧
      ∃ o, enc_object s o ∧ rdbLoadEncodedStringObject env r = Ok (Some o, consumed enc rest r).
Proof.
  intros Hl Hw He. destruct (save_sds_ok s Hl (Some w) (conj Hw He)) as (enc & Hc & Hok & Hno). exists enc. split; [exact Hok|]. split.
  { intros Hr. destruct (Hno Hr) as ([w'|] & E & Hf); [by exists w'|done]. }
  assert (∀ {A} (m : loader loaded) (f : loaded → loader A) x a, reads m enc x → reads (f x) [] a → reads (y ⇠ m; f y) enc a) as Hlast
    by (intros; by eapply reads_last).
  intros r rest Hr Hre Hi. split_and!.
  - eapply Hlast; [by apply (code_buf _ _ Hc RDB_LOAD_SDS)|apply reads_ret|done..].
  - eapply Hlast; [by apply (code_buf _ _ Hc RDB_LOAD_PLAIN)|apply reads_ret|done..].
  - eapply Hlast; [by apply (code_raw _ _ Hc)|apply reads_ret|done..].
  - destruct (code_enc _ _ Hc) as (o & Ho & Hrd). exists o. split; [done|]. eapply Hlast; [exact Hrd|apply reads_ret|done..].
Qed.
End codes.
