(* ===== verification/Zset.v ===== *)
(** * Sorted sets: the order of the skip list (src/src/t_zset.c)

    The comparison of [zslInsert] on (score, element) pairs and the position
    it inserts at, on the level-0 chain of nodes.  Scores are the 64-bit
    patterns of IEEE doubles. *)

From S2P Require Import Prelude Util Robj.
From stdpp Require Import list gmap sorting.
#[local] Open Scope Z_scope.

(** ** Doubles as bit patterns *)

Definition dbl_ok (b : Z) : Prop := 0 ≤ b < 2 ^ 64.
Definition dbl_isnan (b : Z) : bool := 9218868437227405312 <? b mod 2 ^ 63.
(** Sign and magnitude: the patterns of numbers compare like these integers,
    and both zeros are 0. *)
Definition dbl_key (b : Z) : Z := if b <? 2 ^ 63 then b else - (b - 2 ^ 63).
Definition dbl_lt (a b : Z) : bool :=
  negb (dbl_isnan a) && negb (dbl_isnan b) && (dbl_key a <? dbl_key b).
Definition dbl_eq (a b : Z) : bool :=
  negb (dbl_isnan a) && negb (dbl_isnan b) && (dbl_key a =? dbl_key b).

(** ** [sdscmp]: [memcmp] on the common length, then the lengths *)

Fixpoint sdscmp (s1 s2 : bytes) : Z :=
  match s1, s2 with
  | [], [] => 0
  | [], _ => -1
  | _, [] => 1
  | a :: s1', b :: s2' =>
      if Z_of_byte a =? Z_of_byte b then sdscmp s1' s2'
      else Z_of_byte a - Z_of_byte b
  end.

(** ** Insertion *)

(** The condition of the [while] of [zslInsert]: the node [(e, s)] comes before
    the element to insert. *)
Definition zsl_before (node : bytes * Z) (score : Z) (ele : bytes) : bool :=
  dbl_lt node.2 score || (dbl_eq node.2 score && (sdscmp node.1 ele <? 0)).

Fixpoint zsl_insert_node (score : Z) (ele : bytes) (l : list (bytes * Z))
  : list (bytes * Z) :=
  match l with
  | [] => [(ele, score)]
  | node :: l' =>
      if zsl_before node score ele then node :: zsl_insert_node score ele l'
      else (ele, score) :: l
  end.

Definition zslInsert (zs : zset) (score : Z) (ele : bytes) : res zset :=
  serverAssert (negb (dbl_isnan score)) "zslInsert: isnan" ≫= fun _ =>
  Ok (Zset (zsl_insert_node score ele (zsl_nodes zs)) (u64 (zsl_length zs + 1))
       (zset_dict zs)).

(** The chain is strictly increasing in (score, element). *)
Definition zsl_lt (a b : bytes * Z) : Prop :=
  zsl_before a b.2 b.1 = true.

Record wf_zset (zs : zset) : Prop := {
  wf_zsl_sorted : StronglySorted zsl_lt (zsl_nodes zs);
  wf_zsl_nodup : NoDup (zsl_nodes zs).*1;
  wf_zsl_length : zsl_length zs = Z.of_nat (length (zsl_nodes zs));
  wf_zset_bound : Z.of_nat (length (zsl_nodes zs)) < 2 ^ 64;
  wf_zset_dict : zset_dict zs = list_to_map (zsl_nodes zs);
  wf_zset_nodes : Forall (fun '(ele, score) =>
    Z.of_nat (length ele) < 2 ^ 64 ∧ dbl_ok score ∧ dbl_isnan score = false) (zsl_nodes zs)
}.

Lemma sdscmp_antisym a b : sdscmp a b = - sdscmp b a.
Proof.
  revert b. induction a as [|x a IH]; intros [|y b]; cbn; [done..|].
  destruct (Z.eqb_spec (Z_of_byte x) (Z_of_byte y)) as [E|E].
  - rewrite E, Z.eqb_refl. apply IH.
  - rewrite (proj2 (Z.eqb_neq _ _)) by lia. lia.
Qed.

Lemma sdscmp_eq a b : sdscmp a b = 0 ↔ a = b.
Proof.
  split.
  - revert b. induction a as [|x a IH]; intros [|y b]; cbn; [done..|].
    destruct (Z.eqb_spec (Z_of_byte x) (Z_of_byte y)) as [E|E]; [|lia].
    apply (inj Z_of_byte) in E as ->. intros ->%IH. done.
  - intros <-. induction a; cbn; [done|]. by rewrite Z.eqb_refl.
Qed.

Lemma sdscmp_trans a b c : sdscmp a b < 0 → sdscmp b c < 0 → sdscmp a c < 0.
Proof.
  revert b c. induction a as [|x a IH]; intros [|y b] [|z c]; cbn; try lia.
  destruct (Z.eqb_spec (Z_of_byte x) (Z_of_byte y)),
    (Z.eqb_spec (Z_of_byte y) (Z_of_byte z)), (Z.eqb_spec (Z_of_byte x) (Z_of_byte z));
    try lia. apply IH.
Qed.

Lemma zsl_lt_asym a b : zsl_lt a b → zsl_before b a.2 a.1 = false.
Proof.
  unfold zsl_lt, zsl_before, dbl_lt, dbl_eq.
  destruct (dbl_isnan a.2), (dbl_isnan b.2); cbn; try done.
  rewrite (sdscmp_antisym b.1 a.1).
  destruct (Z.ltb_spec (dbl_key a.2) (dbl_key b.2)), (Z.ltb_spec (dbl_key b.2) (dbl_key a.2)),
    (Z.eqb_spec (dbl_key a.2) (dbl_key b.2)), (Z.eqb_spec (dbl_key b.2) (dbl_key a.2)); cbn;
    try lia; try done.
Qed.

#[global] Instance zsl_lt_trans : Transitive zsl_lt.
Proof.
  intros a b c. unfold zsl_lt, zsl_before, dbl_lt, dbl_eq.
  destruct (dbl_isnan a.2), (dbl_isnan b.2), (dbl_isnan c.2); cbn; try done.
  rewrite !orb_true_iff, !andb_true_iff, !Z.ltb_lt, !Z.eqb_eq.
  pose proof (sdscmp_trans a.1 b.1 c.1). lia.
Qed.

(** ** Insertion keeps the order *)

Lemma zsl_insert_node_elem score ele l x :
  x ∈ zsl_insert_node score ele l ↔ x = (ele, score) ∨ x ∈ l.
Proof.
  induction l as [|n l IH]; cbn; [set_solver|].
  destruct (zsl_before n score ele); set_solver.
Qed.

Lemma zsl_lt_total a b :
  dbl_isnan a.2 = false → dbl_isnan b.2 = false → a.1 ≠ b.1 →
  zsl_before a b.2 b.1 = false → zsl_lt b a.
Proof.
  intros Ha Hb Hne. unfold zsl_lt, zsl_before, dbl_lt, dbl_eq. rewrite Ha, Hb. cbn.
  rewrite orb_false_iff, orb_true_iff, andb_false_iff, andb_true_iff.
  rewrite !Z.ltb_lt, !Z.ltb_ge, Z.eqb_eq, Z.eqb_neq.
  assert (sdscmp a.1 b.1 ≠ 0) by (intros E%sdscmp_eq; done).
  pose proof (sdscmp_antisym a.1 b.1). lia.
Qed.

Lemma zsl_insert_node_sorted score ele l :
  dbl_isnan score = false → ele ∉ l.*1 → Forall (fun n => dbl_isnan n.2 = false) l →
  StronglySorted zsl_lt l → StronglySorted zsl_lt (zsl_insert_node score ele l).
Proof.
  intros Hs Hne Hn. induction 1 as [|n l Hl IH Hf]; cbn.
  { constructor; constructor. }
  apply Forall_cons in Hn as [Hn1 Hn]. cbn in Hne.
  destruct (zsl_before n score ele) eqn:E.
  - constructor; [apply IH; set_solver|].
    apply Forall_forall. intros x [->|Hx]%zsl_insert_node_elem; [done|].
    by eapply Forall_forall in Hf.
  - constructor; [by constructor|].
    assert (Hlt : zsl_lt (ele, score) n) by (apply zsl_lt_total; set_solver).
    constructor; [done|]. eapply Forall_impl; [exact Hf|]. intros x Hx. by trans n.
Qed.

Lemma zsl_insert_node_head score ele l :
  Forall (zsl_lt (ele, score)) l → zsl_insert_node score ele l = (ele, score) :: l.
Proof.
  destruct l as [|n l]; [done|]. intros [Hn _]%Forall_cons.
  pose proof (zsl_lt_asym _ _ Hn) as E. cbn in E |- *. by rewrite E.
Qed.

Lemma zsl_insert_node_perm score ele l :
  zsl_insert_node score ele l ≡ₚ (ele, score) :: l.
Proof.
  induction l as [|n l IH]; cbn; [done|].
  destruct (zsl_before n score ele); [|done]. rewrite IH. by constructor.
Qed.
