(* ===== verification/Serdes.v ===== *)
(** * Serialization of values for RocksDB (src/src/rock_serdes.c)

    [serObject] turns a string, list, set, hash or sorted set into the byte
    string RocksDB stores, [desObject] rebuilds the object.  Every [memcpy] of
    an integer and every length check of the C code is kept.  The main theorem
    is the round trip: what is read back is the object that was written. *)

From S2P Require Import Prelude Util Robj Zset.
From stdpp Require Import list gmap sorting.
#[local] Open Scope Z_scope.

Definition ROCK_TYPE_STRING : Z := 0.
Definition ROCK_TYPE_SET_HT : Z := 2.
Definition ROCK_TYPE_HASH_HT : Z := 4.
Definition ROCK_TYPE_ZSET_SKIPLIST : Z := 5.
Definition ROCK_TYPE_SET_INTSET : Z := 11.
Definition ROCK_TYPE_ZSET_ZIPLIST : Z := 12.
Definition ROCK_TYPE_HASH_ZIPLIST : Z := 13.
Definition ROCK_TYPE_LIST_QUICKLIST : Z := 14.

(** ** Writing *)

Definition serObjectType (o : robj) : res bytes :=
  rockType ← match o_type o with
    | OBJ_STRING => Ok ROCK_TYPE_STRING
    | OBJ_LIST =>
        match o_encoding o with
        | OBJ_ENCODING_QUICKLIST => Ok ROCK_TYPE_LIST_QUICKLIST
        | _ => Abort "Unknown list encoding"
        end
    | OBJ_SET =>
        match o_encoding o with
        | OBJ_ENCODING_INTSET => Ok ROCK_TYPE_SET_INTSET
        | OBJ_ENCODING_HT => Ok ROCK_TYPE_SET_HT
        | _ => Abort "Unknown set encoding"
        end
    | OBJ_ZSET =>
        match o_encoding o with
        | OBJ_ENCODING_ZIPLIST => Ok ROCK_TYPE_ZSET_ZIPLIST
        | OBJ_ENCODING_SKIPLIST => Ok ROCK_TYPE_ZSET_SKIPLIST
        | _ => Abort "Unknown sorted set encoding"
        end
    | OBJ_HASH =>
        match o_encoding o with
        | OBJ_ENCODING_ZIPLIST => Ok ROCK_TYPE_HASH_ZIPLIST
        | OBJ_ENCODING_HT => Ok ROCK_TYPE_HASH_HT
        | _ => Abort "Unknown hash encoding"
        end
    | OBJ_MODULE | OBJ_STREAM => Abort "Unknown object type"
    end;
  Ok [byte_of_Z rockType].

Definition serString (dst : bytes) (o : robj) : res bytes :=
  match o_encoding o with
  | OBJ_ENCODING_INT =>
      match o_ptr o with
      | PInt val =>
          Ok (dst ++ [byte_of_Z (encoding_num OBJ_ENCODING_INT)] ++ le_split 8 val)
      | _ => Abort "serString"
      end
  | OBJ_ENCODING_RAW | OBJ_ENCODING_EMBSTR =>
      match o_ptr o with
      | PSds s => Ok (dst ++ [byte_of_Z (encoding_num (o_encoding o))] ++ s)
      | _ => Abort "serString"
      end
  | _ => Abort "serString: encoding"
  end.

(** One turn of the [quicklistNext] loop of [serList]. *)
Definition serList_entry (e : qentry) : bytes :=
  let str := match e with QStr value => value | QInt v => sdsfromlonglong v end in
  let len := u32 (Z.of_nat (length str)) in
  le_split 4 len ++ take (Z.to_nat len) str.

Definition serList (dst : bytes) (o : robj) : res bytes :=
  serverAssert (bool_decide (o_type o = OBJ_LIST)) "serList" ≫= fun _ =>
  serverAssert (bool_decide (o_encoding o = OBJ_ENCODING_QUICKLIST)) "serList" ≫= fun _ =>
  match o_ptr o with
  | PQuicklist es => Ok (dst ++ (es ≫= serList_entry))
  | _ => Abort "serList"
  end.

(** A length-prefixed string: [size_t] length, then the characters. *)
Definition ser_sds (s : bytes) : bytes := le_split 8 (Z.of_nat (length s)) ++ s.

(** A field with its value; a sorted-set element with its score. *)
Definition ser_pair (p : bytes * bytes) : bytes := ser_sds p.1 ++ ser_sds p.2.
Definition ser_node (n : bytes * Z) : bytes := ser_sds n.1 ++ le_split 8 n.2.

Definition serSet (dst : bytes) (o : robj) : res bytes :=
  serverAssert (bool_decide (o_type o = OBJ_SET)) "serSet" ≫= fun _ =>
  match o_encoding o, o_ptr o with
  | OBJ_ENCODING_INTSET, PIntset ist =>
      let content_len := u32 (is_encoding ist * is_length ist) in
      Ok (dst ++ le_split 4 (is_encoding ist) ++ le_split 4 (is_length ist) ++
          take (Z.to_nat content_len) (is_contents ist))
  | OBJ_ENCODING_HT, PSet d =>
      Ok (dst ++ le_split 8 (Z.of_nat (size d)) ++ (elements d ≫= ser_sds))
  | _, _ => Abort "serSet()!"
  end.

Definition ziplistBlobLen (zl : bytes) : Z := le_combine (take 4 zl).

Definition serHash (dst : bytes) (o : robj) : res bytes :=
  serverAssert (bool_decide (o_type o = OBJ_HASH)) "serHash" ≫= fun _ =>
  match o_encoding o, o_ptr o with
  | OBJ_ENCODING_ZIPLIST, PZiplist zl =>
      let len := ziplistBlobLen zl in
      Ok (dst ++ le_split 8 len ++ take (Z.to_nat len) zl)
  | OBJ_ENCODING_HT, PHash d =>
      Ok (dst ++ le_split 8 (Z.of_nat (size d)) ++
          (map_to_list d ≫= ser_pair))
  | _, _ => Abort "serHash()"
  end.

(** The skip list is walked from its tail along the [backward] pointers. *)
Definition serZset (dst : bytes) (o : robj) : res bytes :=
  serverAssert (bool_decide (o_type o = OBJ_ZSET)) "serZset" ≫= fun _ =>
  match o_encoding o, o_ptr o with
  | OBJ_ENCODING_ZIPLIST, PZiplist zl =>
      let len := ziplistBlobLen zl in
      Ok (dst ++ le_split 8 len ++ take (Z.to_nat len) zl)
  | OBJ_ENCODING_SKIPLIST, PZset zs =>
      Ok (dst ++ le_split 8 (zsl_length zs) ++
          (reverse (zsl_nodes zs) ≫= ser_node))
  | _, _ => Abort "serZset()"
  end.

Definition serObject (o : robj) : res bytes :=
  dst ← serObjectType o;
  let dst := dst ++ le_split 4 (o_lru o) in
  match o_type o with
  | OBJ_STRING => serString dst o
  | OBJ_LIST => serList dst o
  | OBJ_SET => serSet dst o
  | OBJ_HASH => serHash dst o
  | OBJ_ZSET => serZset dst o
  | OBJ_MODULE | OBJ_STREAM => Abort "Unknown object type"
  end.

(** ** Reading

    The pointer [s] and the remaining [len] of the C code are one list here;
    a read the code does not guard is an [Abort] past the end of the buffer. *)

Definition read_int (n : nat) (s : bytes) : res (Z * bytes) :=
  '(a, s) ← res_of_option (read_bytes n s) "read past the end of the buffer";
  Ok (le_combine a, s).

(** [serverAssert (len >= n)] followed by the use of the next [n] bytes. *)
Definition read_checked (n : Z) (s : bytes) : res (bytes * bytes) :=
  serverAssert (n <=? Z.of_nat (length s)) "serverAssert (len >= ...)" ≫= fun _ =>
  Ok (take (Z.to_nat n) s, drop (Z.to_nat n) s).

(** The body skips the type byte and the LRU word: [s += 1+sizeof(lru)]. *)
Definition skip_header (s : bytes) : bytes := drop 5 s.

Definition type_byte (s : bytes) : Z :=
  match s with [] => -1 | b :: _ => Z_of_byte b end.

Definition desString (env : srv_env) (s : bytes) (lru : Z) : res robj :=
  serverAssert (2 + 4 <=? Z.of_nat (length s)) "desString: len" ≫= fun _ =>
  serverAssert (type_byte s =? ROCK_TYPE_STRING) "desString: type" ≫= fun _ =>
  '(encoding, s) ← read_int 1 (skip_header s);
  o ← (if encoding =? encoding_num OBJ_ENCODING_INT then
         serverAssert (Z.of_nat (length s) =? 8) "desString: len == 8" ≫= fun _ =>
         Ok (createStringObjectFromLongLongForValue env (to_signed 64 (le_combine s)))
       else
         serverAssert ((encoding =? encoding_num OBJ_ENCODING_RAW) ||
                       (encoding =? encoding_num OBJ_ENCODING_EMBSTR))
           "desString: encoding" ≫= fun _ =>
         if encoding =? encoding_num OBJ_ENCODING_RAW
         then Ok (createRawStringObject env s)
         else serverAssert (Z.of_nat (length s) <=? OBJ_ENCODING_EMBSTR_SIZE_LIMIT)
                "desString: embstr" ≫= fun _ =>
              Ok (createEmbeddedStringObject env s));
  Ok (set_lru lru o).

(** [quicklistPushTail]: [ziplistPush] stores the element as an integer when
    [zipTryEncoding] says so.  How the elements are spread over the ziplist
    nodes of the quicklist is not represented. *)
Definition quicklistPushTail (es : list qentry) (value : bytes) : list qentry :=
  es ++ [match zipTryEncoding value with
         | Some (v, _) => QInt v
         | None => QStr value
         end].

(** The [while (len)] loops: a turn consumes at least the length word, so the
    length of the buffer is enough fuel. *)
Fixpoint desList_loop (fuel : nat) (s : bytes) (es : list qentry) : res (list qentry) :=
  match s with
  | [] => Ok es
  | _ =>
      match fuel with
      | O => Abort "fuel"
      | S f =>
          '(w, s) ← read_checked 4 s;
          '(value, s) ← read_checked (le_combine w) s;
          desList_loop f s (quicklistPushTail es value)
      end
  end.

Definition desList (env : srv_env) (s : bytes) (lru : Z) : res robj :=
  serverAssert (1 + 4 <=? Z.of_nat (length s)) "desList: len" ≫= fun _ =>
  serverAssert (type_byte s =? ROCK_TYPE_LIST_QUICKLIST) "desList: type" ≫= fun _ =>
  es ← desList_loop (length s) (skip_header s) [];
  let o := createQuicklistObject env in
  Ok (Robj (o_type o) (o_encoding o) lru (o_refcount o) (PQuicklist es)).

Fixpoint desSet_loop (fuel : nat) (s : bytes) (count : Z) (d : gset bytes)
  : res (Z * gset bytes) :=
  match s with
  | [] => Ok (count, d)
  | _ =>
      match fuel with
      | O => Abort "fuel"
      | S f =>
          '(w, s) ← read_checked 8 s;
          '(ele, s) ← read_checked (le_combine w) s;
          desSet_loop f s (u64 (count - 1)) ({[ele]} ∪ d)
      end
  end.

Definition desSet (env : srv_env) (s : bytes) (lru : Z) : res robj :=
  serverAssert (1 + 4 <=? Z.of_nat (length s)) "desSet: len" ≫= fun _ =>
  let set_rock_type := type_byte s in
  let s := skip_header s in
  if set_rock_type =? ROCK_TYPE_SET_INTSET then
    '(w, s) ← read_checked 4 s;
    let encoding := le_combine w in
    '(w, s) ← read_checked 4 s;
    let len := le_combine w in
    serverAssert (Z.of_nat (length s) =? u32 (encoding * len)) "desSet: intset" ≫= fun _ =>
    let o := createIntsetObject env in
    Ok (Robj (o_type o) (o_encoding o) lru (o_refcount o) (PIntset (Intset encoding len s)))
  else if set_rock_type =? ROCK_TYPE_SET_HT then
    '(w, s) ← read_checked 8 s;
    '(count, d) ← desSet_loop (length s) s (le_combine w) ∅;
    serverAssert (count =? 0) "desSet: count" ≫= fun _ =>
    let o := createSetObject env in
    Ok (Robj (o_type o) (o_encoding o) lru (o_refcount o) (PSet d))
  else Abort "desSet()".

Fixpoint desHash_loop (fuel : nat) (s : bytes) (count : Z) (d : gmap bytes bytes)
  : res (Z * gmap bytes bytes) :=
  match s with
  | [] => Ok (count, d)
  | _ =>
      match fuel with
      | O => Abort "fuel"
      | S f =>
          '(w, s) ← read_checked 8 s;
          '(field, s) ← read_checked (le_combine w) s;
          '(w, s) ← read_checked 8 s;
          '(val, s) ← read_checked (le_combine w) s;
          serverAssert (bool_decide (d !! field = None)) "desHash: dictAdd" ≫= fun _ =>
          desHash_loop f s (u64 (count - 1)) (<[field := val]> d)
      end
  end.

(** The ziplist branches read the length word without checking [len]. *)
Definition des_ziplist (s : bytes) : res bytes :=
  '(len, s) ← read_int 8 s;
  serverAssert (Z.of_nat (length s) =? len) "ziplist: len" ≫= fun _ =>
  Ok s.

Definition desHash (env : srv_env) (s : bytes) (lru : Z) : res robj :=
  serverAssert (1 + 4 <=? Z.of_nat (length s)) "desHash: len" ≫= fun _ =>
  let hash_rock_type := type_byte s in
  let s := skip_header s in
  if hash_rock_type =? ROCK_TYPE_HASH_ZIPLIST then
    zl ← des_ziplist s;
    Ok (set_lru lru (set_encoding OBJ_ENCODING_ZIPLIST
          (createObject env OBJ_HASH (PZiplist zl))))
  else if hash_rock_type =? ROCK_TYPE_HASH_HT then
    '(w, s) ← read_checked 8 s;
    '(count, d) ← desHash_loop (length s) s (le_combine w) ∅;
    serverAssert (count =? 0) "desHash: count" ≫= fun _ =>
    Ok (set_lru lru (set_encoding OBJ_ENCODING_HT
          (createObject env OBJ_HASH (PHash d))))
  else Abort "desHash()".

(** [while (zset_len--)]: the count read from the buffer drives the loop; each
    turn consumes 16 bytes or stops, so the buffer length bounds the turns. *)
Fixpoint desZset_loop (fuel : nat) (s : bytes) (zset_len : Z) (zs : zset)
  : res (bytes * zset) :=
  if zset_len =? 0 then Ok (s, zs) else
  match fuel with
  | O => Abort "fuel"
  | S f =>
      '(w, s) ← read_checked 8 s;
      '(ele, s) ← read_checked (le_combine w) s;
      '(w, s) ← read_checked 8 s;
      let score := le_combine w in
      zs ← zslInsert zs score ele;
      (* dictAdd: an element already present is left alone *)
      let d := match zset_dict zs !! ele with
               | Some _ => zset_dict zs
               | None => <[ele := score]> (zset_dict zs)
               end in
      desZset_loop f s (zset_len - 1) (Zset (zsl_nodes zs) (zsl_length zs) d)
  end.

Definition desZset (env : srv_env) (s : bytes) (lru : Z) : res robj :=
  serverAssert (1 + 4 <=? Z.of_nat (length s)) "desZset: len" ≫= fun _ =>
  let zset_rock_type := type_byte s in
  let s := skip_header s in
  if zset_rock_type =? ROCK_TYPE_ZSET_ZIPLIST then
    zl ← des_ziplist s;
    Ok (set_lru lru (set_encoding OBJ_ENCODING_ZIPLIST
          (createObject env OBJ_ZSET (PZiplist zl))))
  else if zset_rock_type =? ROCK_TYPE_ZSET_SKIPLIST then
    '(w, s) ← read_checked 8 s;
    '(s, zs) ← desZset_loop (S (length s)) s (le_combine w) (Zset [] 0 ∅);
    serverAssert (Z.of_nat (length s) =? 0) "desZset: len == 0" ≫= fun _ =>
    let o := createZsetObject env in
    Ok (Robj (o_type o) (o_encoding o) lru (o_refcount o) (PZset zs))
  else Abort "desZset()".

Definition desObject (env : srv_env) (buf : bytes) : res robj :=
  serverAssert (0 <? Z.of_nat (length buf)) "desObject: len > 0" ≫= fun _ =>
  let rock_type := type_byte buf in
  serverAssert (1 + 4 <=? Z.of_nat (length buf)) "desObject: len" ≫= fun _ =>
  let lru := le_combine (take 4 (drop 1 buf)) in
  (* the assignment to the 24-bit field keeps the low bits *)
  let lru := lru mod 2 ^ LRU_BITS in
  if rock_type =? ROCK_TYPE_STRING then desString env buf lru
  else if rock_type =? ROCK_TYPE_LIST_QUICKLIST then desList env buf lru
  else if (rock_type =? ROCK_TYPE_SET_HT) || (rock_type =? ROCK_TYPE_SET_INTSET)
  then desSet env buf lru
  else if (rock_type =? ROCK_TYPE_HASH_HT) || (rock_type =? ROCK_TYPE_HASH_ZIPLIST)
  then desHash env buf lru
  else if (rock_type =? ROCK_TYPE_ZSET_ZIPLIST) || (rock_type =? ROCK_TYPE_ZSET_SKIPLIST)
  then desZset env buf lru
  else Abort "desObject type error!".

(** ** Well-formed values

    What the commands of the server keep true of a value in the keyspace: the
    payload matches type and encoding, and every length the serializer writes
    fits the word it is written to. *)

Definition wf_sds (s : bytes) : Prop := Z.of_nat (length s) < 2 ^ 64.

Definition wf_qentry (e : qentry) : Prop :=
  match e with
  | QStr value => zipTryEncoding value = None ∧ Z.of_nat (length value) < 2 ^ 32
  | QInt v => is_ll v
  end.

Definition wf_intset_repr (ist : intset) : Prop :=
  0 ≤ is_encoding ist ∧ 0 ≤ is_length ist < 2 ^ 32 ∧ is_encoding ist < 2 ^ 32 ∧
  is_encoding ist * is_length ist < 2 ^ 32 ∧
  Z.of_nat (length (is_contents ist)) = is_encoding ist * is_length ist.

Definition wf_ziplist_blob (zl : bytes) : Prop :=
  (4 ≤ length zl)%nat ∧ ziplistBlobLen zl = Z.of_nat (length zl).

Definition wf_payload (t : obj_type) (e : obj_encoding) (p : payload) : Prop :=
  match t, e, p with
  | OBJ_STRING, OBJ_ENCODING_INT, PInt v => is_ll v
  | OBJ_STRING, OBJ_ENCODING_RAW, PSds s => True
  | OBJ_STRING, OBJ_ENCODING_EMBSTR, PSds s =>
      Z.of_nat (length s) ≤ OBJ_ENCODING_EMBSTR_SIZE_LIMIT
  | OBJ_LIST, OBJ_ENCODING_QUICKLIST, PQuicklist es => Forall wf_qentry es
  | OBJ_SET, OBJ_ENCODING_INTSET, PIntset ist => wf_intset_repr ist
  | OBJ_SET, OBJ_ENCODING_HT, PSet d =>
      Z.of_nat (size d) < 2 ^ 64 ∧ set_Forall wf_sds d
  | OBJ_HASH, OBJ_ENCODING_ZIPLIST, PZiplist zl => wf_ziplist_blob zl
  | OBJ_HASH, OBJ_ENCODING_HT, PHash d =>
      Z.of_nat (size d) < 2 ^ 64 ∧ map_Forall (fun k v => wf_sds k ∧ wf_sds v) d
  | OBJ_ZSET, OBJ_ENCODING_ZIPLIST, PZiplist zl => wf_ziplist_blob zl
  | OBJ_ZSET, OBJ_ENCODING_SKIPLIST, PZset zs => wf_zset zs
  | _, _, _ => False
  end.

(** A value that can be dumped: not a stream and not a module value. *)
Definition wf_robj (o : robj) : Prop :=
  lru_ok (o_lru o) ∧ wf_payload (o_type o) (o_encoding o) (o_ptr o).

(** ** Reading back what was written *)

Lemma read_int_app n z s :
  0 ≤ z < 2 ^ (8 * Z.of_nat n) → read_int n (le_split n z ++ s) = Ok (z, s).
Proof.
  intros. unfold read_int. rewrite read_bytes_app by apply length_le_split. cbn.
  by rewrite le_combine_split_small.
Qed.

Lemma read_checked_app (n : Z) a s :
  n = Z.of_nat (length a) → read_checked n (a ++ s) = Ok (a, s).
Proof.
  intros ->. unfold read_checked. rewrite (proj2 (Z.leb_le _ _)).
  2: { rewrite length_app. lia. }
  cbn. by rewrite Nat2Z.id, take_app_length, drop_app_length.
Qed.

Lemma read_checked_word n z s :
  read_checked (Z.of_nat n) (le_split n z ++ s) = Ok (le_split n z, s).
Proof. apply read_checked_app. by rewrite length_le_split. Qed.

(** A length-prefixed string is read back as the loops do it. *)
Lemma read_sds_app {B} a s (k : bytes → bytes → res B) :
  wf_sds a →
  ('(w, s) ← read_checked 8 (ser_sds a ++ s);
   '(x, s) ← read_checked (le_combine w) s; k x s) = k a s.
Proof.
  intros Ha. unfold ser_sds. rewrite <- app_assoc.
  rewrite (read_checked_word 8). cbn [mbind res_bind].
  rewrite le_combine_split_small by (unfold wf_sds in Ha; lia).
  rewrite read_checked_app by done. done.
Qed.

Lemma serList_entry_eq e :
  wf_qentry e →
  ∃ str, serList_entry e = le_split 4 (Z.of_nat (length str)) ++ str ∧
    Z.of_nat (length str) < 2 ^ 32 ∧ ∀ es, quicklistPushTail es str = es ++ [e].
Proof.
  intros He.
  assert (H : ∃ str, str = (match e with QStr v => v | QInt v => sdsfromlonglong v end) ∧
    Z.of_nat (length str) < 2 ^ 32 ∧ ∀ es, quicklistPushTail es str = es ++ [e]).
  { destruct e as [v|v]; cbn in He; eexists; (split; [reflexivity|]).
    - destruct He as [Hz Hl]. split; [done|]. intros es. unfold quicklistPushTail. by rewrite Hz.
    - assert (Hlen : (1 ≤ length (sdsfromlonglong v) ≤ 20)%nat).
      { unfold sdsfromlonglong. rewrite sdsll2str_eq by done. rewrite length_app.
        assert (Hab : 0 ≤ abs_ll v ≤ 2 ^ 63).
        { unfold abs_ll, is_ll, LLONG_MIN, LLONG_MAX in *. destruct (Z.ltb_spec v 0); lia. }
        assert (1 ≤ length (dec (abs_ll v)) ≤ 19)%nat.
        { split; [apply dec_length_pos; lia|]. apply (dec_length_le 19); lia. }
        destruct (v <? 0); cbn [length]; lia. }
      split; [lia|]. intros es. unfold quicklistPushTail, zipTryEncoding.
      rewrite (proj2 (Z.leb_gt 32 _)), (proj2 (Z.eqb_neq _ 0)) by lia. cbn [orb].
      unfold sdsfromlonglong. by rewrite string2ll_complete. }
  destruct H as (str & Hstr & Hl & Hp). exists str. split; [|done].
  unfold serList_entry. rewrite <- Hstr. unfold u32. rewrite Z.mod_small by lia.
  by rewrite Nat2Z.id, firstn_all.
Qed.

Lemma desList_loop_spec es fuel acc :
  Forall wf_qentry es → (length (es ≫= serList_entry) ≤ fuel)%nat →
  desList_loop fuel (es ≫= serList_entry) acc = Ok (acc ++ es).
Proof.
  intros Hes. revert fuel acc. induction Hes as [|e es He _ IH]; intros fuel acc Hf.
  { destruct fuel; cbn; by rewrite app_nil_r. }
  destruct (serList_entry_eq e He) as (str & E & Hl & Hp).
  rewrite bind_cons, E in Hf |- *. rewrite !length_app, length_le_split in Hf.
  destruct fuel as [|f]; [lia|]. rewrite <- app_assoc.
  set (rest := str ++ (es ≫= serList_entry)).
  transitivity ('(w, s) ← read_checked 4 (le_split 4 (Z.of_nat (length str)) ++ rest);
    '(value, s) ← read_checked (le_combine w) s;
    desList_loop f s (quicklistPushTail acc value)); [done|].
  rewrite (read_checked_word 4). cbn [mbind res_bind].
  rewrite le_combine_split_small by (cbn; lia). unfold rest.
  rewrite read_checked_app by done. cbn [mbind res_bind].
  rewrite Hp, IH by lia. by rewrite <- app_assoc.
Qed.

(** [ser_sds] is never empty, so the [while (len)] loops take a turn on it. *)
Lemma ser_sds_cons s : ∃ b t, ser_sds s = b :: t.
Proof. unfold ser_sds. cbn. eauto. Qed.

Lemma length_ser_sds s : length (ser_sds s) = (8 + length s)%nat.
Proof. unfold ser_sds. by rewrite length_app, length_le_split. Qed.

Lemma length_ser_node n : length (ser_node n) = (16 + length n.1)%nat.
Proof. unfold ser_node. rewrite length_app, length_ser_sds, length_le_split. lia. Qed.

Lemma desSet_loop_spec ls fuel count d :
  Forall wf_sds ls → (length (ls ≫= ser_sds) ≤ fuel)%nat →
  Z.of_nat (length ls) ≤ count < 2 ^ 64 →
  desSet_loop fuel (ls ≫= ser_sds) count d =
    Ok (count - Z.of_nat (length ls), list_to_set ls ∪ d).
Proof.
  intros Hls. revert fuel count d.
  induction Hls as [|a ls Ha _ IH]; intros fuel count d Hf Hc.
  { destruct fuel; cbn; rewrite Z.sub_0_r; by rewrite union_empty_l_L. }
  rewrite bind_cons in Hf |- *. rewrite length_app, length_ser_sds in Hf. cbn [length] in Hc.
  destruct fuel as [|f]; [lia|].
  transitivity ('(w, s) ← read_checked 8 (ser_sds a ++ (ls ≫= ser_sds));
    '(ele, s) ← read_checked (le_combine w) s;
    desSet_loop f s (u64 (count - 1)) ({[ele]} ∪ d)).
  { destruct (ser_sds_cons a) as (b & t & ->). done. }
  rewrite (read_sds_app a _ (fun ele s => desSet_loop f s (u64 (count - 1)) ({[ele]} ∪ d))) by done.
  unfold u64. rewrite Z.mod_small by lia. rewrite IH by lia. cbn [length list_to_set].
  f_equal. f_equal; [lia|set_solver].
Qed.

Lemma desHash_loop_spec (ls : list (bytes * bytes)) fuel count d :
  Forall (fun p => wf_sds p.1 ∧ wf_sds p.2) ls → NoDup ls.*1 →
  (∀ k, k ∈ ls.*1 → d !! k = None) → (length (ls ≫= ser_pair) ≤ fuel)%nat →
  Z.of_nat (length ls) ≤ count < 2 ^ 64 →
  desHash_loop fuel (ls ≫= ser_pair) count d =
    Ok (count - Z.of_nat (length ls), list_to_map ls ∪ d).
Proof.
  intros Hls. revert fuel count d.
  induction Hls as [|[k v] ls [Hk Hv] _ IH]; intros fuel count d Hnd Hd Hf Hc.
  { destruct fuel; cbn; rewrite Z.sub_0_r; by rewrite (left_id_L ∅ (∪)). }
  cbn [fst snd fmap list_fmap] in *. apply NoDup_cons in Hnd as [Hk' Hnd].
  rewrite bind_cons in Hf |- *. unfold ser_pair in Hf at 1. cbn [fst snd] in Hf.
  rewrite !length_app, !length_ser_sds in Hf. cbn [length] in Hc.
  destruct fuel as [|f]; [lia|]. unfold ser_pair at 1. cbn [fst snd]. rewrite <- app_assoc.
  transitivity ('(w, s) ← read_checked 8 (ser_sds k ++ ser_sds v ++ (ls ≫= ser_pair));
    '(field, s) ← read_checked (le_combine w) s;
    '(w, s) ← read_checked 8 s;
    '(val, s) ← read_checked (le_combine w) s;
    serverAssert (bool_decide (d !! field = None)) "desHash: dictAdd" ≫= fun _ =>
    desHash_loop f s (u64 (count - 1)) (<[field := val]> d)).
  { destruct (ser_sds_cons k) as (b & t & ->). done. }
  rewrite (read_sds_app k _ (fun field s =>
    '(w, s) ← read_checked 8 s;
    '(val, s) ← read_checked (le_combine w) s;
    serverAssert (bool_decide (d !! field = None)) "desHash: dictAdd" ≫= fun _ =>
    desHash_loop f s (u64 (count - 1)) (<[field := val]> d))) by done.
  rewrite (read_sds_app v _ (fun val s =>
    serverAssert (bool_decide (d !! k = None)) "desHash: dictAdd" ≫= fun _ =>
    desHash_loop f s (u64 (count - 1)) (<[k := val]> d))) by done.
  rewrite bool_decide_true by (apply Hd; set_solver). cbn [serverAssert mbind res_bind].
  unfold u64. rewrite Z.mod_small by lia. rewrite IH; [|done| |lia..].
  - cbn [length list_to_map]. f_equal. f_equal; [lia|].
    rewrite <- insert_union_r by (by apply not_elem_of_list_to_map_1).
    by rewrite insert_union_l.
  - intros k' Hk2. rewrite lookup_insert_ne by (intros ->; done). apply Hd. set_solver.
Qed.

(** One turn of the sorted-set loop, on a node that comes before all those
    already inserted. *)
Lemma desZset_loop_step f s ele score nodes n :
  wf_sds ele → dbl_ok score → dbl_isnan score = false → 0 < n →
  Forall (zsl_lt (ele, score)) nodes → ele ∉ nodes.*1 →
  Z.of_nat (length nodes) + 1 < 2 ^ 64 →
  desZset_loop (S f) (ser_node (ele, score) ++ s) n
    (Zset nodes (Z.of_nat (length nodes)) (list_to_map nodes)) =
  desZset_loop f s (n - 1)
    (Zset ((ele, score) :: nodes) (Z.of_nat (length ((ele, score) :: nodes)))
       (list_to_map ((ele, score) :: nodes))).
Proof.
  intros He Hs Hn Hpos Hlt Hni Hb. cbn [desZset_loop].
  rewrite (proj2 (Z.eqb_neq n 0)) by lia. unfold ser_node. cbn [fst snd]. rewrite <- app_assoc.
  rewrite (read_sds_app ele _ (fun ele s =>
      '(w, s) ← read_checked 8 s;
      let score := le_combine w in
      zs ← zslInsert (Zset nodes (Z.of_nat (length nodes)) (list_to_map nodes)) score ele;
      let d := match zset_dict zs !! ele with
               | Some _ => zset_dict zs
               | None => <[ele := score]> (zset_dict zs)
               end in
      desZset_loop f s (n - 1) (Zset (zsl_nodes zs) (zsl_length zs) d))) by done.
  rewrite (read_checked_word 8). cbn [mbind res_bind].
  rewrite le_combine_split_small by (unfold dbl_ok in Hs; cbn; lia).
  unfold zslInsert. rewrite Hn. cbn [negb serverAssert mbind res_bind zsl_nodes zsl_length zset_dict].
  rewrite not_elem_of_list_to_map_1 by done. cbn [zsl_nodes zsl_length zset_dict].
  rewrite zsl_insert_node_head by done. unfold u64. rewrite Z.mod_small by lia.
  cbn [list_to_map length fst snd]. do 2 f_equal. lia.
Qed.

Lemma desZset_loop_spec pre suf fuel :
  wf_zset (Zset (pre ++ suf) (Z.of_nat (length (pre ++ suf))) (list_to_map (pre ++ suf))) →
  (length pre < fuel)%nat →
  desZset_loop fuel (reverse pre ≫= ser_node) (Z.of_nat (length pre))
    (Zset suf (Z.of_nat (length suf)) (list_to_map suf)) =
  Ok ([], Zset (pre ++ suf) (Z.of_nat (length (pre ++ suf))) (list_to_map (pre ++ suf))).
Proof.
  revert suf fuel. induction pre as [|[ele score] pre IH] using rev_ind; intros suf fuel Hwf Hf.
  { by destruct fuel. }
  rewrite length_app in Hf. cbn in Hf. destruct fuel as [|f]; [lia|].
  rewrite <- app_assoc in Hwf |- *. cbn [app] in Hwf |- *.
  rewrite reverse_app, reverse_singleton. cbn [app]. rewrite bind_cons.
  destruct Hwf as [Hso Hnd _ Hb _ Hall]. cbn in Hso, Hnd, Hb, Hall.
  pose proof Hall as Hall'. apply Forall_app in Hall' as [_ Hall'].
  apply Forall_cons in Hall' as [(Hl & Hok & Hnan) _].
  rewrite fmap_app in Hnd. pose proof Hnd as Hnd'. apply NoDup_app in Hnd' as (_ & _ & Hnd').
  cbn in Hnd'. apply NoDup_cons in Hnd' as [Hni _].
  rewrite length_app in Hb. cbn in Hb.
  rewrite desZset_loop_step; [|done|done|done| | |done|lia].
  - replace (Z.of_nat (length (pre ++ [(ele, score)])) - 1) with (Z.of_nat (length pre))
      by (rewrite length_app; cbn; lia).
    apply IH; [|lia]. split; cbn; [done|by rewrite fmap_app|done| |done|done].
    rewrite length_app. cbn. lia.
  - rewrite length_app. cbn. lia.
  - apply StronglySorted_app_1_r in Hso. by apply StronglySorted_inv in Hso as [_ ?].
Qed.

(** ** The round trip *)

(** The five bytes every serialized value starts with. *)
Definition header (rockType lru : Z) : bytes := [byte_of_Z rockType] ++ le_split 4 lru.

Lemma header_length t lru body :
  Z.of_nat (length (header t lru ++ body)) = 5 + Z.of_nat (length body).
Proof. unfold header. rewrite !length_app, length_le_split. cbn. lia. Qed.

Lemma header_type t lru body : 0 ≤ t < 256 → type_byte (header t lru ++ body) = t.
Proof. intros. cbn. by rewrite Z_of_byte_of_Z, Z.mod_small. Qed.

Lemma header_skip t lru body : skip_header (header t lru ++ body) = body.
Proof. done. Qed.

Lemma header_lru t lru body :
  lru_ok lru → le_combine (take 4 (drop 1 (header t lru ++ body))) mod 2 ^ LRU_BITS = lru.
Proof.
  intros Hl. unfold lru_ok in Hl.
  assert (E : take 4 (drop 1 (header t lru ++ body)) = le_split 4 lru) by done.
  rewrite E.
  rewrite le_combine_split_small by (cbn; lia).
  by rewrite Z.mod_small by (unfold LRU_BITS; lia).
Qed.

(** [des_for t] is the reader [desObject] dispatches to. *)
Definition des_for (t : Z) (env : srv_env) (buf : bytes) (lru : Z) : res robj :=
  if t =? ROCK_TYPE_STRING then desString env buf lru
  else if t =? ROCK_TYPE_LIST_QUICKLIST then desList env buf lru
  else if (t =? ROCK_TYPE_SET_HT) || (t =? ROCK_TYPE_SET_INTSET)
  then desSet env buf lru
  else if (t =? ROCK_TYPE_HASH_HT) || (t =? ROCK_TYPE_HASH_ZIPLIST)
  then desHash env buf lru
  else if (t =? ROCK_TYPE_ZSET_ZIPLIST) || (t =? ROCK_TYPE_ZSET_SKIPLIST)
  then desZset env buf lru
  else Abort "desObject type error!".

Lemma desObject_header env t lru body :
  0 ≤ t < 256 → lru_ok lru →
  desObject env (header t lru ++ body) = des_for t env (header t lru ++ body) lru.
Proof.
  intros Ht Hl. unfold desObject. rewrite header_length, header_type, header_lru by done.
  rewrite (proj2 (Z.ltb_lt 0 _)), (proj2 (Z.leb_le (1 + 4) _)) by lia. done.
Qed.

(** Whether [createStringObjectFromLongLongForValue] hands out the shared
    object for a restored integer. *)
Definition restores_shared (env : srv_env) (p : payload) : bool :=
  match p with
  | PInt v =>
      ((maxmemory env =? 0) || negb (policy_has env MAXMEMORY_FLAG_NO_SHARED_INTEGERS)) &&
      (0 <=? v) && (v <? OBJ_SHARED_INTEGERS)
  | _ => false
  end.

(** The object read back: the dumped one, owned by the keyspace alone unless it
    is one of the shared small integers. *)
Definition restored (env : srv_env) (o : robj) : robj :=
  Robj (o_type o) (o_encoding o) (o_lru o)
    (if restores_shared env (o_ptr o) then OBJ_SHARED_REFCOUNT else 1) (o_ptr o).

Lemma restored_int env v lru :
  is_ll v →
  set_lru lru (createStringObjectFromLongLongForValue env v) =
  Robj OBJ_STRING OBJ_ENCODING_INT lru
    (if restores_shared env (PInt v) then OBJ_SHARED_REFCOUNT else 1) (PInt v).
Proof.
  intros Hv. unfold createStringObjectFromLongLongForValue,
    createStringObjectFromLongLongWithOptions, restores_shared.
  destruct ((maxmemory env =? 0) || _); cbn [negb andb].
  - destruct ((0 <=? v) && (v <? OBJ_SHARED_INTEGERS)); cbn [andb]; [done|].
    unfold is_ll in Hv. by rewrite (proj2 (Z.leb_le _ _)), (proj2 (Z.leb_le _ _)) by lia.
  - rewrite andb_false_r. unfold is_ll in Hv.
    by rewrite (proj2 (Z.leb_le _ _)), (proj2 (Z.leb_le _ _)) by lia.
Qed.

(** The readers start with the same dispatch and checks. *)
Ltac rock_eval :=
  unfold ROCK_TYPE_STRING, ROCK_TYPE_SET_HT, ROCK_TYPE_HASH_HT, ROCK_TYPE_ZSET_SKIPLIST,
    ROCK_TYPE_SET_INTSET, ROCK_TYPE_ZSET_ZIPLIST, ROCK_TYPE_HASH_ZIPLIST,
    ROCK_TYPE_LIST_QUICKLIST;
  cbn [Z.eqb Pos.eqb orb mbind res_bind serverAssert].
Ltac des_header :=
  rewrite desObject_header by (done || (cbn; lia)); unfold des_for; rock_eval.
Ltac des_checks :=
  rewrite header_length, header_type, header_skip by (cbn; lia);
  rewrite (proj2 (Z.leb_le (1 + 4) _)) by lia; rock_eval.

(** [readable env o]: [o] serializes, and deserializes to its restored form. *)
Definition readable (env : srv_env) (o : robj) : Prop :=
  ∃ b, serObject o = Ok b ∧ desObject env b = Ok (restored env o).

Lemma roundtrip_string env e lru rc p :
  lru_ok lru → wf_payload OBJ_STRING e p → readable env (Robj OBJ_STRING e lru rc p).
Proof.
  intros Hl Hp. destruct e, p; cbn in Hp; try done.
  - exists (header ROCK_TYPE_STRING lru ++ [byte_of_Z 0] ++ s). split; [done|].
    des_header. unfold desString. rewrite header_length, header_type, header_skip by done.
    rewrite length_app. cbn [length]. rewrite (proj2 (Z.leb_le _ _)) by lia. done.
  - exists (header ROCK_TYPE_STRING lru ++ [byte_of_Z 1] ++ le_split 8 v). split; [done|].
    des_header. unfold desString. rewrite header_length, header_type, header_skip by done.
    rewrite length_app, length_le_split. cbn [length].
    change [byte_of_Z 1] with (le_split 1 1). rewrite (read_int_app 1 1) by done.
    cbn [mbind res_bind serverAssert Z.eqb Pos.eqb encoding_num].
    rewrite length_le_split, le_combine_split. change (8 * Z.of_nat 8) with 64.
    rewrite to_signed_mod, to_signed_small
      by (unfold is_ll, LLONG_MIN, LLONG_MAX in Hp; cbn; lia).
    transitivity (Ok (set_lru lru (createStringObjectFromLongLongForValue env v))); [done|].
    by rewrite restored_int.
  - exists (header ROCK_TYPE_STRING lru ++ [byte_of_Z 8] ++ s). split; [done|].
    des_header. unfold desString. rewrite header_length, header_type, header_skip by done.
    rewrite length_app. cbn [length]. rewrite (proj2 (Z.leb_le (2 + 4) _)) by lia.
    change [byte_of_Z 8] with (le_split 1 8). rewrite (read_int_app 1 8) by done.
    cbn -[OBJ_ENCODING_EMBSTR_SIZE_LIMIT Z.leb]. by rewrite (proj2 (Z.leb_le _ _)).
Qed.

Lemma roundtrip_list env lru rc es :
  lru_ok lru → Forall wf_qentry es →
  readable env (Robj OBJ_LIST OBJ_ENCODING_QUICKLIST lru rc (PQuicklist es)).
Proof.
  intros Hl Hes. exists (header ROCK_TYPE_LIST_QUICKLIST lru ++ (es ≫= serList_entry)).
  split; [done|]. des_header. unfold desList. des_checks.
  rewrite desList_loop_spec; [done|done|]. rewrite length_app. lia.
Qed.

Lemma roundtrip_intset env lru rc ist :
  lru_ok lru → wf_intset_repr ist →
  readable env (Robj OBJ_SET OBJ_ENCODING_INTSET lru rc (PIntset ist)).
Proof.
  intros Hl (He & Hn & He2 & Hm & Hc). destruct ist as [enc n c]. cbn in *.
  exists (header ROCK_TYPE_SET_INTSET lru ++ le_split 4 enc ++ le_split 4 n ++ c). split.
  { transitivity (Ok (header ROCK_TYPE_SET_INTSET lru ++ le_split 4 enc ++ le_split 4 n ++
      take (Z.to_nat (u32 (enc * n))) c)); [done|].
    unfold u32. rewrite Z.mod_small by lia. by rewrite <- Hc, Nat2Z.id, firstn_all. }
  des_header. unfold desSet. des_checks.
  rewrite (read_checked_word 4). cbn [mbind res_bind].
  rewrite (read_checked_word 4). cbn [mbind res_bind].
  rewrite !le_combine_split_small by (cbn; lia).
  unfold u32. rewrite Z.mod_small, Hc, Z.eqb_refl by lia. done.
Qed.

Lemma roundtrip_set env lru rc d :
  lru_ok lru → Z.of_nat (size d) < 2 ^ 64 → set_Forall wf_sds d →
  readable env (Robj OBJ_SET OBJ_ENCODING_HT lru rc (PSet d)).
Proof.
  intros Hl Hs Hd.
  exists (header ROCK_TYPE_SET_HT lru ++ le_split 8 (Z.of_nat (size d)) ++ (elements d ≫= ser_sds)).
  split; [done|]. des_header. unfold desSet. des_checks.
  rewrite (read_checked_word 8). cbn [mbind res_bind].
  rewrite le_combine_split_small by (cbn; lia).
  rewrite desSet_loop_spec; [|by apply set_Forall_elements|done|].
  - change (length (elements d)) with (size d). rewrite Z.sub_diag.
    cbn [mbind res_bind serverAssert Z.eqb].
    by rewrite (right_id_L ∅ (∪)), list_to_set_elements_L.
  - change (length (elements d)) with (size d). lia.
Qed.

Lemma roundtrip_ziplist_blob zl :
  wf_ziplist_blob zl →
  des_ziplist (le_split 8 (ziplistBlobLen zl) ++ take (Z.to_nat (ziplistBlobLen zl)) zl) = Ok zl.
Proof.
  intros [H4 Hz]. pose proof (le_combine_range (take 4 zl)) as Hr.
  rewrite length_take_le in Hr by lia. fold (ziplistBlobLen zl) in Hr.
  unfold des_ziplist. rewrite read_int_app by (cbn in *; lia).
  cbn [mbind res_bind]. rewrite Hz, Nat2Z.id, firstn_all, Z.eqb_refl. done.
Qed.

Lemma roundtrip_hash env e lru rc p :
  lru_ok lru → wf_payload OBJ_HASH e p → readable env (Robj OBJ_HASH e lru rc p).
Proof.
  intros Hl Hp. destruct e, p; cbn in Hp; try done.
  - destruct Hp as [Hs Hd].
    exists (header ROCK_TYPE_HASH_HT lru ++ le_split 8 (Z.of_nat (size d)) ++
      (map_to_list d ≫= ser_pair)).
    split; [done|].
    des_header. unfold desHash. des_checks.
    rewrite (read_checked_word 8). cbn [mbind res_bind].
    rewrite le_combine_split_small by (cbn; lia).
    rewrite desHash_loop_spec; [| |apply NoDup_fst_map_to_list|done|done|].
    + rewrite length_map_to_list, Z.sub_diag. cbn [mbind res_bind serverAssert Z.eqb].
      by rewrite (right_id_L ∅ (∪)), list_to_map_to_list.
    + apply Forall_forall. intros [k v] Hkv%elem_of_map_to_list. by apply Hd in Hkv.
    + rewrite length_map_to_list. lia.
  - exists (header ROCK_TYPE_HASH_ZIPLIST lru ++ le_split 8 (ziplistBlobLen zl) ++
      take (Z.to_nat (ziplistBlobLen zl)) zl).
    split; [done|]. des_header. unfold desHash. des_checks.
    by rewrite roundtrip_ziplist_blob.
Qed.

Lemma roundtrip_zset env e lru rc p :
  lru_ok lru → wf_payload OBJ_ZSET e p → readable env (Robj OBJ_ZSET e lru rc p).
Proof.
  intros Hl Hp. destruct e, p; cbn in Hp; try done.
  - exists (header ROCK_TYPE_ZSET_ZIPLIST lru ++ le_split 8 (ziplistBlobLen zl) ++
      take (Z.to_nat (ziplistBlobLen zl)) zl).
    split; [done|]. des_header. unfold desZset. des_checks.
    by rewrite roundtrip_ziplist_blob.
  - destruct zs as [nodes n d]. pose proof Hp as [_ _ Hn Hb Hd _]. cbn in Hn, Hb, Hd. subst n d.
    exists (header ROCK_TYPE_ZSET_SKIPLIST lru ++ le_split 8 (Z.of_nat (length nodes)) ++
      (reverse nodes ≫= ser_node)).
    split; [done|].
    des_header. unfold desZset. des_checks.
    rewrite (read_checked_word 8). cbn [mbind res_bind].
    rewrite le_combine_split_small by (cbn; lia).
    pose proof (desZset_loop_spec nodes [] (S (length (reverse nodes ≫= ser_node)))) as E.
    rewrite app_nil_r in E. change (Zset [] (Z.of_nat (length [])) (list_to_map []))
      with (Zset [] 0 ∅) in E.
    rewrite E; [done|done|].
    apply Nat.lt_succ_r. clear. induction nodes as [|x nodes IH] using rev_ind; [done|].
    rewrite reverse_app, reverse_singleton. cbn [app]. rewrite bind_cons, !length_app.
    rewrite length_ser_node. cbn [length]. lia.
Qed.

Lemma serdes_readable env o : wf_robj o → readable env o.
Proof.
  destruct o as [t e lru rc p]. intros [Hl Hp]. cbn in Hl, Hp. destruct t.
  - by apply roundtrip_string.
  - destruct e, p; cbn in Hp; try done. by apply roundtrip_list.
  - destruct e, p; cbn in Hp; try done.
    + destruct Hp. by apply roundtrip_set.
    + by apply roundtrip_intset.
  - by apply roundtrip_zset.
  - by apply roundtrip_hash.
  - by destruct e, p.
  - by destruct e, p.
Qed.

(** C4: what is read back from RocksDB is what was dumped.  Every well-formed
    string, list, set, hash or sorted set serializes, and deserializing the
    bytes gives the same type, encoding, LRU/LFU word and contents; the
    reference count is 1, or the shared one for a small integer that the
    configuration lets the server share. *)
Theorem serdes_roundtrip env o :
  wf_robj o → ∃ b, serObject o = Ok b ∧ desObject env b = Ok (restored env o).
Proof. apply serdes_readable. Qed.

(** A three-element list mixing strings and integers. *)
Definition sample_list : robj :=
  Robj OBJ_LIST OBJ_ENCODING_QUICKLIST 4711 1
    (PQuicklist [QStr [x61; x62]; QInt (-1234567); QStr []]).

Lemma serdes_roundtrip_witness :
  ∃ b, serObject sample_list = Ok b ∧
    desObject (SrvEnv (2 ^ 30) MAXMEMORY_FLAG_LRU 1 10 0 0 0) b = Ok sample_list.
Proof.
  refine (serdes_roundtrip (SrvEnv (2 ^ 30) MAXMEMORY_FLAG_LRU 1 10 0 0 0) sample_list _).
  split; [vm_lia|]. cbn. repeat constructor; vm_lia.
Defined.

(** ** Termination of the readers *)

(** [r] did not run out of loop turns. *)
Definition not_fuel {A} (r : res A) : Prop := r ≠ Abort "fuel".

Lemma not_fuel_bind {A B} (m : res A) (f : A → res B) :
  not_fuel m → (∀ a, m = Ok a → not_fuel (f a)) → not_fuel (m ≫= f).
Proof. unfold not_fuel. destruct m; cbn; naive_solver. Qed.

Lemma not_fuel_assert b msg : msg ≠ "fuel"%string → not_fuel (serverAssert b msg).
Proof. unfold not_fuel, serverAssert. destruct b; congruence. Qed.

Lemma not_fuel_Ok {A} (a : A) : not_fuel (Ok a).
Proof. done. Qed.

Lemma read_checked_Ok n s a s' :
  0 ≤ n → read_checked n s = Ok (a, s') →
  Z.of_nat (length s) = n + Z.of_nat (length s') ∧ Z.of_nat (length a) = n.
Proof.
  intros Hn. unfold read_checked. intros H. inv_res.
  apply Z.leb_le in H0. rewrite length_drop, length_take. lia.
Qed.

Lemma not_fuel_read n s : not_fuel (read_checked n s).
Proof. unfold read_checked. apply not_fuel_bind; [by apply not_fuel_assert|done]. Qed.

#[export] Hint Resolve not_fuel_read not_fuel_Ok : redrock.
#[export] Hint Extern 1 (not_fuel (serverAssert _ _)) => by apply not_fuel_assert : redrock.

(** A loop turn: read a word, then as many bytes as it says. *)
Lemma not_fuel_turn {B} (n : Z) s (k : bytes → bytes → res B) :
  0 < n →
  (∀ ele s', (length s' < length s)%nat → not_fuel (k ele s')) →
  not_fuel ('(w, s) ← read_checked n s; '(ele, s) ← read_checked (le_combine w) s; k ele s).
Proof.
  intros Hn Hk. apply not_fuel_bind; [auto with redrock|]. intros [w s1] H1.
  apply read_checked_Ok in H1 as [H1 _]; [|lia].
  apply not_fuel_bind; [auto with redrock|]. intros [ele s2] H2.
  apply read_checked_Ok in H2 as [H2 _]; [|apply le_combine_range].
  apply Hk. pose proof (le_combine_range w). lia.
Qed.

Lemma desList_loop_fuel f s es : (length s ≤ f)%nat → not_fuel (desList_loop f s es).
Proof.
  revert s es. induction f as [|f IH]; intros [|b s] es Hf; cbn [length] in Hf; try done; [lia|].
  apply (not_fuel_turn 4 (b :: s) (fun v s => desList_loop f s (quicklistPushTail es v))); [done|].
  intros v s' Hs. apply IH. cbn [length] in Hs. lia.
Qed.

Lemma desSet_loop_fuel f s n d : (length s ≤ f)%nat → not_fuel (desSet_loop f s n d).
Proof.
  revert s n d. induction f as [|f IH]; intros [|b s] n d Hf; cbn [length] in Hf; try done; [lia|].
  apply (not_fuel_turn 8 (b :: s) (fun v s => desSet_loop f s (u64 (n - 1)) ({[v]} ∪ d))); [done|].
  intros v s' Hs. apply IH. cbn [length] in Hs. lia.
Qed.

Lemma desHash_loop_fuel f s n d : (length s ≤ f)%nat → not_fuel (desHash_loop f s n d).
Proof.
  revert s n d. induction f as [|f IH]; intros [|b s] n d Hf; cbn [length] in Hf; try done; [lia|].
  apply (not_fuel_turn 8 (b :: s) (fun field s =>
    '(w, s) ← read_checked 8 s; '(val, s) ← read_checked (le_combine w) s;
    serverAssert (bool_decide (d !! field = None)) "desHash: dictAdd" ≫= fun _ =>
    desHash_loop f s (u64 (n - 1)) (<[field := val]> d))); [done|].
  intros field s' Hs. apply (not_fuel_turn 8 s' (fun val s =>
    serverAssert (bool_decide (d !! field = None)) "desHash: dictAdd" ≫= fun _ =>
    desHash_loop f s (u64 (n - 1)) (<[field := val]> d))); [done|].
  intros v s2 Hs2. apply not_fuel_bind; [auto with redrock|]. intros _ _.
  apply IH. cbn [length] in Hs. lia.
Qed.

Lemma desZset_loop_fuel f s n zs : (length s < f)%nat → not_fuel (desZset_loop f s n zs).
Proof.
  revert s n zs. induction f as [|f IH]; intros s n zs Hf; [lia|].
  cbn [desZset_loop]. destruct (n =? 0); [done|].
  apply (not_fuel_turn 8 s (fun ele s =>
    '(w, s) ← read_checked 8 s; zs ← zslInsert zs (le_combine w) ele;
    desZset_loop f s (n - 1) (Zset (zsl_nodes zs) (zsl_length zs)
      (match zset_dict zs !! ele with Some _ => zset_dict zs
       | None => <[ele := le_combine w]> (zset_dict zs) end)))); [done|].
  intros ele s' Hs. apply not_fuel_bind; [auto with redrock|]. intros [w s2] H2.
  apply read_checked_Ok in H2 as [H2 _]; [|lia].
  apply not_fuel_bind.
  - unfold zslInsert. apply not_fuel_bind; auto with redrock.
  - intros zs' _. apply IH. lia.
Qed.

Lemma not_fuel_read_int n s : not_fuel (read_int n s).
Proof. unfold read_int. by destruct (read_bytes n s) as [[a s']|]. Qed.

Ltac solve_not_fuel :=
  repeat first
    [ apply not_fuel_Ok | apply not_fuel_read | apply not_fuel_read_int
    | by apply not_fuel_assert | by (unfold not_fuel)
    | by apply desSet_loop_fuel | by apply desHash_loop_fuel
    | apply desZset_loop_fuel; lia
    | apply desList_loop_fuel; unfold skip_header; rewrite length_drop; lia
    | apply not_fuel_bind; [|intros ? _] | progress cbn zeta | case_match ].

(** [desObject] returns on every buffer.  Each turn of the [while (len)]
    loops of the readers consumes at least the length word it starts with, so
    on an arbitrary byte string, truncated or hostile, the reader ends with an
    object or with a failed assertion and never runs out of loop turns. *)
Theorem desObject_terminates env buf : desObject env buf ≠ Abort "fuel".
Proof.
  fold (not_fuel (desObject env buf)).
  unfold desObject, desString, desList, desSet, desHash, desZset, des_ziplist.
  solve_not_fuel.
Qed.
