(* ===== verification/Intset.v ===== *)
(** * Sets of integers (src/src/intset.c)

    A set of integers is one block of memory: sorted integers of 2, 4 or 8 bytes.  A
    value that needs more bytes than the others widens all of them, in place, from the
    last to the first; a value is inserted or removed by moving the tail of the block.

    Memory is a list of bytes, and an access outside of the block is an error.  Shown: no
    such access happens, and whatever is done with a set has the
    results it would have with a finite set. *)

From S2P Require Import Prelude Util Robj Serdes.
From stdpp Require Import list gmap sorting.
#[local] Open Scope Z_scope.

(** ** Memory *)

Definition mem_read (off n : Z) (m : bytes) : res bytes :=
  if (0 <=? off) && (0 <=? n) && (off + n <=? Z.of_nat (length m))
  then mret (take (Z.to_nat n) (drop (Z.to_nat off) m)) else Abort "invalid read".
Definition mem_write (off : Z) (b m : bytes) : res bytes :=
  if (0 <=? off) && (off + Z.of_nat (length b) <=? Z.of_nat (length m))
  then mret (take (Z.to_nat off) m ++ b ++ drop (Z.to_nat off + length b) m) else Abort "invalid write".
Definition memmove (dst src n : Z) (m : bytes) : res bytes :=
  b ← mem_read src n m; mem_write dst b m.

(** ** The operations *)

Implicit Types ist : intset.

Definition INTSET_ENC_INT16 : Z := 2.
Definition INTSET_ENC_INT32 : Z := 4.
Definition INTSET_ENC_INT64 : Z := 8.

Definition _intsetValueEncoding (v : Z) : Z :=
  if (v <? - 2 ^ 31) || (2 ^ 31 - 1 <? v) then INTSET_ENC_INT64
  else if (v <? - 2 ^ 15) || (2 ^ 15 - 1 <? v) then INTSET_ENC_INT32
  else INTSET_ENC_INT16.

Definition _intsetGetEncoded ist (pos enc : Z) : res Z :=
  b ← mem_read (pos * enc) enc (is_contents ist); mret (to_signed (8 * enc) (le_combine b)).
Definition _intsetGet ist (pos : Z) : res Z := _intsetGetEncoded ist pos (is_encoding ist).
Definition _intsetSet ist (pos value : Z) : res intset :=
  m ← mem_write (pos * is_encoding ist) (le_split (Z.to_nat (is_encoding ist)) value) (is_contents ist);
  mret (Intset (is_encoding ist) (is_length ist) m).

Definition intsetNew : intset := Intset INTSET_ENC_INT16 0 [].

(** [while(max >= min)], and the test after it; [cur] and [mid] are from the last turn. *)
Fixpoint intsetSearch_loop (fuel : nat) ist (value min max mid cur : Z) : res (bool * Z) :=
  match fuel with
  | O => Abort "fuel"
  | S fuel' =>
      if min <=? max then
        let mid := Z.shiftr (u32 (min + max)) 1 in
        cur ← _intsetGet ist mid;
        if cur <? value then intsetSearch_loop fuel' ist value (mid + 1) max mid cur
        else if value <? cur then intsetSearch_loop fuel' ist value min (mid - 1) mid cur
        else mret (if value =? cur then (true, mid) else (false, min))
      else mret (if value =? cur then (true, mid) else (false, min))
  end.
Definition intsetSearch ist (value : Z) : res (bool * Z) :=
  let max := to_signed 32 (is_length ist - 1) in
  if is_length ist =? 0 then mret (false, 0)
  else
    last ← _intsetGet ist max;
    if last <? value then mret (false, is_length ist)
    else
      first ← _intsetGet ist 0;
      if value <? first then mret (false, 0)
      else intsetSearch_loop (S (Z.to_nat (is_length ist))) ist value 0 max (-1) (-1).

Section intset.
(** What is in memory that has just been allocated. *)
Variable garbage : nat → byte.

Definition intsetResize ist (len : Z) : intset :=
  let size := Z.to_nat (u32 (len * is_encoding ist)) in
  let m := is_contents ist in
  Intset (is_encoding ist) (is_length ist) (take size m ++ (garbage <$> seq (length m) (size - length m))).

(** [while(length--)] *)
Fixpoint upgrade_loop (length : nat) (prepend curenc : Z) ist : res intset :=
  match length with
  | O => mret ist
  | S length' =>
      v ← _intsetGetEncoded ist (Z.of_nat length') curenc;
      ist ← _intsetSet ist (Z.of_nat length' + prepend) v;
      upgrade_loop length' prepend curenc ist
  end.
Definition intsetUpgradeAndAdd ist (value : Z) : res intset :=
  let curenc := is_encoding ist in
  let newenc := _intsetValueEncoding value in
  let length := Z.to_nat (is_length ist) in
  let prepend := if value <? 0 then 1 else 0 in
  let ist := Intset newenc (is_length ist) (is_contents ist) in
  let ist := intsetResize ist (is_length ist + 1) in
  ist ← upgrade_loop length prepend curenc ist;
  ist ← (if value <? 0 then _intsetSet ist 0 value else _intsetSet ist (is_length ist) value);
  mret (Intset (is_encoding ist) (u32 (is_length ist + 1)) (is_contents ist)).

Definition intsetMoveTail ist (from to : Z) : res intset :=
  let bytes := u32 (u32 (is_length ist - from) * is_encoding ist) in
  m ← memmove (to * is_encoding ist) (from * is_encoding ist) bytes (is_contents ist);
  mret (Intset (is_encoding ist) (is_length ist) m).

(** The set, and [success]. *)
Definition intsetAdd ist (value : Z) : res (intset * bool) :=
  if is_encoding ist <? _intsetValueEncoding value then
    ist ← intsetUpgradeAndAdd ist value; mret (ist, true)
  else
    '(found, pos) ← intsetSearch ist value;
    if found : bool then mret (ist, false)
    else
      let ist := intsetResize ist (is_length ist + 1) in
      ist ← (if pos <? is_length ist then intsetMoveTail ist pos (pos + 1) else mret ist);
      ist ← _intsetSet ist pos value;
      mret (Intset (is_encoding ist) (u32 (is_length ist + 1)) (is_contents ist), true).

Definition intsetRemove ist (value : Z) : res (intset * bool) :=
  if _intsetValueEncoding value <=? is_encoding ist then
    '(found, pos) ← intsetSearch ist value;
    if found : bool then
      let len := is_length ist in
      ist ← (if pos <? len - 1 then intsetMoveTail ist (pos + 1) pos else mret ist);
      let ist := intsetResize ist (len - 1) in
      mret (Intset (is_encoding ist) (len - 1) (is_contents ist), true)
    else mret (ist, false)
  else mret (ist, false).

Definition intsetFind ist (value : Z) : res bool :=
  if _intsetValueEncoding value <=? is_encoding ist then
    '(found, _) ← intsetSearch ist value; mret found
  else mret false.

Definition intsetGet ist (pos : Z) : res (option Z) :=
  if pos <? is_length ist then v ← _intsetGet ist pos; mret (Some v) else mret None.
Definition intsetLen ist : Z := is_length ist.
Definition intsetBlobLen ist : Z := u64 (8 + u32 (is_length ist * is_encoding ist)).
End intset.

(** ** Blocks of words *)

(** Integers of [w] bytes one after the other. *)
Definition words (w : nat) (l : list Z) : bytes := l ≫= le_split w.

Lemma words_app w l k : words w (l ++ k) = words w l ++ words w k.
Proof. apply bind_app. Qed.
Lemma words_cons w v l : words w (v :: l) = le_split w v ++ words w l.
Proof. done. Qed.
Lemma length_words w l : length (words w l) = (length l * w)%nat.
Proof.
  induction l as [|v l IH]; [done|]. rewrite words_cons, length_app, length_le_split, IH. done.
Qed.
Lemma words_take_drop w k l : words w l = words w (take k l) ++ words w (drop k l).
Proof. by rewrite <- words_app, take_drop. Qed.
Lemma take_words w k l r : (k ≤ length l)%nat → take (k * w) (words w l ++ r) = words w (take k l).
Proof.
  intros Hk. rewrite (words_take_drop w k), <- app_assoc.
  replace (k * w)%nat with (length (words w (take k l))) by (by rewrite length_words, length_take_le by lia).
  by rewrite take_app_length.
Qed.
Lemma drop_words w k l r : (k ≤ length l)%nat → drop (k * w) (words w l ++ r) = words w (drop k l) ++ r.
Proof.
  intros Hk. rewrite (words_take_drop w k), <- app_assoc.
  replace (k * w)%nat with (length (words w (take k l))) by (by rewrite length_words, length_take_le by lia).
  by rewrite drop_app_length.
Qed.

(** What fits into [w] bytes is read back. *)
Definition fits (w : Z) (z : Z) : Prop := - 2 ^ (8 * w - 1) ≤ z < 2 ^ (8 * w - 1).
Definition is_enc (w : Z) : Prop := w = 2 ∨ w = 4 ∨ w = 8.

Ltac fits_lia :=
  change (2 ^ (8 * 2 - 1)) with 32768 in *; change (2 ^ (8 * 4 - 1)) with 2147483648 in *;
  change (2 ^ (8 * 8 - 1)) with 9223372036854775808 in *; lia.

Lemma word_roundtrip w v : is_enc w → fits w v → to_signed (8 * w) (le_combine (le_split (Z.to_nat w) v)) = v.
Proof.
  intros Hw Hf. assert (0 < w) by (destruct Hw as [-> |[-> | ->]]; lia).
  rewrite le_combine_split, Z2Nat.id, to_signed_mod by lia. apply to_signed_small; [lia|done].
Qed.

Lemma enc_of_value v : is_ll v → is_enc (_intsetValueEncoding v) ∧ fits (_intsetValueEncoding v) v.
Proof.
  unfold is_ll, LLONG_MIN, LLONG_MAX, _intsetValueEncoding, INTSET_ENC_INT16, INTSET_ENC_INT32, INTSET_ENC_INT64, is_enc, fits.
  intros Hv. repeat match goal with |- context [?a <? ?b] => destruct (Z.ltb_spec a b) end; cbn [orb]; split; fits_lia.
Qed.
Lemma enc_small w v : is_enc w → fits w v → _intsetValueEncoding v ≤ w.
Proof.
  unfold _intsetValueEncoding, INTSET_ENC_INT16, INTSET_ENC_INT32, INTSET_ENC_INT64, is_enc, fits.
  intros [-> |[-> | ->]] Hv; repeat match goal with |- context [?a <? ?b] => destruct (Z.ltb_spec a b) end; cbn [orb]; fits_lia.
Qed.
Lemma fits_mono w w' z : is_enc w → is_enc w' → w ≤ w' → fits w z → fits w' z.
Proof. unfold is_enc, fits. intros [-> |[-> | ->]] [-> |[-> | ->]]; fits_lia. Qed.
(** A value that needs more bytes is on one side of all values. *)
Lemma wider_outside w v x : is_enc w → is_ll v → fits w x → w < _intsetValueEncoding v → if v <? 0 then v < x else x < v.
Proof.
  intros Hw Hv Hx Hlt. assert (¬ fits w v) as Hn by (intros H; pose proof (enc_small w v Hw H); lia).
  unfold fits in *. destruct Hw as [-> |[-> | ->]], (Z.ltb_spec v 0); fits_lia.
Qed.

(** ** What a set is *)

Record is_rep ist (l : list Z) : Prop := IsRep {
  rep_enc : is_enc (is_encoding ist);
  rep_len : is_length ist = Z.of_nat (length l);
  rep_mem : is_contents ist = words (Z.to_nat (is_encoding ist)) l;
  rep_sorted : StronglySorted Z.lt l;
  rep_fits : Forall (fits (is_encoding ist)) l;
  rep_small : Z.of_nat (length l) < 2 ^ 28
}.

Lemma enc_pos w : is_enc w → 0 < w.
Proof. intros [-> |[-> | ->]]; lia. Qed.

Lemma mem_read_word w l i v r :
  0 < w → l !! i = Some v →
  mem_read (Z.of_nat i * w) w (words (Z.to_nat w) l ++ r) = Ok (le_split (Z.to_nat w) v).
Proof.
  intros Hw Hi. pose proof (lookup_lt_Some _ _ _ Hi) as Hlt. unfold mem_read.
  rewrite !(proj2 (Z.leb_le _ _)) by (rewrite ?length_app, ?length_words; nia). cbn [andb].
  rewrite Z2Nat.inj_mul, Nat2Z.id by lia. rewrite drop_words by lia. rewrite (drop_S _ _ _ Hi), words_cons, <- app_assoc.
  unfold mret, res_ret. f_equal. apply take_app_length'. by rewrite length_le_split.
Qed.

Lemma get_word ist l i v : is_rep ist l → l !! i = Some v → _intsetGet ist (Z.of_nat i) = Ok v.
Proof.
  intros [He Hl Hm Hs Hf _] Hi. unfold _intsetGet, _intsetGetEncoded. rewrite Hm, <- (app_nil_r (words _ _)).
  rewrite (mem_read_word _ _ _ v) by (done || by apply enc_pos). cbn [mbind res_bind mret res_ret].
  rewrite word_roundtrip; [done|done|]. by eapply Forall_lookup_1.
Qed.

Lemma mem_write_at off b A B C :
  off = Z.of_nat (length A) → length b = length B → mem_write off b (A ++ B ++ C) = Ok (A ++ b ++ C).
Proof.
  intros -> Hb. unfold mem_write. rewrite !(proj2 (Z.leb_le _ _)) by (rewrite ?length_app; lia). cbn [andb].
  rewrite Nat2Z.id, take_app_length, Hb. unfold mret, res_ret. do 3 f_equal.
  rewrite app_assoc. apply drop_app_length'. by rewrite length_app.
Qed.

(** ** Searching *)

Lemma sorted_lookup l i j x y :
  StronglySorted Z.lt l → l !! i = Some x → l !! j = Some y → (i < j)%nat → x < y.
Proof.
  intros Hs. revert i j. induction Hs as [|a l Hs IH Ha]; intros i j Hi Hj Hij; [done|].
  destruct j as [|j]; [lia|]. destruct i as [|i]; cbn in Hi, Hj.
  - injection Hi as <-. by eapply Forall_lookup_1.
  - eapply IH; [done..|lia].
Qed.

(** Where a value is, or would be. *)
Definition position (l : list Z) (value : Z) (r : bool * Z) : Prop :=
  ∃ k, r.2 = Z.of_nat k ∧ (k ≤ length l)%nat ∧
    if r.1 then l !! k = Some value
    else Forall (fun x => x < value) (take k l) ∧ Forall (fun x => value < x) (drop k l).

Lemma outside_false l value k :
  (k ≤ length l)%nat → (∀ i x, l !! i = Some x → (i < k)%nat → x < value) →
  (∀ i x, l !! i = Some x → (k ≤ i)%nat → value < x) → position l value (false, Z.of_nat k).
Proof.
  intros Hk Hlo Hhi. exists k. split; [done|]. split; [done|]. cbn [fst]. split; apply Forall_lookup_2; intros i x Hi.
  - apply lookup_take_Some in Hi as [Hi ?]. by eapply Hlo.
  - rewrite lookup_drop in Hi. eapply Hhi; [done|lia].
Qed.

Lemma search_loop_ok ist l value fuel : ∀ min max mid cur,
  is_rep ist l → (Z.to_nat (max - min + 1) < fuel)%nat → 0 ≤ min → max < Z.of_nat (length l) → min ≤ max + 1 →
  (∀ i x, l !! i = Some x → Z.of_nat i < min → x < value) → (∀ i x, l !! i = Some x → max < Z.of_nat i → value < x) →
  (min ≤ max ∨ cur ≠ value) →
  ∃ r, intsetSearch_loop fuel ist value min max mid cur = Ok r ∧ position l value r.
Proof.
  induction fuel as [|fuel IH]; intros min max mid cur Hr Hf Hmin Hmax Hle Hlo Hhi Hcur; [lia|].
  pose proof (rep_small _ _ Hr) as Hsm. cbn [intsetSearch_loop]. destruct (Z.leb_spec min max) as [Hmm|Hmm].
  - set (m := Z.shiftr (u32 (min + max)) 1).
    assert (m = (min + max) / 2) as Hm.
    { unfold m, u32. rewrite Z.mod_small by lia. by rewrite Z.shiftr_div_pow2. }
    assert (min ≤ m ≤ max) as Hb by (rewrite Hm; pose proof (Z.div_mod (min + max) 2 ltac:(lia)); pose proof (Z.mod_pos_bound (min + max) 2 ltac:(lia)); lia).
    clearbody m. clear Hm. destruct (lookup_lt_is_Some_2 l (Z.to_nat m)) as [v Hv]; [lia|].
    pose proof (get_word _ _ _ _ Hr Hv) as Hg. rewrite Z2Nat.id in Hg by lia. rewrite Hg. cbn [mbind res_bind].
    destruct (Z.ltb_spec v value) as [H1|H1]; [|destruct (Z.ltb_spec value v) as [H2|H2]].
    + apply IH; try done; try lia. intros i x Hi Hlt. destruct (decide (i = Z.to_nat m)) as [->|]; [congruence|].
      assert (x < v); [|lia]. apply (sorted_lookup l i (Z.to_nat m)); [apply Hr|done|done|lia].
    + apply IH; try done; try lia. intros i x Hi Hlt. destruct (decide (i = Z.to_nat m)) as [->|]; [congruence|].
      assert (v < x); [|lia]. apply (sorted_lookup l (Z.to_nat m) i); [apply Hr|done|done|lia].
    + rewrite (proj2 (Z.eqb_eq value v)) by lia. eexists. split; [done|]. exists (Z.to_nat m).
      cbn [fst snd]. split; [lia|]. split; [lia|]. rewrite Hv. f_equal. lia.
  - rewrite (proj2 (Z.eqb_neq value cur)) by lia. eexists. split; [done|].
    rewrite <- (Z2Nat.id min) by lia. apply outside_false; [lia| |].
    + intros i x Hi Hlt. apply (Hlo i x Hi). lia.
    + intros i x Hi Hlt. apply (Hhi i x Hi). lia.
Qed.

Lemma search_ok ist l value :
  is_rep ist l → ∃ r, intsetSearch ist value = Ok r ∧ position l value r.
Proof.
  intros Hr. unfold intsetSearch. pose proof (rep_len _ _ Hr) as Hl. pose proof (rep_small _ _ Hr) as Hsm. rewrite Hl.
  rewrite to_signed_small by lia. destruct (Z.eqb_spec (Z.of_nat (length l)) 0) as [H0|H0].
  { exists (false, Z.of_nat 0). split; [done|]. apply outside_false; [lia|lia|]. intros i x Hi%lookup_lt_Some. lia. }
  destruct (lookup_lt_is_Some_2 l (length l - 1)) as [last Hlast]; [lia|].
  pose proof (get_word _ _ _ _ Hr Hlast) as Hg. rewrite Nat2Z.inj_sub in Hg by lia. change (Z.of_nat 1) with 1 in Hg.
  rewrite Hg. cbn [mbind res_bind]. destruct (Z.ltb_spec last value).
  { eexists. split; [done|]. apply outside_false; [lia| |].
    - intros i x Hi _. pose proof (lookup_lt_Some _ _ _ Hi). destruct (decide (i = length l - 1)%nat) as [->|]; [congruence|].
      assert (x < last); [|lia]. apply (sorted_lookup l i (length l - 1)); [apply Hr|done|done|lia].
    - intros i x Hi%lookup_lt_Some. lia. }
  destruct (lookup_lt_is_Some_2 l 0) as [first Hfirst]; [lia|].
  pose proof (get_word _ _ _ _ Hr Hfirst) as Hg'. change (Z.of_nat 0) with 0 in Hg'. rewrite Hg'. cbn [mbind res_bind].
  destruct (Z.ltb_spec value first).
  { exists (false, Z.of_nat 0). split; [done|]. apply outside_false; [lia|lia|]. intros i x Hi _.
    destruct (decide (i = 0%nat)) as [->|]; [congruence|].
    assert (first < x); [|lia]. apply (sorted_lookup l 0 i); [apply Hr|done|done|lia]. }
  apply search_loop_ok; try done; try lia. intros i x Hi%lookup_lt_Some. lia.
Qed.

Lemma position_not_in l v pos : position l v (false, pos) → v ∉ l.
Proof.
  intros (k & _ & _ & Hlo & Hhi). rewrite <- (take_drop k l), elem_of_app. rewrite Forall_forall in Hlo, Hhi.
  intros [Hin|Hin]; [specialize (Hlo _ Hin)|specialize (Hhi _ Hin)]; lia.
Qed.
Lemma wide_not_in ist l v : is_rep ist l → is_encoding ist < _intsetValueEncoding v → v ∉ l.
Proof.
  intros Hr Hlt Hin. pose proof (proj1 (Forall_forall _ _) (rep_fits _ _ Hr) v Hin) as Hf.
  pose proof (enc_small _ _ (rep_enc _ _ Hr) Hf). lia.
Qed.

(** ** Widening *)

Lemma mem_write_Ok off b m :
  0 ≤ off → off + Z.of_nat (length b) ≤ Z.of_nat (length m) →
  mem_write off b m = Ok (take (Z.to_nat off) m ++ b ++ drop (Z.to_nat off + length b) m).
Proof. intros H1 H2. unfold mem_write. by rewrite !(proj2 (Z.leb_le _ _)) by lia. Qed.

(** The values before [k] are as they were, the others are in their new places. *)
Record widening (w w' p : nat) (l : list Z) (tail : bytes) (k : nat) (m : bytes) : Prop := Widening {
  wid_old : take (k * w) m = words w (take k l);
  wid_new : drop ((k + p) * w') m = words w' (drop k l) ++ tail;
  wid_len : length m = ((length l + 1) * w')%nat
}.

Lemma widening_step w w' p l tail k m v :
  (w ≤ w')%nat → (p ≤ 1)%nat → l !! k = Some v → widening w w' p l tail (S k) m →
  widening w w' p l tail k (take ((k + p) * w') m ++ le_split w' v ++ drop ((k + p) * w' + w') m).
Proof.
  intros Hw Hp Hk [Ho Hn Hl]. pose proof (lookup_lt_Some _ _ _ Hk).
  assert (length (take ((k + p) * w') m) = ((k + p) * w')%nat) as Hlen by (rewrite length_take_le; nia). split.
  - rewrite take_app_le by nia. rewrite take_take, Nat.min_l by nia.
    apply (f_equal (take (k * w))) in Ho. rewrite take_take, Nat.min_l in Ho by nia. rewrite Ho.
    rewrite <- (app_nil_r (words _ _)), take_words by (rewrite length_take; lia). by rewrite take_take, Nat.min_l by lia.
  - rewrite drop_app_length' by lia. replace ((k + p) * w' + w')%nat with ((S k + p) * w')%nat by lia.
    rewrite Hn, (drop_S l v k) by done. by rewrite words_cons, app_assoc.
  - rewrite !length_app, Hlen, length_le_split, length_drop. nia.
Qed.

Lemma upgrade_loop_ok w w' p l tail len k : ∀ m,
  is_enc w → is_enc w' → w ≤ w' → (p ≤ 1)%nat → (k ≤ length l)%nat → Forall (fits w) l →
  widening (Z.to_nat w) (Z.to_nat w') p l tail k m →
  ∃ m', upgrade_loop k (Z.of_nat p) w (Intset w' len m) = Ok (Intset w' len m') ∧
    widening (Z.to_nat w) (Z.to_nat w') p l tail 0 m'.
Proof.
  induction k as [|k IH]; intros m Hw Hw' Hww Hp Hk Hf Hwid; [by exists m|].
  destruct (lookup_lt_is_Some_2 l k) as [v Hv]; [lia|].
  pose proof (enc_pos w Hw) as Hwp. pose proof (enc_pos w' Hw').
  assert (_intsetGetEncoded (Intset w' len m) (Z.of_nat k) w = Ok v) as Hg.
  { unfold _intsetGetEncoded. cbn [is_contents]. pose proof (wid_old _ _ _ _ _ _ _ Hwid) as Ho.
    rewrite <- (take_drop (S k * Z.to_nat w) m), Ho.
    rewrite (mem_read_word w _ k v) by (done || (rewrite lookup_take_lt by lia; done)).
    cbn [mbind res_bind mret res_ret]. rewrite word_roundtrip; [done|done|]. by eapply Forall_lookup_1. }
  cbn [upgrade_loop]. rewrite Hg. cbn [mbind res_bind].
  pose proof (wid_len _ _ _ _ _ _ _ Hwid) as Hlen.
  assert (_intsetSet (Intset w' len m) (Z.of_nat k + Z.of_nat p) v = Ok (Intset w' len
    (take ((k + p) * Z.to_nat w') m ++ le_split (Z.to_nat w') v ++ drop ((k + p) * Z.to_nat w' + Z.to_nat w') m))) as ->.
  { unfold _intsetSet. cbn [is_encoding is_contents is_length].
    rewrite mem_write_Ok; [|nia|rewrite length_le_split, Hlen; nia]. cbn [mbind res_bind mret res_ret].
    rewrite length_le_split. replace (Z.to_nat ((Z.of_nat k + Z.of_nat p) * w')) with ((k + p) * Z.to_nat w')%nat; [done|].
    rewrite <- Nat2Z.inj_add, Z2Nat.inj_mul, Nat2Z.id by lia. done. }
  cbn [mbind res_bind]. apply IH; try done; [lia|]. apply widening_step; try done. lia.
Qed.

(** ** Adding and removing *)

(** A value at its place. *)
Definition insert_at (k : nat) (v : Z) (l : list Z) : list Z := take k l ++ v :: drop k l.

Lemma insert_at_sorted k v l :
  StronglySorted Z.lt l → Forall (fun x => x < v) (take k l) → Forall (fun x => v < x) (drop k l) →
  StronglySorted Z.lt (insert_at k v l).
Proof.
  intros Hs Hlo Hhi. unfold insert_at. rewrite <- (take_drop k l) in Hs.
  apply StronglySorted_app_1_l in Hs as H1. apply StronglySorted_app_1_r in Hs as H2.
  apply StronglySorted_app. split; [|split; [done|by constructor]].
  intros x y Hx Hy. rewrite Forall_forall in Hlo, Hhi. apply elem_of_cons in Hy as [-> |Hy]; [by apply Hlo|].
  specialize (Hlo x Hx). specialize (Hhi y Hy). lia.
Qed.
Lemma insert_at_Forall (P : Z → Prop) k v l : P v → Forall P l → Forall P (insert_at k v l).
Proof.
  intros Hv Hl. unfold insert_at. apply Forall_app. split; [by apply Forall_take|]. constructor; [done|]. by apply Forall_drop.
Qed.
Lemma insert_at_length k v l : length (insert_at k v l) = S (length l).
Proof. unfold insert_at. rewrite length_app. cbn [length]. rewrite <- (take_drop k l) at 3. rewrite length_app. lia. Qed.
Lemma elem_of_insert_at x k v l : x ∈ insert_at k v l ↔ x = v ∨ x ∈ l.
Proof. unfold insert_at. rewrite elem_of_app, elem_of_cons. rewrite <- (take_drop k l) at 3. rewrite elem_of_app. tauto. Qed.

Lemma rep_insert w k v l m :
  is_enc w → fits w v → Forall (fits w) l → StronglySorted Z.lt l → Z.of_nat (length l) + 1 < 2 ^ 28 →
  Forall (fun x => x < v) (take k l) → Forall (fun x => v < x) (drop k l) → m = words (Z.to_nat w) (insert_at k v l) →
  is_rep (Intset w (u32 (Z.of_nat (length l) + 1)) m) (insert_at k v l).
Proof.
  intros Hw Hv Hf Hs Hn Hlo Hhi Hm. split; cbn [is_encoding is_length is_contents]; try done.
  - unfold u32. rewrite Z.mod_small by lia. rewrite insert_at_length. lia.
  - by apply insert_at_sorted.
  - by apply insert_at_Forall.
  - rewrite insert_at_length. lia.
Qed.

Lemma remove_sorted k v l :
  StronglySorted Z.lt l → l !! k = Some v →
  StronglySorted Z.lt (take k l ++ drop (S k) l) ∧ ∀ x, x ∈ take k l ++ drop (S k) l ↔ x ∈ l ∧ x ≠ v.
Proof.
  intros Hs Hk. rewrite <- (take_drop_middle l k v Hk) in Hs.
  apply StronglySorted_app in Hs as (H1 & H2 & H3). apply StronglySorted_inv in H3 as [H3 H4]. rewrite Forall_forall in H4. split.
  - apply StronglySorted_app. split; [|done]. intros x y Hx Hy. apply H1; [done|]. by apply list_elem_of_further.
  - intros x. rewrite <- (take_drop_middle l k v Hk) at 3. rewrite !elem_of_app, elem_of_cons. split.
    + intros [Hx|Hx].
      * assert (x < v) by (apply H1; [done|by apply list_elem_of_here]). split; [tauto|lia].
      * specialize (H4 x Hx). split; [tauto|lia].
    + intros [[?|[?|?]] ?]; tauto.
Qed.

Section specs.
Variable garbage : nat → byte.

Lemma resize_grow w n m :
  is_enc w → (length m ≤ (n + 1) * Z.to_nat w)%nat → Z.of_nat n < 2 ^ 28 →
  ∃ G, intsetResize garbage (Intset w (Z.of_nat n) m) (Z.of_nat n + 1) = Intset w (Z.of_nat n) (m ++ G) ∧
    length (m ++ G) = ((n + 1) * Z.to_nat w)%nat.
Proof.
  intros Hw Hm Hn. unfold intsetResize. cbn [is_encoding is_length is_contents].
  assert (Z.to_nat (u32 ((Z.of_nat n + 1) * w)) = ((n + 1) * Z.to_nat w)%nat) as ->.
  { unfold u32. rewrite Z.mod_small by (destruct Hw as [-> |[-> | ->]]; lia).
    destruct Hw as [-> |[-> | ->]]; lia. }
  eexists. rewrite take_ge by done. split; [done|]. rewrite length_app, length_fmap, length_seq. lia.
Qed.

Lemma resize_shrink w n m len :
  is_enc w → length m = ((n + 1) * Z.to_nat w)%nat → Z.of_nat n < 2 ^ 28 →
  intsetResize garbage (Intset w len m) (Z.of_nat n) = Intset w len (take (n * Z.to_nat w) m).
Proof.
  intros Hw Hm Hn. unfold intsetResize. cbn [is_encoding is_length is_contents].
  assert (Z.to_nat (u32 (Z.of_nat n * w)) = (n * Z.to_nat w)%nat) as ->.
  { unfold u32. rewrite Z.mod_small by (destruct Hw as [-> |[-> | ->]]; lia).
    destruct Hw as [-> |[-> | ->]]; lia. }
  replace (n * Z.to_nat w - length m)%nat with 0%nat by lia. cbn [seq fmap list_fmap]. by rewrite app_nil_r.
Qed.

(** Widening puts the value at one of the ends. *)
Lemma upgrade_ok ist l v :
  is_rep ist l → is_ll v → is_encoding ist < _intsetValueEncoding v → Z.of_nat (length l) + 1 < 2 ^ 28 →
  ∃ ist' k, intsetUpgradeAndAdd garbage ist v = Ok ist' ∧ is_rep ist' (insert_at k v l).
Proof.
  intros [He Hl Hm Hs Hf Hsm] Hv Hlt Hn. destruct ist as [w len m]. cbn [is_encoding is_length is_contents] in *. subst len m.
  destruct (enc_of_value v Hv) as [Hw' Hfv]. unfold intsetUpgradeAndAdd. cbn [is_encoding is_length is_contents].
  set (w' := _intsetValueEncoding v) in *. pose proof (enc_pos w He). pose proof (enc_pos w' Hw'). rewrite Nat2Z.id.
  destruct (resize_grow w' (length l) (words (Z.to_nat w) l)) as (G & -> & HG); [done|rewrite length_words; nia|lia|].
  set (p := if v <? 0 then 1%nat else 0%nat).
  assert ((if v <? 0 then 1 else 0) = Z.of_nat p) as -> by (unfold p; by destruct (v <? 0)).
  assert (widening (Z.to_nat w) (Z.to_nat w') p l (drop ((length l + p) * Z.to_nat w') (words (Z.to_nat w) l ++ G)) (length l)
    (words (Z.to_nat w) l ++ G)) as Hwid.
  { split; [|by rewrite drop_all|done]. rewrite take_words by lia. done. }
  set (tail := drop _ _) in Hwid. assert (length tail = ((1 - p) * Z.to_nat w')%nat) as Htail.
  { unfold tail. rewrite length_drop, HG. nia. }
  clearbody tail.
  destruct (upgrade_loop_ok w w' p l tail (Z.of_nat (length l)) (length l) _ He Hw' ltac:(lia) ltac:(unfold p; destruct (v <? 0); lia)
    ltac:(lia) Hf Hwid) as (m' & -> & [_ Hnew Hlen]).
  cbn [mbind res_bind]. change (0 + p)%nat with p in Hnew. rewrite drop_0 in Hnew.
  assert (Forall (fits w') l) as Hf' by (eapply Forall_impl; [exact Hf|]; intros x; apply fits_mono; (done || lia)).
  assert (Forall (fun x => if v <? 0 then v < x else x < v) l) as Hout.
  { eapply Forall_impl; [exact Hf|]. intros x Hx. by apply (wider_outside w). }
  unfold _intsetSet. cbn [is_encoding is_length is_contents]. subst p. destruct (v <? 0).
  - rewrite Nat.mul_1_l in Hnew. destruct tail; [|cbn in Htail; lia]. rewrite app_nil_r in Hnew.
    rewrite mem_write_Ok by (rewrite ?length_le_split; nia). cbn [mbind res_bind mret res_ret is_encoding is_length is_contents].
    eexists _, 0%nat. split; [reflexivity|]. apply rep_insert; try done.
    change (Z.to_nat (0 * w')) with 0%nat. rewrite take_0, length_le_split, Nat.add_0_l, Hnew. unfold insert_at. by rewrite drop_0.
  - rewrite Nat.mul_0_l, drop_0 in Hnew. subst m'. rewrite length_app, length_words, Htail in Hlen.
    rewrite mem_write_Ok by (rewrite ?length_app, ?length_words, ?length_le_split; nia).
    cbn [mbind res_bind mret res_ret is_encoding is_length is_contents].
    eexists _, (length l). split; [reflexivity|]. apply rep_insert; try done; [by rewrite firstn_all|by rewrite drop_all|].
    rewrite Z2Nat.inj_mul, Nat2Z.id by lia. rewrite take_words, firstn_all by lia.
    rewrite drop_ge by (rewrite length_app, length_words, length_le_split; lia).
    unfold insert_at. by rewrite words_app, firstn_all, drop_all.
Qed.
Lemma mem_read_at off n A B C :
  off = Z.of_nat (length A) → n = Z.of_nat (length B) → mem_read off n (A ++ B ++ C) = Ok B.
Proof.
  intros -> ->. unfold mem_read. rewrite !(proj2 (Z.leb_le _ _)) by (rewrite ?length_app; lia). cbn [andb].
  by rewrite !Nat2Z.id, drop_app_length, take_app_length.
Qed.

(** Moving the tail of a block, when [from] values are before it. *)
Lemma move_tail_ok w n from to l m :
  is_enc w → (from ≤ n)%nat → Z.of_nat n < 2 ^ 28 → length l = (n - from)%nat →
  drop (from * Z.to_nat w) m = words (Z.to_nat w) l ++ drop (n * Z.to_nat w) m →
  ((to + (n - from)) * Z.to_nat w ≤ length m)%nat → (n * Z.to_nat w ≤ length m)%nat →
  intsetMoveTail (Intset w (Z.of_nat n) m) (Z.of_nat from) (Z.of_nat to) =
  Ok (Intset w (Z.of_nat n) (take (to * Z.to_nat w) m ++ words (Z.to_nat w) l ++ drop ((to + (n - from)) * Z.to_nat w) m)).
Proof.
  intros Hw Hfrom Hn Hl Hd Hto Hnm. unfold intsetMoveTail, memmove. cbn [is_encoding is_length is_contents].
  pose proof (enc_pos w Hw) as Hp.
  assert (u32 (u32 (Z.of_nat n - Z.of_nat from) * w) = Z.of_nat (length (words (Z.to_nat w) l))) as ->.
  { unfold u32. rewrite (Z.mod_small (_ - _)) by lia. rewrite length_words, Hl.
    rewrite Z.mod_small by (destruct Hw as [-> |[-> | ->]]; lia). destruct Hw as [-> |[-> | ->]]; lia. }
  assert (m = take (from * Z.to_nat w) m ++ words (Z.to_nat w) l ++ drop (n * Z.to_nat w) m) as Hm
    by (rewrite <- Hd; symmetry; apply take_drop).
  assert (mem_read (Z.of_nat from * w) (Z.of_nat (length (words (Z.to_nat w) l))) m = Ok (words (Z.to_nat w) l)) as ->.
  { rewrite Hm at 1. apply mem_read_at; [|done]. rewrite length_take_le by nia. nia. }
  cbn [mbind res_bind]. rewrite mem_write_Ok by (rewrite ?length_words, ?Hl; nia). cbn [mbind res_bind mret res_ret].
  do 2 f_equal. rewrite length_words, Hl. rewrite Z2Nat.inj_mul, Nat2Z.id by lia. do 3 f_equal. lia.
Qed.

Lemma add_ok ist l v :
  is_rep ist l → is_ll v → Z.of_nat (length l) + 1 < 2 ^ 28 →
  ∃ ist', intsetAdd garbage ist v = Ok (ist', bool_decide (v ∉ l)) ∧
    (is_rep ist' l ∧ v ∈ l ∨ v ∉ l ∧ ∃ k, is_rep ist' (insert_at k v l)).
Proof.
  intros Hr Hv Hn. unfold intsetAdd. destruct (Z.ltb_spec (is_encoding ist) (_intsetValueEncoding v)) as [Hlt|Hle].
  { destruct (upgrade_ok ist l v Hr Hv Hlt Hn) as (ist' & k & -> & Hr'). cbn [mbind res_bind mret res_ret].
    pose proof (wide_not_in _ _ _ Hr Hlt) as Hni. exists ist'. rewrite bool_decide_eq_true_2 by done. eauto. }
  destruct (search_ok ist l v Hr) as ([found pos] & -> & Hp). pose proof (position_not_in l v pos) as Hno.
  destruct Hp as (k & Hpos & Hk & Hfound). cbn [mbind res_bind fst snd] in *. destruct found.
  { exists ist. apply list_elem_of_lookup_2 in Hfound. rewrite bool_decide_eq_false_2 by (intros H; by apply H). eauto. }
  assert (v ∉ l) as Hni by (apply Hno; by exists k). clear Hno. destruct Hfound as [Hlo Hhi]. subst pos.
  rewrite bool_decide_eq_true_2 by done.
  destruct Hr as [He Hl Hm Hs Hf Hsm]. destruct ist as [w len m]. cbn [is_encoding is_length is_contents] in *. subst len m.
  pose proof (enc_pos w He). set (W := Z.to_nat w).
  assert (fits w v) as Hfv.
  { destruct (enc_of_value v Hv) as [He' Hf']. by eapply fits_mono. }
  destruct (resize_grow w (length l) (words W l)) as (G & -> & HG); [done|rewrite length_words; lia|lia|].
  fold W in HG. rewrite length_app, length_words in HG.
  cbn [is_length is_encoding is_contents].
  assert (∃ x, length x = W ∧ (if Z.of_nat k <? Z.of_nat (length l)
     then intsetMoveTail (Intset w (Z.of_nat (length l)) (words W l ++ G)) (Z.of_nat k) (Z.of_nat k + 1)
     else mret (Intset w (Z.of_nat (length l)) (words W l ++ G))) =
     Ok (Intset w (Z.of_nat (length l)) (words W (take k l) ++ x ++ words W (drop k l)))) as (x & Hx & ->).
  { destruct (Z.ltb_spec (Z.of_nat k) (Z.of_nat (length l))) as [Hlt|Hge].
    - replace (Z.of_nat k + 1) with (Z.of_nat (k + 1)) by lia. fold W.
      rewrite (move_tail_ok w (length l) k (k + 1) (drop k l)); fold W; try done.
      2: by rewrite length_drop.
      2: { rewrite !drop_words by lia. by rewrite drop_all. }
      2, 3: rewrite length_app, length_words; nia.
      exists (take W (words W (drop k l) ++ G)). split; [rewrite length_take_le; [done|rewrite length_app, length_words, length_drop; nia]|].
      do 2 f_equal. rewrite (drop_ge (words W l ++ G)) by (rewrite length_app, length_words; nia). rewrite app_nil_r.
      rewrite app_assoc. f_equal. replace ((k + 1) * W)%nat with (length (words W (take k l)) + W)%nat
        by (rewrite length_words, length_take_le by lia; lia).
      rewrite (words_take_drop W k l) at 1. rewrite <- app_assoc. by rewrite take_app_add.
    - exists G. split; [lia|]. assert (k = length l) as -> by lia. rewrite firstn_all, drop_all. by rewrite app_nil_r. }
  cbn [mbind res_bind]. unfold _intsetSet. cbn [is_encoding is_length is_contents].
  rewrite mem_write_at; [|rewrite length_words, length_take_le by lia; nia|by rewrite length_le_split].
  cbn [mbind res_bind mret res_ret is_encoding is_length is_contents]. eexists. split; [reflexivity|]. right. split; [done|].
  exists k. apply rep_insert; try done. unfold insert_at. by rewrite words_app.
Qed.
Lemma remove_ok ist l v :
  is_rep ist l → is_ll v →
  ∃ ist' l', intsetRemove garbage ist v = Ok (ist', bool_decide (v ∈ l)) ∧ is_rep ist' l' ∧ ∀ x, x ∈ l' ↔ x ∈ l ∧ x ≠ v.
Proof.
  intros Hr Hv. unfold intsetRemove.
  assert (v ∉ l → ∃ ist' l', mret (ist, false) = Ok (ist', bool_decide (v ∈ l)) ∧ is_rep ist' l' ∧ ∀ x, x ∈ l' ↔ x ∈ l ∧ x ≠ v) as Hsame.
  { intros Hni. exists ist, l. rewrite bool_decide_eq_false_2 by done. split_and!; try done. intros x. split; [|tauto].
    intros Hx. split; [done|]. by intros ->. }
  destruct (Z.leb_spec (_intsetValueEncoding v) (is_encoding ist)) as [Hle|Hlt].
  2: by apply Hsame, (wide_not_in ist).
  destruct (search_ok ist l v Hr) as ([found pos] & -> & Hp). cbn [mbind res_bind].
  destruct found; [|by apply Hsame, (position_not_in _ _ pos)].
  destruct Hp as (k & Hpos & Hk & Hfound). cbn [fst snd] in *. subst pos.
  pose proof (list_elem_of_lookup_2 _ _ _ Hfound) as Hin. rewrite bool_decide_eq_true_2 by done.
  pose proof (lookup_lt_Some _ _ _ Hfound) as Hlt. destruct Hr as [He Hl Hm Hs Hf Hsm].
  destruct ist as [w len m]. cbn [is_encoding is_length is_contents] in *. subst len m. pose proof (enc_pos w He). set (W := Z.to_nat w).
  destruct (remove_sorted k v l Hs Hfound) as [Hs' Hmem].
  assert (length (take k l ++ drop (S k) l) = (length l - 1)%nat) as Hlen.
  { rewrite length_app, length_take_le, length_drop by lia. lia. }
  assert (∃ x, length x = W ∧ (if Z.of_nat k <? Z.of_nat (length l) - 1
     then intsetMoveTail (Intset w (Z.of_nat (length l)) (words W l)) (Z.of_nat k + 1) (Z.of_nat k)
     else mret (Intset w (Z.of_nat (length l)) (words W l))) =
     Ok (Intset w (Z.of_nat (length l)) (words W (take k l ++ drop (S k) l) ++ x))) as (x & Hx & ->).
  { destruct (Z.ltb_spec (Z.of_nat k) (Z.of_nat (length l) - 1)) as [H1|H1].
    - replace (Z.of_nat k + 1) with (Z.of_nat (S k)) by lia. pose proof (app_nil_r (words W l)) as Hnil.
      rewrite (move_tail_ok w (length l) (S k) k (drop (S k) l)); fold W; try done.
      2: by rewrite length_drop.
      2: { rewrite <- Hnil. rewrite !drop_words by lia. by rewrite drop_all. }
      2, 3: rewrite length_words; nia.
      exists (drop ((k + (length l - S k)) * W) (words W l)). split; [rewrite length_drop, length_words; nia|].
      rewrite <- Hnil at 1. rewrite take_words by lia. by rewrite words_app, <- app_assoc.
    - assert (k = length l - 1)%nat as Hke by lia. exists (words W [v]). split; [rewrite length_words; cbn; lia|].
      rewrite <- words_app. do 3 f_equal. rewrite <- (take_drop_middle l k v Hfound) at 1. rewrite <- app_assoc. f_equal.
      by rewrite (drop_ge l (S k)) by lia. }
  cbn [mbind res_bind]. replace (Z.of_nat (length l) - 1) with (Z.of_nat (length l - 1)) by lia.
  rewrite resize_shrink; [|done|rewrite length_app, length_words, Hlen, Hx; fold W; nia|lia]. fold W.
  cbn [mret res_ret is_encoding is_contents]. eexists _, _. split; [reflexivity|]. split; [|exact Hmem].
  split; cbn [is_encoding is_length is_contents]; try done.
  - by rewrite Hlen.
  - rewrite <- Hlen, take_words, firstn_all by lia. done.
  - apply Forall_app. split; [by apply Forall_take|by apply Forall_drop].
  - rewrite Hlen. lia.
Qed.

End specs.

Lemma find_ok ist l v : is_rep ist l → intsetFind ist v = Ok (bool_decide (v ∈ l)).
Proof.
  intros Hr. unfold intsetFind. destruct (Z.leb_spec (_intsetValueEncoding v) (is_encoding ist)) as [Hle|Hlt].
  - destruct (search_ok ist l v Hr) as ([found pos] & -> & Hp). cbn [mbind res_bind mret res_ret].
    f_equal. destruct found; symmetry.
    + apply bool_decide_eq_true_2. destruct Hp as (k & _ & _ & Hfound). cbn [fst] in Hfound. by eapply list_elem_of_lookup_2.
    + apply bool_decide_eq_false_2. by eapply position_not_in.
  - rewrite bool_decide_eq_false_2; [done|]. by apply (wide_not_in ist).
Qed.

(** Such a set can be dumped to RocksDB and is read back as it is. *)
Lemma rep_dumpable env ist l lru rc :
  is_rep ist l → lru_ok lru → readable env (Robj OBJ_SET OBJ_ENCODING_INTSET lru rc (PIntset ist)).
Proof.
  intros [He Hl Hm _ _ Hsm] Hlru. apply roundtrip_intset; [done|]. pose proof (enc_pos _ He).
  unfold wf_intset_repr. rewrite Hl, Hm, length_words. destruct He as [-> |[-> | ->]]; lia.
Qed.

(** ** Whatever is done with a set *)

Inductive op := Add (v : Z) | Remove (v : Z) | Find (v : Z) | Get (pos : Z) | Len.
Inductive answer := Yes (b : bool) | Value (o : option Z) | Count (n : Z).

Definition iexec (garbage : nat → byte) (o : op) ist : res (intset * answer) :=
  match o with
  | Add v => '(ist, b) ← intsetAdd garbage ist v; mret (ist, Yes b)
  | Remove v => '(ist, b) ← intsetRemove garbage ist v; mret (ist, Yes b)
  | Find v => b ← intsetFind ist v; mret (ist, Yes b)
  | Get pos => v ← intsetGet ist pos; mret (ist, Value v)
  | Len => mret (ist, Count (intsetLen ist))
  end.
Fixpoint iruns (garbage : nat → byte) (ops : list op) ist : res (intset * list answer) :=
  match ops with
  | [] => mret (ist, [])
  | o :: ops' =>
      '(ist, a) ← iexec garbage o ist;
      '(ist, l) ← iruns garbage ops' ist;
      mret (ist, a :: l)
  end.

(** The same on a finite set. *)
Definition smallest_first (X : gset Z) : list Z := merge_sort Z.le (elements X).
Definition sexec (o : op) (X : gset Z) : gset Z * answer :=
  match o with
  | Add v => ({[v]} ∪ X, Yes (bool_decide (v ∉ X)))
  | Remove v => (X ∖ {[v]}, Yes (bool_decide (v ∈ X)))
  | Find v => (X, Yes (bool_decide (v ∈ X)))
  | Get pos => (X, Value (smallest_first X !! Z.to_nat pos))
  | Len => (X, Count (Z.of_nat (size X)))
  end.
Fixpoint sruns (ops : list op) (X : gset Z) : gset Z * list answer :=
  match ops with
  | [] => (X, [])
  | o :: ops' => let '(X, a) := sexec o X in let '(X, l) := sruns ops' X in (X, a :: l)
  end.

Definition op_ok (o : op) : Prop :=
  match o with Add v | Remove v => is_ll v | Find _ | Len => True | Get pos => 0 ≤ pos end.

Lemma sorted_NoDup l : StronglySorted Z.lt l → NoDup l.
Proof.
  induction 1 as [|a l Hs IH Ha]; constructor; [|done]. intros Hin. rewrite Forall_forall in Ha. specialize (Ha _ Hin). lia.
Qed.
Lemma rep_smallest ist l X : is_rep ist l → (∀ x, x ∈ l ↔ x ∈ X) → smallest_first X = l ∧ size X = length l.
Proof.
  intros Hr HX. pose proof (sorted_NoDup _ (rep_sorted _ _ Hr)) as Hnd.
  assert (elements X ≡ₚ l) as Hp.
  { apply NoDup_Permutation; [apply NoDup_elements|done|]. intros x. by rewrite elem_of_elements, HX. }
  split; [|by rewrite <- Hp].
  apply (StronglySorted_unique Z.le); [apply (StronglySorted_merge_sort Z.le)| |etrans; [apply merge_sort_Permutation|done]].
  pose proof (rep_sorted _ _ Hr) as Hs. clear -Hs. induction Hs as [|a l Hs IH Ha]; constructor; [done|].
  eapply Forall_impl; [exact Ha|]. intros x. simpl. lia.
Qed.

Lemma iexec_ok garbage o ist l X :
  is_rep ist l → (∀ x, x ∈ l ↔ x ∈ X) → op_ok o → Z.of_nat (length l) + 1 < 2 ^ 28 →
  ∃ ist' l', iexec garbage o ist = Ok (ist', (sexec o X).2) ∧ is_rep ist' l' ∧ (∀ x, x ∈ l' ↔ x ∈ (sexec o X).1) ∧
    (length l' ≤ length l + 1)%nat.
Proof.
  intros Hr HX Ho Hn. destruct o as [v|v|v|pos|]; cbn [iexec sexec fst snd op_ok] in *.
  - destruct (add_ok garbage ist l v Hr Ho Hn) as (ist' & -> & H). cbn [mbind res_bind mret res_ret].
    rewrite (bool_decide_ext (v ∉ l) (v ∉ X)) by (by rewrite HX). destruct H as [[Hr' Hin]|(Hni & k & Hr')].
    + exists ist', l. split_and!; [done|done| |lia]. intros x. rewrite HX in *. set_solver.
    + exists ist', (insert_at k v l). split_and!; [done|done| |rewrite insert_at_length; lia].
      intros x. rewrite elem_of_insert_at, HX. set_solver.
  - destruct (remove_ok garbage ist l v Hr Ho) as (ist' & l' & -> & Hr' & Hmem). cbn [mbind res_bind mret res_ret].
    rewrite (bool_decide_ext (v ∈ l) (v ∈ X)) by (by rewrite HX). exists ist', l'. split_and!; [done|done| |].
    + intros x. rewrite Hmem, HX. set_solver.
    + assert (length l' ≤ length l)%nat; [|lia]. apply submseteq_length, NoDup_submseteq.
      { by eapply sorted_NoDup, rep_sorted. }
      intros x Hx. by apply Hmem in Hx as [? _].
  - rewrite (find_ok ist l v Hr). cbn [mbind res_bind mret res_ret].
    rewrite (bool_decide_ext (v ∈ l) (v ∈ X)) by (by rewrite HX). exists ist, l. split_and!; [done..|lia].
  - destruct (rep_smallest ist l X Hr HX) as [-> _]. exists ist, l. split_and!; [|done|done|lia].
    unfold intsetGet. rewrite (rep_len _ _ Hr). destruct (Z.ltb_spec pos (Z.of_nat (length l))) as [Hlt|Hge].
    + destruct (lookup_lt_is_Some_2 l (Z.to_nat pos)) as [x Hx]; [lia|]. pose proof (get_word _ _ _ _ Hr Hx) as Hg.
      rewrite Z2Nat.id in Hg by lia. by rewrite Hg, Hx.
    + by rewrite lookup_ge_None_2 by lia.
  - destruct (rep_smallest ist l X Hr HX) as [_ ->]. exists ist, l. unfold intsetLen. rewrite (rep_len _ _ Hr). split_and!; [done..|lia].
Qed.

(** C33: an intset is a set.  Whatever sequence of additions, deletions, tests and accesses by position is done
    to a set that was empty, no access is outside of its block of memory, and every answer is
    that of a finite set, the positions being those of its elements in
    increasing order; at the end the block has exactly the elements, sorted. *)
Theorem intset_refines garbage ops :
  Forall op_ok ops → Z.of_nat (length ops) < 2 ^ 28 →
  ∃ ist, iruns garbage ops intsetNew = Ok (ist, (sruns ops ∅).2) ∧ is_rep ist (smallest_first (sruns ops ∅).1).
Proof.
  intros Hops Hlen.
  assert (∀ ops ist l X, is_rep ist l → (∀ x, x ∈ l ↔ x ∈ X) → Forall op_ok ops → Z.of_nat (length l + length ops) < 2 ^ 28 →
    ∃ ist', iruns garbage ops ist = Ok (ist', (sruns ops X).2) ∧ is_rep ist' (smallest_first (sruns ops X).1)) as H.
  { clear. induction ops as [|o ops IH]; intros ist l X Hr HX Hops Hn; cbn [iruns sruns].
    - exists ist. split; [done|]. cbn [fst]. by rewrite (proj1 (rep_smallest ist l X Hr HX)).
    - apply Forall_cons in Hops as [Ho Hops]. cbn [length] in Hn.
      destruct (iexec_ok garbage o ist l X Hr HX Ho) as (ist' & l' & -> & Hr' & HX' & Hl'); [lia|].
      cbn [mbind res_bind]. destruct (sexec o X) as [X' a]. cbn [fst snd] in *.
      destruct (IH ist' l' X' Hr' HX' Hops) as (ist'' & -> & Hr''); [lia|]. cbn [mbind res_bind mret res_ret].
      destruct (sruns ops X') as [X'' la]. by exists ist''. }
  apply (H ops intsetNew []); try done; [|set_solver].
  split; cbn; try done; [by left|constructor].
Qed.

Lemma intset_refines_witness :
  ∃ ist, iruns (fun _ => x2a) [Add 5; Add (-70000); Add 5; Get 0; Remove 5; Len] intsetNew
    = Ok (ist, [Yes true; Yes true; Yes false; Value (Some (-70000)); Yes true; Count 1]).
Proof.
  destruct (intset_refines (fun _ => x2a) [Add 5; Add (-70000); Add 5; Get 0; Remove 5; Len]) as (ist & H & _).
  - repeat (apply Forall_cons; split; [by vm_compute|]). by apply Forall_nil.
  - by vm_compute.
  - exists ist. rewrite H. by vm_compute.
Defined.
