(* ===== verification/Dict.v ===== *)
(** * Hash tables (src/src/dict.c)

    The dictionaries of the server.  A dictionary has two tables: when the first has
    become too small or too large, its buckets are moved to the second a few at a time,
    by the operations on the dictionary themselves, and the second table then
    takes the place of the first.

    Shown: whatever the operations and however the moving is interleaved with them, the
    answers are those of a finite map; and [dictScan], which visits the buckets
    by counting with the bits of the cursor reversed, finds every key that stays
    in the dictionary, whatever happens to it between two calls. *)

From S2P Require Import Prelude.
From stdpp Require Import list gmap.
#[local] Open Scope Z_scope.

(** ** Reversing the bits of a cursor *)

(** One turn of the loop of [rev]. *)
Definition rev_step (s mask v : Z) : Z :=
  Z.lor (Z.land (Z.shiftr v s) mask) (Z.land (u64 (Z.shiftl v s)) (u64 (Z.lnot mask))).
Fixpoint rev_loop (fuel : nat) (s mask v : Z) : Z :=
  match fuel with
  | O => v
  | S fuel' =>
      let s := Z.shiftr s 1 in
      if 0 <? s then
        let mask := Z.lxor mask (u64 (Z.shiftl mask s)) in
        rev_loop fuel' s mask (rev_step s mask v)
      else v
  end.
(** [s] is 64, 32, and so on: the loop has 7 turns. *)
Definition rev (v : Z) : Z := rev_loop 7 64 (u64 (Z.lnot 0)) v.

(** The next cursor of a table. *)
Definition next_cursor (v mask : Z) : Z :=
  let v := Z.lor v (u64 (Z.lnot mask)) in
  let v := rev v in
  let v := u64 (v + 1) in
  rev v.

(** ** The tables *)

Definition DICT_HT_INITIAL_SIZE : Z := 4.
Definition dict_force_resize_ratio : Z := 5.
Definition LONG_MAX : Z := 2 ^ 63 - 1.

Section dict.
Context {K V : Type} `{Countable K}.
(** [dictHashKey] *)
Variable hash : K → Z.

Abbreviation bucket := (list (K * V)).

(** An empty [table] is the pointer NULL. *)
Record dictht := DictHt { table : list bucket; ht_size : Z; sizemask : Z; ht_used : Z }.
Record dict := Dict { ht0 : dictht; ht1 : dictht; rehashidx : Z; iterators : Z }.
Implicit Types (t : dictht) (d : dict) (b : bucket).

Definition _dictReset : dictht := DictHt [] 0 0 0.
Definition dictCreate : dict := Dict _dictReset _dictReset (-1) 0.

Definition dictIsRehashing d : bool := negb (rehashidx d =? -1).
Definition dictSize d : Z := u64 (ht_used (ht0 d) + ht_used (ht1 d)).

Definition get_bucket t (i : Z) : res bucket :=
  if (0 <=? i) && (i <? Z.of_nat (length (table t)))
  then res_of_option (table t !! Z.to_nat i) "invalid bucket" else Abort "invalid bucket".
Definition set_bucket t (i : Z) b (used : Z) : dictht :=
  DictHt (<[Z.to_nat i := b]> (table t)) (ht_size t) (sizemask t) used.

(** ** Resizing *)

(** The loop has at most 64 turns before [i] is larger than any [size]. *)
Fixpoint next_power (fuel : nat) (i size : Z) : Z :=
  match fuel with
  | O => i
  | S fuel' => if size <=? i then i else next_power fuel' (u64 (i * 2)) size
  end.
Definition _dictNextPower (size : Z) : Z :=
  if LONG_MAX <=? size then 2 ^ 63 else next_power 64 DICT_HT_INITIAL_SIZE size.

(** [true] is DICT_OK. *)
Definition dictExpand d (size : Z) : bool * dict :=
  if dictIsRehashing d || (size <? ht_used (ht0 d)) then (false, d)
  else
    let realsize := _dictNextPower size in
    if realsize =? ht_size (ht0 d) then (false, d)
    else
      let n := DictHt (replicate (Z.to_nat realsize) []) realsize (u64 (realsize - 1)) 0 in
      if decide (table (ht0 d) = []) then (true, Dict n (ht1 d) (rehashidx d) (iterators d))
      else (true, Dict (ht0 d) n 0 (iterators d)).

Definition dictResize (dict_can_resize : bool) d : bool * dict :=
  if negb dict_can_resize || dictIsRehashing d then (false, d)
  else
    let minimal := to_signed 32 (ht_used (ht0 d)) in
    let minimal := if minimal <? DICT_HT_INITIAL_SIZE then DICT_HT_INITIAL_SIZE else minimal in
    dictExpand d (u64 minimal).

Definition _dictExpandIfNeeded (dict_can_resize : bool) d : bool * dict :=
  if dictIsRehashing d then (true, d)
  else if ht_size (ht0 d) =? 0 then dictExpand d DICT_HT_INITIAL_SIZE
  else if (ht_size (ht0 d) <=? ht_used (ht0 d)) &&
          (dict_can_resize || (dict_force_resize_ratio <? ht_used (ht0 d) / ht_size (ht0 d)))
  then dictExpand d (u64 (ht_used (ht0 d) * 2))
  else (true, d).

(** ** Moving *)

(** [while(d->ht[0].table[d->rehashidx] == NULL)]; [None] returns. *)
Fixpoint rehash_skip (fuel : nat) (empty_visits : Z) d : res (option Z * dict) :=
  match fuel with
  | O => Abort "fuel"
  | S fuel' =>
      b ← get_bucket (ht0 d) (rehashidx d);
      match b with
      | [] =>
          let d := Dict (ht0 d) (ht1 d) (rehashidx d + 1) (iterators d) in
          if empty_visits - 1 =? 0 then mret (None, d) else rehash_skip fuel' (empty_visits - 1) d
      | _ => mret (Some empty_visits, d)
      end
  end.

(** [while(de)] *)
Fixpoint rehash_bucket b d : res dict :=
  match b with
  | [] => mret d
  | (key, val) :: b' =>
      let h := Z.land (hash key) (sizemask (ht1 d)) in
      chain ← get_bucket (ht1 d) h;
      let t0 := DictHt (table (ht0 d)) (ht_size (ht0 d)) (sizemask (ht0 d)) (u64 (ht_used (ht0 d) - 1)) in
      let t1 := set_bucket (ht1 d) h ((key, val) :: chain) (u64 (ht_used (ht1 d) + 1)) in
      rehash_bucket b' (Dict t0 t1 (rehashidx d) (iterators d))
  end.

(** [while(n-- && d->ht[0].used != 0)]; [true] is an early return. *)
Fixpoint rehash_loop (n : nat) (empty_visits : Z) d : res (bool * dict) :=
  match n with
  | O => mret (false, d)
  | S n' =>
      if ht_used (ht0 d) =? 0 then mret (false, d)
      else
        serverAssert (u64 (rehashidx d) <? ht_size (ht0 d)) "d->ht[0].size > (unsigned long)d->rehashidx" ;;
        '(r, d) ← rehash_skip (S (length (table (ht0 d)))) empty_visits d;
        match r with
        | None => mret (true, d)
        | Some empty_visits =>
            b ← get_bucket (ht0 d) (rehashidx d);
            d ← rehash_bucket b d;
            let t0 := set_bucket (ht0 d) (rehashidx d) [] (ht_used (ht0 d)) in
            rehash_loop n' empty_visits (Dict t0 (ht1 d) (rehashidx d + 1) (iterators d))
        end
  end.
Definition dictRehash (n : nat) d : res (bool * dict) :=
  if negb (dictIsRehashing d) then mret (false, d)
  else
    '(early, d) ← rehash_loop n (Z.of_nat n * 10) d;
    if early : bool then mret (true, d)
    else if ht_used (ht0 d) =? 0 then mret (false, Dict (ht1 d) _dictReset (-1) (iterators d))
    else mret (true, d).
Definition _dictRehashStep d : res dict :=
  if iterators d =? 0 then '(_, d) ← dictRehash 1 d; mret d else mret d.

(** ** Looking up, adding and deleting *)

Fixpoint find_key (key : K) b : option V :=
  match b with
  | [] => None
  | (k, v) :: b' => if decide (key = k) then Some v else find_key key b'
  end.

Definition rehash_step_if d : res dict := if dictIsRehashing d then _dictRehashStep d else mret d.

Definition dictFind (key : K) d : res (option V * dict) :=
  if u64 (ht_used (ht0 d) + ht_used (ht1 d)) =? 0 then mret (None, d)
  else
    d ← rehash_step_if d;
    b ← get_bucket (ht0 d) (Z.land (hash key) (sizemask (ht0 d)));
    match find_key key b with
    | Some v => mret (Some v, d)
    | None =>
        if negb (dictIsRehashing d) then mret (None, d)
        else b ← get_bucket (ht1 d) (Z.land (hash key) (sizemask (ht1 d))); mret (find_key key b, d)
    end.

(** The result is -1 with the entry of the key, if there is one, or the index. *)
Definition _dictKeyIndex (dict_can_resize : bool) (key : K) d : res ((option (Z * Z) + Z) * dict) :=
  let '(ok, d) := _dictExpandIfNeeded dict_can_resize d in
  if negb ok then mret (inl None, d)
  else
    let idx := Z.land (hash key) (sizemask (ht0 d)) in
    b ← get_bucket (ht0 d) idx;
    match find_key key b with
    | Some _ => mret (inl (Some (0, idx)), d)
    | None =>
        if negb (dictIsRehashing d) then mret (inr idx, d)
        else
          let idx := Z.land (hash key) (sizemask (ht1 d)) in
          b ← get_bucket (ht1 d) idx;
          match find_key key b with
          | Some _ => mret (inl (Some (1, idx)), d)
          | None => mret (inr idx, d)
          end
    end.

(** [inl] is NULL with [existing]; the value of a new entry is set at once. *)
Definition dictAddRaw (dict_can_resize : bool) (key : K) (val : V) d : res ((option (Z * Z) + unit) * dict) :=
  d ← rehash_step_if d;
  '(r, d) ← _dictKeyIndex dict_can_resize key d;
  match r with
  | inl existing => mret (inl existing, d)
  | inr index =>
      let t := if dictIsRehashing d then ht1 d else ht0 d in
      b ← get_bucket t index;
      let t := set_bucket t index ((key, val) :: b) (u64 (ht_used t + 1)) in
      mret (inr tt, if dictIsRehashing d then Dict (ht0 d) t (rehashidx d) (iterators d)
                    else Dict t (ht1 d) (rehashidx d) (iterators d))
  end.
Definition dictAdd (dict_can_resize : bool) (key : K) (val : V) d : res (bool * dict) :=
  '(r, d) ← dictAddRaw dict_can_resize key val d;
  mret (match r with inl _ => false | inr _ => true end, d).

Fixpoint set_value (key : K) (val : V) b : bucket :=
  match b with
  | [] => []
  | (k, v) :: b' => if decide (key = k) then (k, val) :: b' else (k, v) :: set_value key val b'
  end.

(** An entry that exists gets the value. *)
Definition dictReplace (dict_can_resize : bool) (key : K) (val : V) d : res (bool * dict) :=
  '(r, d) ← dictAddRaw dict_can_resize key val d;
  match r with
  | inr _ => mret (true, d)
  | inl None => Abort "auxentry = *existing"
  | inl (Some (tbl, idx)) =>
      let t := if tbl =? 0 then ht0 d else ht1 d in
      b ← get_bucket t idx;
      let t := set_bucket t idx (set_value key val b) (ht_used t) in
      mret (false, if tbl =? 0 then Dict t (ht1 d) (rehashidx d) (iterators d)
                   else Dict (ht0 d) t (rehashidx d) (iterators d))
  end.

Fixpoint unlink (key : K) b : option (V * bucket) :=
  match b with
  | [] => None
  | (k, v) :: b' =>
      if decide (key = k) then Some (v, b')
      else match unlink key b' with Some (v', b'') => Some (v', (k, v) :: b'') | None => None end
  end.

Definition dictGenericDelete (key : K) d : res (option V * dict) :=
  if (ht_used (ht0 d) =? 0) && (ht_used (ht1 d) =? 0) then mret (None, d)
  else
    d ← rehash_step_if d;
    let idx := Z.land (hash key) (sizemask (ht0 d)) in
    b ← get_bucket (ht0 d) idx;
    match unlink key b with
    | Some (v, b') =>
        mret (Some v, Dict (set_bucket (ht0 d) idx b' (u64 (ht_used (ht0 d) - 1))) (ht1 d) (rehashidx d) (iterators d))
    | None =>
        if negb (dictIsRehashing d) then mret (None, d)
        else
          let idx := Z.land (hash key) (sizemask (ht1 d)) in
          b ← get_bucket (ht1 d) idx;
          match unlink key b with
          | Some (v, b') =>
              mret (Some v, Dict (ht0 d) (set_bucket (ht1 d) idx b' (u64 (ht_used (ht1 d) - 1))) (rehashidx d) (iterators d))
          | None => mret (None, d)
          end
    end.
Definition dictDelete (key : K) d : res (bool * dict) :=
  '(o, d) ← dictGenericDelete key d; mret (bool_decide (is_Some o), d).

Definition dictEmpty d : dict := Dict _dictReset _dictReset (-1) 0.

(** ** Scanning *)

(** [do ... while (v & (m0 ^ m1))]; the larger table has enough buckets for fuel. *)
Fixpoint scan_large (fuel : nat) t1 (m0 m1 v : Z) : res (list (K * V) * Z) :=
  match fuel with
  | O => Abort "fuel"
  | S fuel' =>
      b ← get_bucket t1 (Z.land v m1);
      let v := next_cursor v m1 in
      if Z.land v (Z.lxor m0 m1) =? 0 then mret (b, v)
      else '(l, v) ← scan_large fuel' t1 m0 m1 v; mret (b ++ l, v)
  end.

(** The entries for which [fn] is called, and the next cursor. *)
Definition dictScan d (v : Z) : res (list (K * V) * Z) :=
  if dictSize d =? 0 then mret ([], 0)
  else if negb (dictIsRehashing d) then
    let m0 := sizemask (ht0 d) in
    b ← get_bucket (ht0 d) (Z.land v m0);
    mret (b, next_cursor v m0)
  else
    let '(t0, t1) := if ht_size (ht1 d) <? ht_size (ht0 d) then (ht1 d, ht0 d) else (ht0 d, ht1 d) in
    let m0 := sizemask t0 in
    let m1 := sizemask t1 in
    b ← get_bucket t0 (Z.land v m0);
    '(l, v) ← scan_large (length (table t1)) t1 m0 m1 v;
    mret (b ++ l, v).
End dict.

(** ** Cursors *)

Lemma u64_bit z i : 0 ≤ i < 64 → Z.testbit (u64 z) i = Z.testbit z i.
Proof. intros. unfold u64. apply Z.mod_pow2_bits_low. lia. Qed.
Lemma u64_range z : 0 ≤ u64 z < 2 ^ 64.
Proof. apply Z.mod_pos_bound. lia. Qed.
Lemma bits_above v i : 0 ≤ v < 2 ^ 64 → 64 ≤ i → Z.testbit v i = false.
Proof.
  intros Hv Hi. destruct (decide (v = 0)) as [->|]; [apply Z.bits_0|].
  apply Z.bits_above_log2; [lia|]. assert (Z.log2 v < 64); [|lia]. apply Z.log2_lt_pow2; lia.
Qed.
(** Two words are equal when their 64 bits are. *)
Lemma word_ext x y :
  0 ≤ x < 2 ^ 64 → 0 ≤ y < 2 ^ 64 → (∀ i, 0 ≤ i < 64 → Z.testbit x i = Z.testbit y i) → x = y.
Proof.
  intros Hx Hy Hb. apply Z.bits_inj'. intros i Hi. destruct (decide (i < 64)); [by apply Hb|].
  by rewrite !bits_above by lia.
Qed.

Definition swapped (s mask i : Z) : Z := if Z.testbit mask i then i + s else i - s.
Lemma rev_step_bit s mask v i :
  0 ≤ s → 0 ≤ i < 64 → Z.testbit (rev_step s mask v) i = Z.testbit v (swapped s mask i).
Proof.
  intros Hs Hi. unfold rev_step, swapped. rewrite Z.lor_spec, !Z.land_spec, !u64_bit by done.
  rewrite Z.shiftr_spec, Z.shiftl_spec, Z.lnot_spec by lia.
  destruct (Z.testbit mask i); cbn [negb]; by rewrite ?andb_true_r, ?andb_false_r, ?orb_false_r.
Qed.

Lemma rev_bit v i : 0 ≤ i < 64 → Z.testbit (rev v) i = Z.testbit v (63 - i).
Proof.
  intros Hi.
  assert (rev v = rev_step 1 0x5555555555555555 (rev_step 2 0x3333333333333333 (rev_step 4 0x0f0f0f0f0f0f0f0f
    (rev_step 8 0x00ff00ff00ff00ff (rev_step 16 0x0000ffff0000ffff (rev_step 32 0x00000000ffffffff v)))))) as -> by reflexivity.
  set (in64 := fun i => (0 <=? i) && (i <? 64)).
  assert (∀ i, in64 i = true → 0 ≤ i < 64) as Hin by (intros j Hj; unfold in64 in Hj; lia).
  assert (forallb (fun n => let i := Z.of_nat n in
      let i1 := swapped 1 0x5555555555555555 i in let i2 := swapped 2 0x3333333333333333 i1 in
      let i3 := swapped 4 0x0f0f0f0f0f0f0f0f i2 in let i4 := swapped 8 0x00ff00ff00ff00ff i3 in
      let i5 := swapped 16 0x0000ffff0000ffff i4 in
      in64 i1 && in64 i2 && in64 i3 && in64 i4 && in64 i5 && (swapped 32 0x00000000ffffffff i5 =? 63 - i)) (seq 0 64) = true)
    as Hall by (by vm_compute).
  rewrite forallb_forall in Hall. specialize (Hall (Z.to_nat i)). rewrite Z2Nat.id in Hall by lia.
  specialize (Hall ltac:(apply in_seq; lia)). cbv zeta in Hall. rewrite !andb_true_iff in Hall.
  destruct Hall as [[[[[H1%Hin H2%Hin] H3%Hin] H4%Hin] H5%Hin] H6%Z.eqb_eq].
  by rewrite !rev_step_bit, H6 by (done || lia).
Qed.

Lemma word_range x : 0 ≤ x → (∀ i, 64 ≤ i → Z.testbit x i = false) → 0 ≤ x < 2 ^ 64.
Proof.
  intros Hx Hb. enough (x = u64 x) as -> by apply u64_range. apply Z.bits_inj'. intros i Hi.
  destruct (decide (i < 64)); [by rewrite u64_bit|]. rewrite Hb by lia. symmetry. apply bits_above; [apply u64_range|lia].
Qed.
Lemma rev_step_range s mask v : 0 ≤ mask < 2 ^ 64 → 0 ≤ rev_step s mask v < 2 ^ 64.
Proof.
  intros Hm. pose proof (u64_range (Z.shiftl v s)). apply word_range.
  - apply Z.lor_nonneg. split; apply Z.land_nonneg; [right; lia|left; lia].
  - intros i Hi. unfold rev_step. rewrite Z.lor_spec, !Z.land_spec, (bits_above mask) by done.
    rewrite (bits_above (u64 (Z.shiftl v s))) by done. by rewrite andb_false_r.
Qed.
Lemma rev_range v : 0 ≤ rev v < 2 ^ 64.
Proof.
  assert (rev v = rev_step 1 0x5555555555555555 (rev_step 2 0x3333333333333333 (rev_step 4 0x0f0f0f0f0f0f0f0f
    (rev_step 8 0x00ff00ff00ff00ff (rev_step 16 0x0000ffff0000ffff (rev_step 32 0x00000000ffffffff v)))))) as -> by reflexivity.
  apply rev_step_range. lia.
Qed.
Lemma rev_rev v : 0 ≤ v < 2 ^ 64 → rev (rev v) = v.
Proof.
  intros Hv. apply word_ext; [apply rev_range|done|]. intros i Hi. rewrite !rev_bit by lia. f_equal. lia.
Qed.
Lemma rev_0 : rev 0 = 0.
Proof. by vm_compute. Qed.
#[local] Opaque rev.

(** The mask of a table with [2 ^ b] buckets. *)
Definition mask (b : Z) : Z := 2 ^ b - 1.
Lemma mask_bit b i : 0 ≤ b → 0 ≤ i → Z.testbit (mask b) i = (i <? b).
Proof.
  intros Hb Hi. unfold mask.
  replace (2 ^ b - 1) with (Z.ones b) by (rewrite Z.ones_equiv; lia). by rewrite Z.testbit_ones_nonneg.
Qed.

(** Keys whose reversed hashes begin with the same bits are in the same bucket. *)
Lemma same_bucket h v b :
  0 ≤ b ≤ 64 → rev h / 2 ^ (64 - b) = rev v / 2 ^ (64 - b) → Z.land h (mask b) = Z.land v (mask b).
Proof.
  intros Hb He. apply Z.bits_inj'. intros i Hi. rewrite !Z.land_spec, mask_bit by lia.
  destruct (Z.ltb_spec i b); [|by rewrite !andb_false_r]. rewrite !andb_true_r.
  apply (f_equal (fun z => Z.testbit z (b - 1 - i))) in He.
  rewrite <- !Z.shiftr_div_pow2, !Z.shiftr_spec in He by lia.
  replace (b - 1 - i + (64 - b)) with (63 - i) in He by lia. rewrite !rev_bit in He by lia.
  by replace (63 - (63 - i)) with i in He by lia.
Qed.

Lemma bucket_same h v b :
  0 ≤ b ≤ 64 → 0 ≤ h < 2 ^ 64 → 0 ≤ v < 2 ^ 64 → Z.land h (mask b) = Z.land v (mask b) →
  rev h / 2 ^ (64 - b) = rev v / 2 ^ (64 - b).
Proof.
  intros Hb Hh Hv He. rewrite <- !Z.shiftr_div_pow2 by lia. apply Z.bits_inj'. intros i Hi. rewrite !Z.shiftr_spec by done.
  destruct (decide (i + (64 - b) < 64)); [|rewrite !bits_above; [done|apply rev_range|lia|apply rev_range|lia]].
  rewrite !rev_bit by lia. apply (f_equal (fun z => Z.testbit z (63 - (i + (64 - b))))) in He.
  rewrite !Z.land_spec, mask_bit, (proj2 (Z.ltb_lt _ _)), !andb_true_r in He by lia. done.
Qed.

(** The end of the block of [2 ^ (64 - b)] reversed hashes in which [r] is. *)
Definition block_end (b r : Z) : Z := (r / 2 ^ (64 - b) + 1) * 2 ^ (64 - b).

Lemma block_end_range b r : 0 ≤ b ≤ 64 → 0 ≤ r < 2 ^ 64 → r < block_end b r ≤ 2 ^ 64.
Proof.
  intros Hb Hr. unfold block_end. assert (0 < 2 ^ (64 - b)) as Hp by (apply Z.pow_pos_nonneg; lia).
  pose proof (Z.div_mod r (2 ^ (64 - b)) ltac:(lia)). pose proof (Z.mod_pos_bound r (2 ^ (64 - b)) Hp).
  assert (r / 2 ^ (64 - b) < 2 ^ b) as Hq.
  { apply Z.div_lt_upper_bound; [done|]. rewrite <- Z.pow_add_r by lia. replace (64 - b + b) with 64 by lia. lia. }
  assert (2 ^ 64 = 2 ^ b * 2 ^ (64 - b)) as He by (rewrite <- Z.pow_add_r by lia; f_equal; lia). nia.
Qed.

Lemma unmasked_ones v b :
  0 ≤ b ≤ 64 → 0 ≤ v < 2 ^ 64 → rev (Z.lor v (u64 (Z.lnot (mask b)))) + 1 = block_end b (rev v).
Proof.
  intros Hb Hv. set (x := rev (Z.lor v (u64 (Z.lnot (mask b))))). set (n := 64 - b).
  assert (0 < 2 ^ n) as Hp by (apply Z.pow_pos_nonneg; lia).
  assert (∀ i, 0 ≤ i < 64 → Z.testbit x i = Z.testbit (rev v) i || (i <? n)) as Hx.
  { intros i Hi. unfold x. rewrite rev_bit, Z.lor_spec, u64_bit, Z.lnot_spec, mask_bit, rev_bit by lia. f_equal.
    unfold n. destruct (Z.ltb_spec (63 - i) b), (Z.ltb_spec i (64 - b)); cbn; lia. }
  pose proof (rev_range v) as Hr. pose proof (rev_range (Z.lor v (u64 (Z.lnot (mask b))))) as Hxr. fold x in Hxr.
  assert (x / 2 ^ n = rev v / 2 ^ n) as Hdiv.
  { rewrite <- !Z.shiftr_div_pow2 by lia. apply Z.bits_inj'. intros i Hi. rewrite !Z.shiftr_spec by done.
    destruct (decide (i + n < 64)); [|by rewrite !bits_above by lia]. rewrite Hx by lia.
    rewrite (proj2 (Z.ltb_ge _ _)) by lia. by rewrite orb_false_r. }
  assert (x mod 2 ^ n = 2 ^ n - 1) as Hmod.
  { rewrite <- Z.land_ones by lia. replace (2 ^ n - 1) with (Z.ones n) by (rewrite Z.ones_equiv; lia).
    apply Z.bits_inj'. intros i Hi. rewrite Z.land_spec. destruct (decide (i < n)).
    - rewrite Z.ones_spec_low, Hx by lia. rewrite (proj2 (Z.ltb_lt _ _)) by lia. by rewrite orb_true_r.
    - by rewrite Z.ones_spec_high, andb_false_r by lia. }
  unfold block_end. fold n. rewrite <- Hdiv. pose proof (Z.div_mod x (2 ^ n) ltac:(lia)). lia.
Qed.

Lemma next_cursor_rev v b :
  0 ≤ b ≤ 64 → 0 ≤ v < 2 ^ 64 →
  0 ≤ next_cursor v (mask b) < 2 ^ 64 ∧ rev (next_cursor v (mask b)) = u64 (block_end b (rev v)).
Proof.
  intros Hb Hv. unfold next_cursor. rewrite unmasked_ones by done. split; [apply rev_range|].
  apply rev_rev, u64_range.
Qed.

Lemma rev_inj_0 v : 0 ≤ v < 2 ^ 64 → rev v = 0 → v = 0.
Proof. intros Hv H. rewrite <- (rev_rev v Hv), H. apply rev_0. Qed.

(** The test of the loop over the larger table. *)
Lemma mask_difference v b0 b1 :
  0 ≤ b0 ≤ b1 → b1 ≤ 64 → 0 ≤ v < 2 ^ 64 → rev v mod 2 ^ (64 - b1) = 0 →
  (Z.land v (Z.lxor (mask b0) (mask b1)) = 0 ↔ rev v mod 2 ^ (64 - b0) = 0).
Proof.
  intros Hb Hb1 Hv Hlow.
  assert (∀ i, 0 ≤ i → Z.testbit (Z.land v (Z.lxor (mask b0) (mask b1))) i = Z.testbit v i && (b0 <=? i) && (i <? b1)) as Hl.
  { intros i Hi. rewrite Z.land_spec, Z.lxor_spec, !mask_bit by lia. rewrite <- andb_assoc. f_equal.
    destruct (Z.ltb_spec i b0), (Z.ltb_spec i b1), (Z.leb_spec b0 i); cbn; lia. }
  assert (∀ b i, 0 ≤ b ≤ 64 → 0 ≤ i → Z.testbit (rev v mod 2 ^ (64 - b)) i = Z.testbit (rev v) i && (i <? 64 - b)) as Hm.
  { intros b i Hb' Hi. destruct (Z.ltb_spec i (64 - b)).
    - by rewrite Z.mod_pow2_bits_low, andb_true_r by lia.
    - by rewrite Z.mod_pow2_bits_high, andb_false_r by lia. }
  split.
  - intros Hz. apply Z.bits_inj'. intros i Hi. rewrite Hm, Z.bits_0 by lia.
    destruct (Z.ltb_spec i (64 - b0)); [|by rewrite andb_false_r]. rewrite andb_true_r.
    destruct (decide (i < 64 - b1)).
    + pose proof (Hm b1 i ltac:(lia) Hi) as H'. rewrite Hlow, Z.bits_0, (proj2 (Z.ltb_lt _ _)), andb_true_r in H' by lia. done.
    + rewrite rev_bit by lia. pose proof (Hl (63 - i) ltac:(lia)) as H'.
      rewrite Hz, Z.bits_0, (proj2 (Z.leb_le _ _)), (proj2 (Z.ltb_lt _ _)), !andb_true_r in H' by lia. done.
  - intros Hz. apply Z.bits_inj'. intros i Hi. rewrite Hl, Z.bits_0 by lia.
    destruct (Z.leb_spec b0 i), (Z.ltb_spec i b1); rewrite ?andb_false_r; try done. rewrite !andb_true_r.
    pose proof (Hm b0 (63 - i) ltac:(lia) ltac:(lia)) as H'.
    rewrite Hz, Z.bits_0, (proj2 (Z.ltb_lt _ _)), andb_true_r, rev_bit in H' by lia. by replace (63 - (63 - i)) with i in H' by lia.
Qed.

(** ** What a dictionary is *)

Section invariant.
Context {K V : Type} `{Countable K}.
Variable hash : K → Z.
Hypothesis hash_range : ∀ k, 0 ≤ hash k < 2 ^ 64.

Abbreviation dictht := (@dictht K V).
Abbreviation dict := (@dict K V).
Implicit Types (t : dictht) (d : dict).

(** A table: its number of buckets is a power of two, and every entry is in the bucket of its hash. *)
Record table_ok t (b : Z) : Prop := TableOk {
  tab_bits : 2 ≤ b ≤ 62;
  tab_size : ht_size t = 2 ^ b;
  tab_mask : sizemask t = mask b;
  tab_len : Z.of_nat (length (table t)) = 2 ^ b;
  tab_place : ∀ i l, table t !! i = Some l → Forall (fun e => Z.land (hash e.1) (mask b) = Z.of_nat i) l;
  tab_used : ht_used t = Z.of_nat (length (concat (table t)))
}.

Definition entries d : list (K * V) := concat (table (ht0 d)) ++ concat (table (ht1 d)).

(** The three shapes: without tables, with one table, and with two. *)
Inductive shape d : Prop :=
| NoTable : ht0 d = _dictReset → ht1 d = _dictReset → rehashidx d = -1 → shape d
| OneTable b : table_ok (ht0 d) b → ht1 d = _dictReset → rehashidx d = -1 → shape d
| TwoTables b b' :
    table_ok (ht0 d) b → table_ok (ht1 d) b' → 0 ≤ rehashidx d ≤ 2 ^ b →
    (∀ i, Z.of_nat i < rehashidx d → table (ht0 d) !! i = Some []) → shape d.

Record dict_ok d : Prop := DictOk {
  dict_shape : shape d;
  dict_keys : NoDup (entries d).*1;
  dict_small : Z.of_nat (length (entries d)) < 2 ^ 60
}.

Lemma get_bucket_ok t b v :
  table_ok t b → ∃ l, get_bucket t (Z.land v (mask b)) = Ok l ∧ table t !! Z.to_nat (Z.land v (mask b)) = Some l.
Proof.
  intros Ht. pose proof (tab_bits _ _ Ht) as Hb. assert (0 ≤ Z.land v (mask b) < 2 ^ b) as Hi.
  { unfold mask. replace (2 ^ b - 1) with (Z.ones b) by (rewrite Z.ones_equiv; lia). rewrite Z.land_ones by lia.
    apply Z.mod_pos_bound. apply Z.pow_pos_nonneg; lia. }
  pose proof (tab_len _ _ Ht) as Hl. unfold get_bucket. rewrite (proj2 (Z.leb_le _ _)), (proj2 (Z.ltb_lt _ _)) by lia. cbn [andb].
  destruct (lookup_lt_is_Some_2 (table t) (Z.to_nat (Z.land v (mask b)))) as [l Hlk]; [lia|]. rewrite Hlk. by exists l.
Qed.

Lemma elem_of_concat (e : K * V) ls : e ∈ concat ls ↔ ∃ i l, ls !! i = Some l ∧ e ∈ l.
Proof.
  rewrite list_elem_of_In, in_concat. split.
  - intros (l & Hl & He). apply list_elem_of_In in Hl, He. apply list_elem_of_lookup in Hl as [i Hi]. eauto.
  - intros (i & l & Hi & He). exists l. split; apply list_elem_of_In; [by eapply list_elem_of_lookup_2|done].
Qed.

(** An entry is found in its bucket. *)
Lemma entry_in_bucket t b e l :
  table_ok t b → e ∈ concat (table t) → table t !! Z.to_nat (Z.land (hash e.1) (mask b)) = Some l → e ∈ l.
Proof.
  intros Ht (i & l' & Hi & He)%elem_of_concat Hl. pose proof (tab_place _ _ Ht i l' Hi) as Hp.
  rewrite Forall_forall in Hp. specialize (Hp e He). cbn in Hp. rewrite Hp, Nat2Z.id in Hl. congruence.
Qed.

(** *** Scanning *)

(** What a call has to return: all entries from the cursor up to [R], and exactly these
    when the cursor is at the beginning of a bucket. *)
Definition in_block (r R : Z) (e : K * V) : Prop := r ≤ rev (hash e.1) < R.
#[local] Instance in_block_dec r R e : Decision (in_block r R e).
Proof. unfold in_block. apply _. Defined.
Record scanned (es l : list (K * V)) (r R : Z) (aligned : Prop) : Prop := Scanned {
  scan_in : ∀ e, e ∈ es → in_block r R e → e ∈ l;
  scan_sub : ∀ e, e ∈ l → e ∈ es;
  scan_exact : aligned → l ≡ₚ filter (in_block r R) es
}.
(** The cursor that stands for [R]. *)
Definition cursor_at (v R : Z) : Prop := 0 ≤ v < 2 ^ 64 ∧ (R < 2 ^ 64 ∧ rev v = R ∨ R = 2 ^ 64 ∧ v = 0).

Lemma next_cursor_at v b :
  0 ≤ b ≤ 64 → 0 ≤ v < 2 ^ 64 → cursor_at (next_cursor v (mask b)) (block_end b (rev v)).
Proof.
  intros Hb Hv. destruct (next_cursor_rev v b Hb Hv) as [Hr He]. pose proof (rev_range v) as Hrv.
  pose proof (block_end_range b (rev v) Hb Hrv) as Hbe. split; [done|].
  destruct (decide (block_end b (rev v) = 2 ^ 64)) as [Hz|].
  - right. split; [done|]. apply rev_inj_0; [done|]. by rewrite He, Hz.
  - left. split; [lia|]. rewrite He. apply Z.mod_small. lia.
Qed.

(** The block of a cursor has the hashes of one bucket. *)
Lemma block_bucket b h v :
  0 ≤ b ≤ 64 → rev v ≤ rev h < block_end b (rev v) → Z.land h (mask b) = Z.land v (mask b).
Proof.
  intros Hb Hr. apply same_bucket; [lia|]. unfold block_end in Hr.
  assert (0 < 2 ^ (64 - b)) as Hp by (apply Z.pow_pos_nonneg; lia).
  pose proof (Z.div_mod (rev v) (2 ^ (64 - b)) ltac:(lia)). pose proof (Z.mod_pos_bound (rev v) (2 ^ (64 - b)) Hp).
  symmetry. apply Z.div_unique with (rev h - rev v / 2 ^ (64 - b) * 2 ^ (64 - b)); lia.
Qed.
Lemma bucket_block b h v :
  0 ≤ b ≤ 64 → 0 ≤ h < 2 ^ 64 → 0 ≤ v < 2 ^ 64 → rev v mod 2 ^ (64 - b) = 0 →
  Z.land h (mask b) = Z.land v (mask b) → rev v ≤ rev h < block_end b (rev v).
Proof.
  intros Hb Hh Hv Hm He. apply bucket_same in He; [|done..]. unfold block_end. rewrite <- He.
  assert (0 < 2 ^ (64 - b)) as Hp by (apply Z.pow_pos_nonneg; lia).
  pose proof (Z.div_mod (rev h) (2 ^ (64 - b)) ltac:(lia)). pose proof (Z.mod_pos_bound (rev h) (2 ^ (64 - b)) Hp).
  pose proof (Z.div_mod (rev v) (2 ^ (64 - b)) ltac:(lia)). lia.
Qed.

Lemma filter_none (P : K * V → Prop) `{∀ e, Decision (P e)} (es : list (K * V)) : (∀ e, e ∈ es → ¬ P e) → filter P es = [].
Proof.
  induction es as [|e es IH]; intros Hn; [done|]. rewrite filter_cons_False by (apply Hn, list_elem_of_here).
  apply IH. intros e' He'. apply Hn. by apply list_elem_of_further.
Qed.
Lemma filter_all (P : K * V → Prop) `{∀ e, Decision (P e)} (es : list (K * V)) : (∀ e, e ∈ es → P e) → filter P es = es.
Proof.
  induction es as [|e es IH]; intros Hn; [done|]. rewrite filter_cons_True by (apply Hn, list_elem_of_here). f_equal.
  apply IH. intros e' He'. apply Hn. by apply list_elem_of_further.
Qed.

Lemma bucket_scanned t b v l :
  table_ok t b → 0 ≤ v < 2 ^ 64 → table t !! Z.to_nat (Z.land v (mask b)) = Some l →
  scanned (concat (table t)) l (rev v) (block_end b (rev v)) (rev v mod 2 ^ (64 - b) = 0).
Proof.
  intros Ht Hv Hl. pose proof (tab_bits _ _ Ht) as Hb.
  assert (0 ≤ Z.land v (mask b)) as Hpos.
  { apply Z.land_nonneg. right. unfold mask. pose proof (Z.pow_pos_nonneg 2 b). lia. }
  split.
  - intros e He Hr. eapply entry_in_bucket; [done..|]. rewrite <- Hl. do 2 f_equal. by apply block_bucket; [lia|].
  - intros e He. apply elem_of_concat. eauto.
  - intros Ha. set (i := Z.to_nat (Z.land v (mask b))) in *. rewrite <- (take_drop_middle (table t) i l Hl).
    rewrite concat_app. cbn [concat]. rewrite !filter_app.
    assert (∀ j lj e, table t !! j = Some lj → e ∈ lj → in_block (rev v) (block_end b (rev v)) e ↔ j = i) as Hj.
    { intros j lj e Hlj He. pose proof (tab_place _ _ Ht j lj Hlj) as Hp. rewrite Forall_forall in Hp. specialize (Hp e He). cbn in Hp.
      split; [intros Hin%block_bucket; [unfold i; lia|lia]|]. intros ->. apply bucket_block; [lia|done..|]. rewrite Hp. unfold i. lia. }
    rewrite (filter_none _ (concat (take i _))), (filter_all _ l), (filter_none _ (concat (drop (S i) _))); [by rewrite app_nil_r|..].
    + intros e (j & lj & Hlj & He)%elem_of_concat. rewrite lookup_drop in Hlj. rewrite (Hj _ _ _ Hlj He). lia.
    + intros e He. by rewrite (Hj _ _ _ Hl He).
    + intros e (j & lj & Hlj & He)%elem_of_concat. apply lookup_take_Some in Hlj as [Hlj ?]. rewrite (Hj _ _ _ Hlj He). lia.
Qed.

(** Two blocks one after the other. *)
Lemma filter_blocks r R1 R (es : list (K * V)) :
  r ≤ R1 ≤ R → filter (in_block r R) es ≡ₚ filter (in_block r R1) es ++ filter (in_block R1 R) es.
Proof.
  intros HR. induction es as [|e es IH]; [done|]. rewrite !filter_cons.
  destruct (decide (in_block r R e)) as [H1|H1], (decide (in_block r R1 e)) as [H2|H2], (decide (in_block R1 R e)) as [H3|H3];
    unfold in_block in H1, H2, H3; try (exfalso; lia); rewrite IH; [done|by rewrite Permutation_middle|done].
Qed.

Lemma block_end_coarse b0 b1 r :
  0 ≤ b0 ≤ b1 → b1 ≤ 64 → 0 ≤ r < 2 ^ 64 →
  block_end b1 r ≤ block_end b0 r ∧
  (block_end b1 r mod 2 ^ (64 - b0) = 0 → block_end b1 r = block_end b0 r) ∧
  (block_end b1 r < block_end b0 r → block_end b0 (block_end b1 r) = block_end b0 r) ∧
  (∃ q, block_end b0 r = q * 2 ^ (64 - b1)) ∧ block_end b0 r - r ≤ 2 ^ (b1 - b0) * 2 ^ (64 - b1).
Proof.
  intros Hb Hb1 Hr. unfold block_end.
  assert (2 ^ (64 - b0) = 2 ^ (b1 - b0) * 2 ^ (64 - b1)) as He by (rewrite <- Z.pow_add_r by lia; f_equal; lia).
  assert (0 < 2 ^ (64 - b1)) as Hp1 by (apply Z.pow_pos_nonneg; lia).
  assert (0 < 2 ^ (b1 - b0)) as Hp2 by (apply Z.pow_pos_nonneg; lia).
  set (N := 2 ^ (64 - b0)) in *. set (n := 2 ^ (64 - b1)) in *. set (c := 2 ^ (b1 - b0)) in *.
  pose proof (Z.div_mod r N ltac:(nia)) as HN. pose proof (Z.mod_pos_bound r N ltac:(nia)) as HN'.
  pose proof (Z.div_mod r n ltac:(lia)) as Hn. pose proof (Z.mod_pos_bound r n Hp1) as Hn'.
  set (Q := r / N) in *. set (q := r / n) in *.
  assert (q + 1 ≤ (Q + 1) * c) as H1 by nia.
  assert (Q * c ≤ q) as H2 by nia.
  split_and!.
  - nia.
  - intros Hm. apply Z.mod_divide in Hm as [k Hk]; [|nia]. assert (k = Q + 1) by nia. nia.
  - intros Hlt. assert ((q + 1) * n / N = Q) as ->; [|done]. symmetry. apply Z.div_unique with ((q + 1) * n - N * Q); nia.
  - exists ((Q + 1) * c). nia.
  - nia.
Qed.

Lemma scan_large_ok t1 b0 b1 fuel : ∀ v,
  table_ok t1 b1 → 0 ≤ b0 ≤ b1 → 0 ≤ v < 2 ^ 64 →
  block_end b0 (rev v) - rev v ≤ Z.of_nat fuel * 2 ^ (64 - b1) →
  ∃ l v', scan_large fuel t1 (mask b0) (mask b1) v = Ok (l, v') ∧
    scanned (concat (table t1)) l (rev v) (block_end b0 (rev v)) (rev v mod 2 ^ (64 - b1) = 0) ∧
    cursor_at v' (block_end b0 (rev v)).
Proof.
  induction fuel as [|fuel IH]; intros v Ht Hb Hv Hf; pose proof (tab_bits _ _ Ht) as Hb1; pose proof (rev_range v) as Hr.
  { pose proof (block_end_range b0 (rev v) ltac:(lia) Hr). lia. }
  cbn [scan_large]. destruct (get_bucket_ok t1 b1 v Ht) as (l & -> & Hl). cbn [mbind res_bind].
  destruct (bucket_scanned t1 b1 v l Ht Hv Hl) as [Hin Hsub Hex].
  destruct (next_cursor_at v b1 ltac:(lia) Hv) as [Hv' Hat]. set (v' := next_cursor v (mask b1)) in *.
  destruct (block_end_coarse b0 b1 (rev v) ltac:(lia) ltac:(lia) Hr) as (Hle & Hmult & Hnext & [q Hq] & _).
  assert (0 < 2 ^ (64 - b1)) as Hp by (apply Z.pow_pos_nonneg; lia).
  assert (rev v' mod 2 ^ (64 - b1) = 0) as Hlow.
  { destruct Hat as [[_ ->]|[_ ->]]; [apply Z.mod_mul; lia|by rewrite rev_0]. }
  pose proof (mask_difference v' b0 b1 ltac:(lia) ltac:(lia) Hv' Hlow) as Htest.
  destruct (Z.eqb_spec (Z.land v' (Z.lxor (mask b0) (mask b1))) 0) as [Hz|Hz].
  - assert (block_end b1 (rev v) = block_end b0 (rev v)) as He.
    { destruct Hat as [[_ He]|[He _]].
      - apply Hmult. rewrite <- He. by apply Htest.
      - pose proof (block_end_range b0 (rev v) ltac:(lia) Hr). lia. }
    exists l, v'. split; [done|]. rewrite <- He. by split.
  - destruct Hat as [[Hlt He]|[_ He]]; [|by rewrite He in Hz].
    assert (block_end b1 (rev v) < block_end b0 (rev v)) as Hlt'.
    { destruct (decide (block_end b1 (rev v) = block_end b0 (rev v))) as [Heq|]; [|lia]. exfalso. apply Hz, Htest.
      rewrite He, Heq. apply Z.mod_mul. pose proof (Z.pow_pos_nonneg 2 (64 - b0) ltac:(lia) ltac:(lia)). lia. }
    specialize (Hnext Hlt'). rewrite <- He in Hnext.
    destruct (IH v' Ht Hb Hv') as (l' & v'' & -> & [Hin' Hsub' Hex'] & Hat'').
    { rewrite Hnext, Hq, He. rewrite Hq in Hf. pose proof (block_end_range b1 (rev v) ltac:(lia) Hr) as Hbe.
      unfold block_end in Hbe |- *. set (n := 2 ^ (64 - b1)) in *. set (q1 := rev v / n) in *.
      assert (q - (q1 + 1) < Z.of_nat (S fuel)) by (apply (Z.mul_lt_mono_pos_r n); lia).
      rewrite <- Z.mul_sub_distr_r. apply Z.mul_le_mono_nonneg_r; lia. }
    cbn [mbind res_bind mret res_ret]. exists (l ++ l'), v''. split; [done|]. rewrite Hnext in Hat'', Hin', Hex'. split; [|done]. split.
    + intros e Hine Hre. unfold in_block in *. apply elem_of_app. destruct (decide (rev (hash e.1) < block_end b1 (rev v))).
      * left. apply Hin; [done|lia].
      * right. apply Hin'; [done|]. rewrite He. lia.
    + intros e [?|?]%elem_of_app; auto.
    + intros Ha. rewrite Hex, Hex' by done. rewrite He. symmetry. apply filter_blocks.
      pose proof (block_end_range b1 (rev v) ltac:(lia) Hr). lia.
Qed.

Lemma used_total d : dict_ok d → ht_used (ht0 d) + ht_used (ht1 d) = Z.of_nat (length (entries d)).
Proof.
  intros [Hs _ _]. unfold entries. rewrite length_app. destruct Hs as [H0 H1 _|b H0 H1 _|b b' H0 H1 _ _].
  - by rewrite H0, H1.
  - rewrite H1, (tab_used _ _ H0). cbn. lia.
  - rewrite (tab_used _ _ H0), (tab_used _ _ H1). lia.
Qed.

(** The number of bits of an index of the smaller table. *)
Definition scan_bits d : Z :=
  Z.log2 (if dictIsRehashing d then Z.min (ht_size (ht0 d)) (ht_size (ht1 d)) else ht_size (ht0 d)).

Lemma table_bits t b : table_ok t b → Z.log2 (ht_size t) = b.
Proof. intros Ht. pose proof (tab_bits _ _ Ht). rewrite (tab_size _ _ Ht). apply Z.log2_pow2. lia. Qed.

(** One call of [dictScan] returns all entries between the old and the new cursor. *)
Lemma dictScan_ok d v :
  dict_ok d → 0 ≤ v < 2 ^ 64 → entries d ≠ [] →
  2 ≤ scan_bits d ≤ 62 ∧
  ∃ l v', dictScan d v = Ok (l, v') ∧
    scanned (entries d) l (rev v) (block_end (scan_bits d) (rev v)) (rev v mod 2 ^ (64 - scan_bits d) = 0) ∧
    cursor_at v' (block_end (scan_bits d) (rev v)).
Proof.
  intros Hok Hv Hne. pose proof (used_total d Hok) as Hu. destruct Hok as [Hs Hk Hsm]. pose proof (rev_range v) as Hr.
  unfold dictScan, dictSize, scan_bits.
  assert (0 < Z.of_nat (length (entries d))) as Hlen by (destruct (entries d); [done|cbn [length]; lia]).
  assert (u64 (ht_used (ht0 d) + ht_used (ht1 d)) ≠ 0) as Hnz by (unfold u64; rewrite Z.mod_small by lia; lia).
  rewrite (proj2 (Z.eqb_neq _ _)) by done. unfold dictIsRehashing.
  destruct Hs as [H0 H1 Hi|b H0 H1 Hi|b b' H0 H1 Hi _].
  - exfalso. apply Hne. unfold entries. by rewrite H0, H1.
  - rewrite Hi. cbn [Z.eqb Pos.eqb negb]. rewrite (table_bits _ _ H0), (tab_mask _ _ H0).
    destruct (get_bucket_ok (ht0 d) b v H0) as (l & -> & Hl). cbn [mbind res_bind mret res_ret].
    pose proof (tab_bits _ _ H0). split; [done|]. exists l, (next_cursor v (mask b)). split; [done|].
    split; [|apply next_cursor_at; lia].
    unfold entries. rewrite H1. cbn [table _dictReset concat]. rewrite app_nil_r. by eapply bucket_scanned.
  - rewrite (proj2 (Z.eqb_neq (rehashidx d) (-1))) by lia. cbn [negb].
    assert (∀ t0 t1 b0 b1, table_ok t0 b0 → table_ok t1 b1 → b0 ≤ b1 → entries d ≡ₚ concat (table t0) ++ concat (table t1) →
      ∃ l v', (b ← get_bucket t0 (Z.land v (sizemask t0));
          '(l, v) ← scan_large (length (table t1)) t1 (sizemask t0) (sizemask t1) v; mret (b ++ l, v)) = Ok (l, v') ∧
        scanned (entries d) l (rev v) (block_end b0 (rev v)) (rev v mod 2 ^ (64 - b0) = 0) ∧ cursor_at v' (block_end b0 (rev v))) as Hgen.
    { intros t0 t1 b0 b1 Ht0 Ht1 Hb01 Hp. rewrite (tab_mask _ _ Ht0), (tab_mask _ _ Ht1).
      pose proof (tab_bits _ _ Ht0). pose proof (tab_bits _ _ Ht1).
      destruct (get_bucket_ok t0 b0 v Ht0) as (l & -> & Hl). cbn [mbind res_bind].
      destruct (block_end_coarse b0 b1 (rev v) ltac:(lia) ltac:(lia) Hr) as (_ & _ & _ & _ & Hfuel).
      destruct (scan_large_ok t1 b0 b1 (length (table t1)) v Ht1 ltac:(lia) Hv) as (l' & v' & -> & [Hin' Hsub' Hex'] & Hat).
      { rewrite (tab_len _ _ Ht1). etrans; [exact Hfuel|]. apply Z.mul_le_mono_nonneg_r; [apply Z.pow_nonneg; lia|].
        apply Z.pow_le_mono_r; lia. }
      cbn [mbind res_bind mret res_ret]. exists (l ++ l'), v'. split; [done|].
      split; [|done]. destruct (bucket_scanned t0 b0 v l Ht0 Hv Hl) as [Hin Hsub Hex]. split.
      - intros e. rewrite Hp, !elem_of_app. intros [He|He] Hre; [left; by apply Hin|right; by apply Hin'].
      - intros e. rewrite Hp, !elem_of_app. intros [He|He]; [left; by apply Hsub|right; by apply Hsub'].
      - intros Ha. rewrite Hp, filter_app, Hex, Hex'; [done| |done].
        apply Z.mod_divide in Ha as [q Hq]; [|pose proof (Z.pow_pos_nonneg 2 (64 - b0)); lia]. rewrite Hq.
        replace (64 - b0) with (b1 - b0 + (64 - b1)) by lia. rewrite Z.pow_add_r, Z.mul_assoc by lia. apply Z.mod_mul.
        pose proof (Z.pow_pos_nonneg 2 (64 - b1)). lia. }
    pose proof (tab_bits _ _ H0). pose proof (tab_bits _ _ H1).
    destruct (Z.ltb_spec (ht_size (ht1 d)) (ht_size (ht0 d))) as [Hlt|Hge].
    + rewrite Z.min_r, (table_bits _ _ H1) by lia. split; [done|].
      apply (Hgen (ht1 d) (ht0 d) b' b); [done..| |apply Permutation_app_comm].
      rewrite (tab_size _ _ H0), (tab_size _ _ H1) in Hlt. apply Z.pow_lt_mono_r_iff in Hlt; lia.
    + rewrite Z.min_l, (table_bits _ _ H0) by lia. split; [done|].
      apply (Hgen (ht0 d) (ht1 d) b b'); [done..| |done].
      rewrite (tab_size _ _ H0), (tab_size _ _ H1) in Hge. apply Z.pow_le_mono_r_iff in Hge; lia.
Qed.

(** *** Changing a bucket *)

Lemma concat_change (ls : list (list (K * V))) i l :
  ls !! i = Some l → ∃ rest, concat ls ≡ₚ l ++ rest ∧ ∀ l', concat (<[i := l']> ls) ≡ₚ l' ++ rest.
Proof.
  intros Hi. exists (concat (take i ls) ++ concat (drop (S i) ls)). split.
  - rewrite <- (take_drop_middle ls i l Hi) at 1. rewrite concat_app. cbn [concat]. by rewrite Permutation_app_swap_app.
  - intros l'. rewrite insert_take_drop by (by eapply lookup_lt_Some). rewrite concat_app. cbn [concat].
    by rewrite Permutation_app_swap_app.
Qed.

(** A bucket is replaced by entries that belong there. *)
Lemma table_set t b i l l' used :
  table_ok t b → 0 ≤ i → table t !! Z.to_nat i = Some l → Forall (fun e => Z.land (hash e.1) (mask b) = i) l' →
  used = ht_used t - Z.of_nat (length l) + Z.of_nat (length l') →
  table_ok (set_bucket t i l' used) b ∧
  ∃ rest, concat (table t) ≡ₚ l ++ rest ∧ concat (table (set_bucket t i l' used)) ≡ₚ l' ++ rest.
Proof.
  intros [H1 H2 H3 H4 H5 H6] Hi Hl Hl' Hu. destruct (concat_change _ _ _ Hl) as (rest & Hp & Hp'). specialize (Hp' l').
  split; [|exists rest; by split]. split; try done; cbn [set_bucket table ht_used].
  - by rewrite length_insert.
  - intros j lj Hj. apply list_lookup_insert_Some in Hj as [(<- & <- & _)|[_ Hj]]; [|by apply H5].
    by rewrite Z2Nat.id.
  - rewrite Hp'. rewrite Hp in H6. rewrite length_app in *. lia.
Qed.

Lemma placed t b i l : table_ok t b → 0 ≤ i → table t !! Z.to_nat i = Some l → Forall (fun e => Z.land (hash e.1) (mask b) = i) l.
Proof. intros Ht Hi Hl. pose proof (tab_place _ _ Ht _ _ Hl) as Hp. by rewrite Z2Nat.id in Hp. Qed.
Lemma land_mask_pos v b : 0 ≤ b → 0 ≤ Z.land v (mask b).
Proof. intros. apply Z.land_nonneg. right. unfold mask. pose proof (Z.pow_pos_nonneg 2 b). lia. Qed.

(** An entry on top of its bucket. *)
Lemma table_push t b key val l :
  table_ok t b → ht_used t < 2 ^ 62 → table t !! Z.to_nat (Z.land (hash key) (mask b)) = Some l →
  let t' := set_bucket t (Z.land (hash key) (mask b)) ((key, val) :: l) (u64 (ht_used t + 1)) in
  table_ok t' b ∧ concat (table t') ≡ₚ (key, val) :: concat (table t).
Proof.
  intros Ht Hu Hl. pose proof (tab_bits _ _ Ht) as Hb. pose proof (tab_used _ _ Ht) as Hus.
  pose proof (land_mask_pos (hash key) b ltac:(lia)) as Hpos.
  destruct (table_set t b (Z.land (hash key) (mask b)) l ((key, val) :: l) (u64 (ht_used t + 1))) as (Ht' & rest & Hp & Hp');
    [done|done|done|constructor; [done|by eapply placed]| |split; [done|by rewrite Hp', Hp]].
  unfold u64. rewrite Z.mod_small by lia. cbn [length]. lia.
Qed.

(** *** Moving buckets *)

Lemma rehash_bucket_ok l : ∀ d b',
  table_ok (ht1 d) b' → Z.of_nat (length l) ≤ ht_used (ht0 d) < 2 ^ 62 → ht_used (ht1 d) + Z.of_nat (length l) < 2 ^ 62 →
  ∃ t1, rehash_bucket hash l d = Ok (Dict (DictHt (table (ht0 d)) (ht_size (ht0 d)) (sizemask (ht0 d)) (ht_used (ht0 d) - Z.of_nat (length l)))
      t1 (rehashidx d) (iterators d)) ∧ table_ok t1 b' ∧ concat (table t1) ≡ₚ l ++ concat (table (ht1 d)).
Proof.
  induction l as [|[key val] l IH]; intros d b' Ht Hu0 Hu1; cbn [rehash_bucket].
  { exists (ht1 d). destruct d as [[] ? ? ?]. cbn. rewrite Z.sub_0_r. done. }
  cbn [length] in *. rewrite (tab_mask _ _ Ht). destruct (get_bucket_ok (ht1 d) b' (hash key) Ht) as (chain & -> & Hc).
  cbn [mbind res_bind]. destruct (table_push (ht1 d) b' key val chain Ht ltac:(lia) Hc) as [Ht' Hp].
  set (t1 := set_bucket _ _ _ _) in *. assert (ht_used t1 = ht_used (ht1 d) + 1) as Hut.
  { rewrite (tab_used _ _ Ht'), Hp, (tab_used _ _ Ht). cbn. lia. }
  destruct (IH (Dict (DictHt (table (ht0 d)) (ht_size (ht0 d)) (sizemask (ht0 d)) (u64 (ht_used (ht0 d) - 1))) t1 (rehashidx d) (iterators d)) b')
    as (t1' & -> & Ht1' & Hp'); cbn [ht0 ht1 ht_used rehashidx iterators table ht_size sizemask] in *.
  - done.
  - unfold u64. rewrite Z.mod_small by lia. lia.
  - lia.
  - exists t1'. split; [|split; [done|]].
    + do 3 f_equal. unfold u64. rewrite Z.mod_small by lia. lia.
    + rewrite Hp', Hp. cbn. by rewrite Permutation_middle.
Qed.

(** Two tables; [rehashidx] as a number of buckets that have been moved. *)
Record moving d (b b' : Z) : Prop := Moving {
  mov_0 : table_ok (ht0 d) b;
  mov_1 : table_ok (ht1 d) b';
  mov_idx : 0 ≤ rehashidx d ≤ 2 ^ b;
  mov_done : ∀ i, Z.of_nat i < rehashidx d → table (ht0 d) !! i = Some [];
  mov_small : Z.of_nat (length (entries d)) < 2 ^ 60
}.

Lemma rehash_skip_ok fuel : ∀ ev d b b' j l,
  moving d b b' → table (ht0 d) !! j = Some l → l ≠ [] → rehashidx d ≤ Z.of_nat j → (Z.to_nat (Z.of_nat j - rehashidx d) < fuel)%nat →
  ∃ r idx, rehash_skip fuel ev d = Ok (r, Dict (ht0 d) (ht1 d) idx (iterators d)) ∧
    moving (Dict (ht0 d) (ht1 d) idx (iterators d)) b b' ∧
    (is_Some r → ∃ l', table (ht0 d) !! Z.to_nat idx = Some l' ∧ l' ≠ [] ∧ 0 ≤ idx < 2 ^ b).
Proof.
  induction fuel as [|fuel IH]; intros ev d b b' j l Hm Hj Hl Hij Hf; [lia|]. destruct Hm as [H0 H1 Hi Hd Hs].
  pose proof (lookup_lt_Some _ _ _ Hj) as Hlt. pose proof (tab_len _ _ H0) as Hlen. cbn [rehash_skip]. unfold get_bucket.
  rewrite (proj2 (Z.leb_le _ _)), (proj2 (Z.ltb_lt _ _)) by lia. cbn [andb].
  destruct (lookup_lt_is_Some_2 (table (ht0 d)) (Z.to_nat (rehashidx d))) as [l0 Hl0]; [lia|]. rewrite Hl0.
  cbn [res_of_option mbind res_bind]. destruct l0 as [|e l0].
  - assert (rehashidx d ≠ Z.of_nat j) as Hne by (intros Heq; rewrite Heq, Nat2Z.id in Hl0; congruence).
    assert (moving (Dict (ht0 d) (ht1 d) (rehashidx d + 1) (iterators d)) b b') as Hm'.
    { split; cbn [ht0 ht1 rehashidx]; try done; [lia|]. intros i Hlt'.
      destruct (decide (Z.of_nat i = rehashidx d)) as [Heq|]; [by rewrite <- Heq, Nat2Z.id in Hl0|apply Hd; lia]. }
    destruct (ev - 1 =? 0).
    + exists None, (rehashidx d + 1). split; [done|]. split; [done|]. by intros [? ?].
    + destruct (IH (ev - 1) _ b b' j l Hm' Hj Hl) as (r & idx & -> & Hm'' & Hr); cbn [rehashidx]; [lia..|]. by exists r, idx.
  - exists (Some ev), (rehashidx d). destruct d as [t0 t1 ix it]. cbn in *. split; [done|]. split; [done|].
    intros _. exists (e :: l0). split; [done|]. split; [done|]. lia.
Qed.

Lemma first_nonempty d b b' :
  moving d b b' → ht_used (ht0 d) ≠ 0 → ∃ j l, table (ht0 d) !! j = Some l ∧ l ≠ [] ∧ rehashidx d ≤ Z.of_nat j.
Proof.
  intros [H0 H1 Hi Hd Hs] Hu. rewrite (tab_used _ _ H0) in Hu.
  destruct (concat (table (ht0 d))) as [|e es] eqn:Hc; [done|].
  destruct (proj1 (elem_of_concat e (table (ht0 d)))) as (j & l & Hj & He); [rewrite Hc; by apply list_elem_of_here|].
  exists j, l. split; [done|]. split; [intros ->; by apply elem_of_nil in He|].
  destruct (decide (Z.of_nat j < rehashidx d)) as [Hlt|]; [|lia]. rewrite Hd in Hj by done. injection Hj as <-. by apply elem_of_nil in He.
Qed.

Lemma used_small d b b' : moving d b b' → 0 ≤ ht_used (ht0 d) ∧ 0 ≤ ht_used (ht1 d) ∧ ht_used (ht0 d) + ht_used (ht1 d) < 2 ^ 60.
Proof.
  intros [H0 H1 _ _ Hs]. unfold entries in Hs. rewrite length_app in Hs. rewrite (tab_used _ _ H0), (tab_used _ _ H1). lia.
Qed.

Lemma rehash_loop_ok n : ∀ ev d b b',
  moving d b b' →
  ∃ early d', rehash_loop hash n ev d = Ok (early, d') ∧ moving d' b b' ∧ entries d' ≡ₚ entries d ∧ iterators d' = iterators d.
Proof.
  induction n as [|n IH]; intros ev d b b' Hm; cbn [rehash_loop]; [by exists false, d|].
  destruct (Z.eqb_spec (ht_used (ht0 d)) 0) as [|Hu]; [by exists false, d|].
  destruct (first_nonempty d b b' Hm Hu) as (j & l & Hj & Hl & Hij). pose proof (lookup_lt_Some _ _ _ Hj) as Hlt.
  pose proof (tab_len _ _ (mov_0 _ _ _ Hm)) as Hlen. pose proof (mov_idx _ _ _ Hm) as Hidx. pose proof (tab_bits _ _ (mov_0 _ _ _ Hm)) as Hb.
  assert (2 ^ b ≤ 2 ^ 62) as Hpow by (apply Z.pow_le_mono_r; lia).
  assert (u64 (rehashidx d) <? ht_size (ht0 d) = true) as ->.
  { unfold u64. rewrite Z.mod_small by lia. rewrite (tab_size _ _ (mov_0 _ _ _ Hm)). apply Z.ltb_lt. lia. }
  cbn [serverAssert mbind res_bind].
  destruct (rehash_skip_ok (S (length (table (ht0 d)))) ev d b b' j l Hm Hj Hl Hij) as (r & idx & -> & Hm' & Hr); [lia|].
  cbn [mbind res_bind]. destruct r as [ev'|]; [|by eexists true, _].
  destruct (Hr (mk_is_Some _ _ eq_refl)) as (l' & Hl' & Hne & Hix). cbn [ht0 rehashidx].
  unfold get_bucket at 1. cbn [table]. rewrite (proj2 (Z.leb_le _ _)), (proj2 (Z.ltb_lt _ _)) by lia. cbn [andb].
  rewrite Hl'. cbn [res_of_option mbind res_bind].
  destruct (used_small _ _ _ Hm') as (Hu0 & Hu1 & Husum). cbn [ht0 ht1] in Hu0, Hu1, Husum.
  assert (Z.of_nat (length l') ≤ ht_used (ht0 d)) as Hll.
  { rewrite (tab_used _ _ (mov_0 _ _ _ Hm)). destruct (concat_change _ _ _ Hl') as (rest & Hp & _). rewrite Hp, length_app. lia. }
  destruct (rehash_bucket_ok l' (Dict (ht0 d) (ht1 d) idx (iterators d)) b' (mov_1 _ _ _ Hm')) as (t1 & -> & Ht1 & Hp1);
    cbn [ht0 ht1] in *; [lia|lia|].
  cbn [mbind res_bind ht0 ht1 rehashidx iterators ht_used].
  set (t0 := DictHt (table (ht0 d)) _ _ _).
  assert (set_bucket t0 idx [] (ht_used (ht0 d) - Z.of_nat (length l')) = set_bucket (ht0 d) idx [] (ht_used (ht0 d) - Z.of_nat (length l'))) as ->
    by done.
  destruct (table_set (ht0 d) b idx l' [] (ht_used (ht0 d) - Z.of_nat (length l')) (mov_0 _ _ _ Hm)) as (Ht0 & rest & Hp & Hp');
    [lia|done|constructor|cbn [length]; lia|].
  set (d1 := Dict _ t1 (idx + 1) (iterators d)). assert (entries d1 ≡ₚ entries d) as He.
  { unfold entries, d1. cbn [ht0 ht1]. rewrite Hp', Hp1, Hp. cbn [app ht1]. rewrite Permutation_app_swap_app. by rewrite <- app_assoc. }
  destruct (IH ev' d1 b b') as (early & d' & -> & Hm'' & He' & Hit).
  { split; cbn [d1 ht0 ht1 rehashidx]; try done; [lia| |by rewrite He; apply Hm].
    intros i Hi. cbn [set_bucket table]. destruct (decide (i = Z.to_nat idx)) as [->|].
    - rewrite list_lookup_insert_eq by lia. done.
    - rewrite list_lookup_insert_ne by done. apply (mov_done _ _ _ Hm'). cbn [rehashidx]. lia. }
  exists early, d'. split; [done|]. split; [done|]. split; [by rewrite He'|done].
Qed.

Lemma dict_ok_perm d d' : dict_ok d → shape d' → entries d' ≡ₚ entries d → dict_ok d'.
Proof. intros [Hs Hk Hsm] Hs' He. split; [done|by rewrite He|by rewrite He]. Qed.

Lemma moving_shape d b b' : moving d b b' → shape d.
Proof. intros [H0 H1 Hi Hd _]. by eapply TwoTables. Qed.

Lemma dictRehash_ok n d :
  dict_ok d → ∃ r d', dictRehash hash n d = Ok (r, d') ∧ dict_ok d' ∧ entries d' ≡ₚ entries d ∧ iterators d' = iterators d ∧
    (ht_used (ht0 d) + ht_used (ht1 d) ≠ 0 → ht_used (ht0 d') + ht_used (ht1 d') ≠ 0).
Proof.
  intros Hok. unfold dictRehash, dictIsRehashing. pose proof (dict_shape _ Hok) as Hs.
  destruct (Z.eqb_spec (rehashidx d) (-1)) as [Hi|Hi]; cbn [negb]; [by exists false, d|].
  destruct Hs as [_ _ Hs|b _ _ Hs|b b' H0 H1 Hix Hd]; [done..|].
  destruct (rehash_loop_ok n (Z.of_nat n * 10) d b b') as (early & d' & -> & Hm & He & Hit); [split; try done; apply Hok|].
  cbn [mbind res_bind]. destruct (used_small _ _ _ Hm) as (Hu0 & Hu1 & Hus).
  assert (ht_used (ht0 d') + ht_used (ht1 d') = ht_used (ht0 d) + ht_used (ht1 d)) as Hsum.
  { apply Permutation_length in He. unfold entries in He. rewrite !length_app in He.
    rewrite (tab_used _ _ H0), (tab_used _ _ H1), (tab_used _ _ (mov_0 _ _ _ Hm)), (tab_used _ _ (mov_1 _ _ _ Hm)). lia. }
  assert (dict_ok d') as Hok' by (eapply dict_ok_perm; [exact Hok|by eapply moving_shape|done]).
  destruct early; [eexists true, _; split_and!; try done; lia|].
  destruct (Z.eqb_spec (ht_used (ht0 d')) 0) as [Hz|Hz]; [|eexists true, _; split_and!; try done; lia].
  eexists false, _. split; [reflexivity|]. assert (concat (table (ht0 d')) = []) as Hc.
  { rewrite (tab_used _ _ (mov_0 _ _ _ Hm)) in Hz. destruct (concat (table (ht0 d'))); [done|cbn in Hz; lia]. }
  assert (entries (Dict (ht1 d') _dictReset (-1) (iterators d')) ≡ₚ entries d) as He'.
  { rewrite <- He. unfold entries. cbn [ht0 ht1 table _dictReset concat]. by rewrite Hc, app_nil_r. }
  split; [|split_and!; try done; cbn; lia]. eapply dict_ok_perm; [exact Hok| |done].
  eapply (OneTable _ b'); [apply Hm|done|done].
Qed.

(** What the operations do first. *)
Lemma rehash_step_ok d :
  dict_ok d → ∃ d', rehash_step_if hash d = Ok d' ∧ dict_ok d' ∧ entries d' ≡ₚ entries d ∧ iterators d' = iterators d ∧
    (ht_used (ht0 d) + ht_used (ht1 d) ≠ 0 → ht_used (ht0 d') + ht_used (ht1 d') ≠ 0).
Proof.
  intros Hok. unfold rehash_step_if, _dictRehashStep. destruct (dictIsRehashing d); [|by exists d].
  destruct (iterators d =? 0); [|by exists d].
  destruct (dictRehash_ok 1 d Hok) as (r & d' & -> & H'). by exists d'.
Qed.

(** *** Resizing *)

Lemma next_power_ok fuel : ∀ c size,
  0 ≤ c ≤ 61 → size ≤ 2 ^ 61 → 61 - c < Z.of_nat fuel →
  ∃ b, next_power fuel (2 ^ c) size = 2 ^ b ∧ c ≤ b ≤ 61 ∧ size ≤ 2 ^ b.
Proof.
  induction fuel as [|fuel IH]; intros c size Hc Hs Hf; [lia|]. cbn [next_power].
  destruct (Z.leb_spec size (2 ^ c)); [exists c; split_and!; [done|lia..]|].
  assert (c < 61) by (destruct (decide (c = 61)) as [->|]; lia).
  assert (2 ^ (c + 1) = 2 ^ c * 2) as Hp by (rewrite Z.pow_add_r by lia; done).
  assert (2 ^ c ≤ 2 ^ 61) by (apply Z.pow_le_mono_r; lia). assert (0 < 2 ^ c) by (apply Z.pow_pos_nonneg; lia).
  unfold u64. rewrite Z.mod_small by lia. rewrite <- Hp.
  destruct (IH (c + 1) size) as (b & -> & ? & ?); [lia..|]. exists b. split_and!; [done|lia..].
Qed.
Lemma dictNextPower_ok size : size ≤ 2 ^ 61 → ∃ b, _dictNextPower size = 2 ^ b ∧ 2 ≤ b ≤ 61 ∧ size ≤ 2 ^ b.
Proof.
  intros Hs. unfold _dictNextPower, LONG_MAX. rewrite (proj2 (Z.leb_gt _ _)) by lia.
  apply (next_power_ok 64 2 size); lia.
Qed.

Lemma concat_replicate_nil n : concat (replicate n ([] : list (K * V))) = [].
Proof. by induction n. Qed.
Lemma new_table_ok b :
  2 ≤ b ≤ 62 → table_ok (DictHt (replicate (Z.to_nat (2 ^ b)) []) (2 ^ b) (u64 (2 ^ b - 1)) 0) b.
Proof.
  intros Hb. assert (0 < 2 ^ b) by (apply Z.pow_pos_nonneg; lia). assert (2 ^ b ≤ 2 ^ 62) by (apply Z.pow_le_mono_r; lia).
  split; cbn [table ht_size sizemask ht_used]; try done.
  - unfold u64. by rewrite Z.mod_small by lia.
  - rewrite length_replicate. lia.
  - intros i l [-> _]%lookup_replicate. constructor.
  - by rewrite concat_replicate_nil.
Qed.

Lemma dictExpand_ok d size :
  dict_ok d → size ≤ 2 ^ 61 →
  dict_ok (dictExpand d size).2 ∧ entries (dictExpand d size).2 = entries d ∧ iterators (dictExpand d size).2 = iterators d.
Proof.
  intros Hok Hs. unfold dictExpand. destruct (dictIsRehashing d || (size <? ht_used (ht0 d))) eqn:Hr; [done|].
  destruct (dictNextPower_ok size Hs) as (b & -> & Hb & _). destruct (Z.eqb_spec (2 ^ b) (ht_size (ht0 d))); [done|].
  apply orb_false_iff in Hr as [Hr _]. unfold dictIsRehashing in Hr. apply negb_false_iff, Z.eqb_eq in Hr.
  pose proof (new_table_ok b ltac:(lia)) as Hn. destruct (dict_shape _ Hok) as [H0 H1 _|b0 H0 H1 _|b0 b' H0 H1 Hix Hd]; [| |lia].
  - rewrite decide_True by (by rewrite H0). cbn [snd iterators]. assert (entries (Dict
      (DictHt (replicate (Z.to_nat (2 ^ b)) []) (2 ^ b) (u64 (2 ^ b - 1)) 0) (ht1 d) (rehashidx d) (iterators d)) = entries d) as He.
    { unfold entries. cbn [ht0 ht1 table]. by rewrite concat_replicate_nil, H0. }
    split; [|done]. eapply dict_ok_perm; [exact Hok| |by rewrite He]. by eapply OneTable.
  - assert (table (ht0 d) ≠ []) as Hne.
    { intros Hz. pose proof (tab_len _ _ H0) as Hl. rewrite Hz in Hl. cbn in Hl. pose proof (tab_bits _ _ H0).
      pose proof (Z.pow_pos_nonneg 2 b0). lia. }
    rewrite decide_False by done. cbn [snd iterators].
    assert (entries (Dict (ht0 d) (DictHt (replicate (Z.to_nat (2 ^ b)) []) (2 ^ b) (u64 (2 ^ b - 1)) 0) 0 (iterators d)) = entries d) as He.
    { unfold entries. cbn [ht0 ht1 table]. by rewrite concat_replicate_nil, H1. }
    split; [|done]. eapply dict_ok_perm; [exact Hok| |by rewrite He].
    eapply (TwoTables _ b0 b); cbn [ht0 ht1 rehashidx]; [done|done|pose proof (Z.pow_pos_nonneg 2 b0); pose proof (tab_bits _ _ H0); lia|].
    intros i Hi. lia.
Qed.

Lemma dictResize_ok can d :
  dict_ok d → dict_ok (dictResize can d).2 ∧ entries (dictResize can d).2 = entries d ∧ iterators (dictResize can d).2 = iterators d.
Proof.
  intros Hok. unfold dictResize. destruct (_ || _); [done|]. apply dictExpand_ok; [done|].
  set (m := to_signed 32 _). assert (m < 2 ^ 31) as Hm.
  { unfold m, to_signed. pose proof (Z.mod_pos_bound (ht_used (ht0 d)) (2 ^ 32) ltac:(lia)).
    destruct (Z.ltb_spec (ht_used (ht0 d) mod 2 ^ 32) (2 ^ (32 - 1))); lia. }
  unfold DICT_HT_INITIAL_SIZE, u64. destruct (Z.ltb_spec m 4); rewrite Z.mod_small by lia; lia.
Qed.

(** There is a table to put an entry into. *)
Definition has_table d : Prop :=
  (∃ b, table_ok (ht0 d) b ∧ ht1 d = _dictReset ∧ rehashidx d = -1) ∨
  (∃ b b', moving d b b' ∧ rehashidx d ≠ -1).

Lemma has_table_used d : dict_ok d → ht_used (ht0 d) + ht_used (ht1 d) ≠ 0 → has_table d.
Proof.
  intros [Hs Hk Hsm] Hu. destruct Hs as [H0 H1 Hi|b H0 H1 Hi|b b' H0 H1 Hi Hd].
  - by rewrite H0, H1 in Hu.
  - left. eauto.
  - right. exists b, b'. split; [by split|lia].
Qed.

Lemma expand_if_needed_ok can d :
  dict_ok d → ∃ d', _dictExpandIfNeeded can d = (true, d') ∧ dict_ok d' ∧ entries d' = entries d ∧ iterators d' = iterators d ∧ has_table d'.
Proof.
  intros Hok. pose proof (dict_small _ Hok) as Hsm. unfold _dictExpandIfNeeded, dictIsRehashing.
  destruct (dict_shape _ Hok) as [H0 H1 Hi|b H0 H1 Hi|b b' H0 H1 Hi Hd].
  - rewrite Hi, H0. cbn [Z.eqb negb ht_size _dictReset Pos.eqb].
    destruct (dictExpand_ok d DICT_HT_INITIAL_SIZE Hok) as (Hok' & He & Hit); [unfold DICT_HT_INITIAL_SIZE; lia|].
    assert (dictExpand d DICT_HT_INITIAL_SIZE = (true, Dict (DictHt (replicate (Z.to_nat 4) []) 4 3 0) (ht1 d) (rehashidx d) (iterators d))) as Hx.
    { unfold dictExpand, dictIsRehashing. rewrite Hi, H0. cbn. done. }
    rewrite Hx in *. eexists. split; [reflexivity|]. split_and!; try done. left. exists 2. split; [|done].
    apply (new_table_ok 2). lia.
  - assert (ht_used (ht0 d) = Z.of_nat (length (entries d))) as Hu.
    { rewrite (tab_used _ _ H0). unfold entries. rewrite length_app, H1. cbn. lia. }
    rewrite Hi. cbn [Z.eqb negb Pos.eqb]. rewrite (tab_size _ _ H0). pose proof (tab_bits _ _ H0) as Hb.
    assert (0 < 2 ^ b) as Hp by (apply Z.pow_pos_nonneg; lia). rewrite (proj2 (Z.eqb_neq _ _)) by lia.
    destruct (_ && _) eqn:Hgrow; [|exists d; split_and!; try done; left; eauto].
    apply andb_true_iff in Hgrow as [Hge%Z.leb_le _].
    assert (u64 (ht_used (ht0 d) * 2) = ht_used (ht0 d) * 2) as -> by (unfold u64; apply Z.mod_small; lia).
    destruct (dictExpand_ok d (ht_used (ht0 d) * 2) Hok) as (Hok' & He & Hit); [lia|].
    destruct (dictNextPower_ok (ht_used (ht0 d) * 2)) as (b' & Hb' & Hbr & Hle); [lia|].
    assert (dictExpand d (ht_used (ht0 d) * 2) =
      (true, Dict (ht0 d) (DictHt (replicate (Z.to_nat (2 ^ b')) []) (2 ^ b') (u64 (2 ^ b' - 1)) 0) 0 (iterators d))) as Hx.
    { unfold dictExpand, dictIsRehashing. rewrite Hi, Hb'. cbn [Z.eqb negb Pos.eqb orb].
      rewrite (proj2 (Z.ltb_ge _ _)), (proj2 (Z.eqb_neq _ _)) by (rewrite ?(tab_size _ _ H0); lia).
      rewrite decide_False; [done|]. intros Hz. pose proof (tab_len _ _ H0) as Hl. rewrite Hz in Hl. cbn in Hl. lia. }
    rewrite Hx in *. eexists. split; [reflexivity|]. split_and!; try done. right. exists b, b'. split; [|done].
    split; cbn [snd ht0 ht1 rehashidx] in *; try done; [by apply new_table_ok; lia|lia|intros; lia|by rewrite He].
  - rewrite (proj2 (Z.eqb_neq (rehashidx d) (-1))) by lia. cbn [negb]. exists d. split_and!; try done. right.
    exists b, b'. split; [by split|lia].
Qed.

(** *** The map *)

Definition content d : gmap K V := list_to_map (entries d).

Lemma content_perm d d' : dict_ok d → entries d' ≡ₚ entries d → content d' = content d.
Proof. intros Hok He. apply list_to_map_proper; [|done]. rewrite He. apply Hok. Qed.
Lemma content_lookup d k v : dict_ok d → content d !! k = Some v ↔ (k, v) ∈ entries d.
Proof. intros Hok. symmetry. apply elem_of_list_to_map, Hok. Qed.

Lemma find_key_Some k (l : list (K * V)) v : find_key k l = Some v → (k, v) ∈ l.
Proof.
  induction l as [|[k' v'] l IH]; cbn; [done|]. case_decide as Hk; [intros [= ->]; subst; by apply list_elem_of_here|].
  intros Hf. apply list_elem_of_further. auto.
Qed.
Lemma find_key_None k (l : list (K * V)) v : find_key k l = None → (k, v) ∉ l.
Proof.
  induction l as [|[k' v'] l IH]; cbn; [intros _ []%elem_of_nil|]. case_decide as Hk; [done|].
  intros Hf [[= -> ->]|Hin]%elem_of_cons; [done|]. by apply IH.
Qed.

(** The entry of a key in a table is in the bucket of the key. *)
Lemma find_in_table t b k l :
  table_ok t b → table t !! Z.to_nat (Z.land (hash k) (mask b)) = Some l →
  match find_key k l with Some v => (k, v) ∈ concat (table t) | None => ∀ v, (k, v) ∉ concat (table t) end.
Proof.
  intros Ht Hl. destruct (find_key k l) as [v|] eqn:Hf.
  - apply elem_of_concat. eexists _, l. split; [done|]. by apply find_key_Some.
  - intros v Hin. apply (find_key_None _ _ v) in Hf. apply Hf. by apply (entry_in_bucket t b (k, v)).
Qed.

(** Where [dictFind] and the others look. *)
Lemma search_tables d k :
  dict_ok d → has_table d →
  ∃ l0, get_bucket (ht0 d) (Z.land (hash k) (sizemask (ht0 d))) = Ok l0 ∧
    (rehashidx d = -1 ∧ content d !! k = find_key k l0 ∨
     rehashidx d ≠ -1 ∧ ∃ l1, get_bucket (ht1 d) (Z.land (hash k) (sizemask (ht1 d))) = Ok l1 ∧
       content d !! k = match find_key k l0 with Some v => Some v | None => find_key k l1 end).
Proof.
  intros Hok Hd.
  assert (∀ v, (k, v) ∈ concat (table (ht0 d)) ∨ (k, v) ∈ concat (table (ht1 d)) → content d !! k = Some v) as Hin.
  { intros v Hv. apply content_lookup; [done|]. unfold entries. by apply elem_of_app. }
  assert ((∀ v, (k, v) ∉ concat (table (ht0 d)) ∧ (k, v) ∉ concat (table (ht1 d))) → content d !! k = None) as Hout.
  { intros Hv. destruct (content d !! k) as [v|] eqn:Hc; [|done]. apply content_lookup in Hc; [|done].
    unfold entries in Hc. apply elem_of_app in Hc. destruct (Hv v), Hc; done. }
  destruct Hd as [(b & H0 & H1 & Hi)|(b & b' & Hm & Hi)].
  - rewrite (tab_mask _ _ H0). destruct (get_bucket_ok (ht0 d) b (hash k) H0) as (l0 & -> & Hl0). exists l0. split; [done|]. left.
    split; [done|]. pose proof (find_in_table _ _ _ _ H0 Hl0) as Hf. destruct (find_key k l0) as [v|]; [by apply Hin; left|].
    apply Hout. intros v. split; [by apply Hf|]. rewrite H1. apply not_elem_of_nil.
  - destruct Hm as [H0 H1 _ _ _]. rewrite (tab_mask _ _ H0), (tab_mask _ _ H1).
    destruct (get_bucket_ok (ht0 d) b (hash k) H0) as (l0 & -> & Hl0), (get_bucket_ok (ht1 d) b' (hash k) H1) as (l1 & -> & Hl1).
    exists l0. split; [done|]. right. split; [done|]. exists l1. split; [done|].
    pose proof (find_in_table _ _ _ _ H0 Hl0) as Hf0. pose proof (find_in_table _ _ _ _ H1 Hl1) as Hf1.
    destruct (find_key k l0) as [v|]; [by apply Hin; left|]. destruct (find_key k l1) as [v|]; [by apply Hin; right|].
    apply Hout. intros v. split; [by apply Hf0|by apply Hf1].
Qed.

Lemma used_nonneg d : dict_ok d → 0 ≤ ht_used (ht0 d) ∧ 0 ≤ ht_used (ht1 d).
Proof.
  intros [Hs _ _]. destruct Hs as [H0 H1 _|b H0 H1 _|b b' H0 H1 _ _].
  - by rewrite H0, H1.
  - rewrite H1, (tab_used _ _ H0). cbn. lia.
  - rewrite (tab_used _ _ H0), (tab_used _ _ H1). lia.
Qed.
Lemma content_empty d : dict_ok d → ht_used (ht0 d) + ht_used (ht1 d) = 0 → content d = ∅.
Proof.
  intros Hok Hu. rewrite (used_total d Hok) in Hu. unfold content. destruct (entries d); [done|cbn in Hu; lia].
Qed.

Lemma dictFind_ok k d :
  dict_ok d → ∃ d', dictFind hash k d = Ok (content d !! k, d') ∧ dict_ok d' ∧ content d' = content d.
Proof.
  intros Hok. unfold dictFind. pose proof (used_total d Hok) as Hu. pose proof (dict_small d Hok) as Hsm.
  unfold u64. rewrite Z.mod_small by lia. destruct (Z.eqb_spec (ht_used (ht0 d) + ht_used (ht1 d)) 0) as [Hz|Hz].
  { exists d. by rewrite (content_empty d) by done. }
  destruct (rehash_step_ok d Hok) as (d1 & -> & Hok1 & He & _ & Hu1). cbn [mbind res_bind].
  rewrite <- (content_perm d d1) by done.
  destruct (search_tables d1 k Hok1 (has_table_used d1 Hok1 (Hu1 Hz))) as (l0 & -> & Hs). cbn [mbind res_bind]. unfold dictIsRehashing.
  exists d1. split; [|done]. destruct Hs as [[Hi ->]|(Hi & l1 & -> & ->)]; cbn [mbind res_bind].
  - rewrite Hi. cbn [Z.eqb Pos.eqb negb]. by destruct (find_key k l0).
  - rewrite (proj2 (Z.eqb_neq _ _)) by done. cbn [negb]. by destruct (find_key k l0).
Qed.

(** A bucket of one of the tables is replaced. *)
Definition with_table (first : bool) t d : dict :=
  if first then Dict t (ht1 d) (rehashidx d) (iterators d) else Dict (ht0 d) t (rehashidx d) (iterators d).

Lemma update_bucket d (first : bool) k l l' used :
  dict_ok d → has_table d → (first = false → rehashidx d ≠ -1) → (first = true → rehashidx d ≠ -1 → l ≠ []) →
  let t := if first then ht0 d else ht1 d in
  let i := Z.land (hash k) (sizemask t) in
  get_bucket t i = Ok l → Forall (fun e => e ∈ l ∨ e.1 = k) l' →
  used = ht_used t - Z.of_nat (length l) + Z.of_nat (length l') →
  shape (with_table first (set_bucket t i l' used) d) ∧
  ∃ rest, entries d ≡ₚ l ++ rest ∧ entries (with_table first (set_bucket t i l' used) d) ≡ₚ l' ++ rest.
Proof.
  intros Hok Hd Hf1 Hf2 t i Hg Hl' Hu.
  assert (∃ b, table_ok t b) as [b Ht].
  { destruct Hd as [(b & H0 & _ & Hi)|(b & b' & Hm & _)]; unfold t; destruct first; eauto using mov_0, mov_1. naive_solver. }
  pose proof (tab_bits _ _ Ht) as Hb. pose proof (land_mask_pos (hash k) b ltac:(lia)) as Hpos.
  unfold i in *. rewrite (tab_mask _ _ Ht) in *.
  destruct (get_bucket_ok t b (hash k) Ht) as (l0 & Hg0 & Hl0). rewrite Hg in Hg0. injection Hg0 as <-.
  pose proof (placed t b _ l Ht Hpos Hl0) as Hpl. rewrite Forall_forall in Hpl.
  destruct (table_set t b (Z.land (hash k) (mask b)) l l' used Ht Hpos Hl0) as (Ht' & rest & Hp & Hp').
  { eapply Forall_impl; [exact Hl'|]. intros e [He|He]; [by apply Hpl|by rewrite He]. }
  { done. }
  set (t' := set_bucket _ _ _ _) in *. destruct first; cbn [with_table]; unfold t in *.
  - split; [|exists (rest ++ concat (table (ht1 d))); unfold entries; cbn [ht0 ht1]; rewrite Hp, Hp'; by rewrite <- !app_assoc].
    destruct Hd as [(b0 & H0 & H1 & Hi)|(b0 & b' & Hm & Hi)]; [by eapply (OneTable _ b)|].
    assert (b0 = b) as ->.
    { pose proof (tab_size _ _ Ht) as Hs1. rewrite (tab_size _ _ (mov_0 _ _ _ Hm)) in Hs1. pose proof (tab_bits _ _ (mov_0 _ _ _ Hm)).
      apply Z.pow_inj_r in Hs1; lia. }
    eapply (TwoTables _ b b'); cbn [ht0 ht1 rehashidx]; [done|apply Hm|apply Hm|]. intros j Hj. unfold t', set_bucket. cbn [table].
    rewrite list_lookup_insert_ne; [by apply Hm|]. intros <-. apply (mov_done _ _ _ Hm) in Hj. rewrite Hj in Hl0.
    injection Hl0 as <-. by apply Hf2.
  - split; [|exists (concat (table (ht0 d)) ++ rest); unfold entries; cbn [ht0 ht1]; rewrite Hp, Hp'; split; by rewrite Permutation_app_swap_app].
    destruct Hd as [(b0 & H0 & H1 & Hi)|(b0 & b' & Hm & Hi)]; [naive_solver|].
    eapply (TwoTables _ b0 b); cbn [ht0 ht1 rehashidx]; [apply Hm|done|apply Hm|apply Hm].
Qed.

Lemma bucket_le_used t b i l : table_ok t b → get_bucket t i = Ok l → Z.of_nat (length l) ≤ ht_used t.
Proof.
  intros Ht Hg. unfold get_bucket in Hg. destruct (_ && _); [|done]. apply res_of_option_Ok in Hg.
  rewrite (tab_used _ _ Ht). destruct (concat_change _ _ _ Hg) as (rest & Hp & _). rewrite Hp, length_app. lia.
Qed.

Lemma content_insert d d' k v :
  dict_ok d → shape d' → content d !! k = None → Z.of_nat (length (entries d)) + 1 < 2 ^ 60 → entries d' ≡ₚ (k, v) :: entries d →
  dict_ok d' ∧ content d' = <[k := v]> (content d).
Proof.
  intros Hok Hs Hn Hsm He. assert (NoDup ((k, v) :: entries d).*1) as Hnd.
  { cbn. apply NoDup_cons. split; [|apply Hok]. by apply not_elem_of_list_to_map. }
  split.
  - split; [done|by rewrite He|]. rewrite He. cbn. lia.
  - unfold content. rewrite <- (list_to_map_proper ((k, v) :: entries d) (entries d')); [done|done|done].
Qed.

Lemma existing_bucket k (l0 : list (K * V)) v : find_key k l0 = Some v → l0 ≠ [].
Proof. by destruct l0. Qed.

(** [inl]: the table and the bucket in which the key is. *)
Lemma dictAddRaw_ok can k v d :
  dict_ok d → Z.of_nat (length (entries d)) + 1 < 2 ^ 60 →
  ∃ r d', dictAddRaw hash can k v d = Ok (r, d') ∧ dict_ok d' ∧
    match content d !! k with
    | None => r = inr tt ∧ content d' = <[k := v]> (content d)
    | Some v0 => content d' = content d ∧ has_table d' ∧ ∃ (first : bool) l,
        let t := if first then ht0 d' else ht1 d' in
        r = inl (Some (if first then 0 else 1, Z.land (hash k) (sizemask t))) ∧ (first = false → rehashidx d' ≠ -1) ∧
        get_bucket t (Z.land (hash k) (sizemask t)) = Ok l ∧ find_key k l = Some v0
    end.
Proof.
  intros Hok Hsm. unfold dictAddRaw. destruct (rehash_step_ok d Hok) as (d1 & -> & Hok1 & He1 & _). cbn [mbind res_bind].
  unfold _dictKeyIndex. destruct (expand_if_needed_ok can d1 Hok1) as (d2 & -> & Hok2 & He2 & _ & Hd2). cbn [negb].
  assert (content d2 = content d) as Hc by (rewrite (content_perm d1 d2), (content_perm d d1); [done|done|done|done|by rewrite He2]).
  rewrite <- Hc. destruct (search_tables d2 k Hok2 Hd2) as (l0 & Hl0 & Hs). rewrite Hl0. cbn [mbind res_bind]. unfold dictIsRehashing.
  pose proof (used_total d2 Hok2) as Hu. pose proof (used_nonneg d2 Hok2) as [Hu0 Hu1]. rewrite He2, He1 in Hu.
  destruct Hs as [[Hi Hf]|(Hi & l1 & Hl1 & Hf)].
  - rewrite Hi. cbn [Z.eqb Pos.eqb negb]. destruct (find_key k l0) as [v0|] eqn:Hk; cbn [mbind res_bind mret res_ret]; rewrite Hf.
    + eexists _, d2. split; [reflexivity|]. split; [done|]. split; [done|]. split; [done|]. by exists true, l0.
    + rewrite Hi. cbn [Z.eqb Pos.eqb negb]. rewrite Hl0. cbn [mbind res_bind mret res_ret]. eexists _, _. split; [reflexivity|].
      destruct (update_bucket d2 true k l0 ((k, v) :: l0) (u64 (ht_used (ht0 d2) + 1)) Hok2 Hd2) as (Hsh & rest & Hp & Hp'); try done.
      { apply Forall_cons. split; [by right|]. apply Forall_forall. by left. }
      { unfold u64. rewrite Z.mod_small by lia. cbn [length]. lia. }
      cbn [with_table] in *. rewrite Hi in *.
      destruct (content_insert d2 _ k v Hok2 Hsh) as [? ?]; [by rewrite Hf|by rewrite He2, He1|by rewrite Hp', Hp|done].
  - rewrite (proj2 (Z.eqb_neq (rehashidx d2) (-1))) by done. cbn [negb]. rewrite Hf.
    destruct (find_key k l0) as [v0|] eqn:Hk0; cbn [mbind res_bind mret res_ret].
    { eexists _, d2. split; [reflexivity|]. split; [done|]. split; [done|]. split; [done|]. by exists true, l0. }
    rewrite Hl1. cbn [mbind res_bind]. destruct (find_key k l1) as [v0|] eqn:Hk1; cbn [mbind res_bind mret res_ret].
    { eexists _, d2. split; [reflexivity|]. split; [done|]. split; [done|]. split; [done|]. by exists false, l1. }
    rewrite (proj2 (Z.eqb_neq (rehashidx d2) (-1))) by done. cbn [negb]. rewrite Hl1. cbn [mbind res_bind mret res_ret].
    eexists _, _. split; [reflexivity|].
    destruct (update_bucket d2 false k l1 ((k, v) :: l1) (u64 (ht_used (ht1 d2) + 1)) Hok2 Hd2) as (Hsh & rest & Hp & Hp'); try done.
    { apply Forall_cons. split; [by right|]. apply Forall_forall. by left. }
    { unfold u64. rewrite Z.mod_small by lia. cbn [length]. lia. }
    cbn [with_table] in *.
    destruct (content_insert d2 _ k v Hok2 Hsh) as [? ?]; [by rewrite Hf|by rewrite He2, He1|by rewrite Hp', Hp|done].
Qed.

Lemma set_value_perm k v v0 (l : list (K * V)) :
  find_key k l = Some v0 → ∃ l0, l ≡ₚ (k, v0) :: l0 ∧ set_value k v l ≡ₚ (k, v) :: l0.
Proof.
  induction l as [|[k' v'] l IH]; cbn; [done|]. case_decide as Hk.
  - intros [= ->]. subst. by exists l.
  - intros (l0 & H1 & H2)%IH. exists ((k', v') :: l0). split; [rewrite H1|rewrite H2]; apply perm_swap.
Qed.
Lemma unlink_find k (l : list (K * V)) :
  match unlink k l with Some (v, l') => find_key k l = Some v ∧ l ≡ₚ (k, v) :: l' | None => find_key k l = None end.
Proof.
  induction l as [|[k' v'] l IH]; cbn; [done|]. case_decide as Hk; [by subst|].
  destruct (unlink k l) as [[v l']|]; [|done]. destruct IH as [? Hp]. split; [done|]. rewrite Hp. apply perm_swap.
Qed.

(** The value of a key that is there, and its entry, are taken out or changed. *)
Lemma content_change d d' k v0 (o : option V) (l l0 rest : list (K * V)) :
  dict_ok d → shape d' → l ≡ₚ (k, v0) :: l0 → entries d ≡ₚ l ++ rest →
  entries d' ≡ₚ (match o with Some v => (k, v) :: l0 | None => l0 end) ++ rest →
  dict_ok d' ∧ content d' = match o with Some v => <[k := v]> (content d) | None => delete k (content d) end.
Proof.
  intros Hok Hs Hl He He'. rewrite Hl in He. cbn in He.
  assert (NoDup ((k, v0) :: l0 ++ rest).*1) as Hnd by (rewrite <- He; apply Hok). cbn in Hnd.
  apply NoDup_cons in Hnd as [Hk Hnd]. pose proof (dict_small d Hok) as Hsm. rewrite He in Hsm. cbn in Hsm.
  assert (content d = <[k := v0]> (list_to_map (l0 ++ rest))) as ->.
  { unfold content. rewrite <- (list_to_map_proper ((k, v0) :: l0 ++ rest) (entries d)); [done| |done].
    cbn. by apply NoDup_cons. }
  destruct o as [v|]; cbn in He'.
  - assert (NoDup ((k, v) :: l0 ++ rest).*1) as Hnd' by (cbn; by apply NoDup_cons). split.
    + split; [done|by rewrite He'|]. rewrite He'. cbn. lia.
    + unfold content. rewrite <- (list_to_map_proper ((k, v) :: l0 ++ rest) (entries d')); [|done|done].
      cbn. by rewrite insert_insert_eq.
  - split.
    + split; [done|by rewrite He'|]. rewrite He'. cbn. lia.
    + unfold content. rewrite <- (list_to_map_proper (l0 ++ rest) (entries d')); [|done|done].
      rewrite delete_insert_id; [done|]. by apply not_elem_of_list_to_map.
Qed.

Lemma dictReplace_ok can k v d :
  dict_ok d → Z.of_nat (length (entries d)) + 1 < 2 ^ 60 →
  ∃ d', dictReplace hash can k v d = Ok (bool_decide (content d !! k = None), d') ∧ dict_ok d' ∧ content d' = <[k := v]> (content d).
Proof.
  intros Hok Hsm. unfold dictReplace. destruct (dictAddRaw_ok can k v d Hok Hsm) as (r & d1 & -> & Hok1 & Hr). cbn [mbind res_bind].
  destruct (content d !! k) as [v0|] eqn:Hk; [|destruct Hr as [-> Hc]; exists d1; by rewrite bool_decide_eq_true_2].
  destruct Hr as (Hc & Hd & first & l & -> & Hfi & Hg & Hf). rewrite bool_decide_eq_false_2 by done.
  destruct (set_value_perm k v v0 l Hf) as (l0 & Hl & Hl'). assert (length (set_value k v l) = length l) as Hlen by (rewrite Hl', Hl; done).
  destruct (update_bucket d1 first k l (set_value k v l) (ht_used (if first then ht0 d1 else ht1 d1)) Hok1 Hd Hfi) as (Hsh & rest & Hp & Hp').
  { intros _ _. by eapply existing_bucket. }
  { done. }
  { apply Forall_forall. intros e. rewrite Hl', Hl. intros [->|He]%elem_of_cons; [by right|]. left. by apply list_elem_of_further. }
  { rewrite Hlen. lia. }
  exists (with_table first (set_bucket (if first then ht0 d1 else ht1 d1) (Z.land (hash k) (sizemask (if first then ht0 d1 else ht1 d1)))
    (set_value k v l) (ht_used (if first then ht0 d1 else ht1 d1))) d1).
  rewrite <- Hc. split; [|apply (content_change d1 _ k v0 (Some v) l l0 rest); try done; by rewrite <- Hl'].
  destruct first; cbn [Z.eqb] in *; rewrite Hg; done.
Qed.

Lemma dictGenericDelete_ok k d :
  dict_ok d → ∃ d', dictGenericDelete hash k d = Ok (content d !! k, d') ∧ dict_ok d' ∧ content d' = delete k (content d).
Proof.
  intros Hok. unfold dictGenericDelete. pose proof (used_nonneg d Hok) as [Hn0 Hn1].
  destruct ((ht_used (ht0 d) =? 0) && (ht_used (ht1 d) =? 0)) eqn:Hz.
  { apply andb_true_iff in Hz as [H0%Z.eqb_eq H1%Z.eqb_eq]. exists d. rewrite (content_empty d) by (done || lia).
    by rewrite delete_empty. }
  apply andb_false_iff in Hz. rewrite !Z.eqb_neq in Hz.
  destruct (rehash_step_ok d Hok) as (d1 & -> & Hok1 & He & _ & Hu1). cbn [mbind res_bind]. rewrite <- (content_perm d d1) by done.
  pose proof (has_table_used d1 Hok1 (Hu1 ltac:(lia))) as Hd. destruct (search_tables d1 k Hok1 Hd) as (l0 & Hl0 & Hs). rewrite Hl0.
  cbn [mbind res_bind]. pose proof (used_nonneg d1 Hok1) as [Hn0' Hn1']. pose proof (used_total d1 Hok1) as Htot.
  pose proof (dict_small d1 Hok1) as Hsm.
  assert (∀ (first : bool) l v l', let t := if first then ht0 d1 else ht1 d1 in
    get_bucket t (Z.land (hash k) (sizemask t)) = Ok l → (first = false → rehashidx d1 ≠ -1) → unlink k l = Some (v, l') →
    dict_ok (with_table first (set_bucket t (Z.land (hash k) (sizemask t)) l' (u64 (ht_used t - 1))) d1) ∧
    content (with_table first (set_bucket t (Z.land (hash k) (sizemask t)) l' (u64 (ht_used t - 1))) d1) = delete k (content d1)) as Hdel.
  { intros first l v l' t Hg Hfi Hun. pose proof (unlink_find k l) as Hul. rewrite Hun in Hul. destruct Hul as [Hf Hp].
    assert (1 ≤ ht_used t) as Ht1.
    { assert (Z.of_nat (length l) ≤ ht_used t) as Hle; [|rewrite Hp in Hle; cbn [length] in Hle; lia].
      assert (∃ b, table_ok t b) as [b Ht].
      { destruct Hd as [(b & H0 & _ & Hi)|(b & b' & Hm & _)]; unfold t; destruct first; eauto using mov_0, mov_1. naive_solver. }
      by eapply bucket_le_used. }
    destruct (update_bucket d1 first k l l' (u64 (ht_used t - 1)) Hok1 Hd Hfi) as (Hsh & rest & Hpe & Hpe').
    - intros _ _. by eapply existing_bucket.
    - done.
    - apply Forall_forall. intros e Hin. left. rewrite Hp. by apply list_elem_of_further.
    - unfold u64. rewrite Z.mod_small by (unfold t in *; destruct first; lia). rewrite Hp. cbn [length]. fold t. lia.
    - apply (content_change d1 _ k v None l l' rest); done. }
  unfold dictIsRehashing. pose proof (unlink_find k l0) as Hul0. destruct Hs as [[Hi Hc]|(Hi & l1 & Hl1 & Hc)]; rewrite Hc.
  - rewrite Hi. cbn [Z.eqb Pos.eqb negb]. destruct (unlink k l0) as [[v l0']|] eqn:Hun.
    + destruct Hul0 as [-> _]. eexists. split; [reflexivity|]. rewrite <- Hi. by apply (Hdel true l0 v l0').
    + rewrite Hul0 in Hc |- *. exists d1. by rewrite delete_id.
  - rewrite (proj2 (Z.eqb_neq _ _)) by done. cbn [negb]. destruct (unlink k l0) as [[v l0']|] eqn:Hun.
    + destruct Hul0 as [-> _]. eexists. split; [reflexivity|]. by apply (Hdel true l0 v l0').
    + rewrite Hul0 in Hc |- *. rewrite Hl1. cbn [mbind res_bind]. pose proof (unlink_find k l1) as Hul1.
      destruct (unlink k l1) as [[v l1']|] eqn:Hun1.
      * destruct Hul1 as [-> _]. eexists. split; [reflexivity|]. by apply (Hdel false l1 v l1').
      * rewrite Hul1 in Hc |- *. exists d1. by rewrite delete_id.
Qed.

(** ** Whatever is done with a dictionary *)

(** The operations, the ones that resize and move included.  [OIterators] is the number of safe
    iterators, during which nothing is moved; [OCanResize] is the global flag [dict_can_resize]. *)
Inductive dop :=
| OAdd (k : K) (v : V) | OReplace (k : K) (v : V) | ODelete (k : K) | OFind (k : K) | OEmpty
| ORehash (n : nat) | OExpand (size : Z) | OResize | OIterators (n : Z) | OCanResize (b : bool).
Inductive danswer := Added (b : bool) | Found (o : option V) | Done.

Definition dstate : Type := dict * bool.
Definition dexec (o : dop) (s : dstate) : res (dstate * danswer) :=
  let '(d, can) := s in
  match o with
  | OAdd k v => '(b, d) ← dictAdd hash can k v d; mret ((d, can), Added b)
  | OReplace k v => '(b, d) ← dictReplace hash can k v d; mret ((d, can), Added b)
  | ODelete k => '(v, d) ← dictGenericDelete hash k d; mret ((d, can), Found v)
  | OFind k => '(v, d) ← dictFind hash k d; mret ((d, can), Found v)
  | OEmpty => mret ((dictEmpty d, can), Done)
  | ORehash n => '(_, d) ← dictRehash hash n d; mret ((d, can), Done)
  | OExpand size => mret (((dictExpand d size).2, can), Done)
  | OResize => mret (((dictResize can d).2, can), Done)
  | OIterators n => mret ((Dict (ht0 d) (ht1 d) (rehashidx d) n, can), Done)
  | OCanResize b => mret ((d, b), Done)
  end.
Fixpoint druns (ops : list dop) (s : dstate) : res (dstate * list danswer) :=
  match ops with
  | [] => mret (s, [])
  | o :: ops' => '(s, a) ← dexec o s; '(s, l) ← druns ops' s; mret (s, a :: l)
  end.

(** The same on a finite map. *)
Definition mexec (o : dop) (m : gmap K V) : gmap K V * danswer :=
  match o with
  | OAdd k v => (if m !! k then m else <[k := v]> m, Added (bool_decide (m !! k = None)))
  | OReplace k v => (<[k := v]> m, Added (bool_decide (m !! k = None)))
  | ODelete k => (delete k m, Found (m !! k))
  | OFind k => (m, Found (m !! k))
  | OEmpty => (∅, Done)
  | ORehash _ | OExpand _ | OResize | OIterators _ | OCanResize _ => (m, Done)
  end.
Fixpoint mruns (ops : list dop) (m : gmap K V) : gmap K V * list danswer :=
  match ops with
  | [] => (m, [])
  | o :: ops' => let '(m, a) := mexec o m in let '(m, l) := mruns ops' m in (m, a :: l)
  end.

Definition dop_ok (o : dop) : Prop := match o with OExpand size => size ≤ 2 ^ 61 | _ => True end.

Lemma entries_size d : dict_ok d → length (entries d) = size (content d).
Proof.
  intros Hok. unfold content. rewrite <- (length_map_to_list (list_to_map (entries d) : gmap K V)).
  apply Permutation_length. symmetry. apply map_to_list_to_map, Hok.
Qed.

Lemma dexec_ok o d can :
  dict_ok d → dop_ok o → Z.of_nat (size (content d)) + 1 < 2 ^ 60 →
  ∃ d' can', dexec o (d, can) = Ok ((d', can'), (mexec o (content d)).2) ∧ dict_ok d' ∧ content d' = (mexec o (content d)).1.
Proof.
  intros Hok Ho Hsm. pose proof (entries_size d Hok) as Hlen. destruct o as [k v|k v|k|k| |n|sz| |n|b]; cbn [dexec mexec fst snd].
  - unfold dictAdd. destruct (dictAddRaw_ok can k v d Hok) as (r & d' & -> & Hok' & Hr); [by rewrite Hlen|].
    cbn [mbind res_bind mret res_ret]. exists d', can. destruct (content d !! k) as [v0|].
    + destruct Hr as (Hc & _ & first & l & -> & _). rewrite bool_decide_eq_false_2 by done. done.
    + destruct Hr as [-> Hc]. by rewrite bool_decide_eq_true_2.
  - destruct (dictReplace_ok can k v d Hok) as (d' & -> & Hok' & Hc); [by rewrite Hlen|]. by exists d', can.
  - destruct (dictGenericDelete_ok k d Hok) as (d' & -> & Hok' & Hc). by exists d', can.
  - destruct (dictFind_ok k d Hok) as (d' & -> & Hok' & Hc). by exists d', can.
  - exists (dictEmpty d), can. split; [done|]. split; [|done]. split; [by apply NoTable|constructor|cbn; lia].
  - destruct (dictRehash_ok n d Hok) as (r & d' & -> & Hok' & He & _). exists d', can. split; [done|]. split; [done|]. by apply content_perm.
  - destruct (dictExpand_ok d sz Hok Ho) as (Hok' & He & _). exists (dictExpand d sz).2, can. split; [done|]. split; [done|].
    apply content_perm; [done|]. by rewrite He.
  - destruct (dictResize_ok can d Hok) as (Hok' & He & _). exists (dictResize can d).2, can. split; [done|]. split; [done|].
    apply content_perm; [done|]. by rewrite He.
  - eexists _, can. split; [reflexivity|]. split; [|done]. destruct Hok as [Hs Hk Hsm']. split; [|done|done].
    destruct Hs as [H0 H1 Hi|b H0 H1 Hi|b b' H0 H1 Hi Hd]; [by apply NoTable|by eapply OneTable|by eapply TwoTables].
  - by exists d, b.
Qed.

Lemma mexec_size o m : (size (mexec o m).1 ≤ size m + 1)%nat.
Proof.
  destruct o as [k v|k v|k|k| |n|sz| |n|b]; cbn [mexec fst]; try lia.
  - destruct (m !! k) eqn:Hk; [lia|]. rewrite map_size_insert_None by done. lia.
  - rewrite map_size_insert. destruct (m !! k); cbn; lia.
  - rewrite map_size_delete. destruct (m !! k); cbn; lia.
  - rewrite map_size_empty. lia.
Qed.

Lemma mruns_size ops : ∀ m, (size (mruns ops m).1 ≤ size m + length ops)%nat.
Proof.
  induction ops as [|o ops IH]; intros m; cbn [mruns]; [cbn [fst length]; lia|]. pose proof (mexec_size o m).
  destruct (mexec o m) as [m1 a]. specialize (IH m1). destruct (mruns ops m1). cbn [fst length] in *. lia.
Qed.

Lemma druns_ok ops : ∀ d can,
  dict_ok d → Forall dop_ok ops → Z.of_nat (size (content d) + length ops) < 2 ^ 60 →
  ∃ d' can', druns ops (d, can) = Ok ((d', can'), (mruns ops (content d)).2) ∧ dict_ok d' ∧ content d' = (mruns ops (content d)).1.
Proof.
  induction ops as [|o ops IH]; intros d can Hok Hops Hsm; cbn [druns mruns]; [by exists d, can|].
  apply Forall_cons in Hops as [Ho Hops]. cbn [length] in Hsm.
  destruct (dexec_ok o d can Hok Ho) as (d1 & can1 & -> & Hok1 & Hc1); [lia|]. cbn [mbind res_bind].
  pose proof (mexec_size o (content d)) as Hsz. rewrite <- Hc1 in Hsz.
  destruct (IH d1 can1 Hok1 Hops) as (d' & can' & -> & Hok' & Hc'); [lia|]. cbn [mbind res_bind mret res_ret].
  exists d', can'. rewrite Hc1 in *. destruct (mexec o (content d)) as [m a]. cbn [fst snd] in *.
  by destruct (mruns ops m) as [m' l].
Qed.

Lemma dictCreate_ok : dict_ok dictCreate.
Proof. split; [by apply NoTable|constructor|cbn; lia]. Qed.

(** C15: a dictionary is a finite map.  Whatever sequence of operations is done to a dictionary that was empty,
    resizing and moving included, no assertion fails and no access is outside of a table, and
    every answer is that of a finite map on which the operations that resize and move
    do nothing. *)
Theorem dict_refines ops :
  Forall dop_ok ops → Z.of_nat (length ops) < 2 ^ 60 →
  ∃ d can, druns ops (dictCreate, true) = Ok ((d, can), (mruns ops ∅).2) ∧ dict_ok d ∧ content d = (mruns ops ∅).1.
Proof. intros Hops Hlen. apply (druns_ok ops dictCreate true dictCreate_ok Hops). change (content dictCreate) with (∅ : gmap K V). by rewrite map_size_empty. Qed.

(** ** Scanning while the dictionary changes *)

(** Before each call something may be done to the dictionary. *)
Fixpoint scan_session (rounds : list (list dop)) (s : dstate) (v : Z) : res (list (K * V) * Z) :=
  match rounds with
  | [] => mret ([], v)
  | ops :: rounds' =>
      '(s, _) ← druns ops s;
      '(l, v) ← dictScan s.1 v;
      '(l', v) ← scan_session rounds' s v;
      mret (l ++ l', v)
  end.

Definition removes (k : K) (o : dop) : Prop := match o with ODelete k' => k' = k | OEmpty => True | _ => False end.

Lemma mruns_keeps k ops : ∀ m, Forall (fun o => ¬ removes k o) ops → is_Some (m !! k) → is_Some ((mruns ops m).1 !! k).
Proof.
  induction ops as [|o ops IH]; intros m Hops Hk; cbn [mruns]; [done|]. apply Forall_cons in Hops as [Ho Hops].
  assert (is_Some ((mexec o m).1 !! k)) as Hk1.
  { destruct o as [k' v|k' v|k'|k'| |n|sz| |n|b]; cbn [mexec fst removes] in *; try done.
    - destruct (m !! k'); [done|]. by apply lookup_insert_is_Some'; right.
    - by apply lookup_insert_is_Some'; right.
    - by rewrite lookup_delete_ne by done. }
  destruct (mexec o m) as [m1 a]. cbn [fst] in Hk1. specialize (IH m1 Hops Hk1). by destruct (mruns ops m1).
Qed.

(** C16: a scan misses nothing.  SCAN calls [dictScan] with the cursor of the call before, beginning with 0, until it
    gets 0.  Whatever is done to the dictionary between the calls, growing, shrinking and moving
    buckets included: a key that was there at the beginning and is not deleted is
    among the keys the calls have returned. *)
Theorem scan_complete rounds d can k :
  dict_ok d → Forall (Forall dop_ok) rounds → Z.of_nat (size (content d) + length (concat rounds)) < 2 ^ 60 →
  is_Some (content d !! k) → Forall (Forall (fun o => ¬ removes k o)) rounds → rounds ≠ [] →
  ∃ l v, scan_session rounds (d, can) 0 = Ok (l, v) ∧ (v = 0 → k ∈ l.*1).
Proof.
  intros Hok Hops Hsm Hk Hkeep Hne.
  assert (∀ rounds d can v, dict_ok d → Forall (Forall dop_ok) rounds → Z.of_nat (size (content d) + length (concat rounds)) < 2 ^ 60 →
    is_Some (content d !! k) → Forall (Forall (fun o => ¬ removes k o)) rounds → 0 ≤ v < 2 ^ 64 →
    ∃ l v', scan_session rounds (d, can) v = Ok (l, v') ∧ (rounds = [] → v' = v) ∧
      (rounds ≠ [] → v' = 0 → rev v ≤ rev (hash k) → k ∈ l.*1)) as Hgen.
  { clear -hash_range. induction rounds as [|ops rounds IH]; intros d can v Hok Hops Hsm Hk Hkeep Hv; cbn [scan_session]; [by exists [], v|].
    apply Forall_cons in Hops as [Ho Hops], Hkeep as [Hk1 Hkeep]. cbn [concat] in Hsm. rewrite length_app in Hsm.
    destruct (druns_ok ops d can Hok Ho) as (d1 & can1 & -> & Hok1 & Hc1); [lia|]. cbn [mbind res_bind fst].
    assert (is_Some (content d1 !! k)) as Hk' by (rewrite Hc1; by apply mruns_keeps).
    assert (entries d1 ≠ []) as Hne1.
    { intros He. destruct Hk' as [x Hx]. apply content_lookup in Hx; [|done]. rewrite He in Hx. by apply elem_of_nil in Hx. }
    destruct (dictScan_ok d1 v Hok1 Hv Hne1) as (Hbits & l & v1 & -> & [Hin _ _] & Hv1 & Hat). cbn [mbind res_bind].
    pose proof (block_end_range (scan_bits d1) (rev v) ltac:(lia) (rev_range v)) as HR.
    set (R := block_end (scan_bits d1) (rev v)) in *.
    assert (size (content d1) ≤ size (content d) + length ops)%nat as Hsz.
    { rewrite Hc1. apply mruns_size. }
    destruct (IH d1 can1 v1 Hok1 Hops) as (l' & v' & -> & Hv' & Hrest); [lia|done..|]. cbn [mbind res_bind mret res_ret].
    exists (l ++ l'), v'. split; [done|]. split; [done|]. intros _ Hz Hle. rewrite fmap_app. apply elem_of_app.
    destruct (decide (rev (hash k) < R)).
    - left. destruct Hk' as [x Hx]. apply list_elem_of_fmap. exists (k, x). split; [done|]. apply Hin; [by apply content_lookup|unfold in_block; cbn [fst]; lia].
    - right. pose proof (rev_range (hash k)). destruct Hat as [[_ Hr]|[? _]]; [|lia]. apply Hrest; [|done|lia].
      intros ->. rewrite Hv' in Hz by done. rewrite Hz, rev_0 in Hr. pose proof (rev_range v). lia. }
  destruct (Hgen rounds d can 0 Hok Hops Hsm Hk Hkeep) as (l & v & Hr & _ & Hin); [lia|]. exists l, v. split; [done|].
  intros Hz. apply Hin; [done..|]. rewrite rev_0. apply rev_range.
Qed.

Lemma scan_calls d can (m : nat) : ∀ j v,
  dict_ok d → entries d ≠ [] → let N := 2 ^ (64 - scan_bits d) in
  0 ≤ j → j + Z.of_nat m ≤ 2 ^ scan_bits d → cursor_at v (j * N) →
  ∃ l v', scan_session (replicate m []) (d, can) v = Ok (l, v') ∧ cursor_at v' ((j + Z.of_nat m) * N) ∧
    l ≡ₚ filter (in_block (j * N) ((j + Z.of_nat m) * N)) (entries d).
Proof.
  induction m as [|m IH]; intros j v Hok Hne N Hj Hm Hat; cbn [replicate scan_session].
  { exists [], v. rewrite Z.add_0_r. split; [done|]. split; [done|]. rewrite filter_none; [done|]. intros e _. unfold in_block. lia. }
  destruct Hat as [Hv Hat]. destruct (dictScan_ok d v Hok Hv Hne) as (Hb & l & v1 & Hs & Hsc & Hat1).
  assert (2 ^ 64 = 2 ^ scan_bits d * N) as Hpow by (unfold N; rewrite <- Z.pow_add_r by lia; f_equal; lia).
  assert (0 < N) as HN by (apply Z.pow_pos_nonneg; lia).
  assert (rev v = j * N) as Hrev by (destruct Hat as [[_ ?]|[? _]]; [done|nia]).
  assert (block_end (scan_bits d) (rev v) = (j + 1) * N) as Hend by (unfold block_end; fold N; rewrite Hrev, Z.div_mul by lia; done).
  rewrite Hend, Hrev in *. destruct (IH (j + 1) v1 Hok Hne) as (l' & v' & Hr & Hat' & Hl'); [lia|lia|done|].
  cbn [druns mbind res_bind mret res_ret fst]. rewrite Hs. cbn [mbind res_bind]. rewrite Hr. cbn [mbind res_bind mret res_ret].
  exists (l ++ l'), v'. replace (j + Z.of_nat (S m)) with (j + 1 + Z.of_nat m) by lia. split; [done|]. split; [done|].
  rewrite (scan_exact _ _ _ _ _ Hsc) by (apply Z.mod_mul; fold N; lia). rewrite Hl'. fold N. symmetry. apply filter_blocks. nia.
Qed.

(** A scan of a dictionary that does not change returns every entry exactly once.  It takes as many calls as the smaller of
    the tables has buckets: after these, and not before, the cursor is 0, and the entries that have
    been returned are those of the dictionary, without repetition. *)
Theorem scan_once d can :
  dict_ok d → entries d ≠ [] → let n := Z.to_nat (2 ^ scan_bits d) in
  (∃ l, scan_session (replicate n []) (d, can) 0 = Ok (l, 0) ∧ l ≡ₚ entries d) ∧
  ∀ m, (0 < m < n)%nat → ∃ l v, scan_session (replicate m []) (d, can) 0 = Ok (l, v) ∧ v ≠ 0.
Proof.
  intros Hok Hne n. assert (0 ≤ 0 < 2 ^ 64) as H0 by lia. destruct (dictScan_ok d 0 Hok H0 Hne) as (Hb & _).
  set (N := 2 ^ (64 - scan_bits d)). assert (2 ^ 64 = 2 ^ scan_bits d * N) as Hpow by (unfold N; rewrite <- Z.pow_add_r by lia; f_equal; lia).
  assert (0 < N) as HN by (apply Z.pow_pos_nonneg; lia). assert (0 < 2 ^ scan_bits d) by (apply Z.pow_pos_nonneg; lia).
  assert (cursor_at 0 (0 * N)) as Hat by (split; [done|left; split; [lia|apply rev_0]]). split.
  - destruct (scan_calls d can n 0 0 Hok Hne) as (l & v & Hr & [_ Hv] & Hl); [lia|unfold n; lia|done|]. fold N in Hv, Hl.
    unfold n in Hv, Hl. rewrite Z2Nat.id, Z.add_0_l, <- Hpow in Hv, Hl by lia.
    destruct Hv as [[? _]|[_ ->]]; [lia|]. exists l. split; [done|]. rewrite Hl, filter_all; [done|].
    intros e _. unfold in_block. rewrite Z.mul_0_l. apply rev_range.
  - intros m Hm. destruct (scan_calls d can m 0 0 Hok Hne) as (l & v & Hr & [_ Hv] & _); [lia|unfold n in Hm; lia|done|]. fold N in Hv.
    exists l, v. split; [done|]. intros ->. rewrite Z.add_0_l in Hv. destruct Hv as [[_ Hv]|[Hv _]].
    + rewrite rev_0 in Hv. nia.
    + assert (Z.of_nat m < 2 ^ scan_bits d) by (unfold n in Hm; lia). nia.
Qed.
End invariant.

(** ** Examples *)

#[local] Transparent rev.

Definition ex_hash (k : Z) : Z := u64 (k * 0x9e3779b97f4a7c15).
Lemma ex_hash_range k : 0 ≤ ex_hash k < 2 ^ 64.
Proof. apply u64_range. Qed.

(** Six keys: the table of four buckets has begun to move to one of eight. *)
Definition ex_ops : list (@dop Z Z) := [OAdd 1 10; OAdd 2 20; OAdd 3 30; OAdd 4 40; OAdd 5 50; OAdd 1 11].

Lemma ex_ops_ok : Forall dop_ok ex_ops.
Proof. repeat (apply Forall_cons; split; [done|]). by apply Forall_nil. Qed.

Lemma dict_refines_witness :
  ∃ d can, druns ex_hash (ex_ops ++ [OReplace 2 21; ODelete 3; OFind 2; OFind 3]) (dictCreate, true)
    = Ok ((d, can), [Added true; Added true; Added true; Added true; Added true; Added false; Added false; Found (Some 30); Found (Some 21); Found None])
    ∧ dict_ok ex_hash d.
Proof.
  destruct (dict_refines ex_hash ex_hash_range (ex_ops ++ [OReplace 2 21; ODelete 3; OFind 2; OFind 3])) as (d & can & Hr & Hok & _).
  - apply Forall_app. split; [exact ex_ops_ok|]. repeat (apply Forall_cons; split; [done|]). by apply Forall_nil.
  - by vm_compute.
  - exists d, can. split; [|exact Hok]. by rewrite Hr.
Defined.

Definition ex_dict : @dict Z Z :=
  match druns ex_hash ex_ops (dictCreate, true) with Ok ((d, _), _) => d | Abort _ => dictCreate end.
Lemma ex_dict_ok : dict_ok ex_hash ex_dict ∧ content ex_dict = (mruns ex_ops ∅).1.
Proof.
  destruct (druns_ok ex_hash ex_hash_range ex_ops dictCreate true (dictCreate_ok _) ex_ops_ok) as (d & can & Hr & Hok & Hc).
  { change (content dictCreate) with (∅ : gmap Z Z). rewrite map_size_empty. by vm_compute. }
  unfold ex_dict. destruct (druns ex_hash ex_ops (dictCreate, true)) as [[[d' can'] l]|]; [|discriminate Hr].
  injection Hr as -> _ _. exact (conj Hok Hc).
Qed.

(** Between the calls keys are added until the table is moved again, and the key 1 stays. *)
Definition ex_rounds : list (list (@dop Z Z)) := [[]; [OAdd 6 60; OAdd 7 70; ODelete 2]; [ORehash 100]; [OAdd 8 80; OAdd 9 90]; [OFind 3]; []].
Lemma scan_complete_witness :
  ∃ l v, scan_session ex_hash ex_rounds (ex_dict, true) 0 = Ok (l, v) ∧ (v = 0 → 1 ∈ l.*1).
Proof.
  destruct ex_dict_ok as [Hok Hc].
  apply (scan_complete ex_hash ex_hash_range ex_rounds ex_dict true 1 Hok).
  - repeat (apply Forall_cons; split; [repeat (apply Forall_cons; split; [done|]); by apply Forall_nil|]). by apply Forall_nil.
  - rewrite Hc. by vm_compute.
  - rewrite Hc. vm_compute. by eexists.
  - unfold ex_rounds. repeat (apply Forall_cons_2 || apply Forall_nil_2); intros Hx; cbn in Hx; (exact Hx || lia).
  - done.
Defined.

Lemma scan_once_witness :
  (∃ l, scan_session ex_hash (replicate 4 []) (ex_dict, true) 0 = Ok (l, 0) ∧ l ≡ₚ entries ex_dict) ∧
  (∃ l v, scan_session ex_hash (replicate 3 []) (ex_dict, true) 0 = Ok (l, v) ∧ v ≠ 0).
Proof.
  destruct (scan_once ex_hash ex_hash_range ex_dict true) as [H1 H2]; [apply ex_dict_ok|by vm_compute|].
  assert (Z.to_nat (2 ^ scan_bits ex_dict) = 4%nat) as Hn by (by vm_compute). rewrite Hn in H1, H2. split; [exact H1|].
  apply (H2 3%nat). lia.
Defined.
