(* ===== verification/DictIter.v ===== *)
(** * Iterators of hash tables (src/src/dict.c)

    An iterator walks over the buckets of the first table and then, while the dictionary is
    moving to its second table, over those of the second.  A pointer to an entry is the key of
    the entry: the entry is looked for in the bucket the iterator is at, and a pointer to an
    entry that is no longer there is an [Abort].

    An unsafe iterator takes a fingerprint of the dictionary at its first step, and releasing
    it asserts that the fingerprint is the same; a safe one stops the moving meanwhile.

    Shown: an iterator returns the entries of the dictionary, each once; and a loop with a safe
    iterator whose body changes the dictionary misses no key that was there at the beginning
    and never follows a pointer to an entry that is gone. *)

From S2P Require Import Prelude Dict.
From stdpp Require Import list gmap.
#[local] Open Scope Z_scope.

Section iter.
Context {K V : Type} `{Countable K}.
(** [(long) d->ht[i].table] *)
Variable address : list (list (K * V)) → Z.
Abbreviation dict := (@dict K V).
Implicit Types (d : dict) (b : list (K * V)).

Definition s64 (z : Z) : Z := to_signed 64 z.

(** A turn of the loop of [dictFingerprint]. *)
Definition fingerprint_turn (hash n : Z) : Z :=
  let hash := s64 (hash + n) in
  let hash := s64 (Z.lnot hash + s64 (Z.shiftl hash 21)) in
  let hash := Z.lxor hash (Z.shiftr hash 24) in
  let hash := s64 (s64 (hash + s64 (Z.shiftl hash 3)) + s64 (Z.shiftl hash 8)) in
  let hash := Z.lxor hash (Z.shiftr hash 14) in
  let hash := s64 (s64 (hash + s64 (Z.shiftl hash 2)) + s64 (Z.shiftl hash 4)) in
  let hash := Z.lxor hash (Z.shiftr hash 28) in
  s64 (hash + s64 (Z.shiftl hash 31)).
Definition dictFingerprint d : Z :=
  foldl fingerprint_turn 0
    [address (table (ht0 d)); s64 (ht_size (ht0 d)); s64 (ht_used (ht0 d));
     address (table (ht1 d)); s64 (ht_size (ht1 d)); s64 (ht_used (ht1 d))].

Record dictIterator := DictIterator {
  it_index : Z; it_table : Z; it_safe : bool;
  it_entry : option K; it_nextEntry : option K; it_fingerprint : Z
}.
Implicit Types it : dictIterator.

Definition dictGetIterator : dictIterator := DictIterator (-1) 0 false None None 0.
Definition dictGetSafeIterator : dictIterator := DictIterator (-1) 0 true None None 0.

(** [&iter->d->ht[iter->table]] *)
Definition iter_ht it d : dictht := if it_table it =? 0 then ht0 d else ht1 d.

(** The chain that begins at the entry with the key. *)
Fixpoint chain_from (k : K) b : option (list (K * V)) :=
  match b with
  | [] => None
  | (k', v) :: b' => if decide (k = k') then Some b else chain_from k b'
  end.
Definition head_key b : option K := fst <$> head b.

(** What the first step does before it moves. *)
Definition iter_start it d : dictIterator * dict :=
  if (it_index it =? -1) && (it_table it =? 0) then
    if it_safe it then (it, Dict (ht0 d) (ht1 d) (rehashidx d) (u64 (iterators d + 1)))
    else (DictIterator (it_index it) (it_table it) (it_safe it) (it_entry it) (it_nextEntry it) (dictFingerprint d), d)
  else (it, d).
Definition iter_at it (table index : Z) (entry : option K) : dictIterator :=
  DictIterator index table (it_safe it) entry (it_nextEntry it) (it_fingerprint it).

(** The branch for [iter->entry == NULL]: the next bucket, or nothing at the end. *)
Definition iter_bucket it d : res (bool * dictIterator) :=
  let index := it_index it + 1 in
  if to_signed 64 (ht_size (iter_ht it d)) <=? index then
    if dictIsRehashing d && (it_table it =? 0) then
      b ← get_bucket (ht1 d) 0; mret (true, iter_at it 1 0 (head_key b))
    else mret (false, iter_at it (it_table it) index None)
  else b ← get_bucket (iter_ht it d) index; mret (true, iter_at it (it_table it) index (head_key b)).

(** [iter->nextEntry = iter->entry->next; return iter->entry]. *)
Definition iter_return (k : K) it d : res (K * V * dictIterator) :=
  b ← get_bucket (iter_ht it d) (it_index it);
  match chain_from k b with
  | Some (e :: rest) => mret (e, DictIterator (it_index it) (it_table it) (it_safe it) (Some k) (head_key rest) (it_fingerprint it))
  | _ => Abort "dangling dictEntry"
  end.

(** Every turn but the first goes to another bucket. *)
Fixpoint next_loop (fuel : nat) it d : res (option (K * V) * dictIterator * dict) :=
  match fuel with
  | O => Abort "fuel"
  | S fuel' =>
      '(more, it, d) ← match it_entry it with
        | None => let '(it, d) := iter_start it d in '(more, it) ← iter_bucket it d; mret (more, it, d)
        | Some _ => mret (true, iter_at it (it_table it) (it_index it) (it_nextEntry it), d)
        end;
      if negb more then mret (None, it, d)
      else match it_entry it with
           | Some k => '(e, it) ← iter_return k it d; mret (Some e, it, d)
           | None => next_loop fuel' it d
           end
  end.
Definition dictNext it d : res (option (K * V) * dictIterator * dict) :=
  next_loop (length (table (ht0 d)) + length (table (ht1 d)) + 2) it d.

Definition dictReleaseIterator it d : res dict :=
  if negb ((it_index it =? -1) && (it_table it =? 0)) then
    if it_safe it then mret (Dict (ht0 d) (ht1 d) (rehashidx d) (u64 (iterators d - 1)))
    else serverAssert (it_fingerprint it =? dictFingerprint d) "iter->fingerprint == dictFingerprint(iter->d)" ;; mret d
  else mret d.
End iter.
Arguments dictIterator K : clear implicits.

(** ** What an iterator has still to return *)

Section walk.
Context {K V : Type} `{Countable K}.
Variable hash : K → Z.
Variable address : list (list (K * V)) → Z.
Abbreviation dict := (@dict K V).
Implicit Types (d : dict) (it : dictIterator K) (c l : list (K * V)).

(** The buckets in the order of the walk. *)
Definition buckets d : list (list (K * V)) := table (ht0 d) ++ table (ht1 d).
Lemma buckets_entries d : concat (buckets d) = entries d.
Proof. unfold buckets. by rewrite concat_app. Qed.

(** The iterator is in front of the bucket [n]. *)
Definition in_front it d (n : nat) : Prop :=
  (it_table it = 0 ∧ Z.of_nat n = it_index it + 1 ∧ (n ≤ length (table (ht0 d)))%nat) ∨
  (it_table it = 1 ∧ dictIsRehashing d = true ∧ 0 ≤ it_index it ∧ Z.of_nat n = Z.of_nat (length (table (ht0 d))) + it_index it + 1 ∧ (n ≤ length (buckets d))%nat).

(** It will return [l]: the rest [c] of the chain it is in, and the buckets from [n] on. *)
Definition iterating it d l : Prop :=
  ∃ c n, l = c ++ concat (drop n (buckets d)) ∧ in_front it d n ∧
    match it_entry it with
    | None => c = []
    | Some _ => it_nextEntry it = head_key c ∧ 0 ≤ it_index it ∧ (c ≠ [] → ∃ pre, buckets d !! pred n = Some (pre ++ c))
    end.

Lemma tables_sized d :
  dict_ok hash d →
  ht_size (ht0 d) = Z.of_nat (length (table (ht0 d))) ∧ ht_size (ht1 d) = Z.of_nat (length (table (ht1 d))) ∧
  ht_size (ht0 d) < 2 ^ 63 ∧ ht_size (ht1 d) < 2 ^ 63 ∧
  if dictIsRehashing d then (0 < length (table (ht1 d)))%nat else table (ht1 d) = [].
Proof.
  intros [[H0 H1 Hi|b H0 H1 Hi|b b' H0 H1 Hi _] _ _]; unfold dictIsRehashing.
  - rewrite H0, H1, Hi. done.
  - rewrite H1, Hi, (tab_size _ _ _ H0), (tab_len _ _ _ H0). pose proof (tab_bits _ _ _ H0). pose proof (Z.pow_lt_mono_r 2 b 63). cbn [negb Z.eqb]. split_and!; done || lia.
  - rewrite (tab_size _ _ _ H0), (tab_len _ _ _ H0), (tab_size _ _ _ H1), (tab_len _ _ _ H1). pose proof (tab_bits _ _ _ H0). pose proof (tab_bits _ _ _ H1).
    pose proof (Z.pow_lt_mono_r 2 b 63). pose proof (Z.pow_lt_mono_r 2 b' 63). pose proof (tab_len _ _ _ H1). pose proof (Z.pow_pos_nonneg 2 b').
    rewrite (proj2 (Z.eqb_neq (rehashidx d) (-1))) by lia. cbn [negb]. split_and!; done || lia.
Qed.

Lemma chain_from_app k v (pre c : list (K * V)) : k ∉ pre.*1 → chain_from k (pre ++ (k, v) :: c) = Some ((k, v) :: c).
Proof.
  induction pre as [|[k' v'] pre IH]; cbn [app chain_from fmap list_fmap fst].
  - by rewrite decide_True.
  - intros [Hne Hn]%not_elem_of_cons. rewrite decide_False by done. by apply IH.
Qed.

Lemma bucket_keys d n l : dict_ok hash d → buckets d !! n = Some l → NoDup l.*1.
Proof.
  intros Hok Hn. pose proof (dict_keys _ _ Hok) as Hnd. rewrite <- buckets_entries, <- (take_drop_middle _ _ _ Hn), concat_app in Hnd.
  cbn [concat] in Hnd. rewrite !fmap_app in Hnd. apply NoDup_app in Hnd as (_ & _ & Hnd). by apply NoDup_app in Hnd as (? & _).
Qed.

(** The bucket in front of which the iterator was is the one it is at now. *)
Lemma get_front it d n l :
  in_front it d (S n) → 0 ≤ it_index it → buckets d !! n = Some l → get_bucket (iter_ht it d) (it_index it) = Ok l.
Proof.
  intros Hf Hi Hl. unfold iter_ht, get_bucket, buckets in *.
  assert (∀ (t : list (list (K * V))) i, 0 ≤ i → t !! Z.to_nat i = Some l → (0 <=? i) && (i <? Z.of_nat (length t)) = true) as Hin.
  { intros t i H0 Ht. apply lookup_lt_Some in Ht. rewrite (proj2 (Z.leb_le 0 i)) by done. apply Z.ltb_lt. lia. }
  destruct Hf as [(-> & Hn & Hle)|(-> & _ & _ & Hn & Hle)]; cbn [Z.eqb].
  - rewrite lookup_app_l in Hl by lia. replace n with (Z.to_nat (it_index it)) in Hl by lia. by rewrite (Hin _ _ Hi Hl), Hl.
  - rewrite lookup_app_r in Hl by lia. replace (n - length (table (ht0 d)))%nat with (Z.to_nat (it_index it)) in Hl by lia. by rewrite (Hin _ _ Hi Hl), Hl.
Qed.

(** Returning an entry of the chain. *)
Lemma return_ok it d n k v pre c :
  dict_ok hash d → in_front it d (S n) → 0 ≤ it_index it → buckets d !! n = Some (pre ++ (k, v) :: c) →
  ∃ it', iter_return k it d = Ok ((k, v), it') ∧ iterating it' d (c ++ concat (drop (S n) (buckets d))) ∧
    it_safe it' = it_safe it ∧ it_fingerprint it' = it_fingerprint it ∧ 0 ≤ it_index it' ∧ it_nextEntry it' = head_key c.
Proof.
  intros Hok Hf Hi Hb. pose proof (bucket_keys d n _ Hok Hb) as Hnd. rewrite fmap_app in Hnd. apply NoDup_app in Hnd as (_ & Hk & _).
  unfold iter_return. rewrite (get_front it d n _ Hf Hi Hb). cbn [mbind res_bind].
  rewrite chain_from_app by (intros Hin; eapply Hk; [done|cbn; left]). eexists. split; [done|]. split; [|done].
  exists c, (S n). split; [done|]. split; [exact Hf|]. cbn. split; [done|]. split; [done|]. intros _. exists (pre ++ [(k, v)]). by rewrite <- app_assoc.
Qed.

(** The next bucket. *)
Lemma bucket_next_ok it d n :
  dict_ok hash d → in_front it d n →
  match buckets d !! n with
  | Some b => ∃ it', iter_bucket it d = Ok (true, it') ∧ in_front it' d (S n) ∧ 0 ≤ it_index it' ∧ it_entry it' = head_key b ∧
      it_safe it' = it_safe it ∧ it_fingerprint it' = it_fingerprint it
  | None => ∃ it', iter_bucket it d = Ok (false, it') ∧ 0 ≤ it_index it' ∧ it_safe it' = it_safe it ∧ it_fingerprint it' = it_fingerprint it
  end.
Proof.
  intros Hok Hf. destruct (tables_sized d Hok) as (S0 & S1 & L0 & L1 & Hr). unfold iter_bucket.
  assert (to_signed 64 (ht_size (iter_ht it d)) = Z.of_nat (length (table (iter_ht it d)))) as ->.
  { unfold iter_ht. destruct (it_table it =? 0); (rewrite to_signed_small; [done|done|lia]). }
  destruct Hf as [(Ht & Hn & Hle)|(Ht & Hre & H0 & Hn & Hle)]; unfold iter_ht in *; rewrite Ht; cbn [Z.eqb].
  - destruct (Z.leb_spec (Z.of_nat (length (table (ht0 d)))) (it_index it + 1)).
    + assert (n = length (table (ht0 d))) as -> by lia. unfold buckets. rewrite lookup_app_r, Nat.sub_diag by lia. destruct (dictIsRehashing d) eqn:Ere; cbn [andb].
      * destruct (table (ht1 d)) as [|b bs] eqn:E1; [cbn in Hr; lia|]. cbn [lookup list_lookup].
        set (it' := iter_at it 1 0 (head_key b)). assert (in_front it' d (S (length (table (ht0 d))))) as Hf.
        { right. unfold buckets. rewrite E1, length_app. cbn. repeat split; done || lia. }
        assert (get_bucket (ht1 d) 0 = Ok b) as ->.
        { unfold get_bucket. rewrite E1. cbn [length]. rewrite (proj2 (Z.ltb_lt _ _)) by lia. done. }
        cbn [mbind res_bind mret res_ret]. exists it'. done.
      * rewrite Hr. cbn. eexists. split; [done|]. cbn. split; [lia|done].
    + destruct (lookup_lt_is_Some_2 (buckets d) n) as [b Hb]; [unfold buckets; rewrite length_app; lia|]. rewrite Hb.
      set (it' := iter_at it 0 (it_index it + 1) (head_key b)). assert (in_front it' d (S n)) as Hf by (left; cbn; repeat split; lia).
      pose proof (get_front it' d n b Hf) as Hg. cbn in Hg. rewrite Hg by (done || lia). cbn [mbind res_bind mret res_ret]. exists it'. split_and!; done || cbn; lia.
  - destruct (Z.leb_spec (Z.of_nat (length (table (ht1 d)))) (it_index it + 1)).
    + rewrite andb_false_r. rewrite (proj2 (lookup_ge_None _ _)) by (unfold buckets; rewrite length_app; lia). cbn. eexists. split; [done|]. cbn. split; [lia|done].
    + destruct (lookup_lt_is_Some_2 (buckets d) n) as [b Hb]; [unfold buckets; rewrite length_app; lia|]. rewrite Hb.
      set (it' := iter_at it 1 (it_index it + 1) (head_key b)). assert (in_front it' d (S n)) as Hf by (right; apply lookup_lt_Some in Hb; cbn; repeat split; done || lia).
      pose proof (get_front it' d n b Hf) as Hg. cbn in Hg. rewrite Hg by (done || lia). cbn [mbind res_bind mret res_ret]. exists it'. split_and!; done || cbn; lia.
Qed.

(** *** A call *)

(** What a call does from the bucket the iterator is in front of. *)
Definition from_bucket (fuel : nat) it d : res (option (K * V) * dictIterator K * dict) :=
  '(more, it) ← iter_bucket it d;
  if negb more then mret (None, it, d)
  else match it_entry it with
       | Some k => '(e, it) ← iter_return k it d; mret (Some e, it, d)
       | None => next_loop address fuel it d
       end.
Lemma next_loop_bucket fuel it d :
  it_entry it = None → next_loop address (S fuel) it d = from_bucket fuel (iter_start address it d).1 (iter_start address it d).2.
Proof.
  intros E. cbn [next_loop]. rewrite E. destruct (iter_start address it d) as [it1 d1]. cbn [fst snd]. unfold from_bucket.
  by destruct (iter_bucket it1 d1) as [[[] it2]|].
Qed.
Lemma next_loop_chain fuel it d :
  it_entry it ≠ None →
  let it1 := iter_at it (it_table it) (it_index it) (it_nextEntry it) in
  next_loop address (S fuel) it d =
    match it_nextEntry it with
    | Some k => '(e, it) ← iter_return k it1 d; mret (Some e, it, d)
    | None => next_loop address fuel it1 d
    end.
Proof. intros E. cbn [next_loop]. by destruct (it_entry it). Qed.

(** The iterator has made its first step. *)
Definition started it d : Prop := 0 ≤ it_index it ∧ (it_safe it = false → it_fingerprint it = dictFingerprint address d).
Lemma started_start it d : started it d → iter_start address it d = (it, d).
Proof. intros [Hi _]. unfold iter_start. by rewrite (proj2 (Z.eqb_neq (it_index it) (-1))) by lia. Qed.

(** The result of a call that has still to return [l]. *)
Definition call_ok (r : res (option (K * V) * dictIterator K * dict)) d (safe : bool) l : Prop :=
  ∃ it', r = Ok (head l, it', d) ∧ it_safe it' = safe ∧ started it' d ∧
    (l ≠ [] → iterating it' d (tail l) ∧ ∀ k, it_nextEntry it' = Some k → k ∈ (tail l).*1).
Lemma head_key_in c l k : head_key c = Some k → k ∈ (c ++ l).*1.
Proof. destruct c as [|[k0 v0] c]; cbn; [done|]. intros [= ->]. left. Qed.

Lemma from_bucket_ok fuel it d n :
  dict_ok hash d → in_front it d n → (it_safe it = false → it_fingerprint it = dictFingerprint address d) → (length (buckets d) ≤ fuel + n)%nat →
  call_ok (from_bucket fuel it d) d (it_safe it) (concat (drop n (buckets d))).
Proof.
  revert it n. induction fuel as [|fuel IH]; intros it n Hok Hf Hfp Hfuel; unfold from_bucket; pose proof (bucket_next_ok it d n Hok Hf) as Hb.
  - rewrite (proj2 (lookup_ge_None _ _)) in Hb by lia. destruct Hb as (it' & -> & Hi & Hs & Hfp'). cbn [mbind res_bind negb]. rewrite drop_ge by lia.
    exists it'. split; [done|]. split; [done|]. split; [|done]. split; [done|]. by rewrite Hs, Hfp'.
  - destruct (buckets d !! n) as [b|] eqn:En.
    + destruct Hb as (it' & -> & Hf' & Hi & He & Hs & Hfp'). cbn [mbind res_bind negb]. rewrite He, (drop_S _ _ _ En). cbn [concat]. destruct b as [|[k v] c]; cbn [head_key head fst fmap option_fmap option_map app].
      * assert (started it' d) as Hst by (split; [done|]; by rewrite Hs, Hfp').
        rewrite next_loop_bucket, (started_start _ _ Hst), <- Hs by done. apply IH; [done|done|apply Hst|lia].
      * destruct (return_ok it' d n k v [] c Hok Hf' Hi En) as (it2 & -> & Hit & Hs2 & Hf2 & Hi2 & Hn2). cbn [mbind res_bind]. exists it2. split; [done|].
        split; [by rewrite Hs2|]. split; [split; [done|]; by rewrite Hs2, Hf2, Hs, Hfp'|]. intros _. split; [done|]. intros k'. rewrite Hn2. apply head_key_in.
    + destruct Hb as (it' & -> & Hi & Hs & Hfp'). cbn [mbind res_bind negb]. apply lookup_ge_None in En. rewrite drop_ge by lia.
      exists it'. split; [done|]. split; [done|]. split; [|done]. split; [done|]. by rewrite Hs, Hfp'.
Qed.

Lemma dict_ok_iterators d n : dict_ok hash d → dict_ok hash (Dict (ht0 d) (ht1 d) (rehashidx d) n).
Proof.
  intros [Hs Hk Hsm]. split; [|done|done]. destruct Hs as [H0 H1 Hi|b H0 H1 Hi|b b' H0 H1 Hi Hd]; [by apply NoTable|by eapply OneTable|by eapply TwoTables].
Qed.

(** A call of an iterator that has made its first step. *)
Lemma next_started_ok it d l :
  dict_ok hash d → iterating it d l → started it d → call_ok (dictNext address it d) d (it_safe it) l.
Proof.
  intros Hok (c & n & -> & Hf & Hc) Hst. unfold dictNext. rewrite Nat.add_comm. cbn [Nat.add]. set (fuel := (length _ + length _)%nat).
  assert ((length (buckets d) ≤ fuel + n)%nat) as Hfuel by (unfold buckets; rewrite length_app; lia).
  destruct (it_entry it) as [k0|] eqn:Ee.
  - destruct Hc as (Hn & Hi & Hc). rewrite next_loop_chain by (by rewrite Ee). rewrite Hn.
    destruct c as [|[k v] c]; cbn [head_key head fst fmap option_fmap option_map app].
    + set (it1 := iter_at it _ _ _). rewrite next_loop_bucket, started_start by done. cbn [fst snd].
      change (it_safe it) with (it_safe it1). apply from_bucket_ok; [done|done|apply Hst|done].
    + destruct Hc as [pre Hb]; [done|]. assert (n = S (pred n)) as En by (destruct Hf as [(_ & ? & _)|(_ & _ & _ & ? & _)]; lia). rewrite En in Hf.
      set (it1 := iter_at it _ _ _). destruct (return_ok it1 d (pred n) k v pre c Hok Hf Hi Hb) as (it2 & -> & Hit & Hs2 & Hf2 & Hi2 & Hn2). cbn [mbind res_bind].
      exists it2. split; [done|]. split; [by rewrite Hs2|]. split; [split; [done|]; rewrite Hs2, Hf2; apply Hst|]. intros _. rewrite En. split; [done|]. intros k'. rewrite Hn2. apply head_key_in.
  - rewrite next_loop_bucket, started_start, Hc by done. cbn [app fst snd]. apply from_bucket_ok; [done|done|apply Hst|lia].
Qed.

(** The first call. *)
Definition fresh (safe : bool) : dictIterator K := if safe then dictGetSafeIterator else dictGetIterator.
Definition entered (safe : bool) d : dict := if safe then Dict (ht0 d) (ht1 d) (rehashidx d) (u64 (iterators d + 1)) else d.

Lemma next_fresh_ok safe d : dict_ok hash d → call_ok (dictNext address (fresh safe) d) (entered safe d) safe (entries d).
Proof.
  intros Hok. unfold dictNext. rewrite Nat.add_comm. cbn [Nat.add]. rewrite next_loop_bucket by (by destruct safe).
  set (fuel := S (length _ + length _)%nat). rewrite <- buckets_entries.
  assert (∃ fp, (iter_start address (fresh safe) d) = (DictIterator (-1) 0 safe None None fp, entered safe d) ∧ (safe = false → fp = dictFingerprint address d)) as (fp & -> & Hfp).
  { destruct safe; eexists; (split; [reflexivity|]); [discriminate|reflexivity]. }
  cbn [fst snd]. replace (concat (buckets d)) with (concat (drop 0 (buckets (entered safe d)))) by (by destruct safe).
  apply (from_bucket_ok fuel (DictIterator (-1) 0 safe None None fp) (entered safe d) 0).
  - destruct safe; [by apply dict_ok_iterators|done].
  - left. cbn. repeat split; lia.
  - cbn [it_safe it_fingerprint]. intros E. rewrite E in *. by apply Hfp.
  - unfold buckets. rewrite length_app. destruct safe; cbn [entered ht0 ht1]; lia.
Qed.
End walk.

(** ** A dictionary that changes under a safe iterator *)

Section safe.
Context {K V : Type} `{Countable K}.
Variable hash : K → Z.
Hypothesis hash_range : ∀ k, 0 ≤ hash k < 2 ^ 64.
Variable address : list (list (K * V)) → Z.
Abbreviation dict := (@dict K V).
Implicit Types (d : dict) (it : dictIterator K) (b c l : list (K * V)).

Definition same_keys (Q : K → Prop) l l' : Prop := ∀ x, Q x → x ∈ l'.*1 ↔ x ∈ l.*1.

Lemma elem_of_keys x (bs : list (list (K * V))) : x ∈ (concat bs).*1 ↔ ∃ i b, bs !! i = Some b ∧ x ∈ b.*1.
Proof.
  rewrite list_elem_of_fmap. split.
  - intros (e & -> & (i & b & Hi & He)%elem_of_concat). exists i, b. split; [done|]. apply list_elem_of_fmap. eauto.
  - intros (i & b & Hi & (e & -> & He)%list_elem_of_fmap). exists e. split; [done|]. apply elem_of_concat. eauto.
Qed.

Lemma same_keys_update (Q : K → Prop) (bs : list (list (K * V))) gi b b' n :
  bs !! gi = Some b → same_keys Q b b' → same_keys Q (concat (drop n bs)) (concat (drop n (<[gi := b']> bs))).
Proof.
  intros Hgi Hb x Hx. pose proof (lookup_lt_Some _ _ _ Hgi). rewrite !elem_of_keys. split; intros (i & b0 & Hi & Hin); rewrite lookup_drop in Hi.
  - destruct (decide (n + i = gi)%nat) as [<-|Hne].
    + rewrite list_lookup_insert_eq in Hi by done. injection Hi as <-. exists i, b. rewrite lookup_drop. split; [done|]. by apply Hb.
    + rewrite list_lookup_insert_ne in Hi by done. exists i, b0. by rewrite lookup_drop.
  - destruct (decide (n + i = gi)%nat) as [<-|Hne].
    + rewrite Hgi in Hi. injection Hi as <-. exists i, b'. rewrite lookup_drop, list_lookup_insert_eq by done. split; [done|]. by apply Hb.
    + exists i, b0. by rewrite lookup_drop, list_lookup_insert_ne by done.
Qed.

(** A bucket is replaced by one in which the entry the iterator will go to is still there. *)
Lemma iterating_update (Q : K → Prop) it d d' l gi b b' :
  iterating it d l → buckets d !! gi = Some b → buckets d' = <[gi := b']> (buckets d) →
  length (table (ht0 d')) = length (table (ht0 d)) → dictIsRehashing d' = dictIsRehashing d → same_keys Q b b' →
  (∀ pre c, b = pre ++ c → c ≠ [] → it_nextEntry it = head_key c → ∃ pre' c', b' = pre' ++ c' ∧ head_key c' = head_key c ∧ same_keys Q c c') →
  ∃ l', iterating it d' l' ∧ same_keys Q l l'.
Proof.
  intros (c & n & -> & Hf & Hc) Hgi Hb' Hlen Hre Hk Hch.
  assert (in_front it d' n) as Hf'.
  { assert (length (buckets d') = length (buckets d)) as El by (by rewrite Hb', length_insert). unfold in_front in *. rewrite Hlen, Hre, El. done. }
  assert (∀ c', same_keys Q c c' → same_keys Q (c ++ concat (drop n (buckets d))) (c' ++ concat (drop n (buckets d')))) as Happ.
  { intros c' Hcc x Hx. rewrite !fmap_app, !elem_of_app, (Hcc x Hx), Hb'. by rewrite (same_keys_update Q _ _ _ _ n Hgi Hk x Hx). }
  destruct (it_entry it) as [k0|] eqn:Ee.
  - destruct Hc as (Hn & Hi & Hc). destruct (decide (c = [])) as [->|Hne].
    { exists ([] ++ concat (drop n (buckets d'))). split; [|by apply Happ]. exists [], n. split; [done|]. split; [done|]. by rewrite Ee. }
    destruct (Hc Hne) as [pre Hpre]. destruct (decide (pred n = gi)) as [Hg|Hg].
    + rewrite Hg, Hgi in Hpre. injection Hpre as ->. destruct (Hch pre c eq_refl Hne Hn) as (pre' & c' & -> & Hh & Hcc).
      exists (c' ++ concat (drop n (buckets d'))). split; [|by apply Happ]. exists c', n. split; [done|]. split; [done|]. rewrite Ee, Hh. split; [done|]. split; [done|].
      intros _. exists pre'. rewrite Hb', Hg, list_lookup_insert_eq; [done|by eapply lookup_lt_Some].
    + exists (c ++ concat (drop n (buckets d'))). split; [|by apply Happ]. exists c, n. split; [done|]. split; [done|]. rewrite Ee. split; [done|]. split; [done|].
      intros _. exists pre. by rewrite Hb', list_lookup_insert_ne.
  - subst c. exists ([] ++ concat (drop n (buckets d'))). split; [|by apply Happ]. exists [], n. split; [done|]. split; [done|]. by rewrite Ee.
Qed.

(** *** The changes of a chain *)

Lemma set_value_keys k v b : (set_value k v b).*1 = b.*1.
Proof. induction b as [|[k' v'] b IH]; cbn; [done|]. case_decide; cbn; [done|]. by f_equal. Qed.
Lemma set_value_app k v b c : ∃ b' c', set_value k v (b ++ c) = b' ++ c' ∧ c'.*1 = c.*1.
Proof.
  induction b as [|[k' v'] b IH]; cbn [app set_value].
  - exists [], (set_value k v c). split; [done|]. apply set_value_keys.
  - case_decide; [by exists ((k', v) :: b), c|]. destruct IH as (b' & c' & -> & E). by exists ((k', v') :: b'), c'.
Qed.
Lemma head_key_keys c c' : c'.*1 = c.*1 → head_key c' = head_key c.
Proof. destruct c as [|[]], c' as [|[]]; cbn; congruence. Qed.

Lemma unlink_keys k b v b' x : unlink k b = Some (v, b') → x ≠ k → x ∈ b'.*1 ↔ x ∈ b.*1.
Proof.
  intros Hu Hx. revert b' Hu. induction b as [|[k' v'] b IH]; cbn [unlink]; intros b'; [done|]. case_decide as Hd.
  - intros [= -> ->]. cbn. rewrite elem_of_cons. naive_solver.
  - destruct (unlink k b) as [[v0 b0]|]; [|done]. intros [= -> <-]. cbn. rewrite !elem_of_cons, IH by done. done.
Qed.
Lemma unlink_app k b c v b' :
  unlink k (b ++ c) = Some (v, b') → head_key c ≠ Some k →
  ∃ b1 c1, b' = b1 ++ c1 ∧ head_key c1 = head_key c ∧ ∀ x, x ≠ k → x ∈ c1.*1 ↔ x ∈ c.*1.
Proof.
  revert b'. induction b as [|[k' v'] b IH]; cbn [app unlink]; intros b' Hu Hh.
  - destruct c as [|[k' v'] c]; [done|]. cbn in Hh. cbn [unlink] in Hu. rewrite decide_False in Hu by congruence. destruct (unlink k c) as [[v0 c0]|] eqn:Ec; [|done].
    injection Hu as -> <-. exists [], ((k', v') :: c0). split; [done|]. split; [done|]. intros x Hx. cbn. by rewrite !elem_of_cons, (unlink_keys _ _ _ _ _ Ec).
  - case_decide; [injection Hu as -> <-; by exists b, c|]. destruct (unlink k (b ++ c)) as [[v0 b0]|]; [|done]. injection Hu as -> <-.
    destruct (IH b0 eq_refl Hh) as (b1 & c1 & -> & ? & ?). by exists ((k', v') :: b1), c1.
Qed.

(** *** The operations *)

Lemma elem_of_content d x : is_Some (content d !! x) ↔ x ∈ (entries d).*1.
Proof.
  unfold content. split.
  - intros [v Hv]. apply elem_of_list_to_map_2 in Hv. apply list_elem_of_fmap. by exists (x, v).
  - intros Hx. apply not_eq_None_Some. intros Hn. by apply not_elem_of_list_to_map in Hn.
Qed.
Lemma iterating_in it d l x : iterating it d l → x ∈ l.*1 → is_Some (content d !! x).
Proof.
  intros (c & n & -> & _ & Hc) Hx. rewrite elem_of_content, <- buckets_entries, elem_of_keys. rewrite fmap_app, elem_of_app in Hx. destruct Hx as [Hx|Hx].
  - destruct (it_entry it); [|subst c; by apply elem_of_nil in Hx]. destruct Hc as (_ & _ & Hc). destruct Hc as [pre Hp]; [by intros ->; apply elem_of_nil in Hx|].
    eexists _, _. split; [done|]. rewrite fmap_app, elem_of_app. by right.
  - apply elem_of_keys in Hx as (i & b & Hi & Hx). rewrite lookup_drop in Hi. eauto.
Qed.

(** The iterator goes on in the changed dictionary: it misses no key that stays, and a key
    that it would not have returned is new. *)
Definition goes_on it d l d' : Prop :=
  iterators d' = iterators d ∧
  ∃ l', iterating it d' l' ∧
    ∀ x, (x ∈ l.*1 → is_Some (content d' !! x) → x ∈ l'.*1) ∧ (x ∈ l'.*1 → x ∈ l.*1 ∨ content d !! x = None).
Lemma goes_on_refl it d l d' : iterators d' = iterators d → iterating it d' l → goes_on it d l d'.
Proof. intros Hi Hit. split; [done|]. exists l. split; [done|]. intros x. by split; [|left]. Qed.

Lemma with_bucket d (first : bool) i b b' used :
  let t := if first then ht0 d else ht1 d in
  let d' := with_table first (set_bucket t i b' used) d in
  get_bucket t i = Ok b →
  ∃ gi, buckets d !! gi = Some b ∧ buckets d' = <[gi := b']> (buckets d) ∧ length (table (ht0 d')) = length (table (ht0 d)) ∧
    dictIsRehashing d' = dictIsRehashing d ∧ iterators d' = iterators d.
Proof.
  intros t d' Hg. unfold get_bucket in Hg. destruct (_ && _) eqn:Hr; [|done]. apply andb_true_iff in Hr as [H0%Z.leb_le H1%Z.ltb_lt]. apply res_of_option_Ok in Hg.
  unfold d', t, buckets in *. destruct first; cbn [with_table ht0 ht1 set_bucket table iterators].
  - exists (Z.to_nat i). rewrite lookup_app_l, insert_app_l, length_insert by lia. done.
  - exists (length (table (ht0 d)) + Z.to_nat i)%nat. rewrite lookup_app_r, insert_app_r by lia. by rewrite Nat.add_sub_swap, Nat.sub_diag by lia.
Qed.

(** A key is added. *)
Lemma push_goes_on it d l (first : bool) i b k v used :
  let t := if first then ht0 d else ht1 d in
  iterating it d l → get_bucket t i = Ok b → content d !! k = None →
  goes_on it d l (with_table first (set_bucket t i ((k, v) :: b) used) d).
Proof.
  intros t Hit Hg Hk. destruct (with_bucket d first i b ((k, v) :: b) used Hg) as (gi & Hgi & Hb' & Hlen & Hre & Hi).
  destruct (iterating_update (fun x => x ≠ k) it d _ l gi b ((k, v) :: b) Hit Hgi Hb' Hlen Hre) as (l' & Hit' & Hs).
  - intros x Hx. cbn. rewrite elem_of_cons. naive_solver.
  - intros pre c -> _ _. exists ((k, v) :: pre), c. split; [done|]. by split; [|intros x _].
  - split; [done|]. exists l'. split; [done|]. intros x. destruct (decide (x = k)) as [->|Hne].
    + split; [|by right]. intros Hx%(iterating_in _ _ _ _ Hit). rewrite Hk in Hx. by destruct Hx.
    + rewrite (Hs x Hne). tauto.
Qed.

(** A value is replaced. *)
Lemma set_goes_on it d l (first : bool) i b k v used :
  let t := if first then ht0 d else ht1 d in
  iterating it d l → get_bucket t i = Ok b → goes_on it d l (with_table first (set_bucket t i (set_value k v b) used) d).
Proof.
  intros t Hit Hg. destruct (with_bucket d first i b (set_value k v b) used Hg) as (gi & Hgi & Hb' & Hlen & Hre & Hi).
  destruct (iterating_update (fun _ => True) it d _ l gi b (set_value k v b) Hit Hgi Hb' Hlen Hre) as (l' & Hit' & Hs).
  - intros x _. by rewrite set_value_keys.
  - intros pre c -> _ _. destruct (set_value_app k v pre c) as (b1 & c1 & -> & E). exists b1, c1. split; [done|]. split; [by apply head_key_keys|]. intros x _. by rewrite E.
  - split; [done|]. exists l'. split; [done|]. intros x. rewrite (Hs x I). tauto.
Qed.

(** A key is deleted, which is not the one the iterator will go to. *)
Lemma unlink_goes_on it d l (first : bool) i b k v b' used :
  let t := if first then ht0 d else ht1 d in
  let d' := with_table first (set_bucket t i b' used) d in
  iterating it d l → get_bucket t i = Ok b → unlink k b = Some (v, b') → it_nextEntry it ≠ Some k → content d' !! k = None →
  goes_on it d l d'.
Proof.
  intros t d' Hit Hg Hu Hn Hk. destruct (with_bucket d first i b b' used Hg) as (gi & Hgi & Hb' & Hlen & Hre & Hi).
  destruct (iterating_update (fun x => x ≠ k) it d d' l gi b b' Hit Hgi Hb' Hlen Hre) as (l' & Hit' & Hs).
  - intros x Hx. by apply (unlink_keys _ _ _ _ _ Hu).
  - intros pre c -> _ Hh. rewrite Hh in Hn. by apply (unlink_app _ _ _ _ _ Hu Hn).
  - split; [done|]. exists l'. split; [done|]. intros x. destruct (decide (x = k)) as [->|Hne].
    + rewrite Hk. split; [by intros _ []|]. intros Hx%(iterating_in _ _ _ _ Hit'). rewrite Hk in Hx. by destruct Hx.
    + rewrite (Hs x Hne). tauto.
Qed.

(** The second table is made. *)
Lemma expand_goes_on it d l size :
  dict_ok hash d → iterating it d l → 0 ≤ it_index it → iterating it (dictExpand d size).2 l ∧ iterators (dictExpand d size).2 = iterators d.
Proof.
  intros Hok Hit Hi. unfold dictExpand. destruct (dictIsRehashing d) eqn:Ere; [done|]. cbn [orb]. destruct (size <? _); [done|]. destruct (_ =? _); [done|].
  destruct (tables_sized hash d Hok) as (_ & _ & _ & _ & Hr). rewrite Ere in Hr. destruct Hit as (c & n & -> & Hf & Hc). destruct Hf as [(Ht & Hn & Hle)|(_ & ? & _)]; [|congruence].
  rewrite decide_False by (intros E; rewrite E in Hle; cbn in Hle; lia). cbn [snd iterators]. split; [|done]. set (d' := Dict _ _ _ _).
  assert (buckets d' = buckets d ++ replicate (Z.to_nat (_dictNextPower size)) []) as E by (unfold buckets, d'; cbn [ht0 ht1 table]; by rewrite Hr, app_nil_r).
  assert ((n ≤ length (buckets d))%nat) by (unfold buckets; rewrite length_app; lia).
  exists c, n. rewrite E, drop_app_le, concat_app, concat_replicate_nil, app_nil_r by done. split; [done|]. split; [by left|]. destruct (it_entry it); [|done]. destruct Hc as (? & ? & Hc).
  split; [done|]. split; [done|]. intros Hne. destruct (Hc Hne) as [pre Hp]. exists pre. by apply lookup_app_l_Some.
Qed.

Lemma goes_on_from it d d1 l d' : content d1 = content d → iterators d1 = iterators d → goes_on it d1 l d' → goes_on it d l d'.
Proof. intros Hc Hi [Hi' Hl]. split; [by rewrite Hi'|]. by rewrite <- Hc. Qed.

Lemma no_rehash_step d : iterators d ≠ 0 → rehash_step_if hash d = Ok d.
Proof. intros Hi. unfold rehash_step_if, _dictRehashStep. rewrite (proj2 (Z.eqb_neq _ _) Hi). by destruct (dictIsRehashing d). Qed.

Lemma expand_if_goes_on it d l can :
  dict_ok hash d → iterating it d l → 0 ≤ it_index it →
  let d1 := (_dictExpandIfNeeded can d).2 in iterating it d1 l ∧ iterators d1 = iterators d ∧ content d1 = content d.
Proof.
  intros Hok Hit Hi. destruct (expand_if_needed_ok hash can d Hok) as (d1 & E & _ & He & Hi1 & _). rewrite E. cbn [snd]. unfold content. rewrite He. split; [|done].
  unfold _dictExpandIfNeeded in E. repeat case_match; try (injection E as <-; done); (apply (f_equal snd) in E; cbn [snd] in E; subst d1; by apply expand_goes_on).
Qed.

Lemma add_goes_on it d l can k v r d' :
  dict_ok hash d → iterating it d l → 0 ≤ it_index it → iterators d ≠ 0 → Z.of_nat (length (entries d)) + 1 < 2 ^ 60 →
  dictAddRaw hash can k v d = Ok (r, d') →
  match r with inl _ => iterating it d' l ∧ iterators d' = iterators d ∧ content d' = content d | inr _ => goes_on it d l d' end.
Proof.
  intros Hok Hit Hi Hit0 Hsm E. destruct (dictAddRaw_ok hash hash_range can k v d Hok Hsm) as (r0 & d0 & E0 & _ & Hr). rewrite E in E0. injection E0 as <- <-.
  assert (∀ u, r = inr u → content d !! k = None) as Hnone by (intros u ->; destruct (content d !! k); [|done]; destruct Hr as (_ & _ & ? & ? & ? & _); done). clear Hr.
  unfold dictAddRaw in E. rewrite (no_rehash_step d Hit0) in E. cbn [mbind res_bind] in E. unfold _dictKeyIndex in E.
  destruct (expand_if_goes_on it d l can Hok Hit Hi) as (Hit1 & Hi1 & Hc1). destruct (_dictExpandIfNeeded can d) as [ok d1]. cbn [snd] in *.
  assert (∀ u (first : bool) i b, r = inr u → get_bucket (if first then ht0 d1 else ht1 d1) i = Ok b →
    goes_on it d l (with_table first (set_bucket (if first then ht0 d1 else ht1 d1) i ((k, v) :: b) (u64 (ht_used (if first then ht0 d1 else ht1 d1) + 1))) d1)) as Hpush.
  { intros u first i b Hu Hg. apply (goes_on_from it d d1); [done|done|]. apply push_goes_on; [done|done|]. rewrite Hc1. by apply (Hnone u). }
  destruct ok; cbn [negb] in E; inv_res; [|done]. repeat (case_match; inv_res; try done); (apply (Hpush tt false) || apply (Hpush tt true)); done.
Qed.

Lemma delete_goes_on it d l k v d' :
  dict_ok hash d → iterating it d l → iterators d ≠ 0 → it_nextEntry it ≠ Some k → dictGenericDelete hash k d = Ok (v, d') → goes_on it d l d'.
Proof.
  intros Hok Hit Hit0 Hn E. destruct (dictGenericDelete_ok hash hash_range k d Hok) as (d0 & E0 & _ & Hc). rewrite E in E0. injection E0 as -> <-.
  assert (content d' !! k = None) as Hk by (rewrite Hc; apply lookup_delete_eq). clear Hc.
  unfold dictGenericDelete in E. destruct (_ && _); inv_res; [by apply goes_on_refl|]. rewrite (no_rehash_step d Hit0) in E0. injection E0 as <-.
  repeat (case_match; inv_res; try (by apply goes_on_refl)).
  - eapply (unlink_goes_on it d l true); done.
  - eapply (unlink_goes_on it d l false); done.
Qed.

(** What the body of the loop may do: anything but moving and emptying, and it may delete the key
    it was given. *)
Definition op_allowed (k : K) (o : @dop K V) : Prop :=
  match o with
  | OAdd _ _ | OReplace _ _ | OFind _ | OResize | OCanResize _ => True
  | OExpand size => size ≤ 2 ^ 61
  | ODelete k' => k' = k
  | OEmpty | ORehash _ | OIterators _ => False
  end.

Ltac inv_pairs := repeat (inv_res; match goal with x : _ * _ |- _ => destruct x end); inv_res.

Lemma dexec_goes_on it d l can o k s' a :
  dict_ok hash d → iterating it d l → 0 ≤ it_index it → iterators d ≠ 0 → it_nextEntry it ≠ Some k → op_allowed k o →
  Z.of_nat (size (content d)) + 1 < 2 ^ 60 → dexec hash o (d, can) = Ok (s', a) → goes_on it d l s'.1.
Proof.
  intros Hok Hit Hi Hit0 Hn Ha Hsm E. rewrite <- entries_size with (hash := hash) in Hsm by done. destruct o as [k' v|k' v|k'|k'| |n|sz| |n|b]; cbn [dexec op_allowed] in *; try done.
  - unfold dictAdd in E. inv_pairs. match goal with F : dictAddRaw _ _ _ _ _ = Ok _ |- _ => pose proof (add_goes_on it d l can k' v _ _ Hok Hit Hi Hit0 Hsm F) as Hg end. case_match; cbn [fst]; [|done]. destruct Hg as (? & ? & _). by apply goes_on_refl.
  - unfold dictReplace in E. inv_pairs. match goal with F : dictAddRaw _ _ _ _ _ = Ok _ |- _ => pose proof (add_goes_on it d l can k' v _ _ Hok Hit Hi Hit0 Hsm F) as Hg end. repeat (case_match; inv_res; try done); cbn [fst].
    all: destruct Hg as (Hit1 & Hi1 & Hc1); apply (goes_on_from it d _ _ _ Hc1 Hi1).
    + eapply (set_goes_on it _ l true); done.
    + eapply (set_goes_on it _ l false); done.
  - subst k'. inv_pairs. by eapply delete_goes_on.
  - inv_pairs. unfold dictFind in *. rewrite (no_rehash_step d Hit0) in *. repeat (case_match; inv_res; try done); by apply goes_on_refl.
  - inv_res. destruct (expand_goes_on it d l sz Hok Hit Hi). by apply goes_on_refl.
  - inv_res. cbn [fst]. unfold dictResize. destruct (_ || _); [by apply goes_on_refl|]. apply goes_on_refl; by eapply expand_goes_on.
  - inv_res. by apply goes_on_refl.
Qed.

(** *** The loop *)

(** [while ((de = dictNext(di)) != NULL) { ... }]: what the body does in a round may depend on the
    entry.  The loop is followed for as many rounds as are given; [true] says that it has ended. *)
Fixpoint foreach_loop (rounds : list (K * V → list (@dop K V))) it (s : @dstate K V) : res (list (K * V) * bool * dictIterator K * dstate) :=
  '(e, it, d) ← dictNext address it s.1;
  match e, rounds with
  | None, _ => mret ([], true, it, (d, s.2))
  | Some e, [] => mret ([e], false, it, (d, s.2))
  | Some e, body :: rounds' =>
      '(s, _) ← druns hash (body e) (d, s.2);
      '(l, ended, it, s) ← foreach_loop rounds' it s;
      mret (e :: l, ended, it, s)
  end.
Definition foreach (rounds : list (K * V → list (@dop K V))) (s : @dstate K V) : res (list (K * V) * bool * dstate) :=
  '(l, ended, it, s) ← foreach_loop rounds dictGetSafeIterator s;
  d ← dictReleaseIterator address it s.1;
  mret (l, ended, (d, s.2)).

#[local] Instance removes_dec x (o : @dop K V) : Decision (removes x o).
Proof. destruct o; cbn; apply _. Defined.

Definition adds (x : K) (o : @dop K V) : Prop := match o with OAdd k _ | OReplace k _ => k = x | _ => False end.
Lemma mexec_adds (o : @dop K V) (m : gmap K V) x : m !! x = None → is_Some ((mexec o m).1 !! x) → adds x o.
Proof.
  intros Hn. destruct o as [k v|k v|k|k| |n|sz| |n|b]; cbn [mexec fst adds]; rewrite ?Hn; try by intros [].
  - destruct (m !! k); [rewrite Hn; by intros []|]. destruct (decide (k = x)) as [->|]; [done|]. rewrite lookup_insert_ne, Hn by done. by intros [].
  - destruct (decide (k = x)) as [->|]; [done|]. rewrite lookup_insert_ne, Hn by done. by intros [].
  - rewrite (proj2 (lookup_delete_None m k x)) by auto. by intros [].
Qed.
Lemma mexec_keeps (o : @dop K V) (m : gmap K V) x : ¬ removes x o → is_Some (m !! x) → is_Some ((mexec o m).1 !! x).
Proof.
  intros Ho Hx. pose proof (mruns_keeps x [o] m) as Hk. cbn [mruns] in Hk. destruct (mexec o m). apply Hk; [by repeat constructor|done].
Qed.

(** A key is deleted and then added by a list of operations. *)
Definition readded (x : K) (ops : list (@dop K V)) : Prop :=
  ∃ ops1 o1 ops2 o2 ops3, ops = ops1 ++ o1 :: ops2 ++ o2 :: ops3 ∧ removes x o1 ∧ adds x o2.
Lemma readded_app x ops ops' : readded x ops → readded x (ops ++ ops').
Proof.
  intros (ops1 & o1 & ops2 & o2 & ops3 & -> & H1 & H2). exists ops1, o1, ops2, o2, (ops3 ++ ops').
  split; [|done]. by rewrite <- !app_assoc, <- !app_comm_cons, <- app_assoc.
Qed.
Lemma removes_adds x ops o : Exists (removes x) ops → adds x o → readded x (ops ++ [o]).
Proof.
  intros (o1 & (ops1 & ops2 & ->)%list_elem_of_split & H1)%Exists_exists Ho. exists ops1, o1, ops2, o, []. by rewrite <- app_assoc.
Qed.

(** After the operations [ops] since the key [x] was returned, the iterator will not return it again, unless it has been
    deleted and added. *)
Definition passed (x : K) (ops : list (@dop K V)) d (l : list (K * V)) : Prop :=
  readded x ops ∨ x ∉ l.*1 ∧ (is_Some (content d !! x) ∨ Exists (removes x) ops).
Lemma passed_step x ops o d l d' l' it :
  passed x ops d l → content d' = (mexec o (content d)).1 → iterating it d' l' →
  (x ∈ l'.*1 → x ∈ l.*1 ∨ content d !! x = None) → passed x (ops ++ [o]) d' l'.
Proof.
  intros [Hr|[Hx Hin]] Hc Hit Hl; [left; by apply readded_app|]. destruct (decide (x ∈ l'.*1)) as [Hx'|Hx'].
  - left. destruct (Hl Hx') as [?|Hnone]; [done|]. destruct Hin as [[v Hv]|Hrm]; [congruence|].
    apply removes_adds; [done|]. apply (mexec_adds o (content d)); [done|]. rewrite <- Hc. by eapply iterating_in.
  - right. split; [done|]. destruct (decide (is_Some (content d' !! x))) as [|Hno]; [by left|right]. apply Exists_app.
    destruct Hin as [Hin|?]; [right|by left]. apply Exists_cons_hd. destruct (decide (removes x o)) as [|Hk]; [done|].
    destruct Hno. rewrite Hc. by apply mexec_keeps.
Qed.

Lemma druns_goes_on it k ops : ∀ d l can s' a,
  dict_ok hash d → iterating it d l → 0 ≤ it_index it → iterators d ≠ 0 → it_nextEntry it ≠ Some k → Forall (op_allowed k) ops →
  Z.of_nat (size (content d) + length ops) < 2 ^ 60 → druns hash ops (d, can) = Ok (s', a) →
  iterators s'.1 = iterators d ∧ ∃ l', iterating it s'.1 l' ∧
    ∀ x, (x ∈ l.*1 → Forall (fun o => ¬ removes x o) ops → x ∈ l'.*1) ∧
         (∀ ops0, passed x ops0 d l → passed x (ops0 ++ ops) s'.1 l').
Proof.
  induction ops as [|o ops IH]; intros d l can s' a Hok Hit Hi Hit0 Hn Hops Hsm E; cbn [druns] in E.
  - inv_res. split; [done|]. exists l. split; [done|]. intros x. split; [done|]. intros ops0. by rewrite app_nil_r.
  - apply Forall_cons in Hops as [Ho Hops]. cbn [length] in Hsm. assert (dop_ok o) as Hdo by (by destruct o).
    destruct (dexec_ok hash hash_range o d can Hok Hdo) as (d1 & can1 & E1 & Hok1 & Hc1); [lia|]. rewrite E1 in E. cbn [mbind res_bind] in E.
    assert (goes_on it d l d1) as (Hi1 & l1 & Hit1 & Hl1) by (eapply (dexec_goes_on it d l can o k (d1, can1)); done || lia). cbn [fst] in *.
    pose proof (mexec_size o (content d)) as Hsz. rewrite <- Hc1 in Hsz. destruct (druns hash ops (d1, can1)) as [[s2 a2]|] eqn:E2; [|done]. inv_res.
    destruct (IH d1 l1 can1 s' a2 Hok1 Hit1 Hi) as (Hi2 & l2 & Hit2 & Hl2); [by rewrite Hi1|done|done|lia|done|].
    split; [by rewrite Hi2|]. exists l2. split; [done|]. intros x. destruct (Hl1 x) as [Ha1 Hb1], (Hl2 x) as [Ha2 Hb2]. split.
    + intros Hx [Hox Hopsx]%Forall_cons. apply Ha2; [|done]. apply Ha1; [done|]. rewrite Hc1. apply mexec_keeps; [done|]. by eapply iterating_in.
    + intros ops0 Hp. replace (ops0 ++ o :: ops) with ((ops0 ++ [o]) ++ ops) by (by rewrite <- app_assoc). apply Hb2. by eapply passed_step.
Qed.

Lemma iterating_nodup it d l : dict_ok hash d → iterating it d l → NoDup l.*1.
Proof.
  intros Hok (c & n & -> & Hf & Hc). pose proof (dict_keys _ _ Hok) as Hnd. rewrite <- buckets_entries in Hnd.
  assert (∀ bs, NoDup (concat bs).*1 → NoDup (concat (drop n bs : list (list (K * V)))).*1) as Hdrop.
  { intros bs Hb. rewrite <- (take_drop n bs), concat_app, fmap_app in Hb. by apply NoDup_app in Hb as (_ & _ & ?). }
  destruct (it_entry it); [|subst c; by apply Hdrop]. destruct (decide (c = [])) as [->|Hne]; [by apply Hdrop|]. destruct Hc as (_ & Hi & Hc). destruct (Hc Hne) as [pre Hp].
  assert (n = S (pred n)) as En by (destruct Hf as [(_ & ? & _)|(_ & _ & _ & ? & _)]; lia). rewrite En. rewrite <- (take_drop_middle _ _ _ Hp), concat_app in Hnd. cbn [concat] in Hnd.
  rewrite <- app_assoc, !fmap_app in Hnd. apply NoDup_app in Hnd as (_ & _ & Hnd). apply NoDup_app in Hnd as (_ & _ & Hnd). by rewrite fmap_app.
Qed.

(** What the bodies of a loop may do. *)
Definition bodies_ok (rounds : list (K * V → list (@dop K V))) (N : nat) : Prop :=
  ∀ body e, body ∈ rounds → Forall (op_allowed e.1) (body e) ∧ (length (body e) ≤ N)%nat.
(** The operations of the rounds that have returned the entries [l]. *)
Definition performed (rounds : list (K * V → list (@dop K V))) (l : list (K * V)) : list (list (@dop K V)) := zip_with (fun body e => body e) rounds l.

Definition loop_result (rounds : list (K * V → list (@dop K V))) (d : dict) (l0 l : list (K * V)) (ended : bool) it (s : @dstate K V) : Prop :=
  dict_ok hash s.1 ∧ iterators s.1 = iterators d ∧ it_safe it = true ∧ 0 ≤ it_index it ∧
  (ended = false → length l = S (length rounds)) ∧ (ended = true → ∀ x, x ∈ l0.*1 → x ∈ l.*1) ∧
  (∀ x ops, passed x ops d l0 → ∀ j, l.*1 !! j = Some x → readded x (ops ++ concat (take j (performed rounds l)))) ∧
  (∀ i j x, (i < j)%nat → l.*1 !! i = Some x → l.*1 !! j = Some x → readded x (concat (take (j - i) (drop i (performed rounds l))))).

Lemma passed_now x ops d (e : K * V) l : passed x ops d (e :: l) → x = e.1 → readded x ops.
Proof. intros [?|[[? _]%not_elem_of_cons _]] Hx; [done|]. by destruct e. Qed.

Lemma loop_result_none rounds d it can : dict_ok hash d → it_safe it = true → 0 ≤ it_index it → loop_result rounds d [] [] true it (d, can).
Proof. intros Hok Hs Hi. split_and!; try done. Qed.

Lemma loop_result_round body rounds e d1 d2 (l0 l1 l : list (K * V)) ended it s :
  loop_result rounds d2 l1 l ended it s → iterators d2 = iterators d1 → Forall (op_allowed e.1) (body e) → e.1 ∉ l0.*1 → is_Some (content d1 !! e.1) →
  (∀ x, (x ∈ l0.*1 → Forall (fun o => ¬ removes x o) (body e) → x ∈ l1.*1) ∧ (∀ ops, passed x ops d1 l0 → passed x (ops ++ body e) d2 l1)) →
  loop_result (body :: rounds) d1 (e :: l0) (e :: l) ended it s.
Proof.
  intros (Hok & Hi & Hs & Hix & Hlen & Hcomp & Hpass & Hdup) Hi2 Hall He Hin Hl1.
  assert (∀ x ops, passed x ops d1 l0 → ∀ j, l.*1 !! j = Some x → readded x (ops ++ body e ++ concat (take j (performed rounds l)))) as Hnext.
  { intros x ops Hp j Hj. rewrite (assoc_L (++)). apply Hpass; [by apply Hl1|done]. }
  split_and!; try done.
  - by rewrite Hi.
  - intros He'. cbn. by rewrite Hlen.
  - intros He' x. cbn. intros [->|Hx]%elem_of_cons; [by left|]. right. apply Hcomp; [done|]. apply Hl1; [done|].
    apply Forall_forall. intros o Ho Hr. rewrite Forall_forall in Hall. specialize (Hall o Ho). destruct o; cbn in Hr, Hall; try done. congruence.
  - intros x ops Hp [|j] Hj; cbn in Hj.
    + injection Hj as <-. cbn. rewrite app_nil_r. by eapply passed_now.
    + change (performed (body :: rounds) (e :: l)) with (body e :: performed rounds l). cbn [take concat]. apply Hnext; [|done].
      destruct Hp as [?|[[_ Hx]%not_elem_of_cons Hin']]; [by left|by right].
  - intros [|i] [|j] x Hlt Hxi Hxj; try lia; cbn in Hxi, Hxj; change (performed (body :: rounds) (e :: l)) with (body e :: performed rounds l).
    + injection Hxi as <-. cbn [Nat.sub drop take concat]. apply (Hnext e.1 []); [|done]. right. split; [done|by left].
    + cbn [Nat.sub drop]. apply Hdup; [lia|done|done].
Qed.

Lemma foreach_loop_ok N rounds : ∀ it d d1 l0 can,
  call_ok address (dictNext address it d) d1 true l0 → dict_ok hash d1 → iterators d1 ≠ 0 → NoDup l0.*1 →
  (∀ x, x ∈ l0.*1 → is_Some (content d1 !! x)) → bodies_ok rounds N → Z.of_nat (size (content d1) + N * length rounds) < 2 ^ 60 →
  ∃ l ended it' s, foreach_loop rounds it (d, can) = Ok (l, ended, it', s) ∧ loop_result rounds d1 l0 l ended it' s.
Proof.
  induction rounds as [|body rounds IH]; intros it d d1 l0 can (it1 & E & Hs & Hst & Hnext) Hok Hit0 Hnd Hin Hb Hsm; cbn [foreach_loop fst snd]; rewrite E; cbn [mbind res_bind].
  - destruct l0 as [|e l0]; cbn [head]; unfold mret, res_ret; eexists _, _, _, _; (split; [done|]); [apply loop_result_none; try done; apply Hst|].
    split_and!; cbn; try done; try apply Hst.
    + intros x ops Hp [|j] Hj; cbn in Hj; [|done]. injection Hj as <-. cbn. rewrite app_nil_r. by eapply passed_now.
    + intros [|i] [|j] x Hlt Hi Hj; try lia; done.
  - destruct l0 as [|e l0]; cbn [head tail] in *.
    { unfold mret, res_ret; eexists _, _, _, _; (split; [done|]). apply loop_result_none; try done; apply Hst. }
    destruct (Hnext ltac:(done)) as [Hit Hne]. cbn in Hnd. apply NoDup_cons in Hnd as [He Hnd].
    destruct (Hb body e) as [Hall HN]; [by left|]. cbn [length] in Hsm.
    assert (Forall dop_ok (body e)) as Hdop by (eapply Forall_impl; [exact Hall|]; by intros []).
    destruct (druns_ok hash hash_range (body e) d1 can Hok Hdop) as (d2 & can2 & E2 & Hok2 & Hc2); [lia|].
    destruct (druns_goes_on it1 e.1 (body e) d1 l0 can _ _ Hok Hit ltac:(apply Hst) Hit0 ltac:(intros Hx%Hne; done) Hall ltac:(lia) E2) as (Hi2 & l1 & Hit1 & Hl1).
    rewrite E2. cbn [mbind res_bind fst] in *. assert (started address it1 d2) as Hst2 by (split; [apply Hst|]; by rewrite Hs).
    pose proof (next_started_ok hash address it1 d2 l1 Hok2 Hit1 Hst2) as Hcall. rewrite Hs in Hcall.
    destruct (IH it1 d2 d2 l1 can2 Hcall Hok2) as (l & ended & it' & s & -> & Hres).
    + by rewrite Hi2.
    + by eapply iterating_nodup.
    + intros x. by eapply iterating_in.
    + intros b e' Hin'. apply Hb. by right.
    + pose proof (mruns_size (body e) (content d1)) as Hsz. rewrite <- Hc2 in Hsz. lia.
    + cbn [mbind res_bind]. eexists _, _, _, _. split; [done|]. eapply loop_result_round; try done. apply Hin. by left.
Qed.

(** C23: a loop with a safe iterator.  Its body may add, replace and look up keys, resize the
    dictionary and delete the key it was given.  Whatever it does of this, no
    dangling entry is followed, and when the loop has ended, every key that was there at the
    beginning has been returned.  A key that is returned in two rounds was deleted, and after that added, by the
    bodies from the first of these rounds on and before the second.  At the end the dictionary may be moved again. *)
Theorem safe_iteration rounds N d can :
  dict_ok hash d → 0 ≤ iterators d < 2 ^ 64 - 1 → bodies_ok rounds N →
  Z.of_nat (size (content d) + N * length rounds) < 2 ^ 60 →
  ∃ l ended s, foreach rounds (d, can) = Ok (l, ended, s) ∧ dict_ok hash s.1 ∧ iterators s.1 = iterators d ∧
    (ended = false → length l = S (length rounds)) ∧
    (ended = true → ∀ k, is_Some (content d !! k) → k ∈ l.*1) ∧
    (∀ i j k, (i < j)%nat → l.*1 !! i = Some k → l.*1 !! j = Some k →
       readded k (concat (take (j - i) (drop i (performed rounds l))))).
Proof.
  intros Hok Hi Hb Hsm.
  pose proof (next_fresh_ok hash address true d Hok) as Hcall. cbn [fresh entered] in Hcall. set (d1 := Dict _ _ _ _) in Hcall.
  assert (iterators d1 = iterators d + 1) as Hi1 by (cbn; unfold u64; apply Z.mod_small; lia).
  destruct (foreach_loop_ok N rounds dictGetSafeIterator d d1 (entries d) can Hcall) as (l & ended & it & s & E & Hok' & His & Hs & Hix & Hlen & Hcomp & _ & Hdup).
  - by apply dict_ok_iterators.
  - lia.
  - apply Hok.
  - intros x Hx. by apply elem_of_content.
  - done.
  - done.
  - unfold foreach. rewrite E. cbn [mbind res_bind]. unfold dictReleaseIterator. rewrite (proj2 (Z.eqb_neq (it_index it) (-1))) by lia. cbn [andb negb]. rewrite Hs. cbn [mbind res_bind mret res_ret].
    eexists _, _, _. split; [done|]. cbn [fst iterators]. split; [by apply dict_ok_iterators|]. split; [rewrite His, Hi1; unfold u64; rewrite Z.mod_small; lia|]. split; [done|].
    split; [intros He k Hk; apply Hcomp; [done|]; by apply elem_of_content|exact Hdup].
Qed.
End safe.

(** Every key from 0 to 9 is deleted when it is returned, and a larger one is added meanwhile.  No key is added that has been
    deleted, so no key is returned twice. *)
Definition ex_body (e : Z * Z) : list (@dop Z Z) := if (0 <=? e.1) && (e.1 <? 10) then [ODelete e.1; OAdd (e.1 + 100) 0; OResize] else [OFind 1].
Lemma ex_no_readd l n i k : ¬ readded k (concat (take n (drop i (performed (replicate 20 ex_body) l)))).
Proof.
  intros (ops1 & o1 & ops2 & o2 & ops3 & Eops & Hr & Ha).
  assert (∀ o, o ∈ concat (take n (drop i (performed (replicate 20 ex_body) l))) → ∃ e, o ∈ ex_body e) as Hin.
  { intros o (x & Hx & Ho%list_elem_of_In)%list_elem_of_In%in_concat. apply list_elem_of_In, list_elem_of_lookup in Hx as [n1 [Hx _]%lookup_take_Some]. rewrite lookup_drop in Hx.
    unfold performed in Hx. apply lookup_zip_with_Some in Hx as (b & e & -> & Hb & _). apply lookup_replicate in Hb as [-> _]. by exists e. }
  rewrite Eops in Hin. clear Eops. destruct (Hin o1) as [e1 H1]; [apply elem_of_app; right; left|].
  destruct (Hin o2) as [e2 H2]; [apply elem_of_app; right; right; apply elem_of_app; right; left|]. clear Hin.
  unfold ex_body in H1, H2. destruct (Z.leb_spec 0 e1.1), (Z.ltb_spec e1.1 10), (Z.leb_spec 0 e2.1), (Z.ltb_spec e2.1 10); cbn [andb] in H1, H2.
  all: repeat (apply elem_of_cons in H1 as [->|H1]; cbn [removes] in Hr; try done); try (by apply not_elem_of_nil in H1).
  all: repeat (apply elem_of_cons in H2 as [->|H2]; cbn [adds] in Ha; try done); try (by apply not_elem_of_nil in H2); lia.
Qed.
Lemma safe_iteration_witness :
  ∃ l s, foreach ex_hash (fun _ => 0) (replicate 20 ex_body) (ex_dict, true) = Ok (l, true, s) ∧
    (∀ k, is_Some (content ex_dict !! k) → k ∈ l.*1) ∧ length l = 9%nat ∧ NoDup l.*1.
Proof.
  destruct (safe_iteration ex_hash ex_hash_range (fun _ => 0) (replicate 20 ex_body) 3 ex_dict true) as (l & ended & s & E & _ & _ & _ & Hk & Hdup).
  - apply ex_dict_ok.
  - vm_compute. split; [discriminate|reflexivity].
  - intros body e [-> _]%elem_of_replicate. unfold ex_body. destruct (_ && _); (split; [repeat constructor|cbn; lia]).
  - vm_compute. reflexivity.
  - assert (ended = true ∧ length l = 9%nat) as [-> Hl] by (vm_compute in E; injection E as <- <- _; split; reflexivity).
    exists l, s. split; [exact E|]. split; [by apply Hk|]. split; [exact Hl|]. clear E Hk Hl. apply NoDup_alt. intros i j k Hi Hj.
    destruct (lt_eq_lt_dec i j) as [[Hlt|He]|Hlt]; [|exact He|]; exfalso.
    + exact (ex_no_readd _ _ _ _ (Hdup i j k Hlt Hi Hj)).
    + exact (ex_no_readd _ _ _ _ (Hdup j i k Hlt Hj Hi)).
Defined.
