(* ===== verification/DictApi.v ===== *)
(** * What the data types use of a dictionary

    The data types with an encoding as a hash table (t_hash.c, t_set.c) use dict.c through a few
    functions, on keys that are strings.  [SdsDict] has these functions and [SdsDictLaws] what the
    data types rely on: a dictionary stands for a finite map, and an iterator goes through the
    pairs of the map in some order.  [dict_api] is dict.c (src/src/dict.c, src/src/dict.h), and
    [map_api] a finite map with the order of its pairs.

    Setting the value of an entry that was found, [dictGetVal(de) = v], is [s_set]. *)

From S2P Require Import Prelude Dict DictIter.
From stdpp Require Import list gmap.
#[local] Open Scope Z_scope.

Class SdsDict (V : Type) := {
  sdict : Type;
  siter : Type;
  s_create : sdict;
  s_find : bytes → sdict → res (option V * sdict);
  s_set : bytes → V → sdict → res sdict;
  s_add : bytes → V → sdict → res (bool * sdict);
  s_delete : bytes → sdict → res (bool * sdict);
  s_shrink : sdict → sdict;                            (* if (htNeedsResize(d)) dictResize(d) *)
  s_expand : Z → sdict → sdict;                        (* dictExpand(d, size) *)
  s_size : sdict → Z;
  s_iterator : sdict → siter;
  s_next : siter → sdict → res (option (bytes * V) * siter * sdict);
  s_release : siter → sdict → res sdict
}.

Class SdsDictLaws {V} (D : SdsDict V) := {
  holds : sdict → gmap bytes V → Prop;
  walking : siter → sdict → list (bytes * V) → Prop;   (* the iterator will return the list *)
  walked : siter → sdict → Prop;
  s_create_ok : holds s_create ∅;
  s_find_ok d m k : holds d m → ∃ d', s_find k d = Ok (m !! k, d') ∧ holds d' m;
  s_set_ok d m k v : holds d m → is_Some (m !! k) → ∃ d', s_set k v d = Ok d' ∧ holds d' (<[k := v]> m);
  s_add_ok d m k v : holds d m → Z.of_nat (size m) + 1 < 2 ^ 60 →
    ∃ d', s_add k v d = Ok (bool_decide (m !! k = None), d') ∧ holds d' (if m !! k then m else <[k := v]> m);
  s_delete_ok d m k : holds d m → ∃ d', s_delete k d = Ok (bool_decide (is_Some (m !! k)), d') ∧ holds d' (delete k m);
  s_shrink_ok d m : holds d m → holds (s_shrink d) m;
  s_expand_ok d m n : holds d m → n ≤ 2 ^ 61 → holds (s_expand n d) m;
  s_size_ok d m : holds d m → s_size d = Z.of_nat (size m);
  s_iterator_ok d m : holds d m → ∃ l, l ≡ₚ map_to_list m ∧ walking (s_iterator d) d l;
  s_next_ok it d m l : holds d m → walking it d l →
    ∃ it', s_next it d = Ok (head l, it', d) ∧ match l with [] => walked it' d | _ :: l' => walking it' d l' end;
  s_release_ok it d m : holds d m → walked it d → s_release it d = Ok d
}.

(** ** dict.c *)

Definition HASHTABLE_MIN_FILL : Z := 10.

Section api.
Context {V : Type}.
(** The hash function, the addresses of tables, and [dict_can_resize]. *)
Variables (hash : bytes → Z) (address : list (list (bytes * V)) → Z) (dict_can_resize : bool).
Implicit Types d : @dict bytes V.

Definition dictSlots d : Z := u64 (ht_size (ht0 d) + ht_size (ht1 d)).
Definition htNeedsResize d : bool :=
  let size := to_signed 64 (dictSlots d) in
  let used := to_signed 64 (dictSize d) in
  (DICT_HT_INITIAL_SIZE <? size) && (to_signed 64 (used * 100) ÷ size <? HASHTABLE_MIN_FILL).

(** [dictGetVal(de) = v] for the entry [dictFind] has returned. *)
Definition set_found (key : bytes) (val : V) d : res dict :=
  let i0 := Z.land (hash key) (sizemask (ht0 d)) in
  b ← get_bucket (ht0 d) i0;
  match find_key key b with
  | Some _ => mret (Dict (set_bucket (ht0 d) i0 (set_value key val b) (ht_used (ht0 d))) (ht1 d) (rehashidx d) (iterators d))
  | None =>
      let i1 := Z.land (hash key) (sizemask (ht1 d)) in
      b ← get_bucket (ht1 d) i1;
      match find_key key b with
      | Some _ => mret (Dict (ht0 d) (set_bucket (ht1 d) i1 (set_value key val b) (ht_used (ht1 d))) (rehashidx d) (iterators d))
      | None => Abort "no dictEntry"
      end
  end.

#[local] Instance dict_api : SdsDict V := {|
  s_create := dictCreate;
  s_find := dictFind hash;
  s_set := set_found;
  s_add := dictAdd hash dict_can_resize;
  s_delete := dictDelete hash;
  s_shrink := fun d => if htNeedsResize d then (dictResize dict_can_resize d).2 else d;
  s_expand := fun size d => (dictExpand d size).2;
  s_size := dictSize;
  s_iterator := fun _ => dictGetIterator;
  s_next := dictNext address;
  s_release := dictReleaseIterator address
|}.

Hypothesis hash_range : ∀ k, 0 ≤ hash k < 2 ^ 64.

Lemma set_found_ok k v d :
  dict_ok hash d → is_Some (content d !! k) → ∃ d', set_found k v d = Ok d' ∧ dict_ok hash d' ∧ content d' = <[k := v]> (content d).
Proof.
  intros Hok [v0 Hk]. assert (has_table hash d) as Ht.
  { apply has_table_used; [done|]. intros Hu. by rewrite (content_empty _ _ Hok Hu) in Hk. }
  assert (∀ (first : bool) l, let t := if first then ht0 d else ht1 d in get_bucket t (Z.land (hash k) (sizemask t)) = Ok l → find_key k l = Some v0 → (first = false → rehashidx d ≠ -1) →
    let d' := with_table first (set_bucket t (Z.land (hash k) (sizemask t)) (set_value k v l) (ht_used t)) d in dict_ok hash d' ∧ content d' = <[k := v]> (content d)) as Hset.
  { intros first l t Hg Hf Hi. destruct (set_value_perm k v v0 l Hf) as (l0 & Hl & Hl'). assert (length (set_value k v l) = length l) as Hlen by (rewrite Hl', Hl; done).
    destruct (update_bucket hash hash_range d first k l (set_value k v l) (ht_used t) Hok Ht Hi) as (Hsh & rest & Hp & Hp'); [|done| |rewrite Hlen; unfold t; lia|].
    - intros _ _. by eapply existing_bucket.
    - apply Forall_forall. intros e. rewrite Hl', Hl. intros [->|He]%elem_of_cons; [by right|]. left. by apply list_elem_of_further.
    - apply (content_change hash d _ k v0 (Some v) l l0 rest); try done. by rewrite <- Hl'. }
  unfold set_found. destruct (search_tables hash d k Hok Ht) as (l0 & Hg & Hs). rewrite Hg. cbn [mbind res_bind].
  destruct (find_key k l0) as [x|] eqn:Hf.
  - assert (x = v0) as -> by (destruct Hs as [[_ Hc]|(_ & l1 & _ & Hc)]; congruence). destruct (Hset true l0 Hg Hf) as [? ?]; [done|]. by eexists.
  - destruct Hs as [[_ Hc]|(Hi & l1 & Hg1 & Hc)]; [congruence|]. rewrite Hg1. cbn [mbind res_bind]. rewrite Hk in Hc. rewrite <- Hc.
    destruct (Hset false l1 Hg1 (eq_sym Hc)) as [? ?]; [done|]. by eexists.
Qed.

(** An iterator in use: before its first step, or on its way. *)
Definition api_walking (it : dictIterator bytes) d (l : list (bytes * V)) : Prop :=
  it = dictGetIterator ∧ l = entries d ∨ started address it d ∧ it_safe it = false ∧ iterating it d l.
Definition api_walked (it : dictIterator bytes) d : Prop := started address it d ∧ it_safe it = false.

Lemma api_next it d l :
  dict_ok hash d → api_walking it d l →
  ∃ it', dictNext address it d = Ok (head l, it', d) ∧ match l with [] => api_walked it' d | _ :: l' => api_walking it' d l' end.
Proof.
  intros Hok Hw. assert (call_ok address (dictNext address it d) d false l) as (it' & -> & Hs & Hst & Hit).
  { destruct Hw as [[-> ->]|(Hst & Hs & Hit)]; [by apply (next_fresh_ok hash address false)|]. rewrite <- Hs. by apply (next_started_ok hash). }
  exists it'. split; [done|]. destruct l as [|e l]; [done|]. right. split; [done|]. split; [done|]. by apply Hit.
Qed.

#[local] Program Instance dict_api_laws : SdsDictLaws dict_api := {|
  holds d m := dict_ok hash d ∧ content d = m;
  walking := api_walking;
  walked := api_walked
|}.
Next Obligation. split; [by apply dictCreate_ok|done]. Qed.
Next Obligation. intros d m k [Hok <-]. destruct (dictFind_ok hash k d Hok) as (d' & ? & ? & ?). by exists d'. Qed.
Next Obligation. intros d m k v [Hok <-] Hk. destruct (set_found_ok k v d Hok Hk) as (d' & ? & ? & ?). by exists d'. Qed.
Next Obligation.
  intros d m k v [Hok <-] Hsm. destruct (dexec_ok hash hash_range (OAdd k v) d dict_can_resize Hok I Hsm) as (d' & can & E & Hok' & Hc).
  cbn [dexec mexec snd s_add dict_api] in *. destruct (dictAdd hash dict_can_resize k v d) as [[b d1]|]; [|done]. injection E as <- _ ->. by exists d1.
Qed.
Next Obligation.
  intros d m k [Hok <-]. destruct (dictGenericDelete_ok hash hash_range k d Hok) as (d' & E & Hok' & Hc). exists d'. cbn. unfold dictDelete. rewrite E. done.
Qed.
Next Obligation. intros d m [Hok <-]. cbn. destruct (htNeedsResize d); [|done]. destruct (dictResize_ok hash dict_can_resize d Hok) as (? & He & _). split; [done|]. unfold content. by rewrite He. Qed.
Next Obligation. intros d m n [Hok <-] Hn. cbn. destruct (dictExpand_ok hash d n Hok Hn) as (? & He & _). split; [done|]. unfold content. by rewrite He. Qed.
Next Obligation.
  intros d m [Hok <-]. cbn. unfold dictSize. rewrite (used_total hash d Hok), <- (entries_size hash d Hok). unfold u64. pose proof (dict_small _ _ Hok). rewrite Z.mod_small; [done|lia].
Qed.
Next Obligation.
  intros d m [Hok <-]. exists (entries d). split; [|by left]. symmetry. apply map_to_list_to_map, Hok.
Qed.
Next Obligation. intros it d m l [Hok _]. by apply api_next. Qed.
Next Obligation.
  intros it d m _ [[Hi Hf] Hs]. cbn. unfold dictReleaseIterator. rewrite (proj2 (Z.eqb_neq (it_index it) (-1))) by lia. cbn [andb negb]. by rewrite Hs, (Hf Hs), Z.eqb_refl.
Qed.
End api.

(** ** A finite map *)

#[export] Instance map_api {V} : SdsDict V := {|
  sdict := gmap bytes V;
  siter := list (bytes * V);
  s_create := ∅;
  s_find := fun k d => mret (d !! k, d);
  s_set := fun k v d => mret (<[k := v]> d);
  s_add := fun k v d => mret (bool_decide (d !! k = None), if d !! k then d else <[k := v]> d);
  s_delete := fun k d => mret (bool_decide (is_Some (d !! k)), delete k d);
  s_shrink := fun d => d;
  s_expand := fun _ d => d;
  s_size := fun d => Z.of_nat (size d);
  s_iterator := map_to_list;
  s_next := fun it d => mret (head it, tail it, d);
  s_release := fun _ d => mret d
|}.
#[export] Program Instance map_api_laws {V} : SdsDictLaws (@map_api V) := {|
  holds d m := d = m;
  walking it _ l := it = l;
  walked _ _ := True
|}.
Solve Obligations with (cbn; intros; subst; eauto).
Next Obligation. cbn. intros V it d m l _ ->. exists (tail l). split; [done|]. by destruct l. Qed.
