(* ===== verification/Hash.v ===== *)
(** * Hashes (src/src/t_hash.c)

    The functions on a hash object through which all commands, the serialization and the
    rewriting of the AOF reach it.  A hash is a ziplist in which fields and values alternate or,
    when it has become large, a dictionary ([SdsDict]); the object goes from the first to the
    second and never back.  A function that reads may still change the object: [ziplistLen] may
    store the length, and looking up a key may move a bucket of the dictionary.

    Strings are values here: the flags [HASH_SET_TAKE_FIELD] and [HASH_SET_TAKE_VALUE] of
    [hashTypeSet], which say who frees its arguments, have no counterpart.

    Shown: whatever the encoding, and whenever the object is converted, a hash is a
    finite map from fields to values. *)

From S2P Require Import Prelude Util Mem Ziplist ZiplistOps ZiplistRef Dict DictIter DictApi.
From stdpp Require Import list gmap.
#[local] Open Scope Z_scope.

(** [vstr] with [vlen], or [vll] when [vstr] is NULL. *)
Abbreviation zvalue := (bytes + Z)%type.
(** [sdsnewlen(vstr,vlen)] or [sdsfromlonglong(vll)]. *)
Definition zvalue_sds (v : zvalue) : bytes := match v with inl s => s | inr n => sdsfromlonglong n end.

Inductive hash_what := OBJ_HASH_KEY | OBJ_HASH_VALUE.

Section hash.
Context {D : SdsDict bytes}.
Variables (hash_max_ziplist_entries hash_max_ziplist_value : Z).

(** [o->encoding] and [o->ptr]. *)
Inductive hobj := HZiplist (zl : mem) | HDict (d : sdict) | HOther.
Implicit Types (o : hobj) (zl : mem) (field value : bytes).

Definition unknown {A} : res A := Abort "Unknown hash encoding".

(** ** Looking up *)

(** [ziplistFind(ziplistIndex(zl, ZIPLIST_HEAD), field, sdslen(field), 1)] where there is a head. *)
Definition find_field zl field : res (option Z) :=
  p ← ziplistIndex zl 0;
  match p with Some p => ziplistFind zl p field 1 | None => mret None end.
Definition value_of_field zl (fptr : Z) : res Z :=
  v ← ziplistNext zl fptr; res_of_option v "vptr != NULL".

Definition hashTypeGetFromZiplist zl field : res (option zvalue) :=
  fptr ← find_field zl field;
  match fptr with
  | Some fptr =>
      vptr ← value_of_field zl fptr;
      v ← ziplistGet zl vptr;
      v ← res_of_option v "ret";
      mret (Some v)
  | None => mret None
  end.
Definition hashTypeGetFromHashTable (d : sdict) field : res (option bytes * sdict) := s_find field d.

Definition hashTypeGetValue o field : res (option zvalue * hobj) :=
  match o with
  | HZiplist zl => v ← hashTypeGetFromZiplist zl field; mret (v, o)
  | HDict d => '(v, d) ← hashTypeGetFromHashTable d field; mret (option_map inl v, HDict d)
  | HOther => unknown
  end.
(** The characters of the object. *)
Definition hashTypeGetValueObject o field : res (option bytes * hobj) :=
  '(v, o) ← hashTypeGetValue o field; mret (option_map zvalue_sds v, o).
Definition hashTypeGetValueLength o field : res (Z * hobj) :=
  match o with
  | HZiplist zl =>
      v ← hashTypeGetFromZiplist zl field;
      mret (match v with None => 0 | Some (inl s) => Z.of_nat (length s) | Some (inr n) => sdigits10 n end, o)
  | HDict d =>
      '(v, d) ← hashTypeGetFromHashTable d field;
      mret (match v with None => 0 | Some s => Z.of_nat (length s) end, HDict d)
  | HOther => unknown
  end.
Definition hashTypeExists o field : res (bool * hobj) :=
  match o with
  | HZiplist zl => v ← hashTypeGetFromZiplist zl field; mret (bool_decide (is_Some v), o)
  | HDict d => '(v, d) ← hashTypeGetFromHashTable d field; mret (bool_decide (is_Some v), HDict d)
  | HOther => unknown
  end.
Definition hashTypeLength o : res (Z * hobj) :=
  match o with
  | HZiplist zl => '(n, zl) ← ziplistLen zl; mret (n / 2, HZiplist zl)
  | HDict d => mret (s_size d, o)
  | HOther => unknown
  end.

(** ** Iterators *)

(** [hi->fptr] and [hi->vptr], or [hi->di] and [hi->de]. *)
Inductive hashTypeIterator :=
| HIZiplist (fptr vptr : option Z)
| HIDict (di : siter) (de : option (bytes * bytes)).

Definition hashTypeInitIterator o : res hashTypeIterator :=
  match o with
  | HZiplist _ => mret (HIZiplist None None)
  | HDict d => mret (HIDict (s_iterator d) None)
  | HOther => unknown
  end.
Definition hashTypeReleaseIterator (hi : hashTypeIterator) o : res hobj :=
  match hi, o with
  | HIDict di _, HDict d => d ← s_release di d; mret (HDict d)
  | _, _ => mret o
  end.

(** The ziplist branch of [hashTypeNext], from the test of the new [fptr] on. *)
Definition next_pair (hi : hashTypeIterator) zl (fptr : option Z) : res (bool * hashTypeIterator * hobj) :=
  match fptr with
  | None => mret (false, hi, HZiplist zl)
  | Some fptr => vptr ← value_of_field zl fptr; mret (true, HIZiplist (Some fptr) (Some vptr), HZiplist zl)
  end.
(** [true] is C_OK. *)
Definition hashTypeNext (hi : hashTypeIterator) o : res (bool * hashTypeIterator * hobj) :=
  match hi, o with
  | HIZiplist fptr vptr, HZiplist zl =>
      fptr ← match fptr with
             | None => serverAssert (bool_decide (vptr = None)) "vptr == NULL" ;; ziplistIndex zl 0
             | Some _ => vptr ← res_of_option vptr "vptr != NULL"; ziplistNext zl vptr
             end;
      next_pair hi zl fptr
  | HIDict di _, HDict d =>
      '(de, di, d) ← s_next di d;
      mret (bool_decide (is_Some de), HIDict di de, HDict d)
  | _, _ => unknown
  end.

Definition hashTypeCurrentFromZiplist (fptr vptr : option Z) zl (what : hash_what) : res zvalue :=
  p ← res_of_option (match what with OBJ_HASH_KEY => fptr | OBJ_HASH_VALUE => vptr end) "NULL";
  v ← ziplistGet zl p;
  res_of_option v "ret".
Definition hashTypeCurrentFromHashTable (de : option (bytes * bytes)) (what : hash_what) : res bytes :=
  e ← res_of_option de "NULL";
  mret (match what with OBJ_HASH_KEY => e.1 | OBJ_HASH_VALUE => e.2 end).
Definition hashTypeCurrentObject (hi : hashTypeIterator) o (what : hash_what) : res zvalue :=
  match hi, o with
  | HIZiplist fptr vptr, HZiplist zl => hashTypeCurrentFromZiplist fptr vptr zl what
  | HIDict _ de, _ => ele ← hashTypeCurrentFromHashTable de what; mret (inl ele)
  | _, _ => unknown
  end.
Definition hashTypeCurrentObjectNewSds (hi : hashTypeIterator) o (what : hash_what) : res bytes :=
  v ← hashTypeCurrentObject hi o what; mret (zvalue_sds v).

(** ** Conversion *)

(** [while (hashTypeNext(hi) != C_ERR)]; every turn goes on by two entries. *)
Fixpoint convert_loop (fuel : nat) (hi : hashTypeIterator) o (d : sdict) : res (hashTypeIterator * sdict) :=
  match fuel with
  | O => Abort "fuel"
  | S fuel' =>
      '(more, hi, o) ← hashTypeNext hi o;
      if negb more then mret (hi, d)
      else
        key ← hashTypeCurrentObjectNewSds hi o OBJ_HASH_KEY;
        value ← hashTypeCurrentObjectNewSds hi o OBJ_HASH_VALUE;
        '(ok, d) ← s_add key value d;
        serverAssert ok "Ziplist corruption detected" ;;
        convert_loop fuel' hi o d
  end.
(** To [OBJ_ENCODING_HT]; the other encodings are not asked for. *)
Definition hashTypeConvertZiplist zl : res hobj :=
  hi ← hashTypeInitIterator (HZiplist zl);
  '(hi, d) ← convert_loop (S (length zl)) hi (HZiplist zl) s_create;
  _ ← hashTypeReleaseIterator hi (HZiplist zl);
  mret (HDict d).
Definition hashTypeConvert o : res hobj :=
  match o with
  | HZiplist zl => hashTypeConvertZiplist zl
  | HDict _ => Abort "Not implemented"
  | HOther => unknown
  end.

(** [args] are [argv[start..end]]. *)
Definition hashTypeTryConversion o (args : list bytes) : res hobj :=
  match o with
  | HZiplist _ =>
      if existsb (fun s => hash_max_ziplist_value <? Z.of_nat (length s)) args then hashTypeConvert o else mret o
  | _ => mret o
  end.

(** ** Setting and deleting *)

(** The ziplist branch of [hashTypeSet], up to the test of the length. *)
Definition set_in_ziplist zl field value : res (bool * mem) :=
  fptr ← find_field zl field;
  match fptr with
  | Some fptr =>
      vptr ← value_of_field zl fptr;
      '(zl, vptr) ← ziplistDelete zl vptr;
      zl ← ziplistInsert zl vptr value;
      mret (true, zl)
  | None =>
      zl ← ziplistPush zl field ZIPLIST_TAIL;
      zl ← ziplistPush zl value ZIPLIST_TAIL;
      mret (false, zl)
  end.
(** [true] is an update. *)
Definition hashTypeSet o field value : res (bool * hobj) :=
  match o with
  | HZiplist zl =>
      '(update, zl) ← set_in_ziplist zl field value;
      '(n, o) ← hashTypeLength (HZiplist zl);
      o ← if hash_max_ziplist_entries <? n then hashTypeConvert o else mret o;
      mret (update, o)
  | HDict d =>
      '(de, d) ← s_find field d;
      match de with
      | Some _ => d ← s_set field value d; mret (true, HDict d)
      | None => '(_, d) ← s_add field value d; mret (false, HDict d)
      end
  | HOther => unknown
  end.
Definition hashTypeDelete o field : res (bool * hobj) :=
  match o with
  | HZiplist zl =>
      fptr ← find_field zl field;
      match fptr with
      | Some fptr =>
          '(zl, fptr) ← ziplistDelete zl fptr;
          '(zl, _) ← ziplistDelete zl fptr;
          mret (true, HZiplist zl)
      | None => mret (false, o)
      end
  | HDict d =>
      '(deleted, d) ← s_delete field d;
      mret (deleted, HDict (if deleted : bool then s_shrink d else d))
  | HOther => unknown
  end.

(** [createHashObject] of object.c. *)
Definition createHashObject : res hobj := zl ← ziplistNew; mret (HZiplist zl).

(** How HGETALL goes through a hash. *)
Fixpoint pairs_loop (fuel : nat) (hi : hashTypeIterator) o : res (list (bytes * bytes) * hashTypeIterator * hobj) :=
  match fuel with
  | O => Abort "fuel"
  | S fuel' =>
      '(more, hi, o) ← hashTypeNext hi o;
      if negb more then mret ([], hi, o)
      else
        key ← hashTypeCurrentObjectNewSds hi o OBJ_HASH_KEY;
        value ← hashTypeCurrentObjectNewSds hi o OBJ_HASH_VALUE;
        '(l, hi, o) ← pairs_loop fuel' hi o;
        mret ((key, value) :: l, hi, o)
  end.
Definition hash_pairs o : res (list (bytes * bytes) * hobj) :=
  '(n, o) ← hashTypeLength o;
  hi ← hashTypeInitIterator o;
  '(l, hi, o) ← pairs_loop (S (Z.to_nat n)) hi o;
  o ← hashTypeReleaseIterator hi o;
  serverAssert (Z.of_nat (length l) =? n) "count == length" ;;
  mret (l, o).
End hash.
Arguments hobj {D}.
Arguments hashTypeIterator {D}.

(** ** The entries of a ziplist in pairs *)

Implicit Types (zl : mem) (l : list (bytes * bytes)) (es : list (bool * bytes)) (f v : bytes).

Definition flat l : list bytes := concat ((fun p => [p.1; p.2]) <$> l).

Lemma flat_app l1 l2 : flat (l1 ++ l2) = flat l1 ++ flat l2.
Proof. unfold flat. by rewrite fmap_app, concat_app. Qed.
Lemma flat_length l : length (flat l) = (2 * length l)%nat.
Proof. unfold flat. induction l; cbn in *; lia. Qed.
Lemma flat_key l1 f v l2 : flat (l1 ++ (f, v) :: l2) !! (2 * length l1)%nat = Some f.
Proof. rewrite flat_app, lookup_app_r by (rewrite flat_length; lia). by rewrite flat_length, Nat.sub_diag. Qed.
Lemma flat_value l1 f v l2 : flat (l1 ++ (f, v) :: l2) !! S (2 * length l1)%nat = Some v.
Proof. rewrite flat_app, lookup_app_r by (rewrite flat_length; lia). by rewrite flat_length, Nat.sub_succ_l, Nat.sub_diag. Qed.

Lemma find_from_absent l f i : f ∉ l.*1 → find_from i (flat l) f 1 0 = None.
Proof.
  revert i. induction l as [|[f' v'] l IH]; intros i; [done|]. cbn [fmap list_fmap fst]. intros [Hne Hn]%not_elem_of_cons.
  cbn. rewrite decide_False by done. by apply IH.
Qed.
Lemma find_from_present l1 f v l2 i : f ∉ l1.*1 → find_from i (flat (l1 ++ (f, v) :: l2)) f 1 0 = Some (i + 2 * length l1)%nat.
Proof.
  revert i. induction l1 as [|[f' v'] l1 IH]; intros i; cbn [fmap list_fmap fst].
  - intros _. cbn. rewrite decide_True by done. f_equal. lia.
  - intros [Hne Hn]%not_elem_of_cons. cbn. rewrite decide_False by done. fold (flat (l1 ++ (f, v) :: l2)). rewrite IH by done. f_equal. cbn. lia.
Qed.
Lemma split_key l f : f ∈ l.*1 → ∃ l1 v l2, l = l1 ++ (f, v) :: l2 ∧ f ∉ l1.*1.
Proof.
  induction l as [|[f' v'] l IH]; cbn; [by intros ?%elem_of_nil|]. destruct (decide (f = f')) as [->|Hne]; intros Hf.
  - exists [], v', l. split; [done|]. apply not_elem_of_nil.
  - apply elem_of_cons in Hf as [|Hf]; [done|]. destruct (IH Hf) as (l1 & v & l2 & -> & Hn). exists ((f', v') :: l1), v, l2. split; [done|]. cbn. by apply not_elem_of_cons.
Qed.

Lemma shown_sds s : zvalue_sds (shown s) = s.
Proof. unfold shown. destruct (zipTryEncoding s) as [[n e]|] eqn:E; [|done]. by apply zipTryEncoding_Some in E as (_ & -> & _). Qed.
Lemma shown_length s : match shown s with inl t => Z.of_nat (length t) | inr n => sdigits10 n end = Z.of_nat (length s).
Proof. unfold shown. destruct (zipTryEncoding s) as [[n e]|] eqn:E; [|done]. apply zipTryEncoding_Some in E as (Hn & -> & _). by rewrite sdsll2str_length. Qed.

(** ** The weight of a hash *)

Definition mweight (m : gmap bytes bytes) : Z := weight (flat (map_to_list m)).
Lemma weight_flat_cons p l : weight (flat (p :: l)) = 36 + Z.of_nat (length p.1) + Z.of_nat (length p.2) + weight (flat l).
Proof. unfold flat. cbn. fold (flat l). rewrite !weight_cons. lia. Qed.
Lemma weight_flat_perm l l' : l ≡ₚ l' → weight (flat l) = weight (flat l').
Proof. induction 1; rewrite ?weight_flat_cons; lia. Qed.
Lemma weight_flat_length l : 11 + 36 * Z.of_nat (length l) ≤ weight (flat l).
Proof. induction l; [done|]. rewrite weight_flat_cons. cbn [length]. lia. Qed.
Lemma mweight_list l : NoDup l.*1 → mweight (list_to_map l) = weight (flat l).
Proof. intros Hnd. apply weight_flat_perm. by apply map_to_list_to_map. Qed.
Lemma mweight_size m : 36 * Z.of_nat (size m) < mweight m.
Proof. unfold mweight. rewrite <- length_map_to_list. pose proof (weight_flat_length (map_to_list m)). lia. Qed.

(** ** A ziplist of pairs *)

Definition zpairs zl l : Prop := ∃ es, zl_ok zl es ∧ es.*2 = flat l ∧ weight (flat l) < 2 ^ 32.

Lemma zpairs_small zl es l : zl_ok zl es → es.*2 = flat l → weight (flat l) < 2 ^ 32 → Z.of_nat (length zl) < 2 ^ 32.
Proof. intros Hz E Hw. apply (length_max zl es Hz). by rewrite E. Qed.
Lemma pairs_count es l : es.*2 = flat l → length es = (2 * length l)%nat.
Proof. intros E. apply (f_equal length) in E. by rewrite length_fmap, flat_length in E. Qed.

Lemma zfind_ok zl es s skip :
  zl_ok zl es → Z.of_nat (length zl) < 2 ^ 32 → 0 ≤ skip → ziplistFind zl (at_index es 0) s skip = Ok (at_index es <$> find_from 0 es.*2 s skip 0).
Proof.
  intros Hz Hm Hs. unfold ziplistFind. change (at_index es 0) with (10 + esize []). pose proof (z_len _ _ Hz). pose proof (esize_len es).
  rewrite (find_loop_ok _ zl [] es s skip 0 None Hz Hm) by (lia || by left). done.
Qed.

Lemma find_field_ok zl es l f :
  zl_ok zl es → es.*2 = flat l → weight (flat l) < 2 ^ 32 → find_field zl f = Ok (at_index es <$> find_from 0 (flat l) f 1 0).
Proof.
  intros Hz E Hw. pose proof (zpairs_small _ _ _ Hz E Hw) as Hm. unfold find_field. rewrite (index_ok zl es 0 Hz Hm), E. cbn [mbind res_bind].
  unfold index_of. cbn [Z.ltb Z.compare]. destruct (flat l) as [|s t] eqn:El; [done|]. rewrite (proj2 (Z.ltb_lt 0 _)) by (cbn; lia). cbn [fmap option_fmap option_map]. change (Z.to_nat 0) with 0%nat.
  rewrite (zfind_ok zl es f 1 Hz Hm) by lia. by rewrite E.
Qed.

Lemma value_of_field_ok zl es l1 f v l2 :
  zl_ok zl es → es.*2 = flat (l1 ++ (f, v) :: l2) → weight (flat (l1 ++ (f, v) :: l2)) < 2 ^ 32 →
  value_of_field zl (at_index es (2 * length l1)) = Ok (at_index es (S (2 * length l1))).
Proof.
  intros Hz E Hw. pose proof (zpairs_small _ _ _ Hz E Hw) as Hm. pose proof (pairs_count _ _ E) as Hl. rewrite length_app in Hl. cbn [length] in Hl.
  unfold value_of_field. rewrite (next_ok zl es _ Hz Hm) by lia. unfold next_of. rewrite length_fmap, decide_True by lia. done.
Qed.

Lemma value_get_ok zl es l1 f v l2 :
  zl_ok zl es → es.*2 = flat (l1 ++ (f, v) :: l2) → weight (flat (l1 ++ (f, v) :: l2)) < 2 ^ 32 →
  ziplistGet zl (at_index es (2 * length l1)) = Ok (Some (shown f)) ∧ ziplistGet zl (at_index es (S (2 * length l1))) = Ok (Some (shown v)).
Proof.
  intros Hz E Hw. pose proof (zpairs_small _ _ _ Hz E Hw) as Hm. pose proof (pairs_count _ _ E) as Hl. rewrite length_app in Hl. cbn [length] in Hl.
  rewrite !(get_ok zl es _ Hz Hm), E, flat_key, flat_value by lia. done.
Qed.

Lemma get_from_ziplist_ok zl l f :
  zpairs zl l → NoDup l.*1 → hashTypeGetFromZiplist zl f = Ok (shown <$> (list_to_map l : gmap bytes bytes) !! f).
Proof.
  intros (es & Hz & E & Hw) Hnd. unfold hashTypeGetFromZiplist. rewrite (find_field_ok zl es l f Hz E Hw). cbn [mbind res_bind].
  destruct (decide (f ∈ l.*1)) as [Hin|Hn].
  - destruct (split_key l f Hin) as (l1 & v & l2 & -> & Hf). rewrite (find_from_present _ _ _ _ _ Hf). cbn [fmap option_fmap option_map Nat.add].
    rewrite (value_of_field_ok zl es l1 f v l2 Hz E Hw). cbn [mbind res_bind]. destruct (value_get_ok zl es l1 f v l2 Hz E Hw) as [_ ->]. cbn [mbind res_bind res_of_option].
    rewrite (elem_of_list_to_map_1 _ f v); [done|done|]. apply elem_of_app. right. left.
  - by rewrite (find_from_absent l f 0 Hn), not_elem_of_list_to_map_1.
Qed.

Lemma delete_at_mid (a b : list bytes) s : delete_at (length a) 1 (a ++ s :: b) = a ++ b.
Proof. unfold delete_at. by rewrite take_app_length, <- (Nat.add_0_r (length a)), <- Nat.add_assoc, drop_app_add. Qed.
Lemma insert_at_mid (a b : list bytes) s : insert_at (length a) s (a ++ b) = a ++ s :: b.
Proof. unfold insert_at. by rewrite take_app_length, drop_app_length. Qed.

(** An entry is taken out; the pointer stays where it was. *)
Lemma zdelete_ok zl es (a b : list bytes) s :
  zl_ok zl es → es.*2 = a ++ s :: b → weight (a ++ s :: b) < 2 ^ 32 →
  ∃ zl' es', ziplistDelete zl (at_index es (length a)) = Ok (zl', at_index es' (length a)) ∧ zl_ok zl' es' ∧ es'.*2 = a ++ b.
Proof.
  intros Hz E Hw. assert (length es = length a + S (length b))%nat as Hl by (rewrite <- (length_fmap snd es), E, length_app; done).
  destruct (delete_index zl es (length a) 1 Hz) as (zl' & es2 & E1 & E2 & Hz'); [lia|lia|by rewrite E|]. exists zl', (take (length a) es ++ es2).
  unfold ziplistDelete. rewrite E1. cbn [mbind res_bind]. split; [|by rewrite E2, E, delete_at_mid].
  unfold at_index. rewrite take_app_le, take_take, Nat.min_id by (rewrite length_take; lia). done.
Qed.
Lemma zinsert_ok zl es (a b : list bytes) s :
  zl_ok zl es → es.*2 = a ++ b → weight (a ++ s :: b) < 2 ^ 32 →
  ∃ zl' es', ziplistInsert zl (at_index es (length a)) s = Ok zl' ∧ zl_ok zl' es' ∧ es'.*2 = a ++ s :: b.
Proof.
  intros Hz E Hw. assert (length es = length a + length b)%nat as Hl by (rewrite <- (length_fmap snd es), E, length_app; done).
  destruct (insert_index zl es (length a) s Hz) as (zl' & es' & E1 & E2 & Hz'); [lia|by rewrite E, insert_at_mid|]. exists zl', es'. split; [done|]. split; [done|].
  by rewrite E2, E, insert_at_mid.
Qed.

Lemma map_mid l1 f v l2 :
  NoDup (l1 ++ (f, v) :: l2).*1 →
  (list_to_map (l1 ++ (f, v) :: l2) : gmap bytes bytes) = <[f := v]> (list_to_map (l1 ++ l2)) ∧ NoDup (l1 ++ l2).*1 ∧ f ∉ (l1 ++ l2).*1.
Proof.
  intros Hnd. assert ((f, v) :: l1 ++ l2 ≡ₚ l1 ++ (f, v) :: l2) as Hp by apply Permutation_middle.
  rewrite <- Hp in Hnd. split; [by rewrite <- (list_to_map_proper _ _ Hnd Hp)|]. by apply NoDup_cons in Hnd as [? ?].
Qed.

(** The list of pairs after a field was set. *)
Lemma set_in_ziplist_ok zl l f v :
  zpairs zl l → NoDup l.*1 → mweight (<[f := v]> (list_to_map l)) < 2 ^ 32 →
  ∃ zl' l', set_in_ziplist zl f v = Ok (bool_decide (is_Some ((list_to_map l : gmap bytes bytes) !! f)), zl') ∧
    zpairs zl' l' ∧ NoDup l'.*1 ∧ (list_to_map l' : gmap bytes bytes) = <[f := v]> (list_to_map l).
Proof.
  intros (es & Hz & E & Hw) Hnd Hw'. unfold set_in_ziplist. rewrite (find_field_ok zl es l f Hz E Hw). cbn [mbind res_bind].
  destruct (decide (f ∈ l.*1)) as [Hin|Hn].
  - destruct (split_key l f Hin) as (l1 & v0 & l2 & -> & Hf). rewrite (find_from_present _ _ _ _ _ Hf). cbn [fmap option_fmap option_map Nat.add].
    assert (NoDup (l1 ++ (f, v) :: l2).*1) as Hnd' by (by rewrite fmap_app in *).
    assert ((list_to_map (l1 ++ (f, v) :: l2) : gmap bytes bytes) = <[f := v]> (list_to_map (l1 ++ (f, v0) :: l2))) as Em.
    { destruct (map_mid _ _ _ _ Hnd) as (-> & _), (map_mid _ _ _ _ Hnd') as (-> & _). by rewrite insert_insert_eq. }
    rewrite <- Em, mweight_list in Hw' by done.
    rewrite (value_of_field_ok zl es l1 f v0 l2 Hz E Hw). cbn [mbind res_bind].
    assert (∀ v, flat (l1 ++ (f, v) :: l2) = (flat l1 ++ [f]) ++ v :: flat l2) as Ef by (intros w; rewrite flat_app, <- app_assoc; done).
    assert (S (2 * length l1) = length (flat l1 ++ [f])) as -> by (rewrite length_app, flat_length; cbn; lia). rewrite Ef in *.
    destruct (zdelete_ok zl es _ _ v0 Hz E Hw) as (zl1 & es1 & -> & Hz1 & E1). cbn [mbind res_bind].
    destruct (zinsert_ok zl1 es1 _ _ v Hz1 E1 Hw') as (zl2 & es2 & -> & Hz2 & E2). cbn [mbind res_bind].
    exists zl2, (l1 ++ (f, v) :: l2). rewrite Em, (elem_of_list_to_map_1 _ f v0); [|done|apply elem_of_app; right; left]. rewrite bool_decide_eq_true_2 by done.
    split; [done|]. split; [|done]. exists es2. by rewrite Ef.
  - rewrite (find_from_absent l f 0 Hn). cbn [fmap option_fmap option_map]. rewrite (not_elem_of_list_to_map_1 l f Hn).
    assert (NoDup ((f, v) :: l).*1) as Hnd' by (cbn; by apply NoDup_cons). change (<[f := v]> (list_to_map l)) with (list_to_map ((f, v) :: l) : gmap bytes bytes) in *.
    rewrite (mweight_list _ Hnd'), weight_flat_cons in Hw'. cbn [fst snd] in Hw'.
    destruct (push_ok zl es f ZIPLIST_TAIL Hz) as (zl1 & es1 & -> & E1 & Hz1); [rewrite weight_cons, E; lia|]. cbn [mbind res_bind].
    destruct (push_ok zl1 es1 v ZIPLIST_TAIL Hz1) as (zl2 & es2 & -> & E2 & Hz2); [rewrite E1, E, weight_cons, weight_app, weight_cons; change (weight []) with 11; lia|]. cbn [mbind res_bind].
    exists zl2, (l ++ [(f, v)]). rewrite bool_decide_eq_false_2 by (by intros []). split; [done|].
    assert ((f, v) :: l ≡ₚ l ++ [(f, v)]) as Hp by (by rewrite Permutation_cons_append). split; [|split; [by rewrite <- Hp|by rewrite (list_to_map_proper _ _ Hnd' Hp)]].
    exists es2. rewrite E2, E1, E, <- (weight_flat_perm _ _ Hp), weight_flat_cons, flat_app, <- app_assoc. done.
Qed.

Lemma list_to_map_size l : NoDup l.*1 → size (list_to_map l : gmap bytes bytes) = length l.
Proof. intros Hnd. rewrite <- length_map_to_list. apply Permutation_length. by apply map_to_list_to_map. Qed.

(** ** A hash and its map *)

Section refinement.
Context {D : SdsDict bytes} {L : SdsDictLaws D}.
Variables (hash_max_ziplist_entries hash_max_ziplist_value : Z).
Implicit Types (o : hobj) (m : gmap bytes bytes).

Definition hash_raw o m : Prop :=
  match o with
  | HZiplist zl => ∃ l, zpairs zl l ∧ NoDup l.*1 ∧ m = list_to_map l
  | HDict d => holds d m
  | HOther => False
  end.
(** A hash that is a ziplist has no more pairs than it may have. *)
Definition hash_rep o m : Prop :=
  hash_raw o m ∧ ∀ zl, o = HZiplist zl → Z.of_nat (size m) ≤ hash_max_ziplist_entries.

(** The iterator at the pair [j]. *)
Definition zip_at es (j : nat) : hashTypeIterator :=
  match j with O => HIZiplist None None | S j => HIZiplist (Some (at_index es (2 * j))) (Some (at_index es (S (2 * j)))) end.
Definition hash_walking (hi : hashTypeIterator) o l : Prop :=
  match o, hi with
  | HZiplist zl, _ => ∃ es l1, zl_ok zl es ∧ es.*2 = flat (l1 ++ l) ∧ weight (flat (l1 ++ l)) < 2 ^ 32 ∧ hi = zip_at es (length l1)
  | HDict d, HIDict di _ => walking di d l
  | _, _ => False
  end.
Definition hash_walked (hi : hashTypeIterator) o : Prop :=
  match o, hi with HZiplist _, HIZiplist _ _ => True | HDict d, HIDict di _ => walked di d | _, _ => False end.

Lemma zip_next_ok zl es l1 l :
  zl_ok zl es → es.*2 = flat (l1 ++ l) → weight (flat (l1 ++ l)) < 2 ^ 32 →
  hashTypeNext (zip_at es (length l1)) (HZiplist zl) =
    match l with [] => Ok (false, zip_at es (length l1), HZiplist zl) | _ => Ok (true, zip_at es (S (length l1)), HZiplist zl) end.
Proof.
  intros Hz E Hw. pose proof (zpairs_small _ _ _ Hz E Hw) as Hm. pose proof (pairs_count _ _ E) as Hc. rewrite length_app in Hc.
  assert (match zip_at es (length l1) with HIZiplist None _ => ziplistIndex zl 0 | HIZiplist _ (Some p) => ziplistNext zl p | _ => Ok None end =
    Ok (match l with [] => None | _ => Some (at_index es (2 * length l1)) end)) as Hnext.
  { destruct l1 as [|p1 l1]; cbn [length zip_at].
    - rewrite (index_ok zl es 0 Hz Hm). unfold index_of. cbn [Z.ltb Z.compare]. rewrite length_fmap. destruct l as [|p l]; cbn [length] in Hc; [by rewrite (proj2 (Z.ltb_ge 0 _)) by lia|].
      rewrite (proj2 (Z.ltb_lt 0 _)) by lia. done.
    - cbn [length] in Hc. rewrite (next_ok zl es _ Hz Hm) by lia. unfold next_of. rewrite length_fmap. replace (S (S (2 * length l1))) with (2 * S (length l1))%nat by lia.
      destruct l as [|p l]; cbn [length] in Hc; [by rewrite decide_False by lia|by rewrite decide_True by lia]. }
  assert (∀ next, match l with [] => next = None | _ => next = Some (at_index es (2 * length l1)) end →
    next_pair (zip_at es (length l1)) zl next =
    match l with [] => Ok (false, zip_at es (length l1), HZiplist zl) | _ => Ok (true, zip_at es (S (length l1)), HZiplist zl) end) as Hrest.
  { intros next Hn. destruct l as [|[f v] l]; subst next; [done|]. cbn [next_pair]. by rewrite (value_of_field_ok zl es l1 f v l Hz E Hw). }
  destruct l1 as [|p1 l1]; cbn [length zip_at hashTypeNext] in *; cbn [serverAssert bool_decide mbind res_bind res_of_option]; rewrite Hnext; cbn [mbind res_bind]; apply Hrest; by destruct l.
Qed.

Lemma hash_next_ok hi o m l :
  hash_raw o m → hash_walking hi o l →
  match l with
  | [] => ∃ hi', hashTypeNext hi o = Ok (false, hi', o) ∧ hash_walked hi' o
  | (f, v) :: l' => ∃ hi', hashTypeNext hi o = Ok (true, hi', o) ∧ hash_walking hi' o l' ∧
      hashTypeCurrentObjectNewSds hi' o OBJ_HASH_KEY = Ok f ∧ hashTypeCurrentObjectNewSds hi' o OBJ_HASH_VALUE = Ok v
  end.
Proof.
  intros Hr Hw. destruct o as [zl|d|]; [|destruct hi as [|di de]; [done|]|done]; cbn [hash_raw hash_walking] in *.
  - destruct Hw as (es & l1 & Hz & E & Hwt & ->). rewrite (zip_next_ok zl es l1 l Hz E Hwt). destruct l as [|[f v] l].
    + eexists. split; [done|]. by destruct l1.
    + destruct (value_get_ok zl es l1 f v l Hz E Hwt) as [Hk Hv]. eexists. split; [done|]. split.
      * exists es, (l1 ++ [(f, v)]). rewrite <- app_assoc. split; [done|]. split; [done|]. split; [done|]. by rewrite length_app, Nat.add_1_r.
      * unfold hashTypeCurrentObjectNewSds, hashTypeCurrentObject, hashTypeCurrentFromZiplist. cbn [zip_at res_of_option mbind res_bind]. rewrite Hk, Hv. cbn [mbind res_bind res_of_option mret res_ret]. by rewrite !shown_sds.
  - destruct (s_next_ok di d m l Hr Hw) as (it' & E & Hl). cbn [hashTypeNext]. rewrite E. cbn [mbind res_bind mret res_ret]. destruct l as [|[f v] l]; cbn [head].
    + rewrite bool_decide_eq_false_2 by (by intros []). by eexists.
    + rewrite bool_decide_eq_true_2 by done. eexists. split; [done|]. by split.
Qed.

Lemma hash_init_ok o m : hash_raw o m → ∃ hi l, hashTypeInitIterator o = Ok hi ∧ l ≡ₚ map_to_list m ∧ hash_walking hi o l.
Proof.
  intros Hr. destruct o as [zl|d|]; [| |done]; cbn [hash_raw hash_walking hashTypeInitIterator] in *.
  - destruct Hr as (l & (es & Hz & E & Hw) & Hnd & ->). eexists _, l. split; [done|]. split; [symmetry; by apply map_to_list_to_map|]. exists es, []. done.
  - destruct (s_iterator_ok d m Hr) as (l & Hl & Hw). eexists _, l. done.
Qed.
Lemma hash_release_ok hi o m : hash_raw o m → hash_walked hi o → hashTypeReleaseIterator hi o = Ok o.
Proof.
  intros Hr Hw. destruct o as [zl|d|], hi as [|di de]; try done. cbn [hash_raw hash_walked hashTypeReleaseIterator] in *. by rewrite (s_release_ok di d m Hr Hw).
Qed.

Lemma pairs_loop_ok o m l : ∀ fuel hi,
  hash_raw o m → hash_walking hi o l → (length l < fuel)%nat → ∃ hi', pairs_loop fuel hi o = Ok (l, hi', o) ∧ hash_walked hi' o.
Proof.
  induction l as [|[f v] l IH]; intros fuel hi Hr Hw Hf; (destruct fuel as [|fuel]; [lia|]); pose proof (hash_next_ok hi o m _ Hr Hw) as Hn; cbn [pairs_loop].
  - destruct Hn as (hi' & -> & Hwd). cbn. by exists hi'.
  - destruct Hn as (hi' & -> & Hw' & Hk & Hv). cbn [mbind res_bind negb]. rewrite Hk, Hv. cbn [mbind res_bind length] in *.
    destruct (IH fuel hi' Hr Hw') as (hi2 & -> & Hwd); [lia|]. cbn. by exists hi2.
Qed.

(** ** Conversion *)

Lemma convert_loop_ok o m l : ∀ fuel hi d md,
  hash_raw o m → hash_walking hi o l → (length l < fuel)%nat → holds d md → NoDup l.*1 → (∀ f, f ∈ l.*1 → md !! f = None) →
  Z.of_nat (size md + length l) < 2 ^ 60 →
  ∃ hi' d', convert_loop fuel hi o d = Ok (hi', d') ∧ hash_walked hi' o ∧ holds d' (list_to_map l ∪ md).
Proof.
  induction l as [|[f v] l IH]; intros fuel hi d md Hr Hw Hf Hd Hnd Hfresh Hsm; (destruct fuel as [|fuel]; [lia|]); pose proof (hash_next_ok hi o m _ Hr Hw) as Hn; cbn [convert_loop].
  - destruct Hn as (hi' & -> & Hwd). cbn. exists hi', d. split; [done|]. split; [done|]. change (list_to_map []) with (∅ : gmap bytes bytes). by rewrite (left_id_L ∅ (∪)).
  - destruct Hn as (hi' & -> & Hw' & Hk & Hv). cbn [mbind res_bind negb]. rewrite Hk, Hv. cbn [mbind res_bind length] in *.
    apply NoDup_cons in Hnd as [Hnf Hnd]. assert (md !! f = None) as Hmf by (apply Hfresh; left).
    destruct (s_add_ok d md f v Hd) as (d1 & -> & Hd1); [lia|]. rewrite Hmf in Hd1. rewrite bool_decide_eq_true_2 by done. cbn [mbind res_bind serverAssert].
    destruct (IH fuel hi' d1 (<[f := v]> md) Hr Hw') as (hi2 & d2 & -> & Hwd & Hd2); [lia|done|done| |rewrite map_size_insert_None by done; lia|].
    + intros f' Hf'. rewrite lookup_insert_ne by (by intros ->). apply Hfresh. by right.
    + exists hi2, d2. split; [done|]. split; [done|]. cbn [list_to_map foldr uncurry fst snd]. rewrite <- insert_union_l, insert_union_r; [done|]. by apply not_elem_of_list_to_map_1.
Qed.

Lemma convert_ok zl m : hash_raw (HZiplist zl) m → ∃ d, hashTypeConvert (HZiplist zl) = Ok (HDict d) ∧ holds d m.
Proof.
  intros Hr. destruct (hash_init_ok _ _ Hr) as (hi & l & Ei & Hl & Hw). assert (NoDup l.*1) as Hnd by (rewrite Hl; apply NoDup_fst_map_to_list).
  assert (list_to_map l = m) as Em by (rewrite (list_to_map_proper _ _ Hnd Hl); apply list_to_map_to_list).
  pose proof Hw as (es & l1 & Hz & E & Hwt & _). pose proof (zpairs_small _ _ _ Hz E Hwt). pose proof (pairs_count _ _ E) as Hc. rewrite length_app in Hc.
  pose proof (z_len _ _ Hz). pose proof (esize_len es). unfold hashTypeConvert, hashTypeConvertZiplist. rewrite Ei. cbn [mbind res_bind].
  destruct (convert_loop_ok _ m l (S (length zl)) hi s_create ∅ Hr Hw) as (hi' & d & -> & Hwd & Hd); [lia|apply s_create_ok|done|by intros; apply lookup_empty|rewrite map_size_empty; lia|].
  cbn [mbind res_bind]. rewrite (hash_release_ok _ _ _ Hr Hwd). cbn. exists d. split; [done|]. by rewrite (right_id_L ∅ (∪)), Em in Hd.
Qed.

(** ** Calls *)

Inductive hcall :=
| HSet (f v : bytes) | HTryConversion (args : list bytes) | HGet (f : bytes) | HStrlen (f : bytes) | HExists (f : bytes)
| HDel (f : bytes) | HLen | HPairs.
Inductive hanswer := HOk | HBool (b : bool) | HNum (n : Z) | HString (s : option bytes) | HList (l : list (bytes * bytes)).

Definition hexec (c : hcall) o : res (hanswer * hobj) :=
  match c with
  | HSet f v => '(b, o) ← hashTypeSet hash_max_ziplist_entries o f v; mret (HBool b, o)
  | HTryConversion args => o ← hashTypeTryConversion hash_max_ziplist_value o args; mret (HOk, o)
  | HGet f => '(v, o) ← hashTypeGetValueObject o f; mret (HString v, o)
  | HStrlen f => '(n, o) ← hashTypeGetValueLength o f; mret (HNum n, o)
  | HExists f => '(b, o) ← hashTypeExists o f; mret (HBool b, o)
  | HDel f => '(b, o) ← hashTypeDelete o f; mret (HBool b, o)
  | HLen => '(n, o) ← hashTypeLength o; mret (HNum n, o)
  | HPairs => '(l, o) ← hash_pairs o; mret (HList l, o)
  end.
Fixpoint hruns (cs : list hcall) o : res (list hanswer * hobj) :=
  match cs with
  | [] => mret ([], o)
  | c :: cs' => '(a, o) ← hexec c o; '(l, o) ← hruns cs' o; mret (a :: l, o)
  end.

(** The same on a finite map. *)
Definition hmap (c : hcall) m : gmap bytes bytes :=
  match c with HSet f v => <[f := v]> m | HDel f => delete f m | _ => m end.
Definition hmaps (cs : list hcall) m : gmap bytes bytes := foldl (fun m c => hmap c m) m cs.
Definition right_answer m (c : hcall) (a : hanswer) : Prop :=
  match c, a with
  | HSet f _, HBool b | HExists f, HBool b | HDel f, HBool b => b = bool_decide (is_Some (m !! f))
  | HTryConversion _, HOk => True
  | HGet f, HString s => s = m !! f
  | HStrlen f, HNum n => n = Z.of_nat (length (default [] (m !! f)))
  | HLen, HNum n => n = Z.of_nat (size m)
  | HPairs, HList l => l ≡ₚ map_to_list m
  | _, _ => False
  end.
Fixpoint right_answers m (cs : list hcall) (l : list hanswer) : Prop :=
  match cs, l with
  | [], [] => True
  | c :: cs', a :: l' => right_answer m c a ∧ right_answers (hmap c m) cs' l'
  | _, _ => False
  end.
(** The map never has 2^32 bytes. *)
Fixpoint small m (cs : list hcall) : bool :=
  (mweight m <? 2 ^ 32) && match cs with [] => true | c :: cs' => small (hmap c m) cs' end.

(** The object does not become a ziplist. *)
Definition not_back o o' : Prop := ∀ zl', o' = HZiplist zl' → ∃ zl, o = HZiplist zl.
Lemma not_back_refl o : not_back o o.
Proof. intros zl ->. by exists zl. Qed.
Lemma not_back_dict o d : not_back o (HDict d).
Proof. by intros zl. Qed.
#[local] Hint Resolve not_back_refl not_back_dict : core.

Lemma raw_get_ok o m f : hash_raw o m → ∃ x o', hashTypeGetValue o f = Ok (x, o') ∧ hash_raw o' m ∧ not_back o o' ∧ option_map zvalue_sds x = m !! f.
Proof.
  intros Hr. destruct o as [zl|d|]; cbn [hashTypeGetValue]; [| |done].
  - pose proof Hr as (l & Hl & Hnd & ->). rewrite (get_from_ziplist_ok zl l f Hl Hnd). cbn [mbind res_bind]. eexists _, _. split; [done|]. split; [done|]. split; [done|].
    destruct (list_to_map l !! f) as [v|]; cbn; [|done]. by rewrite shown_sds.
  - destruct (s_find_ok d m f Hr) as (d' & E & Hd). unfold hashTypeGetFromHashTable. rewrite E. cbn [mbind res_bind]. eexists _, _. split; [done|]. split; [done|]. split; [done|]. by destruct (m !! f).
Qed.
Lemma raw_exists_ok o m f : hash_raw o m → ∃ o', hashTypeExists o f = Ok (bool_decide (is_Some (m !! f)), o') ∧ hash_raw o' m ∧ not_back o o'.
Proof.
  intros Hr. destruct o as [zl|d|]; cbn [hashTypeExists]; [| |done].
  - pose proof Hr as (l & Hl & Hnd & ->). rewrite (get_from_ziplist_ok zl l f Hl Hnd). cbn [mbind res_bind]. exists (HZiplist zl). split; [|by split]. unfold mret, res_ret. do 2 f_equal. apply bool_decide_ext. by rewrite fmap_is_Some.
  - destruct (s_find_ok d m f Hr) as (d' & E & Hd). unfold hashTypeGetFromHashTable. rewrite E. cbn [mbind res_bind]. eexists. split; [done|]. by split.
Qed.
Lemma raw_strlen_ok o m f :
  hash_raw o m → ∃ o', hashTypeGetValueLength o f = Ok (Z.of_nat (length (default [] (m !! f))), o') ∧ hash_raw o' m ∧ not_back o o'.
Proof.
  intros Hr. destruct o as [zl|d|]; cbn [hashTypeGetValueLength]; [| |done].
  - pose proof Hr as (l & Hl & Hnd & ->). rewrite (get_from_ziplist_ok zl l f Hl Hnd). cbn [mbind res_bind]. exists (HZiplist zl). split; [|by split]. unfold mret, res_ret. do 2 f_equal.
    destruct (list_to_map l !! f) as [v|]; cbn; [|done]. apply shown_length.
  - destruct (s_find_ok d m f Hr) as (d' & E & Hd). unfold hashTypeGetFromHashTable. rewrite E. cbn [mbind res_bind]. exists (HDict d'). split; [|by split]. by destruct (m !! f).
Qed.
Lemma raw_length_ok o m : hash_raw o m → ∃ o', hashTypeLength o = Ok (Z.of_nat (size m), o') ∧ hash_raw o' m ∧ not_back o o' ∧ not_back o' o.
Proof.
  intros Hr. destruct o as [zl|d|]; cbn [hashTypeLength]; [| |done].
  - destruct Hr as (l & (es & Hz & E & Hw) & Hnd & ->). destruct (len_ok zl es Hz (zpairs_small _ _ _ Hz E Hw)) as (zl' & -> & Hz'). cbn [mbind res_bind].
    rewrite (pairs_count _ _ E), list_to_map_size by done. exists (HZiplist zl'). split; [|split; [|split; by eexists]].
    + unfold mret, res_ret. do 2 f_equal. rewrite Nat2Z.inj_mul, Z.mul_comm. by apply Z.div_mul.
    + exists l. split; [|done]. by exists es.
  - rewrite (s_size_ok d m Hr). eexists. split; [done|]. by split.
Qed.

Lemma set_ok_hash o m f v :
  hash_raw o m → mweight m < 2 ^ 32 → mweight (<[f := v]> m) < 2 ^ 32 →
  ∃ o', hashTypeSet hash_max_ziplist_entries o f v = Ok (bool_decide (is_Some (m !! f)), o') ∧ hash_rep o' (<[f := v]> m).
Proof.
  intros Hr Hw Hw'. destruct o as [zl|d|]; cbn [hashTypeSet]; [| |done].
  - destruct Hr as (l & Hl & Hnd & ->). destruct (set_in_ziplist_ok zl l f v Hl Hnd Hw') as (zl1 & l1 & -> & Hl1 & Hnd1 & E1). cbn [mbind res_bind]. rewrite <- E1.
    assert (hash_raw (HZiplist zl1) (list_to_map l1)) as Hr1 by (by exists l1). destruct (raw_length_ok _ _ Hr1) as (o2 & -> & Hr2 & _ & Hb). cbn [mbind res_bind].
    destruct (Z.ltb_spec hash_max_ziplist_entries (Z.of_nat (size (list_to_map l1 : gmap bytes bytes)))) as [Hlt|Hle].
    + destruct (Hb zl1 eq_refl) as [zl2 ->]. destruct (convert_ok _ _ Hr2) as (d & -> & Hd). cbn. eexists. split; [done|]. by split.
    + cbn. eexists. split; [done|]. by split.
  - destruct (s_find_ok d m f Hr) as (d1 & -> & Hd1). cbn [mbind res_bind]. pose proof (mweight_size m). destruct (m !! f) as [v0|] eqn:Ef.
    + destruct (s_set_ok d1 m f v Hd1) as (d2 & -> & Hd2); [by rewrite Ef|]. cbn. eexists. split; [done|]. by split.
    + destruct (s_add_ok d1 m f v Hd1) as (d2 & -> & Hd2); [lia|]. rewrite Ef in Hd2. cbn. eexists. split; [done|]. by split.
Qed.

Lemma delete_ok_hash o m f :
  hash_rep o m → ∃ o', hashTypeDelete o f = Ok (bool_decide (is_Some (m !! f)), o') ∧ hash_rep o' (delete f m).
Proof.
  intros [Hr Hmax]. destruct o as [zl|d|]; cbn [hashTypeDelete]; [| |done].
  - destruct Hr as (l & (es & Hz & E & Hw) & Hnd & ->). specialize (Hmax zl eq_refl). rewrite (find_field_ok zl es l f Hz E Hw). cbn [mbind res_bind].
    destruct (decide (f ∈ l.*1)) as [Hin|Hn].
    + destruct (split_key l f Hin) as (l1 & v & l2 & -> & Hf). rewrite (find_from_present _ _ _ _ _ Hf). cbn [fmap option_fmap option_map Nat.add].
      destruct (map_mid _ _ _ _ Hnd) as (Em & Hnd' & Hf'). rewrite Em, lookup_insert_eq, delete_insert_id by (by apply not_elem_of_list_to_map_1). rewrite bool_decide_eq_true_2 by done.
      assert (flat (l1 ++ (f, v) :: l2) = flat l1 ++ f :: v :: flat l2) as Ef by (rewrite flat_app; done). rewrite Ef in *. rewrite <- flat_length.
      destruct (zdelete_ok zl es _ _ f Hz E Hw) as (zl1 & es1 & -> & Hz1 & E1). cbn [mbind res_bind]. assert (weight (flat l1 ++ v :: flat l2) < 2 ^ 32) as Hw1 by (rewrite !weight_app, !weight_cons in *; lia).
      destruct (zdelete_ok zl1 es1 _ _ v Hz1 E1 Hw1) as (zl2 & es2 & -> & Hz2 & E2). cbn [mbind res_bind]. eexists. split; [done|]. split.
      * exists (l1 ++ l2). split; [|done]. exists es2. rewrite flat_app. split; [done|]. split; [done|]. rewrite !weight_app, !weight_cons in *. lia.
      * intros zl' _. rewrite Em, map_size_insert_None in Hmax by (by apply not_elem_of_list_to_map_1). lia.
    + rewrite (find_from_absent l f 0 Hn). cbn [fmap option_fmap option_map]. rewrite (not_elem_of_list_to_map_1 l f Hn), delete_id by (by apply not_elem_of_list_to_map_1).
      eexists. split; [done|]. split; [|done]. exists l. split; [by exists es|done].
  - destruct (s_delete_ok d m f Hr) as (d1 & -> & Hd1). cbn [mbind res_bind]. eexists. split; [done|]. split; [|done]. cbn. destruct (bool_decide _); [by apply s_shrink_ok|done].
Qed.

Lemma pairs_ok_hash o m :
  hash_raw o m → ∃ l o', hash_pairs o = Ok (l, o') ∧ hash_raw o' m ∧ not_back o o' ∧ l ≡ₚ map_to_list m.
Proof.
  intros Hr. unfold hash_pairs. destruct (raw_length_ok o m Hr) as (o1 & -> & Hr1 & Hb & _). cbn [mbind res_bind].
  destruct (hash_init_ok o1 m Hr1) as (hi & l & -> & Hl & Hw). cbn [mbind res_bind]. rewrite Nat2Z.id.
  assert (length l = size m) as El by (rewrite Hl; apply length_map_to_list).
  destruct (pairs_loop_ok o1 m l (S (size m)) hi Hr1 Hw) as (hi' & -> & Hwd); [lia|]. cbn [mbind res_bind]. rewrite (hash_release_ok hi' o1 m Hr1 Hwd). cbn [mbind res_bind].
  rewrite El, Z.eqb_refl. by exists l, o1.
Qed.

Lemma keeps_rep o o' m : hash_rep o m → hash_raw o' m → not_back o o' → hash_rep o' m.
Proof. intros [_ Hmax] Hr Hb. split; [done|]. intros zl' E. destruct (Hb zl' E) as [zl ->]. by apply (Hmax zl). Qed.

Lemma hexec_ok c o m :
  hash_rep o m → mweight m < 2 ^ 32 → mweight (hmap c m) < 2 ^ 32 →
  ∃ a o', hexec c o = Ok (a, o') ∧ right_answer m c a ∧ hash_rep o' (hmap c m).
Proof.
  intros Hr Hw Hw'. pose proof Hr as [Hraw _]. destruct c as [f v|args|f|f|f|f| |]; cbn [hexec hmap] in *.
  - destruct (set_ok_hash o m f v Hraw Hw Hw') as (o' & -> & Hr'). cbn. by eexists _, _.
  - unfold hashTypeTryConversion. destruct o as [zl|d|]; [|by eexists _, _|done]. destruct (existsb _ _); [|by eexists _, _].
    destruct (convert_ok zl m Hraw) as (d & -> & Hd). cbn. eexists _, _. split; [done|]. split; [done|]. by split.
  - unfold hashTypeGetValueObject. destruct (raw_get_ok o m f Hraw) as (x & o' & -> & Hr' & Hb & E). cbn. eexists _, _. split; [done|]. split; [done|]. by eapply keeps_rep.
  - destruct (raw_strlen_ok o m f Hraw) as (o' & -> & Hr' & Hb). cbn. eexists _, _. split; [done|]. split; [done|]. by eapply keeps_rep.
  - destruct (raw_exists_ok o m f Hraw) as (o' & -> & Hr' & Hb). cbn. eexists _, _. split; [done|]. split; [done|]. by eapply keeps_rep.
  - destruct (delete_ok_hash o m f Hr) as (o' & -> & Hr'). cbn. by eexists _, _.
  - destruct (raw_length_ok o m Hraw) as (o' & -> & Hr' & Hb & _). cbn. eexists _, _. split; [done|]. split; [done|]. by eapply keeps_rep.
  - destruct (pairs_ok_hash o m Hraw) as (l & o' & -> & Hr' & Hb & Hl). cbn. eexists _, _. split; [done|]. split; [done|]. by eapply keeps_rep.
Qed.

Lemma hruns_ok cs : ∀ o m,
  hash_rep o m → small m cs = true → ∃ rs o', hruns cs o = Ok (rs, o') ∧ right_answers m cs rs ∧ hash_rep o' (hmaps cs m).
Proof.
  induction cs as [|c cs IH]; intros o m Hr Hs; cbn [small] in Hs; apply andb_true_iff in Hs as [Hw%Z.ltb_lt Hs]; cbn [hruns hmaps foldl]; [by eexists _, _|].
  assert (mweight (hmap c m) < 2 ^ 32) as Hw' by (destruct cs; cbn [small] in Hs; by apply andb_true_iff in Hs as [?%Z.ltb_lt _]).
  destruct (hexec_ok c o m Hr Hw Hw') as (a & o1 & -> & Ha & Hr1). cbn [mbind res_bind]. destruct (IH o1 _ Hr1 Hs) as (l & o2 & -> & Hl & Hr2). cbn. by eexists _, _.
Qed.

(** C20: a hash is a finite map.  Whatever calls are made on a new hash, none fails an
    assertion, the answers are those of a finite map from fields to values, wherever in the
    sequence the object is converted from a ziplist to a dictionary, and an object that is
    still a ziplist has at most [hash_max_ziplist_entries] fields. *)
Theorem hash_refines cs :
  0 ≤ hash_max_ziplist_entries → small ∅ cs = true →
  ∃ o rs o', createHashObject = Ok o ∧ hruns cs o = Ok (rs, o') ∧ right_answers ∅ cs rs ∧ hash_rep o' (hmaps cs ∅).
Proof.
  intros Hmax Hs. unfold createHashObject. destruct ziplist_new_ok as (zl & -> & Hz). cbn [mbind res_bind]. exists (HZiplist zl).
  destruct (hruns_ok cs (HZiplist zl) ∅) as (l & o' & E & Ha & Hr); [|done|by exists l, o'].
  split; [|intros zl' _; by rewrite map_size_empty]. exists []. split; [by exists []|]. split; [constructor|done].
Qed.
End refinement.

(** With dict.c: a hash that may have two fields is converted by the third, and a value that is
    too long converts one before. *)
Definition ex_sdshash (s : bytes) : Z := u64 (foldl (fun h b => h * 33 + Z_of_byte b) 5381 s).
Lemma ex_sdshash_range s : 0 ≤ ex_sdshash s < 2 ^ 64.
Proof. apply u64_range. Qed.
Definition ex_dict_api : SdsDict bytes := dict_api ex_sdshash (fun _ => 0) true.
Definition ex_dict_laws : SdsDictLaws ex_dict_api := dict_api_laws _ _ _ ex_sdshash_range.

Definition w_calls : list hcall :=
  let s := String.list_byte_of_string in
  [HSet (s "a") (s "1"); HSet (s "b") (s "x"); HSet (s "a") (s "-12345"); HGet (s "a"); HStrlen (s "a"); HPairs; HSet (s "c") (s "y"); HGet (s "a"); HExists (s "d");
   HDel (s "b"); HDel (s "b"); HLen; HPairs; HTryConversion [s "long long string"]].
Lemma hash_refines_witness :
  ∃ o rs d, createHashObject (D := ex_dict_api) = Ok o ∧ hruns (D := ex_dict_api) 2 10 w_calls o = Ok (rs, HDict (D := ex_dict_api) d) ∧ right_answers ∅ w_calls rs ∧
    rs !! 7%nat = Some (HString (Some (String.list_byte_of_string "-12345"))).
Proof.
  destruct (hash_refines (D := ex_dict_api) (L := ex_dict_laws) 2 10 w_calls) as (o & rs & o' & E & Er & Ha & _); [lia|vm_compute; reflexivity|].
  assert (match (o ← createHashObject (D := ex_dict_api); hruns (D := ex_dict_api) 2 10 w_calls o) with
    | Ok (rs, HDict _) => match rs !! 7%nat with Some (HString (Some s)) => bool_decide (s = String.list_byte_of_string "-12345") | _ => false end
    | _ => false end = true) as Hc by (vm_compute; reflexivity).
  rewrite E in Hc. cbn [mbind res_bind] in Hc. rewrite Er in Hc. destruct o' as [|d|]; [discriminate Hc| |discriminate Hc].
  exists o, rs, d. split; [exact E|]. split; [exact Er|]. split; [exact Ha|].
  destruct (rs !! 7%nat) as [[| | |[s|]|]|]; try discriminate Hc. apply bool_decide_eq_true in Hc. by rewrite Hc.
Defined.
