(* ===== verification/SetType.v ===== *)
(** * Sets (src/src/t_set.c)

    The functions on a set object through which the commands reach it.  A set whose members
    are all integers is an intset; when it gets a member that is not, or when it has become
    large, it becomes a dictionary ([SdsDict]) whose values are not used.

    Shown: whatever the encoding, and whenever the object is converted, a set is a finite set of
    strings. *)

From S2P Require Import Prelude Util Robj Serdes Intset Dict DictIter DictApi.
From stdpp Require Import list gmap.
#[local] Open Scope Z_scope.

(** [isSdsRepresentableAsLongLong] of object.c. *)
Definition isSdsRepresentableAsLongLong (s : bytes) : option Z := string2ll s.

Section set.
Context {D : SdsDict unit}.
Variables (garbage : nat → byte) (set_max_intset_entries : Z).

(** [o->encoding] and [o->ptr]. *)
Inductive sobj := SIntset (ist : intset) | SDict (d : sdict) | SOther.
Implicit Types (o : sobj) (value : bytes).

Definition unknown_set {A} : res A := Abort "Unknown set encoding".

Definition setTypeCreate value : sobj :=
  match isSdsRepresentableAsLongLong value with Some _ => SIntset intsetNew | None => SDict s_create end.

Definition setTypeSize o : res Z :=
  match o with
  | SDict d => mret (s_size d)
  | SIntset ist => mret (intsetLen ist)
  | SOther => unknown_set
  end.

Definition setTypeIsMember o value : res (bool * sobj) :=
  match o with
  | SDict d => '(de, d) ← s_find value d; mret (bool_decide (is_Some de), SDict d)
  | SIntset ist =>
      match isSdsRepresentableAsLongLong value with
      | Some llval => b ← intsetFind ist llval; mret (b, o)
      | None => mret (false, o)
      end
  | SOther => unknown_set
  end.

(** ** Iterators *)

(** [si->ii] or [si->di]. *)
Inductive setTypeIterator := SIIntset (ii : Z) | SIDict (di : siter).

Definition setTypeInitIterator o : res setTypeIterator :=
  match o with
  | SDict d => mret (SIDict (s_iterator d))
  | SIntset _ => mret (SIIntset 0)
  | SOther => unknown_set
  end.
Definition setTypeReleaseIterator (si : setTypeIterator) o : res sobj :=
  match si, o with
  | SIDict di, SDict d => d ← s_release di d; mret (SDict d)
  | _, _ => mret o
  end.
(** [sdsele] or [llele]; [None] is -1. *)
Definition setTypeNext (si : setTypeIterator) o : res (option (bytes + Z) * setTypeIterator * sobj) :=
  match si, o with
  | SIDict di, SDict d =>
      '(de, di, d) ← s_next di d;
      mret (option_map (fun e => inl e.1) de, SIDict di, SDict d)
  | SIIntset ii, SIntset ist =>
      v ← intsetGet ist (u32 ii);
      mret (option_map inr v, SIIntset (ii + 1), o)
  | _, _ => Abort "Wrong set encoding in setTypeNext"
  end.
Definition setTypeNextObject (si : setTypeIterator) o : res (option bytes * setTypeIterator * sobj) :=
  '(e, si, o) ← setTypeNext si o;
  mret (option_map (fun e => match e with inl s => s | inr n => sdsfromlonglong n end) e, si, o).

(** ** Conversion *)

(** [while (setTypeNext(si,&element,&intele) != -1)] *)
Fixpoint set_convert_loop (fuel : nat) (si : setTypeIterator) o (d : sdict) : res (setTypeIterator * sdict) :=
  match fuel with
  | O => Abort "fuel"
  | S fuel' =>
      '(e, si, o) ← setTypeNext si o;
      match e with
      | None => mret (si, d)
      | Some e =>
          intele ← match e with inr n => mret n | inl _ => Abort "intele" end;
          '(ok, d) ← s_add (sdsfromlonglong intele) tt d;
          serverAssert ok "dictAdd(d,element,NULL) == DICT_OK" ;;
          set_convert_loop fuel' si o d
      end
  end.
(** To [OBJ_ENCODING_HT]; other encodings are not asked for. *)
Definition setTypeConvert o : res sobj :=
  match o with
  | SIntset ist =>
      let d := s_expand (intsetLen ist) s_create in
      si ← setTypeInitIterator o;
      '(si, d) ← set_convert_loop (S (Z.to_nat (intsetLen ist))) si o d;
      _ ← setTypeReleaseIterator si o;
      mret (SDict d)
  | _ => Abort "setobj->encoding == OBJ_ENCODING_INTSET"
  end.

(** ** Adding and removing *)

Definition setTypeAdd o value : res (bool * sobj) :=
  match o with
  | SDict d => '(ok, d) ← s_add value tt d; mret (ok, SDict d)
  | SIntset ist =>
      match isSdsRepresentableAsLongLong value with
      | Some llval =>
          '(ist, success) ← intsetAdd garbage ist llval;
          if success : bool then
            o ← if set_max_intset_entries <? intsetLen ist then setTypeConvert (SIntset ist) else mret (SIntset ist);
            mret (true, o)
          else mret (false, SIntset ist)
      | None =>
          o ← setTypeConvert o;
          match o with
          | SDict d =>
              '(ok, d) ← s_add value tt d;
              serverAssert ok "dictAdd(subject->ptr,sdsdup(value),NULL) == DICT_OK" ;;
              mret (true, SDict d)
          | _ => unknown_set
          end
      end
  | SOther => unknown_set
  end.
Definition setTypeRemove o value : res (bool * sobj) :=
  match o with
  | SDict d =>
      '(deleted, d) ← s_delete value d;
      mret (deleted, SDict (if deleted : bool then s_shrink d else d))
  | SIntset ist =>
      match isSdsRepresentableAsLongLong value with
      | Some llval => '(ist, success) ← intsetRemove garbage ist llval; mret (success, SIntset ist)
      | None => mret (false, o)
      end
  | SOther => unknown_set
  end.

(** How the members are gone through. *)
Fixpoint members_loop (fuel : nat) (si : setTypeIterator) o : res (list bytes * setTypeIterator * sobj) :=
  match fuel with
  | O => Abort "fuel"
  | S fuel' =>
      '(e, si, o) ← setTypeNextObject si o;
      match e with
      | None => mret ([], si, o)
      | Some s => '(l, si, o) ← members_loop fuel' si o; mret (s :: l, si, o)
      end
  end.
Definition set_members o : res (list bytes * sobj) :=
  n ← setTypeSize o;
  si ← setTypeInitIterator o;
  '(l, si, o) ← members_loop (S (Z.to_nat n)) si o;
  o ← setTypeReleaseIterator si o;
  mret (l, o).
End set.
Arguments sobj {D}.
Arguments setTypeIterator {D}.

(** ** A set object and its set *)

Section set_refinement.
Context {D : SdsDict unit} {L : SdsDictLaws D}.
Variables (garbage : nat → byte) (set_max_intset_entries : Z).
Implicit Types (o : sobj) (X : gset bytes) (ns : list Z) (s : bytes).

Definition set_raw o X : Prop :=
  match o with
  | SIntset ist => ∃ ns, is_rep ist ns ∧ X = list_to_set (sdsll2str <$> ns)
  | SDict d => ∃ m, holds d m ∧ dom m = X
  | SOther => False
  end.
(** A set that is an intset has no more members than it may have. *)
Definition set_rep o X : Prop := set_raw o X ∧ ∀ ist, o = SIntset ist → Z.of_nat (size X) ≤ set_max_intset_entries.

Lemma sdsll2str_inj v w : is_ll v → is_ll w → sdsll2str v = sdsll2str w → v = w.
Proof. intros Hv Hw E. apply string2ll_complete in Hv, Hw. rewrite E in Hv. congruence. Qed.

Lemma rep_ll ist ns v : is_rep ist ns → v ∈ ns → is_ll v.
Proof.
  intros Hr Hv. destruct Hr as [He _ _ _ Hf _]. rewrite Forall_forall in Hf. specialize (Hf v Hv). unfold fits, is_ll, LLONG_MIN, LLONG_MAX in *.
  destruct He as [E|[E|E]]; rewrite E in Hf; lia.
Qed.
Lemma member_int ist ns v : is_rep ist ns → is_ll v → sdsll2str v ∈ (list_to_set (sdsll2str <$> ns) : gset bytes) ↔ v ∈ ns.
Proof.
  intros Hr Hv. rewrite elem_of_list_to_set, list_elem_of_fmap. split.
  - intros (w & E & Hw). by rewrite (sdsll2str_inj v w Hv (rep_ll _ _ _ Hr Hw) E).
  - intros Hin. by exists v.
Qed.
Lemma member_nonint ist ns s : is_rep ist ns → string2ll s = None → s ∉ (list_to_set (sdsll2str <$> ns) : gset bytes).
Proof.
  intros Hr Hs. rewrite elem_of_list_to_set, list_elem_of_fmap. intros (w & -> & Hw). by rewrite (string2ll_complete w (rep_ll _ _ _ Hr Hw)) in Hs.
Qed.
Lemma strings_nodup ist ns : is_rep ist ns → NoDup (sdsll2str <$> ns).
Proof.
  intros Hr. assert (NoDup ns) as Hnd by (eapply sorted_NoDup, rep_sorted; done). assert (∀ v, v ∈ ns → is_ll v) as Hll by (intros v; by eapply rep_ll). clear Hr.
  induction Hnd as [|v ns Hv Hnd IH]; cbn; constructor.
  - rewrite list_elem_of_fmap. intros (w & E & Hw). apply Hv. rewrite (sdsll2str_inj v w); [done| | |done]; apply Hll; [left|by right].
  - apply IH. intros w Hw. apply Hll. by right.
Qed.
Lemma strings_size ist ns : is_rep ist ns → size (list_to_set (sdsll2str <$> ns) : gset bytes) = length ns.
Proof. intros Hr. rewrite size_list_to_set by (by eapply strings_nodup). apply length_fmap. Qed.

Lemma raw_size o X : set_raw o X → setTypeSize o = Ok (Z.of_nat (size X)).
Proof.
  destruct o as [ist|d|]; cbn; [|intros (m & Hm & <-); by rewrite (s_size_ok d m Hm), size_dom|done]. intros (ns & Hr & ->).
  rewrite (strings_size _ _ Hr). unfold intsetLen. by rewrite (rep_len _ _ Hr).
Qed.

Lemma raw_member o X s : set_raw o X → ∃ o', setTypeIsMember o s = Ok (bool_decide (s ∈ X), o') ∧ set_raw o' X ∧ ∀ ist, o' = SIntset ist → o = o'.
Proof.
  destruct o as [ist|d|]; cbn [set_raw setTypeIsMember]; [| |done].
  - intros (ns & Hr & ->). unfold isSdsRepresentableAsLongLong. exists (SIntset ist). split; [|split; [by exists ns|done]]. destruct (string2ll s) as [v|] eqn:Es.
    + apply string2ll_sound in Es as [Hv ->]. rewrite (find_ok ist ns v Hr). cbn. unfold mret, res_ret. do 2 f_equal. apply bool_decide_ext. by rewrite (member_int _ _ _ Hr Hv).
    + by rewrite bool_decide_eq_false_2 by (by eapply member_nonint).
  - intros (m & Hm & <-). destruct (s_find_ok d m s Hm) as (d' & -> & Hd). cbn. exists (SDict d'). split; [|split; [by exists m|done]].
    unfold mret, res_ret. do 2 f_equal. apply bool_decide_ext. by rewrite elem_of_dom.
Qed.

(** *** Iterating *)

Definition set_walking (si : setTypeIterator) o (l : list bytes) : Prop :=
  match o, si with
  | SIntset ist, SIIntset ii => ∃ ns n, is_rep ist ns ∧ ii = Z.of_nat n ∧ (n ≤ length ns)%nat ∧ l = sdsll2str <$> drop n ns
  | SDict d, SIDict di => ∃ es, walking di d es ∧ l = es.*1
  | _, _ => False
  end.
Definition set_walked (si : setTypeIterator) o : Prop :=
  match o, si with SIntset _, SIIntset _ => True | SDict d, SIDict di => walked di d | _, _ => False end.

Lemma intset_next ist ns n :
  is_rep ist ns → (n ≤ length ns)%nat → setTypeNext (SIIntset (Z.of_nat n)) (SIntset ist) = Ok (option_map inr (ns !! n), SIIntset (Z.of_nat n + 1), SIntset ist).
Proof.
  intros Hr Hn. cbn [setTypeNext]. pose proof (rep_small _ _ Hr). unfold intsetGet, u32. rewrite Z.mod_small, (rep_len _ _ Hr) by lia.
  destruct (ns !! n) as [v|] eqn:E.
  - pose proof (lookup_lt_Some _ _ _ E). rewrite (proj2 (Z.ltb_lt _ _)) by lia. by rewrite (get_word _ _ _ _ Hr E).
  - apply lookup_ge_None in E. by rewrite (proj2 (Z.ltb_ge _ _)) by lia.
Qed.
Lemma set_next_ok si o X l :
  set_raw o X → set_walking si o l →
  ∃ si', setTypeNextObject si o = Ok (head l, si', o) ∧ match l with [] => set_walked si' o | _ :: l' => set_walking si' o l' end.
Proof.
  intros Hx Hw. unfold setTypeNextObject. destruct o as [ist|d|], si as [ii|di]; try done; cbn [set_raw set_walking] in *.
  - destruct Hw as (ns & n & Hr & -> & Hn & ->). rewrite (intset_next ist ns n Hr Hn). cbn [mbind res_bind]. destruct (ns !! n) as [v|] eqn:E.
    + rewrite (drop_S _ _ _ E). cbn. eexists. split; [done|]. pose proof (lookup_lt_Some _ _ _ E). exists ns, (S n). split; [done|]. split; [lia|]. split; [lia|done].
    + apply lookup_ge_None in E. rewrite drop_ge by done. by eexists.
  - destruct Hx as (m & Hm & _), Hw as (es & Hw & ->). destruct (s_next_ok di d m es Hm Hw) as (it' & E & Hl). cbn [setTypeNext]. rewrite E. cbn. destruct es as [|e es]; cbn; eexists; (split; [done|]); [done|by exists es].
Qed.
Lemma set_init_ok o X : set_raw o X → ∃ si l, setTypeInitIterator o = Ok si ∧ l ≡ₚ elements X ∧ set_walking si o l.
Proof.
  destruct o as [ist|d|]; cbn [set_raw set_walking setTypeInitIterator]; [| |done].
  - intros (ns & Hr & ->). eexists _, (sdsll2str <$> ns). split; [done|]. split; [by rewrite elements_list_to_set by (by eapply strings_nodup)|]. exists ns, 0%nat. split; [done|]. split; [done|]. split; [lia|done].
  - intros (m & Hm & <-). destruct (s_iterator_ok d m Hm) as (es & Hes & Hw). eexists _, es.*1. split; [done|]. split; [|by exists es]. rewrite Hes.
    apply NoDup_Permutation; [apply NoDup_fst_map_to_list|apply NoDup_elements|]. intros s. rewrite elem_of_elements, elem_of_dom, list_elem_of_fmap. split.
    + intros ((k & u) & -> & Hin). apply elem_of_map_to_list in Hin. by exists u.
    + intros [u Hu]. exists (s, u). split; [done|]. by apply elem_of_map_to_list.
Qed.
Lemma set_release_ok si o X : set_raw o X → set_walked si o → setTypeReleaseIterator si o = Ok o.
Proof. destruct o as [ist|d|], si as [ii|di]; try done. cbn. intros (m & Hm & _) Hw. by rewrite (s_release_ok di d m Hm Hw). Qed.

Lemma members_loop_ok o X l : ∀ fuel si,
  set_raw o X → set_walking si o l → (length l < fuel)%nat → ∃ si', members_loop fuel si o = Ok (l, si', o) ∧ set_walked si' o.
Proof.
  induction l as [|s l IH]; intros fuel si Hx Hw Hf; (destruct fuel as [|fuel]; [lia|]); destruct (set_next_ok si o X _ Hx Hw) as (si' & E & Hn); cbn [members_loop]; rewrite E; cbn [mbind res_bind head].
  - by exists si'.
  - cbn [length] in Hf. destruct (IH fuel si' Hx Hn) as (si2 & -> & Hwd); [lia|]. cbn. by exists si2.
Qed.
Lemma members_ok o X : set_raw o X → ∃ l, set_members o = Ok (l, o) ∧ l ≡ₚ elements X.
Proof.
  intros Hx. unfold set_members. rewrite (raw_size o X Hx). cbn [mbind res_bind]. destruct (set_init_ok o X Hx) as (si & l & -> & Hl & Hw). cbn [mbind res_bind]. rewrite Nat2Z.id.
  assert (length l = size X) as El by (rewrite Hl; done). destruct (members_loop_ok o X l (S (size X)) si Hx Hw) as (si' & -> & Hwd); [lia|]. cbn [mbind res_bind].
  rewrite (set_release_ok si' o X Hx Hwd). cbn. by exists l.
Qed.

(** *** Changing *)

Lemma set_convert_loop_ok ist ns : ∀ fuel n d m,
  is_rep ist ns → (n ≤ length ns)%nat → (length ns < fuel + n)%nat → holds d m → (∀ v, v ∈ drop n ns → m !! sdsll2str v = None) →
  Z.of_nat (size m + (length ns - n)) < 2 ^ 60 →
  ∃ si' d' m', set_convert_loop fuel (SIIntset (Z.of_nat n)) (SIntset ist) d = Ok (si', d') ∧ set_walked si' (SIntset ist) ∧ holds d' m' ∧
    dom m' = dom m ∪ list_to_set (sdsll2str <$> drop n ns).
Proof.
  induction fuel as [|fuel IH]; intros n d m Hr Hn Hf Hd Hfresh Hsm; [lia|]. cbn [set_convert_loop]. rewrite (intset_next ist ns n Hr Hn). cbn [mbind res_bind].
  destruct (ns !! n) as [v|] eqn:E; cbn [option_map].
  - rewrite (drop_S _ _ _ E) in *. pose proof (lookup_lt_Some _ _ _ E). assert (m !! sdsll2str v = None) as Hv by (apply Hfresh; left).
    assert (NoDup (v :: drop (S n) ns)) as [Hni _]%NoDup_cons.
    { rewrite <- (drop_S _ _ _ E). assert (NoDup ns) as Hnd by (eapply sorted_NoDup, rep_sorted; done). rewrite <- (take_drop n ns) in Hnd. by apply NoDup_app in Hnd as (_ & _ & ?). }
    cbn [mbind res_bind mret res_ret].
    destruct (s_add_ok d m (sdsfromlonglong v) tt Hd) as (d1 & -> & Hd1); [lia|]. unfold sdsfromlonglong in *. rewrite Hv in Hd1. rewrite bool_decide_eq_true_2 by done. cbn [mbind res_bind serverAssert].
    replace (Z.of_nat n + 1) with (Z.of_nat (S n)) by lia.
    destruct (IH (S n) d1 (<[sdsll2str v := tt]> m) Hr) as (si & d2 & m2 & -> & Hwd & Hd2 & Hm2); [lia|lia|done| |rewrite map_size_insert_None by done; lia|].
    + intros w Hw. rewrite lookup_insert_ne; [apply Hfresh; by right|]. intros Ew. apply Hni. rewrite (sdsll2str_inj v w); [done| | |done]; eapply rep_ll; try done; [by eapply list_elem_of_lookup_2|rewrite <- (take_drop (S n) ns), elem_of_app; by right].
    + exists si, d2, m2. split; [done|]. split; [done|]. split; [done|]. rewrite Hm2, dom_insert_L. cbn. set_solver.
  - apply lookup_ge_None in E. rewrite drop_ge by done. cbn. eexists _, d, m. split; [done|]. split; [done|]. split; [done|]. set_solver.
Qed.

Lemma set_convert_ok ist X : set_raw (SIntset ist) X → ∃ d m, setTypeConvert (SIntset ist) = Ok (SDict d) ∧ holds d m ∧ dom m = X.
Proof.
  intros Hx. pose proof Hx as (ns & Hr & ->). unfold setTypeConvert. cbn [setTypeInitIterator mbind res_bind mret res_ret]. unfold intsetLen. rewrite (rep_len _ _ Hr), Nat2Z.id. pose proof (rep_small _ _ Hr).
  destruct (set_convert_loop_ok ist ns (S (length ns)) 0 (s_expand (Z.of_nat (length ns)) s_create) ∅ Hr) as (si & d & m & E & Hwd & Hd & Hm); [lia|lia| |by intros; apply lookup_empty|rewrite map_size_empty; lia|].
  - apply s_expand_ok; [apply s_create_ok|lia].
  - change (Z.of_nat 0) with 0 in E. rewrite E. cbn [mbind res_bind]. rewrite (set_release_ok si _ _ Hx Hwd). cbn. exists d, m. split; [done|]. split; [done|]. rewrite Hm, drop_0. set_solver.
Qed.

Lemma intset_add_raw ist X s v :
  set_raw (SIntset ist) X → string2ll s = Some v → Z.of_nat (size X) + 1 < 2 ^ 28 →
  ∃ ist', intsetAdd garbage ist v = Ok (ist', bool_decide (s ∉ X)) ∧ set_raw (SIntset ist') ({[s]} ∪ X).
Proof.
  intros (ns & Hr & ->) [Hv ->]%string2ll_sound Hsm. rewrite (strings_size _ _ Hr) in Hsm. pose proof (member_int _ _ _ Hr Hv) as Hm.
  destruct (add_ok garbage ist ns v Hr Hv) as (ist' & -> & Hadd); [lia|]. exists ist'.
  rewrite (bool_decide_ext (v ∉ ns) (sdsll2str v ∉ (list_to_set (sdsll2str <$> ns) : gset bytes))) by (by rewrite Hm). split; [done|].
  destruct Hadd as [[Hr' Hin]|(Hni & k & Hr')].
  - exists ns. split; [done|]. apply Hm in Hin. set_solver.
  - exists (Intset.insert_at k v ns). split; [done|]. apply set_eq. intros x. rewrite elem_of_union, elem_of_singleton, !elem_of_list_to_set, !list_elem_of_fmap.
    setoid_rewrite elem_of_insert_at. naive_solver.
Qed.
Lemma dict_add_raw d X s :
  set_raw (SDict d) X → Z.of_nat (size X) + 1 < 2 ^ 60 →
  ∃ d', s_add s tt d = Ok (bool_decide (s ∉ X), d') ∧ set_raw (SDict d') ({[s]} ∪ X).
Proof.
  intros (m & Hm & <-) Hsm. rewrite size_dom in Hsm. destruct (s_add_ok d m s tt Hm) as (d' & -> & Hd'); [lia|]. exists d'.
  split; [do 2 f_equal; apply bool_decide_ext; by rewrite not_elem_of_dom|]. destruct (m !! s) eqn:Es.
  - exists m. split; [done|]. assert (s ∈ dom m) by (apply elem_of_dom; by rewrite Es). set_solver.
  - exists (<[s := tt]> m). split; [done|]. apply dom_insert_L.
Qed.

Lemma add_ok_set o X s :
  set_rep o X → set_max_intset_entries < 2 ^ 28 - 2 → Z.of_nat (size X) + 1 < 2 ^ 60 →
  ∃ o', setTypeAdd garbage set_max_intset_entries o s = Ok (bool_decide (s ∉ X), o') ∧ set_rep o' ({[s]} ∪ X).
Proof.
  intros [Hx Hmax] Hb Hsm. destruct o as [ist|d|]; cbn [setTypeAdd]; [| |done].
  - specialize (Hmax ist eq_refl). unfold isSdsRepresentableAsLongLong. destruct (string2ll s) as [v|] eqn:Es.
    + destruct (intset_add_raw ist X s v Hx Es) as (ist' & -> & Hx'); [lia|]. cbn [mbind res_bind].
      pose proof (raw_size _ _ Hx') as Hsz. cbn [setTypeSize] in Hsz. injection Hsz as Hsz. destruct (decide (s ∉ X)) as [Hn|Hn].
      * rewrite bool_decide_eq_true_2, Hsz by done. destruct (Z.ltb_spec set_max_intset_entries (Z.of_nat (size ({[s]} ∪ X)))).
        -- destruct (set_convert_ok _ _ Hx') as (d & m & -> & Hd & Hdm). cbn. eexists. split; [done|]. split; [by exists m|done].
        -- cbn. eexists. split; [done|]. by split.
      * rewrite bool_decide_eq_false_2 by done. eexists. split; [done|]. split; [done|]. intros _ _. assert ({[s]} ∪ X = X) as -> by (apply dec_stable in Hn; set_solver). done.
    + pose proof Hx as (ns & Hr & EX). assert (s ∉ X) as Hni by (rewrite EX; by eapply member_nonint). destruct (set_convert_ok _ _ Hx) as (d & m & -> & Hd & Hdm). cbn [mbind res_bind].
      destruct (dict_add_raw d X s) as (d' & -> & Hd'); [by exists m|done|]. rewrite bool_decide_eq_true_2 by done. cbn. eexists. split; [done|]. by split.
  - destruct (dict_add_raw d X s Hx Hsm) as (d' & -> & Hd'). cbn. eexists. split; [done|]. by split.
Qed.
Lemma remove_ok_set o X s :
  set_rep o X → ∃ o', setTypeRemove garbage o s = Ok (bool_decide (s ∈ X), o') ∧ set_rep o' (X ∖ {[s]}).
Proof.
  intros [Hx Hmax]. destruct o as [ist|d|]; cbn [setTypeRemove]; [| |done].
  - specialize (Hmax ist eq_refl). pose proof Hx as (ns & Hr & EX). subst X. unfold isSdsRepresentableAsLongLong.
    assert (∀ Y : gset bytes, Z.of_nat (size (list_to_set (sdsll2str <$> ns) ∖ Y)) ≤ set_max_intset_entries) as Hmax'.
    { intros Y. assert (size (list_to_set (sdsll2str <$> ns) ∖ Y) ≤ size (list_to_set (sdsll2str <$> ns) : gset bytes))%nat by (apply subseteq_size; set_solver). lia. }
    destruct (string2ll s) as [v|] eqn:Es.
    + apply string2ll_sound in Es as [Hv ->]. destruct (remove_ok garbage ist ns v Hr Hv) as (ist' & ns' & -> & Hr' & Hin). cbn [mbind res_bind].
      rewrite (bool_decide_ext (v ∈ ns) (sdsll2str v ∈ (list_to_set (sdsll2str <$> ns) : gset bytes))) by (by rewrite (member_int _ _ _ Hr Hv)).
      eexists. split; [done|]. split; [|by intros _ _]. exists ns'. split; [done|]. apply set_eq. intros x. rewrite elem_of_difference, elem_of_singleton, !elem_of_list_to_set, !list_elem_of_fmap. split.
      * intros [(w & -> & Hw) Hne]. exists w. split; [done|]. apply Hin. split; [done|]. by intros ->.
      * intros (w & -> & [Hw Hne]%Hin). split; [by exists w|]. intros E. apply Hne. apply (sdsll2str_inj w v); [exact (rep_ll _ _ _ Hr Hw)|done|done].
    + pose proof (member_nonint _ _ _ Hr Es) as Hni. rewrite bool_decide_eq_false_2 by done. eexists. split; [done|]. split; [|by intros _ _]. exists ns. split; [done|]. set_solver.
  - destruct Hx as (m & Hm & <-). destruct (s_delete_ok d m s Hm) as (d' & -> & Hd'). cbn. eexists. split; [unfold mret, res_ret; do 2 f_equal; apply bool_decide_ext; by rewrite elem_of_dom|]. split; [|done].
    exists (delete s m). split; [destruct (bool_decide _); [by apply s_shrink_ok|done]|]. apply dom_delete_L.
Qed.

(** ** Calls *)

Inductive scall := SAdd (s : bytes) | SRemove (s : bytes) | SIsMember (s : bytes) | SSize | SMembers.
Inductive sanswer := SBool (b : bool) | SNum (n : Z) | SList (l : list bytes).

Definition scall_exec (c : scall) o : res (sanswer * sobj) :=
  match c with
  | SAdd s => '(b, o) ← setTypeAdd garbage set_max_intset_entries o s; mret (SBool b, o)
  | SRemove s => '(b, o) ← setTypeRemove garbage o s; mret (SBool b, o)
  | SIsMember s => '(b, o) ← setTypeIsMember o s; mret (SBool b, o)
  | SSize => n ← setTypeSize o; mret (SNum n, o)
  | SMembers => '(l, o) ← set_members o; mret (SList l, o)
  end.
Fixpoint scall_runs (cs : list scall) o : res (list sanswer * sobj) :=
  match cs with
  | [] => mret ([], o)
  | c :: cs' => '(a, o) ← scall_exec c o; '(l, o) ← scall_runs cs' o; mret (a :: l, o)
  end.

(** The same on a finite set. *)
Definition sset (c : scall) X : gset bytes := match c with SAdd s => {[s]} ∪ X | SRemove s => X ∖ {[s]} | _ => X end.
Definition set_answer X (c : scall) (a : sanswer) : Prop :=
  match c, a with
  | SAdd s, SBool b => b = bool_decide (s ∉ X)
  | SRemove s, SBool b | SIsMember s, SBool b => b = bool_decide (s ∈ X)
  | SSize, SNum n => n = Z.of_nat (size X)
  | SMembers, SList l => l ≡ₚ elements X
  | _, _ => False
  end.
Fixpoint set_answers X (cs : list scall) (l : list sanswer) : Prop :=
  match cs, l with
  | [], [] => True
  | c :: cs', a :: l' => set_answer X c a ∧ set_answers (sset c X) cs' l'
  | _, _ => False
  end.

Lemma sset_size c X : (size (sset c X) ≤ S (size X))%nat.
Proof.
  destruct c as [s|s|s| |]; cbn [sset]; try lia.
  - pose proof (size_union_alt {[s]} X) as E. rewrite size_singleton in E. assert (size (X ∖ {[s]}) ≤ size X)%nat by (apply subseteq_size; set_solver). lia.
  - assert (size (X ∖ {[s]}) ≤ size X)%nat by (apply subseteq_size; set_solver). lia.
Qed.

Lemma scall_exec_ok c o X :
  set_rep o X → set_max_intset_entries < 2 ^ 28 - 2 → Z.of_nat (size X) + 1 < 2 ^ 60 →
  ∃ a o', scall_exec c o = Ok (a, o') ∧ set_answer X c a ∧ set_rep o' (sset c X).
Proof.
  intros Hx Hb Hsm. pose proof Hx as [Hraw Hmax]. destruct c as [s|s|s| |]; cbn [scall_exec sset].
  - destruct (add_ok_set o X s Hx Hb Hsm) as (o' & -> & Hx'). cbn. by eexists _, _.
  - destruct (remove_ok_set o X s Hx) as (o' & -> & Hx'). cbn. by eexists _, _.
  - destruct (raw_member o X s Hraw) as (o' & -> & Hx' & Hsame). cbn. eexists _, _. split; [done|]. split; [done|]. split; [done|]. intros ist E. rewrite <- (Hsame ist E) in E. by apply (Hmax ist).
  - rewrite (raw_size o X Hraw). cbn. by eexists _, _.
  - destruct (members_ok o X Hraw) as (l & -> & Hl). cbn. by eexists _, _.
Qed.

(** C21: a set is a set.  Whatever members are added, removed and asked for in a set that is made
    for its first member, no call fails an assertion, and the answers are those of a finite
    set of strings, wherever in the sequence the object is converted from an intset to a
    dictionary; an object that is still an intset has at most [set_max_intset_entries]
    members, all of them the decimal strings of integers. *)
Theorem set_refines cs s :
  0 ≤ set_max_intset_entries < 2 ^ 28 - 2 → Z.of_nat (length cs) + 1 < 2 ^ 60 →
  ∃ rs o, scall_runs cs (setTypeCreate s) = Ok (rs, o) ∧ set_answers ∅ cs rs ∧ set_rep o (foldl (fun X c => sset c X) ∅ cs).
Proof.
  intros Hb Hlen. assert (∀ cs o X, set_rep o X → Z.of_nat (size X + length cs) + 1 < 2 ^ 60 →
    ∃ rs o', scall_runs cs o = Ok (rs, o') ∧ set_answers X cs rs ∧ set_rep o' (foldl (fun X c => sset c X) X cs)) as Hrun.
  { clear Hlen cs. induction cs as [|c cs IH]; intros o X Hx Hsm; cbn [scall_runs foldl]; [by eexists _, _|]. cbn [length] in Hsm.
    destruct (scall_exec_ok c o X Hx) as (a & o1 & -> & Ha & Hx1); [lia|lia|]. cbn [mbind res_bind]. pose proof (sset_size c X).
    destruct (IH o1 _ Hx1) as (rs & o2 & -> & Hrs & Hx2); [lia|]. cbn. by eexists _, _. }
  apply Hrun; [|rewrite size_empty; cbn; lia]. unfold setTypeCreate. destruct (isSdsRepresentableAsLongLong s).
  - split; [|intros _ _; rewrite size_empty; lia]. exists []. split; [|done]. split; cbn; try done; [by left|constructor].
  - split; [|done]. exists ∅. split; [apply s_create_ok|apply dom_empty_L].
Qed.
End set_refinement.

(** Three integers, of which the third is too many; and a word in a set of integers. *)
Definition ex_member_hash (s : bytes) : Z := u64 (foldl (fun h b => h * 33 + Z_of_byte b) 5381 s).
Lemma ex_member_hash_range s : 0 ≤ ex_member_hash s < 2 ^ 64.
Proof. apply u64_range. Qed.
Definition ex_set_api : SdsDict unit := dict_api ex_member_hash (fun _ => 0) true.
Definition ex_set_laws : SdsDictLaws ex_set_api := dict_api_laws _ _ _ ex_member_hash_range.
Definition w_members : list scall :=
  let s := String.list_byte_of_string in
  [SAdd (s "7"); SAdd (s "-3"); SAdd (s "7"); SMembers; SRemove (s "x"); SAdd (s "100000"); SIsMember (s "-3"); SAdd (s "word"); SRemove (s "7"); SSize; SMembers].
Lemma set_refines_witness :
  ∃ rs d, scall_runs (D := ex_set_api) (fun _ => x2a) 2 w_members (setTypeCreate (String.list_byte_of_string "7")) = Ok (rs, SDict (D := ex_set_api) d) ∧ set_answers ∅ w_members rs ∧
    rs !! 9%nat = Some (SNum 3).
Proof.
  destruct (set_refines (D := ex_set_api) (L := ex_set_laws) (fun _ => x2a) 2 w_members (String.list_byte_of_string "7")) as (rs & o & E & Ha & _); [lia|vm_compute; reflexivity|].
  assert (match scall_runs (D := ex_set_api) (fun _ => x2a) 2 w_members (setTypeCreate (String.list_byte_of_string "7")) with
    | Ok (rs, SDict _) => match rs !! 9%nat with Some (SNum 3) => true | _ => false end
    | _ => false end = true) as Hc by (vm_compute; reflexivity).
  rewrite E in Hc. destruct o as [|d|]; [discriminate Hc| |discriminate Hc]. exists rs, d. split; [exact E|]. split; [exact Ha|].
  destruct (rs !! 9%nat) as [[|n|]|]; try discriminate Hc. by repeat (destruct n as [|n|n]; try discriminate Hc).
Defined.
