(* ===== verification/ZsetType.v ===== *)
(** * Sorted sets in their two encodings (src/src/t_zset.c, [d2string] of src/src/util.c)

    A small sorted set is a ziplist, in which the score of an element follows it as a string; a
    large one is a skip list and a dictionary ([Zset]).  The functions of t_zset.c that work on
    either, with the conversion from one to the other.

    Scores are the 64-bit patterns of doubles.  Conversion from and to integers is modelled;
    printing with ["%.17g"], [strtod] and the addition of doubles are arguments, of which
    [FloatLaws] says what is used: reading what was printed gives the number back.

    Shown: whatever the encoding, and whenever it changes, a sorted set is a finite map from
    elements to scores, whose pairs are kept in the order of scores and elements. *)

From S2P Require Import Prelude Util Mem Ziplist ZiplistOps ZiplistRef Robj Zset Hash.
From stdpp Require Import list gmap sorting.
#[local] Open Scope Z_scope.

(** ** Doubles *)

Definition dbl_isinf (b : Z) : bool := b mod 2 ^ 63 =? 0x7ff0000000000000.
Definition dbl_neg (b : Z) : bool := 2 ^ 63 <=? b.
Definition dbl_iszero (b : Z) : bool := b mod 2 ^ 63 =? 0.

(** [(double)n] of a positive integer: to the nearest, ties to even. *)
Definition dbl_of_pos (n : Z) : Z :=
  let l := Z.log2 n in
  if l <=? 52 then (l + 1023) * 2 ^ 52 + (n * 2 ^ (52 - l) - 2 ^ 52)
  else
    let q := n / 2 ^ (l - 52) in
    let r := n mod 2 ^ (l - 52) in
    let half := 2 ^ (l - 53) in
    let q := if (half <? r) || ((r =? half) && Z.odd q) then q + 1 else q in
    (l + 1023) * 2 ^ 52 + (q - 2 ^ 52).
Definition dbl_of_ll (v : Z) : Z :=
  if v =? 0 then 0 else if 0 <? v then dbl_of_pos v else 2 ^ 63 + dbl_of_pos (- v).
(** [(long long)value] *)
Definition dbl_to_ll (b : Z) : Z :=
  let e := (b / 2 ^ 52) mod 2 ^ 11 in
  let m := 2 ^ 52 + b mod 2 ^ 52 in
  let v := if e <? 1023 then 0 else if e <=? 1075 then m / 2 ^ (1075 - e) else m * 2 ^ (e - 1075) in
  if dbl_neg b then - v else v.

(** What the C library does with doubles. *)
Record float_ops := FloatOps {
  snprintf_g17 : Z → bytes;            (* [snprintf(buf,len,"%.17g",value)] *)
  strtod : bytes → Z;
  dbl_add : Z → Z → Z
}.
Record FloatLaws (F : float_ops) : Prop := {
  strtod_g17 b : dbl_ok b → dbl_isnan b = false → dbl_isinf b = false → dbl_iszero b = false → strtod F (snprintf_g17 F b) = b;
  strtod_integer v : is_ll v → strtod F (sdsll2str v) = dbl_of_ll v;
  strtod_inf : strtod F (String.list_byte_of_string "inf") = 0x7ff0000000000000;
  strtod_neg_inf : strtod F (String.list_byte_of_string "-inf") = 0xfff0000000000000;
  strtod_neg_zero : strtod F (String.list_byte_of_string "-0") = 2 ^ 63;
  g17_short b : dbl_ok b → (length (snprintf_g17 F b) < 128)%nat;
  dbl_add_ok a b : dbl_ok (dbl_add F a b)
}.

Section zsets.
Variable F : float_ops.
Variables (zset_max_ziplist_entries zset_max_ziplist_value : Z).
Implicit Types (zl : mem) (ele : bytes) (score : Z).

Definition d2string (value : Z) : bytes :=
  if dbl_isnan value then String.list_byte_of_string "nan"
  else if dbl_isinf value then
    if dbl_neg value then String.list_byte_of_string "-inf" else String.list_byte_of_string "inf"
  else if dbl_iszero value then
    if dbl_neg value then String.list_byte_of_string "-0" else String.list_byte_of_string "0"
  else if dbl_lt (dbl_of_ll (-4503599627370495)) value && dbl_lt value (dbl_of_ll 4503599627370496) &&
          dbl_eq value (dbl_of_ll (dbl_to_ll value))
  then default [] (ll2string 128 (dbl_to_ll value))
  else snprintf_g17 F value.

(** ** Ziplists *)

Definition get_entry zl (p : Z) : res zvalue := x ← ziplistGet zl p; res_of_option x "ziplistGet".
Definition next_entry zl (p : Z) : res Z := x ← ziplistNext zl p; res_of_option x "sptr != NULL".

Definition zzlGetScore zl (sptr : Z) : res Z :=
  v ← get_entry zl sptr;
  match v with
  | inl vstr => if (length vstr <? 128)%nat then mret (strtod F vstr) else Abort "write outside of the block"
  | inr vlong => mret (dbl_of_ll vlong)
  end.
Definition ziplistGetObject zl (sptr : Z) : res bytes := v ← get_entry zl sptr; mret (zvalue_sds v).

Fixpoint memcmp (a b : bytes) : Z :=
  match a, b with
  | x :: a', y :: b' => if Z_of_byte x =? Z_of_byte y then memcmp a' b' else Z_of_byte x - Z_of_byte y
  | _, _ => 0
  end.
Definition zzlCompareElements zl (eptr : Z) (cstr : bytes) : res Z :=
  v ← get_entry zl eptr;
  let vstr := match v with inl s => s | inr vlong => default [] (ll2string 32 vlong) end in
  let minlen := (length vstr `min` length cstr)%nat in
  let cmp := memcmp (take minlen vstr) (take minlen cstr) in
  mret (if cmp =? 0 then to_signed 32 (Z.of_nat (length vstr) - Z.of_nat (length cstr)) else cmp).

Definition zzlLength zl : res (Z * mem) := '(n, zl) ← ziplistLen zl; mret (u32 n / 2, zl).
(** The next pair: its two pointers. *)
Definition zzlNext zl (sptr : Z) : res (option (Z * Z)) :=
  e ← ziplistNext zl sptr;
  match e with None => mret None | Some eptr => sptr ← next_entry zl eptr; mret (Some (eptr, sptr)) end.

Fixpoint zzl_find_loop (fuel : nat) zl (eptr : option Z) ele : res (option (Z * Z)) :=
  match eptr, fuel with
  | None, _ => mret None
  | _, O => Abort "fuel"
  | Some eptr, S fuel' =>
      sptr ← next_entry zl eptr;
      same ← ziplistCompare zl eptr ele;
      if same : bool then mret (Some (eptr, sptr)) else next ← ziplistNext zl sptr; zzl_find_loop fuel' zl next ele
  end.
Definition zzlFind zl ele : res (option (Z * Z)) :=
  first ← ziplistIndex zl 0; zzl_find_loop (S (length zl)) zl first ele.
(** The pointer, and [*score]. *)
Definition find_score zl ele : res (option (Z * Z)) :=
  x ← zzlFind zl ele;
  match x with None => mret None | Some (eptr, sptr) => score ← zzlGetScore zl sptr; mret (Some (eptr, score)) end.

Definition zzlDelete zl (eptr : Z) : res mem :=
  '(zl, p) ← ziplistDelete zl eptr; '(zl, _) ← ziplistDelete zl p; mret zl.

Definition zzlInsertAt zl (eptr : option Z) ele score : res mem :=
  match eptr with
  | None => zl ← ziplistPush zl ele ZIPLIST_TAIL; ziplistPush zl (d2string score) ZIPLIST_TAIL
  | Some eptr =>
      zl ← ziplistInsert zl eptr ele;
      sptr ← next_entry zl eptr;
      ziplistInsert zl sptr (d2string score)
  end.

Fixpoint zzl_insert_loop (fuel : nat) zl (eptr : option Z) ele score : res mem :=
  match eptr, fuel with
  | None, _ => zzlInsertAt zl None ele score
  | _, O => Abort "fuel"
  | Some eptr, S fuel' =>
      sptr ← next_entry zl eptr;
      s ← zzlGetScore zl sptr;
      cmp ← (if dbl_eq s score then zzlCompareElements zl eptr ele else mret 0);
      if dbl_lt score s || (dbl_eq s score && (0 <? cmp)) then zzlInsertAt zl (Some eptr) ele score
      else next ← ziplistNext zl sptr; zzl_insert_loop fuel' zl next ele score
  end.
Definition zzlInsert zl ele score : res mem :=
  first ← ziplistIndex zl 0; zzl_insert_loop (S (length zl)) zl first ele score.

(** ** Skip lists, on the chain of nodes *)

(** The node with the score and the element is taken out of the chain. *)
Fixpoint zsl_delete_node score ele (l : list (bytes * Z)) : option (list (bytes * Z)) :=
  match l with
  | [] => None
  | node :: l' =>
      if zsl_before node score ele then option_map (cons node) (zsl_delete_node score ele l')
      else if dbl_eq score node.2 && (sdscmp node.1 ele =? 0) then Some l' else None
  end.
Definition zslDelete (zs : zset) score ele : option zset :=
  option_map (fun l => Zset l (u64 (zsl_length zs - 1)) (zset_dict zs)) (zsl_delete_node score ele (zsl_nodes zs)).

(** The score is changed in place if the node stays between its neighbours. *)
Fixpoint zsl_update_node (before : option (bytes * Z)) curscore ele newscore (l : list (bytes * Z)) : res (option (list (bytes * Z))) :=
  match l with
  | [] => Abort "x && curscore == x->score && sdscmp(x->ele,ele) == 0"
  | node :: l' =>
      if zsl_before node curscore ele then
        r ← zsl_update_node (Some node) curscore ele newscore l'; mret (option_map (cons node) r)
      else
        serverAssert (dbl_eq curscore node.2 && (sdscmp node.1 ele =? 0)) "x && curscore == x->score && sdscmp(x->ele,ele) == 0" ;;
        if match before with None => true | Some b => dbl_lt b.2 newscore end &&
           match l' with [] => true | next :: _ => dbl_lt newscore next.2 end
        then mret (Some ((node.1, newscore) :: l')) else mret None
  end.
Definition zslUpdateScore (zs : zset) curscore ele newscore : res zset :=
  r ← zsl_update_node None curscore ele newscore (zsl_nodes zs);
  match r with
  | Some l => mret (Zset l (zsl_length zs) (zset_dict zs))
  | None =>
      zs ← res_of_option (zslDelete zs curscore ele) "zslDeleteNode";
      zslInsert zs newscore ele
  end.

(** [dictAdd(zs->dict,ele,&node->score)]: whether the element is new. *)
Definition zset_dict_add (zs : zset) ele score : bool * zset :=
  if bool_decide (is_Some (zset_dict zs !! ele)) then (false, zs)
  else (true, Zset (zsl_nodes zs) (zsl_length zs) (<[ele := score]> (zset_dict zs))).
Definition zset_dict_set (zs : zset) ele score : zset := Zset (zsl_nodes zs) (zsl_length zs) (<[ele := score]> (zset_dict zs)).

(** ** Both encodings *)

(** [o->encoding] and [o->ptr] *)
Inductive zobj := ZZiplist (zl : mem) | ZSkip (zs : zset) | ZOther.
Implicit Types (o : zobj).
Definition unknown_zset {A} : res A := Abort "Unknown sorted set encoding".

(** The object is changed where [ziplistLen] stores the number of entries. *)
Definition zsetLength o : res (Z * zobj) :=
  match o with
  | ZZiplist zl => '(n, zl) ← zzlLength zl; mret (n, ZZiplist zl)
  | ZSkip zs => mret (zsl_length zs, o)
  | ZOther => unknown_zset
  end.

Fixpoint to_skiplist_loop (fuel : nat) zl (pair : option (Z * Z)) (zs : zset) : res zset :=
  match pair, fuel with
  | None, _ => mret zs
  | _, O => Abort "fuel"
  | Some (eptr, sptr), S fuel' =>
      score ← zzlGetScore zl sptr;
      ele ← ziplistGetObject zl eptr;
      zs ← zslInsert zs score ele;
      let '(added, zs) := zset_dict_add zs ele score in
      serverAssert added "dictAdd(zs->dict,ele,&node->score) == DICT_OK" ;;
      next ← zzlNext zl sptr;
      to_skiplist_loop fuel' zl next zs
  end.
Fixpoint to_ziplist_loop (nodes : list (bytes * Z)) zl : res mem :=
  match nodes with
  | [] => mret zl
  | (ele, score) :: nodes => zl ← zzlInsertAt zl None ele score; to_ziplist_loop nodes zl
  end.
Inductive zset_encoding := ToZiplist | ToSkiplist.
Definition zsetConvert o (encoding : zset_encoding) : res zobj :=
  match o, encoding with
  | ZZiplist zl, ToZiplist => mret o
  | ZSkip zs, ToSkiplist => mret o
  | ZZiplist zl, ToSkiplist =>
      e ← ziplistIndex zl 0;
      eptr ← res_of_option e "eptr != NULL";
      sptr ← next_entry zl eptr;
      zs ← to_skiplist_loop (S (length zl)) zl (Some (eptr, sptr)) (Zset [] 0 ∅);
      mret (ZSkip zs)
  | ZSkip zs, ToZiplist => zl ← ziplistNew; zl ← to_ziplist_loop (zsl_nodes zs) zl; mret (ZZiplist zl)
  | ZOther, _ => unknown_zset
  end.
Definition zsetConvertToZiplistIfNeeded o (maxelelen : Z) : res zobj :=
  match o with
  | ZZiplist _ => mret o
  | ZSkip zs => if (zsl_length zs <=? zset_max_ziplist_entries) && (maxelelen <=? zset_max_ziplist_value) then zsetConvert o ToZiplist else mret o
  | ZOther => mret o
  end.

Definition zsetScore o (member : bytes) : res (option Z) :=
  match o with
  | ZZiplist zl => x ← find_score zl member; mret (option_map snd x)
  | ZSkip zs => mret (zset_dict zs !! member)
  | ZOther => unknown_zset
  end.

Record zadd_options := ZaddOptions { ZADD_INCR : bool; ZADD_NX : bool; ZADD_XX : bool }.
(** The flags [zsetAdd] gives back. *)
Inductive zadd_outcome := ZADD_NAN | ZADD_NOP | ZADD_ADDED | ZADD_UPDATED | ZADD_NOTHING.

(** The flags, [*newscore] where it is set, and the object. *)
Definition zsetAdd o score ele (opts : zadd_options) : res (zadd_outcome * option Z * zobj) :=
  if dbl_isnan score then mret (ZADD_NAN, None, o)
  else
    match o with
    | ZZiplist zl =>
        x ← find_score zl ele;
        match x with
        | Some (eptr, curscore) =>
            if ZADD_NX opts then mret (ZADD_NOP, None, o)
            else
              let score := if ZADD_INCR opts then dbl_add F score curscore else score in
              let newscore := if ZADD_INCR opts then Some score else None in
              if ZADD_INCR opts && dbl_isnan score then mret (ZADD_NAN, None, o)
              else if negb (dbl_eq score curscore) then
                o ← (zl ← zzlDelete zl eptr; zl ← zzlInsert zl ele score; mret (ZZiplist zl));
                mret (ZADD_UPDATED, newscore, o)
              else mret (ZADD_NOTHING, newscore, o)
        | None =>
            if ZADD_XX opts then mret (ZADD_NOP, None, o)
            else
              zl ← zzlInsert zl ele score;
              '(n, zl) ← zzlLength zl;
              o ← (if (zset_max_ziplist_entries <? n) || (zset_max_ziplist_value <? Z.of_nat (length ele))
                   then zsetConvert (ZZiplist zl) ToSkiplist else mret (ZZiplist zl));
              mret (ZADD_ADDED, Some score, o)
        end
    | ZSkip zs =>
        match zset_dict zs !! ele with
        | Some curscore =>
            if ZADD_NX opts then mret (ZADD_NOP, None, o)
            else
              let score := if ZADD_INCR opts then dbl_add F score curscore else score in
              let newscore := if ZADD_INCR opts then Some score else None in
              if ZADD_INCR opts && dbl_isnan score then mret (ZADD_NAN, None, o)
              else if negb (dbl_eq score curscore) then
                o ← (zs ← zslUpdateScore zs curscore ele score; mret (ZSkip (zset_dict_set zs ele score)));
                mret (ZADD_UPDATED, newscore, o)
              else mret (ZADD_NOTHING, newscore, o)
        | None =>
            if ZADD_XX opts then mret (ZADD_NOP, None, o)
            else
              zs ← zslInsert zs score ele;
              let '(added, zs) := zset_dict_add zs ele score in
              serverAssert added "dictAdd(zs->dict,ele,&znode->score) == DICT_OK" ;;
              mret (ZADD_ADDED, Some score, ZSkip zs)
        end
    | ZOther => unknown_zset
    end.

Definition zsetDel o ele : res (bool * zobj) :=
  match o with
  | ZZiplist zl =>
      x ← zzlFind zl ele;
      match x with Some (eptr, _) => zl ← zzlDelete zl eptr; mret (true, ZZiplist zl) | None => mret (false, o) end
  | ZSkip zs =>
      match zset_dict zs !! ele with
      | Some score =>
          let zs := Zset (zsl_nodes zs) (zsl_length zs) (delete ele (zset_dict zs)) in
          zs ← res_of_option (zslDelete zs score ele) "retval";
          mret (true, ZSkip zs)
      | None => mret (false, o)
      end
  | ZOther => unknown_zset
  end.
End zsets.

(** ** Doubles as strings *)

Lemma dbl_key_inj a b : dbl_ok a → dbl_ok b → dbl_iszero a = false → dbl_key a = dbl_key b → a = b.
Proof.
  unfold dbl_ok, dbl_iszero, dbl_key. intros Ha Hb Hz%Z.eqb_neq E.
  assert (a ≠ 0) by (intros ->; by apply Hz). assert (a ≠ 2 ^ 63) by (intros ->; by apply Hz).
  destruct (Z.ltb_spec a (2 ^ 63)), (Z.ltb_spec b (2 ^ 63)); lia.
Qed.
Lemma dbl_parts b : dbl_ok b → b = (if dbl_neg b then 2 ^ 63 else 0) + b mod 2 ^ 63 ∧ 0 ≤ b mod 2 ^ 63 < 2 ^ 63 ∧ dbl_key b = if dbl_neg b then - (b mod 2 ^ 63) else b mod 2 ^ 63.
Proof.
  unfold dbl_ok, dbl_neg, dbl_key. intros Hb. pose proof (Z.mod_pos_bound b (2 ^ 63) ltac:(lia)).
  destruct (Z.leb_spec (2 ^ 63) b), (Z.ltb_spec b (2 ^ 63)); try lia.
  - assert (b mod 2 ^ 63 = b - 2 ^ 63) as -> by (symmetry; apply (Z.mod_unique_pos b (2 ^ 63) 1); lia). lia.
  - rewrite !Z.mod_small by lia. lia.
Qed.
Lemma dbl_of_pos_range n : 0 < n < 2 ^ 64 → 0 ≤ dbl_of_pos n < 2 ^ 63.
Proof.
  intros Hn. unfold dbl_of_pos. pose proof (Z.log2_nonneg n). assert (Z.log2 n < 64) by (apply Z.log2_lt_pow2; lia).
  destruct (Z.log2_spec n ltac:(lia)) as [H1 H2]. set (l := Z.log2 n) in *. destruct (Z.leb_spec l 52).
  - assert (2 ^ 52 ≤ n * 2 ^ (52 - l) < 2 ^ 53).
    { replace (2 ^ 52) with (2 ^ l * 2 ^ (52 - l)) by (rewrite <- Z.pow_add_r by lia; f_equal; lia).
      replace (2 ^ 53) with (2 ^ Z.succ l * 2 ^ (52 - l)) by (rewrite <- Z.pow_add_r by lia; f_equal; lia).
      assert (0 < 2 ^ (52 - l)) by (apply Z.pow_pos_nonneg; lia). nia. }
    nia.
  - assert (2 ^ 52 ≤ n / 2 ^ (l - 52) < 2 ^ 53).
    { assert (0 < 2 ^ (l - 52)) by (apply Z.pow_pos_nonneg; lia). split.
      - apply Z.div_le_lower_bound; [lia|]. rewrite <- Z.pow_add_r by lia. by replace (l - 52 + 52) with l by lia.
      - apply Z.div_lt_upper_bound; [lia|]. rewrite <- Z.pow_add_r by lia. by replace (l - 52 + 53) with (Z.succ l) by lia. }
    case_match; nia.
Qed.
Lemma dbl_of_ll_ok v : is_ll v → dbl_ok (dbl_of_ll v).
Proof.
  unfold is_ll, LLONG_MIN, LLONG_MAX, dbl_of_ll, dbl_ok. intros Hv. destruct (Z.eqb_spec v 0); [lia|]. destruct (Z.ltb_spec 0 v).
  - pose proof (dbl_of_pos_range v). lia.
  - pose proof (dbl_of_pos_range (- v)). lia.
Qed.
(** The integers that [d2string] prints as integers. *)
Lemma dbl_to_ll_small b : dbl_ok b → dbl_lt (dbl_of_ll (-4503599627370495)) b = true → dbl_lt b (dbl_of_ll 4503599627370496) = true → is_ll (dbl_to_ll b).
Proof.
  intros Hb H1 H2. destruct (dbl_parts b Hb) as (Eb & Hr & Ek).
  assert (b mod 2 ^ 63 < 1075 * 2 ^ 52) as Hm.
  { unfold dbl_lt in *. apply andb_true_iff in H1 as [_ H1%Z.ltb_lt]. apply andb_true_iff in H2 as [_ H2%Z.ltb_lt]. rewrite Ek in *.
    change (dbl_key (dbl_of_ll 4503599627370496)) with (1075 * 2 ^ 52) in H2.
    assert (- (1075 * 2 ^ 52) < dbl_key (dbl_of_ll (-4503599627370495))) by (vm_compute; reflexivity). destruct (dbl_neg b); lia. }
  unfold dbl_to_ll. assert ((b / 2 ^ 52) mod 2 ^ 11 = b mod 2 ^ 63 / 2 ^ 52) as ->.
  { rewrite Eb at 1. destruct (dbl_neg b).
    - replace (2 ^ 63 + b mod 2 ^ 63) with (2 ^ 11 * 2 ^ 52 + b mod 2 ^ 63) by lia. rewrite Z.div_add_l by lia.
      rewrite Z.add_mod, Z.mod_same, Z.add_0_l, Z.mod_mod by lia. apply Z.mod_small. split; [apply Z.div_pos; lia|apply Z.div_lt_upper_bound; lia].
    - rewrite Z.add_0_l. apply Z.mod_small. split; [apply Z.div_pos; lia|apply Z.div_lt_upper_bound; lia]. }
  assert (b mod 2 ^ 63 / 2 ^ 52 < 1075) by (apply Z.div_lt_upper_bound; lia). pose proof (Z.mod_pos_bound b (2 ^ 52) ltac:(lia)).
  set (e := b mod 2 ^ 63 / 2 ^ 52) in *. unfold is_ll, LLONG_MIN, LLONG_MAX. destruct (Z.ltb_spec e 1023); [destruct (dbl_neg b); lia|].
  destruct (Z.leb_spec e 1075); [|lia]. set (x := 2 ^ 52 + _) in *. assert (0 ≤ x / 2 ^ (1075 - e) ≤ x).
  { assert (0 < 2 ^ (1075 - e)) by (apply Z.pow_pos_nonneg; lia). split; [apply Z.div_pos; lia|]. apply Z.div_le_upper_bound; [done|]. nia. }
  destruct (dbl_neg b); lia.
Qed.

Section laws.
Context {F : float_ops} (FL : FloatLaws F).
Implicit Types (zl : mem) (ele : bytes) (score : Z).

Definition score_ok score : Prop := dbl_ok score ∧ dbl_isnan score = false.

Lemma d2string_ok b : score_ok b → strtod F (d2string F b) = b ∧ (length (d2string F b) < 128)%nat.
Proof.
  intros [Hb Hn]. destruct (dbl_parts b Hb) as (Eb & Hr & Ek). unfold d2string. rewrite Hn.
  destruct (dbl_isinf b) eqn:Ei.
  { apply Z.eqb_eq in Ei. rewrite Ei in Eb. revert Eb. destruct (dbl_neg b); intros Eb; [rewrite (strtod_neg_inf F FL)|rewrite (strtod_inf F FL)]; (split; [lia|cbn; lia]). }
  destruct (dbl_iszero b) eqn:Ez.
  { pose proof Ez as Ez'. apply Z.eqb_eq in Ez'. rewrite Ez' in Eb. revert Eb. destruct (dbl_neg b); intros Eb; [rewrite (strtod_neg_zero F FL); split; [lia|cbn; lia]|].
    change (String.list_byte_of_string "0") with (sdsll2str 0). rewrite (strtod_integer F FL) by done. rewrite Eb. split; [done|vm_compute; lia]. }
  destruct (_ && _ && _) eqn:E; [|split; [by apply (strtod_g17 F FL)|by apply (g17_short F FL)]].
  apply andb_true_iff in E as [[E1 E2]%andb_true_iff E3]. pose proof (dbl_to_ll_small b Hb E1 E2) as Hl. pose proof (sdigits10_max _ Hl).
  rewrite ll2string_fits by (done || lia). cbn [from_option id]. rewrite (strtod_integer F FL) by done. split.
  - unfold dbl_eq in E3. apply andb_true_iff in E3 as [_ E3%Z.eqb_eq]. symmetry. by apply dbl_key_inj; [|apply dbl_of_ll_ok|..].
  - pose proof (sdsll2str_length _ Hl). lia.
Qed.

(** ** A ziplist of elements and scores *)

Definition spair (n : bytes * Z) : bytes * bytes := (n.1, d2string F n.2).
Definition node_ok (n : bytes * Z) : Prop := score_ok n.2 ∧ Z.of_nat (length n.1) < 2 ^ 31.

Lemma shown_int s v : shown s = inr v → is_ll v ∧ s = sdsll2str v.
Proof.
  unfold shown. intros E. destruct (zipTryEncoding s) as [[w enc]|] eqn:Es; [|done]. injection E as ->. by apply zipTryEncoding_Some in Es as (? & ? & _).
Qed.
Lemma memcmp_sdscmp a b :
  let n := (length a `min` length b)%nat in
  match memcmp (take n a) (take n b) with 0 => sdscmp a b = 0 ∧ length a = length b ∨ (sdscmp a b = -1 ∧ (length a < length b)%nat) ∨ (sdscmp a b = 1 ∧ (length b < length a)%nat)
  | c => sdscmp a b = c end.
Proof.
  revert b. induction a as [|x a IH]; intros [|y b]; cbn [length Nat.min take memcmp sdscmp]; [by left|right; left; cbn; lia|right; right; cbn; lia|].
  specialize (IH b). cbn [take memcmp]. destruct (Z.eqb_spec (Z_of_byte x) (Z_of_byte y)) as [E|E].
  - cbv zeta in IH. destruct (memcmp _ _); [lia|done..].
  - destruct (Z_of_byte x - Z_of_byte y) eqn:Ed; [lia|done|done].
Qed.

Section entries.
Variables (zl : mem) (es : list (bool * bytes)) (l1 : list (bytes * Z)) (ele : bytes) (score : Z) (l2 : list (bytes * Z)).
Hypothesis Hz : zl_ok zl es.
Hypothesis E : es.*2 = flat (spair <$> (l1 ++ (ele, score) :: l2)).
Hypothesis Hw : weight (flat (spair <$> (l1 ++ (ele, score) :: l2))) < 2 ^ 32.
Hypothesis Hok : node_ok (ele, score).
Abbreviation eptr := (at_index es (2 * length l1)).
Abbreviation sptr := (at_index es (S (2 * length l1))).

Lemma entry_facts : Z.of_nat (length zl) < 2 ^ 32 ∧ length es = (2 * length l1 + 2 + 2 * length l2)%nat ∧
  es.*2 !! (2 * length l1)%nat = Some ele ∧ es.*2 !! S (2 * length l1) = Some (d2string F score).
Proof.
  split; [by apply (zpairs_small _ _ _ Hz E Hw)|]. pose proof (pairs_count _ _ E) as Hc. rewrite length_fmap, length_app in Hc. cbn [length] in Hc.
  split; [lia|]. rewrite E, fmap_app, fmap_cons. replace (2 * length l1)%nat with (2 * length (spair <$> l1))%nat by (by rewrite length_fmap).
  change (spair (ele, score)) with (ele, d2string F score). by rewrite flat_key, flat_value.
Qed.
Lemma entry_next : next_entry zl eptr = Ok sptr.
Proof.
  destruct entry_facts as (Hm & Hl & _). unfold next_entry. rewrite (next_ok zl es _ Hz Hm) by lia. unfold next_of. rewrite length_fmap, decide_True by lia. done.
Qed.
Lemma entry_after : ziplistNext zl sptr = Ok (match l2 with [] => None | _ => Some (at_index es (2 * length (l1 ++ [(ele, score)]))) end).
Proof.
  destruct entry_facts as (Hm & Hl & _). rewrite (next_ok zl es _ Hz Hm) by lia. unfold next_of. rewrite length_fmap, length_app. cbn [length].
  destruct l2; cbn [length] in Hl; [by rewrite decide_False by lia|]. rewrite decide_True by lia. cbn. do 3 f_equal. lia.
Qed.
Lemma entry_score : zzlGetScore F zl sptr = Ok score.
Proof.
  destruct entry_facts as (Hm & Hl & _ & Hs). unfold zzlGetScore, get_entry. rewrite (get_ok zl es _ Hz Hm), Hs by lia. cbn [mbind res_bind fmap option_fmap option_map res_of_option].
  destruct (d2string_ok score (proj1 Hok)) as [Es El]. destruct (shown (d2string F score)) as [s|v] eqn:Esh.
  - pose proof (shown_sds (d2string F score)) as H. rewrite Esh in H. cbn in H. subst s. destruct (Nat.ltb_spec (length (d2string F score)) 128); [|lia]. by rewrite Es.
  - apply shown_int in Esh as [Hv Esh]. rewrite <- (strtod_integer F FL v Hv), <- Esh, Es. done.
Qed.
Lemma entry_object : ziplistGetObject zl eptr = Ok ele.
Proof.
  destruct entry_facts as (Hm & Hl & He & _). unfold ziplistGetObject, get_entry. rewrite (get_ok zl es _ Hz Hm), He by lia. cbn [mbind res_bind fmap option_fmap option_map res_of_option].
  by rewrite shown_sds.
Qed.
Lemma entry_compare x : ziplistCompare zl eptr x = Ok (bool_decide (ele = x)).
Proof.
  destruct entry_facts as (Hm & Hl & He & _). rewrite (compare_ok zl es _ x Hz Hm), He by lia. f_equal. apply bool_decide_ext. split; congruence.
Qed.
Lemma entry_order x : Z.of_nat (length x) < 2 ^ 31 → ∃ c, zzlCompareElements zl eptr x = Ok c ∧ (0 < c ↔ 0 < sdscmp ele x).
Proof.
  intros Hx. destruct entry_facts as (Hm & Hl & He & _). unfold zzlCompareElements, get_entry. rewrite (get_ok zl es _ Hz Hm), He by lia. cbn [mbind res_bind fmap option_fmap option_map res_of_option].
  assert (match shown ele with inl s => s | inr vlong => default [] (ll2string 32 vlong) end = ele) as ->.
  { pose proof (shown_sds ele) as Hs. destruct (shown ele) as [s|v] eqn:Esh; [done|]. apply shown_int in Esh as [Hv ->]. by rewrite ll2string_32. }
  eexists. split; [done|]. pose proof (memcmp_sdscmp ele x) as Hc. cbv zeta in Hc. destruct (memcmp _ _) eqn:Em; cbn [Z.eqb]; [|lia..].
  destruct Hok as [_ Hel]. cbn in Hel. rewrite to_signed_small by lia. lia.
Qed.
End entries.

Lemma first_entry zl es nodes : zl_ok zl es → es.*2 = flat (spair <$> nodes) → weight (flat (spair <$> nodes)) < 2 ^ 32 →
  ziplistIndex zl 0 = Ok (match nodes with [] => None | _ => Some (at_index es 0) end).
Proof.
  intros Hz E Hw. rewrite (index_ok zl es 0 Hz) by (by apply (zpairs_small _ _ _ Hz E Hw)). unfold index_of. cbn [Z.ltb Z.compare]. rewrite length_fmap.
  pose proof (pairs_count _ _ E) as Hc. rewrite length_fmap in Hc. destruct nodes; cbn [length] in Hc; [by rewrite (proj2 (Z.ltb_ge 0 _)) by lia|by rewrite (proj2 (Z.ltb_lt 0 _)) by lia].
Qed.

(** *** Looking for an element *)

Definition zz zl es (nodes : list (bytes * Z)) : Prop := zl_ok zl es ∧ es.*2 = flat (spair <$> nodes).
Definition zw (nodes : list (bytes * Z)) : Z := foldr (fun n z => 164 + Z.of_nat (length n.1) + z) 11 nodes.

Lemma zw_app l1 l2 : zw (l1 ++ l2) = zw l1 + zw l2 - 11.
Proof. induction l1; cbn [app zw foldr] in *; fold (zw l2); [lia|]. unfold zw in *. cbn. lia. Qed.
Lemma zw_cons n l : zw (n :: l) = 164 + Z.of_nat (length n.1) + zw l.
Proof. done. Qed.
Lemma zw_min l : 11 + 164 * Z.of_nat (length l) ≤ zw l.
Proof. induction l as [|n l IH]; [done|]. rewrite zw_cons. cbn [length]. lia. Qed.
Lemma weight_nodes l : Forall node_ok l → weight (flat (spair <$> l)) ≤ zw l.
Proof.
  induction 1 as [|n l [Hn _] _ IH]; [done|]. rewrite fmap_cons, weight_flat_cons, zw_cons. cbn [spair fst snd].
  pose proof (proj2 (d2string_ok n.2 Hn)). lia.
Qed.
Lemma zw_perm l l' : l ≡ₚ l' → zw l = zw l'.
Proof. induction 1; rewrite ?zw_cons; lia. Qed.
Lemma zz_weight l : Forall node_ok l → zw l < 2 ^ 32 → weight (flat (spair <$> l)) < 2 ^ 32.
Proof. intros H. pose proof (weight_nodes l H). lia. Qed.
Lemma node_at l1 n l2 : Forall node_ok (l1 ++ n :: l2) → node_ok n.
Proof. intros H. by apply Forall_app in H as [_ [? _]%Forall_cons]. Qed.

Fixpoint zfind (i : nat) (l : list (bytes * Z)) ele : option nat :=
  match l with [] => None | n :: l' => if bool_decide (n.1 = ele) then Some i else zfind (S i) l' ele end.
Lemma zfind_None i l ele : ele ∉ l.*1 → zfind i l ele = None.
Proof. revert i. induction l as [|n l IH]; intros i Hn; cbn in *; [done|]. apply not_elem_of_cons in Hn as [H1 H2]. rewrite bool_decide_false by congruence. by apply IH. Qed.
Lemma zfind_Some i a ele score b : ele ∉ a.*1 → zfind i (a ++ (ele, score) :: b) ele = Some (i + length a)%nat.
Proof.
  revert i. induction a as [|n a IH]; intros i Hn; cbn in *; [rewrite bool_decide_true by done; f_equal; lia|].
  apply not_elem_of_cons in Hn as [H1 H2]. rewrite bool_decide_false by congruence. rewrite IH by done. f_equal. lia.
Qed.
Lemma split_node (l : list (bytes * Z)) ele : ele ∈ l.*1 → ∃ a score b, l = a ++ (ele, score) :: b ∧ ele ∉ a.*1.
Proof.
  induction l as [|[e s] l IH]; [by intros ?%not_elem_of_nil|]. intros H. destruct (decide (e = ele)) as [->|Hne]; [by exists [], s, l; split; [|apply not_elem_of_nil]|].
  cbn in H. apply elem_of_cons in H as [->|H]; [done|]. destruct (IH H) as (a & sc & b & -> & Ha). exists ((e, s) :: a), sc, b. split; [done|]. cbn. by apply not_elem_of_cons.
Qed.

(** The pointers to the pair [i]. *)
Definition ptrs es (i : nat) : Z * Z := (at_index es (2 * i), at_index es (S (2 * i))).
Definition ptr_of es (l1 l2 : list (bytes * Z)) : option Z := match l2 with [] => None | _ => Some (at_index es (2 * length l1)) end.

Lemma zzl_find_loop_ok zl es ele l2 : ∀ l1 fuel, zz zl es (l1 ++ l2) → Forall node_ok (l1 ++ l2) → zw (l1 ++ l2) < 2 ^ 32 → (length l2 ≤ fuel)%nat →
  zzl_find_loop fuel zl (ptr_of es l1 l2) ele = Ok (ptrs es <$> zfind (length l1) l2 ele).
Proof.
  induction l2 as [|[e s] l2 IH]; intros l1 fuel [Hz E] Hok Hw Hf; [by destruct fuel|]. destruct fuel as [|fuel]; [cbn in Hf; lia|].
  pose proof (zz_weight _ Hok Hw) as Hwt. pose proof (node_at _ _ _ Hok) as Hn. cbn [ptr_of zzl_find_loop zfind fst].
  rewrite (entry_next zl es l1 e s l2 Hz E Hwt). cbn [mbind res_bind]. rewrite (entry_compare zl es l1 e s l2 Hz E Hwt). cbn [mbind res_bind].
  case_bool_decide; [done|]. rewrite (entry_after zl es l1 e s l2 Hz E Hwt). cbn [mbind res_bind].
  replace (S (length l1)) with (length (l1 ++ [(e, s)])) by (rewrite length_app; cbn; lia).
  assert (l1 ++ (e, s) :: l2 = (l1 ++ [(e, s)]) ++ l2) as El by (by rewrite <- app_assoc). rewrite El in *. apply IH; [done|done|done|cbn in Hf; lia].
Qed.
Lemma zz_fuel zl es l : zz zl es l → (length l ≤ length zl)%nat.
Proof.
  intros [Hz E]. pose proof (pairs_count _ _ E) as Hc. rewrite length_fmap in Hc. pose proof (z_len _ _ Hz). pose proof (esize_len es). lia.
Qed.
Lemma zzlFind_ok zl es l ele : zz zl es l → Forall node_ok l → zw l < 2 ^ 32 → zzlFind zl ele = Ok (ptrs es <$> zfind 0 l ele).
Proof.
  intros Hz Hok Hw. pose proof (zz_fuel _ _ _ Hz). unfold zzlFind. rewrite (first_entry zl es l (proj1 Hz) (proj2 Hz) (zz_weight _ Hok Hw)). cbn [mbind res_bind].
  apply (zzl_find_loop_ok zl es ele l [] (S (length zl)) Hz Hok Hw). lia.
Qed.
Lemma find_absent zl es l ele : zz zl es l → Forall node_ok l → zw l < 2 ^ 32 → ele ∉ l.*1 → zzlFind zl ele = Ok None ∧ find_score F zl ele = Ok None.
Proof. intros Hz Hok Hw Hn. unfold find_score. rewrite (zzlFind_ok zl es l ele Hz Hok Hw), (zfind_None 0 l ele Hn). done. Qed.
Lemma find_present zl es a ele score b : zz zl es (a ++ (ele, score) :: b) → Forall node_ok (a ++ (ele, score) :: b) → zw (a ++ (ele, score) :: b) < 2 ^ 32 → ele ∉ a.*1 →
  zzlFind zl ele = Ok (Some (ptrs es (length a))) ∧ find_score F zl ele = Ok (Some (at_index es (2 * length a), score)).
Proof.
  intros Hz Hok Hw Hn. unfold find_score. rewrite (zzlFind_ok zl es _ ele Hz Hok Hw), (zfind_Some 0 a ele score b Hn). split; [done|]. cbn [mbind res_bind fmap option_fmap option_map ptrs Nat.add].
  destruct Hz as [Hz E]. by rewrite (entry_score zl es a ele score b Hz E (zz_weight _ Hok Hw) (node_at _ _ _ Hok)).
Qed.

(** *** Inserting and deleting *)

Lemma flat_nodes l1 n l2 : flat (spair <$> (l1 ++ n :: l2)) = flat (spair <$> l1) ++ n.1 :: d2string F n.2 :: flat (spair <$> l2).
Proof. by rewrite fmap_app, fmap_cons, flat_app. Qed.
Lemma flat_nodes_length l : length (flat (spair <$> l)) = (2 * length l)%nat.
Proof. by rewrite flat_length, length_fmap. Qed.

(** An entry is put before another one, whose pointer is that of the new one afterwards. *)
Lemma zinsert_here zl es (a b : list bytes) s :
  zl_ok zl es → es.*2 = a ++ b → weight (a ++ s :: b) < 2 ^ 32 →
  ∃ zl' es', ziplistInsert zl (at_index es (length a)) s = Ok zl' ∧ zl_ok zl' es' ∧ es'.*2 = a ++ s :: b ∧ at_index es' (length a) = at_index es (length a).
Proof.
  intros Hz E Hw. assert (length es = length a + length b)%nat as Hl by (rewrite <- (length_fmap snd es), E, length_app; done).
  assert ((take (length a) es).*2 = a) as Ea by (by rewrite fmap_take, E, take_app_length).
  assert ((drop (length a) es).*2 = b) as Eb by (by rewrite fmap_drop, E, drop_app_length). rewrite <- (take_drop (length a) es) in Hz.
  destruct (insert_ok zl _ _ s Hz) as (zl' & es2 & E1 & E2 & Hz'); [by rewrite Ea, Eb|]. eexists zl', _. split; [exact E1|]. split; [exact Hz'|]. split.
  - rewrite fmap_app. cbn. by rewrite E2, Ea, Eb.
  - unfold at_index. rewrite take_app_le, take_take, Nat.min_id by (rewrite length_take; lia). done.
Qed.

Lemma zzlInsertAt_ok zl es l1 l2 ele score : zz zl es (l1 ++ l2) → Forall node_ok (l1 ++ (ele, score) :: l2) → zw (l1 ++ (ele, score) :: l2) < 2 ^ 32 →
  ∃ zl' es', zzlInsertAt F zl (ptr_of es l1 l2) ele score = Ok zl' ∧ zz zl' es' (l1 ++ (ele, score) :: l2).
Proof.
  intros [Hz E] Hok Hw. pose proof (zz_weight _ Hok Hw) as Hwt. rewrite flat_nodes in Hwt. cbn [fst snd] in Hwt. rewrite fmap_app, flat_app in E.
  assert (weight (flat (spair <$> l1) ++ ele :: flat (spair <$> l2)) < 2 ^ 32) as Hw1 by (rewrite weight_app, !weight_cons in *; lia).
  unfold zzlInsertAt, ptr_of. destruct l2 as [|n l2].
  - rewrite fmap_nil in *. change (flat []) with (@nil bytes) in *. rewrite app_nil_r in E.
    destruct (push_ok zl es ele ZIPLIST_TAIL Hz) as (zl1 & es1 & -> & E1 & Hz1); [rewrite E, weight_cons; rewrite weight_app, weight_cons in Hw1; change (weight []) with 11 in Hw1; lia|]. cbn [mbind res_bind].
    destruct (push_ok zl1 es1 (d2string F score) ZIPLIST_TAIL Hz1) as (zl2 & es2 & -> & E2 & Hz2); [rewrite E1, E, weight_cons, weight_app, weight_cons; rewrite weight_app, !weight_cons in Hwt; change (weight []) with 11 in *; lia|].
    exists zl2, es2. split; [done|]. split; [done|]. rewrite flat_nodes. cbn [fst snd]. by rewrite E2, E1, E, <- app_assoc.
  - rewrite <- (flat_nodes_length l1). destruct (zinsert_here zl es _ _ ele Hz E Hw1) as (zl1 & es1 & -> & Hz1 & E1 & Ep). cbn [mbind res_bind]. rewrite <- Ep.
    assert (Z.of_nat (length zl1) < 2 ^ 32) as Hm by (apply (length_max zl1 es1 Hz1); by rewrite E1).
    assert (length es1 = length (flat (spair <$> l1)) + S (length (flat (spair <$> (n :: l2)))))%nat as Hl by (rewrite <- (length_fmap snd es1), E1, length_app; done).
    unfold next_entry. rewrite (next_ok zl1 es1 _ Hz1 Hm) by lia. unfold next_of. rewrite length_fmap, decide_True by (cbn in Hl; lia). cbn [mbind res_bind fmap option_fmap option_map res_of_option].
    assert (S (length (flat (spair <$> l1))) = length (flat (spair <$> l1) ++ [ele])) as -> by (rewrite length_app; cbn; lia).
    destruct (zinsert_here zl1 es1 (flat (spair <$> l1) ++ [ele]) (flat (spair <$> (n :: l2))) (d2string F score) Hz1) as (zl2 & es2 & -> & Hz2 & E2 & _); [by rewrite E1, <- app_assoc|by rewrite <- app_assoc|].
    exists zl2, es2. split; [done|]. split; [done|]. by rewrite flat_nodes, E2, <- app_assoc.
Qed.
Lemma zzlDelete_ok zl es l1 ele score l2 : zz zl es (l1 ++ (ele, score) :: l2) → Forall node_ok (l1 ++ (ele, score) :: l2) → zw (l1 ++ (ele, score) :: l2) < 2 ^ 32 →
  ∃ zl' es', zzlDelete zl (at_index es (2 * length l1)) = Ok zl' ∧ zz zl' es' (l1 ++ l2).
Proof.
  intros [Hz E] Hok Hw. pose proof (zz_weight _ Hok Hw) as Hwt. rewrite flat_nodes in Hwt, E. cbn [fst snd] in *. rewrite <- flat_nodes_length. unfold zzlDelete.
  destruct (zdelete_ok zl es _ _ ele Hz E Hwt) as (zl1 & es1 & -> & Hz1 & E1). cbn [mbind res_bind].
  destruct (zdelete_ok zl1 es1 _ _ (d2string F score) Hz1 E1) as (zl2 & es2 & -> & Hz2 & E2); [rewrite weight_app, !weight_cons in *; lia|]. cbn [mbind res_bind].
  exists zl2, es2. split; [done|]. split; [done|]. by rewrite fmap_app, flat_app.
Qed.

(** The place where [zzlInsert] stops is the place in the order of skip lists. *)
Lemma insert_here_iff e s ele score c : score_ok s → score_ok score → e ≠ ele → (0 < c ↔ 0 < sdscmp e ele) →
  dbl_lt score s || (dbl_eq s score && (0 <? if dbl_eq s score then c else 0)) = negb (zsl_before (e, s) score ele).
Proof.
  intros [_ H1] [_ H2] Hne Hc. unfold zsl_before, dbl_lt, dbl_eq. cbn [fst snd]. rewrite H1, H2. cbn [negb andb].
  assert (sdscmp e ele ≠ 0) by (intros E%sdscmp_eq; done).
  destruct (Z.ltb_spec (dbl_key score) (dbl_key s)), (Z.ltb_spec (dbl_key s) (dbl_key score)), (Z.eqb_spec (dbl_key s) (dbl_key score)); cbn; try lia; try done.
Qed.
Lemma zzl_insert_loop_ok zl es ele score l2 : node_ok (ele, score) → ∀ l1 fuel, zz zl es (l1 ++ l2) → Forall node_ok (l1 ++ l2) → ele ∉ l2.*1 →
  zw (l1 ++ (ele, score) :: l2) < 2 ^ 32 → (length l2 ≤ fuel)%nat →
  ∃ zl' es', zzl_insert_loop F fuel zl (ptr_of es l1 l2) ele score = Ok zl' ∧ zz zl' es' (l1 ++ zsl_insert_node score ele l2).
Proof.
  intros Hn. induction l2 as [|[e s] l2 IH]; intros l1 fuel Hz Hok Hel Hw Hf.
  - destruct (zzlInsertAt_ok zl es l1 [] ele score Hz) as (zl' & es' & E & Hz'); [apply Forall_app in Hok as [? _]; apply Forall_app; by split; [|constructor]|done|].
    exists zl', es'. split; [by destruct fuel|done].
  - destruct fuel as [|fuel]; [cbn in Hf; lia|]. assert (zw (l1 ++ (e, s) :: l2) < 2 ^ 32) as Hw' by (rewrite zw_app, !zw_cons in *; lia).
    pose proof (zz_weight _ Hok Hw') as Hwt. pose proof (node_at _ _ _ Hok) as Hns. destruct Hz as [Hz E]. cbn in Hel. apply not_elem_of_cons in Hel as [Hne Hel].
    cbn [ptr_of zzl_insert_loop zsl_insert_node]. rewrite (entry_next zl es l1 e s l2 Hz E Hwt). cbn [mbind res_bind].
    rewrite (entry_score zl es l1 e s l2 Hz E Hwt Hns). cbn [mbind res_bind].
    destruct (entry_order zl es l1 e s l2 Hz E Hwt Hns ele (proj2 Hn)) as (c & Ec & Hc).
    assert ((if dbl_eq s score then zzlCompareElements zl (at_index es (2 * length l1)) ele else mret 0) = Ok (if dbl_eq s score then c else 0)) as -> by (by destruct (dbl_eq s score)).
    cbn [mbind res_bind]. rewrite (insert_here_iff e s ele score c (proj1 Hns) (proj1 Hn)) by (done || congruence).
    destruct (zsl_before (e, s) score ele); cbn [negb].
    + rewrite (entry_after zl es l1 e s l2 Hz E Hwt). cbn [mbind res_bind]. assert (∀ l, l1 ++ (e, s) :: l = (l1 ++ [(e, s)]) ++ l) as El by (intros; by rewrite <- app_assoc).
      rewrite (El (zsl_insert_node score ele l2)). rewrite (El l2) in E, Hok. apply IH; [by split|done|done|rewrite !zw_app, !zw_cons in *; change (zw []) with 11 in *; lia|cbn in Hf; lia].
    + apply (zzlInsertAt_ok zl es l1 ((e, s) :: l2)); [by split| |done]. apply Forall_app in Hok as [? ?]. apply Forall_app. split; [done|]. by constructor.
Qed.
Lemma zzlInsert_ok zl es l ele score : node_ok (ele, score) → zz zl es l → Forall node_ok l → ele ∉ l.*1 → zw ((ele, score) :: l) < 2 ^ 32 →
  ∃ zl' es', zzlInsert F zl ele score = Ok zl' ∧ zz zl' es' (zsl_insert_node score ele l).
Proof.
  intros Hn Hz Hok Hel Hw. pose proof (zz_fuel _ _ _ Hz). unfold zzlInsert. assert (zw l < 2 ^ 32) as Hw' by (rewrite zw_cons in Hw; lia).
  rewrite (first_entry zl es l (proj1 Hz) (proj2 Hz) (zz_weight _ Hok Hw')). cbn [mbind res_bind].
  apply (zzl_insert_loop_ok zl es ele score l Hn [] (S (length zl)) Hz Hok Hel Hw). lia.
Qed.

(** ** Both encodings and the list of nodes *)

Record nodes_ok (l : list (bytes * Z)) : Prop := {
  nodes_sorted : StronglySorted zsl_lt l;
  nodes_nodup : NoDup l.*1;
  nodes_all : Forall node_ok l;
  nodes_small : zw l < 2 ^ 32
}.
Definition mkz (l : list (bytes * Z)) : zset := Zset l (Z.of_nat (length l)) (list_to_map l).
Definition zset_raw (o : zobj) (l : list (bytes * Z)) : Prop :=
  nodes_ok l ∧ match o with ZZiplist zl => ∃ es, zz zl es l | ZSkip zs => zs = mkz l | ZOther => False end.

Lemma insert_perm score ele l : zsl_insert_node score ele l ≡ₚ (ele, score) :: l.
Proof. apply zsl_insert_node_perm. Qed.
Lemma nodes_insert l ele score : nodes_ok l → node_ok (ele, score) → ele ∉ l.*1 → zw ((ele, score) :: l) < 2 ^ 32 → nodes_ok (zsl_insert_node score ele l).
Proof.
  intros [Hs Hn Ha _] Hok Hel Hw. pose proof (insert_perm score ele l) as Hp. split.
  - apply zsl_insert_node_sorted; [apply Hok|done| |done]. eapply Forall_impl; [done|]. intros n [[_ ?] _]. done.
  - rewrite Hp. cbn. by apply NoDup_cons.
  - rewrite Hp. by constructor.
  - by rewrite (zw_perm _ _ Hp).
Qed.
Lemma sorted_sub (a : list (bytes * Z)) n b : StronglySorted zsl_lt (a ++ n :: b) → StronglySorted zsl_lt (a ++ b).
Proof.
  induction a as [|x a IH]; cbn; [by intros [? _]%StronglySorted_inv|]. intros [H1 H2]%StronglySorted_inv. constructor; [by apply IH|].
  apply Forall_app in H2 as [? [_ ?]%Forall_cons]. apply Forall_app. by split.
Qed.
Lemma nodes_delete a n b : nodes_ok (a ++ n :: b) → nodes_ok (a ++ b) ∧ n.1 ∉ (a ++ b).*1.
Proof.
  intros [Hs Hn Ha Hw]. assert (a ++ n :: b ≡ₚ n :: a ++ b) as Hp by (symmetry; apply Permutation_middle). rewrite Hp in Hn. cbn in Hn. apply NoDup_cons in Hn as [Hn1 Hn2].
  split; [|done]. split; [by eapply sorted_sub|done| |].
  - rewrite Hp in Ha. by apply Forall_cons in Ha as [_ ?].
  - rewrite (zw_perm _ _ Hp), zw_cons in Hw. lia.
Qed.
Lemma node_map a ele score b : NoDup (a ++ (ele, score) :: b).*1 → (list_to_map (a ++ (ele, score) :: b) : gmap bytes Z) = <[ele := score]> (list_to_map (a ++ b)).
Proof.
  intros Hnd. assert ((ele, score) :: a ++ b ≡ₚ a ++ (ele, score) :: b) as Hp by apply Permutation_middle. rewrite <- Hp in Hnd. by rewrite <- (list_to_map_proper _ _ Hnd Hp).
Qed.
Lemma insert_map l ele score : nodes_ok l → ele ∉ l.*1 → (list_to_map (zsl_insert_node score ele l) : gmap bytes Z) = <[ele := score]> (list_to_map l).
Proof.
  intros [_ Hn _ _] Hel. assert (NoDup ((ele, score) :: l).*1) as Hnd by (cbn; by apply NoDup_cons). pose proof (insert_perm score ele l) as Hp. symmetry in Hp.
  by rewrite <- (list_to_map_proper _ _ Hnd Hp).
Qed.
Lemma nodes_length l : nodes_ok l → Z.of_nat (length l) < 2 ^ 32.
Proof. intros [_ _ _ Hw]. pose proof (zw_min l). lia. Qed.

Lemma zslInsert_mkz l ele score : nodes_ok l → node_ok (ele, score) → ele ∉ l.*1 →
  zslInsert (mkz l) score ele = Ok (Zset (zsl_insert_node score ele l) (Z.of_nat (length (zsl_insert_node score ele l))) (list_to_map l)) ∧
  zset_dict_add (Zset (zsl_insert_node score ele l) (Z.of_nat (length (zsl_insert_node score ele l))) (list_to_map l)) ele score = (true, mkz (zsl_insert_node score ele l)).
Proof.
  intros Hl [[_ Hn] _] Hel. cbn in Hn. pose proof (nodes_length l Hl). unfold zslInsert, zset_dict_add, mkz. cbn [zsl_nodes zsl_length zset_dict]. rewrite Hn. cbn [negb serverAssert mbind res_bind].
  rewrite (insert_map l ele score Hl Hel), (Permutation_length (insert_perm score ele l)). split.
  - f_equal. f_equal. unfold u64. cbn [length]. rewrite Z.mod_small; lia.
  - rewrite (not_elem_of_list_to_map_1 l ele Hel), bool_decide_false by (by intros []). done.
Qed.

Lemma raw_zlength o l : zset_raw o l → ∃ o', zsetLength o = Ok (Z.of_nat (length l), o') ∧ zset_raw o' l ∧ (∀ zl, o = ZZiplist zl → ∃ zl', o' = ZZiplist zl').
Proof.
  intros [Hl Ho]. destruct o as [zl|zs|]; [| |done].
  - destruct Ho as (es & Hz & E). pose proof (zz_weight l (nodes_all _ Hl) (nodes_small _ Hl)) as Hw. cbn [zsetLength zzlLength]. unfold zzlLength.
    destruct (len_ok zl es Hz (zpairs_small _ _ _ Hz E Hw)) as (zl' & -> & Hz'). cbn [mbind res_bind mret res_ret]. exists (ZZiplist zl'). split; [|split; [|by eexists]].
    + pose proof (nodes_length l Hl). pose proof (zw_min l). pose proof (nodes_small _ Hl). rewrite (pairs_count _ _ E), length_fmap. unfold u32. rewrite Z.mod_small by lia.
      do 2 f_equal. rewrite Nat2Z.inj_mul, Z.mul_comm. by apply Z.div_mul.
    + split; [done|]. by exists es.
  - subst zs. exists (ZSkip (mkz l)). split; [done|]. split; [by split|done].
Qed.
Lemma raw_zscore o l ele : zset_raw o l → zsetScore F o ele = Ok ((list_to_map l : gmap bytes Z) !! ele).
Proof.
  intros [Hl Ho]. destruct o as [zl|zs|]; [|by subst zs|done]. destruct Ho as (es & Hz). cbn [zsetScore]. destruct (decide (ele ∈ l.*1)) as [Hin|Hn].
  - destruct (split_node l ele Hin) as (a & s & b & -> & Ha). destruct (find_present zl es a ele s b Hz (nodes_all _ Hl) (nodes_small _ Hl) Ha) as [_ ->].
    by rewrite (node_map _ _ _ _ (nodes_nodup _ Hl)), lookup_insert_eq.
  - destruct (find_absent zl es l ele Hz (nodes_all _ Hl) (nodes_small _ Hl) Hn) as [_ ->]. by rewrite (not_elem_of_list_to_map_1 l ele Hn).
Qed.

(** *** Conversion *)

Lemma insert_tail l ele score : Forall (fun n => zsl_lt n (ele, score)) l → zsl_insert_node score ele l = l ++ [(ele, score)].
Proof. induction 1 as [|n l Hn _ IH]; [done|]. cbn. unfold zsl_lt in Hn. cbn in Hn. by rewrite Hn, IH. Qed.
Lemma sorted_before (l1 : list (bytes * Z)) n l2 : StronglySorted zsl_lt (l1 ++ n :: l2) → Forall (fun x => zsl_lt x n) l1.
Proof. induction l1 as [|x l1 IH]; [done|]. cbn. intros [H1 H2]%StronglySorted_inv. constructor; [|by apply IH]. by apply Forall_app in H2 as [_ [? _]%Forall_cons]. Qed.
Lemma nodes_prefix l1 l2 : nodes_ok (l1 ++ l2) → nodes_ok l1.
Proof.
  intros [Hs Hn Ha Hw]. split.
  - clear Hn Ha Hw. induction l1 as [|x l1 IH]; [constructor|]. cbn in Hs. apply StronglySorted_inv in Hs as [H1 H2]. constructor; [by apply IH|]. by apply Forall_app in H2 as [? _].
  - rewrite fmap_app in Hn. by apply NoDup_app in Hn as [? _].
  - by apply Forall_app in Ha as [? _].
  - rewrite zw_app in Hw. pose proof (zw_min l2). lia.
Qed.
Lemma zzlNext_ok zl es l1 ele score l2 : zz zl es (l1 ++ (ele, score) :: l2) → nodes_ok (l1 ++ (ele, score) :: l2) →
  zzlNext zl (at_index es (S (2 * length l1))) = Ok (match l2 with [] => None | _ => Some (ptrs es (length (l1 ++ [(ele, score)]))) end).
Proof.
  intros [Hz E] Hl. pose proof (zz_weight _ (nodes_all _ Hl) (nodes_small _ Hl)) as Hw. unfold zzlNext. rewrite (entry_after zl es l1 ele score l2 Hz E Hw).
  destruct l2 as [|[e s] l2]; [done|]. cbn [mbind res_bind]. assert (l1 ++ (ele, score) :: (e, s) :: l2 = (l1 ++ [(ele, score)]) ++ (e, s) :: l2) as El by (by rewrite <- app_assoc).
  rewrite El in *. by rewrite (entry_next zl es _ e s l2 Hz E Hw).
Qed.
Lemma to_skiplist_ok zl es l2 : ∀ l1 fuel, zz zl es (l1 ++ l2) → nodes_ok (l1 ++ l2) → (length l2 ≤ fuel)%nat →
  to_skiplist_loop F fuel zl (match l2 with [] => None | _ => Some (ptrs es (length l1)) end) (mkz l1) = Ok (mkz (l1 ++ l2)).
Proof.
  induction l2 as [|[ele score] l2 IH]; intros l1 fuel Hz Hl Hf; [rewrite app_nil_r; by destruct fuel|]. destruct fuel as [|fuel]; [cbn in Hf; lia|].
  pose proof (zz_weight _ (nodes_all _ Hl) (nodes_small _ Hl)) as Hw. pose proof (node_at _ _ _ (nodes_all _ Hl)) as Hn. pose proof (zzlNext_ok _ _ _ _ _ _ Hz Hl) as Hx. destruct Hz as [Hz E].
  cbn [to_skiplist_loop ptrs]. rewrite (entry_score zl es l1 ele score l2 Hz E Hw Hn). cbn [mbind res_bind]. rewrite (entry_object zl es l1 ele score l2 Hz E Hw). cbn [mbind res_bind].
  assert (ele ∉ l1.*1) as Hel. { pose proof (nodes_nodup _ Hl) as Hnd. rewrite fmap_app in Hnd. cbn in Hnd. apply NoDup_app in Hnd as (_ & Hd & _). intros Hin. apply (Hd ele Hin). left. }
  destruct (zslInsert_mkz l1 ele score (nodes_prefix _ _ Hl) Hn Hel) as [-> Hd]. cbn [mbind res_bind]. rewrite Hd. cbn [serverAssert mbind res_bind]. rewrite Hx. cbn [mbind res_bind].
  rewrite (insert_tail l1 ele score (sorted_before _ _ _ (nodes_sorted _ Hl))). assert (l1 ++ (ele, score) :: l2 = (l1 ++ [(ele, score)]) ++ l2) as El by (by rewrite <- app_assoc). rewrite El in *.
  apply IH; [by split|done|cbn in Hf; lia].
Qed.
Lemma to_skiplist_convert zl l : zset_raw (ZZiplist zl) l → l ≠ [] → zsetConvert F (ZZiplist zl) ToSkiplist = Ok (ZSkip (mkz l)).
Proof.
  intros [Hl (es & Hz)] Hne. pose proof (zz_weight _ (nodes_all _ Hl) (nodes_small _ Hl)) as Hw. cbn [zsetConvert]. rewrite (first_entry zl es l (proj1 Hz) (proj2 Hz) Hw).
  pose proof (zz_fuel _ _ _ Hz). destruct l as [|[ele score] l]; [done|]. cbn [mbind res_bind res_of_option].
  pose proof (entry_next zl es [] ele score l (proj1 Hz) (proj2 Hz) Hw) as Hx. cbn [length Nat.mul Nat.add] in Hx. rewrite Hx. cbn [mbind res_bind].
  pose proof (to_skiplist_ok zl es ((ele, score) :: l) [] (S (length zl)) Hz Hl ltac:(lia)) as Hr. cbn [app length] in Hr.
  change (mkz []) with (Zset [] 0 ∅) in Hr. change (ptrs es 0) with (at_index es 0, at_index es 1) in Hr. by rewrite Hr.
Qed.
Lemma to_ziplist_ok l2 : ∀ l1 zl es, zz zl es l1 → Forall node_ok (l1 ++ l2) → zw (l1 ++ l2) < 2 ^ 32 →
  ∃ zl' es', to_ziplist_loop F l2 zl = Ok zl' ∧ zz zl' es' (l1 ++ l2).
Proof.
  induction l2 as [|[ele score] l2 IH]; intros l1 zl es Hz Hok Hw; [exists zl, es; by rewrite app_nil_r|]. cbn [to_ziplist_loop].
  assert (l1 ++ (ele, score) :: l2 = (l1 ++ [(ele, score)]) ++ l2) as El by (by rewrite <- app_assoc). rewrite El in *. rewrite zw_app in Hw. pose proof (zw_min l2).
  destruct (zzlInsertAt_ok zl es l1 [] ele score) as (zl1 & es1 & E1 & Hz1); [by rewrite app_nil_r|by apply Forall_app in Hok as [? _]|lia|]. cbn [ptr_of] in E1. rewrite E1. cbn [mbind res_bind].
  apply (IH (l1 ++ [(ele, score)]) zl1 es1 Hz1 Hok). rewrite zw_app. lia.
Qed.
Lemma to_ziplist_convert l : nodes_ok l → ∃ zl, zsetConvert F (ZSkip (mkz l)) ToZiplist = Ok (ZZiplist zl) ∧ zset_raw (ZZiplist zl) l.
Proof.
  intros Hl. destruct ziplist_new_ok as (zl0 & E0 & Hz0). cbn [zsetConvert]. rewrite E0. cbn [mbind res_bind].
  destruct (to_ziplist_ok l [] zl0 []) as (zl & es & E & Hz); [by split|apply Hl|apply Hl|]. cbn [mkz zsl_nodes]. rewrite E. cbn [mbind res_bind].
  exists zl. split; [done|]. split; [done|]. by exists es.
Qed.

(** *** Skip lists *)

Lemma sdscmp_refl e : sdscmp e e = 0.
Proof. by apply sdscmp_eq. Qed.
Lemma dbl_eq_refl s : dbl_isnan s = false → dbl_eq s s = true.
Proof. intros E. unfold dbl_eq. by rewrite E, Z.eqb_refl. Qed.
Lemma before_refl e s : zsl_before (e, s) s e = false.
Proof. unfold zsl_before, dbl_lt, dbl_eq. cbn. rewrite sdscmp_refl, Z.ltb_irrefl, !andb_false_r. done. Qed.
Lemma delete_node_ok a ele score b : nodes_ok (a ++ (ele, score) :: b) → zsl_delete_node score ele (a ++ (ele, score) :: b) = Some (a ++ b).
Proof.
  intros Hl. pose proof (sorted_before _ _ _ (nodes_sorted _ Hl)) as Hb. destruct (node_at _ _ _ (nodes_all _ Hl)) as [[_ Hn] _]. clear Hl. cbn in Hn.
  induction Hb as [|n a Hx _ IH]; cbn [app zsl_delete_node].
  - rewrite before_refl. cbn [fst snd]. by rewrite sdscmp_refl, dbl_eq_refl.
  - unfold zsl_lt in Hx. cbn in Hx. by rewrite Hx, IH.
Qed.
Lemma zslDelete_ok a ele score b m : nodes_ok (a ++ (ele, score) :: b) →
  zslDelete (Zset (a ++ (ele, score) :: b) (Z.of_nat (length (a ++ (ele, score) :: b))) m) score ele = Some (Zset (a ++ b) (Z.of_nat (length (a ++ b))) m).
Proof.
  intros Hl. pose proof (nodes_length _ Hl) as Hn. unfold zslDelete. cbn [zsl_nodes zsl_length zset_dict]. rewrite (delete_node_ok a ele score b Hl). cbn [option_map]. do 2 f_equal.
  rewrite !length_app in *. cbn [length] in *. unfold u64. rewrite Z.mod_small; lia.
Qed.

Definition stays (before next : option (bytes * Z)) newscore : bool :=
  match before with None => true | Some b => dbl_lt b.2 newscore end && match next with None => true | Some n => dbl_lt newscore n.2 end.
Lemma update_node_ok ele cur new b a : dbl_isnan cur = false → ∀ p, Forall (fun n => zsl_lt n (ele, cur)) a →
  zsl_update_node (last p) cur ele new (a ++ (ele, cur) :: b) = Ok (if stays (last (p ++ a)) (head b) new then Some (a ++ (ele, new) :: b) else None).
Proof.
  intros Hn. induction a as [|n a IH]; intros p Ha; cbn [app zsl_update_node].
  - rewrite before_refl, app_nil_r. cbn [fst snd]. rewrite sdscmp_refl, (dbl_eq_refl cur Hn). cbn [Z.eqb andb serverAssert mbind res_bind]. unfold stays. destruct b; cbn [head]; by destruct (_ && _).
  - apply Forall_cons in Ha as [Hx Ha]. unfold zsl_lt in Hx. cbn [fst snd] in Hx. rewrite Hx. rewrite <- (last_snoc n p). rewrite (IH (p ++ [n]) Ha). cbn [mbind res_bind]. rewrite <- app_assoc. cbn [app]. by case_match.
Qed.
Lemma sorted_mid (a : list (bytes * Z)) n b : StronglySorted zsl_lt (a ++ b) → Forall (fun x => zsl_lt x n) a → Forall (zsl_lt n) b → StronglySorted zsl_lt (a ++ n :: b).
Proof.
  intros Hs Ha Hb. induction Ha as [|x a Hx Ha IH]; cbn in *; [by constructor|]. apply StronglySorted_inv in Hs as [H1 H2]. constructor; [by apply IH|].
  apply Forall_app in H2 as [? ?]. apply Forall_app. split; [done|]. by constructor.
Qed.
Lemma lt_score x y : dbl_lt x.2 y.2 = true → zsl_lt x y.
Proof. unfold zsl_lt, zsl_before. intros ->. done. Qed.
Lemma stays_sorted (a : list (bytes * Z)) n ele new b : StronglySorted zsl_lt (a ++ n :: b) → stays (last a) (head b) new = true → StronglySorted zsl_lt (a ++ (ele, new) :: b).
Proof.
  intros Hs [H1 H2]%andb_true_iff. apply sorted_mid; [by eapply sorted_sub| |].
  - destruct a as [|x a _] using rev_ind; [done|]. rewrite last_snoc in H1. assert (zsl_lt x (ele, new)) as Hx by (by apply lt_score).
    apply Forall_app. split; [|by constructor]. rewrite <- app_assoc in Hs. cbn in Hs. apply sorted_before in Hs. eapply Forall_impl; [exact Hs|]. intros y Hy. by trans x.
  - destruct b as [|y b]; [done|]. cbn in H2. assert (zsl_lt (ele, new) y) as Hy by (by apply lt_score). constructor; [done|].
    assert (StronglySorted zsl_lt (y :: b)) as [_ Hf]%StronglySorted_inv.
    { clear -Hs. induction a as [|x a IH]; cbn in Hs; [by apply StronglySorted_inv in Hs as [? _]|]. apply StronglySorted_inv in Hs as [? _]. by apply IH. }
    eapply Forall_impl; [exact Hf|]. intros z Hz. by trans y.
Qed.
Lemma zslUpdateScore_ok a ele cur b new : nodes_ok (a ++ (ele, cur) :: b) → node_ok (ele, new) → ∃ l,
  zslUpdateScore (mkz (a ++ (ele, cur) :: b)) cur ele new = Ok (Zset l (Z.of_nat (length l)) (list_to_map (a ++ (ele, cur) :: b))) ∧ nodes_ok l ∧ l ≡ₚ (ele, new) :: a ++ b.
Proof.
  intros Hl Hn. destruct (nodes_delete _ _ _ Hl) as [Hl' Hel]. cbn in Hel. destruct (node_at _ _ _ (nodes_all _ Hl)) as [[_ Hc] _]. cbn in Hc.
  assert (zw ((ele, new) :: a ++ b) < 2 ^ 32) as Hw by (pose proof (nodes_small _ Hl) as Hw; rewrite zw_app, zw_cons in Hw; rewrite zw_cons, zw_app; cbn in *; lia).
  unfold zslUpdateScore. cbn [mkz zsl_nodes zsl_length zset_dict].
  assert (zsl_update_node None cur ele new (a ++ (ele, cur) :: b) = Ok (if stays (last a) (head b) new then Some (a ++ (ele, new) :: b) else None)) as ->
    by exact (update_node_ok ele cur new b a Hc [] (sorted_before _ _ _ (nodes_sorted _ Hl))).
  cbn [mbind res_bind].
  destruct (stays (last a) (head b) new) eqn:Es.
  - exists (a ++ (ele, new) :: b). split; [unfold mret, res_ret; do 2 f_equal; by rewrite !length_app|]. assert (a ++ (ele, new) :: b ≡ₚ (ele, new) :: a ++ b) as Hp by (symmetry; apply Permutation_middle). split; [|done]. split.
    + by apply (stays_sorted a (ele, cur) ele new b (nodes_sorted _ Hl)).
    + rewrite Hp. cbn. apply NoDup_cons. split; [done|apply Hl'].
    + rewrite Hp. constructor; [done|apply Hl'].
    + by rewrite (zw_perm _ _ Hp).
  - unfold mkz. rewrite (zslDelete_ok a ele cur b _ Hl). cbn [mbind res_bind res_of_option]. destruct (zslInsert_mkz (a ++ b) ele new Hl' Hn Hel) as [Ei _]. unfold zslInsert, mkz in *. cbn [zsl_nodes zsl_length zset_dict] in *.
    pose proof (proj2 (proj1 Hn)) as Hnn. cbn [snd] in Hnn. rewrite Hnn in Ei |- *. cbn [negb serverAssert mbind res_bind] in Ei |- *. injection Ei as Ei. exists (zsl_insert_node new ele (a ++ b)). split; [by rewrite Ei|]. split; [by apply nodes_insert|apply insert_perm].
Qed.

(** *** Adding and deleting *)

(** What [zsetAdd] means for a map from elements to scores. *)
Definition zadd_spec (m : gmap bytes Z) score ele (opts : zadd_options) : zadd_outcome * option Z * gmap bytes Z :=
  if dbl_isnan score then (ZADD_NAN, None, m)
  else
    match m !! ele with
    | Some cur =>
        if ZADD_NX opts then (ZADD_NOP, None, m)
        else if ZADD_INCR opts then
          let new := dbl_add F score cur in
          if dbl_isnan new then (ZADD_NAN, None, m)
          else if dbl_eq new cur then (ZADD_NOTHING, Some new, m) else (ZADD_UPDATED, Some new, <[ele := new]> m)
        else if dbl_eq score cur then (ZADD_NOTHING, None, m) else (ZADD_UPDATED, None, <[ele := score]> m)
    | None => if ZADD_XX opts then (ZADD_NOP, None, m) else (ZADD_ADDED, Some score, <[ele := score]> m)
    end.

Lemma zz_update zl es a ele cur b new : zz zl es (a ++ (ele, cur) :: b) → nodes_ok (a ++ (ele, cur) :: b) → node_ok (ele, new) →
  ∃ zl1 zl2 es2 l, zzlDelete zl (at_index es (2 * length a)) = Ok zl1 ∧ zzlInsert F zl1 ele new = Ok zl2 ∧ zz zl2 es2 l ∧ nodes_ok l ∧ l ≡ₚ (ele, new) :: a ++ b.
Proof.
  intros Hz Hl Hn. destruct (nodes_delete _ _ _ Hl) as [Hl' Hel]. cbn in Hel.
  assert (zw ((ele, new) :: a ++ b) < 2 ^ 32) as Hw by (pose proof (nodes_small _ Hl) as Hw; rewrite zw_app, zw_cons in Hw; rewrite zw_cons, zw_app; cbn [fst] in *; lia).
  destruct (zzlDelete_ok zl es a ele cur b Hz (nodes_all _ Hl) (nodes_small _ Hl)) as (zl1 & es1 & E1 & Hz1).
  destruct (zzlInsert_ok zl1 es1 (a ++ b) ele new Hn Hz1 (nodes_all _ Hl') Hel Hw) as (zl2 & es2 & E2 & Hz2).
  exists zl1, zl2, es2, (zsl_insert_node new ele (a ++ b)). split_and!; [done|done|done|by apply nodes_insert|apply insert_perm].
Qed.
Lemma updated_map l a ele cur new b : NoDup (a ++ (ele, cur) :: b).*1 → NoDup l.*1 → l ≡ₚ (ele, new) :: a ++ b →
  (list_to_map l : gmap bytes Z) = <[ele := new]> (list_to_map (a ++ (ele, cur) :: b)).
Proof.
  intros Hnd Hl Hp. rewrite (list_to_map_proper _ _ Hl Hp), (node_map _ _ _ _ Hnd). cbn. by rewrite insert_insert_eq.
Qed.

Lemma add_choice o l0 ele cur score opts (update : Z → res zobj) :
  zset_raw o l0 → (list_to_map l0 : gmap bytes Z) !! ele = Some cur → dbl_ok score → dbl_isnan score = false →
  (∀ sc, score_ok sc → ∃ o' l, update sc = Ok o' ∧ zset_raw o' l ∧ (list_to_map l : gmap bytes Z) = <[ele := sc]> (list_to_map l0)) →
  ∃ out new o' l,
    (if ZADD_NX opts then mret (ZADD_NOP, None, o)
     else
       let score := if ZADD_INCR opts then dbl_add F score cur else score in
       let newscore := if ZADD_INCR opts then Some score else None in
       if ZADD_INCR opts && dbl_isnan score then mret (ZADD_NAN, None, o)
       else if negb (dbl_eq score cur) then o ← update score; mret (ZADD_UPDATED, newscore, o)
       else mret (ZADD_NOTHING, newscore, o)) = Ok (out, new, o') ∧ zset_raw o' l ∧
    (out, new, list_to_map l) = zadd_spec (list_to_map l0) score ele opts.
Proof.
  intros Hr Hlk Hs En Hup. unfold zadd_spec. rewrite En, Hlk. destruct (ZADD_NX opts); [by eexists _, _, o, l0|]. cbv zeta. destruct (ZADD_INCR opts); cbn [andb].
  - pose proof (dbl_add_ok F FL score cur) as Hn. destruct (dbl_isnan (dbl_add F score cur)) eqn:En2; [by eexists _, _, o, l0|].
    destruct (dbl_eq (dbl_add F score cur) cur); cbn [negb]; [by eexists _, _, o, l0|].
    destruct (Hup (dbl_add F score cur)) as (o' & l & -> & Hr' & Em); [by split|]. eexists _, _, o', l. split; [done|]. split; [done|]. by rewrite Em.
  - destruct (dbl_eq score cur); cbn [negb]; [by eexists _, _, o, l0|].
    destruct (Hup score) as (o' & l & -> & Hr' & Em); [by split|]. eexists _, _, o', l. split; [done|]. split; [done|]. by rewrite Em.
Qed.

Section add.
Variables (zset_max_ziplist_entries zset_max_ziplist_value : Z).
Abbreviation zadd := (zsetAdd F zset_max_ziplist_entries zset_max_ziplist_value).

Lemma add_present o a ele cur b score opts : zset_raw o (a ++ (ele, cur) :: b) → dbl_ok score → Z.of_nat (length ele) < 2 ^ 31 →
  ∃ out new o' l, zadd o score ele opts = Ok (out, new, o') ∧ zset_raw o' l ∧ (out, new, list_to_map l) = zadd_spec (list_to_map (a ++ (ele, cur) :: b)) score ele opts.
Proof.
  intros Hr Hs Hlen. pose proof Hr as [Hl Ho]. pose proof (nodes_nodup _ Hl) as Hnd.
  assert ((list_to_map (a ++ (ele, cur) :: b) : gmap bytes Z) !! ele = Some cur) as Hlk by (by rewrite (node_map _ _ _ _ Hnd), lookup_insert_eq).
  assert (ele ∉ a.*1) as Ha. { rewrite fmap_app in Hnd. cbn in Hnd. apply NoDup_app in Hnd as (_ & Hd & _). intros Hin. apply (Hd ele Hin). left. }
  unfold zsetAdd. destruct (dbl_isnan score) eqn:En; [exists ZADD_NAN, None, o, (a ++ (ele, cur) :: b); unfold zadd_spec; by rewrite En|].
  destruct o as [zl|zs|]; [| |done].
  - destruct Ho as (es & Hz). destruct (find_present zl es a ele cur b Hz (nodes_all _ Hl) (nodes_small _ Hl) Ha) as [_ ->]. cbn [mbind res_bind].
    apply (add_choice (ZZiplist zl) (a ++ (ele, cur) :: b) ele cur score opts (fun sc => zl ← zzlDelete zl (at_index es (2 * length a)); zl ← zzlInsert F zl ele sc; mret (ZZiplist zl)) Hr Hlk Hs En).
    intros sc Hsc. destruct (zz_update zl es a ele cur b sc Hz Hl) as (zl1 & zl2 & es2 & l & -> & E2 & Hz2 & Hl2 & Hp); [by split|]. cbn [mbind res_bind]. rewrite E2.
    exists (ZZiplist zl2), l. split; [done|]. split; [by split; [|exists es2]|]. by eapply updated_map; [|apply Hl2|].
  - subst zs. cbn [mkz zset_dict]. rewrite Hlk.
    apply (add_choice (ZSkip (mkz (a ++ (ele, cur) :: b))) (a ++ (ele, cur) :: b) ele cur score opts (fun sc => zs ← zslUpdateScore (mkz (a ++ (ele, cur) :: b)) cur ele sc; mret (ZSkip (zset_dict_set zs ele sc))) Hr Hlk Hs En).
    intros sc Hsc. destruct (zslUpdateScore_ok a ele cur b sc Hl) as (l & -> & Hl2 & Hp); [by split|]. pose proof (updated_map l a ele cur sc b Hnd (nodes_nodup _ Hl2) Hp) as Em. cbn [mbind res_bind].
    exists (ZSkip (mkz l)), l. split; [|by split; [split|]]. unfold zset_dict_set, mkz. cbn [zsl_nodes zsl_length zset_dict]. by rewrite <- Em.
Qed.
Lemma add_absent o l0 ele score opts : zset_raw o l0 → ele ∉ l0.*1 → dbl_ok score → Z.of_nat (length ele) < 2 ^ 31 → zw ((ele, score) :: l0) < 2 ^ 32 →
  ∃ out new o' l, zadd o score ele opts = Ok (out, new, o') ∧ zset_raw o' l ∧ (out, new, list_to_map l) = zadd_spec (list_to_map l0) score ele opts.
Proof.
  intros Hr Hel Hs Hlen Hw. pose proof Hr as [Hl Ho]. unfold zsetAdd, zadd_spec. rewrite (not_elem_of_list_to_map_1 l0 ele Hel).
  destruct (dbl_isnan score) eqn:En; [by eexists _, _, o, l0|]. assert (node_ok (ele, score)) as Hn by (by split; [split|]).
  pose proof (nodes_insert l0 ele score Hl Hn Hel Hw) as Hl1. pose proof (insert_map l0 ele score Hl Hel) as Em. destruct o as [zl|zs|]; [| |done].
  - destruct Ho as (es & Hz). destruct (find_absent zl es l0 ele Hz (nodes_all _ Hl) (nodes_small _ Hl) Hel) as [_ ->]. cbn [mbind res_bind].
    destruct (ZADD_XX opts); [by eexists _, _, (ZZiplist zl), l0|]. destruct (zzlInsert_ok zl es l0 ele score Hn Hz (nodes_all _ Hl) Hel Hw) as (zl1 & es1 & -> & Hz1). cbn [mbind res_bind].
    destruct (raw_zlength (ZZiplist zl1) (zsl_insert_node score ele l0)) as (o2 & E2 & Hr2 & Hk); [by split; [|exists es1]|]. destruct (Hk zl1 eq_refl) as [zl2 ->]. cbn [zsetLength] in E2.
    destruct (zzlLength zl1) as [[n zl3]|] eqn:E3; [|done]. cbn in E2. injection E2 as -> ->. cbn [mbind res_bind]. destruct (_ || _).
    + rewrite (to_skiplist_convert zl2 _ Hr2) by (intros E; pose proof (insert_perm score ele l0) as Hp; rewrite E in Hp; by apply Permutation_nil_cons in Hp).
      eexists _, _, _, (zsl_insert_node score ele l0). split; [done|]. split; [by split|]. by rewrite Em.
    + eexists _, _, _, (zsl_insert_node score ele l0). split; [done|]. split; [done|]. by rewrite Em.
  - subst zs. cbn [mkz zset_dict]. rewrite (not_elem_of_list_to_map_1 l0 ele Hel). destruct (ZADD_XX opts); [by eexists _, _, (ZSkip (mkz l0)), l0|].
    destruct (zslInsert_mkz l0 ele score Hl Hn Hel) as [Ei Ed]. change (Zset l0 (Z.of_nat (length l0)) (list_to_map l0)) with (mkz l0). rewrite Ei. cbn [mbind res_bind]. rewrite Ed.
    cbn [serverAssert mbind res_bind]. eexists _, _, _, (zsl_insert_node score ele l0). split; [done|]. split; [by split|]. by rewrite Em.
Qed.
Lemma zsetAdd_ok o l0 ele score opts : zset_raw o l0 → dbl_ok score → Z.of_nat (length ele) < 2 ^ 31 → zw ((ele, score) :: l0) < 2 ^ 32 →
  ∃ out new o' l, zadd o score ele opts = Ok (out, new, o') ∧ zset_raw o' l ∧ (out, new, list_to_map l) = zadd_spec (list_to_map l0) score ele opts.
Proof.
  intros Hr Hs Hlen Hw. destruct (decide (ele ∈ l0.*1)) as [Hin|Hn]; [|by apply add_absent].
  destruct (split_node l0 ele Hin) as (a & cur & b & -> & _). by apply add_present.
Qed.
End add.

Lemma zsetDel_ok o l0 ele : zset_raw o l0 → ∃ o' l, zsetDel o ele = Ok (bool_decide (is_Some ((list_to_map l0 : gmap bytes Z) !! ele)), o') ∧ zset_raw o' l ∧
  (list_to_map l : gmap bytes Z) = delete ele (list_to_map l0).
Proof.
  intros Hr. pose proof Hr as [Hl Ho]. destruct (decide (ele ∈ l0.*1)) as [Hin|Hn].
  - destruct (split_node l0 ele Hin) as (a & cur & b & -> & Ha). pose proof (nodes_nodup _ Hl) as Hnd. destruct (nodes_delete _ _ _ Hl) as [Hl' Hel]. cbn in Hel.
    rewrite (node_map _ _ _ _ Hnd), lookup_insert_eq, bool_decide_true by done. rewrite delete_insert_id by (by apply not_elem_of_list_to_map_1).
    destruct o as [zl|zs|]; [| |done]; cbn [zsetDel].
    + destruct Ho as (es & Hz). destruct (find_present zl es a ele cur b Hz (nodes_all _ Hl) (nodes_small _ Hl) Ha) as [-> _]. cbn [mbind res_bind ptrs].
      destruct (zzlDelete_ok zl es a ele cur b Hz (nodes_all _ Hl) (nodes_small _ Hl)) as (zl1 & es1 & -> & Hz1). cbn [mbind res_bind]. exists (ZZiplist zl1), (a ++ b). split; [done|]. split; [|done]. split; [done|]. by exists es1.
    + subst zs. cbn [mkz zset_dict zsl_nodes zsl_length]. rewrite (node_map _ _ _ _ Hnd), lookup_insert_eq, delete_insert_id by (by apply not_elem_of_list_to_map_1).
      rewrite (zslDelete_ok a ele cur b _ Hl). cbn [mbind res_bind res_of_option]. exists (ZSkip (mkz (a ++ b))), (a ++ b). by split.
  - rewrite (not_elem_of_list_to_map_1 l0 ele Hn), bool_decide_false by (by intros []). rewrite delete_id by (by apply not_elem_of_list_to_map_1). exists o, l0. split; [|done].
    destruct o as [zl|zs|]; [| |done]; cbn [zsetDel].
    + destruct Ho as (es & Hz). destruct (find_absent zl es l0 ele Hz (nodes_all _ Hl) (nodes_small _ Hl) Hn) as [-> _]. done.
    + subst zs. cbn [mkz zset_dict]. by rewrite (not_elem_of_list_to_map_1 l0 ele Hn).
Qed.

(** ** Calls *)

Inductive zcall := ZAdd (score : Z) (ele : bytes) (opts : zadd_options) | ZDel (ele : bytes) | ZScore (ele : bytes) | ZLen.
Inductive zanswer := ZOutcome (out : zadd_outcome) (newscore : option Z) | ZDeleted (b : bool) | ZFound (score : option Z) | ZNum (n : Z).

Section calls.
Variables (zset_max_ziplist_entries zset_max_ziplist_value : Z).

Definition zexec (c : zcall) (o : zobj) : res (zanswer * zobj) :=
  match c with
  | ZAdd score ele opts =>
      '((out, new), o) ← zsetAdd F zset_max_ziplist_entries zset_max_ziplist_value o score ele opts; mret (ZOutcome out new, o)
  | ZDel ele => '(b, o) ← zsetDel o ele; mret (ZDeleted b, o)
  | ZScore ele => x ← zsetScore F o ele; mret (ZFound x, o)
  | ZLen => '(n, o) ← zsetLength o; mret (ZNum n, o)
  end.
Fixpoint zruns (cs : list zcall) (o : zobj) : res (list zanswer * zobj) :=
  match cs with
  | [] => mret ([], o)
  | c :: cs' => '(a, o) ← zexec c o; '(l, o) ← zruns cs' o; mret (a :: l, o)
  end.

(** The same on a finite map. *)
Definition zmap (c : zcall) (m : gmap bytes Z) : gmap bytes Z :=
  match c with ZAdd score ele opts => (zadd_spec m score ele opts).2 | ZDel ele => delete ele m | _ => m end.
Definition zanswer_of (c : zcall) (m : gmap bytes Z) : zanswer :=
  match c with
  | ZAdd score ele opts => let '(out, new, _) := zadd_spec m score ele opts in ZOutcome out new
  | ZDel ele => ZDeleted (bool_decide (is_Some (m !! ele)))
  | ZScore ele => ZFound (m !! ele)
  | ZLen => ZNum (Z.of_nat (size m))
  end.
Fixpoint zanswers (cs : list zcall) (m : gmap bytes Z) : list zanswer :=
  match cs with [] => [] | c :: cs' => zanswer_of c m :: zanswers cs' (zmap c m) end.
Definition zmaps (cs : list zcall) (m : gmap bytes Z) : gmap bytes Z := foldl (fun m c => zmap c m) m cs.

(** The arguments are doubles and strings, and all of them together are below 2^32 bytes. *)
Definition zcall_ok (c : zcall) : bool :=
  match c with ZAdd score ele _ => (0 <=? score) && (score <? 2 ^ 64) && (Z.of_nat (length ele) <? 2 ^ 31) | _ => true end.
Definition zcost (c : zcall) : Z := match c with ZAdd _ ele _ => 164 + Z.of_nat (length ele) | _ => 0 end.
Definition zcosts (cs : list zcall) : Z := foldr (fun c z => zcost c + z) 11 cs.

Lemma size_nodes l : NoDup l.*1 → size (list_to_map l : gmap bytes Z) = length l.
Proof. intros Hnd. rewrite <- length_map_to_list. apply Permutation_length. by apply map_to_list_to_map. Qed.
Lemma zw_map l l' : NoDup l.*1 → NoDup l'.*1 → (list_to_map l : gmap bytes Z) = list_to_map l' → zw l = zw l'.
Proof.
  intros Hl Hl' E. apply zw_perm. rewrite <- (map_to_list_to_map (M := gmap bytes) l Hl), <- (map_to_list_to_map (M := gmap bytes) l' Hl'). by rewrite E.
Qed.
(** The cost of the list for a map. *)
Lemma zw_add l l' ele score : NoDup l.*1 → NoDup l'.*1 → (list_to_map l' : gmap bytes Z) = <[ele := score]> (list_to_map l) → zw l' ≤ 164 + Z.of_nat (length ele) + zw l.
Proof.
  intros Hl Hl' E. destruct (decide (ele ∈ l.*1)) as [Hin|Hn].
  - destruct (split_node l ele Hin) as (a & cur & b & -> & _). rewrite (node_map _ _ _ _ Hl), insert_insert_eq in E.
    assert (NoDup (a ++ (ele, score) :: b).*1) as Hnd by (by rewrite fmap_app in *). rewrite <- (node_map _ _ _ _ Hnd) in E. rewrite (zw_map _ _ Hl' Hnd E), !zw_app, !zw_cons. cbn [fst]. lia.
  - assert (NoDup ((ele, score) :: l).*1) as Hnd by (cbn; by apply NoDup_cons). rewrite (zw_map l' ((ele, score) :: l) Hl' Hnd E), zw_cons. cbn [fst]. lia.
Qed.
Lemma zadd_spec_map m score ele opts : (zadd_spec m score ele opts).2 = m ∨ ∃ s, (zadd_spec m score ele opts).2 = <[ele := s]> m.
Proof. unfold zadd_spec. repeat case_match; eauto. Qed.

Lemma zexec_ok c o l n : zset_raw o l → zcall_ok c = true → zcost c + zw l ≤ n → n < 2 ^ 32 →
  ∃ o' l', zexec c o = Ok (zanswer_of c (list_to_map l), o') ∧ zset_raw o' l' ∧ (list_to_map l' : gmap bytes Z) = zmap c (list_to_map l) ∧ zw l' ≤ n.
Proof.
  intros Hr Hc Hn Hb. pose proof (nodes_nodup _ (proj1 Hr)) as Hnd. destruct c as [score ele opts|ele|ele|]; cbn [zexec zanswer_of zmap zcost] in *.
  - cbn [zcall_ok] in Hc. destruct (zsetAdd_ok zset_max_ziplist_entries zset_max_ziplist_value o l ele score opts Hr) as (out & new & o' & l' & E & Hr' & Es); [unfold dbl_ok; lia|lia|rewrite zw_cons; cbn [fst]; lia|].
    rewrite E. cbn [mbind res_bind]. rewrite <- Es. exists o', l'. split; [done|]. split; [done|]. split; [done|]. pose proof (nodes_nodup _ (proj1 Hr')) as Hnd'.
    destruct (zadd_spec_map (list_to_map l) score ele opts) as [Em|[sc Em]]; rewrite <- Es in Em; cbn [snd] in Em.
    + rewrite (zw_map l' l Hnd' Hnd Em). lia.
    + pose proof (zw_add l l' ele sc Hnd Hnd' Em). lia.
  - destruct (zsetDel_ok o l ele Hr) as (o' & l' & -> & Hr' & Em). cbn [mbind res_bind]. exists o', l'. split; [done|]. split; [done|]. split; [done|]. pose proof (nodes_nodup _ (proj1 Hr')) as Hnd'.
    destruct (decide (ele ∈ l.*1)) as [Hin|Hno]; [|rewrite delete_id in Em by (by apply not_elem_of_list_to_map_1); rewrite (zw_map l' l Hnd' Hnd Em); lia].
    destruct (split_node l ele Hin) as (a & cur & b & -> & _). destruct (nodes_delete _ _ _ (proj1 Hr)) as [Hl2 Hel]. cbn in Hel.
    rewrite (node_map _ _ _ _ Hnd), delete_insert_id in Em by (by apply not_elem_of_list_to_map_1). rewrite (zw_map l' _ Hnd' (nodes_nodup _ Hl2) Em). rewrite zw_app, zw_cons in Hn. rewrite zw_app. lia.
  - rewrite (raw_zscore o l ele Hr). cbn. exists o, l. split; [done|]. split; [done|]. split; [done|lia].
  - destruct (raw_zlength o l Hr) as (o' & -> & Hr' & _). cbn. exists o', l. rewrite size_nodes by done. split; [done|]. split; [done|]. split; [done|lia].
Qed.

(** C22: a sorted set is a map.  Whatever elements are added, incremented, removed and asked for in a
    new sorted set, in either encoding, no call fails an assertion, the answers are those of
    a finite map from elements to scores, wherever in the sequence a ziplist is converted to a
    skip list, and the object keeps the pairs of the map in the order of scores and elements. *)
Theorem zset_refines cs o :
  forallb zcall_ok cs = true → zcosts cs < 2 ^ 32 →
  o = ZSkip (Zset [] 0 ∅) ∨ (zl ← ziplistNew; mret (ZZiplist zl)) = Ok o →
  ∃ o' l, zruns cs o = Ok (zanswers cs ∅, o') ∧ zset_raw o' l ∧ (list_to_map l : gmap bytes Z) = zmaps cs ∅ ∧ StronglySorted zsl_lt l.
Proof.
  intros Hc Hb Ho. assert (zset_raw o []) as Hr.
  { split; [by split; [constructor|constructor|constructor|]|]. destruct Ho as [->|Ho]; [done|]. destruct ziplist_new_ok as (zl & E & Hz). rewrite E in Ho. cbn in Ho. injection Ho as <-. by exists []. }
  assert (∀ cs o l, zset_raw o l → forallb zcall_ok cs = true → zcosts cs + zw l - 11 < 2 ^ 32 →
    ∃ o' l', zruns cs o = Ok (zanswers cs (list_to_map l), o') ∧ zset_raw o' l' ∧ (list_to_map l' : gmap bytes Z) = zmaps cs (list_to_map l)) as Hrun.
  { clear - FL. induction cs as [|c cs IH]; intros o l Hr Hc Hb; [by exists o, l|]. cbn [forallb zcosts foldr] in *. fold (zcosts cs) in Hb. apply andb_true_iff in Hc as [Hc Hcs].
    assert (11 ≤ zcosts cs) by (clear; unfold zcosts; induction cs as [|[] ? IH]; cbn [foldr zcost]; lia).
    destruct (zexec_ok c o l (zcost c + zw l) Hr Hc) as (o1 & l1 & E1 & Hr1 & Em1 & Hw1); [lia|lia|]. destruct (IH o1 l1 Hr1 Hcs) as (o2 & l2 & E2 & Hr2 & Em2); [lia|].
    cbn [zruns zanswers]. rewrite E1. cbn [mbind res_bind]. rewrite E2. cbn [mbind res_bind]. exists o2, l2. rewrite Em1 in *. done. }
  destruct (Hrun cs o [] Hr Hc) as (o' & l & E & Hr' & Em); [change (zw []) with 11; lia|]. exists o', l. split; [done|]. split; [done|]. split; [done|]. apply Hr'.
Qed.
End calls.
End laws.

(** Doubles that are written as "d" and an integer, and numbers that are integers. *)
Definition ex_float : float_ops := {|
  snprintf_g17 b := x64 :: sdsll2str (b - 2 ^ 63);
  strtod s :=
    match s with
    | x64 :: t => default 0 (string2ll t) + 2 ^ 63
    | _ =>
        if bool_decide (s = String.list_byte_of_string "inf") then 0x7ff0000000000000
        else if bool_decide (s = String.list_byte_of_string "-inf") then 0xfff0000000000000
        else if bool_decide (s = String.list_byte_of_string "-0") then 2 ^ 63
        else default 0 (dbl_of_ll <$> string2ll s)
    end;
  dbl_add a b := (a + b) mod 2 ^ 64
|}.
Lemma sdsll2str_not v s : is_ll v → string2ll s = None → sdsll2str v ≠ s.
Proof. intros Hv E <-. by rewrite string2ll_complete in E. Qed.
Lemma ex_float_laws : FloatLaws ex_float.
Proof.
  split; cbn [snprintf_g17 strtod dbl_add ex_float].
  - intros b Hb _ _ _. rewrite string2ll_complete by (unfold dbl_ok, is_ll, LLONG_MIN, LLONG_MAX in *; lia). cbn. lia.
  - intros v Hv. destruct (sdsll2str v) as [|c t] eqn:E; [pose proof (sdsll2str_not v [] Hv eq_refl); done|].
    assert (c ≠ x64) as Hc by (intros ->; pose proof (string2ll_complete v Hv) as H; rewrite E in H; by destruct t).
    rewrite <- E, !bool_decide_false by (apply sdsll2str_not; [done|reflexivity]). rewrite (string2ll_complete v Hv). by destruct c.
  - done.
  - done.
  - done.
  - intros b Hb. assert (is_ll (b - 2 ^ 63)) as Hl by (unfold dbl_ok, is_ll, LLONG_MIN, LLONG_MAX in *; lia). pose proof (sdsll2str_length _ Hl). pose proof (sdigits10_max _ Hl). cbn [length]. lia.
  - intros a b. unfold dbl_ok. apply Z.mod_pos_bound. lia.
Qed.

(** Two elements with the scores 3 and 1, of which the second gets 3, too; and a third that is one too
    many for a ziplist. *)
Definition w_zcalls : list zcall :=
  let s := String.list_byte_of_string in
  let set := ZaddOptions false false false in
  [ZAdd (dbl_of_ll 3) (s "b") set; ZAdd (dbl_of_ll 1) (s "a") set; ZScore (s "a"); ZAdd (dbl_of_ll 3) (s "a") set; ZAdd (dbl_of_ll 3) (s "a") set;
   ZAdd (dbl_of_ll 2) (s "c") (ZaddOptions false true false); ZDel (s "x"); ZLen].
Lemma zset_refines_witness : ∃ o l, (zl ← ziplistNew; zruns (F := ex_float) 2 64 w_zcalls (ZZiplist zl)) = Ok (zanswers (F := ex_float) w_zcalls ∅, ZSkip o) ∧
  zanswers (F := ex_float) w_zcalls ∅ !! 3%nat = Some (ZOutcome ZADD_UPDATED None) ∧ zsl_nodes o = l ∧ StronglySorted zsl_lt l ∧ length l = 3%nat.
Proof.
  destruct (zset_refines (F := ex_float) ex_float_laws 2 64 w_zcalls (ZZiplist (match ziplistNew with Ok zl => zl | _ => [] end))) as (o & l & E & Hr & _ & Hs);
    [vm_compute; reflexivity|vm_compute; reflexivity|right; vm_compute; reflexivity|].
  assert (match zruns (F := ex_float) 2 64 w_zcalls (ZZiplist (match ziplistNew with Ok zl => zl | _ => [] end)) with Ok (_, ZSkip z) => (length (zsl_nodes z) =? 3)%nat | _ => false end = true) as Hc by (vm_compute; reflexivity).
  rewrite E in Hc. destruct o as [|z|]; [discriminate Hc| |discriminate Hc]. exists z, l. destruct Hr as [_ Hz]. split; [exact E|]. split; [vm_compute; reflexivity|]. rewrite Hz in Hc |- *.
  split; [reflexivity|]. split; [exact Hs|]. apply Nat.eqb_eq. exact Hc.
Defined.
