(* ===== verification/Pool.v ===== *)
(** * The candidate pool (src/src/rock_hotkey.c, src/src/evict.c)

    Sixteen slots hold the best candidates seen so far, in ascending order of
    their score, the free slots at the end.  Each slot owns a preallocated
    string buffer ([cached]) that short keys are copied into; [memmove] shifts
    slots together with their buffers, and the buffer of the slot that falls
    out is reused.  [pool_insert] is the body the two populate functions share,
    [pool_pick] the backward scan that takes the best candidate out. *)

From S2P Require Import Prelude.
From stdpp Require Import list gmap sorting.
#[local] Open Scope Z_scope.

Definition RKPOOL_SIZE : nat := 16.
Definition RKPOOL_CACHED_SDS_SIZE : Z := 255.

(** Where [pool[k].key] points: one of the preallocated buffers, or a string
    of its own made by [sdsdup]. *)
Inductive kptr := KBuf (id : nat) | KSds (s : bytes).

Record rockPoolEntry := PoolEntry {
  pe_idle : Z;
  pe_key : option kptr;          (* NULL is None *)
  pe_cached : nat;               (* the slot's buffer *)
  pe_dbid : nat
}.

(** The slots and the contents of the preallocated buffers. *)
Record pool := Pool { slots : list rockPoolEntry; bufs : gmap nat bytes }.

Definition rockPoolAlloc : pool :=
  Pool ((fun j => PoolEntry 0 None j 0) <$> seq 0 RKPOOL_SIZE) ∅.

(** [memmove(l+dst, l+src, n)] on an array. *)
Definition memmove {A} (dst src n : nat) (l : list A) : list A :=
  take dst l ++ take n (drop src l) ++ drop (dst + n) l.

Definition set_cached (c : nat) (e : rockPoolEntry) : rockPoolEntry :=
  PoolEntry (pe_idle e) (pe_key e) c (pe_dbid e).

(** [while (k < SIZE && pool[k].key && pool[k].idle < idle) k++] *)
Fixpoint pool_find (idle : Z) (l : list rockPoolEntry) : nat :=
  match l with
  | [] => 0
  | e :: l' =>
      match pe_key e with
      | None => 0
      | Some _ => if pe_idle e <? idle then S (pool_find idle l') else 0
      end
  end.

Definition slot_null (l : list rockPoolEntry) (k : nat) : bool :=
  match l !! k with
  | Some e => bool_decide (pe_key e = None)
  | None => true
  end.
Definition slot_cached (l : list rockPoolEntry) (k : nat) : nat :=
  match l !! k with Some e => pe_cached e | None => 0%nat end.

(** Store the candidate in slot [k], in its buffer when it fits. *)
Definition pool_store (idle : Z) (key : bytes) (dbid : nat) (k : nat) (p : pool) : pool :=
  let c := slot_cached (slots p) k in
  if RKPOOL_CACHED_SDS_SIZE <? Z.of_nat (length key)
  then Pool (<[k := PoolEntry idle (Some (KSds key)) c dbid]> (slots p)) (bufs p)
  else Pool (<[k := PoolEntry idle (Some (KBuf c)) c dbid]> (slots p)) (<[c := key]> (bufs p)).

Definition pool_insert (idle : Z) (key : bytes) (dbid : nat) (p : pool) : pool :=
  let l := slots p in
  let last := (RKPOOL_SIZE - 1)%nat in
  let k := pool_find idle l in
  if (k =? 0)%nat && negb (slot_null l last) then p
  else if (k <? RKPOOL_SIZE)%nat && slot_null l k then pool_store idle key dbid k p
  else if slot_null l last then
    (* free space on the right: shift right from k *)
    let cached := slot_cached l last in
    let l := memmove (k + 1) k (RKPOOL_SIZE - k - 1) l in
    let l := alter (set_cached cached) k l in
    pool_store idle key dbid k (Pool l (bufs p))
  else
    (* full: insert at k-1, discard the first slot *)
    let k := (k - 1)%nat in
    let cached := slot_cached l 0 in
    let l := memmove 0 1 k l in
    let l := alter (set_cached cached) k l in
    pool_store idle key dbid k (Pool l (bufs p)).

(** What a populated slot says. *)
Definition key_at (b : gmap nat bytes) (p : kptr) : bytes :=
  match p with KBuf id => default [] (b !! id) | KSds s => s end.

(** [for (k = SIZE-1; k >= 0; k--)]: take candidates out from the best one
    down until one still exists in its dictionary. *)
Fixpoint pool_pick_from (exists_key : nat → bytes → bool) (n : nat) (p : pool)
  : option (nat * bytes) * pool :=
  match n with
  | O => (None, p)
  | S k =>
      match slots p !! k with
      | None => pool_pick_from exists_key k p
      | Some e =>
          match pe_key e with
          | None => pool_pick_from exists_key k p
          | Some q =>
              let key := key_at (bufs p) q in
              let p' := Pool (<[k := PoolEntry 0 None (pe_cached e) (pe_dbid e)]> (slots p))
                          (bufs p) in
              if exists_key (pe_dbid e) key then (Some (pe_dbid e, key), p')
              else pool_pick_from exists_key k p'
          end
      end
  end.
Definition pool_pick (exists_key : nat → bytes → bool) (p : pool) :=
  pool_pick_from exists_key RKPOOL_SIZE p.

(** ** What the pool represents: the candidates in ascending order *)

Definition candidate : Type := Z * (nat * bytes).    (* score, (db, key) *)

Definition view_entry (b : gmap nat bytes) (e : rockPoolEntry) : option candidate :=
  (fun q => (pe_idle e, (pe_dbid e, key_at b q))) <$> pe_key e.
Definition pool_view (p : pool) : list candidate := omap (view_entry (bufs p)) (slots p).

(** Reference: sorted insertion, dropping the worst when there are too many. *)
Fixpoint cand_insert (x : candidate) (v : list candidate) : list candidate :=
  match v with
  | [] => [x]
  | y :: v' => if y.1 <? x.1 then y :: cand_insert x v' else x :: v
  end.
Definition keep_best (v : list candidate) : list candidate :=
  if (length v <=? RKPOOL_SIZE)%nat then v else tail v.

(** Reference for the backward scan: from the best candidate on, skip the ones
    whose key is gone. *)
Fixpoint pick_best (exists_key : nat → bytes → bool) (best_first : list candidate)
  : option (nat * bytes) * list candidate :=
  match best_first with
  | [] => (None, [])
  | x :: r => if exists_key x.2.1 x.2.2 then (Some x.2, r) else pick_best exists_key r
  end.

Definition own_buffer (e : rockPoolEntry) : Prop :=
  ∀ id, pe_key e = Some (KBuf id) → id = pe_cached e.
Definition populated (e : rockPoolEntry) : Prop := is_Some (pe_key e).
Definition vacant (e : rockPoolEntry) : Prop := pe_key e = None.

Record pool_ok (p : pool) : Prop := {
  pool_size : length (slots p) = RKPOOL_SIZE;
  pool_shape : ∃ P N, slots p = P ++ N ∧ Forall populated P ∧ Forall vacant N;
  pool_sorted : Sorted (fun a b : candidate => a.1 ≤ b.1) (pool_view p);
  pool_buffers : NoDup (pe_cached <$> slots p);
  pool_own : Forall own_buffer (slots p)
}.

(** ** Shifting slots *)

Lemma memmove_right {A} (P : list A) q l z :
  memmove (length P + 1) (length P) (length (q :: l)) (P ++ (q :: l) ++ [z])
  = P ++ q :: q :: l.
Proof.
  unfold memmove.
  rewrite (drop_app_length P), (take_app_length (q :: l)).
  rewrite drop_ge by (rewrite !length_app; simpl; lia).
  change ((q :: l) ++ [z]) with ([q] ++ (l ++ [z])).
  rewrite (assoc_L (++) P), take_app_length' by (rewrite length_app; simpl; lia).
  by rewrite app_nil_r, <- (assoc_L (++)).
Qed.

Lemma memmove_left {A} (f : A) (l B : list A) (e : A) :
  last (f :: l) = Some e →
  memmove 0 1 (length l) (f :: l ++ B) = l ++ e :: B.
Proof.
  intros (l' & Hl)%last_Some. unfold memmove. rewrite take_0, app_nil_l, Nat.add_0_l.
  change (drop 1 (f :: l ++ B)) with (drop 0 (l ++ B)). rewrite drop_0.
  rewrite take_app_length. f_equal.
  change (f :: l ++ B) with ((f :: l) ++ B). rewrite Hl.
  rewrite <- (assoc_L (++)), drop_app_length'; [done|].
  apply (f_equal length) in Hl. rewrite length_app in Hl. simpl in Hl. lia.
Qed.

Lemma slot_at A e B : (A ++ e :: B : list rockPoolEntry) !! length A = Some e.
Proof. by rewrite lookup_app_r, Nat.sub_diag by lia. Qed.

Lemma alter_at f A e B :
  alter f (length A) (A ++ e :: B : list rockPoolEntry) = A ++ f e :: B.
Proof. induction A; simpl; [done|by f_equal]. Qed.

(** The insertion point: everything before it is a worse candidate. *)
Lemma pool_find_spec idle P N :
  Forall populated P → Forall vacant N →
  ∃ P1 P2, P = P1 ++ P2 ∧ pool_find idle (P ++ N) = length P1 ∧
    Forall (fun e => pe_idle e < idle) P1 ∧
    (∀ e P3, P2 = e :: P3 → idle ≤ pe_idle e).
Proof.
  intros HP HN. induction HP as [|e P [q Hq] HP IH]; simpl.
  - exists [], []. destruct N as [|e N]; [by naive_solver|].
    apply Forall_cons in HN as [Hv _]. simpl. rewrite Hv. naive_solver.
  - rewrite Hq. destruct (Z.ltb_spec (pe_idle e) idle) as [Hlt|Hge].
    + destruct IH as (P1 & P2 & -> & -> & HF & HP2).
      exists (e :: P1), P2. repeat split; eauto.
    + exists [], (e :: P). naive_solver.
Qed.

Lemma slot_null_at A e B : slot_null (A ++ e :: B) (length A) = bool_decide (pe_key e = None).
Proof. unfold slot_null. by rewrite slot_at. Qed.
Lemma slot_cached_at A e B : slot_cached (A ++ e :: B) (length A) = pe_cached e.
Proof. unfold slot_cached. by rewrite slot_at. Qed.

(** ** Views of slots *)

(** Writing one buffer leaves the slots that own other buffers as they were. *)
Lemma view_other_buffer b c key l :
  Forall own_buffer l → c ∉ pe_cached <$> l →
  omap (view_entry (<[c := key]> b)) l = omap (view_entry b) l.
Proof.
  induction 1 as [|e l Ho Hl IH]; intros Hc; [done|].
  rewrite fmap_cons, not_elem_of_cons in Hc. destruct Hc as [Hne Hc].
  assert (view_entry (<[c:=key]> b) e = view_entry b e) as Hv.
  { unfold view_entry. destruct (pe_key e) as [[id|s]|] eqn:Hk; simpl; try done.
    rewrite (Ho id Hk). by rewrite lookup_insert_ne. }
  csimpl. rewrite Hv. destruct (view_entry b e); by rewrite IH.
Qed.

Record stored (idle : Z) (key : bytes) (dbid c : nat) (A B : list rockPoolEntry)
    (b : gmap nat bytes) (p : pool) : Prop := {
  st_slots : ∃ e, slots p = A ++ e :: B ∧ pe_cached e = c ∧ own_buffer e ∧ populated e;
  st_view : pool_view p = omap (view_entry b) A ++ (idle, (dbid, key)) :: omap (view_entry b) B
}.

Lemma pool_store_stored idle key dbid A e B b :
  NoDup (pe_cached <$> A ++ e :: B) → Forall own_buffer (A ++ B) →
  stored idle key dbid (pe_cached e) A B b
    (pool_store idle key dbid (length A) (Pool (A ++ e :: B) b)).
Proof.
  intros Hnd Ho. apply Forall_app in Ho as [HA HB].
  rewrite fmap_app, fmap_cons in Hnd. apply NoDup_app in Hnd as (_ & HdA & HB').
  apply NoDup_cons in HB' as [HcB _].
  assert (pe_cached e ∉ pe_cached <$> A) as HcA.
  { intros Hin. apply (HdA _ Hin). apply list_elem_of_here. }
  assert (∀ e', <[length A := e']> (A ++ e :: B) = A ++ e' :: B) as Hins.
  { intros e'. rewrite insert_app_r_alt by lia. by rewrite Nat.sub_diag. }
  unfold pool_store. simpl. rewrite slot_cached_at.
  destruct (_ <? _) eqn:Hlen; split; csimpl; rewrite ?Hins.
  - eexists. split; [done|]. simpl. split; [done|]. split; [by intros ?|by eexists].
  - unfold pool_view. csimpl. rewrite ?Hins, omap_app. done.
  - eexists. split; [done|]. simpl. split; [done|]. split; [by intros ? [= ->]|by eexists].
  - unfold pool_view. csimpl. rewrite ?Hins, omap_app. csimpl.
    rewrite lookup_insert_eq. simpl. by rewrite !view_other_buffer.
Qed.

Lemma omap_vacant b N : Forall vacant N → omap (view_entry b) N = [].
Proof.
  induction 1 as [|e N He HN IH]; simpl; [done|].
  unfold view_entry at 1. by rewrite He.
Qed.

Lemma omap_populated_length b P :
  Forall populated P → length (omap (view_entry b) P) = length P.
Proof.
  induction 1 as [|e N [q He] HN IH]; csimpl; [done|].
  unfold view_entry at 1. rewrite He. csimpl. by rewrite IH.
Qed.

(** The split of the slots at the insertion point is the split of the view. *)
Lemma cand_insert_view x b P1 P2 :
  Forall populated P1 → Forall populated P2 →
  Forall (fun e => pe_idle e < x.1) P1 →
  (∀ e P3, P2 = e :: P3 → x.1 ≤ pe_idle e) →
  cand_insert x (omap (view_entry b) P1 ++ omap (view_entry b) P2)
  = omap (view_entry b) P1 ++ x :: omap (view_entry b) P2.
Proof.
  intros HP1 HP2 Hlt Hge. induction HP1 as [|e P1 [q He] HP1 IH]; csimpl.
  - destruct HP2 as [|e P2 [q He] HP2]; csimpl; [done|].
    assert (view_entry b e = Some (pe_idle e, (pe_dbid e, key_at b q))) as ->
      by (unfold view_entry; by rewrite He). csimpl.
    destruct (Z.ltb_spec (pe_idle e) x.1); [|done].
    specialize (Hge e P2 eq_refl). lia.
  - apply Forall_cons in Hlt as [Hlt1 Hlt].
    assert (view_entry b e = Some (pe_idle e, (pe_dbid e, key_at b q))) as ->
      by (unfold view_entry; by rewrite He). csimpl.
    rewrite (proj2 (Z.ltb_lt _ _) Hlt1). f_equal. by apply IH.
Qed.

Lemma pool_view_split b P N :
  Forall vacant N → omap (view_entry b) (P ++ N) = omap (view_entry b) P.
Proof. intros HN. by rewrite omap_app, (omap_vacant b N HN), app_nil_r. Qed.

(** What one insertion does to the slots: nothing, or a [stored] entry put
    between two parts of the old slots. *)
Inductive insert_result (x : candidate) (p : pool) : pool → Prop :=
| ir_worse P1 :
    Forall populated P1 → length P1 = RKPOOL_SIZE → slots p = P1 →
    (∀ e P3, P1 = e :: P3 → x.1 ≤ pe_idle e) →
    insert_result x p p
| ir_append P1 z N p' :
    slots p = P1 ++ z :: N → Forall populated P1 → vacant z → Forall vacant N →
    Forall (fun e => pe_idle e < x.1) P1 →
    stored x.1 x.2.2 x.2.1 (pe_cached z) P1 N (bufs p) p' →
    insert_result x p p'
| ir_middle P1 q P2 N z p' :
    slots p = P1 ++ (q :: P2 ++ N) ++ [z] → Forall populated (P1 ++ q :: P2) →
    Forall vacant (N ++ [z]) →
    Forall (fun e => pe_idle e < x.1) P1 → x.1 ≤ pe_idle q →
    stored x.1 x.2.2 x.2.1 (pe_cached z) P1 (q :: P2 ++ N) (bufs p) p' →
    insert_result x p p'
| ir_discard f P1 P2 p' :
    slots p = f :: P1 ++ P2 → Forall populated (slots p) →
    Forall (fun e => pe_idle e < x.1) (f :: P1) →
    (∀ e P3, P2 = e :: P3 → x.1 ≤ pe_idle e) →
    stored x.1 x.2.2 x.2.1 (pe_cached f) P1 P2 (bufs p) p' →
    insert_result x p p'.

Lemma pool_insert_full idle key dbid p f P1 P2 :
  pool_ok p → slots p = f :: P1 ++ P2 → Forall populated (slots p) →
  pool_find idle (slots p) = S (length P1) →
  stored idle key dbid (pe_cached f) P1 P2 (bufs p) (pool_insert idle key dbid p).
Proof.
  intros [Hsz _ _ Hnd Hown] Hs HP Hk. unfold pool_insert. rewrite Hk. cbn [Nat.eqb andb].
  assert (∀ k, (k < RKPOOL_SIZE)%nat → slot_null (slots p) k = false) as Hnn.
  { intros k Hlt. unfold slot_null. rewrite <- Hsz in Hlt.
    destruct (lookup_lt_is_Some_2 _ _ Hlt) as [e He]. rewrite He.
    destruct (proj1 (Forall_lookup _ _) HP _ _ He) as [q Hq].
    by rewrite Hq, bool_decide_eq_false_2. }
  rewrite (Hnn (RKPOOL_SIZE - 1)%nat) by (unfold RKPOOL_SIZE; lia).
  replace ((S (length P1) <? RKPOOL_SIZE)%nat && slot_null (slots p) (S (length P1)))
    with false.
  2:{ destruct (Nat.ltb_spec (S (length P1)) RKPOOL_SIZE); [|done]. by rewrite Hnn. }
  rewrite Nat.sub_succ, Nat.sub_0_r.
  destruct (last (f :: P1)) as [e|] eqn:Hl; [|by apply last_None in Hl].
  rewrite Hs, (memmove_left _ _ _ e Hl), alter_at.
  change (slot_cached (f :: P1 ++ P2) 0) with (pe_cached f).
  rewrite Hs in Hnd, Hown.
  apply (pool_store_stored idle key dbid P1 (set_cached (pe_cached f) e)).
  - rewrite fmap_app, fmap_cons. simpl. rewrite <- Permutation_middle.
    rewrite <- fmap_app. exact Hnd.
  - by apply Forall_cons in Hown as [_ ?].
Qed.

Lemma pool_insert_middle idle key dbid p P1 q P2 N z :
  pool_ok p → slots p = P1 ++ (q :: P2 ++ N) ++ [z] → Forall populated (P1 ++ q :: P2) →
  vacant z → pool_find idle (slots p) = length P1 →
  stored idle key dbid (pe_cached z) P1 (q :: P2 ++ N) (bufs p) (pool_insert idle key dbid p).
Proof.
  intros [Hsz _ _ Hnd Hown] Hs HP Hz Hk. unfold pool_insert. rewrite Hk.
  assert (RKPOOL_SIZE - 1 = length (P1 ++ q :: P2 ++ N))%nat as Hlast.
  { rewrite <- Hsz, Hs. rewrite (assoc_L (++)), (length_app _ [z]). simpl. lia. }
  assert (slots p = (P1 ++ q :: P2 ++ N) ++ z :: []) as Hs'.
  { rewrite Hs. by rewrite (assoc_L (++)). }
  assert (slot_null (slots p) (RKPOOL_SIZE - 1) = true) as Hzn.
  { rewrite Hlast, Hs', slot_null_at. by apply bool_decide_eq_true_2. }
  assert (slot_null (slots p) (length P1) = false) as Hqn.
  { rewrite Hs. simpl. rewrite slot_null_at. apply Forall_app in HP as [_ HP].
    apply Forall_cons in HP as [[? Hq] _]. by rewrite Hq, bool_decide_eq_false_2. }
  rewrite Hzn, Hqn, !andb_false_r.
  assert (slot_cached (slots p) (RKPOOL_SIZE - 1) = pe_cached z) as ->.
  { by rewrite Hlast, Hs', slot_cached_at. }
  assert (RKPOOL_SIZE - length P1 - 1 = length (q :: P2 ++ N))%nat as ->.
  { rewrite length_app in Hlast. lia. }
  rewrite Hs at 1. rewrite memmove_right, alter_at.
  apply (pool_store_stored idle key dbid P1 (set_cached (pe_cached z) q)).
  - rewrite Hs' in Hnd.
    assert (pe_cached <$> P1 ++ set_cached (pe_cached z) q :: q :: P2 ++ N
      ≡ₚ pe_cached <$> (P1 ++ q :: P2 ++ N) ++ [z]) as ->; [|done].
    rewrite <- Permutation_middle, <- Permutation_cons_append. done.
  - rewrite Hs' in Hown. by apply Forall_app in Hown as [? _].
Qed.

Lemma pool_insert_result (x : candidate) p :
  pool_ok p → insert_result x p (pool_insert x.1 x.2.2 x.2.1 p).
Proof.
  intros Hok. destruct (pool_shape p Hok) as (P & N & Hs & HP & HN).
  destruct (pool_find_spec x.1 P N HP HN) as (P1 & P2 & -> & Hk & Hlt & Hge).
  rewrite <- Hs in Hk. pose proof (pool_size p Hok) as Hsz.
  pose proof HP as HP'. apply Forall_app in HP' as [HP1 HP2].
  destruct P2 as [|q P2].
  { rewrite app_nil_r in *. destruct N as [|z N].
    - (* full of worse candidates *)
      rewrite app_nil_r in Hs. destruct P1 as [|f P1].
      { rewrite Hs in Hsz. by inversion Hsz. }
      apply (ir_discard x p f P1 []); rewrite ?app_nil_r; try done; [by rewrite Hs|].
      apply pool_insert_full; rewrite ?app_nil_r; try done. by rewrite Hs.
    - (* a free slot at the insertion point *)
      apply Forall_cons in HN as [Hz HN].
      apply (ir_append x p P1 z N); try done.
      unfold pool_insert. rewrite Hk.
      assert (length P1 < RKPOOL_SIZE)%nat as Hl.
      { rewrite <- Hsz, Hs, length_app. simpl. lia. }
      rewrite (proj2 (Nat.ltb_lt _ _) Hl), Hs, slot_null_at, bool_decide_eq_true_2 by done.
      assert ((length P1 =? 0)%nat && negb (slot_null (P1 ++ z :: N) (RKPOOL_SIZE - 1))
              = false) as ->.
      { destruct P1; [|done]. simpl in *. apply negb_false_iff. unfold slot_null.
        destruct (_ !! _) as [e|] eqn:He; [|done]. apply bool_decide_eq_true_2.
        by apply (proj1 (Forall_lookup _ _) (Forall_cons_2 _ _ _ Hz HN) _ _ He). }
      destruct p as [l b]. simpl in *. subst l.
      apply pool_store_stored; [apply (pool_buffers _ Hok)|].
      pose proof (pool_own _ Hok) as Ho. simpl in Ho.
      apply Forall_app in Ho as [? [_ ?]%Forall_cons]. by apply Forall_app. }
  specialize (Hge q P2 eq_refl).
  destruct N as [|z N _] using rev_ind.
  - rewrite app_nil_r in Hs. destruct P1 as [|f P1].
    + (* worse than every slot of a full pool *)
      assert (pool_insert x.1 x.2.2 x.2.1 p = p) as ->.
      { unfold pool_insert. rewrite Hk. simpl.
        destruct (slot_null _ _) eqn:Hn; [|done]. exfalso. revert Hn. unfold slot_null.
        destruct (lookup_lt_is_Some_2 (slots p) 15) as [e He];
          [rewrite Hsz; unfold RKPOOL_SIZE; lia|]. simpl. rewrite He.
        rewrite Hs in He. destruct (proj1 (Forall_lookup _ _) HP _ _ He) as [c Hc].
        by rewrite Hc, bool_decide_eq_false_2. }
      apply (ir_worse x p (q :: P2)); try done; [by rewrite Hs in Hsz|by intros ? ? [= -> ->]].
    + apply (ir_discard x p f P1 (q :: P2)); try done;
        [by rewrite Hs|by intros ? ? [= -> ->]|].
      apply pool_insert_full; try done. by rewrite Hs.
  - assert (slots p = P1 ++ (q :: P2 ++ N) ++ [z]) as Hs'.
    { rewrite Hs. simpl. by rewrite <- !(assoc_L (++)). }
    apply (ir_middle x p P1 q P2 N z); try done.
    apply pool_insert_middle; try done. by apply Forall_app in HN as [_ [? _]%Forall_cons].
Qed.

Lemma cand_insert_sorted (x : candidate) v :
  Sorted (fun a b : candidate => a.1 ≤ b.1) v →
  Sorted (fun a b : candidate => a.1 ≤ b.1) (cand_insert x v).
Proof.
  induction 1 as [|y v Hs IH Hhd]; simpl; [by repeat constructor|].
  destruct (Z.ltb_spec y.1 x.1).
  - constructor; [done|]. destruct Hhd as [|z v]; simpl; [constructor; lia|].
    destruct (z.1 <? x.1); constructor; lia.
  - constructor; [by constructor|]. by constructor.
Qed.

Lemma keep_best_sorted v :
  Sorted (fun a b : candidate => a.1 ≤ b.1) v →
  Sorted (fun a b : candidate => a.1 ≤ b.1) (keep_best v).
Proof. intros Hs. unfold keep_best. case_match; [done|]. by destruct Hs. Qed.

Lemma keep_best_short v : (length v ≤ RKPOOL_SIZE)%nat → keep_best v = v.
Proof. intros H. unfold keep_best. by rewrite (proj2 (Nat.leb_le _ _) H). Qed.
Lemma keep_best_long v : (RKPOOL_SIZE < length v)%nat → keep_best v = tail v.
Proof. intros H. unfold keep_best. by rewrite (proj2 (Nat.leb_gt _ _) H). Qed.

Lemma length_cand_insert x v : length (cand_insert x v) = S (length v).
Proof. induction v as [|y v IH]; simpl; [done|]. case_match; simpl; by rewrite ?IH. Qed.

Lemma pool_view_length p P N :
  slots p = P ++ N → Forall populated P → Forall vacant N →
  length (pool_view p) = length P.
Proof.
  intros Hs HP HN. unfold pool_view.
  by rewrite Hs, pool_view_split, omap_populated_length.
Qed.

Lemma pool_insert_view x p :
  pool_ok p → pool_view (pool_insert x.1 x.2.2 x.2.1 p) = keep_best (cand_insert x (pool_view p)).
Proof.
  intros Hok. pose proof (pool_size p Hok) as Hsz.
  destruct (pool_insert_result x p Hok)
    as [P HP Hlen Hs Hge|P z N p' Hs HP Hz HN Hlt [_ Hv]
       |P1 q P2 N z p' Hs HP HN Hlt Hge [_ Hv]|f P1 P2 p' Hs HP Hlt Hge [_ Hv]].
  - rewrite keep_best_long.
    2:{ rewrite length_cand_insert, (pool_view_length p P []); [lia| |done|done].
        by rewrite app_nil_r. }
    unfold pool_view. rewrite Hs.
    pose proof (cand_insert_view x (bufs p) [] P) as Hc. csimpl in Hc. by rewrite Hc.
  - rewrite Hv, keep_best_short.
    2:{ rewrite length_cand_insert, (pool_view_length p P (z :: N)); [|done|done|by constructor].
        rewrite <- Hsz, Hs, length_app. simpl. lia. }
    unfold pool_view. rewrite Hs, pool_view_split, (omap_vacant _ N) by (try constructor; done).
    pose proof (cand_insert_view x (bufs p) P []) as Hc. csimpl in Hc.
    rewrite app_nil_r in Hc. rewrite Hc; try done. by destruct x as [? []].
  - assert (slots p = (P1 ++ q :: P2) ++ (N ++ [z])) as Hs'
      by (rewrite Hs; simpl; by rewrite <- !(assoc_L (++))).
    rewrite Hv, keep_best_short.
    2:{ rewrite length_cand_insert, (pool_view_length _ _ _ Hs' HP HN).
        rewrite <- Hsz, Hs', !length_app. simpl. lia. }
    unfold pool_view. rewrite Hs', pool_view_split by done.
    apply Forall_app in HP as [HP1 HP2]. apply Forall_app in HN as [HN _].
    rewrite omap_app, cand_insert_view; try done; [|by intros ? ? [= -> ->]].
    change (q :: P2 ++ N) with ((q :: P2) ++ N). rewrite pool_view_split by done.
    by destruct x as [? []].
  - assert (slots p = (f :: P1) ++ P2) as Hs' by done.
    rewrite Hv, keep_best_long.
    2:{ rewrite length_cand_insert, (pool_view_length p (slots p) []);
          [lia|by rewrite app_nil_r|done|done]. }
    unfold pool_view. rewrite Hs' in HP |- *. apply Forall_app in HP as [HP1 HP2].
    rewrite omap_app, cand_insert_view by done.
    apply Forall_cons in HP1 as [[c Hc] HP1]. csimpl.
    unfold view_entry at 3. rewrite Hc. csimpl. by destruct x as [? []].
Qed.

Lemma pool_insert_slots x p :
  pool_ok p →
  let p' := pool_insert x.1 x.2.2 x.2.1 p in
  length (slots p') = RKPOOL_SIZE ∧
  (∃ P N, slots p' = P ++ N ∧ Forall populated P ∧ Forall vacant N) ∧
  pe_cached <$> slots p' ≡ₚ pe_cached <$> slots p ∧ Forall own_buffer (slots p').
Proof.
  intros Hok. pose proof (pool_size p Hok) as Hsz. pose proof (pool_own p Hok) as Ho. simpl.
  destruct (pool_insert_result x p Hok)
    as [P HP Hlen Hs Hge|P z N p' Hs HP Hz HN Hlt [(e & -> & Hce & Hoe & Hpe) _]
       |P1 q P2 N z p' Hs HP HN Hlt Hge [(e & -> & Hce & Hoe & Hpe) _]
       |f P1 P2 p' Hs HP Hlt Hge [(e & -> & Hce & Hoe & Hpe) _]].
  - split; [done|]. split; [|done]. exists P, []. by rewrite app_nil_r.
  - rewrite Hs in *. rewrite length_app in *. simpl in *.
    apply Forall_app in Ho as [Ho1 [_ Ho2]%Forall_cons].
    split; [done|]. split; [exists (P ++ [e]), N; rewrite <- (assoc_L (++)); split; [done|];
      by rewrite Forall_app, Forall_singleton|].
    split; [by rewrite !fmap_app, !fmap_cons, Hce|].
    apply Forall_app; split; [done|by constructor].
  - apply Forall_app in HP as [HP1 HP2]. apply Forall_app in HN as [HN _].
    rewrite Hs in *. rewrite !length_app in *. simpl in *. rewrite length_app in *. simpl in Hsz.
    split; [simpl; lia|].
    split; [exists (P1 ++ e :: q :: P2), N; rewrite <- (assoc_L (++)); split; [done|];
      split; [|done]; apply Forall_app; split; [done|by constructor]|].
    split.
    + rewrite <- Permutation_middle. rewrite fmap_cons, Hce, <- fmap_cons.
      rewrite Permutation_cons_append. by rewrite <- (assoc_L (++)).
    + apply Forall_app in Ho as [Ho1 Ho2].
      rewrite (app_comm_cons (P2 ++ N) [z] q) in Ho2. apply Forall_app in Ho2 as [Ho2 _].
      apply Forall_app; split; [done|by constructor].
  - rewrite Hs in *. simpl in *. apply Forall_cons in Ho as [_ [Ho1 Ho2]%Forall_app].
    apply Forall_cons in HP as [_ [HP1 HP2]%Forall_app]. rewrite length_app in *. simpl.
    split; [lia|].
    split; [exists (P1 ++ e :: P2), []; rewrite app_nil_r; split; [done|];
      split; [|done]; apply Forall_app; split; [done|by constructor]|].
    split; [rewrite <- Permutation_middle; by rewrite fmap_cons, Hce|].
    apply Forall_app; split; [done|by constructor].
Qed.

Lemma pool_insert_ok x p : pool_ok p → pool_ok (pool_insert x.1 x.2.2 x.2.1 p).
Proof.
  intros Hok. destruct (pool_insert_slots x p Hok) as (Hsz & Hsh & Hc & Ho).
  split; try done.
  - rewrite pool_insert_view by done. apply keep_best_sorted, cand_insert_sorted, Hok.
  - rewrite Hc. apply Hok.
Qed.

Lemma rockPoolAlloc_ok : pool_ok rockPoolAlloc.
Proof.
  split.
  - done.
  - exists [], (slots rockPoolAlloc). split; [done|]. split; [done|].
    by apply (bool_decide_unpack _); vm_compute.
  - vm_compute. constructor.
  - apply (bool_decide_unpack _). by vm_compute.
  - apply Forall_forall. intros e (j & -> & _)%list_elem_of_fmap. by intros ?.
Qed.

(** ** Taking the best candidate out *)

Lemma Sorted_app_l {A} (R : relation A) (l k : list A) : Sorted R (l ++ k) → Sorted R l.
Proof.
  induction l as [|x l IH]; simpl; [constructor|]. intros [Hs Hh]%Sorted_inv.
  constructor; [by apply IH|]. destruct l; [constructor|]. by inversion Hh; constructor.
Qed.

Lemma populated_prefix (P N A B : list rockPoolEntry) e :
  P ++ N = A ++ e :: B → Forall populated P → Forall vacant N → populated e →
  Forall populated A.
Proof.
  intros Heq HP HN [q Hq].
  apply Forall_lookup. intros i a Ha.
  assert ((P ++ N) !! i = Some a) as Hi by (rewrite Heq; by apply lookup_app_l_Some).
  assert ((P ++ N) !! length A = Some e) as He by (rewrite Heq; apply slot_at).
  apply lookup_lt_Some in Ha.
  destruct (decide (length A < length P)%nat).
  - rewrite lookup_app_l in Hi by lia. exact (proj1 (Forall_lookup _ _) HP _ _ Hi).
  - rewrite lookup_app_r in He by lia.
    pose proof (proj1 (Forall_lookup _ _) HN _ _ He) as Hv. unfold vacant in Hv. congruence.
Qed.

Lemma pool_pop p A e B q :
  pool_ok p → slots p = A ++ e :: B → Forall vacant B → pe_key e = Some q →
  let p' := Pool (A ++ PoolEntry 0 None (pe_cached e) (pe_dbid e) :: B) (bufs p) in
  pool_ok p' ∧ pool_view p = pool_view p' ++ [(pe_idle e, (pe_dbid e, key_at (bufs p) q))].
Proof.
  intros [Hsz (P & N & Hs & HP & HN) Hso Hnd Ho] Hs' HB Hq p'.
  assert (pool_view p = pool_view p' ++ [(pe_idle e, (pe_dbid e, key_at (bufs p) q))]) as Hv.
  { unfold pool_view, p'. csimpl. rewrite Hs', !omap_app. csimpl.
    assert (view_entry (bufs p) e = Some (pe_idle e, (pe_dbid e, key_at (bufs p) q))) as ->
      by (unfold view_entry; by rewrite Hq).
    by rewrite !(omap_vacant _ B HB), app_nil_r. }
  split; [|done]. rewrite Hs' in *. split.
  - rewrite <- Hsz. unfold p'. simpl. by rewrite !length_app.
  - exists A, (PoolEntry 0 None (pe_cached e) (pe_dbid e) :: B). repeat split; [|by constructor].
    eapply populated_prefix; [symmetry; exact Hs|done|done|by eexists].
  - rewrite Hv in Hso. by apply Sorted_app_l in Hso.
  - unfold p'. simpl. rewrite fmap_app in *. exact Hnd.
  - unfold p'. simpl. apply Forall_app in Ho as [? [_ ?]%Forall_cons].
    apply Forall_app; split; [done|]. constructor; [by intros ?|done].
Qed.

Lemma pool_pick_from_spec f n p o p' :
  pool_pick_from f n p = (o, p') →
  pool_ok p → (n ≤ RKPOOL_SIZE)%nat → Forall vacant (drop n (slots p)) →
  pool_ok p' ∧ pick_best f (reverse (pool_view p)) = (o, reverse (pool_view p')).
Proof.
  revert p. induction n as [|k IH]; intros p Hp Hok Hn Hv.
  - simpl in Hp. injection Hp as <- <-. split; [done|]. rewrite drop_0 in Hv. unfold pool_view.
    by rewrite omap_vacant.
  - simpl in Hp. destruct (slots p !! k) as [e|] eqn:He.
    2:{ apply lookup_ge_None in He. rewrite (pool_size p Hok) in He. lia. }
    pose proof (lookup_lt_Some _ _ _ He) as Hk.
    rewrite <- (take_drop_middle _ _ _ He) in Hv.
    rewrite drop_app_ge in Hv by (rewrite length_take; lia).
    rewrite length_take, Nat.min_l in Hv by lia.
    replace (S k - k)%nat with 1%nat in Hv by lia. simpl in Hv. rewrite drop_0 in Hv.
    destruct (pe_key e) as [q|] eqn:Hq.
    + pose proof (pool_pop p (take k (slots p)) e (drop (S k) (slots p)) q Hok) as Hpop.
      rewrite (take_drop_middle _ _ _ He) in Hpop. specialize (Hpop eq_refl Hv Hq).
      rewrite insert_take_drop in Hp by done. simpl in Hpop. destruct Hpop as [Hok' Hview].
      rewrite Hview, reverse_snoc. simpl.
      destruct (f _ _); [by injection Hp as <- <-|]. eapply IH; [exact Hp|done|lia|].
      simpl. rewrite drop_app_length' by (rewrite length_take; lia). by constructor.
    + eapply IH; [exact Hp|done|lia|]. rewrite (drop_S _ _ _ He). by constructor.
Qed.

Strategy 100 [pool_pick_from].

(** ** Properties *)

(** C32: the candidate pool refines a sorted list that keeps the best sixteen.
    Inserting into a well-formed pool, with its shifting of slots and reuse of
    the preallocated key buffers, gives a well-formed pool whose contents are
    the old contents with the candidate inserted in order, the worst one dropped
    when there are more than [RKPOOL_SIZE]; no slot's key is corrupted by the
    buffer reuse. *)
Theorem pool_insert_refines idle key dbid p :
  pool_ok p →
  pool_ok (pool_insert idle key dbid p) ∧
  pool_view (pool_insert idle key dbid p)
  = keep_best (cand_insert (idle, (dbid, key)) (pool_view p)).
Proof.
  intros Hok. split.
  - exact (pool_insert_ok (idle, (dbid, key)) p Hok).
  - exact (pool_insert_view (idle, (dbid, key)) p Hok).
Qed.

Lemma pool_insert_refines_witness :
  pool_ok rockPoolAlloc ∧
  pool_view (pool_insert 7 [x61] 0 rockPoolAlloc) = [(7, (0%nat, [x61]))].
Proof.
  split; [apply rockPoolAlloc_ok|].
  exact (proj2 (pool_insert_refines 7 [x61] 0 rockPoolAlloc rockPoolAlloc_ok)).
Defined.

(** Taking a candidate out of a well-formed pool returns the best one whose
    key still exists, removes it together with the better ones whose keys are
    gone, and leaves a well-formed pool. *)
Theorem pool_pick_refines exists_key p o p' :
  pool_ok p → pool_pick exists_key p = (o, p') →
  pool_ok p' ∧ pick_best exists_key (reverse (pool_view p)) = (o, reverse (pool_view p')).
Proof.
  intros Hok Hp. apply (pool_pick_from_spec exists_key RKPOOL_SIZE p o p' Hp Hok); [done|].
  rewrite drop_ge by (rewrite (pool_size p Hok); lia). done.
Qed.

Definition sample_pool : pool :=
  pool_insert 9 [x62] 1 (pool_insert 7 [x61] 0 rockPoolAlloc).

Lemma pool_pick_refines_witness :
  (pool_pick (fun db _ => bool_decide (db = 0%nat)) sample_pool).1 = Some (0%nat, [x61]) ∧
  pool_view (pool_pick (fun db _ => bool_decide (db = 0%nat)) sample_pool).2 = [].
Proof.
  assert (pool_ok sample_pool) as Hok
    by exact (pool_insert_ok (9, (1%nat, [x62])) _
                (pool_insert_ok (7, (0%nat, [x61])) _ rockPoolAlloc_ok)).
  destruct (pool_pick (fun db _ => bool_decide (db = 0%nat)) sample_pool) as [o p'] eqn:Hp.
  destruct (pool_pick_refines _ _ _ _ Hok Hp) as [_ Heq].
  assert (pick_best (fun db _ => bool_decide (db = 0%nat)) (reverse (pool_view sample_pool))
          = (Some (0%nat, [x61]), [])) as Hb by (vm_compute; reflexivity).
  rewrite Hb in Heq. injection Heq as <- Hv. split; [reflexivity|].
  apply (f_equal reverse) in Hv. rewrite reverse_involutive in Hv. symmetry. exact Hv.
Defined.
