(* ===== verification/RocksApi.v ===== *)
(** * The RocksDB wrapper (src/src/rocksdbapi.cc)

    RocksDB itself is outside the sources: it is the interface [RocksDB] with the
    documented behaviour of [Open], [Get], [Put] and [GetSnapshot] as
    [RocksDBLaws].  The wrapper keeps one handle and at most one snapshot per
    logical database and opens handles lazily; its [assert]s and
    [std::terminate] are [Abort]s. *)

From S2P Require Import Prelude.
From stdpp Require Import list gmap.
#[local] Open Scope Z_scope.

(** ** The library *)

Class RocksDB := {
  rdb : Type;                                   (* an open database *)
  rsnap : Type;                                 (* a snapshot handle *)
  rdb_open : rdb;                               (* Open of a directory just removed *)
  rdb_get : rdb → bytes → option bytes;         (* Get; NotFound is None *)
  rdb_put : rdb → bytes → bytes → option rdb;   (* Put; a bad status is None *)
  rdb_snapshot : rdb → rsnap;                   (* GetSnapshot *)
  rdb_get_at : rdb → rsnap → bytes → option bytes (* Get with options.snapshot *)
}.

(** [d'] is [d] after some more writes. *)
Inductive rdb_later `{RocksDB} (d : rdb) : rdb → Prop :=
| rdb_later_refl : rdb_later d d
| rdb_later_put d1 d2 k v : rdb_later d d1 → rdb_put d1 k v = Some d2 → rdb_later d d2.

Class RocksDBLaws (R : RocksDB) : Prop := {
  rdb_get_open k : rdb_get rdb_open k = None;
  rdb_get_put d k v d' : rdb_put d k v = Some d' → rdb_get d' k = Some v;
  rdb_get_put_ne d k v d' k' : rdb_put d k v = Some d' → k' ≠ k → rdb_get d' k' = rdb_get d k';
  rdb_get_at_later d d' k : rdb_later d d' → rdb_get_at d' (rdb_snapshot d) k = rdb_get d k
}.

(** No write fails. *)
Class RocksDBReliable (R : RocksDB) : Prop :=
  rdb_put_total : ∀ d k v, is_Some (rdb_put d k v).

(** A database that is a map, whose writes always succeed. *)
Definition map_rocksdb : RocksDB := {|
  rdb := gmap bytes bytes;
  rsnap := gmap bytes bytes;
  rdb_open := ∅;
  rdb_get d k := d !! k;
  rdb_put d k v := Some (<[k := v]> d);
  rdb_snapshot d := d;
  rdb_get_at _ s k := s !! k
|}.

#[export] Instance map_rocksdb_laws : RocksDBLaws map_rocksdb.
Proof.
  split; simpl.
  - done.
  - intros d k v d' [= <-]. apply lookup_insert_eq.
  - intros d k v d' k' [= <-] ?. by apply lookup_insert_ne.
  - done.
Qed.

#[export] Instance map_rocksdb_reliable : RocksDBReliable map_rocksdb.
Proof. intros d k v. by eexists. Qed.

(** ** The wrapper *)

Section wrapper.
Context `{R : RocksDB}.

(** [rocksdb_all_dbs] and [rocksdb_all_snapshots]; [nullptr] is [None]. *)
Record rapi := Rapi {
  all_dbs : list (option rdb);
  all_snapshots : list (option rsnap)
}.

Definition open_if_not_exist (dbi : nat) (a : rapi) : res (rdb * rapi) :=
  match all_dbs a !! dbi with
  | None => Abort "assert: dbi"
  | Some (Some db) => Ok (db, a)
  | Some None => Ok (rdb_open, Rapi (<[dbi := Some rdb_open]> (all_dbs a)) (all_snapshots a))
  end.

(** [rocksdbapi_init] on empty vectors: [root_exists] says whether the root
    directory is there, [remove_ok i] whether the removal of the directory
    [i] left by an earlier run succeeds. *)
Definition rocksdbapi_init (dbnum : nat) (root_exists : bool) (remove_ok : nat → bool)
  : res rapi :=
  serverAssert (0 <? dbnum)%nat "assert: dbnum > 0" ;;
  if root_exists && negb (forallb remove_ok (seq 0 dbnum)) then Ok (Rapi [] [])
  else
    '(_, a) ← open_if_not_exist 0 (Rapi (replicate dbnum None) (replicate dbnum None));
    mret a.

Definition rocksdbapi_read (dbi : nat) (key : bytes) (a : rapi) : res (option bytes * rapi) :=
  serverAssert (dbi <? length (all_dbs a))%nat "assert: dbi" ;;
  serverAssert (bool_decide (key ≠ [])) "assert: key_len" ;;
  '(db, a) ← open_if_not_exist dbi a;
  mret (rdb_get db key, a).

Definition rocksdbapi_write (dbi : nat) (key val : bytes) (a : rapi) : res rapi :=
  serverAssert (dbi <? length (all_dbs a))%nat "assert: dbi" ;;
  serverAssert (bool_decide (key ≠ [] ∧ val ≠ [])) "assert: key_len && val_len" ;;
  '(db, a) ← open_if_not_exist dbi a;
  db' ← res_of_option (rdb_put db key val) "terminate: Put";
  mret (Rapi (<[dbi := Some db']> (all_dbs a)) (all_snapshots a)).

(** The loop asserts that no snapshot is left from an earlier call, and takes
    one of every open database. *)
Fixpoint createSnapshots_loop (dbs : list (option rdb)) (snaps : list (option rsnap))
  : res (list (option rsnap)) :=
  match dbs, snaps with
  | [], _ => Ok snaps
  | db :: dbs', s :: snaps' =>
      serverAssert (match s with None => true | Some _ => false end)
        "assert: rocksdb_all_snapshots[i] == nullptr" ;;
      rest ← createSnapshots_loop dbs' snaps';
      mret (match db with Some d => Some (rdb_snapshot d) | None => s end :: rest)
  | _ :: _, [] => Abort "out of range"
  end.
Definition rocksdbapi_createSnapshots (a : rapi) : res rapi :=
  snaps ← createSnapshots_loop (all_dbs a) (all_snapshots a);
  mret (Rapi (all_dbs a) snaps).

Definition rocksdbapi_releaseAllSnapshots (a : rapi) : rapi :=
  Rapi (all_dbs a)
    (zip_with (fun (db : option rdb) s => match db with Some _ => None | None => s end)
       (all_dbs a) (all_snapshots a)).

Definition rocksdbapi_read_from_snapshot (dbi : nat) (key : bytes) (a : rapi)
  : res (option bytes) :=
  serverAssert (dbi <? length (all_dbs a))%nat "assert: dbi" ;;
  serverAssert (bool_decide (key ≠ [])) "assert: key_len" ;;
  db ← res_of_option (mjoin (all_dbs a !! dbi)) "assert: db";
  snapshot ← res_of_option (mjoin (all_snapshots a !! dbi)) "assert: snapshot";
  mret (rdb_get_at db snapshot key).

Definition ROCKDB_WRITE_BUFFER_SIZE : Z := 16.
Definition ROCKDB_BLOCK_CACHE_SIZE : Z := 0.
Definition rocksdbapi_memory : Z :=
  Z.shiftl (ROCKDB_WRITE_BUFFER_SIZE + ROCKDB_BLOCK_CACHE_SIZE) 20.

(** ** What the wrapper stores *)

(** The value last written for [key] of database [dbi]. *)
Definition stored_val (a : rapi) (dbi : nat) (key : bytes) : option bytes :=
  db ← mjoin (all_dbs a !! dbi); rdb_get db key.

Definition rapi_ok (dbnum : nat) (a : rapi) : Prop :=
  length (all_dbs a) = dbnum ∧ length (all_snapshots a) = dbnum.

(** A dump may run at any time: a sequence of writes. *)
Fixpoint write_all (ws : list (nat * (bytes * bytes))) (a : rapi) : res rapi :=
  match ws with
  | [] => Ok a
  | (dbi, (key, val)) :: ws' => a' ← rocksdbapi_write dbi key val a; write_all ws' a'
  end.

(** No snapshot is held; and a database that is not open has none. *)
Definition no_snapshots (a : rapi) : Prop :=
  length (all_snapshots a) = length (all_dbs a) ∧ Forall (fun s => s = None) (all_snapshots a).
Definition snapshots_match (a : rapi) : Prop :=
  length (all_snapshots a) = length (all_dbs a) ∧
  ∀ i, all_dbs a !! i = Some None → all_snapshots a !! i = Some None.

End wrapper.
Arguments rapi R : clear implicits.

(** ** Reads and writes *)

Section laws.
Context {R : RocksDB} {L : RocksDBLaws R}.
Implicit Types a : rapi R.

Lemma open_spec dbi a d a' :
  open_if_not_exist dbi a = Ok (d, a') →
  all_snapshots a' = all_snapshots a ∧ length (all_dbs a') = length (all_dbs a) ∧
  all_dbs a' !! dbi = Some (Some d) ∧
  (all_dbs a !! dbi = Some (Some d) ∨ all_dbs a !! dbi = Some None ∧ d = rdb_open) ∧
  (∀ i, i ≠ dbi → all_dbs a' !! i = all_dbs a !! i) ∧
  (∀ i k, stored_val a' i k = stored_val a i k).
Proof.
  unfold open_if_not_exist. destruct (all_dbs a !! dbi) as [[d0|]|] eqn:Hd; intros [= <- <-]; simpl.
  - rewrite Hd. naive_solver.
  - assert (dbi < length (all_dbs a))%nat by (by apply lookup_lt_Some in Hd).
    rewrite length_insert, list_lookup_insert_eq by done.
    split_and!; try naive_solver.
    + intros i ?. by rewrite list_lookup_insert_ne by done.
    + intros i k. unfold stored_val. simpl. destruct (decide (i = dbi)) as [->|].
      * rewrite list_lookup_insert_eq, Hd by done. simpl. apply rdb_get_open.
      * by rewrite list_lookup_insert_ne by done.
Qed.

Lemma open_total n dbi a :
  rapi_ok n a → (dbi < n)%nat → ∃ d a', open_if_not_exist dbi a = Ok (d, a').
Proof.
  intros [Hl _] Hi. rewrite <- Hl in Hi. apply lookup_lt_is_Some_2 in Hi as [[d|] Hd];
    unfold open_if_not_exist; rewrite Hd; eauto.
Qed.

Lemma rocksdbapi_read_spec dbi key a o a' :
  rocksdbapi_read dbi key a = Ok (o, a') →
  o = stored_val a dbi key ∧ (∀ i k, stored_val a' i k = stored_val a i k) ∧
  (∀ n, rapi_ok n a → rapi_ok n a').
Proof.
  unfold rocksdbapi_read. intros H. inv_res. destruct a2 as [d a2]. inv_res.
  apply open_spec in H2 as (Hs & Hl & Hd & _ & _ & Hv).
  split; [|split; [done|unfold rapi_ok; by rewrite Hs, Hl]].
  rewrite <- Hv. unfold stored_val. by rewrite Hd.
Qed.

Lemma rocksdbapi_read_total n dbi key a :
  rapi_ok n a → (dbi < n)%nat → key ≠ [] →
  ∃ a', rocksdbapi_read dbi key a = Ok (stored_val a dbi key, a').
Proof.
  intros Hok Hi Hk. destruct (open_total n dbi a Hok Hi) as (d & a' & Ho).
  exists a'. unfold rocksdbapi_read. destruct Hok as [Hl _]. rewrite Hl.
  rewrite (proj2 (Nat.ltb_lt _ _) Hi), bool_decide_eq_true_2 by done. simpl. rewrite Ho. simpl.
  apply open_spec in Ho as (_ & _ & Hd & _ & _ & Hv).
  rewrite <- Hv. unfold stored_val. by rewrite Hd.
Qed.

Lemma rocksdbapi_write_spec dbi key val a a' :
  rocksdbapi_write dbi key val a = Ok a' →
  stored_val a' dbi key = Some val ∧
  (∀ i k, (i, k) ≠ (dbi, key) → stored_val a' i k = stored_val a i k) ∧
  (∀ n, rapi_ok n a → rapi_ok n a').
Proof.
  unfold rocksdbapi_write. intros H. inv_res. destruct a2 as [d a2]. inv_res.
  apply open_spec in H2 as (Hs & Hl & Hd & _ & _ & Hv). unfold stored_val, rapi_ok. simpl.
  assert (dbi < length (all_dbs a2))%nat as Hi by (by apply lookup_lt_Some in Hd).
  rewrite list_lookup_insert_eq, length_insert, Hs, Hl by done. simpl.
  split; [by eapply rdb_get_put|]. split; [|done].
  intros i k Hne. etransitivity; [|apply (Hv i k)]. unfold stored_val.
  destruct (decide (i = dbi)) as [->|]; [|by rewrite list_lookup_insert_ne].
  rewrite list_lookup_insert_eq, Hd by done. simpl. eapply rdb_get_put_ne; [done|]. congruence.
Qed.

Lemma rocksdbapi_write_total `{!RocksDBReliable R} n dbi key val a :
  rapi_ok n a → (dbi < n)%nat → key ≠ [] → val ≠ [] →
  ∃ a', rocksdbapi_write dbi key val a = Ok a'.
Proof.
  intros Hok Hi Hk Hv. destruct (open_total n dbi a Hok Hi) as (d & a' & Ho).
  destruct (rdb_put_total d key val) as [d' Hp]. unfold rocksdbapi_write.
  destruct Hok as [-> _]. rewrite (proj2 (Nat.ltb_lt _ _) Hi), bool_decide_eq_true_2 by done.
  simpl. rewrite Ho. simpl. rewrite Hp. simpl. eauto.
Qed.

(** ** Snapshots *)

Lemma createSnapshots_loop_spec dbs snaps snaps' :
  createSnapshots_loop dbs snaps = Ok snaps' →
  ∀ i d, dbs !! i = Some (Some d) → snaps' !! i = Some (Some (rdb_snapshot d)).
Proof.
  revert snaps snaps'. induction dbs as [|db dbs IH]; intros [|s snaps] snaps' H i d Hi; try done.
  simpl in H. inv_res. destruct i as [|i]; simpl in *; [by simplify_eq|eauto].
Qed.

(** Every database open when the snapshots were taken is the same one, later,
    and still has its snapshot. *)
Definition snapshot_of (a a' : rapi R) : Prop :=
  ∀ i d, all_dbs a !! i = Some (Some d) →
  ∃ d', all_dbs a' !! i = Some (Some d') ∧ rdb_later d d' ∧
        all_snapshots a' !! i = Some (Some (rdb_snapshot d)).

Lemma snapshot_of_create a a' :
  rocksdbapi_createSnapshots a = Ok a' → snapshot_of a a'.
Proof.
  unfold rocksdbapi_createSnapshots. intros H i d Hi. inv_res.
  exists d. split; [done|]. split; [constructor|]. simpl. by eapply createSnapshots_loop_spec.
Qed.

Lemma snapshot_of_write a0 a dbi key val a' :
  rocksdbapi_write dbi key val a = Ok a' → snapshot_of a0 a → snapshot_of a0 a'.
Proof.
  unfold rocksdbapi_write. intros H Hs i d Hi. inv_res. destruct a3 as [db a3]. inv_res.
  apply open_spec in H2 as (Hsn & _ & Hd & Hor & Hne & _).
  destruct (Hs i d Hi) as (d' & Hd' & Hlater & Hsnap). rewrite Hsn.
  destruct (decide (i = dbi)) as [->|].
  - destruct Hor as [Hor|[Hor _]]; [|congruence].
    assert (d' = db) as -> by congruence. eexists. split.
    + apply list_lookup_insert_eq. by apply lookup_lt_Some in Hd.
    + split; [by eapply rdb_later_put|done].
  - exists d'. rewrite list_lookup_insert_ne, Hne by done. done.
Qed.

Lemma snapshot_of_write_all a0 ws a a' :
  write_all ws a = Ok a' → snapshot_of a0 a → snapshot_of a0 a'.
Proof.
  revert a. induction ws as [|[dbi [key val]] ws IH]; intros a H Hs; simpl in H; inv_res; [done|].
  eapply IH; [done|]. by eapply snapshot_of_write.
Qed.

Lemma snapshot_of_read a0 a i key d :
  snapshot_of a0 a → all_dbs a0 !! i = Some (Some d) → key ≠ [] →
  rocksdbapi_read_from_snapshot i key a = Ok (stored_val a0 i key).
Proof.
  intros Hs Hi Hk. destruct (Hs i d Hi) as (d' & Hd' & Hl & Hsn).
  unfold rocksdbapi_read_from_snapshot.
  rewrite (proj2 (Nat.ltb_lt i _)) by (by apply lookup_lt_Some in Hd').
  rewrite bool_decide_eq_true_2, Hd', Hsn by done. simpl.
  unfold stored_val. rewrite Hi. simpl. by rewrite rdb_get_at_later.
Qed.

Lemma no_snapshots_match a : no_snapshots a → snapshots_match a.
Proof.
  intros [Hl Hn]. split; [done|]. intros i Hi.
  assert (is_Some (all_snapshots a !! i)) as [s Hs].
  { apply lookup_lt_is_Some. rewrite Hl. by apply lookup_lt_Some in Hi. }
  by rewrite Hs, (proj1 (Forall_lookup _ _) Hn i s Hs).
Qed.

Lemma release_no_snapshots a : snapshots_match a → no_snapshots (rocksdbapi_releaseAllSnapshots a).
Proof.
  intros [Hl Hm]. unfold no_snapshots, rocksdbapi_releaseAllSnapshots. simpl. split.
  - rewrite length_zip_with. lia.
  - apply Forall_lookup. intros i s Hs. apply lookup_zip_with_Some in Hs as (db & sn & -> & Hd & Hsn).
    destruct db; [done|]. apply Hm in Hd. congruence.
Qed.

Lemma createSnapshots_loop_total dbs snaps :
  length snaps = length dbs → Forall (fun s => s = None) snaps →
  ∃ snaps', createSnapshots_loop dbs snaps = Ok snaps' ∧ length snaps' = length dbs ∧
    ∀ i, dbs !! i = Some None → snaps' !! i = Some None.
Proof.
  revert snaps. induction dbs as [|db dbs IH]; intros [|s snaps] Hl Hn; try done; simpl in *.
  - by exists [].
  - apply Forall_cons in Hn as [-> Hn]. destruct (IH snaps ltac:(lia) Hn) as (snaps' & -> & Hl' & Hs).
    eexists. split; [done|]. simpl. split; [lia|]. intros [|i] Hi; simpl in *; [by simplify_eq|auto].
Qed.

Lemma createSnapshots_total a :
  no_snapshots a → ∃ a', rocksdbapi_createSnapshots a = Ok a' ∧ snapshots_match a' ∧ all_dbs a' = all_dbs a.
Proof.
  intros [Hl Hn]. destruct (createSnapshots_loop_total _ _ Hl Hn) as (snaps & Hc & Hl' & Hs).
  unfold rocksdbapi_createSnapshots. rewrite Hc. simpl. by eexists.
Qed.

(** Reads and writes may open a database; the snapshots stay. *)
Lemma write_snapshots dbi key val a a' :
  rocksdbapi_write dbi key val a = Ok a' →
  all_snapshots a' = all_snapshots a ∧ length (all_dbs a') = length (all_dbs a) ∧
  ∀ i, all_dbs a' !! i = Some None → all_dbs a !! i = Some None.
Proof.
  unfold rocksdbapi_write. intros H. inv_res. destruct a2 as [d a2]. inv_res.
  apply open_spec in H2 as (Hs & Hl & Hd & _ & Hne & _). rewrite length_insert.
  split_and!; [done..|]. intros i Hi. apply list_lookup_insert_Some in Hi as [(_ & [=] & _)|[Hi Hl']].
  by rewrite <- Hne.
Qed.

Lemma read_snapshots dbi key a o a' :
  rocksdbapi_read dbi key a = Ok (o, a') →
  all_snapshots a' = all_snapshots a ∧ length (all_dbs a') = length (all_dbs a) ∧
  ∀ i, all_dbs a' !! i = Some None → all_dbs a !! i = Some None.
Proof.
  unfold rocksdbapi_read. intros H. inv_res. destruct a2 as [d a2]. inv_res.
  apply open_spec in H2 as (Hs & Hl & Hd & _ & Hne & _). split_and!; [done..|].
  intros i Hi. destruct (decide (i = dbi)) as [->|]; [congruence|]. by rewrite <- Hne.
Qed.

Lemma snapshot_of_rread a0 dbi key a o a' :
  rocksdbapi_read dbi key a = Ok (o, a') → snapshot_of a0 a → snapshot_of a0 a'.
Proof.
  unfold rocksdbapi_read. intros H Hs i d Hi. inv_res. destruct a3 as [db a3]. inv_res.
  apply open_spec in H2 as (Hsn & _ & Hd & Hor & Hne & _).
  destruct (Hs i d Hi) as (d' & Hd' & Hlater & Hsnap). rewrite Hsn. exists d'. split; [|done].
  destruct (decide (i = dbi)) as [->|]; [|by rewrite Hne].
  destruct Hor as [Hor|[Hor _]]; congruence.
Qed.

End laws.
