(* ===== verification/Keyspace.v ===== *)
(** * The keyspace (src/src/db.c, src/src/lazyfree.c, src/src/rock_hotkey.c)

    The databases of the server as RedRock extends them: a value is in memory or
    it is [shared.valueInRock], [rockKeys] lists the clients that wait for a key
    to be loaded, [hotKeys] the keys whose value may be dumped.  The operations of
    db.c that commands use, the hot-key hooks they call, and the two moves between
    memory and RocksDB.

    A hash table is a finite map; where the code takes the first entry of an
    iteration the order is a parameter.  Counters, keyspace notifications,
    replication, blocked-list wakeups and the cluster slot index are not part of
    the state. *)

From S2P Require Import Prelude Util Robj Zset Serdes RocksApi.
From stdpp Require Import list gmap.
#[local] Open Scope Z_scope.

(** ** State *)

(** The value field of an entry of [db->dict]. *)
Inductive dval := InRock | VObj (o : robj).

Definition is_in_rock (v : option dval) : bool :=
  match v with Some InRock => true | _ => false end.

Record redisDb := RedisDb {
  dict : gmap bytes dval;
  expires : gmap bytes Z;
  rockKeys : gmap bytes (list nat);    (* key -> the clients that wait for it *)
  hotKeys : gset bytes
}.
Definition empty_db : redisDb := RedisDb ∅ ∅ ∅ ∅.

Definition set_dict (m : gmap bytes dval) (d : redisDb) : redisDb :=
  RedisDb m (expires d) (rockKeys d) (hotKeys d).
Definition set_expires (m : gmap bytes Z) (d : redisDb) : redisDb :=
  RedisDb (dict d) m (rockKeys d) (hotKeys d).
Definition set_rockKeys (m : gmap bytes (list nat)) (d : redisDb) : redisDb :=
  RedisDb (dict d) (expires d) m (hotKeys d).
Definition set_hotKeys (h : gset bytes) (d : redisDb) : redisDb :=
  RedisDb (dict d) (expires d) (rockKeys d) h.

(** What the operations read of the configuration and the clocks at the time
    they run. *)
Record server_cfg := Cfg {
  cfg_env : srv_env;
  lazyfree_lazy_server_del : bool;
  lazyfree_lazy_expire : bool;
  masterhost : bool;              (* this instance is a replica *)
  readonly_cmd : bool;            (* the current command is a read from a normal client *)
  loading : bool;
  hasActiveChildProcess : bool;
  lua_caller : bool;
  lua_time_start : Z;
  fixed_time_expire : Z;
  fresh_mstime : Z                (* what mstime() returns *)
}.

Section keyspace.
Context {R : RocksDB}.

Record keyspace := Keyspace {
  dbs : list redisDb;
  alreadyInitHotKeys : bool;
  rock_lru : Z;                   (* shared.valueInRock->lru *)
  rocks : rapi R
}.
Implicit Types (s : keyspace) (d : redisDb) (key : bytes).

Definition get_db s (i : nat) : redisDb := default empty_db (dbs s !! i).
Definition set_dbs (l : list redisDb) s : keyspace :=
  Keyspace l (alreadyInitHotKeys s) (rock_lru s) (rocks s).
Definition upd_db (i : nat) (f : redisDb → redisDb) s : keyspace :=
  set_dbs (alter f i (dbs s)) s.
Definition set_rock_lru (z : Z) s : keyspace :=
  Keyspace (dbs s) (alreadyInitHotKeys s) z (rocks s).
Definition set_init (b : bool) s : keyspace :=
  Keyspace (dbs s) b (rock_lru s) (rocks s).
Definition set_rocks (a : rapi R) s : keyspace :=
  Keyspace (dbs s) (alreadyInitHotKeys s) (rock_lru s) a.

Definition dict_at s (i : nat) key : option dval := dict (get_db s i) !! key.

(** [dictGetVal(de)->lru] *)
Definition val_lru s (v : dval) : Z :=
  match v with VObj o => o_lru o | InRock => rock_lru s end.

(** ** Hot keys (rock_hotkey.c) *)

(** [val == NULL] is [None]. *)
Definition addHotKeyIfNeed (i : nat) key (val : option dval) s : keyspace :=
  if negb (alreadyInitHotKeys s) then s
  else
    match (match val with Some v => Some v | None => dict_at s i key end) with
    | None => s
    | Some InRock => s
    | Some (VObj o) =>
        if bool_decide (o_type o = OBJ_STREAM) || (o_refcount o =? OBJ_SHARED_REFCOUNT)
        then upd_db i (fun d => set_hotKeys (hotKeys d ∖ {[key]}) d) s
        else upd_db i (fun d => set_hotKeys (hotKeys d ∪ {[key]}) d) s
    end.

Definition deleteHotKeyIfNeed (i : nat) key s : keyspace :=
  if negb (alreadyInitHotKeys s) then s
  else upd_db i (fun d => set_hotKeys (hotKeys d ∖ {[key]}) d) s.

Definition clearHotKeysWhenEmptyDb (i : nat) s : res keyspace :=
  if negb (alreadyInitHotKeys s) then
    serverAssert (bool_decide (hotKeys (get_db s i) = ∅)) "dictSize(db->hotKeys) == 0" ;;
    mret s
  else if bool_decide (hotKeys (get_db s i) = ∅) then Ok s
  else
    let s := upd_db i (set_hotKeys ∅) s in
    if existsb (fun d => bool_decide (hotKeys d ≠ ∅)) (dbs s) then Ok s
    else Ok (set_init false s).

(** The keys [addHotKeyIfNeed] adds when it is called on every entry of an
    empty [hotKeys]. *)
Definition hot_candidate (v : dval) : bool :=
  match v with
  | InRock => false
  | VObj o => negb (bool_decide (o_type o = OBJ_STREAM) || (o_refcount o =? OBJ_SHARED_REFCOUNT))
  end.

(** The body of the loop of [initHotKeys]: every entry of one dictionary. *)
Definition initHotKeys_db (i : nat) s : res keyspace :=
  serverAssert (bool_decide (hotKeys (get_db s i) = ∅)) "dictSize(hotKeys) == 0" ;;
  mret (foldr (fun kv s => addHotKeyIfNeed i kv.1 (Some kv.2) s) s
          (map_to_list (dict (get_db s i)))).
Fixpoint initHotKeys_loop (n : nat) (i : nat) s : res keyspace :=
  match n with
  | O => Ok s
  | S n' => s ← initHotKeys_db i s; initHotKeys_loop n' (S i) s
  end.
(** Returns whether any database has a hot key. *)
Definition initHotKeys s : res (bool * keyspace) :=
  s ← initHotKeys_loop (length (dbs s)) 0 s;
  mret (existsb (fun d => bool_decide (hotKeys d ≠ ∅)) (dbs s), s).

(** ** Access and modification (db.c, lazyfree.c)

    [draw] is the outcome of the random test of [LFULogIncr]. *)

Definition touch_lru (c : server_cfg) (draw : bool) (lru : Z) : Z :=
  if policy_has (cfg_env c) MAXMEMORY_FLAG_LFU then updateLFU (cfg_env c) draw lru
  else LRU_CLOCK (cfg_env c).

Definition lookupKey (c : server_cfg) (draw notouch : bool) (i : nat) key s
  : option dval * keyspace :=
  match dict_at s i key with
  | None => (None, s)
  | Some v =>
      if negb (hasActiveChildProcess c) && negb notouch then
        match v with
        | VObj o =>
            let o := set_lru (touch_lru c draw (o_lru o)) o in
            (Some (VObj o), upd_db i (fun d => set_dict (<[key := VObj o]> (dict d)) d) s)
        | InRock => (Some InRock, set_rock_lru (touch_lru c draw (rock_lru s)) s)
        end
      else (Some v, s)
  end.

Definition lookupKeyNoSideEffect (c : server_cfg) (i : nat) key s : option dval :=
  (lookupKey c false true i key s).1.

Definition dbAdd (i : nat) key (val : robj) s : res keyspace :=
  serverAssert (bool_decide (dict_at s i key = None)) "dbAdd: dictAdd" ;;
  let s := upd_db i (fun d => set_dict (<[key := VObj val]> (dict d)) d) s in
  mret (addHotKeyIfNeed i key (Some (VObj val)) s).

Definition dbOverwrite (c : server_cfg) (i : nat) key (val : robj) s : res keyspace :=
  old ← res_of_option (dict_at s i key) "dbOverwrite: de != NULL";
  let val := if policy_has (cfg_env c) MAXMEMORY_FLAG_LFU
             then set_lru (val_lru s old) val else val in
  let s := upd_db i (fun d => set_dict (<[key := VObj val]> (dict d)) d) s in
  mret (addHotKeyIfNeed i key (Some (VObj val)) s).

(** The value itself is freed now or by the lazy-free thread; either way the
    entry is gone. *)
Definition dbAsyncDelete (i : nat) key s : bool * keyspace :=
  let s' := upd_db i (fun d => set_expires (delete key (expires d)) d) s in
  (bool_decide (dict_at s i key ≠ None),
   upd_db i (fun d => set_dict (delete key (dict d)) d) s').

Definition dbSyncDelete (i : nat) key s : bool * keyspace :=
  let s' := upd_db i (fun d => set_expires (delete key (expires d)) d) s in
  let s' := deleteHotKeyIfNeed i key s' in
  (bool_decide (dict_at s i key ≠ None),
   upd_db i (fun d => set_dict (delete key (dict d)) d) s').

Definition dbDelete (c : server_cfg) (i : nat) key s : bool * keyspace :=
  let s := deleteHotKeyIfNeed i key s in
  if lazyfree_lazy_server_del c then dbAsyncDelete i key s else dbSyncDelete i key s.

Definition removeExpire (i : nat) key s : res (bool * keyspace) :=
  serverAssert (bool_decide (dict_at s i key ≠ None)) "removeExpire" ;;
  mret (bool_decide (expires (get_db s i) !! key ≠ None),
        upd_db i (fun d => set_expires (delete key (expires d)) d) s).

Definition setExpire (i : nat) key (when : Z) s : res keyspace :=
  serverAssert (bool_decide (dict_at s i key ≠ None)) "setExpire" ;;
  mret (upd_db i (fun d => set_expires (<[key := when]> (expires d)) d) s).

Definition getExpire (i : nat) key s : res Z :=
  match expires (get_db s i) !! key with
  | None => Ok (-1)
  | Some w =>
      serverAssert (bool_decide (dict_at s i key ≠ None)) "getExpire" ;; mret w
  end.

Definition expire_now (c : server_cfg) : Z :=
  if lua_caller c then lua_time_start c
  else if 0 <? fixed_time_expire c then mstime (cfg_env c)
  else fresh_mstime c.

Definition keyIsExpired (c : server_cfg) (i : nat) key s : res bool :=
  when ← getExpire i key s;
  mret (if when <? 0 then false
        else if loading c then false
        else when <? expire_now c).

Definition expireIfNeeded (c : server_cfg) (i : nat) key s : res (bool * keyspace) :=
  exp ← keyIsExpired c i key s;
  mret (if negb exp then (false, s)
        else if masterhost c then (true, s)
        else if lazyfree_lazy_expire c then dbAsyncDelete i key s
        else dbSyncDelete i key s).

Definition lookupKeyReadWithFlags (c : server_cfg) (draw notouch : bool) (i : nat) key s
  : res (option dval * keyspace) :=
  '(exp, s) ← expireIfNeeded c i key s;
  mret (if exp && negb (masterhost c) then (None, s)
        else if exp && readonly_cmd c then (None, s)
        else lookupKey c draw notouch i key s).
Definition lookupKeyRead (c : server_cfg) (draw : bool) (i : nat) key s :=
  lookupKeyReadWithFlags c draw false i key s.

Definition lookupKeyWriteWithFlags (c : server_cfg) (draw notouch : bool) (i : nat) key s
  : res (option dval * keyspace) :=
  '(_, s) ← expireIfNeeded c i key s;
  mret (lookupKey c draw notouch i key s).
Definition lookupKeyWrite (c : server_cfg) (draw : bool) (i : nat) key s :=
  lookupKeyWriteWithFlags c draw false i key s.

(** [incrRefCount(val)]: the caller drops its own reference when the command
    ends, so the count of the stored object is what the caller handed in. *)
Definition genericSetKey (c : server_cfg) (draw : bool) (i : nat) key (val : robj)
    (keepttl : bool) s : res keyspace :=
  '(o, s) ← lookupKeyWrite c draw i key s;
  s ← match o with
      | None => dbAdd i key val s
      | Some _ => dbOverwrite c i key val s
      end;
  if keepttl then mret s else '(_, s) ← removeExpire i key s; mret s.
Definition setKey (c : server_cfg) (draw : bool) (i : nat) key (val : robj) s :=
  genericSetKey c draw i key val false s.

Definition dbExists (i : nat) key s : bool := bool_decide (dict_at s i key ≠ None).

(** One database of [emptyDbGeneric]; emptying in the background or not leaves
    the same two empty tables. *)
Definition emptyDb_one (i : nat) s : res keyspace :=
  s ← clearHotKeysWhenEmptyDb i s;
  mret (upd_db i (fun d => set_expires ∅ (set_dict ∅ d)) s).
Fixpoint emptyDb_loop (n i : nat) s : res keyspace :=
  match n with
  | O => Ok s
  | S n' => s ← emptyDb_one i s; emptyDb_loop n' (S i) s
  end.
(** [dbnum = -1] empties every database; the number of keys removed, -1 for an
    index out of range. *)
Definition emptyDbGeneric (dbnum : Z) s : res (Z * keyspace) :=
  let server_dbnum := Z.of_nat (length (dbs s)) in
  if (dbnum <? -1) || (server_dbnum <=? dbnum) then Ok (-1, s)
  else
    let '(start, n) := if dbnum =? -1 then (0%nat, length (dbs s)) else (Z.to_nat dbnum, 1%nat) in
    let removed := sum_list ((fun d => size (dict d)) <$> take n (drop start (dbs s))) in
    s ← emptyDb_loop n start s;
    mret (Z.of_nat removed, s).

Definition dbSwapDatabases (id1 id2 : Z) s : bool * keyspace :=
  let n := Z.of_nat (length (dbs s)) in
  if (id1 <? 0) || (n <=? id1) || (id2 <? 0) || (n <=? id2) then (false, s)
  else if id1 =? id2 then (true, s)
  else
    let i := Z.to_nat id1 in let j := Z.to_nat id2 in
    let a := get_db s i in let b := get_db s j in
    (true, upd_db j (fun d => set_expires (expires a) (set_dict (dict a) d))
             (upd_db i (fun d => set_expires (expires b) (set_dict (dict b) d)) s)).

(** A command that changes an object it looked up, after checking its type,
    changes it in place.  Without an object of its own of that type under the
    key there is nothing it may change. *)
Definition mutateValue (i : nat) key (type : obj_type) (enc : obj_encoding) (ptr : payload) s
  : res keyspace :=
  match dict_at s i key with
  | Some (VObj o) =>
      serverAssert (bool_decide (o_type o = type)) "type confusion" ;;
      mret (upd_db i (fun d => set_dict
        (<[key := VObj (Robj type enc (o_lru o) (o_refcount o) ptr)]> (dict d)) d) s)
  | Some InRock => Abort "write to shared.valueInRock"
  | None => Abort "write to a missing object"
  end.

(** [getDecodedObject] of a string: its characters. *)
Definition decoded (enc : obj_encoding) (ptr : payload) : option bytes :=
  match enc, ptr with
  | OBJ_ENCODING_RAW, PSds b | OBJ_ENCODING_EMBSTR, PSds b => Some b
  | OBJ_ENCODING_INT, PInt v => ll2string 32 v
  | _, _ => None
  end.
(** The characters of [shared.valueInRock], the integer 250. *)
Definition valueInRock_sds : bytes := [x32; x35; x30].
(** The object a command has looked up gets a buffer of its own.  [shared.valueInRock] is a shared integer like others. *)
Definition dbUnshareStringValue (c : server_cfg) (i : nat) key s : res keyspace :=
  match dict_at s i key with
  | Some (VObj o) =>
      serverAssert (bool_decide (o_type o = OBJ_STRING)) "o->type == OBJ_STRING" ;;
      b ← res_of_option (decoded (o_encoding o) (o_ptr o)) "Unknown encoding type";
      if negb (o_refcount o =? 1) || negb (bool_decide (o_encoding o = OBJ_ENCODING_RAW))
      then dbOverwrite c i key (createRawStringObject (cfg_env c) b) s
      else mret s
  | Some InRock => dbOverwrite c i key (createRawStringObject (cfg_env c) valueInRock_sds) s
  | None => Abort "write to a missing object"
  end.

(** How [incrDecrCommand] stores the new value of a key that has an object: in place when
    the object is its own and an integer, and no shared integer exists. *)
Definition storeInteger (c : server_cfg) (i : nat) key (value : Z) s : res keyspace :=
  match dict_at s i key with
  | Some (VObj o) =>
      if bool_decide (o_type o = OBJ_STRING ∧ o_encoding o = OBJ_ENCODING_INT) &&
         ((o_refcount o =? 1) && ((value <? 0) || (OBJ_SHARED_INTEGERS <=? value)))
      then mutateValue i key OBJ_STRING OBJ_ENCODING_INT (PInt value) s
      else dbOverwrite c i key (createStringObjectFromLongLongForValue (cfg_env c) value) s
  | Some InRock => dbOverwrite c i key (createStringObjectFromLongLongForValue (cfg_env c) value) s
  | None => Abort "write to a missing object"
  end.

(** ** Between memory and RocksDB (rock.c) *)

Definition _isValueSuitForDumpRock (i : nat) key s : res bool :=
  v ← res_of_option (dict_at s i key) "serverAssert(de)";
  mret match v with
       | InRock => false              (* shared.valueInRock has the shared count *)
       | VObj o => if bool_decide (o_type o = OBJ_STREAM) then false else o_refcount o =? 1
       end.

Definition dumpValToRock (inSubChildProcessState : bool) (i : nat) key s : res keyspace :=
  serverAssert (negb inSubChildProcessState) "!server.inSubChildProcessState" ;;
  v ← res_of_option (dict_at s i key) "serverAssert(de)";
  val ← res_of_option (match v with InRock => None | VObj o => Some o end)
          "val != shared.valueInRock";
  serverAssert (o_refcount val =? 1) "val->refcount == 1" ;;
  serVal ← serObject val;
  a ← rocksdbapi_write i key serVal (rocks s);
  let s := set_rocks a s in
  let s := upd_db i (fun d => set_dict (<[key := InRock]> (dict d)) d) s in
  serverAssert (bool_decide (key ∈ hotKeys (get_db s i))) "dictDelete(hotKeys) == DICT_OK" ;;
  mret (upd_db i (fun d => set_hotKeys (hotKeys d ∖ {[key]}) d) s).

Definition _restore_obj_from_rocksdb (env : srv_env) (i : nat) key s : res (robj * keyspace) :=
  '(o, a) ← rocksdbapi_read i key (rocks s);
  b ← res_of_option o "serverPanic: _restore_obj_from_rocksdb()";
  val ← desObject env b;
  mret (val, set_rocks a s).

(** The first part of [_clearFinishKey]. *)
Definition restore_in_db (i : nat) key (val : robj) s : res keyspace :=
  match dict_at s i key with
  | Some InRock =>
      let s := upd_db i (fun d => set_dict (<[key := VObj val]> (dict d)) d) s in
      serverAssert (bool_decide (key ∉ hotKeys (get_db s i))) "dictAdd(hotKeys) == DICT_OK" ;;
      mret (upd_db i (fun d => set_hotKeys (hotKeys d ∪ {[key]}) d) s)
  | _ => Ok s      (* deleted, updated or flushed *)
  end.

End keyspace.
Arguments keyspace R : clear implicits.
