(* ===== verification/KeyspaceInv.v ===== *)
(** * What the keyspace means, and what keeps it well formed

    [logical] is the value a key has for the clients, wherever it is stored.
    [ks_ok] says that every value in RocksDB can be read back, [hot_ok] that the
    hot keys are keys whose value is in memory.  The operations of [Keyspace]
    keep both, and change [logical] the way the same operation of a server
    without RocksDB changes its dictionary. *)

From S2P Require Import Prelude Util Robj Zset Serdes RocksApi Keyspace.
From stdpp Require Import list gmap.
#[local] Open Scope Z_scope.

(** What a client can see of an object. *)
Definition content : Type := obj_type * obj_encoding * payload.
Definition content_of (o : robj) : content := (o_type o, o_encoding o, o_ptr o).

(** The stored bytes determine the value, whatever the configuration is when
    they are read. *)
Definition any_env : srv_env := SrvEnv 0 0 0 1 0 0 0.
Definition decode (b : bytes) : option content :=
  match desObject any_env b with Ok o => Some (content_of o) | Abort _ => None end.

(** A value the server may hold: a stream, or one that can be dumped. *)
Definition val_ok (o : robj) : Prop :=
  lru_ok (o_lru o) ∧
  (o_type o = OBJ_STREAM ∨ wf_payload (o_type o) (o_encoding o) (o_ptr o)).

Section spec.
Context {R : RocksDB}.
Implicit Types (s : keyspace R) (key : bytes).

Definition logical s (i : nat) key : option content :=
  match dict_at s i key with
  | None => None
  | Some (VObj o) => Some (content_of o)
  | Some InRock => stored_val (rocks s) i key ≫= decode
  end.

(** The bytes [b] hold a dumped value. *)
Definition dump_of (o : robj) (b : bytes) : Prop := wf_robj o ∧ serObject o = Ok b.

Record ks_ok s : Prop := {
  ks_rapi : rapi_ok (length (dbs s)) (rocks s);
  ks_lru : lru_ok (rock_lru s);
  ks_rock i key : dict_at s i key = Some InRock →
    key ≠ [] ∧ ∃ o b, stored_val (rocks s) i key = Some b ∧ dump_of o b;
  ks_val i key o : dict_at s i key = Some (VObj o) → val_ok o
}.

Record hot_ok s : Prop := {
  hot_lazy : alreadyInitHotKeys s = false → ∀ i, hotKeys (get_db s i) = ∅;
  hot_mem i key : key ∈ hotKeys (get_db s i) →
    ∃ o, dict_at s i key = Some (VObj o) ∧ o_type o ≠ OBJ_STREAM;
  hot_rock i key : dict_at s i key = Some InRock → alreadyInitHotKeys s = true
}.

End spec.

(** ** Reading and updating one database *)

Section lemmas.
Context {R : RocksDB}.
Implicit Types (s : keyspace R) (key : bytes).

Lemma get_db_upd s i j f :
  get_db (upd_db i f s) j =
  if decide (j = i ∧ (i < length (dbs s))%nat) then f (get_db s i) else get_db s j.
Proof.
  unfold get_db, upd_db, set_dbs. simpl. destruct (decide (j = i)) as [->|Hne].
  - rewrite list_lookup_alter_eq. destruct (decide _) as [[_ Hl]|Hl].
    + by destruct (lookup_lt_is_Some_2 _ _ Hl) as [d ->].
    + rewrite lookup_ge_None_2; [done|]. naive_solver lia.
  - rewrite list_lookup_alter_ne by done. rewrite decide_False; naive_solver.
Qed.

Lemma length_upd s i f : length (dbs (upd_db i f s)) = length (dbs s).
Proof. apply length_alter. Qed.

Lemma get_db_upd_field {A} (g : redisDb → A) s i j f :
  (∀ d, g (f d) = g d) → g (get_db (upd_db i f s) j) = g (get_db s j).
Proof. intros Hg. rewrite get_db_upd. case_decide as H; [|done]. destruct H as [-> _]. apply Hg. Qed.

Lemma dict_at_valid s i key v : dict_at s i key = Some v → (i < length (dbs s))%nat.
Proof.
  unfold dict_at, get_db. destruct (dbs s !! i) eqn:Hi; simpl; [|by rewrite lookup_empty].
  intros _. by apply lookup_lt_Some in Hi.
Qed.

Lemma dict_at_upd_other s i f j key :
  (∀ d, dict (f d) = dict d) → dict_at (upd_db i f s) j key = dict_at s j key.
Proof. intros Hf. unfold dict_at. by rewrite (get_db_upd_field dict). Qed.

Lemma dict_at_insert s i key v j k :
  (i < length (dbs s))%nat →
  dict_at (upd_db i (fun d => set_dict (<[key := v]> (dict d)) d) s) j k
  = if decide ((j, k) = (i, key)) then Some v else dict_at s j k.
Proof.
  intros Hi. unfold dict_at. rewrite get_db_upd. repeat case_decide; simplify_eq; try naive_solver.
  - simpl. apply lookup_insert_eq.
  - destruct H as [-> _]. simpl. rewrite lookup_insert_ne; [done|]. congruence.
Qed.

Lemma dict_at_delete s i key j k :
  dict_at (upd_db i (fun d => set_dict (delete key (dict d)) d) s) j k
  = if decide ((j, k) = (i, key)) then None else dict_at s j k.
Proof.
  unfold dict_at. rewrite get_db_upd.
  destruct (decide ((j, k) = (i, key))) as [[= -> ->]|Hne]; case_decide as Hd.
  - simpl. apply lookup_delete_eq.
  - unfold get_db. rewrite (proj2 (lookup_ge_None _ _)) by naive_solver lia. apply lookup_empty.
  - destruct Hd as [-> _]. simpl. rewrite lookup_delete_ne; [done|]. congruence.
  - done.
Qed.

Lemma hot_upd s i f j :
  hotKeys (get_db (upd_db i f s) j) =
  if decide (j = i ∧ (i < length (dbs s))%nat) then hotKeys (f (get_db s i)) else hotKeys (get_db s j).
Proof. rewrite get_db_upd. by case_decide. Qed.

Lemma hot_upd_other s i f j :
  (∀ d, hotKeys (f d) = hotKeys d) → hotKeys (get_db (upd_db i f s) j) = hotKeys (get_db s j).
Proof. apply get_db_upd_field. Qed.

Lemma get_db_empty s i : ¬ (i < length (dbs s))%nat → get_db s i = empty_db.
Proof. intros Hi. unfold get_db. by rewrite lookup_ge_None_2 by lia. Qed.

(** ** Decoding *)

Lemma decode_dump o b : dump_of o b → decode b = Some (content_of o).
Proof.
  intros [Hwf Hs]. destruct (serdes_readable any_env o Hwf) as (b' & Hs' & Hd).
  rewrite Hs in Hs'. injection Hs' as <-. unfold decode. by rewrite Hd.
Qed.

Lemma desObject_dump env o b : dump_of o b → desObject env b = Ok (restored env o).
Proof.
  intros [Hwf Hs]. destruct (serdes_readable env o Hwf) as (b' & Hs' & Hd).
  rewrite Hs in Hs'. by injection Hs' as <-.
Qed.

Lemma wf_robj_not_stream o : wf_robj o → o_type o ≠ OBJ_STREAM.
Proof. intros [_ Hp] Ht. rewrite Ht in Hp. by destruct (o_encoding o), (o_ptr o). Qed.

Lemma val_ok_restored env o : wf_robj o → val_ok (restored env o).
Proof. intros [Hl Hp]. split; [done|by right]. Qed.

Lemma val_ok_wf o : val_ok o → o_type o ≠ OBJ_STREAM → wf_robj o.
Proof. intros [Hl [Ht|Hp]] Hn; [done|by split]. Qed.

Lemma val_ok_set_lru o lru : val_ok o → lru_ok lru → val_ok (set_lru lru o).
Proof. intros [_ H] Hl. by split. Qed.

Lemma initial_lru_ok env : wf_env env → lru_ok (initial_lru env).
Proof.
  intros Hw. unfold initial_lru, lru_ok. destruct (policy_has _ _).
  - pose proof (minutes_range env). rewrite Z.lor_comm, <- Z.add_nocarry_lor.
    + rewrite Z.shiftl_mul_pow2 by lia. unfold LFU_INIT_VAL. lia.
    + apply Z.bits_inj'. intros n Hn. rewrite Z.land_spec, Z.bits_0, Z.shiftl_spec by done.
      destruct (Z.ltb_spec n 8); [rewrite (Z.testbit_neg_r _ (n - 8)) by lia; apply andb_false_r|].
      unfold LFU_INIT_VAL. rewrite (Z.bits_above_log2 5 n); [done|lia|]. change (Z.log2 5) with 2. lia.
  - pose proof (LRU_CLOCK_range env Hw) as H. change (2 ^ 24) with (LRU_CLOCK_MAX + 1). lia.
Qed.

Lemma val_ok_raw env b : wf_env env → val_ok (createRawStringObject env b).
Proof. intros Hw. split; [by apply initial_lru_ok|by right]. Qed.

Lemma val_ok_integer env v :
  wf_env env → is_ll v →
  val_ok (createStringObjectFromLongLongForValue env v) ∧
  content_of (createStringObjectFromLongLongForValue env v) = (OBJ_STRING, OBJ_ENCODING_INT, PInt v).
Proof.
  intros Hw Hv. unfold createStringObjectFromLongLongForValue, createStringObjectFromLongLongWithOptions.
  destruct (_ && _ && _); [by split; [split; [|by right]|]|].
  rewrite (proj2 (Z.leb_le _ _)), (proj2 (Z.leb_le _ _)) by apply Hv. simpl.
  split; [split; [by apply initial_lru_ok|by right]|done].
Qed.

Lemma decoded_wf enc ptr : wf_payload OBJ_STRING enc ptr → ∃ b, decoded enc ptr = Some b.
Proof.
  destruct enc, ptr; simpl; try done; eauto. intros Hv. rewrite ll2string_32 by done. eauto.
Qed.

Lemma touch_lru_ok c draw lru : wf_env (cfg_env c) → lru_ok (touch_lru c draw lru).
Proof.
  intros Hw. unfold touch_lru. case_match.
  - unfold updateLFU, lru_ok. apply Z.mod_pos_bound. done.
  - pose proof (LRU_CLOCK_range _ Hw). unfold lru_ok. change LRU_CLOCK_MAX with (2 ^ 24 - 1) in *. lia.
Qed.

(** ** Frames *)

Lemma ks_ok_frame s s' :
  ks_ok s → length (dbs s') = length (dbs s) → rocks s' = rocks s → lru_ok (rock_lru s') →
  (∀ i k v, dict_at s' i k = Some v →
     dict_at s i k = Some v ∨ ∃ o, v = VObj o ∧ val_ok o) →
  ks_ok s'.
Proof.
  intros [Ha Hlr Hr Hv] Hl Hro Hlr' Hd. split; rewrite ?Hro.
  - by rewrite Hl.
  - done.
  - intros i k Hi. destruct (Hd _ _ _ Hi) as [H|(o & [=] & _)]. eauto.
  - intros i k o Hi. destruct (Hd _ _ _ Hi) as [H|(o' & [= ->] & ?)]; eauto.
Qed.

(** The parts an update of the hot keys or the expires leaves alone. *)
Record same_data s s' : Prop := {
  sd_len : length (dbs s') = length (dbs s);
  sd_init : alreadyInitHotKeys s' = alreadyInitHotKeys s;
  sd_lru : rock_lru s' = rock_lru s;
  sd_rocks : rocks s' = rocks s;
  sd_dict i k : dict_at s' i k = dict_at s i k;
  sd_rockKeys i : rockKeys (get_db s' i) = rockKeys (get_db s i)
}.

Lemma same_data_hot i h s : same_data s (upd_db i (fun d => set_hotKeys (h d) d) s).
Proof.
  split; try done.
  - apply length_upd.
  - intros. by apply dict_at_upd_other.
  - intros. by apply get_db_upd_field.
Qed.

Lemma same_data_exp i h s : same_data s (upd_db i (fun d => set_expires (h d) d) s).
Proof.
  split; try done.
  - apply length_upd.
  - intros. by apply dict_at_upd_other.
  - intros. by apply get_db_upd_field.
Qed.

Lemma same_data_refl s : same_data s s.
Proof. by split. Qed.

Lemma same_data_addHot i key v s : same_data s (addHotKeyIfNeed i key v s).
Proof.
  unfold addHotKeyIfNeed. repeat case_match;
    first [apply same_data_refl | apply (same_data_hot i (fun d => hotKeys d ∖ {[key]}))
          | apply (same_data_hot i (fun d => hotKeys d ∪ {[key]}))].
Qed.

Lemma same_data_delHot i key s : same_data s (deleteHotKeyIfNeed i key s).
Proof.
  unfold deleteHotKeyIfNeed. case_match; [apply same_data_refl|].
  apply (same_data_hot i (fun d => hotKeys d ∖ {[key]})).
Qed.

Lemma expires_addHot i key v s j :
  expires (get_db (addHotKeyIfNeed i key v s) j) = expires (get_db s j).
Proof. unfold addHotKeyIfNeed. by repeat case_match; try apply get_db_upd_field. Qed.

Lemma expires_delHot i key s j :
  expires (get_db (deleteHotKeyIfNeed i key s) j) = expires (get_db s j).
Proof. unfold deleteHotKeyIfNeed. by case_match; try apply get_db_upd_field. Qed.

Lemma ks_ok_same_data s s' : same_data s s' → ks_ok s → ks_ok s'.
Proof.
  intros [Hl _ Hlr Hr Hd _] Hok. apply (ks_ok_frame s); try done.
  - rewrite Hlr. apply Hok.
  - intros i k v. rewrite Hd. by left.
Qed.

Lemma logical_same_data s s' i k : same_data s s' → logical s' i k = logical s i k.
Proof. intros H. unfold logical. by rewrite (sd_dict _ _ H), (sd_rocks _ _ H). Qed.

Lemma addHot_elem i key o s j k :
  k ∈ hotKeys (get_db (addHotKeyIfNeed i key (Some (VObj o)) s) j) →
  alreadyInitHotKeys s = true →
  ((j, k) = (i, key) ∧ o_type o ≠ OBJ_STREAM) ∨
  ((j, k) ≠ (i, key) ∧ k ∈ hotKeys (get_db s j)).
Proof.
  intros Hk Hi. destruct (decide ((j, k) = (i, key))) as [[= -> ->]|Hne].
  - left. split; [done|]. intros Ht. revert Hk. unfold addHotKeyIfNeed. rewrite Hi. simpl.
    rewrite bool_decide_eq_true_2 by done. simpl. rewrite hot_upd. simpl. case_decide as Hd; [set_solver|].
    rewrite get_db_empty by naive_solver. simpl. set_solver.
  - right. split; [done|]. revert Hk. unfold addHotKeyIfNeed. rewrite Hi. simpl.
    destruct (_ || _); rewrite hot_upd; case_decide as Hd; try tauto;
      destruct Hd as [-> _]; simpl; set_solver.
Qed.

Lemma delHot_elem i key s j k :
  k ∈ hotKeys (get_db (deleteHotKeyIfNeed i key s) j) → hot_ok s →
  (j, k) ≠ (i, key) ∧ k ∈ hotKeys (get_db s j).
Proof.
  intros Hk Hok. unfold deleteHotKeyIfNeed in Hk. destruct (alreadyInitHotKeys s) eqn:Hi; simpl in Hk.
  - rewrite hot_upd in Hk. case_decide as Hd.
    + destruct Hd as [-> _]. simpl in Hk. set_solver.
    + split; [|done]. intros [= -> ->]. revert Hk. rewrite get_db_empty by naive_solver. simpl. set_solver.
  - rewrite (hot_lazy s Hok Hi) in Hk. set_solver.
Qed.

End lemmas.

(** ** Operations on one entry *)

Section operations.
Context {R : RocksDB}.
Implicit Types (s : keyspace R) (key : bytes).

(** [s'] is [s] with the entry of [key] replaced by [v]; hot keys and expires
    are left open. *)
Record writes (i : nat) (key : bytes) (v : option dval) s s' : Prop := {
  wr_len : length (dbs s') = length (dbs s);
  wr_init : alreadyInitHotKeys s' = alreadyInitHotKeys s;
  wr_lru : rock_lru s' = rock_lru s;
  wr_rocks : rocks s' = rocks s;
  wr_dict j k : dict_at s' j k = if decide ((j, k) = (i, key)) then v else dict_at s j k;
  wr_rockKeys j : rockKeys (get_db s' j) = rockKeys (get_db s j)
}.

Lemma writes_insert i key v s :
  (i < length (dbs s))%nat →
  writes i key (Some v) s (upd_db i (fun d => set_dict (<[key := v]> (dict d)) d) s).
Proof.
  split; try done; [apply length_upd| |].
  - intros. by apply dict_at_insert.
  - intros. by apply get_db_upd_field.
Qed.

Lemma writes_delete i key s :
  writes i key None s (upd_db i (fun d => set_dict (delete key (dict d)) d) s).
Proof.
  split; try done; [apply length_upd| |].
  - intros. by apply dict_at_delete.
  - intros. by apply get_db_upd_field.
Qed.

Lemma writes_same_data_l i key v s s1 s2 : same_data s s1 → writes i key v s1 s2 → writes i key v s s2.
Proof.
  intros [] []. split; try congruence.
  intros j k. rewrite wr_dict0. by case_decide.
Qed.
Lemma writes_same_data_r i key v s s1 s2 : writes i key v s s1 → same_data s1 s2 → writes i key v s s2.
Proof.
  intros [] []. split; try congruence.
  intros j k. by rewrite sd_dict0, wr_dict0.
Qed.

Lemma ks_ok_writes i key v s s' :
  writes i key v s s' → (∀ d, v = Some d → ∃ o, d = VObj o ∧ val_ok o) → ks_ok s → ks_ok s'.
Proof.
  intros [Hl _ Hlr Hr Hd _] Hv Hok. apply (ks_ok_frame s); try done.
  - rewrite Hlr. apply Hok.
  - intros j k w. rewrite Hd. case_decide; eauto.
Qed.

Definition content_dval (v : dval) : option content :=
  match v with VObj o => Some (content_of o) | InRock => None end.

Lemma logical_writes i key v s s' j k :
  writes i key v s s' → v ≠ Some InRock →
  logical s' j k = if decide ((j, k) = (i, key)) then v ≫= content_dval else logical s j k.
Proof.
  intros [_ _ _ Hr Hd _] Hv. unfold logical. rewrite Hd, Hr. case_decide; [|done].
  by destruct v as [[|o]|].
Qed.

(** What [dbAdd] and [dbOverwrite] do once their assertion holds. *)
Definition put_obj (i : nat) key (o : robj) s : keyspace R :=
  addHotKeyIfNeed i key (Some (VObj o))
    (upd_db i (fun d => set_dict (<[key := VObj o]> (dict d)) d) s).

Lemma put_obj_writes i key o s :
  (i < length (dbs s))%nat → writes i key (Some (VObj o)) s (put_obj i key o s).
Proof.
  intros Hi. eapply writes_same_data_r; [by apply writes_insert|apply same_data_addHot].
Qed.

Lemma put_obj_expires i key o s j :
  expires (get_db (put_obj i key o s) j) = expires (get_db s j).
Proof.
  unfold put_obj. rewrite expires_addHot. by apply get_db_upd_field.
Qed.

Lemma put_obj_hot i key o s :
  (i < length (dbs s))%nat → hot_ok s → hot_ok (put_obj i key o s).
Proof.
  intros Hi Hok. pose proof (put_obj_writes i key o s Hi) as Hw. split.
  - rewrite (wr_init _ _ _ _ _ Hw). intros Hf j. unfold put_obj, addHotKeyIfNeed. simpl.
    rewrite Hf. simpl. rewrite hot_upd_other by done. by apply Hok.
  - intros j k Hk. rewrite (wr_dict _ _ _ _ _ Hw).
    destruct (alreadyInitHotKeys s) eqn:Hinit.
    + apply addHot_elem in Hk as [[Heq Ht]|[Hne Hk]]; [| |done].
      * rewrite decide_True by done. eauto.
      * rewrite decide_False by done. rewrite hot_upd_other in Hk by done. by apply Hok.
    + exfalso. unfold put_obj, addHotKeyIfNeed in Hk. simpl in Hk. rewrite Hinit in Hk.
      simpl in Hk. rewrite hot_upd_other, (hot_lazy s Hok Hinit) in Hk by done. set_solver.
  - intros j k. rewrite (wr_dict _ _ _ _ _ Hw), (wr_init _ _ _ _ _ Hw).
    case_decide; [done|]. by apply Hok.
Qed.

(** A deletion that takes the key out of the hot keys as well. *)
Lemma hot_ok_delete i key s s' :
  hot_ok s → writes i key None s s' →
  (∀ j k, k ∈ hotKeys (get_db s' j) → (j, k) ≠ (i, key) ∧ k ∈ hotKeys (get_db s j)) →
  hot_ok s'.
Proof.
  intros Hok Hw Hh. split.
  - rewrite (wr_init _ _ _ _ _ Hw). intros Hf j. apply set_eq. intros k. split; [|set_solver].
    intros [_ Hk]%Hh. by rewrite (hot_lazy s Hok Hf) in Hk.
  - intros j k Hk. apply Hh in Hk as [Hne Hk].
    rewrite (wr_dict _ _ _ _ _ Hw), decide_False by done. by apply Hok.
  - intros j k. rewrite (wr_dict _ _ _ _ _ Hw), (wr_init _ _ _ _ _ Hw).
    case_decide; [done|]. by apply Hok.
Qed.

Lemma hot_ok_same_data s s' :
  hot_ok s → same_data s s' → (∀ j, hotKeys (get_db s' j) ⊆ hotKeys (get_db s j)) → hot_ok s'.
Proof.
  intros Hok Hd Hh. split.
  - rewrite (sd_init _ _ Hd). intros Hf j. specialize (Hh j). rewrite (hot_lazy s Hok Hf) in Hh. set_solver.
  - intros j k Hk%Hh. rewrite (sd_dict _ _ Hd). by apply Hok.
  - intros j k. rewrite (sd_dict _ _ Hd), (sd_init _ _ Hd). apply Hok.
Qed.

(** The expires after the deletion of a key. *)
Definition expires_without i key s s' : Prop :=
  ∀ j, expires (get_db s' j) =
    if decide (j = i) then delete key (expires (get_db s i)) else expires (get_db s j).

Lemma expires_delete i key s :
  expires_without i key s (upd_db i (fun d => set_expires (delete key (expires d)) d) s).
Proof.
  intros j. rewrite get_db_upd. destruct (decide (j = i)) as [->|].
  - case_decide; [done|]. rewrite get_db_empty by naive_solver. symmetry. apply delete_empty.
  - by rewrite decide_False by naive_solver.
Qed.

Lemma dbAsyncDelete_spec i key s b s' :
  dbAsyncDelete i key s = (b, s') →
  b = bool_decide (dict_at s i key ≠ None) ∧ writes i key None s s' ∧ expires_without i key s s' ∧
  (∀ j, hotKeys (get_db s' j) = hotKeys (get_db s j)).
Proof.
  intros [= <- <-]. split; [done|]. split_and!.
  - eapply writes_same_data_l; [|apply writes_delete].
    apply (same_data_exp i (fun d => delete key (expires d))).
  - intros j. rewrite (get_db_upd_field expires) by done. apply expires_delete.
  - intros j. by rewrite !hot_upd_other.
Qed.

Lemma dbSyncDelete_spec i key s b s' :
  dbSyncDelete i key s = (b, s') →
  b = bool_decide (dict_at s i key ≠ None) ∧ writes i key None s s' ∧ expires_without i key s s' ∧
  (hot_ok s → hot_ok s').
Proof.
  intros [= <- <-].
  set (s1 := upd_db i (fun d => set_expires (delete key (expires d)) d) s).
  assert (same_data s s1) as Hs1 by apply (same_data_exp i (fun d => delete key (expires d))).
  assert (writes i key None s (upd_db i (fun d => set_dict (delete key (dict d)) d)
            (deleteHotKeyIfNeed i key s1))) as Hw.
  { eapply writes_same_data_l; [exact Hs1|]. eapply writes_same_data_l; [apply same_data_delHot|].
    apply writes_delete. }
  split; [done|]. split_and!; [done| |].
  - intros j. rewrite (get_db_upd_field expires) by done. rewrite expires_delHot. apply expires_delete.
  - intros Hok. eapply hot_ok_delete; [done|done|]. intros j k Hk. rewrite hot_upd_other in Hk by done.
    apply delHot_elem in Hk.
    + unfold s1 in Hk. by rewrite hot_upd_other in Hk.
    + eapply hot_ok_same_data; [done|done|]. intros ?. unfold s1. by rewrite hot_upd_other.
Qed.

Lemma dbDelete_spec c i key s b s' :
  dbDelete c i key s = (b, s') →
  b = bool_decide (dict_at s i key ≠ None) ∧ writes i key None s s' ∧ expires_without i key s s' ∧
  (hot_ok s → hot_ok s').
Proof.
  unfold dbDelete. intros Hd.
  pose proof (same_data_delHot i key s) as Hs1.
  assert (∀ s1, expires_without i key (deleteHotKeyIfNeed i key s) s1 → expires_without i key s s1)
    as Hexp by (intros s1 He j; rewrite He, !expires_delHot; done).
  destruct (lazyfree_lazy_server_del c).
  - apply dbAsyncDelete_spec in Hd as (-> & Hw & He & Hh). rewrite (sd_dict _ _ Hs1).
    assert (writes i key None s s') by (by eapply writes_same_data_l).
    split_and!; [done|done|by apply Hexp|].
    intros Hok. eapply hot_ok_delete; [done|done|]. intros j k. rewrite Hh. intros Hk.
    by apply delHot_elem in Hk.
  - apply dbSyncDelete_spec in Hd as (-> & Hw & He & Hh). rewrite (sd_dict _ _ Hs1).
    split_and!; [done|by eapply writes_same_data_l|by apply Hexp|].
    intros Hok. apply Hh. eapply hot_ok_same_data; [done|done|].
    intros j k Hk. by apply delHot_elem in Hk as [_ ?].
Qed.

(** Equal but for the LRU word. *)
Definition dval_eqv (v w : dval) : Prop :=
  match v, w with
  | InRock, InRock => True
  | VObj o, VObj o' => content_of o = content_of o' ∧ o_refcount o = o_refcount o'
  | _, _ => False
  end.
Lemma dval_eqv_refl v : dval_eqv v v.
Proof. by destruct v. Qed.

Record touched s s' : Prop := {
  to_len : length (dbs s') = length (dbs s);
  to_init : alreadyInitHotKeys s' = alreadyInitHotKeys s;
  to_rocks : rocks s' = rocks s;
  to_dict j k : option_Forall2 dval_eqv (dict_at s j k) (dict_at s' j k);
  to_expires j : expires (get_db s' j) = expires (get_db s j);
  to_rockKeys j : rockKeys (get_db s' j) = rockKeys (get_db s j);
  to_hot j : hotKeys (get_db s' j) = hotKeys (get_db s j)
}.

Lemma touched_refl s : touched s s.
Proof.
  split; try done. intros. destruct (dict_at s j k); constructor. apply dval_eqv_refl.
Qed.

Lemma touched_logical s s' j k : touched s s' → logical s' j k = logical s j k.
Proof.
  intros H. unfold logical. rewrite (to_rocks _ _ H).
  destruct (to_dict _ _ H j k) as [[|o] [|o'] Hv|]; try simpl in Hv; try done. by destruct Hv as [-> _].
Qed.

Lemma touched_in_rock s s' j k : touched s s' → dict_at s' j k = Some InRock ↔ dict_at s j k = Some InRock.
Proof.
  intros H. by destruct (to_dict _ _ H j k) as [[|o] [|o'] Hv|]; try simpl in Hv.
Qed.

Lemma touched_none s s' j k : touched s s' → dict_at s' j k = None ↔ dict_at s j k = None.
Proof. intros H. by destruct (to_dict _ _ H j k) as [v w Hv|]. Qed.

Lemma touched_hot_ok s s' : touched s s' → hot_ok s → hot_ok s'.
Proof.
  intros H Hok. split.
  - rewrite (to_init _ _ H). intros Hf j. rewrite (to_hot _ _ H). by apply Hok.
  - intros j k. rewrite (to_hot _ _ H). intros (o & Ho & Ht)%Hok.
    pose proof (to_dict _ _ H j k) as Hd. rewrite Ho in Hd.
    inversion Hd as [? [|o'] Hv E1 E2|]; subst; [done|].
    destruct Hv as [Hc _]. exists o'. split; [done|]. unfold content_of in Hc. congruence.
  - intros j k. rewrite (to_init _ _ H), (touched_in_rock _ _ _ _ H). apply Hok.
Qed.

Lemma lookupKey_spec c draw notouch i key s r s' :
  lookupKey c draw notouch i key s = (r, s') → wf_env (cfg_env c) →
  r = dict_at s' i key ∧ touched s s' ∧ (ks_ok s → ks_ok s').
Proof.
  intros Hl Hw. unfold lookupKey in Hl.
  destruct (dict_at s i key) as [v|] eqn:Hd; [|injection Hl as <- <-; by auto using touched_refl].
  destruct (negb _ && negb _); [|injection Hl as <- <-; by auto using touched_refl].
  pose proof (touch_lru_ok c draw) as Htl.
  destruct v as [|o]; injection Hl as <- <-.
  - split; [done|]. split; [|intros Hok; apply (ks_ok_frame s); try done; [by apply Htl|by left]].
    pose proof (touched_refl s) as []. by split.
  - pose proof (dict_at_valid _ _ _ _ Hd) as Hi.
    pose proof (writes_insert i key (VObj (set_lru (touch_lru c draw (o_lru o)) o)) s Hi) as Hwr.
    split; [|split].
    + by rewrite (wr_dict _ _ _ _ _ Hwr), decide_True.
    + split; try apply Hwr.
      * intros j k. rewrite (wr_dict _ _ _ _ _ Hwr). case_decide as He.
        { injection He as -> ->. rewrite Hd. by constructor. }
        destruct (dict_at s j k); constructor. apply dval_eqv_refl.
      * intros j. by apply get_db_upd_field.
      * intros j. by apply get_db_upd_field.
    + intros Hok. eapply ks_ok_writes; [exact Hwr| |done].
      intros ? [= <-]. eexists. split; [done|].
      apply val_ok_set_lru; [by eapply ks_val|by apply Htl].
Qed.

Context {L : RocksDBLaws R}.

Lemma dumpValToRock_inv sub i key s s' :
  dumpValToRock sub i key s = Ok s' →
  ∃ o b a, dict_at s i key = Some (VObj o) ∧ o_refcount o = 1 ∧ serObject o = Ok b ∧
    rocksdbapi_write i key b (rocks s) = Ok a ∧ key ≠ [] ∧
    key ∈ hotKeys (get_db s i) ∧
    s' = upd_db i (fun d => set_hotKeys (hotKeys d ∖ {[key]}) d)
           (upd_db i (fun d => set_dict (<[key := InRock]> (dict d)) d) (set_rocks a s)).
Proof.
  unfold dumpValToRock. intros H.
  apply bind_Ok in H as (_ & _ & H).
  apply bind_Ok in H as (v & Hd & H). apply res_of_option_Ok in Hd.
  apply bind_Ok in H as (o & Ho & H). apply res_of_option_Ok in Ho.
  destruct v as [|o']; simplify_eq.
  apply bind_Ok in H as ([] & Hrc & H). apply serverAssert_Ok in Hrc.
  apply bind_Ok in H as (b & Hser & H).
  apply bind_Ok in H as (a & Hw & H).
  apply bind_Ok in H as ([] & Hhot & H). apply serverAssert_Ok, bool_decide_eq_true in Hhot.
  injection H as <-. rewrite hot_upd_other in Hhot by done.
  exists o, b, a. split_and!; try done; [lia|].
  unfold rocksdbapi_write in Hw. apply bind_Ok in Hw as (_ & _ & Hw).
  apply bind_Ok in Hw as ([] & Hk & _). by apply serverAssert_Ok, bool_decide_eq_true in Hk as [? _].
Qed.

(** Dumping moves a value without changing it. *)
Lemma dumpValToRock_spec sub i key s s' :
  dumpValToRock sub i key s = Ok s' → ks_ok s → hot_ok s →
  ks_ok s' ∧ hot_ok s' ∧ (∀ j k, logical s' j k = logical s j k) ∧
  (∀ j k, dict_at s' j k = if decide ((j, k) = (i, key)) then Some InRock else dict_at s j k) ∧
  (∀ j, expires (get_db s' j) = expires (get_db s j)) ∧
  (∀ j, rockKeys (get_db s' j) = rockKeys (get_db s j)) ∧
  (∀ j k, (j, k) ≠ (i, key) → stored_val (rocks s') j k = stored_val (rocks s) j k) ∧
  length (dbs s') = length (dbs s).
Proof.
  intros (o & b & a & Hd & _ & Hser & Hwr & Hne & Hin & ->)%dumpValToRock_inv Hks Hhot.
  pose proof (dict_at_valid _ _ _ _ Hd) as Hi.
  apply rocksdbapi_write_spec in Hwr as (Hst & Hoth & Hrapi).
  destruct (hot_mem s Hhot i key Hin) as (o' & Ho' & Hty). rewrite Hd in Ho'. injection Ho' as <-.
  assert (dump_of o b) as Hdump by (split; [by eapply val_ok_wf, Hty; eapply ks_val|done]).
  set (s1 := upd_db i (fun d => set_dict (<[key := InRock]> (dict d)) d) (set_rocks a s)).
  set (s2 := upd_db i (fun d => set_hotKeys (hotKeys d ∖ {[key]}) d) s1).
  assert (∀ j k, dict_at s2 j k = if decide ((j, k) = (i, key)) then Some InRock else dict_at s j k)
    as Hdict.
  { intros j k. unfold s2. rewrite dict_at_upd_other by done. unfold s1. by rewrite dict_at_insert. }
  assert (∀ j k, k ∈ hotKeys (get_db s2 j) → (j, k) ≠ (i, key) ∧ k ∈ hotKeys (get_db s j)) as Hh.
  { intros j k Hk. unfold s2 in Hk. rewrite hot_upd in Hk. case_decide as Hj.
    - destruct Hj as [-> _]. simpl in Hk. unfold s1 in Hk. rewrite hot_upd_other in Hk by done.
      change (get_db (set_rocks a s) i) with (get_db s i) in Hk. set_solver.
    - unfold s1 in Hk, Hj. rewrite length_upd in Hj. rewrite hot_upd_other in Hk by done.
      split; [|done]. intros [= -> ->]. by apply Hj. }
  split_and!; try done.
  - split.
    + unfold s2, s1. rewrite !length_upd. apply Hrapi, Hks.
    + apply Hks.
    + intros j k. rewrite Hdict. change (rocks s2) with a. case_decide as He.
      * injection He as -> ->. intros _. eauto.
      * rewrite Hoth by done. by apply Hks.
    + intros j k o1. rewrite Hdict. case_decide; [done|]. by apply Hks.
  - split.
    + intros Hf j. apply set_eq. intros k. split; [|set_solver]. intros [_ Hk]%Hh.
      by rewrite (hot_lazy s Hhot Hf) in Hk.
    + intros j k [Hn Hk]%Hh. rewrite Hdict, decide_False by done. by apply Hhot.
    + intros _ _ _. change (alreadyInitHotKeys s = true).
      apply not_false_is_true. intros Hf. rewrite (hot_lazy s Hhot Hf) in Hin. set_solver.
  - intros j k. unfold logical. rewrite Hdict. change (rocks s2) with a. case_decide as He.
    + injection He as -> ->. rewrite Hd, Hst. simpl. by apply decode_dump.
    + by rewrite Hoth.
  - intros j. unfold s2, s1. by rewrite !(get_db_upd_field expires).
  - intros j. unfold s2, s1. by rewrite !(get_db_upd_field rockKeys).
  - unfold s2, s1. by rewrite !length_upd.
Qed.

(** Restoring the value that was dumped does not change it either. *)
Lemma restore_in_db_spec i key val s s' :
  restore_in_db i key val s = Ok s' → ks_ok s → hot_ok s →
  (dict_at s i key = Some InRock →
     logical s i key = Some (content_of val) ∧ val_ok val ∧ o_type val ≠ OBJ_STREAM) →
  ks_ok s' ∧ hot_ok s' ∧ (∀ j k, logical s' j k = logical s j k) ∧
  rocks s' = rocks s ∧ alreadyInitHotKeys s' = alreadyInitHotKeys s ∧
  (∀ j k, dict_at s' j k = Some InRock → dict_at s j k = Some InRock ∧ (j, k) ≠ (i, key)) ∧
  (∀ j, expires (get_db s' j) = expires (get_db s j)) ∧
  (∀ j, rockKeys (get_db s' j) = rockKeys (get_db s j)) ∧
  length (dbs s') = length (dbs s).
Proof.
  intros Hr Hks Hhot Hval. unfold restore_in_db in Hr.
  destruct (dict_at s i key) as [[|o]|] eqn:Hd.
  2,3: injection Hr as <-; split_and!; try done; intros j k Hj; split; [done|];
       intros [= -> ->]; congruence.
  destruct (Hval eq_refl) as (Hlog & Hvok & Hty). pose proof (hot_rock s Hhot i key Hd) as Hinit.
  pose proof (dict_at_valid _ _ _ _ Hd) as Hi.
  apply bind_Ok in Hr as (_ & _ & Hr). injection Hr as <-.
  pose proof (writes_insert i key (VObj val) s Hi) as Hw1.
  set (s1 := upd_db i (fun d => set_dict (<[key := VObj val]> (dict d)) d) s) in *.
  pose proof (same_data_hot i (fun d => hotKeys d ∪ {[key]}) s1) as Hsd.
  pose proof (writes_same_data_r _ _ _ _ _ _ Hw1 Hsd) as Hw.
  set (s2 := upd_db i _ s1) in *.
  split_and!; try apply Hw.
  - eapply ks_ok_writes; [exact Hw| |done]. intros ? [= <-]. eauto.
  - split.
    + rewrite (wr_init _ _ _ _ _ Hw). congruence.
    + intros j k Hk. rewrite (wr_dict _ _ _ _ _ Hw). case_decide as He; [eauto|].
      apply Hhot. unfold s2 in Hk. rewrite hot_upd in Hk. case_decide as Hj.
      * destruct Hj as [-> _]. simpl in Hk. unfold s1 in Hk. rewrite hot_upd_other in Hk by done. set_solver.
      * unfold s1 in Hk. by rewrite hot_upd_other in Hk.
    + intros _ _ _. by rewrite (wr_init _ _ _ _ _ Hw).
  - intros j k. rewrite (logical_writes _ _ _ _ _ _ _ Hw) by done. case_decide as He; [|done].
    by injection He as -> ->.
  - intros j k. rewrite (wr_dict _ _ _ _ _ Hw). by case_decide.
  - intros j. unfold s2, s1. by rewrite !(get_db_upd_field expires).
Qed.

(** ** No assertion fails *)

Lemma dump_of_nonempty o b : dump_of o b → b ≠ [].
Proof. intros H ->. apply (desObject_dump any_env) in H. done. Qed.

(** A value that is suitable is written; what is left is the hot key. *)
Lemma dumpValToRock_suit `{!RocksDBReliable R} i key s :
  ks_ok s → key ≠ [] → _isValueSuitForDumpRock i key s = Ok true →
  ∃ s', dumpValToRock false i key s =
    if bool_decide (key ∈ hotKeys (get_db s i)) then Ok s' else Abort "dictDelete(hotKeys) == DICT_OK".
Proof.
  intros Hks Hk Hsuit. unfold _isValueSuitForDumpRock in Hsuit.
  destruct (dict_at s i key) as [[|o]|] eqn:Hd; [done| |done]. simpl in Hsuit.
  pose proof (dict_at_valid _ _ _ _ Hd) as Hi.
  destruct (decide (o_type o = OBJ_STREAM)) as [Hty|Hty];
    [by rewrite bool_decide_eq_true_2 in Hsuit|rewrite bool_decide_eq_false_2 in Hsuit by done].
  assert ((o_refcount o =? 1) = true) as Hrc by (by injection Hsuit).
  assert (wf_robj o) as Hwf by (apply val_ok_wf; [by eapply ks_val|done]).
  destruct (serdes_readable any_env o Hwf) as (b & Hser & _).
  assert (b ≠ []) as Hb by (by apply (dump_of_nonempty o)).
  destruct (rocksdbapi_write_total _ i key b (rocks s) (ks_rapi s Hks) Hi Hk Hb) as (a & Hw).
  unfold dumpValToRock. rewrite Hd. simpl. rewrite Hrc. simpl. rewrite Hser. simpl. rewrite Hw. simpl.
  rewrite hot_upd_other by done. change (get_db (set_rocks a s) i) with (get_db s i).
  eexists. by destruct (bool_decide _).
Qed.

Lemma dumpValToRock_total `{!RocksDBReliable R} i key s :
  ks_ok s → hot_ok s → key ∈ hotKeys (get_db s i) → key ≠ [] →
  _isValueSuitForDumpRock i key s = Ok true →
  ∃ s', dumpValToRock false i key s = Ok s'.
Proof.
  intros Hks _ Hin Hk Hsuit. destruct (dumpValToRock_suit i key s Hks Hk Hsuit) as (s' & ->).
  rewrite bool_decide_eq_true_2 by done. eauto.
Qed.

Lemma restore_in_db_total i key val s : hot_ok s → ∃ s', restore_in_db i key val s = Ok s'.
Proof.
  intros Hhot. unfold restore_in_db. destruct (dict_at s i key) as [[|o]|] eqn:Hd; eauto.
  rewrite hot_upd_other, bool_decide_eq_true_2; [simpl; eauto| |done].
  intros Hin. apply (hot_mem s Hhot) in Hin as (o & Ho & _). congruence.
Qed.

(** A value in RocksDB can be read. *)
Lemma restore_obj_stored env i key o b s :
  rapi_ok (length (dbs s)) (rocks s) → (i < length (dbs s))%nat → key ≠ [] →
  stored_val (rocks s) i key = Some b → dump_of o b →
  ∃ a, _restore_obj_from_rocksdb env i key s = Ok (restored env o, set_rocks a s) ∧
    (∀ j k, stored_val a j k = stored_val (rocks s) j k) ∧
    (∀ n, rapi_ok n (rocks s) → rapi_ok n a).
Proof.
  intros Ha Hi Hk Hst Hdump. destruct (rocksdbapi_read_total _ i key (rocks s) Ha Hi Hk) as (a & Hr).
  exists a. unfold _restore_obj_from_rocksdb. rewrite Hr. simpl. rewrite Hst. simpl.
  rewrite (desObject_dump env o b Hdump). simpl.
  by apply rocksdbapi_read_spec in Hr as (_ & Hs & Hn).
Qed.

(** It is the value the key has. *)
Lemma restore_obj_total env i key s :
  ks_ok s → dict_at s i key = Some InRock →
  ∃ val a, _restore_obj_from_rocksdb env i key s = Ok (val, set_rocks a s) ∧
    logical s i key = Some (content_of val) ∧ val_ok val ∧ o_type val ≠ OBJ_STREAM ∧
    (∀ j k, stored_val a j k = stored_val (rocks s) j k) ∧
    (∀ n, rapi_ok n (rocks s) → rapi_ok n a).
Proof.
  intros Hks Hd. destruct (ks_rock s Hks i key Hd) as (Hk & o & b & Hst & Hdump).
  pose proof (dict_at_valid _ _ _ _ Hd) as Hi.
  destruct (restore_obj_stored env i key o b s (ks_rapi s Hks) Hi Hk Hst Hdump) as (a & Hr & Hs & Hn).
  exists (restored env o), a. destruct Hdump as [Hwf Hser]. split_and!; try done.
  - unfold logical. rewrite Hd, Hst. simpl. by apply decode_dump.
  - by apply val_ok_restored.
  - by apply wf_robj_not_stream in Hwf.
Qed.

(** Reading RocksDB may open a database, and changes nothing else. *)
Lemma ks_ok_rocks a s :
  ks_ok s → (∀ j k, stored_val a j k = stored_val (rocks s) j k) → rapi_ok (length (dbs s)) a →
  ks_ok (set_rocks a s).
Proof.
  intros [H1 H2 H3 H4] Hst Ha. split; try done. intros i key Hd. destruct (H3 i key Hd) as (Hk & o & b & Hb & Ho).
  split; [done|]. exists o, b. simpl. by rewrite Hst.
Qed.
End operations.
