(* ===== verification/HotKeys.v ===== *)
(** * Starting the hot keys (src/src/rock_hotkey.c)

    [initHotKeys] fills the hot keys of every database from its dictionary the
    first time memory is short; afterwards the hooks of db.c keep them.  Here:
    the hot keys are then exactly the keys whose value is in memory and may be
    dumped ([hot_full]), the start fails when there is no such key, and a flush
    of one database can leave the hot keys switched off while values of other
    databases are in RocksDB. *)

From S2P Require Import Prelude Util Robj Serdes RocksApi Keyspace KeyspaceInv.
From stdpp Require Import list gmap.
#[local] Open Scope Z_scope.

Section hotkeys.
Context {R : RocksDB}.
Implicit Types (s : keyspace R) (key : bytes).

(** Every value that may be dumped is in the hot keys. *)
Definition hot_full s : Prop :=
  alreadyInitHotKeys s = true →
  ∀ i key o, dict_at s i key = Some (VObj o) → hot_candidate (VObj o) = true →
    key ∈ hotKeys (get_db s i).

Lemma hot_candidate_stream o : hot_candidate (VObj o) = true → o_type o ≠ OBJ_STREAM.
Proof. simpl. intros H Ht. by rewrite bool_decide_eq_true_2 in H. Qed.

Lemma addHot_hot i key v s :
  alreadyInitHotKeys s = true → (i < length (dbs s))%nat →
  hotKeys (get_db (addHotKeyIfNeed i key (Some v) s) i) =
  match v with
  | InRock => hotKeys (get_db s i)
  | VObj _ => if hot_candidate v then hotKeys (get_db s i) ∪ {[key]} else hotKeys (get_db s i) ∖ {[key]}
  end.
Proof.
  intros Hi Hl. unfold addHotKeyIfNeed. rewrite Hi. simpl. destruct v as [|o]; [done|]. simpl.
  destruct (_ || _); simpl; by rewrite hot_upd, decide_True.
Qed.

Lemma addHot_hot_ne i j key v s :
  j ≠ i → hotKeys (get_db (addHotKeyIfNeed i key v s) j) = hotKeys (get_db s j).
Proof.
  intros Hne. unfold addHotKeyIfNeed. repeat case_match; try done;
    rewrite hot_upd, decide_False; naive_solver.
Qed.

(** The loop over one dictionary. *)
Definition add_all (i : nat) (l : list (bytes * dval)) s : keyspace R :=
  foldr (fun kv s => addHotKeyIfNeed i kv.1 (Some kv.2) s) s l.

Lemma add_all_same i l s : same_data s (add_all i l s).
Proof.
  induction l as [|[k v] l IH]; simpl; [apply same_data_refl|].
  pose proof (same_data_addHot i k (Some v) (add_all i l s)) as H.
  destruct IH, H. split; intros; congruence.
Qed.

Lemma add_all_expires i l s j : expires (get_db (add_all i l s) j) = expires (get_db s j).
Proof. induction l as [|[k v] l IH]; simpl; [done|]. by rewrite expires_addHot. Qed.

Lemma add_all_hot_ne i l s j :
  j ≠ i → hotKeys (get_db (add_all i l s) j) = hotKeys (get_db s j).
Proof. intros Hne. induction l as [|[k v] l IH]; simpl; [done|]. by rewrite addHot_hot_ne. Qed.

Lemma add_all_hot i l s k :
  alreadyInitHotKeys s = true → (i < length (dbs s))%nat → NoDup l.*1 → hotKeys (get_db s i) = ∅ →
  k ∈ hotKeys (get_db (add_all i l s) i) ↔ ∃ v, (k, v) ∈ l ∧ hot_candidate v = true.
Proof.
  intros Hi Hl Hnd He. induction l as [|[k' v] l IH]; csimpl in *.
  - rewrite He. set_solver.
  - apply NoDup_cons in Hnd as [Hni Hnd]. specialize (IH Hnd).
    pose proof (add_all_same i l s) as Hsd.
    rewrite addHot_hot by (by rewrite ?(sd_init _ _ Hsd), ?(sd_len _ _ Hsd)).
    assert (∀ w, (k', w) ∉ l) as Hno.
    { intros w Hw. apply Hni. apply list_elem_of_fmap. by exists (k', w). }
    setoid_rewrite elem_of_cons.
    destruct v as [|o]; [rewrite IH; naive_solver|].
    destruct (hot_candidate (VObj o)) eqn:Hc.
    + rewrite elem_of_union, elem_of_singleton, IH. naive_solver.
    + rewrite elem_of_difference, elem_of_singleton, IH. split; [naive_solver|].
      intros (w & [[= -> ->]|Hw] & Hcw); [congruence|]. split; [eauto|]. intros ->. by apply (Hno w).
Qed.

Lemma initHotKeys_db_spec i s :
  alreadyInitHotKeys s = true → (i < length (dbs s))%nat → hotKeys (get_db s i) = ∅ →
  ∃ s', initHotKeys_db i s = Ok s' ∧ same_data s s' ∧
    (∀ j, expires (get_db s' j) = expires (get_db s j)) ∧
    (∀ j, j ≠ i → hotKeys (get_db s' j) = hotKeys (get_db s j)) ∧
    (∀ k, k ∈ hotKeys (get_db s' i) ↔ ∃ v, dict_at s i k = Some v ∧ hot_candidate v = true).
Proof.
  intros Hi Hl He. exists (add_all i (map_to_list (dict (get_db s i))) s). split_and!.
  - unfold initHotKeys_db. by rewrite bool_decide_eq_true_2.
  - apply add_all_same.
  - apply add_all_expires.
  - intros j. apply add_all_hot_ne.
  - intros k. rewrite add_all_hot; [|done|done|apply NoDup_fst_map_to_list|done].
    by setoid_rewrite elem_of_map_to_list.
Qed.

Lemma initHotKeys_loop_spec n i s :
  alreadyInitHotKeys s = true → (i + n ≤ length (dbs s))%nat →
  (∀ j, (i ≤ j)%nat → hotKeys (get_db s j) = ∅) →
  ∃ s', initHotKeys_loop n i s = Ok s' ∧ same_data s s' ∧
    (∀ j, expires (get_db s' j) = expires (get_db s j)) ∧
    (∀ j, ¬ (i ≤ j < i + n)%nat → hotKeys (get_db s' j) = hotKeys (get_db s j)) ∧
    (∀ j k, (i ≤ j < i + n)%nat →
       k ∈ hotKeys (get_db s' j) ↔ ∃ v, dict_at s j k = Some v ∧ hot_candidate v = true).
Proof.
  revert i s. induction n as [|n IH]; intros i s Hi Hl He; simpl.
  { exists s. split_and!; try done. intros; lia. }
  destruct (initHotKeys_db_spec i s Hi ltac:(lia) (He i ltac:(lia))) as (s1 & -> & Hsd & Hex & Hne & Heq). simpl.
  destruct (IH (S i) s1) as (s2 & -> & Hsd2 & Hex2 & Hne2 & Heq2).
  { by rewrite (sd_init _ _ Hsd). }
  { rewrite (sd_len _ _ Hsd). lia. }
  { intros j Hj. rewrite Hne by lia. apply He. lia. }
  exists s2. split_and!; [done| | | |].
  - destruct Hsd, Hsd2. split; intros; congruence.
  - intros j. by rewrite Hex2.
  - intros j Hj. rewrite Hne2 by lia. apply Hne. lia.
  - intros j k Hj. destruct (decide (j = i)) as [->|Hji].
    + rewrite Hne2 by lia. apply Heq.
    + rewrite Heq2 by lia. by setoid_rewrite (sd_dict _ _ Hsd).
Qed.

(** Switching the hot keys on when memory is short for the first time. *)
Definition startHotKeys s : res (bool * keyspace R) := initHotKeys (set_init true s).

Lemma startHotKeys_spec s :
  ks_ok s → hot_ok s → alreadyInitHotKeys s = false →
  ∃ ret s', startHotKeys s = Ok (ret, s') ∧ same_data (set_init true s) s' ∧
    (∀ j, expires (get_db s' j) = expires (get_db s j)) ∧ hot_ok s' ∧ hot_full s' ∧ ks_ok s' ∧
    (ret = true ↔ ∃ i k v, dict_at s i k = Some v ∧ hot_candidate v = true).
Proof.
  intros Hks Hok Hf. unfold startHotKeys, initHotKeys.
  destruct (initHotKeys_loop_spec (length (dbs s)) 0 (set_init true s)) as (s' & Hl & Hsd & Hex & _ & Hhot);
    [done|done|intros j _; by apply (hot_lazy s Hok)|].
  change (dbs (set_init true s)) with (dbs s). rewrite Hl. simpl.
  assert (∀ i k v, dict_at s i k = Some v → (i < length (dbs s))%nat) as Hv.
  { intros i k v Hd. by apply dict_at_valid in Hd. }
  assert (∀ j k, k ∈ hotKeys (get_db s' j) ↔ ∃ v, dict_at s j k = Some v ∧ hot_candidate v = true) as Hall.
  { intros j k. destruct (decide (j < length (dbs s))%nat).
    - rewrite Hhot by lia. done.
    - rewrite get_db_empty by (rewrite (sd_len _ _ Hsd); done). simpl. split; [set_solver|].
      intros (v & Hd & _). by apply Hv in Hd. }
  eexists _, s'. split; [done|]. split_and!; try done.
  - split.
    + rewrite (sd_init _ _ Hsd). done.
    + intros i k (v & Hd & Hc)%Hall. destruct v as [|o]; [done|]. exists o. rewrite (sd_dict _ _ Hsd).
      split; [done|]. by apply hot_candidate_stream.
    + intros. by rewrite (sd_init _ _ Hsd).
  - intros _ i k o Hd Hc. apply Hall. exists (VObj o). rewrite (sd_dict _ _ Hsd) in Hd. done.
  - eapply ks_ok_same_data; [exact Hsd|]. by destruct Hks.
  - rewrite existsb_exists. split.
    + intros (d & Hd & Hne%bool_decide_eq_true). apply list_elem_of_In, list_elem_of_lookup in Hd as [i Hi].
      apply set_choose_L in Hne as [k Hk].
      assert (get_db s' i = d) as Hg by (unfold get_db; by rewrite Hi). rewrite <- Hg in Hk.
      apply Hall in Hk as (v & ? & ?). eauto.
    + intros (i & k & v & Hd & Hc). pose proof (Hv _ _ _ Hd) as Hi.
      rewrite <- (sd_len _ _ Hsd : length (dbs s') = length (dbs s)) in Hi.
      destruct (lookup_lt_is_Some_2 _ _ Hi) as [d Hd']. exists d.
      assert (get_db s' i = d) as Hg by (unfold get_db; by rewrite Hd').
      split; [apply list_elem_of_In; by eapply list_elem_of_lookup_2|].
      apply bool_decide_eq_true. rewrite <- Hg. intros He.
      assert (k ∈ hotKeys (get_db s' i)) as Hk by (apply Hall; eauto). rewrite He in Hk. set_solver.
Qed.

(** ** What keeps the hot keys complete *)

(** [s'] has no new dumpable value outside its hot keys. *)
Lemma hot_full_frame s s' :
  alreadyInitHotKeys s' = alreadyInitHotKeys s →
  (∀ i key o, alreadyInitHotKeys s = true → dict_at s' i key = Some (VObj o) → hot_candidate (VObj o) = true →
     key ∈ hotKeys (get_db s' i) ∨
     ∃ o0, dict_at s i key = Some (VObj o0) ∧ hot_candidate (VObj o0) = true ∧
       (key ∈ hotKeys (get_db s i) → key ∈ hotKeys (get_db s' i))) →
  hot_full s → hot_full s'.
Proof.
  intros Hi Hf Hfull Hinit i key o Hd Hc. rewrite Hi in Hinit.
  destruct (Hf i key o Hinit Hd Hc) as [?|(o0 & Hd0 & Hc0 & Hin)]; [done|]. apply Hin. by eapply Hfull.
Qed.

Lemma hot_full_same s s' :
  alreadyInitHotKeys s' = alreadyInitHotKeys s → (∀ i k, dict_at s' i k = dict_at s i k) →
  (∀ i, hotKeys (get_db s' i) = hotKeys (get_db s i)) → hot_full s → hot_full s'.
Proof.
  intros Hi Hd Hh. apply hot_full_frame; [done|]. intros i key o _ Ho Hc. right. exists o.
  by rewrite <- Hd, Hh.
Qed.

Lemma hot_full_restore i key val s s' :
  restore_in_db i key val s = Ok s' → hot_full s → hot_full s'.
Proof.
  unfold restore_in_db. destruct (dict_at s i key) as [[|o]|] eqn:Hd; intros H Hf; [|by injection H as <-..].
  pose proof (dict_at_valid _ _ _ _ Hd) as Hi. apply bind_Ok in H as (_ & _ & H). injection H as <-.
  apply (hot_full_frame s); [done| |done]. intros j k o _. rewrite dict_at_upd_other, dict_at_insert by done.
  rewrite hot_upd, length_upd. cbn [hotKeys set_hotKeys]. rewrite !hot_upd_other by done. case_decide as He.
  - injection He as -> ->. intros _ _. left. rewrite decide_True by done. set_solver.
  - intros Hj Hc. right. exists o. split_and!; [done..|]. intros Hk. case_decide as Hx; [|done].
    destruct Hx as [-> _]. set_solver.
Qed.

Lemma hot_full_dump i key s s' :
  dumpValToRock false i key s = Ok s' → hot_full s → hot_full s'.
Proof.
  intros H Hf. unfold dumpValToRock in H.
  apply bind_Ok in H as (_ & _ & H). apply bind_Ok in H as (v & Hd & H). apply res_of_option_Ok in Hd.
  apply bind_Ok in H as (val & _ & H). apply bind_Ok in H as (_ & _ & H). apply bind_Ok in H as (ser & _ & H).
  apply bind_Ok in H as (a & _ & H). apply bind_Ok in H as (_ & _ & H). injection H as <-.
  pose proof (dict_at_valid _ _ _ _ Hd) as Hi.
  apply (hot_full_frame s); [done| |done]. intros j k o _. rewrite dict_at_upd_other, dict_at_insert by done.
  case_decide as He; [done|]. intros Hj Hc. right. exists o. split_and!; [done..|]. intros Hk.
  rewrite hot_upd, length_upd. destruct (decide (j = i ∧ _)) as [[-> _]|]; [|by rewrite hot_upd_other].
  cbn [hotKeys set_hotKeys]. rewrite hot_upd_other by done.
  assert (k ≠ key) by congruence. change (get_db (set_rocks a s) i) with (get_db s i). set_solver.
Qed.

(** ** Whole databases *)

Lemma startHotKeys_leftover s d l :
  dbs s = d :: l → hotKeys d ≠ ∅ → startHotKeys s = Abort "dictSize(hotKeys) == 0".
Proof.
  intros Hd Hh. unfold startHotKeys, initHotKeys. simpl. rewrite Hd. simpl. unfold initHotKeys_db.
  assert (get_db (set_init true s) 0 = d) as -> by (unfold get_db; simpl; by rewrite Hd).
  by rewrite bool_decide_eq_false_2.
Qed.

(** FLUSHDB can switch the hot keys off for a database it does not touch.
    When the flushed database has the last hot keys, [clearHotKeysWhenEmptyDb]
    switches them off, although another database has values in RocksDB.  The
    next value that comes back from RocksDB is added to the hot keys all the
    same, and when memory is short again [initHotKeys] finds them not empty
    and the server stops. *)
Theorem flush_switches_off s d0 d1 key val :
  dbs s = [d0; d1] → alreadyInitHotKeys s = true → hotKeys d0 = ∅ → hotKeys d1 ≠ ∅ →
  dict d0 !! key = Some InRock →
  ∃ n s1 s2, emptyDbGeneric 1 s = Ok (n, s1) ∧ restore_in_db 0 key val s1 = Ok s2 ∧
    startHotKeys s2 = Abort "dictSize(hotKeys) == 0".
Proof.
  intros Hdb Hi H0 H1 Hd.
  set (d1' := set_expires ∅ (set_dict ∅ (set_hotKeys ∅ d1))).
  assert (∃ n, emptyDbGeneric 1 s = Ok (n, set_init false (set_dbs [d0; d1'] s))) as [n Hn].
  { eexists. unfold emptyDbGeneric. rewrite Hdb.
    change (Z.to_nat 1) with 1%nat. cbn. unfold emptyDb_one, clearHotKeysWhenEmptyDb.
    assert (get_db s 1 = d1) as -> by (unfold get_db; by rewrite Hdb).
    rewrite Hi. simpl. rewrite bool_decide_eq_false_2 by done. unfold upd_db. rewrite Hdb. simpl.
    rewrite H0. rewrite !bool_decide_eq_false_2 by (intros []; done). done. }
  eexists n, _, _. split; [exact Hn|]. split.
  - unfold restore_in_db, dict_at, get_db. simpl. rewrite Hd. simpl. rewrite H0.
    rewrite bool_decide_eq_true_2 by set_solver. reflexivity.
  - eapply startHotKeys_leftover; [reflexivity|]. simpl. rewrite H0. set_solver.
Qed.

(** C39: after SWAPDB, a key whose value is in RocksDB cannot be read.
    [dbSwapDatabases] exchanges the dictionaries, and leaves RocksDB as it is,
    where the index of the database is part of the key.  The value is then
    looked for under the other index, and when that index has not stored a
    value under the same name, the server panics. *)
Theorem swapdb_loses_values `{!RocksDBLaws R} env s i j key :
  (i < length (dbs s))%nat → (j < length (dbs s))%nat → i ≠ j → key ≠ [] →
  rapi_ok (length (dbs s)) (rocks s) →
  dict_at s i key = Some InRock → stored_val (rocks s) j key = None →
  ∃ s', dbSwapDatabases (Z.of_nat i) (Z.of_nat j) s = (true, s') ∧
    dict_at s' j key = Some InRock ∧
    _restore_obj_from_rocksdb env j key s' = Abort "serverPanic: _restore_obj_from_rocksdb()".
Proof.
  intros Hi Hj Hne Hk Ha Hd Hst. eexists. split; [|split].
  - unfold dbSwapDatabases. rewrite !Nat2Z.id.
    destruct (_ || _) eqn:Hb; [lia|]. destruct (_ =? _) eqn:Hb'; [lia|]. reflexivity.
  - unfold dict_at in *. unfold get_db, upd_db. simpl. rewrite list_lookup_alter_eq, list_lookup_alter_ne by done.
    destruct (lookup_lt_is_Some_2 _ _ Hj) as [d Hdj]. rewrite Hdj. simpl. exact Hd.
  - unfold _restore_obj_from_rocksdb. simpl.
    destruct (rocksdbapi_read_total _ j key (rocks s) Ha Hj Hk) as (a & ->). simpl. by rewrite Hst.
Qed.
End hotkeys.

(** Two databases: a value in RocksDB under the first, one in memory under the second. *)
Definition flush_key : bytes := [x6b].
Definition flush_obj : robj := Robj OBJ_STRING OBJ_ENCODING_RAW 7 1 (PSds [x68; x69]).
Definition flush_db0 : redisDb := RedisDb {[ flush_key := InRock ]} ∅ ∅ ∅.
Definition flush_db1 : redisDb := RedisDb {[ flush_key := VObj flush_obj ]} ∅ ∅ {[ flush_key ]}.
Definition flush_ex : keyspace map_rocksdb := Keyspace [flush_db0; flush_db1] true 7 (Rapi [None; None] [None; None]).

Lemma flush_db0_rock : dict flush_db0 !! flush_key = Some InRock.
Proof. apply lookup_singleton_eq. Qed.

Lemma flush_db1_hot : hotKeys flush_db1 ≠ ∅.
Proof. simpl. set_solver. Qed.

Lemma flush_switches_off_witness :
  ∃ n s1 s2, emptyDbGeneric 1 flush_ex = Ok (n, s1) ∧ restore_in_db 0 flush_key flush_obj s1 = Ok s2 ∧
    startHotKeys s2 = Abort "dictSize(hotKeys) == 0".
Proof.
  apply (flush_switches_off flush_ex flush_db0 flush_db1);
    [reflexivity|reflexivity|reflexivity|exact flush_db1_hot|exact flush_db0_rock].
Defined.

Lemma swapdb_loses_values_witness :
  ∃ s', dbSwapDatabases 0 1 flush_ex = (true, s') ∧ dict_at s' 1 flush_key = Some InRock ∧
    _restore_obj_from_rocksdb any_env 1 flush_key s' = Abort "serverPanic: _restore_obj_from_rocksdb()".
Proof.
  apply (swapdb_loses_values any_env flush_ex 0 1 flush_key);
    [simpl; lia|simpl; lia|lia|discriminate|split; reflexivity|exact flush_db0_rock|reflexivity].
Defined.
