(* ===== verification/RockRdb.v ===== *)
(** * Saving in the background (src/src/rock_rdb.c)

    BGSAVE and the rewriting of the AOF run in a child process, which has the
    dictionaries as they were at the fork but cannot use RocksDB.  For a value
    that is in RocksDB the child writes a request into a pipe; a service thread
    of the server answers it from snapshots taken just before the fork, while the
    main thread goes on dumping values.  Both ends transfer their messages in as
    many [read] and [write] calls as the pipes require; each of these calls is one
    event here, and any of them can fail.

    The theorems: whatever the interleaving, what the child saves is the content
    of the databases at the fork; the exchange cannot get stuck, and when it is
    over the snapshots are released and the next fork can start. *)

From S2P Require Import Prelude Util Robj Serdes RocksApi Keyspace KeyspaceInv.
From stdpp Require Import list gmap.
#[local] Open Scope Z_scope.

(** ** Reading and writing a pipe *)

(** What [_read_pipe_by_length] returns: 1 with the bytes, 0 or -1. *)
Inductive rd_result := RdOk (buf : bytes) | RdClosed | RdError.

(** What the [read] and [write] calls return. *)
Inductive sys_read := ReadBytes (chunk : bytes) | ReadFailed.
Inductive sys_write := WroteBytes (n : nat) | WriteFailed.

(** A thread with one descriptor to read from and one to write to, at its next
    call.  [IRead len buf k] is inside the loop of [_read_pipe_by_length] with
    [len] bytes to come, [IWrite rest k] inside that of [_write_pipe_by_length];
    [k] is what the thread does when the loop has returned. *)
Inductive io (A : Type) : Type :=
| IDone (a : A)
| IAbort (msg : string)
| IRead (len : nat) (buf : bytes) (k : rd_result → io A)
| IWrite (rest : bytes) (k : bool → io A)
| ISnapshot (dbi : Z) (key : bytes) (k : option bytes → io A).
Arguments IDone {A} a.
Arguments IAbort {A} msg%_string.
Arguments IRead {A} len buf k.
Arguments IWrite {A} rest k.
Arguments ISnapshot {A} dbi key k.

(** [while (len)] *)
Definition _read_pipe_by_length {A} (len : nat) (buf : bytes) (k : rd_result → io A) : io A :=
  match len with O => k (RdOk buf) | S _ => IRead len buf k end.
Definition read_ret {A} (len : nat) (buf : bytes) (k : rd_result → io A) (ret : sys_read) : io A :=
  match ret with
  | ReadBytes [] => k RdClosed
  | ReadFailed => k RdError
  | ReadBytes chunk => _read_pipe_by_length (len - length chunk) (buf ++ chunk) k
  end.

Definition _write_pipe_by_length {A} (buf : bytes) (k : bool → io A) : io A :=
  match buf with [] => k true | _ :: _ => IWrite buf k end.
Definition write_ret {A} (rest : bytes) (k : bool → io A) (ret : sys_write) : io A :=
  match ret with
  | WriteFailed => k false
  | WroteBytes n => _write_pipe_by_length (drop n rest) k
  end.

(** ** The child process *)

Definition requestSnapshotValByKeyInRdbProcess {A} (dbi : nat) (key : bytes) (k : option bytes → io A)
  : io A :=
  _write_pipe_by_length (le_split 4 (Z.of_nat dbi)) (fun ok =>
  if negb ok then k None else
  _write_pipe_by_length (le_split 8 (Z.of_nat (length key))) (fun ok =>
  if negb ok then k None else
  _write_pipe_by_length key (fun ok =>
  if negb ok then k None else
  _read_pipe_by_length 8 [] (fun r =>
  match r with
  | RdOk val_len =>
      _read_pipe_by_length (Z.to_nat (le_combine val_len)) [] (fun r =>
      match r with RdOk val => k (Some val) | _ => k None end)
  | _ => k None
  end)))).

(** In the child process. *)
Definition loadValFromRockForRdb {A} (env : srv_env) (dbid : nat) (key : bytes) (k : option robj → io A)
  : io A :=
  requestSnapshotValByKeyInRdbProcess dbid key (fun val =>
  match val with
  | Some val => match desObject env val with Ok o => k (Some o) | Abort msg => IAbort msg end
  | None => k None
  end).

(** What goes into the file: the database, the key and the value written. *)
Definition saved : Type := list (nat * bytes * robj).

(** The loop over the entries in [rdbSaveRio] and [rewriteAppendOnlyFileRio], as
    far as the choice of the value goes. *)
Fixpoint save_entries (env : srv_env) (entries : list (nat * bytes * dval)) (out : saved) : io saved :=
  match entries with
  | [] => IDone out
  | (dbid, key, VObj o) :: rest => save_entries env rest (out ++ [(dbid, key, o)])
  | (dbid, key, InRock) :: rest =>
      loadValFromRockForRdb env dbid key (fun rockVal =>
      match rockVal with
      | Some o => save_entries env rest (out ++ [(dbid, key, o)])
      | None => IAbort "rockVal"
      end)
  end.

(** ** The service thread *)

Inductive next := NextRequest | ServiceExit | ServiceError.

(** One turn of the loop of [_serviceForRdbChildProcessInServiceThread]. *)
Definition serve : io next :=
  _read_pipe_by_length 4 [] (fun r =>
  match r with
  | RdClosed => IDone ServiceExit
  | RdError => IDone ServiceError
  | RdOk dbi =>
  _read_pipe_by_length 8 [] (fun r =>
  match r with
  | RdOk key_len =>
  _read_pipe_by_length (Z.to_nat (le_combine key_len)) [] (fun r =>
  match r with
  | RdOk key =>
  ISnapshot (to_signed 32 (le_combine dbi)) key (fun db_val =>
  match db_val with
  | None => IDone ServiceError
  | Some db_val =>
      _write_pipe_by_length (le_split 8 (Z.of_nat (length db_val))) (fun ok =>
      if negb ok then IDone ServiceError else
      _write_pipe_by_length db_val (fun ok =>
      if negb ok then IDone ServiceError else IDone NextRequest))
  end)
  | _ => IDone ServiceError
  end)
  | _ => IDone ServiceError
  end)
  end).

(** ** The processes *)

(** What the outside does: the results of the calls [redisFork] makes. *)
Record fork_env := ForkEnv {
  pipes_ok : bool;
  mutex_init_ok : bool;
  mutex_lock_ok : bool;
  thread_ok : bool;
  fork_ok : bool
}.

(** A call of a thread, with what it returns. *)
Inductive act := ARead (n : nat) | AEof | AReadError | AWrite (n : nat) | AWriteError.

Inductive rdb_event :=
| Child (a : act)
| Kill                                           (* the child process is killed *)
| Service (a : act)
| ServiceSnapshot                                (* rocksdbapi_read_from_snapshot *)
| MainWrite (dbi : nat) (key val : bytes)        (* the main thread dumps a value *)
| MainRead (dbi : nat) (key : bytes).            (* the main or the rock thread reads one *)

Section processes.
Context {R : RocksDB}.

(** [service] is [None] when there is no service thread, and while it sleeps on
    its mutex. *)
Record rdb_sys := RdbSys {
  api : rapi R;
  child : option (io saved);
  saved_out : option saved;                      (* the file of a child that exited normally *)
  service : option (io next);
  pipe_request : bytes;
  pipe_response : bytes;
  rockRdbParams : bool;                          (* server.rockRdbParams != NULL *)
  isRdbServiceThreadRunning : bool
}.
Implicit Types s : rdb_sys.

Definition set_api (a : rapi R) s : rdb_sys :=
  RdbSys a (child s) (saved_out s) (service s) (pipe_request s) (pipe_response s)
    (rockRdbParams s) (isRdbServiceThreadRunning s).
Definition set_child (c : option (io saved)) (out : option saved) s : rdb_sys :=
  RdbSys (api s) c out (service s) (pipe_request s) (pipe_response s)
    (rockRdbParams s) (isRdbServiceThreadRunning s).
Definition set_pipes (rq rs : bytes) s : rdb_sys :=
  RdbSys (api s) (child s) (saved_out s) (service s) rq rs (rockRdbParams s) (isRdbServiceThreadRunning s).
Definition set_service (sv : option (io next)) (params running : bool) s : rdb_sys :=
  RdbSys (api s) (child s) (saved_out s) sv (pipe_request s) (pipe_response s) params running.

(** The child goes on with [c]: [exitFromChild], or a failed assertion, closes
    its ends of the pipes. *)
Definition settle_child (c : io saved) s : rdb_sys :=
  match c with
  | IDone out => set_child None (Some out) s
  | IAbort _ => set_child None (saved_out s) s
  | _ => set_child (Some c) (saved_out s) s
  end.

(** The service thread goes on with [sv]: the next turn of its loop, or its end. *)
Definition settle_service (sv : io next) s : res rdb_sys :=
  match sv with
  | IDone NextRequest => Ok (set_service (Some serve) (rockRdbParams s) (isRdbServiceThreadRunning s) s)
  | IDone (ServiceExit | ServiceError) =>
      serverAssert (isRdbServiceThreadRunning s) "server.isRdbServiceThreadRunning == 1" ;;
      mret (set_service None false false (set_api (rocksdbapi_releaseAllSnapshots (api s)) s))
  | IAbort msg => Abort msg
  | _ => Ok (set_service (Some sv) (rockRdbParams s) (isRdbServiceThreadRunning s) s)
  end.

Definition initRockSerivceForRdbInMainThread (fe : fork_env) s : res (bool * rdb_sys) :=
  if negb (pipes_ok fe) || negb (mutex_init_ok fe) || negb (mutex_lock_ok fe) || negb (thread_ok fe)
  then Ok (false, s)
  else
    serverAssert (negb (isRdbServiceThreadRunning s)) "server.isRdbServiceThreadRunning == 0" ;;
    a ← rocksdbapi_createSnapshots (api s);
    mret (true, set_api a (set_service (service s) (rockRdbParams s) true s)).

(** [true] is a child process id, [false] is -1.  The child starts with the
    entries of the dictionaries; the parent wakes the service thread up. *)
Definition redisFork (fe : fork_env) (env : srv_env) (entries : list (nat * bytes * dval)) s
  : res (bool * rdb_sys) :=
  serverAssert (negb (rockRdbParams s)) "server.rockRdbParams == NULL" ;;
  '(ok, s1) ← initRockSerivceForRdbInMainThread fe s;
  if negb ok then Ok (false, set_service (service s1) false (isRdbServiceThreadRunning s1) s1)
  else if negb (fork_ok fe) then
    Ok (false, set_service (service s1) false (isRdbServiceThreadRunning s1) s1)
  else
    Ok (true, settle_child (save_entries env entries [])
                (set_child None None (set_pipes [] [] (set_service (Some serve) true true s1)))).

(** [rdbSaveBackground]; the tests are the same in [rdbSaveToSlavesSockets] and
    [rewriteAppendOnlyFileBackground]. *)
Definition rdbSaveBackground (active_child : bool) (fe : fork_env) (env : srv_env)
    (entries : list (nat * bytes * dval)) s : res (bool * rdb_sys) :=
  if active_child then Ok (false, s)
  else if isRdbServiceThreadRunning s then Ok (false, s)
  else redisFork fe env entries s.

(** *** The calls on the pipes

    [inp] is what is in the pipe a thread reads from, [room] how many bytes fit
    into the other one, [peer] whether the other end is there. *)
Definition io_step {A} (a : act) (c : io A) (inp : bytes) (room : nat) (peer : bool)
  : option (io A * bytes * bytes) :=
  match a, c with
  | ARead n, IRead len buf k =>
      if bool_decide (0 < n ∧ n ≤ len ∧ n ≤ length inp)%nat
      then Some (read_ret len buf k (ReadBytes (take n inp)), drop n inp, []) else None
  | AEof, IRead len buf k =>
      if bool_decide (inp = []) && negb peer then Some (read_ret len buf k (ReadBytes []), inp, []) else None
  | AReadError, IRead len buf k => Some (read_ret len buf k ReadFailed, inp, [])
  | AWrite n, IWrite rest k =>
      if bool_decide (0 < n ∧ n ≤ length rest ∧ n ≤ room)%nat && peer
      then Some (write_ret rest k (WroteBytes n), inp, take n rest) else None
  | AWriteError, IWrite rest k => Some (write_ret rest k WriteFailed, inp, [])
  | _, _ => None
  end.

Definition alive {A} (c : option A) : bool := match c with Some _ => true | None => false end.

(** [cap] is the capacity of a pipe. *)
Definition rdb_step (cap : nat) (e : rdb_event) s : option (res rdb_sys) :=
  match e with
  | Child a =>
      c ← child s;
      '(c', rs, out) ← io_step a c (pipe_response s) (cap - length (pipe_request s)) (alive (service s));
      Some (Ok (settle_child c' (set_pipes (pipe_request s ++ out) rs s)))
  | Kill => _ ← child s; Some (Ok (set_child None (saved_out s) s))
  | Service a =>
      sv ← service s;
      '(sv', rq, out) ← io_step a sv (pipe_request s) (cap - length (pipe_response s)) (alive (child s));
      Some (settle_service sv' (set_pipes rq (pipe_response s ++ out) s))
  | ServiceSnapshot =>
      match service s with
      | Some (ISnapshot dbi key k) =>
          Some (serverAssert (0 <=? dbi) "dbi >= 0" ;;
                v ← rocksdbapi_read_from_snapshot (Z.to_nat dbi) key (api s);
                settle_service (k v) s)
      | _ => None
      end
  | MainWrite dbi key val => Some (a ← rocksdbapi_write dbi key val (api s); Ok (set_api a s))
  | MainRead dbi key => Some ('(_, a) ← rocksdbapi_read dbi key (api s); Ok (set_api a s))
  end.

Fixpoint rdb_run (cap : nat) (es : list rdb_event) s : option (res rdb_sys) :=
  match es with
  | [] => Some (Ok s)
  | e :: es' =>
      match rdb_step cap e s with
      | Some (Ok s') => rdb_run cap es' s'
      | r => r
      end
  end.

(** The events of the exchange, and those of them in which something outside
    goes wrong. *)
Definition is_main (e : rdb_event) : bool :=
  match e with MainWrite _ _ _ | MainRead _ _ => true | _ => false end.
Definition failure (e : rdb_event) s : bool :=
  match e with
  | Kill | Child AReadError | Service AReadError => true
  | Child AWriteError => alive (service s)
  | Service AWriteError => alive (child s)
  | _ => false
  end.

(** SAVE in the main thread: the value is read and given back to nobody. *)
Fixpoint save_sync (env : srv_env) (entries : list (nat * bytes * dval)) (out : saved) (s : keyspace R)
  : res (saved * keyspace R) :=
  match entries with
  | [] => Ok (out, s)
  | (dbid, key, VObj o) :: rest => save_sync env rest (out ++ [(dbid, key, o)]) s
  | (dbid, key, InRock) :: rest =>
      '(o, s) ← _restore_obj_from_rocksdb env dbid key s;
      save_sync env rest (out ++ [(dbid, key, o)]) s
  end.

End processes.
Arguments rdb_sys R : clear implicits.

(** ** Sending and receiving, whatever the sizes of the calls *)

(** A thread that has still to send [w] and is then [f], unless a call fails;
    what it does then is in [bad]. *)
Inductive sends {A} (bad : io A → Prop) (f : io A) : bytes → io A → Prop :=
| sends_nil : sends bad f [] f
| sends_write rest k w :
    rest ≠ [] → bad (k false) → sends bad f w (k true) → sends bad f (rest ++ w) (IWrite rest k).

(** A thread that is [f] when it has received [v]. *)
Inductive recv {A} (bad : io A → Prop) (f : io A) : bytes → io A → Prop :=
| recv_nil : recv bad f [] f
| recv_read v buf k w :
    v ≠ [] → bad (k RdClosed) → bad (k RdError) → recv bad f w (k (RdOk (buf ++ v))) →
    recv bad f (v ++ w) (IRead (length v) buf k).

Section transfer.
Context {A : Type} (bad : io A → Prop).
Implicit Types (f c : io A) (v w : bytes).

Lemma sends_pipe f buf k w :
  bad (k false) → sends bad f w (k true) → sends bad f (buf ++ w) (_write_pipe_by_length buf k).
Proof. intros Hb H. destruct buf as [|b buf]; [done|]. by constructor. Qed.

Lemma recv_pipe f v buf k w :
  bad (k RdClosed) → bad (k RdError) → recv bad f w (k (RdOk (buf ++ v))) →
  recv bad f (v ++ w) (_read_pipe_by_length (length v) buf k).
Proof.
  intros Hb1 Hb2 H. destruct v as [|b v]; simpl; [by rewrite app_nil_r in H|].
  by apply (recv_read bad f (b :: v)).
Qed.

Lemma sends_last f buf k :
  bad (k false) → k true = f → sends bad f buf (_write_pipe_by_length buf k).
Proof. intros Hb <-. rewrite <- (app_nil_r buf) at 1. apply sends_pipe; [done|constructor]. Qed.
Lemma recv_last f v buf k :
  bad (k RdClosed) → bad (k RdError) → k (RdOk (buf ++ v)) = f →
  recv bad f v (_read_pipe_by_length (length v) buf k).
Proof. intros Hb1 Hb2 <-. rewrite <- (app_nil_r v) at 2. apply recv_pipe; [done..|constructor]. Qed.

Lemma sends_done f c : sends bad f [] c → c = f.
Proof. remember [] as w0 eqn:Hw. destruct 1; [done|]. by apply app_eq_nil in Hw as [-> _]. Qed.
Lemma recv_done f c : recv bad f [] c → c = f.
Proof. remember [] as w0 eqn:Hw. destruct 1; [done|]. by apply app_eq_nil in Hw as [-> _]. Qed.

Lemma sends_more f w c : sends bad f w c → w ≠ [] → ∃ rest k, c = IWrite rest k ∧ rest ≠ [] ∧ bad (k false).
Proof. destruct 1; [done|]. intros _. eauto. Qed.
Lemma recv_more f v c :
  recv bad f v c → v ≠ [] →
  ∃ len buf k, c = IRead len buf k ∧ (0 < len)%nat ∧ bad (k RdClosed) ∧ bad (k RdError).
Proof.
  destruct 1 as [|v buf k w Hne]; [done|]. intros _. eexists _, _, _. split_and!; try done.
  destruct v; [by destruct Hne|simpl; lia].
Qed.

(** One call moves some bytes. *)
Lemma sends_step f w rest k n :
  sends bad f w (IWrite rest k) → w ≠ [] → (n ≤ length rest)%nat →
  take n rest = take n w ∧ sends bad f (drop n w) (write_ret rest k (WroteBytes n)).
Proof.
  inversion 1 as [|rest' k' w' Hne Hb Hs Heq]; subst; [done|]. intros _ Hn. split.
  - by rewrite take_app_le.
  - rewrite drop_app_le by done. by apply sends_pipe.
Qed.

Lemma recv_step f v len buf k n q :
  recv bad f v (IRead len buf k) → v ≠ [] → (0 < n ≤ len)%nat → q = take n v →
  recv bad f (drop n v) (read_ret len buf k (ReadBytes q)).
Proof.
  inversion 1 as [|v' buf' k' w Hne Hb1 Hb2 Hs Heq]; subst; [done|]. intros _ Hn ->.
  rewrite take_app_le, drop_app_le by lia.
  assert (length v' - length (take n v') = length (drop n v'))%nat as Hl.
  { rewrite length_take, length_drop. lia. }
  unfold read_ret. destruct (take n v') as [|b q] eqn:Hq.
  { apply (f_equal length) in Hq. rewrite length_take in Hq. simpl in Hq. lia. }
  rewrite Hl. apply recv_pipe; try done. by rewrite <- app_assoc, <- Hq, take_drop.
Qed.

Lemma sends_length f w rest k : sends bad f w (IWrite rest k) → w ≠ [] → (length rest ≤ length w)%nat.
Proof. inversion 1; subst; [done|]. rewrite length_app. lia. Qed.

(** A call that can be made, and does not fail unless the other end is gone. *)
Definition can_step (c : io A) (inp : bytes) (room : nat) (peer : bool) : Prop :=
  ∃ a x, io_step a c inp room peer = Some x ∧
    match a with AReadError => False | AWriteError => peer = false | _ => True end.

Lemma can_read len buf (k : rd_result → io A) inp room peer :
  (0 < len)%nat → inp ≠ [] ∨ peer = false → can_step (IRead len buf k) inp room peer.
Proof.
  intros Hl Hor. destruct inp as [|b inp].
  - destruct Hor as [? | ->]; [done|]. by exists AEof; eexists.
  - exists (ARead 1). eexists. split; [|done]. simpl. rewrite bool_decide_eq_true_2 by lia. done.
Qed.
Lemma can_write rest (k : bool → io A) inp room peer :
  rest ≠ [] → (0 < room)%nat ∨ peer = false → can_step (IWrite rest k) inp room peer.
Proof.
  intros Hne Hor. destruct peer.
  - destruct Hor as [Hr|?]; [|done]. exists (AWrite 1). eexists. split; [|done]. simpl.
    rewrite bool_decide_eq_true_2; [done|]. destruct rest; [done|simpl; lia].
  - exists AWriteError. by eexists.
Qed.

(** A call after which the thread gives up. *)
Definition broken (a : act) (peer : bool) : Prop :=
  match a with AEof => peer = false | AReadError | AWriteError => True | _ => False end.

(** What a call at a loop can do. *)
Lemma io_step_write a rest (k : bool → io A) inp room peer c' inp' out :
  io_step a (IWrite rest k) inp room peer = Some (c', inp', out) →
  inp' = inp ∧
  ((∃ n, (0 < n ≤ length rest)%nat ∧ peer = true ∧ c' = write_ret rest k (WroteBytes n) ∧ out = take n rest) ∨
   c' = k false ∧ out = [] ∧ broken a peer).
Proof.
  destruct a; simpl; try done.
  - destruct peer; [|by rewrite andb_false_r]. rewrite andb_true_r.
    case_bool_decide as Hn; [|done]. intros [= <- <- <-]. split; [done|]. left. exists n. naive_solver.
  - intros [= <- <- <-]. auto.
Qed.

Lemma io_step_read a len buf (k : rd_result → io A) inp room peer c' inp' out :
  io_step a (IRead len buf k) inp room peer = Some (c', inp', out) →
  out = [] ∧
  ((∃ n, (0 < n ≤ len)%nat ∧ (n ≤ length inp)%nat ∧
      c' = read_ret len buf k (ReadBytes (take n inp)) ∧ inp' = drop n inp) ∨
   (c' = k RdClosed ∨ c' = k RdError) ∧ inp' = inp ∧ broken a peer).
Proof.
  destruct a; simpl; try done.
  - case_bool_decide as Hn; [|done]. intros [= <- <- <-]. split; [done|]. left. exists n. naive_solver.
  - destruct peer; [by rewrite andb_false_r|]. destruct (_ && _); [|done]. intros [= <- <- <-]. auto.
  - intros [= <- <- <-]. auto.
Qed.
End transfer.

(** ** The exchange *)

Section protocol.
Context {R : RocksDB} {L : RocksDBLaws R}.
Variables (cap : nat) (a0 : rapi R) (env : srv_env).

Definition request_bytes (i : nat) (key : bytes) : bytes :=
  le_split 4 (Z.of_nat i) ++ le_split 8 (Z.of_nat (length key)) ++ key.
Definition reply_bytes (b : bytes) : bytes := le_split 8 (Z.of_nat (length b)) ++ b.

(** The snapshot has the value [b] for the key, and it is that of the object
    [o]; the numbers fit into the fields of the messages. *)
Record rock_entry (i : nat) (key b : bytes) (o : robj) : Prop := {
  re_stored : stored_val a0 i key = Some b;
  re_value : desObject env b = Ok o;
  re_key : key ≠ [];
  re_db : Z.of_nat i < 2 ^ 31;
  re_key_len : Z.of_nat (length key) < 2 ^ 64;
  re_val_len : Z.of_nat (length b) < 2 ^ 64
}.

(** [pending es out n]: the entries [es] are to be saved as [out], in at
    most [n] calls. *)
Inductive pending : list (nat * bytes * dval) → saved → nat → Prop :=
| pending_nil : pending [] [] 0
| pending_mem i key o es out n :
    pending es out n → pending ((i, key, VObj o) :: es) ((i, key, o) :: out) n
| pending_rock i key b o es out n :
    rock_entry i key b o → pending es out n →
    pending ((i, key, InRock) :: es) ((i, key, o) :: out)
      (2 * length (request_bytes i key) + 1 + 2 * length (reply_bytes b) + n).

Definition child_bad (c : io saved) : Prop := ∃ m, c = IAbort m.
Definition service_bad (sv : io next) : Prop := sv = IDone ServiceExit ∨ sv = IDone ServiceError.

Lemma child_request i key b o es out acc n :
  rock_entry i key b o → pending es out n →
  ∃ cw, sends child_bad cw (request_bytes i key) (save_entries env ((i, key, InRock) :: es) acc) ∧
        recv child_bad (save_entries env es (acc ++ [(i, key, o)])) (reply_bytes b) cw.
Proof.
  intros He _. eexists. split.
  - cbn [save_entries]. unfold loadValFromRockForRdb, requestSnapshotValByKeyInRdbProcess, request_bytes.
    apply sends_pipe; [by eexists|]. cbn [negb]. apply sends_pipe; [by eexists|]. cbn [negb].
    apply sends_last; [by eexists|done].
  - unfold reply_bytes. apply (recv_pipe _ _ (le_split 8 _) []); [by eexists..|]. cbn [app].
    rewrite le_combine_split_small, Nat2Z.id by (pose proof (re_val_len _ _ _ _ He); lia).
    apply recv_last; [by eexists..|]. simpl. by rewrite (re_value _ _ _ _ He).
Qed.

Definition service_read (i : nat) (key : bytes) : io next :=
  ISnapshot (Z.of_nat i) key (fun db_val =>
  match db_val with
  | None => IDone ServiceError
  | Some db_val =>
      _write_pipe_by_length (le_split 8 (Z.of_nat (length db_val))) (fun ok =>
      if negb ok then IDone ServiceError else
      _write_pipe_by_length db_val (fun ok =>
      if negb ok then IDone ServiceError else IDone NextRequest))
  end).

Lemma service_request i key b o :
  rock_entry i key b o → recv service_bad (service_read i key) (request_bytes i key) serve.
Proof.
  intros He. unfold serve, request_bytes.
  apply (recv_pipe _ _ (le_split 4 _) []); [by left|by right|]. cbn [app].
  apply (recv_pipe _ _ (le_split 8 _) []); [by right..|]. cbn [app].
  rewrite le_combine_split_small, Nat2Z.id by (pose proof (re_key_len _ _ _ _ He); lia).
  pose proof (re_db _ _ _ _ He). unfold service_read.
  rewrite le_combine_split_small, to_signed_small by lia. 
  apply recv_last; [by right..|done].
Qed.

Lemma service_reply b :
  sends service_bad (IDone NextRequest) (reply_bytes b)
    (_write_pipe_by_length (le_split 8 (Z.of_nat (length b))) (fun ok =>
      if negb ok then IDone ServiceError else
      _write_pipe_by_length b (fun ok =>
      if negb ok then IDone ServiceError else IDone NextRequest))).
Proof.
  unfold reply_bytes. apply sends_pipe; [by right|]. cbn [negb].
  apply sends_last; [by right|done].
Qed.
(** Where the two ends are: a request is under way, or a reply.  [w] is what
    its sender has still to write, [q] what is in the pipe. *)
Inductive phase (out_all : saved) : nat → option (io saved) → option (io next) → bytes → bytes → Prop :=
| ph_request i key b o es out acc n w q c sv :
    rock_entry i key b o → pending es out n → acc ++ (i, key, o) :: out = out_all →
    (∀ c', c = Some c' → ∃ cw, sends child_bad cw w c' ∧
       recv child_bad (save_entries env es (acc ++ [(i, key, o)])) (reply_bytes b) cw) →
    (∀ sv', sv = Some sv' → recv service_bad (service_read i key) (q ++ w) sv') →
    phase out_all (2 * length w + length q + 1 + 2 * length (reply_bytes b) + n) c sv q []
| ph_reply es out acc n w q c sv :
    pending es out n → acc ++ out = out_all →
    (∀ c', c = Some c' → q ++ w ≠ [] ∧ recv child_bad (save_entries env es acc) (q ++ w) c') →
    (∀ sv', sv = Some sv' → w ≠ [] ∧ sends service_bad (IDone NextRequest) w sv' ∨ w = [] ∧ sv' = serve) →
    phase out_all (2 * length w + length q + n) c sv [] q.

Definition live {A} (c : option A) : nat := if alive c then 1 else 0.

Ltac solve_live := cbn [live alive] in *; lia.

(** [m] bounds the number of calls that are still made. *)
Record rdb_inv (out_all : saved) (m : nat) (s : rdb_sys R) : Prop := {
  ri_phase : ∃ n, phase out_all n (child s) (service s) (pipe_request s) (pipe_response s) ∧
    m = (n + live (child s) + live (service s))%nat;
  ri_saved out : saved_out s = Some out → out = out_all;
  ri_match : snapshots_match (api s);
  ri_service :
    if alive (service s)
    then isRdbServiceThreadRunning s = true ∧ rockRdbParams s = true ∧ snapshot_of a0 (api s)
    else isRdbServiceThreadRunning s = false ∧ rockRdbParams s = false ∧ no_snapshots (api s)
}.

(** The child goes to its next request, or is done. *)
Lemma next_child out_all es out acc n s :
  pending es out n → acc ++ out = out_all → pipe_request s = [] → pipe_response s = [] →
  (∀ sv, service s = Some sv → sv = serve) →
  ∃ c o, settle_child (save_entries env es acc) s = set_child c o s ∧
    phase out_all n c (service s) [] [] ∧
    match c with None => o = Some out_all | Some _ => o = saved_out s end.
Proof.
  intros Hp. revert acc. induction Hp as [|i key o es out n Hp IH|i key b o es out n He Hp IH];
    intros acc Hall Hrq Hrs Hsv.
  - rewrite app_nil_r in Hall. subst acc. exists None, (Some out_all). split; [done|]. split; [|done].
    by apply (ph_reply out_all [] [] out_all 0 [] []); [constructor|rewrite app_nil_r| |right; auto].
  - simpl. apply IH; try done. by rewrite <- app_assoc.
  - exists (Some (save_entries env ((i, key, InRock) :: es) acc)), (saved_out s).
    split; [done|]. split; [|done].
    replace (2 * length (request_bytes i key) + 1 + 2 * length (reply_bytes b) + n)%nat with
      (2 * length (request_bytes i key) + length (@nil byte) + 1 + 2 * length (reply_bytes b) + n)%nat
      by (simpl; lia).
    eapply ph_request; try done.
    + intros c' [= <-]. by eapply child_request.
    + intros sv' Hs'. rewrite (Hsv _ Hs'). by eapply service_request.
Qed.

Lemma settle_child_bad c s : child_bad c → settle_child c s = set_child None (saved_out s) s.
Proof. by intros [m ->]. Qed.
Lemma settle_child_keep c s :
  (∃ len buf k, c = IRead len buf k) ∨ (∃ rest k, c = IWrite rest k) →
  settle_child c s = set_child (Some c) (saved_out s) s.
Proof. by intros [(? & ? & ? & ->)|(? & ? & ->)]. Qed.

Lemma sends_keep {A} bad (f : io A) w c :
  sends bad f w c → (∃ len buf k, f = IRead len buf k) ∨ w ≠ [] →
  (∃ len buf k, c = IRead len buf k) ∨ (∃ rest k, c = IWrite rest k).
Proof.
  intros Hs Hor. destruct (decide (w = [])) as [->|Hne].
  - apply sends_done in Hs as ->. destruct Hor; [by left|done].
  - destruct (sends_more _ _ _ _ Hs Hne) as (? & ? & -> & _). eauto.
Qed.

Lemma reply_nonempty b : reply_bytes b ≠ [].
Proof. by intros H%(f_equal length). Qed.

(** A call of the child. *)
Lemma child_phase out_all n c s a room peer c' rq rs rs' out :
  phase out_all n (Some c) (service s) rq rs →
  io_step a c rs room peer = Some (c', rs', out) →
  let s1 := set_pipes (rq ++ out) rs' s in
  ∃ c1 o1 n1, settle_child c' s1 = set_child c1 o1 s1 ∧
    phase out_all n1 c1 (service s) (rq ++ out) rs' ∧
    (n1 + live c1 < n + 1)%nat ∧
    match c1 with
    | None => o1 = Some out_all ∨ o1 = saved_out s ∧ broken a peer
    | Some _ => o1 = saved_out s
    end.
Proof.
  intros Hp. inversion Hp as [i key b o es out0 acc n0 w q c0 sv He Hpe Hall Hc Hsv Hn Hc0 Hs0 Hrq Hrs|
    es out0 acc n0 w q c0 sv Hpe Hall Hc Hsv Hn Hc0 Hs0 Hrq Hrs]; subst; intros Hst s1.
  - destruct (Hc c eq_refl) as (cw & Hsd & Hrc).
    destruct (recv_more _ _ _ _ Hrc (reply_nonempty b)) as (len & buf & k & -> & Hlen & Hb1 & Hb2).
    destruct (decide (w = [])) as [->|Hw].
    + apply sends_done in Hsd as ->. apply io_step_read in Hst as [-> [(m & Hm & Hm' & _)|[Hc' [-> Hbr]]]].
      { simpl in Hm'. lia. }
      exists None, (saved_out s). eexists. split; [apply (settle_child_bad _ s1); destruct Hc' as [-> | ->]; done|].
      rewrite app_nil_r. split; [by eapply ph_request|]. split; [solve_live|by right].
    + destruct (sends_more _ _ _ _ Hsd Hw) as (rest & kw & -> & Hne & Hb).
      apply io_step_write in Hst as [-> [(m & Hm & Hpeer & -> & ->)|[-> [-> Hbr]]]].
      * destruct (sends_step _ _ _ _ _ m Hsd Hw ltac:(lia)) as [Ht Hsd'].
        eexists (Some _), (saved_out s). eexists. split.
        { apply (settle_child_keep _ s1). eapply sends_keep; [exact Hsd'|]. left. eauto. }
        split.
        { eapply (ph_request _ _ _ _ _ _ _ _ _ (drop m w)); try done.
          - intros c' [= <-]. eexists. split; [done|]. exact Hrc.
          - intros sv' Hsv'. rewrite Ht, <- app_assoc, take_drop. by apply Hsv. }
        split; [|done]. pose proof (sends_length _ _ _ _ _ Hsd Hw).
        rewrite length_app, Ht, length_take, length_drop. solve_live.
      * exists None, (saved_out s). eexists. split; [by apply (settle_child_bad _ s1)|].
        rewrite app_nil_r. split; [by eapply ph_request|]. split; [solve_live|by right].
  - destruct (Hc c eq_refl) as (Hqw & Hrc).
    destruct (recv_more _ _ _ _ Hrc Hqw) as (len & buf & k & -> & Hlen & Hb1 & Hb2).
    apply io_step_read in Hst as [-> [(m & Hm & Hm' & -> & ->)|[Hc' [-> Hbr]]]].
    + assert (recv child_bad (save_entries env es acc) (drop m rs ++ w)
        (read_ret len buf k (ReadBytes (take m rs)))) as Hrc'.
      { rewrite <- drop_app_le by done. eapply recv_step; [done..|]. by rewrite take_app_le. }
      destruct (decide (drop m rs ++ w = [])) as [He|He].
      * rewrite He in Hrc'. apply recv_done in Hrc'. rewrite Hrc'.
        apply app_eq_nil in He as [Hd ->].
        destruct (next_child (acc ++ out0) es out0 acc n0 s1) as (c1 & o1 & Hset & Hph & Ho1); try done.
        { intros sv' Hsv'. by destruct (Hsv sv' Hsv') as [[? _]|[_ ?]]. }
        exists c1, o1, n0. split; [done|]. rewrite Hd. split; [done|].
        destruct c1; (split; [solve_live|auto]).
      * eexists (Some _), (saved_out s). eexists. split.
        { apply (settle_child_keep _ s1). left. destruct (recv_more _ _ _ _ Hrc' He) as (? & ? & ? & -> & _). eauto. }
        split.
        { eapply (ph_reply _ _ _ _ _ w (drop m _)); try done. by intros c' [= <-]. }
        split; [|done]. rewrite length_drop. solve_live.
    + exists None, (saved_out s). eexists. split; [apply (settle_child_bad _ s1); destruct Hc' as [-> | ->]; done|].
      rewrite app_nil_r. split; [by eapply ph_reply|]. split; [solve_live|by right].
Qed.

(** The service thread ends, or goes on. *)
Definition service_over (s1 : rdb_sys R) : rdb_sys R :=
  set_service None false false (set_api (rocksdbapi_releaseAllSnapshots (api s1)) s1).
Definition service_on (sv : io next) (s1 : rdb_sys R) : rdb_sys R :=
  set_service (Some sv) (rockRdbParams s1) (isRdbServiceThreadRunning s1) s1.

Lemma settle_service_bad sv s :
  service_bad sv → isRdbServiceThreadRunning s = true → settle_service sv s = Ok (service_over s).
Proof. intros [-> | ->] Hr; simpl; by rewrite Hr. Qed.
Lemma settle_service_keep sv s :
  (∃ len buf k, sv = IRead len buf k) ∨ (∃ rest k, sv = IWrite rest k) ∨ (∃ i key, sv = service_read i key) →
  settle_service sv s = Ok (service_on sv s).
Proof. by intros [(? & ? & ? & ->)|[(? & ? & ->)|(? & ? & ->)]]. Qed.

Lemma phase_no_service out_all n c sv rq rs : phase out_all n c sv rq rs → phase out_all n c None rq rs.
Proof. destruct 1; [by eapply ph_request|by eapply ph_reply]. Qed.
Lemma phase_no_child out_all n c sv rq rs : phase out_all n c sv rq rs → phase out_all n None sv rq rs.
Proof. destruct 1; [by eapply ph_request|by eapply ph_reply]. Qed.

Lemma service_phase out_all n c sv s a room peer sv' rq rq' rs out :
  phase out_all n c (Some sv) rq rs → isRdbServiceThreadRunning s = true →
  io_step a sv rq room peer = Some (sv', rq', out) →
  let s1 := set_pipes rq' (rs ++ out) s in
  (settle_service sv' s1 = Ok (service_over s1) ∧ phase out_all n c None rq' (rs ++ out) ∧ broken a peer) ∨
  ∃ sv1 n1, settle_service sv' s1 = Ok (service_on sv1 s1) ∧
    phase out_all n1 c (Some sv1) rq' (rs ++ out) ∧ (n1 < n)%nat.
Proof.
  intros Hp Hrun. pose proof (phase_no_service _ _ _ _ _ _ Hp) as Hp'.
  inversion Hp as [i key b o es out0 acc n0 w q c0 sv0 He Hpe Hall Hc Hsv Hn Hc0 Hs0 Hrq Hrs|
    es out0 acc n0 w q c0 sv0 Hpe Hall Hc Hsv Hn Hc0 Hs0 Hrq Hrs]; subst; intros Hst s1.
  - pose proof (Hsv sv eq_refl) as Hrc. destruct (decide (rq ++ w = [])) as [He0|He0].
    { rewrite He0 in Hrc. apply recv_done in Hrc as ->. by destruct a. }
    destruct (recv_more _ _ _ _ Hrc He0) as (len & buf & k & -> & Hlen & Hb1 & Hb2).
    apply io_step_read in Hst as [-> [(m & Hm & Hm' & -> & ->)|[Hc' [-> Hbr]]]].
    + assert (recv service_bad (service_read i key) (drop m rq ++ w)
        (read_ret len buf k (ReadBytes (take m rq)))) as Hrc'.
      { rewrite <- drop_app_le by done. eapply recv_step; [done..|]. by rewrite take_app_le. }
      right. eexists _, _. split.
      { apply (settle_service_keep _ s1). destruct (decide (drop m rq ++ w = [])) as [He1|He1].
        - rewrite He1 in Hrc'. apply recv_done in Hrc'. rewrite Hrc'. right; right. eauto.
        - left. destruct (recv_more _ _ _ _ Hrc' He1) as (? & ? & ? & -> & _). eauto. }
      split.
      { eapply (ph_request _ _ _ _ _ _ _ _ _ w (drop m rq)); try done. by intros ? [= <-]. }
      rewrite length_drop. lia.
    + left. rewrite app_nil_r. split; [|done].
      apply settle_service_bad; [destruct Hc' as [-> | ->]; done|done].
  - destruct (Hsv sv eq_refl) as [[Hw Hsd]|[-> ->]].
    + destruct (sends_more _ _ _ _ Hsd Hw) as (rest & kw & -> & Hne & Hb).
      apply io_step_write in Hst as [-> [(m & Hm & Hpeer & -> & ->)|[-> [-> Hbr]]]].
      * destruct (sends_step _ _ _ _ _ m Hsd Hw ltac:(lia)) as [Ht Hsd'].
        pose proof (sends_length _ _ _ _ _ Hsd Hw).
        assert (∀ sv1, drop m w ≠ [] ∧ sends service_bad (IDone NextRequest) (drop m w) sv1 ∨
          drop m w = [] ∧ sv1 = serve →
          phase (acc ++ out0) (2 * length (drop m w) + length (rs ++ take m w) + n0) c (Some sv1)
            [] (rs ++ take m w)) as Hph.
        { intros sv1 Hs1. eapply (ph_reply _ _ _ _ _ (drop m w)); try done.
          - intros c' ->. rewrite <- app_assoc, take_drop. by apply Hc.
          - by intros ? [= <-]. }
        rewrite Ht. right. destruct (decide (drop m w = [])) as [Hd|Hd].
        -- rewrite Hd in Hsd'. apply sends_done in Hsd'. rewrite Hsd'. exists serve. eexists.
           split; [done|]. split; [apply Hph; by right|].
           rewrite length_app, length_take, length_drop. lia.
        -- eexists _, _. split.
           { apply (settle_service_keep _ s1). right; left.
             destruct (sends_more _ _ _ _ Hsd' Hd) as (? & ? & -> & _). eauto. }
           split; [apply Hph; by left|]. rewrite length_app, length_take, length_drop. lia.
      * left. rewrite app_nil_r. split; [by apply settle_service_bad|done].
    + apply io_step_read in Hst as [-> [(m & Hm & Hm' & _)|[Hc' [-> Hbr]]]]; [simpl in Hm'; lia|].
      left. rewrite app_nil_r. split; [|done].
      apply settle_service_bad; [destruct Hc' as [-> | ->]; [by left|by right]|done].
Qed.

(** The service thread has its value. *)
Lemma snapshot_phase out_all n c i key k s rq rs :
  phase out_all n c (Some (ISnapshot i key k)) rq rs → snapshot_of a0 (api s) →
  0 ≤ i ∧ ∃ v sv1 n1, rocksdbapi_read_from_snapshot (Z.to_nat i) key (api s) = Ok v ∧
    settle_service (k v) s = Ok (service_on sv1 s) ∧ phase out_all n1 c (Some sv1) rq rs ∧ (n1 < n)%nat.
Proof.
  intros Hp Hsn.
  inversion Hp as [i' key' b o es out0 acc n0 w q c0 sv0 He Hpe Hall Hc Hsv Hn Hc0 Hs0 Hrq Hrs|
    es out0 acc n0 w q c0 sv0 Hpe Hall Hc Hsv Hn Hc0 Hs0 Hrq Hrs]; subst.
  - pose proof (Hsv _ eq_refl) as Hrc. destruct (decide (rq ++ w = [])) as [He0|He0].
    2:{ by destruct (recv_more _ _ _ _ Hrc He0) as (? & ? & ? & ? & _). }
    rewrite He0 in Hrc. apply recv_done in Hrc. injection Hrc as -> -> ->.
    apply app_eq_nil in He0 as [-> ->]. split; [lia|]. rewrite Nat2Z.id.
    assert (∃ d, all_dbs a0 !! i' = Some (Some d)) as [d Hd].
    { pose proof (re_stored _ _ _ _ He) as Hst. unfold stored_val in Hst.
      destruct (all_dbs a0 !! i') as [[d|]|]; by eauto. }
    rewrite (snapshot_of_read a0 _ _ _ d Hsn Hd (re_key _ _ _ _ He)), (re_stored _ _ _ _ He).
    eexists _, _, _. split; [done|]. split.
    { apply settle_service_keep. right; left. by eexists _, _. }
    split.
    + eapply (ph_reply _ _ _ (acc ++ [(i', key', o)]) _ (reply_bytes b) []); [done|by rewrite <- app_assoc| |].
      * intros c' ->. destruct (Hc c' eq_refl) as (cw & Hsd & Hr). apply sends_done in Hsd as ->.
        split; [apply reply_nonempty|done].
      * intros ? [= <-]. left. split; [apply reply_nonempty|apply service_reply].
    + cbn [length]. lia.
  - destruct (Hsv _ eq_refl) as [[Hw Hsd]|[_ ?]]; [|done].
    by destruct (sends_more _ _ _ _ Hsd Hw) as (? & ? & ? & _).
Qed.

(** Every call of the exchange takes it further; no assertion of the server
    fails. *)
Lemma inv_exchange out_all m s e r :
  rdb_inv out_all m s → is_main e = false → rdb_step cap e s = Some r →
  ∃ s' m', r = Ok s' ∧ rdb_inv out_all m' s' ∧ (m' < m)%nat.
Proof.
  intros [[n [Hp ->]] Hsaved Hm Hsv] He Hst. destruct e as [a| |a| | |]; try done; simpl in Hst.
  - destruct (child s) as [c|] eqn:Hc; [|done]. simpl in Hst.
    destruct (io_step _ _ _ _ _) as [[[c' rs'] out]|] eqn:Hio; [|done]. injection Hst as <-.
    destruct (child_phase _ _ _ _ _ _ _ _ _ _ _ _ Hp Hio) as (c1 & o1 & n1 & Hset & Hp1 & Hlt & Ho1).
    rewrite Hset. eexists _, _. split; [done|]. split.
    + split; simpl; [by eexists| |done|done].
      intros o Ho. destruct c1; [apply Hsaved; congruence|].
      destruct Ho1 as [->|[-> _]]; [congruence|by apply Hsaved].
    + simpl. solve_live.
  - destruct (child s) as [c|] eqn:Hc; [|done]. injection Hst as <-. eexists _, _. split; [done|]. split.
    + split; simpl; [|done..]. eexists. split; [by eapply phase_no_child|done].
    + simpl. solve_live.
  - destruct (service s) as [sv|] eqn:Hs; [|done]. simpl in Hst, Hsv. destruct Hsv as (Hrun & Hpar & Hsn).
    destruct (io_step _ _ _ _ _) as [[[sv' rq'] out]|] eqn:Hio; [|done]. injection Hst as <-.
    destruct (service_phase _ _ _ _ s _ _ _ _ _ _ _ _ Hp Hrun Hio) as [(Hset & Hp1 & _)|(sv1 & n1 & Hset & Hp1 & Hlt)];
      rewrite Hset; (eexists _, _; split; [done|]; split).
    + split; simpl; [by eexists|done| |].
      * by apply no_snapshots_match, release_no_snapshots.
      * split_and!; [done..|]. by apply release_no_snapshots.
    + simpl. solve_live.
    + split; simpl; [by eexists|done..].
    + simpl. solve_live.
  - destruct (service s) as [[| | | |i key k]|] eqn:Hs; try done. simpl in Hsv. destruct Hsv as (Hrun & Hpar & Hsn).
    destruct (snapshot_phase _ _ _ _ _ _ s _ _ Hp Hsn) as (Hi & v & sv1 & n1 & Hv & Hset & Hp1 & Hlt).
    rewrite (proj2 (Z.leb_le 0 i)), Hv in Hst by done. simpl in Hst. rewrite Hset in Hst. injection Hst as <-.
    eexists _, _. split; [done|]. split; [split; simpl; [by eexists|done..]|simpl; solve_live].
Qed.

(** The main thread does not interfere. *)
Lemma inv_main out_all m s e s' :
  rdb_inv out_all m s → is_main e = true → rdb_step cap e s = Some (Ok s') → rdb_inv out_all m s'.
Proof.
  intros [Hp Hsaved [Hl Hm] Hsv] He Hst.
  assert (∃ a, s' = set_api a s ∧ (snapshot_of a0 (api s) → snapshot_of a0 a) ∧
    all_snapshots a = all_snapshots (api s) ∧ length (all_dbs a) = length (all_dbs (api s)) ∧
    ∀ i, all_dbs a !! i = Some None → all_dbs (api s) !! i = Some None) as (a & -> & Hso & Hsn & Hl' & Hn).
  { destruct e as [| | | |i key val|i key]; try done; simpl in Hst; injection Hst as Hst; inv_res.
    - eexists. split; [done|]. split; [by eapply snapshot_of_write|]. by eapply write_snapshots.
    - destruct a as [o a]. inv_res. eexists. split; [done|].
      split; [by eapply snapshot_of_rread|]. by eapply read_snapshots. }
  assert (snapshots_match a) by (split; [congruence|]; intros i Hi; rewrite Hsn; auto).
  split; simpl; [done..|]. destruct (alive (service s)); [naive_solver|].
  destruct Hsv as (H1 & H2 & H3 & H4). split_and!; [done..|]. split; [congruence|]. by rewrite Hsn.
Qed.

(** As long as nothing fails, the child ends only when it is done, and the
    service thread only after the child. *)
Record healthy (out_all : saved) (s : rdb_sys R) : Prop := {
  he_child : child s = None → saved_out s = Some out_all;
  he_service : service s = None → child s = None
}.

Lemma healthy_step out_all m s e s' :
  rdb_inv out_all m s → healthy out_all s → failure e s = false → rdb_step cap e s = Some (Ok s') →
  healthy out_all s'.
Proof.
  intros [[n [Hp ->]] Hsaved Hm Hsv] [Hhc Hhs] Hf Hst. destruct e as [a| |a| |i key val|i key]; try done; simpl in Hst.
  - destruct (child s) as [c|] eqn:Hc; [|done]. simpl in Hst.
    destruct (io_step _ _ _ _ _) as [[[c' rs'] out]|] eqn:Hio; [|done]. injection Hst as <-.
    destruct (child_phase _ _ _ _ _ _ _ _ _ _ _ _ Hp Hio) as (c1 & o1 & n1 & Hset & Hp1 & Hlt & Ho1).
    rewrite Hset. destruct (service s) as [sv|] eqn:Hs; [|by discriminate Hhs].
    split; simpl; [|by rewrite Hs]. intros ->. destruct Ho1 as [->|[-> Hbr]]; [done|].
    destruct a; simpl in *; rewrite ?Hs in *; done.
  - destruct (service s) as [sv|] eqn:Hs; [|done]. simpl in Hst, Hsv. destruct Hsv as (Hrun & Hpar & Hsn).
    destruct (io_step _ _ _ _ _) as [[[sv' rq'] out]|] eqn:Hio; [|done]. injection Hst as Hst.
    destruct (service_phase _ _ _ _ s _ _ _ _ _ _ _ _ Hp Hrun Hio)
      as [(Hset & Hp1 & Hbr)|(sv1 & n1 & Hset & Hp1 & Hlt)];
      rewrite Hset in Hst; injection Hst as <-; [|by split].
    split; [done|]. simpl. intros _. destruct (child s) eqn:Hc; [|done].
    destruct a; simpl in *; rewrite ?Hc in *; done.
  - destruct (service s) as [[| | | |i key k]|] eqn:Hs; try done. simpl in Hsv. destruct Hsv as (Hrun & Hpar & Hsn).
    destruct (snapshot_phase _ _ _ _ _ _ s _ _ Hp Hsn) as (Hi & v & sv1 & n1 & Hv & Hset & Hp1 & Hlt).
    rewrite (proj2 (Z.leb_le 0 i)), Hv in Hst by done. simpl in Hst. rewrite Hset in Hst. injection Hst as <-.
    by split.
  - injection Hst as Hst. inv_res. by split.
  - injection Hst as Hst. inv_res. destruct a as [o a]. inv_res. by split.
Qed.

Definition calm_step (s : rdb_sys R) : Prop :=
  ∃ e r, is_main e = false ∧ failure e s = false ∧ rdb_step cap e s = Some r.

Lemma child_can s c :
  child s = Some c →
  can_step c (pipe_response s) (cap - length (pipe_request s)) (alive (service s)) → calm_step s.
Proof.
  intros Hc (a & [[c' rs] out] & Hs & Ha). exists (Child a). eexists. split; [done|].
  split; [destruct a; naive_solver|]. simpl. rewrite Hc. simpl. by rewrite Hs.
Qed.
Lemma service_can s sv :
  service s = Some sv →
  can_step sv (pipe_request s) (cap - length (pipe_response s)) (alive (child s)) → calm_step s.
Proof.
  intros Hc (a & [[c' rs] out] & Hs & Ha). exists (Service a). eexists. split; [done|].
  split; [destruct a; naive_solver|]. simpl. rewrite Hc. simpl. by rewrite Hs.
Qed.

(** Something can always be done until both are gone, without a failure. *)
Lemma exchange_progress out_all m s :
  (0 < cap)%nat → rdb_inv out_all m s → alive (child s) || alive (service s) = true → calm_step s.
Proof.
  intros Hcap [[n [Hp _]] _ _ _] Hal. remember (child s) as c eqn:Hc. remember (service s) as sv eqn:Hs.
  remember (pipe_request s) as rq eqn:Hrq. remember (pipe_response s) as rs eqn:Hrs.
  destruct Hp as [i key b o es out acc n w q c sv He Hpe Hall Hcp Hsv|es out acc n w q c sv Hpe Hall Hcp Hsv].
  - destruct (decide (q = [] ∧ w = [])) as [[-> ->]|Hqw].
    { destruct sv as [sv|].
      - pose proof (Hsv _ eq_refl) as Hr. apply recv_done in Hr as ->.
        exists ServiceSnapshot. eexists. split; [done|]. split; [done|]. simpl. by rewrite <- Hs.
      - destruct c as [c|]; [|done]. destruct (Hcp _ eq_refl) as (cw & Hsd & Hr). apply sends_done in Hsd as ->.
        destruct (recv_more _ _ _ _ Hr (reply_nonempty b)) as (len & buf & k & -> & Hlen & _).
        eapply child_can; [done|]. rewrite <- Hs, <- Hrs. apply can_read; [done|by right]. }
    destruct sv as [sv|].
    + destruct (recv_more _ _ _ _ (Hsv _ eq_refl)) as (len & buf & k & -> & Hlen & _).
      { intros [-> ->]%app_eq_nil. naive_solver. }
      destruct (decide (q = [])) as [->|Hq].
      * destruct c as [c|].
        -- destruct (Hcp _ eq_refl) as (cw & Hsd & _).
           destruct (sends_more _ _ _ _ Hsd) as (rest & k' & -> & Hne & _); [naive_solver|].
           eapply child_can; [done|]. rewrite <- Hrq. apply can_write; [done|]. left. simpl. lia.
        -- eapply service_can; [done|]. rewrite <- Hc. apply can_read; [done|by right].
      * eapply service_can; [done|]. rewrite <- Hrq. apply can_read; [done|by left].
    + destruct c as [c|]; [|done]. destruct (Hcp _ eq_refl) as (cw & Hsd & Hr).
      eapply child_can; [done|]. rewrite <- Hs, <- Hrs. destruct (decide (w = [])) as [->|Hw].
      * apply sends_done in Hsd as ->.
        destruct (recv_more _ _ _ _ Hr (reply_nonempty b)) as (len & buf & k & -> & Hlen & _).
        apply can_read; [done|by right].
      * destruct (sends_more _ _ _ _ Hsd Hw) as (rest & k' & -> & Hne & _). apply can_write; [done|by right].
  - destruct c as [c|].
    + destruct (Hcp _ eq_refl) as [Hqw Hr].
      destruct (recv_more _ _ _ _ Hr Hqw) as (len & buf & k & -> & Hlen & _).
      destruct (decide (q = [])) as [->|Hq].
      * destruct sv as [sv|].
        -- destruct (Hsv _ eq_refl) as [[Hw Hsd]|[-> _]]; [|done].
           destruct (sends_more _ _ _ _ Hsd Hw) as (rest & k' & -> & Hne & _).
           eapply service_can; [done|]. rewrite <- Hrs. apply can_write; [done|]. left. simpl. lia.
        -- eapply child_can; [done|]. rewrite <- Hs. apply can_read; [done|by right].
      * eapply child_can; [done|]. rewrite <- Hrs. apply can_read; [done|by left].
    + destruct sv as [sv|]; [|done]. eapply service_can; [done|]. rewrite <- Hc.
      destruct (Hsv _ eq_refl) as [[Hw Hsd]|[-> ->]].
      * destruct (sends_more _ _ _ _ Hsd Hw) as (rest & k' & -> & Hne & _). apply can_write; [done|by right].
      * apply can_read; [lia|by right].
Qed.

End protocol.

(** ** From the keyspace to the file *)

Section saving.
Context {R : RocksDB} {L : RocksDBLaws R}.
Implicit Types (k : keyspace R) (s : rdb_sys R).

(** Entries of the dictionaries of [k]; their numbers fit into the messages. *)
Definition entries_at k (entries : list (nat * bytes * dval)) : Prop :=
  Forall (fun '(i, key, v) =>
    dict_at k i key = Some v ∧ Z.of_nat i < 2 ^ 31 ∧ Z.of_nat (length key) < 2 ^ 64 ∧
    ∀ b, stored_val (rocks k) i key = Some b → Z.of_nat (length b) < 2 ^ 64) entries.

(** [out] has for every entry the value that clients see. *)
Definition saved_as k : list (nat * bytes * dval) → saved → Prop :=
  Forall2 (fun '(i, key, _) '(i', key', o) =>
    i' = i ∧ key' = key ∧ logical k i key = Some (content_of o)).

(** No background save is under way. *)
Record quiet s : Prop := {
  qu_child : child s = None;
  qu_service : service s = None;
  qu_params : rockRdbParams s = false;
  qu_running : isRdbServiceThreadRunning s = false;
  qu_snapshots : no_snapshots (api s)
}.

(** Everything the fork needs works. *)
Definition all_works : fork_env := ForkEnv true true true true true.

(** The run has no failure. *)
Fixpoint calm_run (cap : nat) (es : list rdb_event) s : bool :=
  match es with
  | [] => true
  | e :: es' =>
      negb (failure e s) &&
      match rdb_step cap e s with Some (Ok s') => calm_run cap es' s' | _ => true end
  end.

(** How many events of a run belong to the exchange. *)
Definition exchanged (es : list rdb_event) : nat := length (filter (fun e => is_main e = false) es).

Lemma pending_entries env k entries :
  ks_ok k → entries_at k entries →
  ∃ out n, pending (rocks k) env entries out n ∧ saved_as k entries out.
Proof.
  intros Hk. induction 1 as [|[[i key] v] entries (Hd & Hi & Hl & Hb) _ (out & n & Hp & Hs)].
  - exists [], 0%nat. split; constructor.
  - destruct v as [|o].
    + destruct (ks_rock k Hk i key Hd) as (Hne & o & b & Hst & Hdump).
      eexists (_ :: out), _. split; [eapply (pending_rock _ _ _ _ b (restored env o)); [|done]|].
      * split; try done; [by apply desObject_dump|by apply Hb].
      * constructor; [|done]. split_and!; [done..|]. unfold logical. rewrite Hd, Hst. simpl.
        by apply decode_dump.
    + eexists (_ :: out), _. split; [by apply pending_mem|]. constructor; [|done].
      split_and!; [done..|]. unfold logical. by rewrite Hd.
Qed.

Lemma fork_starts s : quiet s →
  ∃ a, rocksdbapi_createSnapshots (api s) = Ok a ∧ snapshots_match a ∧ snapshot_of (api s) a ∧
  ∀ env entries,
    redisFork all_works env entries s = Ok (true, settle_child (save_entries env entries [])
      (RdbSys a None None (Some serve) [] [] true true)).
Proof.
  intros [Hc Hs Hp Hr Hn]. destruct (createSnapshots_total _ Hn) as (a & Ha & Hm & _). exists a.
  split_and!; [done..|by apply snapshot_of_create|]. intros env entries.
  unfold redisFork, initRockSerivceForRdbInMainThread. rewrite Hp, Hr. simpl. by rewrite Ha.
Qed.

Lemma fork_inv env k entries s s1 :
  ks_ok k → quiet s → api s = rocks k → entries_at k entries →
  redisFork all_works env entries s = Ok (true, s1) →
  ∃ out m, rdb_inv (rocks k) env out m s1 ∧ healthy out s1 ∧ saved_as k entries out.
Proof.
  intros Hk Hq Hapi He Hf. destruct (pending_entries env k entries Hk He) as (out & n & Hp & Hsa).
  destruct (fork_starts s Hq) as (a & _ & Hm & Hsn & Hfork). rewrite Hfork in Hf. injection Hf as <-.
  rewrite Hapi in Hsn.
  destruct (next_child (rocks k) env out entries out [] n (RdbSys a None None (Some serve) [] [] true true))
    as (c & o & -> & Hph & Ho); try done.
  { by intros sv [= <-]. }
  exists out. eexists. split; [|split; [|done]].
  - split; simpl; [by eexists| |done|done]. intros x Hx. destruct c; simpl in Ho; congruence.
  - split; simpl; [|done]. intros ->. done.
Qed.

Lemma run_inv cap a0 env out m s es s' :
  rdb_inv a0 env out m s → rdb_run cap es s = Some (Ok s') →
  ∃ m', rdb_inv a0 env out m' s' ∧ (m' + exchanged es ≤ m)%nat ∧
    (healthy out s → calm_run cap es s = true → healthy out s').
Proof.
  revert m s. induction es as [|e es IH]; intros m s Hi Hr; simpl in Hr.
  - injection Hr as <-. exists m. split_and!; [done|unfold exchanged; simpl; lia|done].
  - destruct (rdb_step cap e s) as [[s1|]|] eqn:Hst; try done.
    assert (∃ m1, rdb_inv a0 env out m1 s1 ∧ (m1 + exchanged [e] ≤ m)%nat) as (m1 & Hi1 & Hm1).
    { unfold exchanged. rewrite filter_cons. destruct (is_main e) eqn:He.
      - exists m. split; [by eapply inv_main|]. rewrite decide_False by done. simpl. lia.
      - destruct (inv_exchange _ _ _ _ _ _ _ _ Hi He Hst) as (s2 & m1 & [= <-] & Hi1 & Hlt).
        exists m1. split; [done|]. rewrite decide_True by done. simpl. lia. }
    destruct (IH m1 s1 Hi1 Hr) as (m' & Hi' & Hm' & Hh'). exists m'. split_and!; [done| |].
    + unfold exchanged in *. change (e :: es) with ([e] ++ es). rewrite filter_app, length_app. lia.
    + intros Hh Hcalm. simpl in Hcalm. rewrite Hst in Hcalm. apply andb_true_iff in Hcalm as [Hf Hcalm].
      apply Hh'; [|done]. apply negb_true_iff in Hf. by apply (healthy_step cap a0 env out m s e s1).
Qed.

(** C5: background saves are consistent.  However the calls of the child and of the service thread
    interleave with each other and with the reads and writes of the main thread, and
    whatever fails on the way: if the child completes its file, the file has
    exactly the values that clients saw at the fork, also those in RocksDB;
    and no call of the exchange makes the server stop. *)
Theorem bgsave_snapshot cap env k entries s s1 es s2 :
  ks_ok k → quiet s → api s = rocks k → entries_at k entries →
  redisFork all_works env entries s = Ok (true, s1) → rdb_run cap es s1 = Some (Ok s2) →
  (∀ out, saved_out s2 = Some out → saved_as k entries out) ∧
  (∀ e r, is_main e = false → rdb_step cap e s2 = Some r → ∃ s3, r = Ok s3).
Proof.
  intros Hk Hq Ha He Hf Hr. destruct (fork_inv env k entries s s1 Hk Hq Ha He Hf) as (out & m & Hi & _ & Hsa).
  destruct (run_inv cap _ _ _ _ _ _ _ Hi Hr) as (m' & Hi' & _). split.
  - intros out' Ho. by rewrite (ri_saved _ _ _ _ _ Hi' out' Ho).
  - intros e r Hm Hst. destruct (inv_exchange _ _ _ _ _ _ _ _ Hi' Hm Hst) as (s3 & _ & -> & _). eauto.
Qed.

(** C6: background saves end.  The number of calls of the exchange is bounded by a number known at the fork; when no
    more of them is possible, child and service thread are gone, the snapshots are
    released, and the next fork can start; and if no call has failed, the
    file is complete. *)
Theorem bgsave_ends cap env k entries s s1 :
  (0 < cap)%nat → ks_ok k → quiet s → api s = rocks k → entries_at k entries →
  redisFork all_works env entries s = Ok (true, s1) →
  ∃ bound, ∀ es s2, rdb_run cap es s1 = Some (Ok s2) →
    (exchanged es ≤ bound)%nat ∧
    ((∀ e, is_main e = false → failure e s2 = false → rdb_step cap e s2 = None) →
     child s2 = None ∧
     (∀ env' entries', ∃ s3, redisFork all_works env' entries' s2 = Ok (true, s3)) ∧
     (calm_run cap es s1 = true → ∃ out, saved_out s2 = Some out ∧ saved_as k entries out)).
Proof.
  intros Hcap Hk Hq Ha He Hf.
  destruct (fork_inv env k entries s s1 Hk Hq Ha He Hf) as (out & m & Hi & Hh & Hsa).
  exists m. intros es s2 Hr. destruct (run_inv cap _ _ _ _ _ _ _ Hi Hr) as (m' & Hi' & Hle & Hh').
  split; [lia|]. intros Hstop. destruct (alive (child s2) || alive (service s2)) eqn:Hal.
  { destruct (exchange_progress cap _ _ _ _ _ Hcap Hi' Hal) as (e & r & He1 & He2 & He3).
    by rewrite (Hstop e He1 He2) in He3. }
  apply orb_false_iff in Hal as [Hc Hs].
  assert (quiet s2) as Hq2.
  { destruct Hi' as [_ _ _ Hsv]. rewrite Hs in Hsv. destruct Hsv as (H1 & H2 & H3).
    split; [by destruct (child s2)|by destruct (service s2)|done..]. }
  split_and!.
  - by destruct Hq2.
  - intros env' entries'. destruct (fork_starts s2 Hq2) as (a & _ & _ & _ & Hfork). eauto.
  - intros Hcalm. exists out. split; [|done]. apply (he_child _ _ (Hh' Hh Hcalm)). by destruct Hq2.
Qed.

(** SAVE, which runs in the main thread. *)
Lemma save_sync_spec env k entries : ∀ (s : keyspace R) acc,
  ks_ok s → rapi_ok (length (dbs s)) (rocks s) → (∀ i key, dict_at s i key = dict_at k i key) →
  (∀ i key, logical s i key = logical k i key) → entries_at k entries →
  ∃ out (s' : keyspace R), save_sync env entries acc s = Ok (acc ++ out, s') ∧ saved_as k entries out.
Proof.
  induction entries as [|[[i key] v] entries IH]; intros s acc Hk Hn Hd Hlg He.
  - exists [], s. split; [by rewrite app_nil_r|constructor].
  - apply Forall_cons in He as [(Hdk & _) He]. destruct v as [|o].
    + destruct (restore_obj_total env i key s Hk) as (val & a & Hr & Hl & _ & _ & Hst & Hna); [by rewrite Hd|].
      assert (∀ j x, logical (set_rocks a s) j x = logical s j x) as Hlg'.
      { intros j x. unfold logical. change (dict_at (set_rocks a s) j x) with (dict_at s j x).
        simpl. by rewrite Hst. }
      destruct (IH (set_rocks a s) (acc ++ [(i, key, val)])) as (out & s' & Hs & Hsa); try done.
      * apply ks_ok_rocks; [done..|by apply Hna].
      * by apply Hna.
      * intros. by rewrite Hlg', Hlg.
      * exists ((i, key, val) :: out), s'. split; [|constructor; [by rewrite <- Hlg|done]].
        simpl. rewrite Hr. simpl. by rewrite Hs, <- app_assoc.
    + destruct (IH s (acc ++ [(i, key, o)])) as (out & s' & Hs & Hsa); try done.
      exists ((i, key, o) :: out), s'. split; [simpl; by rewrite Hs, <- app_assoc|].
      constructor; [|done]. split_and!; [done..|]. unfold logical. by rewrite Hdk.
Qed.

(** A foreground save is complete.  SAVE reads the values in RocksDB in the main thread; it does not fail, and its
    file has the same contents a background save would have. *)
Theorem save_complete env k entries :
  ks_ok k → entries_at k entries →
  ∃ out k', save_sync env entries [] k = Ok (out, k') ∧ saved_as k entries out.
Proof. intros Hk He. by apply (save_sync_spec env k entries k []); [|destruct Hk|..]. Qed.

(** After a failed fork no background save starts any more.  [redisFork] gives the parameters back but leaves the service
    thread asleep, its flag set and the snapshots held; every later BGSAVE and AOF
    rewrite is refused, without the operating system being asked again. *)
Theorem fork_failure s env entries :
  quiet s →
  ∃ s1, redisFork (ForkEnv true true true true false) env entries s = Ok (false, s1) ∧
    ∀ active fe env' entries', rdbSaveBackground active fe env' entries' s1 = Ok (false, s1).
Proof.
  intros Hq. destruct (fork_starts s Hq) as (a & Ha & _). destruct Hq as [_ _ Hp Hr _].
  unfold redisFork, initRockSerivceForRdbInMainThread. rewrite Hp, Hr. simpl. rewrite Ha. simpl.
  eexists. split; [done|]. intros [] fe env' entries'; done.
Qed.

(** A fork during a background save stops the server.  While the service thread runs, [server.rockRdbParams] is set and
    the first assertion of [redisFork] fails; BGSAVE and the AOF rewrite test for
    this, the debugger's [ldbStartSession] and [RM_Fork] do not. *)
Theorem second_fork_aborts s env entries s1 fe env' entries' :
  quiet s → redisFork all_works env entries s = Ok (true, s1) →
  redisFork fe env' entries' s1 = Abort "server.rockRdbParams == NULL".
Proof.
  intros Hq Hf. destruct (fork_starts s Hq) as (a & _ & _ & _ & Hfork). rewrite Hfork in Hf. injection Hf as <-.
  unfold redisFork. by destruct (save_entries env entries []).
Qed.
End saving.

(** ** An example: one value in memory, one in RocksDB *)

Definition rdb_ex_obj (s : bytes) : robj := Robj OBJ_STRING OBJ_ENCODING_RAW 7 1 (PSds s).
Definition rdb_ex_dump : bytes :=
  match serObject (rdb_ex_obj [x68; x69]) with Ok b => b | Abort _ => [] end.
Definition rdb_ex_ks : keyspace map_rocksdb :=
  Keyspace [RedisDb {[ [x61] := InRock; [x62] := VObj (rdb_ex_obj [x79]) ]} ∅ ∅ {[ [x62] ]}] true 7
    (Rapi [Some {[ [x61] := rdb_ex_dump ]}] [None]).
Definition rdb_ex_entries : list (nat * bytes * dval) :=
  [(0%nat, [x61], InRock); (0%nat, [x62], VObj (rdb_ex_obj [x79]))].
Definition rdb_ex_sys : rdb_sys map_rocksdb :=
  RdbSys (rocks rdb_ex_ks) None None None [] [] false false.

Lemma rdb_ex_ok : ks_ok rdb_ex_ks.
Proof.
  split; [done|by vm_compute| |].
  - intros [|i] key; [|by destruct i]. unfold dict_at. cbn. intros [[<- _]|[_ [_ [=]]%lookup_singleton_Some]]%lookup_insert_Some.
    split; [done|]. exists (rdb_ex_obj [x68; x69]). eexists. split; [reflexivity|]. by split; [split|].
  - intros [|i] key o; [|by destruct i]. unfold dict_at. cbn.
    intros [[_ [=]]|[_ [_ [= <-]]%lookup_singleton_Some]]%lookup_insert_Some. by split; [|by right].
Qed.
Lemma rdb_ex_quiet : quiet rdb_ex_sys.
Proof. by split; [..|split; [|repeat constructor]]. Qed.
Lemma rdb_ex_entries_ok : entries_at rdb_ex_ks rdb_ex_entries.
Proof.
  apply Forall_cons. split; [|apply Forall_singleton]; (split_and!; [reflexivity|by vm_compute..|]); intros b.
  - intros Hb. vm_compute in Hb. injection Hb as <-. by vm_compute.
  - intros Hb. vm_compute in Hb. discriminate.
Qed.

(** The fork, and the whole exchange with a dump in the middle of it. *)
Definition rdb_ex_forked : rdb_sys map_rocksdb :=
  match redisFork all_works any_env rdb_ex_entries rdb_ex_sys with Ok (_, s) => s | Abort _ => rdb_ex_sys end.
Definition rdb_ex_events : list rdb_event :=
  [Child (AWrite 4); Service (ARead 3); Child (AWrite 8); Child (AWrite 1); Service (ARead 1);
   MainWrite 0 [x61] [x00]; Service (ARead 8); Service (ARead 1); ServiceSnapshot; Service (AWrite 8);
   Child (ARead 8); Service (AWrite 3); Child (ARead 3); Service (AWrite 5); Child (ARead 5); Service AEof].
Definition rdb_ex_after : rdb_sys map_rocksdb :=
  match rdb_run 16 rdb_ex_events rdb_ex_forked with Some (Ok s) => s | _ => rdb_ex_sys end.

Example rdb_ex_saved :
  saved_out rdb_ex_after = Some [(0%nat, [x61], rdb_ex_obj [x68; x69]); (0%nat, [x62], rdb_ex_obj [x79])] ∧
  stored_val (api rdb_ex_after) 0 [x61] = Some [x00].
Proof. vm_compute. done. Qed.

Lemma rdb_ex_fork : redisFork all_works any_env rdb_ex_entries rdb_ex_sys = Ok (true, rdb_ex_forked).
Proof.
  unfold rdb_ex_forked. destruct (fork_starts rdb_ex_sys rdb_ex_quiet) as (a & _ & _ & _ & Hf). by rewrite Hf.
Qed.
Lemma rdb_ex_run : rdb_run 16 rdb_ex_events rdb_ex_forked = Some (Ok rdb_ex_after).
Proof.
  assert (match rdb_run 16 rdb_ex_events rdb_ex_forked with Some (Ok _) => true | _ => false end = true) as H
    by (vm_compute; reflexivity).
  unfold rdb_ex_after. by destruct (rdb_run 16 rdb_ex_events rdb_ex_forked) as [[s|]|].
Qed.

Lemma bgsave_snapshot_witness :
  saved_as rdb_ex_ks rdb_ex_entries [(0%nat, [x61], rdb_ex_obj [x68; x69]); (0%nat, [x62], rdb_ex_obj [x79])].
Proof.
  apply (bgsave_snapshot 16 any_env rdb_ex_ks rdb_ex_entries rdb_ex_sys rdb_ex_forked rdb_ex_events rdb_ex_after);
    [exact rdb_ex_ok|exact rdb_ex_quiet|done|exact rdb_ex_entries_ok|exact rdb_ex_fork|exact rdb_ex_run|apply rdb_ex_saved].
Defined.

Lemma bgsave_ends_witness :
  ∃ bound, ∀ es s2, rdb_run 16 es rdb_ex_forked = Some (Ok s2) → (exchanged es ≤ bound)%nat.
Proof.
  destruct (bgsave_ends 16 any_env rdb_ex_ks rdb_ex_entries rdb_ex_sys rdb_ex_forked) as [n Hn];
    [lia|exact rdb_ex_ok|exact rdb_ex_quiet|done|exact rdb_ex_entries_ok|exact rdb_ex_fork|].
  exists n. intros es s2 Hr. apply (Hn es s2 Hr).
Defined.

Lemma save_complete_witness :
  ∃ out k', save_sync any_env rdb_ex_entries [] rdb_ex_ks = Ok (out, k') ∧ saved_as rdb_ex_ks rdb_ex_entries out.
Proof. apply (save_complete any_env rdb_ex_ks rdb_ex_entries); [exact rdb_ex_ok|exact rdb_ex_entries_ok]. Defined.

Lemma fork_failure_witness :
  ∃ s1, redisFork (ForkEnv true true true true false) any_env rdb_ex_entries rdb_ex_sys = Ok (false, s1) ∧
    ∀ active fe env' entries', rdbSaveBackground active fe env' entries' s1 = Ok (false, s1).
Proof. apply (fork_failure rdb_ex_sys any_env rdb_ex_entries). exact rdb_ex_quiet. Defined.

Lemma second_fork_aborts_witness :
  redisFork all_works any_env [] rdb_ex_forked = Abort "server.rockRdbParams == NULL".
Proof.
  apply (second_fork_aborts rdb_ex_sys any_env rdb_ex_entries rdb_ex_forked);
    [exact rdb_ex_quiet|exact rdb_ex_fork].
Defined.
