(* ===== verification/Prog.v ===== *)
(** * Commands as programs over the keyspace

    The implementation of a command reaches the data only through the functions
    of db.c.  A command is therefore a program over these calls; what it does
    between them is an arbitrary function of the results.  [run] executes a program
    on the RedRock keyspace, [arun] on a plain dictionary with no RocksDB behind
    it, and [run_sim] shows that the two agree as long as the program only looks
    at values that are in memory. *)

From S2P Require Import Prelude Util Robj Zset Serdes RocksApi Keyspace KeyspaceInv.
From stdpp Require Import list gmap strings.
#[local] Open Scope Z_scope.

(** ** Calls *)

Inductive kcall : Type → Type :=
| KLookupRead (notouch : bool) (key : bytes) : kcall (option content)
| KLookupWrite (notouch : bool) (key : bytes) : kcall (option content)
| KExists (notouch : bool) (key : bytes) : kcall bool    (* lookupKeyRead(..) != NULL *)
| KExistsW (key : bytes) : kcall bool                    (* lookupKeyWrite(..) != NULL *)
| KExpireIfNeeded (key : bytes) : kcall bool
| KAdd (key : bytes) (val : robj) : kcall unit
| KOverwrite (key : bytes) (val : robj) : kcall unit
| KSetKey (key : bytes) (val : robj) (keepttl : bool) : kcall unit
| KDelete (key : bytes) : kcall bool
| KSyncDelete (key : bytes) : kcall bool
| KAsyncDelete (key : bytes) : kcall bool
| KGetExpire (key : bytes) : kcall Z
| KSetExpire (key : bytes) (when : Z) : kcall unit
| KRemoveExpire (key : bytes) : kcall bool
| KMutate (key : bytes) (new : content) : kcall unit
| KUnshare (key : bytes) : kcall unit                    (* dbUnshareStringValue *)
| KStoreInt (key : bytes) (value : Z) : kcall unit.

(** The key whose value the call looks at. *)
Definition needs {A} (k : kcall A) : option bytes :=
  match k with
  | KLookupRead _ key | KLookupWrite _ key | KMutate key _ | KUnshare key | KStoreInt key _ => Some key
  | _ => None
  end.

Inductive prog (A : Type) : Type :=
| Ret (x : A)
| Panic (msg : string)             (* serverPanic() *)
| Call {B : Type} (k : kcall B) (f : B → prog A).
Arguments Ret {A}.
Arguments Panic {A}.
Arguments Call {A B}.

(** [shared.valueInRock]: the integer 250. *)
Definition valueInRock_content : content := (OBJ_STRING, OBJ_ENCODING_INT, PInt 250).
Definition seen (v : option dval) : option content :=
  match v with
  | None => None
  | Some InRock => Some valueInRock_content
  | Some (VObj o) => Some (content_of o)
  end.

Section exec.
Context {R : RocksDB}.

Definition exec (c : server_cfg) (draw : bool) (i : nat) {A} (k : kcall A)
  : keyspace R → res (A * keyspace R) :=
  match k with
  | KLookupRead notouch key => fun s =>
      '(v, s) ← lookupKeyReadWithFlags c draw notouch i key s; mret (seen v, s)
  | KLookupWrite notouch key => fun s =>
      '(v, s) ← lookupKeyWriteWithFlags c draw notouch i key s; mret (seen v, s)
  | KExists notouch key => fun s =>
      '(v, s) ← lookupKeyReadWithFlags c draw notouch i key s;
      mret (match v with None => false | Some _ => true end, s)
  | KExistsW key => fun s =>
      '(v, s) ← lookupKeyWrite c draw i key s;
      mret (match v with None => false | Some _ => true end, s)
  | KExpireIfNeeded key => expireIfNeeded c i key
  | KAdd key val => fun s => s ← dbAdd i key val s; mret (tt, s)
  | KOverwrite key val => fun s => s ← dbOverwrite c i key val s; mret (tt, s)
  | KSetKey key val keepttl => fun s => s ← genericSetKey c draw i key val keepttl s; mret (tt, s)
  | KDelete key => fun s => Ok (dbDelete c i key s)
  | KSyncDelete key => fun s => Ok (dbSyncDelete i key s)
  | KAsyncDelete key => fun s => Ok (dbAsyncDelete i key s)
  | KGetExpire key => fun s => w ← getExpire i key s; mret (w, s)
  | KSetExpire key when => fun s => s ← setExpire i key when s; mret (tt, s)
  | KRemoveExpire key => fun s => removeExpire i key s
  | KMutate key (t, enc, ptr) => fun s => s ← mutateValue i key t enc ptr s; mret (tt, s)
  | KUnshare key => fun s => s ← dbUnshareStringValue c i key s; mret (tt, s)
  | KStoreInt key value => fun s => s ← storeInteger c i key value s; mret (tt, s)
  end.

(** [draws] are the outcomes of the random tests of the LFU counter. *)
Fixpoint run {A} (c : server_cfg) (draws : nat → bool) (i : nat) (p : prog A) (s : keyspace R)
  : res (A * keyspace R) :=
  match p with
  | Ret x => Ok (x, s)
  | Panic msg => Abort msg
  | Call k f => '(b, s) ← exec c (draws 0%nat) i k s; run c (fun n => draws (S n)) i (f b) s
  end.
End exec.

(** ** The same calls on a plain dictionary *)

Record adb := Adb { a_dict : gmap bytes content; a_expires : gmap bytes Z }.

Definition a_del (key : bytes) (d : adb) : adb :=
  Adb (delete key (a_dict d)) (delete key (a_expires d)).
Definition a_put (key : bytes) (x : content) (d : adb) : adb :=
  Adb (<[key := x]> (a_dict d)) (a_expires d).
Definition a_has (key : bytes) (d : adb) : bool := bool_decide (a_dict d !! key ≠ None).

Definition a_getExpire (key : bytes) (d : adb) : option Z :=
  match a_expires d !! key with
  | None => Some (-1)
  | Some w => if a_has key d then Some w else None
  end.

Definition a_expireIfNeeded (c : server_cfg) (key : bytes) (d : adb) : option (bool * adb) :=
  when ← a_getExpire key d;
  Some (if (0 <=? when) && negb (loading c) && (when <? expire_now c) then
          if masterhost c then (true, d) else (a_has key d, a_del key d)
        else (false, d)).

Definition a_lookupRead (c : server_cfg) (key : bytes) (d : adb) : option (option content * adb) :=
  '(exp, d) ← a_expireIfNeeded c key d;
  Some (if exp && (negb (masterhost c) || readonly_cmd c) then None else a_dict d !! key, d).

Definition aexec (c : server_cfg) {A} (k : kcall A) : adb → option (A * adb) :=
  match k with
  | KLookupRead _ key => a_lookupRead c key
  | KLookupWrite _ key => fun d =>
      '(_, d) ← a_expireIfNeeded c key d; Some (a_dict d !! key, d)
  | KExists _ key => fun d =>
      '(v, d) ← a_lookupRead c key d; Some (match v with None => false | Some _ => true end, d)
  | KExistsW key => fun d => '(_, d) ← a_expireIfNeeded c key d; Some (a_has key d, d)
  | KExpireIfNeeded key => a_expireIfNeeded c key
  | KAdd key val => fun d =>
      if a_has key d then None else Some (tt, a_put key (content_of val) d)
  | KOverwrite key val => fun d =>
      if a_has key d then Some (tt, a_put key (content_of val) d) else None
  | KSetKey key val keepttl => fun d =>
      '(_, d) ← a_expireIfNeeded c key d;
      let d := a_put key (content_of val) d in
      Some (tt, if keepttl then d else Adb (a_dict d) (delete key (a_expires d)))
  | KDelete key | KSyncDelete key | KAsyncDelete key => fun d => Some (a_has key d, a_del key d)
  | KGetExpire key => fun d => w ← a_getExpire key d; Some (w, d)
  | KSetExpire key when => fun d =>
      if a_has key d then Some (tt, Adb (a_dict d) (<[key := when]> (a_expires d))) else None
  | KRemoveExpire key => fun d =>
      if a_has key d then
        Some (bool_decide (a_expires d !! key ≠ None), Adb (a_dict d) (delete key (a_expires d)))
      else None
  | KMutate key new => fun d =>
      old ← a_dict d !! key;
      if bool_decide (old.1.1 = new.1.1) then Some (tt, a_put key new d) else None
  | KUnshare key => fun d =>
      match a_dict d !! key with
      | Some (OBJ_STRING, enc, ptr) =>
          s ← decoded enc ptr; Some (tt, a_put key (OBJ_STRING, OBJ_ENCODING_RAW, PSds s) d)
      | _ => None
      end
  | KStoreInt key value => fun d =>
      if a_has key d then Some (tt, a_put key (OBJ_STRING, OBJ_ENCODING_INT, PInt value) d) else None
  end.

Fixpoint arun {A} (c : server_cfg) (p : prog A) (d : adb) : option (A * adb) :=
  match p with
  | Ret x => Some (x, d)
  | Panic _ => None
  | Call k f => '(b, d) ← aexec c k d; arun c (f b) d
  end.

(** ** Conditions on programs *)

(** The objects a command creates are well formed. *)
Definition call_ok {A} (k : kcall A) : Prop :=
  match k with
  | KAdd _ val | KOverwrite _ val | KSetKey _ val _ => val_ok val
  | KMutate _ (t, enc, ptr) => t = OBJ_STREAM ∨ wf_payload t enc ptr
  | KStoreInt _ value => is_ll value
  | _ => True
  end.

(** The values it finds are. *)
Definition found_ok (v : option content) : Prop :=
  match v with Some (t, enc, ptr) => t = OBJ_STREAM ∨ wf_payload t enc ptr | None => True end.
Definition result_ok {A} (k : kcall A) : A → Prop :=
  match k with
  | KLookupRead _ _ | KLookupWrite _ _ => found_ok
  | _ => fun _ => True
  end.

(** Every value the program looks at belongs to a key of [K]. *)
Fixpoint prog_ok {A} (K : list bytes) (p : prog A) : Prop :=
  match p with
  | Ret _ | Panic _ => True
  | Call k f => call_ok k ∧ (∀ key, needs k = Some key → key ∈ K) ∧ ∀ b, result_ok k b → prog_ok K (f b)
  end.

(** No deletion goes around the hot keys. *)
Definition call_sync {A} (k : kcall A) : Prop :=
  match k with KAsyncDelete _ => False | _ => True end.
Fixpoint prog_sync {A} (p : prog A) : Prop :=
  match p with
  | Ret _ | Panic _ => True
  | Call k f => call_sync k ∧ ∀ b, prog_sync (f b)
  end.

(** A plain database without dangling expire times, whose values are well formed. *)
Record adb_ok (d : adb) : Prop := {
  adb_exp key : is_Some (a_expires d !! key) → is_Some (a_dict d !! key);
  adb_val key t enc ptr : a_dict d !! key = Some (t, enc, ptr) → t = OBJ_STREAM ∨ wf_payload t enc ptr
}.

(** ** Agreement *)

Section sim.
Context {R : RocksDB}.
Implicit Types (s : keyspace R) (key : bytes).

Record db_sim s (j : nat) (d : adb) : Prop := {
  sim_dict key : logical s j key = a_dict d !! key;
  sim_expires : expires (get_db s j) = a_expires d
}.

(** Database [i] is [d], the others are as in [a]. *)
Definition sim s (a : nat → adb) (i : nat) (d : adb) : Prop :=
  ∀ j, db_sim s j (if decide (j = i) then d else a j).

(** Values only ever leave RocksDB. *)
Record moves s s' : Prop := {
  mv_len : length (dbs s') = length (dbs s);
  mv_init : alreadyInitHotKeys s' = alreadyInitHotKeys s;
  mv_rocks : rocks s' = rocks s;
  mv_rockKeys j : rockKeys (get_db s' j) = rockKeys (get_db s j);
  mv_rock j key : dict_at s' j key = Some InRock → dict_at s j key = Some InRock
}.

Lemma moves_refl s : moves s s.
Proof. by split. Qed.
Lemma moves_trans s1 s2 s3 : moves s1 s2 → moves s2 s3 → moves s1 s3.
Proof. intros [] []. split; [congruence..|eauto]. Qed.
Lemma moves_touched s s' : touched s s' → moves s s'.
Proof. intros H. split; try apply H. intros j key. by rewrite (touched_in_rock _ _ _ _ H). Qed.
Lemma moves_writes i key v s s' : writes i key v s s' → v ≠ Some InRock → moves s s'.
Proof.
  intros H Hv. split; try apply H. intros j k. rewrite (wr_dict _ _ _ _ _ H). by case_decide.
Qed.
Lemma moves_same_data s s' : same_data s s' → moves s s'.
Proof. intros H. split; try apply H. intros j k. by rewrite (sd_dict _ _ H). Qed.

Lemma logical_none s i key : ks_ok s → logical s i key = None ↔ dict_at s i key = None.
Proof.
  intros Hks. unfold logical. destruct (dict_at s i key) as [[|o]|] eqn:Hd; [|naive_solver..].
  destruct (ks_rock s Hks i key Hd) as (_ & o & b & -> & Hdump). simpl.
  rewrite (decode_dump o b Hdump). naive_solver.
Qed.

Lemma sim_has s a i d key : ks_ok s → sim s a i d → a_has key d = bool_decide (dict_at s i key ≠ None).
Proof.
  intros Hks Hs. specialize (Hs i). rewrite decide_True in Hs by done. unfold a_has.
  rewrite <- (sim_dict _ _ _ Hs). apply bool_decide_ext. by rewrite logical_none.
Qed.

Lemma sim_self s a i d : sim s a i d → db_sim s i d.
Proof. intros Hs. specialize (Hs i). by rewrite decide_True in Hs. Qed.

Lemma sim_touched s s' a i d : touched s s' → sim s a i d → sim s' a i d.
Proof.
  intros Ht Hs j. destruct (Hs j) as [Hd He]. split.
  - intros key. by rewrite (touched_logical _ _ _ _ Ht).
  - by rewrite (to_expires _ _ Ht).
Qed.

(** A write of one entry, with what it does to the expires. *)
Lemma sim_writes s s' a i d key v x e :
  writes i key v s s' → v ≠ Some InRock → v ≫= content_dval = x →
  (∀ j, expires (get_db s' j) = if decide (j = i) then e else expires (get_db s j)) →
  sim s a i d → sim s' a i (Adb (partial_alter (fun _ => x) key (a_dict d)) e).
Proof.
  intros Hw Hv Hx He Hs j. split.
  - intros k. rewrite (logical_writes _ _ _ _ _ _ _ Hw Hv). destruct (decide (j = i)) as [->|Hj]; simpl.
    + destruct (decide (k = key)) as [->|Hk].
      * rewrite decide_True by done. by rewrite lookup_partial_alter_eq.
      * rewrite decide_False by congruence. rewrite lookup_partial_alter_ne by done.
        apply (sim_dict _ _ _ (sim_self _ _ _ _ Hs)).
    + rewrite decide_False by congruence. specialize (Hs j). rewrite decide_False in Hs by done.
      apply (sim_dict _ _ _ Hs).
  - rewrite He. case_decide; [done|]. specialize (Hs j). rewrite decide_False in Hs by done.
    apply (sim_expires _ _ _ Hs).
Qed.

Lemma sim_del s s' a i d key :
  writes i key None s s' → expires_without i key s s' → sim s a i d → sim s' a i (a_del key d).
Proof.
  intros Hw He Hs. unfold a_del, delete, map_delete.
  eapply (sim_writes s s' a i d key None None); try done.
  intros j. rewrite He. case_decide; [|done].
  by rewrite (sim_expires _ _ _ (sim_self _ _ _ _ Hs)).
Qed.

Lemma sim_put s s' a i d key o :
  writes i key (Some (VObj o)) s s' → (∀ j, expires (get_db s' j) = expires (get_db s j)) →
  sim s a i d → sim s' a i (a_put key (content_of o) d).
Proof.
  intros Hw He Hs. unfold a_put, insert, map_insert.
  eapply (sim_writes s s' a i d key (Some (VObj o)) (Some (content_of o))); try done.
  intros j. rewrite He. case_decide as Hj; [|done]. subst j.
  apply (sim_expires _ _ _ (sim_self _ _ _ _ Hs)).
Qed.

(** The result of a concrete call against the result of the abstract one. *)
Definition agrees s a i {A} (hot : Prop) (r : res (A * keyspace R)) (ra : option (A * adb)) : Prop :=
  match r with
  | Ok (x, s') => ∃ d', ra = Some (x, d') ∧ sim s' a i d' ∧ ks_ok s' ∧ moves s s' ∧
                        (hot → hot_ok s → hot_ok s')
  | Abort _ => ra = None
  end.

Lemma agrees_bind {A B} s a i (hot : Prop) (r : res (A * keyspace R)) ra
    (f : A → keyspace R → res (B * keyspace R)) fa :
  agrees s a i hot r ra →
  (∀ x s' d', sim s' a i d' → ks_ok s' → moves s s' → agrees s' a i hot (f x s') (fa x d')) →
  agrees s a i hot ('(x, s') ← r; f x s') ('(x, d') ← ra; fa x d').
Proof.
  intros Hr Hf. destruct r as [[x s']|m]; simpl in *; [|by rewrite Hr].
  destruct Hr as (d' & -> & Hs & Hks & Hm & Hh). simpl. specialize (Hf x s' d' Hs Hks Hm).
  destruct (f x s') as [[y s2]|m]; simpl in *; [|done].
  destruct Hf as (d2 & Hd2 & Hs2 & Hks2 & Hm2 & Hh2). exists d2. split_and!; try done.
  - by eapply moves_trans.
  - eauto.
Qed.

Lemma agrees_hot {A} s a i (h h' : Prop) (r : res (A * keyspace R)) ra :
  (h' → h) → agrees s a i h r ra → agrees s a i h' r ra.
Proof. intros Hh. destruct r as [[x s']|m]; simpl; [|done]. intros (d' & ? & ? & ? & ? & ?). eauto 10. Qed.

Lemma getExpire_agrees s a i d key :
  ks_ok s → sim s a i d →
  match getExpire i key s with Ok w => a_getExpire key d = Some w | Abort _ => a_getExpire key d = None end.
Proof.
  intros Hks Hs. unfold getExpire, a_getExpire.
  rewrite (sim_expires _ _ _ (sim_self _ _ _ _ Hs)). destruct (a_expires d !! key) as [w|]; [|done].
  rewrite (sim_has s a i d key Hks Hs). by destruct (bool_decide _).
Qed.

Lemma delete_agrees s a i d key b s' (hot : Prop) :
  ks_ok s → sim s a i d →
  b = bool_decide (dict_at s i key ≠ None) → writes i key None s s' → expires_without i key s s' →
  (hot → hot_ok s → hot_ok s') →
  agrees s a i hot (Ok (b, s')) (Some (a_has key d, a_del key d)).
Proof.
  intros Hks Hs -> Hw He Hh. simpl. exists (a_del key d). split_and!; try done.
  - by rewrite (sim_has s a i d key Hks Hs).
  - by eapply sim_del.
  - by eapply ks_ok_writes.
  - by eapply moves_writes.
Qed.

Lemma expire_agrees c s a i d key :
  ks_ok s → sim s a i d →
  agrees s a i (lazyfree_lazy_expire c = false) (expireIfNeeded c i key s) (a_expireIfNeeded c key d).
Proof.
  intros Hks Hs. unfold expireIfNeeded, keyIsExpired, a_expireIfNeeded.
  pose proof (getExpire_agrees s a i d key Hks Hs) as Hg.
  destruct (getExpire i key s) as [w|m]; simpl; rewrite Hg; [|done]. simpl.
  assert ((if w <? 0 then false else if loading c then false else w <? expire_now c)
          = (0 <=? w) && negb (loading c) && (w <? expire_now c)) as ->.
  { rewrite Z.leb_antisym. destruct (w <? 0), (loading c); done. }
  destruct (_ && _ && _); simpl; [|exists d; by auto using moves_refl].
  destruct (masterhost c); [exists d; by auto using moves_refl|].
  destruct (lazyfree_lazy_expire c).
  - destruct (dbAsyncDelete i key s) as [b s'] eqn:Hd.
    apply dbAsyncDelete_spec in Hd as (Hb & Hw & He & _).
    exact (delete_agrees s a i d key b s' (true = false) Hks Hs Hb Hw He (fun H => ltac:(done))).
  - destruct (dbSyncDelete i key s) as [b s'] eqn:Hd.
    apply dbSyncDelete_spec in Hd as (Hb & Hw & He & Hh).
    exact (delete_agrees s a i d key b s' (false = false) Hks Hs Hb Hw He (fun _ => Hh)).
Qed.

(** A lookup that is not of a value in RocksDB sees the logical value. *)
Lemma lookup_seen c draw notouch i key s a d r s' :
  lookupKey c draw notouch i key s = (r, s') → wf_env (cfg_env c) → ks_ok s → sim s a i d →
  (dict_at s i key ≠ Some InRock → seen r = a_dict d !! key) ∧
  (r = None ↔ a_dict d !! key = None) ∧
  sim s' a i d ∧ ks_ok s' ∧ moves s s' ∧ touched s s'.
Proof.
  intros Hl Hw Hks Hs. apply lookupKey_spec in Hl as (-> & Ht & Hok); [|done].
  assert (∀ k, logical s i k = a_dict d !! k) as Hlog by apply (sim_dict _ _ _ (sim_self _ _ _ _ Hs)).
  split_and!; auto using moves_touched.
  - rewrite <- Hlog. intros Hn. unfold logical.
    destruct (to_dict _ _ Ht i key) as [[|o] [|o'] Hv|]; simpl in *; try done. by destruct Hv as [-> _].
  - rewrite <- Hlog, (touched_none _ _ _ _ Ht). symmetry. by apply logical_none.
  - by eapply sim_touched.
Qed.

Lemma lookup_agrees {A} c draw notouch i key s a d (hot : Prop) (g : option dval → A) (ga : option content → A) :
  wf_env (cfg_env c) → ks_ok s → sim s a i d →
  (∀ r, (r = None ↔ a_dict d !! key = None) →
        (dict_at s i key ≠ Some InRock → seen r = a_dict d !! key) →
        g r = ga (a_dict d !! key)) →
  agrees s a i hot (let '(r, s') := lookupKey c draw notouch i key s in Ok (g r, s'))
    (Some (ga (a_dict d !! key), d)).
Proof.
  intros Hw Hks Hs Hg. destruct (lookupKey c draw notouch i key s) as [r s'] eqn:Hl.
  destruct (lookup_seen _ _ _ _ _ _ _ _ _ _ Hl Hw Hks Hs) as (H1 & H2 & H3 & H4 & H5 & H6).
  exists d. rewrite (Hg r H2 H1). split_and!; try done. intros _. by apply touched_hot_ok.
Qed.

Lemma lookupRead_agrees {A} c draw notouch i key s a d (g : option dval → A) (ga : option content → A) :
  wf_env (cfg_env c) → ks_ok s → sim s a i d → g None = ga None →
  (∀ r x, (r = None ↔ x = None) →
        (dict_at s i key ≠ Some InRock → seen r = x) → g r = ga x) →
  agrees s a i (lazyfree_lazy_expire c = false)
    ('(r, s') ← lookupKeyReadWithFlags c draw notouch i key s; Ok (g r, s'))
    ('(x, d') ← a_lookupRead c key d; Some (ga x, d')).
Proof.
  intros Hw Hks Hs Hn Hg. unfold lookupKeyReadWithFlags, a_lookupRead.
  pose proof (expire_agrees c s a i d key Hks Hs) as He.
  destruct (expireIfNeeded c i key s) as [[b s1]|m]; simpl in *; [|by rewrite He].
  destruct He as (d1 & -> & Hs1 & Hks1 & Hm1 & Hh1). simpl.
  assert (∀ r : res (A * keyspace R), ∀ ra, agrees s1 a i (lazyfree_lazy_expire c = false) r ra →
          agrees s a i (lazyfree_lazy_expire c = false) r ra) as Hlift.
  { intros [[x s2]|m] ra; simpl; [|done]. intros (d2 & ? & ? & ? & ? & ?). exists d2.
    split_and!; eauto using moves_trans. }
  assert (agrees s a i (lazyfree_lazy_expire c = false) (Ok (g None, s1)) (Some (ga None, d1)))
    as Hnone by (exists d1; rewrite Hn; done).
  destruct b; simpl.
  - destruct (masterhost c); simpl; [|done]. destruct (readonly_cmd c); simpl; [done|].
    apply Hlift. pose proof (lookup_agrees c draw notouch i key s1 a d1
      (lazyfree_lazy_expire c = false) g ga Hw Hks1 Hs1) as Hla.
    destruct (lookupKey c draw notouch i key s1). apply Hla. intros r Hr1 Hr2. apply Hg; [done|].
    intros Hnr. apply Hr2. intros Hin. by apply Hm1 in Hin.
  - apply Hlift. pose proof (lookup_agrees c draw notouch i key s1 a d1
      (lazyfree_lazy_expire c = false) g ga Hw Hks1 Hs1) as Hla.
    destruct (lookupKey c draw notouch i key s1). apply Hla. intros r Hr1 Hr2. apply Hg; [done|].
    intros Hnr. apply Hr2. intros Hin. by apply Hm1 in Hin.
Qed.

Lemma put_agrees s a i d key o (hot : Prop) :
  ks_ok s → sim s a i d → (i < length (dbs s))%nat → val_ok o →
  agrees s a i hot (Ok (tt, put_obj i key o s)) (Some (tt, a_put key (content_of o) d)).
Proof.
  intros Hks Hs Hi Hv. pose proof (put_obj_writes i key o s Hi) as Hw.
  eexists. split_and!; [done| | | |].
  - eapply sim_put; [done| |done]. intros j. apply put_obj_expires.
  - eapply ks_ok_writes; [done| |done]. intros ? [= <-]. eauto.
  - by eapply moves_writes.
  - intros _. by apply put_obj_hot.
Qed.

Lemma add_agrees s a i d key o (hot : Prop) :
  ks_ok s → sim s a i d → (i < length (dbs s))%nat → val_ok o →
  agrees s a i hot (s' ← dbAdd i key o s; Ok (tt, s'))
    (if a_has key d then None else Some (tt, a_put key (content_of o) d)).
Proof.
  intros Hks Hs Hi Hv. rewrite (sim_has s a i d key Hks Hs). unfold dbAdd.
  destruct (dict_at s i key) as [v|] eqn:Hd; simpl; [done|].
  by apply (put_agrees s a i d key o hot).
Qed.

Lemma overwrite_agrees c s a i d key o (hot : Prop) :
  ks_ok s → sim s a i d → val_ok o →
  agrees s a i hot (s' ← dbOverwrite c i key o s; Ok (tt, s'))
    (if a_has key d then Some (tt, a_put key (content_of o) d) else None).
Proof.
  intros Hks Hs Hv. rewrite (sim_has s a i d key Hks Hs). unfold dbOverwrite.
  destruct (dict_at s i key) as [v|] eqn:Hd; simpl; [|done].
  pose proof (dict_at_valid _ _ _ _ Hd) as Hi.
  destruct (policy_has _ _); [|by apply (put_agrees s a i d key o hot)].
  change (content_of o) with (content_of (set_lru (val_lru s v) o)).
  apply (put_agrees s a i d key (set_lru (val_lru s v) o) hot); try done.
  apply val_ok_set_lru; [done|]. destruct v as [|o']; simpl; [apply Hks|].
  by apply (ks_val s Hks i key o').
Qed.

Lemma exp_upd_agrees {A : Type} s (a : nat → adb) (i : nat) (d : adb) (f : gmap bytes Z → gmap bytes Z) (x : A) (hot : Prop) :
  ks_ok s → sim s a i d → (i < length (dbs s))%nat →
  agrees s a i hot (Ok (x, upd_db i (fun d => set_expires (f (expires d)) d) s))
    (Some (x, Adb (a_dict d) (f (a_expires d)))).
Proof.
  intros Hks Hs Hi. pose proof (same_data_exp i (fun d => f (expires d)) s) as Hsd.
  eexists. split_and!; [done| | | |].
  - intros j. split.
    + intros k. rewrite (logical_same_data _ _ _ _ Hsd). pose proof (Hs j) as [Hd _].
      rewrite Hd. by case_decide.
    + rewrite get_db_upd. pose proof (Hs j) as [_ He]. destruct (decide (j = i)) as [->|Hj].
      * rewrite decide_True by done. simpl. by rewrite He.
      * rewrite decide_False by naive_solver. done.
  - by eapply ks_ok_same_data.
  - by apply moves_same_data.
  - intros _ Hh. eapply hot_ok_same_data; [done|done|]. intros j. by rewrite hot_upd_other.
Qed.

Lemma mutate_agrees s a i d key t enc ptr (hot : Prop) :
  ks_ok s → sim s a i d → dict_at s i key ≠ Some InRock → t = OBJ_STREAM ∨ wf_payload t enc ptr →
  agrees s a i hot (s' ← mutateValue i key t enc ptr s; Ok (tt, s')) (aexec (Cfg any_env false false
    false false false false false 0 0 0) (KMutate key (t, enc, ptr)) d).
Proof.
  intros Hks Hs Hn Hwf. simpl. rewrite <- (sim_dict _ _ _ (sim_self _ _ _ _ Hs)).
  unfold mutateValue, logical.
  destruct (dict_at s i key) as [[|o]|] eqn:Hd; simpl; [done| |done].
  pose proof (dict_at_valid _ _ _ _ Hd) as Hi.
  destruct (bool_decide_reflect (o_type o = t)) as [Ht|]; simpl; [|done].
  set (o' := Robj t enc (o_lru o) (o_refcount o) ptr).
  pose proof (writes_insert i key (VObj o') s Hi) as Hw.
  eexists. split_and!; [done| | | |].
  - apply (sim_put s _ a i d key o'); [done| |done]. intros j. by apply get_db_upd_field.
  - eapply ks_ok_writes; [done| |done]. intros ? [= <-]. eexists. split; [done|].
    split; [|done]. by apply (ks_val s Hks i key o).
  - by eapply moves_writes.
  - intros _ [Hlz Hm Hr]. split.
    + intros Hf j. rewrite hot_upd_other by done. by apply Hlz.
    + intros j k. rewrite hot_upd_other by done. intros (o1 & Ho1 & Hty)%Hm.
      rewrite (wr_dict _ _ _ _ _ Hw). case_decide as He; [|eauto].
      injection He as -> ->. exists o'. split; [done|]. simpl. congruence.
    + intros j k. rewrite (wr_dict _ _ _ _ _ Hw). case_decide; [done|]. apply Hr.
Qed.

Lemma unshare_agrees c s a i d key (hot : Prop) :
  wf_env (cfg_env c) → ks_ok s → sim s a i d → dict_at s i key ≠ Some InRock →
  agrees s a i hot (s' ← dbUnshareStringValue c i key s; Ok (tt, s')) (aexec c (KUnshare key) d).
Proof.
  intros Hw Hks Hs Hn. simpl. rewrite <- (sim_dict _ _ _ (sim_self _ _ _ _ Hs)).
  unfold dbUnshareStringValue, logical. destruct (dict_at s i key) as [[|o]|] eqn:Hd; simpl; [done| |done].
  destruct o as [t enc lru rc ptr]. unfold content_of. simpl.
  destruct t; simpl; try done. destruct (ks_val s Hks i key _ Hd) as [Hlru [?|Hwf]]; [done|]. simpl in *.
  destruct (decoded_wf _ _ Hwf) as [b Hb]. rewrite Hb. simpl.
  destruct (negb (rc =? 1) || negb (bool_decide (enc = OBJ_ENCODING_RAW))) eqn:Hsh; simpl.
  - pose proof (overwrite_agrees c s a i d key (createRawStringObject (cfg_env c) b) hot Hks Hs) as H.
    rewrite (sim_has s a i d key Hks Hs), Hd in H. apply H. by apply val_ok_raw.
  - apply orb_false_iff in Hsh as [_ He%negb_false_iff%bool_decide_eq_true]. subst enc.
    destruct ptr; simpl in Hb, Hwf; try done. injection Hb as ->.
    assert (logical s i key = Some (OBJ_STRING, OBJ_ENCODING_RAW, PSds b)) as Hl by (unfold logical; by rewrite Hd).
    exists d. split_and!; auto using moves_refl. do 2 f_equal. unfold a_put.
    rewrite insert_id; [by destruct d|]. by rewrite <- (sim_dict _ _ _ (sim_self _ _ _ _ Hs)).
Qed.

Lemma storeInteger_agrees c s a i d key v (hot : Prop) :
  wf_env (cfg_env c) → ks_ok s → sim s a i d → dict_at s i key ≠ Some InRock → is_ll v →
  agrees s a i hot (s' ← storeInteger c i key v s; Ok (tt, s')) (aexec c (KStoreInt key v) d).
Proof.
  intros Hw Hks Hs Hn Hv. simpl. pose proof (sim_has s a i d key Hks Hs) as Hhas.
  unfold storeInteger. destruct (dict_at s i key) as [[|o]|] eqn:Hd; simpl; [done| |by rewrite Hhas].
  destruct (val_ok_integer (cfg_env c) v Hw Hv) as [Hok Hcont].
  destruct (bool_decide _ && _) eqn:Hb.
  - apply andb_true_iff in Hb as [[Ht He]%bool_decide_eq_true _].
    pose proof (mutate_agrees s a i d key OBJ_STRING OBJ_ENCODING_INT (PInt v) hot Hks Hs) as H.
    rewrite Hd in H. specialize (H ltac:(done) ltac:(by right)). simpl in H.
    rewrite <- (sim_dict _ _ _ (sim_self _ _ _ _ Hs)) in H. unfold logical in H. rewrite Hd in H. simpl in H.
    rewrite Ht in H. rewrite bool_decide_eq_true_2 in H by done. by rewrite Hhas.
  - rewrite <- Hcont. apply overwrite_agrees; done.
Qed.

Lemma moves_valid s s' i : moves s s' → (i < length (dbs s))%nat → (i < length (dbs s'))%nat.
Proof. intros [-> _ _ _ _]. done. Qed.

Lemma setKey_agrees c draw s a i d key o keepttl :
  wf_env (cfg_env c) → ks_ok s → sim s a i d → (i < length (dbs s))%nat → val_ok o →
  agrees s a i (lazyfree_lazy_expire c = false)
    (s' ← genericSetKey c draw i key o keepttl s; Ok (tt, s'))
    (aexec c (KSetKey key o keepttl) d).
Proof.
  intros Hw Hks Hs Hi Hv. unfold genericSetKey, lookupKeyWrite, lookupKeyWriteWithFlags. simpl.
  pose proof (expire_agrees c s a i d key Hks Hs) as He.
  destruct (expireIfNeeded c i key s) as [[b s1]|m]; simpl in *; [|by rewrite He].
  destruct He as (d1 & -> & Hs1 & Hks1 & Hm1 & Hh1). simpl.
  destruct (lookupKey c draw false i key s1) as [r s2] eqn:Hl.
  destruct (lookup_seen _ _ _ _ _ _ _ _ _ _ Hl Hw Hks1 Hs1) as (_ & Hr & Hs2 & Hks2 & Hm2 & Ht2). simpl.
  set (hot := lazyfree_lazy_expire c = false) in *.
  assert (agrees s2 a i hot
    (s' ← match r with None => dbAdd i key o s2 | Some _ => dbOverwrite c i key o s2 end; Ok (tt, s'))
    (Some (tt, a_put key (content_of o) d1))) as Hput.
  { destruct r as [v|].
    - pose proof (overwrite_agrees c s2 a i d1 key o hot Hks2 Hs2 Hv) as H.
      unfold a_has in H. rewrite bool_decide_eq_true_2 in H; naive_solver.
    - pose proof (add_agrees s2 a i d1 key o hot Hks2 Hs2
        (moves_valid _ _ _ Hm2 (moves_valid _ _ _ Hm1 Hi)) Hv) as H.
      unfold a_has in H. rewrite bool_decide_eq_false_2 in H; naive_solver. }
  destruct (match r with None => _ | Some _ => _ end) as [s3|m]; simpl in *; [|done].
  destruct Hput as (d3 & [= <-] & Hs3 & Hks3 & Hm3 & Hh3).
  assert (moves s s3) as Hm by eauto using moves_trans.
  destruct keepttl; simpl.
  { eexists. split_and!; eauto using touched_hot_ok. }
  unfold removeExpire. rewrite <- (sim_has s3 a i _ key Hks3 Hs3).
  assert (a_has key (a_put key (content_of o) d1) = true) as ->.
  { unfold a_has, a_put. simpl. rewrite lookup_insert_eq. done. }
  simpl. pose proof (exp_upd_agrees s3 a i _ (delete key) tt hot Hks3 Hs3
    (moves_valid _ _ _ Hm Hi)) as (d4 & [= <-] & Hs4 & Hks4 & Hm4 & Hh4).
  eexists. split_and!; [done|done|done|by eapply moves_trans|]. eauto using touched_hot_ok.
Qed.

Lemma lookupWrite_agrees {A} c draw notouch i key s a d (g : option dval → A) (ga : option content → A) :
  wf_env (cfg_env c) → ks_ok s → sim s a i d →
  (∀ r x, (r = None ↔ x = None) → (dict_at s i key ≠ Some InRock → seen r = x) → g r = ga x) →
  agrees s a i (lazyfree_lazy_expire c = false)
    ('(v, s') ← lookupKeyWriteWithFlags c draw notouch i key s; Ok (g v, s'))
    ('(_, d') ← a_expireIfNeeded c key d; Some (ga (a_dict d' !! key), d')).
Proof.
  intros Hw Hks Hs Hg. unfold lookupKeyWriteWithFlags. simpl.
  pose proof (expire_agrees c s a i d key Hks Hs) as He.
  destruct (expireIfNeeded c i key s) as [[b s1]|m]; simpl in *; [|by rewrite He].
  destruct He as (d1 & -> & Hs1 & Hks1 & Hm1 & Hh1). simpl.
  destruct (lookupKey c draw notouch i key s1) as [r s2] eqn:Hl.
  destruct (lookup_seen _ _ _ _ _ _ _ _ _ _ Hl Hw Hks1 Hs1) as (Hr & Hr0 & Hs2 & Hks2 & Hm2 & Ht2). simpl.
  exists d1. rewrite (Hg r (a_dict d1 !! key)); [|done|by intros Hnr; apply Hr; intros Hin; apply Hm1 in Hin].
  split_and!; eauto using moves_trans, touched_hot_ok.
Qed.

Lemma exec_agrees {A : Type} c draw i (k : kcall A) s a d :
  wf_env (cfg_env c) → ks_ok s → sim s a i d → (i < length (dbs s))%nat → call_ok k →
  (∀ key, needs k = Some key → dict_at s i key ≠ Some InRock) →
  agrees s a i (call_sync k ∧ lazyfree_lazy_expire c = false) (exec c draw i k s) (aexec c k d).
Proof.
  intros Hw Hks Hs Hi Hk Hn.
  destruct k as [nt key|nt key|nt key|key|key|key o|key o|key o kt|key|key|key|key|key w|key|key [[t enc] ptr]|key|key value].
  - eapply agrees_hot; [by intros [_ H]; exact H|].
    pose proof (lookupRead_agrees c draw nt i key s a d seen (fun x => x) Hw Hks Hs eq_refl) as H.
    simpl in H |- *. assert (a_lookupRead c key d = '(x, d') ← a_lookupRead c key d; Some (x, d')) as E.
    { destruct (a_lookupRead c key d) as [[]|]; reflexivity. }
    rewrite E. apply H. intros r x _ Hr. by apply Hr, Hn.
  - eapply agrees_hot; [by intros [_ H]; exact H|]. 
    apply (lookupWrite_agrees c draw nt i key s a d seen (fun x => x) Hw Hks Hs).
    intros r x _ Hr. by apply Hr, Hn.
  - eapply agrees_hot; [by intros [_ H]; exact H|].
    apply (lookupRead_agrees c draw nt i key s a d
      (fun v => match v with None => false | Some _ => true end)
      (fun v => match v with None => false | Some _ => true end) Hw Hks Hs eq_refl).
    intros [r|] [x|] Hr _; naive_solver.
  - eapply agrees_hot; [by intros [_ H]; exact H|]. cbn [exec aexec].
    pose proof (lookupWrite_agrees c draw false i key s a d
      (fun v => match v with None => false | Some _ => true end)
      (fun v => bool_decide (v ≠ None)) Hw Hks Hs) as H. apply H.
    intros [r|] [x|] Hr _; naive_solver.
  - eapply agrees_hot; [by intros [_ H]; exact H|]. by apply expire_agrees.
  - by apply add_agrees.
  - by apply overwrite_agrees.
  - eapply agrees_hot; [by intros [_ H]; exact H|]. by apply setKey_agrees.
  - cbn [exec aexec]. destruct (dbDelete c i key s) as [b s'] eqn:Hd.
    apply dbDelete_spec in Hd as (Hb & Hwr & He & Hh). by apply delete_agrees.
  - cbn [exec aexec]. destruct (dbSyncDelete i key s) as [b s'] eqn:Hd.
    apply dbSyncDelete_spec in Hd as (Hb & Hwr & He & Hh). by apply delete_agrees.
  - cbn [exec aexec]. destruct (dbAsyncDelete i key s) as [b s'] eqn:Hd.
    apply dbAsyncDelete_spec in Hd as (Hb & Hwr & He & Hh). apply delete_agrees; try done. by intros [[] _].
  - simpl. pose proof (getExpire_agrees s a i d key Hks Hs) as Hg.
    destruct (getExpire i key s) as [w|m]; simpl; rewrite Hg; [|done].
    exists d. by auto using moves_refl.
  - simpl. unfold setExpire. rewrite <- (sim_has s a i d key Hks Hs).
    destruct (a_has key d); simpl; [|done]. by apply (exp_upd_agrees s a i d (<[key := w]>) tt).
  - simpl. unfold removeExpire. rewrite <- (sim_has s a i d key Hks Hs).
    destruct (a_has key d); simpl; [|done].
    rewrite (sim_expires _ _ _ (sim_self _ _ _ _ Hs)).
    by apply (exp_upd_agrees s a i d (delete key)).
  - apply mutate_agrees; try done. by apply Hn.
  - apply unshare_agrees; try done. by apply Hn.
  - apply storeInteger_agrees; try done. by apply Hn.
Qed.

Lemma logical_found s i key : ks_ok s → found_ok (logical s i key).
Proof.
  intros Hks. unfold logical. destruct (dict_at s i key) as [[|o]|] eqn:Hd; [| |done].
  - destruct (ks_rock s Hks i key Hd) as (_ & o & b & -> & Hdump). simpl.
    rewrite (decode_dump o b Hdump). destruct Hdump as [[_ Hwf] _]. by right.
  - by destruct (ks_val s Hks i key o Hd).
Qed.

Lemma aexec_result {A : Type} c (k : kcall A) d b d' s a i :
  aexec c k d = Some (b, d') → sim s a i d' → ks_ok s → result_ok k b.
Proof.
  intros He Hs Hks.
  assert (∀ key, found_ok (a_dict d' !! key)) as Hf.
  { intros key. rewrite <- (sim_dict _ _ _ (sim_self _ _ _ _ Hs)). by apply logical_found. }
  destruct k; try done; simpl in He |- *.
  - unfold a_lookupRead in He. destruct (a_expireIfNeeded c key d) as [[e d1]|]; simpl in He; [|done].
    injection He as <- <-. by destruct (e && _).
  - destruct (a_expireIfNeeded c key d) as [[e d1]|]; simpl in He; [|done]. by injection He as <- <-.
Qed.

(** Running a program whose keys are in memory. *)
Lemma run_agrees {A : Type} c draws i K (p : prog A) s a d :
  wf_env (cfg_env c) → ks_ok s → sim s a i d → (i < length (dbs s))%nat →
  prog_ok K p → (∀ key, key ∈ K → dict_at s i key ≠ Some InRock) →
  agrees s a i (prog_sync p ∧ lazyfree_lazy_expire c = false) (run c draws i p s) (arun c p d).
Proof.
  intros Hw. revert draws s d. induction p as [x|msg|B k f IH]; intros draws s d Hks Hs Hi Hok HK; simpl.
  - exists d. by auto using moves_refl.
  - done.
  - destruct Hok as (Hk & Hn & Hf).
    pose proof (exec_agrees c (draws 0%nat) i k s a d Hw Hks Hs Hi Hk
      (fun key Hkey => HK key (Hn key Hkey))) as He.
    destruct (exec c (draws 0%nat) i k s) as [[b s1]|m]; simpl in He |- *; [|by rewrite He].
    destruct He as (d1 & He & Hs1 & Hks1 & Hm1 & Hh1).
    pose proof (aexec_result _ _ _ _ _ _ _ _ He Hs1 Hks1) as Hres. rewrite He. simpl.
    assert (∀ key, key ∈ K → dict_at s1 i key ≠ Some InRock) as HK1.
    { intros key Hin H. apply (HK key Hin). by apply Hm1. }
    specialize (IH b (fun n => draws (S n)) s1 d1 Hks1 Hs1 (moves_valid _ _ _ Hm1 Hi) (Hf b Hres) HK1).
    destruct (run c _ i (f b) s1) as [[x s2]|m]; simpl in *; [|done].
    destruct IH as (d2 & ? & ? & ? & ? & Hh2). exists d2. split_and!; eauto using moves_trans.
    intros [[? Hsy] ?] ?. apply Hh2; [by split; [apply Hsy|]|]. by apply Hh1.
Qed.
End sim.
