(* ===== verification/Cmds.v ===== *)
(** * Which keys a command needs in memory (src/src/rock_cmds.c, src/src/server.c)

    The command table with the columns that concern keys, and the functions that
    list, for a command about to run, the keys whose value is in RocksDB.  The
    table declares the key positions of most commands; [check_covers] compares
    the two. *)

From S2P Require Import Prelude Util.
From stdpp Require Import list strings.
#[local] Open Scope Z_scope.

(** ** The command table *)

Inductive check_proc :=
| ForOneKey | ExcludeLastArg | ForAllKeys | ExcludeFirstArg | ForZstore | ForMigrate.
#[global] Instance check_proc_eq_dec : EqDecision check_proc.
Proof. solve_decision. Defined.

(** [struct redisCommand]: [getkeys] says whether a function of its own finds
    the keys. *)
Record redisCommand := Cmd {
  cmd_name : string;
  arity : Z;
  denyoom : bool;                    (* CMD_DENYOOM *)
  getkeys : bool;
  firstkey : Z;
  lastkey : Z;
  keystep : Z;
  checkRockProc : option check_proc
}.

Definition command_table_1 : list redisCommand := [
  Cmd "module" (-2) false false 0 0 0 None;
  Cmd "get" 2 false false 1 1 1 (Some ForOneKey);
  Cmd "set" (-3) true false 1 1 1 None;
  Cmd "setnx" 3 true false 1 1 1 None;
  Cmd "setex" 4 true false 1 1 1 None;
  Cmd "psetex" 4 true false 1 1 1 None;
  Cmd "append" 3 true false 1 1 1 (Some ForOneKey);
  Cmd "strlen" 2 false false 1 1 1 (Some ForOneKey);
  Cmd "del" (-2) false false 1 (-1) 1 None;
  Cmd "unlink" (-2) false false 1 (-1) 1 None;
  Cmd "exists" (-2) false false 1 (-1) 1 None;
  Cmd "setbit" 4 true false 1 1 1 (Some ForOneKey);
  Cmd "getbit" 3 false false 1 1 1 (Some ForOneKey);
  Cmd "bitfield" (-2) true false 1 1 1 (Some ForOneKey);
  Cmd "setrange" 4 true false 1 1 1 (Some ForOneKey);
  Cmd "getrange" 4 false false 1 1 1 (Some ForOneKey);
  Cmd "substr" 4 false false 1 1 1 (Some ForOneKey);
  Cmd "incr" 2 true false 1 1 1 (Some ForOneKey);
  Cmd "decr" 2 true false 1 1 1 (Some ForOneKey);
  Cmd "mget" (-2) false false 1 (-1) 1 (Some ForAllKeys);
  Cmd "rpush" (-3) true false 1 1 1 (Some ForOneKey);
  Cmd "lpush" (-3) true false 1 1 1 (Some ForOneKey);
  Cmd "rpushx" (-3) true false 1 1 1 (Some ForOneKey);
  Cmd "lpushx" (-3) true false 1 1 1 (Some ForOneKey);
  Cmd "linsert" 5 true false 1 1 1 (Some ForOneKey);
  Cmd "rpop" 2 false false 1 1 1 (Some ForOneKey);
  Cmd "lpop" 2 false false 1 1 1 (Some ForOneKey);
  Cmd "brpop" (-3) false false 1 (-2) 1 (Some ExcludeLastArg);
  Cmd "brpoplpush" 4 true false 1 2 1 (Some ExcludeLastArg);
  Cmd "blpop" (-3) false false 1 (-2) 1 (Some ExcludeLastArg);
  Cmd "llen" 2 false false 1 1 1 (Some ForOneKey);
  Cmd "lindex" 3 false false 1 1 1 (Some ExcludeLastArg);
  Cmd "lset" 4 true false 1 1 1 (Some ForOneKey);
  Cmd "lrange" 4 false false 1 1 1 (Some ForOneKey);
  Cmd "ltrim" 4 false false 1 1 1 (Some ForOneKey);
  Cmd "lrem" 4 false false 1 1 1 (Some ForOneKey)
].

Definition command_table_2 : list redisCommand := [
  Cmd "rpoplpush" 3 true false 1 2 1 (Some ForAllKeys);
  Cmd "sadd" (-3) true false 1 1 1 (Some ForOneKey);
  Cmd "srem" (-3) false false 1 1 1 (Some ForOneKey);
  Cmd "smove" 4 false false 1 2 1 (Some ExcludeLastArg);
  Cmd "sismember" 3 false false 1 1 1 (Some ForOneKey);
  Cmd "scard" 2 false false 1 1 1 (Some ForOneKey);
  Cmd "spop" (-2) false false 1 1 1 (Some ForOneKey);
  Cmd "srandmember" (-2) false false 1 1 1 (Some ForOneKey);
  Cmd "sinter" (-2) false false 1 (-1) 1 (Some ForAllKeys);
  Cmd "sinterstore" (-3) true false 1 (-1) 1 (Some ExcludeFirstArg);
  Cmd "sunion" (-2) false false 1 (-1) 1 (Some ForAllKeys);
  Cmd "sunionstore" (-3) true false 1 (-1) 1 (Some ExcludeFirstArg);
  Cmd "sdiff" (-2) false false 1 (-1) 1 (Some ForAllKeys);
  Cmd "sdiffstore" (-3) true false 1 (-1) 1 (Some ExcludeFirstArg);
  Cmd "smembers" 2 false false 1 1 1 (Some ForOneKey);
  Cmd "sscan" (-3) false false 1 1 1 (Some ForOneKey);
  Cmd "zadd" (-4) true false 1 1 1 (Some ForOneKey);
  Cmd "zincrby" 4 true false 1 1 1 (Some ForOneKey);
  Cmd "zrem" (-3) false false 1 1 1 (Some ForOneKey);
  Cmd "zremrangebyscore" 4 false false 1 1 1 (Some ForOneKey);
  Cmd "zremrangebyrank" 4 false false 1 1 1 (Some ForOneKey);
  Cmd "zremrangebylex" 4 false false 1 1 1 (Some ForOneKey);
  Cmd "zunionstore" (-4) true true 0 0 0 (Some ForZstore);
  Cmd "zinterstore" (-4) true true 0 0 0 (Some ForZstore);
  Cmd "zrange" (-4) false false 1 1 1 (Some ForOneKey);
  Cmd "zrangebyscore" (-4) false false 1 1 1 (Some ForOneKey);
  Cmd "zrevrangebyscore" (-4) false false 1 1 1 (Some ForOneKey);
  Cmd "zrangebylex" (-4) false false 1 1 1 (Some ForOneKey);
  Cmd "zrevrangebylex" (-4) false false 1 1 1 (Some ForOneKey);
  Cmd "zcount" 4 false false 1 1 1 (Some ForOneKey);
  Cmd "zlexcount" 4 false false 1 1 1 (Some ForOneKey);
  Cmd "zrevrange" (-4) false false 1 1 1 (Some ForOneKey);
  Cmd "zcard" 2 false false 1 1 1 (Some ForOneKey);
  Cmd "zscore" 3 false false 1 1 1 (Some ForOneKey);
  Cmd "zrank" 3 false false 1 1 1 (Some ForOneKey);
  Cmd "zrevrank" 3 false false 1 1 1 (Some ForOneKey)
].

Definition command_table_3 : list redisCommand := [
  Cmd "zscan" (-3) false false 1 1 1 (Some ForOneKey);
  Cmd "zpopmin" (-2) false false 1 1 1 (Some ForOneKey);
  Cmd "zpopmax" (-2) false false 1 1 1 (Some ForOneKey);
  Cmd "bzpopmin" (-3) false false 1 (-2) 1 (Some ExcludeLastArg);
  Cmd "bzpopmax" (-3) false false 1 (-2) 1 (Some ExcludeLastArg);
  Cmd "hset" (-4) true false 1 1 1 (Some ForOneKey);
  Cmd "hsetnx" 4 true false 1 1 1 (Some ForOneKey);
  Cmd "hget" 3 false false 1 1 1 (Some ForOneKey);
  Cmd "hmset" (-4) true false 1 1 1 (Some ForOneKey);
  Cmd "hmget" (-3) false false 1 1 1 (Some ForOneKey);
  Cmd "hincrby" 4 true false 1 1 1 (Some ForOneKey);
  Cmd "hincrbyfloat" 4 true false 1 1 1 (Some ForOneKey);
  Cmd "hdel" (-3) false false 1 1 1 (Some ForOneKey);
  Cmd "hlen" 2 false false 1 1 1 (Some ForOneKey);
  Cmd "hstrlen" 3 false false 1 1 1 (Some ForOneKey);
  Cmd "hkeys" 2 false false 1 1 1 (Some ForOneKey);
  Cmd "hvals" 2 false false 1 1 1 (Some ForOneKey);
  Cmd "hgetall" 2 false false 1 1 1 (Some ForOneKey);
  Cmd "hexists" 3 false false 1 1 1 (Some ForOneKey);
  Cmd "hscan" (-3) false false 1 1 1 (Some ForOneKey);
  Cmd "incrby" 3 true false 1 1 1 (Some ForOneKey);
  Cmd "decrby" 3 true false 1 1 1 (Some ForOneKey);
  Cmd "incrbyfloat" 3 true false 1 1 1 (Some ForOneKey);
  Cmd "getset" 3 true false 1 1 1 (Some ForOneKey);
  Cmd "mset" (-3) true false 1 (-1) 2 None;
  Cmd "msetnx" (-3) true false 1 (-1) 2 None;
  Cmd "randomkey" 1 false false 0 0 0 None;
  Cmd "select" 2 false false 0 0 0 None;
  Cmd "swapdb" 3 false false 0 0 0 None;
  Cmd "move" 3 false false 1 1 1 (Some ForOneKey);
  Cmd "rename" 3 false false 1 2 1 (Some ForOneKey);
  Cmd "renamenx" 3 false false 1 2 1 (Some ForOneKey);
  Cmd "expire" 3 false false 1 1 1 None;
  Cmd "expireat" 3 false false 1 1 1 None;
  Cmd "pexpire" 3 false false 1 1 1 None;
  Cmd "pexpireat" 3 false false 1 1 1 None
].

Definition command_table_4 : list redisCommand := [
  Cmd "keys" 2 false false 0 0 0 None;
  Cmd "scan" (-2) false false 0 0 0 None;
  Cmd "dbsize" 1 false false 0 0 0 None;
  Cmd "auth" (-2) false false 0 0 0 None;
  Cmd "ping" (-1) false false 0 0 0 None;
  Cmd "echo" 2 false false 0 0 0 None;
  Cmd "save" 1 false false 0 0 0 None;
  Cmd "bgsave" (-1) false false 0 0 0 None;
  Cmd "bgrewriteaof" 1 false false 0 0 0 None;
  Cmd "shutdown" (-1) false false 0 0 0 None;
  Cmd "lastsave" 1 false false 0 0 0 None;
  Cmd "type" 2 false false 1 1 1 (Some ForOneKey);
  Cmd "multi" 1 false false 0 0 0 None;
  Cmd "exec" 1 false false 0 0 0 None;
  Cmd "discard" 1 false false 0 0 0 None;
  Cmd "sync" 1 false false 0 0 0 None;
  Cmd "psync" 3 false false 0 0 0 None;
  Cmd "replconf" (-1) false false 0 0 0 None;
  Cmd "flushdb" (-1) false false 0 0 0 None;
  Cmd "flushall" (-1) false false 0 0 0 None;
  Cmd "sort" (-2) true true 1 1 1 (Some ForOneKey);
  Cmd "info" (-1) false false 0 0 0 None;
  Cmd "monitor" 1 false false 0 0 0 None;
  Cmd "ttl" 2 false false 1 1 1 None;
  Cmd "touch" (-2) false false 1 (-1) 1 (Some ForAllKeys);
  Cmd "pttl" 2 false false 1 1 1 None;
  Cmd "persist" 2 false false 1 1 1 None;
  Cmd "slaveof" 3 false false 0 0 0 None;
  Cmd "replicaof" 3 false false 0 0 0 None;
  Cmd "role" 1 false false 0 0 0 None;
  Cmd "debug" (-2) false false 0 0 0 (Some ExcludeFirstArg);
  Cmd "config" (-2) false false 0 0 0 None;
  Cmd "subscribe" (-2) false false 0 0 0 None;
  Cmd "unsubscribe" (-1) false false 0 0 0 None;
  Cmd "psubscribe" (-2) false false 0 0 0 None;
  Cmd "punsubscribe" (-1) false false 0 0 0 None
].

Definition command_table_5 : list redisCommand := [
  Cmd "publish" 3 false false 0 0 0 None;
  Cmd "pubsub" (-2) false false 0 0 0 None;
  Cmd "watch" (-2) false false 1 (-1) 1 None;
  Cmd "unwatch" 1 false false 0 0 0 None;
  Cmd "cluster" (-2) false false 0 0 0 None;
  Cmd "restore" (-4) true false 1 1 1 None;
  Cmd "restore-asking" (-4) true false 1 1 1 None;
  Cmd "migrate" (-6) false true 0 0 0 (Some ForMigrate);
  Cmd "asking" 1 false false 0 0 0 None;
  Cmd "readonly" 1 false false 0 0 0 None;
  Cmd "readwrite" 1 false false 0 0 0 None;
  Cmd "dump" 2 false false 1 1 1 (Some ForOneKey);
  Cmd "object" (-2) false false 2 2 1 (Some ExcludeFirstArg);
  Cmd "memory" (-2) false false 0 0 0 None;
  Cmd "client" (-2) false false 0 0 0 None;
  Cmd "hello" (-2) false false 0 0 0 None;
  Cmd "eval" (-3) false true 0 0 0 None;
  Cmd "evalsha" (-3) false true 0 0 0 None;
  Cmd "slowlog" (-2) false false 0 0 0 None;
  Cmd "script" (-2) false false 0 0 0 None;
  Cmd "time" 1 false false 0 0 0 None;
  Cmd "bitop" (-4) true false 2 (-1) 1 (Some ExcludeFirstArg);
  Cmd "bitcount" (-2) false false 1 1 1 (Some ForOneKey);
  Cmd "bitpos" (-3) false false 1 1 1 (Some ForOneKey);
  Cmd "wait" 3 false false 0 0 0 None;
  Cmd "command" (-1) false false 0 0 0 None;
  Cmd "geoadd" (-5) true false 1 1 1 (Some ForOneKey);
  Cmd "georadius" (-6) false true 1 1 1 (Some ForOneKey);
  Cmd "georadius_ro" (-6) false true 1 1 1 (Some ForOneKey);
  Cmd "georadiusbymember" (-5) false true 1 1 1 (Some ForOneKey);
  Cmd "georadiusbymember_ro" (-5) false true 1 1 1 (Some ForOneKey);
  Cmd "geohash" (-2) false false 1 1 1 (Some ForOneKey);
  Cmd "geopos" (-2) false false 1 1 1 (Some ForOneKey);
  Cmd "geodist" (-4) false false 1 1 1 (Some ForOneKey);
  Cmd "pfselftest" 1 false false 0 0 0 None;
  Cmd "pfadd" (-2) true false 1 1 1 (Some ForOneKey)
].

Definition command_table_6 : list redisCommand := [
  Cmd "pfcount" (-2) false false 1 (-1) 1 (Some ForAllKeys);
  Cmd "pfmerge" (-2) true false 1 (-1) 1 (Some ForAllKeys);
  Cmd "pfdebug" (-3) false false 0 0 0 None;
  Cmd "xadd" (-5) true false 1 1 1 None;
  Cmd "xrange" (-4) false false 1 1 1 None;
  Cmd "xrevrange" (-4) false false 1 1 1 None;
  Cmd "xlen" 2 false false 1 1 1 None;
  Cmd "xread" (-4) false true 1 1 1 None;
  Cmd "xreadgroup" (-7) false true 1 1 1 None;
  Cmd "xgroup" (-2) true false 2 2 1 None;
  Cmd "xsetid" 3 true false 1 1 1 None;
  Cmd "xack" (-4) false false 1 1 1 None;
  Cmd "xpending" (-3) false false 1 1 1 None;
  Cmd "xclaim" (-6) false false 1 1 1 None;
  Cmd "xinfo" (-2) false false 2 2 1 None;
  Cmd "xdel" (-3) false false 1 1 1 None;
  Cmd "xtrim" (-2) false false 1 1 1 None;
  Cmd "post" (-1) false false 0 0 0 None;
  Cmd "host:" (-1) false false 0 0 0 None;
  Cmd "latency" (-2) false false 0 0 0 None;
  Cmd "lolwut" (-1) false false 0 0 0 None;
  Cmd "acl" (-2) false false 0 0 0 None;
  Cmd "rock" (-2) false false 0 0 0 None
].

Definition redisCommandTable : list redisCommand :=
  command_table_1 ++ command_table_2 ++ command_table_3 ++ command_table_4 ++ command_table_5 ++ command_table_6.

(** The arity test of [processCommand]. *)
Definition arity_ok (cmd : redisCommand) (argc : Z) : bool :=
  negb (((0 <? arity cmd) && negb (arity cmd =? argc)) || (argc <? - arity cmd)).

(** [getKeysUsingCommandTable]: positions, or [None] for its panic. *)
Fixpoint key_positions (fuel : nat) (j last step argc : Z) : option (list Z) :=
  match fuel with
  | O => Some []
  | S fuel' =>
      if last <? j then Some []
      else if argc <=? j then None
      else ks ← key_positions fuel' (j + step) last step argc; Some (j :: ks)
  end.
Definition getKeysUsingCommandTable (cmd : redisCommand) (argc : Z) : option (list Z) :=
  if firstkey cmd =? 0 then Some []
  else
    let last := if lastkey cmd <? 0 then argc + lastkey cmd else lastkey cmd in
    match key_positions (Z.to_nat (last + 1)) (firstkey cmd) last (keystep cmd) argc with
    | Some ks => Some ks
    | None => if arity cmd <? 0 then Some [] else None
    end.

(** ** The check functions

    [in_rock key] says whether [lookupKeyNoSideEffect] finds [shared.valueInRock].
    The result is the list of such keys and the number of error replies the
    function has sent on the way.  An argument the code reads past the end of
    its vector is an [Abort]. *)

Section checks.
Variable in_rock : bytes → bool.
Implicit Types argv c_argv : list bytes.

Definition rock_keys (keys : list bytes) : list bytes := filter (fun k => in_rock k = true) keys.

Definition cmdCheckRockForOneKey argv : res (list bytes * nat) :=
  key ← res_of_option (argv !! 1%nat) "argv[1]";
  mret (rock_keys [key], 0%nat).

Definition cmdCheckRockExcludeLastArg argv : res (list bytes * nat) :=
  serverAssert (2 <? length argv)%nat "argc > 2" ;;
  mret (rock_keys (take (length argv - 2) (drop 1 argv)), 0%nat).

Definition cmdCheckRockForAllKeys argv : res (list bytes * nat) :=
  serverAssert (2 <=? length argv)%nat "argc >= 2" ;;
  mret (rock_keys (drop 1 argv), 0%nat).

Definition cmdCheckRockExcludeFirstArg argv : res (list bytes * nat) :=
  serverAssert (2 <=? length argv)%nat "argc >= 2" ;;
  mret (rock_keys (drop 2 argv), 0%nat).

(** The number of source sets is read from the client's own argument vector
    [c_argv], the keys from the [argv] that is passed in. *)
Definition cmdCheckRockForZstore c_argv argv : res (list bytes * nat) :=
  a2 ← res_of_option (c_argv !! 2%nat) "c->argv[2]";
  match string2ll a2 with
  | None => Ok ([], 1%nat)
  | Some setnum =>
      if setnum <? 1 then Ok ([], 0%nat)
      else if Z.of_nat (length argv) - 3 <? setnum then Ok ([], 0%nat)
      else Ok (rock_keys (take (Z.to_nat setnum) (drop 3 argv)), 0%nat)
  end.

(** [strcasecmp]: C strings end at the first zero byte. *)
Fixpoint c_string (s : bytes) : bytes :=
  match s with
  | [] => []
  | b :: s' => if bool_decide (b = x00) then [] else b :: c_string s'
  end.
Definition tolower (b : byte) : byte :=
  let z := Z_of_byte b in if (65 <=? z) && (z <=? 90) then byte_of_Z (z + 32) else b.
Definition strcaseeq (s : bytes) (lit : string) : bool :=
  bool_decide (tolower <$> c_string s = String.list_byte_of_string lit).

(** The option loop: the index of the first key and the number of keys, [None]
    for the early returns. *)
Fixpoint migrate_options (fuel : nat) (j : nat) c_argv : option (nat * nat) :=
  match fuel with
  | O => Some (3%nat, 1%nat)
  | S fuel' =>
      match c_argv !! j with
      | None => Some (3%nat, 1%nat)
      | Some opt =>
          if strcaseeq opt "copy" then migrate_options fuel' (S j) c_argv
          else if strcaseeq opt "replace" then migrate_options fuel' (S j) c_argv
          else if strcaseeq opt "auth" then
            if (j <? length c_argv - 1)%nat then migrate_options fuel' (S (S j)) c_argv else None
          else if strcaseeq opt "keys" then
            if bool_decide (c_argv !! 3%nat = Some []) then Some (S j, length c_argv - j - 1)%nat
            else None
          else None
      end
  end.

Definition cmdCheckRockForMigrate c_argv argv : res (list bytes * nat) :=
  match migrate_options (length c_argv) 6 c_argv with
  | None => Ok ([], 0%nat)
  | Some (first_key, num_keys) =>
      a5 ← res_of_option (c_argv !! 5%nat) "c->argv[5]";
      match string2ll a5 with
      | None => Ok ([], 1%nat)
      | Some _ =>
          a4 ← res_of_option (c_argv !! 4%nat) "c->argv[4]";
          match string2ll a4 with
          | None => Ok ([], 1%nat)
          | Some _ =>
              keys ← res_of_option (mapM (fun j => argv !! j) (seq first_key num_keys)) "argv[]";
              mret (rock_keys keys, 0%nat)
          end
      end
  end.

Definition run_check (p : check_proc) c_argv argv : res (list bytes * nat) :=
  match p with
  | ForOneKey => cmdCheckRockForOneKey argv
  | ExcludeLastArg => cmdCheckRockExcludeLastArg argv
  | ForAllKeys => cmdCheckRockForAllKeys argv
  | ExcludeFirstArg => cmdCheckRockExcludeFirstArg argv
  | ForZstore => cmdCheckRockForZstore c_argv argv
  | ForMigrate => cmdCheckRockForMigrate c_argv argv
  end.

(** [c->cmd->checkRockProc] on the command a client is about to run. *)
Definition checkRockForSingleCmd (cmd : redisCommand) c_argv : res (list bytes * nat) :=
  match checkRockProc cmd with
  | None => Ok ([], 0%nat)
  | Some p => run_check p c_argv c_argv
  end.

(** At EXEC: every queued command, the client's own vector being that of EXEC. *)
Fixpoint checkRockForMultiCmd c_argv (queue : list (redisCommand * list bytes))
  : res (list bytes * nat) :=
  match queue with
  | [] => Ok ([], 0%nat)
  | (cmd, argv) :: q =>
      '(l, n) ← match checkRockProc cmd with
                | None => Ok ([], 0%nat)
                | Some p => run_check p c_argv argv
                end;
      '(l', n') ← checkRockForMultiCmd c_argv q;
      mret (l ++ l', (n + n')%nat)
  end.
End checks.

(** ** Coverage *)

(** Declared key arguments that the command only overwrites or deletes: the
    destination of the set operations and of RENAME. *)
Definition dest_only (cmd : redisCommand) : list Z :=
  if existsb (String.eqb (cmd_name cmd)) ["sinterstore"; "sunionstore"; "sdiffstore"]%string then [1]
  else if existsb (String.eqb (cmd_name cmd)) ["rename"; "renamenx"]%string then [2]
  else [].

(** The commands that declare keys and do not use their values: they overwrite, delete or restore
    the value, or are about the key itself or its time to live; the commands on streams, which
    are never dumped, find every other value to be of the wrong type. *)
Definition without_value : list string :=
  ["set"; "setnx"; "setex"; "psetex"; "mset"; "msetnx"; "del"; "unlink"; "exists"; "expire"; "expireat"; "pexpire";
   "pexpireat"; "ttl"; "pttl"; "persist"; "watch"; "restore"; "restore-asking"; "xadd"; "xrange"; "xrevrange"; "xlen";
   "xgroup"; "xsetid"; "xack"; "xpending"; "xclaim"; "xinfo"; "xdel"; "xtrim"]%string.
Definition uses_value (cmd : redisCommand) : bool := negb (existsb (String.eqb (cmd_name cmd)) without_value).

(** The arguments a check looks at. *)
Definition looks_at (p : check_proc) (argc j : Z) : Prop :=
  match p with
  | ForOneKey => j = 1
  | ExcludeLastArg => 1 ≤ j < argc - 1
  | ForAllKeys => 1 ≤ j < argc
  | ExcludeFirstArg => 2 ≤ j < argc
  | ForZstore | ForMigrate => False
  end.

(** A test of a table entry that does not depend on the arguments. *)
Definition entry_covered (cmd : redisCommand) : bool :=
  let dest k := bool_decide (k ∈ dest_only cmd) in
  getkeys cmd ||
  match checkRockProc cmd with
  | None => (firstkey cmd =? 0) || negb (uses_value cmd)
  | Some p =>
      (0 <=? firstkey cmd) && (2 <=? Z.abs (arity cmd)) &&
      ((firstkey cmd =? 0) || (0 <? keystep cmd)) &&
      match p with
      | ForOneKey =>
          (firstkey cmd =? 0) ||
          (firstkey cmd =? 1) && ((lastkey cmd =? 1) || (lastkey cmd =? 2) && dest 2)
      | ForAllKeys => true
      | ExcludeLastArg =>
          (3 <=? Z.abs (arity cmd)) &&
          ((firstkey cmd =? 0) || (lastkey cmd <=? -2) ||
           (0 <=? lastkey cmd) && (lastkey cmd <=? Z.abs (arity cmd) - 2))
      | ExcludeFirstArg =>
          (firstkey cmd =? 0) || (2 <=? firstkey cmd) || (firstkey cmd =? 1) && dest 1
      | ForZstore | ForMigrate => false
      end
  end.

Lemma table_covered : forallb entry_covered redisCommandTable = true.
Proof. vm_compute. reflexivity. Qed.

Lemma key_positions_range fuel j last step argc ks k :
  0 < step → key_positions fuel j last step argc = Some ks → k ∈ ks → j ≤ k ≤ last ∧ k < argc.
Proof.
  intros Hstep. revert j ks. induction fuel as [|fuel IH]; intros j ks H Hk; simpl in H.
  - injection H as <-. set_solver.
  - destruct (Z.ltb_spec last j); [injection H as <-; set_solver|].
    destruct (Z.leb_spec argc j); [done|].
    destruct (key_positions fuel (j + step) last step argc) as [ks'|] eqn:Hks; simplify_eq/=.
    apply elem_of_cons in Hk as [->|Hk]; [lia|]. specialize (IH _ _ Hks Hk). lia.
Qed.

Lemma getKeys_range cmd argc ks k :
  firstkey cmd = 0 ∨ 0 < keystep cmd →
  getKeysUsingCommandTable cmd argc = Some ks → k ∈ ks →
  firstkey cmd ≠ 0 ∧ firstkey cmd ≤ k < argc ∧
  k ≤ (if lastkey cmd <? 0 then argc + lastkey cmd else lastkey cmd).
Proof.
  unfold getKeysUsingCommandTable. intros Hst H Hk.
  destruct (Z.eqb_spec (firstkey cmd) 0); [injection H as <-; set_solver|].
  destruct (key_positions _ _ _ _ _) as [ks'|] eqn:Hks.
  - injection H as <-. apply (key_positions_range _ _ _ _ _ _ k) in Hks; [|lia|done]. lia.
  - destruct (arity cmd <? 0); [|done]. injection H as <-. set_solver.
Qed.

Lemma arity_min cmd argc : arity_ok cmd argc = true → 0 ≤ argc → Z.abs (arity cmd) ≤ argc ∧ (0 < arity cmd → argc = arity cmd).
Proof.
  unfold arity_ok. rewrite negb_true_iff, orb_false_iff, andb_false_iff, negb_false_iff.
  rewrite Z.ltb_ge, Z.ltb_ge, Z.eqb_eq. lia.
Qed.

Lemma entry_covered_spec cmd p argc ks j :
  entry_covered cmd = true → checkRockProc cmd = Some p → getkeys cmd = false →
  0 ≤ argc → arity_ok cmd argc = true → getKeysUsingCommandTable cmd argc = Some ks →
  j ∈ ks → j ∉ dest_only cmd → looks_at p argc j.
Proof.
  unfold entry_covered. intros Hc Hp Hg H0 Har Hks Hj Hd. rewrite Hg, Hp in Hc. simpl in Hc.
  apply arity_min in Har as [Hmin Hpos]; [|done].
  rewrite !andb_true_iff, orb_true_iff, !Z.leb_le, Z.eqb_eq, Z.ltb_lt in Hc.
  destruct Hc as [[[Hf Ha] Hst] Hc].
  destruct (getKeys_range cmd argc ks j) as (Hf0 & Hr & Hl); [done..|].
  assert (∀ k, bool_decide (k ∈ dest_only cmd) = true → j ≠ k) as Hne.
  { intros k Hk%bool_decide_eq_true ->. done. }
  destruct p; simpl; try done;
    repeat (rewrite ?orb_true_iff, ?andb_true_iff, ?Z.leb_le, ?Z.eqb_eq in Hc).
  - destruct Hc as [?|[H1 [H2|[H2 H3]]]]; [lia| |].
    + rewrite H2 in Hl. simpl in Hl. lia.
    + rewrite H2 in Hl. simpl in Hl. pose proof (Hne 2 H3). lia.
  - destruct Hc as [H3 [[?|H4]|[H4 H5]]]; [lia| |].
    + rewrite (proj2 (Z.ltb_lt _ _)) in Hl by lia. lia.
    + rewrite (proj2 (Z.ltb_ge _ _)) in Hl by lia. lia.
  - lia.
  - destruct Hc as [[?|?]|[H1 H2]]; [lia|lia|]. pose proof (Hne 1 H2). lia.
Qed.

Lemma elem_of_rock_keys in_rock l key : key ∈ l → in_rock key = true → key ∈ rock_keys in_rock l.
Proof. intros ? ?. by apply list_elem_of_filter. Qed.

Lemma run_check_looks_at in_rock p argv :
  2 ≤ Z.of_nat (length argv) → (p = ExcludeLastArg → 3 ≤ Z.of_nat (length argv)) →
  p ≠ ForZstore → p ≠ ForMigrate →
  ∃ l, run_check in_rock p argv argv = Ok (l, 0%nat) ∧
    ∀ j key, looks_at p (Z.of_nat (length argv)) j → argv !! Z.to_nat j = Some key →
      in_rock key = true → key ∈ l.
Proof.
  intros H2 H3 Hz Hm. destruct p; try done; simpl.
  - unfold cmdCheckRockForOneKey. destruct (lookup_lt_is_Some_2 argv 1) as [k Hk]; [lia|].
    rewrite Hk. eexists. split; [done|]. intros j key -> Hkey Hin.
    change (Z.to_nat 1) with 1%nat in Hkey. rewrite Hk in Hkey. injection Hkey as ->.
    apply elem_of_rock_keys; [set_solver|done].
  - unfold cmdCheckRockExcludeLastArg. specialize (H3 eq_refl).
    rewrite (proj2 (Nat.ltb_lt _ _)) by lia. eexists. split; [done|]. intros j key Hj Hkey Hin.
    apply elem_of_rock_keys; [|done]. apply list_elem_of_lookup. exists (Z.to_nat j - 1)%nat.
    rewrite lookup_take_Some, lookup_drop. split; [|lia]. by replace (1 + (Z.to_nat j - 1))%nat with (Z.to_nat j) by lia.
  - unfold cmdCheckRockForAllKeys. rewrite (proj2 (Nat.leb_le _ _)) by lia. eexists. split; [done|].
    intros j key Hj Hkey Hin. apply elem_of_rock_keys; [|done]. apply list_elem_of_lookup.
    exists (Z.to_nat j - 1)%nat. rewrite lookup_drop. by replace (1 + (Z.to_nat j - 1))%nat with (Z.to_nat j) by lia.
  - unfold cmdCheckRockExcludeFirstArg. rewrite (proj2 (Nat.leb_le _ _)) by lia. eexists. split; [done|].
    intros j key Hj Hkey Hin. apply elem_of_rock_keys; [|done]. apply list_elem_of_lookup.
    exists (Z.to_nat j - 2)%nat. rewrite lookup_drop. by replace (2 + (Z.to_nat j - 2))%nat with (Z.to_nat j) by lia.
Qed.

(** ** Properties *)

(** C10: no command that uses a value runs before the value is in memory.
    For every command of the table that declares its keys by position and is not one of the
    listed commands that do not use the values, and every argument vector of the right length, the check
    runs without a failed assertion or a stray access and without sending a
    reply, and lists every declared key whose value is in RocksDB, except the
    destination keys the command only overwrites.  A command without a check function has no keys
    to list. *)
Theorem check_covers in_rock cmd argv ks :
  cmd ∈ redisCommandTable → uses_value cmd = true → getkeys cmd = false →
  arity_ok cmd (Z.of_nat (length argv)) = true →
  getKeysUsingCommandTable cmd (Z.of_nat (length argv)) = Some ks →
  ∃ l, checkRockForSingleCmd in_rock cmd argv = Ok (l, 0%nat) ∧
    ∀ j key, j ∈ ks → j ∉ dest_only cmd → argv !! Z.to_nat j = Some key →
      in_rock key = true → key ∈ l.
Proof.
  intros Hcmd Hu Hg Har Hks.
  pose proof (proj1 (forallb_forall _ _) table_covered cmd (proj1 (list_elem_of_In _ _) Hcmd)) as Hc.
  unfold checkRockForSingleCmd. destruct (checkRockProc cmd) as [p|] eqn:Hp.
  - assert (2 ≤ Z.of_nat (length argv) ∧ (p = ExcludeLastArg → 3 ≤ Z.of_nat (length argv)) ∧
            p ≠ ForZstore ∧ p ≠ ForMigrate) as (H2 & H3 & Hz & Hm).
    { pose proof (arity_min _ _ Har ltac:(lia)) as [Hmin _]. unfold entry_covered in Hc.
      rewrite Hg, Hp in Hc. simpl in Hc. rewrite !andb_true_iff, !Z.leb_le in Hc.
      destruct Hc as [[[_ Ha] _] Hc]. split; [lia|]. split; [intros ->|by destruct p].
      rewrite andb_true_iff, Z.leb_le in Hc. lia. }
    destruct (run_check_looks_at in_rock p argv H2 H3 Hz Hm) as (l & Hl & Hin).
    exists l. split; [done|]. intros j key Hj Hd. apply Hin.
    eapply entry_covered_spec; try done. lia.
  - exists []. split; [done|]. intros j key Hj. unfold entry_covered in Hc. rewrite Hg, Hp, Hu, orb_false_r in Hc. simpl in Hc.
    unfold getKeysUsingCommandTable in Hks. rewrite Hc in Hks. injection Hks as <-. by apply not_elem_of_nil in Hj.
Qed.

Definition cmd_named (n : string) : option redisCommand :=
  find (fun cmd => String.eqb (cmd_name cmd) n) redisCommandTable.

(** SINTERSTORE dst a b with [b] in RocksDB. *)
Lemma check_covers_witness :
  ∃ cmd l, cmd_named "sinterstore" = Some cmd ∧
    checkRockForSingleCmd (fun k => bool_decide (k = [x62])) cmd [[x00]; [x64]; [x61]; [x62]]
    = Ok (l, 0%nat) ∧ [x62] ∈ l.
Proof.
  eexists. destruct (check_covers (fun k => bool_decide (k = [x62]))
    (Cmd "sinterstore" (-3) true false 1 (-1) 1 (Some ExcludeFirstArg))
    [[x00]; [x64]; [x61]; [x62]] [1; 2; 3]) as (l & Hl & Hin); try (vm_compute; reflexivity).
  - apply list_elem_of_In. vm_compute. repeat (first [left; reflexivity|right]).
  - exists l. split; [reflexivity|]. split; [exact Hl|]. apply (Hin 3 [x62]); try (vm_compute; reflexivity).
    + repeat constructor.
    + vm_compute. intros H. inversion H as [|? ? ? H1]; inversion H1.
Defined.

(** Inside MULTI the source keys of ZUNIONSTORE and ZINTERSTORE cannot be
    checked.  [cmdCheckRockForZstore] takes the number of keys from the vector of
    the client, which at EXEC holds only the word EXEC, and reads past its end. *)
Theorem zstore_in_multi in_rock dst num keys :
  ∀ name, name = "zunionstore"%string ∨ name = "zinterstore"%string →
  ∃ cmd m, cmd_named name = Some cmd ∧
    checkRockForMultiCmd in_rock [String.list_byte_of_string "exec"]
      [(cmd, String.list_byte_of_string name :: dst :: num :: keys)] = Abort m.
Proof. intros name [-> | ->]; eexists _, _; (split; [vm_compute; reflexivity|reflexivity]). Qed.

Lemma zstore_in_multi_witness :
  ∃ cmd m, cmd_named "zunionstore" = Some cmd ∧
    checkRockForMultiCmd (fun _ => true) [String.list_byte_of_string "exec"]
      [(cmd, [String.list_byte_of_string "zunionstore"; [x64]; [x31]; [x61]])] = Abort m.
Proof. exact (zstore_in_multi (fun _ => true) [x64] [x31] [[x61]] "zunionstore" (or_introl eq_refl)). Defined.
