(* ===== verification/Room.v ===== *)
(** * Making room (src/src/rock_hotkey.c, src/src/evict.c)

    [freeMemoryIfNeededAndSafe] runs in [processCommand], before every command.  When memory is
    short, [dumpValueToRockIfNeeded] samples the hot keys of every database into the pool of
    candidates, takes the best one out, and moves its value to RocksDB, at most 63 times.

    The samples, which come from a random walk over a hash table, are the class
    [Sampling]; so is the memory that each dump frees.  What a call finds is a [room_view].

    The eviction of keys ([freeMemoryIfNeeded]), which comes next where
    maxmemory-only-for-rocksdb is off, is left out: [Abort "freeMemoryIfNeeded"].

    Shown: whatever the samples are, a call amounts to a sequence of dumps of keys that nobody waits
    for ([dumps]); it keeps the contents of the databases ([roomed]), and it returns. *)

From S2P Require Import Prelude Util Robj Serdes Pool RocksApi Keyspace KeyspaceInv HotKeys.
From stdpp Require Import list gmap.
#[local] Open Scope Z_scope.

(** ** Sampling

    [t] counts the tries of a call, [n] the turns of the loop within a try, [i] is
    the database. *)
Class Sampling := {
  dictGetSomeKeys : nat → nat → nat → gset bytes → list bytes;
  dictGetSomeKeys_in t n i h key : key ∈ dictGetSomeKeys t n i h → key ∈ h;
  dictGetRandomKey : nat → nat → gset bytes → option bytes;
  dictGetRandomKey_in t i h key : dictGetRandomKey t i h = Some key → key ∈ h;
  dictGetRandomKey_some t i h : h ≠ ∅ → is_Some (dictGetRandomKey t i h);
  obj_address : nat → bytes → Z;                 (* where the value of a key is *)
  memory_freed : nat → Z                         (* the change of zmalloc_used_memory *)
}.

(** A sample of a table that is not empty is not empty. *)
Class SamplingFair (S : Sampling) : Prop :=
  dictGetSomeKeys_some : ∀ t n i h, h ≠ ∅ → dictGetSomeKeys t n i h ≠ [].

(** What a call finds. *)
Record memory := Memory {
  clientsArePaused : bool;
  maxmemory_limit : Z;
  mem_reported : Z;                              (* zmalloc_used_memory() *)
  mem_aof_slave : Z;                             (* freeMemoryGetNotCountedMemory() *)
  rock_enabled : bool;
  maxmemory_only_for_rocksdb : bool;
  maxHopeHotKeys : Z
}.

Definition MAX_TRY_PICK_KEY_TIMES : nat := 64.
Definition SAFE_MEMORY_ROCK_BEFORE_EVIC : Z := Z.shiftl 16 20.

Definition getMemoryOfRock (m : memory) : Z := if rock_enabled m then rocksdbapi_memory else 0.

(** [None] is [C_OK]; otherwise the number of bytes to free. *)
Definition _getMmemoryStateWithRock (m : memory) : option Z :=
  if maxmemory_limit m =? 0 then None
  else
    let mem_rock := getMemoryOfRock m in
    let mem_used := if u64 (mem_aof_slave m + mem_rock) <? mem_reported m
                    then u64 (mem_reported m - mem_aof_slave m - mem_rock) else 0 in
    if u64 (mem_used + SAFE_MEMORY_ROCK_BEFORE_EVIC) <=? maxmemory_limit m then None
    else Some (u64 (mem_used + SAFE_MEMORY_ROCK_BEFORE_EVIC - maxmemory_limit m)).

Section dump.
Context {R : RocksDB} {SA : Sampling}.
Implicit Types (k : keyspace R) (p : pool) (key : bytes).

(** ** Filling the pool *)

Definition rock_score (env : srv_env) (i : nat) key (v : dval) k : Z :=
  if policy_has env MAXMEMORY_FLAG_LFU then 255 - LFUDecrAndReturn env (val_lru k v)
  else if policy_has env MAXMEMORY_FLAG_LRU then estimateObjectIdleTime env (val_lru k v)
  else u64 (2 ^ 64 - 1 - obj_address i key).

Fixpoint rockPoolPopulate (env : srv_env) (i : nat) (samples : list bytes) k p : res pool :=
  match samples with
  | [] => Ok p
  | key :: rest =>
      o ← res_of_option (dict_at k i key) "exit(1)";
      rockPoolPopulate env i rest k (pool_insert (rock_score env i key o k) key i p)
  end.

(** Every database with hot keys; whether there is one ([total_keys]). *)
Fixpoint populate_dbs (env : srv_env) (t n : nat) (i count : nat) k p : res (bool * pool) :=
  match count with
  | O => Ok (false, p)
  | S count' =>
      let h := hotKeys (get_db k i) in
      if bool_decide (h = ∅) then populate_dbs env t n (S i) count' k p
      else
        p ← rockPoolPopulate env i (dictGetSomeKeys t n i h) k p;
        '(_, p) ← populate_dbs env t n (S i) count' k p;
        mret (true, p)
  end.

Definition key_exists k (i : nat) key : bool := bool_decide (dict_at k i key ≠ None).

(** [while (bestkey == NULL)] *)
Fixpoint best_loop (fuel : nat) (env : srv_env) (t n : nat) k p : res (option (nat * bytes) * pool) :=
  match fuel with
  | O => Abort "fuel"
  | S fuel' =>
      '(total_keys, p) ← populate_dbs env t n 0 (length (dbs k)) k p;
      if negb total_keys then Ok (None, p)
      else
        let '(best, p) := pool_pick (key_exists k) p in
        match best with
        | Some x => Ok (Some x, p)
        | None => best_loop fuel' env t (S n) k p
        end
  end.

(** The random choice, one database after the other. *)
Fixpoint random_pick (t count : nat) (next_db : Z) k : res (option (nat * bytes) * Z) :=
  match count with
  | O => Ok (None, next_db)
  | S count' =>
      let next_db := u32 (next_db + 1) in
      let j := Z.to_nat (next_db mod Z.of_nat (length (dbs k))) in
      let h := hotKeys (get_db k j) in
      if bool_decide (h = ∅) then random_pick t count' next_db k
      else
        key ← res_of_option (dictGetRandomKey t j h) "dictGetKey(NULL)";
        suit ← _isValueSuitForDumpRock j key k;
        match suit with
        | true => Ok (Some (j, key), next_db)
        | false => random_pick t count' next_db k
        end
  end.

(** ** The dumps *)

Record dump_state := DumpState { d_ks : keyspace R; d_pool : pool; d_next : Z }.
Implicit Types d : dump_state.

Definition choose_key (fuel : nat) (env : srv_env) (t : nat) d : res (option (nat * bytes) * dump_state) :=
  '(best, p) ← best_loop fuel env t 0 (d_ks d) (d_pool d);
  suit ← match best with
         | Some (i, key) => _isValueSuitForDumpRock i key (d_ks d)
         | None => Ok false
         end;
  match suit with
  | true => Ok (best, DumpState (d_ks d) p (d_next d))
  | false =>
      '(best, next) ← random_pick t (length (dbs (d_ks d))) (d_next d) (d_ks d);
      mret (best, DumpState (d_ks d) p next)
  end.

(** The loop; [n] tries are left, [t] have been made.  [true] is [C_OK]. *)
Fixpoint dump_loop (fuel : nat) (env : srv_env) (n t : nat) (mem_tofree mem_freed : Z) d : res (bool * dump_state) :=
  if mem_tofree <=? mem_freed then Ok (true, d)
  else
    match n with
    | O => Ok (false, d)
    | S n' =>
        '(best, d) ← choose_key fuel env t d;
        match best with
        | None => Ok (false, d)
        | Some (i, key) =>
            match rockKeys (get_db (d_ks d) i) !! key with
            | Some _ => dump_loop fuel env n' (S t) mem_tofree mem_freed d
            | None =>
                k ← dumpValToRock false i key (d_ks d);
                dump_loop fuel env n' (S t) mem_tofree (u64 (mem_freed + memory_freed t))
                  (DumpState k (d_pool d) (d_next d))
            end
        end
    end.

(** The test against [maxHopeHotKeys], made after each database. *)
Fixpoint few_hot_keys (limit total : Z) (l : list redisDb) : bool :=
  match l with
  | [] => false
  | db :: l' =>
      let total := total + Z.of_nat (size (hotKeys db)) in
      if total <=? limit then true else few_hot_keys limit total l'
  end.

Definition dumpValueToRockIfNeeded (fuel : nat) (env : srv_env) (m : memory) d : res (bool * dump_state) :=
  if clientsArePaused m then Ok (true, d)
  else
    match _getMmemoryStateWithRock m with
    | None => Ok (true, d)
    | Some mem_tofree =>
        k ← (if alreadyInitHotKeys (d_ks d) then Ok (d_ks d)
             else '(ret, k) ← startHotKeys (d_ks d); serverAssert ret "initHotKeys() != 0" ;; mret k);
        let d := DumpState k (d_pool d) (d_next d) in
        if negb (maxmemory_only_for_rocksdb m) && few_hot_keys (maxHopeHotKeys m) 0 (dbs k) then Ok (false, d)
        else dump_loop fuel env (MAX_TRY_PICK_KEY_TIMES - 1) 0 mem_tofree 0 d
    end.
End dump.
Arguments dump_state R : clear implicits.

(** [C_OK] is [true]. *)
Definition getMaxmemoryState (m : memory) : bool :=
  (maxmemory_limit m =? 0) || (mem_reported m <=? maxmemory_limit m) ||
  (let overhead := u64 (mem_aof_slave m + getMemoryOfRock m) in
   (if overhead <? mem_reported m then u64 (mem_reported m - overhead) else 0) <=? maxmemory_limit m).

(** What a call of [freeMemoryIfNeededAndSafe] finds: the memory, the samples and, where the dumps
    have not been enough, the memory after them.  [rv_fuel] bounds the turns of the loop that
    looks for a candidate. *)
Record room_view := RoomView {
  rv_memory : memory;
  rv_sampling : Sampling;
  rv_fuel : nat;
  rv_after : memory
}.

(** No script runs longer than it may ([lua_timedout]), and nothing is being loaded. *)
Definition freeMemoryIfNeededAndSafe {R : RocksDB} (v : room_view) (env : srv_env) (d : dump_state R) : res (bool * dump_state R) :=
  let m := rv_memory v in
  if rock_enabled m && (0 <? maxmemory_limit m) then
    '(ret, d) ← dumpValueToRockIfNeeded (SA := rv_sampling v) (rv_fuel v) env m d;
    if ret : bool then mret (true, d)
    else if maxmemory_only_for_rocksdb m then mret (getMaxmemoryState (rv_after v), d)
    else Abort "freeMemoryIfNeeded"
  else Abort "freeMemoryIfNeeded".

(** The step of [processCommand]; [true] is out_of_memory. *)
Definition out_of_memory {R : RocksDB} (v : room_view) (env : srv_env) (d : dump_state R) : res (bool * dump_state R) :=
  if maxmemory_limit (rv_memory v) =? 0 then mret (false, d)
  else '(ok, d) ← freeMemoryIfNeededAndSafe v env d; mret (negb ok, d).

(** Memory is limited, and after the dumps there is still too much of it in use. *)
Definition tight (v : room_view) : bool :=
  negb (maxmemory_limit (rv_memory v) =? 0) && negb (getMaxmemoryState (rv_after v)).

Lemma out_of_memory_tight {R : RocksDB} v env (d d' : dump_state R) : out_of_memory v env d = Ok (true, d') → tight v = true.
Proof.
  unfold out_of_memory, freeMemoryIfNeededAndSafe, tight. destruct (maxmemory_limit (rv_memory v) =? 0); [done|].
  destruct (rock_enabled (rv_memory v) && _); [|done]. destruct (dumpValueToRockIfNeeded _ _ _ _) as [[[] d1]|m]; [done| |done].
  simpl. destruct (maxmemory_only_for_rocksdb (rv_memory v)); [|done]. simpl. by destruct (getMaxmemoryState (rv_after v)).
Qed.

(** ** The pool while it is filled and emptied *)

Section pool.
Context {R : RocksDB} {SA : Sampling}.
Implicit Types (k : keyspace R) (p : pool) (key : bytes).

(** The candidates that are keys of the database. *)
Definition real k (c : candidate) : Prop := key_exists k c.2.1 c.2.2 = true.

Lemma elem_of_cand_insert x v c : c ∈ cand_insert x v ↔ c = x ∨ c ∈ v.
Proof.
  induction v as [|y v IH]; simpl; [by rewrite list_elem_of_singleton, elem_of_nil; tauto|].
  destruct (_ <? _); rewrite !elem_of_cons, ?IH; tauto.
Qed.
Lemma keep_best_in v c : c ∈ keep_best v → c ∈ v.
Proof. unfold keep_best. case_match; [done|]. destruct v; [done|]. apply list_elem_of_further. Qed.
Lemma keep_best_nonempty v : v ≠ [] → keep_best v ≠ [].
Proof.
  intros Hv. unfold keep_best. destruct (_ <=? _)%nat eqn:Hl; [done|]. apply Nat.leb_gt in Hl.
  destruct v as [|x [|y v]]; simpl in *; [done|unfold RKPOOL_SIZE in Hl; lia|done].
Qed.

Lemma insert_real k idle key i p :
  pool_ok p → key_exists k i key = true →
  pool_ok (pool_insert idle key i p) ∧ pool_view (pool_insert idle key i p) ≠ [] ∧
  (Forall (real k) (pool_view p) → Forall (real k) (pool_view (pool_insert idle key i p))).
Proof.
  intros Hp Hk. pose proof (pool_insert_view (idle, (i, key)) p Hp) as Hv. simpl in Hv. split_and!.
  - exact (pool_insert_ok (idle, (i, key)) p Hp).
  - rewrite Hv. apply keep_best_nonempty. intros He.
    assert ((idle, (i, key)) ∈ cand_insert (idle, (i, key)) (pool_view p)) as Hin
      by (apply elem_of_cand_insert; by left).
    rewrite He in Hin. by apply not_elem_of_nil in Hin.
  - intros Hf. rewrite Hv. apply Forall_forall. intros c Hc%keep_best_in.
    apply elem_of_cand_insert in Hc as [->|Hc]; [done|]. by eapply Forall_forall in Hf.
Qed.

Lemma populate_spec env i samples k : ∀ p,
  pool_ok p → (∀ key, key ∈ samples → key_exists k i key = true) →
  ∃ p', rockPoolPopulate env i samples k p = Ok p' ∧ pool_ok p' ∧
    (samples ≠ [] ∨ pool_view p ≠ [] → pool_view p' ≠ []) ∧
    (Forall (real k) (pool_view p) → Forall (real k) (pool_view p')).
Proof.
  induction samples as [|key samples IH]; intros p Hp Hs; simpl.
  - exists p. naive_solver.
  - pose proof (Hs key (list_elem_of_here _ _)) as Hk. pose proof Hk as Hd.
    unfold key_exists in Hd. apply bool_decide_eq_true in Hd.
    destruct (dict_at k i key) as [v|] eqn:Hv; [|done]. cbn [res_of_option mbind res_bind].
    destruct (insert_real k (rock_score env i key v k) key i p Hp Hk) as (Hp1 & Hne & Hr).
    destruct (IH (pool_insert (rock_score env i key v k) key i p) Hp1) as (p' & Hp' & Hok & Hne' & Hr').
    { intros x Hx. apply Hs. by apply list_elem_of_further. }
    exists p'. naive_solver.
Qed.

Lemma populate_dbs_spec env t n k : hot_ok k → ∀ count i p,
  pool_ok p →
  ∃ total p', populate_dbs env t n i count k p = Ok (total, p') ∧ pool_ok p' ∧
    (SamplingFair SA → total = true → pool_view p' ≠ []) ∧
    (pool_view p ≠ [] → pool_view p' ≠ []) ∧
    (Forall (real k) (pool_view p) → Forall (real k) (pool_view p')).
Proof.
  intros Hh. induction count as [|count IH]; intros i p Hp; simpl.
  - exists false, p. naive_solver.
  - case_bool_decide as He; [by apply IH|].
    destruct (populate_spec env i (dictGetSomeKeys t n i (hotKeys (get_db k i))) k p Hp) as (p1 & Hp1 & Hok & Hne & Hr).
    { intros key Hin%dictGetSomeKeys_in. destruct (hot_mem k Hh i key Hin) as (o & Ho & _).
      unfold key_exists. apply bool_decide_eq_true. by rewrite Ho. }
    rewrite Hp1. cbn [mbind res_bind].
    destruct (IH (S i) p1 Hok) as (total & p2 & Hp2 & Hok2 & _ & Hkeep & Hr2). rewrite Hp2.
    exists true, p2. split; [done|]. split; [done|]. split; [|naive_solver].
    intros Hfair _. apply Hkeep, Hne. left. by apply Hfair.
Qed.

Lemma pick_best_spec f v o r :
  pick_best f v = (o, r) →
  match o with Some x => f x.1 x.2 = true ∧ (∃ c, c ∈ v ∧ c.2 = x) | None => r = [] end ∧
  (∀ c, c ∈ r → c ∈ v) ∧ (Forall (fun c => f c.2.1 c.2.2 = true) v → v ≠ [] → o ≠ None).
Proof.
  revert o r. induction v as [|x v IH]; intros o r H; simpl in H; [by injection H as <- <-|].
  destruct (f x.2.1 x.2.2) eqn:Hf.
  - injection H as <- <-. split; [split; [done|]; exists x; split; [apply list_elem_of_here|done]|].
    split; [|done]. intros c. apply list_elem_of_further.
  - destruct (IH o r H) as (H1 & H2 & H3). split_and!.
    + destruct o as [y|]; [|done]. destruct H1 as [? (c & Hc & <-)]. split; [done|]. exists c.
      split; [by apply list_elem_of_further|done].
    + intros c Hc. by apply list_elem_of_further, H2.
    + intros [Hx _]%Forall_cons. congruence.
Qed.

Lemma pick_spec k p o p' :
  pool_pick (key_exists k) p = (o, p') → pool_ok p →
  pool_ok p' ∧ match o with Some (i, key) => key_exists k i key = true | None => pool_view p' = [] end ∧
  (Forall (real k) (pool_view p) → pool_view p ≠ [] → o ≠ None).
Proof.
  intros Hp Hok. destruct (pool_pick_from_spec (key_exists k) RKPOOL_SIZE p o p' Hp Hok) as [Hok' Hb]; [done| |].
  { by rewrite drop_ge by (rewrite (pool_size p Hok); lia). }
  apply pick_best_spec in Hb as (H1 & _ & H3). split; [done|]. split.
  - destruct o as [[i key]|]; [by destruct H1|]. by apply (f_equal reverse) in H1; rewrite reverse_involutive in H1.
  - intros Hf Hne. apply H3.
    + by apply Forall_reverse.
    + intros He. apply Hne. by apply (f_equal reverse) in He; rewrite reverse_involutive in He.
Qed.
End pool.

(** ** One try *)

Section try.
Context {R : RocksDB} {SA : Sampling}.
Implicit Types (k : keyspace R) (p : pool) (key : bytes) (d : dump_state R).

(** Two turns of the loop are enough: what the first turn leaves in the pool is
    taken out, and the second one puts keys in that exist. *)
Lemma best_loop_total env t n k p fuel :
  hot_ok k → pool_ok p → SamplingFair SA → (2 ≤ fuel)%nat → ∃ o p', best_loop fuel env t n k p = Ok (o, p').
Proof.
  intros Hh Hp Hfair Hfuel. destruct fuel as [|[|fuel]]; [lia..|]. cbn [best_loop].
  destruct (populate_dbs_spec env t n k Hh (length (dbs k)) 0 p Hp) as (total & p1 & -> & Hp1 & _). cbn [mbind res_bind].
  destruct total; [|eauto]. cbn [negb]. destruct (pool_pick (key_exists k) p1) as [[x|] p2] eqn:Hpick; [eauto|].
  destruct (pick_spec k p1 None p2 Hpick Hp1) as (Hp2 & Hempty & _).
  destruct (populate_dbs_spec env t (S n) k Hh (length (dbs k)) 0 p2 Hp2) as (total & p3 & -> & Hp3 & Hne & _ & Hr).
  cbn [mbind res_bind]. destruct total; [|eauto]. cbn [negb].
  destruct (pool_pick (key_exists k) p3) as [[x|] p4] eqn:Hpick'; [eauto|].
  destruct (pick_spec k p3 None p4 Hpick' Hp3) as (_ & _ & Hno). exfalso. apply Hno; [|by apply Hne|done].
  apply Hr. rewrite Hempty. constructor.
Qed.

Lemma best_loop_spec env t k fuel : hot_ok k → ∀ n p o p',
  best_loop fuel env t n k p = Ok (o, p') → pool_ok p →
  pool_ok p' ∧ match o with Some (i, key) => key_exists k i key = true | None => True end.
Proof.
  intros Hh. induction fuel as [|fuel IH]; intros n p o p' H Hp; [done|]. cbn [best_loop] in H.
  destruct (populate_dbs_spec env t n k Hh (length (dbs k)) 0 p Hp) as (total & p1 & Hpop & Hp1 & _).
  rewrite Hpop in H. cbn [mbind res_bind] in H. destruct total; [|by injection H as <- <-]. cbn [negb] in H.
  destruct (pool_pick (key_exists k) p1) as [[[i key]|] p2] eqn:Hpick; destruct (pick_spec _ _ _ _ Hpick Hp1) as (Hp2 & Hx & _).
  - by injection H as <- <-.
  - by eapply IH.
Qed.

Lemma suit_exists k i key : key_exists k i key = true → ∃ b, _isValueSuitForDumpRock i key k = Ok b.
Proof.
  unfold key_exists, _isValueSuitForDumpRock. intros H%bool_decide_eq_true.
  destruct (dict_at k i key); [|done]. simpl. eauto.
Qed.

Lemma random_pick_total t k : hot_ok k → ∀ count next, ∃ o next', random_pick t count next k = Ok (o, next').
Proof.
  intros Hh. induction count as [|count IH]; intros next; simpl; [eauto|]. case_bool_decide as He; [by apply IH|].
  set (j := Z.to_nat (u32 (next + 1) mod Z.of_nat (length (dbs k)))) in *.
  destruct (dictGetRandomKey_some t j _ He) as [key Hk].
  rewrite Hk. simpl. apply dictGetRandomKey_in in Hk. apply (hot_mem k Hh) in Hk as (o & Ho & _).
  destruct (suit_exists k j key) as [[] ->]; [unfold key_exists; apply bool_decide_eq_true; by rewrite Ho|eauto|].
  apply IH.
Qed.

Lemma random_pick_spec t k : ∀ count next i key next',
  random_pick t count next k = Ok (Some (i, key), next') → _isValueSuitForDumpRock i key k = Ok true.
Proof.
  induction count as [|count IH]; intros next i key next' H; simpl in H; [done|].
  case_bool_decide; [by eapply IH|]. apply bind_Ok in H as (x & _ & H). apply bind_Ok in H as ([] & Hs & H); [|by eapply IH].
  by injection H as <- <- <-.
Qed.

(** The key that is chosen has a value that can be dumped; the databases are as they were. *)
Lemma choose_key_spec fuel env t d o d' :
  choose_key fuel env t d = Ok (o, d') → hot_ok (d_ks d) → pool_ok (d_pool d) →
  d_ks d' = d_ks d ∧ pool_ok (d_pool d') ∧
  ∀ i key, o = Some (i, key) → _isValueSuitForDumpRock i key (d_ks d) = Ok true.
Proof.
  unfold choose_key. intros H Hh Hp. apply bind_Ok in H as ([best p] & Hb & H).
  apply best_loop_spec in Hb as [Hp' _]; [|done..]. apply bind_Ok in H as ([] & Hs & H).
  - injection H as <- <-. split_and!; [done..|]. intros i key ->. done.
  - apply bind_Ok in H as ([best' next] & Hr & H). injection H as <- <-. split_and!; [done..|].
    intros i key ->. by eapply random_pick_spec.
Qed.

Lemma choose_key_total fuel env t d :
  hot_ok (d_ks d) → pool_ok (d_pool d) → SamplingFair SA → (2 ≤ fuel)%nat →
  ∃ o d', choose_key fuel env t d = Ok (o, d').
Proof.
  intros Hh Hp Hfair Hfuel. unfold choose_key.
  destruct (best_loop_total env t 0 (d_ks d) (d_pool d) fuel Hh Hp Hfair Hfuel) as (best & p & Hb).
  rewrite Hb. cbn [mbind res_bind]. pose proof (best_loop_spec _ _ _ _ Hh _ _ _ _ Hb Hp) as [_ Hx].
  assert (∃ b, match best with Some (i, key) => _isValueSuitForDumpRock i key (d_ks d) | None => Ok false end = Ok b)
    as [b ->] by (destruct best as [[i key]|]; [by apply suit_exists|eauto]).
  destruct b; [simpl; eauto|]. cbn [mbind res_bind].
  destruct (random_pick_total t (d_ks d) Hh (length (dbs (d_ks d))) (d_next d)) as (o & next & ->). simpl. eauto.
Qed.

(** A value that can be dumped is among the hot keys. *)
Lemma suit_hot k i key :
  hot_full k → alreadyInitHotKeys k = true → _isValueSuitForDumpRock i key k = Ok true → key ∈ hotKeys (get_db k i).
Proof.
  intros Hf Hi H. unfold _isValueSuitForDumpRock in H. apply bind_Ok in H as (v & Hd & H). apply res_of_option_Ok in Hd.
  injection H as H. destruct v as [|o]; [done|]. destruct (bool_decide (o_type o = OBJ_STREAM)) eqn:Ht; [done|].
  apply (Hf Hi i key o Hd). simpl. rewrite Ht. apply Z.eqb_eq in H. by rewrite H.
Qed.
End try.

(** ** A call *)

Section dumps.
Context {R : RocksDB} {L : RocksDBLaws R}.
Implicit Types (k : keyspace R) (key : bytes) (d : dump_state R).

(** Dumps of hot keys that nobody waits for, in this order. *)
Inductive dumps : list (nat * bytes) → keyspace R → keyspace R → Prop :=
| dumps_nil k : dumps [] k k
| dumps_cons i key l k k1 k2 :
    key ∈ hotKeys (get_db k i) → rockKeys (get_db k i) !! key = None → _isValueSuitForDumpRock i key k = Ok true →
    dumpValToRock false i key k = Ok k1 → dumps l k1 k2 → dumps ((i, key) :: l) k k2.

(** What the loop needs, and keeps. *)
Record dump_ready d : Prop := {
  dr_ks : ks_ok (d_ks d);
  dr_hot : hot_ok (d_ks d);
  dr_full : hot_full (d_ks d);
  dr_init : alreadyInitHotKeys (d_ks d) = true;
  dr_pool : pool_ok (d_pool d)
}.

Lemma ready_dump i key k k' p next next' :
  dump_ready (DumpState k p next) → dumpValToRock false i key k = Ok k' → dump_ready (DumpState k' p next').
Proof.
  intros [H1 H2 H3 H4 H5] Hd. destruct (dumpValToRock_spec _ _ _ _ _ Hd H1 H2) as (Hks & Hhot & _ & Hdict & _).
  split; simpl in *; [done|done|by eapply hot_full_dump| |done]. apply (hot_rock _ Hhot i key). by rewrite Hdict, decide_True.
Qed.

Lemma dump_loop_dumps {SA : Sampling} fuel env tofree : ∀ n t freed d b d',
  dump_loop fuel env n t tofree freed d = Ok (b, d') → dump_ready d →
  ∃ l, (length l ≤ n)%nat ∧ dumps l (d_ks d) (d_ks d') ∧ dump_ready d'.
Proof.
  induction n as [|n IH]; intros t freed d b d' H Hr; simpl in H; destruct (tofree <=? freed).
  1,2,3: injection H as <- <-; exists []; simpl; split_and!; [lia|constructor|done].
  apply bind_Ok in H as ([best d1] & Hc & H).
  destruct (choose_key_spec _ _ _ _ _ _ Hc (dr_hot _ Hr) (dr_pool _ Hr)) as (Hk1 & Hp1 & Hsuit).
  assert (dump_ready d1) as Hr1 by (destruct Hr; by split; rewrite ?Hk1). rewrite <- Hk1 in Hsuit |- *.
  destruct best as [[i key]|]; [|injection H as <- <-; exists []; simpl; split_and!; [lia|constructor|done]].
  specialize (Hsuit i key eq_refl). destruct (rockKeys (get_db (d_ks d1) i) !! key) as [l|] eqn:Hrk.
  { destruct (IH _ _ _ _ _ H Hr1) as (l' & Hl & Hd & Hr'). exists l'. split_and!; [lia|done..]. }
  apply bind_Ok in H as (k' & Hd & H). destruct (IH _ _ _ _ _ H) as (l & Hl & Hds & Hr').
  { destruct d1. by eapply ready_dump. }
  exists ((i, key) :: l). split_and!; [simpl; lia| |done]. econstructor; try done. by apply (suit_hot _ _ _ (dr_full _ Hr1) (dr_init _ Hr1)).
Qed.

(** No key has the empty name. *)
Definition named k : Prop := ∀ i key, dict_at k i key ≠ None → key ≠ [].

Lemma dump_loop_total `{!RocksDBReliable R} {SA : Sampling} `{!SamplingFair SA} fuel env tofree :
  (2 ≤ fuel)%nat → ∀ n t freed d, dump_ready d → named (d_ks d) →
  ∃ b d', dump_loop fuel env n t tofree freed d = Ok (b, d').
Proof.
  intros Hfuel. induction n as [|n IH]; intros t freed d Hr Hn; simpl; destruct (tofree <=? freed); eauto.
  destruct (choose_key_total fuel env t d (dr_hot _ Hr) (dr_pool _ Hr) _ Hfuel) as (best & d1 & Hc). rewrite Hc.
  destruct (choose_key_spec _ _ _ _ _ _ Hc (dr_hot _ Hr) (dr_pool _ Hr)) as (Hk1 & Hp1 & Hsuit). cbn [mbind res_bind].
  assert (dump_ready d1) as Hr1 by (destruct Hr; by split; rewrite ?Hk1). rewrite <- Hk1 in Hsuit, Hn.
  destruct best as [[i key]|]; [|eauto]. specialize (Hsuit i key eq_refl).
  destruct (rockKeys (get_db (d_ks d1) i) !! key); [by apply IH|].
  pose proof (suit_hot _ _ _ (dr_full _ Hr1) (dr_init _ Hr1) Hsuit) as Hin.
  destruct (hot_mem _ (dr_hot _ Hr1) i key Hin) as (o & Ho & _).
  destruct (dumpValToRock_total i key (d_ks d1) (dr_ks _ Hr1) (dr_hot _ Hr1) Hin) as (k' & Hd); [|done|].
  { apply (Hn i key). by rewrite Ho. }
  rewrite Hd. cbn [mbind res_bind].
  destruct (dumpValToRock_spec _ _ _ _ _ Hd (dr_ks _ Hr1) (dr_hot _ Hr1)) as (_ & _ & _ & Hdict & _).
  apply IH; [destruct d1; by eapply ready_dump|].
  intros j x. simpl. rewrite Hdict. case_decide as He; [|apply Hn]. injection He as -> ->. intros _.
  apply (Hn i key). by rewrite Ho.
Qed.

(** The call: the hot keys may be started first. *)
Definition started k k1 : Prop :=
  k1 = k ∧ alreadyInitHotKeys k = true ∨ alreadyInitHotKeys k = false ∧ startHotKeys k = Ok (true, k1).

Lemma dumpIfNeeded_dumps {SA : Sampling} fuel env m d b d' :
  dumpValueToRockIfNeeded fuel env m d = Ok (b, d') → ks_ok (d_ks d) → hot_ok (d_ks d) → hot_full (d_ks d) → pool_ok (d_pool d) →
  d' = d ∨ ∃ k1 l, started (d_ks d) k1 ∧ (length l ≤ 63)%nat ∧ dumps l k1 (d_ks d') ∧ dump_ready d'.
Proof.
  intros H Hks Hhot Hfull Hp. unfold dumpValueToRockIfNeeded in H. destruct (clientsArePaused m); [injection H as <- <-; by left|].
  destruct (_getMmemoryStateWithRock m) as [tofree|]; [right|injection H as <- <-; by left].
  apply bind_Ok in H as (k1 & Hinit & H). cbn [d_pool d_next d_ks] in H.
  assert (started (d_ks d) k1 ∧ dump_ready (DumpState k1 (d_pool d) (d_next d))) as [Hst Hr].
  { destruct (alreadyInitHotKeys (d_ks d)) eqn:Hi; [injection Hinit as <-; split; [by left|done]|].
    destruct (startHotKeys_spec _ Hks Hhot Hi) as (ret & k2 & Hs & Hsd & _ & Hhot1 & Hfull1 & Hks1 & _).
    rewrite Hs in Hinit. cbn [mbind res_bind] in Hinit. apply bind_Ok in Hinit as (u & Hret & Hinit).
    apply serverAssert_Ok in Hret. subst ret. injection Hinit as <-. split; [by right|]. split; try done. simpl. by rewrite (sd_init _ _ Hsd). }
  exists k1. destruct (negb _ && _).
  - injection H as <- <-. exists []. split_and!; [done|simpl; lia|constructor|done].
  - destruct (dump_loop_dumps _ _ _ _ _ _ _ _ _ H Hr) as (l & Hl & Hd & Hr'). exists l. done.
Qed.

(** Where there is something to start the hot keys with, a call returns. *)
Definition room_safe k : Prop :=
  named k ∧ (alreadyInitHotKeys k = false → ∃ i key v, dict_at k i key = Some v ∧ hot_candidate v = true).

Lemma dumpIfNeeded_total `{!RocksDBReliable R} {SA : Sampling} `{!SamplingFair SA} fuel env m d :
  ks_ok (d_ks d) → hot_ok (d_ks d) → hot_full (d_ks d) → pool_ok (d_pool d) → (2 ≤ fuel)%nat → room_safe (d_ks d) →
  ∃ b d', dumpValueToRockIfNeeded fuel env m d = Ok (b, d').
Proof.
  intros Hks Hhot Hfull Hp Hfuel [Hn Hstart]. unfold dumpValueToRockIfNeeded. destruct (clientsArePaused m); [eauto|].
  destruct (_getMmemoryStateWithRock m) as [tofree|]; [|eauto]. cbn [d_pool d_next d_ks].
  destruct (alreadyInitHotKeys (d_ks d)) eqn:Hi.
  - cbn [mbind res_bind]. destruct (negb _ && _); [eauto|]. by apply dump_loop_total.
  - destruct (startHotKeys_spec _ Hks Hhot Hi) as (ret & k1 & -> & Hsd & _ & Hhot1 & Hfull1 & Hks1 & Hret).
    destruct ret; [|by specialize (Hstart eq_refl); apply Hret in Hstart]. cbn [mbind res_bind serverAssert mret res_ret].
    destruct (negb _ && _); [eauto|]. apply dump_loop_total; [done| |].
    + split; try done. simpl. by rewrite (sd_init _ _ Hsd).
    + intros i key. simpl. rewrite (sd_dict _ _ Hsd). apply Hn.
Qed.

(** ** What a call keeps *)

(** The contents and everything about the keys that are waited for; at most [n] more keys are in
    RocksDB. *)
Record roomed (n : nat) k k' : Prop := {
  rm_len : length (dbs k') = length (dbs k);
  rm_logical i key : logical k' i key = logical k i key;
  rm_expires i : expires (get_db k' i) = expires (get_db k i);
  rm_rockKeys i : rockKeys (get_db k' i) = rockKeys (get_db k i);
  rm_waited i key : is_Some (rockKeys (get_db k i) !! key) →
    dict_at k' i key = dict_at k i key ∧ stored_val (rocks k') i key = stored_val (rocks k) i key;
  rm_count : ∃ X : gset (nat * bytes), (size X ≤ n)%nat ∧
    ∀ i key, dict_at k' i key = Some InRock → dict_at k i key = Some InRock ∨ (i, key) ∈ X
}.

Lemma roomed_refl n k : roomed n k k.
Proof. split; try done. exists ∅. rewrite size_empty. split; [lia|]. by left. Qed.
Lemma roomed_trans n1 n2 k1 k2 k3 : roomed n1 k1 k2 → roomed n2 k2 k3 → roomed (n1 + n2) k1 k3.
Proof.
  intros [H1 H2 H3 H4 H5 (X & HX & HX')] [H6 H7 H8 H9 H10 (Y & HY & HY')]. split; try (intros; congruence).
  - intros i key Hw. destruct (H5 i key Hw) as [<- <-]. apply H10. by rewrite H4.
  - exists (X ∪ Y). pose proof (size_union_alt X Y). assert (size (Y ∖ X) ≤ size Y)%nat by (apply subseteq_size; set_solver).
    split; [lia|]. intros i key [Hin|Hin]%HY'; [|set_solver]. apply HX' in Hin as [?|?]; [by left|set_solver].
Qed.

Lemma roomed_started k k1 : ks_ok k → hot_ok k → hot_full k → started k k1 → roomed 0 k k1 ∧ ks_ok k1 ∧ hot_ok k1 ∧ hot_full k1.
Proof.
  intros Hks Hhot Hfull [[-> _]|[Hi Hs]]; [split; [apply roomed_refl|done]|].
  destruct (startHotKeys_spec _ Hks Hhot Hi) as (ret & k2 & Hs' & Hsd & Hex & Hhot1 & Hfull1 & Hks1 & _). rewrite Hs in Hs'. injection Hs' as <- <-.
  split; [|done]. split; try done.
  - apply Hsd.
  - intros i key. by rewrite (logical_same_data _ _ i key Hsd).
  - apply Hsd.
  - intros i key _. by rewrite (sd_dict _ _ Hsd), (sd_rocks _ _ Hsd).
  - exists ∅. split; [done|]. intros i key. rewrite (sd_dict _ _ Hsd). by left.
Qed.

Lemma dumps_roomed l k k' : dumps l k k' → ks_ok k → hot_ok k → hot_full k → roomed (length l) k k' ∧ ks_ok k' ∧ hot_ok k' ∧ hot_full k'.
Proof.
  induction 1 as [k|i key l k k1 k2 Hin Hrk Hsuit Hd _ IH]; intros Hks Hhot Hfull; [split; [apply roomed_refl|done]|].
  destruct (dumpValToRock_spec _ _ _ _ _ Hd Hks Hhot) as (Hks1 & Hhot1 & Hlog & Hdict & Hex & Hrk1 & Hst & Hlen).
  destruct (IH Hks1 Hhot1 (hot_full_dump _ _ _ _ Hd Hfull)) as (Hr & Hks2 & Hhot2 & Hfull2). split; [|done].
  apply (roomed_trans 1 (length l) k k1 k2); [|done]. split; try done.
  - intros j x [w Hw]. assert ((j, x) ≠ (i, key)) as Hne by (intros [= -> ->]; congruence).
    rewrite Hdict, decide_False by done. split; [done|by apply Hst].
  - exists {[(i, key)]}. rewrite size_singleton. split; [done|]. intros j x. rewrite Hdict. case_decide as He; [set_solver|by left].
Qed.

Lemma out_of_memory_spec v env d b d' :
  out_of_memory v env d = Ok (b, d') → ks_ok (d_ks d) → hot_ok (d_ks d) → hot_full (d_ks d) → pool_ok (d_pool d) →
  roomed 63 (d_ks d) (d_ks d') ∧ ks_ok (d_ks d') ∧ hot_ok (d_ks d') ∧ hot_full (d_ks d') ∧ pool_ok (d_pool d').
Proof.
  intros H Hks Hhot Hfull Hp. assert (d' = d ∨ ∃ ret, dumpValueToRockIfNeeded (SA := rv_sampling v) (rv_fuel v) env (rv_memory v) d = Ok (ret, d')) as [->|[ret Hd]].
  { unfold out_of_memory, freeMemoryIfNeededAndSafe in H. destruct (_ =? 0); [injection H as <- <-; by left|]. right.
    apply bind_Ok in H as ([ok d1] & H & He). injection He as <- <-. destruct (_ && _); [|done].
    apply bind_Ok in H as ([ret d2] & H & He). exists ret. destruct ret; [by injection He as <- <-|]. destruct (maxmemory_only_for_rocksdb _); [by injection He as <- <-|done]. }
  { split; [apply roomed_refl|done]. }
  destruct (dumpIfNeeded_dumps (SA := rv_sampling v) _ _ _ _ _ _ Hd Hks Hhot Hfull Hp) as [->|(k1 & l & Hst & Hl & Hds & Hr)]; [split; [apply roomed_refl|done]|].
  destruct (roomed_started _ _ Hks Hhot Hfull Hst) as (H1 & Hks1 & Hhot1 & Hfull1).
  destruct (dumps_roomed _ _ _ Hds Hks1 Hhot1 Hfull1) as (H2 & Hks2 & Hhot2 & Hfull2). split; [|by split_and!; try apply Hr].
  destruct (roomed_trans _ _ _ _ _ H1 H2) as [? ? ? ? ? (X & HX & HX')]. split; try done. exists X. split; [lia|done].
Qed.

(** The samples are never empty, and values are dumped and not evicted. *)
Record view_ok (v : room_view) : Prop := {
  vo_fair : SamplingFair (rv_sampling v);
  vo_fuel : (2 ≤ rv_fuel v)%nat;
  vo_limit : 0 ≤ maxmemory_limit (rv_memory v);
  vo_rock : maxmemory_limit (rv_memory v) ≠ 0 → rock_enabled (rv_memory v) = true ∧ maxmemory_only_for_rocksdb (rv_memory v) = true
}.

Lemma out_of_memory_total `{!RocksDBReliable R} v env d :
  view_ok v → ks_ok (d_ks d) → hot_ok (d_ks d) → hot_full (d_ks d) → pool_ok (d_pool d) → room_safe (d_ks d) →
  ∃ b d', out_of_memory v env d = Ok (b, d').
Proof.
  intros [Hf Hfuel Hl Hrock] Hks Hhot Hfull Hp Hs. unfold out_of_memory, freeMemoryIfNeededAndSafe. destruct (Z.eqb_spec (maxmemory_limit (rv_memory v)) 0) as [|Hne]; [eauto|].
  destruct (Hrock Hne) as [-> ->]. rewrite (proj2 (Z.ltb_lt _ _)) by lia. cbn [andb].
  destruct (dumpIfNeeded_total (SA := rv_sampling v) (rv_fuel v) env (rv_memory v) d Hks Hhot Hfull Hp Hfuel Hs) as (ret & d' & ->). cbn [mbind res_bind]. destruct ret; cbn; eauto.
Qed.
End dumps.

(** ** An instance *)

(** Samples that are the whole table, and dumps that free 100 bytes. *)
#[export] Program Instance all_keys : Sampling := {|
  dictGetSomeKeys _ _ _ h := elements h;
  dictGetRandomKey _ _ h := head (elements h);
  obj_address _ _ := 0;
  memory_freed _ := 100
|}.
Next Obligation. intros t n i h key. by rewrite elem_of_elements. Qed.
Next Obligation.
  intros t i h key H. apply head_Some_elem_of in H. by apply elem_of_elements in H.
Qed.
Next Obligation.
  intros t i h H. destruct (head (elements h)) eqn:He; [by eexists|]. exfalso. apply H.
  apply leibniz_equiv, elements_empty_iff. revert He. generalize (elements h). by intros [].
Qed.

#[export] Instance all_keys_fair : SamplingFair all_keys.
Proof.
  intros t n i h Hh He. by apply elements_empty_iff, leibniz_equiv in He.
Qed.

Definition short_memory : memory := Memory false 100 (2 ^ 20) 0 true true 1000.

(** No limit; and a limit that is exceeded until the dumps are done. *)
Definition no_limit : room_view := RoomView (Memory false 0 0 0 true true 0) all_keys 2 (Memory false 0 0 0 true true 0).
Definition short_view : room_view := RoomView short_memory all_keys 2 (Memory false 100 50 0 true true 1000).
Lemma no_limit_ok : view_ok no_limit.
Proof. split; [apply _|done|done|done]. Qed.
Lemma short_view_ok : view_ok short_view.
Proof. split; [apply _|done|done|done]. Qed.
