(* ===== verification/RockJob.v ===== *)
(** * Waiting for RocksDB (src/src/rock.c, src/src/networking.c, src/src/multi.c)

    A command whose keys are in RocksDB waits: the client is put on the list of
    every such key in [rockKeys], and the keys are loaded one at a time through
    the single [rockJob] slot, by the rock thread.  When a key comes back
    its value is put into the database, and the clients that wait for nothing
    else run their command.

    Each function of rock.c is a function on the [server] state.  [processCommand] makes room first
    ([Room]).  Authentication, ACLs, cluster redirection, errors of persistence, read-only replicas,
    Pub/Sub, busy scripts, WATCH and replication are left out of it; the implementation of the commands is the parameter
    [cmd_prog], a program over the keyspace calls of [Prog]. *)

From S2P Require Import Prelude Util Robj Serdes Pool RocksApi Keyspace KeyspaceInv Prog Cmds Room.
From stdpp Require Import list gmap strings.
#[local] Open Scope Z_scope.

(** The order in which [dictNext] walks a table, as far as the code uses it:
    some key of a table that is not empty. *)
Class DictOrder := {
  dict_first : gmap bytes (list nat) → option bytes;
  dict_first_elem m k : dict_first m = Some k → is_Some (m !! k);
  dict_first_empty m : dict_first m = None → m = ∅
}.

Definition list_first (m : gmap bytes (list nat)) : option bytes := fst <$> head (map_to_list m).

#[export] Program Instance list_order : DictOrder := {| dict_first := list_first |}.
Next Obligation.
  intros m k. unfold list_first. destruct (map_to_list m) as [|[k' v] l] eqn:Hm; [done|].
  intros [= <-]. exists v. apply elem_of_map_to_list. rewrite Hm. apply list_elem_of_here.
Qed.
Next Obligation.
  intros m. unfold list_first. destruct (map_to_list m) as [|[k' v] l] eqn:Hm; [|done].
  intros _. by apply map_to_list_empty_iff.
Qed.

(** ** State *)

Record RockJob := Job {
  job_dbid : Z;
  workKey : option bytes;
  returnKey : option bytes;
  valInRock : option robj;
  alreadyFinishedByScript : bool
}.
Definition zeroJob : RockJob := Job (-1) None None None false.

Inductive reply :=
| RStatus (s : string) | RError (s : string) | RArrayLen (n : nat)
| RInt (v : Z) | RBulk (b : bytes) | RNull | RMany (l : list reply).

Abbreviation request := (redisCommand * list bytes)%type.

(** What the commands of a client can change of it. *)
Record session := Session {
  c_db : nat;
  c_multi : bool;                    (* CLIENT_MULTI *)
  c_dirty_exec : bool;               (* CLIENT_DIRTY_EXEC *)
  c_queue : list request;            (* mstate *)
  c_reply : list reply
}.

Record client := Client {
  sess : session;
  c_cmd : option request;            (* cmd, argv: the command being processed *)
  rockKeyNumber : nat;
  c_input : list (list bytes)        (* complete requests left in the query buffer *)
}.

(** What the commands of an event find outside of the databases, by the client and the number of
    its requests that are left: the random draws of the counters, and the memory. *)
Record world := World {
  w_draws : nat → nat → nat → bool;
  w_room : nat → nat → room_view
}.

Definition set_sess (x : session) (c : client) : client :=
  Client x (c_cmd c) (rockKeyNumber c) (c_input c).
Definition set_cmd (r : option request) (c : client) : client :=
  Client (sess c) r (rockKeyNumber c) (c_input c).
Definition set_number (n : nat) (c : client) : client :=
  Client (sess c) (c_cmd c) n (c_input c).
Definition set_input (l : list (list bytes)) (c : client) : client :=
  Client (sess c) (c_cmd c) (rockKeyNumber c) l.
Definition upd_sess (f : session → session) (c : client) : client := set_sess (f (sess c)) c.

Definition set_cdb (i : nat) (x : session) : session :=
  Session i (c_multi x) (c_dirty_exec x) (c_queue x) (c_reply x).
Definition set_multi (m dirty : bool) (q : list request) (x : session) : session :=
  Session (c_db x) m dirty q (c_reply x).
Definition addReply (r : reply) (x : session) : session :=
  Session (c_db x) (c_multi x) (c_dirty_exec x) (c_queue x) (c_reply x ++ [r]).

Section server.
Context {R : RocksDB} {DO : DictOrder}.
Variable cmd_prog : server_cfg → redisCommand → list bytes → prog reply.

Record server := Server {
  ks : keyspace R;
  rockJob : RockJob;
  clients : gmap nat client;
  rockPool : pool;                   (* RockPoolLRU *)
  next_db : Z                        (* the static variable of dumpValueToRockIfNeeded *)
}.
Implicit Types (s : server) (key : bytes) (cid : nat).

Definition set_ks (k : keyspace R) s : server := Server k (rockJob s) (clients s) (rockPool s) (next_db s).
Definition set_job (j : RockJob) s : server := Server (ks s) j (clients s) (rockPool s) (next_db s).
Definition set_clients (m : gmap nat client) s : server := Server (ks s) (rockJob s) m (rockPool s) (next_db s).
Definition room_state s : dump_state R := DumpState (ks s) (rockPool s) (next_db s).
Definition set_room (d : dump_state R) s : server := Server (d_ks d) (rockJob s) (clients s) (d_pool d) (d_next d).
Definition upd_client cid (f : client → client) s : server := set_clients (alter f cid (clients s)) s.

Definition get_client cid s : res client := res_of_option (clients s !! cid) "no such client".

(** ** The job slot *)

Fixpoint hasMore_from (i : nat) (l : list redisDb) : option (nat * bytes) :=
  match l with
  | [] => None
  | d :: l' =>
      match dict_first (rockKeys d) with
      | Some key => Some (i, key)
      | None => hasMore_from (S i) l'
      end
  end.
Definition _hasMoreRockJob s : option (nat * bytes) := hasMore_from 0 (dbs (ks s)).

Definition initZeroRockJob s : server := set_job zeroJob s.

Definition _isZeroRockJobState s : res bool :=
  let j := rockJob s in
  if job_dbid j =? -1 then
    serverAssert (bool_decide (returnKey j = None ∧ workKey j = None)) "zero job" ;; mret true
  else
    match workKey j with
    | None => serverAssert (bool_decide (returnKey j ≠ None)) "returnKey != NULL" ;; mret false
    | Some _ => serverAssert (bool_decide (returnKey j = None)) "returnKey == NULL" ;; mret false
    end.

(** [valInRock] and [alreadyFinishedByScript] keep what they hold. *)
Definition _createNewJob (dbid : nat) key s : res server :=
  serverAssert (dbid <? length (dbs (ks s)))%nat "dbid" ;;
  serverAssert (bool_decide (workKey (rockJob s) = None)) "workKey == NULL" ;;
  mret (set_job (Job (Z.of_nat dbid) (Some key) None (valInRock (rockJob s))
                   (alreadyFinishedByScript (rockJob s))) s).

(** The rock thread's view of the slot: a key to work on, if any. *)
Definition _getRockWork s : res (option (Z * bytes)) :=
  let j := rockJob s in
  serverAssert (bool_decide (¬ (workKey j ≠ None ∧ returnKey j ≠ None))) "work and return" ;;
  match returnKey j with
  | Some _ => mret None
  | None => mret ((fun k => (job_dbid j, k)) <$> workKey j)
  end.

(** ** Putting a client on the lists *)

Definition add_waiter cid key (m : gmap bytes (list nat)) : gmap bytes (list nat) :=
  <[key := default [] (m !! key) ++ [cid]]> m.

(** Step 2 of [checkCallValueInRock]. *)
Definition add_waits cid (i : nat) (keys : list bytes) (k : keyspace R) : keyspace R :=
  foldl (fun k key => upd_db i (fun d => set_rockKeys (add_waiter cid key (rockKeys d)) d) k) k keys.

Definition in_rock_at s (i : nat) key : bool := is_in_rock (dict_at (ks s) i key).

Definition checkCallValueInRock cid s : res server :=
  c ← get_client cid s;
  serverAssert (rockKeyNumber c =? 0)%nat "c->rockKeyNumber == 0" ;;
  r ← res_of_option (c_cmd c) "c->cmd";
  let i := c_db (sess c) in
  '(keys, nerr) ← (if c_multi (sess c)
                   then checkRockForMultiCmd (in_rock_at s i) r.2 (c_queue (sess c))
                   else checkRockForSingleCmd (in_rock_at s i) r.1 r.2);
  let s := upd_client cid (upd_sess (fun x => Nat.iter nerr
             (addReply (RError "value is not an integer or out of range")) x)) s in
  let s := upd_client cid (set_number (length keys)) s in
  let s := set_ks (add_waits cid i keys (ks s)) s in
  if (length keys =? 0)%nat then Ok s
  else
    zero ← _isZeroRockJobState s;
    match zero with
    | true =>
        '(i, key) ← res_of_option (_hasMoreRockJob s) "_hasMoreRockJob";
        _createNewJob i key s
    | false => Ok s
    end.

(** ** Running a command *)

(** [lookupCommand]: names are compared without case. *)
Definition lookupCommand (name : bytes) : option redisCommand :=
  find (fun cmd => bool_decide (tolower <$> name = String.list_byte_of_string (cmd_name cmd)))
    redisCommandTable.

Definition is_cmd (n : string) (r : request) : bool := String.eqb (cmd_name r.1) n.

(** [call] of a command that is not part of the MULTI machinery: SELECT, or the
    command's program. *)
Definition call_plain (g : server_cfg) (draws : nat → bool) (r : request) (x : session)
    (k : keyspace R) : res (session * keyspace R) :=
  if is_cmd "select" r then
    match r.2 !! 1%nat ≫= string2ll with
    | None => Ok (addReply (RError "invalid DB index") x, k)
    | Some id =>
        if (id <? 0) || (Z.of_nat (length (dbs k)) <=? id)
        then Ok (addReply (RError "DB index is out of range") x, k)
        else Ok (addReply (RStatus "OK") (set_cdb (Z.to_nat id) x), k)
    end
  else
    '(y, k) ← run g draws (c_db x) (cmd_prog g r.1 r.2) k;
    mret (addReply y x, k).

Fixpoint exec_queue (g : server_cfg) (draws : nat → bool) (q : list request) (x : session)
    (k : keyspace R) : res (session * keyspace R) :=
  match q with
  | [] => Ok (x, k)
  | r :: q' =>
      '(x, k) ← call_plain g draws r x k;
      exec_queue g draws q' x k
  end.

Definition discardTransaction (x : session) : session := set_multi false false [] x.

Definition execCommand (g : server_cfg) (draws : nat → bool) (x : session) (k : keyspace R)
  : res (session * keyspace R) :=
  if negb (c_multi x) then Ok (addReply (RError "EXEC without MULTI") x, k)
  else if c_dirty_exec x then Ok (discardTransaction (addReply (RError "EXECABORT") x), k)
  else
    let x := addReply (RArrayLen (length (c_queue x))) x in
    '(x, k) ← exec_queue g draws (c_queue x) x k;
    mret (discardTransaction x, k).

Definition call_session (g : server_cfg) (draws : nat → bool) (r : request) (x : session)
    (k : keyspace R) : res (session * keyspace R) :=
  if is_cmd "multi" r then
    if c_multi x then Ok (addReply (RError "MULTI calls can not be nested") x, k)
    else Ok (addReply (RStatus "OK") (set_multi true (c_dirty_exec x) (c_queue x) x), k)
  else if is_cmd "discard" r then
    if negb (c_multi x) then Ok (addReply (RError "DISCARD without MULTI") x, k)
    else Ok (addReply (RStatus "OK") (discardTransaction x), k)
  else if is_cmd "exec" r then execCommand g draws x k
  else call_plain g draws r x k.

Definition call (g : server_cfg) (draws : nat → bool) cid s : res server :=
  c ← get_client cid s;
  r ← res_of_option (c_cmd c) "c->cmd";
  '(x, k) ← call_session g draws r (sess c) (ks s);
  mret (upd_client cid (set_sess x) (set_ks k s)).

Definition queueMultiCommand (r : request) (x : session) : session :=
  set_multi (c_multi x) (c_dirty_exec x) (c_queue x ++ [r]) x.
Definition flagTransaction (x : session) : session :=
  if c_multi x then set_multi true true (c_queue x) x else x.

Definition in_multi_proc (r : request) : bool :=
  is_cmd "exec" r || is_cmd "discard" r || is_cmd "multi" r || is_cmd "watch" r.

(** The part of [processCommand] that decides what a request asks for: an error
    reply, a place in the MULTI queue, or a command to run now. *)
Inductive dispatch := DReply (f : session → session) | DRun (r : request).
Definition dispatch_request (x : session) (argv : list bytes) : dispatch :=
  match head argv ≫= lookupCommand with
  | None => DReply (fun x => addReply (RError "unknown command") (flagTransaction x))
  | Some cmd =>
      if negb (arity_ok cmd (Z.of_nat (length argv))) then
        DReply (fun x => addReply (RError "wrong number of arguments") (flagTransaction x))
      else if c_multi x && negb (in_multi_proc (cmd, argv)) then
        DReply (fun x => addReply (RStatus "QUEUED") (queueMultiCommand (cmd, argv) x))
      else DRun (cmd, argv)
  end.

(** A command of the table with the right number of arguments. *)
Definition known_request (argv : list bytes) : bool :=
  match head argv ≫= lookupCommand with Some cmd => arity_ok cmd (Z.of_nat (length argv)) | None => false end.

(** The requests that are not accepted when memory is out, and what is done with them. *)
Definition oom_denied (x : session) (argv : list bytes) : bool :=
  match head argv ≫= lookupCommand with
  | None => false
  | Some cmd =>
      arity_ok cmd (Z.of_nat (length argv)) &&
      (denyoom cmd || (c_multi x && negb (is_cmd "exec" (cmd, argv)) && negb (is_cmd "discard" (cmd, argv))))
  end.
Definition oom_reply (x : session) : session :=
  addReply (RError "OOM command not allowed when used memory > 'maxmemory'.") (flagTransaction x).

Definition draws_of (w : world) cid (c : client) : nat → bool := w_draws w cid (length (c_input c)).
Definition room_of (w : world) cid (c : client) : room_view := w_room w cid (length (c_input c)).

Definition make_room (g : server_cfg) (w : world) cid s : res (bool * server) :=
  c ← get_client cid s;
  '(oom, d) ← out_of_memory (room_of w cid c) (cfg_env g) (room_state s);
  mret (oom, set_room d s).

(** [processCommand] on a request that has been parsed into [argv]. *)
Definition processCommand (g : server_cfg) (w : world) cid (argv : list bytes) s
  : res server :=
  c ← get_client cid s;
  '(oom, s) ← (if known_request argv then make_room g w cid s else Ok (false, s));
  if oom && oom_denied (sess c) argv then Ok (upd_client cid (upd_sess oom_reply) s)
  else
    match dispatch_request (sess c) argv with
    | DReply f => Ok (upd_client cid (upd_sess f) s)
    | DRun r =>
        s ← checkCallValueInRock cid (upd_client cid (set_cmd (Some r)) s);
        c ← get_client cid s;
        match rockKeyNumber c with
        | O => call g (draws_of w cid c) cid s
        | S _ => Ok s
        end
    end.

(** [processInputBuffer]: as long as there is a request and the client does not
    wait for RocksDB.  [resetClient] forgets the command that was processed.
    Each turn takes one request out of the buffer, so the number of requests is
    enough fuel. *)
Fixpoint processInput (fuel : nat) (g : server_cfg) (w : world) cid s : res server :=
  match fuel with
  | O => Ok s
  | S fuel' =>
      c ← get_client cid s;
      match c_input c, rockKeyNumber c with
      | [], _ | _, S _ => Ok s
      | argv :: rest, O =>
          let s := upd_client cid (set_input rest) s in
          s ← match argv with
              | [] => Ok s
              | _ :: _ => processCommand g w cid argv s
              end;
          c ← get_client cid s;
          match rockKeyNumber c with
          | S _ => Ok s
          | O => processInput fuel' g w cid (upd_client cid (set_cmd None) s)
          end
      end
  end.
Definition processInputBuffer (g : server_cfg) (w : world) cid s : res server :=
  c ← get_client cid s;
  processInput (length (c_input c)) g w cid s.

(** ** Resuming *)

Definition _resumeRockClient (g : server_cfg) (w : world) cid s : res server :=
  c ← get_client cid s;
  s ← call g (draws_of w cid c) cid s;
  processInputBuffer g w cid (upd_client cid (set_cmd None) s).

Definition checkThenResumeRockClient (g : server_cfg) (w : world) cid s : res server :=
  c ← get_client cid s;
  serverAssert (rockKeyNumber c =? 0)%nat "c->rockKeyNumber == 0" ;;
  s ← checkCallValueInRock cid s;
  c ← get_client cid s;
  match rockKeyNumber c with
  | O => _resumeRockClient g w cid s
  | S _ => Ok s
  end.

(** Step through the waiting clients of a key: count down, and collect the
    clients that wait for nothing else. *)
Fixpoint wake_clients (l : list nat) s : res (list nat * server) :=
  match l with
  | [] => Ok ([], s)
  | cid :: l' =>
      c ← get_client cid s;
      serverAssert (0 <? rockKeyNumber c)%nat "c->rockKeyNumber > 0" ;;
      let n := (rockKeyNumber c - 1)%nat in
      '(zero, s) ← wake_clients l' (upd_client cid (set_number n) s);
      mret (if (n =? 0)%nat then cid :: zero else zero, s)
  end.

Fixpoint resume_all (g : server_cfg) (w : world) (l : list nat) s : res server :=
  match l with
  | [] => Ok s
  | cid :: l' => s ← checkThenResumeRockClient g w cid s; resume_all g w l' s
  end.

Definition _clearFinishKey (g : server_cfg) (w : world) (dbid : nat) key (val : robj) s
  : res server :=
  k ← restore_in_db dbid key val (ks s);
  let s := set_ks k s in
  waiting ← res_of_option (rockKeys (get_db (ks s) dbid) !! key) "clients != NULL";
  '(zero, s) ← wake_clients waiting s;
  let s := set_ks (upd_db dbid (fun d => set_rockKeys (delete key (rockKeys d)) d) (ks s)) s in
  resume_all g w zero s.

(** The handler of the pipe, up to the final read of the signal byte. *)
Definition _rockPipeReadHandler (g : server_cfg) (w : world) s : res server :=
  let j := rockJob s in
  serverAssert (negb (job_dbid j =? -1)) "rockJob.dbid != -1" ;;
  serverAssert (bool_decide (workKey j = None)) "workKey == NULL" ;;
  finishKey ← res_of_option (returnKey j) "returnKey != NULL";
  val ← res_of_option (valInRock j) "valInRock != NULL";
  s ← (if alreadyFinishedByScript j then Ok s
       else _clearFinishKey g w (Z.to_nat (job_dbid j)) finishKey val s);
  match _hasMoreRockJob s with
  | Some (i, key) => _createNewJob i key s
  | None => Ok (initZeroRockJob s)
  end.

(** A freed client leaves every list; the lists themselves stay. *)
Definition releaseRockKeyWhenFreeClient cid (k : keyspace R) : keyspace R :=
  set_dbs ((fun d => set_rockKeys (filter (fun x => x ≠ cid) <$> rockKeys d) d) <$> dbs k) k.
Definition freeClient cid s : server :=
  set_clients (delete cid (clients s)) (set_ks (releaseRockKeyWhenFreeClient cid (ks s)) s).

End server.
Arguments server R : clear implicits.
