(* ===== verification/HotFull.v ===== *)
(** * The commands and the hot keys

    Once the hot keys are on, every value in memory that may be dumped is among
    them ([hot_full]).  This is what [dumpValueToRockIfNeeded] relies on when it dumps a key it
    finds in the pool of candidates: the key has to be in [hotKeys] to be taken out.

    Shown here: no call of a command takes a value out of the hot keys that stays in memory.  [System]
    has the consequence for the states the server reaches. *)

From S2P Require Import Prelude Util Robj Serdes RocksApi Keyspace KeyspaceInv HotKeys Prog Cmds RockJob.
From stdpp Require Import list gmap strings.
#[local] Open Scope Z_scope.

(** ** The calls of commands *)

Section calls.
Context {R : RocksDB}.
Implicit Types (s : keyspace R) (key : bytes).



Lemma hot_full_touched s s' : touched s s' → hot_full s → hot_full s'.
Proof.
  intros Ht. apply hot_full_frame; [apply Ht|]. intros i key o _ Ho Hc. right.
  pose proof (to_dict _ _ Ht i key) as Hv. rewrite Ho in Hv. inversion Hv as [[|o0] ? He E1 E2|]; subst; [done|].
  destruct He as [He Hr]. exists o0. split; [done|]. split; [|by rewrite (to_hot _ _ Ht)].
  unfold content_of in He. injection He as Hty _ _. simpl in *. by rewrite Hty, Hr.
Qed.

Lemma addHot_keep i key v s j k :
  k ∈ hotKeys (get_db s j) → (j, k) ≠ (i, key) → k ∈ hotKeys (get_db (addHotKeyIfNeed i key v s) j).
Proof.
  intros Hk Hne. unfold addHotKeyIfNeed. repeat case_match; try done;
    rewrite hot_upd; (destruct (decide (j = i ∧ _)) as [[-> _]|]; [|done]);
    assert (k ≠ key) by congruence; simpl; set_solver.
Qed.
Lemma delHot_keep i key s j k :
  k ∈ hotKeys (get_db s j) → (j, k) ≠ (i, key) → k ∈ hotKeys (get_db (deleteHotKeyIfNeed i key s) j).
Proof.
  intros Hk Hne. unfold deleteHotKeyIfNeed. case_match; [done|].
  rewrite hot_upd; case_decide as Hd; [|done]. destruct Hd as [-> _].
  assert (k ≠ key) by congruence. simpl. set_solver.
Qed.

Lemma upd_db_out i f s j : ¬ (i < length (dbs s))%nat → get_db (upd_db i f s) j = get_db s j.
Proof. intros Hi. rewrite get_db_upd, decide_False; [done|]. tauto. Qed.

Lemma hot_full_put i key o s : hot_full s → hot_full (put_obj i key o s).
Proof.
  destruct (decide (i < length (dbs s))%nat) as [Hi|Hi].
  2:{ apply hot_full_same; unfold put_obj.
      - by rewrite (sd_init _ _ (same_data_addHot _ _ _ _)).
      - intros j k. rewrite (sd_dict _ _ (same_data_addHot _ _ _ _)). unfold dict_at. by rewrite upd_db_out.
      - intros j. unfold addHotKeyIfNeed. repeat case_match; rewrite ?upd_db_out; rewrite ?length_upd; done. }
  pose proof (put_obj_writes i key o s Hi) as Hw. apply hot_full_frame; [apply Hw|].
  intros j k o' Hinit. rewrite (wr_dict _ _ _ _ _ Hw). case_decide as He.
  - injection He as -> ->. intros [= <-] Hc. left. unfold put_obj.
    rewrite addHot_hot, Hc by (rewrite ?length_upd; done). set_solver.
  - intros Hd Hc. right. exists o'. split_and!; [done..|]. intros Hk. apply addHot_keep; [|done].
    by rewrite hot_upd_other.
Qed.

Lemma hot_full_delete i key s s' :
  writes i key None s s' →
  (∀ j k, k ∈ hotKeys (get_db s j) → (j, k) ≠ (i, key) → k ∈ hotKeys (get_db s' j)) →
  hot_full s → hot_full s'.
Proof.
  intros Hw Hk. apply hot_full_frame; [apply Hw|]. intros j k o' _. rewrite (wr_dict _ _ _ _ _ Hw).
  case_decide as He; [done|]. intros Hd Hc. right. exists o'. split_and!; [done..|]. intros Hin. by apply Hk.
Qed.

Lemma hot_full_async i key s : hot_full s → hot_full (dbAsyncDelete i key s).2.
Proof.
  destruct (dbAsyncDelete i key s) as [b s'] eqn:Hd. apply dbAsyncDelete_spec in Hd as (_ & Hw & _ & Hh).
  apply (hot_full_delete i key); [done|]. intros j k Hk _. by rewrite Hh.
Qed.
Lemma syncDelete_keep i key s j k :
  k ∈ hotKeys (get_db s j) → (j, k) ≠ (i, key) → k ∈ hotKeys (get_db (dbSyncDelete i key s).2 j).
Proof.
  intros Hk Hne. unfold dbSyncDelete. cbn [snd]. rewrite hot_upd_other by done.
  apply delHot_keep; [|done]. by rewrite hot_upd_other.
Qed.
Lemma hot_full_sync i key s : hot_full s → hot_full (dbSyncDelete i key s).2.
Proof.
  pose proof (syncDelete_keep i key s) as Hk.
  destruct (dbSyncDelete i key s) as [b s'] eqn:Hd. apply dbSyncDelete_spec in Hd as (_ & Hw & _).
  by apply (hot_full_delete i key).
Qed.
Lemma hot_full_dbDelete c i key s : hot_full s → hot_full (dbDelete c i key s).2.
Proof.
  pose proof (same_data_delHot i key s) as Hsd. pose proof (delHot_keep i key s) as Hk. unfold dbDelete.
  pose proof (syncDelete_keep i key (deleteHotKeyIfNeed i key s)) as Hk'. destruct (lazyfree_lazy_server_del c).
  - destruct (dbAsyncDelete _ _ _) as [b s'] eqn:Hd. apply dbAsyncDelete_spec in Hd as (_ & Hw & _ & Hh).
    apply (hot_full_delete i key s); [by eapply writes_same_data_l|]. intros. rewrite Hh. by apply Hk.
  - destruct (dbSyncDelete _ _ _) as [b s'] eqn:Hd. apply dbSyncDelete_spec in Hd as (_ & Hw & _).
    apply (hot_full_delete i key s); [by eapply writes_same_data_l|]. intros. apply Hk'; [by apply Hk|done].
Qed.

Lemma hot_full_expires i f s : hot_full s → hot_full (upd_db i (fun d => set_expires (f d) d) s).
Proof.
  apply hot_full_same; [done|..]; intros; [by apply dict_at_upd_other|by apply hot_upd_other].
Qed.

Lemma hot_full_expire c i key s b s' : expireIfNeeded c i key s = Ok (b, s') → hot_full s → hot_full s'.
Proof.
  unfold expireIfNeeded. intros H Hf. apply bind_Ok in H as (exp & _ & H). injection H as H.
  destruct (negb exp); [by injection H as <- <-|]. destruct (masterhost c); [by injection H as <- <-|].
  destruct (lazyfree_lazy_expire c).
  - pose proof (hot_full_async i key s Hf) as Hd. by rewrite H in Hd.
  - pose proof (hot_full_sync i key s Hf) as Hd. by rewrite H in Hd.
Qed.

Lemma hot_full_lookupKey c draw notouch i key s v s' :
  lookupKey c draw notouch i key s = (v, s') → hot_full s → hot_full s'.
Proof.
  unfold lookupKey. destruct (dict_at s i key) as [[|o]|] eqn:Hd.
  - destruct (negb _ && negb _); intros [= <- <-] Hf; [|done]. by apply (hot_full_same s).
  - destruct (negb _ && negb _); intros [= <- <-] Hf; [|done].
    pose proof (dict_at_valid _ _ _ _ Hd) as Hi. apply (hot_full_frame s); [done| |done].
    intros j k o' _. rewrite dict_at_insert by done. case_decide as He.
    + injection He as -> ->. intros [= <-] Hc. right. exists o. by rewrite hot_upd_other.
    + intros Hd' Hc. right. exists o'. by rewrite hot_upd_other.
  - by intros [= <- <-].
Qed.

Lemma hot_full_lookupRead c draw notouch i key s v s' :
  lookupKeyReadWithFlags c draw notouch i key s = Ok (v, s') → hot_full s → hot_full s'.
Proof.
  unfold lookupKeyReadWithFlags. intros H Hf. apply bind_Ok in H as ([exp s1] & He & H). injection H as H.
  apply hot_full_expire in He; [|done].
  destruct (exp && negb (masterhost c)); [by injection H as <- <-|].
  destruct (exp && readonly_cmd c); [by injection H as <- <-|]. by eapply hot_full_lookupKey.
Qed.
Lemma hot_full_lookupWrite c draw notouch i key s v s' :
  lookupKeyWriteWithFlags c draw notouch i key s = Ok (v, s') → hot_full s → hot_full s'.
Proof.
  unfold lookupKeyWriteWithFlags. intros H Hf. apply bind_Ok in H as ([exp s1] & He & H). injection H as H.
  apply hot_full_expire in He; [|done]. by eapply hot_full_lookupKey.
Qed.

Lemma hot_full_add i key o s s' :
  dbAdd i key o s = Ok s' → hot_full s → hot_full s'.
Proof. unfold dbAdd. intros H Hf. inv_res. by apply (hot_full_put i key o s). Qed.
Lemma hot_full_overwrite c i key o s s' : dbOverwrite c i key o s = Ok s' → hot_full s → hot_full s'.
Proof.
  unfold dbOverwrite. intros H Hf. inv_res. by apply (hot_full_put i key _ s).
Qed.
Lemma hot_full_mutate i key t enc ptr s s' : mutateValue i key t enc ptr s = Ok s' → hot_full s → hot_full s'.
Proof.
  unfold mutateValue. destruct (dict_at s i key) as [[|o]|] eqn:Hd; try done. intros H Hf. inv_res.
  pose proof (dict_at_valid _ _ _ _ Hd) as Hi. apply bool_decide_eq_true in H0.
  apply (hot_full_frame s); [done| |done]. intros j k o' _. rewrite dict_at_insert by done. case_decide as He.
  - injection He as -> ->. intros [= <-] Hc. right. exists o. rewrite hot_upd_other by done. by subst t.
  - intros Hd' Hc. right. exists o'. by rewrite hot_upd_other.
Qed.

Lemma hot_full_setKey c draw i key o keepttl s s' :
  genericSetKey c draw i key o keepttl s = Ok s' → hot_full s → hot_full s'.
Proof.
  unfold genericSetKey. intros H Hf. apply bind_Ok in H as ([v s1] & Hl & H).
  apply hot_full_lookupWrite in Hl; [|done].
  apply bind_Ok in H as (s2 & Hs & H).
  assert (hot_full s2) as Hf2.
  { destruct v; [by eapply hot_full_overwrite|by eapply hot_full_add]. }
  destruct keepttl; [by injection H as <-|]. unfold removeExpire in H. inv_res. by apply hot_full_expires.
Qed.

Lemma hot_full_exec c draw i {A} (k : kcall A) s b s' :
  exec c draw i k s = Ok (b, s') → hot_full s → hot_full s'.
Proof.
  intros H Hf. destruct k; cbn [exec] in H.
  1,2,3,4: apply bind_Ok in H as ([v s1] & Hl & H); injection H as <- <-;
    first [by eapply hot_full_lookupRead|by eapply hot_full_lookupWrite].
  - by eapply hot_full_expire.
  - inv_res. by eapply hot_full_add.
  - inv_res. by eapply hot_full_overwrite.
  - inv_res. by eapply hot_full_setKey.
  - assert (dbDelete c i key s = (b, s')) as Hd by congruence. pose proof (hot_full_dbDelete c i key s Hf) as Hd'. by rewrite Hd in Hd'.
  - assert (dbSyncDelete i key s = (b, s')) as Hd by congruence. pose proof (hot_full_sync i key s Hf) as Hd'. by rewrite Hd in Hd'.
  - assert (dbAsyncDelete i key s = (b, s')) as Hd by congruence. pose proof (hot_full_async i key s Hf) as Hd'. by rewrite Hd in Hd'.
  - inv_res. done.
  - unfold setExpire in H. inv_res. by apply hot_full_expires.
  - unfold removeExpire in H. inv_res. by apply hot_full_expires.
  - destruct new as [[t enc] ptr]. inv_res. by eapply hot_full_mutate.
  - inv_res. unfold dbUnshareStringValue in H0. destruct (dict_at s i key) as [[|o]|]; [by eapply hot_full_overwrite| |done]. inv_res.
    destruct (_ || _); [by eapply hot_full_overwrite|by injection H0 as <-].
  - inv_res. unfold storeInteger in H0. destruct (dict_at s i key) as [[|o]|]; [by eapply hot_full_overwrite| |done].
    destruct (_ && _); [by eapply hot_full_mutate|by eapply hot_full_overwrite].
Qed.


End calls.

(** ** Through the functions of the server *)

Section through.
Context {R : RocksDB} {DO : DictOrder}.
Variable cmd_prog : server_cfg → redisCommand → list bytes → prog reply.
Implicit Types s : server R.

Lemma run_pres {A} c (p : prog A) : ∀ draws i (s : keyspace R) b (s' : keyspace R), run c draws i p s = Ok (b, s') → hot_full s → hot_full s'.
Proof.
  induction p as [x|m|B k f IH]; intros draws i s b s' H Hs; simpl in H; [by injection H as <- <-|done|].
  apply bind_Ok in H as ([b1 s1] & He & H). eapply IH; [exact H|]. by eapply hot_full_exec.
Qed.

Lemma call_plain_pres g draws r x k x' k' : call_plain cmd_prog g draws r x k = Ok (x', k') → hot_full k → hot_full k'.
Proof.
  unfold call_plain. intros H Hk. destruct (is_cmd "select" r).
  - destruct (r.2 !! 1%nat ≫= string2ll); [destruct (_ || _)|]; by injection H as <- <-.
  - apply bind_Ok in H as ([y k1] & Hr & H). injection H as <- <-. by eapply run_pres.
Qed.
Lemma exec_queue_pres g draws q : ∀ x k x' k', exec_queue cmd_prog g draws q x k = Ok (x', k') → hot_full k → hot_full k'.
Proof.
  induction q as [|r q IH]; intros x k x' k' H Hk; simpl in H; [by injection H as <- <-|].
  apply bind_Ok in H as ([x1 k1] & Hc & H). eapply IH; [exact H|]. by eapply call_plain_pres.
Qed.
Lemma call_session_pres g draws r x k x' k' : call_session cmd_prog g draws r x k = Ok (x', k') → hot_full k → hot_full k'.
Proof.
  unfold call_session. intros H Hk.
  destruct (is_cmd "multi" r); [destruct (c_multi x); by injection H as <- <-|].
  destruct (is_cmd "discard" r); [destruct (negb _); by injection H as <- <-|].
  destruct (is_cmd "exec" r); [|by eapply call_plain_pres]. unfold execCommand in H.
  destruct (negb _); [by injection H as <- <-|]. destruct (c_dirty_exec x); [by injection H as <- <-|].
  apply bind_Ok in H as ([x1 k1] & Hq & H). injection H as <- <-. by eapply exec_queue_pres.
Qed.
Lemma call_pres g draws cid s s' : call cmd_prog g draws cid s = Ok s' → hot_full (ks s) → hot_full (ks s').
Proof.
  unfold call. intros H Hs. inv_res. destruct a1 as [x k]. inv_res. by eapply call_session_pres.
Qed.
End through.
