(* ===== verification/Session.v ===== *)
(** * Commands against a plain server

    The same dispatch, MULTI queue and command programs over plain databases:
    a server that keeps everything in memory and never makes a client wait.
    [call_sim] shows that a command whose keys have been found in memory does
    the same on both. *)

From S2P Require Import Prelude Util Robj Serdes RocksApi Keyspace KeyspaceInv Prog Cmds RockJob.
From stdpp Require Import list gmap strings.
#[local] Open Scope Z_scope.

Definition aupd (a : nat → adb) (i : nat) (d : adb) : nat → adb :=
  fun j => if decide (j = i) then d else a j.

(** ** What commands may do *)

(** The keys the check function of a command looks at. *)
Definition checked_keys (r : request) : list bytes :=
  match checkRockForSingleCmd (fun _ => true) r.1 r.2 with Ok (l, _) => l | Abort _ => [] end.

(** The requests the theorems are about.  Left out are the check functions that
    take part of their arguments from the client and not from the command, and
    UNLINK, which deletes keys without telling the hot keys. *)
Definition covered (r : request) : bool :=
  match checkRockProc r.1 with Some ForZstore | Some ForMigrate => false | _ => true end &&
  negb (is_cmd "unlink" r).

(** A request that has passed the arity test. *)
Definition request_ok (r : request) : Prop :=
  r.1 ∈ redisCommandTable ∧ covered r = true ∧ arity_ok r.1 (Z.of_nat (length r.2)) = true.

(** The commands, as far as RedRock relies on them: a command reads or changes
    in place only the values of the keys its check function looks at. *)
Class CommandSpec (cmd_prog : server_cfg → redisCommand → list bytes → prog reply) : Prop :=
  cmd_prog_ok g r : wf_env (cfg_env g) → request_ok r →
    prog_ok (checked_keys r) (cmd_prog g r.1 r.2).

(** None of them but UNLINK deletes keys behind the back of the hot keys. *)
Class CommandSync (cmd_prog : server_cfg → redisCommand → list bytes → prog reply) : Prop :=
  cmd_prog_sync g r : lazyfree_lazy_expire g = false → covered r = true → prog_sync (cmd_prog g r.1 r.2).

(** None of them runs into an assertion on a plain server. *)
Class CommandTotal (cmd_prog : server_cfg → redisCommand → list bytes → prog reply) : Prop :=
  cmd_prog_total g r d : wf_env (cfg_env g) → adb_ok d → ∃ y d', arun g (cmd_prog g r.1 r.2) d = Some (y, d') ∧ adb_ok d'.

(** ** What the checks find *)

Definition entry_arity (cmd : redisCommand) : bool :=
  match checkRockProc cmd with
  | Some ExcludeLastArg => 3 <=? Z.abs (arity cmd)
  | Some _ => 2 <=? Z.abs (arity cmd)
  | None => true
  end.
Lemma table_arity : forallb entry_arity redisCommandTable = true.
Proof. vm_compute. reflexivity. Qed.

Lemma rock_keys_all l : rock_keys (fun _ => true) l = l.
Proof. unfold rock_keys. induction l as [|x l IH]; [done|]. rewrite filter_cons. simpl. by rewrite IH. Qed.

Lemma run_check_own in_rock r p c_argv :
  request_ok r → checkRockProc r.1 = Some p →
  run_check in_rock p c_argv r.2 = Ok (rock_keys in_rock (checked_keys r), 0%nat).
Proof.
  intros (Ht & Ho & Ha) Hp.
  pose proof (proj1 (forallb_forall _ _) table_arity _ (proj1 (list_elem_of_In _ _) Ht)) as He.
  apply arity_min in Ha as [Ha _]; [|lia].
  unfold covered in Ho. apply andb_true_iff in Ho as [Ho _]. unfold checked_keys, checkRockForSingleCmd. rewrite Hp in Ho |- *.
  unfold entry_arity in He. rewrite Hp in He. destruct p; try done; apply Z.leb_le in He; simpl.
  - unfold cmdCheckRockForOneKey. destruct (lookup_lt_is_Some_2 r.2 1) as [key Hk]; [lia|].
    rewrite Hk. simpl. by rewrite rock_keys_all.
  - unfold cmdCheckRockExcludeLastArg. rewrite (proj2 (Nat.ltb_lt _ _)) by lia. simpl. by rewrite rock_keys_all.
  - unfold cmdCheckRockForAllKeys. rewrite (proj2 (Nat.leb_le _ _)) by lia. simpl. by rewrite rock_keys_all.
  - unfold cmdCheckRockExcludeFirstArg. rewrite (proj2 (Nat.leb_le _ _)) by lia. simpl. by rewrite rock_keys_all.
Qed.

Lemma check_single in_rock r :
  request_ok r →
  checkRockForSingleCmd in_rock r.1 r.2 = Ok (rock_keys in_rock (checked_keys r), 0%nat).
Proof.
  intros Hr. unfold checkRockForSingleCmd. destruct (checkRockProc r.1) as [p|] eqn:Hp.
  - by apply run_check_own.
  - unfold checked_keys, checkRockForSingleCmd. by rewrite Hp.
Qed.

Lemma check_multi in_rock c_argv q :
  Forall request_ok q →
  checkRockForMultiCmd in_rock c_argv q = Ok (rock_keys in_rock (q ≫= checked_keys), 0%nat).
Proof.
  induction 1 as [|[cmd argv] q Hr Hq IH]; [done|]. simpl. rewrite IH.
  assert (match checkRockProc cmd with None => Ok ([], 0%nat) | Some p => run_check in_rock p c_argv argv end
          = Ok (rock_keys in_rock (checked_keys (cmd, argv)), 0%nat)) as ->.
  { destruct (checkRockProc cmd) as [p|] eqn:Hp; [by apply (run_check_own in_rock (cmd, argv))|].
    unfold checked_keys, checkRockForSingleCmd. simpl. by rewrite Hp. }
  simpl. unfold rock_keys. by rewrite filter_app.
Qed.

(** ** The plain server *)

Section plain.
Variable cmd_prog : server_cfg → redisCommand → list bytes → prog reply.
Variable dbnum : nat.

Definition acall_plain (g : server_cfg) (r : request) (x : session) (a : nat → adb)
  : option (session * (nat → adb)) :=
  if is_cmd "select" r then
    match r.2 !! 1%nat ≫= string2ll with
    | None => Some (addReply (RError "invalid DB index") x, a)
    | Some id =>
        if (id <? 0) || (Z.of_nat dbnum <=? id)
        then Some (addReply (RError "DB index is out of range") x, a)
        else Some (addReply (RStatus "OK") (set_cdb (Z.to_nat id) x), a)
    end
  else
    '(y, d) ← arun g (cmd_prog g r.1 r.2) (a (c_db x));
    Some (addReply y x, aupd a (c_db x) d).

Fixpoint aexec_queue (g : server_cfg) (q : list request) (x : session) (a : nat → adb)
  : option (session * (nat → adb)) :=
  match q with
  | [] => Some (x, a)
  | r :: q' => '(x, a) ← acall_plain g r x a; aexec_queue g q' x a
  end.

Definition acall_session (g : server_cfg) (r : request) (x : session) (a : nat → adb)
  : option (session * (nat → adb)) :=
  if is_cmd "multi" r then
    if c_multi x then Some (addReply (RError "MULTI calls can not be nested") x, a)
    else Some (addReply (RStatus "OK") (set_multi true (c_dirty_exec x) (c_queue x) x), a)
  else if is_cmd "discard" r then
    if negb (c_multi x) then Some (addReply (RError "DISCARD without MULTI") x, a)
    else Some (addReply (RStatus "OK") (discardTransaction x), a)
  else if is_cmd "exec" r then
    if negb (c_multi x) then Some (addReply (RError "EXEC without MULTI") x, a)
    else if c_dirty_exec x then Some (discardTransaction (addReply (RError "EXECABORT") x), a)
    else
      '(x, a) ← aexec_queue g (c_queue x) (addReply (RArrayLen (length (c_queue x))) x) a;
      Some (discardTransaction x, a)
  else acall_plain g r x a.

(** One request of a client, from its arrival to its reply. *)
Definition aprocess (g : server_cfg) (argv : list bytes) (x : session) (a : nat → adb)
  : option (session * (nat → adb)) :=
  match argv with
  | [] => Some (x, a)
  | _ :: _ =>
      match dispatch_request x argv with
      | DReply f => Some (f x, a)
      | DRun r => acall_session g r x a
      end
  end.
End plain.

(** ** Agreement *)

Section sim.
Context {R : RocksDB}.
Variable cmd_prog : server_cfg → redisCommand → list bytes → prog reply.
Context {CS : CommandSpec cmd_prog}.
Implicit Types (k : keyspace R) (a : nat → adb).

Definition simall k a : Prop := ∀ j, db_sim k j (a j).

Lemma simall_sim k a i : simall k a → sim k a i (a i).
Proof. intros H j. case_decide; [by subst|done]. Qed.
Lemma sim_simall k a i d : sim k a i d → simall k (aupd a i d).
Proof. intros H j. unfold aupd. specialize (H j). by case_decide. Qed.

(** No key the command looks at is in RocksDB. *)
Definition keys_in_memory k (i : nat) (r : request) : Prop :=
  ∀ key, key ∈ checked_keys r → dict_at k i key ≠ Some InRock.

Lemma keys_in_memory_moves k k' i r : moves k k' → keys_in_memory k i r → keys_in_memory k' i r.
Proof. intros Hm H key Hk Hr. apply (H key Hk). by apply Hm. Qed.


(** What a call that succeeds gives. *)
Definition call_post g k a (x' : session) k' (ra : option (session * (nat → adb))) : Prop :=
  ∃ a', ra = Some (x', a') ∧ simall k' a' ∧ ks_ok k' ∧ moves k k' ∧
    (CommandSync cmd_prog → lazyfree_lazy_expire g = false → hot_ok k → hot_ok k') ∧
    (c_db x' < length (dbs k'))%nat.

Lemma call_plain_sim g draws r x k a :
  wf_env (cfg_env g) → ks_ok k → simall k a → (c_db x < length (dbs k))%nat → request_ok r →
  keys_in_memory k (c_db x) r →
  match call_plain cmd_prog g draws r x k with
  | Ok (x', k') => call_post g k a x' k' (acall_plain cmd_prog (length (dbs k)) g r x a) ∧
                   (is_cmd "select" r = false → c_db x' = c_db x)
  | Abort _ => acall_plain cmd_prog (length (dbs k)) g r x a = None
  end.
Proof.
  intros Hg Hks Hs Hi Hr Hm. unfold call_plain, acall_plain.
  destruct (is_cmd "select" r).
  - destruct (r.2 !! 1%nat ≫= string2ll) as [id|].
    + destruct (Z.ltb_spec id 0); simpl; [|destruct (Z.leb_spec (Z.of_nat (length (dbs k))) id); simpl].
      1,2: by (split; [eexists; split_and!; eauto using moves_refl|done]).
      split; [|done]. eexists. split_and!; eauto using moves_refl. simpl. lia.
    + split; [|done]. eexists. split_and!; eauto using moves_refl.
  - pose proof (run_agrees g draws (c_db x) (checked_keys r) (cmd_prog g r.1 r.2) k a (a (c_db x))
      Hg Hks (simall_sim _ _ _ Hs) Hi (cmd_prog_ok g r Hg Hr) Hm) as H.
    destruct (run g draws (c_db x) (cmd_prog g r.1 r.2) k) as [[y k']|m]; simpl in *; [|by rewrite H].
    destruct H as (d' & -> & Hs' & Hks' & Hmv & Hh). simpl. split; [|done].
    eexists. split_and!; [done|by apply sim_simall|done|done| |].
    + intros Hcs Hl. apply Hh. split; [by apply Hcs, Hr|done].
    + by rewrite (mv_len _ _ Hmv).
Qed.

Lemma exec_queue_sim g draws q x k a :
  wf_env (cfg_env g) → ks_ok k → simall k a → (c_db x < length (dbs k))%nat →
  Forall request_ok q → Forall (fun r => is_cmd "select" r = false) q →
  Forall (keys_in_memory k (c_db x)) q →
  match exec_queue cmd_prog g draws q x k with
  | Ok (x', k') => call_post g k a x' k' (aexec_queue cmd_prog (length (dbs k)) g q x a)
  | Abort _ => aexec_queue cmd_prog (length (dbs k)) g q x a = None
  end.
Proof.
  intros Hg. revert x k a. induction q as [|r q IH]; intros x k a Hks Hs Hi Hq Hsel Hm; simpl.
  - eexists. split_and!; eauto using moves_refl.
  - apply Forall_cons in Hq as [Hr Hq]. apply Forall_cons in Hsel as [Hs1 Hsel].
    apply Forall_cons in Hm as [Hm1 Hm].
    pose proof (call_plain_sim g draws r x k a Hg Hks Hs Hi Hr Hm1) as H.
    destruct (call_plain cmd_prog g draws r x k) as [[x1 k1]|m]; simpl in *; [|by rewrite H].
    destruct H as [(a1 & -> & Hs2 & Hks1 & Hmv1 & Hh1 & Hi1) Hdb]. simpl.
    rewrite <- (mv_len _ _ Hmv1).
    specialize (IH x1 k1 a1 Hks1 Hs2 Hi1 Hq Hsel). rewrite (Hdb Hs1) in IH.
    assert (Forall (keys_in_memory k1 (c_db x)) q) as Hm2.
    { eapply Forall_impl; [exact Hm|]. intros r' Hr'. by eapply keys_in_memory_moves. }
    specialize (IH Hm2). destruct (exec_queue cmd_prog g draws q x1 k1) as [[x2 k2]|m]; [|done].
    destruct IH as (a2 & ? & ? & ? & ? & ? & ?). exists a2. split_and!; eauto using moves_trans.
Qed.

Lemma watch_checks_nothing r :
  r.1 ∈ redisCommandTable → is_cmd "watch" r = true → checked_keys r = [].
Proof.
  intros Hr Hw. unfold checked_keys, checkRockForSingleCmd.
  assert (forallb (fun cmd => negb (String.eqb (cmd_name cmd) "watch") ||
    match checkRockProc cmd with None => true | _ => false end) redisCommandTable = true) as H
    by (vm_compute; reflexivity).
  apply list_elem_of_In in Hr. pose proof (proj1 (forallb_forall _ _) H _ Hr) as H1.
  cbv beta in H1. unfold is_cmd in Hw. rewrite Hw in H1. by destruct (checkRockProc r.1).
Qed.

(** The keys of the command, or of the whole queue at EXEC. *)
Definition waits_for (x : session) (r : request) : list request :=
  if c_multi x then c_queue x else [r].

Lemma call_sim g draws r x k a :
  wf_env (cfg_env g) → ks_ok k → simall k a → (c_db x < length (dbs k))%nat →
  request_ok r → Forall request_ok (c_queue x) →
  Forall (fun r => is_cmd "select" r = false) (c_queue x) →
  (c_multi x = true → in_multi_proc r = true) →
  Forall (keys_in_memory k (c_db x)) (waits_for x r) →
  match call_session cmd_prog g draws r x k with
  | Ok (x', k') => call_post g k a x' k' (acall_session cmd_prog (length (dbs k)) g r x a)
  | Abort _ => acall_session cmd_prog (length (dbs k)) g r x a = None
  end.
Proof.
  intros Hg Hks Hs Hi Hr Hq Hsel Hmp Hm. unfold call_session, acall_session.
  assert (∀ y : session, c_db y = c_db x → call_post g k a y k (Some (y, a))) as Hid.
  { intros y Hy. eexists. split_and!; eauto using moves_refl. by rewrite Hy. }
  destruct (is_cmd "multi" r) eqn:H1; [by destruct (c_multi x); apply Hid|].
  destruct (is_cmd "discard" r) eqn:H2; [by destruct (c_multi x); apply Hid|].
  unfold waits_for in Hm. destruct (is_cmd "exec" r) eqn:H3.
  - unfold execCommand. destruct (c_multi x); simpl; [|by apply Hid].
    destruct (c_dirty_exec x); [by apply Hid|].
    pose proof (exec_queue_sim g draws (c_queue x) (addReply (RArrayLen (length (c_queue x))) x) k a
      Hg Hks Hs Hi Hq Hsel Hm) as H.
    destruct (exec_queue _ _ _ _ _ _) as [[x1 k1]|m]; simpl in *; [|by rewrite H].
    destruct H as (a1 & -> & ? & ? & ? & ? & ?). simpl. eexists. split_and!; eauto.
  - assert (keys_in_memory k (c_db x) r) as Hm'.
    { destruct (c_multi x); [|by rewrite Forall_singleton in Hm].
      pose proof (Hmp eq_refl) as Hp. unfold in_multi_proc in Hp. rewrite H1, H2, H3 in Hp.
      intros key. rewrite watch_checks_nothing; [set_solver|apply Hr|exact Hp]. }
    pose proof (call_plain_sim g draws r x k a Hg Hks Hs Hi Hr Hm') as H.
    destruct (call_plain _ _ _ _ _ _) as [[x1 k1]|m]; [|done]. apply H.
Qed.
End sim.
