(* ===== verification/CmdLogic.v ===== *)
(** * Reasoning about command programs

    Commands are written as chains of keyspace calls.  [tot] is what a command
    has to satisfy never to run into an assertion on well-formed data: the lemmas
    below follow a program call by call, and remember what its last call has
    told about the database. *)

From S2P Require Import Prelude Util Robj Serdes RocksApi Keyspace KeyspaceInv Prog Cmds RockJob.
From stdpp Require Import list gmap strings.
#[local] Open Scope Z_scope.

Declare Scope prog_scope.
Delimit Scope prog_scope with prog.
Notation "x ⇐ k ; p" := (Call k (fun x => p)) (at level 100, k at next level, right associativity,
  only parsing) : prog_scope.
Notation "k ;; p" := (Call k (fun _ => p)) (at level 100, right associativity, only parsing) : prog_scope.

(** [c->argv[n]->ptr]; the arity test has made sure that it exists. *)
Definition arg (argv : list bytes) (n : nat) : bytes := default [] (argv !! n).

(** [shared.wrongtypeerr] and the like. *)
Definition wrongtypeerr : reply := RError "WRONGTYPE".
Definition syntaxerr : reply := RError "syntax error".
Definition shared_ok : reply := RStatus "OK".
Definition czero : reply := RInt 0.
Definition cone : reply := RInt 1.

(** ** Calls keep the data well formed *)

Lemma a_del_ok key d : adb_ok d → adb_ok (a_del key d).
Proof.
  intros [He Hv]. split; simpl.
  - intros k [w [Hne Hw]%lookup_delete_Some]. rewrite lookup_delete_ne by done. eauto.
  - intros k t enc ptr [_ H]%lookup_delete_Some. eauto.
Qed.

Lemma a_put_ok key t enc ptr d :
  t = OBJ_STREAM ∨ wf_payload t enc ptr → adb_ok d → adb_ok (a_put key (t, enc, ptr) d).
Proof.
  intros Hwf [He Hv]. split; simpl.
  - intros k Hk. destruct (decide (k = key)) as [->|]; [by rewrite lookup_insert_eq|].
    rewrite lookup_insert_ne by done. eauto.
  - intros k t' enc' ptr'. destruct (decide (k = key)) as [->|].
    + rewrite lookup_insert_eq. by intros [= <- <- <-].
    + rewrite lookup_insert_ne by done. eauto.
Qed.

Lemma a_put_obj_ok key o d : val_ok o → adb_ok d → adb_ok (a_put key (content_of o) d).
Proof. intros [_ Hv]. by apply a_put_ok. Qed.

Lemma adb_ok_expires d e :
  adb_ok d → (∀ key, is_Some (e !! key) → is_Some (a_dict d !! key)) → adb_ok (Adb (a_dict d) e).
Proof. intros [_ Hv] He. by split. Qed.

Lemma adb_ok_persist key d : adb_ok d → adb_ok (Adb (a_dict d) (delete key (a_expires d))).
Proof.
  intros Hd. apply adb_ok_expires; [done|]. intros k [w [_ Hw]%lookup_delete_Some].
  apply (adb_exp _ Hd). eauto.
Qed.

Lemma a_has_true key d : a_has key d = true ↔ is_Some (a_dict d !! key).
Proof. unfold a_has. rewrite bool_decide_eq_true. apply not_eq_None_Some. Qed.
Lemma a_has_false key d : a_has key d = false ↔ a_dict d !! key = None.
Proof. unfold a_has. rewrite bool_decide_eq_false. destruct (a_dict d !! key); naive_solver. Qed.

Lemma adb_found d key : adb_ok d → found_ok (a_dict d !! key).
Proof. intros Hd. destruct (a_dict d !! key) as [[[t enc] ptr]|] eqn:Hk; [|done]. by eapply adb_val. Qed.

Lemma a_expire_ok c key d : adb_ok d → ∃ b d', a_expireIfNeeded c key d = Some (b, d') ∧ adb_ok d'.
Proof.
  intros Hd. unfold a_expireIfNeeded, a_getExpire.
  destruct (a_expires d !! key) as [w|] eqn:He; simpl; [|by eauto].
  rewrite (proj2 (a_has_true key d)) by (apply (adb_exp _ Hd); eauto). simpl.
  destruct (_ && _ && _); [|by eauto]. destruct (masterhost c); eauto using a_del_ok.
Qed.

Section tot.
Context (c : server_cfg) {A : Type}.

(** From a database with [P], the program ends, without an assertion. *)
Definition tot (P : adb → Prop) (p : prog A) : Prop :=
  ∀ d, adb_ok d → P d → ∃ y d', arun c p d = Some (y, d') ∧ adb_ok d'.

Definition always (d : adb) : Prop := True.
Definition holds (key : bytes) (v : option content) (d : adb) : Prop := a_dict d !! key = v.

Lemma tot_weaken (P Q : adb → Prop) p : (∀ d, P d → Q d) → tot Q p → tot P p.
Proof. intros HPQ H d Hd HP. apply H; auto. Qed.

Lemma tot_ret P x : tot P (Ret x).
Proof. intros d Hd _. by eexists _, _. Qed.

Lemma tot_call {B : Type} (k : kcall B) (f : B → prog A) P (Q : B → adb → Prop) :
  (∀ d, adb_ok d → P d → ∃ b d', aexec c k d = Some (b, d') ∧ adb_ok d' ∧ Q b d') →
  (∀ b, tot (Q b) (f b)) → tot P (Call k f).
Proof.
  intros Hk Hf d Hd HP. destruct (Hk d Hd HP) as (b & d1 & He & Hd1 & HQ). simpl. rewrite He. simpl.
  by apply Hf.
Qed.

Lemma tot_lookupRead P nt key f :
  (∀ v, tot always (f v)) → tot P (Call (KLookupRead nt key) f).
Proof.
  intros Hf. apply (tot_call _ _ _ (fun _ => always)); [|done]. intros d Hd _. simpl. unfold a_lookupRead.
  destruct (a_expire_ok c key d Hd) as (b & d1 & -> & Hd1). simpl. by eexists _, _.
Qed.

(** The value a lookup finds is well formed. *)
Lemma tot_lookupRead_wf P nt key f :
  (∀ v, found_ok v → tot always (f v)) →
  tot P (Call (KLookupRead nt key) f).
Proof.
  intros Hf d Hd _. simpl. unfold a_lookupRead.
  destruct (a_expire_ok c key d Hd) as (b & d1 & -> & Hd1). simpl. apply Hf; [|done|done].
  destruct (b && _); [done|]. by apply adb_found.
Qed.

Lemma tot_lookupWrite P nt key f :
  (∀ v, found_ok v → tot (holds key v) (f v)) →
  tot P (Call (KLookupWrite nt key) f).
Proof.
  intros Hf d Hd _. simpl.
  destruct (a_expire_ok c key d Hd) as (b & d1 & -> & Hd1). simpl. apply Hf; [|done|done].
  by apply adb_found.
Qed.

Lemma tot_exists P nt key f :
  (∀ b, tot always (f b)) → tot P (Call (KExists nt key) f).
Proof.
  intros Hf. apply (tot_call _ _ _ (fun _ => always)); [|done]. intros d Hd _. simpl. unfold a_lookupRead.
  destruct (a_expire_ok c key d Hd) as (b & d1 & -> & Hd1). simpl. by eexists _, _.
Qed.

Definition present (key : bytes) (b : bool) (d : adb) : Prop := a_has key d = b.

Lemma tot_existsW P key f :
  (∀ b, tot (present key b) (f b)) → tot P (Call (KExistsW key) f).
Proof.
  intros Hf. apply (tot_call _ _ _ (present key)); [|done]. intros d Hd _. simpl.
  destruct (a_expire_ok c key d Hd) as (b & d1 & -> & Hd1). simpl. by eexists _, _.
Qed.

Lemma tot_expireIfNeeded P key f :
  (∀ b, tot always (f b)) → tot P (Call (KExpireIfNeeded key) f).
Proof.
  intros Hf. apply (tot_call _ _ _ (fun _ => always)); [|done]. intros d Hd _. simpl.
  destruct (a_expire_ok c key d Hd) as (b & d1 & -> & Hd1). by eexists _, _.
Qed.

Lemma tot_add P key o f :
  (∀ d, P d → a_dict d !! key = None) → val_ok o → tot (holds key (Some (content_of o))) (f tt) →
  tot P (Call (KAdd key o) f).
Proof.
  intros HP Ho Hf. apply (tot_call _ _ _ (fun _ => holds key (Some (content_of o)))); [|by intros []].
  intros d Hd Hk%HP. simpl. rewrite (proj2 (a_has_false key d) Hk). eexists _, _.
  split_and!; [done|by apply a_put_obj_ok|]. apply lookup_insert_eq.
Qed.

Lemma tot_overwrite P key o f :
  (∀ d, P d → is_Some (a_dict d !! key)) → val_ok o → tot (holds key (Some (content_of o))) (f tt) →
  tot P (Call (KOverwrite key o) f).
Proof.
  intros HP Ho Hf. apply (tot_call _ _ _ (fun _ => holds key (Some (content_of o)))); [|by intros []].
  intros d Hd Hk%HP. simpl. rewrite (proj2 (a_has_true key d) Hk). eexists _, _.
  split_and!; [done|by apply a_put_obj_ok|]. apply lookup_insert_eq.
Qed.

Lemma tot_setKey P key o keepttl f :
  val_ok o → tot (holds key (Some (content_of o))) (f tt) → tot P (Call (KSetKey key o keepttl) f).
Proof.
  intros Ho Hf. apply (tot_call _ _ _ (fun _ => holds key (Some (content_of o)))); [|by intros []].
  intros d Hd _. simpl. destruct (a_expire_ok c key d Hd) as (b & d1 & -> & Hd1). simpl.
  pose proof (a_put_obj_ok key o d1 Ho Hd1) as Hd2. eexists _, _.
  split_and!; [done| |destruct keepttl; apply lookup_insert_eq].
  destruct keepttl; [done|]. by apply (adb_ok_persist key) in Hd2.
Qed.

Lemma tot_delete P key (k : kcall bool) f :
  k = KDelete key ∨ k = KSyncDelete key ∨ k = KAsyncDelete key →
  (∀ b, (∃ d, P d ∧ a_has key d = b) → tot always (f b)) → tot P (Call k f).
Proof.
  intros Hk Hf d Hd HP.
  assert (aexec c k d = Some (a_has key d, a_del key d)) as He by (by destruct Hk as [-> | [-> | ->]]).
  simpl. rewrite He. simpl. apply Hf; [eauto|by apply a_del_ok|done].
Qed.

Lemma tot_getExpire P key f : (∀ w, tot P (f w)) → tot P (Call (KGetExpire key) f).
Proof.
  intros Hf. apply (tot_call _ _ _ (fun _ => P)); [|done]. intros d Hd HP. simpl. unfold a_getExpire.
  destruct (a_expires d !! key) as [w|] eqn:He; [|by eexists _, _].
  rewrite (proj2 (a_has_true key d)) by (apply (adb_exp _ Hd); eauto). by eexists _, _.
Qed.

Lemma tot_setExpire P key w f :
  (∀ d, P d → is_Some (a_dict d !! key)) → tot always (f tt) → tot P (Call (KSetExpire key w) f).
Proof.
  intros HP Hf. apply (tot_call _ _ _ (fun _ => always)); [|by intros []]. intros d Hd Hk%HP. simpl.
  rewrite (proj2 (a_has_true key d) Hk). eexists _, _. split_and!; [done| |done].
  apply adb_ok_expires; [done|]. intros k. destruct (decide (k = key)) as [->|]; [done|].
  rewrite lookup_insert_ne by done. apply (adb_exp _ Hd).
Qed.

Lemma tot_removeExpire P key f :
  (∀ d, P d → is_Some (a_dict d !! key)) → (∀ b, tot always (f b)) → tot P (Call (KRemoveExpire key) f).
Proof.
  intros HP Hf. apply (tot_call _ _ _ (fun _ => always)); [|done]. intros d Hd Hk%HP. simpl.
  rewrite (proj2 (a_has_true key d) Hk). eexists _, _. split_and!; [done| |done]. by apply adb_ok_persist.
Qed.

Lemma tot_mutate P key t enc ptr f :
  (∀ d, P d → ∃ e p, a_dict d !! key = Some (t, e, p)) → t = OBJ_STREAM ∨ wf_payload t enc ptr →
  tot (holds key (Some (t, enc, ptr))) (f tt) → tot P (Call (KMutate key (t, enc, ptr)) f).
Proof.
  intros HP Hwf Hf. apply (tot_call _ _ _ (fun _ => holds key (Some (t, enc, ptr)))); [|by intros []].
  intros d Hd (e & p & Hk)%HP. simpl. rewrite Hk. simpl. rewrite bool_decide_eq_true_2 by done.
  eexists _, _. split_and!; [done|by apply a_put_ok|]. apply lookup_insert_eq.
Qed.

Lemma tot_unshare P key f :
  (∀ d, P d → ∃ e p, a_dict d !! key = Some (OBJ_STRING, e, p)) →
  (∀ b, tot (holds key (Some (OBJ_STRING, OBJ_ENCODING_RAW, PSds b))) (f tt)) → tot P (Call (KUnshare key) f).
Proof.
  intros HP Hf d Hd HPd. destruct (HP d HPd) as (e & p & Hk). simpl. rewrite Hk.
  destruct (adb_val _ Hd _ _ _ _ Hk) as [?|Hwf]; [done|]. destruct (decoded_wf _ _ Hwf) as [b Hb].
  rewrite Hb. simpl. apply (Hf b); [by apply a_put_ok; [right|]|]. apply lookup_insert_eq.
Qed.

Lemma tot_storeInt P key v f :
  (∀ d, P d → is_Some (a_dict d !! key)) → is_ll v → tot always (f tt) → tot P (Call (KStoreInt key v) f).
Proof.
  intros HP Hv Hf. apply (tot_call _ _ _ (fun _ => always)); [|by intros []]. intros d Hd Hk%HP. simpl.
  rewrite (proj2 (a_has_true key d) Hk). eexists _, _. split_and!; [done| |done]. apply a_put_ok; [by right|done].
Qed.
End tot.
