(* ===== verification/Strings.v ===== *)
(** * String commands (src/src/t_string.c)

    SET and its variants, GET, GETSET, GETRANGE, SETRANGE, MGET, MSET, MSETNX,
    the counters, APPEND and STRLEN as programs over the keyspace, with the
    encoding of string objects in src/src/object.c.  Notifications, replication
    and the [dirty] counter are left out. *)

From S2P Require Import Prelude Util Robj Serdes RocksApi Keyspace KeyspaceInv Prog Cmds RockJob CmdLogic.
From stdpp Require Import list gmap strings.
#[local] Open Scope Z_scope.
#[local] Open Scope prog_scope.

(** ** String objects (object.c) *)

Definition tryObjectEncoding (env : srv_env) (o : robj) : robj :=
  match o_encoding o, o_ptr o with
  | (OBJ_ENCODING_RAW | OBJ_ENCODING_EMBSTR) as enc, PSds s =>
      if 1 <? o_refcount o then o
      else
        let embed :=
          if Z.of_nat (length s) <=? OBJ_ENCODING_EMBSTR_SIZE_LIMIT then
            if bool_decide (enc = OBJ_ENCODING_EMBSTR) then o else createEmbeddedStringObject env s
          else o in
        match (if (length s <=? 20)%nat then string2l s else None) with
        | Some value =>
            if ((maxmemory env =? 0) || negb (policy_has env MAXMEMORY_FLAG_NO_SHARED_INTEGERS)) &&
               (0 <=? value) && (value <? OBJ_SHARED_INTEGERS)
            then shared_integer value
            else if bool_decide (enc = OBJ_ENCODING_RAW)
            then Robj (o_type o) OBJ_ENCODING_INT (o_lru o) (o_refcount o) (PInt value)
            else createStringObjectFromLongLongForValue env value
        | None => embed
        end
  | _, _ => o
  end.

(** The object of an argument, as it comes out of the query buffer. *)
Definition arg_value (g : server_cfg) (s : bytes) : robj :=
  tryObjectEncoding (cfg_env g) (createStringObject (cfg_env g) s).

Definition stringObjectLen (ptr : payload) : Z :=
  match ptr with PSds s => Z.of_nat (length s) | PInt v => sdigits10 v | _ => 0 end.

Definition notinteger : reply := RError "value is not an integer or out of range".

(** [getLongLongFromObjectOrReply] on an argument, and on the object of a key
    that may be missing. *)
Definition arg_longlong (s : bytes) (f : Z → prog reply) : prog reply :=
  match string2ll s with None => Ret notinteger | Some v => f v end.
Definition obj_longlong (o : option content) (f : Z → prog reply) : prog reply :=
  match o with
  | None => f 0
  | Some (_, (OBJ_ENCODING_RAW | OBJ_ENCODING_EMBSTR), PSds s) => arg_longlong s f
  | Some (_, OBJ_ENCODING_INT, PInt v) => f v
  | _ => Panic "Unknown string encoding"
  end.

(** [checkType(c,o,OBJ_STRING)], then the characters of the object. *)
Definition is_string (t : obj_type) : bool := bool_decide (t = OBJ_STRING).
Definition addReplyBulk (enc : obj_encoding) (ptr : payload) : prog reply :=
  match decoded enc ptr with Some s => Ret (RBulk s) | None => Panic "Wrong obj->encoding in addReply()" end.

Definition checkStringLength (size : Z) (p : prog reply) : prog reply :=
  if 512 * 1024 * 1024 <? size then Ret (RError "string exceeds maximum allowed size (512MB)") else p.

(** ** SET *)

Record set_opts := SetOpts {
  so_nx : bool; so_xx : bool; so_ex : bool; so_px : bool; so_keepttl : bool;
  so_expire : option bytes; so_seconds : bool
}.

(** The end of [setGenericCommand]. *)
Definition set_store (g : server_cfg) (keepttl : bool) (key : bytes) (val : robj) (ok_reply : reply)
    (milliseconds : option Z) : prog reply :=
  KSetKey key val keepttl ;;
  match milliseconds with
  | Some ms => KSetExpire key (to_signed 64 (fresh_mstime g + ms)) ;; Ret ok_reply
  | None => Ret ok_reply
  end.
(** The test of the flags NX and XX. *)
Definition set_guard (o : set_opts) (key : bytes) (abort_reply : reply) (store : prog reply) : prog reply :=
  let check_xx :=
    if so_xx o then b ⇐ KExistsW key; if negb b then Ret abort_reply else store else store in
  if so_nx o then b ⇐ KExistsW key; if b : bool then Ret abort_reply else check_xx else check_xx.
Definition setGenericCommand (g : server_cfg) (name : string) (o : set_opts) (key : bytes) (val : robj)
    (ok_reply abort_reply : reply) : prog reply :=
  match so_expire o with
  | None => set_guard o key abort_reply (set_store g (so_keepttl o) key val ok_reply None)
  | Some e =>
      arg_longlong e (fun ms =>
        if ms <=? 0 then Ret (RError ("invalid expire time in " ++ name))
        else
          let ms := if so_seconds o then to_signed 64 (ms * 1000) else ms in
          set_guard o key abort_reply (set_store g (so_keepttl o) key val ok_reply (Some ms)))
  end.

Fixpoint parse_set_opts (l : list bytes) (o : set_opts) : option set_opts :=
  match l with
  | [] => Some o
  | a :: l' =>
      let '(SetOpts nx xx ex px keepttl expire secs) := o in
      if strcaseeq a "nx" && negb xx then parse_set_opts l' (SetOpts true xx ex px keepttl expire secs)
      else if strcaseeq a "xx" && negb nx then parse_set_opts l' (SetOpts nx true ex px keepttl expire secs)
      else if strcaseeq a "keepttl" && negb ex && negb px
      then parse_set_opts l' (SetOpts nx xx ex px true expire secs)
      else match l' with
           | next :: l'' =>
               if strcaseeq a "ex" && negb keepttl && negb px
               then parse_set_opts l'' (SetOpts nx xx true px keepttl (Some next) true)
               else if strcaseeq a "px" && negb keepttl && negb ex
               then parse_set_opts l'' (SetOpts nx xx ex true keepttl (Some next) false)
               else None
           | [] => None
           end
  end.

Definition no_opts : set_opts := SetOpts false false false false false None true.

Definition setCommand (g : server_cfg) (argv : list bytes) : prog reply :=
  match parse_set_opts (drop 3 argv) no_opts with
  | None => Ret syntaxerr
  | Some o => setGenericCommand g "set" o (arg argv 1) (arg_value g (arg argv 2)) shared_ok RNull
  end.
Definition setnxCommand (g : server_cfg) (argv : list bytes) : prog reply :=
  setGenericCommand g "setnx" (SetOpts true false false false false None true)
    (arg argv 1) (arg_value g (arg argv 2)) cone czero.
Definition setexCommand (g : server_cfg) (argv : list bytes) : prog reply :=
  setGenericCommand g "setex" (SetOpts false false false false false (Some (arg argv 2)) true)
    (arg argv 1) (arg_value g (arg argv 3)) shared_ok RNull.
Definition psetexCommand (g : server_cfg) (argv : list bytes) : prog reply :=
  setGenericCommand g "psetex" (SetOpts false false false false false (Some (arg argv 2)) false)
    (arg argv 1) (arg_value g (arg argv 3)) shared_ok RNull.

(** ** GET *)

(** [k] is what follows when [getGenericCommand] returns [C_OK], after its reply. *)
Definition getGenericCommand (key : bytes) (k : reply → prog reply) : prog reply :=
  o ⇐ KLookupRead false key;
  match o with
  | None => k RNull
  | Some (t, enc, ptr) =>
      if negb (is_string t) then Ret wrongtypeerr
      else match decoded enc ptr with
           | Some s => k (RBulk s)
           | None => Panic "Wrong obj->encoding in addReply()"
           end
  end.
Definition getCommand (argv : list bytes) : prog reply := getGenericCommand (arg argv 1) Ret.
Definition getsetCommand (g : server_cfg) (argv : list bytes) : prog reply :=
  getGenericCommand (arg argv 1) (fun r =>
    KSetKey (arg argv 1) (arg_value g (arg argv 2)) false ;; Ret r).

(** [getrangeCommand] once the two indexes and the string are known. *)
Definition getrange (str : bytes) (start end_ : Z) : bytes :=
  let strlen := Z.of_nat (length str) in
  if (start <? 0) && (end_ <? 0) && (end_ <? start) then []
  else
    let start := if start <? 0 then strlen + start else start in
    let end_ := if end_ <? 0 then strlen + end_ else end_ in
    let start := if start <? 0 then 0 else start in
    let end_ := if end_ <? 0 then 0 else end_ in
    let end_ := if strlen <=? end_ then strlen - 1 else end_ in
    if (end_ <? start) || (strlen =? 0) then []
    else take (Z.to_nat (end_ - start + 1)) (drop (Z.to_nat start) str).
Definition getrangeCommand (argv : list bytes) : prog reply :=
  arg_longlong (arg argv 2) (fun start => arg_longlong (arg argv 3) (fun end_ =>
    o ⇐ KLookupRead false (arg argv 1);
    match o with
    | None => Ret (RBulk [])
    | Some (t, enc, ptr) =>
        if negb (is_string t) then Ret wrongtypeerr
        else match decoded enc ptr with
             | Some str => Ret (RBulk (getrange str start end_))
             | None => Panic "Unknown string encoding"
             end
    end)).

(** [sdsgrowzero] and [memcpy]. *)
Definition setrange (str value : bytes) (offset : nat) : bytes :=
  let str := str ++ replicate (offset + length value - length str) x00 in
  take offset str ++ value ++ drop (offset + length value) str.
(** The new length is computed as a [size_t] and compared as a [long long]; no
    allocation of half the address space succeeds. *)
Definition setrangeCommand (g : server_cfg) (argv : list bytes) : prog reply :=
  let key := arg argv 1 in
  let value := arg argv 3 in
  arg_longlong (arg argv 2) (fun offset =>
    if offset <? 0 then Ret (RError "offset is out of range")
    else
      let newlen := u64 (offset + Z.of_nat (length value)) in
      o ⇐ KLookupWrite false key;
      match o with
      | None =>
          if bool_decide (value = []) then Ret czero
          else checkStringLength (to_signed 64 newlen) (
            if LLONG_MAX <? newlen then Panic "Out Of Memory"
            else
              KAdd key (createRawStringObject (cfg_env g) (replicate (Z.to_nat newlen) x00)) ;;
              KMutate key (OBJ_STRING, OBJ_ENCODING_RAW,
                PSds (setrange (replicate (Z.to_nat newlen) x00) value (Z.to_nat offset))) ;;
              Ret (RInt newlen))
      | Some (t, enc, ptr) =>
          if negb (is_string t) then Ret wrongtypeerr
          else if bool_decide (value = []) then Ret (RInt (stringObjectLen ptr))
          else checkStringLength (to_signed 64 newlen) (
            if LLONG_MAX <? newlen then Panic "Out Of Memory"
            else match decoded enc ptr with
                 | None => Panic "Unknown encoding type"
                 | Some str =>
                     let new := setrange str value (Z.to_nat offset) in
                     KUnshare key ;;
                     KMutate key (OBJ_STRING, OBJ_ENCODING_RAW, PSds new) ;;
                     Ret (RInt (Z.of_nat (length new)))
                 end)
      end).

(** ** Several keys *)

Fixpoint mget_loop (keys : list bytes) (acc : list reply) : prog reply :=
  match keys with
  | [] => Ret (RMany (reverse acc))
  | key :: keys' =>
      o ⇐ KLookupRead false key;
      match o with
      | None => mget_loop keys' (RNull :: acc)
      | Some (t, enc, ptr) =>
          if negb (is_string t) then mget_loop keys' (RNull :: acc)
          else match decoded enc ptr with
               | Some s => mget_loop keys' (RBulk s :: acc)
               | None => Panic "Wrong obj->encoding in addReply()"
               end
      end
  end.
Definition mgetCommand (argv : list bytes) : prog reply := mget_loop (drop 1 argv) [].

Fixpoint pairs_of (l : list bytes) : list (bytes * bytes) :=
  match l with key :: val :: l' => (key, val) :: pairs_of l' | _ => [] end.
Fixpoint mset_loop (g : server_cfg) (l : list (bytes * bytes)) (r : reply) : prog reply :=
  match l with
  | [] => Ret r
  | (key, val) :: l' => KSetKey key (arg_value g val) false ;; mset_loop g l' r
  end.
Fixpoint msetnx_loop (l : list (bytes * bytes)) (p : prog reply) : prog reply :=
  match l with
  | [] => p
  | (key, _) :: l' => b ⇐ KExistsW key; if b : bool then Ret czero else msetnx_loop l' p
  end.
Definition msetGenericCommand (g : server_cfg) (nx : bool) (argv : list bytes) : prog reply :=
  if Nat.even (length argv) then Ret (RError "wrong number of arguments for MSET")
  else
    let l := pairs_of (drop 1 argv) in
    if nx then msetnx_loop l (mset_loop g l cone) else mset_loop g l shared_ok.
Definition msetCommand (g : server_cfg) (argv : list bytes) : prog reply := msetGenericCommand g false argv.
Definition msetnxCommand (g : server_cfg) (argv : list bytes) : prog reply := msetGenericCommand g true argv.

(** ** Counters *)

(** [incrDecrCommand] once the old value is known. *)
Definition incr_body (g : server_cfg) (key : bytes) (o : option content) (incr oldvalue : Z) : prog reply :=
  if (incr <? 0) && (oldvalue <? 0) && (incr <? LLONG_MIN - oldvalue) ||
     (0 <? incr) && (0 <? oldvalue) && (LLONG_MAX - oldvalue <? incr)
  then Ret (RError "increment or decrement would overflow")
  else
    let value := oldvalue + incr in
    match o with
    | Some _ => KStoreInt key value ;; Ret (RInt value)
    | None => KAdd key (createStringObjectFromLongLongForValue (cfg_env g) value) ;; Ret (RInt value)
    end.
Definition incrDecrCommand (g : server_cfg) (key : bytes) (incr : Z) : prog reply :=
  o ⇐ KLookupWrite false key;
  if match o with Some (t, _, _) => negb (is_string t) | None => false end then Ret wrongtypeerr
  else obj_longlong o (incr_body g key o incr).
Definition incrCommand (g : server_cfg) (argv : list bytes) : prog reply := incrDecrCommand g (arg argv 1) 1.
Definition decrCommand (g : server_cfg) (argv : list bytes) : prog reply := incrDecrCommand g (arg argv 1) (-1).
Definition incrbyCommand (g : server_cfg) (argv : list bytes) : prog reply :=
  arg_longlong (arg argv 2) (fun incr => incrDecrCommand g (arg argv 1) incr).
(** [-incr] in 64 bits. *)
Definition decrbyCommand (g : server_cfg) (argv : list bytes) : prog reply :=
  arg_longlong (arg argv 2) (fun incr => incrDecrCommand g (arg argv 1) (to_signed 64 (- incr))).

(** ** APPEND and STRLEN *)

Definition appendCommand (g : server_cfg) (argv : list bytes) : prog reply :=
  let key := arg argv 1 in
  let append := arg argv 2 in
  o ⇐ KLookupWrite false key;
  match o with
  | None =>
      let v := arg_value g append in
      KAdd key v ;; Ret (RInt (stringObjectLen (o_ptr v)))
  | Some (t, enc, ptr) =>
      if negb (is_string t) then Ret wrongtypeerr
      else
        checkStringLength (stringObjectLen ptr + Z.of_nat (length append))
          match decoded enc ptr with
          | None => Panic "Unknown encoding type"
          | Some str =>
              KUnshare key ;;
              KMutate key (OBJ_STRING, OBJ_ENCODING_RAW, PSds (str ++ append)) ;;
              Ret (RInt (Z.of_nat (length (str ++ append))))
          end
  end.
Definition strlenCommand (argv : list bytes) : prog reply :=
  o ⇐ KLookupRead false (arg argv 1);
  match o with
  | None => Ret czero
  | Some (t, enc, ptr) => if negb (is_string t) then Ret wrongtypeerr else Ret (RInt (stringObjectLen ptr))
  end.

(** ** Encoding a string keeps its characters *)

Lemma createStringObject_ok env s :
  wf_env env → val_ok (createStringObject env s) ∧ o_refcount (createStringObject env s) = 1 ∧
  o_type (createStringObject env s) = OBJ_STRING ∧ o_ptr (createStringObject env s) = PSds s ∧
  (o_encoding (createStringObject env s) = OBJ_ENCODING_RAW ∨
   o_encoding (createStringObject env s) = OBJ_ENCODING_EMBSTR).
Proof.
  intros Hw. unfold createStringObject. destruct (Z.leb_spec (Z.of_nat (length s)) OBJ_ENCODING_EMBSTR_SIZE_LIMIT).
  - split_and!; try done; [|by right]. split; [by apply initial_lru_ok|by right].
  - split_and!; try done; [|by left]. by apply val_ok_raw.
Qed.

Lemma string2l_sound s v : string2l s = Some v → is_ll v ∧ s = sdsll2str v.
Proof. unfold string2l. intros H. apply string2ll_sound. destruct (string2ll s) as [w|]; [|done]. by destruct (_ || _). Qed.

Lemma arg_value_ok g s :
  wf_env (cfg_env g) → val_ok (arg_value g s) ∧ o_type (arg_value g s) = OBJ_STRING ∧
  decoded (o_encoding (arg_value g s)) (o_ptr (arg_value g s)) = Some s ∧
  stringObjectLen (o_ptr (arg_value g s)) = Z.of_nat (length s).
Proof.
  intros Hw. unfold arg_value.
  destruct (createStringObject_ok (cfg_env g) s Hw) as (Hok & Hrc & Ht & Hp & He).
  set (o := createStringObject (cfg_env g) s) in *. unfold tryObjectEncoding. rewrite Hp, Hrc. simpl.
  assert (val_ok o ∧ o_type o = OBJ_STRING ∧ decoded (o_encoding o) (o_ptr o) = Some s ∧
    stringObjectLen (o_ptr o) = Z.of_nat (length s)) as Hself.
  { rewrite Hp. split_and!; try done. by destruct He as [-> | ->]. }
  destruct (if (length s <=? 20)%nat then string2l s else None) as [v|] eqn:Hv.
  - assert (is_ll v ∧ s = sdsll2str v) as [Hll Hs].
    { apply string2l_sound. by destruct (length s <=? 20)%nat. }
    assert (∀ o', val_ok o' → o_type o' = OBJ_STRING → o_encoding o' = OBJ_ENCODING_INT → o_ptr o' = PInt v →
      val_ok o' ∧ o_type o' = OBJ_STRING ∧ decoded (o_encoding o') (o_ptr o') = Some s ∧
      stringObjectLen (o_ptr o') = Z.of_nat (length s)) as Hint.
    { intros o' H1 H2 H3 H4. rewrite H3, H4. split_and!; try done; simpl.
      - by rewrite ll2string_32, Hs.
      - by rewrite Hs, sdsll2str_length. }
    destruct (val_ok_integer (cfg_env g) v Hw Hll) as [Hi1 Hi2]. unfold content_of in Hi2. injection Hi2 as Hi2 Hi3 Hi4.
    assert (val_ok (shared_integer v)) as Hsh by (by split; [|by right]).
    assert (val_ok (Robj (o_type o) OBJ_ENCODING_INT (o_lru o) (o_refcount o) (PInt v))) as Hraw.
    { split; simpl; [apply Hok|right]. by rewrite Ht. }
    destruct He as [-> | ->]; simpl; destruct (_ && _ && _); by apply Hint.
  - destruct He as [He|He]; rewrite He; simpl; [|by destruct (_ <=? _); apply Hself].
    destruct (Z.leb_spec (Z.of_nat (length s)) OBJ_ENCODING_EMBSTR_SIZE_LIMIT) as [Hle|]; [|by apply Hself]. split_and!; try done.
    split; [by apply initial_lru_ok|by right].
Qed.

(** ** The commands are safe *)

Section safe.
Context (g : server_cfg) (Hg : wf_env (cfg_env g)).

Lemma arg_value_val s : val_ok (arg_value g s).
Proof using Hg. by apply arg_value_ok. Qed.
#[local] Hint Resolve arg_value_val : core.

Lemma set_guard_ok K o key r p : prog_ok K p → prog_ok K (set_guard o key r p).
Proof. intros. unfold set_guard. destruct (so_nx o), (so_xx o); simpl; try done; by repeat (split; [done|split; [done|intros []; simpl; try done]]). Qed.
Lemma set_guard_sync o key r p : prog_sync p → prog_sync (set_guard o key r p).
Proof. intros. unfold set_guard. destruct (so_nx o), (so_xx o); simpl; try done; by repeat (split; [done|intros []; simpl; try done]). Qed.
Lemma set_guard_tot c o key r p : (∀ P, tot c P p) → tot c always (set_guard o key r p).
Proof.
  intros. unfold set_guard. destruct (so_nx o), (so_xx o);
    repeat first [done|apply tot_ret|apply tot_existsW; intros []; simpl]; auto.
Qed.

Lemma setGeneric_ok K name o key s r1 r2 : prog_ok K (setGenericCommand g name o key (arg_value g s) r1 r2).
Proof using Hg.
  unfold setGenericCommand, arg_longlong, set_store.
  destruct (so_expire o) as [e|]; [destruct (string2ll e) as [ms|]; [destruct (ms <=? 0)|]|];
    try done; apply set_guard_ok; (split; [apply arg_value_val|split; [done|intros [] _; simpl; by repeat split]]).
Qed.
Lemma setGeneric_sync name o key v r1 r2 : prog_sync (setGenericCommand g name o key v r1 r2).
Proof.
  unfold setGenericCommand, arg_longlong, set_store.
  destruct (so_expire o) as [e|]; [destruct (string2ll e) as [ms|]; [destruct (ms <=? 0)|]|];
    try done; apply set_guard_sync; by repeat (split; [done|intros; simpl]).
Qed.
Lemma setGeneric_tot c name o key s r1 r2 :
  tot c always (setGenericCommand g name o key (arg_value g s) r1 r2).
Proof using Hg.
  unfold setGenericCommand.
  assert (∀ P ms, tot c P (set_store g (so_keepttl o) key (arg_value g s) r1 ms)) as Hstore.
  { intros P ms. apply tot_setKey; [done|]. destruct ms; [|apply tot_ret].
    apply tot_setExpire; [|apply tot_ret]. intros d ->. eauto. }
  destruct (so_expire o) as [e|]; [|by apply set_guard_tot].
  unfold arg_longlong. destruct (string2ll e) as [ms|]; [|apply tot_ret].
  destruct (ms <=? 0); [apply tot_ret|]. by apply set_guard_tot.
Qed.

Lemma getGeneric_ok K key k : key ∈ K → (∀ r, prog_ok K (k r)) → prog_ok K (getGenericCommand key k).
Proof.
  intros Hin Hk. split; [done|split; [by intros ? [= <-]|]]. intros [[[t enc] ptr]|]; [|done].
  destruct (negb _); [done|]. by destruct (decoded enc ptr).
Qed.
Lemma getGeneric_sync key k : (∀ r, prog_sync (k r)) → prog_sync (getGenericCommand key k).
Proof.
  intros Hk. split; [done|]. intros [[[t enc] ptr]|]; [|done].
  destruct (negb _); [done|]. by destruct (decoded enc ptr).
Qed.
(** A string that is found can be decoded. *)
Lemma decoded_found {A : Type} (P : prog A → Prop) t enc ptr f p :
  t = OBJ_STREAM ∨ wf_payload t enc ptr → negb (is_string t) = false →
  (∀ s, decoded enc ptr = Some s → P (f s)) → P match decoded enc ptr with Some s => f s | None => p end.
Proof.
  intros Hwf Ht%negb_false_iff%bool_decide_eq_true Hf. subst t. destruct Hwf as [?|Hwf]; [done|].
  destruct (decoded_wf _ _ Hwf) as [s Hs]. rewrite Hs. by apply Hf.
Qed.
Lemma getGeneric_tot c key k : (∀ r, tot c always (k r)) → tot c always (getGenericCommand key k).
Proof.
  intros Hk. apply tot_lookupRead_wf. intros [[[t enc] ptr]|] Hv; [|done].
  destruct (negb (is_string t)) eqn:Ht; [apply tot_ret|].
  by apply (decoded_found (tot c always) t enc ptr (fun s => k (RBulk s)) _ Hv Ht).
Qed.

Lemma getset_ok K argv : arg argv 1 ∈ K → prog_ok K (getsetCommand g argv).
Proof using Hg. intros Hin. apply getGeneric_ok; [done|]. intros r. split; [apply arg_value_val|done]. Qed.
Lemma getset_tot c argv : tot c always (getsetCommand g argv).
Proof using Hg. apply getGeneric_tot. intros r. apply tot_setKey; [done|apply tot_ret]. Qed.

Lemma arg_longlong_ok K s f : (∀ v, is_ll v → prog_ok K (f v)) → prog_ok K (arg_longlong s f).
Proof.
  intros Hf. unfold arg_longlong. destruct (string2ll s) as [v|] eqn:Hv; [|done].
  apply Hf. by apply string2ll_sound in Hv as [? _].
Qed.
Lemma arg_longlong_sync s f : (∀ v, prog_sync (f v)) → prog_sync (arg_longlong s f).
Proof. intros Hf. unfold arg_longlong. by destruct (string2ll s). Qed.
Lemma arg_longlong_tot c P s f : (∀ v, is_ll v → tot c P (f v)) → tot c P (arg_longlong s f).
Proof.
  intros Hf. unfold arg_longlong. destruct (string2ll s) as [v|] eqn:Hv; [|apply tot_ret].
  apply Hf. by apply string2ll_sound in Hv as [? _].
Qed.

Lemma getrange_ok K argv : arg argv 1 ∈ K → prog_ok K (getrangeCommand argv).
Proof.
  intros Hin. do 2 (apply arg_longlong_ok; intros ? _). split; [done|split; [by intros ? [= <-]|]].
  intros [[[t enc] ptr]|]; [|done]. destruct (negb _); [done|]. by destruct (decoded enc ptr).
Qed.
Lemma getrange_sync argv : prog_sync (getrangeCommand argv).
Proof.
  do 2 (apply arg_longlong_sync; intros ?). split; [done|].
  intros [[[t enc] ptr]|]; [|done]. destruct (negb _); [done|]. by destruct (decoded enc ptr).
Qed.
Lemma getrange_tot c argv : tot c always (getrangeCommand argv).
Proof.
  do 2 (apply arg_longlong_tot; intros ? _). apply tot_lookupRead_wf. intros [[[t enc] ptr]|] Hv; [|apply tot_ret].
  destruct (negb (is_string t)) eqn:Ht; [apply tot_ret|].
  eapply (decoded_found (tot c always)); [exact Hv|done|]. intros. apply tot_ret.
Qed.

Lemma mget_ok K keys acc : (∀ key, key ∈ keys → key ∈ K) → prog_ok K (mget_loop keys acc).
Proof.
  revert acc. induction keys as [|key keys IH]; intros acc Hin; [done|].
  assert (∀ acc', prog_ok K (mget_loop keys acc')) as Hk by (intros; apply IH; intros k Hk; by apply Hin, list_elem_of_further).
  split; [done|split; [intros ? [= <-]; apply Hin, list_elem_of_here|]]. intros [[[t enc] ptr]|] _; [|apply Hk].
  destruct (negb _); [apply Hk|]. destruct (decoded enc ptr); [apply Hk|done].
Qed.
Lemma mget_sync keys acc : prog_sync (mget_loop keys acc).
Proof.
  revert acc. induction keys as [|key keys IH]; intros acc; [done|]. split; [done|].
  intros [[[t enc] ptr]|]; [|apply IH]. destruct (negb _); [apply IH|]. destruct (decoded enc ptr); [apply IH|done].
Qed.
Lemma mget_tot c keys acc : tot c always (mget_loop keys acc).
Proof.
  revert acc. induction keys as [|key keys IH]; intros acc; [apply tot_ret|].
  apply tot_lookupRead_wf. intros [[[t enc] ptr]|] Hv; [|apply IH].
  destruct (negb (is_string t)) eqn:Ht; [apply IH|].
  eapply (decoded_found (tot c always)); [exact Hv|done|]. intros. apply IH.
Qed.

Lemma mset_ok K l r : prog_ok K (mset_loop g l r).
Proof using Hg. induction l as [|[key val] l IH]; [done|]. split; [apply arg_value_val|]. by split. Qed.
Lemma mset_sync l r : prog_sync (mset_loop g l r).
Proof. induction l as [|[key val] l IH]; [done|]. by split. Qed.
Lemma mset_tot c P l r : tot c P (mset_loop g l r).
Proof using Hg.
  revert P. induction l as [|[key val] l IH]; intros P; [apply tot_ret|]. apply tot_setKey; [done|apply IH].
Qed.
Lemma msetnx_ok K l p : prog_ok K p → prog_ok K (msetnx_loop l p).
Proof. intros Hp. induction l as [|[key val] l IH]; [done|]. split; [done|split; [done|by intros []]]. Qed.
Lemma msetnx_sync l p : prog_sync p → prog_sync (msetnx_loop l p).
Proof. intros Hp. induction l as [|[key val] l IH]; [done|]. split; [done|by intros []]. Qed.
Lemma msetnx_tot c P l p : (∀ P, tot c P p) → tot c P (msetnx_loop l p).
Proof.
  intros Hp. revert P. induction l as [|[key val] l IH]; intros P; [apply Hp|].
  apply tot_existsW. intros []; [apply tot_ret|apply IH].
Qed.
Lemma msetGeneric_ok K nx argv : prog_ok K (msetGenericCommand g nx argv).
Proof using Hg. unfold msetGenericCommand. destruct (Nat.even _); [done|]. destruct nx; [apply msetnx_ok|]; apply mset_ok. Qed.
Lemma msetGeneric_sync nx argv : prog_sync (msetGenericCommand g nx argv).
Proof. unfold msetGenericCommand. destruct (Nat.even _); [done|]. destruct nx; [apply msetnx_sync|]; apply mset_sync. Qed.
Lemma msetGeneric_tot c nx argv : tot c always (msetGenericCommand g nx argv).
Proof using Hg.
  unfold msetGenericCommand. destruct (Nat.even _); [apply tot_ret|].
  destruct nx; [apply msetnx_tot; intros|]; apply mset_tot.
Qed.

(** The sum of the counters does not leave 64 bits. *)
Lemma incr_in_range old incr :
  is_ll old → is_ll incr →
  ((incr <? 0) && (old <? 0) && (incr <? LLONG_MIN - old) ||
   (0 <? incr) && (0 <? old) && (LLONG_MAX - old <? incr)) = negb (bool_decide (is_ll (old + incr))).
Proof.
  unfold is_ll. intros Ho Hi. rewrite bool_decide_decide. unfold LLONG_MIN, LLONG_MAX in *.
  repeat match goal with |- context [?a <? ?b] => destruct (Z.ltb_spec a b) end;
    case_decide; simpl; try done; lia.
Qed.

Lemma incr_body_ok K key o incr old :
  key ∈ K → is_ll incr → is_ll old → prog_ok K (incr_body g key o incr old).
Proof using Hg.
  intros Hin Hi Ho. unfold incr_body. rewrite incr_in_range by done.
  destruct (bool_decide_reflect (is_ll (old + incr))); simpl; [|done].
  destruct o; simpl; (split; [|split; [|done]]); try done; [by intros ? [= <-]|by apply val_ok_integer].
Qed.
Lemma incr_body_tot c key o incr old :
  is_ll incr → is_ll old → tot c (holds key o) (incr_body g key o incr old).
Proof using Hg.
  intros Hi Ho. unfold incr_body. rewrite incr_in_range by done.
  destruct (bool_decide_reflect (is_ll (old + incr))) as [Hr|]; simpl; [|apply tot_ret].
  destruct o.
  - apply tot_storeInt; [|done|apply tot_ret]. intros d ->. eauto.
  - apply tot_add; [done|by apply val_ok_integer|apply tot_ret].
Qed.

Lemma found_string o :
  found_ok o → match o with Some (t, _, _) => negb (is_string t) | None => false end = false →
  o = None ∨ (∃ enc s, o = Some (OBJ_STRING, enc, PSds s) ∧ (enc = OBJ_ENCODING_RAW ∨ enc = OBJ_ENCODING_EMBSTR)) ∨
  ∃ v, o = Some (OBJ_STRING, OBJ_ENCODING_INT, PInt v) ∧ is_ll v.
Proof.
  destruct o as [[[t enc] ptr]|]; [|by left]. intros Hf Ht%negb_false_iff%bool_decide_eq_true. subst t.
  right. destruct Hf as [?|Hw]; [done|]. destruct enc, ptr; simpl in Hw; try done; naive_solver.
Qed.
Lemma incrDecr_ok K key incr : key ∈ K → is_ll incr → prog_ok K (incrDecrCommand g key incr).
Proof using Hg.
  intros Hin Hi. split; [done|split; [by intros ? [= <-]|]]. intros o Ho. case_match eqn:Ht; [done|].
  destruct (found_string o Ho Ht) as [->|[(enc & s & -> & [-> | ->])|(v & -> & Hv)]]; simpl;
    try (apply arg_longlong_ok; intros); by apply incr_body_ok.
Qed.
Lemma incrDecr_sync key incr : prog_sync (incrDecrCommand g key incr).
Proof.
  split; [done|]. intros o. case_match; [done|].
  assert (∀ v, prog_sync (incr_body g key o incr v)) as Hb.
  { intros v. unfold incr_body. destruct (_ || _); [done|]. by destruct o. }
  destruct o as [[[t enc] ptr]|]; simpl; [|apply Hb].
  destruct enc, ptr; try done; first [by apply arg_longlong_sync|by apply Hb].
Qed.
Lemma incrDecr_tot c key incr : is_ll incr → tot c always (incrDecrCommand g key incr).
Proof using Hg.
  intros Hi. apply tot_lookupWrite. intros o Ho. case_match eqn:Ht; [apply tot_ret|].
  destruct (found_string o Ho Ht) as [->|[(enc & s & -> & [-> | ->])|(v & -> & Hv)]]; simpl;
    try (apply arg_longlong_tot; intros); by apply incr_body_tot.
Qed.

Lemma to_signed_ll z : is_ll (to_signed 64 z).
Proof.
  unfold to_signed, is_ll, LLONG_MIN, LLONG_MAX. pose proof (Z.mod_pos_bound z (2 ^ 64) ltac:(lia)).
  case_match; lia.
Qed.

Lemma append_ok K argv : arg argv 1 ∈ K → prog_ok K (appendCommand g argv).
Proof using Hg.
  intros Hin. split; [done|split; [by intros ? [= <-]|]]. intros [[[t enc] ptr]|] Hf; [|split; [apply arg_value_val|done]].
  destruct (negb _) eqn:Ht; [done|]. unfold checkStringLength. destruct (_ <? _); [done|].
  destruct (decoded enc ptr); [|done]. repeat split; try (by intros ? [= <-]). by right.
Qed.
Lemma append_sync argv : prog_sync (appendCommand g argv).
Proof.
  split; [done|]. intros [[[t enc] ptr]|]; [|done].
  destruct (negb _) eqn:Ht; [done|]. unfold checkStringLength. destruct (_ <? _); [done|].
  by destruct (decoded enc ptr).
Qed.
Lemma append_tot c argv : tot c always (appendCommand g argv).
Proof using Hg.
  apply tot_lookupWrite. intros [[[t enc] ptr]|] Hf; [|apply tot_add; [done|apply arg_value_val|apply tot_ret]].
  destruct (negb (is_string t)) eqn:Ht; [apply tot_ret|]. unfold checkStringLength. destruct (_ <? _); [apply tot_ret|].
  eapply (decoded_found (tot c _)); [exact Hf|done|]. intros s Hs.
  apply negb_false_iff, bool_decide_eq_true in Ht. subst t.
  apply tot_unshare; [unfold holds; eauto|]. intros b. apply tot_mutate; [unfold holds; eauto|by right|apply tot_ret].
Qed.

Lemma strlen_ok K argv : arg argv 1 ∈ K → prog_ok K (strlenCommand argv).
Proof.
  intros Hin. split; [done|split; [by intros ? [= <-]|]]. intros [[[t enc] ptr]|] _; [|done]. by destruct (negb _).
Qed.
Lemma strlen_sync argv : prog_sync (strlenCommand argv).
Proof. split; [done|]. intros [[[t enc] ptr]|]; [|done]. by destruct (negb _). Qed.
Lemma strlen_tot c argv : tot c always (strlenCommand argv).
Proof. apply tot_lookupRead. intros [[[t enc] ptr]|]; [destruct (negb _)|]; apply tot_ret. Qed.
End safe.

(** ** What the commands compute *)

(** An expired key is the only thing a lookup changes. *)
Lemma a_expire_frame c key d b d' :
  a_expireIfNeeded c key d = Some (b, d') → d' = d ∨ d' = a_del key d.
Proof.
  unfold a_expireIfNeeded. destruct (a_getExpire key d) as [w|]; simpl; [|done].
  destruct (_ && _ && _); [destruct (masterhost c)|]; intros [= <- <-]; auto.
Qed.
Lemma a_expire_none c key d : a_expires d !! key = None → a_expireIfNeeded c key d = Some (false, d).
Proof. intros H. unfold a_expireIfNeeded, a_getExpire. by rewrite H. Qed.

(** C30: A value that is set is read back.  Whatever bytes SET stores, and however the server encodes
    them (as a shared integer, an integer, an embedded or a raw string), a later GET returns
    the same bytes, and the other keys keep their values. *)
Theorem set_get g1 g2 w1 w2 key val d :
  wf_env (cfg_env g1) → adb_ok d →
  ∃ d1, arun g1 (setCommand g1 [w1; key; val]) d = Some (shared_ok, d1) ∧
    (∀ k, k ≠ key → a_dict d1 !! k = a_dict d !! k) ∧
    arun g2 (getCommand [w2; key]) d1 = Some (RBulk val, d1).
Proof.
  intros Hw Hd. destruct (a_expire_ok g1 key d Hd) as (b & d0 & He & Hd0).
  destruct (arg_value_ok g1 val Hw) as (_ & Ht & Hdec & _).
  eexists. split_and!.
  - unfold setCommand, setGenericCommand, set_guard, set_store.
    change (arg [w1; key; val] 1) with key. change (arg [w1; key; val] 2) with val.
    simpl. rewrite He. simpl. done.
  - intros k Hk. simpl. rewrite lookup_insert_ne by done.
    apply a_expire_frame in He as [-> | ->]; [done|]. simpl. by rewrite lookup_delete_ne.
  - unfold getCommand, getGenericCommand. change (arg [w2; key] 1) with key. simpl. unfold a_lookupRead.
    rewrite a_expire_none by (simpl; apply lookup_delete_eq). simpl. rewrite lookup_insert_eq.
    unfold content_of. rewrite Ht. simpl. by rewrite Hdec.
Qed.

Lemma set_get_witness :
  let g := Cfg any_env false false false false false false false 0 0 0 in
  let d := Adb {[ [x61] := (OBJ_LIST, OBJ_ENCODING_QUICKLIST, PQuicklist []) ]} {[ [x61] := 5 ]} in
  ∃ d1, arun g (setCommand g [[]; [x61]; [x31; x32]]) d = Some (shared_ok, d1) ∧
    (∀ k, k ≠ [x61] → a_dict d1 !! k = a_dict d !! k) ∧
    arun g (getCommand [[]; [x61]]) d1 = Some (RBulk [x31; x32], d1).
Proof.
  intros g d. apply (set_get g g [] [] [x61] [x31; x32] d).
  - repeat split; vm_compute; congruence.
  - split.
    + intros key. unfold d. simpl. destruct (decide (key = [x61])) as [->|].
      * rewrite !lookup_singleton_eq. eauto.
      * rewrite lookup_singleton_ne by done. by intros [].
    + intros key t enc ptr. unfold d. cbn [a_dict]. intros [<- [= <- <- <-]]%lookup_singleton_Some. right. apply Forall_nil_2.
Defined.

(** The number a counter starts from: missing keys count as 0. *)
Definition counter_value (v : option content) : option Z :=
  match v with None => Some 0 | Some (_, enc, ptr) => decoded enc ptr ≫= string2ll end.

(** C31: [incrDecrCommand], the body of INCR, DECR, INCRBY and DECRBY, is exact 64-bit arithmetic.
    A counter that has no time to live moves by the increment, whatever the encoding of its value, if the sum is a 64-bit integer; otherwise, and if the
    value is not a number, the client gets an error and the data stays as it is.  DECRBY
    passes the negated decrement; for the smallest integer see [decrby_smallest]. *)
Theorem incr_exact g key incr d :
  wf_env (cfg_env g) → adb_ok d → is_ll incr → a_expires d !! key = None →
  match a_dict d !! key with Some (t, _, _) => is_string t = true | None => True end →
  arun g (incrDecrCommand g key incr) d = Some
    match counter_value (a_dict d !! key) with
    | None => (notinteger, d)
    | Some v =>
        if bool_decide (is_ll (v + incr))
        then (RInt (v + incr), a_put key (OBJ_STRING, OBJ_ENCODING_INT, PInt (v + incr)) d)
        else (RError "increment or decrement would overflow", d)
    end.
Proof.
  intros Hw Hd Hi Hex Hs. unfold incrDecrCommand. simpl. rewrite (a_expire_none _ _ _ Hex). simpl.
  pose proof (adb_found d key Hd) as Hf.
  assert (∀ v o, a_dict d !! key = o → is_ll v → arun g (incr_body g key o incr v) d = Some
    (if bool_decide (is_ll (v + incr))
     then (RInt (v + incr), a_put key (OBJ_STRING, OBJ_ENCODING_INT, PInt (v + incr)) d)
     else (RError "increment or decrement would overflow", d))) as Hbody.
  { intros v o Ho Hv. unfold incr_body. rewrite incr_in_range by done.
    destruct (bool_decide_reflect (is_ll (v + incr))) as [Hr|]; simpl; [|done].
    destruct o as [x|]; simpl.
    - rewrite (proj2 (a_has_true key d)) by eauto. done.
    - rewrite (proj2 (a_has_false key d)) by done. simpl.
      by destruct (val_ok_integer (cfg_env g) _ Hw Hr) as [_ ->]. }
  destruct (found_string (a_dict d !! key) Hf) as [Ho|[(enc & s & Ho & He)|(v & Ho & Hv)]].
  { destruct (a_dict d !! key) as [[[t enc] ptr]|]; [by rewrite Hs|done]. }
  - rewrite Ho. simpl. by apply Hbody.
  - rewrite Ho. simpl.
    assert (decoded enc (PSds s) = Some s) as Hdec by (by destruct He as [-> | ->]). rewrite Hdec. simpl.
    assert (obj_longlong (Some (OBJ_STRING, enc, PSds s)) (incr_body g key (Some (OBJ_STRING, enc, PSds s)) incr)
      = arg_longlong s (incr_body g key (Some (OBJ_STRING, enc, PSds s)) incr)) as E
      by (by destruct He as [-> | ->]).
    simpl in E. rewrite E. unfold arg_longlong. destruct (string2ll s) as [v|] eqn:Hv; [|done].
    apply Hbody; [done|]. by apply string2ll_sound in Hv as [? _].
  - rewrite Ho. simpl. rewrite ll2string_32 by done. simpl. rewrite string2ll_complete by done. by apply Hbody.
Qed.

Lemma incr_exact_witness :
  let g := Cfg any_env false false false false false false false 0 0 0 in
  let d := Adb {[ [x61] := (OBJ_STRING, OBJ_ENCODING_INT, PInt LLONG_MAX) ]} ∅ in
  arun g (incrDecrCommand g [x61] 1) d = Some (RError "increment or decrement would overflow", d).
Proof.
  intros g d. rewrite (incr_exact g [x61] 1 d).
  - reflexivity.
  - repeat split; vm_compute; congruence.
  - split; [by intros key []|]. intros key t enc ptr. unfold d. cbn [a_dict]. intros [<- [= <- <- <-]]%lookup_singleton_Some.
    right. vm_compute. split; congruence.
  - vm_compute. split; congruence.
  - reflexivity.
  - reflexivity.
Defined.

(** DECRBY of the smallest integer goes the wrong way.  [decrbyCommand] negates the decrement in 64 bits;
    the smallest integer is its own negation, so that decrementing a missing
    counter by it stores the smallest integer instead of reporting the overflow. *)
Theorem decrby_smallest g w key :
  ∃ d', arun g (decrbyCommand g [w; key; sdsll2str LLONG_MIN]) (Adb ∅ ∅) = Some (RInt LLONG_MIN, d').
Proof.
  unfold decrbyCommand, arg_longlong. change (arg [w; key; sdsll2str LLONG_MIN] 2) with (sdsll2str LLONG_MIN).
  change (string2ll (sdsll2str LLONG_MIN)) with (Some LLONG_MIN).
  change (to_signed 64 (- LLONG_MIN)) with LLONG_MIN. unfold incrDecrCommand. simpl.
  rewrite a_expire_none by apply lookup_empty. simpl. rewrite lookup_empty. simpl. eexists. reflexivity.
Qed.

(** SETRANGE can be made to abort the server.  The new length is computed without regard to overflow, so that
    an offset close to the largest integer passes the test against 512MB, and
    the allocation that follows cannot succeed. *)
Theorem setrange_overflow g w key :
  arun g (setrangeCommand g [w; key; sdsll2str LLONG_MAX; [x78]]) (Adb ∅ ∅) = None.
Proof.
  unfold setrangeCommand, arg_longlong.
  change (arg [w; key; sdsll2str LLONG_MAX; [x78]] 2) with (sdsll2str LLONG_MAX).
  change (string2ll (sdsll2str LLONG_MAX)) with (Some LLONG_MAX). simpl.
  rewrite a_expire_none by apply lookup_empty. simpl. rewrite lookup_empty. reflexivity.
Qed.
