(* ===== verification/HashCmds.v ===== *)
(** * The commands of hashes (src/src/t_hash.c)

    The commands are programs over the keyspace ([Prog]); what they do to the object is in [Hash],
    here with a finite map for the dictionary, as in [Robj].  A command that changes the object
    in place ends with [KMutate], which puts the changed object where the old one was; HLEN and
    HGETALL do so, too, as [ziplistLen] may store the length in the header.

    The arithmetic of HINCRBYFLOAT ([strtold], [+] and printing of [long double]) is an argument.
    Notifications and the counter of changes are left out, and so is HSCAN.

    Shown: on a key that is missing or has a hash, every command has the effect and the reply it
    would have on a finite map, a missing key being the empty one; it leaves no empty hash
    behind, and a value that can be dumped.  The exception is HINCRBYFLOAT. *)

From S2P Require Import Prelude Util Mem Ziplist ZiplistOps ZiplistRef Robj Serdes DictApi Hash RocksApi Keyspace KeyspaceInv Prog Cmds RockJob CmdLogic Strings.
From stdpp Require Import list gmap strings.
#[local] Open Scope Z_scope.
#[local] Open Scope prog_scope.

Abbreviation hobject := (@hobj map_api).

(** [o->encoding] and [o->ptr] as a hash, and back. *)
Definition as_hash (enc : obj_encoding) (ptr : payload) : hobject :=
  match enc, ptr with
  | OBJ_ENCODING_ZIPLIST, PZiplist zl => HZiplist (D := map_api) (Some <$> zl)
  | OBJ_ENCODING_HT, PHash d => HDict (D := map_api) d
  | _, _ => HOther
  end.
Definition hash_content (o : hobject) : res content :=
  match o with
  | HZiplist zl => b ← res_of_option (mapM id zl) "uninitialized byte"; mret (OBJ_HASH, OBJ_ENCODING_ZIPLIST, PZiplist b)
  | HDict d => mret (OBJ_HASH, OBJ_ENCODING_HT, PHash d)
  | HOther => unknown
  end.

(** A computation on the object, in a program. *)
Definition run_res {A} (r : res A) (f : A → prog reply) : prog reply :=
  match r with Ok a => f a | Abort msg => Panic msg end.
(** The object is changed in place, and the client gets the reply. *)
Definition finish (key : bytes) (x : reply * hobject) : prog reply :=
  run_res (hash_content x.2) (fun c => KMutate key c ;; Ret x.1).

Section commands.
Variables (hash_max_ziplist_entries hash_max_ziplist_value : Z).
Implicit Types (o : hobject) (key : bytes) (argv : list bytes).
Abbreviation set := (hashTypeSet (D := map_api) hash_max_ziplist_entries).
Abbreviation try_conversion := (hashTypeTryConversion (D := map_api) hash_max_ziplist_value).

(** [createHashObject] *)
Definition new_hash (g : server_cfg) : res robj :=
  o ← createHashObject (D := map_api); c ← hash_content o; mret (Robj c.1.1 c.1.2 (initial_lru (cfg_env g)) 1 c.2).
Definition hashTypeLookupWriteOrCreate (g : server_cfg) key (f : hobject → prog reply) : prog reply :=
  v ⇐ KLookupWrite false key;
  match v with
  | None => run_res (new_hash g) (fun obj => KAdd key obj ;; f (as_hash (o_encoding obj) (o_ptr obj)))
  | Some (t, enc, ptr) => if bool_decide (t = OBJ_HASH) then f (as_hash enc ptr) else Ret wrongtypeerr
  end.
(** [lookupKeyReadOrReply] or [lookupKeyWriteOrReply] and [checkType]. *)
Definition with_hash (write : bool) key (missing : reply) (f : hobject → prog reply) : prog reply :=
  v ⇐ (if write then KLookupWrite false key else KLookupRead false key);
  match v with
  | None => Ret missing
  | Some (t, enc, ptr) => if bool_decide (t = OBJ_HASH) then f (as_hash enc ptr) else Ret wrongtypeerr
  end.

Definition hsetnxCommand (g : server_cfg) argv : prog reply :=
  hashTypeLookupWriteOrCreate g (arg argv 1) (fun o => run_res (
    o ← try_conversion o [arg argv 2; arg argv 3];
    '(b, o) ← hashTypeExists o (arg argv 2);
    if b : bool then mret (czero, o)
    else '(_, o) ← set o (arg argv 2) (arg argv 3); mret (cone, o)) (finish (arg argv 1))).

(** [for (i = 2; i < c->argc; i += 2)] *)
Fixpoint set_pairs o (l : list (bytes * bytes)) (created : Z) : res (Z * hobject) :=
  match l with
  | [] => mret (created, o)
  | (f, v) :: l' => '(update, o) ← set o f v; set_pairs o l' (if update : bool then created else created + 1)
  end.
Definition hsetCommand (g : server_cfg) argv : prog reply :=
  if (Z.of_nat (length argv) mod 2 =? 1) then Ret (RError "wrong number of arguments for HMSET")
  else hashTypeLookupWriteOrCreate g (arg argv 1) (fun o => run_res (
    o ← try_conversion o (drop 2 argv);
    '(created, o) ← set_pairs o (pairs_of (drop 2 argv)) 0;
    mret (match arg argv 0 !! 1%nat with Some (x73 | x53) => RInt created | _ => shared_ok end, o)) (finish (arg argv 1))).

Definition overflows (oldvalue incr : Z) : bool :=
  (incr <? 0) && (oldvalue <? 0) && (incr <? LLONG_MIN - oldvalue) || (0 <? incr) && (0 <? oldvalue) && (LLONG_MAX - oldvalue <? incr).
Definition hincrbyCommand (g : server_cfg) argv : prog reply :=
  arg_longlong (arg argv 3) (fun incr => hashTypeLookupWriteOrCreate g (arg argv 1) (fun o => run_res (
    '(v, o) ← hashTypeGetValue o (arg argv 2);
    match match v with None => Some 0 | Some (inl vstr) => string2ll vstr | Some (inr value) => Some value end with
    | None => mret (RError "hash value is not an integer", o)
    | Some value =>
        if overflows value incr then mret (RError "increment or decrement would overflow", o)
        else '(_, o) ← set o (arg argv 2) (sdsfromlonglong (value + incr)); mret (RInt (value + incr), o)
    end) (finish (arg argv 1)))).

(** [None] is a value that is no number, and a sum that is not finite. *)
Definition hincrbyfloatCommand {ld : Type} (parse : bytes → option ld) (of_ll : Z → ld) (add : ld → ld → option ld) (print : ld → bytes)
    (g : server_cfg) argv : prog reply :=
  match parse (arg argv 3) with
  | None => Ret (RError "value is not a valid float")
  | Some incr =>
      hashTypeLookupWriteOrCreate g (arg argv 1) (fun o => run_res (
        '(v, o) ← hashTypeGetValue o (arg argv 2);
        match match v with None => Some (of_ll 0) | Some (inl vstr) => parse vstr | Some (inr ll) => Some (of_ll ll) end with
        | None => mret (RError "hash value is not a float", o)
        | Some value =>
            match add value incr with
            | None => mret (RError "increment would produce NaN or Infinity", o)
            | Some value => '(_, o) ← set o (arg argv 2) (print value); mret (RBulk (print value), o)
            end
        end) (finish (arg argv 1)))
  end.

Definition addHashFieldToReply o (field : bytes) : res reply :=
  match o with
  | HZiplist zl => v ← hashTypeGetFromZiplist zl field; mret (match v with None => RNull | Some v => RBulk (zvalue_sds v) end)
  | HDict d => '(v, _) ← hashTypeGetFromHashTable (D := map_api) d field; mret (match v with None => RNull | Some v => RBulk v end)
  | HOther => unknown
  end.
Definition hgetCommand argv : prog reply :=
  with_hash false (arg argv 1) RNull (fun o => run_res (addHashFieldToReply o (arg argv 2)) Ret).
Definition hmgetCommand argv : prog reply :=
  v ⇐ KLookupRead false (arg argv 1);
  match v with
  | None => Ret (RMany ((fun _ => RNull) <$> drop 2 argv))
  | Some (t, enc, ptr) =>
      if bool_decide (t = OBJ_HASH) then run_res (mapM (addHashFieldToReply (as_hash enc ptr)) (drop 2 argv)) (fun l => Ret (RMany l))
      else Ret wrongtypeerr
  end.

(** [for (j = 2; j < c->argc; j++)]; [true] says that the key is removed. *)
Fixpoint del_fields o (l : list bytes) (deleted : Z) : res (Z * bool * hobject) :=
  match l with
  | [] => mret (deleted, false, o)
  | f :: l' =>
      '(b, o) ← hashTypeDelete o f;
      if b : bool then
        '(n, o) ← hashTypeLength o;
        if n =? 0 then mret (deleted + 1, true, o) else del_fields o l' (deleted + 1)
      else del_fields o l' deleted
  end.
Definition hdelCommand argv : prog reply :=
  with_hash true (arg argv 1) czero (fun o => run_res (del_fields o (drop 2 argv) 0) (fun x =>
    let '(deleted, keyremoved, o) := x in
    if keyremoved : bool then KDelete (arg argv 1) ;; Ret (RInt deleted) else finish (arg argv 1) (RInt deleted, o))).

Definition hlenCommand argv : prog reply :=
  with_hash false (arg argv 1) czero (fun o => run_res ('(n, o) ← hashTypeLength o; mret (RInt n, o)) (finish (arg argv 1))).
Definition hstrlenCommand argv : prog reply :=
  with_hash false (arg argv 1) czero (fun o => run_res (hashTypeGetValueLength o (arg argv 2)) (fun x => Ret (RInt x.1))).
Definition hexistsCommand argv : prog reply :=
  with_hash false (arg argv 1) czero (fun o => run_res (hashTypeExists o (arg argv 2)) (fun x => Ret (if x.1 : bool then cone else czero))).

(** The pairs one after the other, or one of each. *)
Definition pair_replies (keys values : bool) (l : list (bytes * bytes)) : list reply :=
  l ≫= (fun p => (if keys then [RBulk p.1] else []) ++ (if values then [RBulk p.2] else [])).
Definition genericHgetallCommand (keys values : bool) argv : prog reply :=
  with_hash false (arg argv 1) (RMany []) (fun o => run_res ('(l, o) ← hash_pairs o; mret (RMany (pair_replies keys values l), o)) (finish (arg argv 1))).
Definition hkeysCommand := genericHgetallCommand true false.
Definition hvalsCommand := genericHgetallCommand false true.
Definition hgetallCommand := genericHgetallCommand true true.
End commands.

(** ** Objects and their contents *)


Lemma zl_all zl es : zl_ok zl es → ∃ b, zl = Some <$> b.
Proof.
  intros [Hl Hs _ Hb Ht (n & Hn & _)]. exists (le_split 4 (Z.of_nat (length zl)) ++ le_split 4 (10 + last_off es) ++ le_split 2 n ++ ents 0 es ++ END).
  apply seg_all.
  - apply seg_len in Hs as Hs'; [|by destruct (ents 0 es)]. rewrite !length_app, !length_le_split, !Nat2Z.inj_add. rewrite length_app in Hs'. cbn [length END] in *.
    assert (Z.of_nat (length (ents 0 es)) = esize es) by apply length_ents. lia.
  - do 3 (apply seg_app; rewrite length_le_split; split; [done|]). exact Hs.
Qed.

Lemma zl_blob b es : zl_ok (Some <$> b) es → Z.of_nat (length b) < 2 ^ 32 → wf_ziplist_blob b.
Proof.
  intros Hz Hlen. pose proof (z_len _ _ Hz) as Hl. pose proof (z_bytes _ _ Hz) as [_ Hb]. rewrite length_fmap in *. pose proof (esize_nonneg es).
  split; [lia|]. unfold Serdes.ziplistBlobLen. rewrite <- (le_combine_split_small 4 (Z.of_nat (length b))) by lia. f_equal. apply list_eq. intros i.
  destruct (decide (i < 4)%nat) as [Hi|Hi].
  - rewrite lookup_take_lt by done. destruct (lookup_lt_is_Some_2 (le_split 4 (Z.of_nat (length b))) i) as [x Hx]; [by rewrite length_le_split|].
    rewrite Hx. apply Hb in Hx. change (Z.to_nat 0 + i)%nat with i in Hx. rewrite list_lookup_fmap in Hx. destruct (b !! i); [|done]. cbn in Hx. congruence.
  - rewrite !lookup_ge_None_2; [done|rewrite length_le_split; lia|rewrite length_take; lia].
Qed.

Lemma map_weight_lookup (m : gmap bytes bytes) f v : m !! f = Some v → 36 + Z.of_nat (length f) + Z.of_nat (length v) + 11 ≤ mweight m.
Proof.
  intros Hf. unfold mweight. rewrite <- (weight_flat_perm _ _ (map_to_list_delete m f v Hf)), weight_flat_cons. cbn [fst snd].
  pose proof (weight_flat_length (map_to_list (delete f m))). lia.
Qed.
Lemma mweight_fresh (m : gmap bytes bytes) f v : m !! f = None → mweight (<[f := v]> m) = 36 + Z.of_nat (length f) + Z.of_nat (length v) + mweight m.
Proof. intros Hf. unfold mweight. by rewrite (weight_flat_perm _ _ (map_to_list_insert m f v Hf)), weight_flat_cons. Qed.
Lemma mweight_delete (m : gmap bytes bytes) f : mweight (delete f m) ≤ mweight m.
Proof.
  destruct (m !! f) as [v|] eqn:Hf; [|by rewrite delete_id]. unfold mweight at 2. rewrite <- (weight_flat_perm _ _ (map_to_list_delete m f v Hf)), weight_flat_cons.
  unfold mweight. lia.
Qed.
Lemma mweight_insert (m : gmap bytes bytes) f v : mweight (<[f := v]> m) ≤ 36 + Z.of_nat (length f) + Z.of_nat (length v) + mweight m.
Proof.
  rewrite <- insert_delete_eq, mweight_fresh by apply lookup_delete_eq. pose proof (mweight_delete m f). lia.
Qed.

Section spec.
Variables (hash_max_ziplist_entries hash_max_ziplist_value : Z).
Implicit Types (o : hobject) (key f v : bytes) (argv : list bytes) (m : gmap bytes bytes) (d : adb).
Abbreviation rep := (hash_rep (D := map_api) hash_max_ziplist_entries).

Lemma hash_content_ok o m :
  rep o m → mweight m < 2 ^ 32 → ∃ enc ptr, hash_content o = Ok (OBJ_HASH, enc, ptr) ∧ as_hash enc ptr = o ∧ wf_payload OBJ_HASH enc ptr.
Proof.
  intros [Hr _] Hw. destruct o as [zl|dd|]; cbn [hash_raw hash_content] in *; [| |done].
  - destruct Hr as (l & (es & Hz & E & Hwl) & _). pose proof (zpairs_small _ _ _ Hz E Hwl) as Hs. destruct (zl_all zl es Hz) as [b ->]. rewrite mapM_id_Some. cbn [res_of_option mbind res_bind].
    eexists _, _. split; [done|]. split; [done|]. rewrite length_fmap in Hs. by eapply zl_blob.
  - cbn in Hr. subst dd. eexists _, _. split; [done|]. split; [done|]. pose proof (mweight_size m). cbn. split; [lia|]. intros f v Hf%map_weight_lookup. unfold wf_sds. lia.
Qed.

(** The key is missing, or it has a hash that is not empty. *)
Definition key_is d key m : Prop :=
  match a_dict d !! key with
  | None => m = ∅
  | Some (t, enc, ptr) => t = OBJ_HASH ∧ rep (as_hash enc ptr) m ∧ m ≠ ∅
  end.
(** The value of the key can be dumped, and the rest of the database is as before. *)
Definition only_changes d key d' : Prop :=
  (∀ k, k ≠ key → a_dict d' !! k = a_dict d !! k ∧ a_expires d' !! k = a_expires d !! k) ∧ a_expires d' !! key = None ∧ found_ok (a_dict d' !! key).

Lemma finish_ok g d key r o m e0 p0 :
  a_dict d !! key = Some (OBJ_HASH, e0, p0) → a_expires d !! key = None → rep o m → mweight m < 2 ^ 32 →
  ∃ d', arun g (finish key (r, o)) d = Some (r, d') ∧ (m ≠ ∅ → key_is d' key m) ∧ only_changes d key d'.
Proof.
  intros Hk He Hr Hw. destruct (hash_content_ok o m Hr Hw) as (enc & ptr & E & Ha & Hwf). unfold finish. cbn [fst snd]. rewrite E. cbn [run_res arun aexec mbind option_bind]. rewrite Hk. cbn.
  eexists. split; [done|]. split.
  - intros Hne. unfold key_is. cbn. rewrite lookup_insert_eq, Ha. done.
  - split; [|split; [done|cbn; rewrite lookup_insert_eq; by right]]. intros k Hne. cbn. by rewrite lookup_insert_ne.
Qed.

Lemma new_hash_ok g : 0 ≤ hash_max_ziplist_entries →
  ∃ obj, new_hash g = Ok obj ∧ o_type obj = OBJ_HASH ∧ rep (as_hash (o_encoding obj) (o_ptr obj)) ∅.
Proof.
  intros Hmax. destruct ziplist_new_ok as (zl & Ez & Hz). assert (rep (HZiplist zl) ∅) as Hr.
  { split; [|intros zl' _; by rewrite map_size_empty]. exists []. split; [by exists []|]. split; [constructor|done]. }
  destruct (hash_content_ok _ _ Hr) as (enc & ptr & E & Ha & _); [done|]. unfold new_hash, createHashObject. rewrite Ez. cbn [mbind res_bind mret res_ret]. rewrite E. cbn [mbind res_bind mret res_ret].
  eexists. split; [done|]. cbn. split; [done|]. by rewrite Ha.
Qed.

(** What a command does to the object, and what the client then gets. *)
Definition body_ok (body : hobject → res (reply * hobject)) m (r : reply) m' : Prop :=
  mweight m' < 2 ^ 32 ∧ m' ≠ ∅ ∧ ∀ o, rep o m → ∃ o', body o = Ok (r, o') ∧ rep o' m'.
Definition command_ok g (p : prog reply) d key (r : reply) m' : Prop :=
  ∃ d', arun g p d = Some (r, d') ∧ key_is d' key m' ∧ only_changes d key d'.

Lemma create_ok g d key m body r m' :
  0 ≤ hash_max_ziplist_entries → key_is d key m → a_expires d !! key = None → body_ok body m r m' →
  command_ok g (hashTypeLookupWriteOrCreate g key (fun o => run_res (body o) (finish key))) d key r m'.
Proof.
  intros Hmax Hk He (Hw & Hne & Hb). unfold hashTypeLookupWriteOrCreate, command_ok. cbn [arun aexec]. rewrite (a_expire_none _ _ _ He). cbn [mbind option_bind]. unfold key_is in Hk.
  destruct (a_dict d !! key) as [[[t enc] ptr]|] eqn:Ek.
  - destruct Hk as (-> & Hr & _). rewrite bool_decide_eq_true_2 by done. destruct (Hb _ Hr) as (o' & -> & Hr'). cbn [run_res].
    destruct (finish_ok g d key r o' m' enc ptr Ek He Hr' Hw) as (d' & ? & ? & ?). eauto.
  - subst m. destruct (new_hash_ok g Hmax) as (obj & -> & Ht & Hr). cbn [run_res arun aexec]. rewrite (proj2 (a_has_false key d) Ek). cbn [mbind option_bind]. set (d1 := a_put key (content_of obj) d).
    destruct (Hb _ Hr) as (o' & -> & Hr'). cbn [run_res].
    destruct (finish_ok g d1 key r o' m' (o_encoding obj) (o_ptr obj)) as (d' & E & Hk' & Ho & He' & Hf); [unfold d1; cbn; rewrite lookup_insert_eq; unfold content_of; by rewrite Ht|done|done|done|].
    exists d'. split; [done|]. split; [by apply Hk'|]. split; [|done]. intros k Hne'. destruct (Ho k Hne') as [-> ->]. unfold d1. cbn. by rewrite lookup_insert_ne.
Qed.

(** A command that reads, and may rewrite the header of a ziplist. *)
Lemma lookup_found g (write : bool) d key m missing F r m' :
  key_is d key m → a_expires d !! key = None →
  (m = ∅ → r = missing ∧ m' = ∅ ∧ found_ok None) →
  (∀ enc ptr, a_dict d !! key = Some (OBJ_HASH, enc, ptr) → rep (as_hash enc ptr) m → m ≠ ∅ → command_ok g (F (as_hash enc ptr)) d key r m') →
  command_ok g (with_hash write key missing F) d key r m'.
Proof.
  intros Hk He Hnone Hsome. unfold with_hash, command_ok, key_is in *.
  assert (arun g (with_hash write key missing F) d = arun g (match a_dict d !! key with None => Ret missing
    | Some (t, enc, ptr) => if bool_decide (t = OBJ_HASH) then F (as_hash enc ptr) else Ret wrongtypeerr end) d) as Erun.
  { unfold with_hash. destruct write; cbn [arun aexec]; [|unfold a_lookupRead]; rewrite (a_expire_none _ _ _ He); done. }
  unfold with_hash in Erun. rewrite Erun. destruct (a_dict d !! key) as [[[t enc] ptr]|] eqn:Ek.
  - destruct Hk as (-> & Hr & Hne). rewrite bool_decide_eq_true_2 by done. by apply Hsome.
  - destruct (Hnone Hk) as (-> & -> & _). exists d. split; [done|]. rewrite Ek. split; [done|]. split; [done|]. split; [done|]. by replace (a_dict d !! key) with (None : option content).
Qed.
Lemma read_keeps g d key m r enc ptr :
  a_dict d !! key = Some (OBJ_HASH, enc, ptr) → rep (as_hash enc ptr) m → m ≠ ∅ → mweight m < 2 ^ 32 → a_expires d !! key = None → command_ok g (Ret r) d key r m.
Proof.
  intros Hk Hr Hne Hw He. exists d. split; [done|]. unfold key_is. rewrite Hk. split; [done|]. split; [done|]. split; [done|].
  replace (a_dict d !! key) with (Some (OBJ_HASH, enc, ptr) : option content) by done. right.
  destruct (hash_content_ok _ _ Hr Hw) as (enc' & ptr' & E & Ha & Hwf).
  destruct enc, ptr; cbn in Hr, E; try (by destruct Hr as [[] _]); [by injection E as <- <-|]. rewrite mapM_id_Some in E. cbn in E. by injection E as <- <-.
Qed.

(** ** What the commands are to do *)

Inductive hcommand := Hset | Hsetnx | Hincrby | Hget | Hmget | Hdel | Hlen | Hstrlen | Hexists | Hkeys | Hvals | Hgetall.
Definition hproc (c : hcommand) (g : server_cfg) argv : prog reply :=
  match c with
  | Hset => hsetCommand hash_max_ziplist_entries hash_max_ziplist_value g argv
  | Hsetnx => hsetnxCommand hash_max_ziplist_entries hash_max_ziplist_value g argv
  | Hincrby => hincrbyCommand hash_max_ziplist_entries g argv
  | Hget => hgetCommand argv
  | Hmget => hmgetCommand argv
  | Hdel => hdelCommand argv
  | Hlen => hlenCommand argv
  | Hstrlen => hstrlenCommand argv
  | Hexists => hexistsCommand argv
  | Hkeys => hkeysCommand argv
  | Hvals => hvalsCommand argv
  | Hgetall => hgetallCommand argv
  end.

Definition insert_pairs (l : list (bytes * bytes)) m : gmap bytes bytes := foldl (fun m p => <[p.1 := p.2]> m) m l.
Definition delete_fields (l : list bytes) m : gmap bytes bytes := foldl (fun m f => delete f m) m l.
Definition field_reply m f : reply := match m !! f with Some v => RBulk v | None => RNull end.
Definition field_number m f : option Z := match m !! f with None => Some 0 | Some s => string2ll s end.

Definition hspec (c : hcommand) argv m (r : reply) m' : Prop :=
  let f := arg argv 2 in
  match c with
  | Hset =>
      if (Z.of_nat (length argv) mod 2 =? 1) then r = RError "wrong number of arguments for HMSET" ∧ m' = m
      else m' = insert_pairs (pairs_of (drop 2 argv)) m ∧
        r = match arg argv 0 !! 1%nat with Some (x73 | x53) => RInt (Z.of_nat (size m') - Z.of_nat (size m)) | _ => shared_ok end
  | Hsetnx => if m !! f then r = czero ∧ m' = m else r = cone ∧ m' = <[f := arg argv 3]> m
  | Hincrby =>
      match string2ll (arg argv 3), field_number m f with
      | None, _ => r = notinteger ∧ m' = m
      | Some _, None => r = RError "hash value is not an integer" ∧ m' = m
      | Some incr, Some value =>
          if bool_decide (is_ll (value + incr)) then r = RInt (value + incr) ∧ m' = <[f := sdsll2str (value + incr)]> m
          else r = RError "increment or decrement would overflow" ∧ m' = m
      end
  | Hget => r = field_reply m f ∧ m' = m
  | Hmget => r = RMany (field_reply m <$> drop 2 argv) ∧ m' = m
  | Hdel => m' = delete_fields (drop 2 argv) m ∧ r = RInt (Z.of_nat (size m) - Z.of_nat (size m'))
  | Hlen => r = RInt (Z.of_nat (size m)) ∧ m' = m
  | Hstrlen => r = RInt (Z.of_nat (length (default [] (m !! f)))) ∧ m' = m
  | Hexists => r = (if bool_decide (is_Some (m !! f)) then cone else czero) ∧ m' = m
  | Hkeys => (∃ l, l ≡ₚ map_to_list m ∧ r = RMany (pair_replies true false l)) ∧ m' = m
  | Hvals => (∃ l, l ≡ₚ map_to_list m ∧ r = RMany (pair_replies false true l)) ∧ m' = m
  | Hgetall => (∃ l, l ≡ₚ map_to_list m ∧ r = RMany (pair_replies true true l)) ∧ m' = m
  end.

(** More than the bytes the arguments can add to a ziplist. *)
Fixpoint args_sum (l : list bytes) : Z := match l with [] => 0 | s :: l' => 36 + Z.of_nat (length s) + args_sum l' end.
Fixpoint pairs_sum (l : list (bytes * bytes)) : Z := match l with [] => 0 | p :: l' => 36 + Z.of_nat (length p.1) + Z.of_nat (length p.2) + pairs_sum l' end.
Definition args_weight argv : Z := 100 + args_sum argv.

(** *** On the object *)

Lemma try_conversion_ok o m args : rep o m → ∃ o', hashTypeTryConversion (D := map_api) hash_max_ziplist_value o args = Ok o' ∧ rep o' m.
Proof.
  intros Hr. pose proof Hr as [Hraw _]. unfold hashTypeTryConversion. destruct o as [zl|dd|]; [|by eexists|done]. destruct (existsb _ _); [|by eexists].
  destruct (convert_ok zl m Hraw) as (d2 & -> & Hd). eexists. split; [done|]. by split.
Qed.

Lemma args_sum_nonneg l : 0 ≤ args_sum l.
Proof. induction l; cbn [args_sum]; lia. Qed.
Lemma pairs_sum_nonneg l : 0 ≤ pairs_sum l.
Proof. induction l; cbn [pairs_sum]; lia. Qed.
Lemma set_pairs_ok l : ∀ o m n,
  rep o m → mweight m + pairs_sum l < 2 ^ 32 →
  ∃ o', set_pairs hash_max_ziplist_entries o l n = Ok (n + (Z.of_nat (size (insert_pairs l m)) - Z.of_nat (size m)), o') ∧ rep o' (insert_pairs l m).
Proof.
  induction l as [|[f v] l IH]; intros o m n Hr Hw; cbn [set_pairs insert_pairs foldl pairs_sum fst snd] in *.
  - eexists. split; [|done]. unfold mret, res_ret. do 2 f_equal. lia.
  - pose proof (pairs_sum_nonneg l). pose proof (mweight_insert m f v).
    destruct (set_ok_hash hash_max_ziplist_entries o m f v ltac:(apply Hr)) as (o1 & -> & Hr1); [lia|lia|]. cbn [mbind res_bind].
    destruct (IH o1 (<[f := v]> m) (if bool_decide (is_Some (m !! f)) then n else n + 1) Hr1) as (o2 & -> & Hr2); [lia|]. exists o2. split; [|done]. do 2 f_equal.
    fold (insert_pairs l (<[f := v]> m)). destruct (m !! f) as [v0|] eqn:Ef.
    + rewrite map_size_insert_Some by (by rewrite Ef). rewrite bool_decide_eq_true_2 by done. done.
    + rewrite map_size_insert_None by done. rewrite bool_decide_eq_false_2 by (by intros []). lia.
Qed.
Lemma insert_pairs_ne l m : (m ≠ ∅ ∨ l ≠ []) → insert_pairs l m ≠ ∅.
Proof.
  revert m. induction l as [|[f v] l IH]; intros m Hne; cbn; [naive_solver|]. apply IH. left. apply insert_non_empty.
Qed.
Lemma pairs_weight args : pairs_sum (pairs_of args) ≤ args_sum args.
Proof.
  assert (∀ n args, (length args ≤ n)%nat → pairs_sum (pairs_of args) ≤ args_sum args) as H.
  { induction n as [|n IH]; intros [|a [|b l]] Hl; cbn [pairs_of pairs_sum args_sum length fst snd] in *; try lia. specialize (IH l). lia. }
  by apply (H (length args)).
Qed.
Lemma args_weight_drop argv : args_sum (drop 2 argv) ≤ args_weight argv - 100.
Proof. unfold args_weight. destruct argv as [|a [|b l]]; cbn [drop args_sum]; rewrite ?drop_0; lia. Qed.
Lemma args_weight_field argv : 60 + Z.of_nat (length (arg argv 2)) + Z.of_nat (length (arg argv 3)) ≤ args_weight argv.
Proof.
  unfold args_weight, arg. destruct argv as [|a0 [|a1 [|a2 [|a3 l]]]]; try pose proof (args_sum_nonneg l); cbn [lookup list_lookup default from_option args_sum length]; unfold id; lia.
Qed.

Lemma field_ok o m f : rep o m → addHashFieldToReply o f = Ok (field_reply m f).
Proof.
  intros [Hr _]. unfold field_reply. destruct o as [zl|dd|]; cbn [addHashFieldToReply hash_raw] in *; [| |done].
  - destruct Hr as (l & Hl & Hnd & ->). rewrite (get_from_ziplist_ok zl l f Hl Hnd). cbn [mbind res_bind]. destruct (list_to_map l !! f) as [v|]; cbn; [|done]. by rewrite shown_sds.
  - cbn in *. by subst dd.
Qed.

Lemma value_number o m f :
  rep o m → ∃ x o', hashTypeGetValue o f = Ok (x, o') ∧ rep o' m ∧
    match x with None => Some 0 | Some (inl s) => string2ll s | Some (inr n) => Some n end = field_number m f.
Proof.
  intros [Hr Hmax]. unfold field_number. destruct o as [zl|dd|]; cbn [hashTypeGetValue hash_raw] in *; [| |done].
  - pose proof Hr as (l & Hl & Hnd & ->). rewrite (get_from_ziplist_ok zl l f Hl Hnd). cbn [mbind res_bind]. eexists _, _. split; [done|]. split; [done|].
    destruct (list_to_map l !! f) as [v|]; cbn [fmap option_fmap option_map]; [|done]. unfold shown. destruct (zipTryEncoding v) as [[n e]|] eqn:E; [|done].
    apply zipTryEncoding_Some in E as (Hn & -> & _). by rewrite string2ll_complete.
  - cbn in *. subst dd. eexists _, _. split; [done|]. split; [done|]. by destruct (m !! f).
Qed.

Lemma del_fields_ok l : ∀ o m n,
  rep o m → m ≠ ∅ →
  ∃ b o', del_fields o l n = Ok (n + (Z.of_nat (size m) - Z.of_nat (size (delete_fields l m))), b, o') ∧
    if b : bool then delete_fields l m = ∅ else rep o' (delete_fields l m) ∧ delete_fields l m ≠ ∅.
Proof.
  induction l as [|f l IH]; intros o m n Hr Hne; cbn [del_fields delete_fields foldl].
  - eexists false, _. split; [|done]. unfold mret, res_ret. do 3 f_equal. lia.
  - destruct (delete_ok_hash hash_max_ziplist_entries o m f Hr) as (o1 & -> & Hr1). cbn [mbind res_bind]. fold (delete_fields l (delete f m)). destruct (m !! f) as [v|] eqn:Ef.
    + rewrite bool_decide_eq_true_2 by done. destruct (raw_length_ok o1 (delete f m) ltac:(apply Hr1)) as (o2 & -> & Hr2 & Hb & _). cbn [mbind res_bind].
      assert (rep o2 (delete f m)) as Hrep by (by eapply keeps_rep). assert (size m = S (size (delete f m))) as Hsz.
      { rewrite map_size_delete_Some by (by rewrite Ef). assert (size m ≠ 0%nat) by (by rewrite map_size_non_empty_iff). lia. }
      destruct (Z.eqb_spec (Z.of_nat (size (delete f m))) 0) as [Hz|Hz].
      * assert (delete f m = ∅) as E0 by (apply map_size_empty_iff; lia). assert (delete_fields l ∅ = ∅) as El by (clear; induction l; cbn; [done|]; by rewrite delete_empty).
        rewrite E0, El. eexists true, _. split; [|done]. unfold mret, res_ret. rewrite E0 in Hsz. do 3 f_equal. rewrite map_size_empty in *. lia.
      * destruct (IH o2 (delete f m) (n + 1) Hrep) as (b & o3 & -> & Hb3); [intros E0; rewrite E0, map_size_empty in Hz; done|]. eexists b, _. split; [|done]. do 3 f_equal. lia.
    + rewrite bool_decide_eq_false_2 by (by intros []). rewrite delete_id in * by done. by apply IH.
Qed.

(** *** The commands *)

Section command.
Context (Hmax : 0 ≤ hash_max_ziplist_entries) (g : server_cfg) (argv : list bytes) (d : adb) (m : gmap bytes bytes).
Abbreviation key := (arg argv 1).
Context (Hkey : key_is d key m) (Hexp : a_expires d !! key = None) (Hw : mweight m + args_weight argv < 2 ^ 32).

Lemma weight_here : mweight m < 2 ^ 32.
Proof. unfold args_weight in Hw. pose proof (args_sum_nonneg argv). lia. Qed.

Lemma ret_ok r : command_ok g (Ret r) d key r m.
Proof.
  pose proof Hkey as Hk. unfold key_is in Hk. destruct (a_dict d !! key) as [[[t enc] ptr]|] eqn:Ek.
  - destruct Hk as (-> & Hr & Hne). eapply read_keeps; try done. apply weight_here.
  - exists d. split; [done|]. split; [done|]. split; [done|]. split; [done|]. by replace (a_dict d !! key) with (None : option content).
Qed.

(** A value that is not changed: what the client gets is computed from the object. *)
Lemma reading_ok missing (F : hobject → prog reply) r :
  (m = ∅ → r = missing) → (∀ o, rep o m → F o = Ret r) → command_ok g (with_hash false key missing F) d key r m.
Proof.
  intros Hmiss Hf. eapply lookup_found; [done|done|by intros E; rewrite Hmiss by done|]. intros enc ptr Hd Hr Hne. rewrite (Hf _ Hr). apply ret_ok.
Qed.
(** The object may be rewritten with the same contents. *)
Lemma rewriting_ok missing body r :
  (m = ∅ → r = missing) → (∀ o, rep o m → ∃ o', body o = Ok (r, o') ∧ rep o' m) →
  command_ok g (with_hash false key missing (fun o => run_res (body o) (finish key))) d key r m.
Proof.
  intros Hmiss Hf. eapply lookup_found; [done|done|by intros E; rewrite Hmiss by done|]. intros enc ptr Hd Hr Hne. destruct (Hf _ Hr) as (o' & -> & Hr'). cbn [run_res].
  destruct (finish_ok g d key r o' m enc ptr Hd Hexp Hr' weight_here) as (d' & E & Hk & Ho). exists d'. split; [done|]. split; [by apply Hk|done].
Qed.

Lemma hset_ok : (4 ≤ length argv)%nat → ∃ r m', command_ok g (hproc Hset g argv) d key r m' ∧ hspec Hset argv m r m'.
Proof.
  intros Hlen. cbn [hproc hspec]. unfold hsetCommand. destruct (_ =? 1).
  - eexists _, m. split; [apply ret_ok|done].
  - pose proof (pairs_weight (drop 2 argv)). pose proof (args_weight_drop argv). unfold args_weight in *. set (l := pairs_of (drop 2 argv)) in *.
    assert (pairs_sum l = pairs_sum l ∧ mweight (insert_pairs l m) ≤ mweight m + pairs_sum l) as [_ Hwl].
    { split; [done|]. clear. revert m. induction l as [|[f v] l IH]; intros m; cbn [insert_pairs foldl pairs_sum fst snd]; [lia|]. specialize (IH (<[f := v]> m)).
      fold (insert_pairs l (<[f := v]> m)). pose proof (mweight_insert m f v). lia. }
    eexists _, (insert_pairs l m). split; [|by split]. apply (create_ok g d key m); [done|done|done|]. split; [lia|]. split.
    + apply insert_pairs_ne. right. unfold l. destruct argv as [|a [|b [|x [|y t]]]]; cbn in *; try lia. done.
    + intros o Hr. destruct (try_conversion_ok o m (drop 2 argv) Hr) as (o1 & -> & Hr1). cbn [mbind res_bind]. destruct (set_pairs_ok l o1 m 0 Hr1) as (o2 & -> & Hr2); [lia|]. cbn [mbind res_bind].
      exists o2. split; [|done]. unfold mret, res_ret. by rewrite Z.add_0_l.
Qed.

Lemma hsetnx_ok : ∃ r m', command_ok g (hproc Hsetnx g argv) d key r m' ∧ hspec Hsetnx argv m r m'.
Proof.
  cbn [hproc hspec]. unfold hsetnxCommand. pose proof (args_weight_field argv). pose proof (mweight_insert m (arg argv 2) (arg argv 3)). pose proof weight_here.
  assert (∀ o, rep o m → ∃ o1 o2, hashTypeTryConversion hash_max_ziplist_value o [arg argv 2; arg argv 3] = Ok o1 ∧
    hashTypeExists o1 (arg argv 2) = Ok (bool_decide (is_Some (m !! arg argv 2)), o2) ∧ rep o2 m) as Hpre.
  { intros o Hr. destruct (try_conversion_ok o m [arg argv 2; arg argv 3] Hr) as (o1 & E1 & Hr1). destruct (raw_exists_ok o1 m (arg argv 2) ltac:(apply Hr1)) as (o2 & E2 & Hr2 & Hb).
    exists o1, o2. split; [done|]. split; [done|]. by eapply keeps_rep. }
  destruct (m !! arg argv 2) as [v|] eqn:Ef.
  - eexists _, m. split; [|by split]. apply (create_ok g d key m); [done|done|done|]. split; [done|]. split; [intros ->; by rewrite lookup_empty in Ef|].
    intros o Hr. destruct (Hpre o Hr) as (o1 & o2 & -> & E2 & Hr2). cbn [mbind res_bind]. rewrite E2. cbn. by eexists.
  - eexists _, (<[arg argv 2 := arg argv 3]> m). split; [|by split]. apply (create_ok g d key m); [done|done|done|]. split; [lia|]. split; [apply insert_non_empty|].
    intros o Hr. destruct (Hpre o Hr) as (o1 & o2 & -> & E2 & Hr2). cbn [mbind res_bind]. rewrite E2, bool_decide_eq_false_2 by (by intros []). cbn [mbind res_bind].
    destruct (set_ok_hash hash_max_ziplist_entries o2 m (arg argv 2) (arg argv 3) ltac:(apply Hr2)) as (o3 & -> & Hr3); [lia|lia|]. cbn. by eexists.
Qed.

Lemma overflows_ok value incr : is_ll value → is_ll incr → overflows value incr = negb (bool_decide (is_ll (value + incr))).
Proof.
  unfold overflows, is_ll, LLONG_MIN, LLONG_MAX. intros Hv Hi. case_bool_decide as Hs; cbn [negb].
  - destruct (Z.ltb_spec incr 0), (Z.ltb_spec value 0), (Z.ltb_spec incr (- 2 ^ 63 - value)), (Z.ltb_spec 0 incr), (Z.ltb_spec 0 value), (Z.ltb_spec (2 ^ 63 - 1 - value) incr); cbn; try done; lia.
  - destruct (Z.ltb_spec incr 0), (Z.ltb_spec value 0), (Z.ltb_spec incr (- 2 ^ 63 - value)), (Z.ltb_spec 0 incr), (Z.ltb_spec 0 value), (Z.ltb_spec (2 ^ 63 - 1 - value) incr); cbn; try done; lia.
Qed.

Lemma hincrby_ok : ∃ r m', command_ok g (hproc Hincrby g argv) d key r m' ∧ hspec Hincrby argv m r m'.
Proof.
  cbn [hproc hspec]. unfold hincrbyCommand, arg_longlong. pose proof (args_weight_field argv). pose proof weight_here. destruct (string2ll (arg argv 3)) as [incr|] eqn:Ei; [|eexists _, m; split; [apply ret_ok|done]].
  apply string2ll_sound in Ei as [Hi _]. assert (field_number m (arg argv 2) = Some 0 ∨ m ≠ ∅) as Hne.
  { unfold field_number. destruct (m !! arg argv 2) eqn:Ef; [|by left]. right. intros ->. by rewrite lookup_empty in Ef. }
  destruct (field_number m (arg argv 2)) as [value|] eqn:Ev.
  - assert (is_ll value) as Hv by (unfold field_number in Ev; destruct (m !! arg argv 2); [by apply string2ll_sound in Ev as [? _]|by injection Ev as <-]).
    destruct (bool_decide (is_ll (value + incr))) eqn:Hs.
    + apply bool_decide_eq_true in Hs. eexists _, _. split; [|by split]. pose proof (mweight_insert m (arg argv 2) (sdsll2str (value + incr))) as Hwi.
      assert (Z.of_nat (length (sdsll2str (value + incr))) ≤ 20) as H20 by (rewrite sdsll2str_length by done; by apply sdigits10_max).
      apply (create_ok g d key m); [done|done|done|]. split; [lia|]. split; [apply insert_non_empty|]. intros o Hr. destruct (value_number o m (arg argv 2) Hr) as (x & o1 & -> & Hr1 & Hx). cbn [mbind res_bind].
      rewrite Hx, Ev, overflows_ok, bool_decide_eq_true_2 by done. cbn [negb].
      destruct (set_ok_hash hash_max_ziplist_entries o1 m (arg argv 2) (sdsll2str (value + incr)) ltac:(apply Hr1)) as (o2 & E2 & Hr2); [lia|lia|]. unfold sdsfromlonglong. rewrite E2. cbn. by eexists.
    + apply bool_decide_eq_false in Hs. eexists _, m. split; [|by split]. apply (create_ok g d key m); [done|done|done|]. split; [done|]. split; [destruct Hne as [[= ->]|]; [by rewrite Z.add_0_l in Hs|done]|].
      intros o Hr. destruct (value_number o m (arg argv 2) Hr) as (x & o1 & -> & Hr1 & Hx). cbn [mbind res_bind]. rewrite Hx, Ev, overflows_ok, bool_decide_eq_false_2 by done. cbn. by eexists.
  - destruct Hne as [[=]|Hne]. eexists _, m. split; [|by split]. apply (create_ok g d key m); [done|done|done|]. split; [done|]. split; [done|].
    intros o Hr. destruct (value_number o m (arg argv 2) Hr) as (x & o1 & -> & Hr1 & Hx). cbn [mbind res_bind]. rewrite Hx, Ev. cbn. by eexists.
Qed.

Lemma field_reply_empty f : field_reply ∅ f = RNull.
Proof. unfold field_reply. by rewrite lookup_empty. Qed.
Lemma mapM_fields o l : rep o m → mapM (addHashFieldToReply o) l = Ok (field_reply m <$> l).
Proof. intros Hr. induction l as [|f l IH]; cbn; [done|]. rewrite (field_ok o m f Hr). cbn. by rewrite IH. Qed.

Lemma hget_ok : ∃ r m', command_ok g (hproc Hget g argv) d key r m' ∧ hspec Hget argv m r m'.
Proof.
  eexists _, m. split; [|by split]. apply reading_ok; [intros ->; apply field_reply_empty|]. intros o Hr. by rewrite (field_ok o m _ Hr).
Qed.
Lemma hmget_ok : ∃ r m', command_ok g (hproc Hmget g argv) d key r m' ∧ hspec Hmget argv m r m'.
Proof.
  eexists _, m. split; [|by split]. apply (reading_ok (RMany ((fun _ => RNull) <$> drop 2 argv)) (fun o => run_res (mapM (addHashFieldToReply o) (drop 2 argv)) (fun l => Ret (RMany l)))).
  - by intros ->.
  - intros o Hr. by rewrite (mapM_fields o _ Hr).
Qed.
Lemma hdel_ok : ∃ r m', command_ok g (hproc Hdel g argv) d key r m' ∧ hspec Hdel argv m r m'.
Proof.
  set (m' := delete_fields (drop 2 argv) m). exists (RInt (Z.of_nat (size m) - Z.of_nat (size m'))), m'. split; [|by split]. cbn [hproc]. unfold hdelCommand.
  assert (m = ∅ → m' = ∅) as He by (intros ->; unfold m'; clear; generalize (drop 2 argv); intros l; induction l; cbn; [done|]; by rewrite delete_empty).
  eapply lookup_found; [done|done|intros E; rewrite (He E), E; by rewrite map_size_empty|]. intros enc ptr Hd Hr Hne.
  destruct (del_fields_ok (drop 2 argv) _ m 0 Hr Hne) as (b & o' & -> & Hb). fold m' in Hb |- *. rewrite Z.add_0_l. cbn [run_res]. destruct b.
  - rewrite Hb. exists (a_del key d). split; [done|]. split; [unfold key_is; cbn; by rewrite lookup_delete_eq|]. split; [|split; [apply lookup_delete_eq|cbn; by rewrite lookup_delete_eq]].
    intros k Hk. cbn. by rewrite !lookup_delete_ne.
  - destruct Hb as [Hr' Hne']. assert (mweight m' < 2 ^ 32) as Hwd.
    { pose proof weight_here. assert (∀ l m, mweight (delete_fields l m) ≤ mweight m) as Hdel; [|specialize (Hdel (drop 2 argv) m); fold m' in Hdel; lia].
      clear. induction l as [|f l IH]; intros m; cbn; [done|]. specialize (IH (delete f m)). fold (delete_fields l (delete f m)). pose proof (mweight_delete m f). lia. }
    destruct (finish_ok g d key (RInt (Z.of_nat (size m) - Z.of_nat (size m'))) o' m' enc ptr Hd Hexp Hr' Hwd) as (d' & E & Hk & Ho). exists d'. split; [done|]. split; [by apply Hk|done].
Qed.
Lemma hlen_ok : ∃ r m', command_ok g (hproc Hlen g argv) d key r m' ∧ hspec Hlen argv m r m'.
Proof.
  eexists _, m. split; [|by split]. apply rewriting_ok; [intros ->; by rewrite map_size_empty|]. intros o Hr. destruct (raw_length_ok o m ltac:(apply Hr)) as (o' & -> & Hr' & Hb & _). cbn. eexists. split; [done|]. by eapply keeps_rep.
Qed.
Lemma hstrlen_ok : ∃ r m', command_ok g (hproc Hstrlen g argv) d key r m' ∧ hspec Hstrlen argv m r m'.
Proof.
  eexists _, m. split; [|by split]. apply reading_ok; [intros ->; by rewrite lookup_empty|]. intros o Hr. by destruct (raw_strlen_ok o m (arg argv 2) ltac:(apply Hr)) as (o' & -> & _).
Qed.
Lemma hexists_ok : ∃ r m', command_ok g (hproc Hexists g argv) d key r m' ∧ hspec Hexists argv m r m'.
Proof.
  eexists _, m. split; [|by split]. apply reading_ok; [intros ->; by rewrite lookup_empty|]. intros o Hr. by destruct (raw_exists_ok o m (arg argv 2) ltac:(apply Hr)) as (o' & -> & _).
Qed.
Lemma hgetall_ok (keys values : bool) :
  ∃ l, l ≡ₚ map_to_list m ∧ command_ok g (genericHgetallCommand keys values argv) d key (RMany (pair_replies keys values l)) m.
Proof.
  pose proof Hkey as Hk. unfold key_is in Hk. destruct (a_dict d !! key) as [[[t enc] ptr]|] eqn:Ek.
  - destruct Hk as (-> & Hr & Hne). destruct (pairs_ok_hash _ m ltac:(apply Hr)) as (l & o' & E & Hr' & Hb & Hl). exists l. split; [done|].
    eapply lookup_found; [done|done|by intros ->|]. intros enc' ptr' Hd' Hr2 _. rewrite Ek in Hd'. injection Hd' as <- <-. rewrite E. cbn [mbind res_bind mret res_ret run_res].
    assert (rep o' m) as Hrep by (by eapply keeps_rep). destruct (finish_ok g d key (RMany (pair_replies keys values l)) o' m enc ptr Ek Hexp Hrep weight_here) as (d' & ? & Hk' & ?). exists d'. split; [done|]. split; [by apply Hk'|done].
  - subst m. exists []. split; [by rewrite map_to_list_empty|]. unfold genericHgetallCommand. eapply lookup_found; [done|done|done|]. intros ? ? ? ? []. done.
Qed.
End command.

(** C19: the commands of hashes are operations on finite maps.  Where a key has no time to live and
    is missing or has a hash, a command replies as it would on the map of the fields, a missing key being the empty
    map, and leaves the key with the map as it is to be, missing when the map is empty;
    the encoding of the object does not show.  The value of the key is one that can be
    dumped to RocksDB, and the rest of the database is not touched. *)
Theorem hash_commands c g argv d m :
  0 ≤ hash_max_ziplist_entries → key_is d (arg argv 1) m → a_expires d !! arg argv 1 = None → (c = Hset → (4 ≤ length argv)%nat) →
  mweight m + args_weight argv < 2 ^ 32 →
  ∃ r m' d', arun g (hproc c g argv) d = Some (r, d') ∧ hspec c argv m r m' ∧ key_is d' (arg argv 1) m' ∧ only_changes d (arg argv 1) d'.
Proof.
  intros Hmax Hkey Hexp Hc Hw. assert (∃ r m', command_ok g (hproc c g argv) d (arg argv 1) r m' ∧ hspec c argv m r m') as (r & m' & (d' & ? & ? & ?) & ?); [|by exists r, m', d'].
  destruct c; [apply hset_ok; auto|apply hsetnx_ok; auto|apply hincrby_ok; auto|apply hget_ok; auto|apply hmget_ok; auto|apply hdel_ok; auto|apply hlen_ok; auto|apply hstrlen_ok; auto|apply hexists_ok; auto|..].
  - destruct (hgetall_ok g argv d m Hkey Hexp Hw true false) as (l & Hl & ?). eexists _, m. split; [done|]. split; [by exists l|done].
  - destruct (hgetall_ok g argv d m Hkey Hexp Hw false true) as (l & Hl & ?). eexists _, m. split; [done|]. split; [by exists l|done].
  - destruct (hgetall_ok g argv d m Hkey Hexp Hw true true) as (l & Hl & ?). eexists _, m. split; [done|]. split; [by exists l|done].
Qed.

(** HINCRBYFLOAT of a missing key by an increment that makes the sum infinite ends with an error,
    and leaves an empty hash behind: the object was put into the database before. *)
Theorem hincrbyfloat_leaves_empty {ld} (parse : bytes → option ld) of_ll add print g argv d incr :
  0 ≤ hash_max_ziplist_entries → a_dict d !! arg argv 1 = None → a_expires d !! arg argv 1 = None →
  parse (arg argv 3) = Some incr → add (of_ll 0) incr = None →
  ∃ d' enc ptr, arun g (hincrbyfloatCommand hash_max_ziplist_entries parse of_ll add print g argv) d = Some (RError "increment would produce NaN or Infinity", d') ∧
    a_dict d' !! arg argv 1 = Some (OBJ_HASH, enc, ptr) ∧ rep (as_hash enc ptr) ∅.
Proof.
  intros Hmax Hn He Hp Ha. unfold hincrbyfloatCommand. rewrite Hp. unfold hashTypeLookupWriteOrCreate. cbn [arun aexec]. rewrite (a_expire_none _ _ _ He). cbn [mbind option_bind]. rewrite Hn.
  destruct (new_hash_ok g Hmax) as (obj & -> & Ht & Hr). cbn [run_res arun aexec]. rewrite (proj2 (a_has_false _ d) Hn). cbn [mbind option_bind].
  destruct (raw_get_ok _ ∅ (arg argv 2) ltac:(apply Hr)) as (x & o' & -> & Hr' & Hb & Ex). rewrite lookup_empty in Ex. destruct x; [done|]. cbn [mbind res_bind]. rewrite Ha. cbn [mret res_ret run_res].
  assert (rep o' ∅) as Hrep by (by eapply keeps_rep). destruct (hash_content_ok o' ∅ Hrep) as (enc & ptr & E & Eh & _); [done|]. unfold finish. cbn [fst snd]. rewrite E. cbn [run_res arun aexec mbind option_bind a_put a_dict].
  rewrite lookup_insert_eq. cbn [mbind option_bind content_of fst snd]. rewrite Ht, bool_decide_eq_true_2 by done. cbn [mbind option_bind]. eexists _, enc, ptr. split; [done|]. cbn. rewrite lookup_insert_eq, Eh. done.
Qed.
End spec.

(** The third field makes the ziplist of the key a dictionary; then HGET, and HDEL of what is left. *)
Definition w_cfg : server_cfg := Cfg any_env false false false false false false false 0 0 0.
Definition w_hset : list bytes := String.list_byte_of_string <$> ["hset"; "k"; "a"; "1"; "b"; "2"; "a"; "-3"; "c"; "x"]%string.
Lemma hash_commands_witness :
  ∃ r m' d', arun w_cfg (hproc 2 64 Hset w_cfg w_hset) (Adb ∅ ∅) = Some (r, d') ∧ r = RInt 3 ∧ m' !! [x61] = Some [x2d; x33] ∧ key_is 2 d' [x6b] m'.
Proof.
  destruct (hash_commands 2 64 Hset w_cfg w_hset (Adb ∅ ∅) ∅) as (r & m' & d' & E & [-> Hr] & Hk & _); [lia|vm_compute; reflexivity|vm_compute; reflexivity|intros _; vm_compute; lia|vm_compute; reflexivity|].
  eexists r, _, d'. split; [exact E|]. split; [rewrite Hr; vm_compute; reflexivity|]. split; [|exact Hk]. vm_compute. reflexivity.
Defined.
