(* ===== verification/Keys.v ===== *)
(** * Commands on any key (src/src/db.c, src/src/expire.c)

    DEL, UNLINK, EXISTS, TOUCH, TYPE, and the commands that set, read and remove
    expire times. *)

From S2P Require Import Prelude Util Robj Serdes RocksApi Keyspace KeyspaceInv Prog Cmds RockJob CmdLogic.
From S2P Require Import Strings.
From stdpp Require Import list gmap strings.
#[local] Open Scope Z_scope.
#[local] Open Scope prog_scope.

(** ** db.c *)

Fixpoint del_loop (lazy : bool) (keys : list bytes) (numdel : Z) : prog reply :=
  match keys with
  | [] => Ret (RInt numdel)
  | key :: keys' =>
      KExpireIfNeeded key ;;
      deleted ⇐ if lazy then KAsyncDelete key else KSyncDelete key;
      del_loop lazy keys' (if deleted : bool then numdel + 1 else numdel)
  end.
Definition delGenericCommand (lazy : bool) (argv : list bytes) : prog reply := del_loop lazy (drop 1 argv) 0.
Definition delCommand : list bytes → prog reply := delGenericCommand false.
Definition unlinkCommand : list bytes → prog reply := delGenericCommand true.

Fixpoint exists_loop (keys : list bytes) (count : Z) : prog reply :=
  match keys with
  | [] => Ret (RInt count)
  | key :: keys' => b ⇐ KExists false key; exists_loop keys' (if b : bool then count + 1 else count)
  end.
Definition existsCommand (argv : list bytes) : prog reply := exists_loop (drop 1 argv) 0.
Definition touchCommand (argv : list bytes) : prog reply := exists_loop (drop 1 argv) 0.

Definition getObjectTypeName (o : option content) : option string :=
  match o with
  | None => Some "none"
  | Some (t, _, _) =>
      match t with
      | OBJ_STRING => Some "string" | OBJ_LIST => Some "list" | OBJ_SET => Some "set"
      | OBJ_ZSET => Some "zset" | OBJ_HASH => Some "hash" | OBJ_STREAM => Some "stream"
      | OBJ_MODULE => None                (* the name the module has registered *)
      end
  end%string.
Definition typeCommand (argv : list bytes) : prog reply :=
  o ⇐ KLookupRead true (arg argv 1);
  match getObjectTypeName o with
  | Some name => Ret (RStatus name)
  | None => Panic "module values are not modelled"
  end.

(** ** expire.c *)

Definition expireGenericCommand (g : server_cfg) (basetime : Z) (seconds : bool) (argv : list bytes)
  : prog reply :=
  let key := arg argv 1 in
  arg_longlong (arg argv 2) (fun when =>
    let when := if seconds then to_signed 64 (when * 1000) else when in
    let when := to_signed 64 (when + basetime) in
    b ⇐ KExistsW key;
    if negb b then Ret czero
    else if (when <=? fresh_mstime g) && negb (loading g) && negb (masterhost g) then
      deleted ⇐ if lazyfree_lazy_expire g then KAsyncDelete key else KSyncDelete key;
      if deleted : bool then Ret cone else Panic "deleted"
    else KSetExpire key when ;; Ret cone).
Definition expireCommand (g : server_cfg) := expireGenericCommand g (fresh_mstime g) true.
Definition expireatCommand (g : server_cfg) := expireGenericCommand g 0 true.
Definition pexpireCommand (g : server_cfg) := expireGenericCommand g (fresh_mstime g) false.
Definition pexpireatCommand (g : server_cfg) := expireGenericCommand g 0 false.

Definition ttlGenericCommand (g : server_cfg) (output_ms : bool) (argv : list bytes) : prog reply :=
  let key := arg argv 1 in
  b ⇐ KExists true key;
  if negb b then Ret (RInt (-2))
  else
    expire ⇐ KGetExpire key;
    let ttl := if negb (expire =? -1) then Z.max 0 (to_signed 64 (expire - fresh_mstime g)) else -1 in
    Ret (RInt (if ttl =? -1 then -1 else if output_ms then ttl else Z.quot (to_signed 64 (ttl + 500)) 1000)).
Definition ttlCommand (g : server_cfg) := ttlGenericCommand g false.
Definition pttlCommand (g : server_cfg) := ttlGenericCommand g true.

Definition persistCommand (argv : list bytes) : prog reply :=
  b ⇐ KExistsW (arg argv 1);
  if b : bool then removed ⇐ KRemoveExpire (arg argv 1); Ret (if removed : bool then cone else czero)
  else Ret czero.

(** ** What the commands do *)

Lemma del_ok K lazy keys n : prog_ok K (del_loop lazy keys n).
Proof. revert n. induction keys as [|key keys IH]; intros n; [done|]. destruct lazy; repeat split; intros; try done; apply IH. Qed.
Lemma del_sync keys n : prog_sync (del_loop false keys n).
Proof. revert n. induction keys as [|key keys IH]; intros n; [done|]. repeat split. intros. apply IH. Qed.
Lemma del_tot c lazy keys n : tot c always (del_loop lazy keys n).
Proof.
  revert n. induction keys as [|key keys IH]; intros n; simpl; [apply tot_ret|].
  apply tot_expireIfNeeded. intros _. apply (tot_delete _ _ key); [destruct lazy; auto|]. intros b _. apply IH.
Qed.

Lemma exists_ok K keys n : prog_ok K (exists_loop keys n).
Proof. revert n. induction keys as [|key keys IH]; intros n; [done|]. repeat split; intros; [done|]. apply IH. Qed.
Lemma exists_sync keys n : prog_sync (exists_loop keys n).
Proof. revert n. induction keys as [|key keys IH]; intros n; [done|]. repeat split. intros. apply IH. Qed.
Lemma exists_tot c keys n : tot c always (exists_loop keys n).
Proof.
  revert n. induction keys as [|key keys IH]; intros n; simpl; [apply tot_ret|].
  apply tot_exists. intros b. apply IH.
Qed.

Lemma type_tot c argv : tot c always (typeCommand argv).
Proof.
  apply tot_lookupRead_wf. intros [[[t enc] ptr]|] Hv; [|apply tot_ret].
  destruct t; try apply tot_ret. by destruct Hv.
Qed.

Lemma expire_tot c g b secs argv : tot c always (expireGenericCommand g b secs argv).
Proof.
  unfold expireGenericCommand, arg_longlong. destruct (string2ll _) as [w|]; [|apply tot_ret].
  apply tot_existsW. intros [|]; simpl; [|apply tot_ret]. destruct (_ && _ && _).
  - apply (tot_delete _ _ (arg argv 1)); [destruct (lazyfree_lazy_expire g); auto|].
    intros x (d & Hd & <-). rewrite Hd. apply tot_ret.
  - apply tot_setExpire; [|apply tot_ret]. intros d Hd. by apply a_has_true.
Qed.

Lemma ttl_tot c g ms argv : tot c always (ttlGenericCommand g ms argv).
Proof.
  apply tot_exists. intros [|]; simpl; [|apply tot_ret]. apply tot_getExpire. intros w. apply tot_ret.
Qed.

Lemma persist_tot c argv : tot c always (persistCommand argv).
Proof.
  apply tot_existsW. intros [|]; [|apply tot_ret]. apply tot_removeExpire; [|intros; apply tot_ret].
  intros d Hd. by apply a_has_true.
Qed.
