(* ===== verification/Commands.v ===== *)
(** * The commands that are modelled

    [commands] runs the commands of [Strings] and [Keys]; the others are a
    parameter [other].  The classes of [Session], on which the theorems about the
    server rest, hold for [commands] if they hold for [other]. *)

From S2P Require Import Prelude Util Robj Serdes RocksApi Keyspace KeyspaceInv Prog Cmds RockJob Session.
From S2P Require Import CmdLogic Strings Keys.
From stdpp Require Import list gmap strings.
#[local] Open Scope Z_scope.

(** The [proc] column of the command table. *)
Definition command_procs : list (string * (server_cfg → list bytes → prog reply)) := [
  ("get", fun _ => getCommand); ("set", setCommand); ("setnx", setnxCommand); ("setex", setexCommand);
  ("psetex", psetexCommand); ("append", appendCommand); ("strlen", fun _ => strlenCommand);
  ("del", fun _ => delCommand); ("unlink", fun _ => unlinkCommand); ("exists", fun _ => existsCommand);
  ("getrange", fun _ => getrangeCommand); ("substr", fun _ => getrangeCommand);
  ("incr", incrCommand); ("decr", decrCommand); ("mget", fun _ => mgetCommand);
  ("incrby", incrbyCommand); ("decrby", decrbyCommand); ("getset", getsetCommand);
  ("mset", msetCommand); ("msetnx", msetnxCommand);
  ("expire", expireCommand); ("expireat", expireatCommand); ("pexpire", pexpireCommand);
  ("pexpireat", pexpireatCommand); ("type", fun _ => typeCommand); ("ttl", ttlCommand);
  ("touch", fun _ => touchCommand); ("pttl", pttlCommand); ("persist", fun _ => persistCommand)
]%string.

Definition commands (other : server_cfg → redisCommand → list bytes → prog reply)
    (g : server_cfg) (cmd : redisCommand) (argv : list bytes) : prog reply :=
  match find (fun p => String.eqb p.1 (cmd_name cmd)) command_procs with
  | Some p => p.2 g argv
  | None => other g cmd argv
  end.

(** ** The check functions of these commands *)

(** The commands with values to look at are checked for their first argument, or
    for all arguments. *)
Definition check_of (name : string) : option check_proc :=
  match find (fun cmd => String.eqb (cmd_name cmd) name) redisCommandTable with
  | Some cmd => checkRockProc cmd
  | None => None
  end.
Lemma names_distinct :
  forallb (fun cmd => bool_decide (checkRockProc cmd = check_of (cmd_name cmd))) redisCommandTable = true.
Proof. vm_compute. reflexivity. Qed.

Lemma check_of_cmd cmd : cmd ∈ redisCommandTable → checkRockProc cmd = check_of (cmd_name cmd).
Proof.
  intros Hin%list_elem_of_In. pose proof (proj1 (forallb_forall _ _) names_distinct _ Hin) as H.
  cbv beta in H. by apply bool_decide_eq_true in H.
Qed.

Lemma one_key_checked r :
  request_ok r → checkRockProc r.1 = Some ForOneKey → arg r.2 1 ∈ checked_keys r.
Proof.
  intros (Ht & _ & Ha) Hp. unfold checked_keys, checkRockForSingleCmd. rewrite Hp. simpl.
  pose proof (proj1 (forallb_forall _ _) table_arity _ (proj1 (list_elem_of_In _ _) Ht)) as He.
  unfold entry_arity in He. rewrite Hp in He. apply Z.leb_le in He. apply arity_min in Ha as [Ha _]; [|lia].
  unfold cmdCheckRockForOneKey. destruct (lookup_lt_is_Some_2 r.2 1) as [key Hk]; [lia|].
  rewrite Hk. simpl. unfold arg. rewrite Hk. simpl. set_solver.
Qed.

Lemma all_keys_checked r :
  request_ok r → checkRockProc r.1 = Some ForAllKeys → checked_keys r = drop 1 r.2.
Proof.
  intros (Ht & _ & Ha) Hp. unfold checked_keys, checkRockForSingleCmd. rewrite Hp. simpl.
  pose proof (proj1 (forallb_forall _ _) table_arity _ (proj1 (list_elem_of_In _ _) Ht)) as He.
  unfold entry_arity in He. rewrite Hp in He. apply Z.leb_le in He. apply arity_min in Ha as [Ha _]; [|lia].
  unfold cmdCheckRockForAllKeys. rewrite (proj2 (Nat.leb_le _ _)) by lia. simpl. apply rock_keys_all.
Qed.

(** ** The classes *)

Definition entry_ok (e : string * (server_cfg → list bytes → prog reply)) : Prop :=
  ∀ g r, wf_env (cfg_env g) → request_ok r → cmd_name r.1 = e.1 → prog_ok (checked_keys r) (e.2 g r.2).
Definition entry_sync (e : string * (server_cfg → list bytes → prog reply)) : Prop :=
  ∀ g argv, lazyfree_lazy_expire g = false → e.1 ≠ "unlink" → prog_sync (e.2 g argv).
Definition entry_tot (e : string * (server_cfg → list bytes → prog reply)) : Prop :=
  ∀ g argv, wf_env (cfg_env g) → tot g always (e.2 g argv).

Lemma entry_one_key name p :
  check_of name = Some ForOneKey →
  (∀ g argv K, wf_env (cfg_env g) → arg argv 1 ∈ K → prog_ok K (p g argv)) → entry_ok (name, p).
Proof.
  intros Hc Hp g r Hg Hr Hn. apply Hp; [done|]. apply one_key_checked; [done|].
  rewrite check_of_cmd by apply Hr. simpl in Hn. by rewrite Hn.
Qed.
Lemma entry_no_key name p :
  (∀ g argv K, wf_env (cfg_env g) → prog_ok K (p g argv)) → entry_ok (name, p).
Proof. intros Hp g r Hg _ _. by apply Hp. Qed.

Lemma set_ok g argv K : wf_env (cfg_env g) → prog_ok K (setCommand g argv).
Proof. intros Hg. unfold setCommand. destruct (parse_set_opts _ _); [by apply setGeneric_ok|done]. Qed.
Lemma expire_ok g b secs argv K : prog_ok K (expireGenericCommand g b secs argv).
Proof.
  apply arg_longlong_ok. intros w _. split; [done|split; [done|]]. intros [] _; [simpl|done].
  destruct (_ && _ && _); [|by repeat split].
  destruct (lazyfree_lazy_expire g); (split; [done|split; [done|by intros []]]).
Qed.
Lemma expire_sync g b secs argv : lazyfree_lazy_expire g = false → prog_sync (expireGenericCommand g b secs argv).
Proof.
  intros Hl. apply arg_longlong_sync. intros w. split; [done|]. intros []; [simpl|done].
  rewrite Hl. destruct (_ && _ && _); [|done]. by split; [|intros []].
Qed.
Lemma ttl_ok g ms argv K : prog_ok K (ttlGenericCommand g ms argv).
Proof. split; [done|split; [done|by intros []]]. Qed.

Lemma persist_ok argv K : prog_ok K (persistCommand argv).
Proof. split; [done|split; [done|intros [] _; [|done]]]. by split; [|split; [|intros []]]. Qed.
Lemma type_ok argv K : arg argv 1 ∈ K → prog_ok K (typeCommand argv).
Proof.
  intros Hin. split; [done|split; [by intros ? [= <-]|]]. intros o _. by destruct (getObjectTypeName o).
Qed.
Lemma type_sync argv : prog_sync (typeCommand argv).
Proof. split; [done|]. intros o. by destruct (getObjectTypeName o). Qed.
Lemma mget_entry : entry_ok ("mget", fun _ => mgetCommand).
Proof.
  intros g r Hg Hr Hn. apply mget_ok. rewrite all_keys_checked; [done|done|].
  rewrite check_of_cmd by apply Hr. simpl in Hn. by rewrite Hn.
Qed.

Create HintDb commands.
#[local] Hint Resolve set_ok setGeneric_ok msetGeneric_ok del_ok exists_ok expire_ok ttl_ok persist_ok
  append_ok strlen_ok getrange_ok getset_ok type_ok setGeneric_sync msetGeneric_sync exists_sync append_sync
  strlen_sync getrange_sync type_sync incrDecr_sync setGeneric_tot msetGeneric_tot del_tot exists_tot
  expire_tot ttl_tot persist_tot append_tot strlen_tot getrange_tot getset_tot type_tot mget_tot tot_ret
  mget_sync : commands.

Lemma procs_ok : Forall entry_ok command_procs.
Proof.
  assert (∀ g argv K, wf_env (cfg_env g) → arg argv 1 ∈ K → prog_ok K (incrbyCommand g argv)) as Hincrby.
  { intros. apply arg_longlong_ok. intros. by apply incrDecr_ok. }
  assert (∀ g argv K, wf_env (cfg_env g) → arg argv 1 ∈ K → prog_ok K (decrbyCommand g argv)) as Hdecrby.
  { intros. apply arg_longlong_ok. intros. apply incrDecr_ok; auto using to_signed_ll. }
  repeat (apply Forall_cons; split); [..|apply Forall_nil_2].
  all: try exact mget_entry.
  all: first [apply entry_no_key; intros; by eauto with commands
             |apply entry_one_key; [reflexivity|]; intros; first [by eauto with commands|by apply getGeneric_ok
               |by apply incrDecr_ok]].
Qed.

Lemma get_sync argv : prog_sync (getCommand argv).
Proof. by apply getGeneric_sync. Qed.
Lemma set_sync g argv : prog_sync (setCommand g argv).
Proof. unfold setCommand. destruct (parse_set_opts _ _); [apply setGeneric_sync|done]. Qed.
Lemma getset_sync g argv : prog_sync (getsetCommand g argv).
Proof. apply getGeneric_sync. intros r. by split. Qed.
Lemma incrby_sync g argv : prog_sync (incrbyCommand g argv).
Proof. apply arg_longlong_sync. intros. apply incrDecr_sync. Qed.
Lemma decrby_sync g argv : prog_sync (decrbyCommand g argv).
Proof. apply arg_longlong_sync. intros. apply incrDecr_sync. Qed.
Lemma ttl_sync g ms argv : prog_sync (ttlGenericCommand g ms argv).
Proof. split; [done|]. by intros []. Qed.
Lemma persist_sync argv : prog_sync (persistCommand argv).
Proof. split; [done|]. by intros []. Qed.
#[local] Hint Resolve get_sync set_sync getset_sync incrby_sync decrby_sync ttl_sync persist_sync expire_sync del_sync
  : commands.

Lemma procs_sync : Forall entry_sync command_procs.
Proof.
  repeat (apply Forall_cons; split); [..|apply Forall_nil_2]; intros g argv Hl Hu; try done; cbn [fst snd] in *.
  all: by eauto with commands.
Qed.

Lemma get_tot g argv : tot g always (getCommand argv).
Proof. apply getGeneric_tot. intros. apply tot_ret. Qed.
Lemma set_tot g argv : wf_env (cfg_env g) → tot g always (setCommand g argv).
Proof. intros. unfold setCommand. destruct (parse_set_opts _ _); [by apply setGeneric_tot|apply tot_ret]. Qed.
Lemma incrby_tot g argv : wf_env (cfg_env g) → tot g always (incrbyCommand g argv).
Proof. intros. apply arg_longlong_tot. intros. by apply incrDecr_tot. Qed.
Lemma decrby_tot g argv : wf_env (cfg_env g) → tot g always (decrbyCommand g argv).
Proof. intros. apply arg_longlong_tot. intros. apply incrDecr_tot; auto using to_signed_ll. Qed.
#[local] Hint Resolve get_tot set_tot incrby_tot decrby_tot : commands.

Lemma procs_tot : Forall entry_tot command_procs.
Proof.
  repeat (apply Forall_cons; split); [..|apply Forall_nil_2]; intros g argv Hg; cbn [fst snd].
  all: first [by eauto with commands|by apply incrDecr_tot].
Qed.

Section instances.
Context (other : server_cfg → redisCommand → list bytes → prog reply).

Lemma commands_find g cmd argv (P : prog reply → Prop) :
  (∀ e, e ∈ command_procs → e.1 = cmd_name cmd → P (e.2 g argv)) → P (other g cmd argv) →
  P (commands other g cmd argv).
Proof.
  intros Hp Ho. unfold commands. destruct (find _ _) as [e|] eqn:He; [|done].
  apply find_some in He as [Hin Heq%String.eqb_eq]. apply Hp; [by apply list_elem_of_In|done].
Qed.

#[export] Instance commands_spec `{!CommandSpec other} : CommandSpec (commands other).
Proof.
  intros g r Hg Hr. apply commands_find; [|by apply cmd_prog_ok].
  intros e Hin Heq. pose proof (proj1 (Forall_forall _ _) procs_ok e Hin) as He. by apply He.
Qed.
#[export] Instance commands_sync `{!CommandSync other} : CommandSync (commands other).
Proof.
  intros g r Hl Hc. apply commands_find; [|by apply cmd_prog_sync].
  intros e Hin Heq. pose proof (proj1 (Forall_forall _ _) procs_sync e Hin) as He. apply He; [done|].
  intros Hu. unfold covered, is_cmd in Hc. rewrite Heq in Hu. rewrite Hu in Hc.
  by apply andb_true_iff in Hc as [_ Hc].
Qed.
#[export] Instance commands_total `{!CommandTotal other} : CommandTotal (commands other).
Proof.
  intros g r d Hg Hd. revert d Hd. 
  apply (commands_find g r.1 r.2 (fun p => ∀ d, adb_ok d → ∃ y d', arun g p d = Some (y, d') ∧ adb_ok d')).
  - intros e Hin Heq d Hd. pose proof (proj1 (Forall_forall _ _) procs_tot e Hin) as He. by apply He.
  - intros d Hd. by apply (cmd_prog_total g r).
Qed.
End instances.

(** Commands that have no effect on the data, for those that are not modelled. *)
Definition no_other (g : server_cfg) (cmd : redisCommand) (argv : list bytes) : prog reply :=
  Ret (RError "not modelled").
#[export] Instance no_other_spec : CommandSpec no_other.
Proof. done. Qed.
#[export] Instance no_other_sync : CommandSync no_other.
Proof. done. Qed.
#[export] Instance no_other_total : CommandTotal no_other.
Proof. intros g r d _ Hd. by eexists _, _. Qed.
