(* ===== verification/Aof.v ===== *)
(** * The append only file (src/src/aof.c)

    [feedAppendOnlyFile] writes what a command has done as commands, with absolute
    times.  [loadAppendOnlyFile] reads them back with [fgets] and [fread]
    and runs them in a fake client.  A file that ends in the middle of a command,
    because the machine went down while it was written, is cut off at the last
    complete command.

    Shown: whatever part of the file has reached the disk, loading it runs the complete
    commands of that part, in order, and leaves a file with exactly these; replaying
    what is written for the commands with a time to live gives the keyspace
    they left; and where that fails: cuts inside MULTI and after an RDB preamble, KEEPTTL, and
    options that are taken for other options. *)

From S2P Require Import Prelude Util Robj Serdes RocksApi Keyspace KeyspaceInv Prog Cmds RockJob Session CmdLogic.
From S2P Require Import Strings Keys Commands Resp.
From stdpp Require Import list gmap strings.
#[local] Open Scope Z_scope.

(** ** Files *)

(** What has not been read yet, and whether a read has hit the end. *)
Record file := File { f_rest : bytes; f_eof : bool }.
Implicit Types f : file.

(** At most [n] characters, up to and with a line feed; whether the end was hit. *)
Fixpoint take_line (n : nat) (s : bytes) : bytes * bytes * bool :=
  match n, s with
  | O, _ => ([], s, false)
  | S _, [] => ([], [], true)
  | S n', c :: s' =>
      if decide (c = LF) then ([c], s', false)
      else let '(l, r, e) := take_line n' s' in (c :: l, r, e)
  end.
Definition fgets (size : nat) f : option bytes * file :=
  match f_rest f with
  | [] => (None, File [] true)
  | s => let '(l, r, e) := take_line (size - 1) s in (Some l, File r (f_eof f || e))
  end.
Definition fread (n : nat) f : option bytes * file :=
  if decide (n ≤ length (f_rest f))%nat then (Some (take n (f_rest f)), File (drop n (f_rest f)) (f_eof f))
  else (None, File [] true).

(** [strtol] with base 10, and [atoi]. *)
Fixpoint digits_prefix (s : bytes) (acc : Z) : Z :=
  match s with
  | c :: s' => match digit_val c with Some d => digits_prefix s' (acc * 10 + d) | None => acc end
  | [] => acc
  end.
Fixpoint skip_spaces (s : bytes) : bytes :=
  match s with c :: s' => if isspace c then skip_spaces s' else s | [] => [] end.
Definition strtol (s : bytes) : Z :=
  let v := match skip_spaces s with
           | x2d :: s' => - digits_prefix s' 0
           | x2b :: s' => digits_prefix s' 0
           | s' => digits_prefix s' 0
           end in
  Z.max LLONG_MIN (Z.min LLONG_MAX v).
Definition atoi (s : bytes) : Z := to_signed 32 (strtol s).

(** ** Loading *)

Inductive read_result :=
| ReadCommand (argv : list bytes) f
| ReadEnd f
| ReadErr f
| FmtErr.

Section load.
(** Whether a string of that length can be allocated. *)
Variable sds_fits : Z → bool.

(** [for (j = 0; j < argc; j++)] *)
Fixpoint read_args (n : nat) f (argv : list bytes) : res read_result :=
  match n with
  | O => mret (ReadCommand argv f)
  | S n' =>
      match fgets 128 f with
      | (None, f) => mret (ReadErr f)
      | (Some buf, f) =>
          if decide (head buf = Some x24) then
            let len := u64 (strtol (drop 1 buf)) in
            serverAssert (sds_fits len) "Out Of Memory" ;;
            match (if len =? 0 then (Some [], f) else fread (Z.to_nat len) f) with
            | (None, f) => mret (ReadErr f)
            | (Some argsds, f) =>
                match fread 2 f with
                | (None, f) => mret (ReadErr f)
                | (Some _, f) => read_args n' f (argv ++ [argsds])
                end
            end
          else mret FmtErr
      end
  end.

Definition read_command f : res read_result :=
  match fgets 128 f with
  | (None, f) => mret (ReadEnd f)
  | (Some buf, f) =>
      if decide (head buf = Some x2a) then
        if decide (default NUL (buf !! 1%nat) = NUL) then mret (ReadErr f)
        else
          let argc := atoi (drop 1 buf) in
          if argc <? 1 then mret FmtErr else read_args (Z.to_nat argc) f []
      else mret FmtErr
  end.

(** The fake client: what it has executed, a transaction being executed as a whole. *)
Record fake := Fake { in_multi : bool; queue : list (list bytes); executed : list (list (list bytes)) }.

Definition run_fake (r : request) (c : fake) : fake :=
  if in_multi c && negb (is_cmd "exec" r) then Fake true (queue c ++ [r.2]) (executed c)
  else if is_cmd "multi" r then Fake true [] (executed c)
  else if is_cmd "exec" r then
    if in_multi c then Fake false [] (executed c ++ [queue c]) else c
  else Fake (in_multi c) (queue c) (executed c ++ [[r.2]]).

(** How the loading ends; [Loaded] has the length the file has been cut to. *)
Inductive load_result := Loaded (done : list (list (list bytes))) (cut : option nat) | LoadExit (msg : string).

Record load_state := LoadState { valid_up_to : nat; valid_before_multi : nat; fakeClient : fake }.

(** The label uxeof; the calls that cut the file succeed. *)
Definition unexpected_end (aof_load_truncated : bool) (valid : nat) (c : fake) : load_result :=
  if aof_load_truncated then Loaded (executed c) (Some valid)
  else LoadExit "Unexpected end of file reading the append only file".

(** [while(1)]; [total] is the size of the file.  Every command has a byte at least. *)
Fixpoint load_loop (fuel : nat) (aof_load_truncated : bool) (total : nat) f (s : load_state) : res load_result :=
  match fuel with
  | O => Abort "fuel"
  | S fuel' =>
      r ← read_command f;
      match r with
      | FmtErr => mret (LoadExit "Bad file format reading the append only file")
      | ReadErr f =>
          mret (if f_eof f then unexpected_end aof_load_truncated (valid_up_to s) (fakeClient s)
                else LoadExit "Unrecoverable error reading the append only file")
      | ReadEnd _ =>
          mret (if in_multi (fakeClient s)
                then unexpected_end aof_load_truncated (valid_before_multi s) (fakeClient s)
                else Loaded (executed (fakeClient s)) None)
      | ReadCommand argv f =>
          match head argv ≫= lookupCommand with
          | None => mret (LoadExit "Unknown command reading the append only file")
          | Some cmd =>
              let before := if is_cmd "multi" (cmd, argv) then valid_up_to s else valid_before_multi s in
              let c := run_fake (cmd, argv) (fakeClient s) in
              let valid := if aof_load_truncated then (total - length (f_rest f))%nat else valid_up_to s in
              load_loop fuel' aof_load_truncated total f (LoadState valid before c)
          end
      end
  end.

(** The number of bytes of the RDB preamble at the beginning of a file, or whether the
    loading failed at the end of the file. *)
Variable rdbLoadRio : bytes → nat + bool.

(** [None] is C_ERR, for an empty file. *)
Definition loadAppendOnlyFile (aof_load_truncated : bool) (content : bytes) : res (option load_result) :=
  let start := LoadState 0 0 (Fake false [] []) in
  match content with
  | [] => mret None
  | _ =>
      if decide (take 5 content = String.list_byte_of_string "REDIS") then
        match rdbLoadRio content with
        | inr true => mret (Some (unexpected_end aof_load_truncated (valid_up_to start) (fakeClient start)))
        | inr false => mret (Some (LoadExit "Unrecoverable error reading the append only file"))
        | inl n =>
            let f := File (drop n content) false in
            r ← load_loop (S (length content)) aof_load_truncated (length content) f start; mret (Some r)
        end
      else
        r ← load_loop (S (length content)) aof_load_truncated (length content) (File content false) start;
        mret (Some r)
  end.

End load.

(** ** Writing *)

(** The command PEXPIREAT for a command [name] with an expire time; [now] is what [mstime()]
    returns, and [strtoll] is [strtol]. *)
Definition catAppendOnlyExpireAtCommand (now : Z) (name : string) (key seconds : bytes) : list bytes :=
  let when := strtol seconds in
  let when := if bool_decide (name ∈ ["expire"; "setex"; "expireat"]%string) then to_signed 64 (when * 1000) else when in
  let when := if bool_decide (name ∈ ["expire"; "pexpire"; "setex"; "psetex"]%string)
              then to_signed 64 (when + now) else when in
  [String.list_byte_of_string "PEXPIREAT"; key; default [] (ll2string 32 when)].

(** The argument after the last occurrence of an option.  An option at the end, which
    has none, is refused by [setCommand] and does not come here. *)
Fixpoint last_option (opt : string) (l : list bytes) (found : option bytes) : option bytes :=
  match l with
  | [] => found
  | a :: l' => last_option opt l' (if strcaseeq a opt then Some (default [] (head l')) else found)
  end.

(** What [feedAppendOnlyFile] writes for a command, as commands. *)
Definition fed (now : Z) (r : request) : res (list (list bytes)) :=
  let name := cmd_name r.1 in
  let argv := r.2 in
  if bool_decide (name ∈ ["expire"; "pexpire"; "expireat"]%string) then
    mret [catAppendOnlyExpireAtCommand now name (arg argv 1) (arg argv 2)]
  else if bool_decide (name ∈ ["setex"; "psetex"]%string) then
    mret [[String.list_byte_of_string "SET"; arg argv 1; arg argv 3];
          catAppendOnlyExpireAtCommand now name (arg argv 1) (arg argv 2)]
  else if bool_decide (name = "set"%string) && (3 <? length argv)%nat then
    let exarg := last_option "ex" (drop 3 argv) None in
    let pxarg := last_option "px" (drop 3 argv) None in
    serverAssert (negb (bool_decide (is_Some exarg) && bool_decide (is_Some pxarg))) "!(exarg && pxarg)" ;;
    mret ([take 3 argv] ++
      match exarg with Some e => [catAppendOnlyExpireAtCommand now "expire" (arg argv 1) e] | None => [] end ++
      match pxarg with Some e => [catAppendOnlyExpireAtCommand now "pexpire" (arg argv 1) e] | None => [] end)
  else mret [argv].

(** The bytes that are appended to [server.aof_buf], with a SELECT when the database has
    changed, and the database that is selected then. *)
Definition feedAppendOnlyFile (now dictid aof_selected_db : Z) (r : request) : res (option bytes * Z) :=
  cmds ← fed now r;
  let select := if dictid =? aof_selected_db then []
                else [[String.list_byte_of_string "SELECT"; sdsll2str dictid]] in
  mret (cat_commands [] (select ++ cmds), dictid).

(** ** Numbers, and parts of them *)

Lemma digits_prefix_app p q acc :
  Forall digit_char p → digits_prefix (p ++ q) acc = digits_prefix q (val_from acc p).
Proof.
  intros Hp. revert acc. induction Hp as [|c p (d & Hd & ->) Hp IH]; intros acc; [done|].
  cbn [app digits_prefix val_from]. rewrite digit_val_chr by done. by rewrite IH, Z_of_chr.
Qed.
Lemma val_from_ge p acc : 0 ≤ acc → Forall digit_char p → acc ≤ val_from acc p.
Proof.
  intros Ha Hp. revert acc Ha. induction Hp as [|c p (d & Hd & ->) Hp IH]; intros acc Ha; cbn; [lia|].
  rewrite Z_of_chr by done. specialize (IH (acc * 10 + d) ltac:(lia)). lia.
Qed.

Lemma not_space_digit c : digit_char c → isspace c = false ∧ c ≠ x2d ∧ c ≠ x2b.
Proof.
  intros (d & Hd & ->). split_and!.
  - unfold isspace. rewrite chr_Z by done. destruct (Z.eqb_spec (48 + d) 32), (Z.leb_spec 9 (48 + d)), (Z.leb_spec (48 + d) 13); try lia; done.
  - apply digit_char_ne; [by exists d|done].
  - apply digit_char_ne; [by exists d|done].
Qed.

(** [strtol] of a string that begins with a digit, or is empty. *)
Lemma strtol_digits p q :
  Forall digit_char p → (p = [] → q = []) → 0 ≤ digits_prefix q (val_from 0 p) ≤ LLONG_MAX →
  strtol (p ++ q) = digits_prefix q (val_from 0 p).
Proof.
  intros Hp Hq Hb. unfold strtol. rewrite <- digits_prefix_app in Hb |- * by done.
  assert (∀ s, match skip_spaces (p ++ q) with x2d :: s' => - digits_prefix s' 0 | x2b :: s' => digits_prefix s' 0
               | s' => digits_prefix s' 0 end = s → s = digits_prefix (p ++ q) 0) as Hs.
  { intros s <-. destruct Hp as [|c p Hc Hp]; [by rewrite Hq|]. destruct (not_space_digit c Hc) as (Hsp & H1 & H2).
    cbn [app skip_spaces]. rewrite Hsp. by destruct c. }
  rewrite (Hs _ eq_refl). unfold LLONG_MIN, LLONG_MAX in *. lia.
Qed.

(** What is read of the number of a line when only [t] of the line is there. *)
Lemma strtol_part n t l :
  0 ≤ n ≤ LLONG_MAX → sdsll2str n ++ CRLF = t ++ l →
  0 ≤ strtol t ≤ n ∧ (1 ≤ n → t ≠ [] → 1 ≤ strtol t) ∧ (l = [] → strtol t = n).
Proof.
  intros Hn He. destruct (length_digits n Hn) as [Hd Hlen].
  assert (is_ll n) as Hl by (unfold is_ll, LLONG_MIN, LLONG_MAX in *; lia).
  assert (val_from 0 (sdsll2str n) = n) as Hval.
  { rewrite sdsll2str_eq by done. unfold abs_ll, LLONG_MAX in *. rewrite (proj2 (Z.ltb_ge _ _)) by lia.
    apply val_dec. lia. }
  symmetry in He. apply prefix_cases in He as [(u' & -> & Hu')|(l' & Hl' & _ & ->)].
  - assert (digits_prefix u' n = n) as Hu.
    { destruct u' as [|b u']; [done|]. injection Hu' as -> _. done. }
    assert (sdsll2str n ≠ []) as Hne.
    { intros H. pose proof (sdsll2str_length n Hl) as H'. rewrite H in H'. simpl in H'.
      pose proof (string2ll_complete n Hl) as Hs. by rewrite H in Hs. }
    assert (strtol (sdsll2str n ++ u') = n) as ->; [|split_and!; lia || done].
    rewrite strtol_digits; rewrite ?Hval, ?Hu; try done.
  - rewrite Hl' in Hd, Hval. apply Forall_app in Hd as [Hd1 Hd2]. rewrite val_from_app in Hval.
    assert (0 ≤ val_from 0 t) as H0 by (by apply val_from_ge).
    assert (val_from 0 t ≤ n) as H1 by (rewrite <- Hval; by apply val_from_ge).
    assert (strtol t = val_from 0 t) as Ht.
    { rewrite <- (app_nil_r t) at 1. by rewrite strtol_digits by (done || simpl; lia). }
    rewrite Ht. split_and!; [done|done| |].
    + intros Hn1 Hne. destruct t as [|c t]; [done|].
      destruct (dec_head n) as (d & p & Hdec & Hd); [unfold LLONG_MAX in *; lia|].
      rewrite sdsll2str_eq in Hl' by done. unfold abs_ll in Hl'. rewrite (proj2 (Z.ltb_ge _ _)) in Hl' by lia.
      rewrite Hdec in Hl'. injection Hl' as <- _.
      cbn [val_from]. rewrite Z_of_chr by lia. apply Forall_cons in Hd1 as [_ Hd1].
      pose proof (val_from_ge t (0 * 10 + d) ltac:(lia) Hd1). lia.
    + intros H. destruct l'; [by destruct (sdsll2str n)|done].
Qed.

(** ** Reading what has been written *)

Lemma take_line_here n s u :
  LF ∉ s → (length s < n)%nat → take_line n (s ++ LF :: u) = (s ++ [LF], u, false).
Proof.
  revert n. induction s as [|c s IH]; intros n Hs Hn; (destruct n as [|n]; [simpl in Hn; lia|]); cbn [app take_line].
  - by rewrite decide_True.
  - apply not_elem_of_cons in Hs as [Hc Hs]. rewrite decide_False by done. simpl in Hn. by rewrite IH by (done || lia).
Qed.
Lemma take_line_end n s : LF ∉ s → (length s < n)%nat → take_line n s = (s, [], true).
Proof.
  revert n. induction s as [|c s IH]; intros n Hs Hn; (destruct n as [|n]; [simpl in Hn; lia|]); cbn [take_line]; [done|].
  apply not_elem_of_cons in Hs as [Hc Hs]. rewrite decide_False by done. simpl in Hn. by rewrite IH by (done || lia).
Qed.

Lemma line_no_LF (c : byte) n : length_char c → 0 ≤ n ≤ LLONG_MAX → LF ∉ (c :: sdsll2str n) ++ [CR].
Proof.
  intros Hc Hn. apply not_elem_of_app. split; [|set_solver].
  apply not_in_line; try done; by destruct Hc as [-> | ->].
Qed.
Lemma length_line_small (c : byte) n : 0 ≤ n ≤ LLONG_MAX → (length ((c :: sdsll2str n) ++ [CR]) ≤ 22)%nat.
Proof. intros Hn. destruct (length_digits n Hn). rewrite length_app. simpl. lia. Qed.
Lemma line_of_eq (c : byte) n : line_of c n = ((c :: sdsll2str n) ++ [CR]) ++ [LF].
Proof. unfold line_of, CRLF. by rewrite <- app_assoc. Qed.

Lemma fgets_line (c : byte) n u e :
  length_char c → 0 ≤ n ≤ LLONG_MAX → fgets 128 (File (line_of c n ++ u) e) = (Some (line_of c n), File u e).
Proof.
  intros Hc Hn. unfold fgets. cbn [f_rest f_eof].
  assert (take_line (128 - 1) (line_of c n ++ u) = (line_of c n, u, false)) as Ht.
  { rewrite line_of_eq, <- app_assoc. apply take_line_here; [by apply line_no_LF|].
    pose proof (length_line_small c n Hn). lia. }
  destruct (line_of c n ++ u) eqn:He; [done|]. by rewrite Ht, orb_false_r.
Qed.

Lemma fgets_part (c : byte) n u l e :
  length_char c → 0 ≤ n ≤ LLONG_MAX → line_of c n = u ++ l → l ≠ [] → u ≠ [] →
  fgets 128 (File u e) = (Some u, File [] true).
Proof.
  intros Hc Hn He Hl Hu. unfold fgets. cbn [f_rest f_eof].
  assert (take_line (128 - 1) u = (u, [], true)) as Ht.
  { rewrite line_of_eq in He. pose proof (line_no_LF c n Hc Hn) as Hno. pose proof (length_line_small c n Hn) as Hsm.
    destruct (prefix_cases _ _ _ _ He) as [(u' & Hu' & _)|(l' & _ & Hne & Hl')].
    - rewrite Hu', length_app in Hsm. rewrite Hu' in Hno. apply not_elem_of_app in Hno as [Hno _].
      apply take_line_end; [done|lia].
    - destruct l' as [|b [|b' l']]; [done| |done]. by destruct l. }
  destruct u eqn:Hu'; [done|]. by rewrite Ht, orb_true_r.
Qed.

Section crash.
Variable sds_fits : Z → bool.
Variable maxlen : Z.
Hypothesis Hmax : maxlen ≤ LLONG_MAX.
Hypothesis Hfits : ∀ n, 0 ≤ n ≤ maxlen → sds_fits n = true.

Definition storable (argv : list bytes) : Prop :=
  argv ≠ [] ∧ Z.of_nat (length argv) < 2 ^ 31 ∧ Forall (fun a => Z.of_nat (length a) ≤ maxlen) argv.

Lemma fread_full a u e : fread (length a) (File (a ++ u) e) = (Some a, File u e).
Proof.
  unfold fread. cbn [f_rest f_eof]. rewrite decide_True by (rewrite length_app; lia).
  by rewrite take_app_length, drop_app_length.
Qed.
Lemma fread_short n u e : (length u < n)%nat → fread n (File u e) = (None, File [] true).
Proof. intros H. unfold fread. by rewrite decide_False by (cbn [f_rest]; lia). Qed.

Lemma small_u64 n : 0 ≤ n ≤ maxlen → u64 n = n.
Proof. intros. unfold u64, LLONG_MAX in *. apply Z.mod_small. lia. Qed.

(** The argument of a bulk, after its length. *)
Lemma read_bulk_body a u e :
  Z.of_nat (length a) ≤ maxlen →
  (if u64 (Z.of_nat (length a)) =? 0 then (Some [], File (a ++ u) e) else fread (Z.to_nat (u64 (Z.of_nat (length a)))) (File (a ++ u) e))
  = (Some a, File u e).
Proof.
  intros Ha. rewrite small_u64 by lia. destruct (Z.eqb_spec (Z.of_nat (length a)) 0) as [H|H].
  - by destruct a.
  - by rewrite Nat2Z.id, fread_full.
Qed.

(** The read that has hit the end of the file. *)
Ltac hit_end := eexists; split; [|reflexivity]; reflexivity.

(** A bulk of which only a part is there. *)
Lemma read_args_part a n u w r e acc :
  u ++ w = bulk a ++ r → Z.of_nat (length a) ≤ maxlen → (length u < length (bulk a))%nat →
  ∃ f, f_eof f = true ∧ read_args sds_fits (S n) (File u e) acc = Ok (ReadErr f).
Proof.
  intros Hu Ha Hlt. assert (length_char x24) as Hc by (by right).
  assert (0 ≤ Z.of_nat (length a) ≤ LLONG_MAX) as Hn by lia. cbn [read_args].
  unfold bulk in Hu, Hlt. rewrite <- app_assoc in Hu.
  destruct (prefix_cases _ _ _ _ Hu) as [(u1 & -> & Hu1)|(l & Hl & Hne & _)].
  - rewrite fgets_line by done. rewrite decide_True by done.
    change (drop 1 (line_of x24 (Z.of_nat (length a)))) with (sdsll2str (Z.of_nat (length a)) ++ CRLF).
    rewrite (proj2 (proj2 (strtol_part _ _ [] Hn (eq_sym (app_nil_r _)))) eq_refl).
    rewrite Hfits by (rewrite small_u64; lia). cbn [serverAssert mbind res_bind].
    rewrite !length_app in Hlt. cbn [length CRLF] in Hlt. rewrite <- app_assoc in Hu1.
    destruct (prefix_cases _ _ _ _ Hu1) as [(u2 & -> & _)|(l & Hl & Hne & _)].
    + rewrite read_bulk_body by done. rewrite length_app in Hlt. rewrite fread_short by lia. hit_end.
    + apply (f_equal length) in Hl. rewrite length_app in Hl. destruct l as [|b l]; [done|]. simpl in Hl.
      rewrite small_u64 by lia. rewrite (proj2 (Z.eqb_neq _ _)) by lia. rewrite Nat2Z.id, fread_short by lia. hit_end.
  - destruct u as [|b u]; [hit_end|]. rewrite (fgets_part x24 (Z.of_nat (length a)) (b :: u) l) by done.
    injection Hl as <- Hl. rewrite decide_True by done. cbn [drop]. rewrite drop_0.
    destruct (strtol_part _ u l Hn Hl) as (Hb & _ & _). rewrite small_u64 by lia. rewrite Hfits by lia.
    cbn [serverAssert mbind res_bind]. destruct (Z.eqb_spec (strtol u) 0).
    + rewrite fread_short by (simpl; lia). hit_end.
    + rewrite fread_short by (simpl; lia). hit_end.
Qed.

Lemma read_args_step a n u e acc :
  Z.of_nat (length a) ≤ maxlen →
  read_args sds_fits (S n) (File (bulk a ++ u) e) acc = read_args sds_fits n (File u e) (acc ++ [a]).
Proof.
  intros Ha. assert (0 ≤ Z.of_nat (length a) ≤ LLONG_MAX) as Hn by lia. assert (length_char x24) as Hc by (by right).
  cbn [read_args]. unfold bulk. rewrite <- app_assoc, fgets_line by done. rewrite decide_True by done.
  change (drop 1 (line_of x24 (Z.of_nat (length a)))) with (sdsll2str (Z.of_nat (length a)) ++ CRLF).
  rewrite (proj2 (proj2 (strtol_part _ _ [] Hn (eq_sym (app_nil_r _)))) eq_refl).
  rewrite Hfits by (rewrite small_u64; lia). cbn [serverAssert mbind res_bind].
  rewrite <- app_assoc, read_bulk_body by done. by rewrite (fread_full CRLF).
Qed.

Lemma read_args_stream todo : ∀ u w r e acc,
  u ++ w = (todo ≫= bulk) ++ r → Forall (fun a => Z.of_nat (length a) ≤ maxlen) todo →
  (∃ u', u = (todo ≫= bulk) ++ u' ∧ u' ++ w = r ∧
     read_args sds_fits (length todo) (File u e) acc = Ok (ReadCommand (acc ++ todo) (File u' e))) ∨
  ((length u < length (todo ≫= bulk))%nat ∧
   ∃ f, f_eof f = true ∧ read_args sds_fits (length todo) (File u e) acc = Ok (ReadErr f)).
Proof.
  induction todo as [|a todo IH]; intros u w r e acc Hu Hf.
  { left. exists u. rewrite app_nil_r. done. }
  apply Forall_cons in Hf as [Ha Hf]. cbn [mbind list_bind length] in *. rewrite <- app_assoc in Hu.
  destruct (decide (length u < length (bulk a))%nat) as [Hlt|Hge].
  { right. split; [rewrite length_app; lia|]. by eapply read_args_part. }
  destruct (prefix_cases _ _ _ _ Hu) as [(u1 & -> & Hu1)|(l & Hl & Hne & _)].
  - destruct (IH u1 w r e (acc ++ [a]) Hu1 Hf) as [(u' & -> & Hu' & Hr)|(Hlt & f & Hfe & Hr)].
    + left. exists u'. split; [by rewrite app_assoc|]. split; [done|].
      rewrite read_args_step by done. by rewrite Hr, <- app_assoc.
    + right. split; [rewrite !length_app; lia|]. exists f. split; [done|]. by rewrite read_args_step.
  - exfalso. apply (f_equal length) in Hl. rewrite length_app in Hl. destruct l; [done|]. cbn [length] in Hl. lia.
Qed.

Lemma read_command_stream argv u w r e :
  u ++ w = request_bytes argv ++ r → storable argv → u ≠ [] →
  (∃ u', u = request_bytes argv ++ u' ∧ u' ++ w = r ∧
     read_command sds_fits (File u e) = Ok (ReadCommand argv (File u' e))) ∨
  ((length u < length (request_bytes argv))%nat ∧
   ∃ f, f_eof f = true ∧ read_command sds_fits (File u e) = Ok (ReadErr f)).
Proof.
  intros Hu (Hne & Hlen & Hf) Hun. unfold request_bytes in *. rewrite <- app_assoc in Hu.
  assert (length_char x2a) as Hc by (by left).
  assert (0 ≤ Z.of_nat (length argv) ≤ LLONG_MAX) as Hn by (unfold LLONG_MAX; lia).
  assert (1 ≤ Z.of_nat (length argv)) as H1 by (destruct argv; [done|simpl; lia]).
  unfold read_command.
  destruct (prefix_cases _ _ _ _ Hu) as [(u1 & -> & Hu1)|(l & Hl & Hnl & _)].
  - rewrite fgets_line by done. rewrite decide_True by done.
    change (drop 1 (line_of x2a (Z.of_nat (length argv)))) with (sdsll2str (Z.of_nat (length argv)) ++ CRLF).
    pose proof (proj2 (proj2 (strtol_part _ _ [] Hn (eq_sym (app_nil_r _)))) eq_refl) as Ht.
    assert (∃ d p, sdsll2str (Z.of_nat (length argv)) ++ CRLF = chr d :: p ∧ 1 ≤ d < 10) as (d & p & Hp & Hd).
    { destruct (dec_head (Z.of_nat (length argv))) as (d & p & Hp & Hd); [unfold LLONG_MAX in *; lia|].
      rewrite sdsll2str_eq by (unfold is_ll, LLONG_MIN; lia). unfold abs_ll. rewrite (proj2 (Z.ltb_ge _ _)) by lia.
      rewrite Hp. by exists d, (p ++ CRLF). }
    assert (atoi (sdsll2str (Z.of_nat (length argv)) ++ CRLF) = Z.of_nat (length argv)) as Ha.
    { unfold atoi. rewrite Ht. apply to_signed_small; lia. }
    rewrite Ha, (proj2 (Z.ltb_ge _ _)), Nat2Z.id by lia.
    assert (line_of x2a (Z.of_nat (length argv)) !! 1%nat = Some (chr d)) as ->.
    { change (line_of x2a (Z.of_nat (length argv)) !! 1%nat) with ((sdsll2str (Z.of_nat (length argv)) ++ CRLF) !! 0%nat).
      by rewrite Hp. }
    rewrite decide_False by (apply digit_char_ne; [by exists d; split; [lia|]|done]).
    destruct (read_args_stream argv u1 w r e [] Hu1 Hf) as [(u' & -> & Hu' & Hr)|(Hlt & f & Hfe & Hr)].
    + left. exists u'. split; [by rewrite app_assoc|]. done.
    + right. split; [rewrite !length_app; lia|]. by exists f.
  - right. split.
    { apply (f_equal length) in Hl. rewrite length_app in Hl |- *. destruct l; [done|]. cbn [length] in Hl. lia. }
    rewrite (fgets_part x2a (Z.of_nat (length argv)) u l) by done.
    destruct u as [|b u]; [done|]. injection Hl as <- Hl. rewrite decide_True by done. cbn [drop]. rewrite drop_0.
    destruct (strtol_part _ u l Hn Hl) as (Hb & Hpos & _).
    destruct (decide _); [hit_end|]. destruct u as [|b u]; [done|]. specialize (Hpos H1 ltac:(done)).
    assert (1 ≤ atoi (b :: u)) as Ha by (unfold atoi; rewrite to_signed_small; lia).
    rewrite (proj2 (Z.ltb_ge _ _)) by lia. destruct (Z.to_nat (atoi (b :: u))) eqn:Hz; [lia|]. hit_end.
Qed.

(** A command that is executed at once. *)
Definition plain (argv : list bytes) : Prop :=
  ∃ cmd, head argv ≫= lookupCommand = Some cmd ∧ is_cmd "multi" (cmd, argv) = false ∧ is_cmd "exec" (cmd, argv) = false.

Lemma load_loop_stream total fuel : ∀ cmds u w s,
  u ++ w = stream cmds → Forall storable cmds → Forall plain cmds → (length u < fuel)%nat → (length u ≤ total)%nat →
  in_multi (fakeClient s) = false → valid_up_to s = (total - length u)%nat →
  ∃ k t cut, load_loop sds_fits fuel true total (File u false) s
      = Ok (Loaded (executed (fakeClient s) ++ ((fun argv => [argv]) <$> take k cmds)) cut) ∧
    u = stream (take k cmds) ++ t ∧ match cut with None => t = [] | Some n => n = (total - length t)%nat end ∧
    (k < length cmds → length u < length (stream (take (S k) cmds)))%nat.
Proof.
  induction fuel as [|fuel IH]; intros cmds u w s Hu Hst Hpl Hf Htot Hm Hv; [lia|].
  destruct u as [|b u].
  { exists 0%nat, [], None. cbn. rewrite Hm, app_nil_r. split_and!; try done.
    destruct cmds as [|argv cmds]; [simpl; lia|]. intros _. unfold stream, request_bytes, line_of. simpl. lia. }
  destruct cmds as [|argv cmds]; [done|]. apply Forall_cons in Hst as [Hst1 Hst]. apply Forall_cons in Hpl as [Hpl1 Hpl].
  cbn [load_loop]. change (stream (argv :: cmds)) with (request_bytes argv ++ stream cmds) in *.
  destruct (read_command_stream argv (b :: u) w _ false Hu Hst1 ltac:(done)) as [(u' & Hub & Hu' & ->)|(Hlt & f & Hfe & ->)];
    cbn [mbind res_bind].
  - destruct Hpl1 as (cmd & -> & Hnm & Hne). rewrite Hnm.
    set (s' := LoadState _ _ _).
    assert (0 < length (request_bytes argv))%nat as Hpos by (unfold request_bytes, line_of; simpl; lia).
    rewrite Hub, length_app in Hf, Htot.
    assert (executed (fakeClient s') = executed (fakeClient s) ++ [[argv]]) as Hex.
    { unfold s'. simpl. unfold run_fake. by rewrite Hm, Hnm, Hne. }
    destruct (IH cmds u' w s' Hu' Hst Hpl ltac:(lia) ltac:(lia)) as (k & t & cut & -> & Ht & Hcut & Hmax').
    { unfold s'. simpl. unfold run_fake. by rewrite Hm, Hnm, Hne. }
    { done. }
    exists (S k), t, cut. rewrite Hex, <- app_assoc. split_and!; [done| |done|].
    + rewrite Hub, Ht. cbn [take]. change (stream (argv :: take k cmds)) with (request_bytes argv ++ stream (take k cmds)).
      by rewrite app_assoc.
    + intros Hk. cbn [length] in Hk. specialize (Hmax' ltac:(lia)). rewrite Hub, length_app. cbn [take].
      change (stream (argv :: take (S k) cmds)) with (request_bytes argv ++ stream (take (S k) cmds)).
      rewrite length_app. lia.
  - rewrite Hfe. exists 0%nat, (b :: u), (Some (valid_up_to s)). cbn [take fmap list_fmap]. rewrite app_nil_r.
    split_and!; [done|done|done|]. intros _.
    assert (stream (argv :: take 0 cmds) = request_bytes argv) as -> by apply app_nil_r. done.
Qed.

(** C27: the AOF survives a crash.  For a file of plain commands (no RDB preamble, no MULTI and EXEC; the commands are known
    and their strings can be allocated): whatever non-empty part of the file has reached the disk, when it is loaded with
    aof-load-truncated, exactly the commands that are there completely are executed, in
    order, and what is left of the file after it has been cut is exactly these
    commands.  [open_transaction] and [preamble_lost] show what happens to the other files. *)
Theorem aof_crash rdbLoadRio cmds content w :
  content ++ w = stream cmds → content ≠ [] → Forall storable cmds → Forall plain cmds →
  ∃ k cut, loadAppendOnlyFile sds_fits rdbLoadRio true content
      = Ok (Some (Loaded ((fun argv => [argv]) <$> take k cmds) cut)) ∧
    match cut with None => content | Some n => take n content end = stream (take k cmds) ∧
    (k < length cmds → length content < length (stream (take (S k) cmds)))%nat.
Proof.
  intros Hu Hne Hst Hpl. unfold loadAppendOnlyFile. destruct content as [|b content]; [done|].
  assert (b = x2a) as ->.
  { destruct cmds as [|argv cmds]; [done|]. by injection Hu. }
  rewrite decide_False by done.
  destruct (load_loop_stream (length (x2a :: content)) (S (length (x2a :: content))) cmds (x2a :: content) w
    (LoadState 0 0 (Fake false [] []))) as (k & t & cut & Hl & Ht & Hcut & Hk); try done; [lia|simpl; lia|].
  rewrite Hl. cbn [mbind res_bind executed fakeClient app]. exists k, cut. split; [done|]. split; [|done].
  rewrite Ht in Hcut |- *. destruct cut as [n|].
  - rewrite Hcut, length_app. replace (length (stream (take k cmds)) + length t - length t)%nat
      with (length (stream (take k cmds))) by lia. apply take_app_length.
  - by rewrite Hcut, app_nil_r.
Qed.
End crash.

(** ** Where the file is cut in the wrong place *)

Section cuts.
Variable sds_fits : Z → bool.
Variable maxlen : Z.
Hypothesis Hmax : maxlen ≤ LLONG_MAX.
Hypothesis Hfits : ∀ n, 0 ≤ n ≤ maxlen → sds_fits n = true.

(** One complete command. *)
Lemma load_step fuel tr total argv cmd u s :
  storable maxlen argv → head argv ≫= lookupCommand = Some cmd →
  load_loop sds_fits (S fuel) tr total (File (request_bytes argv ++ u) false) s =
  load_loop sds_fits fuel tr total (File u false)
    (LoadState (if tr then total - length u else valid_up_to s)%nat
       (if is_cmd "multi" (cmd, argv) then valid_up_to s else valid_before_multi s)
       (run_fake (cmd, argv) (fakeClient s))).
Proof.
  intros Hst Hc. cbn [load_loop].
  destruct (read_command_stream sds_fits maxlen Hmax Hfits argv (request_bytes argv ++ u) [] u false)
    as [(u' & Hu & _ & ->)|(Hlt & _)]; [by rewrite app_nil_r|done|done| |].
  - apply app_inv_head in Hu as <-. cbn [mbind res_bind]. rewrite Hc. by destruct tr.
  - rewrite length_app in Hlt. lia.
Qed.

(** A command of which a part is missing. *)
Lemma load_cut fuel tr total argv part l s :
  storable maxlen argv → request_bytes argv = part ++ l → part ≠ [] → l ≠ [] →
  load_loop sds_fits (S fuel) tr total (File part false) s = Ok (unexpected_end tr (valid_up_to s) (fakeClient s)).
Proof.
  intros Hst He Hp Hl. cbn [load_loop].
  destruct (read_command_stream sds_fits maxlen Hmax Hfits argv part l [] false) as [(u' & -> & _)|(_ & f & Hf & ->)];
    [by rewrite app_nil_r|done|done| |].
  - exfalso. rewrite <- app_assoc in He. apply (f_equal length) in He. rewrite !length_app in He.
    destruct l; [done|]. cbn [length] in He. lia.
  - cbn [mbind res_bind]. by rewrite Hf.
Qed.

(** Everything after an open MULTI is queued, and thrown away. *)
Lemma load_open total cmds : ∀ fuel s,
  Forall (storable maxlen) cmds → Forall plain cmds → (length (stream cmds) < fuel)%nat → in_multi (fakeClient s) = true →
  valid_before_multi s = 0%nat →
  load_loop sds_fits fuel true total (File (stream cmds) false) s = Ok (Loaded (executed (fakeClient s)) (Some 0%nat)).
Proof.
  induction cmds as [|argv cmds IH]; intros fuel s Hst Hpl Hf Hm Hv; (destruct fuel as [|fuel]; [lia|]).
  - cbn. by rewrite Hm, Hv.
  - apply Forall_cons in Hst as [Hst1 Hst]. apply Forall_cons in Hpl as [(cmd & Hc & Hnm & Hne) Hpl].
    change (stream (argv :: cmds)) with (request_bytes argv ++ stream cmds) in *. rewrite length_app in Hf.
    assert (0 < length (request_bytes argv))%nat by (unfold request_bytes, line_of; simpl; lia).
    rewrite (load_step _ _ _ _ cmd) by done. rewrite IH; try done; try lia.
    + simpl. unfold run_fake. by rewrite Hm, Hne.
    + simpl. unfold run_fake. by rewrite Hm, Hne.
    + simpl. by rewrite Hnm.
Qed.

(** A transaction that is cut off takes later writes with it.  When the file ends in the middle of a
    command inside MULTI, it is cut after the last complete command, and
    not before MULTI.  The commands the server appends from then on are inside that
    transaction: the next time the file is loaded, none of them is executed, and the whole
    file is cut away. *)
Theorem open_transaction rdbLoadRio multi cmd first argv part l later :
  storable maxlen multi → head multi ≫= lookupCommand = Some cmd → is_cmd "multi" (cmd, multi) = true →
  storable maxlen first → plain first → storable maxlen argv →
  request_bytes argv = part ++ l → part ≠ [] → l ≠ [] → Forall (storable maxlen) later → Forall plain later →
  loadAppendOnlyFile sds_fits rdbLoadRio true (stream [multi; first] ++ part)
    = Ok (Some (Loaded [] (Some (length (stream [multi; first]))))) ∧
  loadAppendOnlyFile sds_fits rdbLoadRio true (stream ([multi; first] ++ later)) = Ok (Some (Loaded [] (Some 0%nat))).
Proof.
  intros Hm Hcm Hmm Hf (cmdf & Hcf & Hnm & Hne) Ha He Hp Hl Hst Hpl.
  assert (is_cmd "exec" (cmd, multi) = false) as Hme.
  { unfold is_cmd in *. simpl in *. apply String.eqb_eq in Hmm. by rewrite Hmm. }
  assert (∀ rest, loadAppendOnlyFile sds_fits rdbLoadRio true (stream [multi; first] ++ rest) =
    (r ← load_loop sds_fits (S (length (stream [multi; first] ++ rest))) true (length (stream [multi; first] ++ rest))
           (File (stream [multi; first] ++ rest) false) (LoadState 0 0 (Fake false [] [])); mret (Some r))) as Hload by done.
  assert (∀ rest fuel total, (2 ≤ fuel)%nat → total = length (stream [multi; first] ++ rest) →
    load_loop sds_fits fuel true total (File (stream [multi; first] ++ rest) false) (LoadState 0 0 (Fake false [] [])) =
    load_loop sds_fits (fuel - 2) true total (File rest false)
      (LoadState (length (stream [multi; first])) 0 (Fake true [first] []))) as Htwo.
  { intros rest fuel total Hfu Ht. destruct fuel as [|[|fuel]]; [lia..|]. rewrite Nat.sub_succ, Nat.sub_succ, Nat.sub_0_r.
    assert (stream [multi; first] ++ rest = request_bytes multi ++ request_bytes first ++ rest) as ->.
    { unfold stream. cbn [mbind list_bind]. by rewrite app_nil_r, app_assoc. }
    rewrite (load_step _ _ _ _ cmd), (load_step _ _ _ _ cmdf) by done. rewrite Hmm, Hnm.
    rewrite length_app in Ht. unfold run_fake. cbn [in_multi fakeClient andb negb valid_up_to valid_before_multi].
    rewrite Hmm. cbn [in_multi andb]. rewrite Hne. cbn [negb queue executed app snd]. f_equal. f_equal. lia. }
  assert (4 ≤ length (stream [multi; first]))%nat as Hlen.
  { unfold stream, request_bytes, line_of, CRLF. cbn [mbind list_bind]. rewrite !length_app. simpl. rewrite !length_app. simpl. lia. }
  split.
  - rewrite Hload, Htwo by (done || rewrite length_app; lia).
    destruct (S (length (stream [multi; first] ++ part)) - 2)%nat eqn:Hfu; [rewrite length_app in Hfu; lia|].
    by rewrite (load_cut _ _ _ argv part l).
  - unfold stream at 1. rewrite bind_app. fold (stream [multi; first]). fold (stream later).
    rewrite Hload, Htwo by (done || rewrite length_app; lia). rewrite load_open; try done. rewrite length_app. lia.
Qed.

(** A crash in the first command after an RDB preamble empties the file.  The offset up to which
    the file is valid is 0 until a command of the tail has been loaded, although the
    preamble has been: when the first command of the tail is incomplete, the file
    is cut at 0, with the preamble. *)
Theorem preamble_lost rdbLoadRio pre argv part l :
  take 5 (pre ++ part) = String.list_byte_of_string "REDIS" → rdbLoadRio (pre ++ part) = inl (length pre) →
  storable maxlen argv → request_bytes argv = part ++ l → part ≠ [] → l ≠ [] →
  loadAppendOnlyFile sds_fits rdbLoadRio true (pre ++ part) = Ok (Some (Loaded [] (Some 0%nat))).
Proof.
  intros H5 Hr Ha He Hp Hl. unfold loadAppendOnlyFile. destruct (pre ++ part) as [|b c] eqn:Hc; [done|].
  rewrite decide_True by done. rewrite Hr, <- Hc, drop_app_length. by rewrite (load_cut _ _ _ argv part l).
Qed.
End cuts.

(** ** Replaying *)

Section replay.
Variable other : server_cfg → redisCommand → list bytes → prog reply.

(** Loading runs the commands one after the other. *)
Fixpoint replay (g : server_cfg) (cmds : list (list bytes)) (d : adb) : option adb :=
  match cmds with
  | [] => Some d
  | argv :: cmds' =>
      cmd ← head argv ≫= lookupCommand;
      '(_, d) ← arun g (commands other g cmd argv) d;
      replay g cmds' d
  end.

(** SET of a key that had whatever it had. *)
Definition put_fresh (key : bytes) (x : content) (d : adb) : adb :=
  Adb (<[key := x]> (a_dict d)) (delete key (a_expires d)).

Lemma put_fresh_expire g key x b d d1 :
  a_expireIfNeeded g key d = Some (b, d1) → put_fresh key x d1 = put_fresh key x d.
Proof.
  intros [-> | ->]%a_expire_frame; [done|]. unfold put_fresh, a_del. simpl.
  by rewrite insert_delete_eq, delete_delete_eq.
Qed.

(** While the file is loaded, no key expires. *)
Lemma a_expire_loading g key d : loading g = true → adb_ok d → a_expireIfNeeded g key d = Some (false, d).
Proof.
  intros Hl [Hd _]. unfold a_expireIfNeeded, a_getExpire. rewrite Hl.
  destruct (a_expires d !! key) as [w|] eqn:Hw; [|done].
  destruct (Hd key) as [x Hx]; [by rewrite Hw|]. unfold a_has. rewrite Hx. simpl. by rewrite andb_false_r.
Qed.

Lemma content_integer env v :
  is_ll v → content_of (createStringObjectFromLongLongForValue env v) = (OBJ_STRING, OBJ_ENCODING_INT, PInt v).
Proof.
  intros Hv. unfold createStringObjectFromLongLongForValue, createStringObjectFromLongLongWithOptions.
  destruct (_ && _ && _); [done|]. by rewrite (proj2 (Z.leb_le _ _)), (proj2 (Z.leb_le _ _)) by apply Hv.
Qed.

(** How an argument is encoded does not depend on the clock and the limits. *)
Lemma content_arg_value g1 g2 s : content_of (arg_value g1 s) = content_of (arg_value g2 s).
Proof.
  assert (∀ g, content_of (arg_value g s) =
    match (if (length s <=? 20)%nat then string2l s else None) with
    | Some v => (OBJ_STRING, OBJ_ENCODING_INT, PInt v)
    | None => content_of (createStringObject (cfg_env g1) s)
    end) as H; [|by rewrite !H].
  intros g. unfold arg_value, createStringObject.
  assert (∀ v, (if (length s <=? 20)%nat then string2l s else None) = Some v → is_ll v) as Hll.
  { intros v. destruct (_ <=? _)%nat; [|done]. unfold string2l. destruct (string2ll s) as [w|] eqn:Hw; [|done].
    destruct (_ || _); [done|]. intros [= <-]. by apply string2ll_sound in Hw as [? _]. }
  destruct (Z.of_nat (length s) <=? OBJ_ENCODING_EMBSTR_SIZE_LIMIT) eqn:Hs; unfold tryObjectEncoding;
    cbn [createEmbeddedStringObject createRawStringObject createObject o_encoding o_ptr o_refcount o_type o_lru].
  all: change (1 <? 1) with false; cbv iota.
  all: destruct (if (length s <=? 20)%nat then string2l s else None) as [v|];
    [destruct (_ && _ && _); [done|]; case_bool_decide; (done || by apply content_integer, Hll)|].
  - rewrite Hs. by rewrite bool_decide_eq_true_2.
  - by rewrite Hs.
Qed.

Lemma replay_cons g argv cmds cmd p y d d1 :
  head argv ≫= lookupCommand = Some cmd → commands other g cmd argv = p → arun g p d = Some (y, d1) →
  replay g (argv :: cmds) d = replay g cmds d1.
Proof. intros Hc Hp Hr. cbn [replay]. rewrite Hc. cbn [mbind option_bind]. by rewrite Hp, Hr. Qed.

(** PEXPIREAT of a key that exists. *)
Lemma replay_pexpireat g when key cmds d :
  is_ll when → loading g = true → adb_ok d → a_has key d = true →
  replay g ([String.list_byte_of_string "PEXPIREAT"; key; default [] (ll2string 32 when)] :: cmds) d
  = replay g cmds (Adb (a_dict d) (<[key := when]> (a_expires d))).
Proof.
  intros Hw Hl Hd Hk. rewrite ll2string_32 by done.
  apply (replay_cons g _ cmds (Cmd "pexpireat" 3 false false 1 1 1 None)
    (pexpireatCommand g [String.list_byte_of_string "PEXPIREAT"; key; sdsll2str when]) cone); [done|done|].
  unfold pexpireatCommand, expireGenericCommand, arg_longlong.
  change (arg [String.list_byte_of_string "PEXPIREAT"; key; sdsll2str when] 2) with (sdsll2str when).
  change (arg [String.list_byte_of_string "PEXPIREAT"; key; sdsll2str when] 1) with key.
  rewrite string2ll_complete by done. cbn [arun aexec]. rewrite a_expire_loading by done. cbn [mbind option_bind].
  rewrite Hk. cbn [negb]. rewrite Hl, andb_false_r. cbn [andb arun aexec]. rewrite Hk. cbn [mbind option_bind arun].
  rewrite Z.add_0_r, to_signed_small by (unfold is_ll, LLONG_MIN, LLONG_MAX in Hw; lia). done.
Qed.

(** SET without options. *)
Lemma replay_set g w cmd key val cmds d :
  lookupCommand w = Some cmd → cmd_name cmd = "set"%string → loading g = true → adb_ok d →
  replay g ([w; key; val] :: cmds) d = replay g cmds (put_fresh key (content_of (arg_value g val)) d).
Proof.
  intros Hw Hn Hl Hd. apply (replay_cons g _ cmds cmd (setCommand g [w; key; val]) shared_ok); [done| |].
  { unfold commands. by rewrite Hn. }
  unfold setCommand, setGenericCommand, set_guard, set_store. cbn [drop parse_set_opts no_opts so_expire so_nx so_xx so_keepttl].
  change (arg [w; key; val] 1) with key. change (arg [w; key; val] 2) with val.
  cbn [arun aexec]. by rewrite a_expire_loading.
Qed.

(** *** What the commands have done *)

Lemma store_effect g key val ms d d' :
  adb_ok d → arun g (set_store g false key val shared_ok ms) d = Some (shared_ok, d') →
  let pf := put_fresh key (content_of val) d in
  d' = match ms with
       | None => pf
       | Some ms => Adb (a_dict pf) (<[key := to_signed 64 (fresh_mstime g + ms)]> (a_expires pf))
       end.
Proof.
  intros Hd Hr. destruct (a_expire_ok g key d Hd) as (b & d0 & He & _).
  unfold set_store in Hr. cbn [arun aexec] in Hr. rewrite He in Hr. cbn [mbind option_bind] in Hr.
  change (Adb (a_dict (a_put key (content_of val) d0)) (delete key (a_expires (a_put key (content_of val) d0))))
    with (put_fresh key (content_of val) d0) in Hr. rewrite (put_fresh_expire _ _ _ _ _ _ He) in Hr.
  destruct ms as [ms|]; cbn [arun aexec] in Hr; [|by injection Hr].
  assert (a_has key (put_fresh key (content_of val) d) = true) as Hh.
  { unfold a_has, put_fresh. cbn [a_dict]. by rewrite lookup_insert_eq. }
  rewrite Hh in Hr. by injection Hr.
Qed.

(** The tests of NX and XX change nothing but an expired value of the key. *)
Lemma exists_effect g key (f : bool → prog reply) d y d' :
  adb_ok d → arun g (Call (KExistsW key) f) d = Some (y, d') →
  ∃ b d1, arun g (f b) d1 = Some (y, d') ∧ adb_ok d1 ∧ ∀ x, put_fresh key x d1 = put_fresh key x d.
Proof.
  intros Hd Hr. destruct (a_expire_ok g key d Hd) as (b & d0 & He & Hd0).
  cbn [arun aexec] in Hr. rewrite He in Hr. cbn [mbind option_bind] in Hr.
  exists (a_has key d0), d0. split; [done|]. split; [done|]. intros x. by eapply put_fresh_expire.
Qed.

Lemma guard_effect g o key store d d' :
  adb_ok d → arun g (set_guard o key RNull store) d = Some (shared_ok, d') →
  ∃ d1, arun g store d1 = Some (shared_ok, d') ∧ adb_ok d1 ∧ ∀ x, put_fresh key x d1 = put_fresh key x d.
Proof.
  intros Hd. unfold set_guard.
  assert (∀ d, adb_ok d →
    arun g (if so_xx o then Call (KExistsW key) (fun b => if negb b then Ret RNull else store) else store) d = Some (shared_ok, d') →
    ∃ d1, arun g store d1 = Some (shared_ok, d') ∧ adb_ok d1 ∧ ∀ x, put_fresh key x d1 = put_fresh key x d) as Hxx.
  { clear d Hd. intros d Hd. destruct (so_xx o); [|by exists d].
    intros (b & d1 & Hr & Hd1 & Hp)%exists_effect; [|done]. destruct b; [|done]. by exists d1. }
  destruct (so_nx o); [|by apply Hxx].
  intros (b & d1 & Hr & Hd1 & Hp)%exists_effect; [|done]. destruct b; [done|].
  destruct (Hxx d1 Hd1 Hr) as (d2 & ? & ? & Hp2). exists d2. split_and!; try done. intros x. by rewrite Hp2.
Qed.

Lemma set_effect g name o key val d d' :
  so_keepttl o = false → adb_ok d → arun g (setGenericCommand g name o key val shared_ok RNull) d = Some (shared_ok, d') →
  let pf := put_fresh key (content_of val) d in
  match so_expire o with
  | None => d' = pf
  | Some e => ∃ ms, string2ll e = Some ms ∧
      d' = Adb (a_dict pf) (<[key := to_signed 64 (fresh_mstime g + if so_seconds o then to_signed 64 (ms * 1000) else ms)]>
                              (a_expires pf))
  end.
Proof.
  intros Hk Hd. unfold setGenericCommand. rewrite Hk. destruct (so_expire o) as [e|].
  - unfold arg_longlong. destruct (string2ll e) as [ms|]; [|done]. destruct (ms <=? 0); [done|].
    intros (d1 & Hr & Hd1 & Hp)%guard_effect; [|done]. exists ms. split; [done|].
    apply store_effect in Hr; [|done]. by rewrite Hp in Hr.
  - intros (d1 & Hr & Hd1 & Hp)%guard_effect; [|done]. apply store_effect in Hr; [|done]. by rewrite Hp in Hr.
Qed.

Lemma expire_effect g basetime secs argv d d' :
  adb_ok d → arun g (expireGenericCommand g basetime secs argv) d = Some (cone, d') → a_has (arg argv 1) d' = true →
  ∃ when, string2ll (arg argv 2) = Some when ∧ a_has (arg argv 1) d = true ∧
    d' = Adb (a_dict d) (<[arg argv 1 := to_signed 64 ((if secs then to_signed 64 (when * 1000) else when) + basetime)]> (a_expires d)).
Proof.
  intros Hd. unfold expireGenericCommand, arg_longlong. set (key := arg argv 1).
  destruct (string2ll (arg argv 2)) as [when|]; [|done].
  destruct (a_expire_ok g key d Hd) as (b & d0 & He & _). cbn [arun aexec]. rewrite He. cbn [mbind option_bind].
  destruct (a_has key d0) eqn:Hh; cbn [negb]; [|done]. intros Hr Hin. exists when. split; [done|].
  assert (∀ k : kcall bool, (k = KAsyncDelete key ∨ k = KSyncDelete key) →
    arun g (Call k (fun x => if x then Ret cone else Panic "deleted")) d0 = Some (cone, d') → False) as Hdel.
  { intros k Hk Hr'. assert (d' = a_del key d0) as ->.
    { destruct Hk as [-> | ->]; cbn [arun aexec] in Hr'; rewrite Hh in Hr'; by injection Hr'. }
    unfold a_has, a_del in Hin. cbn [a_dict] in Hin. rewrite lookup_delete_eq in Hin. done. }
  destruct (_ && _ && _).
  { exfalso. apply (Hdel (if lazyfree_lazy_expire g then KAsyncDelete key else KSyncDelete key)); [|done].
    destruct (lazyfree_lazy_expire g); auto. }
  cbn [arun aexec] in Hr. rewrite Hh in Hr. injection Hr as <-.
  apply a_expire_frame in He as [-> | ->]; [done|].
  unfold a_has, a_del in Hh. cbn [a_dict] in Hh. by rewrite lookup_delete_eq in Hh.
Qed.

(** *** Options *)

(** Options of SET in which every time is a number, and without KEEPTTL. *)
Fixpoint clean (l : list bytes) : Prop :=
  match l with
  | [] => True
  | a :: l' =>
      strcaseeq a "keepttl" = false ∧
      if strcaseeq a "ex" || strcaseeq a "px"
      then match l' with v :: l'' => is_Some (string2ll v) ∧ clean l'' | [] => False end
      else clean l'
  end.

(** The options that have been parsed, and what the AOF finds. *)
Definition opts_match (o : set_opts) (exarg pxarg : option bytes) : Prop :=
  so_keepttl o = false ∧
  ((so_expire o = None ∧ so_ex o = false ∧ so_px o = false ∧ exarg = None ∧ pxarg = None) ∨
   (so_ex o = true ∧ so_px o = false ∧ so_seconds o = true ∧ exarg = so_expire o ∧ pxarg = None ∧ is_Some (so_expire o)) ∨
   (so_ex o = false ∧ so_px o = true ∧ so_seconds o = false ∧ exarg = None ∧ pxarg = so_expire o ∧ is_Some (so_expire o))).

Lemma number_head (c : byte) v ms : string2ll (c :: v) = Some ms → Z_of_byte c < 65.
Proof.
  unfold string2ll. destruct (decide (c :: v = [chr 0])) as [[= -> _]|]; [intros _; rewrite chr_Z; lia|].
  case_bool_decide as Hm; [intros _; by subst|].
  destruct (digit_val c) as [d|] eqn:Hd; [|done]. intros _. apply digit_val_Some in Hd as [Hd ->]. rewrite chr_Z; lia.
Qed.
Lemma number_no_option v ms : string2ll v = Some ms → strcaseeq v "ex" = false ∧ strcaseeq v "px" = false.
Proof.
  intros H. destruct v as [|c v]; [done|]. apply number_head in H.
  assert (tolower c = c) as Hc by (unfold tolower; rewrite (proj2 (Z.leb_gt _ _)) by lia; done).
  split; apply bool_decide_eq_false_2; simpl; case_bool_decide; try done; simpl; rewrite Hc; intros [= -> _]; done.
Qed.

Lemma strcaseeq_other a s s' :
  strcaseeq a s = true → String.list_byte_of_string s ≠ String.list_byte_of_string s' → strcaseeq a s' = false.
Proof.
  unfold strcaseeq. intros H%bool_decide_eq_true Hne. apply bool_decide_eq_false_2. rewrite H. done.
Qed.

Lemma parse_opts_match n : ∀ l o o' exarg pxarg,
  (length l ≤ n)%nat → parse_set_opts l o = Some o' → clean l → opts_match o exarg pxarg →
  opts_match o' (last_option "ex" l exarg) (last_option "px" l pxarg).
Proof.
  induction n as [|n IH]; intros l o o' exarg pxarg Hl Hp Hc Ho.
  { destruct l; [|simpl in Hl; lia]. simpl in Hp. by injection Hp as <-. }
  destruct l as [|a l]; [simpl in Hp; by injection Hp as <-|]. simpl in Hl.
  destruct o as [nx xx ex px keepttl expire secs]. cbn [parse_set_opts] in Hp. cbn [clean] in Hc.
  destruct Hc as [Hk Hc]. rewrite Hk in Hp. cbn [andb] in Hp. cbn [last_option].
  destruct (strcaseeq a "nx" && negb xx) eqn:Hnx.
  { apply andb_prop in Hnx as [Hnx _]. rewrite (strcaseeq_other a "nx" "ex"), (strcaseeq_other a "nx" "px") in Hc |- * by done.
    eapply IH; [lia|exact Hp|done|exact Ho]. }
  destruct (strcaseeq a "xx" && negb nx) eqn:Hxx.
  { apply andb_prop in Hxx as [Hxx _]. rewrite (strcaseeq_other a "xx" "ex"), (strcaseeq_other a "xx" "px") in Hc |- * by done.
    eapply IH; [lia|exact Hp|done|exact Ho]. }
  destruct l as [|v l]; [done|]. simpl in Hl.
  destruct (strcaseeq a "ex" && negb keepttl && negb px) eqn:Hex; [|destruct (strcaseeq a "px" && negb keepttl && negb ex) eqn:Hpx; [|done]].
  - apply andb_prop in Hex as [[Hex Hkt]%andb_prop Hnp]. rewrite Hex in Hc. cbn [orb] in Hc. destruct Hc as [[ms Hms] Hc].
    destruct (number_no_option v ms Hms) as [Hv1 Hv2]. cbn [last_option head default].
    rewrite Hex, (strcaseeq_other a "ex" "px"), Hv1, Hv2 by done. eapply IH; [lia|exact Hp|done|].
    destruct Ho as [Hkk Ho]. split; [done|]. right. left. simpl in *. destruct px; [done|].
    destruct Ho as [(? & ? & ? & ? & ?)|[(? & ? & ? & ? & ? & ?)|(? & ? & ? & ? & ? & ?)]]; by split_and!.
  - apply andb_prop in Hpx as [[Hpx Hkt]%andb_prop Hnp]. rewrite Hpx, (strcaseeq_other a "px" "ex") in Hc by done.
    cbn [orb] in Hc. destruct Hc as [[ms Hms] Hc].
    destruct (number_no_option v ms Hms) as [Hv1 Hv2]. cbn [last_option head default].
    rewrite Hpx, (strcaseeq_other a "px" "ex"), Hv1, Hv2 by done. eapply IH; [lia|exact Hp|done|].
    destruct Ho as [Hkk Ho]. split; [done|]. right. right. simpl in *. destruct ex; [done|].
    destruct Ho as [(? & ? & ? & ? & ?)|[(? & ? & ? & ? & ? & ?)|(? & ? & ? & ? & ? & ?)]]; by split_and!.
Qed.

(** *** The theorem *)

Lemma strtol_number e ms : string2ll e = Some ms → strtol e = ms.
Proof.
  intros [Hl ->]%string2ll_sound. rewrite sdsll2str_eq by done. unfold abs_ll, is_ll, LLONG_MIN, LLONG_MAX in *.
  destruct (Z.ltb_spec ms 0).
  - assert (digits_prefix (dec (- ms)) 0 = - ms) as Hd.
    { rewrite <- (app_nil_r (dec _)), digits_prefix_app by (apply dec_digits; lia). apply val_dec. lia. }
    change ([minus_sign] ++ dec (- ms)) with (x2d :: dec (- ms)). unfold strtol, LLONG_MIN, LLONG_MAX.
    change (skip_spaces (x2d :: dec (- ms))) with (x2d :: dec (- ms)). cbv iota. rewrite Hd. lia.
  - rewrite <- (app_nil_r (dec ms)). cbn [app]. rewrite strtol_digits; [apply val_dec; lia|apply dec_digits; lia|done|].
    cbn [digits_prefix]. rewrite val_dec by lia. unfold LLONG_MAX. lia.
Qed.

Lemma put_fresh_ok g key val d :
  wf_env (cfg_env g) → adb_ok d → adb_ok (put_fresh key (content_of (arg_value g val)) d).
Proof.
  intros Hw Hd. destruct (arg_value_ok g val Hw) as [Hv _].
  by apply (adb_ok_persist key (a_put key (content_of (arg_value g val)) d)), a_put_obj_ok.
Qed.
Lemma put_fresh_has key x d : a_has key (put_fresh key x d) = true.
Proof. apply a_has_true. unfold put_fresh. cbn [a_dict]. by rewrite lookup_insert_eq. Qed.

(** The commands that are translated. *)
Inductive translated : string → list bytes → Prop :=
| translated_set w key val opts : clean opts → translated "set" (w :: key :: val :: opts)
| translated_setex name w key time val : name ∈ ["setex"; "psetex"]%string → translated name [w; key; time; val]
| translated_expire name w key time : name ∈ ["expire"; "pexpire"; "expireat"]%string → translated name [w; key; time].

Definition success (name : string) : reply :=
  if bool_decide (name ∈ ["expire"; "pexpire"; "expireat"]%string) then cone else shared_ok.

Definition pexpireat (key : bytes) (when : Z) : list bytes :=
  [String.list_byte_of_string "PEXPIREAT"; key; default [] (ll2string 32 when)].
Lemma cat_expire now name key e ms :
  string2ll e = Some ms →
  catAppendOnlyExpireAtCommand now name key e = pexpireat key
    (let when := if bool_decide (name ∈ ["expire"; "setex"; "expireat"]%string) then to_signed 64 (ms * 1000) else ms in
     if bool_decide (name ∈ ["expire"; "pexpire"; "setex"; "psetex"]%string) then to_signed 64 (when + now) else when).
Proof. intros H. unfold catAppendOnlyExpireAtCommand. by rewrite (strtol_number e ms). Qed.

(** SET and PEXPIREAT. *)
Lemma replay_set_at g g' w cmd key val when d :
  wf_env (cfg_env g') → loading g' = true → adb_ok d → lookupCommand w = Some cmd → cmd_name cmd = "set"%string → is_ll when →
  replay g' [[w; key; val]; pexpireat key when] d =
  let pf := put_fresh key (content_of (arg_value g val)) d in Some (Adb (a_dict pf) (<[key := when]> (a_expires pf))).
Proof.
  intros Hw Hl Hd Hc Hn Hwh. rewrite (replay_set _ _ cmd) by done.
  unfold pexpireat. rewrite replay_pexpireat; [|done|done|by apply put_fresh_ok|by apply put_fresh_has].
  cbn [replay]. by rewrite (content_arg_value g' g).
Qed.

(** The time of [key], if it has one, is later by [delta]. *)
Definition later (delta : Z) (key : bytes) (d : adb) : adb := Adb (a_dict d) (alter (fun t => to_signed 64 (t + delta)) key (a_expires d)).
Lemma later_none delta key d : a_expires d !! key = None → later delta key d = d.
Proof. intros Hx. destruct d as [m e]. unfold later. cbn [a_dict a_expires] in *. f_equal. apply map_eq. intros i. destruct (decide (i = key)) as [->|]; [rewrite lookup_alter_eq, Hx; done|by rewrite lookup_alter_ne]. Qed.
Lemma later_insert delta key m e t : later delta key (Adb m (<[key := to_signed 64 t]> e)) = Adb m (<[key := to_signed 64 (t + delta)]> e).
Proof. unfold later. cbn [a_dict a_expires]. by rewrite alter_insert_eq, to_signed_shift. Qed.

Lemma clock_shift a b now : a + b + (now - a) = b + now.
Proof. lia. Qed.

Lemma aof_replay_set g g' cmd w key val opts now d d' :
  wf_env (cfg_env g') → loading g' = true → adb_ok d → lookupCommand w = Some cmd → cmd_name cmd = "set"%string → clean opts →
  arun g (setCommand g (w :: key :: val :: opts)) d = Some (shared_ok, d') →
  ∃ cmds, fed now (cmd, w :: key :: val :: opts) = Ok cmds ∧ replay g' cmds d = Some (later (now - fresh_mstime g) key d').
Proof.
  intros Hw Hl Hd Hc Hn Hcl Hr. unfold setCommand in Hr. change (drop 3 (w :: key :: val :: opts)) with opts in Hr.
  destruct (parse_set_opts opts no_opts) as [o|] eqn:Hp; [|done].
  assert (opts_match o (last_option "ex" opts None) (last_option "px" opts None)) as [Hk Ho].
  { eapply (parse_opts_match (length opts)); [done|exact Hp|done|]. split; [done|]. by left. }
  apply set_effect in Hr; [|done|done].
  change (arg (w :: key :: val :: opts) 1) with key in Hr. change (arg (w :: key :: val :: opts) 2) with val in Hr.
  unfold fed. cbn [fst snd]. rewrite Hn.
  change (bool_decide ("set" ∈ ["expire"; "pexpire"; "expireat"])%string) with false.
  change (bool_decide ("set" ∈ ["setex"; "psetex"])%string) with false.
  change (bool_decide ("set" = "set")%string) with true. cbv iota.
  change (drop 3 (w :: key :: val :: opts)) with opts. change (take 3 (w :: key :: val :: opts)) with [w; key; val].
  change (arg (w :: key :: val :: opts) 1) with key.
  assert (∀ x, later (now - fresh_mstime g) key (put_fresh key x d) = put_fresh key x d) as Hnone.
  { intros x. apply later_none. apply lookup_delete_eq. }
  destruct (3 <? length (w :: key :: val :: opts))%nat eqn:Hlen; cbn [andb].
  2: { apply Nat.ltb_ge in Hlen. destruct opts; [|simpl in Hlen; lia]. injection Hp as <-. cbn [so_expire no_opts] in Hr.
       eexists. split; [done|]. rewrite (replay_set _ _ cmd), (content_arg_value g' g), Hr, Hnone by done. done. }
  destruct Ho as [(He & _ & _ & -> & ->)|[(_ & _ & Hs & -> & -> & [e He])|(_ & _ & Hs & -> & -> & [e He])]];
    rewrite He in Hr; rewrite ?He; eexists; (split; [reflexivity|]); cbn [app].
  - rewrite (replay_set _ _ cmd), (content_arg_value g' g), Hr, Hnone by done. done.
  - destruct Hr as (ms & Hms & ->). rewrite Hs, (cat_expire _ _ _ e ms) by done.
    rewrite (replay_set_at g _ _ cmd), later_insert by (done || apply to_signed_ll). by rewrite clock_shift.
  - destruct Hr as (ms & Hms & ->). rewrite Hs, (cat_expire _ _ _ e ms) by done.
    rewrite (replay_set_at g _ _ cmd), later_insert by (done || apply to_signed_ll). by rewrite clock_shift.
Qed.

Lemma aof_replay_setex g g' cmd w key time val secs now d d' :
  wf_env (cfg_env g') → loading g' = true → adb_ok d →
  cmd_name cmd = (if secs : bool then "setex" else "psetex")%string →
  arun g (setGenericCommand g (cmd_name cmd) (SetOpts false false false false false (Some time) secs) key (arg_value g val)
            shared_ok RNull) d = Some (shared_ok, d') →
  ∃ cmds, fed now (cmd, [w; key; time; val]) = Ok cmds ∧ replay g' cmds d = Some (later (now - fresh_mstime g) key d').
Proof.
  intros Hw Hl Hd Hn Hr. apply set_effect in Hr; [|done|done]. destruct Hr as (ms & Hms & ->).
  unfold fed. cbn [fst snd]. rewrite Hn.
  assert (lookupCommand (String.list_byte_of_string "SET") = Some (Cmd "set" (-3) true false 1 1 1 None)) as Hset by done.
  destruct secs; eexists; (split; [reflexivity|]); change (arg [w; key; time; val] 1) with key;
    change (arg [w; key; time; val] 2) with time; change (arg [w; key; time; val] 3) with val;
    rewrite (cat_expire _ _ _ time ms), (replay_set_at g _ _ _ _ _ _ _ Hw Hl Hd Hset), later_insert by (done || apply to_signed_ll);
    by rewrite clock_shift.
Qed.

Lemma aof_replay_expire g g' cmd w key time secs relative now d d' :
  wf_env (cfg_env g') → loading g' = true → adb_ok d →
  (cmd_name cmd, secs, relative) ∈ [("expire"%string, true, true); ("pexpire"%string, false, true); ("expireat"%string, true, false)] →
  arun g (expireGenericCommand g (if relative : bool then fresh_mstime g else 0) secs [w; key; time]) d = Some (cone, d') → a_has key d' = true →
  ∃ cmds, fed now (cmd, [w; key; time]) = Ok cmds ∧ replay g' cmds d = Some (later (if relative then now - fresh_mstime g else 0) key d').
Proof.
  intros Hw Hl Hd Hn Hr Hin. apply expire_effect in Hr; [|done|done]. destruct Hr as (ms & Hms & Hh & ->).
  unfold fed. cbn [fst snd]. change (arg [w; key; time] 2) with time in *. change (arg [w; key; time] 1) with key in *.
  assert (∀ when, is_ll when → replay g' [pexpireat key when] d = Some (Adb (a_dict d) (<[key := when]> (a_expires d)))) as Hre.
  { intros when Hwh. unfold pexpireat. by rewrite replay_pexpireat. }
  rewrite later_insert, !elem_of_cons in *. destruct Hn as [Hn|[Hn|[Hn|Hn]]]; [| | |by apply elem_of_nil in Hn];
    injection Hn as Hn -> ->; rewrite Hn; eexists; (split; [reflexivity|]);
    rewrite (cat_expire _ _ _ time ms) by done; rewrite Hre by apply to_signed_ll; [by rewrite <- Z.add_assoc, Z.add_sub_assoc, Z.add_simpl_l|by rewrite <- Z.add_assoc, Z.add_sub_assoc, Z.add_simpl_l|].
  cbn.
  do 3 f_equal. rewrite !Z.add_0_r. pose proof (to_signed_ll (ms * 1000)) as Hb. unfold is_ll, LLONG_MIN, LLONG_MAX in Hb.
  by rewrite (to_signed_small 64 (to_signed 64 _)) by lia.
Qed.

(** C28: what the AOF records of a command that sets a time to live has its effect.  SET, SETEX, PSETEX,
    EXPIRE, PEXPIRE and EXPIREAT are written as SET and PEXPIREAT with the absolute time.  The command and [feedAppendOnlyFile]
    each read the clock ([fresh_mstime g] and [now]).  Whenever such a command
    succeeds and leaves its key, replaying what was written on the keyspace it was executed on, with whatever
    clock and limits the loading server has, gives the keyspace the command left, with the time of the
    key later by the difference between the two readings if the command had a relative time.  The options
    of SET are those without KEEPTTL in which each time is a number ([clean]; [keepttl_lost] and
    [set_stops_server] show why). *)
Theorem aof_replay g g' cmd argv now d d' :
  wf_env (cfg_env g') → loading g' = true → adb_ok d →
  head argv ≫= lookupCommand = Some cmd → translated (cmd_name cmd) argv →
  arun g (commands other g cmd argv) d = Some (success (cmd_name cmd), d') → a_has (arg argv 1) d' = true →
  ∃ cmds, fed now (cmd, argv) = Ok cmds ∧
    replay g' cmds d = Some (later (if bool_decide (cmd_name cmd = "expireat"%string) then 0 else now - fresh_mstime g) (arg argv 1) d').
Proof.
  intros Hw Hl Hd Hc Ht Hr Hin. remember (cmd_name cmd) as name eqn:Hn. unfold commands in Hr. rewrite <- Hn in Hr.
  destruct Ht as [w key val opts Hcl|name w key time val Hm|name w key time Hm].
  - by eapply aof_replay_set.
  - rewrite !elem_of_cons in Hm. destruct Hm as [-> |[-> |[]%elem_of_nil]].
    + eapply (aof_replay_setex g g' cmd w key time val true); try done. by rewrite <- Hn.
    + eapply (aof_replay_setex g g' cmd w key time val false); try done. by rewrite <- Hn.
  - rewrite !elem_of_cons in Hm. destruct Hm as [-> |[-> |[-> |[]%elem_of_nil]]].
    + eapply (aof_replay_expire g g' cmd w key time true true); try done. rewrite <- Hn. set_solver.
    + eapply (aof_replay_expire g g' cmd w key time false true); try done. rewrite <- Hn. set_solver.
    + eapply (aof_replay_expire g g' cmd w key time true false); try done. rewrite <- Hn. set_solver.
Qed.

(** SET on a key that is not expired, with one option, KEEPTTL. *)
Lemma keepttl_effect g w key val opt d :
  adb_ok d → strcaseeq opt "keepttl" = true → a_expireIfNeeded g key d = Some (false, d) →
  arun g (setCommand g [w; key; val; opt]) d =
  Some (shared_ok, Adb (<[key := content_of (arg_value g val)]> (a_dict d)) (a_expires d)).
Proof.
  intros Hd Ho He. unfold setCommand. change (drop 3 [w; key; val; opt]) with [opt].
  change (arg [w; key; val; opt] 1) with key. change (arg [w; key; val; opt] 2) with val.
  cbn [parse_set_opts no_opts]. rewrite Ho, (strcaseeq_other opt "keepttl" "nx"), (strcaseeq_other opt "keepttl" "xx") by done.
  cbn [andb negb setGenericCommand so_expire]. unfold set_guard, set_store. cbn [so_nx so_xx so_keepttl arun aexec].
  by rewrite He.
Qed.

(** KEEPTTL is not in the AOF.  SET with KEEPTTL keeps the time to live of the key, but
    [feedAppendOnlyFile] writes the first three arguments of SET only: after
    the replay the key has the new value and no time to live. *)
Theorem keepttl_lost g g' w cmd key val opt when now d :
  wf_env (cfg_env g') → loading g' = true → adb_ok d → lookupCommand w = Some cmd → cmd_name cmd = "set"%string →
  strcaseeq opt "keepttl" = true → a_expireIfNeeded g key d = Some (false, d) → a_expires d !! key = Some when →
  ∃ d' cmds d'', arun g (commands other g cmd [w; key; val; opt]) d = Some (shared_ok, d') ∧ a_expires d' !! key = Some when ∧
    fed now (cmd, [w; key; val; opt]) = Ok cmds ∧ replay g' cmds d = Some d'' ∧
    a_dict d'' = a_dict d' ∧ a_expires d'' !! key = None.
Proof.
  intros Hw Hl Hd Hc Hn Ho He Hx. unfold commands. rewrite Hn.
  exists (Adb (<[key := content_of (arg_value g val)]> (a_dict d)) (a_expires d)), [[w; key; val]],
    (put_fresh key (content_of (arg_value g val)) d).
  split; [by apply keepttl_effect|]. split; [done|]. split.
  { unfold fed. cbn [fst snd]. rewrite Hn. change (drop 3 [w; key; val; opt]) with [opt]. cbn [last_option].
    by rewrite (strcaseeq_other opt "keepttl" "ex"), (strcaseeq_other opt "keepttl" "px"). }
  split; [by rewrite (replay_set _ _ cmd), (content_arg_value g' g)|]. split; [done|]. apply lookup_delete_eq.
Qed.

(** C40: a client can stop a server that has an AOF.  [setCommand] takes a second EX,
    and looks at the last time only: SET key value EX px EX 10 is executed.  [feedAppendOnlyFile]
    goes through the arguments one by one and takes the first time for the option
    PX: with both times found, its assertion fails. *)
Theorem set_stops_server g w cmd key val ex px ex' time ms now d :
  adb_ok d → lookupCommand w = Some cmd → cmd_name cmd = "set"%string →
  strcaseeq ex "ex" = true → strcaseeq px "px" = true → strcaseeq ex' "ex" = true → string2ll time = Some ms → 0 < ms →
  (∃ d', arun g (commands other g cmd [w; key; val; ex; px; ex'; time]) d = Some (shared_ok, d')) ∧
  fed now (cmd, [w; key; val; ex; px; ex'; time]) = Abort "!(exarg && pxarg)".
Proof.
  intros Hd Hc Hn He1 Hp He2 Hms Hpos. unfold commands. rewrite Hn.
  assert (strcaseeq px "ex" = false) as Hp' by (by rewrite (strcaseeq_other px "px" "ex")).
  assert (∀ a, strcaseeq a "ex" = true → strcaseeq a "nx" = false ∧ strcaseeq a "xx" = false ∧ strcaseeq a "keepttl" = false ∧
    strcaseeq a "px" = false) as Ha by (intros a Hx; split_and!; by apply (strcaseeq_other a "ex")).
  destruct (Ha ex He1) as (N1 & X1 & K1 & P1), (Ha ex' He2) as (N2 & X2 & K2 & P2).
  destruct (number_no_option time ms Hms) as [Ht1 Ht2]. split.
  - change (∃ d', arun g (setCommand g [w; key; val; ex; px; ex'; time]) d = Some (shared_ok, d')).
    unfold setCommand. change (drop 3 [w; key; val; ex; px; ex'; time]) with [ex; px; ex'; time].
    cbn [parse_set_opts no_opts]. rewrite N1, X1, K1, He1. cbn [andb negb]. rewrite N2, X2, K2, He2. cbn [andb negb].
    unfold setGenericCommand, arg_longlong. cbn [so_expire so_keepttl so_seconds so_nx so_xx]. rewrite Hms.
    rewrite (proj2 (Z.leb_gt _ _)) by done. unfold set_guard, set_store. cbn [so_nx so_xx arun aexec].
    change (arg [w; key; val; ex; px; ex'; time] 1) with key.
    destruct (a_expire_ok g key d Hd) as (b & d0 & -> & _). cbn [mbind option_bind arun aexec].
    unfold a_has at 1, a_put. cbn [a_dict]. rewrite lookup_insert_eq. by eexists.
  - unfold fed. cbn [fst snd]. rewrite Hn. change (drop 3 [w; key; val; ex; px; ex'; time]) with [ex; px; ex'; time].
    cbn [last_option head]. by rewrite He1, Hp', He2, Ht1, P1, Hp, P2, Ht2.
Qed.

End replay.

(** ** Examples *)

Definition all_fits (n : Z) : bool := n <=? 1000.
Lemma all_fits_ok n : 0 ≤ n ≤ 1000 → all_fits n = true.
Proof. intros H. apply Z.leb_le. lia. Qed.
Lemma small_storable argv :
  bool_decide (argv ≠ [] ∧ Z.of_nat (length argv) < 2 ^ 31 ∧ Forall (fun a => Z.of_nat (length a) ≤ 1000) argv) = true →
  storable 1000 argv.
Proof. by intros H%bool_decide_eq_true. Qed.

Definition w_set : list bytes := [String.list_byte_of_string "SET"; [x6b]; [x31]].
Definition w_del : list bytes := [String.list_byte_of_string "DEL"; [x6b]].
Definition w_multi : list bytes := [String.list_byte_of_string "MULTI"].
Lemma w_set_plain : plain w_set.
Proof. eexists. split_and!; [reflexivity|reflexivity|reflexivity]. Qed.
Lemma w_del_plain : plain w_del.
Proof. eexists. split_and!; [reflexivity|reflexivity|reflexivity]. Qed.
Definition no_preamble (content : bytes) : nat + bool := inr false.

(** SET is there, the last three bytes of DEL are not. *)
Lemma aof_crash_witness :
  ∃ k cut, loadAppendOnlyFile all_fits no_preamble true (take 46 (stream [w_set; w_del]))
      = Ok (Some (Loaded ((fun argv => [argv]) <$> take k [w_set; w_del]) cut)) ∧
    match cut with None => take 46 (stream [w_set; w_del]) | Some n => take n (take 46 (stream [w_set; w_del])) end
      = stream (take k [w_set; w_del]) ∧
    (k < length [w_set; w_del] → length (take 46 (stream [w_set; w_del])) < length (stream (take (S k) [w_set; w_del])))%nat.
Proof.
  apply (aof_crash all_fits 1000 ltac:(by vm_compute) all_fits_ok no_preamble [w_set; w_del] _ (drop 46 (stream [w_set; w_del]))).
  - apply take_drop.
  - by vm_compute.
  - apply Forall_cons. split; [apply small_storable; by vm_compute|]. apply Forall_singleton. apply small_storable; by vm_compute.
  - apply Forall_cons. split; [exact w_set_plain|]. apply Forall_singleton. exact w_del_plain.
Defined.

Lemma open_transaction_witness :
  loadAppendOnlyFile all_fits no_preamble true (stream [w_multi; w_set] ++ take 10 (request_bytes w_del))
    = Ok (Some (Loaded [] (Some (length (stream [w_multi; w_set]))))) ∧
  loadAppendOnlyFile all_fits no_preamble true (stream ([w_multi; w_set] ++ [w_set])) = Ok (Some (Loaded [] (Some 0%nat))).
Proof.
  apply (open_transaction all_fits 1000 ltac:(by vm_compute) all_fits_ok no_preamble w_multi (Cmd "multi" 1 false false 0 0 0 None) w_set w_del
    (take 10 (request_bytes w_del)) (drop 10 (request_bytes w_del)) [w_set]).
  1, 4, 6: apply small_storable; by vm_compute.
  1, 2: reflexivity.
  - exact w_set_plain.
  - by rewrite take_drop.
  - by vm_compute.
  - by vm_compute.
  - apply Forall_singleton. apply small_storable; by vm_compute.
  - apply Forall_singleton. exact w_set_plain.
Defined.

Definition w_preamble : bytes := String.list_byte_of_string "REDIS0009".
Lemma preamble_lost_witness :
  loadAppendOnlyFile all_fits (fun _ => inl 9%nat) true (w_preamble ++ take 10 (request_bytes w_del))
    = Ok (Some (Loaded [] (Some 0%nat))).
Proof.
  apply (preamble_lost all_fits 1000 ltac:(by vm_compute) all_fits_ok (fun _ => inl 9%nat) w_preamble w_del
    (take 10 (request_bytes w_del)) (drop 10 (request_bytes w_del))).
  - reflexivity.
  - reflexivity.
  - apply small_storable. by vm_compute.
  - by rewrite take_drop.
  - by vm_compute.
  - by vm_compute.
Defined.

Definition w_other (g : server_cfg) (cmd : redisCommand) (argv : list bytes) : prog reply := Ret RNull.
Definition w_cfg : server_cfg := Cfg any_env false false false false false false false 0 0 5000.
Definition w_loading : server_cfg := Cfg any_env false false false false true false false 0 0 9000.
Lemma any_env_wf : wf_env any_env.
Proof. repeat split; vm_compute; congruence. Qed.
(** A string with a time to live. *)
Definition w_db : adb := Adb {[ [x6b] := (OBJ_STRING, OBJ_ENCODING_INT, PInt 1) ]} {[ [x6b] := 8000 ]}.
Lemma w_db_ok : adb_ok w_db.
Proof.
  split; intros key; unfold w_db; cbn [a_dict a_expires].
  - intros [w [<- _]%lookup_singleton_Some]. rewrite lookup_singleton_eq. by eexists.
  - intros t enc ptr [<- [= <- <- <-]]%lookup_singleton_Some. right. vm_compute. split; congruence.
Qed.
Definition cmd_set : redisCommand := Cmd "set" (-3) true false 1 1 1 None.

(** SET k 1 PX 10 at 5000 expires at 5010; the AOF, which is written at 5002, says 5012, also when it is loaded at 9000. *)
Definition w_px : list bytes := w_set ++ [String.list_byte_of_string "PX"; String.list_byte_of_string "10"].
Definition w_after : adb := Adb {[ [x6b] := (OBJ_STRING, OBJ_ENCODING_INT, PInt 1) ]} {[ [x6b] := 5010 ]}.
Lemma w_px_run : arun w_cfg (commands w_other w_cfg cmd_set w_px) w_db = Some (success "set", w_after).
Proof. by vm_compute. Qed.

Lemma aof_replay_witness : ∃ cmds, fed 5002 (cmd_set, w_px) = Ok cmds ∧ replay w_other w_loading cmds w_db = Some (later 2 [x6b] w_after).
Proof.
  apply (aof_replay w_other w_cfg w_loading cmd_set w_px 5002 w_db w_after);
    [exact any_env_wf|reflexivity|exact w_db_ok|reflexivity| |exact w_px_run|by vm_compute].
  apply translated_set. split; [by vm_compute|]. split; [by eexists|done].
Defined.

Definition w_keepttl : bytes := String.list_byte_of_string "KEEPTTL".
Lemma keepttl_lost_witness :
  ∃ d' cmds d'', arun w_cfg (commands w_other w_cfg cmd_set [String.list_byte_of_string "SET"; [x6b]; [x32]; w_keepttl]) w_db
      = Some (shared_ok, d') ∧ a_expires d' !! [x6b] = Some 8000 ∧
    fed 5000 (cmd_set, [String.list_byte_of_string "SET"; [x6b]; [x32]; w_keepttl]) = Ok cmds ∧
    replay w_other w_loading cmds w_db = Some d'' ∧ a_dict d'' = a_dict d' ∧ a_expires d'' !! [x6b] = None.
Proof.
  apply (keepttl_lost w_other w_cfg w_loading (String.list_byte_of_string "SET") cmd_set [x6b] [x32] w_keepttl 8000 5000 w_db);
    [exact any_env_wf|reflexivity|exact w_db_ok|reflexivity|reflexivity|by vm_compute|by vm_compute|by vm_compute].
Defined.

Lemma set_stops_server_witness :
  (∃ d', arun w_cfg (commands w_other w_cfg cmd_set [String.list_byte_of_string "SET"; [x6b]; [x32]; String.list_byte_of_string "EX";
       String.list_byte_of_string "px"; String.list_byte_of_string "EX"; String.list_byte_of_string "10"]) w_db = Some (shared_ok, d')) ∧
  fed 5000 (cmd_set, [String.list_byte_of_string "SET"; [x6b]; [x32]; String.list_byte_of_string "EX";
       String.list_byte_of_string "px"; String.list_byte_of_string "EX"; String.list_byte_of_string "10"]) = Abort "!(exarg && pxarg)".
Proof.
  apply (set_stops_server w_other w_cfg (String.list_byte_of_string "SET") cmd_set [x6b] [x32] (String.list_byte_of_string "EX")
    (String.list_byte_of_string "px") (String.list_byte_of_string "EX") (String.list_byte_of_string "10") 10 5000 w_db);
    [exact w_db_ok|reflexivity|reflexivity|by vm_compute|by vm_compute|by vm_compute|by vm_compute|by vm_compute].
Defined.
