(* ===== verification/Waiting.v ===== *)
(** * Who waits for what

    Counting lemmas for the waiting lists: [occ cid k] is how often client [cid]
    is on a list of [rockKeys], the number its [rockKeyNumber] has to agree with. *)

From S2P Require Import Prelude Util Robj Serdes RocksApi Keyspace KeyspaceInv Prog Cmds RockJob.
From stdpp Require Import list gmap.
#[local] Open Scope nat_scope.

Definition count (cid : nat) (l : list nat) : nat := length (filter (fun x => x = cid) l).
Definition occ_map (cid : nat) (m : gmap bytes (list nat)) : nat :=
  sum_list_with (fun kv : bytes * list nat => count cid kv.2) (map_to_list m).

Lemma count_app cid l1 l2 : count cid (l1 ++ l2) = count cid l1 + count cid l2.
Proof. unfold count. by rewrite filter_app, length_app. Qed.
Lemma count_cons cid x l : count cid (x :: l) = (if decide (x = cid) then 1 else 0) + count cid l.
Proof. unfold count. rewrite filter_cons. by case_decide. Qed.
Lemma count_zero cid l : count cid l = 0 ↔ cid ∉ l.
Proof.
  induction l as [|x l IH]; [set_solver|]. rewrite count_cons, not_elem_of_cons, <- IH.
  case_decide; naive_solver lia.
Qed.
Lemma count_filter_ne cid cid' l :
  count cid' (filter (fun x => x ≠ cid) l) = if decide (cid' = cid) then 0 else count cid' l.
Proof.
  induction l as [|x l IH]; [by case_decide|]. rewrite filter_cons.
  destruct (decide (x ≠ cid)) as [Hne|He]; rewrite ?count_cons, IH;
    repeat case_decide; subst; try done; try lia; naive_solver.
Qed.

Lemma sum_list_with_perm {A} (f : A → nat) l l' :
  l ≡ₚ l' → sum_list_with f l = sum_list_with f l'.
Proof. induction 1; simpl; lia. Qed.

Lemma occ_map_delete cid m key l :
  m !! key = Some l → occ_map cid m = count cid l + occ_map cid (delete key m).
Proof.
  intros Hm. unfold occ_map.
  by rewrite <- (sum_list_with_perm _ _ _ (map_to_list_delete m key l Hm)).
Qed.

Lemma occ_map_insert cid m key l :
  occ_map cid (<[key := l]> m) = count cid l + occ_map cid (delete key m).
Proof.
  rewrite (occ_map_delete cid _ key l) by apply lookup_insert_eq.
  by rewrite delete_insert_eq.
Qed.

Lemma occ_map_lookup cid m key l : m !! key = Some l → count cid l ≤ occ_map cid m.
Proof. intros H. rewrite (occ_map_delete cid m key l H). lia. Qed.

Lemma occ_map_add cid cid' key m :
  occ_map cid' (add_waiter cid key m) = occ_map cid' m + if decide (cid = cid') then 1 else 0.
Proof.
  unfold add_waiter. rewrite occ_map_insert, count_app, count_cons. change (count cid' []) with 0.
  destruct (m !! key) as [l|] eqn:Hm; simpl.
  - rewrite (occ_map_delete cid' m key l Hm). lia.
  - rewrite delete_id by done. change (count cid' []) with 0. lia.
Qed.

Lemma occ_map_release cid cid' m :
  occ_map cid' (filter (fun x => x ≠ cid) <$> m) = if decide (cid' = cid) then 0 else occ_map cid' m.
Proof.
  unfold occ_map. rewrite map_to_list_fmap. induction (map_to_list m) as [|[k l] L IH]; csimpl.
  - by case_decide.
  - rewrite count_filter_ne, IH. by case_decide.
Qed.

Lemma sum_list_with_alter {A} (g : A → nat) f i (l : list A) x :
  l !! i = Some x → sum_list_with g (alter f i l) + g x = sum_list_with g l + g (f x).
Proof.
  revert i. induction l as [|y l IH]; intros [|i] Hi; [done|done| |].
  - injection Hi as ->. csimpl. lia.
  - specialize (IH i Hi). change (alter f (S i) (y :: l)) with (y :: alter f i l). csimpl. lia.
Qed.

Section occ.
Context {R : RocksDB}.
Implicit Types (k : keyspace R) (key : bytes) (cid : nat).

Definition occ cid k : nat := sum_list_with (fun d => occ_map cid (rockKeys d)) (dbs k).

Lemma occ_upd cid i f k :
  i < length (dbs k) →
  occ cid (upd_db i f k) + occ_map cid (rockKeys (get_db k i)) =
  occ cid k + occ_map cid (rockKeys (f (get_db k i))).
Proof.
  intros Hi. destruct (lookup_lt_is_Some_2 _ _ Hi) as [d Hd].
  unfold get_db. rewrite Hd. simpl.
  exact (sum_list_with_alter (fun d => occ_map cid (rockKeys d)) f i (dbs k) d Hd).
Qed.

Lemma occ_get_db cid k : occ cid k = sum_list_with (fun i => occ_map cid (rockKeys (get_db k i))) (seq 0 (length (dbs k))).
Proof.
  unfold occ, get_db. generalize (dbs k). intros l.
  change (seq 0 (length l)) with (seq 0 (length l)).
  assert (∀ n, sum_list_with (fun d => occ_map cid (rockKeys d)) l =
    sum_list_with (fun i => occ_map cid (rockKeys (default empty_db (l !! (i - n))))) (seq n (length l))) as H.
  { induction l as [|d l IH]; intros n; simpl; [done|]. rewrite Nat.sub_diag. simpl. f_equal.
    rewrite (IH (S n)). clear IH. assert (∀ L, Forall (fun i => S n ≤ i) L →
      sum_list_with (fun i => occ_map cid (rockKeys (default empty_db (l !! (i - S n))))) L =
      sum_list_with (fun i => occ_map cid (rockKeys (default empty_db ((d :: l) !! (i - n))))) L) as Hx.
    { induction 1 as [|i L Hi HL IH]; simpl; [done|]. rewrite IH.
      replace (i - n) with (S (i - S n)) by lia. done. }
    apply Hx. apply Forall_seq. lia. }
  rewrite (H 0). clear H.
  induction (seq 0 (length l)) as [|i L IH]; simpl; [done|]. by rewrite Nat.sub_0_r, IH.
Qed.

Lemma occ_ext cid k k' :
  length (dbs k') = length (dbs k) → (∀ j, rockKeys (get_db k' j) = rockKeys (get_db k j)) →
  occ cid k' = occ cid k.
Proof.
  intros Hl Hr. rewrite !occ_get_db, Hl. induction (seq 0 _) as [|i L IH]; simpl; [done|].
  by rewrite Hr, IH.
Qed.

Lemma occ_lookup cid k i key l :
  rockKeys (get_db k i) !! key = Some l → count cid l ≤ occ cid k.
Proof.
  intros Hl. assert (i < length (dbs k)) as Hi.
  { destruct (decide (i < length (dbs k))); [done|]. rewrite get_db_empty in Hl by done. done. }
  pose proof (occ_upd cid i (set_rockKeys ∅) k Hi) as H. simpl in H.
  change (occ_map cid ∅) with 0 in H. pose proof (occ_map_lookup cid _ _ _ Hl). lia.
Qed.

Lemma occ_release cid cid' k :
  occ cid' (releaseRockKeyWhenFreeClient cid k) = if decide (cid' = cid) then 0 else occ cid' k.
Proof.
  unfold occ, releaseRockKeyWhenFreeClient. simpl. induction (dbs k) as [|d l IH]; csimpl.
  - by case_decide.
  - rewrite occ_map_release, IH. by case_decide.
Qed.

(** Nothing but the waiting lists differs. *)
Record store_eq k k' : Prop := {
  se_len : length (dbs k') = length (dbs k);
  se_init : alreadyInitHotKeys k' = alreadyInitHotKeys k;
  se_lru : rock_lru k' = rock_lru k;
  se_rocks : rocks k' = rocks k;
  se_dict i key : dict_at k' i key = dict_at k i key;
  se_expires i : expires (get_db k' i) = expires (get_db k i);
  se_hot i : hotKeys (get_db k' i) = hotKeys (get_db k i)
}.

Lemma store_eq_refl k : store_eq k k.
Proof. by split. Qed.
Lemma store_eq_trans k1 k2 k3 : store_eq k1 k2 → store_eq k2 k3 → store_eq k1 k3.
Proof. intros [] []. split; congruence. Qed.

Lemma store_eq_rockKeys i f k : store_eq k (upd_db i (fun d => set_rockKeys (f d) d) k).
Proof.
  split; try done.
  - apply length_upd.
  - intros. by apply dict_at_upd_other.
  - intros. by apply get_db_upd_field.
  - intros. by apply get_db_upd_field.
Qed.

Lemma store_eq_ks_ok k k' : store_eq k k' → ks_ok k → ks_ok k'.
Proof.
  intros H Hok. apply (ks_ok_frame k); try apply H; [done| |].
  - rewrite (se_lru _ _ H). apply Hok.
  - intros i key v. rewrite (se_dict _ _ H). by left.
Qed.
Lemma store_eq_hot_ok k k' : store_eq k k' → hot_ok k → hot_ok k'.
Proof.
  intros H Hok. split.
  - rewrite (se_init _ _ H). intros Hf i. rewrite (se_hot _ _ H). by apply Hok.
  - intros i key. rewrite (se_hot _ _ H), (se_dict _ _ H). apply Hok.
  - intros i key. rewrite (se_dict _ _ H), (se_init _ _ H). apply Hok.
Qed.
Lemma store_eq_logical k k' i key : store_eq k k' → logical k' i key = logical k i key.
Proof. intros H. unfold logical. by rewrite (se_dict _ _ H), (se_rocks _ _ H). Qed.

(** ** Adding waits *)

Lemma add_waits_store cid i keys k : store_eq k (add_waits cid i keys k).
Proof.
  unfold add_waits. revert k. induction keys as [|key keys IH]; intros k; simpl; [apply store_eq_refl|].
  eapply store_eq_trans; [|apply IH]. apply (store_eq_rockKeys i (fun d => add_waiter cid key (rockKeys d))).
Qed.

Lemma add_waits_occ cid cid' i keys k :
  i < length (dbs k) →
  occ cid' (add_waits cid i keys k) = occ cid' k + if decide (cid = cid') then length keys else 0.
Proof.
  unfold add_waits. revert k. induction keys as [|key keys IH]; intros k Hi; simpl.
  - case_decide; lia.
  - rewrite IH by (by rewrite length_upd).
    pose proof (occ_upd cid' i (fun d => set_rockKeys (add_waiter cid key (rockKeys d)) d) k Hi) as H.
    simpl in H. rewrite occ_map_add in H. case_decide; lia.
Qed.

Lemma add_waits_mono cid i keys k j key :
  is_Some (rockKeys (get_db k j) !! key) →
  is_Some (rockKeys (get_db (add_waits cid i keys k) j) !! key).
Proof.
  unfold add_waits. revert k. induction keys as [|key' keys IH]; intros k H; simpl; [done|].
  apply IH. rewrite get_db_upd. case_decide as Hj; [|done]. destruct Hj as [-> _]. simpl.
  unfold add_waiter. destruct (decide (key' = key)) as [->|].
  - by rewrite lookup_insert_eq.
  - by rewrite lookup_insert_ne.
Qed.

Lemma add_waits_inv cid i keys k j key :
  is_Some (rockKeys (get_db (add_waits cid i keys k) j) !! key) →
  is_Some (rockKeys (get_db k j) !! key) ∨ j = i ∧ key ∈ keys.
Proof.
  unfold add_waits. revert k. induction keys as [|key' keys IH]; intros k H; simpl in *; [by left|].
  apply IH in H as [H|[-> H]]; [|right; set_solver].
  rewrite get_db_upd in H. case_decide as Hj; [|by left]. destruct Hj as [-> _]. simpl in H.
  unfold add_waiter in H. destruct (decide (key' = key)) as [->|].
  - right. set_solver.
  - rewrite lookup_insert_ne in H by done. by left.
Qed.

Lemma add_waits_elem cid i keys k key :
  i < length (dbs k) → key ∈ keys → is_Some (rockKeys (get_db (add_waits cid i keys k) i) !! key).
Proof.
  revert k. induction keys as [|key' keys IH]; intros k Hi Hin; [set_solver|].
  apply elem_of_cons in Hin as [->|Hin].
  - apply (add_waits_mono cid i keys). rewrite get_db_upd, decide_True by done. simpl.
    unfold add_waiter. by rewrite lookup_insert_eq.
  - apply (IH (upd_db i _ k)); [by rewrite length_upd|done].
Qed.
End occ.
