(* ===== verification/MainThread.v ===== *)
(** * The main thread

    [core] is what the functions of rock.c keep true of the server: the waiting
    counters agree with the lists, the job slot is empty exactly when nobody
    waits, and the key being loaded has a list.  Each function is shown to run
    without a failed assertion as far as its callees do, and to run the commands
    of the clients the way the plain server of [Session] does.  How much there is left to do
    ([work]) does not grow: a request that is taken from the input makes room for at most 63 dumps. *)

From S2P Require Import Prelude Util Robj Serdes Pool RocksApi Keyspace KeyspaceInv HotKeys Prog Cmds Room.
From S2P Require Import RockJob HotFull Session Waiting.
From stdpp Require Import list gmap strings relations.
#[local] Open Scope Z_scope.

(** ** Requests the model covers *)

(** A request is understood when its check function can be used on it, and, in
    a transaction, when it does not change the database.  QUIT, which closes the
    connection, is left out. *)
Definition req_safe (m : bool) (argv : list bytes) : bool :=
  negb (strcaseeq (default [] (head argv)) "quit") &&
  match head argv ≫= lookupCommand with
  | None => true
  | Some cmd => covered (cmd, argv) && negb (m && is_cmd "select" (cmd, argv))
  end.
(** Whether the client is in a transaction after the request. *)
Definition next_multi (m : bool) (argv : list bytes) : bool :=
  match head argv ≫= lookupCommand with
  | None => m
  | Some cmd =>
      if negb (arity_ok cmd (Z.of_nat (length argv))) then m
      else if is_cmd "multi" (cmd, argv) then true
      else if is_cmd "discard" (cmd, argv) || is_cmd "exec" (cmd, argv) then false
      else m
  end.
Fixpoint all_safe (m : bool) (l : list (list bytes)) : bool :=
  match l with
  | [] => true
  | argv :: l' => req_safe m argv && all_safe (next_multi m argv) l'
  end.

(** The requests of a client that have no reply yet. *)
Definition pend (c : client) : list (list bytes) :=
  match c_cmd c with Some r => r.2 :: c_input c | None => c_input c end.

(** ** Invariant *)

(** The job slot: empty, to be read, read, or being finished by the handler. *)
Inductive phase :=
| PZero
| PWork (i : nat) (key : bytes)
| PRet (i : nat) (key : bytes) (v : robj)
| PFin (i : nat) (key : bytes) (v : robj).

(** The key that some client waited for when the job was made. *)
Definition phase_key (ph : phase) : option (nat * bytes) :=
  match ph with PWork i key | PRet i key _ => Some (i, key) | PZero | PFin _ _ _ => None end.

Definition job_is (ph : phase) (j : RockJob) : Prop :=
  alreadyFinishedByScript j = false ∧
  match ph with
  | PZero => job_dbid j = -1 ∧ workKey j = None ∧ returnKey j = None
  | PWork i key => job_dbid j = Z.of_nat i ∧ workKey j = Some key ∧ returnKey j = None
  | PRet i key v | PFin i key v =>
      job_dbid j = Z.of_nat i ∧ workKey j = None ∧ returnKey j = Some key ∧ valInRock j = Some v
  end.

(** A job is only ever started on an empty slot. *)
Definition phase_le (ph ph' : phase) : Prop :=
  ph' = ph ∨ ph = PZero ∧ ∃ i key, ph' = PWork i key.

(** The plain server: databases, and for every client its session and the
    requests it has not answered.  It takes the next request of some client
    and answers it at once; while memory is tight it may refuse a request that needs memory. *)
Abbreviation astate := ((nat → adb) * gmap nat (session * list (list bytes)))%type.

(** The label is the client and the request that is taken. *)
Inductive astep (cmd_prog : server_cfg → redisCommand → list bytes → prog reply) (dbnum : nat) (g : server_cfg) (w : world)
  : nat * list bytes → astate → astate → Prop :=
| astep_exec a m cid x argv rest x' a' :
    m !! cid = Some (x, argv :: rest) →
    aprocess cmd_prog dbnum g argv x a = Some (x', a') →
    astep cmd_prog dbnum g w (cid, argv) (a, m) (a', <[cid := (x', rest)]> m)
| astep_oom a m cid x argv rest :
    m !! cid = Some (x, argv :: rest) → oom_denied x argv = true → tight (w_room w cid (length rest)) = true →
    astep cmd_prog dbnum g w (cid, argv) (a, m) (a, <[cid := (oom_reply x, rest)]> m).

Inductive executes (cmd_prog : server_cfg → redisCommand → list bytes → prog reply) (dbnum : nat) (g : server_cfg) (w : world)
  : list (nat * list bytes) → astate → astate → Prop :=
| executes_nil st : executes cmd_prog dbnum g w [] st st
| executes_cons t l st st1 st2 :
    astep cmd_prog dbnum g w t st st1 → executes cmd_prog dbnum g w l st1 st2 → executes cmd_prog dbnum g w (t :: l) st st2.
Definition runs cmd_prog dbnum g w (st st' : astate) : Prop := ∃ l, executes cmd_prog dbnum g w l st st'.

Lemma runs_refl cmd_prog dbnum g w st : runs cmd_prog dbnum g w st st.
Proof. exists []. constructor. Qed.
Lemma runs_once cmd_prog dbnum g w t st st' : astep cmd_prog dbnum g w t st st' → runs cmd_prog dbnum g w st st'.
Proof. exists [t]. by repeat econstructor. Qed.
Lemma runs_trans cmd_prog dbnum g w st1 st2 st3 : runs cmd_prog dbnum g w st1 st2 → runs cmd_prog dbnum g w st2 st3 → runs cmd_prog dbnum g w st1 st3.
Proof.
  intros [l1 H1] [l2 H2]. exists (l1 ++ l2). induction H1 as [|t l st st1 st2 Hs _ IH]; [done|]. simpl. econstructor; [done|]. by apply IH.
Qed.

(** Configurations for which the hot keys are maintained. *)
Definition cfg_ok (g : server_cfg) : Prop :=
  wf_env (cfg_env g) ∧ lazyfree_lazy_expire g = false.

Section main.
Context {R : RocksDB} {DO : DictOrder}.
Variable cmd_prog : server_cfg → redisCommand → list bytes → prog reply.
Context {CS : CommandSpec cmd_prog} {CY : CommandSync cmd_prog} {L : RocksDBLaws R}.
Implicit Types (s : server R) (k : keyspace R) (a : nat → adb) (key : bytes) (cid : nat).

Definition sess_ok k (x : session) : Prop :=
  (c_db x < length (dbs k))%nat ∧ Forall request_ok (c_queue x) ∧
  Forall (fun r => is_cmd "select" r = false) (c_queue x).

(** RocksDB holds a value for the key, current or not. *)
Definition stored_dump k (i : nat) key : Prop :=
  key ≠ [] ∧ ∃ o b, stored_val (rocks k) i key = Some b ∧ dump_of o b.

(** [Z]: the clients that wait for nothing and have a command to run, because
    the main thread is working on them. *)
Record client_ok (Z : gset nat) k cid (c : client) : Prop := {
  cl_num : rockKeyNumber c = occ cid k;
  cl_sess : sess_ok k (sess c);
  cl_safe : all_safe (c_multi (sess c)) (pend c) = true;
  cl_cmd r : c_cmd c = Some r → dispatch_request (sess c) r.2 = DRun r;
  cl_run : cid ∈ Z → rockKeyNumber c = 0%nat ∧ c_cmd c ≠ None;
  cl_wait : cid ∉ Z → rockKeyNumber c = 0%nat ↔ c_cmd c = None
}.

Record core (ph : phase) (Z : gset nat) s : Prop := {
  co_ks : ks_ok (ks s);
  co_hot : hot_ok (ks s);
  co_job : job_is ph (rockJob s);
  co_zero : ph = PZero → ∀ j, rockKeys (get_db (ks s) j) = ∅;
  co_work i key : phase_key ph = Some (i, key) → is_Some (rockKeys (get_db (ks s) i) !! key);
  co_cl cid c : clients s !! cid = Some c → client_ok Z (ks s) cid c;
  co_gone cid : clients s !! cid = None → occ cid (ks s) = 0%nat;
  co_run cid : cid ∈ Z → is_Some (clients s !! cid);
  co_stored i key : is_Some (rockKeys (get_db (ks s) i) !! key) → stored_dump (ks s) i key;
  co_full : hot_full (ks s);
  co_pool : pool_ok (rockPool s)
}.

(** ** Small facts *)

Lemma lookupCommand_table name cmd : lookupCommand name = Some cmd → cmd ∈ redisCommandTable.
Proof. intros [H _]%find_some. by apply list_elem_of_In. Qed.

Lemma dispatch_run x argv r :
  dispatch_request x argv = DRun r →
  head argv ≫= lookupCommand = Some r.1 ∧ r.2 = argv ∧
  arity_ok r.1 (Z.of_nat (length argv)) = true ∧ (c_multi x = true → in_multi_proc r = true).
Proof.
  unfold dispatch_request. destruct (head argv ≫= lookupCommand) as [cmd|]; [|done].
  destruct (arity_ok cmd (Z.of_nat (length argv))) eqn:Ha; simpl; [|done].
  destruct (c_multi x && _) eqn:Hm; [done|]. intros [= <-]. simpl. split_and!; try done.
  intros Hx. rewrite Hx in Hm. simpl in Hm. by apply negb_false_iff in Hm.
Qed.

Lemma dispatch_request_ok x argv r m :
  dispatch_request x argv = DRun r → req_safe m argv = true → request_ok r.
Proof.
  intros (Hl & He & Ha & _)%dispatch_run Hs. unfold req_safe in Hs.
  apply andb_true_iff in Hs as [_ Hs]. rewrite Hl in Hs.
  apply andb_true_iff in Hs as [Hs _]. split; [|split].
  - destruct (head argv); [|done]. by eapply lookupCommand_table.
  - destruct r as [cmd ?]. simpl in *. by subst.
  - by rewrite He.
Qed.

Lemma hasMore_from_Some n l i key :
  hasMore_from n l = Some (i, key) →
  ∃ j d, i = (n + j)%nat ∧ l !! j = Some d ∧ is_Some (rockKeys d !! key).
Proof.
  revert n. induction l as [|d l IH]; intros n; simpl; [done|].
  destruct (dict_first (rockKeys d)) as [key'|] eqn:Hf.
  - intros [= <- <-]. exists 0%nat, d. split_and!; [lia|done|by apply dict_first_elem].
  - intros (j & d' & -> & Hd & Hk)%IH. exists (S j), d'. split_and!; [lia|done|done].
Qed.

Lemma hasMore_Some s i key :
  _hasMoreRockJob s = Some (i, key) →
  (i < length (dbs (ks s)))%nat ∧ is_Some (rockKeys (get_db (ks s) i) !! key).
Proof.
  intros (j & d & -> & Hd & Hk)%hasMore_from_Some. simpl in *.
  split; [by apply lookup_lt_Some in Hd|]. unfold get_db. by rewrite Hd.
Qed.

Lemma hasMore_from_None n l : hasMore_from n l = None → ∀ j d, l !! j = Some d → rockKeys d = ∅.
Proof.
  revert n. induction l as [|d l IH]; intros n H [|j] d' Hd; simplify_eq/=.
  - destruct (dict_first (rockKeys d')) eqn:Hf; [done|]. by apply dict_first_empty.
  - destruct (dict_first (rockKeys d)) eqn:Hf; [done|]. by eapply IH.
Qed.

Lemma hasMore_None s : _hasMoreRockJob s = None → ∀ j, rockKeys (get_db (ks s) j) = ∅.
Proof.
  intros H j. unfold get_db. destruct (dbs (ks s) !! j) as [d|] eqn:Hd; simpl; [|done].
  by eapply hasMore_from_None.
Qed.

Lemma alter_id_client cid f s c :
  clients s !! cid = Some c → f c = c → upd_client cid f s = s.
Proof.
  intros Hc Hf. destruct s as [k j m]. unfold upd_client, set_clients. simpl in *. f_equal.
  apply map_eq. intros i. destruct (decide (i = cid)) as [->|].
  - rewrite lookup_alter_eq, Hc. simpl. by rewrite Hf.
  - by rewrite lookup_alter_ne.
Qed.

Lemma alter_client cid f s c :
  clients s !! cid = Some c → upd_client cid f s = set_clients (<[cid := f c]> (clients s)) s.
Proof.
  intros Hc. unfold upd_client. f_equal. apply map_eq. intros i. destruct (decide (i = cid)) as [->|].
  - by rewrite lookup_alter_eq, Hc, lookup_insert_eq.
  - by rewrite lookup_alter_ne, lookup_insert_ne.
Qed.

(** ** Checking a command *)

(** Values only leave RocksDB, what is left there stays as it is, and only what
    is there is waited for. *)
Record shrinks k k' : Prop := {
  sh_len : length (dbs k') = length (dbs k);
  sh_rocks : rocks k' = rocks k;
  sh_rock i key : dict_at k' i key = Some InRock → dict_at k i key = Some InRock;
  sh_wait i key : is_Some (rockKeys (get_db k' i) !! key) →
    is_Some (rockKeys (get_db k i) !! key) ∨ dict_at k i key = Some InRock
}.
Lemma shrinks_refl k : shrinks k k.
Proof. split; auto. Qed.
Lemma shrinks_trans k1 k2 k3 : shrinks k1 k2 → shrinks k2 k3 → shrinks k1 k3.
Proof. intros [?? H1 H2] [?? H3 H4]. split; [congruence..|eauto|]. intros i key [?|?]%H4; auto. Qed.
Lemma shrinks_moves k k' : moves k k' → shrinks k k'.
Proof. intros [????]. split; try done. intros i key. rewrite mv_rockKeys. auto. Qed.
Lemma shrinks_store k k' :
  store_eq k k' →
  (∀ i key, is_Some (rockKeys (get_db k' i) !! key) →
     is_Some (rockKeys (get_db k i) !! key) ∨ dict_at k i key = Some InRock) →
  shrinks k k'.
Proof. intros H Hw. split; try apply H; [|done]. intros i key. by rewrite (se_dict _ _ H). Qed.

Lemma store_eq_hot_full k k' : store_eq k k' → hot_full k → hot_full k'.
Proof. intros H. apply hot_full_same; [apply H|intros; apply H|intros; apply H]. Qed.

(** The value [v] read for [key] is the one the key has, if it still is in
    RocksDB. *)
Definition val_current k (i : nat) key (v : robj) : Prop :=
  dict_at k i key = Some InRock →
  logical k i key = Some (content_of v) ∧ val_ok v ∧ o_type v ≠ OBJ_STREAM.

Lemma val_current_shrinks k k' i key v : shrinks k k' → val_current k i key v → val_current k' i key v.
Proof.
  intros Hsh H Hd. pose proof (sh_rock _ _ Hsh _ _ Hd) as Hd0. destruct (H Hd0) as (Hl & ? & ?).
  split_and!; try done. unfold logical in *. rewrite Hd. rewrite Hd0 in Hl. by rewrite (sh_rocks _ _ Hsh).
Qed.

(** What the main thread keeps of the keys that are waited for. *)
Definition waited k (i : nat) key : Prop := is_Some (rockKeys (get_db k i) !! key).
Record calm k k' : Prop := {
  cm_len : length (dbs k') = length (dbs k);
  cm_keep i key : waited k i key → waited k' i key;
  cm_val i key v : waited k i key → val_current k i key v → val_current k' i key v
}.
Lemma calm_refl k : calm k k.
Proof. by split. Qed.
Lemma calm_trans k1 k2 k3 : calm k1 k2 → calm k2 k3 → calm k1 k3.
Proof. intros [H1 H2 H3] [H4 H5 H6]. split; [congruence|auto|auto]. Qed.
Lemma calm_shrinks k k' : shrinks k k' → (∀ i key, waited k i key → waited k' i key) → calm k k'.
Proof. intros Hsh Hw. split; [apply Hsh|done|]. intros i key v _. by apply val_current_shrinks. Qed.
Lemma calm_moves k k' : moves k k' → calm k k'.
Proof. intros Hm. apply calm_shrinks; [by apply shrinks_moves|]. intros i key. unfold waited. by rewrite (mv_rockKeys _ _ Hm). Qed.
Lemma calm_roomed n k k' : roomed n k k' → calm k k'.
Proof.
  intros Hr. split; [apply Hr|intros i key; unfold waited; by rewrite (rm_rockKeys _ _ _ Hr)|].
  intros i key v Hw Hv Hd. rewrite (rm_logical _ _ _ Hr). apply Hv. by destruct (rm_waited _ _ _ Hr i key Hw) as [<- _].
Qed.

(** ** What is left to do *)

(** Nobody waits for the key and it is not in RocksDB. *)
Definition finished (i : nat) key k : Prop :=
  dict_at k i key ≠ Some InRock ∧ rockKeys (get_db k i) !! key = None.

(** The keys in RocksDB and the keys that are waited for. *)
Definition unfinished k : gset (nat * bytes) :=
  ⋃ ((fun i => set_map (pair i) (dom (filter (fun p : bytes * dval => is_in_rock (Some p.2) = true) (dict (get_db k i))) ∪
                                 dom (rockKeys (get_db k i))) : gset (nat * bytes)) <$> seq 0 (length (dbs k))).

Lemma elem_of_unfinished k i key :
  (i, key) ∈ unfinished k ↔ dict_at k i key = Some InRock ∨ is_Some (rockKeys (get_db k i) !! key).
Proof.
  unfold unfinished. rewrite elem_of_union_list. split.
  - intros (X & HX & Hin). apply list_elem_of_fmap in HX as (j & -> & _).
    apply elem_of_map in Hin as (key' & [= <- <-] & Hin). apply elem_of_union in Hin as [Hin|Hin].
    + left. apply elem_of_dom in Hin as [v [Hv Hr]%map_lookup_filter_Some]. unfold dict_at. rewrite Hv.
      by destruct v.
    + right. by apply elem_of_dom.
  - intros H. assert (i < length (dbs k))%nat as Hi.
    { destruct H as [H|H]; [by eapply dict_at_valid|].
      destruct (decide (i < length (dbs k))%nat); [done|]. rewrite get_db_empty in H by done. by destruct H. }
    eexists. split; [apply list_elem_of_fmap; exists i; split; [done|]; apply elem_of_seq; lia|].
    apply elem_of_map. exists key. split; [done|]. apply elem_of_union. destruct H as [H|H].
    + left. apply elem_of_dom. exists InRock. by apply map_lookup_filter_Some.
    + right. by apply elem_of_dom.
Qed.

Lemma unfinished_shrinks k k' : shrinks k k' → unfinished k' ⊆ unfinished k.
Proof.
  intros Hsh [i key]. rewrite !elem_of_unfinished.
  intros [H%(sh_rock _ _ Hsh)|[H|H]%(sh_wait _ _ Hsh)]; auto.
Qed.

Lemma unfinished_finish k k' i key :
  shrinks k k' → finished i key k' → (i, key) ∈ unfinished k →
  (size (unfinished k') < size (unfinished k))%nat.
Proof.
  intros Hsh [Hd Hr] Hin. apply subset_size. split; [by apply unfinished_shrinks|].
  intros H. apply H in Hin. apply elem_of_unfinished in Hin as [?|[? ?]]; congruence.
Qed.

Lemma unfinished_ext k k' :
  (∀ i key, dict_at k' i key = dict_at k i key) →
  (∀ i, rockKeys (get_db k' i) = rockKeys (get_db k i)) → unfinished k' = unfinished k.
Proof.
  intros Hd Hr. apply set_eq. intros [i key]. rewrite !elem_of_unfinished, Hd, Hr. done.
Qed.

Lemma unfinished_roomed n k k' : roomed n k k' → (size (unfinished k') ≤ size (unfinished k) + n)%nat.
Proof.
  intros Hr. destruct (rm_count _ _ _ Hr) as (X & HX & Hin). transitivity (size (unfinished k ∪ X)).
  - apply subseteq_size. intros [i key]. rewrite elem_of_union, !elem_of_unfinished, (rm_rockKeys _ _ _ Hr). intros [[?|?]%Hin|?]; auto.
  - pose proof (size_union_alt (unfinished k) X). assert (size (X ∖ unfinished k) ≤ size X)%nat by (apply subseteq_size; set_solver). lia.
Qed.

(** The requests in the query buffers. *)
Definition inputs (m : gmap nat client) : nat := sum_list ((fun p => length (c_input p.2)) <$> map_to_list m).
Lemma inputs_insert m cid c c' : m !! cid = Some c →
  (inputs (<[cid := c']> m) + length (c_input c) = inputs m + length (c_input c'))%nat.
Proof.
  intros Hc. rewrite <- (insert_delete_eq m cid c'). unfold inputs.
  assert (map_to_list m ≡ₚ (cid, c) :: map_to_list (delete cid m)) as -> by (symmetry; by apply map_to_list_delete).
  rewrite (map_to_list_insert (delete cid m) cid c') by apply lookup_delete_eq. simpl. lia.
Qed.
Lemma inputs_ext (m m' : gmap nat client) : (∀ cid, c_input <$> m' !! cid = c_input <$> m !! cid) → inputs m' = inputs m.
Proof.
  intros H. assert ((c_input <$> m') = (c_input <$> m)) as E by (apply map_eq; intros cid; rewrite !lookup_fmap; apply H).
  assert (∀ m, inputs m = sum_list ((fun p => length p.2) <$> map_to_list (c_input <$> m))) as Hi; [|by rewrite !Hi, E].
  intros m0. unfold inputs. rewrite map_to_list_fmap, <- list_fmap_compose. done.
Qed.

Definition work s : nat := size (unfinished (ks s)) + 63 * inputs (clients s).

Lemma core_request ph Z s cid c r :
  core ph Z s → clients s !! cid = Some c → c_cmd c = Some r →
  request_ok r ∧ dispatch_request (sess c) r.2 = DRun r ∧ req_safe (c_multi (sess c)) r.2 = true ∧
  all_safe (next_multi (c_multi (sess c)) r.2) (c_input c) = true.
Proof.
  intros Hco Hc Hr. destruct (co_cl _ _ _ Hco cid c Hc) as [_ _ Hsafe Hcmd _ _].
  unfold pend in Hsafe. rewrite Hr in Hsafe. simpl in Hsafe. apply andb_true_iff in Hsafe as [H1 H2].
  split_and!; eauto using dispatch_request_ok.
Qed.

Lemma rock_keys_nil in_rock l : rock_keys in_rock l = [] → ∀ key, key ∈ l → in_rock key = false.
Proof.
  intros Hn key Hk. destruct (in_rock key) eqn:E; [|done].
  pose proof (elem_of_rock_keys in_rock l key Hk E) as H. rewrite Hn in H. set_solver.
Qed.

(** The client [cid] starts to wait for [keys]. *)
Definition start_waiting cid (i : nat) (keys : list bytes) (c : client) s : server R :=
  set_ks (add_waits cid i keys (ks s))
    (set_clients (<[cid := set_number (length keys) c]> (clients s)) s).

Lemma start_waiting_core ph Z s cid c keys :
  core ph Z s → cid ∈ Z → clients s !! cid = Some c → keys ≠ [] →
  (∀ key, key ∈ keys → dict_at (ks s) (c_db (sess c)) key = Some InRock) →
  let s' := start_waiting cid (c_db (sess c)) keys c s in
  (∀ cid' c', clients s' !! cid' = Some c' → client_ok (Z ∖ {[cid]}) (ks s') cid' c') ∧
  (∀ cid', clients s' !! cid' = None → occ cid' (ks s') = 0%nat) ∧
  (∀ cid', cid' ∈ Z ∖ {[cid]} → is_Some (clients s' !! cid')) ∧
  ks_ok (ks s') ∧ hot_ok (ks s') ∧ hot_full (ks s') ∧
  (∀ i key, is_Some (rockKeys (get_db (ks s') i) !! key) → stored_dump (ks s') i key).
Proof.
  intros Hco Hz Hc Hk Hin_rock s'. pose proof (co_cl _ _ _ Hco cid c Hc) as Hcl.
  destruct (cl_run _ _ _ _ Hcl Hz) as [Hn0 Hcmd]. destruct (cl_sess _ _ _ _ Hcl) as [Hi _].
  pose proof (add_waits_store cid (c_db (sess c)) keys (ks s)) as Hse.
  assert (∀ cid', occ cid' (ks s') = (occ cid' (ks s) + if decide (cid = cid') then length keys else 0)%nat)
    as Hocc by (intros cid'; by apply add_waits_occ).
  assert (length keys ≠ 0%nat) as Hlen by (by destruct keys).
  split_and!.
  - intros cid' c' Hc'. simpl in Hc'. destruct (decide (cid' = cid)) as [->|Hne].
    + rewrite lookup_insert_eq in Hc'. injection Hc' as <-. destruct Hcl as [H1 H2 H3 H4 H5 H6].
      split; simpl; try done.
      * rewrite Hocc, decide_True by done. lia.
      * unfold sess_ok in *. simpl. by rewrite (se_len _ _ Hse).
      * set_solver.
    + rewrite lookup_insert_ne in Hc' by done. destruct (co_cl _ _ _ Hco cid' c' Hc') as [H1 H2 H3 H4 H5 H6].
      split; try done.
      * rewrite Hocc, decide_False by done. lia.
      * unfold sess_ok in *. simpl. by rewrite (se_len _ _ Hse).
      * set_solver.
      * set_solver.
  - intros cid' Hc'. simpl in Hc'. destruct (decide (cid' = cid)) as [->|Hne].
    + by rewrite lookup_insert_eq in Hc'.
    + rewrite lookup_insert_ne in Hc' by done. rewrite Hocc, decide_False by done.
      rewrite (co_gone _ _ _ Hco) by done. lia.
  - intros cid' Hin. simpl. rewrite lookup_insert_ne by set_solver. apply (co_run _ _ _ Hco). set_solver.
  - simpl. eapply store_eq_ks_ok; [done|apply Hco].
  - simpl. eapply store_eq_hot_ok; [done|apply Hco].
  - simpl. eapply store_eq_hot_full; [done|apply Hco].
  - intros i key H. unfold stored_dump. simpl. rewrite (se_rocks _ _ Hse).
    apply add_waits_inv in H as [H|[-> H]]; [by apply (co_stored _ _ _ Hco)|].
    apply (ks_rock _ (co_ks _ _ _ Hco)). by apply Hin_rock.
Qed.

(** Clients have started to wait: a job is created if there is none. *)
Lemma start_waiting_job ph Z s cid c keys :
  core ph Z s → cid ∈ Z → clients s !! cid = Some c → keys ≠ [] →
  (∀ key, key ∈ keys → dict_at (ks s) (c_db (sess c)) key = Some InRock) →
  let s1 := start_waiting cid (c_db (sess c)) keys c s in
  ∃ s' ph', (zero ← _isZeroRockJobState s1;
     if zero : bool then '(i, key) ← res_of_option (_hasMoreRockJob s1) "_hasMoreRockJob"; _createNewJob i key s1 else Ok s1) = Ok s' ∧
    clients s' = clients s1 ∧ ks s' = ks s1 ∧ phase_le ph ph' ∧ core ph' (Z ∖ {[cid]}) s'.
Proof.
  intros Hco Hz Hc Hk Hrock. destruct (start_waiting_core ph Z s cid c keys Hco Hz Hc Hk Hrock) as (H1 & H2 & H3 & H4 & H5 & H6 & H7). pose proof (co_pool _ _ _ Hco) as H8.
  destruct (cl_sess _ _ _ _ (co_cl _ _ _ Hco cid c Hc)) as (Hi & _).
  set (i := c_db (sess c)) in *. set (s1 := start_waiting cid i keys c s) in *. cbn zeta.
  destruct (co_job _ _ _ Hco) as [Hfl Hj]. unfold _isZeroRockJobState. change (rockJob s1) with (rockJob s).
  destruct ph as [|wi wk|ri rk rv|ri rk rv].
  - destruct Hj as (Hj1 & Hj2 & Hj3). rewrite Hj1, Hj2, Hj3. simpl.
    destruct (_hasMoreRockJob s1) as [[ji jk]|] eqn:Hmore.
    + apply hasMore_Some in Hmore as [Hji Hjk]. simpl. unfold _createNewJob.
      change (rockJob s1) with (rockJob s).
      rewrite (proj2 (Nat.ltb_lt _ _) Hji), Hj2, bool_decide_eq_true_2, Hfl by done. simpl.
      eexists _, (PWork ji jk). split; [done|]. split_and!; try done; [right; by eauto|].
      split; try done. by intros i' k' [= <- <-].
    + exfalso. pose proof (hasMore_None s1 Hmore i) as He.
      assert (∃ key0, key0 ∈ keys) as [key0 Hin].
      { destruct keys as [|key0 keys']; [done|]. exists key0. apply list_elem_of_here. }
      pose proof (add_waits_elem cid i keys (ks s) key0 Hi Hin) as [l Hl].
      change (add_waits cid i keys (ks s)) with (ks s1) in Hl. rewrite He in Hl. done.
  - destruct Hj as (Hj1 & Hj2 & Hj3). rewrite Hj1, Hj2, Hj3, (proj2 (Z.eqb_neq _ _)) by lia.
    exists s1, (PWork wi wk). split_and!; try done; [by left|].
    split; try done. intros i' k' [= <- <-]. apply add_waits_mono. by apply Hco.
  - destruct Hj as (Hj1 & Hj2 & Hj3 & Hj4). rewrite Hj1, Hj2, Hj3, (proj2 (Z.eqb_neq _ _)) by lia.
    exists s1, (PRet ri rk rv). do 3 (split; [done|]). split; [by left|]. split; try done.
    intros i' k' [= <- <-]. apply add_waits_mono. by apply Hco.
  - destruct Hj as (Hj1 & Hj2 & Hj3 & Hj4). rewrite Hj1, Hj2, Hj3, (proj2 (Z.eqb_neq _ _)) by lia.
    exists s1, (PFin ri rk rv). do 3 (split; [done|]). split; [by left|]. by split.
Qed.

Lemma check_spec ph Z s cid c r :
  core ph Z s → cid ∈ Z → clients s !! cid = Some c → c_cmd c = Some r →
  (checkCallValueInRock cid s = Ok s ∧
   Forall (keys_in_memory (ks s) (c_db (sess c))) (waits_for (sess c) r)) ∨
  (∃ s' ph' n, checkCallValueInRock cid s = Ok s' ∧ (0 < n)%nat ∧
     clients s' = <[cid := set_number n c]> (clients s) ∧ store_eq (ks s) (ks s') ∧ shrinks (ks s) (ks s') ∧ calm (ks s) (ks s') ∧
     phase_le ph ph' ∧ core ph' (Z ∖ {[cid]}) s').
Proof.
  intros Hco Hz Hc Hr. pose proof (co_cl _ _ _ Hco cid c Hc) as Hcl.
  destruct (cl_run _ _ _ _ Hcl Hz) as [Hn0 _].
  destruct (cl_sess _ _ _ _ Hcl) as (Hi & Hq & _).
  destruct (core_request _ _ _ _ _ _ Hco Hc Hr) as (Hrok & _ & _ & _).
  set (i := c_db (sess c)) in *. set (keys := rock_keys (in_rock_at s i) (waits_for (sess c) r ≫= checked_keys)).
  assert ((if c_multi (sess c) then checkRockForMultiCmd (in_rock_at s i) r.2 (c_queue (sess c))
           else checkRockForSingleCmd (in_rock_at s i) r.1 r.2) = Ok (keys, 0%nat)) as Hchk.
  { unfold keys, waits_for. destruct (c_multi (sess c)); [by apply check_multi|].
    simpl. rewrite app_nil_r. by apply check_single. }
  unfold checkCallValueInRock, get_client. rewrite Hc. simpl. rewrite Hn0. simpl. rewrite Hr. simpl.
  fold i. rewrite Hchk. simpl.
  rewrite (alter_id_client cid (upd_sess (fun x => x)) s c Hc) by (by destruct c).
  destruct (decide (keys = [])) as [Hk|Hk].
  { left. rewrite Hk. simpl. rewrite (alter_id_client cid (set_number 0) s c Hc) by (destruct c; simpl in *; by subst).
    split; [by destruct s|]. apply Forall_forall. intros r' Hr' key Hkey Hd.
    assert (in_rock_at s i key = false) as Hf.
    { apply (rock_keys_nil _ _ Hk). apply list_elem_of_bind. eauto. }
    unfold in_rock_at in Hf. by rewrite Hd in Hf. }
  right. rewrite (alter_client cid (set_number (length keys)) s c Hc). simpl.
  replace (length keys =? 0)%nat with false by (by destruct keys).
  change (set_ks (add_waits cid i keys (ks s)) (set_clients (<[cid:=set_number (length keys) c]> (clients s)) s))
    with (start_waiting cid i keys c s).
  assert (∀ key, key ∈ keys → dict_at (ks s) i key = Some InRock) as Hrock.
  { intros key [Hf _]%list_elem_of_filter. unfold in_rock_at, is_in_rock in Hf.
    by destruct (dict_at (ks s) i key) as [[|]|]. }
  destruct (start_waiting_job ph Z s cid c keys Hco Hz Hc Hk Hrock) as (s' & ph' & Hrun & Hcl' & Hks' & Hph & Hco').
  exists s', ph', (length keys). split; [exact Hrun|]. split; [destruct keys; simpl; [done|lia]|]. rewrite Hcl', Hks'.
  split; [done|]. split; [apply add_waits_store|].
  assert (shrinks (ks s) (ks (start_waiting cid i keys c s))) as Hsh.
  { apply shrinks_store; [apply add_waits_store|]. intros j key [H|[-> H]]%add_waits_inv; auto. }
  split; [done|]. split; [|done]. apply calm_shrinks; [done|]. intros j key. apply add_waits_mono.
Qed.

(** ** Running a command *)

Definition abs_clients s : gmap nat (session * list (list bytes)) :=
  (fun c => (sess c, pend c)) <$> clients s.

Lemma simall_store k k' a : store_eq k k' → simall k a → simall k' a.
Proof.
  intros H Hs j. destruct (Hs j) as [Hd He]. split.
  - intros key. by rewrite (store_eq_logical _ _ _ _ H).
  - by rewrite (se_expires _ _ H).
Qed.

Lemma call_plain_multi g draws r x k x' k' :
  call_plain cmd_prog g draws r x k = Ok (x', k') →
  c_multi x' = c_multi x ∧ c_dirty_exec x' = c_dirty_exec x ∧ c_queue x' = c_queue x.
Proof.
  unfold call_plain. destruct (is_cmd "select" r).
  - repeat case_match; intros [= <- <-]; done.
  - intros H. apply bind_Ok in H as ([y k1] & _ & H). by injection H as <- <-.
Qed.

Lemma call_session_multi g draws r x k x' k' :
  dispatch_request x r.2 = DRun r → call_session cmd_prog g draws r x k = Ok (x', k') →
  c_multi x' = next_multi (c_multi x) r.2 ∧ (c_queue x' = c_queue x ∨ c_queue x' = []).
Proof.
  intros (Hl & _ & Ha & _)%dispatch_run Hc. unfold next_multi. rewrite Hl, Ha. simpl.
  assert (∀ n, is_cmd n (r.1, r.2) = is_cmd n r) as He by (by intros n; destruct r).
  rewrite !He. unfold call_session in Hc. destruct (is_cmd "multi" r); [|].
  { destruct (c_multi x) eqn:Hm; injection Hc as <- <-; simpl; auto. }
  destruct (is_cmd "discard" r).
  { destruct (c_multi x) eqn:Hm; simpl in Hc; injection Hc as <- <-; simpl; auto. }
  destruct (is_cmd "exec" r).
  { unfold execCommand in Hc. destruct (c_multi x) eqn:Hm; simpl in Hc; [|injection Hc as <- <-; auto].
    destruct (c_dirty_exec x); [injection Hc as <- <-; auto|].
    apply bind_Ok in Hc as ([y k1] & _ & Hc). injection Hc as <- <-. auto. }
  apply call_plain_multi in Hc as (-> & _ & ->). auto.
Qed.

(** The new state of the client whose command has run. *)
Definition done_client (x : session) (c : client) : client := set_cmd None (set_sess x c).

Lemma call_spec ph Z s a g w draws cid c r :
  core ph Z s → cfg_ok g → simall (ks s) a → cid ∈ Z → clients s !! cid = Some c → c_cmd c = Some r →
  Forall (keys_in_memory (ks s) (c_db (sess c))) (waits_for (sess c) r) →
  match call cmd_prog g draws cid s with
  | Ok s1 =>
      let s2 := upd_client cid (set_cmd None) s1 in
      ∃ x' a', clients s2 = <[cid := done_client x' c]> (clients s) ∧
        astep cmd_prog (length (dbs (ks s))) g w (cid, r.2) (a, abs_clients s) (a', abs_clients s2) ∧
        simall (ks s2) a' ∧ core ph (Z ∖ {[cid]}) s2 ∧ shrinks (ks s) (ks s2) ∧ calm (ks s) (ks s2) ∧
        (∃ c1, clients s1 !! cid = Some c1 ∧ rockKeyNumber c1 = 0%nat)
  | Abort _ => aprocess cmd_prog (length (dbs (ks s))) g r.2 (sess c) a = None
  end.
Proof.
  intros Hco [Hg Hlz] Hs Hz Hc Hr Hm. pose proof (co_cl _ _ _ Hco cid c Hc) as Hcl.
  destruct (cl_run _ _ _ _ Hcl Hz) as [Hn0 _]. destruct (cl_sess _ _ _ _ Hcl) as (Hi & Hq & Hsel).
  destruct (core_request _ _ _ _ _ _ Hco Hc Hr) as (Hrok & Hdisp & Hsafe & Hrest).
  pose proof (dispatch_run _ _ _ Hdisp) as (Hhd & _ & _ & Hmp).
  pose proof (call_sim cmd_prog g draws r (sess c) (ks s) a Hg (co_ks _ _ _ Hco) Hs Hi Hrok Hq Hsel Hmp Hm) as H.
  assert (aprocess cmd_prog (length (dbs (ks s))) g r.2 (sess c) a
          = acall_session cmd_prog (length (dbs (ks s))) g r (sess c) a) as Hap.
  { unfold aprocess. rewrite Hdisp. destruct r.2; [done|done]. }
  unfold call, get_client. rewrite Hc. simpl. rewrite Hr. simpl.
  destruct (call_session cmd_prog g draws r (sess c) (ks s)) as [[x' k']|m] eqn:Hcall; simpl; [|congruence].
  destruct H as (a' & Hac & Hs' & Hks' & Hmv & Hh & Hi').
  destruct (call_session_multi _ _ _ _ _ _ _ Hdisp Hcall) as [Hmu Hqu].
  exists x', a'. simpl.
  assert (∀ j, rockKeys (get_db k' j) = rockKeys (get_db (ks s) j)) as Hrk by apply Hmv.
  assert (∀ cid', occ cid' k' = occ cid' (ks s)) as Hocc.
  { intros cid'. apply occ_ext; [apply Hmv|done]. }
  assert (alter (set_cmd None) cid (alter (set_sess x') cid (clients s))
          = <[cid := done_client x' c]> (clients s)) as Halt.
  { apply map_eq. intros j. destruct (decide (j = cid)) as [->|].
    - by rewrite !lookup_alter_eq, Hc, lookup_insert_eq.
    - by rewrite !lookup_alter_ne, lookup_insert_ne. }
  split_and!.
  - exact Halt.
  - unfold abs_clients. simpl. rewrite Halt, fmap_insert. apply (astep_exec _ _ _ _ a _ cid (sess c) r.2 (c_input c)).
    + rewrite lookup_fmap, Hc. simpl. unfold pend. by rewrite Hr.
    + by rewrite Hap.
  - done.
  - split; simpl; try apply Hco; try done.
    + by apply Hh, Hco.
    + intros Hp j. rewrite Hrk. by apply (co_zero _ _ _ Hco).
    + intros i' key' Hp. rewrite Hrk. by apply (co_work _ _ _ Hco).
    + intros cid' c'. rewrite Halt. destruct (decide (cid' = cid)) as [->|Hne].
      * rewrite lookup_insert_eq. intros [= <-]. split; simpl.
        -- rewrite Hocc, Hn0. rewrite <- (cl_num _ _ _ _ Hcl). done.
        -- split; [done|]. destruct Hqu as [-> | ->]; [|done]. done.
        -- unfold pend. simpl. by rewrite Hmu.
        -- done.
        -- set_solver.
        -- done.
      * rewrite lookup_insert_ne by done. intros Hc'. destruct (co_cl _ _ _ Hco cid' c' Hc') as [H1 H2 H3 H4 H5 H6].
        split; try done; [by rewrite Hocc| |set_solver|set_solver].
        unfold sess_ok in *. by rewrite (mv_len _ _ Hmv).
    + intros cid'. rewrite Halt. destruct (decide (cid' = cid)) as [->|Hne]; [by rewrite lookup_insert_eq|].
      rewrite lookup_insert_ne, Hocc by done. apply Hco.
    + intros cid' Hin. rewrite Halt, lookup_insert_ne by set_solver. apply (co_run _ _ _ Hco). set_solver.
    + intros i' key'. rewrite Hrk. unfold stored_dump. rewrite (mv_rocks _ _ Hmv). apply Hco.
    + eapply call_session_pres; [exact Hcall|apply Hco].
  - by apply shrinks_moves.
  - by apply calm_moves.
  - exists (set_sess x' c). by rewrite lookup_alter_eq, Hc.
Qed.

(** ** Processing the input of a client *)

Lemma core_replace ph Z Z' s cid c c' :
  core ph Z s → clients s !! cid = Some c → client_ok Z' (ks s) cid c' →
  (∀ x, x ≠ cid → x ∈ Z ↔ x ∈ Z') →
  core ph Z' (set_clients (<[cid := c']> (clients s)) s).
Proof.
  intros Hco Hc Hcl Hz. split; simpl; try apply Hco.
  - intros cid' c1. destruct (decide (cid' = cid)) as [->|Hne].
    + rewrite lookup_insert_eq. by intros [= <-].
    + rewrite lookup_insert_ne by done. intros Hc1.
      destruct (co_cl _ _ _ Hco cid' c1 Hc1) as [H1 H2 H3 H4 H5 H6]. split; try done.
      * by rewrite <- Hz.
      * by rewrite <- Hz.
  - intros cid'. destruct (decide (cid' = cid)) as [->|Hne]; [by rewrite lookup_insert_eq|].
    rewrite lookup_insert_ne by done. apply Hco.
  - intros cid' Hin. destruct (decide (cid' = cid)) as [->|Hne]; [by rewrite lookup_insert_eq|].
    rewrite lookup_insert_ne by done. apply (co_run _ _ _ Hco). by apply Hz.
Qed.

Lemma abs_clients_replace s cid c' :
  abs_clients (set_clients (<[cid := c']> (clients s)) s) = <[cid := (sess c', pend c')]> (abs_clients s).
Proof. unfold abs_clients. simpl. by rewrite fmap_insert. Qed.

Lemma abs_clients_lookup s cid c :
  clients s !! cid = Some c → abs_clients s !! cid = Some (sess c, pend c).
Proof. intros Hc. unfold abs_clients. by rewrite lookup_fmap, Hc. Qed.

(** The plain server is in front of a failing assertion itself. *)
Definition astuck (dbnum : nat) (g : server_cfg) (st : astate) : Prop :=
  ∃ cid x argv rest, st.2 !! cid = Some (x, argv :: rest) ∧
    aprocess cmd_prog dbnum g argv x st.1 = None.

(** Making room has failed, on databases with the contents of the plain server. *)
Definition room_failed (g : server_cfg) (w : world) (st : astate) : Prop :=
  ∃ k p next cid n m, ks_ok k ∧ hot_ok k ∧ hot_full k ∧ pool_ok p ∧ simall k st.1 ∧
    out_of_memory (w_room w cid n) (cfg_env g) (DumpState k p next) = Abort m.

(** What the main thread has done: some commands, as the plain server would.  [W] bounds what is
    left to do. *)
Definition served g (w : world) (W : nat) (ph : phase) (Z : gset nat) s a (r : res (server R)) : Prop :=
  let n := length (dbs (ks s)) in
  match r with
  | Ok s' => ∃ ph' a', phase_le ph ph' ∧ core ph' Z s' ∧ simall (ks s') a' ∧
      runs cmd_prog n g w (a, abs_clients s) (a', abs_clients s') ∧ calm (ks s) (ks s') ∧ (work s' ≤ W)%nat ∧
      (∀ cid, is_Some (clients s' !! cid) ↔ is_Some (clients s !! cid)) ∧
      (∀ cid, cid ∈ Z → clients s' !! cid = clients s !! cid)
  | Abort _ => ∃ st, runs cmd_prog n g w (a, abs_clients s) st ∧ (astuck n g st ∨ room_failed g w st)
  end.

Lemma phase_le_refl ph : phase_le ph ph.
Proof. by left. Qed.
Lemma phase_le_trans p1 p2 p3 : phase_le p1 p2 → phase_le p2 p3 → phase_le p1 p3.
Proof.
  intros [->|[-> (i & key & ->)]]; [done|]. intros [->|[? _]]; [|done]. right. eauto.
Qed.

Lemma served_trans g w W W' ph Z s a s1 ph1 a1 r :
  phase_le ph ph1 → runs cmd_prog (length (dbs (ks s))) g w (a, abs_clients s) (a1, abs_clients s1) →
  calm (ks s) (ks s1) → (W' ≤ W)%nat → (∀ cid, is_Some (clients s1 !! cid) ↔ is_Some (clients s !! cid)) →
  (∀ cid, cid ∈ Z → clients s1 !! cid = clients s !! cid) →
  served g w W' ph1 Z s1 a1 r → served g w W ph Z s a r.
Proof.
  intros Hp Hrtc Hsh HW Hcl HZ. unfold served. rewrite (cm_len _ _ Hsh). destruct r as [s'|m].
  - intros (ph' & a' & ? & ? & ? & ? & ? & ? & Hcl' & HZ'). exists ph', a'.
    split_and!; eauto using phase_le_trans, calm_trans, runs_trans; [lia| |].
    + intros cid. by rewrite Hcl', Hcl.
    + intros cid Hin. by rewrite HZ', HZ.
  - intros (st & ? & ?). exists st. split; [by eapply runs_trans|done].
Qed.
Lemma served_stay g w ph Z s a : core ph Z s → simall (ks s) a → served g w (work s) ph Z s a (Ok s).
Proof. intros Hco Hs. exists ph, a. split_and!; first [done|by left|apply runs_refl|apply calm_refl]. Qed.

(** Room is made: the clients do not notice. *)
Lemma core_room n ph Z s d :
  core ph Z s → roomed n (ks s) (d_ks d) → ks_ok (d_ks d) → hot_ok (d_ks d) → hot_full (d_ks d) → pool_ok (d_pool d) →
  core ph Z (set_room d s).
Proof.
  intros Hco Hr Hks Hhot Hfull Hp.
  assert (∀ cid, occ cid (d_ks d) = occ cid (ks s)) as Hocc by (intros; apply occ_ext; apply Hr).
  split; simpl; try done; try apply Hco.
  - intros E j. rewrite (rm_rockKeys _ _ _ Hr). by apply Hco.
  - intros i key E. rewrite (rm_rockKeys _ _ _ Hr). by apply Hco.
  - intros cid c Hc. destruct (co_cl _ _ _ Hco cid c Hc) as [H1 H2 H3 H4 H5 H6].
    split; try done; [by rewrite Hocc|]. unfold sess_ok in *. by rewrite (rm_len _ _ _ Hr).
  - intros cid. rewrite Hocc. apply Hco.
  - intros i key. rewrite (rm_rockKeys _ _ _ Hr). intros Hw. unfold stored_dump. destruct (rm_waited _ _ _ Hr i key Hw) as [_ ->].
    by apply (co_stored _ _ _ Hco).
Qed.
Lemma simall_room n k k' a : roomed n k k' → simall k a → simall k' a.
Proof. intros Hr Hs j. destruct (Hs j) as [H1 H2]. split; [intros; by rewrite (rm_logical _ _ _ Hr)|by rewrite (rm_expires _ _ _ Hr)]. Qed.

(** The memory step of [processCommand], with [n] requests left in the buffer of [cid]. *)
Definition room_step g w cid (n : nat) (argv : list bytes) s : res (bool * server R) :=
  if known_request argv then
    '(oom, d) ← out_of_memory (w_room w cid n) (cfg_env g) (room_state s);
    mret (oom, set_room d s)
  else Ok (false, s).

Lemma room_step_spec ph Z s a g w cid n argv :
  core ph Z s → simall (ks s) a →
  match room_step g w cid n argv s with
  | Ok (oom, s') => core ph Z s' ∧ simall (ks s') a ∧ calm (ks s) (ks s') ∧ clients s' = clients s ∧ (work s' ≤ work s + 63)%nat ∧
      (oom = true → tight (w_room w cid n) = true)
  | Abort _ => room_failed g w (a, abs_clients s)
  end.
Proof.
  intros Hco Hs. unfold room_step. destruct (known_request argv).
  2: { split_and!; try done. lia. }
  destruct (out_of_memory _ _ _) as [[oom d]|m] eqn:E; cbn [mbind res_bind mret res_ret].
  - destruct (out_of_memory_spec _ _ _ _ _ E (co_ks _ _ _ Hco) (co_hot _ _ _ Hco) (co_full _ _ _ Hco) (co_pool _ _ _ Hco)) as (Hr & H1 & H2 & H3 & H4).
    split; [by eapply core_room|]. split; [by eapply simall_room|]. split; [by eapply calm_roomed|]. split; [done|].
    split; [pose proof (unfinished_roomed _ _ _ Hr); unfold work; simpl in *; lia|]. intros ->. by eapply out_of_memory_tight.
  - exists (ks s), (rockPool s), (next_db s), cid, n, m. by split_and!; try apply Hco.
Qed.

Lemma work_shrinks s s' :
  shrinks (ks s) (ks s') → (∀ cid, c_input <$> clients s' !! cid = c_input <$> clients s !! cid) → (work s' ≤ work s)%nat.
Proof.
  intros Hsh Hin. unfold work. rewrite (inputs_ext _ _ Hin).
  pose proof (subseteq_size _ _ (unfinished_shrinks _ _ Hsh)). lia.
Qed.
Lemma work_take s cid c c' : clients s !! cid = Some c → length (c_input c) = S (length (c_input c')) →
  (work (set_clients (<[cid := c']> (clients s)) s) + 63 = work s)%nat.
Proof. intros Hc Hl. unfold work. simpl. pose proof (inputs_insert _ _ _ c' Hc). lia. Qed.
Lemma inputs_same (m : gmap nat client) cid c c' : m !! cid = Some c → c_input c' = c_input c →
  ∀ cid', c_input <$> <[cid := c']> m !! cid' = c_input <$> m !! cid'.
Proof.
  intros Hc Hi cid'. destruct (decide (cid' = cid)) as [->|]; [|by rewrite lookup_insert_ne].
  rewrite lookup_insert_eq, Hc. simpl. by rewrite Hi.
Qed.
(** A client of a state is changed. *)
Lemma insert_clients (m : gmap nat client) cid c c' : m !! cid = Some c →
  ∀ cid', is_Some (<[cid := c']> m !! cid') ↔ is_Some (m !! cid').
Proof.
  intros Hc cid'. destruct (decide (cid' = cid)) as [->|]; [rewrite lookup_insert_eq, Hc; split; eauto|by rewrite lookup_insert_ne].
Qed.

Lemma dispatch_reply k x argv f :
  dispatch_request x argv = DReply f → req_safe (c_multi x) argv = true → sess_ok k x →
  sess_ok k (f x) ∧ c_multi (f x) = next_multi (c_multi x) argv.
Proof.
  unfold dispatch_request, req_safe, next_multi. intros Hd [_ Hs]%andb_true_iff (Hi & Hq & Hsel).
  assert (sess_ok k (flagTransaction x) ∧ c_multi (flagTransaction x) = c_multi x) as [Hf Hfm].
  { unfold flagTransaction, sess_ok. destruct (c_multi x) eqn:Hm; simpl; rewrite ?Hm; done. }
  destruct (head argv ≫= lookupCommand) as [cmd|] eqn:Hl; [|by injection Hd as <-].
  destruct (arity_ok cmd (Z.of_nat (length argv))) eqn:Ha; simpl in *; [|by injection Hd as <-].
  destruct (c_multi x && negb (in_multi_proc (cmd, argv))) eqn:Hm; [|done]. injection Hd as <-.
  apply andb_true_iff in Hm as [Hm Hp]. rewrite Hm in Hs |- *. simpl in Hs.
  apply andb_true_iff in Hs as [Ho Hns]. apply negb_true_iff in Hp, Hns.
  unfold in_multi_proc in Hp. rewrite !orb_false_iff in Hp. destruct Hp as [[[H1 H2] H3] H4].
  rewrite H1, H2, H3. simpl. rewrite Hm. split; [|done]. split; [done|]. simpl.
  rewrite !Forall_app, !Forall_singleton. split_and!; try done.
  split; [|done]. destruct (head argv) as [n0|]; [|done]. by eapply lookupCommand_table.
Qed.

(** The commands of the MULTI machinery need no memory. *)
Lemma denyoom_multi cmd : cmd ∈ redisCommandTable → denyoom cmd = true →
  ∀ argv, is_cmd "multi" (cmd, argv) = false ∧ is_cmd "discard" (cmd, argv) = false ∧ is_cmd "exec" (cmd, argv) = false.
Proof.
  intros Hin Hd argv. unfold is_cmd. cbn [fst].
  assert (forallb (fun cmd => negb (denyoom cmd) || negb (String.eqb (cmd_name cmd) "multi" || String.eqb (cmd_name cmd) "discard" || String.eqb (cmd_name cmd) "exec"))
            redisCommandTable = true) as H by (by vm_compute).
  rewrite forallb_forall in H. specialize (H cmd (proj1 (list_elem_of_In _ _) Hin)). rewrite Hd in H. simpl in H.
  apply negb_true_iff in H. by rewrite !orb_false_iff in H; destruct H as [[? ?] ?].
Qed.
Lemma oom_reply_ok k x argv :
  oom_denied x argv = true → sess_ok k x →
  sess_ok k (oom_reply x) ∧ c_multi (oom_reply x) = next_multi (c_multi x) argv.
Proof.
  intros Hd Hx. unfold oom_reply. split.
  { unfold flagTransaction, addReply, sess_ok in *. destruct (c_multi x) eqn:Hm; simpl; done. }
  assert (c_multi (addReply (RError "OOM command not allowed when used memory > 'maxmemory'.") (flagTransaction x)) = c_multi x) as ->.
  { unfold flagTransaction. destruct (c_multi x) eqn:Hm; simpl; done. }
  unfold oom_denied, next_multi in *. destruct (head argv ≫= lookupCommand) as [cmd|] eqn:Hl; [|done].
  assert (cmd ∈ redisCommandTable) as Hin by (destruct (head argv); [by eapply lookupCommand_table|done]).
  apply andb_true_iff in Hd as [-> Hd]. simpl. destruct (denyoom cmd) eqn:Hdo.
  { by destruct (denyoom_multi cmd Hin Hdo argv) as (-> & -> & ->). }
  simpl in Hd. rewrite !andb_true_iff, !negb_true_iff in Hd. destruct Hd as [[-> ->] ->]. by destruct (is_cmd "multi" _).
Qed.

Lemma pend_input Z k cid c argv rest :
  client_ok Z k cid c → cid ∉ Z → rockKeyNumber c = 0%nat → c_input c = argv :: rest →
  c_cmd c = None ∧ pend c = argv :: rest ∧ req_safe (c_multi (sess c)) argv = true ∧
  all_safe (next_multi (c_multi (sess c)) argv) rest = true.
Proof.
  intros Hcl Hz Hn Hin. assert (c_cmd c = None) as Hcmd by (by apply (cl_wait _ _ _ _ Hcl)).
  pose proof (cl_safe _ _ _ _ Hcl) as Hs. unfold pend in *. rewrite Hcmd, Hin in *. simpl in Hs.
  by apply andb_true_iff in Hs.
Qed.

(** A request that is answered without running a command. *)
Lemma answer_spec ph Z s a g w cid c argv rest x' :
  core ph Z s → simall (ks s) a → cid ∉ Z → clients s !! cid = Some c → rockKeyNumber c = 0%nat →
  c_input c = argv :: rest → sess_ok (ks s) x' → c_multi x' = next_multi (c_multi (sess c)) argv →
  aprocess cmd_prog (length (dbs (ks s))) g argv (sess c) a = Some (x', a) ∨ (oom_denied (sess c) argv = true ∧ tight (w_room w cid (length rest)) = true) ∧ x' = oom_reply (sess c) →
  let s' := set_clients (<[cid := Client x' None 0 rest]> (clients s)) s in
  core ph Z s' ∧ astep cmd_prog (length (dbs (ks s))) g w (cid, argv) (a, abs_clients s) (a, abs_clients s').
Proof.
  intros Hco Hs Hz Hc Hn Hin Hx Hm Hap s'. pose proof (co_cl _ _ _ Hco cid c Hc) as Hcl.
  destruct (pend_input _ _ _ _ _ _ Hcl Hz Hn Hin) as (Hcmd & Hp & Hsafe & Hrest).
  split.
  - eapply core_replace; [done|done| |done]. destruct Hcl as [H1 H2 H3 H4 H5 H6].
    split; simpl; try done; [by rewrite <- Hn|]. unfold pend. simpl. by rewrite Hm.
  - unfold s'. rewrite abs_clients_replace. simpl.
    assert (abs_clients s !! cid = Some (sess c, argv :: rest)) as Ha by (by rewrite (abs_clients_lookup _ _ _ Hc), Hp).
    destruct Hap as [Hap|[[Hd Ht] ->]]; [by apply (astep_exec _ _ _ _ a _ cid (sess c) argv rest)|by apply (astep_oom _ _ _ _ a _ cid (sess c))].
Qed.

(** ** Check, then run *)

#[local] Arguments get_client : simpl never.
Lemma get_client_eq cid s c : clients s !! cid = Some c → get_client cid s = Ok c.
Proof. intros Hc. unfold get_client. by rewrite Hc. Qed.

Definition check_then_call g w cid s : res (server R) :=
  s ← checkCallValueInRock cid s;
  c ← get_client cid s;
  match rockKeyNumber c with
  | O => call cmd_prog g (draws_of w cid c) cid s
  | S _ => Ok s
  end.

Lemma abs_clients_wait s s1 cid c n :
  clients s !! cid = Some c → clients s1 = <[cid := set_number n c]> (clients s) → abs_clients s1 = abs_clients s.
Proof. intros Hc E. unfold abs_clients. rewrite E, fmap_insert. simpl. apply insert_id. by rewrite lookup_fmap, Hc. Qed.

(** The state in which a client has nothing to run any more: its command is
    done, or it waits. *)
Definition settled cid s : server R :=
  match clients s !! cid with
  | Some c => match rockKeyNumber c with O => upd_client cid (set_cmd None) s | S _ => s end
  | None => s
  end.

Lemma check_then_call_spec ph Z s a g w cid c r :
  core ph Z s → cfg_ok g → simall (ks s) a → cid ∈ Z → clients s !! cid = Some c → c_cmd c = Some r →
  match check_then_call g w cid s with
  | Ok s1 => served g w (work s) ph (Z ∖ {[cid]}) s a (Ok (settled cid s1)) ∧
             ∃ c1 c2, clients s1 !! cid = Some c1 ∧ clients (settled cid s1) !! cid = Some c2 ∧
               c_input c2 = c_input c ∧ (rockKeyNumber c2 = 0%nat ↔ rockKeyNumber c1 = 0%nat)
  | Abort _ => astuck (length (dbs (ks s))) g (a, abs_clients s)
  end.
Proof.
  intros Hco Hg Hs Hz Hc Hr. unfold check_then_call.
  destruct (check_spec ph Z s cid c r Hco Hz Hc Hr) as [[-> Hm]|(s1 & ph1 & n & -> & Hn & Hcl1 & Hse & Hsh & Hcm & Hph & Hco1)].
  - simpl. rewrite (get_client_eq cid s c Hc). simpl.
    destruct (cl_run _ _ _ _ (co_cl _ _ _ Hco cid c Hc) Hz) as [-> _].
    pose proof (call_spec ph Z s a g w (draws_of w cid c) cid c r Hco Hg Hs Hz Hc Hr Hm) as H.
    destruct (call cmd_prog g (draws_of w cid c) cid s) as [s1|m].
    + destruct H as (x' & a' & Hcl & Hst & Hs' & Hco' & Hsh & Hcm & (c1 & Hc1 & Hn1)).
      unfold settled. rewrite Hc1, Hn1. split.
      * exists ph, a'. split_and!; try done; [by left|by eapply runs_once| | |].
        -- apply work_shrinks; [done|]. rewrite Hcl. by apply (inputs_same _ _ c).
        -- rewrite Hcl. by eapply insert_clients.
        -- intros cid' Hin. rewrite Hcl, lookup_insert_ne by set_solver. done.
      * exists c1, (done_client x' c). rewrite Hcl, lookup_insert_eq. split_and!; try done. simpl.
        by destruct (cl_run _ _ _ _ (co_cl _ _ _ Hco cid c Hc) Hz) as [-> _].
    + exists cid, (sess c), r.2, (c_input c). split; [|done]. simpl.
      rewrite (abs_clients_lookup _ _ _ Hc). unfold pend. by rewrite Hr.
  - simpl. erewrite get_client_eq by (rewrite Hcl1; apply lookup_insert_eq). simpl. destruct n as [|n]; [lia|].
    unfold settled. rewrite Hcl1, lookup_insert_eq. simpl. split.
    + exists ph1, a. split_and!; try done.
      * by eapply simall_store.
      * rewrite (abs_clients_wait _ _ _ _ _ Hc Hcl1). apply runs_refl.
      * apply work_shrinks; [done|]. rewrite Hcl1. by apply (inputs_same _ _ c).
      * rewrite Hcl1. by eapply insert_clients.
      * intros cid' Hin. rewrite Hcl1, lookup_insert_ne by set_solver. done.
    + exists (set_number (S n) c), (set_number (S n) c). rewrite Hcl1, lookup_insert_eq. done.
Qed.

Lemma upd_client_twice cid f h s c :
  clients s !! cid = Some c →
  upd_client cid f (upd_client cid h s) = set_clients (<[cid := f (h c)]> (clients s)) s.
Proof.
  intros Hc. rewrite (alter_client cid h s c Hc).
  rewrite (alter_client cid f _ (h c)) by (simpl; apply lookup_insert_eq).
  unfold set_clients. simpl. by rewrite insert_insert_eq.
Qed.

(** ** The loop over the input *)

(** A request is taken from the input and its command is known: the client is ready to run. *)
Lemma ready_spec ph Z s cid c argv rest r :
  core ph Z s → cid ∉ Z → clients s !! cid = Some c → rockKeyNumber c = 0%nat → c_input c = argv :: rest →
  dispatch_request (sess c) argv = DRun r →
  let s0 := set_clients (<[cid := set_cmd (Some r) (set_input rest c)]> (clients s)) s in
  core ph (Z ∪ {[cid]}) s0 ∧ abs_clients s0 = abs_clients s.
Proof.
  intros Hco Hz Hc Hn Hin Hd s0. pose proof (co_cl _ _ _ Hco cid c Hc) as Hcl.
  destruct (pend_input _ _ _ _ _ _ Hcl Hz Hn Hin) as (Hcmd & Hp & Hsafe & Hrest).
  pose proof (dispatch_run _ _ _ Hd) as (_ & Hr2 & _ & _). split.
  - apply (core_replace ph Z (Z ∪ {[cid]}) s cid c _ Hco Hc); [|set_solver].
    destruct Hcl as [H1 H2 H3 H4 H5 H6]. split; simpl; try done.
    + unfold pend. simpl. rewrite Hr2. simpl. by rewrite Hsafe.
    + intros r' [= <-]. by rewrite Hr2.
    + set_solver.
  - unfold s0, abs_clients. simpl. rewrite fmap_insert. apply insert_id.
    rewrite lookup_fmap, Hc. simpl. rewrite Hp. unfold pend. simpl. by rewrite Hr2.
Qed.

(** The ready client runs, and the loop goes on unless it waits. *)
Lemma run_spec ph Z s a g w cid c r rest s0 (loop : server R → res (server R)) :
  core ph (Z ∪ {[cid]}) s0 → abs_clients s0 = abs_clients s → cfg_ok g → simall (ks s) a → cid ∉ Z → clients s !! cid = Some c →
  s0 = set_clients (<[cid := set_cmd (Some r) (set_input rest c)]> (clients s)) s →
  (∀ ph s a, core ph Z s → simall (ks s) a → is_Some (clients s !! cid) → served g w (work s) ph Z s a (loop s)) →
  served g w (work s0) ph Z s a (s1 ← check_then_call g w cid s0; c1 ← get_client cid s1;
    match rockKeyNumber c1 with O => loop (upd_client cid (set_cmd None) s1) | S _ => Ok s1 end).
Proof.
  intros Hco0 Habs Hg Hs Hz Hc Es0 Hloop.
  assert (clients s0 !! cid = Some (set_cmd (Some r) (set_input rest c))) as Hc0 by (subst s0; simpl; apply lookup_insert_eq).
  assert (simall (ks s0) a) as Hs0 by (by subst s0).
  pose proof (check_then_call_spec ph (Z ∪ {[cid]}) s0 a g w cid _ r Hco0 Hg Hs0 ltac:(set_solver) Hc0 eq_refl) as H.
  assert (ks s0 = ks s) as Ek by (by subst s0). unfold served in H. rewrite Ek, Habs in H.
  destruct (check_then_call g w cid s0) as [s1|m]; cbn [mbind res_bind].
  2: { exists (a, abs_clients s). split; [apply runs_refl|]. by left. }
  destruct H as [Hserved (c1 & c2 & Hc1 & Hc2 & Hin2 & Hn2)].
  replace ((Z ∪ {[cid]}) ∖ {[cid]}) with Z in Hserved by set_solver.
  destruct Hserved as (ph1 & a1 & Hph1 & Hco1 & Hs1 & Hrtc1 & Hsh1 & HW & Hcl1 & HZ1).
  assert (∀ cid', is_Some (clients (settled cid s1) !! cid') ↔ is_Some (clients s !! cid')) as HclS.
  { intros cid'. rewrite Hcl1. subst s0. by eapply insert_clients. }
  assert (∀ cid', cid' ∈ Z → clients (settled cid s1) !! cid' = clients s !! cid') as HZS.
  { intros cid' Hin'. rewrite HZ1 by done. subst s0. simpl. by rewrite lookup_insert_ne by set_solver. }
  rewrite (get_client_eq cid s1 c1 Hc1). cbn [mbind res_bind]. unfold settled in *. rewrite Hc1 in *.
  destruct (rockKeyNumber c1) as [|n1].
  - eapply served_trans; [exact Hph1|exact Hrtc1|exact Hsh1|exact HW|exact HclS|exact HZS|].
    apply Hloop; [done|done|]. rewrite Hc2. eauto.
  - exists ph1, a1. split_and!; done.
Qed.

(** [processCommand] on a request that has just been taken from the buffer. *)
Lemma processCommand_eq g w cid c argv rest s :
  clients s !! cid = Some c →
  processCommand cmd_prog g w cid argv (upd_client cid (set_input rest) s) =
  ('(oom, s1) ← room_step g w cid (length rest) argv s;
   let next c := set_clients (<[cid := c]> (clients s)) s1 in
   if oom && oom_denied (sess c) argv then Ok (next (upd_sess oom_reply (set_input rest c)))
   else match dispatch_request (sess c) argv with
        | DReply f => Ok (next (upd_sess f (set_input rest c)))
        | DRun r => check_then_call g w cid (next (set_cmd (Some r) (set_input rest c)))
        end).
Proof.
  intros Hc. rewrite (alter_client cid (set_input rest) s c Hc). unfold processCommand, room_step, make_room.
  rewrite !(get_client_eq cid _ (set_input rest c)) by (simpl; apply lookup_insert_eq). cbn [mbind res_bind].
  change (room_of w cid (set_input rest c)) with (w_room w cid (length rest)).
  change (room_state (set_clients (<[cid:=set_input rest c]> (clients s)) s)) with (room_state s).
  assert (∀ (f : client → client) s1, clients s1 = <[cid := set_input rest c]> (clients s) →
    upd_client cid f s1 = set_clients (<[cid := f (set_input rest c)]> (clients s)) s1) as Hupd.
  { intros f s1 E. rewrite (alter_client cid f s1 (set_input rest c)) by (rewrite E; apply lookup_insert_eq).
    by rewrite E, insert_insert_eq. }
  destruct (known_request argv).
  - destruct (out_of_memory _ _ _) as [[oom d]|m]; cbn [mbind res_bind mret res_ret]; [|done].
    change (sess (set_input rest c)) with (sess c).
    destruct (oom && oom_denied (sess c) argv); [by rewrite Hupd|]. destruct (dispatch_request (sess c) argv); by rewrite Hupd.
  - cbn [mbind res_bind]. change (sess (set_input rest c)) with (sess c). simpl.
    destruct (dispatch_request (sess c) argv); by rewrite Hupd.
Qed.
Lemma processInput_spec fuel ph Z s a g w cid :
  core ph Z s → cfg_ok g → simall (ks s) a → cid ∉ Z → is_Some (clients s !! cid) →
  served g w (work s) ph Z s a (processInput cmd_prog fuel g w cid s).
Proof.
  intros Hco Hg Hs Hz Hsome. revert ph s a Hco Hs Hsome.
  induction fuel as [|fuel IH]; intros ph s a Hco Hs [c Hc]; cbn [processInput]; [by apply served_stay|].
  rewrite (get_client_eq cid s c Hc). cbn [mbind res_bind].
  destruct (c_input c) as [|argv rest] eqn:Hin; [by apply served_stay|].
  destruct (rockKeyNumber c) as [|n] eqn:Hn; [|by apply served_stay].
  (* the rest of the loop after an answered request *)
  assert (∀ s1 x' c', core ph Z s1 → simall (ks s1) a → calm (ks s) (ks s1) → clients s1 = clients s → (work s1 ≤ work s + 63)%nat →
    sess_ok (ks s1) x' → c_multi x' = next_multi (c_multi (sess c)) argv →
    aprocess cmd_prog (length (dbs (ks s1))) g argv (sess c) a = Some (x', a) ∨ (oom_denied (sess c) argv = true ∧ tight (w_room w cid (length rest)) = true) ∧ x' = oom_reply (sess c) →
    c' = Client x' None 0 rest →
    served g w (work s) ph Z s a (processInput cmd_prog fuel g w cid (set_clients (<[cid := c']> (clients s)) s1))) as Hans.
  { intros s1 x' c' Hco1 Hs1 Hcm Ec HW Hx Hm Hap ->. rewrite <- Ec in Hc |- *.
    destruct (answer_spec ph Z s1 a g w cid c argv rest x' Hco1 Hs1 Hz Hc Hn Hin Hx Hm Hap) as [Hco' Hst].
    rewrite (cm_len _ _ Hcm) in Hst. assert (abs_clients s1 = abs_clients s) as Ea by (unfold abs_clients; by rewrite Ec). rewrite Ea in Hst.
    pose proof (work_take s1 cid c (Client x' None 0 rest) Hc ltac:(by rewrite Hin)).
    eapply served_trans; [by left|by eapply runs_once|exact Hcm| | | |apply (IH ph); [exact Hco'|exact Hs1|]]; simpl.
    - lia.
    - rewrite Ec. eapply insert_clients. by rewrite <- Ec.
    - intros cid' Hin'. rewrite lookup_insert_ne by set_solver. by rewrite Ec.
    - rewrite lookup_insert_eq. eauto. }
  pose proof (co_cl _ _ _ Hco cid c Hc) as Hcl.
  destruct (pend_input _ _ _ _ _ _ Hcl Hz Hn Hin) as (Hcmd & Hp & Hsafe & Hrest).
  destruct argv as [|name argv'].
  { rewrite (alter_client cid (set_input rest) s c Hc). cbn [mbind res_bind].
    erewrite get_client_eq by (simpl; apply lookup_insert_eq). cbn [mbind res_bind rockKeyNumber set_input]. rewrite Hn.
    rewrite (alter_client cid (set_cmd None) _ (set_input rest c)) by (simpl; apply lookup_insert_eq).
    unfold set_clients. cbn [ks rockJob clients rockPool next_db]. rewrite insert_insert_eq.
    apply (Hans s (sess c)); try done; [lia|apply Hcl|by left|destruct c; simpl in *; by subst]. }
  set (argv := name :: argv') in *. rewrite (processCommand_eq g w cid c argv rest s Hc).
  pose proof (room_step_spec ph Z s a g w cid (length rest) argv Hco Hs) as Hroom.
  destruct (room_step g w cid (length rest) argv s) as [[oom s1]|m]; cbn [mbind res_bind].
  2: { exists (a, abs_clients s). split; [apply runs_refl|by right]. }
  destruct Hroom as (Hco1 & Hs1 & Hcm & Ec & HW & Htight). cbn zeta.
  assert (sess_ok (ks s1) (sess c)) as Hsess by (rewrite <- Ec in Hc; apply (co_cl _ _ _ Hco1 cid c Hc)).
  destruct (oom && oom_denied (sess c) argv) eqn:Hoom.
  { apply andb_true_iff in Hoom as [Ht%Htight Hoom]. destruct (oom_reply_ok (ks s1) (sess c) argv Hoom Hsess) as [Hx Hm].
    cbn [mbind res_bind]. erewrite get_client_eq by (simpl; apply lookup_insert_eq). cbn [mbind res_bind rockKeyNumber upd_sess set_sess set_input]. rewrite Hn.
    erewrite (alter_client cid (set_cmd None)) by (simpl; apply lookup_insert_eq).
    unfold set_clients. cbn [ks rockJob clients rockPool next_db]. rewrite insert_insert_eq.
    apply (Hans s1 (oom_reply (sess c))); try done; [by right|destruct c; simpl in *; by subst]. }
  destruct (dispatch_request (sess c) argv) as [f|r] eqn:Hd.
  - destruct (dispatch_reply (ks s1) (sess c) argv f Hd Hsafe Hsess) as [Hx Hm].
    cbn [mbind res_bind]. erewrite get_client_eq by (simpl; apply lookup_insert_eq). cbn [mbind res_bind rockKeyNumber upd_sess set_sess set_input]. rewrite Hn.
    erewrite (alter_client cid (set_cmd None)) by (simpl; apply lookup_insert_eq).
    unfold set_clients. cbn [ks rockJob clients rockPool next_db]. rewrite insert_insert_eq.
    apply (Hans s1 (f (sess c))); try done; [|destruct c; simpl in *; by subst].
    left. unfold aprocess, argv. fold argv. by rewrite Hd.
  - rewrite <- Ec in Hc |- *.
    destruct (ready_spec ph Z s1 cid c argv rest r Hco1 Hz Hc Hn Hin Hd) as [Hco0 Habs].
    pose proof (work_take s1 cid c (set_cmd (Some r) (set_input rest c)) Hc ltac:(by rewrite Hin)).
    eapply (served_trans g w _ _ ph Z s a s1 ph a); [by left| |exact Hcm| | | |].
    + assert (abs_clients s1 = abs_clients s) as -> by (unfold abs_clients; by rewrite Ec). apply runs_refl.
    + shelve.
    + by rewrite Ec.
    + by rewrite Ec.
    + eapply (run_spec ph Z s1 a g w cid c r rest _ (processInput cmd_prog fuel g w cid)); try done.
    Unshelve. lia.
Qed.

(** ** Resuming *)

Lemma resume_spec ph Z s a g w cid c :
  core ph Z s → cfg_ok g → simall (ks s) a → cid ∈ Z → clients s !! cid = Some c →
  served g w (work s) ph (Z ∖ {[cid]}) s a (checkThenResumeRockClient cmd_prog g w cid s).
Proof.
  intros Hco Hg Hs Hz Hc. pose proof (co_cl _ _ _ Hco cid c Hc) as Hcl.
  destruct (cl_run _ _ _ _ Hcl Hz) as [Hn0 Hcmd]. destruct (c_cmd c) as [r|] eqn:Hr; [|done].
  unfold checkThenResumeRockClient. rewrite (get_client_eq cid s c Hc). cbn [mbind res_bind]. rewrite Hn0. cbn [Nat.eqb serverAssert mbind res_bind].
  destruct (check_spec ph Z s cid c r Hco Hz Hc Hr) as [[-> Hm]|(s1 & ph1 & n & -> & Hn & Hcl1 & Hse & Hsh & Hcm & Hph & Hco1)]; cbn [mbind res_bind].
  - rewrite (get_client_eq cid s c Hc). cbn [mbind res_bind]. rewrite Hn0. unfold _resumeRockClient. rewrite (get_client_eq cid s c Hc). cbn [mbind res_bind].
    pose proof (call_spec ph Z s a g w (draws_of w cid c) cid c r Hco Hg Hs Hz Hc Hr Hm) as H.
    destruct (call cmd_prog g (draws_of w cid c) cid s) as [s1|m]; cbn [mbind res_bind].
    + destruct H as (x' & a' & Hcl1 & Hst & Hs' & Hco' & Hsh & Hcm & _). set (s2 := upd_client cid (set_cmd None) s1) in *.
      assert (clients s2 !! cid = Some (done_client x' c)) as Hc2 by (rewrite Hcl1; apply lookup_insert_eq).
      unfold processInputBuffer. rewrite (get_client_eq _ _ _ Hc2). cbn [mbind res_bind].
      eapply (served_trans g w _ (work s2)); [by left|by eapply runs_once|exact Hcm| | | |].
      * apply work_shrinks; [done|]. rewrite Hcl1. by apply (inputs_same _ _ c).
      * rewrite Hcl1. by eapply insert_clients.
      * intros cid' Hin. rewrite Hcl1, lookup_insert_ne by set_solver. done.
      * apply processInput_spec; [done|done|done|set_solver|]. rewrite Hc2. eauto.
    + exists (a, abs_clients s). split; [apply runs_refl|]. left. exists cid, (sess c), r.2, (c_input c). split; [|done]. simpl.
      rewrite (abs_clients_lookup _ _ _ Hc). unfold pend. by rewrite Hr.
  - erewrite get_client_eq by (rewrite Hcl1; apply lookup_insert_eq). cbn [mbind res_bind rockKeyNumber set_number]. destruct n as [|n]; [lia|].
    exists ph1, a. split_and!; try done.
    + by eapply simall_store.
    + rewrite (abs_clients_wait _ _ _ _ _ Hc Hcl1). apply runs_refl.
    + apply work_shrinks; [done|]. rewrite Hcl1. by apply (inputs_same _ _ c).
    + rewrite Hcl1. by eapply insert_clients.
    + intros cid' Hin. rewrite Hcl1, lookup_insert_ne by set_solver. done.
Qed.

Lemma resume_all_spec l ph s a g w :
  core ph (list_to_set l) s → NoDup l → cfg_ok g → simall (ks s) a →
  served g w (work s) ph ∅ s a (resume_all cmd_prog g w l s).
Proof.
  intros Hco Hnd Hg. revert ph s a Hco. induction Hnd as [|cid l Hni Hnd IH]; intros ph s a Hco Hs; cbn [resume_all].
  - by apply served_stay.
  - destruct (co_run _ _ _ Hco cid) as [c Hc]; [set_solver|].
    pose proof (resume_spec ph _ s a g w cid c Hco Hg Hs ltac:(set_solver) Hc) as H.
    replace (list_to_set (cid :: l) ∖ {[cid]}) with (list_to_set l : gset nat) in H by set_solver.
    destruct (checkThenResumeRockClient cmd_prog g w cid s) as [s1|m]; cbn [mbind res_bind]; [|exact H].
    destruct H as (ph1 & a1 & Hph & Hco1 & Hs1 & Hrtc & Hsh & HW & Hcl & HZ).
    eapply served_trans; [exact Hph|exact Hrtc|exact Hsh|exact HW|exact Hcl|set_solver|]. by apply IH.
Qed.

(** Counting down the clients of a list. *)
Lemma wake_clients_spec l s :
  (∀ cid, cid ∈ l → ∃ c, clients s !! cid = Some c ∧ (count cid l ≤ rockKeyNumber c)%nat) →
  ∃ zero m, wake_clients l s = Ok (zero, set_clients m s) ∧ NoDup zero ∧
    (∀ cid, m !! cid = (fun c => set_number (rockKeyNumber c - count cid l) c) <$> clients s !! cid) ∧
    (∀ cid, cid ∈ zero ↔ cid ∈ l ∧ ∃ c, clients s !! cid = Some c ∧ rockKeyNumber c = count cid l).
Proof.
  revert s. induction l as [|cid l IH]; intros s Hl.
  - exists [], (clients s). split; [by destruct s|]. split; [constructor|]. split.
    + intros cid. destruct (clients s !! cid) as [c|] eqn:Hc; simpl; [|done].
      change (count cid []) with 0%nat. rewrite Nat.sub_0_r. by destruct c.
    + set_solver.
  - destruct (Hl cid) as (c & Hc & Hle); [set_solver|]. rewrite count_cons, decide_True in Hle by done.
    set (s1 := set_clients (<[cid := set_number (rockKeyNumber c - 1) c]> (clients s)) s).
    destruct (IH s1) as (zero & m & Hw & Hnd & Hm & Hz).
    { intros cid' Hin. unfold s1. simpl. destruct (decide (cid' = cid)) as [->|Hne].
      - rewrite lookup_insert_eq. eexists. split; [done|]. simpl. lia.
      - rewrite lookup_insert_ne by done. destruct (Hl cid') as (c' & Hc' & Hle'); [set_solver|].
        rewrite count_cons, decide_False in Hle' by done. eauto. }
    exists (if (rockKeyNumber c - 1 =? 0)%nat then cid :: zero else zero), m.
    split_and!.
    + simpl. rewrite (get_client_eq _ _ _ Hc). simpl. rewrite (proj2 (Nat.ltb_lt _ _)) by lia. simpl.
      rewrite (alter_client cid _ s c Hc). fold s1. rewrite Hw. done.
    + destruct (Nat.eqb_spec (rockKeyNumber c - 1) 0); [|done]. constructor; [|done].
      rewrite Hz. intros [Hin _]. apply (proj1 (count_zero cid l)); [lia|done].
    + intros cid'. rewrite Hm, count_cons. unfold s1. simpl. destruct (decide (cid' = cid)) as [->|Hne].
      * rewrite lookup_insert_eq, Hc, decide_True by done. cbn [fmap option_fmap option_map].
        unfold set_number. simpl rockKeyNumber. by rewrite Nat.sub_add_distr.
      * rewrite lookup_insert_ne, decide_False by done. done.
    + intros cid'. rewrite elem_of_cons, count_cons.
      assert (cid' ∈ zero ↔ cid' ∈ l ∧ ∃ c', clients s1 !! cid' = Some c' ∧ rockKeyNumber c' = count cid' l) as Hz' by apply Hz.
      unfold s1 in Hz'. simpl in Hz'. destruct (decide (cid' = cid)) as [->|Hne].
      * rewrite lookup_insert_eq in Hz'. rewrite decide_True by done.
        destruct (Nat.eqb_spec (rockKeyNumber c - 1) 0) as [E|E].
        -- split; [|set_solver]. intros _. split; [by left|]. exists c. split; [done|]. lia.
        -- rewrite Hz'. split.
           ++ intros (_ & c' & [= <-] & Hn). simpl in Hn. split; [by left|]. exists c. split; [done|lia].
           ++ intros (_ & c' & Hc' & Hn). rewrite Hc in Hc'. injection Hc' as <-.
              split; [|eexists; split; [done|simpl; lia]].
              destruct (decide (cid ∈ l)) as [|Hnot]; [done|]. exfalso.
              apply count_zero in Hnot. lia.
      * rewrite lookup_insert_ne in Hz' by done. rewrite decide_False by done.
        destruct (Nat.eqb_spec (rockKeyNumber c - 1) 0); set_solver.
Qed.

(** ** A key comes back *)

(** The waiting clients of a finished key have been counted down and its list
    is gone. *)
Lemma finish_core i key v l s k1 zero m :
  core (PRet i key v) ∅ s → ks_ok k1 → hot_ok k1 → hot_full k1 → length (dbs k1) = length (dbs (ks s)) →
  rocks k1 = rocks (ks s) →
  (∀ j, rockKeys (get_db k1 j) = rockKeys (get_db (ks s) j)) →
  rockKeys (get_db (ks s) i) !! key = Some l →
  (∀ cid, m !! cid = (fun c => set_number (rockKeyNumber c - count cid l) c) <$> clients s !! cid) →
  (∀ cid, cid ∈ zero ↔ cid ∈ l ∧ ∃ c, clients s !! cid = Some c ∧ rockKeyNumber c = count cid l) →
  core (PFin i key v) (list_to_set zero)
    (Server (upd_db i (fun d => set_rockKeys (delete key (rockKeys d)) d) k1) (rockJob s) m (rockPool s) (next_db s)).
Proof.
  intros Hco Hks Hhot Hfull Hlen Hro Hrk Hl Hm Hz.
  set (k2 := upd_db i (fun d => set_rockKeys (delete key (rockKeys d)) d) k1).
  assert (store_eq k1 k2) as Hse by apply (store_eq_rockKeys i (fun d => delete key (rockKeys d))).
  assert (i < length (dbs k1))%nat as Hi.
  { destruct (decide (i < length (dbs k1))%nat); [done|]. rewrite <- Hrk, get_db_empty in Hl by done. done. }
  assert (∀ cid, occ cid (ks s) = (count cid l + occ cid k2)%nat) as Hocc.
  { intros cid. rewrite <- (occ_ext cid _ _ Hlen Hrk).
    pose proof (occ_upd cid i (fun d => set_rockKeys (delete key (rockKeys d)) d) k1 Hi) as H. simpl in H.
    fold k2 in H. rewrite Hrk, (occ_map_delete cid _ _ _ Hl) in H. lia. }
  split; simpl; try done.
  - by eapply store_eq_ks_ok.
  - by eapply store_eq_hot_ok.
  - apply Hco.
  - intros cid c'. rewrite Hm. destruct (clients s !! cid) as [c|] eqn:Hc; simpl; [|done]. intros [= <-].
    destruct (co_cl _ _ _ Hco cid c Hc) as [H1 H2 H3 H4 H5 H6]. specialize (Hocc cid).
    assert (rockKeyNumber c = 0%nat ↔ c_cmd c = None) as H6' by (apply H6; set_solver).
    split; simpl; try done.
    + lia.
    + unfold sess_ok in *. by rewrite (se_len _ _ Hse), Hlen.
    + intros [Hin (c0 & Hc0 & Hn)]%elem_of_list_to_set%Hz. rewrite Hc in Hc0. injection Hc0 as <-.
      split; [lia|]. intros Hnone. apply H6' in Hnone. rewrite Hn in Hnone. by apply count_zero in Hnone.
    + intros Hni. rewrite <- H6'. split; [|lia]. intros H0.
      destruct (decide (cid ∈ l)) as [Hin|Hin]; [|apply count_zero in Hin; lia].
      exfalso. apply Hni, elem_of_list_to_set, Hz. split; [done|]. exists c. split; [done|]. lia.
  - intros cid. rewrite Hm. destruct (clients s !! cid) as [c|] eqn:Hc; simpl; [done|]. intros _.
    pose proof (co_gone _ _ _ Hco cid Hc). specialize (Hocc cid). lia.
  - intros cid [Hin (c & Hc & _)]%elem_of_list_to_set%Hz. rewrite Hm, Hc. simpl. eauto.
  - intros j key' Hk'. unfold stored_dump. rewrite (se_rocks _ _ Hse), Hro. apply (co_stored _ _ _ Hco).
    unfold k2 in Hk'. rewrite get_db_upd in Hk'. case_decide as Hj; [|by rewrite Hrk in Hk'].
    destruct Hj as [-> _]. simpl in Hk'. rewrite Hrk in Hk'. destruct Hk' as [l' [_ Hl']%lookup_delete_Some]. eauto.
  - by eapply store_eq_hot_full.
  - apply Hco.
Qed.

(** The handler has put the value back and dropped the list of the key; the
    clients [zero] are to be resumed. *)
Lemma clear_spec i key v s a :
  core (PRet i key v) ∅ s → simall (ks s) a → val_current (ks s) i key v →
  ∃ zero s1, (∀ g w, _clearFinishKey cmd_prog g w i key v s = resume_all cmd_prog g w zero s1) ∧ NoDup zero ∧
    core (PFin i key v) (list_to_set zero) s1 ∧ simall (ks s1) a ∧ length (dbs (ks s1)) = length (dbs (ks s)) ∧
    abs_clients s1 = abs_clients s ∧ (work s1 < work s)%nat.
Proof.
  intros Hco Hs Hv. destruct (co_work _ _ _ Hco i key eq_refl) as [l Hl].
  destruct (restore_in_db_total i key v (ks s) (co_hot _ _ _ Hco)) as [k1 Hr].
  destruct (restore_in_db_spec i key v (ks s) k1 Hr (co_ks _ _ _ Hco) (co_hot _ _ _ Hco) Hv)
    as (Hks & Hhot & Hlog & Hro & _ & Hshr & Hex & Hrk & Hlen).
  assert (∀ cid, (count cid l ≤ occ cid (ks s))%nat) as Hle by (intros cid; by eapply occ_lookup).
  destruct (wake_clients_spec l (set_ks k1 s)) as (zero & m & Hw & Hnd & Hm & Hz).
  { intros cid Hin. simpl. specialize (Hle cid).
    destruct (clients s !! cid) as [c|] eqn:Hc.
    - exists c. split; [done|]. by rewrite (cl_num _ _ _ _ (co_cl _ _ _ Hco cid c Hc)).
    - exfalso. rewrite (co_gone _ _ _ Hco cid Hc) in Hle.
      by apply (proj1 (count_zero cid l)); [lia|]. }
  set (s1 := Server (upd_db i (fun d => set_rockKeys (delete key (rockKeys d)) d) k1) (rockJob s) m (rockPool s) (next_db s)).
  exists zero, s1. split; [|split; [done|]].
  { intros g w. unfold _clearFinishKey. rewrite Hr. cbn [mbind res_bind]. cbn [ks set_ks].
    rewrite Hrk, Hl. cbn [mbind res_bind res_of_option]. rewrite Hw. done. }
  assert (hot_full k1) as Hfull by (eapply hot_full_restore; [exact Hr|apply Hco]).
  split; [by apply (finish_core i key v l s k1 zero m)|].
  assert (shrinks (ks s) (ks s1)) as Hsh1.
  { eapply (shrinks_trans _ k1).
    - split; [done|done| |intros j k'; rewrite Hrk; auto]. intros j k' Hd. by apply Hshr in Hd as [? _].
    - apply shrinks_store; [apply (store_eq_rockKeys i (fun d => delete key (rockKeys d)))|].
      intros j k'. simpl. rewrite get_db_upd. case_decide as Hj; [|by left]. destruct Hj as [-> _]. simpl.
      intros [x [_ Hx]%lookup_delete_Some]. eauto. }
  split_and!; [|by apply Hsh1| |].
  - eapply (simall_store k1); [apply (store_eq_rockKeys i (fun d => delete key (rockKeys d)))|].
    intros j. destruct (Hs j) as [H1 H2]. split; [by intros k'; rewrite Hlog|by rewrite Hex].
  - unfold abs_clients. simpl. apply map_eq. intros cid. rewrite !lookup_fmap, Hm. simpl. by destruct (clients s !! cid).
  - unfold work. assert (inputs (clients s1) = inputs (clients s)) as ->.
    { apply inputs_ext. intros cid. simpl. rewrite Hm. simpl. by destruct (clients s !! cid). }
    enough (size (unfinished (ks s1)) < size (unfinished (ks s)))%nat by lia.
    apply (unfinished_finish _ _ i key); [done| |apply elem_of_unfinished; right; eauto].
    unfold finished, s1. simpl. rewrite dict_at_upd_other by done. split.
    + intros Hd. apply Hshr in Hd as [_ Hd]. by apply Hd.
    + rewrite get_db_upd. case_decide as Hj; [simpl; apply lookup_delete_eq|].
      rewrite get_db_empty; [done|]. naive_solver.
Qed.

Lemma handler_spec i key v s a g w :
  core (PRet i key v) ∅ s → cfg_ok g → simall (ks s) a → val_current (ks s) i key v →
  match _rockPipeReadHandler cmd_prog g w s with
  | Ok s' => ∃ ph' a', (ph' = PZero ∨ ∃ i' key', ph' = PWork i' key') ∧ core ph' ∅ s' ∧ simall (ks s') a' ∧
      runs cmd_prog (length (dbs (ks s))) g w (a, abs_clients s) (a', abs_clients s') ∧
      length (dbs (ks s')) = length (dbs (ks s)) ∧ (work s' < work s)%nat
  | Abort _ => ∃ st, runs cmd_prog (length (dbs (ks s))) g w (a, abs_clients s) st ∧
      (astuck (length (dbs (ks s))) g st ∨ room_failed g w st)
  end.
Proof.
  intros Hco Hg Hs Hv. destruct (co_job _ _ _ Hco) as (Hfl & Hj1 & Hj2 & Hj3 & Hj4).
  destruct (clear_spec i key v s a Hco Hs Hv) as (zero & s1 & Hcl & Hnd & Hco1 & Hs1 & Hlen & Habs & HW).
  unfold _rockPipeReadHandler. rewrite Hj1, Hj2, Hj3, Hj4, Hfl. rewrite (proj2 (Z.eqb_neq _ _)) by lia. simpl.
  rewrite Nat2Z.id, Hcl. pose proof (resume_all_spec zero (PFin i key v) s1 a g w Hco1 Hnd Hg Hs1) as H.
  unfold served in H. rewrite Hlen, Habs in H.
  destruct (resume_all cmd_prog g w zero s1) as [s2|m]; simpl; [|exact H].
  destruct H as (ph2 & a2 & [->|[? _]] & Hco2 & Hs2 & Hrtc & Hcm & HW2 & _ & _); [|done].
  assert (length (dbs (ks s2)) = length (dbs (ks s))) as Hl2 by (by rewrite (cm_len _ _ Hcm)).
  destruct (co_job _ _ _ Hco2) as (Hfl1 & Hk1 & Hk2 & Hk3 & Hk4).
  destruct (_hasMoreRockJob s2) as [[i' key']|] eqn:Hmore.
  - apply hasMore_Some in Hmore as [Hi' Hk']. unfold _createNewJob.
    rewrite (proj2 (Nat.ltb_lt _ _) Hi'), Hk2. simpl.
    exists (PWork i' key'), a2. split_and!; try done; [by eauto| |unfold work in *; simpl; lia].
    split; simpl; try apply Hco2; try done. by intros ? ? [= <- <-].
  - exists PZero, a2. split_and!; try done; [by left| |unfold work in *; simpl; lia].
    split; simpl; try apply Hco2; try done. intros _. by apply hasMore_None.
Qed.
End main.
