(* ===== verification/System.v ===== *)
(** * The two threads

    The main thread and the rock thread share the [rockJob] slot and a pipe.  An
    [event] is an atomic piece of work of one of them: the rock thread takes
    a key, reads it from RocksDB, publishes the result and signals the pipe; the
    main thread serves clients, dumps values and handles the signal.  The critical
    sections of rock.c protected by the spin lock are single events; reading
    RocksDB, and the read of the signal byte at the end of the handler, are events
    of their own, so that every interleaving the locks allow is a sequence of
    events.

    [system_refines] is the main result: whatever the interleaving, the clients see
    the replies of the plain server of [Session], and RocksDB is invisible. *)

From S2P Require Import Prelude Util Robj Serdes Pool RocksApi Keyspace KeyspaceInv Prog Cmds Room.
From S2P Require Import RockJob Session CmdLogic Strings Keys Commands Waiting MainThread HotKeys.
From stdpp Require Import list gmap strings relations.
#[local] Open Scope Z_scope.

(** Where the rock thread is in [_haveRockJobThenDoJobInRockThread]. *)
Inductive rock_thread :=
| RT_idle                                        (* about to call _getRockWork *)
| RT_got (dbid : Z) (key : bytes)                (* has a key *)
| RT_read (dbid : Z) (key : bytes) (val : robj)  (* has read its value *)
| RT_signal.                                     (* has published, will write to the pipe *)

Inductive event :=
| EConnect (cid : nat)
| ERecv (g : server_cfg) (w : world) (cid : nat) (reqs : list (list bytes))
| EFree (cid : nat)
| EInitHot
| EDump (i : nat) (key : bytes)
| EPipe (g : server_cfg) (w : world)
| EPipeRead
| ERockTake
| ERockRead (env : srv_env)
| ERockPublish
| ERockSignal.

Section system.
Context {R : RocksDB} {DO : DictOrder}.
Variable cmd_prog : server_cfg → redisCommand → list bytes → prog reply.

Record system := Sys {
  srv : server R;
  rt : rock_thread;
  pipe : nat;               (* bytes in the pipe *)
  in_handler : bool         (* the main thread is about to read a byte *)
}.
Implicit Types σ : system.

Definition set_srv (s : server R) σ : system := Sys s (rt σ) (pipe σ) (in_handler σ).
Definition set_rt (t : rock_thread) σ : system := Sys (srv σ) t (pipe σ) (in_handler σ).

Definition new_client : client := Client (Session 0 false false [] []) None 0 [].

(** [do_event e σ] is [None] when the event cannot happen in [σ]. *)
Definition do_event (e : event) σ : option (res system) :=
  let s := srv σ in
  match e with
  | EConnect cid =>
      if in_handler σ then None
      else match clients s !! cid with
           | Some _ => None
           | None => Some (Ok (set_srv (set_clients (<[cid := new_client]> (clients s)) s) σ))
           end
  | ERecv g w cid reqs =>
      if in_handler σ then None
      else match clients s !! cid with
           | None => None
           | Some c =>
               Some (s ← processInputBuffer cmd_prog g w cid
                           (upd_client cid (set_input (c_input c ++ reqs)) s);
                     mret (set_srv s σ))
           end
  | EFree cid =>
      if in_handler σ then None
      else match clients s !! cid with
           | None => None
           | Some _ => Some (Ok (set_srv (freeClient cid s) σ))
           end
  | EInitHot =>
      (* the lazy start in [dumpValueToRockIfNeeded] *)
      if in_handler σ || alreadyInitHotKeys (ks s) then None
      else Some ('(ret, k) ← startHotKeys (ks s);
                 serverAssert ret "initHotKeys() != 0" ;;
                 mret (set_srv (set_ks k s) σ))
  | EDump i key =>
      (* what [dumpValueToRockIfNeeded] checks before [dumpValToRock] *)
      if in_handler σ then None
      else if bool_decide (key ∈ hotKeys (get_db (ks s) i)) &&
              bool_decide (rockKeys (get_db (ks s) i) !! key = None) then
        match _isValueSuitForDumpRock i key (ks s) with
        | Ok true => Some (k ← dumpValToRock false i key (ks s); mret (set_srv (set_ks k s) σ))
        | _ => None
        end
      else None
  | EPipe g w =>
      if in_handler σ || (pipe σ =? 0)%nat then None
      else Some (s ← _rockPipeReadHandler cmd_prog g w s; mret (Sys s (rt σ) (pipe σ) true))
  | EPipeRead =>
      if in_handler σ then Some (Ok (Sys s (rt σ) (pipe σ - 1) false)) else None
  | ERockTake =>
      match rt σ with
      | RT_idle =>
          match _getRockWork s with
          | Abort m => Some (Abort m)
          | Ok None => None
          | Ok (Some (dbid, key)) => Some (Ok (set_rt (RT_got dbid key) σ))
          end
      | _ => None
      end
  | ERockRead env =>
      match rt σ with
      | RT_got dbid key =>
          Some (serverAssert ((0 <=? dbid) && (dbid <? Z.of_nat (length (dbs (ks s))))) "dbid" ;;
                '(val, k) ← _restore_obj_from_rocksdb env (Z.to_nat dbid) key (ks s);
                mret (Sys (set_ks k s) (RT_read dbid key val) (pipe σ) (in_handler σ)))
      | _ => None
      end
  | ERockPublish =>
      match rt σ with
      | RT_read dbid key val =>
          let j := rockJob s in
          Some (serverAssert (bool_decide (workKey j = Some key ∧ job_dbid j = dbid ∧
                                           returnKey j = None)) "rockJob" ;;
                mret (Sys (set_job (Job dbid None (Some key) (Some val)
                                      (alreadyFinishedByScript j)) s)
                        RT_signal (pipe σ) (in_handler σ)))
      | _ => None
      end
  | ERockSignal =>
      match rt σ with
      | RT_signal => Some (Ok (Sys s RT_idle (S (pipe σ)) (in_handler σ)))
      | _ => None
      end
  end.

(** The events the theorems are about: clocks in range, and no request the check
    functions cannot handle. *)
Definition event_cfg_ok (e : event) : Prop :=
  match e with ERecv g _ _ _ | EPipe g _ => cfg_ok g | _ => True end.
Definition event_reqs_ok σ (e : event) : bool :=
  match e with
  | ERecv _ _ cid reqs =>
      match clients (srv σ) !! cid with
      | Some c => all_safe (c_multi (sess c)) (pend c ++ reqs)
      | None => true
      end
  | _ => true
  end.
Definition event_ok σ (e : event) : Prop := event_cfg_ok e ∧ event_reqs_ok σ e = true.

(** The events of a run that all succeed. *)
Fixpoint run_events (es : list event) σ : option system :=
  match es with
  | [] => Some σ
  | e :: es' =>
      if event_reqs_ok σ e then
        match do_event e σ with Some (Ok σ') => run_events es' σ' | _ => None end
      else None
  end.

Inductive step σ : system → Prop :=
| step_event e σ' : event_ok σ e → do_event e σ = Some (Ok σ') → step σ σ'.

(** Start-up with some databases in memory, no clients, and nothing in RocksDB. *)
Definition initial (dbl : list (gmap bytes robj * gmap bytes Z)) (lru : Z) (a : rapi R) : system :=
  Sys (Server (Keyspace ((fun p => RedisDb (VObj <$> p.1) p.2 ∅ ∅) <$> dbl) false lru a) zeroJob ∅ rockPoolAlloc 0)
    RT_idle 0 false.

Lemma run_events_steps es σ σ' : Forall event_cfg_ok es → run_events es σ = Some σ' → rtc step σ σ'.
Proof.
  intros Hes. revert σ. induction Hes as [|e es He Hes IH]; intros σ; simpl; [intros [= <-]; apply rtc_refl|].
  destruct (event_reqs_ok σ e) eqn:Hr; [|done].
  destruct (do_event e σ) as [[σ1|m]|] eqn:Hd; try done. intros Hrun.
  eapply rtc_l; [by econstructor|]. by apply IH.
Qed.

(** ** The plain server with its clients *)

Definition abs σ : gmap nat (session * list (list bytes)) := abs_clients (srv σ).

(** What happens at the plain server: a client connects, sends requests or is gone, or the next
    request of a client is answered. *)
Inductive action :=
| AConnect (cid : nat)
| ARecv (cid : nat) (reqs : list (list bytes))
| AFree (cid : nat)
| AExec (g : server_cfg) (w : world) (cid : nat) (argv : list bytes).

Inductive astep_sys (dbnum : nat) : action → astate → astate → Prop :=
| as_exec g w t st st' : cfg_ok g → astep cmd_prog dbnum g w t st st' → astep_sys dbnum (AExec g w t.1 t.2) st st'
| as_connect a m cid :
    m !! cid = None → astep_sys dbnum (AConnect cid) (a, m) (a, <[cid := (sess new_client, [])]> m)
| as_recv a m cid x l reqs :
    m !! cid = Some (x, l) → astep_sys dbnum (ARecv cid reqs) (a, m) (a, <[cid := (x, l ++ reqs)]> m)
| as_free a m cid y : m !! cid = Some y → astep_sys dbnum (AFree cid) (a, m) (a, delete cid m).

Inductive atrace (dbnum : nat) : list action → astate → astate → Prop :=
| atrace_nil st : atrace dbnum [] st st
| atrace_cons x l st st1 st2 : astep_sys dbnum x st st1 → atrace dbnum l st1 st2 → atrace dbnum (x :: l) st st2.
Definition asteps dbnum (st st' : astate) : Prop := ∃ l, atrace dbnum l st st'.

Lemma atrace_once n x st st' : astep_sys n x st st' → atrace n [x] st st'.
Proof. by repeat econstructor. Qed.
Lemma atrace_app n l1 l2 st1 st2 st3 : atrace n l1 st1 st2 → atrace n l2 st2 st3 → atrace n (l1 ++ l2) st1 st3.
Proof. induction 1 as [|x l st st1 st2 Hs _ IH]; [done|]. intros H. simpl. econstructor; [done|]. by apply IH. Qed.
Lemma asteps_trans n st1 st2 st3 : asteps n st1 st2 → asteps n st2 st3 → asteps n st1 st3.
Proof. intros [l1 H1] [l2 H2]. exists (l1 ++ l2). by eapply atrace_app. Qed.

(** What an event brings to the plain server: the input from outside, and then the requests that are
    answered with the configuration, the clock and the memory of the event. *)
Definition event_input (e : event) : option action :=
  match e with
  | EConnect cid => Some (AConnect cid)
  | ERecv _ _ cid reqs => Some (ARecv cid reqs)
  | EFree cid => Some (AFree cid)
  | _ => None
  end.
Definition event_world (e : event) : option (server_cfg * world) :=
  match e with ERecv g w _ _ | EPipe g w => Some (g, w) | _ => None end.
Definition explains (e : event) (l : list action) : Prop :=
  ∃ ts : list (nat * list bytes), l = option_list (event_input e) ++
    match event_world e with Some (g, w) => (fun t => AExec g w t.1 t.2) <$> ts | None => [] end.

(** The requests a client has sent since it connected, and those of them that have been answered. *)
Definition received_step (cid : nat) (acc : list (list bytes)) (x : action) : list (list bytes) :=
  match x with
  | AConnect c => if decide (c = cid) then [] else acc
  | ARecv c reqs => if decide (c = cid) then acc ++ reqs else acc
  | _ => acc
  end.
Definition answered_step (cid : nat) (acc : list (list bytes)) (x : action) : list (list bytes) :=
  match x with
  | AConnect c => if decide (c = cid) then [] else acc
  | AExec _ _ c argv => if decide (c = cid) then acc ++ [argv] else acc
  | _ => acc
  end.
Definition received cid (l : list action) : list (list bytes) := foldl (received_step cid) [] l.
Definition answered cid (l : list action) : list (list bytes) := foldl (answered_step cid) [] l.

Lemma astep_sys_account n x st st' cid (r q : list (list bytes)) :
  astep_sys n x st st' → (∀ y l, st.2 !! cid = Some (y, l) → r = q ++ l) →
  ∀ y l, st'.2 !! cid = Some (y, l) → received_step cid r x = answered_step cid q x ++ l.
Proof.
  intros Hs H y l. destruct Hs as [g w t st st' _ Hs|a m c Hc|a m c y1 l1 reqs Hc|a m c y1 Hc]; simpl in *.
  - destruct Hs as [a m c y1 argv rest y' a' Hc _|a m c y1 argv rest Hc _ _]; simpl in *; (case_decide as E;
      [subst c; rewrite lookup_insert_eq; intros [= <- <-]; by rewrite (H _ _ Hc), <- (assoc_L (++))
      |rewrite lookup_insert_ne by done; apply H]).
  - case_decide as E; [subst c; rewrite lookup_insert_eq; by intros [= <- <-]|rewrite lookup_insert_ne by done; apply H].
  - case_decide as E; [subst c|rewrite lookup_insert_ne by done; apply H].
    rewrite lookup_insert_eq. intros [= <- <-]. by rewrite (H _ _ Hc), <- (assoc_L (++)).
  - intros [_ Hl]%lookup_delete_Some. by eapply H.
Qed.
Lemma atrace_account n acts st st' cid : atrace n acts st st' → ∀ r q : list (list bytes),
  (∀ y l, st.2 !! cid = Some (y, l) → r = q ++ l) →
  ∀ y l, st'.2 !! cid = Some (y, l) → foldl (received_step cid) r acts = foldl (answered_step cid) q acts ++ l.
Proof.
  induction 1 as [st|x acts st st1 st2 Hs _ IH]; intros r q H y l Hl; simpl; [by eapply H|].
  eapply IH; [|exact Hl]. by eapply astep_sys_account.
Qed.

Lemma received_explained cid es ls : Forall2 explains es ls → ∀ r : list (list bytes),
  foldl (received_step cid) r (concat ls) = foldl (received_step cid) r (omap event_input es).
Proof.
  assert (∀ g w (ts : list (nat * list bytes)) r, foldl (received_step cid) r ((fun t => AExec g w t.1 t.2) <$> ts) = r) as Hx.
  { intros g w ts. induction ts as [|t ts IH]; intros r; [done|]. csimpl. apply IH. }
  induction 1 as [|e l es ls (ts & ->) _ IH]; intros r; [done|]. csimpl. rewrite !foldl_app.
  assert (foldl (received_step cid) r (option_list (event_input e)) = match event_input e with Some x => received_step cid r x | None => r end) as -> by (by destruct (event_input e)).
  assert (∀ r', foldl (received_step cid) r' (match event_world e with Some (g, w) => (fun t => AExec g w t.1 t.2) <$> ts | None => [] end) = r') as ->.
  { intros r'. destruct (event_world e) as [[g w]|]; [apply Hx|done]. }
  destruct (event_input e) as [x|]; apply IH.
Qed.

(** ** Invariant *)

Context {CS : CommandSpec cmd_prog} {CY : CommandSync cmd_prog} {L : RocksDBLaws R}.

Definition b2n (b : bool) : nat := if b then 1%nat else 0%nat.

(** The job slot, the rock thread and the pipe agree. *)
Definition link (ph : phase) σ : Prop :=
  let k := ks (srv σ) in
  match ph with
  | PZero => rt σ = RT_idle ∧ pipe σ = b2n (in_handler σ)
  | PWork i key =>
      (rt σ = RT_idle ∨ rt σ = RT_got (Z.of_nat i) key ∨
       ∃ v, rt σ = RT_read (Z.of_nat i) key v ∧ val_current k i key v) ∧
      pipe σ = b2n (in_handler σ)
  | PRet i key v =>
      val_current k i key v ∧
      (rt σ = RT_signal ∧ pipe σ = b2n (in_handler σ) ∨
       rt σ = RT_idle ∧ pipe σ = S (b2n (in_handler σ)))
  | PFin _ _ _ => False
  end.

Record sys_inv σ (a : nat → adb) : Prop := {
  si_dbs : (0 < length (dbs (ks (srv σ))))%nat;
  si_sim : simall (ks (srv σ)) a;
  si_job : ∃ ph, core ph ∅ (srv σ) ∧ link ph σ
}.

Lemma core_set_ks ph (s : server R) k' :
  core ph ∅ s → length (dbs k') = length (dbs (ks s)) →
  (∀ j, rockKeys (get_db k' j) = rockKeys (get_db (ks s) j)) → ks_ok k' → hot_ok k' → hot_full k' →
  (∀ i key, is_Some (rockKeys (get_db (ks s) i) !! key) → stored_dump k' i key) →
  core ph ∅ (set_ks k' s).
Proof.
  intros Hco Hl Hr Hks Hhot Hfull Hst.
  assert (∀ cid, occ cid k' = occ cid (ks s)) as Hocc by (intros; by apply occ_ext).
  split; simpl; try done; try apply Hco.
  - intros Hp j. rewrite Hr. by apply Hco.
  - intros i key Hp. rewrite Hr. by apply Hco.
  - intros cid c Hc. destruct (co_cl _ _ _ Hco cid c Hc) as [H1 H2 H3 H4 H5 H6].
    split; try done; [by rewrite Hocc|]. unfold sess_ok in *. by rewrite Hl.
  - intros cid. rewrite Hocc. apply Hco.
  - intros i key. rewrite Hr. apply Hst.
Qed.

(** Moving values in or out of RocksDB keeps what is read for other keys. *)
Lemma val_current_eq (k k' : keyspace R) i key v :
  (dict_at k' i key = Some InRock → dict_at k i key = Some InRock) → logical k' i key = logical k i key →
  val_current k i key v → val_current k' i key v.
Proof. intros Hd Hl H H'. rewrite Hl. by apply H, Hd. Qed.

Lemma link_ks ph σ k' :
  link ph σ → (∀ i key v, is_Some (rockKeys (get_db (ks (srv σ)) i) !! key) →
     val_current (ks (srv σ)) i key v → val_current k' i key v) →
  (∀ i key, phase_key ph = Some (i, key) → is_Some (rockKeys (get_db (ks (srv σ)) i) !! key)) →
  link ph (set_srv (set_ks k' (srv σ)) σ).
Proof.
  intros Hl Hv Hw. destruct ph as [|i key|i key v|]; simpl in *; [done| | |done].
  - destruct Hl as [[H|[H|(v & H & Hc)]] Hp]; split; auto. right. right. exists v. split; [done|].
    apply Hv; auto.
  - destruct Hl as (H1 & H2). split; auto.
Qed.

Lemma simall_logical (k k' : keyspace R) a :
  (∀ j key, logical k' j key = logical k j key) →
  (∀ j, expires (get_db k' j) = expires (get_db k j)) → simall k a → simall k' a.
Proof. intros Hl He Hs j. destruct (Hs j) as [H1 H2]. split; [intros; by rewrite Hl|by rewrite He]. Qed.

(** ** Events that the clients do not see *)

Definition quiet σ σ' : Prop :=
  abs σ' = abs σ ∧ length (dbs (ks (srv σ'))) = length (dbs (ks (srv σ))).

Lemma inv_dump σ a i key σ' :
  do_event (EDump i key) σ = Some (Ok σ') → sys_inv σ a → sys_inv σ' a ∧ quiet σ σ'.
Proof.
  simpl. destruct (in_handler σ) eqn:Hh; [done|]. destruct (bool_decide _ && _) eqn:Hb; [|done].
  apply andb_true_iff in Hb as [Hin%bool_decide_eq_true Hnr%bool_decide_eq_true].
  destruct (_isValueSuitForDumpRock i key (ks (srv σ))) as [[]|]; try done.
  destruct (dumpValToRock false i key (ks (srv σ))) as [k'|m] eqn:Hd; simpl; [|done]. intros [= <-].
  intros [Hdb Hs (ph & Hco & Hl)].
  destruct (dumpValToRock_spec _ _ _ _ _ Hd (co_ks _ _ _ Hco) (co_hot _ _ _ Hco))
    as (Hks & Hhot & Hlog & Hdict & Hex & Hrk & Hst & Hlen).
  assert (∀ j k, is_Some (rockKeys (get_db (ks (srv σ)) j) !! k) → (j, k) ≠ (i, key)) as Hne.
  { intros j k [l Hk] [= -> ->]. congruence. }
  split; [|by split]. split; simpl.
  - by rewrite Hlen.
  - by eapply simall_logical.
  - exists ph. split.
    + apply core_set_ks; try done; [eapply hot_full_dump; [exact Hd|apply Hco]|]. intros j k Hk. unfold stored_dump. rewrite Hst by auto.
      by apply (co_stored _ _ _ Hco).
    + apply link_ks; try done; [|apply Hco]. intros j k v Hk. apply val_current_eq; [|done].
      rewrite Hdict, decide_False by auto. done.
Qed.

Lemma inv_init σ a σ' :
  do_event EInitHot σ = Some (Ok σ') → sys_inv σ a → sys_inv σ' a ∧ quiet σ σ'.
Proof.
  simpl. destruct (in_handler σ || alreadyInitHotKeys (ks (srv σ))) eqn:Hh; [done|].
  apply orb_false_iff in Hh as [_ Hf]. intros H [Hdb Hs (ph & Hco & Hl)].
  destruct (startHotKeys_spec _ (co_ks _ _ _ Hco) (co_hot _ _ _ Hco) Hf)
    as (ret & k' & Hst & Hsd & Hex & Hhot & Hfull & Hks & _). rewrite Hst in H. simpl in H.
  destruct ret; [|done]. simpl in H. injection H as <-. split; [|split; [done|by apply Hsd]].
  assert (∀ j key, logical k' j key = logical (ks (srv σ)) j key) as Hlog.
  { intros j key. rewrite (logical_same_data _ _ _ _ Hsd). done. }
  split; simpl.
  - by rewrite (sd_len _ _ Hsd).
  - by eapply simall_logical.
  - exists ph. split.
    + apply core_set_ks; try done.
      * apply Hsd.
      * apply Hsd.
      * intros j k Hk. unfold stored_dump. rewrite (sd_rocks _ _ Hsd). by apply (co_stored _ _ _ Hco).
    + apply link_ks; try done; [|apply Hco]. intros j k v Hk. apply val_current_eq; [|done].
      rewrite (sd_dict _ _ Hsd). done.
Qed.

Lemma inv_take σ a σ' :
  do_event ERockTake σ = Some (Ok σ') → sys_inv σ a → sys_inv σ' a ∧ quiet σ σ'.
Proof.
  simpl. destruct (rt σ) eqn:Hrt; try done. intros H [Hdb Hs (ph & Hco & Hl)].
  destruct (co_job _ _ _ Hco) as [_ Hj]. unfold _getRockWork in H.
  destruct ph as [|i key|i key v|]; [| | |done].
  - destruct Hj as (_ & Hw & Hr). rewrite Hw, Hr in H. done.
  - destruct Hj as (Hd & Hw & Hr). rewrite Hw, Hr in H. simpl in H. rewrite Hd in H. injection H as <-.
    split; [|done]. split; simpl; try done. exists (PWork i key). split; [done|]. simpl.
    destruct Hl as [_ Hp]. auto.
  - destruct Hj as (_ & Hw & Hr & _). rewrite Hw, Hr in H. done.
Qed.

Lemma inv_read σ a env σ' :
  do_event (ERockRead env) σ = Some (Ok σ') → sys_inv σ a → sys_inv σ' a ∧ quiet σ σ'.
Proof.
  simpl. destruct (rt σ) as [|dbid key| |] eqn:Hrt; try done.
  intros H [Hdb Hs (ph & Hco & Hl)]. injection H as H.
  apply bind_Ok in H as ([] & _ & H). apply bind_Ok in H as ([v k'] & Hr & H). injection H as <-.
  destruct ph as [|i key'|i key' v'|]; simpl in Hl;
    [destruct Hl; congruence| |destruct Hl as (_ & [[? _]|[? _]]); congruence|done].
  destruct Hl as [[?|[Heq|(w & ? & _)]] Hp]; [congruence| |congruence]. rewrite Hrt in Heq. injection Heq as -> ->.
  rewrite Nat2Z.id in Hr. unfold _restore_obj_from_rocksdb in Hr.
  apply bind_Ok in Hr as ([o a'] & Hread & Hr). apply bind_Ok in Hr as (b & Hb & Hr).
  apply bind_Ok in Hr as (v1 & Hdes & Hr). injection Hr as <- <-. apply res_of_option_Ok in Hb. subst o.
  apply rocksdbapi_read_spec in Hread as (Hst0 & Hst & Hrapi).
  pose proof (co_work _ _ _ Hco i key' eq_refl) as Hwait.
  destruct (co_stored _ _ _ Hco i key' Hwait) as (_ & o & b' & Hb' & Hdump).
  assert (b' = b) as -> by congruence.
  rewrite (desObject_dump env o b Hdump) in Hdes. injection Hdes as <-. destruct Hdump as [Hwf Hser].
  set (k' := set_rocks a' (ks (srv σ))).
  assert (∀ j k, dict_at k' j k = dict_at (ks (srv σ)) j k) as Hdict by done.
  assert (∀ j k, logical k' j k = logical (ks (srv σ)) j k) as Hlog.
  { intros j k. unfold logical. rewrite Hdict. simpl. by rewrite Hst. }
  assert (ks_ok k') as Hks.
  { destruct (co_ks _ _ _ Hco) as [H1 H2 H3 H4]. split; simpl; try done; [by apply Hrapi|].
    intros j k. rewrite Hst. apply H3. }
  assert (hot_ok k') as Hhot by (by destruct (co_hot _ _ _ Hco)).
  split; [|done]. split; simpl; [done|by eapply simall_logical|].
  exists (PWork i key'). split.
  - apply core_set_ks; try done; [eapply hot_full_same; [..|apply Hco]; done|]. intros j k Hk. unfold stored_dump. simpl. rewrite Hst.
    by apply (co_stored _ _ _ Hco).
  - simpl. split; [|done]. right. right. exists (restored env o). split; [done|].
    intros Hd. split_and!.
    + unfold logical. rewrite Hd. simpl. rewrite Hst, Hb'. simpl. by apply decode_dump.
    + by apply val_ok_restored.
    + by apply wf_robj_not_stream in Hwf.
Qed.

Lemma inv_publish σ a σ' :
  do_event ERockPublish σ = Some (Ok σ') → sys_inv σ a → sys_inv σ' a ∧ quiet σ σ'.
Proof.
  simpl. destruct (rt σ) as [| |dbid key v|] eqn:Hrt; try done. intros H [Hdb Hs (ph & Hco & Hl)].
  injection H as H. apply bind_Ok in H as ([] & _ & H). injection H as <-.
  destruct ph as [|i key'|i key' v'|]; simpl in Hl;
    [destruct Hl; congruence| |destruct Hl as (_ & [[? _]|[? _]]); congruence|done].
  destruct Hl as [[?|[?|(w & Heq & Hv)]] Hp]; [congruence|congruence|]. rewrite Hrt in Heq. injection Heq as -> -> ->.
  destruct (co_job _ _ _ Hco) as [Hfl Hj]. split; [|done]. split; simpl; [done|done|].
  exists (PRet i key' w). split.
  - split; simpl; try apply Hco; try done.
  - simpl. split; [done|by left].
Qed.

Lemma inv_signal σ a σ' :
  do_event ERockSignal σ = Some (Ok σ') → sys_inv σ a → sys_inv σ' a ∧ quiet σ σ'.
Proof.
  simpl. destruct (rt σ) eqn:Hrt; try done. intros [= <-] [Hdb Hs (ph & Hco & Hl)].
  split; [|done]. split; simpl; try done. exists ph. split; [done|].
  destruct ph as [|i key|i key v|]; simpl in *; [| | |done].
  - destruct Hl; congruence.
  - destruct Hl as [[?|[?|(w & ? & _)]] _]; congruence.
  - destruct Hl as (H1 & [[_ ->]|[? _]]); [|congruence]. split; auto.
Qed.

Lemma inv_pipe_read σ a σ' :
  do_event EPipeRead σ = Some (Ok σ') → sys_inv σ a → sys_inv σ' a ∧ quiet σ σ'.
Proof.
  simpl. destruct (in_handler σ) eqn:Hh; [|done]. intros [= <-] [Hdb Hs (ph & Hco & Hl)].
  split; [|done]. split; simpl; try done. exists ph. split; [done|].
  destruct ph as [|i key|i key v|]; simpl in *; [| | |done]; rewrite Hh in Hl; simpl in Hl.
  - destruct Hl as [? ->]. auto.
  - destruct Hl as [? ->]. auto.
  - destruct Hl as (H1 & [[? ->]|[? ->]]); split; auto.
Qed.

(** ** Events of the clients *)

Lemma link_served ph ph' σ s' :
  core ph ∅ (srv σ) → link ph σ → phase_le ph ph' → calm (ks (srv σ)) (ks s') → link ph' (set_srv s' σ).
Proof.
  intros Hco Hl [->|[-> (i & key & ->)]] Hsh.
  - destruct ph as [|i key|i key v|]; simpl in *; [done| | |done]; pose proof (co_work _ _ _ Hco i key eq_refl) as Hw.
    + destruct Hl as [[H|[H|(v & H & Hc)]] Hp]; split; auto. right. right. exists v.
      split; [done|]. by apply Hsh.
    + destruct Hl as [H1 H2]. split; [|done]. by apply Hsh.
  - simpl in *. destruct Hl as [H1 H2]. auto.
Qed.

Lemma atrace_executes n g w st st' :
  cfg_ok g → runs cmd_prog n g w st st' → ∃ ts : list (nat * list bytes), atrace n ((fun t => AExec g w t.1 t.2) <$> ts) st st'.
Proof.
  intros Hg [ts H]. exists ts. induction H as [|t l st st1 st2 Hs _ IH]; csimpl; [constructor|].
  econstructor; [by apply as_exec|done].
Qed.

(** What an event does to the plain server. *)
Definition event_spec σ (a : nat → adb) (e : event) (r : res system) : Prop :=
  let n := length (dbs (ks (srv σ))) in
  match r with
  | Ok σ' => ∃ a' l, sys_inv σ' a' ∧ length (dbs (ks (srv σ'))) = n ∧ explains e l ∧ atrace n l (a, abs σ) (a', abs σ')
  | Abort _ => ∃ g w st, event_world e = Some (g, w) ∧ asteps n (a, abs σ) st ∧ (astuck cmd_prog n g st ∨ room_failed g w st)
  end.

Lemma inv_recv σ a g w cid reqs r :
  do_event (ERecv g w cid reqs) σ = Some r → event_ok σ (ERecv g w cid reqs) → sys_inv σ a → event_spec σ a (ERecv g w cid reqs) r.
Proof.
  simpl. destruct (in_handler σ) eqn:Hh; [done|]. destruct (clients (srv σ) !! cid) as [c|] eqn:Hc; [|done].
  intros [= <-] [Hg Hsafe] [Hdb Hs (ph & Hco & Hl)]. simpl in Hg, Hsafe. rewrite Hc in Hsafe. set (c' := set_input (c_input c ++ reqs) c).
  assert (pend c' = pend c ++ reqs) as Hp by (unfold pend; simpl; by destruct (c_cmd c)).
  rewrite (alter_client _ _ _ _ Hc). fold c'. set (s1 := set_clients _ _).
  assert (core ph ∅ s1) as Hco1.
  { apply (core_replace ph ∅ ∅ _ cid c c' Hco Hc); [|done].
    destruct (co_cl _ _ _ Hco cid c Hc) as [H1 H2 H3 H4 H5 H6]. split; try done.
    change (sess c') with (sess c). by rewrite Hp. }
  assert (astep_sys (length (dbs (ks (srv σ)))) (ARecv cid reqs) (a, abs σ) (a, abs_clients s1)) as Hst.
  { unfold s1. rewrite abs_clients_replace, Hp.
    apply (as_recv _ a _ cid (sess c) (pend c) reqs). by apply abs_clients_lookup. }
  assert (clients s1 !! cid = Some c') as Hc' by (apply lookup_insert_eq).
  unfold processInputBuffer. rewrite (get_client_eq _ _ _ Hc'). cbn [mbind res_bind].
  pose proof (processInput_spec cmd_prog (length (c_input c')) ph ∅ s1 a g w cid Hco1 Hg Hs
    ltac:(set_solver) ltac:(eauto)) as H.
  destruct (processInput cmd_prog (length (c_input c')) g w cid s1) as [s'|m]; cbn [mbind res_bind].
  - destruct H as (ph' & a' & Hle & Hco' & Hs' & Hrtc & Hsh & _).
    pose proof (cm_len _ _ Hsh) as Hlen. destruct (atrace_executes _ _ _ _ _ Hg Hrtc) as [ts Hts].
    eexists a', (ARecv cid reqs :: ((fun t => AExec g w t.1 t.2) <$> ts)). split_and!.
    + split; simpl; [by rewrite Hlen|done|]. exists ph'. split; [done|]. by eapply link_served.
    + done.
    + by exists ts.
    + by econstructor.
  - destruct H as (st & Hrtc & Hstuck). destruct (atrace_executes _ _ _ _ _ Hg Hrtc) as [ts Hts].
    exists g, w, st. split_and!; [done| |done]. eexists. by econstructor.
Qed.

Lemma inv_pipe σ a g w r :
  do_event (EPipe g w) σ = Some r → event_ok σ (EPipe g w) → sys_inv σ a → event_spec σ a (EPipe g w) r.
Proof.
  simpl. destruct (in_handler σ || (pipe σ =? 0)%nat) eqn:Hh; [done|].
  apply orb_false_iff in Hh as [Hh Hp%Nat.eqb_neq]. intros [= <-] [Hg _] [Hdb Hs (ph & Hco & Hl)].
  destruct ph as [|i key|i key v|]; simpl in Hl; rewrite ?Hh in Hl; simpl in Hl; [| | |done].
  { destruct Hl; congruence. } { destruct Hl; congruence. }
  destruct Hl as [Hv [[_ ?]|[Hrt Hpipe]]]; [congruence|].
  pose proof (handler_spec cmd_prog i key v (srv σ) a g w Hco Hg Hs Hv) as H.
  destruct (_rockPipeReadHandler cmd_prog g w (srv σ)) as [s'|m]; cbn [mbind res_bind].
  - destruct H as (ph' & a' & Hph & Hco' & Hs' & Hrtc & Hlen & _).
    destruct (atrace_executes _ _ _ _ _ Hg Hrtc) as [ts Hts]. exists a', ((fun t => AExec g w t.1 t.2) <$> ts). split_and!.
    + split; simpl; [by rewrite Hlen|done|]. exists ph'. split; [done|].
      destruct Hph as [->|(i' & key' & ->)]; simpl; auto.
    + apply Hlen.
    + by exists ts.
    + done.
  - destruct H as (st & Hrtc & Hstuck). destruct (atrace_executes _ _ _ _ _ Hg Hrtc) as [ts Hts].
    exists g, w, st. split_and!; [done|by eexists|done].
Qed.

Lemma inv_connect σ a cid σ' :
  do_event (EConnect cid) σ = Some (Ok σ') → sys_inv σ a →
  sys_inv σ' a ∧ ks (srv σ') = ks (srv σ) ∧
  astep_sys (length (dbs (ks (srv σ)))) (AConnect cid) (a, abs σ) (a, abs σ').
Proof.
  simpl. destruct (in_handler σ) eqn:Hh; [done|]. destruct (clients (srv σ) !! cid) as [c|] eqn:Hc; [done|].
  intros [= <-] [Hdb Hs (ph & Hco & Hl)]. split_and!; [|done|].
  - split; simpl; try done. exists ph. split; [|done]. split; simpl; try apply Hco.
    + intros cid' c'. destruct (decide (cid' = cid)) as [->|Hne].
      * rewrite lookup_insert_eq. intros [= <-]. split; simpl; try done.
        symmetry. by apply (co_gone _ _ _ Hco).
      * rewrite lookup_insert_ne by done. apply Hco.
    + intros cid'. destruct (decide (cid' = cid)) as [->|Hne]; [by rewrite lookup_insert_eq|].
      rewrite lookup_insert_ne by done. apply Hco.
    + set_solver.
  - unfold abs, abs_clients. simpl. rewrite fmap_insert. apply as_connect. by rewrite lookup_fmap, Hc.
Qed.

Lemma get_db_release cid (k : keyspace R) i :
  get_db (releaseRockKeyWhenFreeClient cid k) i
  = set_rockKeys (filter (fun x => x ≠ cid) <$> rockKeys (get_db k i)) (get_db k i).
Proof. unfold get_db. simpl. rewrite list_lookup_fmap. by destruct (dbs k !! i). Qed.

Lemma store_eq_release cid (k : keyspace R) : store_eq k (releaseRockKeyWhenFreeClient cid k).
Proof.
  split; try done; unfold dict_at; intros; rewrite ?get_db_release; try done. simpl. by rewrite length_fmap.
Qed.

Lemma inv_free σ a cid σ' :
  do_event (EFree cid) σ = Some (Ok σ') → sys_inv σ a →
  sys_inv σ' a ∧ length (dbs (ks (srv σ'))) = length (dbs (ks (srv σ))) ∧
  astep_sys (length (dbs (ks (srv σ)))) (AFree cid) (a, abs σ) (a, abs σ').
Proof.
  simpl. destruct (in_handler σ) eqn:Hh; [done|]. destruct (clients (srv σ) !! cid) as [c|] eqn:Hc; [|done].
  intros [= <-] [Hdb Hs (ph & Hco & Hl)]. set (k := ks (srv σ)) in *.
  pose proof (store_eq_release cid k) as Hse.
  assert (∀ j key, is_Some (rockKeys (get_db (releaseRockKeyWhenFreeClient cid k) j) !! key) ↔
                   is_Some (rockKeys (get_db k j) !! key)) as Hrk.
  { intros j key. rewrite get_db_release. simpl. rewrite lookup_fmap. apply fmap_is_Some. }
  split_and!.
  - split; [change (0 < length (dbs (releaseRockKeyWhenFreeClient cid k)))%nat; by rewrite (se_len _ _ Hse)
           |by eapply simall_store|].
    exists ph. split; [split; simpl; try apply Hco|].
    + eapply store_eq_ks_ok; [done|apply Hco].
    + eapply store_eq_hot_ok; [done|apply Hco].
    + intros Hp j. fold k. rewrite get_db_release. simpl. rewrite (co_zero _ _ _ Hco Hp). apply fmap_empty.
    + intros i key Hp. apply Hrk. by apply (co_work _ _ _ Hco).
    + intros cid' c' [Hne Hc']%lookup_delete_Some. destruct (co_cl _ _ _ Hco _ _ Hc') as [H1 H2 H3 H4 H5 H6].
      split; try done.
      * fold k. rewrite occ_release, decide_False by done. done.
      * unfold sess_ok in *. fold k. by rewrite (se_len _ _ Hse).
    + intros cid'. fold k. rewrite occ_release. case_decide as Hd; [done|].
      rewrite lookup_delete_ne by done. apply Hco.
    + set_solver.
    + intros i key Hk. unfold stored_dump. fold k. rewrite (se_rocks _ _ Hse). apply (co_stored _ _ _ Hco).
      by apply Hrk.
    + eapply store_eq_hot_full; [done|apply Hco].
    + apply (link_served ph ph); [done|done|by left|]. apply calm_shrinks; [|by intros j key ?%Hrk].
      apply shrinks_store; [done|]. intros j key ?%Hrk. by left.
  - apply Hse.
  - unfold abs, abs_clients. simpl. rewrite fmap_delete. eapply as_free. by rewrite lookup_fmap, Hc.
Qed.

(** ** All events *)

Lemma inv_event σ a e σ' :
  event_ok σ e → do_event e σ = Some (Ok σ') → sys_inv σ a → event_spec σ a e (Ok σ').
Proof.
  intros Hok He Hi.
  assert (event_world e = None → event_input e = None → sys_inv σ' a ∧ quiet σ σ' → event_spec σ a e (Ok σ')) as Hsilent.
  { intros Hw Hin [H1 [H2 H3]]. exists a, []. split_and!; [done|done| |rewrite H2; constructor]. exists []. by rewrite Hin, Hw. }
  destruct e.
  - destruct (inv_connect _ _ _ _ He Hi) as (H1 & H2 & H3). exists a, [AConnect cid].
    split_and!; [done|by rewrite H2|by exists []|by apply atrace_once].
  - apply (inv_recv _ _ _ _ _ _ _ He Hok Hi).
  - destruct (inv_free _ _ _ _ He Hi) as (H1 & H2 & H3). exists a, [AFree cid].
    split_and!; [done|done|by exists []|by apply atrace_once].
  - by eapply Hsilent, inv_init.
  - by eapply Hsilent, inv_dump.
  - apply (inv_pipe _ _ _ _ _ He Hok Hi).
  - by eapply Hsilent, inv_pipe_read.
  - by eapply Hsilent, inv_take.
  - by eapply Hsilent, inv_read.
  - by eapply Hsilent, inv_publish.
  - by eapply Hsilent, inv_signal.
Qed.

(** ** From the start *)

(** The databases of the plain server with the same data. *)
Definition initial_adb (dbl : list (gmap bytes robj * gmap bytes Z)) (i : nat) : adb :=
  match dbl !! i with Some p => Adb (content_of <$> p.1) p.2 | None => Adb ∅ ∅ end.

Record initial_ok (dbl : list (gmap bytes robj * gmap bytes Z)) (lru : Z) (a : rapi R) : Prop := {
  in_dbs : (0 < length dbl)%nat;
  in_rapi : rapi_ok (length dbl) a;
  in_lru : lru_ok lru;
  in_val i p key o : dbl !! i = Some p → p.1 !! key = Some o → val_ok o;
  in_exp i p key : dbl !! i = Some p → is_Some (p.2 !! key) → is_Some (p.1 !! key)
}.

Lemma initial_dict dbl lru a i key :
  dict_at (ks (srv (initial dbl lru a))) i key = VObj <$> (dbl !! i ≫= fun p => p.1 !! key).
Proof.
  unfold dict_at, get_db. simpl. rewrite list_lookup_fmap. destruct (dbl !! i) as [p|]; simpl.
  - by rewrite lookup_fmap.
  - by rewrite lookup_empty.
Qed.

Lemma initial_field {A : Type} (f : redisDb → A) x dbl lru a i :
  (∀ d e, f (RedisDb d e ∅ ∅) = x) → f (get_db (ks (srv (initial dbl lru a))) i) = x.
Proof. intros H. unfold get_db. simpl. rewrite list_lookup_fmap. destruct (dbl !! i); apply H. Qed.

Lemma initial_inv dbl lru a :
  initial_ok dbl lru a → sys_inv (initial dbl lru a) (initial_adb dbl).
Proof.
  intros [H1 H2 H3 H4 _]. set (k := ks (srv (initial dbl lru a))).
  assert (∀ j, rockKeys (get_db k j) = ∅) as Hrk by (intros j; by apply (initial_field rockKeys)).
  assert (∀ j, hotKeys (get_db k j) = ∅) as Hhk by (intros j; by apply (initial_field hotKeys)).
  assert (∀ j key, dict_at k j key ≠ Some InRock) as Hnr.
  { intros j key. unfold k. rewrite initial_dict. by destruct (dbl !! j ≫= _). }
  assert (length (dbs k) = length dbl) as Hlen by apply length_fmap.
  split.
  - fold k. by rewrite Hlen.
  - intros j. split.
    + intros key. fold k. unfold logical, k. rewrite initial_dict. unfold initial_adb.
      destruct (dbl !! j) as [p|]; simpl; [|by rewrite lookup_empty].
      rewrite lookup_fmap. by destruct (p.1 !! key).
    + unfold get_db, initial_adb. simpl. rewrite list_lookup_fmap. by destruct (dbl !! j).
  - exists PZero. split; [|done]. split; try done.
    + split; fold k; [by rewrite Hlen|done|by intros ? ? ?%Hnr|].
      intros i key o. unfold k. rewrite initial_dict. destruct (dbl !! i) as [p|] eqn:Hp; simpl; [|done].
      destruct (p.1 !! key) as [o'|] eqn:Ho; simpl; [|done]. intros [= <-]. by eapply H4.
    + split; fold k; [by intros _|intros i key; rewrite Hhk; set_solver|by intros ? ? ?%Hnr].
    + intros cid _. fold k. rewrite occ_get_db. induction (seq 0 _) as [|j l IH]; [done|].
      csimpl. by rewrite Hrk, IH.
    + intros i key. fold k. rewrite Hrk, lookup_empty. by intros [? ?].
    + apply rockPoolAlloc_ok.
Qed.

Lemma inv_steps σ a σ' :
  rtc step σ σ' → sys_inv σ a →
  ∃ a', sys_inv σ' a' ∧ length (dbs (ks (srv σ'))) = length (dbs (ks (srv σ))) ∧
    asteps (length (dbs (ks (srv σ)))) (a, abs σ) (a', abs σ').
Proof.
  intros H. revert a. induction H as [σ|σ σ1 σ' [e σ1' Hok He] Hst IH]; intros a Hi.
  - exists a. split_and!; [done|done|exists []; constructor].
  - destruct (inv_event _ _ _ _ Hok He Hi) as (a1 & l & Hi1 & Hl1 & _ & Hr1).
    destruct (IH a1 Hi1) as (a' & Hi' & Hl' & Hr'). exists a'. split_and!; [done|congruence|].
    rewrite Hl1 in Hr'. eapply asteps_trans; [by exists l|done].
Qed.

Lemma inv_run es : Forall event_cfg_ok es → ∀ σ a σ', run_events es σ = Some σ' → sys_inv σ a →
  ∃ a' ls, sys_inv σ' a' ∧ Forall2 explains es ls ∧ atrace (length (dbs (ks (srv σ)))) (concat ls) (a, abs σ) (a', abs σ').
Proof.
  induction 1 as [|e es He Hes IH]; intros σ a σ' Hr Hi; simpl in Hr.
  - injection Hr as <-. exists a, []. split_and!; [done|done|constructor].
  - destruct (event_reqs_ok σ e) eqn:Hq; [|done]. destruct (do_event e σ) as [[σ1|m]|] eqn:Hd; try done.
    destruct (inv_event _ _ _ _ (conj He Hq) Hd Hi) as (a1 & l & Hi1 & Hl1 & Hx & Ht).
    destruct (IH _ _ _ Hr Hi1) as (a' & ls & Hi' & Hxs & Hts). exists a', (l :: ls). split_and!; [done|by constructor|].
    simpl. eapply atrace_app; [done|]. by rewrite Hl1 in Hts.
Qed.


(** ** No assertion fails *)

Section total.
Context {CT : CommandTotal cmd_prog}.

Definition adbs_ok (d : nat → adb) : Prop := ∀ j, adb_ok (d j).

(** A call on well-formed databases succeeds and leaves them well formed. *)
Definition goes_on (r : option (session * (nat → adb))) : Prop :=
  ∃ x' d', r = Some (x', d') ∧ adbs_ok d'.

Lemma acall_plain_total dbnum g r x d :
  wf_env (cfg_env g) → adbs_ok d → goes_on (acall_plain cmd_prog dbnum g r x d).
Proof.
  intros Hg Hd. unfold acall_plain, goes_on. destruct (is_cmd "select" r).
  - destruct (r.2 !! 1%nat ≫= string2ll); [destruct ((z <? 0) || _)|]; eauto.
  - destruct (cmd_prog_total g r (d (c_db x)) Hg (Hd _)) as (y & d' & -> & Hd'). simpl.
    eexists _, _. split; [done|]. intros j. unfold aupd. by case_decide.
Qed.
Lemma aexec_queue_total dbnum g q x d :
  wf_env (cfg_env g) → adbs_ok d → goes_on (aexec_queue cmd_prog dbnum g q x d).
Proof.
  intros Hg. revert x d. induction q as [|r q IH]; intros x d Hd; simpl; [unfold goes_on; eauto|].
  destruct (acall_plain_total dbnum g r x d Hg Hd) as (x1 & d1 & -> & Hd1). simpl. by apply IH.
Qed.
Lemma aprocess_total dbnum g argv x d :
  wf_env (cfg_env g) → adbs_ok d → goes_on (aprocess cmd_prog dbnum g argv x d).
Proof.
  intros Hg Hd. unfold aprocess, goes_on. destruct argv as [|w argv]; [eauto|].
  destruct (dispatch_request x (w :: argv)) as [f|r]; [eauto|]. unfold acall_session.
  destruct (is_cmd "multi" r); [destruct (c_multi x); eauto|].
  destruct (is_cmd "discard" r); [destruct (c_multi x); simpl; eauto|].
  destruct (is_cmd "exec" r); [|by apply acall_plain_total].
  destruct (c_multi x); simpl; [|eauto]. destruct (c_dirty_exec x); [eauto|].
  destruct (aexec_queue_total dbnum g (c_queue x) (addReply (RArrayLen (length (c_queue x))) x) d Hg Hd)
    as (x1 & d1 & -> & Hd1). simpl. eauto.
Qed.
Lemma astep_sys_ok dbnum x st st' : astep_sys dbnum x st st' → adbs_ok st.1 → adbs_ok st'.1.
Proof.
  intros [g w t st1 st1' [Hg _] [a1 m cid y argv rest y' a' _ Hp|]| | |] Hd; try done. simpl in *.
  destruct (aprocess_total dbnum g argv y a1 Hg Hd) as (x1 & d1 & H1 & H2). rewrite Hp in H1. by injection H1 as <- <-.
Qed.
Lemma asteps_adbs_ok dbnum st st' : asteps dbnum st st' → adbs_ok st.1 → adbs_ok st'.1.
Proof. intros [l H]. induction H as [|x l st st1 st' H _ IH]; [done|]. intros Hd. by eapply IH, astep_sys_ok. Qed.
Lemma not_stuck dbnum g st : cfg_ok g → adbs_ok st.1 → ¬ astuck cmd_prog dbnum g st.
Proof.
  intros [Hg _] Hd (cid & x & argv & rest & _ & H).
  destruct (aprocess_total dbnum g argv x st.1 Hg Hd) as (x1 & d1 & H1 & _). congruence.
Qed.

Lemma initial_adbs_ok dbl lru a : initial_ok dbl lru a → adbs_ok (initial_adb dbl).
Proof.
  intros [_ _ _ Hv He] j. unfold initial_adb. destruct (dbl !! j) as [p|] eqn:Hp; [|by split; [intros ? []|]].
  split; simpl.
  - intros key Hk. rewrite lookup_fmap. apply fmap_is_Some. by eapply He.
  - intros key t enc ptr. rewrite lookup_fmap. destruct (p.1 !! key) as [o|] eqn:Ho; simpl; [|done].
    intros [= <- <- <-]. by destruct (Hv _ _ _ _ Hp Ho).
Qed.

(** Dumps of keys with a name, starts with something to start with, and memory that is made free by
    dumping. *)
Definition event_safe σ (e : event) : Prop :=
  match e with
  | ERecv _ w _ _ | EPipe _ w => ∀ cid n, view_ok (w_room w cid n)
  | EDump _ key => key ≠ []
  | EInitHot => ∃ i key v, dict_at (ks (srv σ)) i key = Some v ∧ hot_candidate v = true
  | _ => True
  end.

(** There is no room to be made on databases with the contents of a state of the plain server: a key has an empty
    name, or no hot key has been recorded yet and no value can be dumped. *)
Definition no_room (dbnum : nat) (w : world) (st0 : astate) : Prop :=
  (∃ cid n, maxmemory_limit (rv_memory (w_room w cid n)) ≠ 0) ∧
  ∃ st (k : keyspace R), asteps dbnum st0 st ∧ simall k st.1 ∧ ¬ room_safe k.

Lemma room_failed_no_room `{!RocksDBReliable R} dbnum g w st0 st :
  (∀ cid n, view_ok (w_room w cid n)) → asteps dbnum st0 st → room_failed (R := R) g w st → no_room dbnum w st0.
Proof.
  intros Hv Hst (k & p & next & cid & n & m & Hks & Hhot & Hfull & Hp & Hs & Hout). split.
  - exists cid, n. intros H0. unfold out_of_memory in Hout. by rewrite H0 in Hout.
  - exists st, k. split_and!; [done|done|]. intros Hsafe.
    destruct (out_of_memory_total (w_room w cid n) (cfg_env g) (DumpState k p next) (Hv _ _) Hks Hhot Hfull Hp Hsafe) as (b & d' & H). congruence.
Qed.

Lemma served_no_crash `{!RocksDBReliable R} σ a e m :
  adbs_ok a → event_ok σ e → event_safe σ e → event_spec σ a e (Abort m) →
  ∃ g w, event_world e = Some (g, w) ∧ no_room (length (dbs (ks (srv σ)))) w (a, abs σ).
Proof.
  intros Hd Hok Hsafe (g & w & st & Hw & Hst & H). exists g, w. split; [done|].
  assert (cfg_ok g ∧ ∀ cid n, view_ok (w_room w cid n)) as [Hg Hv].
  { destruct e; simplify_eq/=; split; [apply Hok|done|apply Hok|done]. }
  destruct H as [H|H]; [|by eapply room_failed_no_room].
  apply not_stuck in H; [done|done|by apply asteps_adbs_ok in Hst].
Qed.

Lemma inv_no_crash `{!RocksDBReliable R} σ a e r :
  sys_inv σ a → adbs_ok a → event_ok σ e → event_safe σ e → do_event e σ = Some r →
  (∃ σ', r = Ok σ') ∨ ∃ g w, event_world e = Some (g, w) ∧ no_room (length (dbs (ks (srv σ)))) w (a, abs σ).
Proof.
  intros Hi Hd Hok Hsafe He. destruct r as [σ'|m]; [eauto|right].
  assert (∀ g w, event_world e = Some (g, w) → event_spec σ a e (Abort m) →
    ∃ g w, event_world e = Some (g, w) ∧ no_room (length (dbs (ks (srv σ)))) w (a, abs σ)) as Hserved by (intros; by eapply served_no_crash).
  destruct e; simpl in He; [exfalso| |exfalso|exfalso|exfalso| |exfalso..].
  - destruct (in_handler σ), (clients (srv σ) !! cid); done.
  - by eapply Hserved, (inv_recv _ _ _ _ _ _ _ He Hok Hi).
  - destruct (in_handler σ), (clients (srv σ) !! cid); done.
  - destruct Hi as [_ _ (ph & Hco & _)]. destruct (in_handler σ || _) eqn:Hh; [done|].
    apply orb_false_iff in Hh as [_ Hf].
    destruct (startHotKeys_spec _ (co_ks _ _ _ Hco) (co_hot _ _ _ Hco) Hf)
      as (ret & k' & Hst & _ & _ & _ & _ & _ & Hret). rewrite Hst in He. apply Hret in Hsafe. by subst ret.
  - destruct Hi as [_ _ (ph & Hco & _)]. destruct (in_handler σ); [done|].
    destruct (bool_decide _ && _) eqn:Hb; [|done].
    apply andb_true_iff in Hb as [Hin%bool_decide_eq_true _].
    destruct (_isValueSuitForDumpRock i key (ks (srv σ))) as [[]|] eqn:Hsuit; try done.
    destruct (dumpValToRock_total _ _ _ (co_ks _ _ _ Hco) (co_hot _ _ _ Hco) Hin Hsafe Hsuit) as [k' Hk].
    by rewrite Hk in He.
  - by eapply Hserved, (inv_pipe _ _ _ _ _ He Hok Hi).
  - by destruct (in_handler σ).
  - destruct Hi as [_ _ (ph & Hco & _)]. destruct (rt σ); try done.
    destruct (co_job _ _ _ Hco) as [_ Hj].
    assert (∃ o, _getRockWork (srv σ) = Ok o) as [o Ho].
    { unfold _getRockWork. rewrite bool_decide_eq_true_2; [simpl; destruct (returnKey _); by eauto|].
      intros [H1 H2]. destruct ph; destruct Hj as (_ & Hw & Hr); congruence. }
    rewrite Ho in He. by destruct o as [[]|].
  - destruct Hi as [_ _ (ph & Hco & Hl)]. destruct (rt σ) as [|dbid key| |] eqn:Hrt; try done.
    destruct ph as [|i key'|i key' v'|]; simpl in Hl;
      [destruct Hl; congruence| |destruct Hl as (_ & [[? _]|[? _]]); congruence|done].
    destruct Hl as [[?|[Heq|(w & ? & _)]] _]; [congruence| |congruence]. rewrite Hrt in Heq. injection Heq as -> ->.
    pose proof (co_work _ _ _ Hco i key' eq_refl) as Hw.
    assert (i < length (dbs (ks (srv σ))))%nat as Hi.
    { destruct (decide (i < length (dbs (ks (srv σ))))%nat); [done|]. rewrite get_db_empty in Hw by done.
      by destruct Hw. }
    rewrite (proj2 (Z.leb_le _ _)), (proj2 (Z.ltb_lt _ _)), Nat2Z.id in He by lia. simpl in He.
    destruct (co_stored _ _ _ Hco i key' Hw) as (Hk & o & b & Hb & Hdump).
    destruct (rocksdbapi_read_total _ i key' _ (ks_rapi _ (co_ks _ _ _ Hco)) Hi Hk) as (a1 & Hr).
    unfold _restore_obj_from_rocksdb in He. rewrite Hr in He. simpl in He. rewrite Hb in He. simpl in He.
    rewrite (desObject_dump env o b Hdump) in He. done.
  - destruct Hi as [_ _ (ph & Hco & Hl)]. destruct (rt σ) as [| |dbid key v|] eqn:Hrt; try done.
    destruct ph as [|i key'|i key' v'|]; simpl in Hl;
      [destruct Hl; congruence| |destruct Hl as (_ & [[? _]|[? _]]); congruence|done].
    destruct Hl as [[?|[?|(w & Heq & Hv)]] Hp]; [congruence|congruence|]. rewrite Hrt in Heq. injection Heq as -> -> ->.
    destruct (co_job _ _ _ Hco) as [_ (Hdb & Hw & Hr)]. rewrite bool_decide_eq_true_2 in He by done. done.
  - by destruct (rt σ).
Qed.

Lemma reachable_ok dbl lru a σ :
  initial_ok dbl lru a → rtc step (initial dbl lru a) σ → ∃ d, sys_inv σ d ∧ adbs_ok d.
Proof.
  intros Hok Hst. destruct (inv_steps _ _ _ Hst (initial_inv _ _ _ Hok)) as (d & Hi & _ & Hr).
  exists d. split; [done|]. apply asteps_adbs_ok in Hr; [done|]. by eapply initial_adbs_ok.
Qed.

Lemma reachable_no_crash `{!RocksDBReliable R} dbl lru a σ e r :
  initial_ok dbl lru a → rtc step (initial dbl lru a) σ → event_ok σ e → event_safe σ e →
  do_event e σ = Some r →
  (∃ σ', r = Ok σ') ∨ ∃ g w, event_world e = Some (g, w) ∧ no_room (length dbl) w (initial_adb dbl, ∅).
Proof.
  intros Hok Hst He Hs Hd. destruct (inv_steps _ _ _ Hst (initial_inv _ _ _ Hok)) as (d & Hi & Hlen & Hr).
  assert (length (dbs (ks (srv (initial dbl lru a)))) = length dbl) as Hl0 by apply length_fmap. rewrite Hl0 in Hlen, Hr.
  assert (adbs_ok d) as Hdb by (apply asteps_adbs_ok in Hr; [done|]; by eapply initial_adbs_ok).
  destruct (inv_no_crash _ _ _ _ Hi Hdb He Hs Hd) as [?|(g & w & Hw & Hlim & st & k & Hst' & Hk)]; [by left|right].
  rewrite Hlen in Hst'. exists g, w. split; [done|]. split; [done|]. exists st, k. split; [|done]. by eapply asteps_trans.
Qed.

End total.
End system.
Arguments system R : clear implicits.

(** ** An example

    A value is dumped to RocksDB; a client asks for it and appends to it. *)

Definition ex_key : bytes := [x61].
Definition ex_db : list (gmap bytes robj * gmap bytes Z) :=
  [({[ ex_key := Robj OBJ_STRING OBJ_ENCODING_RAW 7 1 (PSds [x68; x69]) ]}, ∅)].
Definition ex_cfg : server_cfg := Cfg any_env false false false false false false false 0 0 0.
Definition ex_requests : list (list bytes) :=
  [[String.list_byte_of_string "get"; ex_key]; [String.list_byte_of_string "append"; ex_key; [x21]]].
(** Memory is plenty for all the requests, or short for every one of them. *)
Definition ex_world : world := World (fun _ _ _ => false) (fun _ _ => no_limit).
Definition ex_short : world := World (fun _ _ _ => false) (fun _ _ => short_view).
Definition ex_events : list event :=
  [EConnect 0; EInitHot; EDump 0 ex_key; ERecv ex_cfg ex_world 0 ex_requests;
   ERockTake; ERockRead any_env; ERockPublish; ERockSignal; EPipe ex_cfg ex_world; EPipeRead].
Definition ex_initial : system map_rocksdb := initial ex_db 7 (Rapi [None] [None]).
Definition ex_after (n : nat) : system map_rocksdb :=
  default ex_initial (run_events (commands no_other) (take n ex_events) ex_initial).

Lemma ex_initial_ok : initial_ok (R := map_rocksdb) ex_db 7 (Rapi [None] [None]).
Proof.
  split; [vm_compute; lia|done|done| |].
  - intros [|i] p key o; [|done]. intros [= <-]. cbn [fst]. intros [<- <-]%lookup_singleton_Some. by split; [|by right].
  - intros [|i] p key; [|done]. intros [= <-]. simpl. by intros [].
Qed.

Lemma ex_cfg_ok : cfg_ok ex_cfg.
Proof. split; [|done]. unfold wf_env. vm_compute. intuition congruence. Qed.

Lemma ex_reachable n : (n ≤ 10)%nat → rtc (step (commands no_other)) ex_initial (ex_after n).
Proof.
  intros Hn. apply (run_events_steps (commands no_other) (take n ex_events)).
  - apply Forall_take. pose proof ex_cfg_ok. by repeat (apply Forall_cons; split).
  - assert (forallb (fun n => bool_decide (is_Some (run_events (commands no_other) (take n ex_events) ex_initial)))
      (seq 0 11) = true) as H by (vm_compute; reflexivity).
    pose proof (proj1 (forallb_forall _ _) H n ltac:(apply in_seq; lia)) as [σ Hσ]%bool_decide_eq_true.
    unfold ex_after. by rewrite Hσ.
Qed.

(** The same with short memory: the value is dumped before the command that needs it, which therefore
    waits, and again before the command that follows it. *)
Definition ex_short_events : list event :=
  [EConnect 0; ERecv ex_cfg ex_short 0 ex_requests;
   ERockTake; ERockRead any_env; ERockPublish; ERockSignal; EPipe ex_cfg ex_short; EPipeRead].
Definition ex_short_round : list event := [ERockTake; ERockRead any_env; ERockPublish; ERockSignal; EPipe ex_cfg ex_short; EPipeRead].
Definition ex_short_after (es : list event) : system map_rocksdb := default ex_initial (run_events (commands no_other) es ex_initial).
Definition ex_client (σ : system map_rocksdb) : option (list reply * nat) :=
  (fun c => (c_reply (sess c), rockKeyNumber c)) <$> clients (srv σ) !! 0%nat.
Example ex_short_waits :
  ex_client (ex_short_after (take 2 ex_short_events)) = Some ([], 1%nat) ∧
  ex_client (ex_short_after ex_short_events) = Some ([RBulk [x68; x69]], 1%nat) ∧
  ex_client (ex_short_after (ex_short_events ++ ex_short_round)) = Some ([RBulk [x68; x69]; RInt 3], 0%nat).
Proof. vm_compute. done. Qed.

Lemma ex_short_run : run_events (commands no_other) (ex_short_events ++ ex_short_round) ex_initial
  = Some (ex_short_after (ex_short_events ++ ex_short_round)).
Proof.
  assert (is_Some (run_events (commands no_other) (ex_short_events ++ ex_short_round) ex_initial)) as [σ H].
  { apply (bool_decide_eq_true_1 (is_Some _)). vm_compute. reflexivity. }
  unfold ex_short_after. by rewrite H.
Qed.


(** The reply that had to wait, and the one after it. *)
Example ex_replies :
  (fun x => c_reply x.1) <$> abs (ex_after 10) !! 0%nat = Some [RBulk [x68; x69]; RInt 3].
Proof. vm_compute. reflexivity. Qed.

