(* ===== verification/Dump.v ===== *)
(** * Making room on a running server (src/src/rock_hotkey.c)

    [dumpValueToRockIfNeeded] of [Room], called in any state the server of [System] reaches: from
    the memory step of a command, which the events [ERecv] and [EPipe] contain, or from
    elsewhere (CONFIG SET maxmemory).  Shown: whatever the
    samples are, a call does nothing but the dumps the events
    [EInitHot] and [EDump] of [System] stand for, so that the clients do not notice; it
    ends; it does not stop the server; and where it gives up too early. *)

From S2P Require Import Prelude Util Robj Serdes Pool RocksApi Keyspace KeyspaceInv HotKeys Prog Cmds Room RockJob Session.
From S2P Require Import CmdLogic Strings Keys Commands Waiting MainThread System.
From stdpp Require Import list gmap strings.
#[local] Open Scope Z_scope.

(** ** A call *)

Section whole.
Context {R : RocksDB} {DO : DictOrder} {L : RocksDBLaws R} {SA : Sampling}.
Variable cmd_prog : server_cfg → redisCommand → list bytes → prog reply.
Implicit Types (k : keyspace R) (key : bytes) (d : dump_state R) (σ : system R).

(** The server with other databases. *)
Definition with_ks k σ : system R := set_srv (set_ks k (srv σ)) σ.

Lemma with_ks_id σ : with_ks (ks (srv σ)) σ = σ.
Proof. by destruct σ as [[] ? ? ?]. Qed.

Definition is_dump (e : event) : bool := match e with EDump _ _ | EInitHot => true | _ => false end.

Lemma run_events_app es1 es2 σ σ1 :
  run_events cmd_prog es1 σ = Some σ1 → run_events cmd_prog (es1 ++ es2) σ = run_events cmd_prog es2 σ1.
Proof.
  revert σ. induction es1 as [|e es1 IH]; intros σ H; simpl in *; [by injection H as <-|].
  destruct (event_reqs_ok σ e); [|done]. destruct (do_event cmd_prog e σ) as [[σ2|]|]; try done. by apply IH.
Qed.

Lemma dump_event i key k' σ :
  in_handler σ = false → key ∈ hotKeys (get_db (ks (srv σ)) i) → rockKeys (get_db (ks (srv σ)) i) !! key = None →
  _isValueSuitForDumpRock i key (ks (srv σ)) = Ok true → dumpValToRock false i key (ks (srv σ)) = Ok k' →
  do_event cmd_prog (EDump i key) σ = Some (Ok (with_ks k' σ)).
Proof.
  intros Hh Hk Hr Hs Hd. simpl. rewrite Hh, !bool_decide_eq_true_2 by done. simpl. by rewrite Hs, Hd.
Qed.

Lemma dumps_events l k k' : dumps l k k' → ∀ σ, ks (srv σ) = k → in_handler σ = false →
  run_events cmd_prog ((fun p => EDump p.1 p.2) <$> l) σ = Some (with_ks k' σ).
Proof.
  induction 1 as [k|i key l k k1 k2 Hin Hrk Hsuit Hd _ IH]; intros σ Hk Hh; [rewrite <- Hk, with_ks_id; done|].
  rewrite <- Hk in Hin, Hrk, Hsuit, Hd. pose proof (dump_event i key k1 σ Hh Hin Hrk Hsuit Hd) as He.
  change (match do_event cmd_prog (EDump i key) σ with Some (Ok σ') => run_events cmd_prog ((fun p => EDump p.1 p.2) <$> l) σ' | _ => None end = Some (with_ks k2 σ)).
  rewrite He. by rewrite (IH (with_ks k1 σ)).
Qed.

Context {CS : CommandSpec cmd_prog} {CY : CommandSync cmd_prog}.

(** C12: making room is invisible.  In every state the server reaches, and whatever the samples are,
    [dumpValueToRockIfNeeded] amounts to at most 63 dumps, and possibly the start of
    the hot keys before them, as the events of the server; no client sees
    another value because of it, and the pool stays well formed. *)
Theorem dump_events dbl lru a σ p next fuel env m b d' :
  initial_ok dbl lru a → rtc (step cmd_prog) (initial dbl lru a) σ → in_handler σ = false → pool_ok p →
  dumpValueToRockIfNeeded fuel env m (DumpState (ks (srv σ)) p next) = Ok (b, d') →
  (∃ es, (length es ≤ 64)%nat ∧ Forall (fun e => is_dump e = true) es ∧
     run_events cmd_prog es σ = Some (with_ks (d_ks d') σ)) ∧
  pool_ok (d_pool d') ∧ (∀ i key, logical (d_ks d') i key = logical (ks (srv σ)) i key).
Proof.
  intros Hok Hst Hh Hp H.
  destruct (inv_steps cmd_prog _ _ _ Hst (initial_inv cmd_prog _ _ _ Hok)) as (ad & [_ _ (ph & [Hks Hhot _ _ _ _ _ _ _ Hfull _] & _)] & _).
  destruct (dumpIfNeeded_dumps _ _ _ _ _ _ H Hks Hhot Hfull Hp) as [->|(k1 & l & Hs & Hl & Hd & Hr)]; simpl in *.
  { rewrite with_ks_id. split; [exists []; simpl; split_and!; [lia|done..]|done]. }
  destruct (roomed_started _ _ Hks Hhot Hfull Hs) as (H1 & Hks1 & Hhot1 & Hfull1).
  destruct (dumps_roomed _ _ _ Hd Hks1 Hhot1 Hfull1) as (H2 & _).
  split; [|split; [apply Hr|intros i key; by rewrite (rm_logical _ _ _ H2), (rm_logical _ _ _ H1)]].
  assert (Forall (fun e => is_dump e = true) ((fun p => EDump p.1 p.2) <$> l)) as Hf by (apply Forall_fmap, Forall_forall; done).
  destruct Hs as [[-> _]|[Hi Hs]].
  - exists ((fun p => EDump p.1 p.2) <$> l). rewrite length_fmap. split_and!; [lia|done|by apply (dumps_events _ _ _ Hd)].
  - exists (EInitHot :: ((fun p => EDump p.1 p.2) <$> l)). split_and!; [simpl; rewrite length_fmap; lia|by constructor|].
    cbn [run_events event_reqs_ok do_event]. rewrite Hh, Hi. simpl. rewrite Hs. simpl. by apply (dumps_events _ _ _ Hd (with_ks k1 σ)).
Qed.


End whole.

(** ** Where it gives up, or stops *)

Section stops.
Context {R : RocksDB} {SA : Sampling}.
Implicit Types d : dump_state R.

(** Few hot keys in the first database stop all dumping.  The number of hot keys is compared with [maxHopeHotKeys] after
    each database, not after the last: if the first one has few, the call gives up,
    however many hot keys the others have. *)
Theorem first_db_decides fuel env m d tofree db rest :
  clientsArePaused m = false → _getMmemoryStateWithRock m = Some tofree →
  alreadyInitHotKeys (d_ks d) = true → maxmemory_only_for_rocksdb m = false →
  dbs (d_ks d) = db :: rest → Z.of_nat (size (hotKeys db)) ≤ maxHopeHotKeys m →
  dumpValueToRockIfNeeded fuel env m d = Ok (false, d).
Proof.
  intros Hp Hm Hi Ho Hd Hs. unfold dumpValueToRockIfNeeded. rewrite Hp, Hm, Hi. cbn [mbind res_bind].
  rewrite Ho, Hd. cbn [negb andb few_hot_keys]. rewrite (proj2 (Z.leb_le _ _)) by lia. by destruct d.
Qed.

(** A server with nothing to dump stops when memory is short.  [initHotKeys] returns 0 when all values are shared integers or
    streams, a case its comment describes; its caller asserts that it is not 0. *)
Theorem nothing_to_dump fuel env m d tofree :
  clientsArePaused m = false → _getMmemoryStateWithRock m = Some tofree →
  ks_ok (d_ks d) → hot_ok (d_ks d) → alreadyInitHotKeys (d_ks d) = false →
  (∀ i key v, dict_at (d_ks d) i key = Some v → hot_candidate v = false) →
  dumpValueToRockIfNeeded fuel env m d = Abort "initHotKeys() != 0".
Proof.
  intros Hp Hm Hks Hhot Hi Hno. unfold dumpValueToRockIfNeeded. rewrite Hp, Hm, Hi.
  destruct (startHotKeys_spec _ Hks Hhot Hi) as (ret & k1 & -> & _ & _ & _ & _ & _ & Hret).
  destruct ret; [|done]. destruct (proj1 Hret eq_refl) as (i & key & v & Hd & Hc). by rewrite (Hno i key v Hd) in Hc.
Qed.

End stops.

(** ** Examples *)

Definition ex_dump_result : bool * dump_state map_rocksdb :=
  match dumpValueToRockIfNeeded 2 any_env short_memory (DumpState (ks (srv (ex_after 1))) rockPoolAlloc 0) with
  | Ok r => r
  | Abort _ => (true, DumpState (ks (srv (ex_after 1))) rockPoolAlloc 0)
  end.

(** The hot keys are started and the only value goes to RocksDB; that is not enough. *)
Example ex_dump_happens :
  ex_dump_result.1 = false ∧ dict_at (d_ks ex_dump_result.2) 0 ex_key = Some InRock.
Proof. vm_compute. done. Qed.

Lemma ex_dump_ok :
  dumpValueToRockIfNeeded 2 any_env short_memory (DumpState (ks (srv (ex_after 1))) rockPoolAlloc 0)
  = Ok (ex_dump_result.1, ex_dump_result.2).
Proof.
  assert (is_ok (dumpValueToRockIfNeeded 2 any_env short_memory (DumpState (ks (srv (ex_after 1))) rockPoolAlloc 0)) = true)
    as H by (vm_compute; reflexivity).
  unfold ex_dump_result. by destruct (dumpValueToRockIfNeeded _ _ _ _) as [[]|].
Qed.

Lemma dump_events_witness :
  ∃ es, (length es ≤ 64)%nat ∧ Forall (fun e => is_dump e = true) es ∧
    run_events (commands no_other) es (ex_after 1) = Some (with_ks (d_ks ex_dump_result.2) (ex_after 1)).
Proof.
  apply (dump_events (commands no_other) ex_db 7 (Rapi [None] [None]) (ex_after 1) rockPoolAlloc 0 2 any_env
    short_memory ex_dump_result.1 ex_dump_result.2);
    [exact ex_initial_ok|apply ex_reachable; lia|vm_compute; reflexivity|apply rockPoolAlloc_ok|exact ex_dump_ok].
Defined.



(** Two databases; only the second one has hot keys. *)
Definition two_dbs : keyspace map_rocksdb :=
  Keyspace [empty_db; RedisDb {[ ex_key := VObj (Robj OBJ_STRING OBJ_ENCODING_RAW 7 1 (PSds [x68])) ]} ∅ ∅ {[ ex_key ]}]
    true 7 (Rapi [None; None] [None; None]).
Definition hope_memory : memory := Memory false 100 (2 ^ 20) 0 true false 1000.

Lemma first_db_decides_witness :
  dumpValueToRockIfNeeded 2 any_env hope_memory (DumpState two_dbs rockPoolAlloc 0)
  = Ok (false, DumpState two_dbs rockPoolAlloc 0).
Proof.
  eapply (first_db_decides 2 any_env hope_memory (DumpState two_dbs rockPoolAlloc 0) (2 ^ 24 - 100) empty_db);
    [reflexivity|vm_compute; reflexivity|reflexivity|reflexivity|reflexivity|vm_compute; congruence].
Defined.

(** One shared integer. *)
Definition shared_only : keyspace map_rocksdb :=
  Keyspace [RedisDb {[ ex_key := VObj (shared_integer 1) ]} ∅ ∅ ∅] false 7 (Rapi [None] [None]).

Lemma shared_only_entry i key v : dict_at shared_only i key = Some v → v = VObj (shared_integer 1).
Proof.
  destruct i as [|i]; [|by destruct i]. unfold dict_at. cbn. by intros [_ <-]%lookup_singleton_Some.
Qed.
Lemma nothing_to_dump_witness :
  dumpValueToRockIfNeeded 2 any_env short_memory (DumpState shared_only rockPoolAlloc 0) = Abort "initHotKeys() != 0".
Proof.
  apply (nothing_to_dump 2 any_env short_memory (DumpState shared_only rockPoolAlloc 0) (2 ^ 24 - 100));
    [reflexivity|vm_compute; reflexivity| | |reflexivity|].
  - split; [done|by vm_compute| |].
    + intros i key H%shared_only_entry. done.
    + intros i key o H%shared_only_entry. injection H as ->. split; [by vm_compute|right; by vm_compute].
  - split; [|intros [|[|i]] key H; by apply not_elem_of_empty in H|].
    + intros _ [|i]; [done|by destruct i].
    + intros i key H%shared_only_entry. done.
  - intros i key v ->%shared_only_entry. reflexivity.
Defined.
