(* ===== verification/Liveness.v ===== *)
(** * Waiting ends

    A client that asks for a value in RocksDB waits until the rock thread has read
    it.  Left to itself, without further requests and dumps, the server works off
    its jobs: the [internal] events of the rock thread and of the pipe handler
    cannot go on for ever, and when none of them is possible, no client
    waits.  The bound comes from [work]: the keys that are in RocksDB or waited for, and 63 for every request in a
    buffer.  Every turn of the handler finishes a key; the commands it resumes
    only ever wait for keys in RocksDB, and a request taken from a buffer moves at most 63 more keys there. *)

From S2P Require Import Prelude Util Robj Serdes RocksApi Keyspace KeyspaceInv Prog Cmds Room.
From S2P Require Import RockJob Session CmdLogic Strings Keys Commands Waiting MainThread HotKeys System.
From stdpp Require Import list gmap strings relations.
#[local] Open Scope Z_scope.

Definition internal (e : event) : bool :=
  match e with
  | EPipe _ _ | EPipeRead | ERockTake | ERockRead _ | ERockPublish | ERockSignal => true
  | _ => false
  end.

(** A configuration, and the clock at zero; memory without limit. *)
Definition any_world : world := World (fun _ _ _ => false) (fun _ _ => no_limit).
Definition any_cfg : server_cfg := Cfg any_env false false false false false false false 0 0 0.

Lemma any_cfg_ok : cfg_ok any_cfg.
Proof. split; [|done]. unfold wf_env, any_cfg, any_env. simpl. cbv. intuition congruence. Qed.

Section liveness.
Context {R : RocksDB} {DO : DictOrder}.
Variable cmd_prog : server_cfg → redisCommand → list bytes → prog reply.
Implicit Types (σ : system R) (k : keyspace R) (key : bytes).

Inductive istep σ : system R → Prop :=
| istep_event e σ' :
    internal e = true → event_ok σ e → do_event cmd_prog e σ = Some (Ok σ') → istep σ σ'.

Lemma run_events_isteps es σ σ' :
  Forall (fun e => event_cfg_ok e ∧ internal e = true) es → run_events cmd_prog es σ = Some σ' → rtc istep σ σ'.
Proof.
  intros Hes. revert σ. induction Hes as [|e es [He Hin] Hes IH]; intros σ; simpl; [intros [= <-]; apply rtc_refl|].
  destruct (event_reqs_ok σ e) eqn:Hr; [|done].
  destruct (do_event cmd_prog e σ) as [[σ1|m]|] eqn:Hd; try done. intros Hrun.
  eapply rtc_l; [by econstructor|]. by apply IH.
Qed.

Definition no_waiting σ : Prop :=
  ∀ cid c, clients (srv σ) !! cid = Some c → rockKeyNumber c = 0%nat ∧ c_cmd c = None.

Definition rank σ : nat :=
  b2n (in_handler σ) +
  match rt σ with
  | RT_got _ _ => 4
  | RT_read _ _ _ => 3
  | RT_signal => 2
  | RT_idle => match workKey (rockJob (srv σ)), returnKey (rockJob (srv σ)) with
               | Some _, _ => 5
               | None, Some _ => 1
               | None, None => 0
               end
  end.

Definition work_left σ : nat := 6 * work (srv σ) + rank σ.

Context {CS : CommandSpec cmd_prog} {CY : CommandSync cmd_prog} {L : RocksDBLaws R}.

(** ** Every internal event is progress *)

Lemma internal_progress σ a e σ' :
  sys_inv σ a → internal e = true → event_ok σ e → do_event cmd_prog e σ = Some (Ok σ') →
  (work_left σ' < work_left σ)%nat.
Proof.
  intros [Hdb Hs (ph & Hco & Hl)] Hint Hok He. pose proof (co_job _ _ _ Hco) as [_ Hj]. unfold work_left.
  destruct e; try done; simpl in He.
  - (* EPipe *)
    destruct (in_handler σ || (pipe σ =? 0)%nat) eqn:Hh; [done|].
    apply orb_false_iff in Hh as [Hh Hp%Nat.eqb_neq].
    destruct ph as [|i key|i key v|]; simpl in Hl; rewrite ?Hh in Hl; simpl in Hl; [| | |done].
    { destruct Hl; congruence. } { destruct Hl; congruence. }
    destruct Hl as [Hv [[_ ?]|[Hrt Hpipe]]]; [congruence|].
    pose proof (handler_spec cmd_prog i key v (srv σ) a g w Hco (proj1 Hok) Hs Hv) as H.
    destruct (_rockPipeReadHandler cmd_prog g w (srv σ)) as [s'|m]; simpl in He; [|done].
    injection He as <-. destruct H as (_ & _ & _ & _ & _ & _ & _ & Hlt).
    simpl. assert (∀ b, rank (Sys s' (rt σ) (pipe σ) b) ≤ 6)%nat as Hrank.
    { intros b. unfold rank. simpl. rewrite Hrt.
      destruct b, (workKey (rockJob s')), (returnKey (rockJob s')); simpl; lia. }
    assert (rank σ = 1)%nat as ->; [|specialize (Hrank true); lia].
    destruct Hj as (_ & Hw & Hr & _). unfold rank. by rewrite Hrt, Hh, Hw, Hr.
  - destruct (in_handler σ) eqn:Hh; [|done]. injection He as <-. unfold rank. simpl. rewrite Hh. simpl. lia.
  - destruct (rt σ) eqn:Hrt; try done. destruct ph as [|i key|i key v|]; [| | |done].
    + destruct Hj as (_ & Hw & Hr). unfold _getRockWork in He. rewrite Hw, Hr in He. done.
    + destruct Hj as (Hd & Hw & Hr). unfold _getRockWork in He. rewrite Hw, Hr in He. simpl in He.
      injection He as <-. unfold rank. simpl. rewrite Hrt, Hw. lia.
    + destruct Hj as (_ & Hw & Hr & _). unfold _getRockWork in He. rewrite Hw, Hr in He. done.
  - destruct (rt σ) as [|dbid key| |] eqn:Hrt; try done. injection He as He.
    apply bind_Ok in He as ([] & _ & He). apply bind_Ok in He as ([v k'] & Hr & He). injection He as <-.
    unfold _restore_obj_from_rocksdb in Hr. apply bind_Ok in Hr as ([o a'] & _ & Hr).
    apply bind_Ok in Hr as (b & _ & Hr). apply bind_Ok in Hr as (v1 & _ & Hr). injection Hr as <- <-.
    unfold rank, work. simpl. rewrite Hrt. rewrite (unfinished_ext (ks (srv σ))) by done. lia.
  - destruct (rt σ) as [| |dbid key v|] eqn:Hrt; try done. injection He as He.
    apply bind_Ok in He as ([] & _ & He). injection He as <-. unfold rank, work. simpl. rewrite Hrt. lia.
  - destruct (rt σ) eqn:Hrt; try done. injection He as <-. unfold rank. simpl. rewrite Hrt.
    destruct ph as [|i key|i key v|]; simpl in Hl; [destruct Hl; congruence| | |done].
    + destruct Hl as [[?|[?|(w & ? & _)]] _]; congruence.
    + destruct Hj as (_ & Hw & Hr & _). rewrite Hw, Hr. lia.
Qed.

(** ** Someone can move as long as someone waits *)

(** An event of the two threads that uses no configuration and no memory but those given. *)
Definition moves_with g w σ (e : event) : Prop :=
  internal e = true ∧ event_ok σ e ∧ (event_world e = None ∨ event_world e = Some (g, w)).

Lemma job_can_move g w σ a :
  cfg_ok g → sys_inv σ a → (∃ e r, moves_with g w σ e ∧ do_event cmd_prog e σ = Some r) ∨ no_waiting σ.
Proof.
  unfold moves_with. intros Hg [Hdb Hs (ph & Hco & Hl)]. destruct (in_handler σ) eqn:Hh.
  { left. exists EPipeRead. simpl. rewrite Hh. eexists. split_and!; by auto. }
  destruct (co_job _ _ _ Hco) as [_ Hj]. destruct ph as [|i key|i key v|]; [| | |done].
  - right. intros cid c Hc. destruct (co_cl _ _ _ Hco cid c Hc) as [H1 _ _ _ _ H6].
    assert (occ cid (ks (srv σ)) = 0%nat) as H0.
    { rewrite occ_get_db. induction (seq 0 _) as [|j l IH]; [done|]. csimpl.
      by rewrite (co_zero _ _ _ Hco eq_refl), IH. }
    rewrite H0 in H1. split; [done|]. apply H6; [set_solver|done].
  - left. destruct Hl as [[Hrt|[Hrt|(v & Hrt & _)]] _].
    + exists ERockTake. simpl. rewrite Hrt. destruct Hj as (Hd & Hw & Hr).
      unfold _getRockWork. rewrite Hw, Hr. simpl. eexists. split_and!; by auto.
    + exists (ERockRead any_env). simpl. rewrite Hrt. eexists. split_and!; by auto.
    + exists ERockPublish. simpl. rewrite Hrt. eexists. split_and!; by auto.
  - left. destruct Hl as [_ [[Hrt _]|[_ Hp]]].
    + exists ERockSignal. simpl. rewrite Hrt. eexists. split_and!; by auto.
    + exists (EPipe g w). simpl. rewrite Hh, Hp. simpl. eexists. split_and!; [done|done|by right|done].
Qed.

Lemma istep_step σ σ' : istep σ σ' → step cmd_prog σ σ'.
Proof. intros [e σ1 _ Hok He]. by econstructor. Qed.

Context {CT : CommandTotal cmd_prog} {RR : RocksDBReliable R}.

Lemma istep_inv σ a σ' :
  sys_inv σ a → adbs_ok a → istep σ σ' →
  (∃ a', sys_inv σ' a' ∧ adbs_ok a') ∧ (work_left σ' < work_left σ)%nat.
Proof.
  intros Hi Hd [e σ1 Hint Hok He]. split; [|by eapply internal_progress].
  destruct (inv_event cmd_prog _ _ _ _ Hok He Hi) as (a' & l & ? & _ & _ & Hr). exists a'. split; [done|].
  by apply (asteps_adbs_ok cmd_prog _ _ _ (ex_intro _ l Hr)).
Qed.

Lemma istep_or_done σ a : sys_inv σ a → adbs_ok a → (∃ σ', istep σ σ') ∨ no_waiting σ.
Proof.
  intros Hi Hd. destruct (job_can_move any_cfg any_world σ a any_cfg_ok Hi) as [(e & r & (Hint & Hok & Hw) & He)|?]; [left|by right].
  destruct (inv_no_crash cmd_prog σ a e r Hi Hd Hok) as [[σ' ->]|(g & w & Hw' & (cid & n & Hlim) & _)]; [|done| |].
  - destruct Hw as [Hw|Hw]; destruct e; try done. simpl. injection Hw as -> ->. intros cid n. apply no_limit_ok.
  - exists σ'. by econstructor.
  - exfalso. destruct Hw as [Hw|Hw]; rewrite Hw in Hw'; [done|]. injection Hw' as <- <-. by apply Hlim.
Qed.

Lemma istep_ends σ a : sys_inv σ a → adbs_ok a → ∃ σ', rtc istep σ σ' ∧ no_waiting σ'.
Proof.
  remember (work_left σ) as n eqn:Hn. revert σ a Hn.
  induction n as [n IH] using lt_wf_ind. intros σ a -> Hi Hok.
  destruct (istep_or_done σ a Hi Hok) as [[σ1 Hst]|Hd]; [|by exists σ; split; [apply rtc_refl|]].
  destruct (istep_inv _ _ _ Hi Hok Hst) as [(a1 & Hi1 & Hok1) Hlt].
  destruct (IH _ Hlt σ1 a1 eq_refl Hi1 Hok1) as (σ' & Hr & Hd). exists σ'. split; [|done]. by eapply rtc_l.
Qed.

Lemma istep_bound n σ a σ' : sys_inv σ a → adbs_ok a → nsteps istep n σ σ' → (n ≤ work_left σ)%nat.
Proof.
  intros Hi Hok H. revert a Hi Hok. induction H as [|n σ σ1 σ' Hst _ IH]; intros a Hi Hok; [lia|].
  destruct (istep_inv _ _ _ Hi Hok Hst) as [(a1 & Hi1 & Hok1) Hlt]. specialize (IH a1 Hi1 Hok1). lia.
Qed.

Lemma istep_stuck σ a σ' :
  sys_inv σ a → adbs_ok a → rtc istep σ σ' → (∀ σ'', ¬ istep σ' σ'') → no_waiting σ'.
Proof.
  intros Hi Hok H. revert a Hi Hok. induction H as [σ|σ σ1 σ' Hst _ IH]; intros a Hi Hok Hno.
  - destruct (istep_or_done σ a Hi Hok) as [[σ1 H]|?]; [by apply Hno in H|done].
  - destruct (istep_inv _ _ _ Hi Hok Hst) as [(a1 & Hi1 & Hok1) _]. by eapply IH.
Qed.

End liveness.

