(* ===== verification/RockLua.v ===== *)
(** * Scripts (src/src/rock_lua.c, src/src/scripting.c)

    A script cannot wait: before every command it calls, the keys of that command
    are loaded from RocksDB in the main thread.  When the script ends, the clients
    that were waiting for one of these keys are resumed, and a job the rock thread
    may have for it is marked as finished already.

    Lua itself is not part of the model: a [script] is the tree of the commands it
    calls, each depending on the replies before it.  The conversion of replies to Lua values and back (with the sorting of
    some replies), the ACLs, the cluster and the debugger are left out.  Shown: a script sees the
    data a server without RocksDB would show it; it does not when it runs
    inside MULTI, nor after its first write when single commands are replicated, which is the default;
    and the mark on the job, which is never taken back,
    can make other clients wait for ever. *)

From S2P Require Import Prelude Util Robj Zset Serdes RocksApi Keyspace KeyspaceInv Prog Cmds RockJob Session.
From S2P Require Import CmdLogic Strings Keys Commands Waiting MainThread System Liveness.
From stdpp Require Import list gmap strings.
#[local] Open Scope Z_scope.

Inductive script :=
| SReturn (r : reply)
| SCall (argv : list bytes) (k : reply → script)
| SReplicate (k : bool → script)                   (* redis.replicate_commands() *)
| SSetRepl (flags : Z) (k : bool → script).        (* redis.set_repl(); [false]: an error is raised *)

(** The commands with the flags [CMD_NOSCRIPT], [CMD_WRITE] and [CMD_RANDOM] of [redisCommandTable]. *)
Definition noscript_commands : list string :=
  ["module"; "brpop"; "brpoplpush"; "blpop"; "bzpopmin"; "bzpopmax"; "auth"; "save"; "bgsave"; "bgrewriteaof";
   "shutdown"; "multi"; "exec"; "discard"; "sync"; "psync"; "replconf"; "monitor"; "slaveof"; "replicaof";
   "role"; "debug"; "config"; "subscribe"; "unsubscribe"; "psubscribe"; "punsubscribe"; "watch"; "unwatch";
   "client"; "hello"; "eval"; "evalsha"; "script"; "wait"; "xread"; "xreadgroup"; "latency"; "acl"]%string.
Definition write_commands : list string :=
  ["set"; "setnx"; "setex"; "psetex"; "append"; "del"; "unlink"; "setbit"; "bitfield"; "setrange"; "incr"; "decr";
   "rpush"; "lpush"; "rpushx"; "lpushx"; "linsert"; "rpop"; "lpop"; "brpop"; "brpoplpush"; "blpop"; "lset"; "ltrim";
   "lrem"; "rpoplpush"; "sadd"; "srem"; "smove"; "spop"; "sinterstore"; "sunionstore"; "sdiffstore"; "zadd";
   "zincrby"; "zrem"; "zremrangebyscore"; "zremrangebyrank"; "zremrangebylex"; "zunionstore"; "zinterstore";
   "zpopmin"; "zpopmax"; "bzpopmin"; "bzpopmax"; "hset"; "hsetnx"; "hmset"; "hincrby"; "hincrbyfloat"; "hdel";
   "incrby"; "decrby"; "incrbyfloat"; "getset"; "mset"; "msetnx"; "swapdb"; "move"; "rename"; "renamenx"; "expire";
   "expireat"; "pexpire"; "pexpireat"; "flushdb"; "flushall"; "sort"; "persist"; "restore"; "restore-asking";
   "migrate"; "bitop"; "geoadd"; "georadius"; "georadiusbymember"; "pfadd"; "pfmerge"; "pfdebug"; "xadd";
   "xreadgroup"; "xgroup"; "xsetid"; "xack"; "xclaim"; "xdel"; "xtrim"]%string.
Definition random_commands : list string :=
  ["spop"; "srandmember"; "sscan"; "zscan"; "hgetall"; "hscan"; "randomkey"; "scan"; "lastsave"; "info"; "ttl";
   "pttl"; "pubsub"; "cluster"; "migrate"; "dump"; "object"; "memory"; "client"; "slowlog"; "time"; "command"; "xadd";
   "xack"; "xpending"; "xclaim"; "xinfo"; "xtrim"]%string.
Definition noscript (cmd : redisCommand) : bool := bool_decide (cmd_name cmd ∈ noscript_commands).
Definition is_write (cmd : redisCommand) : bool := bool_decide (cmd_name cmd ∈ write_commands).
Definition is_random (cmd : redisCommand) : bool := bool_decide (cmd_name cmd ∈ random_commands).

(** The fields of [server] that a script changes. *)
Definition PROPAGATE_NONE : Z := 0.
Definition PROPAGATE_AOF : Z := 1.
Definition PROPAGATE_REPL : Z := 2.
Record lua := Lua {
  lua_random_dirty : bool;
  lua_write_dirty : bool;
  lua_replicate_commands : bool;
  lua_multi_emitted : bool;
  lua_repl : Z
}.

(** What a call finds: the random draws of the access counters, whether the server is a read-only replica (and the caller not
    its master), an error of the disk, and whether memory is limited and exceeded on a server without a master. *)
Record lua_view := LuaView {
  lv_draws : nat → bool;
  lv_readonly : bool;
  lv_disk_error : option string;
  lv_oom : bool
}.

(** A key the script has loaded. *)
Abbreviation scriptMaybeKey := (nat * bytes)%type.

(** The command a script asks for, or an error. *)
Definition script_command (argv : list bytes) : request + string :=
  match argv with
  | [] => inr "Please specify at least one argument for redis.call()"
  | name :: _ =>
      match lookupCommand name with
      | None => inr "Unknown Redis command called from Lua script"
      | Some cmd =>
          if negb (arity_ok cmd (Z.of_nat (length argv))) then
            inr "Wrong number of args calling Redis command From Lua script"
          else if noscript cmd then inr "This Redis command is not allowed from scripts"
          else inl (cmd, argv)
      end
  end%string.

(** The reasons not to run a command. *)
Definition script_denied (v : lua_view) (l : lua) (cmd : redisCommand) : option string :=
  if is_write cmd && (lua_random_dirty l && negb (lua_replicate_commands l))
  then Some "Write commands not allowed after non deterministic commands."
  else if is_write cmd && lv_readonly v then Some "READONLY You can't write against a read only replica."
  else match (if is_write cmd then lv_disk_error v else None) with
       | Some e => Some e
       | None =>
           if lv_oom v && negb (lua_write_dirty l) && denyoom cmd
           then Some "OOM command not allowed when used memory > 'maxmemory'." else None
       end%string.

(** [luaRedisGenericCommand] up to the hook: lookup, refusals, the marks of the script, and the mark CLIENT_MULTI of the Lua
    client [x] when a MULTI is propagated for the first write.  [caller] says whether the caller of the script executes a transaction. *)
Definition lua_front (v : lua_view) (caller : bool) (argv : list bytes) (x : session) (l : lua) : (request * session * lua) + string :=
  match script_command argv with
  | inr e => inr e
  | inl r =>
      match script_denied v l r.1 with
      | Some e => inr e
      | None =>
          let rd := lua_random_dirty l || is_random r.1 in
          let wd := lua_write_dirty l || is_write r.1 in
          let emit := lua_replicate_commands l && negb (lua_multi_emitted l) && negb caller && wd &&
                      negb (lua_repl l =? PROPAGATE_NONE) in
          inl (r, set_multi (c_multi x || emit) (c_dirty_exec x) (c_queue x) x,
               Lua rd wd (lua_replicate_commands l) (lua_multi_emitted l || emit) (lua_repl l))
      end
  end.

(** The replies a call has produced are taken out of the buffer of the Lua client. *)
Definition take_reply (x : session) : reply * session :=
  (match c_reply x with [y] => y | l => RMany l end, Session (c_db x) (c_multi x) (c_dirty_exec x) (c_queue x) []).

Definition luaRedisReplicateCommandsCommand (l : lua) : bool * lua :=
  if lua_write_dirty l then (false, l)
  else (true, Lua (lua_random_dirty l) (lua_write_dirty l) true (lua_multi_emitted l) (lua_repl l)).
Definition luaRedisSetReplCommand (flags : Z) (l : lua) : bool * lua :=
  if negb (lua_replicate_commands l) || negb (Z.land flags (Z.lnot (Z.lor PROPAGATE_AOF PROPAGATE_REPL)) =? 0) then (false, l)
  else (true, Lua (lua_random_dirty l) (lua_write_dirty l) (lua_replicate_commands l) (lua_multi_emitted l) flags).

Section lua.
Context {R : RocksDB} {DO : DictOrder}.
Variable cmd_prog : server_cfg → redisCommand → list bytes → prog reply.
Implicit Types (s : server R) (k : keyspace R) (key : bytes).

(** ** Before every call *)

(** The body of the loop of [scriptForBeforeEachCallForRock]. *)
Definition script_load (env : srv_env) (i : nat) key (maybe : list scriptMaybeKey) k
  : res (list scriptMaybeKey * keyspace R) :=
  '(val, k) ← _restore_obj_from_rocksdb env i key k;
  v ← res_of_option (dict_at k i key) "dictGetVal(NULL)";
  mret (maybe ++ [(i, key)],
        match v with
        | InRock => upd_db i (fun d => set_dict (<[key := VObj val]> (dict d)) d) k
        | VObj _ => k
        end).
Fixpoint script_loads (env : srv_env) (i : nat) (keys : list bytes) (maybe : list scriptMaybeKey) k
  : res (list scriptMaybeKey * keyspace R) :=
  match keys with
  | [] => Ok (maybe, k)
  | key :: keys' => '(maybe, k) ← script_load env i key maybe k; script_loads env i keys' maybe k
  end.

(** [x] is the Lua client; its queue of MULTI is never used. *)
Definition scriptForBeforeEachCallForRock (env : srv_env) (r : request) (x : session)
    (maybe : list scriptMaybeKey) k : res (session * list scriptMaybeKey * keyspace R) :=
  let in_rock := fun key => is_in_rock (dict_at k (c_db x) key) in
  '(keys, nerr) ← (if c_multi x then checkRockForMultiCmd in_rock r.2 (c_queue x)
                   else checkRockForSingleCmd in_rock r.1 r.2);
  '(maybe, k) ← script_loads env (c_db x) keys maybe k;
  mret (Nat.iter nerr (addReply (RError "value is not an integer or out of range")) x, maybe, k).

Definition luaRedisGenericCommand (g : server_cfg) (v : lua_view) (caller : bool) (argv : list bytes) (x : session) (l : lua)
    (maybe : list scriptMaybeKey) k : res (reply * session * lua * list scriptMaybeKey * keyspace R) :=
  match lua_front v caller argv x l with
  | inr e => Ok (RError e, x, l, maybe, k)
  | inl (r, x, l) =>
      '(x, maybe, k) ← scriptForBeforeEachCallForRock (cfg_env g) r x maybe k;
      '(x, k) ← call_plain cmd_prog g (lv_draws v) r x k;
      let '(y, x) := take_reply x in
      mret (y, x, l, maybe, k)
  end.

(** [n] counts the calls; [vs] is what each of them finds. *)
Fixpoint run_script (g : server_cfg) (vs : nat → lua_view) (caller : bool) (n : nat) (sc : script) (x : session) (l : lua)
    (maybe : list scriptMaybeKey) k : res (reply * lua * list scriptMaybeKey * keyspace R) :=
  match sc with
  | SReturn y => Ok (y, l, maybe, k)
  | SCall argv f =>
      '(y, x, l, maybe, k) ← luaRedisGenericCommand g (vs n) caller argv x l maybe k;
      run_script g vs caller (S n) (f y) x l maybe k
  | SReplicate f => let '(b, l) := luaRedisReplicateCommandsCommand l in run_script g vs caller n (f b) x l maybe k
  | SSetRepl flags f => let '(b, l) := luaRedisSetReplCommand flags l in run_script g vs caller n (f b) x l maybe k
  end.

(** ** When the script ends *)

Definition _isAlreadyInScriptNeedFinishKeys (l : list scriptMaybeKey) (m : scriptMaybeKey) : bool :=
  existsb (fun c => bool_decide (c.1 = m.1) && (sdscmp c.2 m.2 =? 0)) l.

(** The first loop of [_clearMaybeFinishKeyFromScript]. *)
Fixpoint need_finish (maybe need : list scriptMaybeKey) k : list scriptMaybeKey :=
  match maybe with
  | [] => need
  | m :: maybe' =>
      if is_in_rock (dict_at k m.1 m.2) || _isAlreadyInScriptNeedFinishKeys need m
      then need_finish maybe' need k
      else need_finish maybe' (need ++ [m]) k
  end.

(** The job may be for the key that has just been finished. *)
Definition script_mark_job (i : nat) key s : res (server R) :=
  let j := rockJob s in
  let mark := serverAssert (negb (alreadyFinishedByScript j)) "alreadyFinishedByScript == 0" ;;
              mret (set_job (Job (job_dbid j) (workKey j) (returnKey j) (valInRock j) true) s) in
  if negb (job_dbid j =? Z.of_nat i) then Ok s
  else match workKey j with
       | Some w => if sdscmp w key =? 0 then mark else Ok s
       | None =>
           match returnKey j with
           | Some w => if sdscmp w key =? 0 then mark else Ok s
           | None => Ok s
           end
       end.

Fixpoint script_finish (need : list scriptMaybeKey) (zero : list nat) s : res (list nat * server R) :=
  match need with
  | [] => Ok (zero, s)
  | (i, key) :: need' =>
      '(zero, s) ← match rockKeys (get_db (ks s) i) !! key with
                   | None => Ok (zero, s)
                   | Some waiting =>
                       '(z, s) ← wake_clients waiting s;
                       s ← script_mark_job i key s;
                       mret (zero ++ z, s)
                   end;
      let s := set_ks (upd_db i (fun d => set_rockKeys (delete key (rockKeys d)) d) (ks s)) s in
      script_finish need' zero s
  end.

Definition _clearMaybeFinishKeyFromScript (g : server_cfg) (w : world) (maybe : list scriptMaybeKey) s
  : res (server R) :=
  '(zero, s) ← script_finish (need_finish maybe [] (ks s)) [] s;
  resume_all cmd_prog g w zero s.

(** [evalGenericCommand], for a caller with database [i]; [multi] says whether the
    caller executes a transaction, [always] is the configuration lua-replicate-commands. *)
Definition script_start (always : bool) : lua := Lua false false always false (Z.lor PROPAGATE_AOF PROPAGATE_REPL).
Definition prepareLuaClient (i : nat) (multi : bool) : session := Session i multi false [] [].
Definition evalGenericCommand (g : server_cfg) (vs : nat → lua_view) (w : world) (always : bool) (i : nat) (multi : bool) (sc : script) s
  : res (reply * server R) :=
  '(y, _, maybe, k) ← run_script g vs multi 0 sc (prepareLuaClient i multi) (script_start always) [] (ks s);
  s ← _clearMaybeFinishKeyFromScript g w maybe (set_ks k s);
  mret (y, s).
End lua.

(** ** The same script on a plain server *)

Section plain.
Variable cmd_prog : server_cfg → redisCommand → list bytes → prog reply.

Fixpoint arun_script (dbnum : nat) (g : server_cfg) (vs : nat → lua_view) (caller : bool) (n : nat) (sc : script) (x : session) (l : lua)
    (a : nat → adb) : option (reply * lua * (nat → adb)) :=
  match sc with
  | SReturn y => Some (y, l, a)
  | SCall argv f =>
      match lua_front (vs n) caller argv x l with
      | inr e => arun_script dbnum g vs caller (S n) (f (RError e)) x l a
      | inl (r, x, l) =>
          '(x, a) ← acall_plain cmd_prog dbnum g r x a;
          let '(y, x) := take_reply x in
          arun_script dbnum g vs caller (S n) (f y) x l a
      end
  | SReplicate f => let '(b, l) := luaRedisReplicateCommandsCommand l in arun_script dbnum g vs caller n (f b) x l a
  | SSetRepl flags f => let '(b, l) := luaRedisSetReplCommand flags l in arun_script dbnum g vs caller n (f b) x l a
  end.

(** The commands a script calls are [covered]. *)
Fixpoint script_ok (sc : script) : Prop :=
  match sc with
  | SReturn _ => True
  | SCall argv f => (∀ r, script_command argv = inl r → covered r = true) ∧ ∀ y, script_ok (f y)
  | SReplicate f | SSetRepl _ f => ∀ b, script_ok (f b)
  end.

Lemma lua_front_emitted v caller argv x l r x' l' :
  lua_front v caller argv x l = inl (r, x', l') →
  script_command argv = inl r ∧ c_db x' = c_db x ∧ (lua_multi_emitted l = true → lua_multi_emitted l' = true) ∧
  (c_multi x = false → c_multi x' = true → lua_multi_emitted l' = true).
Proof.
  unfold lua_front. destruct (script_command argv) as [r0|]; [|done]. destruct (script_denied v l r0.1); [done|].
  intros [= <- <- <-]. cbn [c_db c_multi set_multi lua_multi_emitted]. split_and!; [done|done|by intros ->|].
  intros -> Hm. simpl in Hm. rewrite Hm. apply orb_true_r.
Qed.
Lemma replicate_emitted l : lua_multi_emitted (luaRedisReplicateCommandsCommand l).2 = lua_multi_emitted l.
Proof. unfold luaRedisReplicateCommandsCommand. by destruct (lua_write_dirty l). Qed.
Lemma set_repl_emitted flags l : lua_multi_emitted (luaRedisSetReplCommand flags l).2 = lua_multi_emitted l.
Proof. unfold luaRedisSetReplCommand. by case_match. Qed.

Lemma arun_script_emitted dbnum g vs caller sc : ∀ n x l a y l' a',
  arun_script dbnum g vs caller n sc x l a = Some (y, l', a') → lua_multi_emitted l = true → lua_multi_emitted l' = true.
Proof.
  induction sc as [y0|argv f IH|f IH|flags f IH]; intros n x l a y l' a' H He; simpl in H.
  - by injection H as <- <- <-.
  - destruct (lua_front _ _ _ _ _) as [[[r x1] l1]|e] eqn:Hf; [|by eapply IH].
    destruct (acall_plain _ _ _ _ _ _) as [[x2 a2]|]; [|done]. cbn [mbind option_bind take_reply] in H.
    eapply IH; [exact H|]. by eapply lua_front_emitted in Hf as (_ & _ & Hf & _); auto.
  - destruct (luaRedisReplicateCommandsCommand l) as [b l1] eqn:Hr. eapply IH; [exact H|].
    pose proof (replicate_emitted l) as Hr'. rewrite Hr in Hr'. simpl in Hr'. by rewrite Hr'.
  - destruct (luaRedisSetReplCommand flags l) as [b l1] eqn:Hr. eapply IH; [exact H|].
    pose proof (set_repl_emitted flags l) as Hr'. rewrite Hr in Hr'. simpl in Hr'. by rewrite Hr'.
Qed.
End plain.

Section refine.
Context {R : RocksDB} {DO : DictOrder} {L : RocksDBLaws R}.
Variable cmd_prog : server_cfg → redisCommand → list bytes → prog reply.
Context {CS : CommandSpec cmd_prog}.
Implicit Types (k : keyspace R) (key : bytes).

(** Keys have come into memory, and the clients cannot tell. *)
Record loaded k k' : Prop := {
  ld_ok : ks_ok k';
  ld_len : length (dbs k') = length (dbs k);
  ld_logical j key : logical k' j key = logical k j key;
  ld_expires j : expires (get_db k' j) = expires (get_db k j);
  ld_rockKeys j : rockKeys (get_db k' j) = rockKeys (get_db k j);
  ld_stored j key : stored_val (rocks k') j key = stored_val (rocks k) j key;
  ld_present j key : dict_at k' j key = None → dict_at k j key = None;
  ld_rock j key : dict_at k' j key = Some InRock → dict_at k j key = Some InRock;
  ld_hot : hot_ok k → hot_ok k'
}.

Lemma loaded_refl k : ks_ok k → loaded k k.
Proof. by split. Qed.
Lemma loaded_trans k1 k2 k3 : loaded k1 k2 → loaded k2 k3 → loaded k1 k3.
Proof. intros [] []. split; intros; eauto; congruence. Qed.

(** A key whose value RocksDB has, whether or not it is in memory too. *)
Definition loadable k (i : nat) key : Prop :=
  dict_at k i key ≠ None ∧ key ≠ [] ∧ ∃ o b, stored_val (rocks k) i key = Some b ∧ dump_of o b.

Lemma script_load_spec env i key maybe k :
  ks_ok k → loadable k i key →
  ∃ k', script_load env i key maybe k = Ok (maybe ++ [(i, key)], k') ∧ loaded k k' ∧
    dict_at k' i key ≠ Some InRock.
Proof.
  intros Hk (Hd & Hne & o & b & Hst & Hdump).
  destruct (dict_at k i key) as [v|] eqn:Hv; [|done]. pose proof (dict_at_valid _ _ _ _ Hv) as Hi.
  destruct (restore_obj_stored env i key o b k (ks_rapi k Hk) Hi Hne Hst Hdump) as (a & Hr & Hs & Hn).
  pose proof (ks_ok_rocks a k Hk Hs (Hn _ (ks_rapi k Hk))) as Hka.
  assert (loaded k (set_rocks a k)) as Hla.
  { split; try done; [|by intros [? ? ?]; split].
    intros j x. unfold logical. change (dict_at (set_rocks a k) j x) with (dict_at k j x). simpl. by rewrite Hs. }
  unfold script_load. rewrite Hr. cbn [mbind res_bind]. change (dict_at (set_rocks a k) i key) with (dict_at k i key).
  rewrite Hv. destruct v as [|o']; (eexists; split; [done|]); [|by split; [|change (dict_at k i key ≠ Some InRock); rewrite Hv]].
  destruct Hdump as [Hwf Hser].
  pose proof (writes_insert i key (VObj (restored env o)) (set_rocks a k) Hi) as Hw.
  set (k2 := upd_db i _ _) in *. split.
  - eapply loaded_trans; [exact Hla|]. split; try apply Hw.
    + eapply ks_ok_writes; [exact Hw| |done]. intros ? [= <-]. eexists. split; [done|]. by apply val_ok_restored.
    + intros j x. rewrite (logical_writes _ _ _ _ _ _ _ Hw) by done. case_decide as He; [|done].
      injection He as -> ->. unfold logical. change (dict_at (set_rocks a k) i key) with (dict_at k i key).
      rewrite Hv. simpl. rewrite Hs, Hst. simpl. by rewrite (decode_dump o b).
    + intros j. unfold k2. by rewrite (get_db_upd_field expires).
    + intros j x. by rewrite (wr_rocks _ _ _ _ _ Hw).
    + intros j x. rewrite (wr_dict _ _ _ _ _ Hw). by case_decide.
    + intros j x. rewrite (wr_dict _ _ _ _ _ Hw). by case_decide.
    + intros [Hh1 Hh2 Hh3]. split.
      * intros H j. unfold k2. rewrite hot_upd_other by done. by apply Hh1.
      * intros j x. unfold k2 at 1. rewrite hot_upd_other by done. intros Hx.
        destruct (Hh2 j x Hx) as (o' & Ho' & Ht). rewrite (wr_dict _ _ _ _ _ Hw). case_decide as He; [|eauto].
        injection He as -> ->. change (dict_at (set_rocks a k) i key) with (dict_at k i key) in Ho'. congruence.
      * intros j x. rewrite (wr_dict _ _ _ _ _ Hw), (wr_init _ _ _ _ _ Hw). case_decide; [done|]. apply Hh3.
  - rewrite (wr_dict _ _ _ _ _ Hw). by rewrite decide_True.
Qed.
Lemma loadable_loaded k k' i key : loaded k k' → loadable k i key → loadable k' i key.
Proof.
  intros Hl (Hd & Hne & o & b & Hst & Ho). split; [|split; [done|]].
  - intros H. by apply (ld_present _ _ Hl) in H.
  - exists o, b. by rewrite (ld_stored _ _ Hl).
Qed.

Lemma script_loads_spec env i keys : ∀ maybe k,
  ks_ok k → Forall (loadable k i) keys →
  ∃ maybe' k', script_loads env i keys maybe k = Ok (maybe', k') ∧ loaded k k' ∧
    ∀ key, key ∈ keys → dict_at k' i key ≠ Some InRock.
Proof.
  induction keys as [|key keys IH]; intros maybe k Hk Hf.
  - eexists _, _. split; [done|]. split; [by apply loaded_refl|]. by intros key ?%not_elem_of_nil.
  - apply Forall_cons in Hf as [Hl Hf].
    destruct (script_load_spec env i key maybe k Hk Hl) as (k1 & Hs1 & Hl1 & Hn1).
    destruct (IH (maybe ++ [(i, key)]) k1) as (maybe' & k2 & Hs2 & Hl2 & Hn2); [by apply Hl1| |].
    { eapply Forall_impl; [exact Hf|]. intros x. by apply loadable_loaded. }
    exists maybe', k2. split; [simpl; by rewrite Hs1|]. split; [by eapply loaded_trans|].
    intros x [->|Hx]%elem_of_cons; [|by apply Hn2]. intros H. by apply (ld_rock _ _ Hl2) in H.
Qed.

(** Before a call that is not made inside MULTI, all its values are loaded. *)
Lemma before_call_spec env r x maybe k :
  ks_ok k → request_ok r → c_multi x = false →
  ∃ maybe' k', scriptForBeforeEachCallForRock env r x maybe k = Ok (x, maybe', k') ∧ loaded k k' ∧
    keys_in_memory k' (c_db x) r.
Proof.
  intros Hk Hr Hm. unfold scriptForBeforeEachCallForRock. rewrite Hm, check_single by done. cbn [mbind res_bind].
  destruct (script_loads_spec env (c_db x)
    (rock_keys (fun key => is_in_rock (dict_at k (c_db x) key)) (checked_keys r)) maybe k Hk)
    as (maybe' & k' & Hs & Hl & Hn).
  { apply Forall_forall. intros key [Hin _]%list_elem_of_filter.
    destruct (dict_at k (c_db x) key) as [[|o]|] eqn:Hd; try done.
    split; [by rewrite Hd|]. by apply ks_rock. }
  rewrite Hs. eexists _, _. split; [done|]. split; [done|]. intros key Hkey Hd.
  apply (Hn key); [|done]. apply elem_of_rock_keys; [done|]. by rewrite (ld_rock _ _ Hl _ _ Hd).
Qed.

Lemma script_command_ok argv r :
  script_command argv = inl r → covered r = true → request_ok r.
Proof.
  unfold script_command. destruct argv as [|name argv']; [done|].
  destruct (lookupCommand name) as [cmd|] eqn:Hl; [|done].
  destruct (arity_ok cmd _) eqn:Ha; [|done]. simpl. destruct (noscript cmd); [done|].
  intros [= <-] Hc. split; [by eapply lookupCommand_table|]. by split.
Qed.

Lemma run_script_emitted g vs caller sc : ∀ n x l maybe k y l' maybe' k',
  run_script cmd_prog g vs caller n sc x l maybe k = Ok (y, l', maybe', k') → lua_multi_emitted l = true → lua_multi_emitted l' = true.
Proof.
  induction sc as [y0|argv f IH|f IH|flags f IH]; intros n x l maybe k y l' maybe' k' H He; simpl in H.
  - by injection H as <- <- <- <-.
  - unfold luaRedisGenericCommand in H. destruct (lua_front _ _ _ _ _) as [[[r x1] l1]|e] eqn:Hf; [|by eapply IH].
    apply bind_Ok in H as ([[[[y1 x2] l2] maybe2] k2] & Hc & H). apply bind_Ok in Hc as ([[x3 maybe3] k3] & _ & Hc).
    apply bind_Ok in Hc as ([x4 k4] & _ & Hc). cbn [take_reply] in Hc. injection Hc as <- <- <- <- <-.
    eapply IH; [exact H|]. by eapply lua_front_emitted in Hf as (_ & _ & Hf & _); auto.
  - destruct (luaRedisReplicateCommandsCommand l) as [b l1] eqn:Hr. eapply IH; [exact H|].
    pose proof (replicate_emitted l) as Hr'. rewrite Hr in Hr'. simpl in Hr'. by rewrite Hr'.
  - destruct (luaRedisSetReplCommand flags l) as [b l1] eqn:Hr. eapply IH; [exact H|].
    pose proof (set_repl_emitted flags l) as Hr'. rewrite Hr in Hr'. simpl in Hr'. by rewrite Hr'.
Qed.

(** What a script does is what it does on a plain server, as long as no MULTI has been propagated for it. *)
Definition script_agrees (plain : option (reply * lua * (nat → adb)))
    (r : res (reply * lua * list scriptMaybeKey * keyspace R)) : Prop :=
  match r with
  | Ok (y, l', _, k') => lua_multi_emitted l' = false → ∃ a', plain = Some (y, l', a') ∧ simall k' a' ∧ ks_ok k'
  | Abort _ => ∀ y l' a', plain = Some (y, l', a') → lua_multi_emitted l' = true
  end.


(** A value that a script has loaded cannot be dumped again.
    [scriptForBeforeEachCallForRock] puts the value into the dictionary and, unlike
    [_clearFinishKey], does not add the key to the hot keys.  The value is
    suitable for a dump like any other, but [dumpValToRock] asserts that it can
    take the key out of the hot keys, and the server stops. *)
Theorem script_loaded_undumpable `{!RocksDBReliable R} env i key maybe k o b :
  ks_ok k → hot_ok k → dict_at k i key = Some InRock →
  stored_val (rocks k) i key = Some b → dump_of o b → o_refcount (restored env o) = 1 →
  ∃ maybe' k', script_load env i key maybe k = Ok (maybe', k') ∧
    _isValueSuitForDumpRock i key k' = Ok true ∧
    dumpValToRock false i key k' = Abort "dictDelete(hotKeys) == DICT_OK".
Proof.
  intros Hk Hhot Hd Hst Hdump Hrc. destruct (ks_rock k Hk i key Hd) as (Hne & _).
  destruct (script_load_spec env i key maybe k Hk) as (k' & Hs & Hl & _).
  { split; [by rewrite Hd|]. eauto. }
  eexists _, k'. split; [done|].
  pose proof (dict_at_valid _ _ _ _ Hd) as Hi.
  destruct (restore_obj_stored env i key o b k (ks_rapi k Hk) Hi Hne Hst Hdump) as (a & Hr & _).
  assert (k' = upd_db i (fun d => set_dict (<[key := VObj (restored env o)]> (dict d)) d) (set_rocks a k)) as Hk'.
  { unfold script_load in Hs. rewrite Hr in Hs. cbn [mbind res_bind] in Hs.
    change (dict_at (set_rocks a k) i key) with (dict_at k i key) in Hs. rewrite Hd in Hs. by injection Hs. }
  assert (_isValueSuitForDumpRock i key k' = Ok true) as Hsuit.
  { unfold _isValueSuitForDumpRock. rewrite Hk', dict_at_insert, decide_True by done.
    cbn [res_of_option mbind res_bind mret res_ret].
    rewrite bool_decide_eq_false_2 by (by apply wf_robj_not_stream, Hdump). by rewrite Hrc. }
  split; [done|]. destruct (dumpValToRock_suit i key k' (ld_ok _ _ Hl) Hne Hsuit) as (s' & ->).
  rewrite bool_decide_eq_false_2; [done|]. rewrite Hk', hot_upd_other by done. intros Hin.
  destruct (hot_mem k Hhot i key Hin) as (o' & Ho' & _). by rewrite Hd in Ho'.
Qed.
End refine.

(** ** Inside MULTI *)

Section multi.
Context {R : RocksDB}.
Variable other : server_cfg → redisCommand → list bytes → prog reply.

Definition get_request (key : bytes) : list bytes := [String.list_byte_of_string "get"; key].

Lemma lookup_in_rock g draw notouch i key (k : keyspace R) :
  dict_at k i key = Some InRock → expires (get_db k i) !! key = None →
  ∃ k', lookupKeyReadWithFlags g draw notouch i key k = Ok (Some InRock, k').
Proof.
  intros Hd He. unfold lookupKeyReadWithFlags, expireIfNeeded, keyIsExpired, getExpire. rewrite He. simpl.
  unfold lookupKey. rewrite Hd. destruct (negb _ && negb _); eauto.
Qed.

(** The hook loads nothing for a Lua client with the mark. *)
Lemma marked_loads_nothing env r (x : session) maybe (k : keyspace R) :
  c_multi x = true → c_queue x = [] → scriptForBeforeEachCallForRock env r x maybe k = Ok (x, maybe, k).
Proof. intros Hm Hq. unfold scriptForBeforeEachCallForRock. by rewrite Hm, Hq. Qed.

(** A script inside MULTI reads 250.  Inside a transaction the
    Lua client is marked CLIENT_MULTI; the hook then looks at the queue of that
    client, which is empty, and loads nothing.  GET of a key whose value is in
    RocksDB answers with the number that stands for "in RocksDB". *)
Theorem script_in_multi g v i key l maybe (k : keyspace R) :
  dict_at k i key = Some InRock → expires (get_db k i) !! key = None → lv_oom v = false →
  ∃ x' l' k', luaRedisGenericCommand (commands other) g v true (get_request key) (prepareLuaClient i true) l maybe k
    = Ok (RBulk (sdsll2str 250), x', l', maybe, k').
Proof.
  intros Hd He Hv. unfold luaRedisGenericCommand, lua_front.
  change (script_command (get_request key)) with
    (inl (Cmd "get" 2 false false 1 1 1 (Some ForOneKey), get_request key) : request + string). cbv iota.
  unfold script_denied. change (is_write _) with false. rewrite Hv. cbn [andb fst]. rewrite marked_loads_nothing by done.
  cbn [mbind res_bind]. unfold call_plain. change (is_cmd "select" _) with false. cbv iota.
  change (commands other g _ _) with (getCommand (get_request key)).
  destruct (lookup_in_rock g (lv_draws v 0%nat) false i key k Hd He) as (k' & Hk').
  assert (run g (lv_draws v) i (getCommand (get_request key)) k = Ok (RBulk (sdsll2str 250), k')) as Hrun.
  { unfold getCommand, getGenericCommand. change (arg (get_request key) 1) with key.
    cbn [run exec]. by rewrite Hk'. }
  match goal with |- context [run g _ ?j _ k] => change j with i end. rewrite Hrun. by eexists _, _, _.
Qed.

Definition incr_request (key : bytes) : list bytes := [String.list_byte_of_string "incr"; key].
Definition incr_script (key : bytes) : script := SCall (incr_request key) SReturn.

Lemma lookup_write_in_rock g draw notouch i key (k : keyspace R) :
  dict_at k i key = Some InRock → expires (get_db k i) !! key = None →
  ∃ k', lookupKeyWriteWithFlags g draw notouch i key k = Ok (Some InRock, k') ∧ dict_at k' i key = Some InRock.
Proof.
  intros Hd He. unfold lookupKeyWriteWithFlags, expireIfNeeded, keyIsExpired, getExpire. rewrite He. simpl.
  unfold lookupKey. rewrite Hd. destruct (negb _ && negb _); eexists; (split; [done|]); done.
Qed.
Lemma incr_in_rock g draws i key (k : keyspace R) :
  dict_at k i key = Some InRock → expires (get_db k i) !! key = None →
  ∃ k', run g draws i (incrCommand g (incr_request key)) k = Ok (RInt 251, k') ∧
    logical k' i key = Some (OBJ_STRING, OBJ_ENCODING_INT, PInt 251).
Proof.
  intros Hd He. destruct (lookup_write_in_rock g (draws 0%nat) false i key k Hd He) as (k1 & Hl & Hd1).
  pose proof (dict_at_valid _ _ _ _ Hd1) as Hi.
  assert (∃ k2, storeInteger g i key 251 k1 = Ok k2 ∧ logical k2 i key = Some (OBJ_STRING, OBJ_ENCODING_INT, PInt 251)) as (k2 & Hs & Hlog).
  { unfold storeInteger. rewrite Hd1. unfold dbOverwrite. rewrite Hd1. eexists. split; [reflexivity|].
    unfold logical. rewrite (sd_dict _ _ (same_data_addHot _ _ _ _)), dict_at_insert by done.
    rewrite decide_True by done. unfold createStringObjectFromLongLongForValue, createStringObjectFromLongLongWithOptions. by repeat case_match. }
  exists k2. split; [|done]. unfold incrCommand, incrDecrCommand. change (arg (incr_request key) 1) with key. cbn [run exec]. rewrite Hl.
  transitivity ('(_, s) ← (s ← storeInteger g i key 251 k1; mret (tt, s)); mret (RInt 251, s) : res (reply * keyspace R)); [reflexivity|].
  by rewrite Hs.
Qed.

(** With lua-replicate-commands, which is on by default, a script overwrites a value in RocksDB.  For the first write of a script a MULTI is
    propagated, and the Lua client is marked CLIENT_MULTI before the hook is called.  The hook loads nothing, INCR finds
    the number 250 that stands for "in RocksDB" and answers 251, and 251 replaces the value. *)
Theorem script_write_reads_250 g vs i key (k : keyspace R) :
  dict_at k i key = Some InRock → expires (get_db k i) !! key = None →
  lv_readonly (vs 0%nat) = false → lv_disk_error (vs 0%nat) = None → lv_oom (vs 0%nat) = false →
  ∃ l' k', run_script (commands other) g vs false 0 (incr_script key) (prepareLuaClient i false) (script_start true) [] k
    = Ok (RInt 251, l', [], k') ∧ logical k' i key = Some (OBJ_STRING, OBJ_ENCODING_INT, PInt 251).
Proof.
  intros Hd He H1 H2 H3. cbn [run_script incr_script]. unfold luaRedisGenericCommand, lua_front.
  change (script_command (incr_request key)) with
    (inl (Cmd "incr" 2 true false 1 1 1 (Some ForOneKey), incr_request key) : request + string). cbv iota.
  unfold script_denied. change (is_write _) with true. rewrite H1, H2, H3. cbn [andb orb negb fst lua_random_dirty script_start].
  rewrite marked_loads_nothing by done. cbn [mbind res_bind]. unfold call_plain. change (is_cmd "select" _) with false. cbv iota.
  change (commands other g _ _) with (incrCommand g (incr_request key)).
  destruct (incr_in_rock g (lv_draws (vs 0%nat)) i key k Hd He) as (k' & Hrun & Hlog).
  match goal with |- context [run g _ ?j _ k] => change j with i end. rewrite Hrun. eexists _, _. split; [reflexivity|done].
Qed.
End multi.

(** ** The mark that stays *)

Section stale.
Context {R : RocksDB} {DO : DictOrder}.
Variable cmd_prog : server_cfg → redisCommand → list bytes → prog reply.
Implicit Types σ : system R.

(** The job is marked as finished by a script, and a client waits for a key. *)
Definition marked σ (i : nat) (key : bytes) : Prop :=
  alreadyFinishedByScript (rockJob (srv σ)) = true ∧ is_Some (rockKeys (get_db (ks (srv σ)) i) !! key).

Lemma marked_step σ σ' i key :
  istep cmd_prog σ σ' → marked σ i key → marked σ' i key ∧ clients (srv σ') = clients (srv σ).
Proof.
  intros [e σ1 Hint _ Hd] [Hf Hw]. destruct e; try done; simpl in Hd.
  - destruct (_ || _); [done|]. injection Hd as Hd. apply bind_Ok in Hd as (s1 & Hs & Hd). injection Hd as <-.
    unfold _rockPipeReadHandler in Hs. rewrite Hf in Hs. inv_res.
    destruct (_hasMoreRockJob (srv σ)) as [[j x]|] eqn:Hm.
    + unfold _createNewJob in Hs. inv_res. done.
    + rewrite (hasMore_None _ Hm i), lookup_empty in Hw. by destruct Hw.
  - destruct (in_handler σ); [|done]. by injection Hd as <-.
  - destruct (rt σ); try done. destruct (_getRockWork (srv σ)) as [[[dbid x]|]|]; try done. by injection Hd as <-.
  - destruct (rt σ); try done. injection Hd as Hd. inv_res. destruct a0 as [val k]. inv_res.
    unfold _restore_obj_from_rocksdb in Hd1. inv_res. destruct a0 as [o' a']. inv_res. done.
  - destruct (rt σ); try done. injection Hd as Hd. by inv_res.
  - destruct (rt σ); try done. by injection Hd as <-.
Qed.

(** C38: a mark that stays makes clients wait for ever.  The mark "finished by a script" is never taken off the job slot: the next job,
    for another key, inherits it, its result is thrown away, and the same job is
    created again.  However long the rock thread and the pipe handler go on, no
    client that waits is resumed. *)
Theorem marked_job_starves σ σ' i key :
  marked σ i key → rtc (istep cmd_prog) σ σ' → marked σ' i key ∧ clients (srv σ') = clients (srv σ).
Proof.
  intros Hm Hr. induction Hr as [σ|σ σ1 σ2 Hs _ IH]; [done|].
  destruct (marked_step _ _ _ _ Hs Hm) as [Hm1 <-]. by apply IH.
Qed.
End stale.

(** ** Examples *)

(** The key of the example of [System] is in RocksDB; a script reads it. *)
Definition ex_script : script := SCall (get_request ex_key) SReturn.
Definition ex_lua (_ : nat) : lua_view := LuaView (fun _ => false) false None false.


Lemma script_loaded_undumpable_witness :
  ∃ maybe' k', script_load any_env 0 ex_key [] (ks (srv (ex_after 3))) = Ok (maybe', k') ∧
    _isValueSuitForDumpRock 0 ex_key k' = Ok true ∧
    dumpValToRock false 0 ex_key k' = Abort "dictDelete(hotKeys) == DICT_OK".
Proof.
  destruct (reachable_ok (commands no_other) ex_db 7 (Rapi [None] [None]) (ex_after 3) ex_initial_ok)
    as (d & [_ _ (ph & Hco & _)] & _); [apply ex_reachable; lia|].
  assert (dict_at (ks (srv (ex_after 3))) 0 ex_key = Some InRock) as Hd by (vm_compute; reflexivity).
  destruct (ks_rock _ (co_ks _ _ _ Hco) 0%nat ex_key Hd) as (_ & o & b & Hst & Hdump).
  apply (script_loaded_undumpable any_env 0 ex_key [] (ks (srv (ex_after 3))) o b);
    [apply Hco|apply Hco|exact Hd|exact Hst|exact Hdump|].
  assert (desObject any_env b = Ok (restored any_env o)) as Hdes by (by apply desObject_dump).
  assert (match stored_val (rocks (ks (srv (ex_after 3)))) 0 ex_key with
          | Some b => match desObject any_env b with Ok o => o_refcount o | _ => 0 end | None => 0 end = 1) as H1
    by (vm_compute; reflexivity).
  rewrite Hst, Hdes in H1. exact H1.
Defined.

Lemma script_in_multi_witness :
  ∃ x' l' k', luaRedisGenericCommand (commands no_other) ex_cfg (ex_lua 0) true (get_request ex_key)
    (prepareLuaClient 0 true) (script_start true) [] (ks (srv (ex_after 3))) = Ok (RBulk (sdsll2str 250), x', l', [], k').
Proof.
  apply (script_in_multi no_other ex_cfg (ex_lua 0) 0 ex_key (script_start true) [] (ks (srv (ex_after 3)))); vm_compute; reflexivity.
Defined.

(** The value in RocksDB is "hi". *)
Lemma script_write_reads_250_witness :
  ∃ l' k', run_script (commands no_other) ex_cfg ex_lua false 0 (incr_script ex_key) (prepareLuaClient 0 false) (script_start true) []
      (ks (srv (ex_after 3))) = Ok (RInt 251, l', [], k') ∧ logical k' 0 ex_key = Some (OBJ_STRING, OBJ_ENCODING_INT, PInt 251).
Proof.
  apply (script_write_reads_250 no_other ex_cfg ex_lua 0 ex_key (ks (srv (ex_after 3)))); vm_compute; reflexivity.
Defined.

(** Two values in RocksDB.  Client 0 waits for the first, client 1 for the second;
    a script reads the first. *)
Definition starve_key : bytes := [x62].
Definition starve_db : list (gmap bytes robj * gmap bytes Z) :=
  [({[ ex_key := Robj OBJ_STRING OBJ_ENCODING_RAW 7 1 (PSds [x68; x69]);
       starve_key := Robj OBJ_STRING OBJ_ENCODING_RAW 7 1 (PSds [x79; x6f]) ]}, ∅)].
Definition starve_events : list event :=
  [EConnect 0; EConnect 1; EInitHot; EDump 0 ex_key; EDump 0 starve_key;
   ERecv ex_cfg ex_world 0 [get_request ex_key]; ERecv ex_cfg ex_world 1 [get_request starve_key]].
Definition starve_initial : system map_rocksdb := initial starve_db 7 (Rapi [None] [None]).
Definition starve_before : system map_rocksdb :=
  default starve_initial (run_events (commands no_other) starve_events starve_initial).
Definition starve_after : system map_rocksdb :=
  match evalGenericCommand (commands no_other) ex_cfg ex_lua ex_world true 0 false ex_script (srv starve_before) with
  | Ok (_, s) => set_srv s starve_before
  | Abort _ => starve_initial
  end.

(** Client 0 has its reply; client 1 still waits. *)
Example starve_replies :
  (fun c => (c_reply (sess c), rockKeyNumber c)) <$> clients (srv starve_after) !! 0%nat
    = Some ([RBulk [x68; x69]], 0%nat) ∧
  (fun c => (c_reply (sess c), rockKeyNumber c)) <$> clients (srv starve_after) !! 1%nat = Some ([], 1%nat).
Proof. vm_compute. done. Qed.

(** Two jobs later. *)
Definition starve_round : list event :=
  [ERockTake; ERockRead any_env; ERockPublish; ERockSignal; EPipe any_cfg any_world; EPipeRead].
Definition starve_later : system map_rocksdb :=
  default starve_initial (run_events (commands no_other) (starve_round ++ starve_round) starve_after).

Lemma starve_later_reached : rtc (istep (commands no_other)) starve_after starve_later.
Proof.
  apply (run_events_isteps (commands no_other) (starve_round ++ starve_round)).
  - pose proof any_cfg_ok. by repeat (apply Forall_cons; split).
  - assert (bool_decide (is_Some (run_events (commands no_other) (starve_round ++ starve_round) starve_after)) = true)
      as [σ Hσ]%bool_decide_eq_true by (vm_compute; reflexivity).
    unfold starve_later. by rewrite Hσ.
Qed.

Lemma marked_job_starves_witness :
  rockKeyNumber <$> clients (srv starve_later) !! 1%nat = Some 1%nat.
Proof.
  destruct (marked_job_starves (commands no_other) starve_after starve_later 0 starve_key) as [_ ->];
    [|exact starve_later_reached|].
  - split; vm_compute; [reflexivity|eexists; reflexivity].
  - vm_compute. reflexivity.
Defined.
