(* ===== verification/Backlog.v ===== *)
(** * The replication backlog (src/src/replication.c)

    A master keeps the last bytes of the stream it sends to its replicas in a circular
    buffer, so that a replica that was disconnected for a short time can go on from where
    it was.  The buffer is modelled as memory: what [zmalloc] returns is not
    initialized, and a [memcpy] past the end is an error.

    Shown: whatever was fed, and whatever the pieces, a replica that asks for an
    offset that is still there is sent exactly the bytes of the stream from that
    offset on, and no byte that was not written before; after a feed the buffer has as
    many of the last bytes as fit.

    Offsets are unbounded: the C code keeps them in 64 bits, which a stream does not
    exceed in practice. *)

From S2P Require Import Prelude Util.
From stdpp Require Import list.
#[local] Open Scope Z_scope.

Definition CONFIG_REPL_BACKLOG_MIN_SIZE : Z := 1024 * 16.

(** The fields of [struct redisServer] for the backlog.  The memory of the buffer has
    [None] where nothing was written. *)
Record backlog := Backlog {
  repl_backlog : option (list (option byte));
  repl_backlog_size : Z;
  repl_backlog_histlen : Z;
  repl_backlog_idx : Z;
  repl_backlog_off : Z;
  master_repl_offset : Z;
}.

Definition zmalloc (n : Z) : list (option byte) := replicate (Z.to_nat n) None.

Definition memcpy_in (buf : list (option byte)) (i : Z) (p : bytes) : res (list (option byte)) :=
  if (0 <=? i) && (i + Z.of_nat (length p) <=? Z.of_nat (length buf))
  then Ok (take (Z.to_nat i) buf ++ (Some <$> p) ++ drop (Z.to_nat i + length p) buf)
  else Abort "memcpy past the end of the backlog".
Definition memcpy_out (buf : list (option byte)) (i n : Z) : res (list (option byte)) :=
  if (0 <=? i) && (0 <=? n) && (i + n <=? Z.of_nat (length buf))
  then Ok (take (Z.to_nat n) (drop (Z.to_nat i) buf))
  else Abort "read past the end of the backlog".

Definition createReplicationBacklog (b : backlog) : res backlog :=
  serverAssert (bool_decide (repl_backlog b = None)) "server.repl_backlog == NULL";;
  mret (Backlog (Some (zmalloc (repl_backlog_size b))) (repl_backlog_size b) 0 0
    (master_repl_offset b + 1) (master_repl_offset b)).

Definition resizeReplicationBacklog (newsize : Z) (b : backlog) : backlog :=
  let newsize := if newsize <? CONFIG_REPL_BACKLOG_MIN_SIZE then CONFIG_REPL_BACKLOG_MIN_SIZE else newsize in
  if repl_backlog_size b =? newsize then b
  else match repl_backlog b with
  | Some _ => Backlog (Some (zmalloc newsize)) newsize 0 0 (master_repl_offset b + 1) (master_repl_offset b)
  | None => Backlog None newsize (repl_backlog_histlen b) (repl_backlog_idx b) (repl_backlog_off b) (master_repl_offset b)
  end.

Definition freeReplicationBacklog (nslaves : nat) (b : backlog) : res backlog :=
  serverAssert (bool_decide (nslaves = 0%nat)) "listLength(server.slaves) == 0";;
  mret (Backlog None (repl_backlog_size b) (repl_backlog_histlen b) (repl_backlog_idx b) (repl_backlog_off b)
    (master_repl_offset b)).

(** The [while (len)] loop.  Every turn writes a byte at least: the length of the data is
    fuel enough. *)
Fixpoint feed_loop (fuel : nat) (p : bytes) (b : backlog) : res backlog :=
  match p, fuel with
  | [], _ => mret b
  | _, O => Abort "feedReplicationBacklog does not end"
  | _, S fuel' =>
      let len := Z.of_nat (length p) in
      let thislen := repl_backlog_size b - repl_backlog_idx b in
      let thislen := if len <? thislen then len else thislen in
      buf ← res_of_option (repl_backlog b) "NULL backlog";
      buf ← memcpy_in buf (repl_backlog_idx b) (take (Z.to_nat thislen) p);
      let idx := repl_backlog_idx b + thislen in
      let idx := if idx =? repl_backlog_size b then 0 else idx in
      feed_loop fuel' (drop (Z.to_nat thislen) p)
        (Backlog (Some buf) (repl_backlog_size b) (repl_backlog_histlen b + thislen) idx (repl_backlog_off b)
           (master_repl_offset b))
  end.

Definition feedReplicationBacklog (p : bytes) (b : backlog) : res backlog :=
  let moff := master_repl_offset b + Z.of_nat (length p) in
  b ← feed_loop (length p) p b;
  let histlen := if repl_backlog_size b <? repl_backlog_histlen b then repl_backlog_size b
                 else repl_backlog_histlen b in
  mret (Backlog (repl_backlog b) (repl_backlog_size b) histlen (repl_backlog_idx b) (moff - histlen + 1) moff).

(** The [while (len)] loop of [addReplyReplicationBacklog]: what it sends. *)
Fixpoint reply_loop (fuel : nat) (buf : list (option byte)) (size j len : Z) : res (list (option byte)) :=
  if len =? 0 then mret []
  else match fuel with
  | O => Abort "addReplyReplicationBacklog does not end"
  | S fuel' =>
      let thislen := if size - j <? len then size - j else len in
      part ← memcpy_out buf j thislen;
      rest ← reply_loop fuel' buf size 0 (len - thislen);
      mret (part ++ rest)
  end.

(** What is added to the output of the replica, and the result.  Two turns of the loop
    are enough, as the buffer has to be left at most once. *)
Definition addReplyReplicationBacklog (offset : Z) (b : backlog) : res (list (option byte) * Z) :=
  if repl_backlog_histlen b =? 0 then mret ([], 0)
  else
    let skip := offset - repl_backlog_off b in
    let size := repl_backlog_size b in
    let j := Z.rem (repl_backlog_idx b + (size - repl_backlog_histlen b)) size in
    let j := Z.rem (j + skip) size in
    let len := repl_backlog_histlen b - skip in
    buf ← res_of_option (repl_backlog b) "NULL backlog";
    out ← reply_loop 2 buf size j len;
    mret (out, repl_backlog_histlen b - skip).

(** ** What the buffer means *)

(** [ring buf size idx w st]: the last [w] bytes of [st] are the [w] cells before [idx],
    around the end of the buffer. *)
Definition ring (buf : list (option byte)) (size idx w : Z) (st : bytes) : Prop :=
  Z.of_nat (length buf) = size ∧ 0 ≤ idx < size ∧ 0 ≤ w ≤ size ∧ w ≤ Z.of_nat (length st) ∧
  ∀ k, 0 ≤ k < w → buf !! Z.to_nat ((idx - 1 - k) mod size) = Some (st !! Z.to_nat (Z.of_nat (length st) - 1 - k)).

Record holds (b : backlog) (st : bytes) : Prop := {
  holds_ring : ∃ buf, repl_backlog b = Some buf ∧
    ring buf (repl_backlog_size b) (repl_backlog_idx b) (repl_backlog_histlen b) st;
  holds_off : repl_backlog_off b = master_repl_offset b - repl_backlog_histlen b + 1;
}.

(** Operations on a backlog that exists. *)
Inductive bop := Feed (p : bytes) | Resize (newsize : Z).
Definition run_bop (b : backlog) (o : bop) : res backlog :=
  match o with
  | Feed p => feedReplicationBacklog p b
  | Resize n => mret (resizeReplicationBacklog n b)
  end.
Fixpoint run_bops (os : list bop) (b : backlog) : res backlog :=
  match os with [] => mret b | o :: os' => b ← run_bop b o; run_bops os' b end.

Definition fed_bytes (os : list bop) : bytes := os ≫= (fun o => match o with Feed p => p | Resize _ => [] end).

(** ** Proofs *)

Lemma memcpy_in_Ok buf i (p : bytes) :
  0 ≤ i → i + Z.of_nat (length p) ≤ Z.of_nat (length buf) →
  memcpy_in buf i p = Ok (take (Z.to_nat i) buf ++ (Some <$> p) ++ drop (Z.to_nat i + length p) buf).
Proof. intros. unfold memcpy_in. by rewrite (proj2 (Z.leb_le _ _)), (proj2 (Z.leb_le _ _)) by lia. Qed.

Lemma ring_write buf size idx w st (p : bytes) :
  ring buf size idx w st → idx + Z.of_nat (length p) ≤ size → 0 < size →
  let idx' := idx + Z.of_nat (length p) in
  ring (take (Z.to_nat idx) buf ++ (Some <$> p) ++ drop (Z.to_nat idx + length p) buf) size
    (if idx' =? size then 0 else idx') (Z.min size (w + Z.of_nat (length p))) (st ++ p).
Proof.
  intros (Hl & Hi & Hw & Hs & H) Hp Hpos idx'. set (n := Z.of_nat (length p)) in *.
  assert (length (take (Z.to_nat idx) buf) = Z.to_nat idx) as Ht by (rewrite length_take; lia).
  split; [rewrite !length_app, length_fmap, length_drop, Ht; lia|].
  assert (0 ≤ (if idx' =? size then 0 else idx') < size) as Hi' by (destruct (Z.eqb_spec idx' size); lia).
  split; [done|]. split; [lia|]. split; [rewrite length_app; lia|].
  intros k Hk. rewrite length_app.
  assert (((if idx' =? size then 0 else idx') - 1 - k) mod size = (idx' - 1 - k) mod size) as ->.
  { destruct (Z.eqb_spec idx' size) as [->|]; [|done]. rewrite <- (Z.mod_add (0 - 1 - k) 1) by lia. f_equal. lia. }
  destruct (decide (k < n)) as [Hn|Hn].
  - rewrite Z.mod_small by lia. rewrite lookup_app_r by lia. rewrite Ht.
    rewrite lookup_app_l by (rewrite length_fmap; lia). rewrite list_lookup_fmap.
    rewrite lookup_app_r by lia.
    replace (Z.to_nat (Z.of_nat (length st + length p) - 1 - k) - length st)%nat
      with (Z.to_nat (idx' - 1 - k) - Z.to_nat idx)%nat by lia.
    destruct (p !! _) eqn:E; [done|]. apply lookup_ge_None in E. lia.
  - assert (buf !! Z.to_nat ((idx' - 1 - k) mod size) = Some (st !! Z.to_nat (Z.of_nat (length st) - 1 - (k - n)))) as Hb.
    { rewrite <- H by lia. f_equal. f_equal. f_equal. lia. }
    rewrite (lookup_app_l st) by lia.
    replace (Z.of_nat (length st + length p) - 1 - k) with (Z.of_nat (length st) - 1 - (k - n)) by lia.
    rewrite <- Hb.
    destruct (decide (0 ≤ idx' - 1 - k)) as [Hs0|Hs0].
    + rewrite Z.mod_small by lia. rewrite lookup_app_l by lia. by rewrite lookup_take_lt by lia.
    + assert ((idx' - 1 - k) mod size = idx' - 1 - k + size) as ->.
      { rewrite <- (Z.mod_add _ 1) by lia. rewrite Z.mod_small; lia. }
      rewrite lookup_app_r by lia. rewrite Ht, lookup_app_r by (rewrite length_fmap; lia).
      rewrite length_fmap, lookup_drop. f_equal. lia.
Qed.

Lemma feed_loop_spec fuel : ∀ p b buf st,
  (length p ≤ fuel)%nat → 0 < repl_backlog_size b → 0 ≤ repl_backlog_histlen b →
  repl_backlog b = Some buf →
  ring buf (repl_backlog_size b) (repl_backlog_idx b) (Z.min (repl_backlog_size b) (repl_backlog_histlen b)) st →
  ∃ b' buf', feed_loop fuel p b = Ok b' ∧ repl_backlog b' = Some buf' ∧
    repl_backlog_size b' = repl_backlog_size b ∧
    repl_backlog_histlen b' = repl_backlog_histlen b + Z.of_nat (length p) ∧
    ring buf' (repl_backlog_size b) (repl_backlog_idx b')
      (Z.min (repl_backlog_size b) (repl_backlog_histlen b')) (st ++ p).
Proof.
  induction fuel as [|fuel IH]; intros p b buf st Hf Hpos Hh Hb Hr.
  - destruct p; [|simpl in Hf; lia]. exists b, buf. rewrite app_nil_r. cbn. repeat split; try done; try lia; apply Hr.
  - destruct p as [|x p]; [exists b, buf; rewrite app_nil_r; cbn; repeat split; try done; try lia; apply Hr|].
    cbn [feed_loop]. remember (x :: p) as q eqn:Eq.
    assert (0 < Z.of_nat (length q)) as Hq by (subst q; cbn; lia). clear Eq x p.
    set (t := if Z.of_nat (length q) <? repl_backlog_size b - repl_backlog_idx b then _ else _).
    pose proof Hr as (Hl & Hi & Hw & Hs & _).
    assert (0 < t ≤ Z.of_nat (length q) ∧ repl_backlog_idx b + t ≤ repl_backlog_size b) as (Ht & Hti).
    { unfold t. destruct (Z.ltb_spec (Z.of_nat (length q)) (repl_backlog_size b - repl_backlog_idx b)); lia. }
    assert (Z.of_nat (length (take (Z.to_nat t) q)) = t) as Htl by (rewrite length_take; lia).
    rewrite Hb. cbn [res_of_option mbind res_bind]. rewrite memcpy_in_Ok by lia. cbn [mbind res_bind].
    pose proof (ring_write _ _ _ _ _ (take (Z.to_nat t) q) Hr ltac:(lia) Hpos) as Hr'.
    cbn zeta in Hr'. rewrite Htl in Hr'.
    set (b1 := Backlog _ _ _ _ _ _).
    destruct (IH (drop (Z.to_nat t) q) b1 _ (st ++ take (Z.to_nat t) q)
      ltac:(rewrite length_drop; lia) Hpos ltac:(cbn; lia) eq_refl) as (b' & buf' & Hrun & Hb' & Hsz & Hh' & Hring); cbn.
    + replace (Z.min (repl_backlog_size b) (repl_backlog_histlen b + t))
        with (Z.min (repl_backlog_size b) (Z.min (repl_backlog_size b) (repl_backlog_histlen b) + t)) by lia.
      exact Hr'.
    + exists b', buf'. split; [exact Hrun|]. cbn in Hsz, Hh', Hring. rewrite <- app_assoc, take_drop in Hring. rewrite length_drop in Hh'.
      split; [done|]. split; [done|]. split; [lia|]. done.
Qed.

Lemma feed_spec b st p :
  holds b st →
  ∃ b', feedReplicationBacklog p b = Ok b' ∧ holds b' (st ++ p) ∧
    master_repl_offset b' = master_repl_offset b + Z.of_nat (length p) ∧
    repl_backlog_size b' = repl_backlog_size b ∧
    repl_backlog_histlen b' = Z.min (repl_backlog_size b) (repl_backlog_histlen b + Z.of_nat (length p)).
Proof.
  intros [(buf & Hb & Hr) Ho]. pose proof Hr as (_ & Hi & Hw & _).
  destruct (feed_loop_spec (length p) p b buf st) as (b' & buf' & Hrun & Hb' & Hsz & Hh & Hr');
    [lia|lia|lia|done|by rewrite Z.min_r by lia|].
  unfold feedReplicationBacklog. rewrite Hrun. cbn [mbind res_bind mret res_ret].
  eexists. split; [done|].
  assert ((if repl_backlog_size b' <? repl_backlog_histlen b' then repl_backlog_size b' else repl_backlog_histlen b')
    = Z.min (repl_backlog_size b) (repl_backlog_histlen b + Z.of_nat (length p))) as E.
  { rewrite Hsz, Hh. destruct (Z.ltb_spec (repl_backlog_size b) (repl_backlog_histlen b + Z.of_nat (length p))); lia. }
  split; [|cbn; repeat split; lia]. split; cbn; [|done]. exists buf'. split; [done|].
  rewrite E, Hsz. by rewrite Hh in Hr'.
Qed.

Lemma zmalloc_ring size st : 0 < size → ring (zmalloc size) size 0 0 st.
Proof.
  intros. unfold ring, zmalloc. rewrite length_replicate. repeat split; try lia.
Qed.

Lemma create_spec b st :
  repl_backlog b = None → 0 < repl_backlog_size b →
  ∃ b', createReplicationBacklog b = Ok b' ∧ holds b' st ∧ master_repl_offset b' = master_repl_offset b ∧
    repl_backlog_histlen b' = 0 ∧ repl_backlog_size b' = repl_backlog_size b.
Proof.
  intros Hn Hs. unfold createReplicationBacklog. rewrite bool_decide_eq_true_2 by done. cbn.
  eexists. split; [done|]. split; [|done]. split; cbn; [|lia]. eexists. split; [done|]. by apply zmalloc_ring.
Qed.

Lemma resize_backlog_spec b st n :
  holds b st → holds (resizeReplicationBacklog n b) st ∧
    master_repl_offset (resizeReplicationBacklog n b) = master_repl_offset b.
Proof.
  intros Hh. unfold resizeReplicationBacklog. set (n' := if n <? _ then _ else _).
  destruct (repl_backlog_size b =? n'); [done|]. pose proof Hh as [(buf & -> & _) _].
  split; [|done]. split; cbn; [|lia]. eexists. split; [done|]. apply zmalloc_ring.
  unfold n'. destruct (Z.ltb_spec n CONFIG_REPL_BACKLOG_MIN_SIZE); unfold CONFIG_REPL_BACKLOG_MIN_SIZE in *; lia.
Qed.

(** ** Reading *)

(** Cells that follow each other, up to the end of the buffer. *)
Lemma ring_chunk buf size idx w st j n o :
  ring buf size idx w st → 0 ≤ j → 0 ≤ n → j + n ≤ size → 0 ≤ o → o + n ≤ w →
  j mod size = (idx - w + o) mod size →
  memcpy_out buf j n = Ok (Some <$> take (Z.to_nat n) (drop (Z.to_nat (Z.of_nat (length st) - w + o)) st)).
Proof.
  intros (Hl & Hi & Hw & Hs & H) Hj Hn Hjn Ho Hon Hm. unfold memcpy_out.
  rewrite (proj2 (Z.leb_le _ _)), (proj2 (Z.leb_le _ _)), (proj2 (Z.leb_le _ _)) by lia. cbn.
  f_equal. apply list_eq. intros i. rewrite list_lookup_fmap.
  destruct (decide (i < Z.to_nat n)%nat) as [Hin|Hin].
  - rewrite !lookup_take_lt, !lookup_drop by lia.
    specialize (H (w - 1 - o - Z.of_nat i) ltac:(lia)).
    replace ((idx - 1 - (w - 1 - o - Z.of_nat i)) mod size) with (j + Z.of_nat i) in H.
    2:{ replace (idx - 1 - (w - 1 - o - Z.of_nat i)) with (idx - w + o + Z.of_nat i) by lia.
        rewrite <- Zplus_mod_idemp_l, <- Hm, Zplus_mod_idemp_l, Z.mod_small; lia. }
    replace (Z.to_nat j + i)%nat with (Z.to_nat (j + Z.of_nat i)) by lia. rewrite H.
    replace (Z.to_nat (Z.of_nat (length st) - 1 - (w - 1 - o - Z.of_nat i)))
      with (Z.to_nat (Z.of_nat (length st) - w + o) + i)%nat by lia.
    set (m := (_ + i)%nat). destruct (lookup_lt_is_Some_2 st m) as [x ->]; [unfold m; lia|done].
  - rewrite !lookup_ge_None_2; [done| |]; rewrite length_take; lia.
Qed.

(** A request for an offset that is in the buffer. *)
Lemma addReply_spec b st offset :
  holds b st → repl_backlog_off b ≤ offset ≤ repl_backlog_off b + repl_backlog_histlen b →
  addReplyReplicationBacklog offset b =
    Ok (Some <$> drop (Z.to_nat (Z.of_nat (length st) - (master_repl_offset b + 1 - offset))) st,
        master_repl_offset b + 1 - offset).
Proof.
  intros [(buf & Hb & Hr) Ho] Hof. pose proof Hr as (Hl & Hi & Hw & Hs & _).
  unfold addReplyReplicationBacklog. set (size := repl_backlog_size b) in *. set (w := repl_backlog_histlen b) in *.
  set (idx := repl_backlog_idx b) in *.
  replace (master_repl_offset b + 1 - offset) with (w - (offset - repl_backlog_off b)) by lia.
  set (skip := offset - repl_backlog_off b). assert (0 ≤ skip ≤ w) as Hsk by lia. clearbody skip. clear Hof Ho.
  destruct (Z.eqb_spec w 0) as [Hw0|Hw0].
  { rewrite drop_ge by lia. cbn. do 2 f_equal. lia. }
  rewrite Hb. cbn [res_of_option mbind res_bind]. 
  pose proof (Z.mod_pos_bound (idx + (size - w)) size ltac:(lia)) as Hj0.
  rewrite (Z.rem_mod_nonneg (idx + _)) by lia. rewrite Z.rem_mod_nonneg by lia.
  set (j := ((idx + (size - w)) mod size + skip) mod size).
  assert (0 ≤ j < size) as Hj by (apply Z.mod_pos_bound; lia).
  assert (j = (idx - w + skip) mod size) as Hjm.
  { unfold j. rewrite Zplus_mod_idemp_l. rewrite <- (Z.mod_add (idx - w + skip) 1) by lia. f_equal. lia. }
  clearbody j. cbn [reply_loop]. destruct (Z.eqb_spec (w - skip) 0) as [He|He].
  { cbn. rewrite drop_ge by lia. done. }
  set (t := if size - j <? w - skip then size - j else w - skip).
  assert (0 < t ≤ w - skip ∧ j + t ≤ size ∧ (t < w - skip → j + t = size)) as (Ht & Hjt & Htt).
  { unfold t. destruct (Z.ltb_spec (size - j) (w - skip)); lia. }
  rewrite (ring_chunk _ _ _ _ _ j t skip Hr) by (try rewrite Hjm, Z.mod_mod; lia). cbn [mbind res_bind].
  set (from := Z.to_nat (Z.of_nat (length st) - w + skip)).
  replace (Z.to_nat (Z.of_nat (length st) - (w - skip))) with from by lia.
  destruct (Z.eqb_spec (w - skip - t) 0) as [He'|He'].
  { cbn. rewrite app_nil_r, (take_ge (drop _ _)); [done|]. rewrite length_drop. lia. }
  rewrite (proj2 (Z.ltb_ge (size - 0) _)) by lia.
  rewrite (ring_chunk _ _ _ _ _ 0 (w - skip - t) (skip + t) Hr); try lia.
  2:{ rewrite Z.add_assoc, <- Zplus_mod_idemp_l, <- Hjm, Htt by lia. by rewrite Z.mod_same, Z.mod_0_l by lia. }
  cbn [mbind res_bind]. rewrite (proj2 (Z.eqb_eq _ _)) by lia. cbn [mbind res_bind mret res_ret].
  rewrite app_nil_r, <- fmap_app. do 3 f_equal.
  rewrite <- (take_drop (Z.to_nat t) (drop from st)) at 2. f_equal.
  rewrite drop_drop, (take_ge (drop _ _)); [f_equal; lia|]. rewrite length_drop. lia.
Qed.

(** ** Runs *)

Lemma run_bops_spec os : ∀ b st,
  holds b st →
  ∃ b', run_bops os b = Ok b' ∧ holds b' (st ++ fed_bytes os) ∧
    master_repl_offset b' = master_repl_offset b + Z.of_nat (length (fed_bytes os)).
Proof.
  induction os as [|o os IH]; intros b st Hh; cbn [run_bops fed_bytes].
  - exists b. cbn. rewrite app_nil_r. repeat split; try apply Hh. lia.
  - assert (∃ b1, run_bop b o = Ok b1 ∧ holds b1 (st ++ fed_bytes [o]) ∧
      master_repl_offset b1 = master_repl_offset b + Z.of_nat (length (fed_bytes [o]))) as (b1 & -> & Hh1 & Hm1).
    { destruct o as [p|n]; cbn [run_bop fed_bytes mbind list_bind]; rewrite app_nil_r.
      - destruct (feed_spec b st p Hh) as (b1 & -> & Hh1 & Hm1 & _). by eexists.
      - eexists. split; [done|]. rewrite app_nil_r. destruct (resize_backlog_spec b st n Hh) as [? ->]. split; [done|]. cbn. lia. }
    cbn [mbind res_bind]. destruct (IH b1 _ Hh1) as (b2 & -> & Hh2 & Hm2). exists b2. split; [done|].
    change (fed_bytes (o :: os)) with (fed_bytes ([o] ++ os)). unfold fed_bytes in *. rewrite bind_app, app_assoc.
    split; [done|]. rewrite length_app. lia.
Qed.

Lemma run_feeds_histlen os : ∀ b st b',
  holds b st → (∀ n, Resize n ∉ os) → run_bops os b = Ok b' →
  repl_backlog_size b' = repl_backlog_size b ∧
  repl_backlog_histlen b' = Z.min (repl_backlog_size b) (repl_backlog_histlen b + Z.of_nat (length (fed_bytes os))).
Proof.
  induction os as [|o os IH]; intros b st b' Hh Hn Hrun; cbn [run_bops] in Hrun.
  - cbn in Hrun. injection Hrun as <-. pose proof Hh as [(buf & _ & _ & _ & Hw & _) _]. cbn. lia.
  - destruct o as [p|n]; [|by destruct (Hn n); left]. cbn [run_bop] in Hrun.
    destruct (feed_spec b st p Hh) as (b1 & Hf & Hh1 & _ & Hs & Hl). rewrite Hf in Hrun. cbn [mbind res_bind] in Hrun.
    destruct (IH b1 _ b' Hh1) as [-> ->]; [intros n Hin; apply (Hn n); by right|done|].
    unfold fed_bytes. cbn [mbind list_bind]. rewrite length_app. split; [done|]. rewrite Hs, Hl. lia.
Qed.

(** C25: after any sequence of feeds and of changes of the size, a replica that asks for an
    offset the backlog still has is sent exactly the bytes of the stream from that
    offset on; no assertion fails, the offset of the server counts the bytes fed, and the
    buffer has as many of the last bytes as fit when its size does not change. *)
Theorem backlog_exact b os :
  repl_backlog b = None → 0 < repl_backlog_size b →
  ∃ b1 b2, createReplicationBacklog b = Ok b1 ∧ run_bops os b1 = Ok b2 ∧
    master_repl_offset b2 = master_repl_offset b + Z.of_nat (length (fed_bytes os)) ∧
    ((∀ n, Resize n ∉ os) →
       repl_backlog_histlen b2 = Z.min (repl_backlog_size b) (Z.of_nat (length (fed_bytes os)))) ∧
    ∀ offset, repl_backlog_off b2 ≤ offset ≤ repl_backlog_off b2 + repl_backlog_histlen b2 →
      master_repl_offset b < offset ≤ master_repl_offset b2 + 1 ∧
      addReplyReplicationBacklog offset b2 =
        Ok (Some <$> drop (Z.to_nat (offset - 1 - master_repl_offset b)) (fed_bytes os), master_repl_offset b2 + 1 - offset).
Proof.
  intros Hn Hs. destruct (create_spec b [] Hn Hs) as (b1 & Hc & Hh & Hm & Hl & Hz).
  destruct (run_bops_spec os b1 [] Hh) as (b2 & Hr & Hh2 & Hm2). exists b1, b2.
  split; [done|]. split; [done|]. split; [lia|]. split.
  - intros Hno. destruct (run_feeds_histlen os b1 [] b2 Hh Hno Hr) as [_ ->]. rewrite Hz, Hl. done.
  - intros offset Ho. cbn [app] in Hh2. pose proof Hh2 as [(buf & _ & _ & _ & Hw & Hlen & _) Hoff].
    split; [lia|]. rewrite (addReply_spec b2 _ offset Hh2 Ho). do 4 f_equal. lia.
Qed.

Definition w_bytes : bytes := [x61; x62; x63; x64; x65; x66; x67].
Lemma backlog_exact_witness :
  ∃ b1 b2, createReplicationBacklog (Backlog None 5 0 0 0 100) = Ok b1 ∧
    run_bops [Feed (take 3 w_bytes); Feed (drop 3 w_bytes)] b1 = Ok b2 ∧
    addReplyReplicationBacklog 104 b2 = Ok (Some <$> [x64; x65; x66; x67], 4).
Proof.
  destruct (backlog_exact (Backlog None 5 0 0 0 100) [Feed (take 3 w_bytes); Feed (drop 3 w_bytes)])
    as (b1 & b2 & Hc & Hr & Hm & Hl & H); [done|done|].
  exists b1, b2. split; [exact Hc|]. split; [exact Hr|].
  destruct (H 104) as [_ ->]; [|rewrite Hm; reflexivity].
  vm_compute in Hc. injection Hc as <-. vm_compute in Hr. injection Hr as <-. vm_compute. split; congruence.
Defined.
