(* ===== verification/Replication.v ===== *)
(** * Replication (src/src/replication.c, with parts of networking.c, server.c and rock.c)

    What a server does for its replicas and for its master: the stream of commands, the
    requests for a partial or full resynchronization, the two replication IDs, the
    cached master, changes of the role, and how the stream of the master is
    applied, also when a command of the stream waits for a value in RocksDB.

    A function of the server returns what it puts on the connections of the replicas
    (a list of [conn * msg]).  A message is a line of text, an RDB file or a part of the
    stream; a connection delivers messages in order.  An RDB file is its contents,
    of type [data].

    Left out: the handshake before PSYNC (PING, AUTH, REPLCONF), diskless
    transfers, capabilities (replicas of this version announce the same ones), timeouts, the
    old SYNC command, and the database that is selected at a replica ([repl_stream_db]). *)

From S2P Require Import Prelude Util Cmds Resp Backlog.
From stdpp Require Import list gmap.
#[local] Open Scope Z_scope.

(** ** Data *)

(** An argument of a command: a string object, as an integer or as characters. *)
Inductive argobj := AInt (v : Z) | AStr (s : bytes).
#[global] Instance argobj_eq_dec : EqDecision argobj.
Proof. solve_decision. Defined.

(** The contents of a server, as what was applied to it since it was empty: the bytes of
    a replication stream, and commands of clients that were not put in a stream. *)
Inductive tok := TByte (b : byte) | TCmd (dictid : Z) (argv : list argobj).
#[global] Instance tok_eq_dec : EqDecision tok.
Proof. solve_decision. Defined.
Abbreviation data := (list tok).

Abbreviation conn := nat.
Inductive msg := MLine (l : bytes) | MRdb (d : data) | MStream (p : bytes).
#[global] Instance msg_eq_dec : EqDecision msg.
Proof. solve_decision. Defined.
Abbreviation output := (list (conn * msg)).

Inductive slave_state :=
  SLAVE_STATE_WAIT_BGSAVE_START | SLAVE_STATE_WAIT_BGSAVE_END | SLAVE_STATE_SEND_BULK | SLAVE_STATE_ONLINE.
#[global] Instance slave_state_eq_dec : EqDecision slave_state.
Proof. solve_decision. Defined.

(** The client of a replica.  [sc_reply] is the output that is kept back until the RDB file
    was sent, [sc_rdb] the contents of that file. *)
Record sclient := SClient {
  sc_conn : conn;
  replstate : slave_state;
  psync_initial_offset : Z;
  sc_reply : bytes;
  sc_rdb : data;
}.
#[global] Instance sclient_eq_dec : EqDecision sclient.
Proof. solve_decision. Defined.

(** The client of the master.  [mc_querybuf] starts at [qb_pos].  [mc_rock] says that
    [rockKeyNumber] is not zero, [mc_cmd] that [argv] and [cmd] hold a command. *)
Record mclient := MClient {
  mc_conn : option conn;
  mc_replid : bytes;
  reploff : Z;
  read_reploff : Z;
  mc_querybuf : bytes;
  pending_querybuf : bytes;
  mc_rock : bool;
  mc_cmd : bool;
}.

#[global] Instance mclient_eq_dec : EqDecision mclient.
Proof. solve_decision. Defined.

Inductive rstate :=
  REPL_STATE_NONE | REPL_STATE_CONNECT | REPL_STATE_RECEIVE_PSYNC | REPL_STATE_TRANSFER | REPL_STATE_CONNECTED.
#[global] Instance rstate_eq_dec : EqDecision rstate.
Proof. solve_decision. Defined.

Record rserver := RServer {
  bl : backlog;
  replid : bytes;
  replid2 : bytes;
  second_replid_offset : Z;
  slaves : list sclient;
  slaveseldb : Z;
  rdb_child : bool;
  masterhost : option nat;
  repl_state : rstate;
  repl_transfer_s : option conn;
  master : option mclient;
  cached_master : option mclient;
  master_replid : bytes;
  master_initial_offset : Z;
}.

Definition moff (s : rserver) : Z := master_repl_offset (bl s).

Definition set_bl b s := RServer b (replid s) (replid2 s) (second_replid_offset s) (slaves s) (slaveseldb s) (rdb_child s)
  (masterhost s) (repl_state s) (repl_transfer_s s) (master s) (cached_master s) (master_replid s) (master_initial_offset s).
Definition set_ids i i2 o s := RServer (bl s) i i2 o (slaves s) (slaveseldb s) (rdb_child s)
  (masterhost s) (repl_state s) (repl_transfer_s s) (master s) (cached_master s) (master_replid s) (master_initial_offset s).
Definition set_slaves l s := RServer (bl s) (replid s) (replid2 s) (second_replid_offset s) l (slaveseldb s) (rdb_child s)
  (masterhost s) (repl_state s) (repl_transfer_s s) (master s) (cached_master s) (master_replid s) (master_initial_offset s).
Definition set_slaveseldb i s := RServer (bl s) (replid s) (replid2 s) (second_replid_offset s) (slaves s) i (rdb_child s)
  (masterhost s) (repl_state s) (repl_transfer_s s) (master s) (cached_master s) (master_replid s) (master_initial_offset s).
Definition set_child c s := RServer (bl s) (replid s) (replid2 s) (second_replid_offset s) (slaves s) (slaveseldb s) c
  (masterhost s) (repl_state s) (repl_transfer_s s) (master s) (cached_master s) (master_replid s) (master_initial_offset s).
Definition set_masterhost h s := RServer (bl s) (replid s) (replid2 s) (second_replid_offset s) (slaves s) (slaveseldb s)
  (rdb_child s) h (repl_state s) (repl_transfer_s s) (master s) (cached_master s) (master_replid s) (master_initial_offset s).
Definition set_state t s := RServer (bl s) (replid s) (replid2 s) (second_replid_offset s) (slaves s) (slaveseldb s)
  (rdb_child s) (masterhost s) t (repl_transfer_s s) (master s) (cached_master s) (master_replid s) (master_initial_offset s).
Definition set_transfer c s := RServer (bl s) (replid s) (replid2 s) (second_replid_offset s) (slaves s) (slaveseldb s)
  (rdb_child s) (masterhost s) (repl_state s) c (master s) (cached_master s) (master_replid s) (master_initial_offset s).
Definition set_master m s := RServer (bl s) (replid s) (replid2 s) (second_replid_offset s) (slaves s) (slaveseldb s)
  (rdb_child s) (masterhost s) (repl_state s) (repl_transfer_s s) m (cached_master s) (master_replid s) (master_initial_offset s).
Definition set_cached m s := RServer (bl s) (replid s) (replid2 s) (second_replid_offset s) (slaves s) (slaveseldb s)
  (rdb_child s) (masterhost s) (repl_state s) (repl_transfer_s s) (master s) m (master_replid s) (master_initial_offset s).
Definition set_initial i o s := RServer (bl s) (replid s) (replid2 s) (second_replid_offset s) (slaves s) (slaveseldb s)
  (rdb_child s) (masterhost s) (repl_state s) (repl_transfer_s s) (master s) (cached_master s) i o.

(** ** IDs *)

Definition CONFIG_RUN_ID_SIZE : nat := 40.
Definition zero_id : bytes := replicate CONFIG_RUN_ID_SIZE x30.

(** [newid] is what [getRandomHexChars] returns. *)
Definition changeReplicationId (newid : bytes) (s : rserver) : rserver :=
  set_ids newid (replid2 s) (second_replid_offset s) s.
Definition clearReplicationId2 (s : rserver) : rserver := set_ids (replid s) zero_id (-1) s.
Definition shiftReplicationId (newid : bytes) (s : rserver) : rserver :=
  let s := set_ids (replid s) (replid s) (moff s + 1) s in
  changeReplicationId newid s.

Definition strcasecmp_eq (a b : bytes) : bool :=
  bool_decide (tolower <$> c_string a = tolower <$> c_string b).

(** ** The stream *)

(** What [addReply] sends to a replica that is not waiting for BGSAVE to start; the
    output goes to the connection when the replica is online. *)
Definition addReply_slave (p : bytes) (sl : sclient) : sclient * output :=
  match replstate sl with
  | SLAVE_STATE_WAIT_BGSAVE_START => (sl, [])
  | SLAVE_STATE_ONLINE => (sl, [(sc_conn sl, MStream p)])
  | _ => (SClient (sc_conn sl) (replstate sl) (psync_initial_offset sl) (sc_reply sl ++ p) (sc_rdb sl), [])
  end.
Definition addReply_slaves (p : bytes) (s : rserver) : rserver * output :=
  let l := addReply_slave p <$> slaves s in
  (set_slaves (fst <$> l) s, l ≫= snd).

Definition OBJ_SHARED_BULKHDR_LEN : Z := 32.
Definition PROTO_SHARED_SELECT_CMDS : Z := 10.

(** The characters of an object, as [addReply] and [feedReplicationBacklogWithObject]
    print them (buffers of 32 and of 21 characters). *)
Definition addReply_obj (o : argobj) : bytes :=
  match o with AInt v => default [] (ll2string 32 v) | AStr s => s end.
Definition backlog_obj (o : argobj) : bytes :=
  match o with AInt v => default [] (ll2string 21 v) | AStr s => s end.
Definition stringObjectLen (o : argobj) : Z :=
  match o with AInt v => sdigits10 v | AStr s => Z.of_nat (length s) end.

(** [addReplyLongLongWithPrefix], with the shared headers of small lengths. *)
Definition addReplyLongLongWithPrefix (ll : Z) (prefix : byte) : bytes :=
  if (ll <? OBJ_SHARED_BULKHDR_LEN) && (0 <=? ll) then prefix :: sdsfromlonglong ll ++ CRLF
  else prefix :: default [] (ll2string 127 ll) ++ CRLF.
Definition addReplyArrayLen (length : Z) : bytes := addReplyLongLongWithPrefix length x2a.
Definition addReplyBulk (o : argobj) : bytes :=
  addReplyLongLongWithPrefix (stringObjectLen o) x24 ++ addReply_obj o ++ CRLF.

(** [shared.select] and the SELECT command that is made for large numbers. *)
Definition select_prefix : bytes := String.list_byte_of_string "*2" ++ CRLF ++ String.list_byte_of_string "$6" ++ CRLF
  ++ String.list_byte_of_string "SELECT" ++ CRLF ++ [x24].
Definition selectcmd (dictid : Z) : bytes :=
  let str := default [] (ll2string (if (0 <=? dictid) && (dictid <? PROTO_SHARED_SELECT_CMDS) then 64 else 21) dictid) in
  select_prefix ++ sdsfromlonglong (Z.of_nat (length str)) ++ CRLF ++ str ++ CRLF.

(** The pieces in which [replicationFeedSlaves] feeds a command to the backlog
    ([aux] has 24 characters), and what it sends to a replica. *)
Definition aux_line (c : byte) (n : Z) : bytes := c :: default [] (ll2string 23 n) ++ CRLF.
Definition backlog_pieces (argv : list argobj) : list bytes :=
  aux_line x2a (Z.of_nat (length argv)) :: argv ≫= (fun o => [aux_line x24 (stringObjectLen o); backlog_obj o; CRLF]).
Definition slave_bytes (argv : list argobj) : bytes :=
  addReplyArrayLen (Z.of_nat (length argv)) ++ argv ≫= addReplyBulk.

Fixpoint feed_pieces (ps : list bytes) (b : backlog) : res backlog :=
  match ps with [] => mret b | p :: ps' => b ← feedReplicationBacklog p b; feed_pieces ps' b end.

Definition replicationFeedSlaves (dictid : Z) (argv : list argobj) (s : rserver) : res (rserver * output) :=
  if bool_decide (masterhost s ≠ None) then mret (s, [])
  else if bool_decide (repl_backlog (bl s) = None) && bool_decide (slaves s = []) then mret (s, [])
  else
    serverAssert (bool_decide (slaves s = []) || bool_decide (repl_backlog (bl s) ≠ None)) "slaves and no backlog";;
    '(s, out1) ←
      (if slaveseldb s =? dictid then mret (s, [])
       else
         b ← (if bool_decide (repl_backlog (bl s) = None) then mret (bl s)
              else feedReplicationBacklog (selectcmd dictid) (bl s));
         mret (addReply_slaves (selectcmd dictid) (set_bl b s)));
    let s := set_slaveseldb dictid s in
    b ← (if bool_decide (repl_backlog (bl s) = None) then mret (bl s) else feed_pieces (backlog_pieces argv) (bl s));
    let '(s, out2) := addReply_slaves (slave_bytes argv) (set_bl b s) in
    mret (s, out1 ++ out2).

Definition replicationFeedSlavesFromMasterStream (buf : bytes) (s : rserver) : res (rserver * output) :=
  b ← (if bool_decide (repl_backlog (bl s) = None) then mret (bl s) else feedReplicationBacklog buf (bl s));
  mret (addReply_slaves buf (set_bl b s)).

(** ** The master *)

Definition line (l : string) : bytes := String.list_byte_of_string l ++ CRLF.
Definition fullresync_line (id : bytes) (offset : Z) : bytes :=
  String.list_byte_of_string "+FULLRESYNC " ++ id ++ [x20] ++ sdsfromlonglong offset ++ CRLF.
Definition continue_line (id : bytes) : bytes := String.list_byte_of_string "+CONTINUE " ++ id ++ CRLF.
Definition nomasterlink : bytes := line "-NOMASTERLINK Can't SYNC while not connected with my master".
Definition bgsave_failed : bytes := line "-ERR BGSAVE failed, replication can't continue".

(** The contents are those of the file the replica will get. *)
Definition replicationSetupSlaveForFullResync (rdb : data) (reply : bytes) (offset : Z) (sl : sclient) (s : rserver)
  : sclient * rserver * output :=
  (SClient (sc_conn sl) SLAVE_STATE_WAIT_BGSAVE_END offset reply rdb, set_slaveseldb (-1) s,
   [(sc_conn sl, MLine (fullresync_line (replid s) offset))]).

(** Bytes that were never written would be sent as they are. *)
Definition initialized (l : list (option byte)) : res bytes :=
  res_of_option (mapM id l) "memory that is not initialized is sent".

(** [None]: a full resynchronization is needed.  An offset that is not a number also puts an
    error in the output of the client; replicas do not send one. *)
Definition masterTryPartialResynchronization (c : conn) (master_replid offset : bytes) (s : rserver)
  : res (option (rserver * output)) :=
  match string2ll offset with
  | None => mret None
  | Some psync_offset =>
      if negb (strcasecmp_eq master_replid (replid s)) &&
         (negb (strcasecmp_eq master_replid (replid2 s)) || (second_replid_offset s <? psync_offset)) then mret None
      else if bool_decide (repl_backlog (bl s) = None) || (psync_offset <? repl_backlog_off (bl s)) ||
              (repl_backlog_off (bl s) + repl_backlog_histlen (bl s) <? psync_offset) then mret None
      else
        '(out, psync_len) ← addReplyReplicationBacklog psync_offset (bl s);
        out ← initialized out;
        mret (Some (set_slaves (slaves s ++ [SClient c SLAVE_STATE_ONLINE 0 [] []]) s,
                    [(c, MLine (continue_line (replid s))); (c, MStream out)]))
  end.

(** [rdbPopulateSaveInfo] does not return NULL. *)
Definition rdbPopulateSaveInfo (s : rserver) : bool :=
  (bool_decide (masterhost s = None) && bool_decide (repl_backlog (bl s) ≠ None)) ||
  match master s with Some _ => true | None => match cached_master s with Some _ => true | None => false end end.

Definition waiting_start (sl : sclient) : bool := bool_decide (replstate sl = SLAVE_STATE_WAIT_BGSAVE_START).

(** [d] are the contents at the fork, [forked] whether [rdbSaveBackground] succeeds. *)
Definition startBgsaveForReplication (d : data) (forked : bool) (s : rserver) : rserver * output :=
  if rdbPopulateSaveInfo s && forked then
    let setup sl := if waiting_start sl then
        let '(sl', _, out) := replicationSetupSlaveForFullResync d [] (moff s) sl s in (sl', out)
      else (sl, []) in
    let l := setup <$> slaves s in
    let seldb := if existsb waiting_start (slaves s) then -1 else slaveseldb s in
    (set_child true (set_slaveseldb seldb (set_slaves (fst <$> l) s)), l ≫= snd)
  else
    (set_slaves (filter (fun sl => waiting_start sl = false) (slaves s)) s,
     (fun sl => (sc_conn sl, MLine bgsave_failed)) <$> filter (fun sl => waiting_start sl = true) (slaves s)).

(** [updateSlavesWaitingBgsave], when the child has ended. *)
Definition updateSlavesWaitingBgsave (d : data) (saved forked : bool) (s : rserver) : rserver * output :=
  let s := set_child false s in
  let waits_end sl := bool_decide (replstate sl = SLAVE_STATE_WAIT_BGSAVE_END) in
  let l := if saved then
      (fun sl => if waits_end sl then SClient (sc_conn sl) SLAVE_STATE_SEND_BULK (psync_initial_offset sl) (sc_reply sl) (sc_rdb sl)
                 else sl) <$> slaves s
    else filter (fun sl => waits_end sl = false) (slaves s) in
  if existsb waiting_start (slaves s) then startBgsaveForReplication d forked (set_slaves l s)
  else (set_slaves l s, []).

(** The end of [sendBulkToSlave], with [putSlaveOnline]: the file was sent, the output that
    was kept back follows. *)
Definition sendBulkToSlave (c : conn) (s : rserver) : rserver * output :=
  let send sl :=
    if bool_decide (sc_conn sl = c) && bool_decide (replstate sl = SLAVE_STATE_SEND_BULK)
    then (SClient c SLAVE_STATE_ONLINE (psync_initial_offset sl) [] [], [(c, MRdb (sc_rdb sl)); (c, MStream (sc_reply sl))])
    else (sl, []) in
  let l := send <$> slaves s in
  (set_slaves (fst <$> l) s, l ≫= snd).

(** The end of [syncCommand]: the replica [sl] was added to the list.  If a BGSAVE is in
    progress that records the differences for a replica, its file and its output are used;
    otherwise BGSAVE is started when that is possible. *)
Definition sync_bgsave (sl : sclient) (d : data) (child forked : bool) (s : rserver) : rserver * output :=
  if rdb_child s then
    match list_find (fun sl => replstate sl = SLAVE_STATE_WAIT_BGSAVE_END) (slaves s) with
    | Some (_, o) =>
        let '(sl', s', out) :=
          replicationSetupSlaveForFullResync (sc_rdb o) (sc_reply o) (psync_initial_offset o) sl s in
        (set_slaves (removelast (slaves s) ++ [sl']) s', out)
    | None => (s, [])
    end
  else if child then (s, [])
  else startBgsaveForReplication d forked s.

(** [syncCommand] for a PSYNC on a new connection.  [child] says whether a child process
    other than the one of a BGSAVE is active. *)
Definition syncCommand (c : conn) (id offset : bytes) (d : data) (newid : bytes) (child forked : bool) (s : rserver)
  : res (rserver * output) :=
  if bool_decide (masterhost s ≠ None) && bool_decide (repl_state s ≠ REPL_STATE_CONNECTED)
  then mret (s, [(c, MLine nomasterlink)])
  else
    r ← masterTryPartialResynchronization c id offset s;
    match r with
    | Some p => mret p
    | None =>
        let sl := SClient c SLAVE_STATE_WAIT_BGSAVE_START 0 [] [] in
        let s := set_slaves (slaves s ++ [sl]) s in
        s ← (if bool_decide (length (slaves s) = 1%nat) && bool_decide (repl_backlog (bl s) = None) then
               let s := clearReplicationId2 (changeReplicationId newid s) in
               b ← createReplicationBacklog (bl s); mret (set_bl b s)
             else mret s);
        mret (sync_bgsave sl d child forked s)
    end.

(** The parts of [replicationCron]: a backlog nobody has used for a long time is freed, and
    BGSAVE is started for replicas that wait for it. *)
Definition replicationCron_backlog (idle limit : Z) (newid : bytes) (s : rserver) : res rserver :=
  if bool_decide (slaves s = []) && negb (limit =? 0) && bool_decide (repl_backlog (bl s) ≠ None) &&
     bool_decide (masterhost s = None) && (limit <? idle) then
    let s := clearReplicationId2 (changeReplicationId newid s) in
    b ← freeReplicationBacklog (length (slaves s)) (bl s); mret (set_bl b s)
  else mret s.
Definition replicationCron_bgsave (d : data) (child forked : bool) (s : rserver) : rserver * output :=
  if negb (rdb_child s || child) && existsb waiting_start (slaves s) then startBgsaveForReplication d forked s
  else (s, []).

(** [disconnectSlaves], and [freeClient] of one replica. *)
Definition disconnectSlaves (s : rserver) : rserver := set_slaves [] s.
Definition freeSlave (c : conn) (s : rserver) : rserver :=
  set_slaves (filter (fun sl => sc_conn sl ≠ c) (slaves s)) s.

(** ** The replica *)

Definition replicationCreateMasterClient (c : option conn) (s : rserver) : rserver :=
  set_master (Some (MClient c (master_replid s) (master_initial_offset s) (master_initial_offset s) [] [] false false)) s.

Definition replicationDiscardCachedMaster (s : rserver) : rserver := set_cached None s.

Definition replicationHandleMasterDisconnection (s : rserver) : rserver :=
  set_state REPL_STATE_CONNECT (set_master None s).

(** [resetClient] takes the command away; [rockKeyNumber] is left as it is. *)
Definition replicationCacheMaster (s : rserver) : res rserver :=
  m ← res_of_option (master s) "server.master != NULL";
  serverAssert (bool_decide (cached_master s = None)) "server.cached_master == NULL";;
  let m := MClient (mc_conn m) (mc_replid m) (reploff m) (reploff m) [] [] (mc_rock m) false in
  mret (replicationHandleMasterDisconnection (set_cached (Some m) s)).

Definition replicationCacheMasterUsingMyself (s : rserver) : rserver :=
  let s := set_initial (master_replid s) (moff s) s in
  let s := replicationCreateMasterClient None s in
  match master s with
  | Some m => set_master None (set_cached (Some (MClient (mc_conn m) (replid s) (reploff m) (read_reploff m)
                (mc_querybuf m) (pending_querybuf m) (mc_rock m) (mc_cmd m))) s)
  | None => s
  end.

Definition replicationResurrectCachedMaster (c : conn) (s : rserver) : res rserver :=
  m ← res_of_option (cached_master s) "NULL cached_master";
  let m := MClient (Some c) (mc_replid m) (reploff m) (read_reploff m) (mc_querybuf m) (pending_querybuf m)
             (mc_rock m) (mc_cmd m) in
  mret (set_state REPL_STATE_CONNECTED (set_cached None (set_master (Some m) s))).

(** [freeClient] of the client of the master; [close] says that it is blocked or marked to be
    closed. *)
Definition freeMaster (close : bool) (s : rserver) : res rserver :=
  if close then mret (replicationHandleMasterDisconnection s) else replicationCacheMaster s.

Definition cancelReplicationHandshake (s : rserver) : rserver :=
  match repl_state s with
  | REPL_STATE_TRANSFER | REPL_STATE_RECEIVE_PSYNC => set_state REPL_STATE_CONNECT (set_transfer None s)
  | _ => s
  end.

Definition replicationSetMaster (close : bool) (host : nat) (s : rserver) : res rserver :=
  let was_master := bool_decide (masterhost s = None) in
  let s := set_masterhost (Some host) s in
  s ← (if bool_decide (master s = None) then mret s else freeMaster close s);
  let s := cancelReplicationHandshake (disconnectSlaves s) in
  let s := if was_master then replicationCacheMasterUsingMyself (replicationDiscardCachedMaster s) else s in
  mret (set_state REPL_STATE_CONNECT s).

Definition replicationUnsetMaster (close : bool) (newid : bytes) (s : rserver) : res rserver :=
  if bool_decide (masterhost s = None) then mret s
  else
    let s := shiftReplicationId newid (set_masterhost None s) in
    s ← (if bool_decide (master s = None) then mret s else freeMaster close s);
    let s := disconnectSlaves (cancelReplicationHandshake (replicationDiscardCachedMaster s)) in
    mret (set_slaveseldb (-1) (set_state REPL_STATE_NONE s)).

(** The connection is there and the handshake has come to PSYNC: the writing half of
    [slaveTryPartialResynchronization] gives the arguments of the request. *)
Definition slaveTryPartialResynchronization_write (c : conn) (s : rserver) : rserver * (bytes * bytes) :=
  let s := set_initial (master_replid s) (-1) (set_transfer (Some c) (set_state REPL_STATE_RECEIVE_PSYNC s)) in
  (s, match cached_master s with
      | Some m => (mc_replid m, sdsfromlonglong (reploff m + 1))
      | None => ([x3f], [x2d; x31])
      end).

(** [syncReadLine]: the characters before the line feed, without the carriage return. *)
Fixpoint until (stop : byte → bool) (l : bytes) : bytes :=
  match l with [] => [] | b :: l' => if stop b then [] else b :: until stop l' end.
Definition syncReadLine (l : bytes) : bytes :=
  let l := until (fun b => bool_decide (b = LF)) l in
  match last l with Some b => if bool_decide (b = CR) then removelast l else l | None => l end.

Definition prefixb (s : string) (l : bytes) : bool :=
  bool_decide (take (length (String.list_byte_of_string s)) l = String.list_byte_of_string s).
(** [strchr], the rest of the string after the character. *)
Fixpoint strchr_next (c : byte) (l : bytes) : option bytes :=
  match l with [] => None | b :: l' => if bool_decide (b = c) then Some l' else strchr_next c l' end.
Definition is_space (b : byte) : bool := bool_decide (b = x20) || ((9 <=? Z_of_byte b) && (Z_of_byte b <=? 13)).
Fixpoint skip_space (l : bytes) : bytes :=
  match l with [] => [] | b :: l' => if is_space b then skip_space l' else l end.
Definition strtoll (l : bytes) : Z :=
  let l := skip_space l in
  let '(neg, l) := match l with
                   | b :: l' => if bool_decide (b = minus_sign) then (true, l')
                                else if bool_decide (b = x2b) then (false, l') else (false, l)
                   | [] => (false, l) end in
  let v := val_from 0 (until (fun b => bool_decide (digit_val b = None)) l) in
  let v := if neg then - v else v in
  Z.max LLONG_MIN (Z.min LLONG_MAX v).

Inductive psync_result := PSYNC_WAIT_REPLY | PSYNC_CONTINUE | PSYNC_FULLRESYNC | PSYNC_NOT_SUPPORTED | PSYNC_TRY_LATER.
#[global] Instance psync_result_eq_dec : EqDecision psync_result.
Proof. solve_decision. Defined.

(** The ID and the offset of a FULLRESYNC line, [None] if its syntax is wrong. *)
Definition parse_fullresync (reply : bytes) : option (bytes * Z) :=
  rid ← strchr_next x20 reply;
  offset ← strchr_next x20 rid;
  let id := take (length rid - length offset - 1) rid in
  if bool_decide (length id = CONFIG_RUN_ID_SIZE) then Some (id, strtoll offset) else None.
(** The ID of a CONTINUE line, if there is one. *)
Definition parse_continue (reply : bytes) : option bytes :=
  let rest := until (fun b => bool_decide (b = CR) || bool_decide (b = LF) || bool_decide (b = x00)) (drop 9 reply) in
  if bool_decide (length rest = S CONFIG_RUN_ID_SIZE) then Some (drop 1 rest) else None.

(** The reading half. *)
Definition slaveTryPartialResynchronization_read (c : conn) (l : bytes) (s : rserver) : res (rserver * psync_result) :=
  let reply := syncReadLine l in
  if bool_decide (reply = []) then mret (s, PSYNC_WAIT_REPLY)
  else if prefixb "+FULLRESYNC" reply then
    let s := match parse_fullresync reply with
             | None => set_initial (replicate (S CONFIG_RUN_ID_SIZE) x00) (master_initial_offset s) s
             | Some (id, o) => set_initial id o s
             end in
    mret (replicationDiscardCachedMaster s, PSYNC_FULLRESYNC)
  else if prefixb "+CONTINUE" reply then
    m ← res_of_option (cached_master s) "NULL cached_master";
    let s := match parse_continue reply with
             | Some new =>
                 if bool_decide (new = mc_replid m) then s
                 else
                   let s := set_ids new (mc_replid m) (moff s + 1) s in
                   let s := set_cached (Some (MClient (mc_conn m) new (reploff m) (read_reploff m) (mc_querybuf m)
                              (pending_querybuf m) (mc_rock m) (mc_cmd m))) s in
                   disconnectSlaves s
             | None => s
             end in
    s ← replicationResurrectCachedMaster c s;
    s ← (if bool_decide (repl_backlog (bl s) = None)
         then b ← createReplicationBacklog (bl s); mret (set_bl b s) else mret s);
    mret (s, PSYNC_CONTINUE)
  else if prefixb "-NOMASTERLINK" reply || prefixb "-LOADING" reply then mret (s, PSYNC_TRY_LATER)
  else mret (replicationDiscardCachedMaster s, PSYNC_NOT_SUPPORTED).

(** [syncWithMaster] when the reply to PSYNC is there. *)
Definition syncWithMaster_reply (c : conn) (l : bytes) (s : rserver) : res rserver :=
  '(s, r) ← slaveTryPartialResynchronization_read c l s;
  match r with
  | PSYNC_WAIT_REPLY | PSYNC_CONTINUE => mret s
  | PSYNC_TRY_LATER => mret (set_state REPL_STATE_CONNECT (set_transfer None s))
  | PSYNC_FULLRESYNC | PSYNC_NOT_SUPPORTED =>
      let s := disconnectSlaves s in
      b ← freeReplicationBacklog (length (slaves s)) (bl s);
      mret (set_state REPL_STATE_TRANSFER (set_bl b s))
  end.

Definition set_moff (o : Z) (b : backlog) : backlog :=
  Backlog (repl_backlog b) (repl_backlog_size b) (repl_backlog_histlen b) (repl_backlog_idx b) (repl_backlog_off b) o.

(** The end of [readSyncBulkPayload]: the file was loaded. *)
Definition readSyncBulkPayload_end (s : rserver) : res rserver :=
  let s := set_state REPL_STATE_CONNECTED (replicationCreateMasterClient (repl_transfer_s s) s) in
  m ← res_of_option (master s) "NULL master";
  let s := set_ids (mc_replid m) (replid2 s) (second_replid_offset s) s in
  let s := clearReplicationId2 (set_bl (set_moff (reploff m) (bl s)) s) in
  if bool_decide (repl_backlog (bl s) = None) then b ← createReplicationBacklog (bl s); mret (set_bl b s) else mret s.

(** ** The stream of the master *)

Definition set_reploff (o : Z) (m : mclient) : mclient :=
  MClient (mc_conn m) (mc_replid m) o (read_reploff m) (mc_querybuf m) (pending_querybuf m) (mc_rock m) (mc_cmd m).
Definition set_query (q : bytes) (m : mclient) : mclient :=
  MClient (mc_conn m) (mc_replid m) (reploff m) (read_reploff m) q (pending_querybuf m) (mc_rock m) (mc_cmd m).
Definition set_pending (p : bytes) (m : mclient) : mclient :=
  MClient (mc_conn m) (mc_replid m) (reploff m) (read_reploff m) (mc_querybuf m) p (mc_rock m) (mc_cmd m).
Definition set_rock (r k : bool) (m : mclient) : mclient :=
  MClient (mc_conn m) (mc_replid m) (reploff m) (read_reploff m) (mc_querybuf m) (pending_querybuf m) r k.

(** The offset of the commands that were applied: [qb_pos] bytes of the buffer were parsed. *)
Definition applied_off (qb_pos : nat) (m : mclient) : Z :=
  read_reploff m - Z.of_nat (length (mc_querybuf m)) + Z.of_nat qb_pos.

(** The commands [processInputBuffer] finds and executes: their lengths, and whether the
    client is in a transaction after the command.  [None]: the buffer is shorter. *)
Fixpoint process_cmds (cmds : list (nat * bool)) (qb_pos : nat) (m : mclient) : option (nat * mclient) :=
  match cmds with
  | [] => Some (qb_pos, m)
  | (l, multi) :: cmds' =>
      let qb_pos := (qb_pos + l)%nat in
      if bool_decide (qb_pos ≤ length (mc_querybuf m))%nat
      then process_cmds cmds' qb_pos (if multi then m else set_reploff (applied_off qb_pos m) m)
      else None
  end.

(** After [cmds], a command of [wait] bytes may have to wait for a key in RocksDB. *)
Definition processInputBuffer (cmds : list (nat * bool)) (wait : option nat) (m : mclient) : option mclient :=
  if mc_rock m then Some m
  else
    '(qb_pos, m) ← process_cmds cmds 0 m;
    match wait with
    | None => Some (set_query (drop qb_pos (mc_querybuf m)) m)
    | Some l =>
        if bool_decide (qb_pos + l ≤ length (mc_querybuf m))%nat
        then Some (set_rock true true (set_query (drop (qb_pos + l) (mc_querybuf m)) m))
        else None
    end.

Definition processInputBufferAndReplicate (cmds : list (nat * bool)) (wait : option nat) (m : mclient) (s : rserver)
  : option (res (rserver * output)) :=
  m' ← processInputBuffer cmds wait m;
  let applied := reploff m' - reploff m in
  Some (if applied =? 0 then Ok (set_master (Some m') s, [])
        else
          serverAssert ((0 <=? applied) && (applied <=? Z.of_nat (length (pending_querybuf m')))) "read past pending_querybuf";;
          '(s, out) ← replicationFeedSlavesFromMasterStream (take (Z.to_nat applied) (pending_querybuf m')) s;
          mret (set_master (Some (set_pending (drop (Z.to_nat applied) (pending_querybuf m')) m')) s, out)).

(** [readQueryFromClient] on the connection of the master. *)
Definition readQueryFromMaster (chunk : bytes) (cmds : list (nat * bool)) (wait : option nat) (s : rserver)
  : option (res (rserver * output)) :=
  m ← master s;
  let m := MClient (mc_conn m) (mc_replid m) (reploff m) (read_reploff m + Z.of_nat (length chunk))
             (mc_querybuf m ++ chunk) (pending_querybuf m ++ chunk) (mc_rock m) (mc_cmd m) in
  processInputBufferAndReplicate cmds wait m s.

(** ** Waiting for RocksDB (rock.c) *)

(** [_resumeRockClient]: the command is called, then the buffer is processed; [multi] says
    whether the client is in a transaction after the command. *)
Definition _resumeRockClient (multi : bool) (cmds : list (nat * bool)) (wait : option nat) (m : mclient) : option mclient :=
  let m := if multi then m else set_reploff (applied_off 0 m) m in
  processInputBuffer cmds wait (set_rock false false m).

(** [checkThenResumeRockClient], when the keys the client waits for were loaded; [more] says
    that a key is in RocksDB again.  The command is needed to find its keys. *)
Definition checkThenResumeRockClient (more multi : bool) (cmds : list (nat * bool)) (wait : option nat) (m : mclient)
  : option (res mclient) :=
  if negb (mc_cmd m) then Some (Abort "c->cmd is NULL")
  else if more then Some (Ok (set_rock true true m))
  else Ok <$> _resumeRockClient multi cmds wait m.

(** ** Starting *)

Definition initServerConfig (newid : bytes) (size : Z) (host : option nat) : rserver :=
  clearReplicationId2 (changeReplicationId newid
    (RServer (Backlog None size 0 0 0 0) [] [] 0 [] (-1) false host
       (match host with None => REPL_STATE_NONE | Some _ => REPL_STATE_CONNECT end) None None None [] (-1))).

(** [loadDataFromDisk]: the ID and the offset of the RDB file. *)
Definition loadDataFromDisk (rsi : option (bytes * Z)) (s : rserver) : rserver :=
  match masterhost s, rsi with
  | Some _, Some (id, o) =>
      replicationCacheMasterUsingMyself (set_bl (set_moff o (bl s)) (set_ids id (replid2 s) (second_replid_offset s) s))
  | _, _ => s
  end.

(** ** The text of the protocol *)

Definition arg_ok (o : argobj) : Prop :=
  match o with AInt v => is_ll v | AStr s => Z.of_nat (length s) ≤ LLONG_MAX end.
Definition argv_ok (argv : list argobj) : Prop := Forall arg_ok argv ∧ Z.of_nat (length argv) ≤ LLONG_MAX.
Definition obj_bytes (o : argobj) : bytes := match o with AInt v => sdsll2str v | AStr s => s end.

Lemma ll2string_dflt n v : is_ll v → 21 ≤ n → default [] (ll2string n v) = sdsll2str v.
Proof. intros Hv Hn. rewrite ll2string_fits; [done|done|]. pose proof (sdigits10_max v Hv). lia. Qed.

Lemma arg_ok_len o : arg_ok o → stringObjectLen o = Z.of_nat (length (obj_bytes o)) ∧ 0 ≤ stringObjectLen o ≤ LLONG_MAX.
Proof.
  destruct o as [v|s]; cbn; intros H; [|lia]. rewrite <- sdsll2str_length by done.
  pose proof (sdigits10_max v H) as Hm. rewrite <- sdsll2str_length in Hm by done. unfold LLONG_MAX. lia.
Qed.

Lemma prefix_line ll c : 0 ≤ ll ≤ LLONG_MAX → addReplyLongLongWithPrefix ll c = line_of c ll.
Proof.
  intros Hl. unfold addReplyLongLongWithPrefix, line_of. destruct (_ && _); [done|].
  rewrite ll2string_dflt; [done| |lia]. unfold is_ll, LLONG_MIN in *. lia.
Qed.
Lemma aux_line_spec c n : 0 ≤ n ≤ LLONG_MAX → aux_line c n = line_of c n.
Proof. intros Hl. unfold aux_line, line_of. rewrite ll2string_dflt; [done| |lia]. unfold is_ll, LLONG_MIN in *. lia. Qed.

Lemma arg_bytes o : arg_ok o → addReply_obj o = obj_bytes o ∧ backlog_obj o = obj_bytes o.
Proof. destruct o; cbn; intros; [|done]. by rewrite !ll2string_dflt by (done || lia). Qed.

Lemma slave_bytes_spec argv : argv_ok argv → slave_bytes argv = request_bytes (obj_bytes <$> argv).
Proof.
  intros [Ha Hl]. unfold slave_bytes, request_bytes, addReplyArrayLen. rewrite prefix_line, length_fmap by lia. f_equal.
  clear Hl. induction Ha as [|o argv Ho Ha IH]; [done|]. cbn [mbind list_bind fmap list_fmap]. rewrite IH. f_equal.
  unfold addReplyBulk, bulk. destruct (arg_ok_len o Ho) as [Hlen Hr], (arg_bytes o Ho) as [-> _].
  by rewrite prefix_line, Hlen by lia.
Qed.
Lemma backlog_pieces_spec argv : argv_ok argv → concat (backlog_pieces argv) = request_bytes (obj_bytes <$> argv).
Proof.
  intros [Ha Hl]. unfold backlog_pieces, request_bytes. cbn [concat]. rewrite aux_line_spec, length_fmap by lia. f_equal.
  clear Hl. induction Ha as [|o argv Ho Ha IH]; [done|]. cbn [mbind list_bind fmap list_fmap].
  rewrite concat_app, IH. f_equal.
  unfold bulk. destruct (arg_ok_len o Ho) as [Hlen Hr], (arg_bytes o Ho) as [_ ->].
  cbn [concat]. by rewrite aux_line_spec, Hlen, app_nil_r by lia.
Qed.

(** IDs are strings of lower case hexadecimal digits. *)
Definition hex (b : byte) : bool :=
  ((48 <=? Z_of_byte b) && (Z_of_byte b <=? 57)) || ((97 <=? Z_of_byte b) && (Z_of_byte b <=? 102)).
Definition hexid (i : bytes) : bool := bool_decide (length i = CONFIG_RUN_ID_SIZE) && forallb hex i.

Lemma hex_spec b : hex b = true →
  tolower b = b ∧ b ≠ x00 ∧ b ≠ x20 ∧ b ≠ CR ∧ b ≠ LF.
Proof. destruct b; vm_compute; intros; try done; repeat split; congruence. Qed.

Lemma hexid_spec i : hexid i = true → length i = CONFIG_RUN_ID_SIZE ∧ Forall (fun b => hex b = true) i.
Proof.
  unfold hexid. intros [H1%bool_decide_eq_true H2]%andb_prop. split; [done|].
  apply Forall_forall. intros x Hx%list_elem_of_In. by apply (proj1 (forallb_forall hex i)).
Qed.

Lemma hexid_lower i : hexid i = true → tolower <$> c_string i = i.
Proof.
  intros [_ H]%hexid_spec. induction H as [|b i Hb H IH]; [done|]. cbn [c_string].
  destruct (hex_spec b Hb) as (Hl & H0 & _). rewrite bool_decide_eq_false_2 by done. cbn. by rewrite Hl, IH.
Qed.
Lemma strcasecmp_hexid i j : hexid i = true → hexid j = true → strcasecmp_eq i j = bool_decide (i = j).
Proof. intros Hi Hj. unfold strcasecmp_eq. by rewrite !hexid_lower. Qed.
Lemma strcasecmp_question j : hexid j = true → strcasecmp_eq [x3f] j = false.
Proof.
  intros Hj. unfold strcasecmp_eq. rewrite (hexid_lower j Hj). apply bool_decide_eq_false_2. intros E.
  apply hexid_spec in Hj as [Hl _]. rewrite <- E in Hl. done.
Qed.

Lemma until_app stop (a b : bytes) : Forall (fun x => stop x = false) a → until stop (a ++ b) = a ++ until stop b.
Proof. induction 1 as [|x a Hx Ha IH]; [done|]. cbn. by rewrite Hx, IH. Qed.
Lemma strchr_next_app c (a b : bytes) : c ∉ a → strchr_next c (a ++ c :: b) = Some b.
Proof.
  induction a as [|x a IH]; intros Hn; cbn; [by rewrite bool_decide_eq_true_2|].
  apply not_elem_of_cons in Hn as [Hx Hn]. rewrite bool_decide_eq_false_2 by done. by apply IH.
Qed.

Lemma syncReadLine_line (l : bytes) : LF ∉ l → syncReadLine (l ++ CRLF) = l.
Proof.
  intros Hl. unfold syncReadLine. rewrite until_app.
  2:{ apply Forall_forall. intros x Hx. apply bool_decide_eq_false_2. intros ->. done. }
  change (until _ CRLF) with [CR]. rewrite last_snoc, bool_decide_eq_true_2 by done. apply removelast_last.
Qed.

Lemma sdsll2str_chars v : is_ll v →
  ∃ ds, sdsll2str v = (if v <? 0 then [minus_sign] else []) ++ ds ∧ val_from 0 ds = abs_ll v ∧
    Forall (fun b => is_Some (digit_val b)) ds ∧ ds ≠ [].
Proof.
  intros Hv. exists (dec (abs_ll v)).
  assert (0 ≤ abs_ll v < 10 ^ 20) as Hr.
  { unfold is_ll, LLONG_MIN, LLONG_MAX, abs_ll in *. destruct (Z.ltb_spec v 0); lia. }
  split; [by rewrite sdsll2str_eq|]. split; [by apply val_dec|]. split.
  - eapply Forall_impl; [by apply dec_digits|]. intros b (d & Hd & ->). rewrite digit_val_chr by done. by eexists.
  - intros E. pose proof (dec_length_pos (abs_ll v) Hr) as Hp. rewrite E in Hp. simpl in Hp. lia.
Qed.

Lemma digit_not_special b : is_Some (digit_val b) → b ≠ x20 ∧ b ≠ LF ∧ b ≠ minus_sign ∧ b ≠ x2b ∧ is_space b = false.
Proof. destruct b; vm_compute; intros [? H]; try done; repeat split; congruence. Qed.

Lemma strtoll_printed v : is_ll v → strtoll (sdsll2str v) = v.
Proof.
  intros Hv. destruct (sdsll2str_chars v Hv) as (ds & -> & Hval & Hd & Hne).
  assert (until (fun b => bool_decide (digit_val b = None)) ds = ds) as Hu.
  { rewrite <- (app_nil_r ds) at 1. rewrite until_app; [by cbn; rewrite app_nil_r|].
    eapply Forall_impl; [exact Hd|]. intros b [d Hb]. apply bool_decide_eq_false_2. by rewrite Hb. }
  assert (Z.max LLONG_MIN (Z.min LLONG_MAX v) = v) as Hc by (unfold is_ll in Hv; lia).
  unfold strtoll. unfold abs_ll in Hval. destruct (Z.ltb_spec v 0) as [Hneg|Hneg].
  - cbn [app skip_space]. change (is_space minus_sign) with false. cbn match.
    rewrite bool_decide_eq_true_2 by done. rewrite Hu, Hval, Z.opp_involutive. done.
  - cbn [app]. destruct ds as [|b ds]; [done|]. apply Forall_cons_1 in Hd as [Hb _].
    destruct (digit_not_special b Hb) as (_ & _ & Hm & Hp & Hs).
    cbn [skip_space]. rewrite Hs, !bool_decide_eq_false_2 by done. by rewrite Hu, Hval.
Qed.

Lemma printed_plain v c : is_ll v → (c = x20 ∨ c = LF) → c ∉ sdsll2str v.
Proof.
  intros Hv Hc. destruct (sdsll2str_chars v Hv) as (ds & -> & _ & Hd & _). intros [Hi|Hi]%elem_of_app.
  - destruct (v <? 0); [|by apply elem_of_nil in Hi]. apply list_elem_of_singleton in Hi. destruct Hc; subst; done.
  - rewrite Forall_forall in Hd. apply Hd, digit_not_special in Hi. destruct Hc; naive_solver.
Qed.

Lemma hexid_plain i c : hexid i = true → (c = x20 ∨ c = LF ∨ c = CR ∨ c = x00) → c ∉ i.
Proof.
  intros [_ H]%hexid_spec Hc Hin. rewrite Forall_forall in H. apply H, hex_spec in Hin. naive_solver.
Qed.

(** A FULLRESYNC line and a CONTINUE line are understood as they were meant. *)
Lemma fullresync_read id o : hexid id = true → is_ll o →
  let reply := syncReadLine (fullresync_line id o) in
  prefixb "+FULLRESYNC" reply = true ∧ reply ≠ [] ∧ parse_fullresync reply = Some (id, o).
Proof.
  intros Hi Ho reply.
  assert (reply = String.list_byte_of_string "+FULLRESYNC " ++ id ++ [x20] ++ sdsll2str o) as ->.
  { unfold reply, fullresync_line, sdsfromlonglong.
    rewrite <- (syncReadLine_line (String.list_byte_of_string "+FULLRESYNC " ++ id ++ [x20] ++ sdsll2str o)).
    - by rewrite <- !app_assoc.
    - rewrite !elem_of_app. intros [H|[H|[H|H]]].
      + vm_compute in H. repeat (apply elem_of_cons in H as [H|H]; [done|]). by apply elem_of_nil in H.
      + by eapply (hexid_plain id LF Hi); [auto|].
      + by apply list_elem_of_singleton in H.
      + by eapply (printed_plain o LF Ho); [auto|]. }
  split; [done|]. split; [done|]. unfold parse_fullresync.
  change (String.list_byte_of_string "+FULLRESYNC ") with (String.list_byte_of_string "+FULLRESYNC" ++ [x20]).
  rewrite <- app_assoc. cbn [app]. rewrite strchr_next_app.
  2:{ vm_compute. intros H. repeat (apply elem_of_cons in H as [H|H]; [done|]). by apply elem_of_nil in H. }
  cbn [mbind option_bind]. rewrite strchr_next_app by (apply hexid_plain; auto).
  cbn [mbind option_bind]. rewrite strtoll_printed by done.
  rewrite length_app. cbn [length]. replace (length id + S (length (sdsll2str o)) - length (sdsll2str o) - 1)%nat with (length id) by lia.
  rewrite take_app_length. rewrite bool_decide_eq_true_2; [done|]. by apply hexid_spec in Hi as [? _].
Qed.

Lemma continue_read id : hexid id = true →
  let reply := syncReadLine (continue_line id) in
  prefixb "+FULLRESYNC" reply = false ∧ prefixb "+CONTINUE" reply = true ∧ reply ≠ [] ∧ parse_continue reply = Some id.
Proof.
  intros Hi reply.
  assert (reply = String.list_byte_of_string "+CONTINUE " ++ id) as ->.
  { unfold reply, continue_line. rewrite app_assoc, syncReadLine_line; [done|]. rewrite elem_of_app. intros [H|H].
    - vm_compute in H. repeat (apply elem_of_cons in H as [H|H]; [done|]). by apply elem_of_nil in H.
    - by eapply (hexid_plain id LF Hi); [auto|]. }
  split; [done|]. split; [done|]. split; [done|]. unfold parse_continue.
  change (drop 9 _) with (x20 :: id). rewrite <- (app_nil_r (x20 :: id)), until_app.
  2:{ apply hexid_spec in Hi as [_ H]. apply Forall_cons. split; [done|]. eapply Forall_impl; [exact H|].
      intros b (_ & H0 & _ & H1 & H2)%hex_spec. by rewrite !bool_decide_eq_false_2. }
  cbn [until]. rewrite app_nil_r. rewrite bool_decide_eq_true_2; [done|].
  apply hexid_spec in Hi as [Hl _]. cbn. by rewrite Hl.
Qed.
