(* ===== verification/ReplInv.v ===== *)
(** * The invariant of replication

    Every replication ID that was ever given to a replica has a history: the contents at
    some offset and the bytes of the stream from there.  A history only grows, and only one
    server at a time can make it grow.  A server with a backlog has the contents of the
    history of its ID at its offset; its second ID has the same history up to the second
    offset.  What is under way on a connection is the next part of a history.  The lemmas
    reduce a step of the system to what it changes: one server, its replicas, one
    connection, or the stream. *)

From S2P Require Import Prelude Util Cmds Resp Backlog Replication ReplSystem.
From stdpp Require Import list gmap.
#[local] Open Scope Z_scope.

(** ** Histories *)

Record hist := Hist { h_base : data; h_lo : Z; h_str : bytes }.
Definition h_hi (h : hist) : Z := h_lo h + Z.of_nat (length (h_str h)).
Definition upto (h : hist) (o : Z) : bytes := take (Z.to_nat (o - h_lo h)) (h_str h).
Definition in_hist (h : hist) (o : Z) : Prop := h_lo h ≤ o ≤ h_hi h.
Definition h_data (h : hist) (o : Z) : data := h_base h ++ (TByte <$> upto h o).

Definition grow (h h' : hist) : Prop := h_base h' = h_base h ∧ h_lo h' = h_lo h ∧ h_str h `prefix_of` h_str h'.
Abbreviation hists := (gmap bytes hist).
Definition hext (H H' : hists) : Prop := ∀ i h, H !! i = Some h → ∃ h', H' !! i = Some h' ∧ grow h h'.

(** The contents at an offset of a history; [w] comes after an offset; two histories are the
    same up to an offset. *)
Definition at_h (H : hists) (i : bytes) (o : Z) (d : data) : Prop :=
  ∃ h, H !! i = Some h ∧ in_hist h o ∧ d = h_data h o.
Definition fol (H : hists) (i : bytes) (o : Z) (w : bytes) : Prop :=
  ∃ h, H !! i = Some h ∧ h_lo h ≤ o ∧ o + Z.of_nat (length w) ≤ h_hi h ∧
    upto h (o + Z.of_nat (length w)) = upto h o ++ w.
Definition agree (H : hists) (i j : bytes) (o : Z) : Prop :=
  ∃ h k, H !! i = Some h ∧ H !! j = Some k ∧ in_hist h o ∧ in_hist k o ∧
    h_base h = h_base k ∧ h_lo h = h_lo k ∧ upto h o = upto k o.

Lemma grow_refl h : grow h h.
Proof. by split. Qed.
Lemma hext_refl H : hext H H.
Proof. intros i h Hi. exists h. split; [done|]. apply grow_refl. Qed.

Lemma grow_upto h h' o : grow h h' → in_hist h o → in_hist h' o ∧ upto h' o = upto h o.
Proof.
  intros (Hb & Hl & k & Hk) [H1 H2]. unfold in_hist, h_hi, upto in *. rewrite Hl, Hk, length_app. split; [lia|].
  by rewrite take_app_le by lia.
Qed.
Lemma grow_data h h' o : grow h h' → in_hist h o → h_data h' o = h_data h o.
Proof. intros Hg Hi. unfold h_data. destruct (grow_upto h h' o Hg Hi) as [_ ->]. by destruct Hg as [-> _]. Qed.

Lemma at_h_ext H H' i o d : hext H H' → at_h H i o d → at_h H' i o d.
Proof.
  intros Hx (h & Hi & Hin & ->). destruct (Hx i h Hi) as (h' & Hi' & Hg). exists h'. split; [done|].
  split; [by eapply grow_upto|]. symmetry. by apply grow_data.
Qed.
Lemma fol_ext H H' i o w : hext H H' → fol H i o w → fol H' i o w.
Proof.
  intros Hx (h & Hi & Hlo & Hhi & E). destruct (Hx i h Hi) as (h' & Hi' & Hg). exists h'. split; [done|].
  destruct (grow_upto h h' o Hg) as [Ha Hb]; [unfold in_hist; lia|].
  destruct (grow_upto h h' (o + Z.of_nat (length w)) Hg) as [Hc Hd]; [unfold in_hist; lia|].
  unfold in_hist in *. split; [lia|]. split; [lia|]. by rewrite Hb, Hd.
Qed.
Lemma agree_ext H H' i j o : hext H H' → agree H i j o → agree H' i j o.
Proof.
  intros Hx (h & k & Hi & Hj & H1 & H2 & Hb & Hl & E).
  destruct (Hx i h Hi) as (h' & Hi' & Hg). destruct (Hx j k Hj) as (k' & Hj' & Hg').
  destruct (grow_upto h h' o Hg H1) as [? Eh]. destruct (grow_upto k k' o Hg' H2) as [? Ek].
  exists h', k'. destruct Hg as (-> & -> & _), Hg' as (-> & -> & _). by rewrite Eh, Ek.
Qed.

Lemma agree_sym H i j o : agree H i j o → agree H j i o.
Proof. intros (h & k & Hi & Hj & H1 & H2 & Hb & Hl & E). by exists k, h. Qed.
Lemma agree_refl H i o d : at_h H i o d → agree H i i o.
Proof. intros (h & Hi & Hin & _). by exists h, h. Qed.
Lemma agree_at H i j o d : agree H i j o → at_h H i o d → at_h H j o d.
Proof.
  intros (h & k & Hi & Hj & H1 & H2 & Hb & Hl & E) (h' & Hi' & Hin & ->). simplify_eq. exists k.
  split; [done|]. split; [done|]. unfold h_data. by rewrite Hb, E.
Qed.
Lemma upto_le h o o' : o' ≤ o → upto h o' = take (Z.to_nat (o' - h_lo h)) (upto h o).
Proof. intros. unfold upto. rewrite take_take. f_equal. lia. Qed.
Lemma agree_le H i j o o' d : agree H i j o → at_h H j o' d → o' ≤ o → agree H i j o'.
Proof.
  intros (h & k & Hi & Hj & H1 & H2 & Hb & Hl & E) (k' & Hk & Hin & _) Ho. simplify_eq. exists h, k.
  unfold in_hist in *. repeat (split; [done || lia|]). by rewrite (upto_le h o), (upto_le k o), E, Hl by done.
Qed.

Lemma upto_length h o : in_hist h o → Z.of_nat (length (upto h o)) = o - h_lo h.
Proof. unfold in_hist, h_hi, upto. rewrite length_take. lia. Qed.

Lemma fol_app H i o w1 w2 :
  fol H i o (w1 ++ w2) ↔ fol H i o w1 ∧ fol H i (o + Z.of_nat (length w1)) w2.
Proof.
  unfold fol. rewrite length_app, Nat2Z.inj_add. split.
  - intros (h & Hi & Hlo & Hhi & E). rewrite app_assoc, Z.add_assoc in *.
    assert (upto h (o + Z.of_nat (length w1)) = upto h o ++ w1) as E1.
    { rewrite (upto_le h (o + Z.of_nat (length w1) + Z.of_nat (length w2))), E by lia.
      apply take_app_length'. rewrite length_app. pose proof (upto_length h o ltac:(unfold in_hist; lia)). lia. }
    split; exists h; repeat (split; [done || lia|]); [done|]. by rewrite E, E1.
  - intros [(h & Hi & Hlo & Hhi & E1) (h' & Hi' & _ & Hhi' & E2)]. simplify_eq. exists h.
    repeat (split; [done || lia|]). by rewrite Z.add_assoc, E2, E1, app_assoc.
Qed.
Lemma fol_nil H i o d : at_h H i o d → fol H i o [].
Proof.
  intros (h & Hi & [H1 H2] & _). exists h. cbn. rewrite Z.add_0_r, app_nil_r. repeat (split; [done || lia|]). done.
Qed.
Lemma at_fol H i o d w : at_h H i o d → fol H i o w → at_h H i (o + Z.of_nat (length w)) (d ++ (TByte <$> w)).
Proof.
  intros (h & Hi & Hin & ->) (h' & Hi' & Hlo & Hhi & E). simplify_eq. exists h. split; [done|].
  split; [unfold in_hist; lia|]. unfold h_data. by rewrite E, fmap_app, app_assoc.
Qed.
Lemma at_h_inj H i o d d' : at_h H i o d → at_h H i o d' → d = d'.
Proof. intros (h & Hi & _ & ->) (h' & Hi' & _ & ->). by simplify_eq. Qed.

(** A history is extended at its end; a new one starts. *)
Definition extend (i : bytes) (p : bytes) (H : hists) : hists :=
  alter (fun h => Hist (h_base h) (h_lo h) (h_str h ++ p)) i H.
Lemma extend_ext i p H : hext H (extend i p H).
Proof.
  intros j h Hj. unfold extend. destruct (decide (i = j)) as [->|Hne].
  - rewrite lookup_alter_eq, Hj. eexists. split; [done|]. split; [done|]. split; [done|]. by eexists.
  - rewrite lookup_alter_ne, Hj by done. exists h. split; [done|]. apply grow_refl.
Qed.
Lemma extend_fol i p H h : H !! i = Some h → fol (extend i p H) i (h_hi h) p.
Proof.
  intros Hi. unfold fol, extend. rewrite lookup_alter_eq, Hi. eexists. split; [done|]. unfold h_hi, upto. cbn.
  rewrite length_app. repeat (split; [lia|]).
  rewrite take_ge by (rewrite length_app; lia). f_equal. rewrite take_app_le, take_ge by lia. done.
Qed.
Lemma insert_ext i h H : H !! i = None → hext H (<[i := h]> H).
Proof.
  intros Hi j k Hj. rewrite lookup_insert_ne by (intros ->; congruence). exists k. split; [done|]. apply grow_refl.
Qed.

(** ** The invariant *)

Definition has_backlog (s : rserver) : Prop := repl_backlog (bl s) ≠ None.

Record master_ok (H : hists) (s : rserver) (inb : bytes) (m : mclient) : Prop := {
  m_state : repl_state s = REPL_STATE_CONNECTED;
  m_cached : cached_master s = None;
  m_bl : has_backlog s;
  m_id : mc_replid m = replid s;
  m_off : reploff m = moff s;
  m_read : read_reploff m = moff s + Z.of_nat (length inb);
  m_pending : pending_querybuf m = inb;
  m_query : (length (mc_querybuf m) ≤ length inb)%nat;
  m_rock : mc_rock m = false;
  m_fol : fol H (replid s) (moff s) inb;
}.
Record cached_ok (H : hists) (s : rserver) (d : data) (m : mclient) : Prop := {
  c_host : masterhost s ≠ None;
  c_master : master s = None;
  c_eq : m = MClient (mc_conn m) (replid s) (moff s) (moff s) [] [] false (mc_cmd m);
  c_at : H !! replid s ≠ None → at_h H (replid s) (moff s) d;
}.
(** A replica for which a file is being saved or sent: the output that was kept back follows
    the offset of the file. *)
Record queue_ok (H : hists) (s : rserver) (sl : sclient) : Prop := {
  q_at : at_h H (replid s) (psync_initial_offset sl) (sc_rdb sl);
  q_fol : fol H (replid s) (psync_initial_offset sl) (sc_reply sl);
  q_end : psync_initial_offset sl + Z.of_nat (length (sc_reply sl)) = moff s;
}.
Definition queued (sl : sclient) : Prop :=
  replstate sl = SLAVE_STATE_WAIT_BGSAVE_END ∨ replstate sl = SLAVE_STATE_SEND_BULK.

Record node_ok (H : hists) (us : list bytes) (p : pnode) : Prop := {
  n_size : 0 < repl_backlog_size (bl (srv p));
  n_id : replid (srv p) ∈ us;
  n_moff : 0 ≤ moff (srv p) < LLONG_MAX;
  n_bl : has_backlog (srv p) → at_h H (replid (srv p)) (moff (srv p)) (contents p) ∧
    ∃ h, H !! replid (srv p) = Some h ∧ holds (bl (srv p)) (upto h (moff (srv p)));
  n_master : ∀ m, master (srv p) = Some m → master_ok H (srv p) (inbox p) m;
  n_cached : ∀ m, cached_master (srv p) = Some m → cached_ok H (srv p) (contents p) m;
  n_conn : repl_state (srv p) = REPL_STATE_CONNECTED → master (srv p) ≠ None;
  n_id2 : replid2 (srv p) = zero_id ∨ (replid2 (srv p) ∈ us ∧
    (H !! replid (srv p) ≠ None → agree H (replid (srv p)) (replid2 (srv p)) (second_replid_offset (srv p) - 1)));
  n_own : masterhost (srv p) = None → repl_state (srv p) = REPL_STATE_NONE ∧
    ∀ h, H !! replid (srv p) = Some h → has_backlog (srv p) ∧ moff (srv p) = h_hi h;
  n_slaves : slaves (srv p) ≠ [] → has_backlog (srv p);
  n_nodup : NoDup (sc_conn <$> slaves (srv p));
  n_queue : ∀ sl, sl ∈ slaves (srv p) → queued sl → queue_ok H (srv p) sl;
  n_transfer : repl_state (srv p) = REPL_STATE_TRANSFER →
    ¬ has_backlog (srv p) ∧ slaves (srv p) = [] ∧ master (srv p) = None ∧ cached_master (srv p) = None;
  n_disk : ∀ d i o, disk p = Some (d, Some (i, o)) →
    i ∈ us ∧ 0 ≤ o < LLONG_MAX ∧ (H !! i ≠ None → at_h H i o d);
}.

(** What a replica expects on a connection. *)
Inductive phase :=
| PhNone
| PhPsync (cm : option (bytes * Z))
| PhTransfer (i : bytes) (o : Z)
| PhStream (i : bytes) (o : Z).
Definition bview (s : rserver) (c : conn) : phase :=
  if bool_decide (listens s = Some c) then
    match repl_state s with
    | REPL_STATE_RECEIVE_PSYNC => PhPsync ((fun m => (mc_replid m, reploff m)) <$> cached_master s)
    | REPL_STATE_TRANSFER => PhTransfer (master_replid s) (master_initial_offset s)
    | REPL_STATE_CONNECTED => match master s with Some m => PhStream (mc_replid m) (read_reploff m) | None => PhNone end
    | _ => PhNone
    end
  else PhNone.

(** The state of a replica at its master, with the ID and the offset of the master. *)
Abbreviation entry := (sclient * bytes * Z)%type.
Definition find_slave (c : conn) (l : list sclient) : option sclient := snd <$> list_find (fun sl => sc_conn sl = c) l.
Definition aview (s : rserver) (c : conn) : option entry := (fun sl => (sl, replid s, moff s)) <$> find_slave c (slaves s).

Definition tail_ok (H : hists) (e : option entry) (i : bytes) (o : Z) (ms : list msg) : Prop :=
  ∃ ps, ms = MStream <$> ps ∧ fol H i o (concat ps) ∧
    ∀ sl j z, e = Some (sl, j, z) → replstate sl = SLAVE_STATE_ONLINE ∧ j = i ∧ o + Z.of_nat (length (concat ps)) = z.
Definition full_ok (H : hists) (e : option entry) (i : bytes) (o : Z) (ms : list msg) : Prop :=
  (ms = [] ∧ ∀ sl j z, e = Some (sl, j, z) → queued sl ∧ j = i ∧ psync_initial_offset sl = o) ∨
  (∃ d ms', ms = MRdb d :: ms' ∧ at_h H i o d ∧ tail_ok H e i o ms').
Definition line_ok (H : hists) (us : list bytes) (e : option entry) (cm : option (bytes * Z)) (l : bytes) (ms : list msg) : Prop :=
  (∃ j i o, l = continue_line j ∧ cm = Some (i, o) ∧ j ∈ us ∧ agree H i j o ∧ tail_ok H e j o ms) ∨
  (∃ j o, l = fullresync_line j o ∧ j ∈ us ∧ 0 ≤ o < LLONG_MAX ∧ full_ok H e j o ms) ∨
  ((l = nomasterlink ∨ l = bgsave_failed) ∧ ms = [] ∧ e = None).

Definition psync_request (cm : option (bytes * Z)) : bytes * bytes :=
  match cm with Some (i, o) => (i, sdsfromlonglong (o + 1)) | None => ([x3f], [x2d; x31]) end.

Definition ok_link (H : hists) (us : list bytes) (ph : phase) (e : option entry) (k : link) : Prop :=
  match ph with
  | PhNone => True
  | PhPsync cm =>
      match request k with
      | Some r => down k = [] ∧ r = psync_request cm ∧ e = None
      | None =>
          (down k = [] ∧ ∀ sl j z, e = Some (sl, j, z) → replstate sl = SLAVE_STATE_WAIT_BGSAVE_START) ∨
          (∃ l ms, down k = MLine l :: ms ∧ line_ok H us e cm l ms)
      end
  | PhTransfer i o => request k = None ∧ full_ok H e i o (down k)
  | PhStream i o => request k = None ∧ tail_ok H e i o (down k)
  end.

Definition eview (ns : gmap nat pnode) (c : conn) (k : link) : option entry := p ← ns !! to k; aview (srv p) c.

Record sys_ok (H : hists) (x : sys) : Prop := {
  s_used : ∀ i, i ∈ used x → hexid i = true ∧ i ≠ zero_id;
  s_hist : ∀ i h, H !! i = Some h → i ∈ used x ∧ 0 ≤ h_lo h ∧ h_hi h < LLONG_MAX;
  s_node : ∀ n p, nodes x !! n = Some p → node_ok H (used x) p;
  s_masters : ∀ n n' p p', nodes x !! n = Some p → nodes x !! n' = Some p' → n ≠ n' →
    masterhost (srv p) = None → masterhost (srv p') = None → replid (srv p) ≠ replid (srv p');
  s_entries : ∀ n p sl, nodes x !! n = Some p → sl ∈ slaves (srv p) →
    ∃ k, links x !! sc_conn sl = Some k ∧ to k = n ∧ request k = None;
  s_listens : ∀ n p c, nodes x !! n = Some p → listens (srv p) = Some c →
    ∃ k, links x !! c = Some k ∧ who k = n;
  s_links : ∀ c k p, links x !! c = Some k → nodes x !! who k = Some p →
    ok_link H (used x) (bview (srv p) c) (eview (nodes x) c k) k;
}.

(** ** Monotonicity *)

Lemma tail_ok_ext H H' e i o ms : hext H H' → tail_ok H e i o ms → tail_ok H' e i o ms.
Proof. intros Hx (ps & -> & Hf & He). exists ps. split; [done|]. split; [by eapply fol_ext|done]. Qed.
Lemma full_ok_ext H H' e i o ms : hext H H' → full_ok H e i o ms → full_ok H' e i o ms.
Proof.
  intros Hx [?|(d & ms' & -> & Ha & Ht)]; [by left|right]. exists d, ms'. split; [done|].
  split; [by eapply at_h_ext|by eapply tail_ok_ext].
Qed.
Lemma ok_link_ext H H' us us' ph e k :
  hext H H' → us ⊆ us' → ok_link H us ph e k → ok_link H' us' ph e k.
Proof.
  intros Hx Hu. destruct ph as [|cm|i o|i o]; cbn; [done| | |].
  - destruct (request k); [done|]. intros [?|(l & ms & Hd & Hl)]; [by left|right]. exists l, ms. split; [done|].
    destruct Hl as [(j & i & o & -> & -> & Hj & Ha & Ht)|[(j & o & -> & Hj & Ho & Hf)|Hl]].
    + left. exists j, i, o. repeat (split; [done|]). split; [by apply Hu|]. split; [by eapply agree_ext|by eapply tail_ok_ext].
    + right; left. exists j, o. split; [done|]. split; [by apply Hu|]. split; [done|]. by eapply full_ok_ext.
    + by right; right.
  - intros [? ?]. split; [done|]. by eapply full_ok_ext.
  - intros [? ?]. split; [done|]. by eapply tail_ok_ext.
Qed.

(** The connection is closed by the master. *)
Lemma tail_ok_close H e i o ms : tail_ok H e i o ms → tail_ok H None i o ms.
Proof. intros (ps & -> & Hf & He). by exists ps. Qed.
Lemma full_ok_close H e i o ms : full_ok H e i o ms → full_ok H None i o ms.
Proof.
  intros [[? ?]|(d & ms' & -> & Ha & Ht)]; [by left|right]. exists d, ms'. split; [done|].
  split; [done|by eapply tail_ok_close].
Qed.
Lemma ok_link_close H us ph e k : ok_link H us ph e k → ok_link H us ph None k.
Proof.
  destruct ph as [|cm|i o|i o]; cbn; [done| | |].
  - destruct (request k); [naive_solver|]. intros [[? ?]|(l & ms & Hd & Hl)]; [by left|right]. exists l, ms. split; [done|].
    destruct Hl as [(j & i & o & -> & -> & Hj & Ha & Ht)|[(j & o & -> & Hj & Ho & Hf)|(? & ? & ?)]].
    + left. exists j, i, o. repeat (split; [done|]). by eapply tail_ok_close.
    + right; left. exists j, o. repeat (split; [done|]). by eapply full_ok_close.
    + by right; right.
  - intros [? ?]. split; [done|]. by eapply full_ok_close.
  - intros [? ?]. split; [done|]. by eapply tail_ok_close.
Qed.

(** ** One step of one server *)

Lemma holds_ext H H' i h h' o b :
  hext H H' → H !! i = Some h → H' !! i = Some h' → in_hist h o → holds b (upto h o) → holds b (upto h' o).
Proof.
  intros Hx Hi Hi' Hin. destruct (Hx i h Hi) as (h1 & Hi1 & Hg). simplify_eq.
  by destruct (grow_upto h h' o Hg Hin) as [_ ->].
Qed.

(** Another server made a history grow or started a new one. *)
Lemma node_ok_ext H H' us us' p :
  hext H H' → us ⊆ us' → (∀ i, i ∈ us → H !! i = None → H' !! i = None) →
  (masterhost (srv p) = None → H' !! replid (srv p) = H !! replid (srv p)) →
  node_ok H us p → node_ok H' us' p.
Proof.
  intros Hx Hu Hnew Hown [Hs Hi Hm Hb Hma Hca Hc Hi2 Ho Hsl Hnd Hq Ht Hd].
  assert (∀ i, i ∈ us → H' !! i ≠ None → H !! i ≠ None) as Hold by naive_solver.
  split; try done; try (by apply Hu); try done.
  - intros H1. destruct (Hb H1) as [Ha (h & Hh & Hr)]. split; [by eapply at_h_ext|].
    destruct (Hx _ _ Hh) as (h' & Hh' & Hg). exists h'. split; [done|].
    destruct Ha as (h1 & Hh1 & Hin & _). simplify_eq. by eapply holds_ext.
  - intros m E. destruct (Hma m E). split; try done. by eapply fol_ext.
  - intros m E. destruct (Hca m E) as [? ? ? Hat]. split; try done. intros Hr. eapply at_h_ext; [done|]. by apply Hat, Hold.
  - destruct Hi2 as [?|[Hin Hag]]; [by left|right]. split; [by apply Hu|]. intros Hr.
    eapply agree_ext; [done|]. by apply Hag, Hold.
  - intros Hmh. rewrite (Hown Hmh). auto.
  - intros sl Hin Hqu. destruct (Hq sl Hin Hqu). split; [by eapply at_h_ext|by eapply fol_ext|done].
  - intros d i o E. destruct (Hd d i o E) as (Hin & Hr & Hat). split; [by apply Hu|]. split; [done|].
    intros Hne. eapply at_h_ext; [done|]. by apply Hat, Hold.
Qed.

Lemma find_slave_Some c l sl : find_slave c l = Some sl → sl ∈ l ∧ sc_conn sl = c.
Proof.
  unfold find_slave. destruct (list_find _ l) as [[i y]|] eqn:E; [|done]. cbn. intros [= <-].
  apply list_find_Some in E as (Hl & Hc & _). split; [by eapply list_elem_of_lookup_2|done].
Qed.
Lemma find_slave_None c l : (∀ sl, sl ∈ l → sc_conn sl ≠ c) → find_slave c l = None.
Proof.
  intros Hn. unfold find_slave. destruct (list_find _ l) as [[i y]|] eqn:E; [|done].
  apply list_find_Some in E as (Hl & Hc & _). apply list_elem_of_lookup_2 in Hl. by destruct (Hn y).
Qed.

(** The new state of a connection, given its old one. *)
Definition link_step (H : hists) (us : list bytes) (ns : gmap nat pnode) (n : nat) (p p' : rserver) (c : conn) (k k' : link) : Prop :=
  who k' = who k ∧ to k' = to k ∧ (request k = None → request k' = None) ∧
  ∀ ph e, (∃ pw, ns !! who k = Some pw ∧ ph = bview (srv pw) c) →
    ok_link H us ph e k → (who k = n → ph = bview p c) → (to k = n → e = aview p c) →
    ok_link H us (if decide (who k = n) then bview p' c else ph) (if decide (to k = n) then aview p' c else e) k'.

Lemma sys_step H H' x n p p' ls' us' :
  sys_ok H x → nodes x !! n = Some p → hext H H' → used x ⊆ us' →
  (∀ i, i ∈ us' → hexid i = true ∧ i ≠ zero_id) →
  (∀ i h, H' !! i = Some h → i ∈ us' ∧ 0 ≤ h_lo h ∧ h_hi h < LLONG_MAX) →
  (∀ i, H' !! i = H !! i ∨ i ∉ used x ∨ (masterhost (srv p) = None ∧ i = replid (srv p) ∧ H !! i ≠ None)) →
  node_ok H' us' p' →
  (masterhost (srv p') = None →
    replid (srv p') ∉ used x ∨ (masterhost (srv p) = None ∧ replid (srv p') = replid (srv p))) →
  (∀ sl, sl ∈ slaves (srv p') → ∃ k, ls' !! sc_conn sl = Some k ∧ to k = n ∧ request k = None) →
  (∀ c, listens (srv p') = Some c → ∃ k, ls' !! c = Some k ∧ who k = n) →
  (∀ c k, links x !! c = Some k → ∃ k', ls' !! c = Some k') →
  (∀ c k', ls' !! c = Some k' →
    (∃ k, links x !! c = Some k ∧ link_step H' us' (nodes x) n (srv p) (srv p') c k k') ∨
    (links x !! c = None ∧ who k' = n ∧ find_slave c (slaves (srv p')) = None ∧
       ok_link H' us' (bview (srv p') c) None k')) →
  sys_ok H' (Sys (<[n := p']> (nodes x)) ls' us').
Proof.
  intros [Su Sh Sn Sm Se Sl Sk] Hn Hx Hu Hus Hh Hsame Hp' Hmast Hent Hlis Hdom Hlink.
  split; cbn [nodes links used]; [done|done| | | | |].
  - intros n2 p2. destruct (decide (n2 = n)) as [->|Hne]; [rewrite lookup_insert_eq; intros [= <-]; done|].
    rewrite lookup_insert_ne by done. intros H2. eapply node_ok_ext; [done|done| | |by eapply Sn].
    + intros i Hin Hnone. destruct (Hsame i) as [->|[?|(_ & _ & ?)]]; done.
    + intros Hmh. destruct (Hsame (replid (srv p2))) as [->|[Hni|(Hpm & He & _)]]; [done| |].
      * destruct Hni. by eapply n_id, Sn.
      * by destruct (Sm n2 n p2 p H2 Hn Hne Hmh Hpm).
  - assert (∀ n2 p2, n2 ≠ n → nodes x !! n2 = Some p2 → masterhost (srv p2) = None → masterhost (srv p') = None →
      replid (srv p2) ≠ replid (srv p')) as Hd.
    { intros n2 p2 Hne H2 Hm2 Hm'. destruct (Hmast Hm') as [Hni|[Hpm ->]]; [|by eapply (Sm n2 n)].
      intros E. apply Hni. rewrite <- E. by eapply n_id, Sn. }
    intros n1 n2 p1 p2 H1 H2 Hne Hm1 Hm2.
    apply lookup_insert_Some in H1 as [[<- <-]|[Hn1 H1]]; apply lookup_insert_Some in H2 as [[<- <-]|[Hn2 H2]]; [done| | |].
    + intros E. symmetry in E. revert E. by eapply (Hd n2 p2).
    + by eapply (Hd n1 p1).
    + by eapply (Sm n1 n2).
  - intros n2 p2 sl. destruct (decide (n2 = n)) as [->|Hne]; [rewrite lookup_insert_eq; intros [= <-]; apply Hent|].
    rewrite lookup_insert_ne by done. intros H2 Hin. destruct (Se n2 p2 sl H2 Hin) as (k & Hk & Ht & Hr).
    destruct (Hdom _ _ Hk) as [k' Hk']. exists k'. split; [done|].
    destruct (Hlink _ _ Hk') as [(k1 & Hk1 & _ & Ht' & Hr' & _)|[? _]]; [|congruence]. simplify_eq. rewrite Ht'. eauto.
  - intros n2 p2 c. destruct (decide (n2 = n)) as [->|Hne]; [rewrite lookup_insert_eq; intros [= <-]; apply Hlis|].
    rewrite lookup_insert_ne by done. intros H2 Hin. destruct (Sl n2 p2 c H2 Hin) as (k & Hk & Ht).
    destruct (Hdom _ _ Hk) as [k' Hk']. exists k'. split; [done|].
    destruct (Hlink _ _ Hk') as [(k1 & Hk1 & Hw & _)|[? _]]; [|congruence]. simplify_eq. congruence.
  - intros c k' p2 Hk' Hw. destruct (Hlink _ _ Hk') as [(k & Hk & Hwho & Hto & _ & Hok)|(Hnone & Hwho & Hf & Hok)].
    + rewrite Hwho in Hw. unfold eview. rewrite Hto.
      assert (∃ pw, nodes x !! who k = Some pw ∧ (who k = n → pw = p)) as (pw & Hpw & Hpwn).
      { destruct (decide (who k = n)) as [E|E]; [exists p; by rewrite E|].
        rewrite lookup_insert_ne in Hw by done. by exists p2. }
      specialize (Hok (bview (srv pw) c) (eview (nodes x) c k) ltac:(by exists pw)
        ltac:(eapply ok_link_ext; [done|done|by eapply Sk])
        ltac:(intros E; by rewrite Hpwn) ltac:(intros E; unfold eview; by rewrite E, Hn)).
      assert ((if decide (who k = n) then bview (srv p') c else bview (srv pw) c) = bview (srv p2) c) as <-.
      { apply lookup_insert_Some in Hw as [[E <-]|[E Hw]]; [by rewrite decide_True|]. rewrite decide_False by done. congruence. }
      replace (<[n := p']> (nodes x) !! to k ≫= (fun p0 => aview (srv p0) c))
        with (if decide (to k = n) then aview (srv p') c else eview (nodes x) c k); [done|].
      destruct (decide (to k = n)) as [->|E]; [by rewrite lookup_insert_eq|by rewrite lookup_insert_ne by done].
    + rewrite Hwho, lookup_insert_eq in Hw. injection Hw as <-.
      assert (eview (<[n := p']> (nodes x)) c k' = None) as ->; [|done].
      unfold eview. destruct (decide (to k' = n)) as [->|Ht].
      * rewrite lookup_insert_eq. cbn. unfold aview. by rewrite Hf.
      * rewrite lookup_insert_ne by done. destruct (nodes x !! to k') as [pt|] eqn:Et; [|done]. cbn. unfold aview.
        rewrite find_slave_None; [done|]. intros sl Hin Hc. destruct (Se _ _ _ Et Hin) as (k & Hk & _). congruence.
Qed.

(** ** Connections *)

Definition add_msgs (ms : list msg) (k : link) : link := Link (who k) (to k) (request k) (down k ++ ms).
Definition msgs_for (c : conn) (out : output) : list msg := snd <$> filter (fun o => o.1 = c) out.

Lemma add_msgs_nil k : add_msgs [] k = k.
Proof. unfold add_msgs. rewrite app_nil_r. by destruct k. Qed.
Lemma deliver_lookup out c : ∀ ls, deliver out ls !! c = add_msgs (msgs_for c out) <$> ls !! c.
Proof.
  induction out as [|[d m] out IH]; intros ls; cbn [deliver foldl].
  - destruct (ls !! c) as [k|]; cbn; [by rewrite add_msgs_nil|done].
  - change (foldl _ _ out) with (deliver out (add_down d m ls)). rewrite IH. unfold add_down, msgs_for.
    rewrite filter_cons. cbn [fst]. destruct (decide (d = c)) as [->|Hne].
    + rewrite lookup_alter_eq. destruct (ls !! c) as [k|]; cbn; [|done]. unfold add_msgs. cbn. by rewrite <- app_assoc.
    + by rewrite lookup_alter_ne.
Qed.
Lemma msgs_for_app c o1 o2 : msgs_for c (o1 ++ o2) = msgs_for c o1 ++ msgs_for c o2.
Proof. unfold msgs_for. by rewrite filter_app, fmap_app. Qed.
Lemma deliver_app o1 o2 ls : deliver (o1 ++ o2) ls = deliver o2 (deliver o1 ls).
Proof. unfold deliver. by rewrite foldl_app. Qed.

(** A step that treats every replica by itself. *)
Definition good_step (g : sclient → option sclient * output) : Prop :=
  ∀ sl, (∀ sl', (g sl).1 = Some sl' → sc_conn sl' = sc_conn sl) ∧ Forall (fun o => o.1 = sc_conn sl) (g sl).2.
Definition step_slaves (g : sclient → option sclient * output) (l : list sclient) : list sclient := omap (fst ∘ g) l.
Definition step_out (g : sclient → option sclient * output) (l : list sclient) : output := l ≫= (snd ∘ g).

Lemma find_slave_cons c sl l :
  find_slave c (sl :: l) = if decide (sc_conn sl = c) then Some sl else find_slave c l.
Proof.
  unfold find_slave. cbn [list_find]. destruct (decide (sc_conn sl = c)); [done|].
  by destruct (list_find _ l) as [[]|].
Qed.

Lemma msgs_for_all c (out : output) : Forall (fun o => o.1 = c) out → msgs_for c out = snd <$> out.
Proof. intros Ho. unfold msgs_for. induction Ho as [|o out Hd Ho IH]; [done|]. rewrite filter_cons, decide_True by done. cbn. by rewrite IH. Qed.
Lemma msgs_for_other c d (out : output) : c ≠ d → Forall (fun o => o.1 = d) out → msgs_for c out = [].
Proof.
  intros Hne Ho. unfold msgs_for. induction Ho as [|o out Hd Ho IH]; [done|].
  rewrite filter_cons. destruct (decide (o.1 = c)); [congruence|done].
Qed.

Lemma step_slaves_elem g l sl' :
  sl' ∈ step_slaves g l → ∃ sl, sl ∈ l ∧ (g sl).1 = Some sl'.
Proof. unfold step_slaves. rewrite list_elem_of_omap. naive_solver. Qed.

Lemma step_find g l c : good_step g → NoDup (sc_conn <$> l) →
  find_slave c (step_slaves g l) = (find_slave c l ≫= fst ∘ g) ∧
  msgs_for c (step_out g l) = default [] ((fun sl => snd <$> (g sl).2) <$> find_slave c l).
Proof.
  intros Hg. induction l as [|sl l IH]; intros Hnd; [done|]. cbn [fmap list_fmap] in Hnd. apply NoDup_cons in Hnd as [Hni Hnd].
  destruct (IH Hnd) as [IH1 IH2]. rewrite find_slave_cons. unfold step_slaves, step_out in *. cbn [mbind list_bind omap list_omap].
  rewrite msgs_for_app. destruct (Hg sl) as [Hg1 Hg2]. destruct (decide (sc_conn sl = c)) as [<-|Hne].
  - assert (find_slave (sc_conn sl) l = None) as Hnone.
    { apply find_slave_None. intros y Hy E. apply Hni. apply list_elem_of_fmap. by exists y. }
    rewrite Hnone in IH1, IH2. cbn in IH1, IH2. rewrite IH2, app_nil_r. cbn [mbind option_bind fmap option_fmap option_map default compose].
    split; [|by apply msgs_for_all].
    destruct (g sl) as [[sl'|] out] eqn:E; cbn [fst compose]; [|done]. rewrite find_slave_cons.
    rewrite decide_True; [done|]. by apply Hg1.
  - rewrite (msgs_for_other c (sc_conn sl)) by done. split; [|done].
    unfold compose at 1. destruct (g sl) as [[sl'|] out] eqn:E; cbn [fst]; [|done].
    rewrite find_slave_cons, decide_False; [done|]. cbn in Hg1. by rewrite (Hg1 sl').
Qed.

Lemma step_nodup g l : good_step g → NoDup (sc_conn <$> l) → NoDup (sc_conn <$> step_slaves g l).
Proof.
  intros Hg. induction l as [|sl l IH]; [done|]. cbn [fmap list_fmap]. intros [Hni Hnd]%NoDup_cons.
  unfold step_slaves in *. cbn [omap list_omap]. unfold compose at 1. destruct (Hg sl) as [Hg1 _].
  destruct (g sl) as [[sl'|] out] eqn:E; cbn [fst]; [|by apply IH]. cbn [fmap list_fmap]. apply NoDup_cons. split; [|by apply IH].
  cbn in Hg1. rewrite (Hg1 sl') by done. intros (y & Hy & Hin)%list_elem_of_fmap. apply Hni.
  apply list_elem_of_omap in Hin as (z & Hz & E'). apply list_elem_of_fmap. exists z. split; [|done].
  rewrite Hy. by apply (Hg z).
Qed.

(** The change of a connection when the server at its end takes such a step. *)
Lemma link_step_A H us ns n p p' g c k :
  good_step g → NoDup (sc_conn <$> slaves p) → bview p' c = bview p c → slaves p' = step_slaves g (slaves p) →
  (∀ sl, sl ∈ slaves p → sc_conn sl = c → to k = n ∧ request k = None) →
  (∀ sl ph, sl ∈ slaves p → request k = None → ok_link H us ph (Some (sl, replid p, moff p)) k →
     ok_link H us ph ((fun sl' => (sl', replid p', moff p')) <$> (g sl).1) (add_msgs (snd <$> (g sl).2) k)) →
  link_step H us ns n p p' c k (add_msgs (msgs_for c (step_out g (slaves p))) k).
Proof.
  intros Hg Hnd Hb Hs Hent Hok. split; [done|]. split; [done|]. split; [done|]. intros ph e _ Hl Hw Ht.
  destruct (step_find g (slaves p) c Hg Hnd) as [Hf Hm]. rewrite Hm.
  replace (if decide (who k = n) then bview p' c else ph) with ph by (case_decide; [rewrite Hb; auto|done]).
  unfold aview. rewrite Hs, Hf. unfold aview in Ht.
  destruct (find_slave c (slaves p)) as [sl|] eqn:Efind.
  - apply find_slave_Some in Efind as [Hin Hc]. destruct (Hent sl Hin Hc) as [Hto Hr]. rewrite decide_True by done.
    rewrite (Ht Hto) in Hl. cbn. by apply Hok.
  - cbn. rewrite add_msgs_nil. case_decide; [|done]. by rewrite Ht in Hl.
Qed.

Lemma link_step_local H us ns n p p' c k :
  (bview p' c = bview p c ∨ bview p' c = PhNone) → (aview p' c = aview p c ∨ aview p' c = None) →
  link_step H us ns n p p' c k k.
Proof.
  intros Hb Ha. split; [done|]. split; [done|]. split; [done|]. intros ph e _ Hl Hw Ht.
  assert (ok_link H us ph (if decide (to k = n) then aview p' c else e) k) as H1.
  { case_decide; [|done]. rewrite Ht in Hl by done. destruct Ha as [->| ->]; [done|]. by eapply ok_link_close. }
  destruct (decide (who k = n)); [|exact H1]. destruct Hb as [->| ->]; [|done]. by rewrite Hw in H1.
Qed.

(** ** What a server does for one replica *)

Section replica_steps.
Context (H : hists) (us : list bytes) (ph : phase) (sl : sclient) (i : bytes) (z : Z) (k : link).
Hypothesis Hreq : request k = None.
Hypothesis Hok : ok_link H us ph (Some (sl, i, z)) k.

(** How the expectation of the replica, the state and the messages fit together. *)
Lemma ok_link_cases :
  (ph = PhNone) ∨
  (replstate sl = SLAVE_STATE_WAIT_BGSAVE_START ∧ down k = [] ∧ ∃ cm, ph = PhPsync cm) ∨
  (queued sl ∧ ((down k = [] ∧ ph = PhTransfer i (psync_initial_offset sl)) ∨
     ∃ cm, ph = PhPsync cm ∧ down k = [MLine (fullresync_line i (psync_initial_offset sl))] ∧
       i ∈ us ∧ 0 ≤ psync_initial_offset sl < LLONG_MAX)) ∨
  (replstate sl = SLAVE_STATE_ONLINE ∧ ∃ o pre ms, down k = pre ++ ms ∧ tail_ok H (Some (sl, i, z)) i o ms ∧
     ∀ e ms', tail_ok H e i o ms' → ok_link H us ph e (Link (who k) (to k) None (pre ++ ms'))).
Proof.
  destruct ph as [|cm|j o|j o]; [by left| | |]; cbn in Hok; rewrite ?Hreq in Hok.
  - destruct Hok as [[Hd Hs]|(l & ms & Hd & [Hl|[Hl|(_ & _ & ?)]])]; [| | |done].
    + right; left. eauto.
    + destruct Hl as (j & i' & o & -> & -> & Hj & Ha & Ht). right; right; right.
      pose proof Ht as (ps & _ & _ & He). destruct (He sl i z eq_refl) as (Hst & <- & _). split; [done|].
      exists o, [MLine (continue_line i)], ms. split; [done|]. split; [done|].
      intros e ms' Ht'. cbn. right. do 2 eexists. split; [done|]. left. by exists i, i', o.
    + destruct Hl as (j & o & -> & Hj & Ho & [[-> He]|(d & ms' & -> & Ha & Ht)]).
      * destruct (He sl i z eq_refl) as (Hq & <- & <-). right; right; left. split; [done|]. right. by exists cm.
      * pose proof Ht as (ps & _ & _ & He). destruct (He sl i z eq_refl) as (Hst & <- & _). right; right; right. split; [done|].
        exists o, [MLine (fullresync_line i o); MRdb d], ms'. split; [done|]. split; [done|].
        intros e ms Ht'. cbn. right. do 2 eexists. split; [done|]. right; left. exists i, o. repeat (split; [done|]).
        right. by exists d, ms.
  - destruct Hok as [_ [[Hd He]|(d & ms' & Hd & Ha & Ht)]].
    + destruct (He sl i z eq_refl) as (Hq & <- & <-). right; right; left. split; [done|]. left. done.
    + pose proof Ht as (ps & _ & _ & He). destruct (He sl i z eq_refl) as (Hst & <- & _). right; right; right. split; [done|].
      exists o, [MRdb d], ms'. split; [done|]. split; [done|]. intros e ms Ht'. cbn. split; [done|]. right. by exists d, ms.
  - destruct Hok as [_ Ht]. pose proof Ht as (ps & _ & _ & He). destruct (He sl i z eq_refl) as (Hst & <- & _).
    right; right; right. split; [done|]. exists o, [], (down k). split; [done|]. split; [done|]. intros e ms Ht'. done.
Qed.
End replica_steps.

Lemma queued_not_online sl : queued sl → replstate sl ≠ SLAVE_STATE_ONLINE ∧ replstate sl ≠ SLAVE_STATE_WAIT_BGSAVE_START.
Proof. intros [->| ->]; done. Qed.

(** The connection is unchanged, the state of the replica stays in its class. *)
Lemma ok_link_queued H us ph sl sl' i z z' k :
  request k = None → queued sl → queued sl' → psync_initial_offset sl' = psync_initial_offset sl →
  ok_link H us ph (Some (sl, i, z)) k → ok_link H us ph (Some (sl', i, z')) k.
Proof.
  intros Hr Hq Hq' Ho Hok. destruct (queued_not_online sl Hq) as [Hn1 Hn2].
  destruct (ok_link_cases H us ph sl i z k Hr Hok) as [->|[[? _]|[[_ [[Hd ->]|(cm & -> & Hd & Hi & Hb)]]|[? _]]]]; [done|done| | |done].
  - cbn. split; [done|]. left. split; [done|]. intros ??? [= <- <- <-]. done.
  - cbn. rewrite Hr. right. do 2 eexists. split; [exact Hd|]. right; left. do 2 eexists. split; [done|].
    do 2 (split; [done|]). left. split; [done|]. intros ??? [= <- <- <-]. done.
Qed.

Lemma ok_link_advance H us ph sl i z k w :
  request k = None → fol H i z w → ok_link H us ph (Some (sl, i, z)) k →
  ok_link H us ph (Some ((addReply_slave w sl).1, i, z + Z.of_nat (length w)))
    (add_msgs (snd <$> (addReply_slave w sl).2) k).
Proof.
  intros Hr Hf Hok. unfold addReply_slave. destruct (replstate sl) eqn:Hst; cbn.
  - rewrite add_msgs_nil.
    destruct (ok_link_cases H us ph sl i z k Hr Hok) as [->|[(_ & Hd & cm & ->)|[[Hq _]|[? _]]]]; [done| |by apply queued_not_online in Hq as []|congruence].
    cbn. rewrite Hr. left. split; [done|]. by intros ??? [= <- _ _].
  - rewrite add_msgs_nil. eapply ok_link_queued; [done|by left|..|exact Hok]; [by left|done].
  - rewrite add_msgs_nil. eapply ok_link_queued; [done|by right|..|exact Hok]; [by right|done].
  - destruct (ok_link_cases H us ph sl i z k Hr Hok) as [->|[[? _]|[[Hq _]|(_ & o & pre & ms & Hd & Ht & Hnew)]]];
      [done|congruence|by apply queued_not_online in Hq as []|].
    unfold add_msgs. rewrite Hr, Hd, <- app_assoc. apply Hnew. destruct Ht as (ps & -> & Hfo & He).
    destruct (He sl i z eq_refl) as (_ & _ & Hz). exists (ps ++ [w]). rewrite fmap_app, concat_app. cbn. rewrite app_nil_r, length_app.
    split; [done|]. split; [|intros ??? [= <- <- <-]; split; [done|]; split; [done|lia]].
    apply fol_app. split; [done|]. by rewrite Hz.
Qed.

(** BGSAVE was started for a replica that waited for it, or it failed. *)
Lemma ok_link_setup H us ph sl i z k o r d :
  request k = None → replstate sl = SLAVE_STATE_WAIT_BGSAVE_START → i ∈ us → 0 ≤ o < LLONG_MAX →
  ok_link H us ph (Some (sl, i, z)) k →
  ok_link H us ph (Some (SClient (sc_conn sl) SLAVE_STATE_WAIT_BGSAVE_END o r d, i, z)) (add_msgs [MLine (fullresync_line i o)] k).
Proof.
  intros Hr Hst Hi Ho Hok.
  destruct (ok_link_cases H us ph sl i z k Hr Hok) as [->|[(_ & Hd & cm & ->)|[[Hq _]|[? _]]]]; [done| |by apply queued_not_online in Hq as []|congruence].
  cbn. rewrite Hr, Hd. right. do 2 eexists. split; [done|]. right; left. exists i, o. do 3 (split; [done|]).
  left. split; [done|]. intros ??? [= <- <- <-]. split; [by left|done].
Qed.
Lemma ok_link_failed H us ph sl i z k :
  request k = None → replstate sl = SLAVE_STATE_WAIT_BGSAVE_START → ok_link H us ph (Some (sl, i, z)) k →
  ok_link H us ph None (add_msgs [MLine bgsave_failed] k).
Proof.
  intros Hr Hst Hok.
  destruct (ok_link_cases H us ph sl i z k Hr Hok) as [->|[(_ & Hd & cm & ->)|[[Hq _]|[? _]]]]; [done| |by apply queued_not_online in Hq as []|congruence].
  cbn. rewrite Hr, Hd. right. do 2 eexists. split; [done|]. right; right. split; [by right|done].
Qed.

(** The file was sent, and what was kept back after it. *)
Lemma ok_link_send H us ph sl i z k :
  request k = None → queued sl → at_h H i (psync_initial_offset sl) (sc_rdb sl) →
  fol H i (psync_initial_offset sl) (sc_reply sl) → psync_initial_offset sl + Z.of_nat (length (sc_reply sl)) = z →
  ok_link H us ph (Some (sl, i, z)) k →
  ok_link H us ph (Some (SClient (sc_conn sl) SLAVE_STATE_ONLINE (psync_initial_offset sl) [] [], i, z))
    (add_msgs [MRdb (sc_rdb sl); MStream (sc_reply sl)] k).
Proof.
  intros Hr Hq Ha Hf Hz Hok. destruct (queued_not_online sl Hq) as [Hn1 Hn2].
  assert (∀ e, (∀ sl' j z', e = Some (sl', j, z') → replstate sl' = SLAVE_STATE_ONLINE ∧ j = i ∧ z' = z) →
    full_ok H e i (psync_initial_offset sl) [MRdb (sc_rdb sl); MStream (sc_reply sl)]) as Hfull.
  { intros e He. right. do 2 eexists. split; [done|]. split; [done|]. exists [sc_reply sl]. cbn. rewrite app_nil_r.
    split; [done|]. split; [done|]. intros sl' j z' (? & ? & ->)%He. done. }
  destruct (ok_link_cases H us ph sl i z k Hr Hok) as [->|[[? _]|[[_ [[Hd ->]|(cm & -> & Hd & Hi & Hb)]]|[? _]]]]; [done|done| | |done].
  - cbn. rewrite Hd. split; [done|]. apply Hfull. by intros ??? [= <- <- <-].
  - cbn. rewrite Hr, Hd. right. do 2 eexists. split; [done|]. right; left. do 2 eexists. split; [done|].
    do 2 (split; [done|]). apply Hfull. by intros ??? [= <- <- <-].
Qed.

(** A step of a server that treats every replica by itself. *)
Lemma sys_A H H' x n p p' g :
  sys_ok H x → nodes x !! n = Some p → hext H H' →
  (∀ i h, H' !! i = Some h → i ∈ used x ∧ 0 ≤ h_lo h ∧ h_hi h < LLONG_MAX) →
  (∀ i, H' !! i = H !! i ∨ (masterhost (srv p) = None ∧ i = replid (srv p) ∧ H !! i ≠ None)) →
  node_ok H' (used x) p' → masterhost (srv p') = masterhost (srv p) → replid (srv p') = replid (srv p) →
  listens (srv p') = listens (srv p) → (∀ c, bview (srv p') c = bview (srv p) c) →
  good_step g → slaves (srv p') = step_slaves g (slaves (srv p)) →
  (∀ sl ph k, sl ∈ slaves (srv p) → request k = None →
     ok_link H' (used x) ph (Some (sl, replid (srv p), moff (srv p))) k →
     ok_link H' (used x) ph ((fun sl' => (sl', replid (srv p), moff (srv p'))) <$> (g sl).1) (add_msgs (snd <$> (g sl).2) k)) →
  sys_ok H' (set_node n p' (step_out g (slaves (srv p))) x).
Proof.
  intros Hs Hn Hx Hh Hsame Hp' Hmh Hid Hlis Hb Hg Hsl Hok.
  eapply sys_step; [exact Hs|exact Hn|exact Hx|done|by eapply s_used|exact Hh| |exact Hp'| | | | |].
  - intros i. destruct (Hsame i) as [?|?]; auto.
  - intros Hm. right. by rewrite <- Hmh.
  - intros sl'. rewrite Hsl. intros (sl & Hin & E)%step_slaves_elem. destruct (Hg sl) as [Hc _].
    rewrite (Hc sl' E), deliver_lookup. destruct (s_entries H x Hs n p sl Hn Hin) as (k & -> & Ht & Hr). by eexists.
  - intros c. rewrite Hlis, deliver_lookup. intros Hl. destruct (s_listens H x Hs n p c Hn Hl) as (k & -> & Hw). by eexists.
  - intros c k Hk. rewrite deliver_lookup, Hk. by eexists.
  - intros c k'. rewrite deliver_lookup. destruct (links x !! c) as [k|] eqn:Ek; [|done]. cbn. intros [= <-]. left.
    exists k. split; [done|]. apply link_step_A; [done|by eapply n_nodup, (s_node H x Hs n)|done|done| |].
    + intros sl Hin <-. destruct (s_entries H x Hs n p sl Hn Hin) as (k1 & Hk1 & Ht & Hr). by simplify_eq.
    + intros sl ph Hin Hr. rewrite Hid. by apply Hok.
Qed.

(** A step that only closes connections of replicas. *)
Lemma sys_local H H' x n p p' us' :
  sys_ok H x → nodes x !! n = Some p → hext H H' → used x ⊆ us' →
  (∀ i, i ∈ us' → hexid i = true ∧ i ≠ zero_id) →
  (∀ i h, H' !! i = Some h → i ∈ us' ∧ 0 ≤ h_lo h ∧ h_hi h < LLONG_MAX) →
  (∀ i, H' !! i = H !! i ∨ i ∉ used x) →
  node_ok H' us' p' →
  (masterhost (srv p') = None →
    replid (srv p') ∉ used x ∨ (masterhost (srv p) = None ∧ replid (srv p') = replid (srv p))) →
  (∀ sl, sl ∈ slaves (srv p') → sl ∈ slaves (srv p)) →
  (∀ c, listens (srv p') = Some c → listens (srv p) = Some c) →
  (∀ c, bview (srv p') c = bview (srv p) c ∨ bview (srv p') c = PhNone) →
  (∀ c, aview (srv p') c = aview (srv p) c ∨ aview (srv p') c = None) →
  sys_ok H' (Sys (<[n := p']> (nodes x)) (links x) us').
Proof.
  intros Hs Hn Hx Hu Hus Hh Hsame Hp' Hm Hsl Hli Hb Ha.
  eapply sys_step; [exact Hs|exact Hn|exact Hx|done|done|exact Hh| |exact Hp'|done| | | |].
  - intros i. destruct (Hsame i); auto.
  - intros sl Hin. by eapply s_entries, Hsl.
  - intros c Hl. by eapply s_listens, Hli.
  - eauto.
  - intros c k Hk. left. exists k. split; [done|]. by apply link_step_local.
Qed.

Lemma sys_local0 H x n p p' :
  sys_ok H x → nodes x !! n = Some p → node_ok H (used x) p' →
  (masterhost (srv p') = None → masterhost (srv p) = None ∧ replid (srv p') = replid (srv p)) →
  (∀ sl, sl ∈ slaves (srv p') → sl ∈ slaves (srv p)) →
  (∀ c, listens (srv p') = Some c → listens (srv p) = Some c) →
  (∀ c, bview (srv p') c = bview (srv p) c ∨ bview (srv p') c = PhNone) →
  (∀ c, aview (srv p') c = aview (srv p) c ∨ aview (srv p') c = None) →
  sys_ok H (Sys (<[n := p']> (nodes x)) (links x) (used x)).
Proof.
  intros Hs Hn Hp' Hm. eapply sys_local; [done|done|apply hext_refl|done|by eapply s_used|by eapply s_hist|by left|done|].
  intros Hh. right. by apply Hm.
Qed.

(** ** The stream *)

Definition g_map (f : sclient → sclient * output) (sl : sclient) : option sclient * output := (Some (f sl).1, (f sl).2).
Lemma step_map f l : step_slaves (g_map f) l = fst <$> (f <$> l) ∧ step_out (g_map f) l = (f <$> l) ≫= snd.
Proof. unfold step_slaves, step_out. induction l as [|sl l [IH1 IH2]]; [done|]. cbn. by rewrite <- IH1, <- IH2. Qed.

Lemma advance_good w : good_step (g_map (addReply_slave w)).
Proof.
  intros sl. unfold g_map, addReply_slave. destruct (replstate sl); cbn; (split; [by intros ? [= <-]|]); by repeat constructor.
Qed.

(** The backlog was fed [w], in one piece or in many. *)
Definition fed_by (w : bytes) (b b' : backlog) : Prop :=
  ∀ st, holds b st → holds b' (st ++ w) ∧ master_repl_offset b' = master_repl_offset b + Z.of_nat (length w) ∧
    repl_backlog_size b' = repl_backlog_size b.

Lemma feed_fed w b st : holds b st → ∃ b', feedReplicationBacklog w b = Ok b' ∧ fed_by w b b'.
Proof.
  intros Hh. destruct (feed_spec b st w Hh) as (b' & E & _). exists b'. split; [done|]. intros st' Hh'.
  destruct (feed_spec b st' w Hh') as (b1 & E1 & ? & ? & ? & _). rewrite E in E1. by injection E1 as <-.
Qed.
Lemma fed_by_app w1 w2 b b1 b2 : fed_by w1 b b1 → fed_by w2 b1 b2 → fed_by (w1 ++ w2) b b2.
Proof.
  intros H1 H2 st Hh. destruct (H1 st Hh) as (Hh1 & Hm1 & Hs1). destruct (H2 _ Hh1) as (Hh2 & Hm2 & Hs2).
  rewrite app_assoc, length_app. split; [done|]. split; [lia|congruence].
Qed.
Lemma fed_by_nil b : fed_by [] b b.
Proof. intros st Hh. rewrite app_nil_r. cbn. split; [done|]. split; [lia|done]. Qed.
Lemma feed_pieces_fed ps : ∀ b st, holds b st → ∃ b', feed_pieces ps b = Ok b' ∧ fed_by (concat ps) b b'.
Proof.
  induction ps as [|w ps IH]; intros b st Hh; cbn [feed_pieces concat].
  - exists b. split; [done|]. apply fed_by_nil.
  - destruct (feed_fed w b st Hh) as (b1 & -> & Hf). cbn [mbind res_bind].
    destruct (IH b1 (st ++ w)) as (b2 & -> & Hf2); [by apply Hf|]. exists b2. split; [done|]. by eapply fed_by_app.
Qed.

(** The server has [w] more of its history, in the backlog and in its contents. *)
Definition advanced (w : bytes) (b : backlog) (mm : option mclient) (inb : bytes) (sd : Z) (p : pnode) : pnode :=
  PNode (set_slaveseldb sd (set_master mm (addReply_slaves w (set_bl b (srv p))).1)) (contents p ++ (TByte <$> w)) inb (disk p).

Lemma node_advance H H' us p w b mm inb sd :
  node_ok H us p → hext H H' → (∀ i, i ∈ us → H !! i = None → H' !! i = None) → has_backlog (srv p) →
  fed_by w (bl (srv p)) b → fol H' (replid (srv p)) (moff (srv p)) w →
  moff (srv p) + Z.of_nat (length w) < LLONG_MAX → cached_master (srv p) = None →
  (masterhost (srv p) = None → ∀ h, H' !! replid (srv p) = Some h → moff (srv p) + Z.of_nat (length w) = h_hi h) →
  (∀ m, mm = Some m → master_ok H' (srv (advanced w b mm inb sd p)) inb m) → (master (srv p) ≠ None → mm ≠ None) →
  node_ok H' us (advanced w b mm inb sd p) ∧ moff (srv (advanced w b mm inb sd p)) = moff (srv p) + Z.of_nat (length w).
Proof.
  intros Hp Hx Hnew Hb Hf Hfol Hmax Hca Hown Hmm Hm.
  destruct (n_bl H us p Hp Hb) as [Hat (h & Hh & Hr)].
  destruct (Hf _ Hr) as (Hr' & Hmo & Hsz).
  assert (moff (srv (advanced w b mm inb sd p)) = moff (srv p) + Z.of_nat (length w)) as Hmoff by exact Hmo.
  split; [|done].
  assert (has_backlog (srv (advanced w b mm inb sd p))) as Hb'.
  { destruct Hr' as [(buf & E & _) _]. unfold has_backlog. cbn. by rewrite E. }
  pose proof (at_fol _ _ _ _ _ (at_h_ext _ _ _ _ _ Hx Hat) Hfol) as Hat'.
  destruct Hp as [Hs Hi Hmf _ Hma _ Hc Hi2 Ho Hsl Hnd Hq Ht Hd].
  assert (∀ i, i ∈ us → H' !! i ≠ None → H !! i ≠ None) as Hold by naive_solver.
  split; try done.
  - cbn. by rewrite Hsz.
  - rewrite Hmoff. lia.
  - intros _. rewrite Hmoff. split; [done|]. destruct Hfol as (h' & Hh' & Hlo & Hhi & Eu).
    exists h'. split; [done|]. change (replid (srv (advanced w b mm inb sd p))) with (replid (srv p)). rewrite Eu. cbn.
    destruct (Hx _ _ Hh) as (h1 & Hh1 & Hg). simplify_eq. destruct Hat as (h2 & Hh2 & Hin & _). simplify_eq.
    by destruct (grow_upto _ _ _ Hg Hin) as [_ ->].
  - cbn. rewrite Hca. done.
  - cbn. intros Hst. apply Hm. by apply Hc.
  - cbn. destruct Hi2 as [?|[Hin Hag]]; [by left|right]. split; [done|]. intros Hne. eapply agree_ext; [done|]. by apply Hag, Hold.
  - cbn. intros Hmh. destruct (Ho Hmh) as [Hst _]. split; [done|]. intros h' Hh'. split; [done|].
    unfold moff in Hown |- *. cbn. rewrite Hmo. by apply Hown.
  - change (slaves (srv (advanced w b mm inb sd p))) with (fst <$> (addReply_slave w <$> slaves (srv p))).
    rewrite <- (proj1 (step_map _ _)). apply step_nodup; [apply advance_good|done].
  - intros sl'. change (slaves (srv (advanced w b mm inb sd p))) with (fst <$> (addReply_slave w <$> slaves (srv p))).
    rewrite <- (proj1 (step_map _ _)). intros (sl & Hin & E)%step_slaves_elem Hqu. cbn in E. injection E as <-.
    assert (queued sl) as Hqsl.
    { unfold queued, addReply_slave in *. destruct (replstate sl) eqn:E; cbn in Hqu; rewrite ?E in Hqu; naive_solver. }
    destruct (Hq sl Hin Hqsl) as [Hqa Hqf Hqe]. pose proof (queued_not_online sl Hqsl) as [? ?].
    assert ((addReply_slave w sl).1 = SClient (sc_conn sl) (replstate sl) (psync_initial_offset sl) (sc_reply sl ++ w) (sc_rdb sl)) as ->
      by (unfold addReply_slave; by destruct (replstate sl)).
    split; cbn [psync_initial_offset sc_rdb sc_reply replid srv advanced set_slaveseldb set_master addReply_slaves].
    + by eapply at_h_ext.
    + apply fol_app. split; [by eapply fol_ext|]. by rewrite Hqe.
    + etransitivity; [|symmetry; exact Hmoff]. rewrite length_app. lia.
  - cbn. intros Hst. by destruct (Ht Hst) as [? _].
  - cbn. intros d i o E. destruct (Hd d i o E) as (Hin & Hr1 & Ha). split; [done|]. split; [done|].
    intros Hne. eapply at_h_ext; [done|]. by apply Ha, Hold.
Qed.

Definition same_link (m m' : option mclient) : Prop :=
  (fun m => (mc_conn m, mc_replid m, read_reploff m)) <$> m' = (fun m => (mc_conn m, mc_replid m, read_reploff m)) <$> m.

Lemma same_link_view s s' : repl_state s' = repl_state s → repl_transfer_s s' = repl_transfer_s s → cached_master s' = cached_master s →
  master_replid s' = master_replid s → master_initial_offset s' = master_initial_offset s → same_link (master s) (master s') →
  listens s' = listens s ∧ ∀ c, bview s' c = bview s c.
Proof.
  intros E1 E2 E3 E4 E5 E6. assert (listens s' = listens s) as El.
  { unfold listens. rewrite E1, E2. destruct (repl_state s); try done. unfold same_link in E6.
    destruct (master s), (master s'); cbn in *; congruence. }
  split; [done|]. intros c. unfold bview. rewrite El, E1, E3, E4, E5. case_bool_decide; [|done].
  destruct (repl_state s); try done. unfold same_link in E6. destruct (master s), (master s'); cbn in *; congruence.
Qed.

Lemma sys_advance H H' x n p w b mm inb sd :
  sys_ok H x → nodes x !! n = Some p → hext H H' →
  (∀ i h, H' !! i = Some h → i ∈ used x ∧ 0 ≤ h_lo h ∧ h_hi h < LLONG_MAX) →
  (∀ i, H' !! i = H !! i ∨ (masterhost (srv p) = None ∧ i = replid (srv p) ∧ H !! i ≠ None)) →
  has_backlog (srv p) → fed_by w (bl (srv p)) b → fol H' (replid (srv p)) (moff (srv p)) w →
  moff (srv p) + Z.of_nat (length w) < LLONG_MAX → cached_master (srv p) = None →
  (masterhost (srv p) = None → ∀ h, H' !! replid (srv p) = Some h → moff (srv p) + Z.of_nat (length w) = h_hi h) →
  (∀ m, mm = Some m → master_ok H' (srv (advanced w b mm inb sd p)) inb m) → same_link (master (srv p)) mm →
  sys_ok H' (set_node n (advanced w b mm inb sd p) (addReply_slaves w (set_bl b (srv p))).2 x).
Proof.
  intros Hs Hn Hx Hh Hsame Hb Hf Hfol Hmax Hca Hown Hmm Hlink.
  destruct (node_advance H H' (used x) p w b mm inb sd) as [Hp' Hmo]; try done.
  { by eapply s_node. }
  { intros i _ Hi. destruct (Hsame i) as [->|(_ & _ & ?)]; done. }
  { intros Hne ->. apply Hne. unfold same_link in Hlink. by destruct (master (srv p)). }
  destruct (same_link_view (srv p) (srv (advanced w b mm inb sd p))) as [Hl Hv]; try done.
  replace (addReply_slaves w (set_bl b (srv p))).2 with (step_out (g_map (addReply_slave w)) (slaves (srv p)))
    by apply (step_map (addReply_slave w)).
  eapply sys_A; try done.
  - apply advance_good.
  - symmetry. apply (step_map (addReply_slave w)).
  - intros sl ph k Hin Hr Hok. rewrite Hmo. cbn [g_map fst snd fmap option_fmap option_map]. by apply ok_link_advance.
Qed.

Lemma set_node_twice n p1 p2 out1 out2 x : set_node n p2 (out1 ++ out2) x = set_node n p2 out2 (set_node n p1 out1 x).
Proof. unfold set_node. cbn. by rewrite insert_insert_eq, deliver_app. Qed.

Lemma extend_hist i w H (us : list bytes) :
  (∀ j h, H !! j = Some h → j ∈ us ∧ 0 ≤ h_lo h ∧ h_hi h < LLONG_MAX) →
  (∀ h, H !! i = Some h → h_hi h + Z.of_nat (length w) < LLONG_MAX) →
  ∀ j h, extend i w H !! j = Some h → j ∈ us ∧ 0 ≤ h_lo h ∧ h_hi h < LLONG_MAX.
Proof.
  intros Hh Hmax j h. unfold extend. destruct (decide (i = j)) as [->|Hne]; [|rewrite lookup_alter_ne by done; apply Hh].
  rewrite lookup_alter_eq. destruct (H !! j) as [h0|] eqn:E; [|done]. intros [= <-]. destruct (Hh j h0 E) as (? & ? & _).
  specialize (Hmax h0 eq_refl). unfold h_hi in *. cbn. rewrite length_app. split; [done|]. lia.
Qed.

(** A master puts [w] in its stream. *)
Lemma sys_write H x n p w b sd :
  sys_ok H x → nodes x !! n = Some p → masterhost (srv p) = None → has_backlog (srv p) →
  moff (srv p) + Z.of_nat (length w) < LLONG_MAX → fed_by w (bl (srv p)) b →
  ∃ H', sys_ok H' (set_node n (advanced w b (master (srv p)) (inbox p) sd p) (addReply_slaves w (set_bl b (srv p))).2 x).
Proof.
  intros Hs Hn Hmh Hb Hmax Hf. pose proof (s_node H x Hs n p Hn) as Hp.
  destruct (n_own _ _ _ Hp Hmh) as [Hst Hown]. destruct (n_bl _ _ _ Hp Hb) as [_ (h & Hh & _)].
  destruct (Hown h Hh) as [_ Hhi].
  assert (master (srv p) = None) as Hmn.
  { destruct (master (srv p)) as [m|] eqn:E; [|done]. destruct (n_master _ _ _ Hp m E). congruence. }
  exists (extend (replid (srv p)) w H). eapply sys_advance; try done.
  - apply extend_ext.
  - apply extend_hist; [by eapply s_hist|]. intros h' Hh'. simplify_eq. lia.
  - intros i. destruct (decide (i = replid (srv p))) as [->|Hne]; [right|left; unfold extend; by rewrite lookup_alter_ne].
    by rewrite Hh.
  - rewrite Hhi. by apply extend_fol.
  - destruct (cached_master (srv p)) as [m|] eqn:E; [|done]. by destruct (n_cached _ _ _ Hp m E).
  - intros _ h'. unfold extend. rewrite lookup_alter_eq, Hh. intros [= <-]. rewrite Hhi. unfold h_hi. cbn. rewrite length_app. lia.
  - rewrite Hmn. done.
Qed.

(** The invariant, with some histories; a result that keeps it. *)
Definition inv (x : sys) : Prop := ∃ H, sys_ok H x.
Definition safe (r : res sys) : Prop := ∃ x, r = Ok x ∧ inv x.

Lemma safe_here H x : sys_ok H x → safe (mret x).
Proof. intros Hs. exists x. split; [done|]. by exists H. Qed.

Lemma has_backlog_dec s : {has_backlog s} + {repl_backlog (bl s) = None}.
Proof. unfold has_backlog. destruct (repl_backlog (bl s)); [by left|by right]. Qed.

Lemma node_ok_contents H us p d :
  node_ok H us p → repl_backlog (bl (srv p)) = None → masterhost (srv p) = None →
  node_ok H us (PNode (srv p) d (inbox p) (disk p)).
Proof.
  intros [Hs Hi Hm Hb Hma Hca Hc Hi2 Ho Hsl Hnd Hq Ht Hd] Hn Hmh. split; try done.
  cbn. intros m E. by destruct (Hca m E).
Qed.

(** Fields the invariant does not mention. *)
Lemma node_ok_aux H us p sd ch : node_ok H us p → node_ok H us (set_srv (set_child ch (set_slaveseldb sd (srv p))) p).
Proof.
  intros [Hs Hi Hm Hb Hma Hca Hc Hi2 Ho Hsl Hnd Hq Ht Hd]. split; try done.
  - intros m E. destruct (Hma m E). by split.
  - intros m E. destruct (Hca m E). by split.
  - intros sl Hin Hqu. destruct (Hq sl Hin Hqu). by split.
Qed.

Lemma can_write_spec dictid argv s : can_write dictid argv s = true →
  masterhost s = None ∧ argv_ok argv ∧ moff s + Z.of_nat (length (write_bytes dictid argv s)) < LLONG_MAX.
Proof.
  unfold can_write. rewrite !andb_true_iff, bool_decide_eq_true, forallb_forall, Z.leb_le, Z.ltb_lt.
  intros [[[Hm Ha] Hl] Hb]. split; [done|]. split; [|done]. split; [|done]. apply Forall_forall. intros o Ho%list_elem_of_In.
  specialize (Ha o Ho). destruct o; cbn in Ha |- *; unfold is_ll; lia.
Qed.

(** [replicationFeedSlaves] with a backlog: the SELECT command, when it is needed, and then
    the command. *)
Definition select_bytes (dictid : Z) (s : rserver) : bytes := if slaveseldb s =? dictid then [] else selectcmd dictid.
Definition select_part (dictid : Z) (b : backlog) (s : rserver) : rserver * output :=
  if slaveseldb s =? dictid then (s, []) else addReply_slaves (selectcmd dictid) (set_bl b s).
Lemma select_part_bl dictid b s : (slaveseldb s =? dictid = true → b = bl s) → bl (select_part dictid b s).1 = b.
Proof. unfold select_part. destruct (slaveseldb s =? dictid); [|done]. intros ->; done. Qed.

Lemma feed_run dictid argv s st :
  masterhost s = None → holds (bl s) st → argv_ok argv →
  ∃ b1 b2, fed_by (select_bytes dictid s) (bl s) b1 ∧ fed_by (slave_bytes argv) b1 b2 ∧ (slaveseldb s =? dictid = true → b1 = bl s) ∧
    let r1 := select_part dictid b1 s in
    let r2 := addReply_slaves (slave_bytes argv) (set_bl b2 (set_slaveseldb dictid r1.1)) in
    replicationFeedSlaves dictid argv s = Ok (r2.1, r1.2 ++ r2.2).
Proof.
  intros Hmh Hh Ha. unfold replicationFeedSlaves, select_bytes.
  rewrite (bool_decide_eq_false_2 (masterhost s ≠ None)) by (rewrite Hmh; auto).
  assert (∀ b st, holds b st → repl_backlog b ≠ None) as Hne by (intros b st0 [(buf & -> & _) _]; done).
  rewrite (bool_decide_eq_false_2 (repl_backlog (bl s) = None)), (bool_decide_eq_true_2 (repl_backlog (bl s) ≠ None)) by eauto.
  rewrite orb_true_r. cbn [andb serverAssert mbind res_bind].
  assert (∃ b1, fed_by (select_bytes dictid s) (bl s) b1 ∧ (slaveseldb s =? dictid = true → b1 = bl s) ∧
    (if slaveseldb s =? dictid then mret (s, [])
     else b ← feedReplicationBacklog (selectcmd dictid) (bl s); mret (addReply_slaves (selectcmd dictid) (set_bl b s)))
    = Ok (select_part dictid b1 s)) as (b1 & Hf1 & He & Hrun).
  { unfold select_bytes, select_part. destruct (slaveseldb s =? dictid).
    - exists (bl s). split; [apply fed_by_nil|]. by split.
    - destruct (feed_fed (selectcmd dictid) _ _ Hh) as (b1 & -> & Hf). by exists b1. }
  rewrite Hrun. cbn [mbind res_bind]. pose proof (select_part_bl dictid b1 s He) as Hb1. destruct (select_part dictid b1 s) as [s1 out1] eqn:Es.
  cbn [fst] in Hb1. change (bl (set_slaveseldb dictid s1)) with (bl s1). rewrite Hb1. destruct (Hf1 st Hh) as [Hh1 _].
  rewrite (bool_decide_eq_false_2 (repl_backlog b1 = None)) by eauto.
  destruct (feed_pieces_fed (backlog_pieces argv) b1 _ Hh1) as (b2 & -> & Hf2). rewrite backlog_pieces_spec, <- slave_bytes_spec in Hf2 by done.
  exists b1, b2. split; [done|]. split; [done|]. split; [done|]. by rewrite Es.
Qed.

(** The first part is a step of the system of its own. *)
Lemma select_ok H x n p dictid b1 :
  sys_ok H x → nodes x !! n = Some p → masterhost (srv p) = None → has_backlog (srv p) →
  moff (srv p) + Z.of_nat (length (select_bytes dictid (srv p))) < LLONG_MAX →
  fed_by (select_bytes dictid (srv p)) (bl (srv p)) b1 →
  let r1 := select_part dictid b1 (srv p) in
  ∃ H1, sys_ok H1 (set_node n (PNode (set_slaveseldb dictid r1.1) (contents p ++ (TByte <$> select_bytes dictid (srv p))) (inbox p) (disk p)) r1.2 x).
Proof.
  intros Hs Hn Hmh Hb Hmax Hf. unfold select_part, select_bytes in *. destruct (slaveseldb (srv p) =? dictid); cbn zeta.
  - exists H. cbn. rewrite app_nil_r. eapply sys_local0; try done; try (by left).
    by apply (node_ok_aux H _ p dictid (rdb_child (srv p))), (s_node H x Hs n).
  - by destruct (sys_write H x n p (selectcmd dictid) b1 dictid) as [H1 Hs1]; [..|exists H1].
Qed.

Lemma write_ok H x n dictid argv : sys_ok H x → safe (exec_write n dictid argv x).
Proof.
  intros Hs. unfold exec_write, exec_at. destruct (nodes x !! n) as [p|] eqn:Hn; [|by eapply safe_here].
  destruct (can_write dictid argv (srv p)) eqn:Hw; [|by eapply safe_here].
  apply can_write_spec in Hw as (Hmh & Hargv & Hmax). pose proof (s_node H x Hs n p Hn) as Hp.
  destruct (has_backlog_dec (srv p)) as [Hb|Hb].
  2:{ assert (slaves (srv p) = []) as Hsl.
      { destruct (slaves (srv p)) eqn:E; [done|]. destruct (n_slaves _ _ _ Hp); [by rewrite E|done]. }
      unfold replicationFeedSlaves. rewrite (bool_decide_eq_false_2 (masterhost (srv p) ≠ None)) by (rewrite Hmh; auto).
      rewrite (bool_decide_eq_true_2 _ Hb), (bool_decide_eq_true_2 _ Hsl). cbn [andb mbind res_bind mret res_ret].
      eexists. split; [done|]. exists H. unfold set_node. cbn [deliver foldl].
      eapply sys_local0; try done; try (by left). by apply node_ok_contents. }
  destruct (n_bl _ _ _ Hp Hb) as [_ (h & _ & Hr)].
  destruct (feed_run dictid argv (srv p) _ Hmh Hr Hargv) as (b1 & b2 & Hf1 & Hf2 & He & ->). cbn zeta. cbn [mbind res_bind].
  rewrite (bool_decide_eq_false_2 (repl_backlog (bl (srv p)) = None)) by done.
  change (write_bytes dictid argv (srv p)) with (select_bytes dictid (srv p) ++ slave_bytes argv) in *. rewrite length_app in Hmax.
  destruct (select_ok H x n p dictid b1 Hs Hn Hmh Hb ltac:(lia) Hf1) as [H1 Hs1].
  pose proof (select_part_bl dictid b1 (srv p) He) as Hb1. destruct (Hf1 _ Hr) as (Hr1 & Hmo1 & _).
  set (r1 := select_part dictid b1 (srv p)) in *.
  set (p1 := PNode (set_slaveseldb dictid r1.1) (contents p ++ (TByte <$> select_bytes dictid (srv p))) (inbox p) (disk p)) in *.
  destruct (sys_write H1 _ n p1 (slave_bytes argv) b2 dictid Hs1 (lookup_insert_eq _ _ _)) as [H2 Hs2].
  { cbn. unfold r1, select_part. by destruct (slaveseldb (srv p) =? dictid). }
  { unfold has_backlog. cbn. rewrite Hb1. by destruct Hr1 as [(buf & -> & _) _]. }
  { unfold moff. cbn. rewrite Hb1, Hmo1. unfold moff in Hmax. lia. }
  { cbn. by rewrite Hb1. }
  eexists. split; [done|]. exists H2. rewrite (set_node_twice n p1), fmap_app, app_assoc. exact Hs2.
Qed.
