(* ===== verification/ReplSteps.v ===== *)
(** * Every step keeps the invariant

    One lemma per event of [ReplSystem.event]: the event succeeds, no assertion fails,
    and the invariant of [ReplInv] holds after it. *)

From S2P Require Import Prelude Util Cmds Resp Backlog Replication ReplSystem ReplInv.
From stdpp Require Import list gmap.
#[local] Open Scope Z_scope.

(** ** Roles *)

(** The client of the master is freed: it becomes the cached master, or is lost. *)
Definition freed (s : rserver) (m : mclient) (close : bool) : rserver :=
  RServer (bl s) (replid s) (replid2 s) (second_replid_offset s) (slaves s) (slaveseldb s) (rdb_child s) (masterhost s)
    REPL_STATE_CONNECT (repl_transfer_s s) None
    (if close then None else Some (MClient (mc_conn m) (replid s) (moff s) (moff s) [] [] false false))
    (master_replid s) (master_initial_offset s).
Lemma freeMaster_eq s m close :
  master s = Some m → cached_master s = None → mc_replid m = replid s → reploff m = moff s → mc_rock m = false →
  freeMaster close s = Ok (freed s m close).
Proof.
  intros Hm Hca Hid Hoff Hr. unfold freeMaster, freed. destruct close.
  - unfold replicationHandleMasterDisconnection, set_state, set_master. cbn. by rewrite Hca.
  - unfold replicationCacheMaster. rewrite Hm, Hca. cbn.
    unfold replicationHandleMasterDisconnection, set_state, set_master, set_cached. cbn. by rewrite Hid, Hoff, Hr.
Qed.

(** A replica that is not connected. *)
Definition idle (s s' : rserver) : Prop :=
  bl s' = bl s ∧ replid s' = replid s ∧ replid2 s' = replid2 s ∧ second_replid_offset s' = second_replid_offset s ∧
  master s' = None ∧ masterhost s' ≠ None ∧ repl_state s' = REPL_STATE_CONNECT ∧ (slaves s' = slaves s ∨ slaves s' = []).

Lemma idle_node H us p s' d inb :
  node_ok H us p → idle (srv p) s' → (has_backlog (srv p) → d = contents p) →
  (∀ m, cached_master s' = Some m → cached_ok H s' d m) → node_ok H us (PNode s' d inb (disk p)).
Proof.
  intros [Hs Hi Hm Hb Hma Hca Hc Hi2 Ho Hsl Hnd Hq Ht Hd] (E1 & E2 & E3 & E4 & E5 & E6 & E7 & E8) Hdc Hcm.
  assert (moff s' = moff (srv p)) as E9 by (unfold moff; by rewrite E1).
  assert (has_backlog s' ↔ has_backlog (srv p)) as E10 by (unfold has_backlog; by rewrite E1).
  split; cbn [srv contents inbox disk]; rewrite ?E2, ?E3, ?E4, ?E5, ?E7, ?E9; try done.
  - by rewrite E1.
  - intros Hbl. apply E10 in Hbl. rewrite E1, (Hdc Hbl). by apply Hb.
  - intros Hne. apply E10. destruct E8 as [E8|E8]; rewrite E8 in Hne; [by apply Hsl|done].
  - destruct E8 as [-> | ->]; [done|constructor].
  - intros sl Hin. destruct E8 as [E8|E8]; rewrite E8 in Hin; [|by apply elem_of_nil in Hin]. intros Hqu.
    destruct (Hq sl Hin Hqu). split; by rewrite ?E2, ?E9.
Qed.

Lemma idle_sys H x n p s' d inb :
  sys_ok H x → nodes x !! n = Some p → idle (srv p) s' → (has_backlog (srv p) → d = contents p) →
  (∀ m, cached_master s' = Some m → cached_ok H s' d m) →
  safe (mret (set_node n (PNode s' d inb (disk p)) [] x)).
Proof.
  intros Hs Hn Hid Hd Hcm. eexists. split; [done|]. exists H. unfold set_node. cbn [deliver foldl].
  pose proof Hid as (E1 & E2 & E3 & E4 & E5 & E6 & E7 & E8).
  assert (listens s' = None) as El by (unfold listens; by rewrite E7).
  eapply sys_local0; [done|done|eapply idle_node; [by eapply s_node|done|done|done]| | | | |]; cbn [srv].
  - done.
  - intros sl. destruct E8 as [->| ->]; [done|]. by intros ?%elem_of_nil.
  - by rewrite El.
  - right. unfold bview. by rewrite El.
  - intros c. unfold aview, moff. rewrite E1, E2. destruct E8 as [-> | ->]; [by left|by right].
Qed.

(** The cached master that is made of the state of the server. *)
Lemma cached_ok_new H s d m : master s = None → masterhost s ≠ None →
  m = MClient (mc_conn m) (replid s) (moff s) (moff s) [] [] false (mc_cmd m) →
  (H !! replid s ≠ None → at_h H (replid s) (moff s) d) → cached_ok H s d m.
Proof. by split. Qed.

Lemma drop_ok H x n close wiped : sys_ok H x → safe (exec_drop n close wiped x).
Proof.
  intros Hs. unfold exec_drop, exec_at. destruct (nodes x !! n) as [p|] eqn:Hn; [|by eapply safe_here].
  pose proof (s_node H x Hs n p Hn) as Hp.
  assert (masterhost (srv p) = None → repl_state (srv p) = REPL_STATE_NONE) as Hmh by (intros E; by apply (n_own _ _ _ Hp)).
  destruct (repl_state (srv p)) eqn:Hst; try (by eapply safe_here).
  - eapply idle_sys; [done|done| |done|].
    + unfold cancelReplicationHandshake. rewrite Hst. repeat split; try done.
      * cbn. destruct (master (srv p)) as [m|] eqn:E; [|done]. destruct (n_master _ _ _ Hp m E). congruence.
      * cbn. intros E. by apply Hmh in E.
      * by left.
    + unfold cancelReplicationHandshake. rewrite Hst. cbn. intros m E. destruct (n_cached _ _ _ Hp m E). by split.
  - destruct (n_transfer _ _ _ Hp Hst) as (Hb & Hsl & Hm & Hc). eapply idle_sys; [done|done| |done|].
    + unfold cancelReplicationHandshake. rewrite Hst. repeat split; try done; [|by left].
      cbn. intros E. by apply Hmh in E.
    + unfold cancelReplicationHandshake. rewrite Hst. cbn. by rewrite Hc.
  - destruct (master (srv p)) as [m|] eqn:Hm; [|by destruct (n_conn _ _ _ Hp Hst)].
    destruct (n_master _ _ _ Hp m Hm) as [_ Hca Hb Hid Hoff _ _ _ Hr _].
    rewrite (freeMaster_eq _ m close) by done. cbn [mbind res_bind].
    assert (masterhost (srv p) ≠ None) as Hmh' by (intros E; by apply Hmh in E).
    eapply idle_sys; [done|done| |done|].
    + repeat split; try done. by left.
    + cbn. destruct close; [done|]. intros m' [= <-]. apply cached_ok_new; [done|done|done|].
      intros _. by apply (n_bl _ _ _ Hp).
Qed.

Lemma cancel_eq s : cancelReplicationHandshake s =
  RServer (bl s) (replid s) (replid2 s) (second_replid_offset s) (slaves s) (slaveseldb s) (rdb_child s) (masterhost s)
    (match repl_state s with REPL_STATE_TRANSFER | REPL_STATE_RECEIVE_PSYNC => REPL_STATE_CONNECT | t => t end)
    (match repl_state s with REPL_STATE_TRANSFER | REPL_STATE_RECEIVE_PSYNC => None | _ => repl_transfer_s s end)
    (master s) (cached_master s) (master_replid s) (master_initial_offset s).
Proof. unfold cancelReplicationHandshake, set_state, set_transfer. by destruct s as [? ? ? ? ? ? ? ? []]. Qed.

Lemma replicaof_ok H x n host close : sys_ok H x → safe (exec (EReplicaof n host close) x).
Proof.
  intros Hs. cbn [exec]. unfold exec_at. destruct (nodes x !! n) as [p|] eqn:Hn; [|by eapply safe_here].
  pose proof (s_node H x Hs n p Hn) as Hp. unfold replicationSetMaster.
  set (s0 := set_masterhost (Some host) (srv p)).
  assert (∃ s1, (if bool_decide (master s0 = None) then mret s0 else freeMaster close s0) = Ok s1 ∧
    bl s1 = bl (srv p) ∧ replid s1 = replid (srv p) ∧ replid2 s1 = replid2 (srv p) ∧
    second_replid_offset s1 = second_replid_offset (srv p) ∧ master s1 = None ∧ masterhost s1 = Some host ∧
    ∀ m, cached_master s1 = Some m → masterhost (srv p) ≠ None ∧
      m = MClient (mc_conn m) (replid (srv p)) (moff (srv p)) (moff (srv p)) [] [] false (mc_cmd m) ∧
      (H !! replid (srv p) ≠ None → at_h H (replid (srv p)) (moff (srv p)) (contents p))) as (s1 & -> & E1 & E2 & E3 & E4 & E5 & E6 & Hc).
  { destruct (master (srv p)) as [m|] eqn:Hm.
    - destruct (n_master _ _ _ Hp m Hm) as [Hst Hca Hb Hid Hoff _ _ _ Hr _].
      rewrite bool_decide_eq_false_2 by (cbn; rewrite Hm; done). rewrite (freeMaster_eq s0 m) by done. eexists. split; [done|].
      repeat (split; [done|]). cbn. destruct close; [done|]. intros m' [= <-]. split; [|split; [done|]].
      + intros E. destruct (n_own _ _ _ Hp E). congruence.
      + intros _. by apply (n_bl _ _ _ Hp).
    - rewrite bool_decide_eq_true_2 by done. eexists. split; [done|]. repeat (split; [done|]). cbn. intros m E.
      by destruct (n_cached _ _ _ Hp m E). }
  cbn [mbind res_bind mret res_ret]. rewrite cancel_eq.
  set (wm := bool_decide (masterhost (srv p) = None)). eapply idle_sys; [done|done| |done|].
  - unfold idle. destruct wm; cbn; rewrite ?E1, ?E2, ?E3, ?E4, ?E5, ?E6; repeat split; try done; by right.
  - destruct wm eqn:Ewm; cbn.
    + apply bool_decide_eq_true in Ewm. intros m [= <-]. apply cached_ok_new; cbn; [done|by rewrite E6| |].
      * unfold moff. cbn. by rewrite E2.
      * unfold moff. cbn. rewrite E1, E2. intros Hne. destruct (H !! replid (srv p)) as [h|] eqn:Hh; [|done].
        destruct (n_own _ _ _ Hp Ewm) as [_ Ho]. destruct (Ho h Hh) as [Hb _]. by apply (n_bl _ _ _ Hp).
    + intros m Hm. destruct (Hc m Hm) as (Hne & Em & Ha). apply cached_ok_new; cbn; [done|by rewrite E6| |].
      * unfold moff. cbn. by rewrite E1, E2.
      * unfold moff. cbn. by rewrite E1, E2.
Qed.

(** A new ID. *)
Lemma fresh_spec newid H x : fresh_id newid x = true → sys_ok H x →
  newid ∉ used x ∧ H !! newid = None ∧ (∀ i, i ∈ newid :: used x → hexid i = true ∧ i ≠ zero_id).
Proof.
  unfold fresh_id. rewrite !andb_true_iff, !bool_decide_eq_true. intros [[Hx Hu] Hz] Hs. split; [done|]. split.
  - destruct (H !! newid) as [h|] eqn:E; [|done]. by destruct (s_hist H x Hs newid h E).
  - intros i [->|Hi]%elem_of_cons; [done|]. by eapply s_used.
Qed.

(** The ID of a server is replaced; the history continues under the new ID. *)
Definition fork_hist (h : hist) (o : Z) : hist := Hist (h_base h) (h_lo h) (upto h o).
Lemma fork_upto h o : in_hist h o → in_hist (fork_hist h o) o ∧ upto (fork_hist h o) o = upto h o ∧ h_hi (fork_hist h o) = o.
Proof.
  intros Hin. pose proof (upto_length h o Hin) as Hl. unfold fork_hist, in_hist, h_hi in *. cbn. split; [lia|]. split; [|lia].
  unfold upto. cbn. rewrite take_take. f_equal. lia.
Qed.

Lemma hist_insert H x newid h :
  fresh_id newid x = true → sys_ok H x → 0 ≤ h_lo h → h_hi h < LLONG_MAX →
  hext H (<[newid := h]> H) ∧
  (∀ i k, <[newid := h]> H !! i = Some k → i ∈ newid :: used x ∧ 0 ≤ h_lo k ∧ h_hi k < LLONG_MAX) ∧
  (∀ i, <[newid := h]> H !! i = H !! i ∨ i ∉ used x) ∧ (∀ i, i ∈ used x → <[newid := h]> H !! i = H !! i).
Proof.
  intros Hf Hs Hlo Hhi. destruct (fresh_spec newid H x Hf Hs) as (Hni & Hnone & _).
  split; [by apply insert_ext|]. split; [|split].
  - intros i k [[-> ->]|[Hne Hk]]%lookup_insert_Some; [split; [left|done]|].
    destruct (s_hist H x Hs i k Hk) as (? & ?). split; [by right|done].
  - intros i. destruct (decide (newid = i)) as [->|Hne]; [by right|left; by rewrite lookup_insert_ne].
  - intros i Hi. rewrite lookup_insert_ne; [done|]. by intros ->.
Qed.

Lemma freeMaster_some close s m : master s = Some m → cached_master s = None →
  ∃ cm, freeMaster close s = Ok (RServer (bl s) (replid s) (replid2 s) (second_replid_offset s) (slaves s) (slaveseldb s) (rdb_child s)
    (masterhost s) REPL_STATE_CONNECT (repl_transfer_s s) None cm (master_replid s) (master_initial_offset s)).
Proof.
  intros Hm Hca. unfold freeMaster. destruct close; [by eexists|]. unfold replicationCacheMaster. rewrite Hm, Hca. by eexists.
Qed.

(** The history under the ID that a promoted server chooses forks from the one it had. *)
Lemma promote_hist H x n p newid : sys_ok H x → nodes x !! n = Some p → fresh_id newid x = true →
  ∃ H', hext H H' ∧ (∀ i k, H' !! i = Some k → i ∈ newid :: used x ∧ 0 ≤ h_lo k ∧ h_hi k < LLONG_MAX) ∧
    (∀ i, H' !! i = H !! i ∨ i ∉ used x) ∧ (∀ i, i ∈ used x → H' !! i = H !! i) ∧
    (∀ h, H' !! newid = Some h → has_backlog (srv p) ∧ moff (srv p) = h_hi h ∧ agree H' newid (replid (srv p)) (moff (srv p))) ∧
    (has_backlog (srv p) → at_h H' newid (moff (srv p)) (contents p) ∧
      ∃ h, H' !! newid = Some h ∧ holds (bl (srv p)) (upto h (moff (srv p)))).
Proof.
  intros Hs Hn Hf. pose proof (s_node H x Hs n p Hn) as Hp. destruct (fresh_spec newid H x Hf Hs) as (Hni & Hnone & Hus).
  destruct (has_backlog_dec (srv p)) as [Hb|Hb].
  - destruct (n_bl _ _ _ Hp Hb) as [(h & Hh & Hin & Hd) (h' & Hh1 & Hr)]. simplify_eq.
    destruct (fork_upto h _ Hin) as (Hin' & Eu & Ehi). destruct (s_hist H x Hs _ _ Hh) as (_ & Hlo & Hhi). pose proof (n_moff _ _ _ Hp) as Hm.
    destruct (hist_insert H x newid (fork_hist h (moff (srv p))) Hf Hs) as (Hx & Hb' & Hc & Hd'); [done|lia|].
    exists (<[newid := fork_hist h (moff (srv p))]> H). do 4 (split; [done|]). split.
    + intros k. rewrite lookup_insert_eq. intros [= <-]. split; [done|]. split; [done|].
      exists (fork_hist h (moff (srv p))), h. rewrite lookup_insert_eq, Hd' by (by eapply n_id). done.
    + intros _. split.
      * exists (fork_hist h (moff (srv p))). rewrite lookup_insert_eq. split; [done|]. split; [done|].
        unfold h_data. rewrite Eu. done.
      * exists (fork_hist h (moff (srv p))). rewrite lookup_insert_eq, Eu. done.
  - exists H. split; [apply hext_refl|]. split.
    { intros i h Hi. destruct (s_hist H x Hs i h Hi) as [? ?]. split; [by right|done]. }
    split; [by left|]. split; [done|]. rewrite Hnone. done.
Qed.

(** The server forgets its master. *)
Lemma promote_free H us p newid close : node_ok H us p →
  let s0 := shiftReplicationId newid (set_masterhost None (srv p)) in
  ∃ t cm tr, (if bool_decide (master s0 = None) then mret s0 else freeMaster close s0) =
    Ok (RServer (bl (srv p)) newid (replid (srv p)) (moff (srv p) + 1) (slaves (srv p)) (slaveseldb (srv p)) (rdb_child (srv p))
      None t tr None cm (master_replid (srv p)) (master_initial_offset (srv p))).
Proof.
  intros Hp s0. destruct (master (srv p)) as [m|] eqn:Hm.
  - rewrite bool_decide_eq_false_2 by (cbn; rewrite Hm; done). destruct (n_master _ _ _ Hp m Hm).
    destruct (freeMaster_some close s0 m) as [cm ->]; [done|done|]. by eexists _, _, _.
  - rewrite bool_decide_eq_true_2 by done. eexists _, _, _. unfold s0, shiftReplicationId, changeReplicationId, set_ids, set_masterhost.
    cbn. by rewrite Hm.
Qed.

Lemma promote_ok H x n newid close : sys_ok H x → safe (exec (EPromote n newid close) x).
Proof.
  intros Hs. cbn [exec]. unfold exec_at. destruct (nodes x !! n) as [p|] eqn:Hn; [|by eapply safe_here].
  destruct (fresh_id newid x) eqn:Hf; [|by eapply safe_here]. pose proof (s_node H x Hs n p Hn) as Hp.
  destruct (fresh_spec newid H x Hf Hs) as (Hni & Hnone & Hus).
  assert (used x ⊆ newid :: used x) as Hsub by (intros i Hi; by right).
  unfold replicationUnsetMaster. case_bool_decide as Hmh.
  { cbn [mbind res_bind mret res_ret]. eexists. split; [done|]. exists H. unfold use_id, set_node. cbn [deliver foldl nodes links used].
    eapply sys_local; try done; try (by left); [apply hext_refl| | |]; cbn.
    - intros i h Hi. destruct (s_hist H x Hs i h Hi) as [? ?]. split; [by right|done].
    - destruct (node_ok_ext H H (used x) (newid :: used x) p) as [A1 A2 A3 A4 A5 A6 A7 A8 A9 A10 A11 A12 A13 A14]; try done; [apply hext_refl|].
      split; try done. cbn. intros m E. destruct (A5 m E). destruct (A9 Hmh). congruence.
    - intros _. by right. }
  destruct (promote_free H (used x) p newid close Hp) as (t & cm & tr & ->).
  cbn [mbind res_bind mret res_ret]. rewrite cancel_eq. cbn.
  set (p' := PNode _ _ _ _).
  destruct (promote_hist H x n p newid Hs Hn Hf) as (H' & Hx & Hh' & Hs1 & Hs2 & Hown & Hbl).
  eexists. split; [done|]. exists H'. unfold use_id, set_node. cbn [deliver foldl nodes links used].
  eapply sys_local; try done; cbn.
  - destruct Hp as [A1 A2 A3 A4 A5 A6 A7 A8 A9 A10 A11 A12 A13 A14]. split; cbn; try done.
    + by left.
    + right. split; [by right|]. intros Hne. destruct (H' !! newid) as [h|] eqn:E; [|done].
      replace (moff (srv p) + 1 - 1) with (moff (srv p)) by lia. by apply (Hown h).
    + intros _. split; [done|]. intros h E. by destruct (Hown h E) as (? & ? & _).
    + constructor.
    + intros ? ?%elem_of_nil. done.
    + intros d i o E. destruct (A14 d i o E) as (Hi & Ho & Ha). split; [by right|]. split; [done|]. rewrite Hs2 by done.
      intros Hne. eapply at_h_ext; [done|]. by apply Ha.
  - by left.
  - by intros ? ?%elem_of_nil.
  - by right.
  - by right.
Qed.

Lemma connect_ok H x n c : sys_ok H x → safe (exec_connect n c x).
Proof.
  intros Hs. unfold exec_connect, exec_at. destruct (nodes x !! n) as [p|] eqn:Hn; [|by eapply safe_here].
  destruct (repl_state (srv p)) eqn:Hst; try (by eapply safe_here).
  destruct (masterhost (srv p)) as [h|] eqn:Hmh; [|by eapply safe_here].
  destruct (links x !! c) as [k|] eqn:Hc; [by eapply safe_here|].
  pose proof (s_node H x Hs n p Hn) as Hp. eexists. split; [done|]. exists H.
  assert (∀ sl, sl ∈ slaves (srv p) → sc_conn sl ≠ c) as Hne.
  { intros sl Hin E. destruct (s_entries H x Hs n p sl Hn Hin) as (k & Hk & _). congruence. }
  eapply sys_step; [exact Hs|exact Hn|apply hext_refl|done|by eapply s_used|by eapply s_hist|by left| | | | | |]; cbn.
  - destruct Hp as [A1 A2 A3 A4 A5 A6 A7 A8 A9 A10 A11 A12 A13 A14]. split; cbn; try done.
    + intros m E. destruct (A5 m E). congruence.
    + intros m E. destruct (A6 m E). by split.
    + intros E. congruence.
    + intros sl Hin Hq. destruct (A12 sl Hin Hq). by split.
  - intros E. congruence.
  - intros sl Hin. rewrite lookup_insert_ne by (intros E; by destruct (Hne sl Hin)). by eapply s_entries.
  - intros d [= <-]. exists (Link n h (Some (psync_request ((fun m => (mc_replid m, reploff m)) <$> cached_master (srv p)))) []).
    rewrite lookup_insert_eq. split; [|done]. do 3 f_equal. by destruct (cached_master (srv p)).
  - intros d k Hk. rewrite lookup_insert_ne by congruence. by eexists.
  - intros d k' [[<- <-]|[Hd Hk]]%lookup_insert_Some.
    + right. split; [done|]. split; [done|]. split; [by apply find_slave_None|].
      unfold bview, listens. cbn. rewrite bool_decide_eq_true_2 by done. cbn. split; [done|]. split; [|done].
      by destruct (cached_master (srv p)).
    + left. exists k'. split; [done|]. apply link_step_local; [right|by left].
      unfold bview, listens. cbn. rewrite bool_decide_eq_false_2; [done|]. congruence.
Qed.

Lemma sys_use H x newid : sys_ok H x → fresh_id newid x = true → sys_ok H (use_id newid x).
Proof.
  intros Hs Hf. destruct (fresh_spec newid H x Hf Hs) as (Hni & Hnone & Hus).
  assert (used x ⊆ newid :: used x) as Hsub by (intros i Hi; by right).
  destruct Hs as [Su Sh Sn Sm Se Sl Sk]. split; cbn; try done.
  - intros i h Hi. destruct (Sh i h Hi) as [? ?]. split; [by right|done].
  - intros m p Hm. eapply node_ok_ext; [apply hext_refl|done|done|done|by eapply Sn].
  - intros c k p Hk Hw. eapply ok_link_ext; [apply hext_refl|done|by eapply Sk].
Qed.

Lemma set_node_same n p x : nodes x !! n = Some p → set_node n p [] x = x.
Proof. intros Hn. unfold set_node. cbn. rewrite insert_id by done. by destruct x. Qed.
Lemma set_srv_same p : set_srv (srv p) p = p.
Proof. by destruct p. Qed.

(** A server under an ID nobody knows. *)
Lemma sys_unknown H x n p p' newid :
  sys_ok H x → nodes x !! n = Some p → fresh_id newid x = true →
  0 < repl_backlog_size (bl (srv p')) → replid (srv p') = newid → 0 ≤ moff (srv p') < LLONG_MAX →
  ¬ has_backlog (srv p') → master (srv p') = None → cached_master (srv p') = None → replid2 (srv p') = zero_id →
  slaves (srv p') = [] → listens (srv p') = None → repl_state (srv p') ≠ REPL_STATE_CONNECTED →
  (masterhost (srv p') = None → repl_state (srv p') = REPL_STATE_NONE) → disk p' = disk p →
  sys_ok H (use_id newid (set_node n p' [] x)).
Proof.
  intros Hs Hn Hf E1 E2 E3 E4 E5 E6 E7 E8 E9 E10 E11 E12. destruct (fresh_spec newid H x Hf Hs) as (Hni & Hnone & Hus).
  assert (used x ⊆ newid :: used x) as Hsub by (intros i Hi; by right).
  unfold use_id, set_node. cbn [deliver foldl nodes links used].
  eapply sys_local; [exact Hs|exact Hn|apply hext_refl|done|done| |by left| | | | | |].
  - intros i h Hi. destruct (s_hist H x Hs i h Hi) as [? ?]. split; [by right|done].
  - pose proof (s_node H x Hs n p Hn) as Hp. split; rewrite ?E2, ?E5, ?E6, ?E7, ?E8, ?E12, ?Hnone; try done.
    + by left.
    + by left.
    + intros E. split; [by apply E11|done].
    + constructor.
    + by intros ? ?%elem_of_nil.
    + intros d i o E. destruct (n_disk _ _ _ Hp d i o E) as (? & ? & ?). split; [by right|done].
  - intros _. left. by rewrite E2.
  - rewrite E8. by intros ? ?%elem_of_nil.
  - by rewrite E9.
  - intros c. right. unfold bview. by rewrite E9.
  - intros c. right. unfold aview. by rewrite E8.
Qed.

Lemma cron_backlog_ok H x n idle limit newid : sys_ok H x → safe (exec (ECronBacklog n idle limit newid) x).
Proof.
  intros Hs. cbn [exec]. unfold exec_at. destruct (nodes x !! n) as [p|] eqn:Hn; [|by eapply safe_here].
  destruct (fresh_id newid x) eqn:Hf; [|by eapply safe_here]. pose proof (s_node H x Hs n p Hn) as Hp.
  unfold replicationCron_backlog. destruct (_ && _) eqn:Ec.
  - rewrite !andb_true_iff, !bool_decide_eq_true in Ec. destruct Ec as [[[[Hsl _] Hb] Hmh] _].
    cbn. rewrite Hsl. cbn. eexists. split; [done|]. exists H. destruct (n_own _ _ _ Hp Hmh) as [Hst _].
    eapply sys_unknown; try done; cbn.
    + by eapply n_size.
    + by eapply (n_moff _ _ _ Hp).
    + unfold has_backlog. cbn. auto.
    + destruct (master (srv p)) as [m|] eqn:E; [|done]. destruct (n_master _ _ _ Hp m E). congruence.
    + destruct (cached_master (srv p)) as [m|] eqn:E; [|done]. by destruct (n_cached _ _ _ Hp m E).
    + unfold listens. cbn. by rewrite Hst.
    + by rewrite Hst.
  - cbn [mbind res_bind mret res_ret]. eexists. split; [done|]. exists H. rewrite set_srv_same, set_node_same by done. by apply sys_use.
Qed.

Lemma resize_ok H x n newsize : sys_ok H x → safe (exec (EResize n newsize) x).
Proof.
  intros Hs. cbn [exec]. unfold exec_at. destruct (nodes x !! n) as [p|] eqn:Hn; [|by eapply safe_here].
  pose proof (s_node H x Hs n p Hn) as Hp. eexists. split; [done|]. exists H. unfold set_node. cbn [deliver foldl].
  set (b := resizeReplicationBacklog newsize (bl (srv p))).
  assert (master_repl_offset b = moff (srv p) ∧ 0 < repl_backlog_size b ∧
    (repl_backlog b = None ↔ repl_backlog (bl (srv p)) = None)) as (Hmo & Hsz & Hbl).
  { pose proof (n_size _ _ _ Hp). unfold b, resizeReplicationBacklog. set (n' := if newsize <? _ then _ else _).
    assert (0 < n') as Hn'.
    { unfold n'. destruct (Z.ltb_spec newsize CONFIG_REPL_BACKLOG_MIN_SIZE); unfold CONFIG_REPL_BACKLOG_MIN_SIZE in *; lia. }
    destruct (_ =? n'); [done|]. by destruct (repl_backlog (bl (srv p))). }
  eapply sys_local0; [done|done| |done|done|done|by left|].
  - destruct Hp as [A1 A2 A3 A4 A5 A6 A7 A8 A9 A10 A11 A12 A13 A14].
    assert (∀ y, moff (set_bl b y) = moff (srv p)) as Hmo' by (intros; exact Hmo).
    assert (has_backlog (set_bl b (srv p)) ↔ has_backlog (srv p)) as Hbl' by (unfold has_backlog; cbn; by rewrite Hbl).
    split; cbn [srv set_srv contents inbox disk]; try rewrite Hmo'; try rewrite Hbl'; try done.
    + intros Hb. destruct (A4 Hb) as [? (h & Hh & Hr)]. split; [done|]. exists h. split; [done|]. by apply resize_backlog_spec.
    + intros m E. destruct (A5 m E) as [B1 B2 B3 B4 B5 B6 B7 B8 B9 B10]. split; try done; [by rewrite Hbl'|by rewrite Hmo'..].
    + intros m E. destruct (A6 m E) as [B1 B2 B3 B4]. split; try done; by rewrite Hmo'.
    + intros E. destruct (A9 E) as [B1 B2]. split; [done|]. intros h Hh. rewrite Hbl'. by apply B2.
    + intros sl Hin Hq. destruct (A12 sl Hin Hq) as [B1 B2 B3]. split; try done. by rewrite Hmo'.
  - intros c. left. unfold aview, moff. cbn. by rewrite Hmo.
Qed.

Definition g_free (c : conn) (sl : sclient) : option sclient * output :=
  (if bool_decide (sc_conn sl ≠ c) then Some sl else None, []).
Lemma step_filter (f : sclient → bool) l :
  step_slaves (fun sl => (if f sl then Some sl else None, [])) l = filter (fun sl => f sl = true) l.
Proof.
  unfold step_slaves. induction l as [|sl l IH]; [done|]. rewrite filter_cons. cbn. destruct (f sl) eqn:E; cbn; by rewrite IH.
Qed.

Lemma node_ok_slaves H us p l :
  node_ok H us p → NoDup (sc_conn <$> l) → (l ≠ [] → slaves (srv p) ≠ []) →
  (∀ sl, sl ∈ l → queued sl → queue_ok H (srv p) sl) → node_ok H us (set_srv (set_slaves l (srv p)) p).
Proof.
  intros [A1 A2 A3 A4 A5 A6 A7 A8 A9 A10 A11 A12 A13 A14] Hnd Hne Hq. split; try done; cbn.
  - intros m E. destruct (A5 m E). by split.
  - intros m E. destruct (A6 m E). by split.
  - intros E. apply A10. by apply Hne.
  - intros sl Hin Hqu. destruct (Hq sl Hin Hqu). by split.
  - intros E. destruct (A13 E) as (? & ? & ? & ?). split; [done|]. split; [|done].
    destruct l; [done|]. by destruct Hne.
Qed.

(** A step of the kind of [sys_A] that changes nothing but the replicas. *)
Lemma sys_slaves H x n p sd ch g :
  sys_ok H x → nodes x !! n = Some p → good_step g →
  (∀ sl sl', sl ∈ slaves (srv p) → (g sl).1 = Some sl' → queued sl' → queue_ok H (srv p) sl') →
  (∀ sl ph k, sl ∈ slaves (srv p) → request k = None →
     ok_link H (used x) ph (Some (sl, replid (srv p), moff (srv p))) k →
     ok_link H (used x) ph ((fun sl' => (sl', replid (srv p), moff (srv p))) <$> (g sl).1) (add_msgs (snd <$> (g sl).2) k)) →
  sys_ok H (set_node n (set_srv (set_child ch (set_slaveseldb sd (set_slaves (step_slaves g (slaves (srv p))) (srv p)))) p)
    (step_out g (slaves (srv p))) x).
Proof.
  intros Hs Hn Hg Hq Hok. pose proof (s_node H x Hs n p Hn) as Hp.
  eapply sys_A; try done; [apply hext_refl|by eapply s_hist|by left|].
  pose proof (node_ok_slaves H (used x) p (step_slaves g (slaves (srv p))) Hp) as Hp1.
  apply (node_ok_aux _ _ (set_srv (set_slaves (step_slaves g (slaves (srv p))) (srv p)) p)). apply Hp1.
  - apply step_nodup; [done|by eapply n_nodup].
  - intros Hne E. rewrite E in Hne. done.
  - intros sl' (sl & Hin & E)%step_slaves_elem Hqu. by eapply Hq.
Qed.

Lemma set_aux_same s l : set_child (rdb_child s) (set_slaveseldb (slaveseldb s) (set_slaves l s)) = set_slaves l s.
Proof. done. Qed.

Lemma drop_slave_ok H x n c : sys_ok H x → safe (exec (EDropSlave n c) x).
Proof.
  intros Hs. cbn [exec]. unfold exec_at. destruct (nodes x !! n) as [p|] eqn:Hn; [|by eapply safe_here].
  pose proof (s_node H x Hs n p Hn) as Hp. eexists. split; [done|]. exists H.
  pose proof (sys_slaves H x n p (slaveseldb (srv p)) (rdb_child (srv p)) (g_free c) Hs Hn) as Hstep.
  unfold freeSlave. replace (filter (fun sl => sc_conn sl ≠ c) (slaves (srv p))) with (step_slaves (g_free c) (slaves (srv p))).
  2:{ unfold g_free. rewrite step_filter. apply list_filter_iff. intros sl. by rewrite bool_decide_eq_true. }
  replace [] with (step_out (g_free c) (slaves (srv p))) by (unfold step_out; clear; induction (slaves (srv p)); done).
  apply Hstep.
  - intros sl. unfold g_free. cbn. split; [|constructor]. intros sl'. case_bool_decide; [|done]. by intros [= <-].
  - intros sl sl' Hin. unfold g_free. cbn. case_bool_decide; [|done]. intros [= <-]. by apply (n_queue _ _ _ Hp).
  - intros sl ph k Hin Hr Hok. unfold g_free. cbn. rewrite add_msgs_nil. case_bool_decide; cbn; [done|]. by eapply ok_link_close.
Qed.

Lemma save_ok H x n : sys_ok H x → safe (exec (ESave n) x).
Proof.
  intros Hs. cbn [exec]. unfold exec_at. destruct (nodes x !! n) as [p|] eqn:Hn; [|by eapply safe_here].
  pose proof (s_node H x Hs n p Hn) as Hp. eexists. split; [done|]. exists H. unfold set_node. cbn [deliver foldl].
  eapply sys_local0; try done; try (by left).
  destruct Hp as [A1 A2 A3 A4 A5 A6 A7 A8 A9 A10 A11 A12 A13 A14]. split; try done. cbn.
  intros d i o [= <- E]. destruct (rdbPopulateSaveInfo (srv p)) eqn:Er; [|done]. injection E as <- <-.
  split; [done|]. split; [done|]. intros Hne. unfold rdbPopulateSaveInfo in Er. apply orb_true_iff in Er as [Er|Er].
  - apply andb_prop in Er as [_ Hb%bool_decide_eq_true]. by apply A4.
  - destruct (master (srv p)) as [m|] eqn:Em; [apply A4; by destruct (A5 m eq_refl)|].
    destruct (cached_master (srv p)) as [m|] eqn:Ec; [|done]. by apply (A6 m eq_refl).
Qed.

Lemma restart_ok H x n newid host : sys_ok H x → safe (exec_restart n newid host x).
Proof.
  intros Hs. unfold exec_restart, exec_at. destruct (nodes x !! n) as [p|] eqn:Hn; [|by eapply safe_here].
  destruct (fresh_id newid x) eqn:Hf; [|by eapply safe_here]. pose proof (s_node H x Hs n p Hn) as Hp.
  eexists. split; [done|]. exists H. pose proof (n_size _ _ _ Hp) as Hsz.
  assert (¬ has_backlog (initServerConfig newid (repl_backlog_size (bl (srv p))) host)) as Hnb by (unfold has_backlog; cbn; auto).
  unfold loadDataFromDisk. cbn [initServerConfig clearReplicationId2 changeReplicationId set_ids masterhost].
  destruct host as [h|]; [destruct (disk p) as [[d [[i o]|]]|] eqn:Ed; cbn [mbind option_bind snd]|].
  2-4: eapply sys_unknown; try done; by vm_compute.
  destruct (n_disk _ _ _ Hp d i o Ed) as (Hi & Ho & Ha). destruct (fresh_spec newid H x Hf Hs) as (Hni & Hnone & Hus).
  assert (used x ⊆ newid :: used x) as Hsub by (intros j Hj; by right).
  unfold use_id, set_node. cbn [deliver foldl nodes links used].
  eapply sys_local; [exact Hs|exact Hn|apply hext_refl|done|done| |by left| | | | | |]; cbn; try done.
  - intros j k Hj. destruct (s_hist H x Hs j k Hj) as [? ?]. split; [by right|done].
  - split; cbn; try done.
    + by right.
    + intros m [= <-]. by apply cached_ok_new.
    + by left.
    + constructor.
    + by intros ? ?%elem_of_nil.
    + intros d' i' o' E. injection E as <- <- <-. split; [by right|done].
  - by intros ? ?%elem_of_nil.
  - by right.
  - by right.
Qed.

(** ** Full resynchronization, at the master *)

Lemma send_bulk_ok H x n c : sys_ok H x → safe (exec (ESendBulk n c) x).
Proof.
  intros Hs. cbn [exec]. unfold exec_at. destruct (nodes x !! n) as [p|] eqn:Hn; [|by eapply safe_here].
  pose proof (s_node H x Hs n p Hn) as Hp. unfold sendBulkToSlave.
  set (f := fun sl : sclient => if bool_decide (sc_conn sl = c) && _ then _ else _).
  eexists. split; [done|]. exists H.
  rewrite <- (proj1 (step_map f _)), <- (proj2 (step_map f _)), <- set_aux_same. apply sys_slaves; try done; unfold g_map, f.
  - intros sl. case_bool_decide as Hc; cbn; [|split; [by intros ? [= <-]|constructor]].
    case_bool_decide; cbn; (split; [by intros ? [= <-]|]); by repeat constructor.
  - intros sl sl' Hin. cbn. destruct (bool_decide (sc_conn sl = c) && _); cbn; intros [= <-]; [by intros [?|?]|].
    by apply (n_queue _ _ _ Hp).
  - intros sl ph k Hin Hr Hok. case_bool_decide as Hc; cbn; [|by rewrite add_msgs_nil].
    case_bool_decide as Hst; cbn; [|by rewrite add_msgs_nil]. destruct (n_queue _ _ _ Hp sl Hin) as [Hqa Hqf Hqe]; [by right|].
    rewrite <- Hc. apply ok_link_send; try done. by right.
Qed.

Definition g_failed (sl : sclient) : option sclient * output :=
  if waiting_start sl then (None, [(sc_conn sl, MLine bgsave_failed)]) else (Some sl, []).
Lemma step_failed l : step_slaves g_failed l = filter (fun sl => waiting_start sl = false) l ∧
  step_out g_failed l = (fun sl => (sc_conn sl, MLine bgsave_failed)) <$> filter (fun sl => waiting_start sl = true) l.
Proof.
  unfold step_slaves, step_out. induction l as [|sl l [IH1 IH2]]; [done|]. rewrite !filter_cons. cbn [omap list_omap mbind list_bind].
  rewrite IH1, IH2. unfold g_failed, compose. by destruct (waiting_start sl).
Qed.
Lemma waiting_start_spec sl : waiting_start sl = true → replstate sl = SLAVE_STATE_WAIT_BGSAVE_START.
Proof. unfold waiting_start. by rewrite bool_decide_eq_true. Qed.

Lemma sys_bgsave H x n p forked :
  sys_ok H x → nodes x !! n = Some p →
  sys_ok H (set_node n (set_srv (startBgsaveForReplication (contents p) forked (srv p)).1 p)
    (startBgsaveForReplication (contents p) forked (srv p)).2 x).
Proof.
  intros Hs Hn. pose proof (s_node H x Hs n p Hn) as Hp. unfold startBgsaveForReplication.
  destruct (rdbPopulateSaveInfo (srv p) && forked); cbn [fst snd].
  - set (f := fun sl : sclient => if waiting_start sl then _ else _).
    rewrite <- (proj1 (step_map f _)), <- (proj2 (step_map f _)). apply sys_slaves; try done; unfold g_map, f.
    + intros sl. destruct (waiting_start sl); cbn; (split; [by intros ? [= <-]|]); by repeat constructor.
    + intros sl sl' Hin. destruct (waiting_start sl); cbn; intros [= <-] Hq; [|by apply (n_queue _ _ _ Hp)].
      destruct (n_bl _ _ _ Hp) as [Ha _]; [apply (n_slaves _ _ _ Hp); intros E; rewrite E in Hin; by apply elem_of_nil in Hin|].
      split; cbn; [done|by eapply fol_nil|lia].
    + intros sl ph k Hin Hr Hok. destruct (waiting_start sl) eqn:Ew; cbn; [|by rewrite add_msgs_nil].
      apply ok_link_setup; try done; [by apply waiting_start_spec|by apply (n_id _ _ _ Hp)|by apply (n_moff _ _ _ Hp)].
  - rewrite <- (proj1 (step_failed _)), <- (proj2 (step_failed _)), <- set_aux_same. apply sys_slaves; try done; unfold g_failed.
    + intros sl. destruct (waiting_start sl); cbn; (split; [by intros ? [= <-]|]); by repeat constructor.
    + intros sl sl' Hin. destruct (waiting_start sl); cbn; [done|]. intros [= <-]. by apply (n_queue _ _ _ Hp).
    + intros sl ph k Hin Hr Hok. destruct (waiting_start sl) eqn:Ew; cbn; [|by rewrite add_msgs_nil].
      eapply ok_link_failed; [done|by apply waiting_start_spec|done].
Qed.

Lemma cron_bgsave_ok H x n child forked : sys_ok H x → safe (exec (ECronBgsave n child forked) x).
Proof.
  intros Hs. cbn [exec]. unfold exec_at. destruct (nodes x !! n) as [p|] eqn:Hn; [|by eapply safe_here].
  unfold replicationCron_bgsave. destruct (_ && _).
  - pose proof (sys_bgsave H x n p forked Hs Hn) as H1. destruct (startBgsaveForReplication _ _ _). eexists. split; [done|]. by exists H.
  - eexists. split; [done|]. exists H. by rewrite set_srv_same, set_node_same.
Qed.

Definition waits_end (sl : sclient) : bool := bool_decide (replstate sl = SLAVE_STATE_WAIT_BGSAVE_END).
Definition g_saved (saved : bool) (sl : sclient) : option sclient * output :=
  if waits_end sl then
    (if saved then Some (SClient (sc_conn sl) SLAVE_STATE_SEND_BULK (psync_initial_offset sl) (sc_reply sl) (sc_rdb sl)) else None, [])
  else (Some sl, []).
Lemma step_saved saved l : step_slaves (g_saved saved) l =
  (if saved then
      (fun sl => if waits_end sl then SClient (sc_conn sl) SLAVE_STATE_SEND_BULK (psync_initial_offset sl) (sc_reply sl) (sc_rdb sl)
                 else sl) <$> l
    else filter (fun sl => waits_end sl = false) l) ∧ step_out (g_saved saved) l = [].
Proof.
  unfold step_slaves, step_out. induction l as [|sl l [IH1 IH2]]; [destruct saved; by split|]. rewrite filter_cons. cbn [omap list_omap mbind list_bind].
  rewrite IH1, IH2. unfold compose. destruct saved, (waits_end sl) eqn:E; unfold g_saved; rewrite E; split; cbn; by rewrite ?E.
Qed.

Lemma bgsave_end_ok H x n saved forked : sys_ok H x → safe (exec (EBgsaveEnd n saved forked) x).
Proof.
  intros Hs. cbn [exec]. unfold exec_at. destruct (nodes x !! n) as [p|] eqn:Hn; [|by eapply safe_here].
  destruct (rdb_child (srv p)); [|by eapply safe_here]. pose proof (s_node H x Hs n p Hn) as Hp.
  set (s1 := set_slaves (step_slaves (g_saved saved) (slaves (srv p))) (set_child false (srv p))).
  assert (sys_ok H (set_node n (set_srv s1 p) [] x)) as Hs1.
  { pose proof (sys_slaves H x n p (slaveseldb (srv p)) false (g_saved saved) Hs Hn) as Hstep.
    rewrite (proj2 (step_saved saved _)) in Hstep. apply Hstep; unfold g_saved.
    - intros sl. destruct (waits_end sl), saved; cbn; (split; [by intros ? [= <-]|]); by repeat constructor.
    - intros sl sl' Hin. destruct (waits_end sl) eqn:Ew, saved; cbn; intros [= <-] Hq; try by apply (n_queue _ _ _ Hp).
      destruct (n_queue _ _ _ Hp sl Hin); [left; by apply bool_decide_eq_true in Ew|by split].
    - intros sl ph k Hin Hr Hok. destruct (waits_end sl) eqn:Ew; cbn; rewrite add_msgs_nil; [|done].
      apply bool_decide_eq_true in Ew. destruct saved; cbn; [|by eapply ok_link_close].
      eapply ok_link_queued; [done| | | |exact Hok]; [by left|by right|done]. }
  unfold updateSlavesWaitingBgsave. fold waits_end.
  change (slaves (set_child false (srv p))) with (slaves (srv p)). rewrite <- (proj1 (step_saved saved _)). fold s1.
  destruct (existsb waiting_start (slaves (srv p))).
  - pose proof (sys_bgsave H _ n (set_srv s1 p) forked Hs1 (lookup_insert_eq _ _ _)) as H2.
    change (contents (set_srv s1 p)) with (contents p) in H2. change (srv (set_srv s1 p)) with s1 in H2.
    destruct (startBgsaveForReplication (contents p) forked s1) as [s2 out]. eexists. split; [done|]. exists H.
    change out with ([] ++ out). by rewrite (set_node_twice n (set_srv s1 p)).
  - eexists. split; [done|]. by exists H.
Qed.

(** ** PSYNC at the master *)

Lemma find_slave_snoc c l sl :
  find_slave c (l ++ [sl]) = match find_slave c l with Some y => Some y | None => if decide (sc_conn sl = c) then Some sl else None end.
Proof.
  induction l as [|y l IH]; cbn [app]; rewrite !find_slave_cons; [done|]. destruct (decide (sc_conn y = c)); [done|exact IH].
Qed.

(** A replica is added, its request is handled. *)
Lemma sys_attach H x t p c k k' sl sd :
  sys_ok H x → nodes x !! t = Some p → links x !! c = Some k → to k = t → (∀ y, y ∈ slaves (srv p) → sc_conn y ≠ c) →
  who k' = who k → to k' = t → request k' = None → sc_conn sl = c → has_backlog (srv p) → (queued sl → queue_ok H (srv p) sl) →
  (∀ pw, nodes x !! who k = Some pw → ok_link H (used x) (bview (srv pw) c) None k →
     ok_link H (used x) (bview (srv pw) c) (Some (sl, replid (srv p), moff (srv p))) k') →
  sys_ok H (Sys (<[t := set_srv (set_slaveseldb sd (set_slaves (slaves (srv p) ++ [sl]) (srv p))) p]> (nodes x))
              (<[c := k']> (links x)) (used x)).
Proof.
  intros Hs Hn Hk Ht Hno Ew Et Er Ec Hb Hq Hok. pose proof (s_node H x Hs t p Hn) as Hp.
  assert (find_slave c (slaves (srv p)) = None) as Hf by (by apply find_slave_None).
  eapply sys_step; [exact Hs|exact Hn|apply hext_refl|done|by eapply s_used|by eapply s_hist|by left| |by right| | | |]; cbn.
  - apply (node_ok_aux _ _ (set_srv (set_slaves (slaves (srv p) ++ [sl]) (srv p)) p) sd (rdb_child (srv p))).
    destruct Hp as [A1 A2 A3 A4 A5 A6 A7 A8 A9 A10 A11 A12 A13 A14]. split; try done; cbn.
    + intros m E. destruct (A5 m E). by split.
    + intros m E. destruct (A6 m E). by split.
    + rewrite fmap_app. apply NoDup_app. split; [done|]. split; [|by apply NoDup_singleton].
      cbn. rewrite Ec. intros z Hz ->%list_elem_of_singleton. apply list_elem_of_fmap in Hz as (y & Hy & Hin). by destruct (Hno y Hin).
    + intros y [Hin|Hin]%elem_of_app Hqy.
      * destruct (A12 y Hin Hqy). by split.
      * apply list_elem_of_singleton in Hin as ->. destruct (Hq Hqy). by split.
    + intros E. by destruct (A13 E) as [? _].
  - intros y [Hin|Hin]%elem_of_app.
    + rewrite lookup_insert_ne by (intros E; by destruct (Hno y Hin)). by eapply s_entries.
    + apply list_elem_of_singleton in Hin as ->. rewrite Ec, lookup_insert_eq. by eexists.
  - intros d Hd. destruct (decide (d = c)) as [->|Hne].
    + rewrite lookup_insert_eq. exists k'. split; [done|]. destruct (s_listens H x Hs t p c Hn Hd) as (k0 & Hk0 & <-). congruence.
    + rewrite lookup_insert_ne by done. by eapply s_listens.
  - intros d kd Hd. destruct (decide (d = c)) as [->|Hne]; [rewrite lookup_insert_eq|rewrite lookup_insert_ne by done]; by eexists.
  - intros d kd [[<- <-]|[Hne Hd]]%lookup_insert_Some; left.
    + exists k. split; [done|]. split; [done|]. split; [congruence|]. split; [done|].
      intros ph e (pw & Hpw & ->) Hlk _ He. rewrite (decide_True _ _ Ht). unfold aview.
      cbn [srv set_srv slaves set_slaveseldb set_slaves]. rewrite find_slave_snoc, Hf, (decide_True _ _ Ec).
      rewrite He in Hlk by done. unfold aview in Hlk. rewrite Hf in Hlk. cbn in Hlk. specialize (Hok pw Hpw Hlk).
      destruct (decide (who k = t)) as [E|E]; [|done]. rewrite E in Hpw. by simplify_eq.
    + exists kd. split; [done|]. apply link_step_local; [by left|left]. unfold aview.
      cbn [srv set_srv slaves set_slaveseldb set_slaves]. rewrite find_slave_snoc.
      rewrite Ec, (decide_False _ _ Hne). by destruct (find_slave d (slaves (srv p))).
Qed.

Lemma initialized_Some (w : bytes) : initialized (Some <$> w) = Ok w.
Proof.
  unfold initialized. assert (mapM id (Some <$> w) = Some w) as ->; [|done].
  induction w as [|b w IH]; [done|]. cbn. by rewrite IH.
Qed.

(** The answer to a request, and what an accepted one sends. *)
Lemma psync_answer H us p c i o :
  node_ok H us p →
  ∃ r, masterTryPartialResynchronization c i o (srv p) = Ok r ∧
    match r with
    | None => True
    | Some (s', out) => ∃ z w, string2ll o = Some z ∧ has_backlog (srv p) ∧
        s' = set_slaves (slaves (srv p) ++ [SClient c SLAVE_STATE_ONLINE 0 [] []]) (srv p) ∧
        out = [(c, MLine (continue_line (replid (srv p)))); (c, MStream w)] ∧
        (strcasecmp_eq i (replid (srv p)) = true ∨ (strcasecmp_eq i (replid2 (srv p)) = true ∧ z ≤ second_replid_offset (srv p))) ∧
        fol H (replid (srv p)) (z - 1) w ∧ z - 1 + Z.of_nat (length w) = moff (srv p)
    end.
Proof.
  intros Hp. unfold masterTryPartialResynchronization. destruct (string2ll o) as [z|] eqn:Ez; [|by eexists].
  destruct (negb (strcasecmp_eq i (replid (srv p))) && _) eqn:Eid; [by eexists|].
  destruct (bool_decide (repl_backlog (bl (srv p)) = None) || _ || _) eqn:Eb; [by eexists|].
  rewrite !orb_false_iff, bool_decide_eq_false, !Z.ltb_ge in Eb. destruct Eb as [[Hb Hlo] Hhi].
  destruct (n_bl _ _ _ Hp Hb) as [(h & Hh & Hin & _) (h' & Hh' & Hr)]. simplify_eq.
  rewrite (addReply_spec _ _ z Hr) by done. cbn [mbind res_bind]. rewrite initialized_Some. cbn [mbind res_bind mret res_ret].
  eexists. split; [done|]. eexists z, _. split; [done|]. split; [done|]. split; [done|]. split; [done|]. split.
  { apply andb_false_iff in Eid as [E|E]; [left; by apply negb_false_iff in E|right].
    apply orb_false_iff in E as [E1%negb_false_iff E2%Z.ltb_ge]. done. }
  pose proof (upto_length h (moff (srv p)) Hin) as Hl. destruct Hr as [(buf & _ & _ & _ & Hw & Hwl & _) Hoff].
  unfold moff in *. set (m := master_repl_offset (bl (srv p))) in *. rewrite length_drop.
  split; [|lia]. exists h. split; [done|]. rewrite length_drop. unfold in_hist in Hin. split; [lia|]. split; [lia|].
  replace (z - 1 + Z.of_nat (length (upto h m) - Z.to_nat (Z.of_nat (length (upto h m)) - (m + 1 - z)))) with m by lia.
  rewrite (upto_le h m (z - 1)) by lia.
  replace (Z.to_nat (Z.of_nat (length (upto h m)) - (m + 1 - z))) with (Z.to_nat (z - 1 - h_lo h)) by lia. by rewrite take_drop.
Qed.

Lemma zero_hexid : hexid zero_id = true.
Proof. by vm_compute. Qed.

(** A request that is accepted comes from a server whose history is that of the master, up
    to the offset of the request. *)
Lemma accepted H x t p w pw i o z :
  sys_ok H x → nodes x !! t = Some p → nodes x !! w = Some pw →
  (i, o) = psync_request ((fun m => (mc_replid m, reploff m)) <$> cached_master (srv pw)) → string2ll o = Some z → has_backlog (srv p) →
  (strcasecmp_eq i (replid (srv p)) = true ∨ (strcasecmp_eq i (replid2 (srv p)) = true ∧ z ≤ second_replid_offset (srv p))) →
  ∃ m, cached_master (srv pw) = Some m ∧ mc_replid m = replid (srv pw) ∧ reploff m = moff (srv pw) ∧ z = moff (srv pw) + 1 ∧
    at_h H (replid (srv pw)) (moff (srv pw)) (contents pw) ∧ agree H (replid (srv pw)) (replid (srv p)) (moff (srv pw)).
Proof.
  intros Hs Hn Hw Hr Hz Hb Hid. pose proof (s_node H x Hs t p Hn) as Hp. pose proof (s_node H x Hs w pw Hw) as Hpw.
  destruct (s_used H x Hs _ (n_id _ _ _ Hp)) as [Hx1 _].
  assert (hexid (replid2 (srv p)) = true) as Hx2.
  { destruct (n_id2 _ _ _ Hp) as [->|[Hin _]]; [apply zero_hexid|by eapply (s_used H x Hs)]. }
  destruct (cached_master (srv pw)) as [m|] eqn:Ec.
  2:{ cbn in Hr. injection Hr as -> ->. rewrite !strcasecmp_question in Hid by done. naive_solver. }
  destruct (n_cached _ _ _ Hpw m Ec) as [_ _ Em Hat]. cbn in Hr. injection Hr as -> ->.
  assert (mc_replid m = replid (srv pw) ∧ reploff m = moff (srv pw)) as [E1 E2] by (by rewrite Em).
  rewrite E1, E2 in *. pose proof (n_moff _ _ _ Hpw) as Hm.
  unfold sdsfromlonglong in Hz. rewrite string2ll_complete in Hz by (unfold is_ll, LLONG_MIN in *; lia). injection Hz as <-.
  exists m. do 3 (split; [done|]). split; [done|]. destruct (s_used H x Hs _ (n_id _ _ _ Hpw)) as [Hxw Hzw].
  destruct (n_bl _ _ _ Hp Hb) as [_ (h & Hh & _)].
  rewrite !strcasecmp_hexid, !bool_decide_eq_true in Hid by done. destruct Hid as [E|[E Hle]].
  - rewrite E in *. assert (at_h H (replid (srv p)) (moff (srv pw)) (contents pw)) as Ha by (apply Hat; by rewrite Hh).
    split; [done|]. by eapply agree_refl.
  - destruct (n_id2 _ _ _ Hp) as [Ez|[_ Hag]]; [congruence|]. specialize (Hag ltac:(by rewrite Hh)). rewrite <- E in Hag.
    assert (at_h H (replid (srv pw)) (moff (srv pw)) (contents pw)) as Ha.
    { apply Hat. destruct Hag as (_ & k & _ & Hk & _). by rewrite Hk. }
    split; [done|]. apply agree_sym. eapply agree_le; [done|done|lia].
Qed.

Lemma bview_psync s c cm : bview s c = PhPsync cm → cm = ((fun m => (mc_replid m, reploff m)) <$> cached_master s).
Proof.
  unfold bview. case_bool_decide; [|done]. destruct (repl_state s); try done; [by intros [= <-]|]. by destruct (master s).
Qed.

(** The link of a request, before it is handled. *)
Lemma ok_link_request H us ph w t r ms :
  ok_link H us ph None (Link w t (Some r) ms) → ph = PhNone ∨ ∃ cm, ph = PhPsync cm ∧ ms = [] ∧ r = psync_request cm.
Proof. destruct ph; cbn; [by left| | |]; [|naive_solver..]. intros (-> & -> & _). right. by eexists. Qed.

Lemma ok_link_start H us ph w t r ms sl i z :
  replstate sl = SLAVE_STATE_WAIT_BGSAVE_START →
  ok_link H us ph None (Link w t (Some r) ms) → ok_link H us ph (Some (sl, i, z)) (Link w t None ms).
Proof.
  intros Hst [->|(cm & -> & -> & _)]%ok_link_request; [done|]. cbn. left. split; [done|]. by intros ??? [= <- _ _].
Qed.

Lemma masters_link H x c k sl n p : sys_ok H x → links x !! c = Some k → request k ≠ None → nodes x !! n = Some p →
  sl ∈ slaves (srv p) → sc_conn sl ≠ c.
Proof. intros Hs Hk Hr Hn Hin E. destruct (s_entries H x Hs n p sl Hn Hin) as (k' & Hk' & _ & Hr'). congruence. Qed.

(** The part of [syncCommand] after the replica was added to the list. *)
Lemma sys_sync_full H x t p c w r ms child forked :
  sys_ok H x → nodes x !! t = Some p → links x !! c = Some (Link w t (Some r) ms) → has_backlog (srv p) →
  let sl := SClient c SLAVE_STATE_WAIT_BGSAVE_START 0 [] [] in
  let r := sync_bgsave sl (contents p) child forked (set_slaves (slaves (srv p) ++ [sl]) (srv p)) in
  sys_ok H (set_node t (set_srv r.1 p) r.2 (Sys (nodes x) (<[c := Link w t None ms]> (links x)) (used x))).
Proof.
  intros Hs Hn Hk Hb sl. pose proof (s_node H x Hs t p Hn) as Hp.
  assert (∀ y, y ∈ slaves (srv p) → sc_conn y ≠ c) as Hno by (intros y Hy; by eapply masters_link).
  set (s := set_slaves (slaves (srv p) ++ [sl]) (srv p)). unfold sync_bgsave.
  assert (sys_ok H (Sys (<[t := set_srv s p]> (nodes x)) (<[c := Link w t None ms]> (links x)) (used x))) as H1.
  { eapply (sys_attach H x t p c _ _ sl (slaveseldb (srv p))); try done; [by intros [?|?]|].
    intros pw _ Hok. by eapply ok_link_start. }
  destruct (rdb_child s).
  - destruct (list_find _ _) as [[j o]|] eqn:Eo; [|exact H1].
    apply list_find_Some in Eo as (Ho & Hst & _). cbn [fst snd replicationSetupSlaveForFullResync].
    assert (o ∈ slaves (srv p)) as Hin.
    { apply list_elem_of_lookup_2, elem_of_app in Ho as [?|Ho]; [done|]. apply list_elem_of_singleton in Ho as ->. done. }
    destruct (n_queue _ _ _ Hp o Hin) as [Hqa Hqf Hqe]; [by left|].
    cbn [slaves s set_slaves]. rewrite removelast_last. unfold set_node. cbn [nodes links used].
    cbn [deliver foldl add_down fst snd]. unfold add_down. rewrite alter_insert_eq. cbn [who to request down].
    eapply (sys_attach H x t p c _ _ (SClient c SLAVE_STATE_WAIT_BGSAVE_END (psync_initial_offset o) (sc_reply o) (sc_rdb o)) (-1));
      try done.
    intros pw _ [->|(cm & -> & -> & _)]%ok_link_request; [done|]. cbn. right. do 2 eexists. split; [done|]. right; left.
    exists (replid (srv p)), (psync_initial_offset o). split; [done|]. split; [by eapply n_id|]. split.
    + destruct Hqa as (h & Hh & Hin' & _). destruct (s_hist H x Hs _ _ Hh) as (_ & ? & ?). unfold in_hist in Hin'. lia.
    + left. split; [done|]. intros ??? [= <- <- <-]. split; [by left|done].
  - destruct child; [exact H1|].
    pose proof (sys_bgsave H _ t (set_srv s p) forked H1 (lookup_insert_eq _ _ _)) as H2.
    unfold set_node in *. cbn [nodes links used] in *. rewrite insert_insert_eq in H2. exact H2.
Qed.

(** A master starts a history: it gets a new ID and a backlog. *)
Lemma sys_new_history H x t p newid b :
  sys_ok H x → nodes x !! t = Some p → fresh_id newid x = true → masterhost (srv p) = None →
  createReplicationBacklog (bl (srv p)) = Ok b →
  ∃ H', sys_ok H' (Sys (<[t := set_srv (set_bl b (clearReplicationId2 (changeReplicationId newid (srv p)))) p]> (nodes x)) (links x)
                     (newid :: used x)) ∧ has_backlog (set_bl b (clearReplicationId2 (changeReplicationId newid (srv p)))).
Proof.
  intros Hs Hn Hf Hmh Hc. pose proof (s_node H x Hs t p Hn) as Hp. destruct (fresh_spec newid H x Hf Hs) as (Hni & Hnone & Hus).
  assert (repl_backlog (bl (srv p)) = None) as Hb.
  { unfold createReplicationBacklog in Hc. by case_bool_decide. }
  destruct (create_spec (bl (srv p)) [] Hb) as (b' & E & Hr & Hmo & _ & Hsz); [by apply (n_size _ _ _ Hp)|]. rewrite Hc in E. injection E as <-.
  assert (slaves (srv p) = []) as Hsl.
  { destruct (slaves (srv p)) eqn:E; [done|]. destruct (n_slaves _ _ _ Hp); [by rewrite E|done]. }
  pose proof (n_moff _ _ _ Hp) as Hm. destruct (n_own _ _ _ Hp Hmh) as [Hst _].
  set (h := Hist (contents p) (moff (srv p)) []).
  assert (h_hi h = moff (srv p)) as Ehi by (unfold h_hi; cbn; lia).
  destruct (hist_insert H x newid h Hf Hs) as (Hx & Hh' & Hs1 & Hs2); [cbn; lia|lia|].
  set (s' := set_bl b _). assert (moff s' = moff (srv p)) as Emo by exact Hmo.
  assert (upto h (moff (srv p)) = []) as Eu by (apply take_nil).
  exists (<[newid := h]> H). split; [|unfold has_backlog; cbn; by destruct Hr as [(buf & -> & _) _]].
  assert (used x ⊆ newid :: used x) as Hsub by (intros i Hi; by right).
  eapply sys_local; [exact Hs|exact Hn|exact Hx|done|done|exact Hh'|exact Hs1| | |done|done| |].
  - destruct Hp as [A1 A2 A3 A4 A5 A6 A7 A8 A9 A10 A11 A12 A13 A14].
    split; cbn [srv set_srv contents inbox disk]; rewrite ?Emo; try done.
    + cbn. by rewrite Hsz.
    + by left.
    + intros _. split; [|exists h; cbn; rewrite lookup_insert_eq, Eu; done].
      exists h. cbn. rewrite lookup_insert_eq. split; [done|]. split; [unfold in_hist; cbn; lia|].
      unfold h_data. rewrite Eu. cbn. by rewrite app_nil_r.
    + cbn. intros m E. destruct (A5 m E). congruence.
    + cbn. intros m E. by destruct (A6 m E).
    + by left.
    + intros _. split; [done|]. cbn. intros h'. rewrite lookup_insert_eq. intros [= <-]. split; [|done].
      unfold has_backlog. cbn. by destruct Hr as [(buf & -> & _) _].
    + cbn. rewrite Hsl. by intros ? ?%elem_of_nil.
    + cbn. intros E. congruence.
    + intros d i o E. destruct (A14 d i o E) as (Hi & Ho & Ha). split; [by right|]. split; [done|]. rewrite Hs2 by done.
      intros Hne. eapply at_h_ext; [done|]. by apply Ha.
  - intros _. by left.
  - intros c. left. done.
  - intros c. right. unfold aview. cbn. by rewrite Hsl.
Qed.

(** The link with the own master is down: only an error line goes to the connection. *)
Lemma sync_nolink H x t p c w i o ms newid :
  sys_ok H x → nodes x !! t = Some p → links x !! c = Some (Link w t (Some (i, o)) ms) → fresh_id newid x = true →
  sys_ok H (Sys (<[t := p]> (nodes x)) (<[c := Link w t None (ms ++ [MLine nomasterlink])]> (links x)) (newid :: used x)).
Proof.
  intros Hs Hn Hk Hf. pose proof (sys_use H x newid Hs Hf) as Hs0.
  assert (∀ y, y ∈ slaves (srv p) → sc_conn y ≠ c) as Hno by (intros y Hy; by eapply masters_link).
  eapply (sys_step H H (use_id newid x) t p p); [exact Hs0|exact Hn|apply hext_refl|done|by eapply (s_used _ _ Hs0)|by eapply (s_hist _ _ Hs0)|by left|
    by eapply (s_node _ _ Hs0)|by right| | | |]; cbn.
  - intros sl Hin. rewrite lookup_insert_ne by (intros E; by destruct (Hno sl Hin)). by eapply (s_entries _ _ Hs).
  - intros d Hd. destruct (s_listens _ _ Hs t p d Hn Hd) as (k0 & Hk0 & Hw). destruct (decide (c = d)) as [->|Hne].
    + rewrite lookup_insert_eq. eexists. split; [done|]. rewrite Hk in Hk0. injection Hk0 as <-. exact Hw.
    + rewrite lookup_insert_ne by done. by exists k0.
  - intros d kd Hd. destruct (decide (c = d)) as [->|Hne]; [rewrite lookup_insert_eq|rewrite lookup_insert_ne by done]; by eexists.
  - intros d kd [[<- <-]|[Hne Hd]]%lookup_insert_Some; left.
    + exists (Link w t (Some (i, o)) ms). do 4 (split; [done|]). cbn [who to].
      intros ph e _ Hok Hw He. destruct (decide (t = t)) as [_|]; [|done]. rewrite He in Hok by done.
      assert (aview (srv p) c = None) as Ea by (unfold aview; by rewrite find_slave_None). rewrite Ea in Hok |- *.
      replace (if decide (w = t) then bview (srv p) c else ph) with ph by (destruct (decide (w = t)); [by apply Hw|done]).
      apply ok_link_request in Hok as [->|(cm & -> & -> & _)]; [done|]. cbn. right. do 2 eexists. split; [done|].
      right; right. split; [by left|done].
    + exists kd. split; [done|]. by apply link_step_local; left.
Qed.

(** The request is accepted: the replica is online, and gets the rest of the stream. *)
Lemma sync_accepted H x t p c w i o ms newid z wb :
  sys_ok H x → nodes x !! t = Some p → links x !! c = Some (Link w t (Some (i, o)) ms) → fresh_id newid x = true →
  string2ll o = Some z → has_backlog (srv p) →
  (strcasecmp_eq i (replid (srv p)) = true ∨ (strcasecmp_eq i (replid2 (srv p)) = true ∧ z ≤ second_replid_offset (srv p))) →
  fol H (replid (srv p)) (z - 1) wb → z - 1 + Z.of_nat (length wb) = moff (srv p) →
  sys_ok H (Sys (<[t := set_srv (set_slaves (slaves (srv p) ++ [SClient c SLAVE_STATE_ONLINE 0 [] []]) (srv p)) p]> (nodes x))
    (<[c := Link w t None ((ms ++ [MLine (continue_line (replid (srv p)))]) ++ [MStream wb])]> (links x)) (newid :: used x)).
Proof.
  intros Hs Hn Hk Hf Hz Hb Hid Hfol Hend. pose proof (s_node H x Hs t p Hn) as Hp. pose proof (sys_use H x newid Hs Hf) as Hs0.
  assert (∀ y, y ∈ slaves (srv p) → sc_conn y ≠ c) as Hno by (intros y Hy; by eapply masters_link).
  eapply (sys_attach H (use_id newid x) t p c _ _ (SClient c SLAVE_STATE_ONLINE 0 [] []) (slaveseldb (srv p)));
    [exact Hs0|exact Hn|exact Hk|done|done|done|done|done|done|done|by intros [?|?]|].
  cbn. intros pw Hpw Hok. apply ok_link_request in Hok as [->|(cm & E & -> & Hreq)]; [done|]. rewrite E.
  pose proof (bview_psync _ _ _ E) as ->.
  destruct (accepted H x t p w pw i o z) as (m & Hm & E1 & E2 & -> & Ha & Hag); try done.
  rewrite Hm. cbn. right. do 2 eexists. split; [done|]. left. exists (replid (srv p)), (mc_replid m), (reploff m).
  split; [done|]. split; [done|]. split; [right; by eapply n_id|]. rewrite E1, E2. split; [done|]. exists [wb]. cbn. rewrite app_nil_r.
  replace (moff (srv pw) + 1 - 1) with (moff (srv pw)) in * by lia. split; [done|]. split; [done|].
  by intros ??? [= <- <- <-].
Qed.

(** The first replica of a server without a backlog: a new history starts. *)
Lemma sync_first H x t p c w r ms newid child forked b :
  sys_ok H x → nodes x !! t = Some p → links x !! c = Some (Link w t (Some r) ms) → fresh_id newid x = true →
  masterhost (srv p) = None → createReplicationBacklog (bl (srv p)) = Ok b →
  let sl := SClient c SLAVE_STATE_WAIT_BGSAVE_START 0 [] [] in
  let s := set_bl b (clearReplicationId2 (changeReplicationId newid (set_slaves (slaves (srv p) ++ [sl]) (srv p)))) in
  let r := sync_bgsave sl (contents p) child forked s in
  inv (set_node t (set_srv r.1 p) r.2 (Sys (nodes x) (<[c := Link w t None ms]> (links x)) (newid :: used x))).
Proof.
  intros Hs Hn Hk Hf Hmh Hc. destruct (sys_new_history H x t p newid b Hs Hn Hf Hmh Hc) as (H' & Hs1 & Hb1).
  set (p1 := set_srv _ p) in Hs1. exists H'.
  pose proof (sys_sync_full H' _ t p1 c w r ms child forked Hs1 (lookup_insert_eq _ _ _) Hk Hb1) as H1.
  unfold set_node in H1 |- *. cbn [nodes links used] in H1 |- *. rewrite insert_insert_eq in H1. exact H1.
Qed.

Lemma unlinked_master H us p :
  node_ok H us p → repl_backlog (bl (srv p)) = None →
  bool_decide (masterhost (srv p) ≠ None) && bool_decide (repl_state (srv p) ≠ REPL_STATE_CONNECTED) = false →
  masterhost (srv p) = None ∧ slaves (srv p) = [].
Proof.
  intros Hp Hb Elink. split.
  - apply andb_false_iff in Elink as [E%bool_decide_eq_false|E%bool_decide_eq_false]; [destruct (masterhost (srv p)); [by destruct E|done]|].
    destruct (repl_state (srv p)) eqn:Est; try (by destruct E).
    destruct (master (srv p)) as [m|] eqn:Em; [|by destruct (n_conn _ _ _ Hp Est)]. by destruct (n_master _ _ _ Hp m Em).
  - destruct (slaves (srv p)) eqn:E; [done|]. destruct (n_slaves _ _ _ Hp); [by rewrite E|done].
Qed.

Lemma sync_ok H x c newid child forked : sys_ok H x → safe (exec_sync c newid child forked x).
Proof.
  intros Hs. unfold exec_sync. destruct (links x !! c) as [[w t [[i o]|] ms]|] eqn:Hk; try (by eapply safe_here).
  unfold exec_at. destruct (nodes x !! t) as [p|] eqn:Hn; [|by eapply safe_here].
  destruct (fresh_id newid x) eqn:Hf; [|by eapply safe_here]. pose proof (s_node H x Hs t p Hn) as Hp. unfold syncCommand.
  destruct (bool_decide (masterhost (srv p) ≠ None) && _) eqn:Elink.
  { cbn [mbind res_bind mret res_ret]. eexists. split; [done|]. exists H. rewrite set_srv_same. unfold use_id, set_node.
    cbn [nodes links used deliver foldl fst snd]. unfold add_down. rewrite alter_insert_eq. by eapply sync_nolink. }
  destruct (psync_answer H (used x) p c i o Hp) as (r & -> & Hr). cbn [mbind res_bind]. destruct r as [[s' out]|].
  - destruct Hr as (z & wb & Hz & Hb & -> & -> & Hid & Hfol & Hend). cbn [mbind res_bind mret res_ret]. eexists. split; [done|]. exists H.
    unfold use_id, set_node. cbn [nodes links used deliver foldl fst snd]. unfold add_down. rewrite !alter_insert_eq. by eapply sync_accepted.
  - clear Hr. destruct (has_backlog_dec (srv p)) as [Hb|Hb].
    + rewrite (bool_decide_eq_false_2 (repl_backlog _ = None)) by exact Hb. rewrite andb_false_r. cbn [mbind res_bind mret res_ret].
      pose proof (sys_sync_full H (use_id newid x) t p c w _ ms child forked (sys_use H x newid Hs Hf) Hn Hk Hb) as H1. cbv zeta in H1.
      destruct (sync_bgsave _ _ _ _ _) as [s' out]. eexists. split; [done|]. exists H. exact H1.
    + destruct (unlinked_master H (used x) p Hp Hb Elink) as [Hmh Hsl]. rewrite (bool_decide_eq_true_2 (repl_backlog _ = None)) by exact Hb.
      rewrite (bool_decide_eq_true_2 (length _ = 1%nat)) by (cbn; by rewrite Hsl). cbn [andb].
      destruct (create_spec (bl (srv p)) [] Hb) as (b & Hc & _); [by apply (n_size _ _ _ Hp)|].
      pose proof (sync_first H x t p c w _ ms newid child forked b Hs Hn Hk Hf Hmh Hc) as H1. cbv zeta in H1.
      cbn [bl clearReplicationId2 changeReplicationId set_ids set_slaves]. rewrite Hc. cbn [mbind res_bind mret res_ret].
      match goal with |- context [sync_bgsave ?sl ?d child forked ?s] => set (y := sync_bgsave sl d child forked s); change (sync_bgsave _ _ _ _ _) with y in H1 end.
      destruct y as [s' out]. eexists. split; [done|]. exact H1.
Qed.

(** ** The replica reads *)

(** A message, or a part of it, is taken from the connection to the master. *)
Lemma sys_pop H x n p p' c k ms :
  sys_ok H x → nodes x !! n = Some p → listens (srv p) = Some c → links x !! c = Some k →
  node_ok H (used x) p' → masterhost (srv p') = masterhost (srv p) → masterhost (srv p) ≠ None →
  (slaves (srv p') = [] ∨ (slaves (srv p') = slaves (srv p) ∧ replid (srv p') = replid (srv p) ∧ moff (srv p') = moff (srv p))) →
  (listens (srv p') = Some c ∨ listens (srv p') = None) →
  (∀ e, ok_link H (used x) (bview (srv p) c) e k → ok_link H (used x) (bview (srv p') c) e (Link (who k) (to k) (request k) ms)) →
  sys_ok H (set_node n p' [] (set_down c ms x)).
Proof.
  intros Hs Hn Hl Hk Hp' Emh Hmh Hsl Hl' Hok. unfold set_node, set_down. cbn [deliver foldl nodes links used].
  eapply sys_step; [exact Hs|exact Hn|apply hext_refl|done|by eapply s_used|by eapply s_hist|by left|exact Hp'| | | | |].
  - intros E. congruence.
  - intros sl Hin. destruct Hsl as [E|[E _]]; rewrite E in Hin; [by apply elem_of_nil in Hin|].
    destruct (s_entries H x Hs n p sl Hn Hin) as (k0 & Hk0 & Ht & Hr). destruct (decide (c = sc_conn sl)) as [->|Hne].
    + rewrite lookup_alter_eq, Hk0. by eexists.
    + rewrite lookup_alter_ne, Hk0 by done. by eexists.
  - intros d Hd. assert (d = c) as -> by (destruct Hl' as [E|E]; congruence). rewrite lookup_alter_eq, Hk. eexists. split; [done|]. cbn.
    destruct (s_listens H x Hs n p c Hn Hl) as (k0 & Hk0 & Hw). congruence.
  - intros d kd Hd. destruct (decide (c = d)) as [->|Hne]; [rewrite lookup_alter_eq, Hd|rewrite lookup_alter_ne, Hd by done]; by eexists.
  - intros d kd Hd. left.
    assert (∀ d, aview (srv p') d = aview (srv p) d ∨ aview (srv p') d = None) as Ha.
    { intros d'. unfold aview. destruct Hsl as [->|(-> & -> & ->)]; [by right|by left]. }
    destruct (decide (c = d)) as [<-|Hne].
    + rewrite lookup_alter_eq, Hk in Hd. injection Hd as <-. exists k. split; [done|]. do 3 (split; [done|]).
      intros ph e _ Hlk Hw Ht. destruct (s_listens H x Hs n p c Hn Hl) as (k0 & Hk0 & Hw0).
      assert (k0 = k) as -> by congruence. rewrite (decide_True _ _ Hw0). rewrite Hw in Hlk by done. apply Hok in Hlk.
      destruct (decide (to k = n)) as [Et|Et]; [|done]. rewrite Ht in Hlk by done.
      destruct (Ha c) as [->| ->]; [done|]. by eapply ok_link_close.
    + rewrite lookup_alter_ne in Hd by done. exists kd. split; [done|]. apply link_step_local; [right|apply Ha].
      unfold bview. rewrite bool_decide_eq_false_2; [done|]. destruct Hl' as [->| ->]; congruence.
Qed.

Lemma inbound_spec s x c ms : inbound s x = Some (c, ms) → listens s = Some c ∧ ∃ k, links x !! c = Some k ∧ down k = ms.
Proof.
  unfold inbound. destruct (listens s) as [d|]; [|done]. cbn. destruct (links x !! d) as [k|] eqn:E; [|done]. cbn.
  intros [= <- <-]. split; [done|]. by exists k.
Qed.

Lemma load_ok H x n : sys_ok H x → safe (exec_load n x).
Proof.
  intros Hs. unfold exec_load, exec_at. destruct (nodes x !! n) as [p|] eqn:Hn; [|by eapply safe_here].
  destruct (repl_state (srv p)) eqn:Hst; try (by eapply safe_here).
  destruct (inbound (srv p) x) as [[c [|[|d|] ms]]|] eqn:Hin; try (by eapply safe_here).
  pose proof (s_node H x Hs n p Hn) as Hp. apply inbound_spec in Hin as (Hl & k & Hk & Hd).
  destruct (s_listens H x Hs n p c Hn Hl) as (k0 & Hk0 & Hw). assert (k0 = k) as -> by congruence.
  pose proof (s_links H x Hs c k p Hk ltac:(by rewrite Hw)) as Hlk.
  assert (repl_transfer_s (srv p) = Some c) as Etr by (unfold listens in Hl; by rewrite Hst in Hl).
  assert (bview (srv p) c = PhTransfer (master_replid (srv p)) (master_initial_offset (srv p))) as Ebv.
  { unfold bview. by rewrite bool_decide_eq_true_2, Hst by done. }
  set (i := master_replid (srv p)) in *. set (o := master_initial_offset (srv p)) in *.
  rewrite Ebv in Hlk. cbn in Hlk. destruct Hlk as [Hr [[E _]|(d' & ms' & E & Hat & _)]]; rewrite Hd in E; simplify_eq.
  assert (i ∈ used x ∧ 0 ≤ o < LLONG_MAX) as [Hi Ho].
  { destruct Hat as (h & Hh & Hin & _). destruct (s_hist H x Hs _ _ Hh) as (? & ? & ?). unfold in_hist in Hin. split; [done|lia]. }
  destruct (n_transfer _ _ _ Hp Hst) as (Hb & Hsl & Hm & Hc).
  assert (repl_backlog (bl (srv p)) = None) as Hb' by (destruct (has_backlog_dec (srv p)); done).
  assert (masterhost (srv p) ≠ None) as Hmh by (intros E; destruct (n_own _ _ _ Hp E); congruence).
  unfold readSyncBulkPayload_end. with_strategy opaque [createReplicationBacklog] cbn. rewrite bool_decide_eq_true_2 by done.
  destruct Hat as (h & Hh & Hin & ->).
  destruct (create_spec (set_moff o (bl (srv p))) (upto h o) Hb') as (b & E & Hr' & Hmo & _ & Hsz); [by apply (n_size _ _ _ Hp)|].
  fold o. rewrite E. cbn [mbind res_bind mret res_ret]. eexists. split; [done|]. exists H.
  eapply (sys_pop H x _ p _ c k); try done; [ |by left|left; cbn; done|].
  - destruct Hp as [A1 A2 A3 A4 A5 A6 A7 A8 A9 A10 A11 A12 A13 A14].
    assert (∀ s0, moff (set_bl b s0) = o) as Emo by (intros; exact Hmo).
    assert (∀ s0, has_backlog (set_bl b s0)) as Hbl by (intros; unfold has_backlog; cbn; by destruct Hr' as [(buf & -> & _) _]).
    split; cbn [srv contents inbox disk]; try done; rewrite ?Emo; try done.
    + cbn. by rewrite Hsz.
    + intros _. split; [by exists h|by exists h].
    + cbn. intros m [= <-]. split; try done; rewrite Emo; [cbn; lia|].
      eapply fol_nil. by exists h.
    + cbn. by rewrite Hc.
    + by left.
    + cbn. rewrite Hsl. by intros ? ?%elem_of_nil.
  - rewrite Ebv. cbn. intros e [_ [[E' _]|(d' & ms'' & E' & Hat' & Ht)]]; rewrite Hd in E'; simplify_eq.
    unfold bview, listens. cbn. rewrite Etr, bool_decide_eq_true_2 by done. by cbn.
Qed.

(** The replica after CONTINUE with the ID [j]; its replicas are disconnected when the ID
    is new. *)
Definition continued (c : conn) (j : bytes) (m : mclient) (b : backlog) (s : rserver) : rserver :=
  let same := bool_decide (j = mc_replid m) in
  RServer b (if same then replid s else j) (if same then replid2 s else mc_replid m)
    (if same then second_replid_offset s else moff s + 1) (if same then slaves s else []) (slaveseldb s) (rdb_child s) (masterhost s)
    REPL_STATE_CONNECTED (repl_transfer_s s)
    (Some (MClient (Some c) j (reploff m) (read_reploff m) (mc_querybuf m) (pending_querybuf m) (mc_rock m) (mc_cmd m)))
    None (master_replid s) (master_initial_offset s).

Lemma reply_continue c j m s :
  hexid j = true → cached_master s = Some m →
  syncWithMaster_reply c (continue_line j) s =
    (b ← (if bool_decide (repl_backlog (bl s) = None) then createReplicationBacklog (bl s) else mret (bl s));
     mret (continued c j m b s)).
Proof.
  intros Hj Hm. destruct (continue_read j Hj) as (E1 & E2 & E3 & E4).
  unfold syncWithMaster_reply, slaveTryPartialResynchronization_read. rewrite (bool_decide_eq_false_2 _ E3), E1, E2, E4, Hm.
  cbn [res_of_option mbind res_bind]. unfold continued. destruct (bool_decide (j = mc_replid m)) eqn:Ej.
  - apply bool_decide_eq_true in Ej as ->. unfold replicationResurrectCachedMaster. rewrite Hm. cbn [res_of_option mbind res_bind mret res_ret].
    unfold set_state, set_cached, set_master. cbn [bl]. case_bool_decide as Eb; [|done].
    by destruct (createReplicationBacklog (bl s)).
  - with_strategy opaque [createReplicationBacklog] cbn. destruct (bool_decide (repl_backlog (bl s) = None)); [|reflexivity].
    destruct (createReplicationBacklog (bl s)); reflexivity.
Qed.

Lemma reply_fullresync c j o s :
  hexid j = true → is_ll o →
  syncWithMaster_reply c (fullresync_line j o) s =
    Ok (RServer (Backlog None (repl_backlog_size (bl s)) (repl_backlog_histlen (bl s)) (repl_backlog_idx (bl s)) (repl_backlog_off (bl s))
          (master_repl_offset (bl s))) (replid s) (replid2 s) (second_replid_offset s) [] (slaveseldb s) (rdb_child s) (masterhost s)
          REPL_STATE_TRANSFER (repl_transfer_s s) (master s) None j o).
Proof.
  intros Hj Ho. destruct (fullresync_read j o Hj Ho) as (E1 & E2 & E3).
  unfold syncWithMaster_reply, slaveTryPartialResynchronization_read. by rewrite (bool_decide_eq_false_2 _ E2), E1, E3.
Qed.

Lemma reply_nomasterlink c s :
  syncWithMaster_reply c nomasterlink s = Ok (set_state REPL_STATE_CONNECT (set_transfer None s)).
Proof. done. Qed.
Lemma reply_bgsave_failed c s :
  syncWithMaster_reply c bgsave_failed s =
    Ok (RServer (Backlog None (repl_backlog_size (bl s)) (repl_backlog_histlen (bl s)) (repl_backlog_idx (bl s)) (repl_backlog_off (bl s))
          (master_repl_offset (bl s))) (replid s) (replid2 s) (second_replid_offset s) [] (slaveseldb s) (rdb_child s) (masterhost s)
          REPL_STATE_TRANSFER (repl_transfer_s s) (master s) None (master_replid s) (master_initial_offset s)).
Proof. done. Qed.

(** A replica that waits for the file of a full resynchronization. *)
Lemma node_transfer H us p j o tr :
  node_ok H us p → master (srv p) = None → masterhost (srv p) ≠ None →
  node_ok H us (PNode (RServer (Backlog None (repl_backlog_size (bl (srv p))) (repl_backlog_histlen (bl (srv p))) (repl_backlog_idx (bl (srv p)))
     (repl_backlog_off (bl (srv p))) (master_repl_offset (bl (srv p)))) (replid (srv p)) (replid2 (srv p)) (second_replid_offset (srv p)) []
     (slaveseldb (srv p)) (rdb_child (srv p)) (masterhost (srv p)) REPL_STATE_TRANSFER tr (master (srv p)) None j o) (contents p) [] (disk p)).
Proof.
  intros [A1 A2 A3 A4 A5 A6 A7 A8 A9 A10 A11 A12 A13 A14] Hm Hmh. rewrite Hm. split; cbn; try done.
  - constructor.
  - by intros ? ?%elem_of_nil.
  - intros _. split; [|done]. unfold has_backlog. cbn. auto.
Qed.

(** CONTINUE: the history of the replica is that of the new ID. *)
Lemma node_continued H us p c j m b :
  node_ok H us p → cached_master (srv p) = Some m → j ∈ us → agree H (replid (srv p)) j (moff (srv p)) →
  (b ← (if bool_decide (repl_backlog (bl (srv p)) = None) then createReplicationBacklog (bl (srv p)) else mret (bl (srv p))); mret b) = Ok b →
  node_ok H us (PNode (continued c j m b (srv p)) (contents p) [] (disk p)) ∧
  moff (continued c j m b (srv p)) = moff (srv p) ∧ replid (continued c j m b (srv p)) = j.
Proof.
  intros Hp Hm Hj Hag Hb. destruct (n_cached _ _ _ Hp m Hm) as [Hmh Hma Em Hat].
  assert (mc_replid m = replid (srv p)) as Eid by (by rewrite Em).
  assert (reploff m = moff (srv p) ∧ read_reploff m = moff (srv p) ∧ mc_querybuf m = [] ∧ pending_querybuf m = [] ∧ mc_rock m = false)
    as (E1 & E2 & E3 & E4 & E5) by (by rewrite Em). clear Em.
  pose proof Hag as (h & k & Hh & Hk & Hin & Hink & Hbase & Hlo & Eu).
  assert (at_h H (replid (srv p)) (moff (srv p)) (contents p)) as Ha by (apply Hat; by rewrite Hh).
  pose proof (agree_at _ _ _ _ _ Hag Ha) as Haj.
  assert (holds b (upto k (moff (srv p))) ∧ master_repl_offset b = moff (srv p) ∧ 0 < repl_backlog_size b) as (Hr & Hmo & Hsz).
  { pose proof (n_size _ _ _ Hp) as Hs. case_bool_decide as Ebl.
    - destruct (create_spec (bl (srv p)) (upto k (moff (srv p))) Ebl Hs) as (b' & E & ? & ? & _ & ?). rewrite E in Hb. cbn in Hb.
      injection Hb as <-. split; [done|]. split; [done|lia].
    - cbn in Hb. injection Hb as <-. destruct (n_bl _ _ _ Hp Ebl) as [_ (h' & Hh' & Hr)]. simplify_eq. by rewrite <- Eu. }
  clear Hb. set (s' := continued c j m b (srv p)). assert (moff s' = moff (srv p)) as Emo by exact Hmo.
  assert (replid s' = j) as Ej by (unfold s', continued; cbn; case_bool_decide as Ejm; [by rewrite Ejm|done]).
  assert (has_backlog s') as Hbl by (unfold has_backlog; cbn; by destruct Hr as [(buf & -> & _) _]).
  split; [|done]. destruct Hp as [A1 A2 A3 A4 A5 A6 A7 A8 A9 A10 A11 A12 A13 A14].
  split; cbn [srv contents inbox disk]; rewrite ?Emo, ?Ej; try done.
  - intros _. split; [done|]. by exists k.
  - intros m' [= <-]. split; rewrite ?Emo, ?Ej; try done.
    + by cbn; rewrite E2; lia.
    + cbn. by rewrite E3.
    + by eapply fol_nil.
  - unfold s', continued. cbn. case_bool_decide as Ejm.
    + rewrite Ejm, Eid. done.
    + right. rewrite Eid. split; [done|]. intros _. replace (moff (srv p) + 1 - 1) with (moff (srv p)) by lia. by apply agree_sym.
  - unfold s', continued. cbn. case_bool_decide; [done|constructor].
  - unfold s', continued. cbn. case_bool_decide as Ejm; [|by intros ? ?%elem_of_nil].
    intros sl Hsl Hq. destruct (A12 sl Hsl Hq) as [Hqa Hqf Hqe]. split; cbn; rewrite ?bool_decide_eq_true_2 by done; try done.
    unfold moff at 1. cbn. by rewrite Hmo.
Qed.

(** A replica that waits for the answer of its master, and a line that has arrived. *)
Record answered (H : hists) (x : sys) (n : nat) (p : pnode) (c : conn) (k : link) (l : bytes) (ms : list msg) : Prop := {
  a_who : who k = n;
  a_req : request k = None;
  a_tr : repl_transfer_s (srv p) = Some c;
  a_host : masterhost (srv p) ≠ None;
  a_master : master (srv p) = None;
  a_ok : ok_link H (used x) (bview (srv p) c) (eview (nodes x) c k) k;
  a_line : ∀ e, ok_link H (used x) (bview (srv p) c) e k →
    line_ok H (used x) e ((fun m => (mc_replid m, reploff m)) <$> cached_master (srv p)) l ms;
}.
Lemma reply_answered H x n p c k l ms :
  sys_ok H x → nodes x !! n = Some p → repl_state (srv p) = REPL_STATE_RECEIVE_PSYNC → listens (srv p) = Some c →
  links x !! c = Some k → down k = MLine l :: ms → answered H x n p c k l ms.
Proof.
  intros Hs Hn Hst Hl Hk Hd. pose proof (s_node H x Hs n p Hn) as Hp.
  destruct (s_listens H x Hs n p c Hn Hl) as (k0 & Hk0 & Hw). assert (k0 = k) as -> by congruence.
  pose proof (s_links H x Hs c k p Hk ltac:(by rewrite Hw)) as Hlk.
  set (cm := (fun m => (mc_replid m, reploff m)) <$> cached_master (srv p)).
  assert (bview (srv p) c = PhPsync cm) as Ebv by (unfold bview; by rewrite bool_decide_eq_true_2, Hst by done).
  assert (request k = None) as Hreq.
  { rewrite Ebv in Hlk. cbn in Hlk. destruct (request k); [|done]. destruct Hlk as [E _]. congruence. }
  split; try done.
  - unfold listens in Hl. by rewrite Hst in Hl.
  - intros E. destruct (n_own _ _ _ Hp E). congruence.
  - destruct (master (srv p)) as [m|] eqn:E; [|done]. destruct (n_master _ _ _ Hp m E). congruence.
  - intros e. rewrite Ebv. cbn. rewrite Hreq. intros [[E _]|(l' & ms' & E & Hok)]; rewrite Hd in E; by simplify_eq.
Qed.

(** Every way to the file of a full resynchronization. *)
Lemma reply_file H x n p c k l ms s' j o :
  sys_ok H x → nodes x !! n = Some p → repl_state (srv p) = REPL_STATE_RECEIVE_PSYNC → listens (srv p) = Some c →
  links x !! c = Some k → down k = MLine l :: ms →
  s' = RServer (Backlog None (repl_backlog_size (bl (srv p))) (repl_backlog_histlen (bl (srv p))) (repl_backlog_idx (bl (srv p)))
      (repl_backlog_off (bl (srv p))) (master_repl_offset (bl (srv p)))) (replid (srv p)) (replid2 (srv p))
    (second_replid_offset (srv p)) [] (slaveseldb (srv p)) (rdb_child (srv p)) (masterhost (srv p)) REPL_STATE_TRANSFER (repl_transfer_s (srv p))
    (master (srv p)) None j o →
  syncWithMaster_reply c l (srv p) = Ok s' →
  (∀ e, ok_link H (used x) (bview (srv p) c) e k → full_ok H e j o ms) →
  safe (s ← syncWithMaster_reply c l (srv p); mret (set_node n (PNode s (contents p) [] (disk p)) [] (set_down c ms x))).
Proof.
  intros Hs Hn Hst Hl Hk Hd Es Erun Hf. destruct (reply_answered H x n p c k l ms Hs Hn Hst Hl Hk Hd) as [Hw Hreq Etr Hmh Hma Hlk Hline].
  pose proof (s_node H x Hs n p Hn) as Hp. rewrite Erun. cbn [mbind res_bind]. eexists. split; [done|]. exists H. rewrite Es.
  eapply (sys_pop H x n p _ c k); try done; [by apply node_transfer|by left|left; by unfold listens|].
  intros e He. unfold bview, listens. cbn. rewrite Etr, bool_decide_eq_true_2 by done. split; [done|]. by apply Hf.
Qed.

(** The cached master becomes the master again. *)
Lemma reply_goes_on H x n p c k j m ms :
  sys_ok H x → nodes x !! n = Some p → repl_state (srv p) = REPL_STATE_RECEIVE_PSYNC → listens (srv p) = Some c →
  links x !! c = Some k → down k = MLine (continue_line j) :: ms → cached_master (srv p) = Some m → j ∈ used x →
  agree H (mc_replid m) j (reploff m) →
  safe (s ← syncWithMaster_reply c (continue_line j) (srv p); mret (set_node n (PNode s (contents p) [] (disk p)) [] (set_down c ms x))).
Proof.
  intros Hs Hn Hst Hl Hk Hd Hm Hj Hag. destruct (reply_answered H x n p c k _ ms Hs Hn Hst Hl Hk Hd) as [Hw Hreq Etr Hmh Hma Hlk Hline].
  pose proof (s_node H x Hs n p Hn) as Hp. destruct (n_cached _ _ _ Hp m Hm) as [_ _ Em _].
  assert (mc_replid m = replid (srv p) ∧ reploff m = moff (srv p) ∧ read_reploff m = moff (srv p)) as (E1 & E2 & E3) by (by rewrite Em). clear Em.
  rewrite E1, E2 in Hag. rewrite (reply_continue c j m) by (done || by eapply (s_used H x Hs)).
  assert (∃ b, (if bool_decide (repl_backlog (bl (srv p)) = None) then createReplicationBacklog (bl (srv p)) else mret (bl (srv p))) = Ok b)
    as [b Eb].
  { case_bool_decide as Ebl; [|by eexists]. destruct (create_spec _ [] Ebl (n_size _ _ _ Hp)) as (b & -> & _). by eexists. }
  rewrite Eb. cbn [mbind res_bind mret res_ret].
  destruct (node_continued H (used x) p c j m b Hp Hm Hj Hag) as (Hp' & Emo & Eid); [by rewrite Eb|].
  eexists. split; [done|]. exists H. eapply (sys_pop H x n p _ c k); try done.
  - unfold continued. cbn. destruct (bool_decide (j = mc_replid m)); [right|by left]. split; [done|]. split; [done|]. exact Emo.
  - left. done.
  - intros e He. destruct (Hline e He) as [(j' & i' & o' & Ej & Ecm' & _ & _ & Ht)|[(j' & o' & Ej & Hj' & Ho' & _)|(Ej & _)]].
    + assert (j' = j) as ->.
      { unfold continue_line in Ej. apply app_inv_head in Ej. by apply app_inv_tail in Ej. }
      unfold bview, listens. cbn. rewrite bool_decide_eq_true_2 by done. cbn. split; [done|]. rewrite E3.
      assert (o' = moff (srv p)) as <-; [|done]. rewrite Hm in Ecm'. cbn in Ecm'. congruence.
    + done.
    + by destruct Ej.
Qed.

Lemma fullresync_inj H x j o j' o' :
  sys_ok H x → j ∈ used x → j' ∈ used x → 0 ≤ o < LLONG_MAX → 0 ≤ o' < LLONG_MAX → fullresync_line j o = fullresync_line j' o' → j = j' ∧ o = o'.
Proof.
  intros Hs Hj Hj' Ho Ho' Ej.
  destruct (fullresync_read j o) as (_ & _ & P1); [by eapply (s_used H x Hs)|unfold is_ll, LLONG_MIN; lia|].
  destruct (fullresync_read j' o') as (_ & _ & P2); [by eapply (s_used H x Hs)|unfold is_ll, LLONG_MIN; lia|].
  rewrite Ej, P2 in P1. by injection P1.
Qed.

Lemma reply_ok H x n : sys_ok H x → safe (exec_reply n x).
Proof.
  intros Hs. unfold exec_reply, exec_at. destruct (nodes x !! n) as [p|] eqn:Hn; [|by eapply safe_here].
  destruct (repl_state (srv p)) eqn:Hst; try (by eapply safe_here).
  destruct (inbound (srv p) x) as [[c [|[l|d|] ms]]|] eqn:Hin; try (by eapply safe_here).
  pose proof (s_node H x Hs n p Hn) as Hp. apply inbound_spec in Hin as (Hl & k & Hk & Hd).
  destruct (reply_answered H x n p c k l ms Hs Hn Hst Hl Hk Hd) as [Hw Hreq Etr Hmh Hma Hlk Hline].
  destruct (Hline _ Hlk) as [(j & i & o & -> & Ecm & Hj & Hag & _)|[(j & o & -> & Hj & Ho & _)|([-> | ->] & -> & _)]].
  - destruct (cached_master (srv p)) as [m|] eqn:Hm; [|done]. cbn in Ecm. injection Ecm as <- <-. by eapply reply_goes_on.
  - eapply reply_file; [exact Hs|exact Hn|exact Hst|exact Hl|exact Hk|exact Hd|..].
    2:{ apply reply_fullresync; [by eapply (s_used H x Hs)|unfold is_ll, LLONG_MIN; lia]. }
    { done. }
    intros e He. destruct (Hline e He) as [(j' & i' & o' & Ej & _)|[(j' & o' & Ej & Hj' & Ho' & Hf)|([Ej|Ej] & _)]]; try done.
    by destruct (fullresync_inj H x j o j' o') as [<- <-].
  - rewrite reply_nomasterlink. cbn [mbind res_bind]. eexists. split; [done|]. exists H.
    eapply (sys_pop H x n p _ c k); try done; [|by right|by right].
    eapply idle_node; [done| |done|].
    + repeat split; try done. by left.
    + cbn. intros m E. destruct (n_cached _ _ _ Hp m E). by split.
  - eapply reply_file; [exact Hs|exact Hn|exact Hst|exact Hl|exact Hk|exact Hd|..|apply reply_bgsave_failed|]; [done|].
    intros e He. left. split; [done|]. destruct (Hline e He) as [(j' & i' & o' & Ej & _)|[(j' & o' & Ej & _)|(_ & _ & ->)]]; done.
Qed.

(** What [processInputBuffer] does with the offsets. *)
Lemma process_cmds_spec cmds : ∀ pos m pos' m',
  process_cmds cmds pos m = Some (pos', m') → (pos ≤ length (mc_querybuf m))%nat → reploff m ≤ applied_off pos m →
  m' = set_reploff (reploff m') m ∧ (pos' ≤ length (mc_querybuf m))%nat ∧ reploff m ≤ reploff m' ≤ applied_off pos' m.
Proof.
  induction cmds as [|[l multi] cmds IH]; intros pos m pos' m' Hrun Hpos Hoff; cbn [process_cmds] in Hrun.
  - injection Hrun as <- <-. split; [by destruct m|]. done.
  - case_bool_decide as Hl; [|done].
    assert (applied_off pos m ≤ applied_off (pos + l) m) as Hmono by (unfold applied_off; lia).
    destruct multi.
    + apply IH in Hrun as (E & ? & ?); [|done|lia]. done.
    + apply IH in Hrun as (E & Hp & Ho); [|done|cbn; unfold applied_off; cbn; lia]. cbn in Hp. split; [|split; [done|]].
      * rewrite E. by destruct m.
      * unfold applied_off, set_reploff in Ho. cbn in Ho. unfold applied_off in *. lia.
Qed.

Lemma processInputBuffer_spec H s inb m cmds m' :
  master_ok H s inb m → processInputBuffer cmds None m = Some m' →
  m' = set_query (mc_querybuf m') (set_reploff (reploff m') m) ∧
  moff s ≤ reploff m' ≤ moff s + Z.of_nat (length inb) ∧
  Z.of_nat (length (mc_querybuf m')) ≤ moff s + Z.of_nat (length inb) - reploff m'.
Proof.
  intros [B1 B2 B3 B4 B5 B6 B7 B8 B9 B10]. unfold processInputBuffer. rewrite B9.
  destruct (process_cmds cmds 0 m) as [[pos m1]|] eqn:E; [|done]. cbn. intros [= <-].
  destruct (process_cmds_spec cmds 0 m pos m1 E) as (E1 & Hpos & Hoff); [lia|unfold applied_off; lia|].
  split; [rewrite E1; by destruct m|]. cbn. rewrite length_drop.
  assert (mc_querybuf m1 = mc_querybuf m) as -> by (by rewrite E1). unfold applied_off in Hoff. lia.
Qed.

(** Bytes are read and kept: nothing is applied yet. *)
Definition received (chunk : bytes) (m : mclient) : mclient :=
  MClient (mc_conn m) (mc_replid m) (reploff m) (read_reploff m + Z.of_nat (length chunk))
    (mc_querybuf m ++ chunk) (pending_querybuf m ++ chunk) (mc_rock m) (mc_cmd m).

Lemma node_master H us p m inb :
  node_ok H us p → master (srv p) ≠ None → master_ok H (srv p) inb m →
  node_ok H us (PNode (set_master (Some m) (srv p)) (contents p) inb (disk p)).
Proof.
  intros [A1 A2 A3 A4 A5 A6 A7 A8 A9 A10 A11 A12 A13 A14] Hm Hok.
  split; try done; cbn.
  - intros m' [= <-]. destruct Hok. by split.
  - intros m' E. destruct (A6 m' E). by destruct Hm.
  - intros sl Hin Hq. destruct (A12 sl Hin Hq). by split.
  - intros E. destruct Hok. congruence.
Qed.

Lemma sys_receive H x n p m c k b ms kk :
  sys_ok H x → nodes x !! n = Some p → master (srv p) = Some m → listens (srv p) = Some c → links x !! c = Some k →
  down k = MStream b :: ms →
  let p1 := PNode (set_master (Some (received (take kk b) m)) (srv p)) (contents p) (inbox p ++ take kk b) (disk p) in
  master_ok H (srv p1) (inbox p1) (received (take kk b) m) ∧
  sys_ok H (set_node n p1 [] (set_down c (if bool_decide (length b ≤ kk)%nat then ms else MStream (drop kk b) :: ms) x)).
Proof.
  intros Hs Hn Hm Hl Hk Hd p1. pose proof (s_node H x Hs n p Hn) as Hp. pose proof (n_master _ _ _ Hp m Hm) as Hmok.
  pose proof Hmok as [B1 B2 B3 B4 B5 B6 B7 B8 B9 B10].
  destruct (s_listens H x Hs n p c Hn Hl) as (k0 & Hk0 & Hw). assert (k0 = k) as -> by congruence.
  pose proof (s_links H x Hs c k p Hk ltac:(by rewrite Hw)) as Hlk.
  assert (mc_conn m = Some c) as Ec by (unfold listens in Hl; by rewrite B1, Hm in Hl).
  assert (bview (srv p) c = PhStream (replid (srv p)) (moff (srv p) + Z.of_nat (length (inbox p)))) as Ebv.
  { unfold bview. rewrite bool_decide_eq_true_2, B1, Hm by done. by rewrite B4, B6. }
  set (ms' := if bool_decide (length b ≤ kk)%nat then ms else MStream (drop kk b) :: ms).
  assert (∀ e, tail_ok H e (replid (srv p)) (moff (srv p) + Z.of_nat (length (inbox p))) (down k) →
    fol H (replid (srv p)) (moff (srv p) + Z.of_nat (length (inbox p))) (take kk b) ∧
    tail_ok H e (replid (srv p)) (moff (srv p) + Z.of_nat (length (inbox p)) + Z.of_nat (length (take kk b))) ms') as Hpop.
  { intros e (ps & E & Hf & He). rewrite Hd in E. destruct ps as [|b' ps]; [done|]. injection E as <- ->.
    assert (∃ ps', ms' = MStream <$> ps' ∧ concat (b :: ps) = take kk b ++ concat ps') as (ps' & -> & Ecat).
    { unfold ms'. case_bool_decide as Hlen.
      - exists ps. split; [done|]. cbn. by rewrite take_ge.
      - exists (drop kk b :: ps). split; [done|]. cbn. by rewrite app_assoc, take_drop. }
    rewrite Ecat in Hf, He. apply fol_app in Hf as [Hf1 Hf2]. split; [done|]. exists ps'. split; [done|]. split; [done|].
    intros sl j z E. destruct (He sl j z E) as (? & ? & Hz). split; [done|]. split; [done|]. rewrite length_app in Hz. lia. }
  assert (master_ok H (srv p1) (inbox p1) (received (take kk b) m)) as Hmok1.
  { split; cbn; try done.
    - rewrite B6, length_app. unfold moff. cbn. lia.
    - by rewrite B7.
    - rewrite !length_app. lia.
    - rewrite Ebv in Hlk. cbn in Hlk. destruct (Hpop _ (proj2 Hlk)) as [Hf _]. apply fol_app. done. }
  split; [done|]. eapply (sys_pop H x n p p1 c k); try done.
  - apply (node_master H (used x) p _ (inbox p ++ take kk b) Hp); [by rewrite Hm|]. destruct Hmok1. by split.
  - cbn. intros E. destruct (n_own _ _ _ Hp E). congruence.
  - by right.
  - left. unfold listens. cbn. by rewrite B1, Ec.
  - rewrite Ebv. intros e [Hr Ht]. destruct (Hpop e Ht) as [_ Ht'].
    unfold bview, listens. cbn. rewrite B1, Ec. cbn. rewrite bool_decide_eq_true_2 by done. cbn. split; [done|].
    by rewrite B4, B6.
Qed.

(** The commands that were applied are taken from the bytes that were read. *)
Lemma master_applied H s m w rest q b' ss mm sd :
  master_ok H s (w ++ rest) m → (length q ≤ length rest)%nat → fed_by w (bl s) b' → (∃ st, holds (bl s) st) →
  master_ok H (set_slaveseldb sd (set_master mm (set_slaves ss (set_bl b' s)))) rest
    (set_pending rest (set_query q (set_reploff (moff s + Z.of_nat (length w)) m))).
Proof.
  intros [B1 B2 B3 B4 B5 B6 B7 B8 B9 B10] Hq Hf [st Hr]. destruct (Hf st Hr) as (Hr2 & Hmo & _).
  apply fol_app in B10 as [_ Hfr]. rewrite length_app in B6. split; try done; unfold moff in *; cbn; rewrite ?Hmo; try done; [|lia].
  unfold has_backlog. cbn. by destruct Hr2 as [(buf & -> & _) _].
Qed.

Lemma process_set_master cmds wait m mm s :
  processInputBufferAndReplicate cmds wait m (set_master mm s) = processInputBufferAndReplicate cmds wait m s.
Proof.
  unfold processInputBufferAndReplicate. destruct (processInputBuffer cmds wait m) as [m'|]; [|done]. cbn [mbind option_bind].
  destruct (reploff m' - reploff m =? 0); [done|]. destruct (serverAssert _ _); [|done]. cbn [mbind res_bind].
  unfold replicationFeedSlavesFromMasterStream. change (bl (set_master mm s)) with (bl s).
  by destruct (if bool_decide (repl_backlog (bl s) = None) then _ else _).
Qed.

(** The input buffer of the master's client is processed. *)
Lemma sys_process H x n p m cmds r :
  sys_ok H x → nodes x !! n = Some p → master (srv p) = Some m → processInputBufferAndReplicate cmds None m (srv p) = Some r →
  ∃ s out, r = Ok (s, out) ∧
    let applied := Z.to_nat (default 0 (reploff <$> master s) - reploff m) in
    sys_ok H (set_node n (PNode s (contents p ++ (TByte <$> take applied (inbox p))) (drop applied (inbox p)) (disk p)) out x).
Proof.
  intros Hs Hn Hm. pose proof (s_node H x Hs n p Hn) as Hp. pose proof (n_master _ _ _ Hp m Hm) as Hmok.
  unfold processInputBufferAndReplicate. destruct (processInputBuffer cmds None m) as [m'|] eqn:Hrun; cbn [mbind option_bind]; [|done].
  destruct (processInputBuffer_spec H (srv p) (inbox p) m cmds m' Hmok Hrun) as (Em & Hoff & Hq).
  pose proof (m_off _ _ _ _ Hmok) as B5. pose proof (m_bl _ _ _ _ Hmok) as B3.
  assert (same_link (master (srv p)) (Some m')) as Hsl by (unfold same_link; rewrite Hm, Em; done).
  destruct (Z.eqb_spec (reploff m' - reploff m) 0) as [E0|E0]; intros [= <-].
  - eexists _, _. split; [done|]. cbn [master set_master fmap option_fmap option_map from_option id default]. rewrite E0. cbn [Z.to_nat].
    rewrite take_0, drop_0. cbn [fmap list_fmap]. rewrite app_nil_r. unfold set_node. cbn [deliver foldl].
    destruct (same_link_view (srv p) (set_master (Some m') (srv p))) as [Hlis Hbv]; try done.
    eapply sys_local0; try done; try (by left); [|cbn [srv]; by rewrite Hlis].
    apply node_master; [done|by rewrite Hm|]. destruct Hmok as [B1 B2 _ B4 _ B6 B7 B8 B9 B10]. rewrite Em. split; cbn; try done; lia.
  - assert (pending_querybuf m' = inbox p) as -> by (rewrite Em; by apply (m_pending _ _ _ _ Hmok)).
    rewrite (proj2 (andb_true_iff _ _)) by (split; apply Z.leb_le; lia). cbn [serverAssert mbind res_bind].
    set (a := Z.to_nat (reploff m' - reploff m)). pose proof (length_take (inbox p) a) as Hw. rewrite Nat.min_l in Hw by lia.
    unfold replicationFeedSlavesFromMasterStream. rewrite (bool_decide_eq_false_2 (repl_backlog (bl (srv p)) = None)) by exact B3.
    destruct (n_bl _ _ _ Hp B3) as [_ (h & Hh & Hr)]. destruct (feed_fed (take a (inbox p)) _ _ Hr) as (b' & -> & Hfb).
    cbn [mbind res_bind mret res_ret]. destruct (addReply_slaves _ _) as [s2 out] eqn:Eout. eexists _, _. split; [done|].
    cbn [master set_master fmap option_fmap option_map from_option id default]. change (reploff (set_pending _ m')) with (reploff m'). fold a.
    pose proof (sys_advance H H x n p (take a (inbox p)) b' (Some (set_pending (drop a (inbox p)) m')) (drop a (inbox p)) (slaveseldb (srv p))
      Hs Hn (hext_refl H)) as Hadv. unfold advanced in Hadv. rewrite Eout in Hadv. cbn [fst snd] in Hadv.
    pose proof (f_equal fst Eout) as Es2. cbn [fst] in Es2. subst s2.
    assert (master_ok H (srv p) (take a (inbox p) ++ drop a (inbox p)) m) as Hmok' by (by rewrite take_drop).
    destruct (proj1 (fol_app _ _ _ _ _) (m_fol _ _ _ _ Hmok')) as [Hfw _]. apply Hadv; try done.
    + by eapply s_hist.
    + by left.
    + destruct Hfw as (h' & Hh' & _ & Hhi & _). destruct (s_hist H x Hs _ _ Hh') as (_ & _ & ?). lia.
    + by apply (m_cached _ _ _ _ Hmok).
    + intros E. destruct (n_own _ _ _ Hp E). pose proof (m_state _ _ _ _ Hmok). congruence.
    + intros m2 [= <-]. rewrite Em. replace (reploff m') with (moff (srv p) + Z.of_nat (length (take a (inbox p)))) by lia.
      apply master_applied; try done; [|by eexists]. rewrite length_drop. lia.
Qed.

Lemma read_ok H x n kk cmds : sys_ok H x → safe (exec_read n kk cmds None x).
Proof.
  intros Hs. unfold exec_read, exec_at. destruct (nodes x !! n) as [p|] eqn:Hn; [|by eapply safe_here].
  destruct (repl_state (srv p)) eqn:Hst; try (by eapply safe_here).
  destruct (master (srv p)) as [m|] eqn:Hm; [|by eapply safe_here].
  destruct (inbound (srv p) x) as [[c [|[| |b] ms]]|] eqn:Hin; try (by eapply safe_here).
  apply inbound_spec in Hin as (Hl & k & Hk & Hd).
  destruct (sys_receive H x n p m c k b ms kk Hs Hn Hm Hl Hk Hd) as [_ Hs1].
  set (x1 := set_down c _ x) in *. set (p1 := PNode _ _ (inbox p ++ take kk b) _) in *.
  unfold readQueryFromMaster. rewrite Hm. cbn [mbind option_bind]. fold (received (take kk b) m).
  rewrite <- (process_set_master cmds None _ (Some (received (take kk b) m)) (srv p)). change (set_master _ (srv p)) with (srv p1).
  destruct (processInputBufferAndReplicate _ _ _ _) as [r|] eqn:Hrun; [|by eapply safe_here].
  destruct (sys_process H _ n p1 _ cmds r Hs1 (lookup_insert_eq _ _ _) eq_refl Hrun) as (s & out & -> & Hs2).
  eexists. split; [done|]. exists H. change out with ([] ++ out). rewrite (set_node_twice n p1). exact Hs2.
Qed.
