(* ===== verification/ReplSafe.v ===== *)
(** * Why replication is safe

    Runs of the system of [ReplSystem] from its start, and the theorems about the states
    they reach: what servers with the same ID and offset have in common, what a partial
    resynchronization sends, what is under way to a replica, what the stream is made of,
    and the two ways in which a command that waits for RocksDB breaks this. *)

From S2P Require Import Prelude Util Cmds Resp Backlog Replication ReplSystem ReplInv ReplSteps.
From stdpp Require Import list gmap.
#[local] Open Scope Z_scope.

(** ** Runs *)

Lemma resume_ok H x n more multi cmds wait : sys_ok H x → safe (exec_resume n more multi cmds wait x).
Proof.
  intros Hs. unfold exec_resume, exec_at. destruct (nodes x !! n) as [p|] eqn:Hn; [|by eapply safe_here].
  pose proof (s_node H x Hs n p Hn) as Hp. destruct (master (srv p)) as [m|] eqn:Hm.
  - destruct (n_master _ _ _ Hp m Hm) as [_ _ _ _ _ _ _ _ -> _]. by eapply safe_here.
  - destruct (cached_master (srv p)) as [m|] eqn:Hc; [|by eapply safe_here].
    destruct (n_cached _ _ _ Hp m Hc) as [_ _ Em _]. assert (mc_rock m = false) as -> by (by rewrite Em). by eapply safe_here.
Qed.

Lemma exec_ok H x e : no_wait e → sys_ok H x → safe (exec e x).
Proof.
  intros Hw Hs. destruct e; cbn [no_wait] in Hw.
  - by eapply write_ok.
  - by eapply replicaof_ok.
  - by eapply promote_ok.
  - by eapply connect_ok.
  - by eapply sync_ok.
  - by eapply bgsave_end_ok.
  - by eapply cron_bgsave_ok.
  - by eapply send_bulk_ok.
  - by eapply cron_backlog_ok.
  - by eapply resize_ok.
  - by eapply reply_ok.
  - by eapply load_ok.
  - destruct wait; [done|]. by eapply read_ok.
  - by eapply resume_ok.
  - by eapply drop_ok.
  - by eapply drop_slave_ok.
  - by eapply save_ok.
  - by eapply restart_ok.
Qed.

Lemma run_ok es : ∀ x, inv x → Forall no_wait es → safe (run_events es x).
Proof.
  induction es as [|e es IH]; intros x [H Hs] Hf; cbn [run_events]; [by eapply safe_here|].
  apply Forall_cons_1 in Hf as [He Hf]. destruct (exec_ok H x e He Hs) as (x' & -> & Hi). cbn [mbind res_bind]. by apply IH.
Qed.

(** The servers at the start: different IDs, and room for a backlog. *)
Definition start_ok (ids : list (bytes * Z)) : Prop :=
  NoDup (fst <$> ids) ∧ Forall (fun '(i, size) => hexid i = true ∧ i ≠ zero_id ∧ 0 < size) ids.

Record booted (n : nat) (x : sys) : Prop := {
  b_links : links x = ∅;
  b_used : ∀ i, i ∈ used x → hexid i = true ∧ i ≠ zero_id;
  b_nodes : ∀ m p, nodes x !! m = Some p → (m < n)%nat ∧ ∃ i size,
    p = PNode (initServerConfig i size None) [] [] None ∧ i ∈ used x ∧ 0 < size;
  b_diff : ∀ m m' p p', nodes x !! m = Some p → nodes x !! m' = Some p' → m ≠ m' → replid (srv p) ≠ replid (srv p');
}.

Lemma booted_ok n x : booted n x → sys_ok ∅ x.
Proof.
  intros [B1 B2 B3 B4]. split; rewrite ?B1; try done.
  - intros m p Hm. destruct (B3 m p Hm) as (_ & i & size & -> & Hi & Hs). split; try done; cbn.
    + by left.
    + constructor.
    + by intros ? ?%elem_of_nil.
  - intros m m' p p' H1 H2 Hne _ _. by eapply B4.
  - intros m p sl Hm. destruct (B3 m p Hm) as (_ & i & size & -> & Hi & Hs). by intros ?%elem_of_nil.
  - intros m p c Hm. destruct (B3 m p Hm) as (_ & i & size & -> & Hi & Hs). done.
Qed.

Lemma start_booted ids : ∀ n x, booted n x → start_ok ids → (∀ i, i ∈ fst <$> ids → i ∉ used x) → ∃ m, booted m (start n ids x).
Proof.
  induction ids as [|[i size] ids IH]; intros n x Hx [Hnd Hf] Hfresh; cbn [start]; [by eexists|].
  cbn [fmap list_fmap] in Hnd. apply NoDup_cons in Hnd as [Hni Hnd]. apply Forall_cons_1 in Hf as [(Hi & Hz & Hs) Hf].
  assert (i ∉ used x) as Hu by (apply Hfresh; by left). destruct Hx as [B1 B2 B3 B4].
  apply (IH (S n)); [|done|].
  - split; cbn; try done.
    + intros j [->|Hj]%elem_of_cons; [done|by apply B2].
    + intros m p [[<- <-]|[Hne Hm]]%lookup_insert_Some.
      * split; [lia|]. exists i, size. split; [done|]. split; [by left|done].
      * destruct (B3 m p Hm) as (Hlt & j & sz & -> & Hj & Hsz). split; [lia|]. exists j, sz. split; [done|]. split; [by right|done].
    + intros m m' p p' [[<- <-]|[Hn1 H1]]%lookup_insert_Some [[<- <-]|[Hn2 H2]]%lookup_insert_Some Hne; [done| | |by eapply B4].
      * destruct (B3 m' p' H2) as (_ & j & sz & -> & Hj & _). cbn. by intros ->.
      * destruct (B3 m p H1) as (_ & j & sz & -> & Hj & _). cbn. by intros ->.
  - intros j Hj [->|Hin]%elem_of_cons; [done|]. apply (Hfresh j); [by right|done].
Qed.

Lemma init_inv ids : start_ok ids → inv (init_sys ids).
Proof.
  intros Hok. exists ∅. destruct (start_booted ids 0 (Sys ∅ ∅ [])) as [m Hm]; [|done|by intros ? _ ?%elem_of_nil|by eapply booted_ok].
  split; cbn; try done. by intros ? ?%elem_of_nil.
Qed.

(** States that are reached from the start without waiting. *)
Definition reached (ids : list (bytes * Z)) (es : list event) (x : sys) : Prop :=
  start_ok ids ∧ Forall no_wait es ∧ run_events es (init_sys ids) = Ok x.
Lemma reached_inv ids es x : reached ids es x → inv x.
Proof.
  intros (Hok & Hf & Hrun). destruct (run_ok es (init_sys ids) (init_inv ids Hok) Hf) as (x' & E & Hi). rewrite Hrun in E. by injection E as <-.
Qed.

(** ** Theorems *)

(** C7: whatever the servers do (writes, failovers, full and partial resynchronizations,
    broken connections, restarts from an RDB file), as long as no command of a stream
    waits for RocksDB: no assertion fails, and two servers that both have a backlog, the same
    replication ID and the same offset have the same contents.  Clients write only to
    servers that have no master (the default, replica-read-only). *)
Theorem replication_safe ids es :
  start_ok ids → Forall no_wait es →
  ∃ x, run_events es (init_sys ids) = Ok x ∧
    ∀ n n' p p', nodes x !! n = Some p → nodes x !! n' = Some p' → has_backlog (srv p) → has_backlog (srv p') →
      replid (srv p) = replid (srv p') → moff (srv p) = moff (srv p') → contents p = contents p'.
Proof.
  intros Hok Hf. destruct (run_ok es (init_sys ids) (init_inv ids Hok) Hf) as (x & Hrun & H & Hs). exists x. split; [done|].
  intros n n' p p' Hn Hn' Hb Hb' Hid Ho.
  destruct (n_bl _ _ _ (s_node H x Hs n p Hn) Hb) as [Ha _]. destruct (n_bl _ _ _ (s_node H x Hs n' p' Hn') Hb') as [Ha' _].
  rewrite <- Hid, <- Ho in Ha'. by eapply at_h_inj.
Qed.

(** C8: in a run in which no command of a stream waits for RocksDB, a replica that waits for the answer to PSYNC and whose request is accepted, under the
    ID of the master or under its second ID, is sent exactly what it is missing: its
    contents with the bytes of the backlog are the contents of the master. *)
Theorem psync_exact ids es x c k w t i o p pw s out :
  reached ids es x → links x !! c = Some k → who k = w → to k = t → request k = Some (i, o) →
  nodes x !! t = Some p → nodes x !! w = Some pw → listens (srv pw) = Some c →
  masterTryPartialResynchronization c i o (srv p) = Ok (Some (s, out)) →
  ∃ bs, out = [(c, MLine (continue_line (replid (srv p)))); (c, MStream bs)] ∧ contents p = contents pw ++ (TByte <$> bs).
Proof.
  intros [H Hs]%reached_inv Hk <- <- Hr Hp Hpw Hl Hm. pose proof (s_node H x Hs _ _ Hp) as Hok.
  destruct (psync_answer H (used x) p c i o Hok) as (r & E & Ha). rewrite Hm in E. injection E as <-.
  destruct Ha as (z & bs & Hz & Hb & _ & -> & Hid & Hfol & Hend). exists bs. split; [done|].
  pose proof (s_links H x Hs c k pw Hk Hpw) as Hlk.
  assert (∃ cm, bview (srv pw) c = PhPsync cm ∧ (i, o) = psync_request cm) as (cm & Ebv & Hreq).
  { destruct k as [kw kt kr kd]. cbn in Hr. subst kr.
    assert (eview (nodes x) c (Link kw kt (Some (i, o)) kd) = None) as Ee.
    { unfold eview. cbn. cbn in Hp. rewrite Hp. cbn. unfold aview. rewrite find_slave_None; [done|]. intros sl Hin. by eapply masters_link. }
    rewrite Ee in Hlk. apply ok_link_request in Hlk as [E|(cm & E & _ & ->)]; [|by exists cm].
    unfold bview in E. rewrite bool_decide_eq_true_2 in E by done. pose proof (s_node H x Hs _ _ Hpw) as Hokw. unfold listens in Hl.
    destruct (repl_state (srv pw)) eqn:Est; try done. destruct (master (srv pw)); done. }
  pose proof (bview_psync _ _ _ Ebv) as ->.
  destruct (accepted H x _ p _ pw i o z Hs Hp Hpw Hreq Hz Hb Hid) as (m & Hc & E1 & E2 & -> & Ha & Hag).
  replace (moff (srv pw) + 1 - 1) with (moff (srv pw)) in * by lia.
  pose proof (at_fol _ _ _ _ _ (agree_at _ _ _ _ _ Hag Ha) Hfol) as Hat. rewrite Hend in Hat.
  destruct (n_bl _ _ _ Hok Hb) as [Hat' _]. by eapply at_h_inj.
Qed.

(** C9: in a run in which no command of a stream waits for RocksDB, a replica that is connected to a server that still feeds it has the start of the
    contents of that server, and the rest has been read and not applied yet or is under
    way on the connection. *)
Theorem replica_prefix ids es x c k p pw m sl :
  reached ids es x → links x !! c = Some k → nodes x !! to k = Some p → nodes x !! who k = Some pw →
  master (srv pw) = Some m → mc_conn m = Some c → sl ∈ slaves (srv p) → sc_conn sl = c →
  ∃ ps, down k = MStream <$> ps ∧ contents p = contents pw ++ (TByte <$> inbox pw ++ concat ps) ∧ replid (srv pw) = replid (srv p).
Proof.
  intros [H Hs]%reached_inv Hk Hp Hpw Hm Hc Hin Hsl.
  pose proof (s_node H x Hs _ _ Hp) as Hok. pose proof (s_node H x Hs _ _ Hpw) as Hokw.
  destruct (n_master _ _ _ Hokw m Hm) as [B1 B2 B3 B4 B5 B6 B7 B8 B9 B10].
  pose proof (s_links H x Hs c k pw Hk Hpw) as Hlk.
  assert (bview (srv pw) c = PhStream (replid (srv pw)) (moff (srv pw) + Z.of_nat (length (inbox pw)))) as Ebv.
  { unfold bview, listens. rewrite B1, Hm. cbn. rewrite Hc, bool_decide_eq_true_2 by done. by rewrite B4, B6. }
  rewrite Ebv in Hlk. destruct Hlk as [_ (ps & Hd & Hf & He)].
  assert (eview (nodes x) c k = Some (sl, replid (srv p), moff (srv p))) as Ee.
  { unfold eview. rewrite Hp. cbn. unfold aview. destruct (find_slave c (slaves (srv p))) as [y|] eqn:Ey.
    - apply find_slave_Some in Ey as [Hy Hyc]. assert (y = sl) as ->; [|done].
      pose proof (n_nodup _ _ _ Hok) as Hnd. apply list_elem_of_lookup in Hin as [a Ha]. apply list_elem_of_lookup in Hy as [b Hb].
      assert (a = b) as ->; [|congruence]. eapply NoDup_lookup; [exact Hnd| |]; rewrite list_lookup_fmap; [rewrite Ha|rewrite Hb]; cbn; [done|congruence].
    - exfalso. unfold find_slave in Ey. destruct (list_find _ _) as [[]|] eqn:El; [done|]. apply list_find_None in El.
      rewrite Forall_forall in El. by eapply El. }
  destruct (He _ _ _ Ee) as (_ & Eid & Ez). exists ps. split; [done|]. split; [|done].
  destruct (n_bl _ _ _ Hokw B3) as [Hat _].
  pose proof (at_fol _ _ _ _ _ Hat (proj2 (fol_app H _ _ (inbox pw) (concat ps)) (conj B10 Hf))) as Hat2.
  destruct (n_bl _ _ _ Hok) as [Hat' _]; [apply (n_slaves _ _ _ Hok); intros E; rewrite E in Hin; by apply elem_of_nil in Hin|].
  rewrite Eid in Hat'. rewrite <- Ez in Hat'. rewrite length_app, Nat2Z.inj_add, Z.add_assoc in Hat2. by eapply at_h_inj.
Qed.

(** C24: in every state of a run in which no command of a stream waits for RocksDB, every server is well formed: the buffer of the backlog
    has its size, index and length are within it, the first offset fits the length; no
    two replicas share a connection, and there is a backlog if there are replicas; a
    server has the client of a master exactly when it is connected, a master has neither
    this client nor a cached master; the ID has 40 characters. *)
Theorem servers_wf ids es x n p :
  reached ids es x → nodes x !! n = Some p →
  (∀ buf, repl_backlog (bl (srv p)) = Some buf → Z.of_nat (length buf) = repl_backlog_size (bl (srv p)) ∧
     0 ≤ repl_backlog_idx (bl (srv p)) < repl_backlog_size (bl (srv p)) ∧
     0 ≤ repl_backlog_histlen (bl (srv p)) ≤ repl_backlog_size (bl (srv p)) ∧
     repl_backlog_off (bl (srv p)) = moff (srv p) - repl_backlog_histlen (bl (srv p)) + 1) ∧
  NoDup (sc_conn <$> slaves (srv p)) ∧ (slaves (srv p) ≠ [] → has_backlog (srv p)) ∧
  (repl_state (srv p) = REPL_STATE_CONNECTED ↔ master (srv p) ≠ None) ∧
  (master (srv p) ≠ None → has_backlog (srv p) ∧ cached_master (srv p) = None) ∧
  (masterhost (srv p) = None → repl_state (srv p) = REPL_STATE_NONE ∧ master (srv p) = None ∧ cached_master (srv p) = None) ∧
  length (replid (srv p)) = CONFIG_RUN_ID_SIZE ∧ 0 ≤ moff (srv p) < LLONG_MAX.
Proof.
  intros [H Hs]%reached_inv Hn. pose proof (s_node H x Hs n p Hn) as Hp.
  assert (∀ m, master (srv p) = Some m → master_ok H (srv p) (inbox p) m) as Hm by apply (n_master _ _ _ Hp).
  split; [|split; [by eapply n_nodup|split; [by eapply n_slaves|split; [|split; [|split; [|split; [|by eapply n_moff]]]]]]].
  - intros buf Eb. destruct (n_bl _ _ _ Hp) as [_ (h & _ & [(buf' & Eb' & Hl & Hi & Hw & _) Ho])]; [unfold has_backlog; by rewrite Eb|].
    simplify_eq. done.
  - split; [by apply (n_conn _ _ _ Hp)|]. destruct (master (srv p)) as [m|]; [|done]. intros _. by apply (Hm m).
  - destruct (master (srv p)) as [m|]; [|done]. intros _. split; by apply (Hm m).
  - intros Emh. destruct (n_own _ _ _ Hp Emh) as [Est _]. split; [done|]. split.
    + destruct (master (srv p)) as [m|]; [|done]. destruct (Hm m eq_refl). congruence.
    + destruct (cached_master (srv p)) as [m|] eqn:Ec; [|done]. by destruct (n_cached _ _ _ Hp m Ec).
  - destruct (s_used H x Hs _ (n_id _ _ _ Hp)) as [Hx _]. by apply hexid_spec in Hx as [? _].
Qed.

(** ** The stream is a sequence of requests *)

Definition SELECT : bytes := String.list_byte_of_string "SELECT".
Lemma selectcmd_spec dictid : is_ll dictid → selectcmd dictid = request_bytes [SELECT; sdsll2str dictid].
Proof.
  intros Hd. unfold selectcmd. rewrite ll2string_dflt by (done || by destruct (_ && _)).
  change (request_bytes [SELECT; sdsll2str dictid]) with (line_of x2a 2 ++ bulk SELECT ++ bulk (sdsll2str dictid) ++ []).
  rewrite app_nil_r. unfold bulk at 2, line_of at 2. unfold select_prefix, sdsfromlonglong.
  change (line_of x2a 2) with (String.list_byte_of_string "*2" ++ CRLF).
  change (bulk SELECT) with (String.list_byte_of_string "$6" ++ CRLF ++ String.list_byte_of_string "SELECT" ++ CRLF).
  rewrite <- (app_comm_cons _ _ x24), <- !app_assoc. reflexivity.
Qed.

(** The requests that are put in the stream for a command. *)
Definition requests_of (dictid : Z) (argv : list argobj) (s : rserver) : list (list bytes) :=
  (if slaveseldb s =? dictid then [] else [[SELECT; sdsll2str dictid]]) ++ [obj_bytes <$> argv].
Lemma write_bytes_spec dictid argv s : is_ll dictid → argv_ok argv → write_bytes dictid argv s = stream (requests_of dictid argv s).
Proof.
  intros Hd Ha. unfold write_bytes, requests_of, stream. rewrite bind_app, slave_bytes_spec by done. cbn [mbind list_bind].
  rewrite app_nil_r. destruct (slaveseldb s =? dictid); [done|]. rewrite selectcmd_spec by done. cbn [mbind list_bind]. by rewrite app_nil_r.
Qed.

(** What a replica gets of [w]: nothing before its BGSAVE starts, then [w] is kept until it
    is online, then it is sent. *)
Definition gets (w : bytes) (sl sl' : sclient) (ps : list bytes) : Prop :=
  replstate sl' = replstate sl ∧
  match replstate sl with
  | SLAVE_STATE_WAIT_BGSAVE_START => sc_reply sl' = sc_reply sl ∧ ps = []
  | SLAVE_STATE_ONLINE => sc_reply sl' = sc_reply sl ∧ concat ps = w
  | _ => sc_reply sl' = sc_reply sl ++ w ∧ ps = []
  end.
Definition all_get (w : bytes) (s s' : rserver) (out : output) : Prop :=
  ∀ c sl, find_slave c (slaves s) = Some sl →
    ∃ sl' ps, find_slave c (slaves s') = Some sl' ∧ msgs_for c out = MStream <$> ps ∧ gets w sl sl' ps.

Lemma addReply_gets w s : NoDup (sc_conn <$> slaves s) →
  all_get w s (addReply_slaves w s).1 (addReply_slaves w s).2 ∧ NoDup (sc_conn <$> slaves (addReply_slaves w s).1).
Proof.
  intros Hnd. unfold addReply_slaves. cbn [fst snd slaves set_slaves]. destruct (step_map (addReply_slave w) (slaves s)) as [<- <-].
  pose proof (advance_good w) as Hg. split; [|by apply step_nodup]. intros c sl Hf.
  destruct (step_find _ (slaves s) c Hg Hnd) as [H1 H2]. unfold addReply_slaves. cbn [slaves set_slaves]. rewrite H1, H2, Hf.
  cbn [mbind option_bind fmap option_fmap option_map default from_option compose g_map fst snd id].
  unfold addReply_slave, gets. destruct (replstate sl) eqn:E; cbn [fst snd fmap list_fmap].
  - exists sl, []. by rewrite E.
  - eexists _, []. done.
  - eexists _, []. done.
  - exists sl, [w]. rewrite E. cbn. by rewrite app_nil_r.
Qed.

Lemma all_get_app w1 w2 s s1 s2 o1 o2 : all_get w1 s s1 o1 → all_get w2 s1 s2 o2 → all_get (w1 ++ w2) s s2 (o1 ++ o2).
Proof.
  intros H1 H2 c sl Hf. destruct (H1 c sl Hf) as (sl1 & ps1 & Hf1 & Hm1 & Est1 & Hg1).
  destruct (H2 c sl1 Hf1) as (sl2 & ps2 & Hf2 & Hm2 & Est2 & Hg2). exists sl2, (ps1 ++ ps2). split; [done|].
  rewrite msgs_for_app, Hm1, Hm2, fmap_app. split; [done|]. split; [congruence|]. rewrite Est1 in Hg2.
  destruct (replstate sl); destruct Hg1 as [R1 E1], Hg2 as [R2 E2]; subst; rewrite ?concat_app, R2, R1, ?app_assoc; done.
Qed.

Lemma select_gets dictid b s : NoDup (sc_conn <$> slaves s) →
  let r := select_part dictid b s in
  all_get (select_bytes dictid s) s r.1 r.2 ∧ NoDup (sc_conn <$> slaves r.1).
Proof.
  intros Hnd. unfold select_part, select_bytes. destruct (slaveseldb s =? dictid); cbn zeta.
  - split; [|done]. intros c sl Hf. exists sl, []. split; [done|]. split; [done|]. split; [done|].
    cbn. rewrite app_nil_r. by destruct (replstate sl).
  - by apply (addReply_gets (selectcmd dictid) (set_bl b s)).
Qed.

(** For a command, [replicationFeedSlaves] adds to the backlog the RESP request of the
    command, after a SELECT request if the stream has another database; every replica gets
    the same bytes, kept until it is online, and the offset advances by their number. *)
Theorem feed_requests dictid argv s st :
  masterhost s = None → holds (bl s) st → is_ll dictid → argv_ok argv → NoDup (sc_conn <$> slaves s) →
  ∃ s' out, replicationFeedSlaves dictid argv s = Ok (s', out) ∧ slaveseldb s' = dictid ∧
    let w := stream (requests_of dictid argv s) in
    holds (bl s') (st ++ w) ∧ moff s' = moff s + Z.of_nat (length w) ∧ all_get w s s' out.
Proof.
  intros Hm Hh Hd Ha Hnd. rewrite <- write_bytes_spec by done.
  change (write_bytes dictid argv s) with (select_bytes dictid s ++ slave_bytes argv).
  destruct (feed_run dictid argv s st Hm Hh Ha) as (b1 & b2 & Hf1 & Hf2 & _ & E).
  eexists _, _. split; [exact E|]. split; [done|]. cbn zeta.
  destruct (fed_by_app _ _ _ _ _ Hf1 Hf2 st Hh) as (Hh2 & Hmo & _). split; [done|]. split; [done|].
  destruct (select_gets dictid b1 s Hnd) as [Hg1 Hnd1]. eapply all_get_app; [exact Hg1|].
  apply (addReply_gets (slave_bytes argv) (set_bl b2 (set_slaveseldb dictid (select_part dictid b1 s).1))), Hnd1.
Qed.

(** C37: the connection to the master breaks while a command of its stream waits for RocksDB.
    The client becomes the cached master without its command, but it still waits for the
    key, and when the key has been loaded the command that is not there is looked up. *)
Theorem cached_master_crash x n p m more multi cmds wait wiped :
  nodes x !! n = Some p → repl_state (srv p) = REPL_STATE_CONNECTED → master (srv p) = Some m →
  cached_master (srv p) = None → mc_rock m = true →
  ∃ x1, exec (EDrop n false wiped) x = Ok x1 ∧ exec (EResume n more multi cmds wait) x1 = Abort "c->cmd is NULL".
Proof.
  intros Hn Hst Hm Hc Hr. cbn [exec]. unfold exec_drop, exec_at. rewrite Hn, Hst. unfold freeMaster, replicationCacheMaster.
  rewrite Hm, Hc. cbn [res_of_option mbind res_bind]. rewrite bool_decide_eq_true_2 by done. cbn [serverAssert mbind res_bind mret res_ret].
  eexists. split; [done|]. unfold exec_resume, exec_at. cbn [nodes set_node]. rewrite lookup_insert_eq. cbn. by rewrite Hr.
Qed.

(** The reads of a master's stream whose first command waits, and its resumption. *)
Lemma resume_steps x n p m c k b ms kk l :
  nodes x !! n = Some p → repl_state (srv p) = REPL_STATE_CONNECTED → master (srv p) = Some m → mc_rock m = false →
  listens (srv p) = Some c → links x !! c = Some k → down k = MStream b :: ms →
  (l ≤ length (mc_querybuf m ++ take kk b))%nat →
  let rest := drop l (mc_querybuf m ++ take kk b) in
  let a := Z.to_nat (read_reploff m + Z.of_nat (length (take kk b)) - Z.of_nat (length rest) - reploff m) in
  ∃ x1 x2 m2, exec (ERead n kk [] (Some l)) x = Ok x1 ∧ exec (EResume n false false [] None) x1 = Ok x2 ∧
    nodes x2 = <[n := PNode (set_master (Some m2) (srv p)) (contents p ++ (TByte <$> take a (inbox p ++ take kk b)))
                        (drop a (inbox p ++ take kk b)) (disk p)]> (nodes x) ∧
    reploff m2 = read_reploff m + Z.of_nat (length (take kk b)) - Z.of_nat (length rest).
Proof.
  intros Hn Hst Hm Hr Hl Hk Hd Hlen rest a. cbn [exec]. unfold exec_read, exec_at. rewrite Hn, Hst, Hm. unfold inbound. rewrite Hl.
  cbn [mbind option_bind]. rewrite Hk. cbn [mbind option_bind]. rewrite Hd. unfold readQueryFromMaster. rewrite Hm. cbn [mbind option_bind].
  unfold processInputBufferAndReplicate, processInputBuffer. cbn [mc_rock]. rewrite Hr. cbn [process_cmds mbind option_bind mc_querybuf].
  rewrite bool_decide_eq_true_2 by (cbn; lia). cbn [mbind option_bind set_rock set_query reploff]. rewrite Z.sub_diag. cbn [Z.eqb mbind res_bind].
  eexists. do 2 eexists. split; [done|]. unfold exec_resume, exec_at. cbn [nodes set_node]. rewrite lookup_insert_eq.
  cbn [srv master set_master mc_rock checkThenResumeRockClient negb mc_cmd _resumeRockClient fmap option_fmap option_map].
  cbn. split; [done|]. rewrite Z.sub_diag. cbn. rewrite app_nil_r, insert_insert_eq.
  assert (∀ z, read_reploff m + Z.of_nat (length (take kk b)) - Z.of_nat (length rest) + 0 - z =
    read_reploff m + Z.of_nat (length (take kk b)) - Z.of_nat (length rest) - z) as Hz by lia.
  split; [f_equal; f_equal; unfold applied_off; cbn; fold rest; by rewrite Hz|].
  unfold applied_off. cbn. subst rest. lia.
Qed.

(** C36: a replica reads its master's stream and a command waits for RocksDB; the value is loaded
    and the command is executed.  The command is applied: the contents grow by its bytes and
    by those of an open transaction before it, and the offset of the master's client moves.
    But nothing is fed: the backlog, the replicas and the offset under which the server
    answers PSYNC stay as they were.  So every server that has the same replication ID and the
    same offset has other contents now, and the equality of [replication_safe] is lost. *)
Theorem resume_diverges ids es x n p m c k b ms kk l :
  reached ids es x → nodes x !! n = Some p → repl_state (srv p) = REPL_STATE_CONNECTED → master (srv p) = Some m →
  listens (srv p) = Some c → links x !! c = Some k → down k = MStream b :: ms →
  (0 < l ≤ length (mc_querybuf m ++ take kk b))%nat →
  ∃ x1 x2 p2 m2 a, exec (ERead n kk [] (Some l)) x = Ok x1 ∧ exec (EResume n false false [] None) x1 = Ok x2 ∧
    nodes x2 !! n = Some p2 ∧ (l ≤ a)%nat ∧ contents p2 = contents p ++ (TByte <$> take a (inbox p ++ take kk b)) ∧
    master (srv p2) = Some m2 ∧ reploff m2 = reploff m + Z.of_nat a ∧
    bl (srv p2) = bl (srv p) ∧ slaves (srv p2) = slaves (srv p) ∧ replid (srv p2) = replid (srv p) ∧
    ∀ n' p', n' ≠ n → nodes x2 !! n' = Some p' → has_backlog (srv p') →
      replid (srv p') = replid (srv p2) → moff (srv p') = moff (srv p2) → contents p' ≠ contents p2.
Proof.
  intros Hre Hn Hst Hm Hl Hk Hd Hlen. destruct (reached_inv _ _ _ Hre) as [H Hs].
  pose proof (s_node H x Hs n p Hn) as Hp. destruct (n_master _ _ _ Hp m Hm) as [_ _ Hb _ Ho Hrd _ Hq Hr _].
  destruct (resume_steps x n p m c k b ms kk l Hn Hst Hm Hr Hl Hk Hd (proj2 Hlen)) as (x1 & x2 & m2 & H1 & H2 & Hx2 & Hm2).
  rewrite length_drop, length_app in Hm2, Hx2. rewrite length_app in Hlen. set (a := Z.to_nat _) in Hx2.
  assert (l ≤ a ≤ length (inbox p ++ take kk b))%nat as Ha by (rewrite length_app; lia).
  do 5 eexists. split; [exact H1|]. split; [exact H2|]. rewrite Hx2. split; [apply lookup_insert_eq|]. split; [exact (proj1 Ha)|].
  split; [done|]. split; [done|]. split; [lia|]. do 3 (split; [done|]). cbn [srv set_master replid bl contents].
  intros n' p' Hne Hn' Hb' Hid Hof E. rewrite lookup_insert_ne in Hn' by done.
  destruct (n_bl _ _ _ Hp Hb) as [Hat _]. destruct (n_bl _ _ _ (s_node H x Hs n' p' Hn') Hb') as [Hat' _].
  change (moff (set_master _ _)) with (moff (srv p)) in Hof. rewrite Hid, Hof in Hat'. pose proof (at_h_inj _ _ _ _ _ Hat Hat') as Ec.
  rewrite <- Ec in E. apply (f_equal length) in E. rewrite length_app, length_fmap, length_take in E. lia.
Qed.

(** ** Examples *)

Definition wid (b : byte) : bytes := replicate 40 b.
Definition w_ids : list (bytes * Z) := [(wid x31, 64); (wid x32, 64); (wid x33, 64)].
(** [INCR k]: a command with a check function. *)
Definition w_incr : list argobj := [AStr [x49; x4e; x43; x52]; AStr [x6b]].
(** Server [n] becomes a replica of server 0, with a full resynchronization. *)
Definition w_full (n : nat) (c : conn) (newid : byte) : list event :=
  [EReplicaof n 0 false; EConnect n c; ESync c (wid newid) false true; EReply n; EBgsaveEnd 0 true true; ESendBulk 0 c;
   ELoad n; ERead n 0 [] None].
(** Servers 1 and 2 are replicas of server 0; a write; server 1 reads it, server 2 does not,
    server 1 is promoted, and server 2 asks it for a partial resynchronization. *)
Definition w_failover (wait : bool) : list event :=
  w_full 1 10 x61 ++ w_full 2 11 x62 ++
  [EWrite 0 0 w_incr; ERead 1 100 [(23%nat, false)] None] ++
  (if wait then [ERead 1 100 [] (Some 21%nat); EResume 1 false false [] None] else [ERead 1 100 [(21%nat, false)] None]) ++
  [EDrop 2 false false; EPromote 1 (wid x63) false; EReplicaof 2 1 false; EConnect 2 12].
Definition w_continue : list event := [ESync 12 (wid x64) false true; EReply 2].
Definition w_state (es : list event) : sys :=
  match run_events es (init_sys w_ids) with Ok x => x | Abort _ => Sys ∅ ∅ [] end.
Definition w_node (n : nat) (x : sys) : pnode :=
  default (PNode (initServerConfig [] 1 None) [] [] None) (nodes x !! n).

Lemma w_start : start_ok w_ids.
Proof.
  split; [|by repeat constructor; vm_compute]. apply (bool_decide_unpack _). by vm_compute.
Qed.

(** The run of a failover in which the command waited: server 2 is connected to server 1 under
    the same ID and at the same offset, nothing is under way, and the two have different
    contents. *)
Example resume_failover :
  ∃ p p', let x := w_state (w_failover true ++ w_continue ++ [ERead 2 100 [(23%nat, false)] None]) in
    nodes x !! 1%nat = Some p ∧ nodes x !! 2%nat = Some p' ∧ has_backlog (srv p) ∧ has_backlog (srv p') ∧
    replid (srv p) = replid (srv p') ∧ moff (srv p) = moff (srv p') ∧
    links x !! 12%nat = Some (Link 2 1 None []) ∧ listens (srv p') = Some 12%nat ∧ contents p ≠ contents p'.
Proof.
  set (es := w_failover true ++ w_continue ++ [ERead 2 100 [(23%nat, false)] None]).
  exists (w_node 1 (w_state es)), (w_node 2 (w_state es)). cbv zeta.
  split; [vm_compute; reflexivity|]. split; [vm_compute; reflexivity|].
  split; [by vm_compute|]. split; [by vm_compute|]. split; [vm_compute; reflexivity|]. split; [vm_compute; reflexivity|].
  split; [vm_compute; reflexivity|]. split; [vm_compute; reflexivity|]. by vm_compute.
Qed.

Definition w_run : list event := w_failover false ++ w_continue ++ [ERead 2 100 [(44%nat, false)] None].
Definition w_asks : sys := w_state (w_failover false).
Definition w_goes_on : sys := w_state (w_failover false ++ w_continue).
Definition w_waits : sys :=
  w_state (w_full 1 10 x61 ++ [EWrite 0 0 w_incr; ERead 1 100 [(23%nat, false)] None; ERead 1 100 [] (Some 21%nat)]).

Lemma replication_safe_witness :
  run_events w_run (init_sys w_ids) = Ok (w_state w_run) ∧ moff (srv (w_node 1 (w_state w_run))) = 44 ∧
  moff (srv (w_node 2 (w_state w_run))) = 44 ∧ contents (w_node 1 (w_state w_run)) = contents (w_node 2 (w_state w_run)).
Proof.
  assert (run_events w_run (init_sys w_ids) = Ok (w_state w_run)) as Hx by (vm_compute; reflexivity).
  destruct (replication_safe w_ids w_run w_start) as (x' & Hrun & Hsame); [by repeat constructor|].
  assert (x' = w_state w_run) as -> by congruence. split; [exact Hx|]. split; [vm_compute; reflexivity|]. split; [vm_compute; reflexivity|].
  apply (Hsame 1%nat 2%nat); by vm_compute.
Defined.

Lemma psync_exact_witness :
  ∃ bs, contents (w_node 1 w_asks) = contents (w_node 2 w_asks) ++ (TByte <$> bs) ∧ contents (w_node 2 w_asks) = [] ∧
    length (contents (w_node 1 w_asks)) = 44%nat.
Proof.
  assert (reached w_ids (w_failover false) w_asks) as Hre.
  { split; [exact w_start|]. split; [by repeat constructor|]. vm_compute. reflexivity. }
  assert (∃ s out, masterTryPartialResynchronization 12 (wid x61) [x31] (srv (w_node 1 w_asks)) = Ok (Some (s, out))) as (s & out & Hm)
    by (do 2 eexists; vm_compute; reflexivity).
  destruct (psync_exact w_ids (w_failover false) w_asks 12 (Link 2 1 (Some (wid x61, [x31])) []) 2 1 (wid x61) [x31]
    (w_node 1 w_asks) (w_node 2 w_asks) s out Hre) as (bs & _ & E);
    [vm_compute; reflexivity|reflexivity|reflexivity|reflexivity|vm_compute; reflexivity..|exact Hm|].
  exists bs. split; [exact E|]. split; vm_compute; reflexivity.
Defined.

Lemma replica_prefix_witness :
  ∃ ps, contents (w_node 1 w_goes_on) = contents (w_node 2 w_goes_on) ++ (TByte <$> inbox (w_node 2 w_goes_on) ++ concat ps) ∧
    contents (w_node 2 w_goes_on) = [].
Proof.
  assert (reached w_ids (w_failover false ++ w_continue) w_goes_on) as Hre.
  { split; [exact w_start|]. split; [by repeat constructor|]. vm_compute. reflexivity. }
  assert (SClient 12 SLAVE_STATE_ONLINE 0 [] [] ∈ slaves (srv (w_node 1 w_goes_on))) as Hin.
  { replace (slaves (srv (w_node 1 w_goes_on))) with [SClient 12 SLAVE_STATE_ONLINE 0 [] []] by (vm_compute; reflexivity). by left. }
  assert (∃ k, links w_goes_on !! 12%nat = Some k ∧ to k = 1%nat ∧ who k = 2%nat) as (k & Hk & Ht & Hw)
    by (eexists; vm_compute; repeat split).
  assert (∃ m, master (srv (w_node 2 w_goes_on)) = Some m ∧ mc_conn m = Some 12%nat) as (m & Hm & Hc)
    by (eexists; vm_compute; repeat split).
  destruct (replica_prefix w_ids (w_failover false ++ w_continue) w_goes_on 12 k (w_node 1 w_goes_on) (w_node 2 w_goes_on) m
    (SClient 12 SLAVE_STATE_ONLINE 0 [] []) Hre Hk)
    as (ps & _ & E & _); [rewrite Ht; vm_compute; reflexivity|rewrite Hw; vm_compute; reflexivity|exact Hm|exact Hc|exact Hin|reflexivity|].
  exists ps. split; [exact E|]. vm_compute. reflexivity.
Defined.

Lemma cached_master_crash_witness :
  ∃ x1, exec (EDrop 1 false false) w_waits = Ok x1 ∧ exec (EResume 1 false false [] None) x1 = Abort "c->cmd is NULL".
Proof.
  assert (∃ m, master (srv (w_node 1 w_waits)) = Some m ∧ mc_rock m = true) as (m & Hm & Hr) by (eexists; vm_compute; repeat split).
  apply (cached_master_crash w_waits 1 (w_node 1 w_waits) m); [vm_compute; reflexivity|vm_compute; reflexivity|exact Hm|vm_compute; reflexivity|exact Hr].
Defined.

(** Servers 1 and 2 are at the same offset, and INCR is under way to both. *)
Definition w_level : list event :=
  w_full 1 10 x61 ++ w_full 2 11 x62 ++
  [EWrite 0 0 w_incr; ERead 1 100 [(23%nat, false)] None; ERead 2 100 [(23%nat, false)] None].
Lemma resume_diverges_witness :
  ∃ x1 x2 p2, exec (ERead 1 100 [] (Some 21%nat)) (w_state w_level) = Ok x1 ∧ exec (EResume 1 false false [] None) x1 = Ok x2 ∧
    nodes x2 !! 1%nat = Some p2 ∧ length (contents p2) = 44%nat ∧ moff (srv p2) = moff (srv (w_node 2 (w_state w_level))) ∧
    contents (w_node 2 (w_state w_level)) ≠ contents p2.
Proof.
  assert (reached w_ids w_level (w_state w_level)) as Hre.
  { split; [exact w_start|]. split; [by repeat constructor|]. vm_compute. reflexivity. }
  assert (∃ m, master (srv (w_node 1 (w_state w_level))) = Some m) as [m Hm] by (eexists; vm_compute; reflexivity).
  assert (∃ k b, links (w_state w_level) !! 10%nat = Some k ∧ down k = [MStream b] ∧ length b = 21%nat) as (k & b & Hk & Hd & Hlb)
    by (do 2 eexists; vm_compute; repeat split).
  destruct (resume_diverges w_ids w_level (w_state w_level) 1 (w_node 1 (w_state w_level)) m 10 k b [] 100 21 Hre)
    as (x1 & x2 & p2 & m2 & a & H1 & H2 & Hp2 & _ & Hc & _ & _ & Hbl & _ & Hid & Hd2);
    [vm_compute; reflexivity|vm_compute; reflexivity|exact Hm|vm_compute; reflexivity|exact Hk|exact Hd
    |rewrite length_app, take_ge by lia; lia|].
  exists x1, x2, p2. split; [exact H1|]. split; [exact H2|]. split; [exact Hp2|].
  vm_compute in H1. injection H1 as <-. vm_compute in H2. injection H2 as <-. vm_compute in Hp2. injection Hp2 as <-.
  split; [vm_compute; reflexivity|]. split; [vm_compute; reflexivity|].
  apply (Hd2 2%nat); [done|vm_compute; reflexivity|by vm_compute|vm_compute; reflexivity..].
Defined.

Lemma servers_wf_witness :
  slaves (srv (w_node 1 w_goes_on)) ≠ [] ∧ has_backlog (srv (w_node 1 w_goes_on)) ∧
  cached_master (srv (w_node 2 w_goes_on)) = None ∧ length (replid (srv (w_node 2 w_goes_on))) = CONFIG_RUN_ID_SIZE.
Proof.
  assert (reached w_ids (w_failover false ++ w_continue) w_goes_on) as Hre.
  { split; [exact w_start|]. split; [by repeat constructor|]. vm_compute. reflexivity. }
  destruct (servers_wf w_ids _ w_goes_on 1 (w_node 1 w_goes_on) Hre) as (_ & _ & Hs & _); [vm_compute; reflexivity|].
  destruct (servers_wf w_ids _ w_goes_on 2 (w_node 2 w_goes_on) Hre) as (_ & _ & _ & _ & Hm & _ & Hl & _); [vm_compute; reflexivity|].
  assert (slaves (srv (w_node 1 w_goes_on)) ≠ []) as Hsl by (vm_compute; discriminate).
  split; [exact Hsl|]. split; [exact (Hs Hsl)|]. split; [|exact Hl]. apply Hm. vm_compute. discriminate.
Defined.

(** A master with a replica that is online and one that waits for its file. *)
Definition w_master : rserver :=
  let s := initServerConfig (wid x31) 64 None in
  set_slaves [SClient 7 SLAVE_STATE_ONLINE 0 [] []; SClient 8 SLAVE_STATE_WAIT_BGSAVE_END 0 [] []] 
    (match createReplicationBacklog (bl s) with Ok b => set_bl b s | Abort _ => s end).
Lemma feed_requests_witness :
  ∃ s' out, replicationFeedSlaves 3 w_incr w_master = Ok (s', out) ∧ moff s' = 44 ∧
    holds (bl s') (stream [[SELECT; [x33]]; [[x49; x4e; x43; x52]; [x6b]]]) ∧
    all_get (stream [[SELECT; [x33]]; [[x49; x4e; x43; x52]; [x6b]]]) w_master s' out.
Proof.
  destruct (feed_requests 3 w_incr w_master []) as (s' & out & E & _ & Hh & Hm & Hg).
  - reflexivity.
  - destruct (create_spec (bl (initServerConfig (wid x31) 64 None)) []) as (b & Hb & Hh & _); [reflexivity|reflexivity|].
    unfold w_master. rewrite Hb. exact Hh.
  - unfold is_ll, LLONG_MIN, LLONG_MAX. lia.
  - split; [repeat constructor; vm_compute; intuition discriminate|vm_compute; discriminate].
  - apply (bool_decide_unpack _). vm_compute. exact I.
  - exists s', out. split; [exact E|]. split; [rewrite Hm; vm_compute; reflexivity|]. split; [exact Hh|exact Hg].
Defined.
